(* ===== verification/_CoqProject ===== *)
-Q . S2P
Prelude.v
UtilsString.v
UtilsStringFacts.v
Lexing.v
LexingFacts.v
SqlIteratorFacts.v
SqlString.v
SqlStringFacts.v
SqlWild.v
SqlWildFacts.v
Version.v
VersionFacts.v
SqlSplitter.v
SqlSplitterFacts.v
UtilsGeneral.v
UtilsGeneralFacts.v
NaturalCompare.v
NaturalCompareFacts.v
GtidUtils.v
GtidUtilsFacts.v
GtidServer.v
ReplicationGtid.v
ReplicationGtidFacts.v
SyncQueue.v
SyncQueueFacts.v
ThreadPool.v
ThreadPoolFacts.v
BlockAllocator.v
Allocator.v
AllocatorFacts.v
AllocatedFile.v
AllocatedFileFacts.v
Dialect.v
Scanner.v
ScannerFacts.v
ImportTable.v
ImportTableFacts.v
DumpWriter.v
DumpWriterFacts.v
DumpIndex.v
DumpIndexFacts.v
DumpImportFacts.v
Decimal.v
DecimalFacts.v
Chunking.v
ChunkConditions.v
ChunkingFacts.v
ChunkRowsFacts.v
ChunkKeysFacts.v
ChunkIndexFacts.v
DumpFiles.v
DumpFilesFacts.v
DumpReader.v
DumpReaderFacts.v
BaseTokenizer.v
Uri.v
UriTokensFacts.v
UriEncodeFacts.v
UriFacts.v
Paths.v
PathsFacts.v
StdMap.v
ConfigFile.v
OptionLinesFacts.v
ConfigFileFacts.v
ConfigWriteFacts.v
ObjectStorage.v
ObjectStorageFacts.v
SqlTokensFacts.v
UserPrivileges.v
UserPrivilegesFacts.v
PrivilegeLevelsFacts.v
ScriptValue.v
ScriptValueFacts.v
ScriptReprFacts.v
JsonDumper.v
JsonDumperFacts.v
ProgressLog.v
ProgressLogFacts.v
