(* ===== verification/Prelude.v ===== *)
(** * MySQL Shell: a verification of its core logic

    MySQL Shell is a client for MySQL servers: an interactive shell, an
    administration API for replicated topologies, and utilities to dump, load and
    check schemas.  Around the sessions, files and scripting engines, it has a core
    of its own logic: it cuts scripts into statements, builds SQL text from values
    supplied by users, matches and quotes object names, orders versions and file
    names, decides from GTID sets whether a replica can join a topology and from grants
    whether a user may do something, reads and writes addresses and option files,
    distributes work over threads, keeps files in memory and in object storage, divides tables
    into chunks, writes them as text and divides text into rows again.  This development models that core and proves it correct.

    ** Files and sources (paths below src/)

    - [Prelude]: bytes and byte strings, <cctype>, exceptions as values of [result],
      searching as in std::string_view, machine integers, decimal numbers; the
      tactics [case_tests], [bool_to_prop], [by_bytes] and the hint database [shell].
    - [UtilsString], [UtilsStringFacts]: mysqlshdk/libs/utils/utils_string.{h,cc}.
    - [Lexing], [LexingFacts]: mysqlshdk/libs/utils/utils_lexing.{h,cc}; the span
      functions with their skip tables and [SQL_iterator]; [SqlIteratorFacts]: what the
      iterator skips.
    - [SqlString], [SqlStringFacts] and [SqlWild], [SqlWildFacts]:
      mysqlshdk/libs/utils/utils_sqlstring.{h,cc}; escaping, quoting, the [sqlstring]
      formatter, and LIKE patterns.
    - [Version], [VersionFacts]: mysqlshdk/libs/utils/version.{h,cc}; parsing,
      printing, order and the release calendar.
    - [SqlSplitter], [SqlSplitterFacts]: mysqlshdk/libs/utils/utils_mysql_parsing.{h,cc};
      the statement splitter with its buffer memory and context stack, and its drivers.
    - [UtilsGeneral], [UtilsGeneralFacts]: mysqlshdk/libs/utils/utils_general.{h,cc};
      accounts, qualified names, string literals, globs, naming styles, URI passwords.
    - [NaturalCompare], [NaturalCompareFacts]: mysqlshdk/libs/utils/natural_compare.h.
    - [GtidUtils], [GtidUtilsFacts]: mysqlshdk/libs/mysql/gtid_utils.{h,cc}; GTID
      ranges and sets kept as text.
    - [GtidServer]: the class [GtidServer], what the code relies on from GTID_SUBTRACT
      of the server, and the set algebra of [Gtid_set] proved against it; the module
      [Sample] implements the class.
    - [ReplicationGtid], [ReplicationGtidFacts]: the decisions on GTID sets of
      mysqlshdk/libs/mysql/replication.cc.
    - [SyncQueue], [SyncQueueFacts]: mysqlshdk/libs/utils/synchronized_queue.h, as a
      queue and as a monitor shared by threads.
    - [ThreadPool], [ThreadPoolFacts]: mysqlshdk/libs/utils/thread_pool.{h,cc}.
    - [BlockAllocator]: the class of allocators of blocks and the store they manage;
      [Allocator], [AllocatorFacts] and [AllocatedFile], [AllocatedFileFacts]: the
      allocator, which is an instance of it, and files in memory, of
      mysqlshdk/libs/storage/backend/in_memory.
    - [Dialect]: modules/util/import_table/dialect.{h,cc}; [Scanner], [ScannerFacts]:
      scanner.{h,cc}, which finds rows in blocks of a file; [ImportTable],
      [ImportTableFacts]: [scan_file] of import_table.cc, which divides a file into chunks.
    - [DumpWriter], [DumpWriterFacts]: modules/util/dump/text_dump_writer.{h,cc} and
      dialect_dump_writer.h with the buffer of dump_writer.{h,cc}; [DumpIndex],
      [DumpIndexFacts]: class [Dump_writer] with its index file, and class [Index_file] of
      modules/util/load/dump_reader.cc.
    - [DumpImportFacts]: writers, scanner and chunks together.
    - [Decimal], [DecimalFacts]: mysqlshdk/libs/utils/bignum.{h,cc} and
      modules/util/dump/decimal.{h,cc}; the class [BN] is what they use of OpenSSL.
    - [Chunking]: the division of a table into chunks of modules/util/dump/dumper.cc and the
      choice of an index of indexes.cc; [ChunkConditions]: the meaning of the conditions of
      the chunks; [ChunkingFacts] (ranges of numbers), [ChunkRowsFacts] (rows of the chunks),
      [ChunkKeysFacts] (columns that are not numbers), [ChunkIndexFacts] (the index).
    - [DumpFiles], [DumpFilesFacts]: the names of the files of a dump
      (modules/util/common/dump/utils.cc); [DumpReader], [DumpReaderFacts]: the search for
      them and the chunks that are handed out to be loaded (modules/util/load/dump_reader.cc).
    - [BaseTokenizer] and [Uri]: mysqlshdk/libs/utils/base_tokenizer.{h,cc} and the encoder and
      parser of addresses of mysqlshdk/libs/db (uri_encoder.cc, uri_parser.cc, generic_uri.cc);
      [UriTokensFacts], [UriEncodeFacts], [UriFacts]: tokens, encoded parts, whole addresses.
    - [Paths], [PathsFacts]: mysqlshdk/libs/utils/utils_path{,_unix}.cc.
    - [StdMap]: std::map and std::set as sorted lists, with the order a parameter.
    - [ConfigFile]: mysqlshdk/libs/config/config_file.{h,cc}; [OptionLinesFacts]: its lines;
      [ConfigFileFacts]: the operations in memory and reading; [ConfigWriteFacts]: writing.
    - [ObjectStorage], [ObjectStorageFacts]: mysqlshdk/libs/storage/backend/object_storage.{h,cc}.
    - [UserPrivileges]: mysqlshdk/libs/mysql/user_privileges.{h,cc}; [SqlTokensFacts]: the tokens
      of a statement; [UserPrivilegesFacts]: parsing; [PrivilegeLevelsFacts]: the lookup.
    - [ScriptValue]: the values of the scripting layer of mysqlshdk/scripting/types.cc, with
      their texts and their parser; [ScriptValueFacts]: the parser and its grammar;
      [ScriptReprFacts]: texts that are read back.
    - [JsonDumper], [JsonDumperFacts]: mysqlshdk/libs/utils/utils_json.{h,cc}.
    - [ProgressLog], [ProgressLogFacts]: modules/util/load/load_progress_log.h, on top of the
      JSON writer and the parser of values.
    A file X models, the file XFacts proves.  The components call each other as in the
    code: [UtilsString] is used by all; [SqlString] and [SqlWild] scan with [Lexing];
    the server queries of [GtidUtils] are formatted by [SqlString.sqlformat]; the
    decisions of [ReplicationGtid] use [GtidUtils] and [Version]; [ThreadPool] has two
    queues of [SyncQueue]; [ImportTable] scans with [Scanner] and collects blocks of the
    [Allocator] in files of [AllocatedFile]; [DumpIndex] writes what [DumpWriter] formats;
    [Chunking] builds its conditions with [SqlString] and computes with [Decimal];
    [DumpReader] looks for the names [DumpFiles] makes; [Uri] divides its text with
    [BaseTokenizer]; [ConfigFile] resolves includes with [Paths]; [UserPrivileges] reads
    grants with the iterator of [Lexing] and matches schemas with [SqlWild].

    Code outside of the repository, and what the code asks other systems, are parameters,
    with what the code relies on as laws: [GtidServer] (a server), [BN] (OpenSSL), [Locale]
    (wide characters of the C library), the session of [Chunking] (two functions from the text
    of a query), the table that is scheduled next in [DumpReader], home and current directory,
    listing and permissions of files in [Paths] and [ConfigFile], the requests of a
    [Container] in [ObjectStorage], the answers of an [Instance] in [UserPrivileges], floating point numbers
    and bridged objects ([Scripting]), and the writer of RapidJSON ([Json_writer]).  Each
    class has an instance beside the theorems, which the witnesses use.

    ** How the code is represented

    Strings are lists of bytes; std::string_view::npos is [None]; an int, uint32_t or
    uint64_t is a [Z] with its wrap-around written out where the code relies on or
    suffers from it; a call that may throw returns [result]; a callback is a function
    that threads a state.  The splitter keeps the memory of its buffer and returns a
    [run], which also tells undefined accesses and divergence apart.  The operations of
    [Gtid_set] that query the server return the object with the outcome, because an
    exception leaves it changed.  Threads are program counters: the monitor of the queue and
    the thread pool are step relations over them, with one step for each access to shared
    state.  Memory is a function from addresses to bytes, and clients of the allocator
    own blocks of it; a failed assertion or an access outside of what is owned is [None].

    Loops have a fuel argument.  Loops over a text get the length of the text plus a
    constant; the theorems show that the result is never the one of exhausted fuel:
    each loop is proved equal to a structural definition or to make progress at every
    turn ([next_token_progress], [span_cstyle_sql_comment_correct],
    [next_range_correct], [natural_compare_total_order], [match_glob_correct]).  Where the
    code may run forever, the caller chooses the fuel and divergence is proved for all fuels
    ([split_sql_empty_diverges], [gtid_enumerate_correct]).  The loops of the in-memory
    files get the number of bytes or blocks they handle, those of the scanner four turns for
    each character, the doubling of a buffer the 64 bits of its size; their theorems
    ([file_refines_text], [allocator_safe], [scanner_stack_safe], [dialect_writers_equal])
    state that a result is returned.  Chunking takes at most max - min + 1 turns, or one for each
    key; the tokenizer one for each character; sending parts of an object one for each byte
    that is to be sent, listing one for each page; parsing a value its length, for each level;
    reading a grant the length of the statement plus two, and [endless] is the outcome where
    the code would loop forever.  Includes in option files are limited to a depth of ten by the
    code itself.

    ** What the theorems show

    - Splitting: [next_range] ends, stays within the text, moves forward, and reports
      the delimiter it found; quoted values are skipped as units; and what happens when
      escape commands are stripped from the text (two runs that go wrong), when the
      script is empty, and when an identifier meets a delimiter.
    - SQL text: quoted values and identifiers are one token for the scanners, whatever
      is in them, and denote the value; [sqlformat] is exactly the replacement of the
      placeholders the iterator finds by the rendered arguments, and throws otherwise;
      the scanners are equal to the grammar of MySQL literals; the iterator skips
      comments, marks of conditional comments and quoted parts, which are defined by their
      characters, and stops where none of them begins.
    - LIKE patterns: the matcher decides the declarative relation except for runs of
      wildcards with _ after %, where it accepts too much; escaped names match only
      themselves; the order of patterns.
    - Strings: splitting, replacing, breaking lines; round trips of quoting and percent
      encoding; UTF-8 validation equals the definition of UTF-8 when the byte behind
      the view ends a sequence, and the reads behind the view otherwise.
    - Names: accounts, qualified names and values are read back from their quoted text;
      the glob matcher, which backtracks to its last star only, ends and decides the
      declarative relation; the password is cut out of a URI; CURRENT_USER() is split at
      its last at sign, except for names that start with a quote.
    - Versions: parse and print; the versions that correspond to a version in the
      calendar.
    - Natural order: the lexicographic order of an explicit key, a strict total order
      that compares numbers by value, and the case where it does not.
    - GTIDs: ranges are read back as printed; selections return exactly the selected
      ranges; enumeration; against [GtidServer], the operations are the set operations,
      the state of a replica is classified by inclusion, and the transactions of a
      joining replica are split exactly.

    - Threads: the calls of the queue that threads make have the results they have one after the
      other, in an order in which each lies between its beginning and its end, and no
      thread sleeps while there is an element for it; the thread pool ends, processes every
      accepted task once, and reports exceptions, but not always its state.
    - Files in memory: the allocator hands out distinct blocks and gives all memory back; a
      file refines a text with an offset, and returns what was written to it.
    - Import: the scanner finds the rows of a file however it is divided into blocks,
      within its stack, unless FIELDS TERMINATED BY is longer than LINES TERMINATED BY;
      the chunks of a file are its rows, in order and complete.
    - Dump: the specialised writers write what the general one writes, except for Base64
      without escapes; the index of a file leads the loader to its size when the writes to
      the index succeed, and a write to the index that fails, or any short write, is not
      reported; rows that were dumped are imported as the same rows.
    - Chunking: it ends whatever EXPLAIN answers, and the condition of exactly one chunk
      holds of every row, with numbers, decimals and other keys, NULLs included; the index
      that is chosen; the numbers for which a division by zero happens.
    - Dumps: file names of different objects are different; a reader of a dump in progress
      hands out each chunk once, in order.
    - Addresses: an encoded address is parsed as the same address, its password can be
      hidden, and the texts that are misread.
    - Paths and option files: a normalized path leads to the same place; a configuration is
      a map, from names up to case, dashes and the prefix loose, and is read back as it was written, among the other lines of the file; the
      files for which it is not.
    - Object storage: what was written is read, from one request or from parts of the
      right sizes; a failed write leaves no object; the listing of a directory.
    - Privileges: what is reported as missing is what no row of SHOW GRANTS gives, for rows
      with names in backticks: privileges on all levels, lists of columns, dynamic
      privileges, roles, proxies and routines; the schemas for which a pattern is ignored.
    - Values: the parser accepts exactly the texts of its grammar, and ends; what [repr] and
      the JSON writer write is parsed as the same value; the texts for which the parser
      reads behind their end.
    - The progress of a load: after any number of interruptions, each operation is found in the
      state which its own calls left, for names without backticks; keys of operations are distinct, unless names have backticks.
    ** What is not modelled

    Sessions, network, file and terminal I/O, the scripting bindings and the generated
    parsers: they are code of other systems, or calls to them.  The commands of the AdminAPI,
    the upgrade checker and the drivers of dump, load and import are sequences of queries
    whose outcome is the state of the servers; their decisions that are functions of data
    (GTID sets, chunks, files, privileges) are modelled.  Within the modelled files:
    printf-style formatting other than the formats used, wide characters beyond the
    conversion of names, random strings, floating point arguments of sqlformat (dtoa), the order
    in which the loader schedules tables (it compares ratios in floating point), and the
    branches for Windows. *)
From Stdlib Require Export ZArith Ascii String Lia.
From stdpp Require Export base tactics numbers option gmap.
From stdpp Require Export strings list.

#[export] Set Warnings "-clear-no-such-hyp".

#[global] Open Scope Z_scope.
#[global] Open Scope list_scope.

(** ** Strings

    [std::string] and [std::string_view] contents are lists of bytes.  A byte
    is an [ascii], so every value of [str] is a legal C++ byte string. *)

Abbreviation str := (list ascii).

Declare Scope shell_scope.
Delimit Scope shell_scope with shell.
#[global] Open Scope shell_scope.

(** [$ "text"] is the byte string of a literal. *)
Definition lit (s : string) : str := list_ascii_of_string s.
Notation "$ s" := (lit s%string) (at level 1, s at level 0) : shell_scope.

(** The value of a byte as [unsigned char] and as the (signed) [char] of the
    supported platforms. *)
Definition uch (c : ascii) : Z := Z.of_N (N_of_ascii c).
Definition sch (c : ascii) : Z := if uch c <? 128 then uch c else uch c - 256.
(** The byte of an unsigned value, reduced modulo 256. *)
Definition byte_of (z : Z) : ascii := ascii_of_N (Z.to_N (z mod 256)).

Lemma uch_range c : 0 <= uch c < 256.
Proof. unfold uch. pose proof (N_ascii_bounded c). lia. Qed.

Lemma byte_of_uch c : byte_of (uch c) = c.
Proof.
  unfold byte_of. rewrite Z.mod_small by apply uch_range.
  unfold uch. rewrite N2Z.id. apply ascii_N_embedding.
Qed.

Lemma uch_byte_of z : uch (byte_of z) = z mod 256.
Proof.
  unfold uch, byte_of. pose proof (Z.mod_pos_bound z 256).
  rewrite N_ascii_embedding by lia. lia.
Qed.

Lemma uch_inj c d : uch c = uch d → c = d.
Proof. intros H. by rewrite <- (byte_of_uch c), <- (byte_of_uch d), H. Qed.

(** ** <cctype> in the "C" locale *)

Definition in_range (lo hi : Z) (c : ascii) : bool := (lo <=? uch c) && (uch c <=? hi).
Definition isdigit (c : ascii) : bool := in_range 48 57 c.
Definition isupper (c : ascii) : bool := in_range 65 90 c.
Definition islower (c : ascii) : bool := in_range 97 122 c.
Definition isalpha (c : ascii) : bool := isupper c || islower c.
Definition isxdigit (c : ascii) : bool := isdigit c || in_range 65 70 c || in_range 97 102 c.
Definition isspace (c : ascii) : bool := (uch c =? 32) || in_range 9 13 c.
Definition toupper (c : ascii) : ascii := if islower c then byte_of (uch c - 32) else c.
Definition tolower (c : ascii) : ascii := if isupper c then byte_of (uch c + 32) else c.

(** ** Exceptions

    A call that may throw returns a [result]; the exception carries the
    standard class thrown and its message. *)

Inductive exn :=
| invalid_argument (what : string)
| out_of_range (what : string)
| logic_error (what : string)
| runtime_error (what : string)
| shcore_exception (code : string).   (* [shcore::Exception], by its error code *)

Inductive result (A : Type) :=
| Ok (a : A)
| Throw (e : exn).
Arguments Ok {A} a.
Arguments Throw {A} e.

#[global] Instance result_ret : MRet result := λ A a, Ok a.
#[global] Instance result_bind : MBind result := λ A B f m,
  match m with Ok a => f a | Throw e => Throw e end.
#[global] Instance result_fmap : FMap result := λ A B f m,
  match m with Ok a => Ok (f a) | Throw e => Throw e end.

#[global] Instance exn_eq_dec : EqDecision exn.
Proof. solve_decision. Defined.
#[global] Instance result_eq_dec {A} `{EqDecision A} : EqDecision (result A).
Proof. solve_decision. Defined.

Definition is_ok {A} (r : result A) : bool := match r with Ok _ => true | Throw _ => false end.

(** ** Undefined behaviour

    Where the code may also misbehave, running it gives a value, an exception, an
    undefined access, or no result within the fuel. *)

Inductive run (A : Type) :=
| Ret (a : A)
| Raise (e : exn)
| Undefined
| Diverge.
Arguments Ret {A} _.
Arguments Raise {A} _.
Arguments Undefined {A}.
Arguments Diverge {A}.

#[global] Instance run_ret : MRet run := @Ret.
#[global] Instance run_bind : MBind run := λ A B f r,
  match r with Ret a => f a | Raise e => Raise e | Undefined => Undefined | Diverge => Diverge end.

(** ** Searching: the std::basic_string_view members the code calls

    Positions are [nat]; [npos] is [None]. *)

(** Index of the first element that satisfies [P]. *)
Fixpoint find_if (P : ascii → bool) (s : str) : option nat :=
  match s with
  | [] => None
  | c :: s' => if P c then Some 0%nat else S <$> find_if P s'
  end.

(** Index of the last element that satisfies [P]. *)
Fixpoint find_last_if (P : ascii → bool) (s : str) : option nat :=
  match s with
  | [] => None
  | c :: s' =>
      match find_last_if P s' with
      | Some i => Some (S i)
      | None => if P c then Some 0%nat else None
      end
  end.

Definition mem_chars (chars : str) (c : ascii) : bool := bool_decide (c ∈ chars).

Definition from (f : str → option nat) (s : str) (pos : nat) : option nat :=
  if decide (pos ≤ length s)%nat then (λ i, (pos + i)%nat) <$> f (drop pos s) else None.

Definition find_first_of (s chars : str) (pos : nat) : option nat :=
  from (find_if (mem_chars chars)) s pos.
Definition find_first_not_of (s chars : str) (pos : nat) : option nat :=
  from (find_if (λ c, negb (mem_chars chars c))) s pos.
Definition find_last_not_of (s chars : str) : option nat :=
  find_last_if (λ c, negb (mem_chars chars c)) s.
Definition find_char (s : str) (c : ascii) (pos : nat) : option nat :=
  from (find_if (λ d, bool_decide (d = c))) s pos.

Fixpoint prefixb (p s : str) : bool :=
  match p, s with
  | [], _ => true
  | _, [] => false
  | c :: p', d :: s' => bool_decide (c = d) && prefixb p' s'
  end.

(** Index of the first occurrence of a substring. *)
Fixpoint find_sub (pat s : str) : option nat :=
  if prefixb pat s then Some 0%nat
  else match s with [] => None | _ :: s' => S <$> find_sub pat s' end.
Definition find_str (s pat : str) (pos : nat) : option nat := from (find_sub pat) s pos.

(** [substr(pos, n)] for a position the caller keeps within the string. *)
Definition substr (s : str) (pos n : nat) : str := take n (drop pos s).

(** Lexicographic [std::string::compare] on unsigned bytes, as a comparison. *)
Fixpoint str_compare (a b : str) : comparison :=
  match a, b with
  | [], [] => Eq
  | [], _ => Lt
  | _, [] => Gt
  | c :: a', d :: b' => match uch c ?= uch d with Eq => str_compare a' b' | o => o end
  end.

(** ** Machine integers *)

Definition UINT64_MOD : Z := 2 ^ 64.
Definition UINT32_MOD : Z := 2 ^ 32.
Definition INT64_MIN : Z := - 2 ^ 63.
Definition INT64_MAX : Z := 2 ^ 63 - 1.
Definition u64 (z : Z) : Z := z mod UINT64_MOD.
Definition u32 (z : Z) : Z := z mod UINT32_MOD.

Lemma u64_range z : 0 <= u64 z < 2 ^ 64.
Proof. apply Z.mod_pos_bound. reflexivity. Qed.

Lemma u64_small z : 0 <= z < 2 ^ 64 → u64 z = z.
Proof. intros. by apply Z.mod_small. Qed.

Lemma u32_small z : 0 <= z < 2 ^ 32 → u32 z = z.
Proof. apply Z.mod_small. Qed.

(** A disjunction of bits that do not overlap. *)
Lemma lor_add a b n : 0 <= n → a mod 2 ^ n = 0 → 0 <= b < 2 ^ n → Z.lor a b = a + b.
Proof.
  intros Hn Ha Hb. assert (Z.land a b = 0) as Hl.
  - apply Z.bits_inj'. intros m Hm. rewrite Z.land_spec, Z.bits_0. destruct (decide (m < n)).
    + replace a with (a / 2 ^ n * 2 ^ n) by (pose proof (Z.div_mod a (2 ^ n)); nia).
      by rewrite Z.mul_pow2_bits_low by lia.
    + destruct (decide (b = 0)) as [->|]; [by rewrite Z.bits_0, andb_false_r|].
      rewrite (Z.bits_above_log2 b m), andb_false_r; [done|lia|]. apply Z.log2_lt_pow2; [lia|].
      eapply Z.lt_le_trans; [apply Hb|]. apply Z.pow_le_mono_r; lia.
  - by rewrite Z.add_nocarry_lxor, Z.lxor_lor.
Qed.

(** ** Exhaustive reasoning on bytes *)

Definition all_bytes : str := (λ n, byte_of (Z.of_nat n)) <$> seq 0 256.

Lemma elem_of_all_bytes c : c ∈ all_bytes.
Proof.
  unfold all_bytes. rewrite list_elem_of_fmap. exists (Z.to_nat (uch c)).
  pose proof (uch_range c). rewrite Z2Nat.id by lia.
  rewrite elem_of_seq. split; [by rewrite byte_of_uch | lia].
Qed.

(** A decidable statement on one byte holds when it computes to [true] on all
    of them. *)
Lemma bytes_forall (P : ascii → bool) : forallb P all_bytes = true → ∀ c, P c = true.
Proof.
  intros H c. rewrite forallb_forall in H. apply H.
  apply list_elem_of_In, elem_of_all_bytes.
Qed.

(** [by_bytes c] proves a boolean equation on the single byte [c]. *)
Ltac by_bytes c :=
  pattern c;
  match goal with
  | |- ?P c =>
      let H := fresh in
      assert (H : ∀ x, bool_decide (P x) = true) by
        (apply bytes_forall; vm_compute; reflexivity);
      exact (bool_decide_eq_true_1 _ (H c))
  end.

(** ** Shared automation *)

(** Linear arithmetic with divisions by constants. *)
Ltac lia_div := Z.to_euclidean_division_equations; lia.

Create HintDb shell discriminated.

(** Splits boolean tests and options of the goal, simplifying on the way. *)
Ltac case_tests :=
  repeat (first
    [ progress simplify_eq/=
    | case_bool_decide
    | case_decide
    | match goal with
      | |- context [match ?x with _ => _ end] => destruct x eqn:?
      end ]).

Ltac bool_to_prop :=
  repeat match goal with
  | H : andb _ _ = true |- _ => apply andb_true_iff in H as [? ?]
  | H : orb _ _ = false |- _ => apply orb_false_iff in H as [? ?]
  | H : negb _ = true |- _ => apply negb_true_iff in H
  | H : negb _ = false |- _ => apply negb_false_iff in H
  | H : bool_decide _ = true |- _ => apply bool_decide_eq_true_1 in H
  | H : bool_decide _ = false |- _ => apply bool_decide_eq_false_1 in H
  | H : (_ <? _) = true |- _ => apply Z.ltb_lt in H
  | H : (_ <? _) = false |- _ => apply Z.ltb_ge in H
  | H : (_ <=? _) = true |- _ => apply Z.leb_le in H
  | H : (_ <=? _) = false |- _ => apply Z.leb_gt in H
  | H : (_ =? _) = true |- _ => apply Z.eqb_eq in H
  | H : (_ =? _) = false |- _ => apply Z.eqb_neq in H
  end.

(** ** Searching lemmas *)

Lemma find_if_Some P s i :
  find_if P s = Some i ↔
  ∃ c, s !! i = Some c ∧ P c = true ∧ Forall (λ d, P d = false) (take i s).
Proof.
  revert i. induction s as [|c s IH]; intros i; simpl.
  { split; [done|]. intros (? & ? & _). done. }
  destruct (P c) eqn:Pc.
  - split.
    + intros [= <-]. exists c. split_and!; [done|done|constructor].
    + intros (d & Hd & Pd & Hall). destruct i; [done|].
      simpl in Hall. apply Forall_cons in Hall as [? _]. congruence.
  - split.
    + intros (j & Hj & ->)%fmap_Some. apply IH in Hj as (d & ? & ? & ?).
      exists d. split_and!; [done|done|]. by constructor.
    + intros (d & Hd & Pd & Hall). destruct i; simplify_eq/=; [congruence|].
      apply Forall_cons in Hall as [_ ?].
      by rewrite (proj2 (IH i)) by eauto.
Qed.

Lemma find_if_None P s : find_if P s = None ↔ Forall (λ d, P d = false) s.
Proof.
  induction s as [|c s IH]; simpl; [by split; [constructor|]|].
  rewrite Forall_cons. destruct (P c); [by split; [|intros [? _]]|].
  rewrite fmap_None, IH. tauto.
Qed.

Lemma find_if_lt P s i : find_if P s = Some i → (i < length s)%nat.
Proof. intros (c & Hc & _)%find_if_Some. by eapply lookup_lt_Some. Qed.

Lemma find_if_app_l P s t i : find_if P s = Some i → find_if P (s ++ t) = Some i.
Proof.
  revert i. induction s as [|c s IH]; intros i; simpl; [done|].
  destruct (P c); [done|]. intros (j & Hj & ->)%fmap_Some.
  by rewrite (IH j).
Qed.

Lemma find_if_app_r P s t :
  find_if P s = None → find_if P (s ++ t) = (λ i, (length s + i)%nat) <$> find_if P t.
Proof.
  induction s as [|c s IH]; simpl; [by intros _; destruct (find_if P t)|].
  destruct (P c); [done|]. intros H%fmap_None. rewrite IH by done.
  by destruct (find_if P t).
Qed.

Lemma find_last_if_None P s : find_last_if P s = None ↔ Forall (λ d, P d = false) s.
Proof.
  induction s as [|c s IH]; simpl; [by split; [constructor|]|].
  rewrite Forall_cons. destruct (find_last_if P s); [by split; [|intros [_ ?%IH]]|].
  destruct (P c); [by split; [|intros [? _]]|]. split; [|done].
  intros _. split; [done|by apply IH].
Qed.

Lemma find_last_if_Some P s i :
  find_last_if P s = Some i ↔
  ∃ c, s !! i = Some c ∧ P c = true ∧ Forall (λ d, P d = false) (drop (S i) s).
Proof.
  revert i. induction s as [|c s IH]; intros i; simpl.
  { split; [done|]. intros (? & ? & _). done. }
  destruct (find_last_if P s) as [j|] eqn:Hj.
  - split.
    + intros [= <-]. by apply IH.
    + intros (d & Hd & Pd & Hall). f_equal. destruct i as [|i].
      * exfalso. simpl in Hall. rewrite drop_0 in Hall.
        destruct (proj1 (IH j) eq_refl) as (e & He & Pe & _).
        rewrite Forall_lookup in Hall. by rewrite (Hall j e He) in Pe.
      * f_equal. assert (Some j = Some i) as H; [|by simplify_eq].
        rewrite (IH i). eauto.
  - pose proof (proj1 (find_last_if_None P s) Hj) as Hs.
    split.
    + destruct (P c) eqn:Pc; [|done]. intros [= <-]. exists c. by rewrite drop_0.
    + intros (d & Hd & Pd & _). destruct i as [|i]; simplify_eq/=; [by rewrite Pd|].
      rewrite Forall_lookup in Hs. by rewrite (Hs i d Hd) in Pd.
Qed.

Lemma prefixb_spec p s : prefixb p s = true ↔ p `prefix_of` s.
Proof.
  revert s. induction p as [|c p IH]; intros [|d s]; simpl.
  - split; [|done]. intros _. apply prefix_nil.
  - split; [|done]. intros _. apply prefix_nil.
  - split; [done|]. intros H. by apply prefix_nil_not in H.
  - rewrite andb_true_iff, bool_decide_eq_true, IH. split.
    + intros [-> [k ->]]. by exists k.
    + intros [k [= -> ->]]. split; [done|by exists k].
Qed.

Lemma find_sub_Some pat s i :
  find_sub pat s = Some i →
  pat `prefix_of` drop i s ∧ (i ≤ length s)%nat ∧
  ∀ j, (j < i)%nat → ¬ pat `prefix_of` drop j s.
Proof.
  revert i. induction s as [|c s IH]; intros i; simpl.
  - destruct (prefixb pat []) eqn:E; [|done]. intros [= <-].
    apply prefixb_spec in E. split_and!; [done|done|lia].
  - destruct (prefixb pat (c :: s)) eqn:E.
    + intros [= <-]. apply prefixb_spec in E. split_and!; [done|lia|lia].
    + intros (k & Hk & ->)%fmap_Some. destruct (IH k Hk) as (? & ? & Hmin).
      split_and!; [done|lia|]. intros [|j] ?; [|apply Hmin; lia].
      rewrite drop_0, <- prefixb_spec. congruence.
Qed.

Lemma find_sub_None pat s :
  find_sub pat s = None → ∀ j, (j ≤ length s)%nat → ¬ pat `prefix_of` drop j s.
Proof.
  induction s as [|c s IH]; simpl.
  - destruct (prefixb pat []) eqn:E; [done|]. intros _ j ?.
    destruct j; [|lia]. rewrite drop_0, <- prefixb_spec. congruence.
  - destruct (prefixb pat (c :: s)) eqn:E; [done|].
    intros H%fmap_None [|j] ?; [|apply IH; [done|lia]].
    rewrite drop_0, <- prefixb_spec. congruence.
Qed.

Lemma find_sub_le pat s i : find_sub pat s = Some i → (i + length pat ≤ length s)%nat.
Proof.
  intros H. destruct (find_sub_Some _ _ _ H) as (Hp & ? & _).
  apply prefix_length in Hp. rewrite length_drop in Hp. lia.
Qed.

(** ** Sums *)

Lemma sum_list_with_insert {A} (f : A → nat) (l : list A) (i : nat) (x y : A) :
  l !! i = Some x → (sum_list_with f (<[i := y]> l) + f x = sum_list_with f l + f y)%nat.
Proof.
  revert i. induction l as [|z l IH]; intros [|i]; simpl; intros H; simplify_eq; [lia|].
  specialize (IH i H). lia.
Qed.

Lemma sum_list_with_pos {A} (f : A → nat) (l : list A) :
  (0 < sum_list_with f l)%nat → ∃ i x, l !! i = Some x ∧ (0 < f x)%nat.
Proof.
  induction l as [|z l IH]; simpl; [lia|]. intros H.
  destruct (decide (0 < f z)%nat); [by exists 0%nat, z|].
  destruct IH as (i & x & ? & ?); [lia|]. by exists (S i), x.
Qed.

(** ** Decimal numbers: [std::to_string] and its inverse *)

Definition digit_char (d : Z) : ascii := byte_of (48 + d).
Definition digit_value (c : ascii) : Z := uch c - 48.

Fixpoint dec_digits (fuel : nat) (n : Z) (acc : str) : str :=
  match fuel with
  | O => acc
  | S fuel =>
      let acc := digit_char (n mod 10) :: acc in
      if n <? 10 then acc else dec_digits fuel (n / 10) acc
  end.

(** Decimal digits of a non-negative number. *)
Definition dec (n : Z) : str := dec_digits (S (Z.to_nat (Z.log2 n))) n [].
Definition to_string (z : Z) : str := if z <? 0 then "-"%char :: dec (- z) else dec z.

Definition dec_value (s : str) (acc : Z) : Z := foldl (λ a c, a * 10 + digit_value c) acc s.

Lemma isdigit_digit_char d : 0 <= d < 10 → isdigit (digit_char d) = true ∧ digit_value (digit_char d) = d.
Proof.
  intros. unfold isdigit, in_range, digit_value, digit_char. rewrite uch_byte_of.
  rewrite Z.mod_small by lia. split; [|lia]. apply andb_true_iff. split; apply Z.leb_le; lia.
Qed.

Lemma dec_value_app s t acc : dec_value (s ++ t) acc = dec_value t (dec_value s acc).
Proof. apply foldl_app. Qed.

Lemma log2_div10 n : 10 <= n → (Z.to_nat (Z.log2 (n / 10)) < Z.to_nat (Z.log2 n))%nat.
Proof.
  intros. assert (n / 10 <= n / 2) by (apply Z.div_le_compat_l; lia).
  assert (0 < n / 10) by (apply Z.div_str_pos; lia).
  assert (Z.log2 (n / 10) <= Z.log2 (n / 2)) by by apply Z.log2_le_mono.
  assert (Z.log2 (n / 2) = Z.log2 n - 1).
  { change (n / 2) with (n / 2 ^ 1). rewrite <- Z.shiftr_div_pow2 by lia.
    rewrite Z.log2_shiftr by lia. pose proof (Z.log2_le_mono 2 n). simpl in *. lia. }
  pose proof (Z.log2_nonneg (n / 10)). lia.
Qed.

Lemma dec_digits_spec fuel n acc :
  0 <= n → (Z.to_nat (Z.log2 n) < fuel)%nat →
  ∃ ds, dec_digits fuel n acc = ds ++ acc ∧ ds ≠ [] ∧ Forall (λ c, isdigit c = true) ds ∧
    dec_value ds 0 = n.
Proof.
  revert n acc. induction fuel as [|fuel IH]; intros n acc Hn Hf; [lia|]. cbn [dec_digits].
  pose proof (Z.mod_pos_bound n 10). destruct (isdigit_digit_char (n mod 10)) as [Hd Hv]; [lia|].
  destruct (Z.ltb_spec n 10).
  - exists [digit_char (n mod 10)]. split_and!; [done|done|by repeat constructor|].
    unfold dec_value. simpl. rewrite Hv, Z.mod_small; lia.
  - pose proof (log2_div10 n). pose proof (Z.div_pos n 10).
    destruct (IH (n / 10) (digit_char (n mod 10) :: acc)) as (ds & -> & Hne & Hall & Hval);
      [lia|lia|].
    exists (ds ++ [digit_char (n mod 10)]). split_and!.
    + by rewrite <- (assoc_L (++)).
    + by destruct ds.
    + apply Forall_app. split; [done|by repeat constructor].
    + rewrite dec_value_app, Hval. unfold dec_value. simpl. rewrite Hv.
      pose proof (Z.div_mod n 10). lia.
Qed.

Lemma dec_spec n :
  0 <= n → dec n ≠ [] ∧ Forall (λ c, isdigit c = true) (dec n) ∧ dec_value (dec n) 0 = n.
Proof.
  intros Hn. destruct (dec_digits_spec (S (Z.to_nat (Z.log2 n))) n []) as (ds & Heq & H);
    [done|lia|]. unfold dec. by rewrite Heq, app_nil_r.
Qed.

Lemma isdigit_range c : isdigit c = true → 48 <= uch c <= 57.
Proof. unfold isdigit, in_range. intros H. bool_to_prop. lia. Qed.

Lemma dec_value_acc d a : dec_value d a = (a * 10 ^ Z.of_nat (length d) + dec_value d 0)%Z.
Proof.
  revert a. induction d as [|c d IH]; intros a; unfold dec_value in *; simpl length; cbn [foldl].
  { change (10 ^ Z.of_nat 0)%Z with 1%Z. lia. }
  rewrite IH, (IH (0 * 10 + _)%Z), Nat2Z.inj_succ, Z.pow_succ_r by lia. lia.
Qed.

Lemma dec_value_bound d :
  Forall (λ c, isdigit c = true) d → (0 <= dec_value d 0 < 10 ^ Z.of_nat (length d))%Z.
Proof.
  induction 1 as [|c d Hc Hd IH]; [done|]. pose proof (isdigit_range c Hc).
  change (dec_value (c :: d) 0) with (dec_value d (digit_value c)).
  rewrite dec_value_acc. simpl length. rewrite Nat2Z.inj_succ, Z.pow_succ_r by lia.
  unfold digit_value. nia.
Qed.

#[export] Hint Resolve uch_range u64_range isdigit_range dec_value_bound : shell.
