(* ===== verification/UtilsString.v ===== *)
(** * String utilities

    Model of [mysqlshdk/libs/utils/utils_string.{h,cc}] (namespace [shcore]):
    stripping, splitting, joining, replacing, quoting, case-insensitive
    comparison, bit strings, UTF-8 validation and percent encoding.  Loops that
    move an offset through the string are written with that offset; fuel is the
    length of the input plus a constant, and every function is proved equal to
    a structural definition or characterised completely, so it never runs out. *)
From S2P Require Import Prelude.

Open Scope nat_scope.

Definition k_blanks : str := lit " " ++ [ "013"%char; "010"%char; "009"%char ].

(** ** Case conversion and comparison (utils_string.h) *)

Definition str_upper (s : str) : str := toupper <$> s.
Definition str_lower (s : str) : str := tolower <$> s.

(** [strncasecmp(a, b, n) == 0] on the bytes at [a] and [b]: compares lower-cased
    bytes and stops at a NUL. *)
Fixpoint strncasecmp_eq (a b : str) (n : nat) : bool :=
  match n, a, b with
  | O, _, _ => true
  | S n', c :: a', d :: b' =>
      if bool_decide (tolower c = tolower d) then
        if bool_decide (c = "000"%char) then true else strncasecmp_eq a' b' n'
      else false
  | S _, _, _ => true
  end.

Definition str_caseeq_pair (a b : str) : bool :=
  if bool_decide (length a ≠ length b) then false
  else strncasecmp_eq a b (length a).

Definition str_caseeq (a : str) (tokens : list str) : bool :=
  existsb (str_caseeq_pair a) tokens.

Definition str_beginswith_pair (s prefix : str) : bool :=
  bool_decide (str_compare (substr s 0 (length prefix)) prefix = Eq).

Definition str_ibeginswith_pair (s prefix : str) : bool :=
  if bool_decide (length s < length prefix) then false
  else strncasecmp_eq s prefix (length prefix).

Definition str_endswith_pair (s suffix : str) : bool :=
  if bool_decide (length s < length suffix) then false
  else bool_decide
         (str_compare (substr s (length s - length suffix) (length suffix)) suffix = Eq).

Definition str_iendswith_pair (s suffix : str) : bool :=
  if bool_decide (length s < length suffix) then false
  else strncasecmp_eq (drop (length s - length suffix) s) suffix (length suffix).

(** Position of the first difference, [None] for equal strings. *)
Fixpoint str_span (s1 s2 : str) : option nat :=
  match s1, s2 with
  | c :: s1', d :: s2' => if bool_decide (c ≠ d) then Some 0 else S <$> str_span s1' s2'
  | [], [] => None
  | _, _ => Some 0
  end.

(** ** Partition *)

Definition str_partition (s sep : str) : (str * str) * bool :=
  match find_str s sep 0 with
  | None => ((s, []), false)
  | Some p => ((substr s 0 p, drop (p + length sep) s), true)
  end.

Definition str_partition_after (s sep : str) : str * str :=
  match find_str s sep 0 with
  | None => (s, [])
  | Some p => let p := p + length sep in (substr s 0 p, drop p s)
  end.

(** Returns the extracted part and the new contents of [*s]. *)
Definition str_partition_after_inpl (s sep : str) : str * str :=
  match find_str s sep 0 with
  | None => (s, [])
  | Some p => (substr s 0 (p + length sep), drop (p + length sep) s)
  end.

(** ** Splitting

    [str_itersplit] calls [f] on each token, threading the callback's state;
    [false] stops the iteration.  [maxsplit] counts down and never reaches 0
    when it starts negative. *)

Section itersplit.
Context {A : Type} (f : A → str → A * bool).

Fixpoint str_itersplit_loop (fuel : nat) (input seps : str) (compress : bool)
    (index new_find : nat) (maxsplit : Z) (a : A) : A * bool :=
  match fuel with
  | O => (a, true)
  | S fuel =>
      if bool_decide (new_find < length input) then
        let new_find :=
          if bool_decide (maxsplit ≠ 0%Z) then find_first_of input seps index else None in
        match new_find with
        | Some p =>
            if bool_decide (index < p) || negb compress || bool_decide (p = 0) then
              match f a (substr input index (p - index)) with
              | (a, false) => (a, false)
              | (a, true) =>
                  str_itersplit_loop fuel input seps compress (S p) p (maxsplit - 1)%Z a
              end
            else
              str_itersplit_loop fuel input seps compress (S p) p (maxsplit - 1)%Z a
        | None => f a (drop index input)
        end
      else (a, true)
  end.

Definition str_itersplit (input : str) (a : A) (seps : str) (maxsplit : Z)
    (compress : bool) : A * bool :=
  str_itersplit_loop (S (S (length input))) input seps compress 0 0 maxsplit a.
End itersplit.

Fixpoint str_split_loop (fuel : nat) (input seps : str) (compress : bool)
    (index new_find : nat) (maxsplit : Z) (ret_val : list str) : list str :=
  match fuel with
  | O => ret_val
  | S fuel =>
      if bool_decide (new_find < length input) then
        let new_find :=
          if bool_decide (maxsplit ≠ 0%Z) then find_first_of input seps index else None in
        match new_find with
        | Some p =>
            let ret_val :=
              if bool_decide (index < p) || negb compress || bool_decide (p = 0)
              then ret_val ++ [substr input index (p - index)] else ret_val in
            str_split_loop fuel input seps compress (S p) p (maxsplit - 1)%Z ret_val
        | None => ret_val ++ [drop index input]
        end
      else ret_val
  end.

Definition str_split (input seps : str) (maxsplit : Z) (compress : bool) : list str :=
  str_split_loop (S (S (length input))) input seps compress 0 0 maxsplit [].

(** ** Stripping and justification *)

Definition str_strip_view (s chars : str) : str :=
  match find_first_not_of s chars 0 with
  | None => []
  | Some b =>
      match find_last_not_of s chars with
      | Some e => substr s b (e - b + 1)
      | None => drop b s   (* not reached: a first match implies a last one *)
      end
  end.

Definition str_lstrip_view (s chars : str) : str :=
  match find_first_not_of s chars 0 with None => [] | Some b => drop b s end.

Definition str_rstrip_view (s chars : str) : str :=
  match find_last_not_of s chars with None => [] | Some e => substr s 0 (e + 1) end.

Definition str_strip (s chars : str) : str := str_strip_view s chars.
Definition str_lstrip (s chars : str) : str := str_lstrip_view s chars.
Definition str_rstrip (s chars : str) : str := str_rstrip_view s chars.

Definition str_ljust (s : str) (width : nat) (pad : ascii) : str :=
  if bool_decide (length s < width) then s ++ replicate (width - length s) pad else s.

Definition str_rjust (s : str) (width : nat) (pad : ascii) : str :=
  if bool_decide (length s < width) then replicate (width - length s) pad ++ s else s.

(** ** Joining *)

Definition str_join {A} (l : list A) (sep : str) (f : A → str) : str :=
  match l with
  | [] => []
  | x :: l' => foldl (λ s y, s ++ sep ++ f y) (f x) l'
  end.

(** ** Replacing *)

(** The loop of [str_replace] for a non-empty [from]: [p] is the position found,
    [start] the end of the last match. *)
Fixpoint str_replace_loop (fuel : nat) (s from to : str) (start : nat) (p : option nat)
    (str0 : str) : str :=
  match p, fuel with
  | Some p, S fuel =>
      let str0 := if bool_decide (start < p) then str0 ++ substr s start (p - start) else str0 in
      let str0 := str0 ++ to in
      let start := p + length from in
      str_replace_loop fuel s from to start (find_str s from start) str0
  | _, _ =>
      if bool_decide (start < length s) then str0 ++ substr s start (length s - start) else str0
  end.

Definition str_replace (s from to : str) : str :=
  match from with
  | [] => to ++ concat ((λ c, c :: to) <$> s)
  | _ => str_replace_loop (S (length s)) s from to 0 (find_str s from 0) []
  end.

(** ** Bit strings *)

(** [std::bitset<64>{bits}.to_string()], most significant bit first. *)
Definition bitset64_to_string (bits : Z) : str :=
  (λ i, if Z.testbit bits (63 - Z.of_nat i) then "1"%char else "0"%char) <$> seq 0 64.

Definition bits_to_string (bits nbits : Z) : str :=
  let r := bitset64_to_string bits in
  drop (Z.to_nat (u64 (64 - nbits))) r.

(** [std::bitset<64>(s.data(), s.size()).to_ullong()] for at most 64 characters;
    the constructor throws on anything but '0' and '1'. *)
Fixpoint bitset64_of (s : str) (acc : Z) : result Z :=
  match s with
  | [] => Ok acc
  | c :: s' =>
      if bool_decide (c = "0"%char) then bitset64_of s' (2 * acc)%Z
      else if bool_decide (c = "1"%char) then bitset64_of s' (2 * acc + 1)%Z
      else Throw (invalid_argument "bitset::_M_copy_from_ptr")
  end.

Definition string_to_bits (s : str) : result (Z * Z) :=
  let nbits := length s in
  if bool_decide (64 < nbits)
  then Throw (invalid_argument "bit string length must be <= 64")
  else bits ← bitset64_of s 0; Ok (bits, Z.of_nat nbits).

Definition bits_to_string_hex_size (nbits : Z) : Z :=
  let num_chars := (Z.quot nbits 4 + (if bool_decide (Z.rem nbits 4 ≠ 0) then 1 else 0))%Z in
  (num_chars + (if bool_decide (Z.rem num_chars 2 ≠ 0) then 1 else 0))%Z.

Definition hexmap : str := $"0123456789ABCDEF".
Definition hex_char (z : Z) : ascii := nth (Z.to_nat z) hexmap "0"%char.

(** Upper case hexadecimal digits of a number, without leading zeros. *)
Fixpoint hex_digits (fuel : nat) (v : Z) (acc : str) : str :=
  match fuel with
  | O => acc
  | S fuel =>
      if bool_decide (v = 0%Z) then acc
      else hex_digits fuel (Z.shiftr v 4) (hex_char (Z.land v 15) :: acc)
  end.

(** printf's ["%.*llX"]: at least [prec] digits, and none for 0 at precision 0. *)
Definition format_hex (prec v : Z) : str :=
  let d := hex_digits 16 v [] in
  replicate (Z.to_nat prec - length d) "0"%char ++ d.

Definition bits_to_string_hex (bits nbits : Z) : result str :=
  let sbits := bits_to_string bits nbits in
  v ← bitset64_of sbits 0;
  Ok ($"0x" ++ format_hex (bits_to_string_hex_size nbits) v).

Definition string_to_hex (s : str) (prefix : bool) : str :=
  (if prefix then $"0x" else []) ++
  concat ((λ c, [hex_char (Z.shiftr (Z.land (uch c) 240) 4);
                 hex_char (Z.land (uch c) 15)]) <$> s).

(** ** Quoting *)

Definition backslash : ascii := "\"%char.

Definition quote_string (s : str) (quote : ascii) : str :=
  let q := [quote] in
  let bs := str_replace s [backslash] [backslash; backslash] in
  let esc := str_replace bs q (backslash :: q) in
  q ++ esc ++ q.

Definition unquote_string (s : str) (quote : ascii) : str :=
  let q := [quote] in
  let result :=
    if bool_decide (2 ≤ length s) && bool_decide (s !! 0 = Some quote) &&
       bool_decide (s !! (length s - 1) = Some quote)
    then substr s 1 (length s - 2) else s in
  let result := str_replace result (backslash :: q) q in
  str_replace result [backslash; backslash] [backslash].

(** ** Breaking into lines *)

Definition newline : ascii := "010"%char.
(** [rem[i]]; reading at [rem.size()] yields the terminating NUL. *)
Definition char_at (s : str) (i : nat) : ascii := default "000"%char (s !! i).

(** [while (!isspace(rem[split_point]) && split_point > 0) --split_point;] *)
Fixpoint back_to_space (rem : str) (split_point : nat) : nat :=
  match split_point with
  | O => O
  | S sp => if isspace (char_at rem split_point) then split_point else back_to_space rem sp
  end.

(** [for (i = split_point - 1; i >= 0; --i) if (rem[i] == '\n') split_point = i;] *)
Fixpoint first_newline_before (rem : str) (i split_point : nat) : nat :=
  match i with
  | O => split_point
  | S i => first_newline_before rem i
             (if bool_decide (char_at rem i = newline) then i else split_point)
  end.

(** Where to cut [rem]: [None] leaves the outer loop. *)
Definition break_point (rem : str) (line_width : nat) (nl_pos : option nat) : option nat :=
  match nl_pos with
  | Some nl => Some nl
  | None =>
      let sp := back_to_space rem (line_width - 1) in
      if bool_decide (sp = 0) && negb (isspace (char_at rem 0)) then
        from (find_if isspace) rem line_width
      else Some (first_newline_before rem sp sp)
  end.

Fixpoint str_break_loop (fuel : nat) (rem : str) (line_width : nat) (nl_pos : option nat)
    (result : list str) : list str :=
  let finish := if bool_decide (rem ≠ []) then result ++ [rem] else result in
  match fuel with
  | O => finish
  | S fuel =>
      let longer := bool_decide (line_width < length rem) in
      let nl_pos := if longer then nl_pos else find_char rem newline 0 in
      if longer || bool_decide (nl_pos ≠ None) then
        match break_point rem line_width nl_pos with
        | None => finish
        | Some sp =>
            let result := result ++ [if bool_decide (sp = 0) then [] else substr rem 0 sp] in
            let rem := if bool_decide (length rem ≤ sp + 1) then [] else drop (sp + 1) rem in
            str_break_loop fuel rem line_width nl_pos result
        end
      else finish
  end.

(** For [line_width > 0] (with 0 the code indexes [rem] out of bounds). *)
Definition str_break_into_lines (line : str) (line_width : nat) : list str :=
  str_break_loop (S (length line)) line line_width None [].

(** ** Quote spans *)

(** One of the two scanning loops: first index at or after [i] holding an
    unescaped quote, or the size, and the escape state there. *)
Fixpoint scan_quote (quote_char : ascii) (s : str) (i : nat) (escaped : bool) : nat * bool :=
  match s with
  | [] => (i, escaped)
  | c :: s' =>
      if bool_decide (c ≠ quote_char) || escaped
      then scan_quote quote_char s' (S i) (bool_decide (c = backslash) && negb escaped)
      else (i, escaped)
  end.

Definition get_quote_span (quote_char : ascii) (s : str) : option nat * option nat :=
  if bool_decide (length s < 2) then (None, None)
  else
    let '(open_pos, escaped) := scan_quote quote_char s 0 false in
    if bool_decide (open_pos = length s) then (None, None)
    else
      let '(close_pos, _) :=
        scan_quote quote_char (drop (open_pos + 1) s) (open_pos + 1) escaped in
      (Some open_pos, if bool_decide (close_pos = length s) then None else Some close_pos).

(** ** Variable substitution *)

Definition k_idchars : str :=
  $"abcdefghijklmnopqrstuvwxyzABCDEFGHIJKLMNOPQRSTUVWXYZ_01234567890".

Fixpoint str_subvars_loop (fuel : nat) (s : str) (subvar : str → str) (var_begin var_end : str)
    (p0 : nat) (out_s : str) : str :=
  match fuel with
  | O => out_s
  | S fuel =>
      match find_str s var_begin p0 with
      | None => out_s ++ drop p0 s
      | Some pos =>
          let out_s := out_s ++ substr s p0 (pos - p0) in
          let pos := pos + length var_begin in
          match var_end with
          | [] =>
              match find_first_not_of s k_idchars pos with
              | None => out_s ++ subvar (drop pos s)
              | Some p1 =>
                  str_subvars_loop fuel s subvar var_begin var_end p1
                    (out_s ++ subvar (substr s pos (p1 - pos)))
              end
          | _ =>
              match find_str s var_end pos with
              | None => out_s ++ drop pos s
              | Some p1 =>
                  str_subvars_loop fuel s subvar var_begin var_end (p1 + length var_end)
                    (out_s ++ subvar (substr s pos (p1 - pos)))
              end
          end
      end
  end.

Definition str_subvars (s : str) (subvar : str → str) (var_begin var_end : str) : str :=
  str_subvars_loop (S (length s)) s subvar var_begin var_end 0 [].

(** ** UTF-8 validation

    The function reads continuation bytes without comparing against the end of
    the view: [after] gives the bytes that follow the view in memory. *)

Definition mem_at (s : str) (after : nat → ascii) (i : nat) : Z :=
  uch (default (after (i - length s)) (s !! i)).

Definition utf8_lead (b : Z) : option (nat * Z) :=
  if bool_decide (Z.land b 0x80 = 0%Z) then Some (1, Z.land b 0x7F)
  else if bool_decide (Z.land b 0xE0 = 0xC0%Z) then Some (2, Z.land b 0x1F)
  else if bool_decide (Z.land b 0xF0 = 0xE0%Z) then Some (3, Z.land b 0x0F)
  else if bool_decide (Z.land b 0xF8 = 0xF0%Z) then Some (4, Z.land b 0x07)
  else None.

(** [k] continuation bytes from position [i]. *)
Fixpoint utf8_continuation (rd : nat → Z) (k i : nat) (cp : Z) : option Z :=
  match k with
  | O => Some cp
  | S k =>
      if bool_decide (Z.land (rd i) 0xC0 ≠ 0x80%Z) then None
      else utf8_continuation rd k (S i) (Z.lor (Z.shiftl cp 6) (Z.land (rd i) 0x3F))
  end.

Definition utf8_invalid_cp (cp : Z) (bytes : nat) : bool :=
  ((cp <=? 0x7F)%Z && bool_decide (1 ≠ bytes)) ||
  ((0x80 <=? cp)%Z && (cp <=? 0x07FF)%Z && bool_decide (2 ≠ bytes)) ||
  ((0x0800 <=? cp)%Z && (cp <=? 0xFFFF)%Z && bool_decide (3 ≠ bytes)) ||
  ((0x10000 <=? cp)%Z && (cp <=? 0x10FFFF)%Z && bool_decide (4 ≠ bytes)) ||
  ((0xD800 <=? cp)%Z && (cp <=? 0xDFFF)%Z) ||
  (0x10FFFF <? cp)%Z.

Fixpoint is_valid_utf8_loop (fuel : nat) (s : str) (after : nat → ascii) (i : nat) : bool :=
  match fuel with
  | O => true
  | S fuel =>
      if bool_decide (i < length s) then
        match utf8_lead (mem_at s after i) with
        | None => false
        | Some (bytes, cp) =>
            match utf8_continuation (mem_at s after) (bytes - 1) (S i) cp with
            | None => false
            | Some cp =>
                if utf8_invalid_cp cp bytes then false
                else is_valid_utf8_loop fuel s after (i + bytes)
            end
        end
      else true
  end.

Definition is_valid_utf8 (s : str) (after : nat → ascii) : bool :=
  is_valid_utf8_loop (S (length s)) s after 0.

(** ** Percent encoding *)

Definition k_reserved_chars : list Z :=
  [1; 1; 1; 1; 1; 1; 1; 1; 1; 1; 1; 1; 1; 1; 1; 1;
   1; 1; 1; 1; 1; 1; 1; 1; 1; 1; 1; 1; 1; 1; 1; 1;
   1; 1; 1; 1; 1; 1; 1; 1; 1; 1; 1; 1; 1; 0; 0; 1;
   0; 0; 0; 0; 0; 0; 0; 0; 0; 0; 1; 1; 1; 1; 1; 1;
   1; 0; 0; 0; 0; 0; 0; 0; 0; 0; 0; 0; 0; 0; 0; 0;
   0; 0; 0; 0; 0; 0; 0; 0; 0; 0; 0; 1; 1; 1; 1; 0;
   1; 0; 0; 0; 0; 0; 0; 0; 0; 0; 0; 0; 0; 0; 0; 0;
   0; 0; 0; 0; 0; 0; 0; 0; 0; 0; 0; 1; 1; 1; 0; 1;
   1; 1; 1; 1; 1; 1; 1; 1; 1; 1; 1; 1; 1; 1; 1; 1;
   1; 1; 1; 1; 1; 1; 1; 1; 1; 1; 1; 1; 1; 1; 1; 1;
   1; 1; 1; 1; 1; 1; 1; 1; 1; 1; 1; 1; 1; 1; 1; 1;
   1; 1; 1; 1; 1; 1; 1; 1; 1; 1; 1; 1; 1; 1; 1; 1;
   1; 1; 1; 1; 1; 1; 1; 1; 1; 1; 1; 1; 1; 1; 1; 1;
   1; 1; 1; 1; 1; 1; 1; 1; 1; 1; 1; 1; 1; 1; 1; 1;
   1; 1; 1; 1; 1; 1; 1; 1; 1; 1; 1; 1; 1; 1; 1; 1;
   1; 1; 1; 1; 1; 1; 1; 1; 1; 1; 1; 1; 1; 1; 1; 1]%Z.

Definition k_hex_values : list Z :=
  [0; 0; 0; 0; 0; 0; 0; 0; 0; 0; 0; 0; 0; 0; 0; 0;
   0; 0; 0; 0; 0; 0; 0; 0; 0; 0; 0; 0; 0; 0; 0; 0;
   0; 0; 0; 0; 0; 0; 0; 0; 0; 0; 0; 0; 0; 0; 0; 0;
   0; 1; 2; 3; 4; 5; 6; 7; 8; 9; 0; 0; 0; 0; 0; 0;
   0; 10; 11; 12; 13; 14; 15; 0; 0; 0; 0; 0; 0; 0; 0; 0;
   0; 0; 0; 0; 0; 0; 0; 0; 0; 0; 0; 0; 0; 0; 0; 0;
   0; 10; 11; 12; 13; 14; 15; 0; 0; 0; 0; 0; 0; 0; 0; 0;
   0; 0; 0; 0; 0; 0; 0; 0; 0; 0; 0; 0; 0; 0; 0; 0]%Z.

Definition reserved_char (c : ascii) : bool :=
  bool_decide (nth (Z.to_nat (uch c)) k_reserved_chars 0%Z ≠ 0%Z).
Definition hex_value (c : ascii) : Z := nth (Z.to_nat (uch c)) k_hex_values 0%Z.

Definition pctencode (s : str) : str :=
  concat ((λ c, if reserved_char c
                then ["%"%char; hex_char (Z.shiftr (Z.land (uch c) 0xF0) 4);
                      hex_char (Z.land (uch c) 0x0F)]
                else [c]) <$> s).

(** The test [i <= c - 3] is on [size_t]: it wraps for views shorter than three
    bytes, and the reads at [i + 1] and [i + 2] then leave the view. *)
Fixpoint pctdecode_loop (fuel : nat) (s : str) (after : nat → ascii) (i : nat) (dec : str) : str :=
  match fuel with
  | O => dec
  | S fuel =>
      let c := length s in
      let rd j := default (after (j - c)) (s !! j) in
      if bool_decide (i < c) then
        if (Z.of_nat i <=? u64 (Z.of_nat c - 3))%Z && bool_decide (rd i = "%"%char) &&
           isxdigit (rd (i + 1)) && isxdigit (rd (i + 2))
        then
          let ch := Z.lor (Z.shiftl (hex_value (rd (i + 1))) 4) (hex_value (rd (i + 2))) in
          pctdecode_loop fuel s after (i + 3) (dec ++ [byte_of ch])
        else pctdecode_loop fuel s after (i + 1) (dec ++ [rd i])
      else dec
  end.

Definition pctdecode (s : str) (after : nat → ascii) : str :=
  pctdecode_loop (S (length s)) s after 0 [].

(** ** Truncation (UTF-32 [wchar_t], the non-Windows branch) *)

Definition truncate {wchar : Type} (s : list wchar) (max_length : nat) : list wchar :=
  take (Nat.min (length s) max_length) s.

#[global] Arguments str_replace : simpl never.
#[global] Arguments str_split : simpl never.
#[global] Arguments quote_string : simpl never.
#[global] Arguments unquote_string : simpl never.
#[global] Arguments is_valid_utf8 : simpl never.
#[global] Arguments pctdecode : simpl never.
#[global] Arguments bitset64_to_string : simpl never.
