(* ===== verification/UtilsStringFacts.v ===== *)
(** * Correctness of the string utilities

    Theorems about the definitions of [UtilsString]: replacement against a
    structural reference, splitting against its inverse, stripping, quoting and
    percent-encoding round trips, bit strings, line breaking, and UTF-8
    validation against an encoder. *)
From S2P Require Import Prelude UtilsString.

Open Scope nat_scope.

(** ** Positions and suffixes *)

Lemma from_0 f s : from f s 0 = f s.
Proof. unfold from. rewrite decide_True by lia. rewrite drop_0. by destruct (f s). Qed.

Lemma ibeginswith_app prefix s : str_ibeginswith_pair (prefix ++ s) prefix = true.
Proof.
  unfold str_ibeginswith_pair. rewrite bool_decide_eq_false_2 by (rewrite length_app; lia).
  induction prefix as [|c prefix IH]; [by destruct s|]. cbn [length app strncasecmp_eq]. rewrite bool_decide_eq_true_2 by done.
  by case_bool_decide.
Qed.

Lemma find_char_app u c v : c ∉ u → find_char (u ++ c :: v) c 0 = Some (length u).
Proof.
  intros H. unfold find_char. rewrite from_0. apply find_if_Some. exists c.
  rewrite list_lookup_middle, take_app_length by done. split_and!; [done|by apply bool_decide_eq_true_2|].
  rewrite Forall_forall. intros d Hd. apply bool_decide_eq_false_2. by intros ->.
Qed.

Lemma find_char_None s c : c ∉ s → find_char s c 0 = None.
Proof.
  intros H. unfold find_char. rewrite from_0. apply find_if_None.
  rewrite Forall_forall. intros d Hd. apply bool_decide_eq_false_2. by intros ->.
Qed.

Lemma from_le f s pos :
  pos ≤ length s → from f s pos = (λ i, pos + i) <$> f (drop pos s).
Proof. intros. unfold from. by rewrite decide_True. Qed.

Lemma drop_add {A} (l : list A) i j : drop j (drop i l) = drop (i + j) l.
Proof. rewrite drop_drop. done. Qed.

Lemma substr_drop s i n : substr (drop i s) 0 n = substr s i n.
Proof. done. Qed.

(** ** Replacement *)

(** Reference: one left-to-right pass; [skip] bytes of the last match remain to
    be dropped. *)
Fixpoint repl (skip : nat) (from to s : str) : str :=
  match s with
  | [] => []
  | c :: s' =>
      match skip with
      | S k => repl k from to s'
      | O => if prefixb from s then to ++ repl (length from - 1) from to s'
             else c :: repl 0 from to s'
      end
  end.

Lemma repl_skip k from to s : repl k from to s = repl 0 from to (drop k s).
Proof. revert k. induction s as [|c s IH]; intros [|k]; simpl; auto. Qed.

Lemma repl_find from to s :
  from ≠ [] →
  repl 0 from to s =
  match find_sub from s with
  | None => s
  | Some i => take i s ++ to ++ repl 0 from to (drop (i + length from) s)
  end.
Proof.
  intros Hne. induction s as [|c s IH].
  { simpl. by destruct from. }
  simpl. destruct (prefixb from (c :: s)) eqn:E; simpl.
  - rewrite repl_skip. destruct from; [done|]. simpl. by rewrite Nat.sub_0_r.
  - rewrite IH. by destruct (find_sub from s).
Qed.

Lemma str_replace_loop_repl fuel s from to start acc :
  from ≠ [] → length s - start < fuel → start ≤ length s →
  str_replace_loop fuel s from to start (find_str s from start) acc =
  acc ++ repl 0 from to (drop start s).
Proof.
  intros Hne. revert start acc. induction fuel as [|fuel IH]; intros start acc Hf Hs; [lia|].
  unfold find_str. rewrite from_le, repl_find by done.
  destruct (find_sub from (drop start s)) as [i|] eqn:E; simpl.
  - pose proof (find_sub_le _ _ _ E) as Hle. rewrite length_drop in Hle.
    assert (0 < length from) by (destruct from; [done|simpl; lia]).
    change (Prelude.from (find_sub from)) with (λ s pos, find_str s from pos).
    cbv beta. rewrite IH by lia.
    rewrite drop_add, (Nat.add_assoc start i). case_bool_decide.
    + unfold substr. replace (start + i - start) with i by lia. by rewrite <- !(assoc_L (++)).
    + assert (i = 0) as -> by lia. simpl. by rewrite <- (assoc_L (++)).
  - case_bool_decide.
    + unfold substr. by rewrite take_ge by (rewrite length_drop; lia).
    + rewrite drop_ge by lia. by rewrite app_nil_r.
Qed.

Lemma str_replace_repl s from to : from ≠ [] → str_replace s from to = repl 0 from to s.
Proof.
  intros Hne. unfold str_replace. destruct from as [|c from]; [done|].
  rewrite str_replace_loop_repl by (try done; lia). by rewrite drop_0.
Qed.

Lemma repl_single c to s :
  repl 0 [c] to s = concat ((λ d, if bool_decide (d = c) then to else [d]) <$> s).
Proof.
  induction s as [|d s IH]; [done|]. simpl. rewrite andb_true_r, IH.
  do 2 case_bool_decide; naive_solver.
Qed.

Lemma str_join_cons2 {A} (f : A → str) sep x y l :
  str_join (x :: y :: l) sep f = f x ++ sep ++ str_join (y :: l) sep f.
Proof.
  simpl. assert (∀ a b, foldl (λ s z, s ++ sep ++ f z) (a ++ b) l =
                 a ++ foldl (λ s z, s ++ sep ++ f z) b l) as H.
  { induction l as [|z l IH]; intros a b; simpl; [done|].
    by rewrite <- (assoc_L (++)), IH. }
  by rewrite !H.
Qed.

(** [parts] is [s] cut at the occurrences of [from]. *)
Lemma replace_parts from to s :
  from ≠ [] →
  ∃ parts, parts ≠ [] ∧ str_join parts from id = s ∧
    repl 0 from to s = str_join parts to id ∧
    Forall (λ p, find_sub from p = None) parts.
Proof.
  intros Hne. remember (length s) as n eqn:Hn. revert s Hn.
  induction n as [n IH] using lt_wf_ind. intros s ->.
  rewrite repl_find by done. destruct (find_sub from s) as [i|] eqn:E.
  - pose proof (find_sub_le _ _ _ E) as Hle.
    destruct (find_sub_Some _ _ _ E) as ([k Hk] & _ & Hmin).
    assert (0 < length from) by (destruct from; [done|simpl; lia]).
    destruct (IH (length (drop (i + length from) s))) with (drop (i + length from) s)
      as (parts & Hp & Hj & Hr & Hall); [rewrite length_drop; lia|done|].
    destruct parts as [|p parts]; [done|].
    exists (take i s :: p :: parts). split_and!; [done| | |].
    + rewrite str_join_cons2, Hj. unfold id at 1.
      rewrite <- (take_drop i s) at 3. f_equal. rewrite Hk.
      f_equal. rewrite <- drop_add, Hk. by rewrite drop_app_length.
    + by rewrite str_join_cons2, Hr.
    + constructor; [|done]. destruct (find_sub from (take i s)) as [j|] eqn:Ej; [|done].
      pose proof (find_sub_le _ _ _ Ej) as Hj'. rewrite length_take in Hj'.
      destruct (find_sub_Some _ _ _ Ej) as ([k' Hk'] & _ & _).
      exfalso. apply (Hmin j); [lia|]. exists (k' ++ drop i s).
      rewrite (assoc_L (++)), <- Hk'.
      rewrite <- (take_drop i s) at 1. rewrite drop_app_le; [done|]. rewrite length_take. lia.
  - exists [s]. split_and!; try done. by constructor.
Qed.

(** ** Quoting *)

Section quoting.
Context (q : ascii) (Hq : q ≠ backslash).

Definition escape1 (c : ascii) : str :=
  if bool_decide (c = backslash) then [backslash; backslash]
  else if bool_decide (c = q) then [backslash; q] else [c].
Definition escape2 (c : ascii) : str :=
  if bool_decide (c = backslash) then [backslash; backslash] else [c].

Lemma concat_fmap_concat (f g : ascii → str) s :
  concat (f <$> concat (g <$> s)) = concat ((λ c, concat (f <$> g c)) <$> s).
Proof.
  induction s as [|c s IH]; [done|]. csimpl. rewrite fmap_app, concat_app. by rewrite IH.
Qed.

Lemma quote_string_eq s :
  quote_string s q = [q] ++ concat (escape1 <$> s) ++ [q].
Proof.
  unfold quote_string. rewrite !str_replace_repl, !repl_single by done.
  rewrite concat_fmap_concat. do 2 f_equal.
  induction s as [|c s IH]; [done|]. cbn [fmap list_fmap concat]. rewrite IH. f_equal.
  unfold escape1. repeat (case_bool_decide; simplify_eq/=); done.
Qed.

Lemma unescape_quote s :
  repl 0 [backslash; q] [q] (concat (escape1 <$> s)) = concat (escape2 <$> s).
Proof.
  induction s as [|c s IH]; [done|]. csimpl. unfold escape1 at 1, escape2 at 1.
  destruct (decide (c = backslash)) as [->|Hc].
  - rewrite !bool_decide_eq_true_2 by done. csimpl.
    rewrite (bool_decide_eq_false_2 (q = backslash)) by done. csimpl. do 2 f_equal.
    rewrite <- IH. destruct (concat (escape1 <$> s)) as [|d t] eqn:E; [done|].
    rewrite bool_decide_eq_false_2; [done|]. intros <-.
    clear IH. destruct s as [|e s]; [done|]. csimpl in E. unfold escape1 at 1 in E.
    repeat case_bool_decide; simplify_eq/=.
  - rewrite !(bool_decide_eq_false_2 (c = backslash)) by done.
    case_bool_decide; subst; csimpl.
    + rewrite !bool_decide_eq_true_2 by done. csimpl. by rewrite IH.
    + rewrite (bool_decide_eq_false_2 (backslash = c)) by done. csimpl. by rewrite IH.
Qed.

Lemma unescape_backslash s :
  repl 0 [backslash; backslash] [backslash] (concat (escape2 <$> s)) = s.
Proof.
  induction s as [|c s IH]; [done|]. csimpl. unfold escape2 at 1.
  case_bool_decide as Hc; subst; csimpl.
  - by rewrite IH.
  - rewrite bool_decide_eq_false_2 by done. csimpl. by rewrite IH.
Qed.

Lemma unquote_quote s : unquote_string (quote_string s q) q = s.
Proof.
  rewrite quote_string_eq. set (e := concat (escape1 <$> s)).
  unfold unquote_string. rewrite !length_app. simpl.
  rewrite bool_decide_eq_true_2 by lia. rewrite bool_decide_eq_true_2 by done. simpl.
  rewrite bool_decide_eq_true_2.
  2:{ replace (length e + 1 - 0) with (S (length e)) by lia. simpl.
      by rewrite lookup_app_r, Nat.sub_diag by lia. }
  unfold substr. simpl. rewrite drop_0.
  replace (length e + 1 - 1) with (length e) by lia. rewrite take_app_length.
  rewrite !str_replace_repl by done. unfold e. by rewrite unescape_quote, unescape_backslash.
Qed.
End quoting.

(** ** Splitting *)

(** Tokens with one separator byte between neighbours. *)
Fixpoint weave (toks : list str) (used : str) : str :=
  match used, toks with
  | [], t :: _ => t
  | c :: used, t :: toks => t ++ c :: weave toks used
  | _, _ => []
  end.

Definition no_sep (seps t : str) : Prop := Forall (λ c, mem_chars seps c = false) t.

(** What [str_split] promises about the tokens of the text [u] with at most
    [m] cuts ([m < 0] for no limit). *)
Record split_of (u seps : str) (m : Z) (toks : list str) (used : str) : Prop := {
  so_len : length toks = S (length used);
  so_weave : weave toks used = u;
  so_used : Forall (λ c, mem_chars seps c = true) used;
  so_max : (0 ≤ m)%Z → (Z.of_nat (length used) ≤ m)%Z;
  so_init : Forall (no_sep seps) (take (length used) toks);
  so_last : (m < 0)%Z ∨ (Z.of_nat (length used) < m)%Z → Forall (no_sep seps) toks;
}.

Lemma split_of_one u seps m :
  m = 0%Z ∨ no_sep seps u → split_of u seps m [u] [].
Proof.
  intros H. split; try done; try (simpl; lia).
  intros Hm. constructor; [|done]. destruct H as [->|?]; [simpl in Hm; lia|done].
Qed.

Lemma split_of_cons u seps m i c toks used :
  m ≠ 0%Z → find_if (mem_chars seps) u = Some i → u !! i = Some c →
  split_of (drop (S i) u) seps (m - 1) toks used →
  split_of u seps m (take i u :: toks) (c :: used).
Proof.
  intros Hm Hi Hc [Hlen Hw Hu Hmax Hinit Hlast].
  apply find_if_Some in Hi as (d & Hd & Pd & Hall). simplify_eq.
  split.
  - simpl. lia.
  - simpl. rewrite Hw. by apply take_drop_middle.
  - by constructor.
  - intros. simpl. lia.
  - simpl. by constructor.
  - simpl. intros ?. constructor; [done|]. apply Hlast. lia.
Qed.

Lemma str_split_loop_spec fuel input seps index nf m acc :
  length input - index < fuel → nf < length input → index ≤ length input →
  ∃ toks used,
    str_split_loop fuel input seps false index nf m acc = acc ++ toks ∧
    split_of (drop index input) seps m toks used.
Proof.
  revert index nf m acc. induction fuel as [|fuel IH]; intros index nf m acc Hf Hnf Hi; [lia|].
  simpl. rewrite bool_decide_eq_true_2 by done.
  destruct (decide (m = 0%Z)) as [->|Hm].
  { rewrite bool_decide_eq_false_2 by lia. exists [drop index input], []. split; [done|].
    apply split_of_one. by left. }
  rewrite bool_decide_eq_true_2 by done.
  unfold find_first_of. rewrite from_le by done.
  destruct (find_if (mem_chars seps) (drop index input)) as [i|] eqn:E; simpl.
  - pose proof (find_if_lt _ _ _ E) as Hlt. rewrite length_drop in Hlt.
    rewrite orb_true_r. simpl.
    destruct (IH (S (index + i)) (index + i) (m - 1)%Z
                (acc ++ [substr input index (index + i - index)]))
      as (toks & used & -> & Hs); [lia..|].
    destruct (lookup_lt_is_Some_2 (drop index input) i) as [c Hc]; [rewrite length_drop; lia|].
    exists (take i (drop index input) :: toks), (c :: used). split.
    + rewrite <- (assoc_L (++)). unfold substr. by replace (index + i - index) with i by lia.
    + apply split_of_cons; try done. rewrite drop_add. by rewrite Nat.add_succ_r.
  - exists [drop index input], []. split; [done|]. apply split_of_one. right.
    by apply find_if_None.
Qed.

Lemma str_split_spec input seps m :
  input ≠ [] → ∃ used, split_of input seps m (str_split input seps m false) used.
Proof.
  intros Hne. assert (0 < length input) by (destruct input; [done|simpl; lia]).
  destruct (str_split_loop_spec (S (S (length input))) input seps 0 0 m [])
    as (toks & used & Heq & Hs); [lia..|].
  exists used. unfold str_split. rewrite Heq. by rewrite drop_0 in Hs.
Qed.

(** The tokens in structural form; [cur] is the token being read. *)
Fixpoint split_ref (seps cur u : str) (m : Z) : list str :=
  match u with
  | [] => [cur]
  | c :: u =>
      if bool_decide (m ≠ 0%Z) && mem_chars seps c then cur :: split_ref seps [] u (m - 1)
      else split_ref seps (cur ++ [c]) u m
  end.

Lemma split_ref_end seps cur u m : m = 0%Z ∨ no_sep seps u → split_ref seps cur u m = [cur ++ u].
Proof.
  intros H. revert cur. induction u as [|c u IH]; intros cur; simpl; [by rewrite app_nil_r|].
  assert (bool_decide (m ≠ 0%Z) && mem_chars seps c = false) as ->.
  { destruct H as [->|H]; [done|]. unfold no_sep in H. rewrite Forall_cons in H.
    destruct H as [-> _]. apply andb_false_r. }
  rewrite IH; [by rewrite <- (assoc_L (++))|]. destruct H as [|H]; [by left|right].
  unfold no_sep in H. rewrite Forall_cons in H. apply H.
Qed.

Lemma split_ref_cut seps cur t c u m :
  m ≠ 0%Z → no_sep seps t → mem_chars seps c = true →
  split_ref seps cur (t ++ c :: u) m = (cur ++ t) :: split_ref seps [] u (m - 1).
Proof.
  intros Hm Ht Hc. revert cur. induction Ht as [|d t Hd Ht IH]; intros cur; simpl.
  - by rewrite bool_decide_eq_true_2, Hc, app_nil_r.
  - by rewrite Hd, andb_false_r, IH, <- (assoc_L (++)).
Qed.

Lemma split_of_ref u seps m toks used :
  split_of u seps m toks used → toks = split_ref seps [] u m.
Proof.
  revert u m toks. induction used as [|c used IH]; intros u m toks [Hlen Hw Hu Hmax Hinit Hlast];
    destruct toks as [|t toks]; try done; simpl in *.
  - destruct toks; [|done]. subst u. rewrite split_ref_end; [done|].
    destruct (decide (m = 0%Z)) as [|Hm]; [by left|right].
    assert (Forall (no_sep seps) [t]) as H by (apply Hlast; lia). by rewrite Forall_singleton in H.
  - rewrite Forall_cons in Hinit. rewrite Forall_cons in Hu. destruct Hinit as [Ht Hinit], Hu as [Hc Hu].
    subst u. rewrite split_ref_cut by (done || lia). simpl. f_equal. apply IH.
    split; try done; try lia. intros ?. assert (Forall (no_sep seps) (t :: toks)) as Hl.
    { apply Hlast. lia. }
    rewrite Forall_cons in Hl. apply Hl.
Qed.

Lemma str_split_ref input seps m :
  input ≠ [] → str_split input seps m false = split_ref seps [] input m.
Proof. intros [used H]%(str_split_spec input seps m). by eapply split_of_ref. Qed.

Lemma str_itersplit_loop_push fuel input seps compress index nf m acc :
  str_itersplit_loop (λ (a : list str) t, (a ++ [t], true)) fuel input seps compress index nf m acc
  = (str_split_loop fuel input seps compress index nf m acc, true).
Proof.
  revert index nf m acc. induction fuel as [|fuel IH]; intros; [done|]. simpl.
  case_bool_decide; [|done].
  destruct (if bool_decide (m ≠ 0%Z) then _ else _) as [p|]; [|done].
  destruct (_ || _); apply IH.
Qed.

(** ** Stripping *)

Definition all_in (chars s : str) : Prop := Forall (λ c, mem_chars chars c = true) s.

Lemma negb_mem_false chars s :
  Forall (λ c, negb (mem_chars chars c) = false) s ↔ all_in chars s.
Proof. apply Forall_iff. intros c. by rewrite negb_false_iff. Qed.

Lemma str_strip_decompose s chars :
  ∃ l r, s = l ++ str_strip_view s chars ++ r ∧ all_in chars l ∧ all_in chars r ∧
    (∀ c, head (str_strip_view s chars) = Some c → mem_chars chars c = false) ∧
    (∀ c, last (str_strip_view s chars) = Some c → mem_chars chars c = false).
Proof.
  unfold str_strip_view, find_first_not_of, find_last_not_of. rewrite from_0.
  destruct (find_if _ s) as [b|] eqn:Eb.
  - apply find_if_Some in Eb as (c & Hc & Pc & Hall).
    destruct (find_last_if _ s) as [e|] eqn:Ee.
    2:{ apply find_last_if_None in Ee. rewrite Forall_lookup in Ee. by rewrite (Ee b c Hc) in Pc. }
    apply find_last_if_Some in Ee as (d & Hd & Pd & Hall').
    assert (b ≤ e) as Hbe.
    { destruct (decide (b ≤ e)); [done|]. exfalso. rewrite Forall_lookup in Hall'.
      assert (drop (S e) s !! (b - S e) = Some c) as Hx.
      { rewrite lookup_drop. by replace (S e + (b - S e)) with b by lia. }
      by rewrite (Hall' _ _ Hx) in Pc. }
    exists (take b s), (drop (S e) s). unfold substr.
    assert (e < length s) by by eapply lookup_lt_Some.
    split_and!.
    + replace (drop (S e) s) with (drop (e - b + 1) (drop b s))
        by (rewrite drop_drop; f_equal; lia).
      by rewrite take_drop, take_drop.
    + by apply negb_mem_false.
    + by apply negb_mem_false.
    + intros x Hx. replace (e - b + 1) with (S (e - b)) in Hx by lia.
      rewrite (drop_S _ _ _ Hc) in Hx. simplify_eq/=. by apply negb_true_iff in Pc.
    + intros x Hx. rewrite last_lookup, length_take, length_drop in Hx.
      rewrite lookup_take_lt, lookup_drop in Hx by lia.
      replace (b + pred ((e - b + 1) `min` (length s - b))) with e in Hx by lia.
      simplify_eq. by apply negb_true_iff in Pd.
  - apply find_if_None in Eb. exists s, []. rewrite !app_nil_r. split_and!; try done.
    + by apply negb_mem_false.
    + constructor.
Qed.

(** ** UTF-8 *)

Section utf8.
Open Scope Z_scope.

(** Unicode scalar values and their encoding (RFC 3629). *)
Definition scalar (cp : Z) : Prop :=
  0 <= cp <= 0x10FFFF ∧ ¬ (0xD800 <= cp <= 0xDFFF).

Definition utf8_encode1 (cp : Z) : list Z :=
  if cp <? 0x80 then [cp]
  else if cp <? 0x800 then [192 + cp / 64; 128 + cp mod 64]
  else if cp <? 0x10000 then [224 + cp / 4096; 128 + (cp / 64) mod 64; 128 + cp mod 64]
  else [240 + cp / 262144; 128 + (cp / 4096) mod 64; 128 + (cp / 64) mod 64; 128 + cp mod 64].

Definition utf8_encode (cps : list Z) : str := byte_of <$> concat (utf8_encode1 <$> cps).

Lemma byte_prop (P : Z → bool) :
  forallb P (Z.of_nat <$> seq 0 256) = true → ∀ b, 0 <= b < 256 → P b = true.
Proof.
  intros H b Hb. rewrite forallb_forall in H. apply H, list_elem_of_In.
  rewrite list_elem_of_fmap. exists (Z.to_nat b). rewrite elem_of_seq. lia.
Qed.

(** The lead-byte tests as intervals. *)
Definition lead_ref (b : Z) : option (nat * Z) :=
  if b <? 128 then Some (1%nat, b)
  else if b <? 192 then None
  else if b <? 224 then Some (2%nat, b - 192)
  else if b <? 240 then Some (3%nat, b - 224)
  else if b <? 248 then Some (4%nat, b - 240)
  else None.

Lemma utf8_lead_ref b : 0 <= b < 256 → utf8_lead b = lead_ref b.
Proof.
  intros Hb. apply (bool_decide_eq_true_1 (utf8_lead b = lead_ref b)). revert b Hb.
  apply (byte_prop (λ b, bool_decide (utf8_lead b = lead_ref b))). vm_compute. reflexivity.
Qed.

Lemma cont_ref b :
  0 <= b < 256 →
  bool_decide (Z.land b 0xC0 ≠ 0x80) = negb ((128 <=? b) && (b <? 192)) ∧
  (128 <= b < 192 → Z.land b 0x3F = b - 128).
Proof.
  intros Hb.
  pose proof (byte_prop (λ b, bool_decide
    (bool_decide (Z.land b 0xC0 ≠ 0x80) = negb ((128 <=? b) && (b <? 192)) ∧
    (128 <= b < 192 → Z.land b 0x3F = b - 128)))) as H.
  specialize (H ltac:(vm_compute; reflexivity) b Hb).
  by apply bool_decide_eq_true_1 in H.
Qed.

Lemma lor_shift6 cp x : 0 <= cp → 0 <= x < 64 → Z.lor (Z.shiftl cp 6) x = cp * 64 + x.
Proof.
  intros Hc Hx. rewrite Z.shiftl_mul_pow2 by lia. change (2 ^ 6) with 64.
  rewrite <- Z.lxor_lor, <- Z.add_nocarry_lxor; [done|..];
    apply Z.bits_inj'; intros n Hn; rewrite Z.land_spec, Z.bits_0;
    change 64 with (2 ^ 6); rewrite Z.mul_pow2_bits by lia;
    (destruct (Z_lt_le_dec n 6); [rewrite (Z.testbit_neg_r cp) by lia; done|]);
    assert (Z.testbit x n = false) as ->; try apply andb_false_r;
    apply Z.bits_above_log2; try lia; destruct (decide (x = 0)); subst; simpl; try lia;
    apply Z.log2_lt_pow2; try lia; apply Z.lt_le_trans with (2 ^ 6); try lia;
    apply Z.pow_le_mono_r; lia.
Qed.

(** One iteration of the loop of [is_valid_utf8], on a memory reader. *)
Definition decode1 (rd : nat → Z) : option (Z * nat) :=
  match utf8_lead (rd 0%nat) with
  | None => None
  | Some (n, cp) =>
      match utf8_continuation rd (n - 1) 1 cp with
      | None => None
      | Some cp => if utf8_invalid_cp cp n then None else Some (cp, n)
      end
  end.

Lemma utf8_continuation_S rd k i cp :
  (∀ j, 0 <= rd j < 256) → 0 <= cp →
  utf8_continuation rd (S k) i cp =
  if (128 <=? rd i) && (rd i <? 192)
  then utf8_continuation rd k (S i) (cp * 64 + (rd i - 128)) else None.
Proof.
  intros Hrd Hcp. simpl. destruct (cont_ref (rd i) (Hrd i)) as [-> Hval].
  destruct ((128 <=? rd i) && (rd i <? 192)) eqn:E; [|done]. bool_to_prop. simpl.
  by rewrite Hval, lor_shift6 by lia.
Qed.

Lemma decode1_sound rd cp n :
  (∀ i, 0 <= rd i < 256) → decode1 rd = Some (cp, n) →
  scalar cp ∧ rd <$> seq 0 n = utf8_encode1 cp.
Proof.
  intros Hrd. unfold decode1. rewrite utf8_lead_ref by done. unfold lead_ref.
  pose proof (Hrd 0%nat).
  repeat match goal with |- context [if ?b <? ?c then _ else _] => destruct (Z.ltb_spec b c) end;
    try done; cbn [Nat.sub];
    repeat (rewrite utf8_continuation_S by (done || lia);
            match goal with |- context [(128 <=? ?b) && (?b <? 192)] =>
              destruct (Z.leb_spec 128 b), (Z.ltb_spec b 192); simpl andb; try done end);
    cbn [utf8_continuation];
    (match goal with |- context [utf8_invalid_cp ?c ?k] =>
      destruct (utf8_invalid_cp c k) eqn:E; [done|]; unfold utf8_invalid_cp in E end);
    intros [= <- <-];
    repeat (apply orb_false_iff in E as [E ?]);
    repeat match goal with
    | H : context [bool_decide (?a ≠ ?b)] |- _ =>
        first [rewrite (bool_decide_eq_false_2 (a ≠ b)) in H by lia
              |rewrite (bool_decide_eq_true_2 (a ≠ b)) in H by lia]
    end;
    rewrite ?andb_true_r, ?andb_false_r in *;
    repeat match goal with H : _ && _ = false |- _ => apply andb_false_iff in H end;
    rewrite ?Z.leb_gt, ?Z.ltb_ge in *;
    (split; [unfold scalar; lia|]);
    unfold utf8_encode1;
    repeat match goal with |- context [if ?b <? ?c then _ else _] => destruct (Z.ltb_spec b c) end;
    try lia; simpl; repeat (apply (f_equal2 cons); [lia_div|]); done.
Qed.

Lemma utf8_valid_cp cp n :
  scalar cp → n = length (utf8_encode1 cp) → utf8_invalid_cp cp n = false.
Proof.
  intros [Hr Hs] ->. unfold utf8_encode1, utf8_invalid_cp.
  repeat match goal with |- context [if ?b <? ?c then _ else _] => destruct (Z.ltb_spec b c) end;
    simpl length;
    repeat match goal with
    | |- context [?b <? ?c] => destruct (Z.ltb_spec b c); try lia
    | |- context [?b <=? ?c] => destruct (Z.leb_spec b c); try lia
    end; reflexivity.
Qed.

Lemma decode1_complete rd cp n :
  (∀ i, 0 <= rd i < 256) → scalar cp → rd <$> seq 0 n = utf8_encode1 cp →
  decode1 rd = Some (cp, n).
Proof.
  intros Hrd Hcp Hb.
  assert (n = length (utf8_encode1 cp)) as Hn
    by (rewrite <- Hb, length_fmap, length_seq; done).
  pose proof (utf8_valid_cp cp n Hcp Hn) as Hv. destruct Hcp as [Hr Hs].
  unfold decode1. rewrite utf8_lead_ref by done. unfold lead_ref.
  unfold utf8_encode1 in Hb, Hn.
  repeat match type of Hb with context [if ?b <? ?c then _ else _] =>
      destruct (Z.ltb_spec b c) end;
    simpl in Hn; subst n; simpl in Hb; injection Hb; intros; clear Hb;
    repeat match goal with |- context [if ?b <? ?c then _ else _] =>
      destruct (Z.ltb_spec b c); try lia_div end; cbn [Nat.sub];
    repeat (rewrite utf8_continuation_S by (done || lia_div);
            match goal with |- context [(128 <=? ?b) && (?b <? 192)] =>
              destruct (Z.leb_spec 128 b), (Z.ltb_spec b 192); simpl andb; try lia_div end);
    cbn [utf8_continuation];
    (match goal with |- context [utf8_invalid_cp ?c _] =>
       replace c with cp by lia_div end);
    by rewrite Hv.
Qed.

Lemma utf8_encode1_bytes cp j b :
  scalar cp → utf8_encode1 cp !! j = Some b →
  0 <= b < 256 ∧ ((1 <= j)%nat → 128 <= b < 192).
Proof.
  intros [Hr Hs]. unfold utf8_encode1.
  repeat match goal with |- context [if ?b <? ?c then _ else _] => destruct (Z.ltb_spec b c) end;
    destruct j as [|[|[|[|j]]]]; simpl; intros; simplify_eq; split; intros; lia_div.
Qed.

Lemma utf8_encode1_nonempty cp : (0 < length (utf8_encode1 cp))%nat.
Proof. unfold utf8_encode1. repeat case_match; simpl; lia. Qed.

Lemma utf8_continuation_shift rd k i j cp :
  utf8_continuation rd k (i + j) cp = utf8_continuation (λ x, rd (i + x)%nat) k j cp.
Proof.
  revert j cp. induction k as [|k IH]; intros j cp; simpl; [done|].
  case_bool_decide; [done|]. by rewrite <- Nat.add_succ_r, IH.
Qed.

Lemma is_valid_utf8_step fuel s after i :
  (i < length s)%nat →
  is_valid_utf8_loop (S fuel) s after i =
  match decode1 (λ k, mem_at s after (i + k)%nat) with
  | None => false
  | Some (_, n) => is_valid_utf8_loop fuel s after (i + n)
  end.
Proof.
  intros Hi. simpl. rewrite bool_decide_eq_true_2 by done. unfold decode1.
  rewrite Nat.add_0_r. destruct (utf8_lead _) as [[n cp]|]; [|done].
  replace (S i) with (i + 1)%nat by lia. rewrite utf8_continuation_shift.
  destruct (utf8_continuation _ _ _ _); [|done]. by destruct (utf8_invalid_cp _ _).
Qed.

(** The bytes that follow the view do not continue a sequence (NUL does not). *)
Definition terminated (after : nat → ascii) : Prop := ¬ 128 <= uch (after 0%nat) < 192.

Lemma mem_at_range s after i : 0 <= mem_at s after i < 256.
Proof. apply uch_range. Qed.

Lemma utf8_take s after i n cp :
  terminated after → (i <= length s)%nat → (0 < n)%nat → (i < length s)%nat → scalar cp →
  (λ k, mem_at s after (i + k)%nat) <$> seq 0 n = utf8_encode1 cp →
  (i + n <= length s)%nat ∧ drop i s = (byte_of <$> utf8_encode1 cp) ++ drop (i + n) s.
Proof.
  intros Hterm Hi Hn Hlt Hcp Heq.
  assert (i + n <= length s)%nat as Hle.
  { destruct (decide (i + n <= length s)%nat); [done|]. exfalso. apply Hterm.
    assert (utf8_encode1 cp !! (length s - i)%nat = Some (uch (after 0%nat))) as Hb.
    { rewrite <- Heq, list_lookup_fmap, lookup_seq_lt by lia. simpl. f_equal. unfold mem_at.
      rewrite lookup_ge_None_2 by lia. simpl. do 2 f_equal. lia. }
    apply utf8_encode1_bytes in Hb as [_ Hb]; [|done]. apply Hb. lia. }
  split; [done|]. rewrite <- Heq. rewrite <- (take_drop n (drop i s)) at 1.
  rewrite drop_drop. f_equal. apply list_eq. intros k.
  rewrite !list_lookup_fmap. destruct (decide (k < n)%nat).
  - rewrite lookup_take_lt, lookup_seq_lt, lookup_drop by lia. simpl.
    destruct (lookup_lt_is_Some_2 s (i + k)) as [c Hc]; [lia|].
    unfold mem_at. rewrite Hc. simpl. by rewrite byte_of_uch.
  - rewrite lookup_take_ge by lia. by rewrite lookup_seq_ge by lia.
Qed.

Lemma is_valid_utf8_loop_spec fuel s after i :
  terminated after → (i <= length s)%nat → (length s - i < fuel)%nat →
  is_valid_utf8_loop fuel s after i = true ↔
  ∃ cps, Forall scalar cps ∧ drop i s = utf8_encode cps.
Proof.
  intros Hterm. revert i. induction fuel as [|fuel IH]; intros i Hi Hf; [lia|].
  destruct (decide (i < length s)%nat) as [Hlt|Hge].
  2:{ simpl. rewrite bool_decide_eq_false_2 by done. split; [|done]. intros _.
      exists []. split; [done|]. rewrite drop_ge by lia. done. }
  rewrite is_valid_utf8_step by done.
  set (rd := λ k, mem_at s after (i + k)%nat).
  assert (∀ k, 0 <= rd k < 256) as Hrd by (intros; apply mem_at_range).
  split.
  - destruct (decode1 rd) as [[cp n]|] eqn:E; [|done]. intros Hv.
    destruct (decode1_sound rd cp n Hrd E) as [Hcp Heq].
    assert (0 < n)%nat.
    { pose proof (utf8_encode1_nonempty cp). rewrite <- Heq, length_fmap, length_seq in H. lia. }
    destruct (utf8_take s after i n cp) as [Hle Hd]; try done.
    apply IH in Hv as (cps & Hall & Hcps); [|lia..].
    exists (cp :: cps). split; [by constructor|]. rewrite Hd, Hcps.
    unfold utf8_encode. csimpl. by rewrite fmap_app.
  - intros (cps & Hall & Heq). destruct cps as [|cp cps].
    { apply (f_equal length) in Heq. rewrite length_drop in Heq. simpl in Heq. lia. }
    apply Forall_cons in Hall as [Hcp Hall]. unfold utf8_encode in Heq. csimpl in Heq.
    rewrite fmap_app in Heq. set (n := length (utf8_encode1 cp)).
    assert (i + n <= length s)%nat as Hle.
    { apply (f_equal length) in Heq. rewrite length_app, length_fmap, length_drop in Heq. lia. }
    rewrite (decode1_complete rd cp n Hrd Hcp).
    + apply IH; [lia|pose proof (utf8_encode1_nonempty cp); lia|].
      exists cps. split; [done|]. rewrite <- drop_drop, Heq.
      rewrite drop_app_length'; [done|by rewrite length_fmap].
    + apply list_eq. intros k. rewrite list_lookup_fmap.
      destruct (decide (k < n)%nat).
      * rewrite lookup_seq_lt by done. simpl.
        destruct (lookup_lt_is_Some_2 (utf8_encode1 cp) k) as [b Hb]; [done|].
        assert (s !! (i + k)%nat = Some (byte_of b)) as Hs.
        { rewrite <- lookup_drop, Heq, lookup_app_l by (rewrite length_fmap; done).
          by rewrite list_lookup_fmap, Hb. }
        unfold rd, mem_at. rewrite Hs, Hb. simpl. f_equal. rewrite uch_byte_of.
        apply Z.mod_small. by eapply utf8_encode1_bytes.
      * rewrite lookup_seq_ge by lia. by rewrite lookup_ge_None_2 by lia.
Qed.
End utf8.

(** ** Percent encoding *)

Definition pct1 (c : ascii) : str :=
  if reserved_char c
  then ["%"%char; hex_char (Z.shiftr (Z.land (uch c) 0xF0) 4); hex_char (Z.land (uch c) 0x0F)]
  else [c].

(** Facts on one byte, by evaluation on all 256. *)
Lemma pct1_facts c :
  let hi := hex_char (Z.shiftr (Z.land (uch c) 0xF0) 4) in
  let lo := hex_char (Z.land (uch c) 0x0F) in
  isxdigit hi = true ∧ isxdigit lo = true ∧
  byte_of (Z.lor (Z.shiftl (hex_value hi) 4) (hex_value lo)) = c ∧
  (reserved_char c = false → c ≠ "%"%char).
Proof. by_bytes c. Qed.

(** Texts of which some characters are kept and the others are encoded. *)
Definition pct_keep (keep : ascii → bool) (s : str) : str := concat ((λ c, if keep c then [c] else pct1 c) <$> s).

Lemma pct_keep_cons keep c s : pct_keep keep (c :: s) = (if keep c then [c] else pct1 c) ++ pct_keep keep s.
Proof. done. Qed.

Lemma pct_keep_app keep s s' : pct_keep keep (s ++ s') = pct_keep keep s ++ pct_keep keep s'.
Proof. unfold pct_keep. by rewrite fmap_app, concat_app. Qed.

(** The encoding of a character: the character, or three characters. *)
Lemma pct_keep_char (keep : ascii → bool) c :
  (keep c = true → c ≠ "%"%char) →
  (c ≠ "%"%char ∧ (if keep c then [c] else pct1 c) = [c]) ∨
  (keep c = false ∧ reserved_char c = true ∧
   pct1 c = ["%"%char; hex_char (Z.shiftr (Z.land (uch c) 0xF0) 4); hex_char (Z.land (uch c) 0x0F)]).
Proof.
  intros Hk. destruct (pct1_facts c) as (_ & _ & _ & Hnot). unfold pct1.
  destruct (keep c), (reserved_char c); auto.
Qed.

Lemma pctdecode_loop_keep keep fuel after pre u dec :
  (∀ c, keep c = true → c ≠ "%"%char) →
  (Z.of_nat (length (pre ++ pct_keep keep u)) < 2 ^ 64)%Z → length u < fuel →
  pctdecode_loop fuel (pre ++ pct_keep keep u) after (length pre) dec = dec ++ u.
Proof.
  intros Hkeep. revert fuel pre dec. induction u as [|c u IH]; intros [|fuel] pre dec Hlen Hf;
    simpl in Hf; try lia.
  { simpl. rewrite app_nil_r, bool_decide_eq_false_2 by lia. by rewrite app_nil_r. }
  destruct (pct1_facts c) as (Hhi & Hlo & Hbyte & Hnot).
  rewrite pct_keep_cons in *. cbn [pctdecode_loop]. set (e := if keep c then [c] else pct1 c) in *.
  assert (∀ k, (pre ++ e ++ pct_keep keep u) !! (length pre + k) = (e ++ pct_keep keep u) !! k)
    as Hlk by (intros; rewrite lookup_app_r by lia; f_equal; lia).
  assert (0 < length e) by (unfold e, pct1; destruct (keep c), (reserved_char c); simpl; lia).
  rewrite bool_decide_eq_true_2 by (rewrite !length_app; lia).
  pose proof (Hlk 0) as Hlk0. rewrite Nat.add_0_r in Hlk0. rewrite !Hlk, Hlk0.
  rewrite app_assoc in Hlen |- *.
  destruct (pct_keep_char keep c (Hkeep c)) as [[Hnc Hp]|(Hkc & _ & Hp)].
  - fold e in Hp. rewrite Hp in Hlk, Hlen |- *. simpl lookup. simpl default.
    rewrite (bool_decide_eq_false_2 (c = "%"%char)) by auto.
    rewrite andb_false_r. cbn [andb].
    replace (length pre + 1) with (length (pre ++ [c])) by (rewrite length_app; done).
    rewrite IH by (done || lia). by rewrite <- (assoc_L (++)).
  - assert (e = pct1 c) as Ee by (unfold e; by rewrite Hkc). rewrite Ee, Hp in *. simpl lookup. simpl default.
    rewrite (proj2 (Z.leb_le _ _)).
    2:{ rewrite !length_app in *. simpl in *. rewrite u64_small; lia. }
    rewrite bool_decide_eq_true_2, Hhi, Hlo, Hbyte by done. cbn [andb].
    replace (length pre + 3) with (length (pre ++ ["%"%char;
      hex_char (Z.shiftr (Z.land (uch c) 0xF0) 4); hex_char (Z.land (uch c) 0x0F)]))
      by (rewrite length_app; done).
    rewrite IH by (done || lia). by rewrite <- (assoc_L (++)).
Qed.

Lemma pct_keep_length keep u : length u ≤ length (pct_keep keep u).
Proof.
  induction u as [|c u IH]; [done|]. rewrite pct_keep_cons, length_app. simpl.
  assert (0 < length (if keep c then [c] else pct1 c)) by (unfold pct1; destruct (keep c), (reserved_char c); simpl; lia). lia.
Qed.

Lemma pctdecode_keep keep u after :
  (∀ c, keep c = true → c ≠ "%"%char) → (Z.of_nat (length (pct_keep keep u)) < 2 ^ 64)%Z →
  pctdecode (pct_keep keep u) after = u.
Proof.
  intros Hkeep Hlen. unfold pctdecode. pose proof (pct_keep_length keep u).
  apply (pctdecode_loop_keep keep _ after [] u []); [done|done|lia].
Qed.

(** Everything is encoded that is reserved. *)
Lemma pctencode_keep s : pctencode s = pct_keep (λ _, false) s.
Proof. done. Qed.

(** ** Bit strings *)

Section bits.
Open Scope Z_scope.

Lemma mod_pow2_S b (n : nat) :
  b mod 2 ^ Z.of_nat (S n) = Z.b2z (Z.testbit b (Z.of_nat n)) * 2 ^ Z.of_nat n + b mod 2 ^ Z.of_nat n.
Proof.
  rewrite Nat2Z.inj_succ, Z.pow_succ_r by lia. rewrite (Z.mul_comm 2).
  rewrite Z.rem_mul_r by (try apply Z.pow_nonzero; lia).
  rewrite <- Z.testbit_spec' by lia. lia.
Qed.

Lemma bitset64_of_seq b (n : nat) acc :
  (n <= 64)%nat →
  bitset64_of ((λ i, if Z.testbit b (63 - Z.of_nat i) then "1"%char else "0"%char)
               <$> seq (64 - n) n) acc
  = Ok (acc * 2 ^ Z.of_nat n + b mod 2 ^ Z.of_nat n).
Proof.
  revert acc. induction n as [|n IH]; intros acc Hn.
  { simpl. rewrite Z.mod_1_r. f_equal. lia. }
  rewrite mod_pow2_S. rewrite <- cons_seq. csimpl.
  replace (63 - Z.of_nat (63 - n)) with (Z.of_nat n) by lia.
  replace (S (63 - n)) with (64 - n)%nat by lia.
  rewrite (Nat2Z.inj_succ n), Z.pow_succ_r by lia.
  destruct (Z.testbit b (Z.of_nat n)); cbn [bitset64_of].
  - rewrite (bool_decide_eq_false_2 ("1"%char = "0"%char)), bool_decide_eq_true_2 by done.
    rewrite IH by lia. f_equal. simpl Z.b2z. lia.
  - rewrite bool_decide_eq_true_2 by done. rewrite IH by lia. f_equal. simpl Z.b2z. lia.
Qed.

Lemma bits_to_string_seq b (n : nat) :
  (n <= 64)%nat →
  bits_to_string b (Z.of_nat n) =
  (λ i, if Z.testbit b (63 - Z.of_nat i) then "1"%char else "0"%char) <$> seq (64 - n) n.
Proof.
  intros Hn. unfold bits_to_string, bitset64_to_string.
  rewrite u64_small by lia. replace (Z.to_nat (64 - Z.of_nat n)) with (64 - n)%nat by lia.
  rewrite <- fmap_drop. f_equal. rewrite drop_seq. f_equal; lia.
Qed.

Lemma string_to_bits_to_string b (n : nat) :
  (n <= 64)%nat →
  string_to_bits (bits_to_string b (Z.of_nat n)) = Ok (b mod 2 ^ Z.of_nat n, Z.of_nat n).
Proof.
  intros Hn. rewrite bits_to_string_seq by done. unfold string_to_bits.
  rewrite length_fmap, length_seq, bool_decide_eq_false_2 by lia.
  rewrite bitset64_of_seq by done. done.
Qed.
End bits.

(** ** Line breaking *)

Lemma back_to_space_spec rem sp :
  let r := back_to_space rem sp in
  r ≤ sp ∧ (∀ j, r < j ≤ sp → isspace (char_at rem j) = false) ∧
  (r = 0 ∨ isspace (char_at rem r) = true).
Proof.
  induction sp as [|sp IH]; simpl; [split_and!; [done|lia|by left]|].
  destruct (isspace (char_at rem (S sp))) eqn:E; [split_and!; [done|lia|by right]|].
  destruct IH as (? & Hj & ?). split_and!; [lia| |done]. intros j ?.
  destruct (decide (j = S sp)); [by subst|apply Hj; lia].
Qed.

Lemma first_newline_before_spec rem i sp :
  i ≤ sp → isspace (char_at rem sp) = true →
  first_newline_before rem i sp ≤ sp ∧
  isspace (char_at rem (first_newline_before rem i sp)) = true.
Proof.
  revert sp. induction i as [|i IH]; intros sp Hi Hsp; simpl; [done|].
  case_bool_decide as Hn; [|apply IH; [lia|done]].
  destruct (IH i) as [? ?]; [done|by rewrite Hn|]. split; [lia|done].
Qed.

Definition no_space (s : str) : Prop := Forall (λ c, isspace c = false) s.

Lemma char_at_lookup s i c : s !! i = Some c → char_at s i = c.
Proof. intros H. unfold char_at. by rewrite H. Qed.

Lemma no_space_take rem sp :
  (∀ j, j < sp → isspace (char_at rem j) = false) → no_space (take sp rem).
Proof.
  intros H. apply Forall_lookup. intros i c [Hc ?]%lookup_take_Some.
  rewrite <- (char_at_lookup _ _ _ Hc). by apply H.
Qed.

Lemma isspace_char_at_lt s i : isspace (char_at s i) = true → i < length s.
Proof.
  unfold char_at. destruct (s !! i) eqn:E; [|done]. intros _. by eapply lookup_lt_Some.
Qed.

(** A cut is at a whitespace byte, and what precedes it fits or has no
    whitespace; no cut means no whitespace at all. *)
Lemma break_point_spec rem w nl :
  0 < w →
  (nl = None ∧ w < length rem) ∨ (length rem ≤ w ∧ nl = find_char rem newline 0 ∧ nl ≠ None) →
  match break_point rem w nl with
  | None => no_space rem
  | Some sp => isspace (char_at rem sp) = true ∧ (sp ≤ w ∨ no_space (take sp rem))
  end.
Proof.
  intros Hw [[-> Hlen]|(Hlen & Hnl & Hne)]; unfold break_point.
  - destruct (back_to_space_spec rem (w - 1)) as (Hle & Hgap & Hend).
    set (r := back_to_space rem (w - 1)) in *.
    destruct (bool_decide (r = 0) && negb (isspace (char_at rem 0))) eqn:E.
    + bool_to_prop. assert (∀ j, j < w → isspace (char_at rem j) = false) as Hbefore.
      { intros [|j] ?; [done|]. apply Hgap. lia. }
      rewrite from_le by lia. destruct (find_if isspace (drop w rem)) as [i|] eqn:Ei; simpl.
      * apply find_if_Some in Ei as (c & Hc & Pc & Hall). rewrite lookup_drop in Hc.
        rewrite (char_at_lookup _ _ _ Hc). split; [done|]. right. apply no_space_take.
        intros j ?. destruct (decide (j < w)); [by apply Hbefore|].
        rewrite Forall_lookup in Hall.
        destruct (lookup_lt_is_Some_2 rem j) as [d Hd]; [apply lookup_lt_Some in Hc; lia|].
        rewrite (char_at_lookup _ _ _ Hd). apply (Hall (j - w)).
        rewrite lookup_take_lt, lookup_drop by lia. by replace (w + (j - w)) with j by lia.
      * apply find_if_None in Ei. unfold no_space. rewrite <- (take_drop w rem).
        apply Forall_app. split; [by apply no_space_take|done].
    + destruct (first_newline_before_spec rem r r) as [? ?]; [done| |split; [done|left; lia]].
      apply andb_false_iff in E as [E|E]; bool_to_prop; [tauto|].
      destruct Hend as [Hz|]; [by rewrite Hz|done].
  - destruct nl as [nl|]; [|done]. unfold find_char in Hnl. rewrite from_0 in Hnl.
    symmetry in Hnl. pose proof (find_if_lt _ _ _ Hnl).
    apply find_if_Some in Hnl as (c & Hc & Pc & _). bool_to_prop. subst c.
    rewrite (char_at_lookup _ _ _ Hc). split; [done|left; lia].
Qed.

(** What breaking promises about the text [u]: the lines are [u] cut at
    whitespace bytes, a final empty piece left out. *)
Definition broken (w : nat) (u : str) (lines : list str) : Prop :=
  Forall (λ l, length l ≤ w ∨ no_space l) lines ∧
  ∃ toks used, weave toks used = u ∧ length toks = S (length used) ∧
    Forall (λ c, isspace c = true) used ∧ (lines = toks ∨ toks = lines ++ [[]]).

Lemma broken_cut w u sp lines :
  isspace (char_at u sp) = true → sp ≤ w ∨ no_space (take sp u) →
  broken w (drop (sp + 1) u) lines → broken w u (take sp u :: lines).
Proof.
  intros Hsp Hfit (Hall & toks & used & Hw & Hl & Hu & Hlines).
  pose proof (isspace_char_at_lt _ _ Hsp) as Hlt. split.
  - constructor; [|done]. destruct Hfit; [left; rewrite length_take; lia|by right].
  - destruct (lookup_lt_is_Some_2 u sp Hlt) as [c Hc].
    exists (take sp u :: toks), (c :: used). split_and!.
    + simpl. rewrite Hw. rewrite Nat.add_1_r. by apply take_drop_middle.
    + simpl. lia.
    + constructor; [|done]. by rewrite <- (char_at_lookup _ _ _ Hc).
    + destruct Hlines as [->| ->]; [by left|by right].
Qed.

Lemma broken_whole w u : length u ≤ w ∨ no_space u → broken w u (if bool_decide (u ≠ []) then [u] else []).
Proof.
  intros H. case_bool_decide as Hne.
  - split; [by apply Forall_singleton|]. exists [u], []. split_and!; [done..|by left].
  - subst u. split; [constructor|]. exists [[]], []. split_and!; [done..|by right].
Qed.

Lemma str_break_loop_spec fuel rem w nl result :
  0 < w → length rem < fuel → (nl ≠ None → length rem ≤ w) →
  ∃ lines, str_break_loop fuel rem w nl result = result ++ lines ∧ broken w rem lines.
Proof.
  intros Hw. revert rem nl result.
  induction fuel as [|fuel IH]; intros rem nl result Hf Hnl; [lia|]. cbn [str_break_loop].
  set (lg := bool_decide (w < length rem)).
  set (nl' := if lg then nl else find_char rem newline 0).
  assert ((if bool_decide (rem ≠ []) then result ++ [rem] else result) =
          result ++ if bool_decide (rem ≠ []) then [rem] else []) as Hfin
    by (case_bool_decide; [done|by rewrite app_nil_r]).
  rewrite Hfin. clear Hfin.
  destruct (lg || bool_decide (nl' ≠ None)) eqn:Econd.
  2:{ apply orb_false_iff in Econd as [Elg _]. unfold lg in Elg. bool_to_prop.
      eexists. split; [done|]. apply broken_whole. left. lia. }
  pose proof (break_point_spec rem w nl' Hw) as Hbp.
  destruct (break_point rem w nl') as [sp|].
  - destruct Hbp as [Hsp Hfit].
    { unfold nl', lg in *. case_bool_decide.
      - left. split; [|done]. destruct nl; [|done]. exfalso. assert (length rem ≤ w) by by apply Hnl.
        lia.
      - simpl in Econd. bool_to_prop. right. split_and!; [lia|done|done]. }
    clear Econd. pose proof (isspace_char_at_lt _ _ Hsp).
    assert ((if bool_decide (length rem ≤ sp + 1) then [] else drop (sp + 1) rem) =
            drop (sp + 1) rem) as -> by (case_bool_decide; [symmetry; apply drop_ge; lia|done]).
    assert ((if bool_decide (sp = 0) then [] else substr rem 0 sp) = take sp rem) as ->
      by (case_bool_decide; [by subst|done]).
    destruct (IH (drop (sp + 1) rem) nl' (result ++ [take sp rem])) as (lines & -> & Hb).
    + rewrite length_drop. lia.
    + rewrite length_drop. unfold nl', lg. case_bool_decide; [|lia]. intros ?%Hnl. lia.
    + exists (take sp rem :: lines). split; [by rewrite <- (assoc_L (++))|by apply broken_cut].
  - eexists. split; [done|]. apply broken_whole. right. apply Hbp.
    unfold nl', lg in *. case_bool_decide.
    + left. split; [|done]. destruct nl; [|done]. exfalso.
      assert (length rem ≤ w) by by apply Hnl. lia.
    + simpl in Econd. bool_to_prop. right. split_and!; [lia|done|done].
Qed.

(** ** Main theorems *)

(** [str_replace] with a non-empty pattern cuts the string at occurrences of
    the pattern and joins the same pieces with the replacement; no piece still
    contains the pattern. *)
Theorem str_replace_correct (s pat to : str) :
  pat ≠ [] →
  ∃ parts, parts ≠ [] ∧ str_join parts pat id = s ∧
    str_replace s pat to = str_join parts to id ∧
    Forall (λ p, find_str p pat 0 = None) parts.
Proof.
  intros Hne. destruct (replace_parts pat to s Hne) as (parts & ? & ? & ? & Hall).
  exists parts. rewrite str_replace_repl by done. split_and!; try done.
  eapply Forall_impl; [done|]. intros p Hp. unfold find_str. by rewrite from_0.
Qed.

Lemma str_replace_correct_witness :
  str_replace ($"a::b::c") ($"::") ($".") = $"a.b.c" ∧
  ∃ parts, parts ≠ [] ∧ str_join parts ($"::") id = $"a::b::c" ∧
    str_replace ($"a::b::c") ($"::") ($".") = str_join parts ($".") id ∧
    Forall (λ p, find_str p ($"::") 0 = None) parts.
Proof. split; [vm_compute; reflexivity|]. apply str_replace_correct. discriminate. Defined.

(** [unquote_string] inverts [quote_string] for every string and every quote
    character other than the backslash. *)
Theorem unquote_quote_roundtrip (s : str) (quote : ascii) :
  quote ≠ backslash → unquote_string (quote_string s quote) quote = s.
Proof. intros H. by apply unquote_quote. Qed.

Lemma unquote_quote_roundtrip_witness :
  quote_string ($"it's \") "'"%char = $"'it\'s \\'" ∧
  unquote_string (quote_string ($"it's \") "'"%char) "'"%char = $"it's \".
Proof. split; [vm_compute; reflexivity|]. apply unquote_quote_roundtrip. discriminate. Defined.

(** Without compression, [str_split] of a non-empty input returns tokens that
    rebuild the input when one separator byte is put back between neighbours; it
    cuts at most [maxsplit] times, at the first separators, and leaves no
    separator in a token unless [maxsplit] stopped it (then only the last token
    may hold some). *)
Theorem str_split_correct (input seps : str) (maxsplit : Z) :
  input ≠ [] →
  ∃ used, split_of input seps maxsplit (str_split input seps maxsplit false) used.
Proof. apply str_split_spec. Qed.

Lemma str_split_correct_witness :
  str_split ($"a-b-c") ($"-") 1 false = [$"a"; $"b-c"] ∧
  ∃ used, split_of ($"a-b-c") ($"-") 1 (str_split ($"a-b-c") ($"-") 1 false) used.
Proof. split; [vm_compute; reflexivity|]. apply str_split_correct. discriminate. Defined.

(** [str_itersplit] visits exactly the tokens [str_split] returns, in order,
    for every choice of separators, limit and compression. *)
Theorem str_itersplit_split (input seps : str) (maxsplit : Z) (compress : bool) :
  str_itersplit (λ (a : list str) t, (a ++ [t], true)) input [] seps maxsplit compress
  = (str_split input seps maxsplit compress, true).
Proof. apply str_itersplit_loop_push. Qed.

(** [str_strip] removes exactly the longest prefix and the longest suffix made
    of the given characters: what is removed consists of them, and the result
    neither starts nor ends with one. *)
Theorem str_strip_correct (s chars : str) :
  ∃ l r, s = l ++ str_strip s chars ++ r ∧ all_in chars l ∧ all_in chars r ∧
    (∀ c, head (str_strip s chars) = Some c → mem_chars chars c = false) ∧
    (∀ c, last (str_strip s chars) = Some c → mem_chars chars c = false).
Proof. apply str_strip_decompose. Qed.

(** When the byte after the view does not continue a sequence (as the NUL of a
    [std::string] does not), [is_valid_utf8] accepts exactly the strings that are
    the UTF-8 encoding of a sequence of Unicode scalar values. *)
Theorem is_valid_utf8_correct (s : str) (after : nat → ascii) :
  terminated after →
  is_valid_utf8 s after = true ↔ ∃ cps, Forall scalar cps ∧ s = utf8_encode cps.
Proof.
  intros H. unfold is_valid_utf8. rewrite is_valid_utf8_loop_spec by (done || lia).
  by rewrite drop_0.
Qed.

Lemma is_valid_utf8_correct_witness :
  is_valid_utf8 [byte_of 0xE2; byte_of 0x82; byte_of 0xAC] (λ _, "000"%char) = true ∧
  (is_valid_utf8 [byte_of 0xE2; byte_of 0x82; byte_of 0xAC] (λ _, "000"%char) = true ↔
   ∃ cps, Forall scalar cps ∧ [byte_of 0xE2; byte_of 0x82; byte_of 0xAC] = utf8_encode cps).
Proof.
  split; [vm_compute; reflexivity|]. apply is_valid_utf8_correct.
  unfold terminated. vm_compute. intros [H _]. by apply H.
Defined.

(** The verdict of [is_valid_utf8] on a view that ends inside a multi-byte
    sequence depends on the bytes stored after the view: the same one-byte view
    is rejected or accepted. *)
Theorem is_valid_utf8_reads_past_end :
  ∃ s after1 after2,
    is_valid_utf8 s after1 = false ∧ is_valid_utf8 s after2 = true ∧
    ¬ ∃ cps, Forall scalar cps ∧ s = utf8_encode cps.
Proof.
  exists [byte_of 0xC3], (λ _, "000"%char), (λ _, byte_of 0xA9).
  split_and!; [vm_compute; reflexivity..|].
  assert (terminated (λ _, "000"%char)) as Ht by (unfold terminated; vm_compute; intros [H _]; by apply H).
  pose proof (is_valid_utf8_loop_spec 2 [byte_of 0xC3] (λ _, "000"%char) 0 Ht) as Hs.
  intros Hc. apply Hs in Hc; [by vm_compute in Hc|simpl; lia..].
Qed.

(** Percent-decoding inverts percent-encoding, whatever is stored after the
    encoded text. *)
Theorem pct_roundtrip (s : str) (after : nat → ascii) :
  (Z.of_nat (length (pctencode s)) < 2 ^ 64)%Z → pctdecode (pctencode s) after = s.
Proof.
  intros H. rewrite pctencode_keep in *. by apply pctdecode_keep.
Qed.

Lemma pct_roundtrip_witness :
  pctencode ($"a b%") = $"a%20b%25" ∧ pctdecode (pctencode ($"a b%")) (λ _, "0"%char) = $"a b%".
Proof. split; [vm_compute; reflexivity|]. apply pct_roundtrip. vm_compute. reflexivity. Defined.

(** On a view of fewer than three bytes the [size_t] bound of [pctdecode] wraps
    around and the function reads past the view: two bytes decode differently
    depending on what follows them. *)
Theorem pctdecode_reads_past_end :
  ∃ s after1 after2, pctdecode s after1 = s ∧ pctdecode s after2 ≠ s.
Proof.
  exists ($"%4"), (λ _, "000"%char), (λ _, "1"%char). split; [vm_compute; reflexivity|].
  vm_compute. discriminate.
Qed.

(** [string_to_bits] reads back the low [n] bits that [bits_to_string] prints,
    for every width up to 64. *)
Theorem bits_roundtrip (bits : Z) (n : nat) :
  n ≤ 64 →
  string_to_bits (bits_to_string bits (Z.of_nat n)) =
  Ok ((bits mod 2 ^ Z.of_nat n)%Z, Z.of_nat n).
Proof. apply string_to_bits_to_string. Qed.

Lemma bits_roundtrip_witness :
  bits_to_string 5 (Z.of_nat 4) = $"0101" ∧
  string_to_bits (bits_to_string 5 (Z.of_nat 4)) =
  Ok ((5 mod 2 ^ Z.of_nat 4)%Z, Z.of_nat 4).
Proof. split; [vm_compute; reflexivity|]. apply bits_roundtrip. lia. Defined.

(** For a positive width, [str_break_into_lines] only replaces single
    whitespace bytes by line ends (a final empty line is left out), and every
    line fits the width or is one word without whitespace. *)
Theorem str_break_into_lines_correct (line : str) (width : nat) :
  0 < width → broken width line (str_break_into_lines line width).
Proof.
  intros Hw. destruct (str_break_loop_spec (S (length line)) line width None [])
    as (lines & Heq & Hb); [done|lia|done|].
  unfold str_break_into_lines. by rewrite Heq.
Qed.

Lemma str_break_into_lines_correct_witness :
  str_break_into_lines ($"to be or") 5 = [$"to"; $"be or"] ∧
  broken 5 ($"to be or") (str_break_into_lines ($"to be or") 5).
Proof.
  split; [vm_compute; reflexivity|]. apply str_break_into_lines_correct. lia.
Defined.
