(* ===== verification/Lexing.v ===== *)
(** * SQL lexing helpers

    Model of [mysqlshdk/libs/utils/utils_lexing.{h,cc}]: the [span_*] functions,
    which find the end of a quoted string, identifier or comment, and the
    [SQL_iterator] that walks over SQL text skipping comments and quoted parts.

    Offsets are [nat]; [std::string_view::npos] is [None].  Views are taken to be
    NUL-terminated (their callers pass [std::string]s), so that the one read at
    index [length] yields NUL.  [stray] stands for the value the program reads
    when it indexes a table with a negative [char]. *)
From S2P Require Import Prelude UtilsString.

Open Scope nat_scope.

(** ** Tables *)

Definition k_quoted_string_span_skips_sq : list (list Z) :=
  [ (* backslash escapes *)
   [0; 1; 1; 1; 1; 1; 1; 1; 1; 1; 1; 1; 1; 1; 1; 1; 1; 1; 1; 1; 1; 1; 1; 1;
    1; 1; 1; 1; 1; 1; 1; 1; 1; 1; 1; 1; 1; 1; 1; 0; 1; 1; 1; 1; 1; 1; 1; 1;
    1; 1; 1; 1; 1; 1; 1; 1; 1; 1; 1; 1; 1; 1; 1; 1; 1; 1; 1; 1; 1; 1; 1; 1;
    1; 1; 1; 1; 1; 1; 1; 1; 1; 1; 1; 1; 1; 1; 1; 1; 1; 1; 1; 1; 2; 1; 1; 1;
    1; 1; 1; 1; 1; 1; 1; 1; 1; 1; 1; 1; 1; 1; 1; 1; 1; 1; 1; 1; 1; 1; 1; 1;
    1; 1; 1; 1; 1; 1; 1; 1; 1; 1; 1; 1; 1; 1; 1; 1; 1; 1; 1; 1; 1; 1; 1; 1;
    1; 1; 1; 1; 1; 1; 1; 1; 1; 1; 1; 1; 1; 1; 1; 1; 1; 1; 1; 1; 1; 1; 1; 1;
    1; 1; 1; 1; 1; 1; 1; 1; 1; 1; 1; 1; 1; 1; 1; 1; 1; 1; 1; 1; 1; 1; 1; 1;
    1; 1; 1; 1; 1; 1; 1; 1; 1; 1; 1; 1; 1; 1; 1; 1; 1; 1; 1; 1; 1; 1; 1; 1;
    1; 1; 1; 1; 1; 1; 1; 1; 1; 1; 1; 1; 1; 1; 1; 1; 1; 1; 1; 1; 1; 1; 1; 1;
    1; 1; 1; 1; 1; 1; 1; 1; 1; 1; 1; 1; 1; 1; 1; 1];
   (* no backslash escapes *)
   [0; 1; 1; 1; 1; 1; 1; 1; 1; 1; 1; 1; 1; 1; 1; 1; 1; 1; 1; 1; 1; 1; 1; 1;
    1; 1; 1; 1; 1; 1; 1; 1; 1; 1; 1; 1; 1; 1; 1; 0; 1; 1; 1; 1; 1; 1; 1; 1;
    1; 1; 1; 1; 1; 1; 1; 1; 1; 1; 1; 1; 1; 1; 1; 1; 1; 1; 1; 1; 1; 1; 1; 1;
    1; 1; 1; 1; 1; 1; 1; 1; 1; 1; 1; 1; 1; 1; 1; 1; 1; 1; 1; 1; 1; 1; 1; 1;
    1; 1; 1; 1; 1; 1; 1; 1; 1; 1; 1; 1; 1; 1; 1; 1; 1; 1; 1; 1; 1; 1; 1; 1;
    1; 1; 1; 1; 1; 1; 1; 1; 1; 1; 1; 1; 1; 1; 1; 1; 1; 1; 1; 1; 1; 1; 1; 1;
    1; 1; 1; 1; 1; 1; 1; 1; 1; 1; 1; 1; 1; 1; 1; 1; 1; 1; 1; 1; 1; 1; 1; 1;
    1; 1; 1; 1; 1; 1; 1; 1; 1; 1; 1; 1; 1; 1; 1; 1; 1; 1; 1; 1; 1; 1; 1; 1;
    1; 1; 1; 1; 1; 1; 1; 1; 1; 1; 1; 1; 1; 1; 1; 1; 1; 1; 1; 1; 1; 1; 1; 1;
    1; 1; 1; 1; 1; 1; 1; 1; 1; 1; 1; 1; 1; 1; 1; 1; 1; 1; 1; 1; 1; 1; 1; 1;
    1; 1; 1; 1; 1; 1; 1; 1; 1; 1; 1; 1; 1; 1; 1; 1]]%Z.

Definition k_quoted_string_span_skips_dq : list (list Z) :=
  [ (* backslash escapes *)
   [0; 1; 1; 1; 1; 1; 1; 1; 1; 1; 1; 1; 1; 1; 1; 1; 1; 1; 1; 1; 1; 1; 1; 1;
    1; 1; 1; 1; 1; 1; 1; 1; 1; 1; 0; 1; 1; 1; 1; 1; 1; 1; 1; 1; 1; 1; 1; 1;
    1; 1; 1; 1; 1; 1; 1; 1; 1; 1; 1; 1; 1; 1; 1; 1; 1; 1; 1; 1; 1; 1; 1; 1;
    1; 1; 1; 1; 1; 1; 1; 1; 1; 1; 1; 1; 1; 1; 1; 1; 1; 1; 1; 1; 2; 1; 1; 1;
    1; 1; 1; 1; 1; 1; 1; 1; 1; 1; 1; 1; 1; 1; 1; 1; 1; 1; 1; 1; 1; 1; 1; 1;
    1; 1; 1; 1; 1; 1; 1; 1; 1; 1; 1; 1; 1; 1; 1; 1; 1; 1; 1; 1; 1; 1; 1; 1;
    1; 1; 1; 1; 1; 1; 1; 1; 1; 1; 1; 1; 1; 1; 1; 1; 1; 1; 1; 1; 1; 1; 1; 1;
    1; 1; 1; 1; 1; 1; 1; 1; 1; 1; 1; 1; 1; 1; 1; 1; 1; 1; 1; 1; 1; 1; 1; 1;
    1; 1; 1; 1; 1; 1; 1; 1; 1; 1; 1; 1; 1; 1; 1; 1; 1; 1; 1; 1; 1; 1; 1; 1;
    1; 1; 1; 1; 1; 1; 1; 1; 1; 1; 1; 1; 1; 1; 1; 1; 1; 1; 1; 1; 1; 1; 1; 1;
    1; 1; 1; 1; 1; 1; 1; 1; 1; 1; 1; 1; 1; 1; 1; 1];
   (* no backslash escapes *)
   [0; 1; 1; 1; 1; 1; 1; 1; 1; 1; 1; 1; 1; 1; 1; 1; 1; 1; 1; 1; 1; 1; 1; 1;
    1; 1; 1; 1; 1; 1; 1; 1; 1; 1; 0; 1; 1; 1; 1; 1; 1; 1; 1; 1; 1; 1; 1; 1;
    1; 1; 1; 1; 1; 1; 1; 1; 1; 1; 1; 1; 1; 1; 1; 1; 1; 1; 1; 1; 1; 1; 1; 1;
    1; 1; 1; 1; 1; 1; 1; 1; 1; 1; 1; 1; 1; 1; 1; 1; 1; 1; 1; 1; 1; 1; 1; 1;
    1; 1; 1; 1; 1; 1; 1; 1; 1; 1; 1; 1; 1; 1; 1; 1; 1; 1; 1; 1; 1; 1; 1; 1;
    1; 1; 1; 1; 1; 1; 1; 1; 1; 1; 1; 1; 1; 1; 1; 1; 1; 1; 1; 1; 1; 1; 1; 1;
    1; 1; 1; 1; 1; 1; 1; 1; 1; 1; 1; 1; 1; 1; 1; 1; 1; 1; 1; 1; 1; 1; 1; 1;
    1; 1; 1; 1; 1; 1; 1; 1; 1; 1; 1; 1; 1; 1; 1; 1; 1; 1; 1; 1; 1; 1; 1; 1;
    1; 1; 1; 1; 1; 1; 1; 1; 1; 1; 1; 1; 1; 1; 1; 1; 1; 1; 1; 1; 1; 1; 1; 1;
    1; 1; 1; 1; 1; 1; 1; 1; 1; 1; 1; 1; 1; 1; 1; 1; 1; 1; 1; 1; 1; 1; 1; 1;
    1; 1; 1; 1; 1; 1; 1; 1; 1; 1; 1; 1; 1; 1; 1; 1]]%Z.

Definition k_keyword_chars : str :=
  $"abcdefghijklmnopqrstuvwxyzABCDEFGHIJKLMNOPQRSTUVWXYZ0123456789_".

Definition k_identifier_chars : str :=
  $"abcdefghijklmnopqrstuvwxyzABCDEFGHIJKLMNOPQRSTUVWXYZ0123456789_$".

Definition k_dollar_quoted_string_span_chars : list Z :=
  [0; 0; 0; 0; 0; 0; 0; 0; 0; 0; 0; 0; 0; 0; 0; 0;
   0; 0; 0; 0; 0; 0; 0; 0; 0; 0; 0; 0; 0; 0; 0; 0;
   0; 0; 0; 0; 0; 0; 0; 0; 0; 0; 0; 0; 0; 0; 0; 0;
   1; 1; 1; 1; 1; 1; 1; 1; 1; 1; 0; 0; 0; 0; 0; 0;
   0; 1; 1; 1; 1; 1; 1; 1; 1; 1; 1; 1; 1; 1; 1; 1;
   1; 1; 1; 1; 1; 1; 1; 1; 1; 1; 1; 0; 0; 0; 0; 1;
   0; 1; 1; 1; 1; 1; 1; 1; 1; 1; 1; 1; 1; 1; 1; 1;
   1; 1; 1; 1; 1; 1; 1; 1; 1; 1; 1; 0; 0; 0; 0; 0;
   1; 1; 1; 1; 1; 1; 1; 1; 1; 1; 1; 1; 1; 1; 1; 1;
   1; 1; 1; 1; 1; 1; 1; 1; 1; 1; 1; 1; 1; 1; 1; 1;
   1; 1; 1; 1; 1; 1; 1; 1; 1; 1; 1; 1; 1; 1; 1; 1;
   1; 1; 1; 1; 1; 1; 1; 1; 1; 1; 1; 1; 1; 1; 1; 1;
   1; 1; 1; 1; 1; 1; 1; 1; 1; 1; 1; 1; 1; 1; 1; 1;
   1; 1; 1; 1; 1; 1; 1; 1; 1; 1; 1; 1; 1; 1; 1; 1;
   1; 1; 1; 1; 1; 1; 1; 1; 1; 1; 1; 1; 1; 1; 1; 1;
   1; 1; 1; 1; 1; 1; 1; 1; 1; 1; 1; 1; 1; 1; 1; 1]%Z.

(** Entry of a 256-entry table at an unsigned byte. *)
Definition table_at (t : list Z) (c : ascii) : Z := nth (Z.to_nat (uch c)) t 0%Z.

Definition squote : ascii := "'"%char.
Definition dquote : ascii := "034"%char.
Definition backtick : ascii := "`"%char.
Definition dollar : ascii := "$"%char.
Definition nul : ascii := "000"%char.

(** The bytes [c_str()] shows to C code. *)
Definition c_str (s : str) : str :=
  take (default (length s) (find_if (λ c, bool_decide (c = nul)) s)) s.

(** ** Quoted strings and identifiers *)

(** Common body of [span_quoted_string_dq] and [span_quoted_string_sq]: the tight
    loop over the skip table, restarted after an embedded NUL. *)
Fixpoint span_quoted_loop (fuel : nat) (table : list Z) (s : str) (offset : nat) : option nat :=
  match fuel with
  | O => None
  | S fuel =>
      match s !! offset with
      | None => None
      | Some last_ch =>
          if (0 <? table_at table last_ch)%Z
          then span_quoted_loop fuel table s (offset + Z.to_nat (table_at table last_ch))
          else if bool_decide (last_ch = nul) then span_quoted_loop fuel table s (offset + 1)
          else Some (offset + 1)
      end
  end.

Definition span_quoted_string_dq (s : str) (offset : nat) : option nat :=
  span_quoted_loop (S (length s)) (nth 0 k_quoted_string_span_skips_dq []) s (offset + 1).

Definition span_quoted_string_sq (s : str) (offset : nat) : option nat :=
  span_quoted_loop (S (length s)) (nth 0 k_quoted_string_span_skips_sq []) s (offset + 1).

(** Common body of the two quoted-identifier functions. *)
Fixpoint span_quoted_identifier_loop (fuel : nat) (q : ascii) (s : str) (p : nat) : option nat :=
  match fuel with
  | O => None
  | S fuel =>
      match find_char s q p with
      | None => None
      | Some p =>
          if bool_decide (s !! (p + 1) = Some q)
          then span_quoted_identifier_loop fuel q s (p + 2)
          else Some (p + 1)
      end
  end.

Definition span_quoted_sql_identifier_bt (s : str) (offset : nat) : option nat :=
  span_quoted_identifier_loop (S (length s)) backtick s (offset + 1).

Definition span_quoted_sql_identifier_dquote (s : str) (offset : nat) : option nat :=
  span_quoted_identifier_loop (S (length s)) dquote s (offset + 1).

(** ** Blanks, keywords and unquoted identifiers *)

Definition k_spaces : str := lit " " ++ [ "009"%char; "013"%char; "010"%char ].

Definition span_spaces (s : str) (offset : nat) : option nat := find_first_not_of s k_spaces offset.

Definition span_not_spaces (s : str) (offset : nat) : nat :=
  default (length s) (find_first_of s k_spaces offset).

Definition span_keyword (s : str) (offset : nat) (keyword_chars : str) : nat :=
  let c := char_at s offset in
  if isalpha c || bool_decide (c = "_"%char)
  then default (length s) (find_first_not_of s keyword_chars (offset + 1))
  else offset.

Fixpoint span_unquoted_identifier_loop (fuel : nat) (s : str) (offset : nat) : nat :=
  match fuel with
  | O => length s
  | S fuel =>
      match find_first_not_of s k_identifier_chars (offset + 1) with
      | None => length s
      | Some p =>
          if bool_decide (p = length s) then length s
          else if (uch (char_at s p) <=? 0x7f)%Z then p
          else span_unquoted_identifier_loop fuel s p
      end
  end.

Definition span_unquoted_identifier (s : str) (offset : nat) : nat :=
  span_unquoted_identifier_loop (S (length s)) s offset.

Definition is_dollar_quote_tag (s : str) : bool :=
  forallb (λ c, bool_decide (table_at k_dollar_quoted_string_span_chars c ≠ 0%Z)) s.

Definition span_dollar_quoted_string_or_dollar_identifier (s : str) (offset : nat) : result nat :=
  match find_char s dollar (offset + 1) with
  | None => Ok (span_unquoted_identifier s offset)
  | Some endtag =>
      let tag := substr s offset (endtag + 1 - offset) in
      if negb (is_dollar_quote_tag (substr tag 1 (length tag - 2)))
      then Ok (span_unquoted_identifier s offset)
      else
        match find_str s tag (offset + length tag) with
        | None => Throw (invalid_argument
            ("Unterminated " +:+ string_of_list_ascii tag +:+ " quoted string"))
        | Some e => Ok (e + length tag)
        end
  end.

(** ** Comments *)

Definition span_to_eol (s : str) (offset : nat) : nat :=
  match find_char s newline offset with
  | None => length s
  | Some o => o + 1
  end.

Definition span_cstyle_comment (s : str) (offset : nat) : option nat :=
  if bool_decide (length s < 4) then None
  else (λ p, p + 2) <$> find_str s ($"*/") (offset + 2).

Section stray.
(** What the program finds outside [k_dollar_quoted_string_span_chars] when the
    index, a [char] converted to [int], is negative. *)
Context (stray : ascii → bool).

Definition is_start_of_unquoted_identifier (c : ascii) : bool :=
  (if (sch c <? 0)%Z then stray c
   else bool_decide (table_at k_dollar_quoted_string_span_chars c ≠ 0%Z)) ||
  bool_decide (c = dollar).

(** One turn of the loop over a conditional comment: the next offset, or the
    end of the comment. *)
Definition conditional_comment_step (s : str) (dollar_quote_strings : bool) (offset : nat)
    (c : ascii) : result (option nat + nat) :=
  if bool_decide (c = squote) then Ok (inl (span_quoted_string_sq s offset))
  else if bool_decide (c = dquote) then Ok (inl (span_quoted_string_dq s offset))
  else if bool_decide (c = backtick) then Ok (inl (span_quoted_sql_identifier_bt s offset))
  else if bool_decide (c = "*"%char) then
    let offset := offset + 1 in
    if bool_decide (s !! offset = Some "/"%char) then Ok (inr (offset + 1))
    else Ok (inl (Some offset))
  else if bool_decide (c = newline) then
    let offset := offset + 1 in
    if bool_decide (offset + 2 < length s) && bool_decide (char_at s offset = "-"%char) &&
       bool_decide (char_at s (offset + 1) = "-"%char) &&
       (bool_decide (char_at s (offset + 2) = " "%char) ||
        bool_decide (char_at s (offset + 2) = "009"%char))
    then Ok (inl (Some (span_to_eol s (offset + 3))))
    else Ok (inl (Some offset))
  else if bool_decide (c = dollar) then
    if dollar_quote_strings then
      p ← span_dollar_quoted_string_or_dollar_identifier s offset; Ok (inl (Some p))
    else Ok (inl (Some (span_unquoted_identifier s offset)))
  else if is_start_of_unquoted_identifier c
    then Ok (inl (Some (span_unquoted_identifier s offset)))
    else Ok (inl (Some (offset + 1))).

Fixpoint conditional_comment_loop (fuel : nat) (s : str) (dollar_quote_strings : bool)
    (offset : option nat) : result (option nat) :=
  match fuel, offset with
  | S fuel, Some o =>
      match s !! o with
      | None => Ok None
      | Some c =>
          r ← conditional_comment_step s dollar_quote_strings o c;
          match r with
          | inl offset => conditional_comment_loop fuel s dollar_quote_strings offset
          | inr e => Ok (Some e)
          end
      end
  | _, _ => Ok None
  end.

Definition span_cstyle_sql_comment (s : str) (offset : nat) (dollar_quote_strings : bool)
    : result (option nat) :=
  if bool_decide (length s < 4) then Ok None
  else if bool_decide (s !! (offset + 2) = Some "!"%char)
  then conditional_comment_loop (S (length s)) s dollar_quote_strings (Some (offset + 3))
  else Ok (span_cstyle_comment s offset).
End stray.

(** ** SQL_iterator *)

Record SQL_iterator := {
  m_s : str;
  m_offset : option nat;          (* [None] is npos *)
  m_skip_quoted : bool;
  m_dollar_quotes : bool;
  m_comment_hint : bool;
}.

Definition set_offset (it : SQL_iterator) (o : option nat) : SQL_iterator :=
  {| m_s := m_s it; m_offset := o; m_skip_quoted := m_skip_quoted it;
     m_dollar_quotes := m_dollar_quotes it; m_comment_hint := m_comment_hint it |}.
Definition set_hint (it : SQL_iterator) (b : bool) : SQL_iterator :=
  {| m_s := m_s it; m_offset := m_offset it; m_skip_quoted := m_skip_quoted it;
     m_dollar_quotes := m_dollar_quotes it; m_comment_hint := b |}.

Definition valid (it : SQL_iterator) : bool :=
  match m_offset it with Some o => bool_decide (o < length (m_s it)) | None => false end.

(** [get_char()] of a valid iterator. *)
Definition get_char (it : SQL_iterator) : ascii :=
  match m_offset it with Some o => char_at (m_s it) o | None => nul end.

(** [while (isdigit(m_s[m_offset])) ++m_offset;] *)
Fixpoint skip_digits (s : str) (o : nat) : nat :=
  match s with
  | c :: s' => if isdigit c then skip_digits s' (S o) else o
  | [] => o
  end.

(** One turn of the loop of [operator++] at a valid offset [o] holding [c]: the
    new state and whether the loop stops there ([incremented]). *)
Definition increment_step (it : SQL_iterator) (o : nat) (c : ascii)
    : result (SQL_iterator * bool) :=
  let s := m_s it in
  let stop := Ok (it, true) in
  let move p := Ok (set_offset it p, false) in
  if bool_decide (c = squote) then
    if m_skip_quoted it then move (span_quoted_string_sq s o) else stop
  else if bool_decide (c = dquote) then
    if m_skip_quoted it then move (span_quoted_string_dq s o) else stop
  else if bool_decide (c = backtick) then
    if m_skip_quoted it then move (span_quoted_sql_identifier_bt s o) else stop
  else if bool_decide (c = "/"%char) then
    if bool_decide (s !! (o + 1) = Some "*"%char) then
      if bool_decide (s !! (o + 2) = Some "!"%char) || bool_decide (s !! (o + 2) = Some "+"%char)
      then Ok (set_offset (set_hint it true)
                 (Some (skip_digits (drop (o + 3) s) (o + 3))), false)
      else move (span_cstyle_comment s o)
    else stop
  else if bool_decide (c = "*"%char) then
    if m_comment_hint it && bool_decide (s !! (o + 1) = Some "/"%char)
    then Ok (set_offset (set_hint it false) (Some (o + 2)), false)
    else stop
  else if bool_decide (c = "#"%char) then move (Some (span_to_eol s (o + 1)))
  else if bool_decide (c = "-"%char) then
    if bool_decide (o + 2 < length s) && bool_decide (char_at s (o + 1) = "-"%char) &&
       isspace (char_at s (o + 2))
    then move (Some (span_to_eol s (o + 2))) else stop
  else if bool_decide (c = dollar) then
    if m_dollar_quotes it then
      p ← span_dollar_quoted_string_or_dollar_identifier s o;
      if bool_decide (char_at s (p - 1) = dollar) && bool_decide (o < p) && m_skip_quoted it
      then move (Some p) else stop
    else stop
  else stop.

Fixpoint increment_loop (fuel : nat) (it : SQL_iterator) : result SQL_iterator :=
  match fuel, m_offset it with
  | S fuel, Some o =>
      match m_s it !! o with
      | None => Ok it
      | Some c =>
          r ← increment_step it o c;
          let '(it, incremented) := r in
          let it := match m_offset it with
                    | None => set_offset it (Some (length (m_s it)))
                    | Some _ => it
                    end in
          if incremented : bool then Ok it else increment_loop fuel it
      end
  | _, _ => Ok it
  end.

(** [operator++]: the wrap-around of npos to 0 included. *)
Definition increment (it : SQL_iterator) : result SQL_iterator :=
  let o := match m_offset it with Some o => o + 1 | None => 0 end in
  if bool_decide (length (m_s it) < o)
  then Throw (out_of_range "SQL_string_iterator offset out of range")
  else increment_loop (S (length (m_s it))) (set_offset it (Some o)).

(** The constructor starts one before [offset] and increments. *)
Definition make_SQL_iterator (s : str) (offset : nat) (skip_quoted dollar_quotes : bool)
    : result SQL_iterator :=
  increment {| m_s := s; m_offset := match offset with O => None | S o => Some o end;
               m_skip_quoted := skip_quoted; m_dollar_quotes := dollar_quotes;
               m_comment_hint := false |}.

(** ** Tokens *)

(** [m_s.substr(start, end - start)] where [end] may be npos. *)
Definition sub_to (s : str) (start : nat) (e : option nat) : str :=
  match e with Some e => substr s start (e - start) | None => drop start s end.

Fixpoint skip_space_loop (fuel : nat) (it : SQL_iterator) : result SQL_iterator :=
  match fuel with
  | O => Ok it
  | S fuel =>
      if valid it && isspace (get_char it)
      then it ← increment it; skip_space_loop fuel it
      else Ok it
  end.

(** The [do ... while] of [next_token_and_offset]: either an early return of a
    quoted identifier, or the position after which the token ends. *)
Definition is_token_break (c : ascii) : bool :=
  bool_decide (c ∈ [","%char; ";"%char; "("%char; ")"%char; "="%char; "@"%char]).

Fixpoint token_loop (fuel : nat) (it : SQL_iterator) (start previous : nat)
    : result (SQL_iterator * (str + nat)) :=
  match fuel, m_offset it with
  | S fuel, Some o =>
      let s := m_s it in
      let c := get_char it in
      (* the tail of an iteration that does not break *)
      let continue it :=
        let previous := default 0 (m_offset it) in
        if bool_decide (c = ":"%char) then
          it ← increment it; Ok (it, inr previous)
        else
          it ← increment it;
          if valid it then token_loop fuel it start previous else Ok (it, inr previous) in
      if is_token_break c then Ok (it, inr previous)
      else if bool_decide (c = squote) || bool_decide (c = dquote) then
        if m_skip_quoted it then continue it else Ok (it, inr previous)
      else if bool_decide (c = backtick) then
        if m_skip_quoted it then continue it
        else if bool_decide (o = start) || bool_decide (char_at s (o - 1) = "."%char) then
          let it := set_offset it (span_quoted_sql_identifier_bt s o) in
          if negb (valid it) || bool_decide (get_char it ≠ "."%char)
          then Ok (it, inl (sub_to s start (m_offset it)))
          else continue it
        else Ok (it, inr previous)
      else if isspace c || bool_decide (1 < o - previous) then Ok (it, inr previous)
      else continue it
  | _, _ => Ok (it, inr previous)
  end.

(** The quoted tokens returned at once when quoted parts are not skipped. *)
Definition quoted_token (it : SQL_iterator) (start : nat) : result (option (SQL_iterator * str)) :=
  let s := m_s it in
  let c := get_char it in
  if m_skip_quoted it then Ok None
  else if bool_decide (c = squote) then
    let it := set_offset it (span_quoted_string_sq s start) in
    Ok (Some (it, sub_to s start (m_offset it)))
  else if bool_decide (c = dquote) then
    let it := set_offset it (span_quoted_string_dq s start) in
    Ok (Some (it, sub_to s start (m_offset it)))
  else if bool_decide (c = dollar) && m_dollar_quotes it then
    p ← span_dollar_quoted_string_or_dollar_identifier s start;
    Ok (Some (set_offset it (Some p), substr s start (p - start)))
  else Ok None.

(** The token, its offset, and the iterator after it. *)
Definition next_token_and_offset (it : SQL_iterator)
    : result (SQL_iterator * str * option nat) :=
  it ← skip_space_loop (S (length (m_s it))) it;
  if negb (valid it) then Ok (it, [], m_offset it)
  else
    let start := default 0 (m_offset it) in
    q ← quoted_token it start;
    match q with
    | Some (it, tok) => Ok (it, tok, Some start)
    | None =>
        r ← token_loop (S (length (m_s it))) it start start;
        match r with
        | (it, inl tok) => Ok (it, tok, Some start)
        | (it, inr previous) =>
            it ← (if bool_decide (m_offset it = Some start) then increment it else Ok it);
            Ok (it, substr (m_s it) start (previous + 1 - start), Some start)
        end
    end.

Definition next_token (it : SQL_iterator) : result (SQL_iterator * str) :=
  r ← next_token_and_offset it; let '(it, tok, _) := r in Ok (it, tok).

Fixpoint next_sql_function_loop (fuel : nat) (it : SQL_iterator) : result (SQL_iterator * str) :=
  match fuel with
  | O => Ok (it, [])
  | S fuel =>
      r ← next_token it;
      let '(it, token) := r in
      match token with
      | [] => Ok (it, [])
      | c :: _ =>
          if negb (isalpha c) then next_sql_function_loop fuel it
          else if valid it && bool_decide (get_char it = "("%char) then Ok (it, token)
          else next_sql_function_loop fuel it
      end
  end.

Definition next_sql_function (it : SQL_iterator) : result (SQL_iterator * str) :=
  next_sql_function_loop (S (length (m_s it))) it.

(** [consume_tokens]: the next tokens are the given ones, ignoring case. *)
Fixpoint consume_tokens_from (it : SQL_iterator) (tokens : list str) : result (SQL_iterator * bool) :=
  match tokens with
  | [] => Ok (it, true)
  | t :: tokens =>
      r ← next_token it;
      let '(it, tok) := r in
      if str_caseeq tok [t] then consume_tokens_from it tokens else Ok (it, false)
  end.

Definition consume_tokens (it : SQL_iterator) (tokens : list str) : result (SQL_iterator * bool) :=
  if negb (valid it) then Ok (it, false) else consume_tokens_from it tokens.
