(* ===== verification/LexingFacts.v ===== *)
(** * Correctness of the SQL lexing helpers

    The table-driven and [find]-driven scanners of [Lexing] are proved equal to
    structural scanners that follow the grammar of MySQL literals; the iterator
    is proved to make progress and to stay within the text. *)
From S2P Require Import Prelude UtilsString UtilsStringFacts Lexing.

Open Scope nat_scope.

(** ** Quoted strings: the literal grammar *)

(** Length of the rest of a quoted string up to and including the closing [q]:
    a backslash protects the byte that follows it. *)
Fixpoint scan_string (q : ascii) (s : str) : option nat :=
  match s with
  | [] => None
  | c :: s' =>
      if bool_decide (c = q) then Some 1
      else if bool_decide (c = backslash) then
        match s' with
        | [] => None
        | _ :: s'' => (λ n, 2 + n) <$> scan_string q s''
        end
      else (λ n, 1 + n) <$> scan_string q s'
  end.

(** A skip table describes the quote [q] when it has 0 for NUL and [q], 2 for the
    backslash and 1 elsewhere. *)
Definition table_for (q : ascii) (t : list Z) : Prop :=
  ∀ c, table_at t c =
       if bool_decide (c = nul) || bool_decide (c = q) then 0%Z
       else if bool_decide (c = backslash) then 2%Z else 1%Z.

Lemma sq_table_ok : table_for squote (nth 0 k_quoted_string_span_skips_sq []).
Proof. intros c. by_bytes c. Qed.

Lemma dq_table_ok : table_for dquote (nth 0 k_quoted_string_span_skips_dq []).
Proof. intros c. by_bytes c. Qed.

Lemma option_fmap_add (a b : nat) (o : option nat) :
  (λ n, a + n) <$> ((λ n, b + n) <$> o) = (λ n, a + b + n) <$> o.
Proof. destruct o; simpl; f_equal; lia. Qed.

Lemma option_fmap_add2 (a b c : nat) (o : option nat) :
  a + b = c → (λ n, a + n) <$> ((λ n, b + n) <$> o) = (λ n, c + n) <$> o.
Proof. intros <-. apply option_fmap_add. Qed.

(** Induction two bytes at a time. *)
Lemma str_ind2 (P : str → Prop) :
  P [] → (∀ c, P [c]) → (∀ c d s, P s → P (d :: s) → P (c :: d :: s)) → ∀ s, P s.
Proof.
  intros H0 H1 H2 s. assert (P s ∧ ∀ c, P (c :: s)) as [? _]; [|done].
  induction s as [|d s [IH1 IH2]]; [by split|]. split; [apply IH2|]. intros c. by apply H2.
Qed.

Lemma span_quoted_loop_scan q t fuel s off :
  table_for q t → q ≠ nul → q ≠ backslash → length s - off < fuel →
  span_quoted_loop fuel t s off = (λ n, off + n) <$> scan_string q (drop off s).
Proof.
  intros Ht Hn Hb. revert off. induction fuel as [|fuel IH]; intros off Hf; [lia|].
  cbn [span_quoted_loop]. destruct (s !! off) as [c|] eqn:Ec.
  2:{ apply lookup_ge_None in Ec. by rewrite drop_ge by lia. }
  pose proof (lookup_lt_Some _ _ _ Ec). rewrite (drop_S _ _ _ Ec), !(Ht c).
  cbn [scan_string]. destruct (decide (c = q)) as [->|Hq].
  { rewrite orb_true_intro by (right; by apply bool_decide_eq_true_2). simpl.
    rewrite (bool_decide_eq_false_2 (q = nul)), (bool_decide_eq_true_2 (q = q)) by done. done. }
  rewrite !(bool_decide_eq_false_2 (c = q)) by done. rewrite orb_false_r.
  destruct (decide (c = nul)) as [->|Hnul].
  { rewrite (bool_decide_eq_true_2 (nul = nul)) by done.
    rewrite (bool_decide_eq_false_2 (nul = backslash)) by done. simpl.
    rewrite IH by lia. rewrite Nat.add_1_r.
    rewrite (option_fmap_add2 off 1 (S off)); [done|lia]. }
  rewrite (bool_decide_eq_false_2 (c = nul)) by done.
  destruct (decide (c = backslash)) as [->|Hbs].
  - rewrite !(bool_decide_eq_true_2 (backslash = backslash)) by done.
    change (0 <? 2)%Z with true. change (Z.to_nat 2) with 2. cbv iota.
    rewrite IH by lia. replace (off + 2) with (S off + 1) by lia. rewrite <- drop_drop.
    destruct (drop (S off) s) as [|d u]; [done|]. cbn [drop].
    rewrite (option_fmap_add2 off 2 (S off + 1)); [done|lia].
  - rewrite !(bool_decide_eq_false_2 (c = backslash)) by done.
    change (0 <? 1)%Z with true. change (Z.to_nat 1) with 1. cbv iota.
    rewrite IH by lia. rewrite Nat.add_1_r.
    rewrite (option_fmap_add2 off 1 (S off)); [done|lia].
Qed.

Lemma span_sq_scan s off :
  span_quoted_string_sq s off = (λ n, off + 1 + n) <$> scan_string squote (drop (off + 1) s).
Proof.
  unfold span_quoted_string_sq. apply (span_quoted_loop_scan squote);
    [apply sq_table_ok|discriminate|discriminate|lia].
Qed.

Lemma span_dq_scan s off :
  span_quoted_string_dq s off = (λ n, off + 1 + n) <$> scan_string dquote (drop (off + 1) s).
Proof.
  unfold span_quoted_string_dq. apply (span_quoted_loop_scan dquote);
    [apply dq_table_ok|discriminate|discriminate|lia].
Qed.

Lemma scan_string_range q s n : scan_string q s = Some n → 1 ≤ n ≤ length s.
Proof.
  revert n. induction s as [|c|c d s IH1 IH2] using str_ind2; intros n; simpl.
  - done.
  - case_bool_decide; [intros [= <-]; simpl; lia|]. by case_bool_decide.
  - case_bool_decide; [intros [= <-]; simpl; lia|]. case_bool_decide.
    + intros (m & Hm & ->)%fmap_Some. apply IH1 in Hm. lia.
    + intros (m & Hm & ->)%fmap_Some. apply IH2 in Hm. simpl in Hm. lia.
Qed.

(** ** Quoted identifiers *)

(** Length of the rest of a quoted identifier up to and including the closing
    quote; a doubled quote is one character of the name. *)
Fixpoint scan_identifier (q : ascii) (s : str) : option nat :=
  match s with
  | [] => None
  | c :: s' =>
      if bool_decide (c = q) then
        match s' with
        | d :: s'' => if bool_decide (d = q) then (λ n, 2 + n) <$> scan_identifier q s''
                      else Some 1
        | [] => Some 1
        end
      else (λ n, 1 + n) <$> scan_identifier q s'
  end.

Lemma scan_identifier_range q s n : scan_identifier q s = Some n → 1 ≤ n ≤ length s.
Proof.
  revert n. induction s as [|c|c d s IH1 IH2] using str_ind2; intros n; simpl.
  - done.
  - case_bool_decide; [intros [= <-]; simpl; lia|done].
  - case_bool_decide.
    + case_bool_decide; [|intros [= <-]; simpl; lia].
      intros (m & Hm & ->)%fmap_Some. apply IH1 in Hm. lia.
    + intros (m & Hm & ->)%fmap_Some. apply IH2 in Hm. simpl in Hm. lia.
Qed.

Lemma scan_identifier_find q s :
  scan_identifier q s =
  match find_if (λ d, bool_decide (d = q)) s with
  | None => None
  | Some i =>
      if bool_decide (s !! (i + 1) = Some q)
      then (λ n, i + 2 + n) <$> scan_identifier q (drop (i + 2) s)
      else Some (i + 1)
  end.
Proof.
  induction s as [|c s IH]; [done|]. simpl. case_bool_decide.
  - subst. destruct s as [|d s]; simpl.
    + done.
    + rewrite drop_0. destruct (decide (d = q)) as [->|].
      * by rewrite !bool_decide_eq_true_2.
      * rewrite !bool_decide_eq_false_2 by congruence. done.
  - rewrite IH. destruct (find_if _ s) as [i|]; [|done]. simpl.
    case_bool_decide; [|done].
    rewrite (option_fmap_add2 1 (i + 2) (S (i + 2))); [done|lia].
Qed.

Lemma span_quoted_identifier_loop_scan q fuel s p :
  length s - p < fuel → p ≤ length s →
  span_quoted_identifier_loop fuel q s p = (λ n, p + n) <$> scan_identifier q (drop p s).
Proof.
  revert p. induction fuel as [|fuel IH]; intros p Hf Hp; [lia|].
  cbn [span_quoted_identifier_loop]. unfold find_char. rewrite from_le by done.
  rewrite scan_identifier_find. destruct (find_if _ (drop p s)) as [i|] eqn:Ei; simpl; [|done].
  rewrite lookup_drop, Nat.add_assoc. case_bool_decide as Hq.
  - apply lookup_lt_Some in Hq. rewrite IH by lia. rewrite drop_drop.
    replace (p + (i + 2)) with (p + i + 2) by lia.
    rewrite (option_fmap_add2 p (i + 2) (p + i + 2)); [done|lia].
  - simpl. f_equal. lia.
Qed.

Lemma span_bt_scan s off :
  off < length s →
  span_quoted_sql_identifier_bt s off =
  (λ n, off + 1 + n) <$> scan_identifier backtick (drop (off + 1) s).
Proof. intros. apply span_quoted_identifier_loop_scan; lia. Qed.

(** ** Bounds of the span functions *)

Lemma from_range f s pos p :
  (∀ u i, f u = Some i → i ≤ length u) → from f s pos = Some p → pos ≤ p ≤ length s.
Proof.
  unfold from. intros Hf. case_decide; [|done]. intros (i & Hi & ->)%fmap_Some.
  apply Hf in Hi. rewrite length_drop in Hi. lia.
Qed.

Lemma from_find_if_range P s pos p :
  from (find_if P) s pos = Some p → pos ≤ p < length s ∧ ∃ c, s !! p = Some c ∧ P c = true.
Proof.
  unfold from. case_decide; [|done]. intros (i & Hi & ->)%fmap_Some.
  pose proof (find_if_lt _ _ _ Hi) as Hlt. rewrite length_drop in Hlt. split; [lia|].
  apply find_if_Some in Hi as (c & Hc & Pc & _). rewrite lookup_drop in Hc. eauto.
Qed.

Lemma span_to_eol_range s off : off ≤ length s → off ≤ span_to_eol s off ≤ length s.
Proof.
  intros. unfold span_to_eol, find_char.
  destruct (from _ _ _) eqn:E; [|lia]. apply from_find_if_range in E as [? _]. lia.
Qed.

Lemma span_sq_range s off e :
  span_quoted_string_sq s off = Some e → off + 1 < e ≤ length s.
Proof.
  rewrite span_sq_scan. intros (n & Hn & ->)%fmap_Some. apply scan_string_range in Hn.
  rewrite length_drop in Hn. lia.
Qed.

Lemma span_dq_range s off e :
  span_quoted_string_dq s off = Some e → off + 1 < e ≤ length s.
Proof.
  rewrite span_dq_scan. intros (n & Hn & ->)%fmap_Some. apply scan_string_range in Hn.
  rewrite length_drop in Hn. lia.
Qed.

Lemma span_bt_range s off e :
  off < length s → span_quoted_sql_identifier_bt s off = Some e → off + 1 < e ≤ length s.
Proof.
  intros ?. rewrite span_bt_scan by done. intros (n & Hn & ->)%fmap_Some.
  apply scan_identifier_range in Hn. rewrite length_drop in Hn. lia.
Qed.

Lemma span_cstyle_comment_range s off e :
  span_cstyle_comment s off = Some e → off + 4 ≤ e ≤ length s.
Proof.
  unfold span_cstyle_comment. case_bool_decide; [done|].
  intros (p & Hp & ->)%fmap_Some. unfold find_str, from in Hp. case_decide; [|done].
  apply fmap_Some in Hp as (i & Hi & ->). apply find_sub_le in Hi.
  rewrite length_drop in Hi. simpl in Hi. lia.
Qed.

Lemma skip_digits_range s o : o ≤ skip_digits s o ≤ o + length s.
Proof.
  revert o. induction s as [|c s IH]; intros o; simpl; [lia|].
  destruct (isdigit c); [specialize (IH (S o)); lia|lia].
Qed.

Lemma span_unquoted_identifier_range s off :
  off < length s → off < span_unquoted_identifier s off ≤ length s.
Proof.
  intros Hoff. unfold span_unquoted_identifier.
  assert (∀ fuel o, off ≤ o → o < length s →
    off < span_unquoted_identifier_loop fuel s o ≤ length s) as H; [|by apply H].
  induction fuel as [|fuel IH]; intros o Ho Hlt; simpl; [lia|].
  destruct (find_first_not_of _ _ _) as [p|] eqn:E; [|lia].
  apply from_find_if_range in E as [Hp _]. case_bool_decide; [lia|].
  destruct (_ <=? _)%Z; [lia|]. apply IH; lia.
Qed.

Lemma span_dollar_range s off p :
  off < length s →
  span_dollar_quoted_string_or_dollar_identifier s off = Ok p → off < p ≤ length s.
Proof.
  intros Hoff. unfold span_dollar_quoted_string_or_dollar_identifier.
  pose proof (span_unquoted_identifier_range s off Hoff).
  destruct (find_char s dollar (off + 1)) as [e|] eqn:Ee; [|intros [= <-]; lia].
  apply from_find_if_range in Ee as [He _].
  destruct (negb _); [intros [= <-]; lia|].
  set (tag := substr s off (e + 1 - off)).
  assert (length tag = e + 1 - off) as Hlen.
  { unfold tag, substr. rewrite length_take, length_drop. lia. }
  destruct (find_str s tag _) as [p'|] eqn:Ep; [|done]. intros [= <-].
  unfold find_str, from in Ep. case_decide; [|done].
  apply fmap_Some in Ep as (i & Hi & ->). apply find_sub_le in Hi.
  rewrite length_drop in Hi. lia.
Qed.

(** ** The iterator *)

(** The step of [operator++] leaves the iterator where it is.  What it skips is
    defined and proved in [SqlIteratorFacts]. *)
Definition rests (it : SQL_iterator) (o : nat) : Prop :=
  ∀ c, m_s it !! o = Some c → increment_step it o c = Ok (it, true).

Definition same_text (it it' : SQL_iterator) : Prop :=
  m_s it' = m_s it ∧ m_skip_quoted it' = m_skip_quoted it ∧
  m_dollar_quotes it' = m_dollar_quotes it.

Lemma increment_step_move it o c it' b :
  m_s it !! o = Some c → m_offset it = Some o → increment_step it o c = Ok (it', b) →
  same_text it it' ∧
  if b then it' = it
  else match m_offset it' with Some o' => o < o' ≤ length (m_s it) | None => True end.
Proof.
  intros Hc Ho. pose proof (lookup_lt_Some _ _ _ Hc) as Hlt. unfold increment_step.
  assert (∀ it0 b0, it0 = it → b0 = true → Ok (it0, b0) = Ok (it', b) →
    same_text it it' ∧ if b then it' = it
    else match m_offset it' with Some o' => o < o' ≤ length (m_s it) | None => True end) as Hstop.
  { intros ? ? -> -> [= <- <-]. done. }
  assert (∀ it0 p, same_text it it0 →
    (∀ o', p = Some o' → o < o' ≤ length (m_s it)) → Ok (set_offset it0 p, false) = Ok (it', b) →
    same_text it it' ∧ if b then it' = it
    else match m_offset it' with Some o' => o < o' ≤ length (m_s it) | None => True end) as Hmove.
  { intros it0 p ? Hp [= <- <-]. split; [done|]. simpl. destruct p; [by apply Hp|done]. }
  assert (same_text it it) as Hsame by done.
  case_bool_decide.
  { destruct (m_skip_quoted it); [|by apply Hstop]. apply Hmove; [done|].
    intros o' ?%span_sq_range. lia. }
  case_bool_decide.
  { destruct (m_skip_quoted it); [|by apply Hstop]. apply Hmove; [done|].
    intros o' ?%span_dq_range. lia. }
  case_bool_decide.
  { destruct (m_skip_quoted it); [|by apply Hstop]. apply Hmove; [done|].
    intros o' ?%span_bt_range; lia. }
  case_bool_decide.
  { case_bool_decide; [|by apply Hstop]. destruct (_ || _) eqn:Eh.
    - apply Hmove; [done|]. intros o' [= <-].
      assert (o + 3 ≤ length (m_s it)).
      { apply orb_true_iff in Eh as [Eh|Eh]; bool_to_prop; apply lookup_lt_Some in Eh; lia. }
      pose proof (skip_digits_range (drop (o + 3) (m_s it)) (o + 3)) as Hr.
      rewrite length_drop in Hr. lia.
    - apply Hmove; [done|]. intros o' ?%span_cstyle_comment_range. lia. }
  case_bool_decide.
  { destruct (_ && _) eqn:E; [|by apply Hstop]. bool_to_prop.
    apply Hmove; [done|]. intros o' [= <-].
    assert (o + 1 < length (m_s it)) by by eapply lookup_lt_Some. lia. }
  case_bool_decide.
  { apply Hmove; [done|]. intros o' [= <-].
    pose proof (span_to_eol_range (m_s it) (o + 1)). lia. }
  case_bool_decide.
  { destruct (_ && _) eqn:E; [|by apply Hstop]. bool_to_prop. apply Hmove; [done|].
    intros o' [= <-]. pose proof (span_to_eol_range (m_s it) (o + 2)). lia. }
  case_bool_decide; [|by apply Hstop].
  destruct (m_dollar_quotes it); [|by apply Hstop].
  destruct (span_dollar_quoted_string_or_dollar_identifier _ _) as [p|] eqn:Ep; simpl; [|done].
  destruct (_ && _) eqn:E; [|by apply Hstop]. apply Hmove; [done|]. intros o' [= <-].
  by apply span_dollar_range in Ep.
Qed.

Lemma same_text_trans it1 it2 it3 : same_text it1 it2 → same_text it2 it3 → same_text it1 it3.
Proof. unfold same_text. intuition congruence. Qed.

Lemma increment_step_throw it o c e :
  increment_step it o c = Throw e → ∃ m, e = invalid_argument m.
Proof.
  unfold increment_step. repeat case_bool_decide; repeat case_match; simpl; try done.
  destruct (span_dollar_quoted_string_or_dollar_identifier _ _) as [p|e'] eqn:E; simpl.
  { by destruct (_ && _). }
  intros [= ->]. unfold span_dollar_quoted_string_or_dollar_identifier in E.
  repeat case_match; simplify_eq. eauto.
Qed.

(** The loop of [operator++] ends with the iterator at rest, at or after the
    offset it started from. *)
Lemma increment_loop_spec fuel it o :
  m_offset it = Some o → o ≤ length (m_s it) → length (m_s it) - o < fuel →
  match increment_loop fuel it with
  | Ok it' => same_text it it' ∧ ∃ o', m_offset it' = Some o' ∧ o ≤ o' ≤ length (m_s it) ∧ rests it' o'
  | Throw e => ∃ m, e = invalid_argument m
  end.
Proof.
  revert it o. induction fuel as [|fuel IH]; intros it o Ho Hle Hf; [lia|].
  cbn [increment_loop]. rewrite Ho. destruct (m_s it !! o) as [c|] eqn:Ec.
  2:{ split; [done|]. exists o. split_and!; [done|lia|lia|]. intros d Hd. congruence. }
  destruct (increment_step it o c) as [[it1 b]|e] eqn:Es; simpl.
  2:{ by eapply increment_step_throw. }
  destruct (increment_step_move _ _ _ _ _ Ec Ho Es) as [Hsame Hb].
  pose proof (lookup_lt_Some _ _ _ Ec) as Hlt.
  destruct b.
  - subst it1. rewrite Ho. split; [done|]. exists o. split_and!; [done|lia|lia|].
    intros d Hd. simplify_eq. done.
  - set (it2 := match m_offset it1 with
                | Some _ => it1 | None => set_offset it1 (Some (length (m_s it1))) end).
    assert (same_text it it2 ∧ ∃ o', m_offset it2 = Some o' ∧ o < o' ≤ length (m_s it))
      as (Hs2 & o2 & Ho2 & Hr2).
    { unfold it2. destruct (m_offset it1) as [o1|] eqn:E1; [by eauto|].
      split; [done|]. simpl. destruct Hsame as [-> _]. eexists. split; [done|lia]. }
    pose proof Hs2 as (Hm2 & _ & _).
    assert (length (m_s it2) = length (m_s it)) as Hl2 by by rewrite Hm2.
    specialize (IH it2 o2 Ho2). destruct (increment_loop fuel it2) as [it3|]; [|apply IH; lia].
    destruct IH as (Hs3 & o3 & ? & ? & ?); [lia|lia|]. split.
    + by eapply same_text_trans.
    + exists o3. split_and!; [done|lia|lia|done].
Qed.

Lemma increment_spec it o :
  m_offset it = Some o →
  match increment it with
  | Ok it' => same_text it it' ∧ ∃ o', m_offset it' = Some o' ∧ o < o' ≤ length (m_s it) ∧ rests it' o'
  | Throw e => (∃ m, e = invalid_argument m) ∨ length (m_s it) ≤ o
  end.
Proof.
  intros Ho. unfold increment. rewrite Ho. case_bool_decide; [right; lia|].
  pose proof (increment_loop_spec (S (length (m_s it))) (set_offset it (Some (o + 1))) (o + 1))
    as H1.
  destruct (increment_loop _ _) as [it'|e].
  - destruct H1 as (Hs & o' & ? & ? & ?); simpl; [done|lia|lia|]. split; [done|].
    exists o'. split_and!; simpl in *; [done|lia|lia|done].
  - left. apply H1; simpl; [done|lia|lia].
Qed.

Lemma make_SQL_iterator_spec s sq dq :
  match make_SQL_iterator s 0 sq dq with
  | Ok it => m_s it = s ∧ m_skip_quoted it = sq ∧ m_dollar_quotes it = dq ∧
             ∃ o, m_offset it = Some o ∧ o ≤ length s ∧ rests it o
  | Throw e => ∃ m, e = invalid_argument m
  end.
Proof.
  unfold make_SQL_iterator, increment. cbn [m_offset m_s].
  rewrite bool_decide_eq_false_2 by lia.
  set (it0 := set_offset _ _).
  pose proof (increment_loop_spec (S (length s)) it0 0) as H.
  destruct (increment_loop _ _) as [it|e].
  - destruct H as ((Hm & ? & ?) & o & ? & ? & ?); simpl; [done|lia|lia|].
    split_and!; try done. exists o. split_and!; [done|simpl in *; lia|done].
  - apply H; simpl; [done|lia|lia].
Qed.

(** ** Tokens *)

(** What [next_token_and_offset] promises after a token that starts at [st]. *)
Definition advanced (it it' : SQL_iterator) (st : nat) : Prop :=
  same_text it it' ∧
  match m_offset it' with Some o' => st < o' ≤ length (m_s it) | None => True end.

Lemma advanced_same it1 it2 it3 st : same_text it1 it2 → advanced it2 it3 st → advanced it1 it3 st.
Proof.
  intros H1 [H2 Ho]. pose proof H1 as [Hm _]. rewrite Hm in Ho. split; [|done].
  by eapply same_text_trans.
Qed.

Lemma valid_lt it o : m_offset it = Some o → valid it = true → o < length (m_s it).
Proof. unfold valid. intros ->. apply bool_decide_eq_true_1. Qed.

Lemma skip_space_loop_spec fuel it o :
  m_offset it = Some o → o ≤ length (m_s it) →
  match skip_space_loop fuel it with
  | Ok it' => same_text it it' ∧ ∃ o', m_offset it' = Some o' ∧ o ≤ o' ≤ length (m_s it)
  | Throw e => ∃ m, e = invalid_argument m
  end.
Proof.
  revert it o. induction fuel as [|fuel IH]; intros it o Ho Hle; cbn [skip_space_loop].
  { split; [done|]. eauto. }
  destruct (valid it) eqn:Ev; [|by split; eauto]. apply (valid_lt _ _ Ho) in Ev as Hlt.
  cbn [andb]. destruct (isspace (get_char it)); [|by split; eauto].
  pose proof (increment_spec it o Ho) as Hi.
  destruct (increment it) as [it1|e]; cbn [mbind result_bind]; [|destruct Hi; [done|lia]].
  destruct Hi as (Hs & o1 & Ho1 & Hr & _). pose proof Hs as [Hm _].
  specialize (IH it1 o1 Ho1). rewrite Hm in IH.
  destruct (skip_space_loop fuel it1) as [it2|]; [|apply IH; lia].
  destruct IH as (Hs2 & o2 & ? & ?); [lia|]. split; [by eapply same_text_trans|].
  exists o2. split; [done|lia].
Qed.

(** The skip over blanks ends outside blanks: its fuel is enough. *)
Lemma skip_space_loop_done fuel it o it' :
  m_offset it = Some o → o ≤ length (m_s it) → length (m_s it) - o < fuel →
  skip_space_loop fuel it = Ok it' → valid it' && isspace (get_char it') = false.
Proof.
  revert it o. induction fuel as [|fuel IH]; intros it o Ho Hle Hf; [lia|]. cbn [skip_space_loop].
  destruct (valid it && isspace (get_char it)) eqn:Ev; [|by intros [= <-]].
  apply andb_true_iff in Ev as [Ev _]. apply (valid_lt _ _ Ho) in Ev.
  pose proof (increment_spec it o Ho) as Hi.
  destruct (increment it) as [it1|]; cbn [mbind result_bind]; [|done].
  destruct Hi as ((Hm & _) & o1 & Ho1 & Hr & _). apply (IH it1 o1); rewrite ?Hm; [done|lia..].
Qed.

(** The state the token loop ends in: the token ends before the iterator, or is
    the single byte the iterator still points to. *)
Definition token_end (it : SQL_iterator) (start : nat) (r : SQL_iterator * (str + nat)) : Prop :=
  match r with
  | (it', inl tok) => advanced it it' start ∧ tok = sub_to (m_s it) start (m_offset it')
  | (it', inr p) => same_text it it' ∧ start ≤ p ∧
      ∃ o', m_offset it' = Some o' ∧ o' ≤ length (m_s it) ∧ (p < o' ∨ p = start ∧ o' = start)
  end.

Lemma token_end_same it1 it2 start r :
  same_text it1 it2 → token_end it2 start r → token_end it1 start r.
Proof.
  intros Hs. pose proof Hs as [Hm _]. destruct r as [it' [tok|p]]; simpl; rewrite ?Hm.
  - intros [Ha ->]. split; [by eapply advanced_same|done].
  - intros (Hs2 & ? & ?). split; [by eapply same_text_trans|done].
Qed.

(** The tail of an iteration of the token loop: [increment] from the offset that
    becomes [previous]. *)
Lemma token_continue_spec (b : bool) fuel it0 it start o :
  same_text it0 it → m_offset it = Some o → start ≤ o < length (m_s it) →
  (∀ it1 o1, same_text it0 it1 → m_offset it1 = Some o1 → o < o1 ≤ length (m_s it0) → valid it1 = true →
     match token_loop fuel it1 start o with
     | Ok r => token_end it1 start r
     | Throw e => ∃ m, e = invalid_argument m
     end) →
  match (if b then it ← increment it; Ok (it, inr o)
         else it ← increment it;
              if valid it then token_loop fuel it start o else Ok (it, inr o)) with
  | Ok r => token_end it0 start r
  | Throw e => ∃ m, e = invalid_argument m
  end.
Proof.
  intros Hs Ho Hr Hrec. pose proof Hs as [Hm _]. pose proof (increment_spec it o Ho) as Hi.
  destruct (increment it) as [it1|e].
  2:{ destruct b; cbn [mbind result_bind]; (destruct Hi; [done|lia]). }
  destruct Hi as (Hs1 & o1 & Ho1 & Hr1 & _).
  assert (same_text it0 it1) as Hs01 by by eapply same_text_trans.
  assert (token_end it0 start (it1, inr o)) as Hend.
  { simpl. rewrite <- Hm. split_and!; [done|lia|]. exists o1. split_and!; [done|lia|left; lia]. }
  destruct b; cbn [mbind result_bind]; [done|]. destruct (valid it1) eqn:Ev; [|done].
  rewrite Hm in Hr1. specialize (Hrec it1 o1 Hs01 Ho1 Hr1 Ev).
  destruct (token_loop fuel it1 start o); [|done]. by eapply token_end_same.
Qed.

Lemma token_loop_spec fuel it start previous o :
  m_offset it = Some o → o < length (m_s it) → start ≤ previous →
  previous < o ∨ previous = start ∧ o = start →
  match token_loop fuel it start previous with
  | Ok r => token_end it start r
  | Throw e => ∃ m, e = invalid_argument m
  end.
Proof.
  revert it previous o. induction fuel as [|fuel IH]; intros it previous o Ho Hlt Hsp Hpo.
  { simpl. split_and!; [done|lia|]. eauto with lia. }
  cbn [token_loop]. rewrite Ho.
  assert (token_end it start (it, inr previous)) as Hend.
  { simpl. split_and!; [done|lia|]. eauto with lia. }
  assert (∀ it' o', same_text it it' → m_offset it' = Some o' → start ≤ o' < length (m_s it') →
    match (let previous := default 0 (m_offset it') in
        if bool_decide (get_char it = ":"%char) then
          it ← increment it'; Ok (it, inr previous)
        else
          it ← increment it';
          if valid it then token_loop fuel it start previous else Ok (it, inr previous)) with
    | Ok r => token_end it start r
    | Throw e => ∃ m, e = invalid_argument m
    end) as Hcont.
  { intros it' o' Hs Ho' Hr. rewrite Ho'. cbn [default]. apply token_continue_spec; try done.
    intros it1 o1 ? Ho1 Hr1 Hv. apply (IH it1 o' o1); [done|by apply valid_lt|lia|left; unfold id in *; lia]. }
  pose proof (Hcont it o) as Hcont0. rewrite Ho in Hcont0.
  destruct (is_token_break _); [done|].
  destruct (_ || _). { destruct (m_skip_quoted it); [|done]. apply Hcont0; [done..|lia]. }
  destruct (bool_decide (get_char it = backtick)).
  { destruct (m_skip_quoted it); [apply Hcont0; [done..|lia]|]. destruct (_ || _); [|done].
    destruct (negb _ || _) eqn:E.
    - split; [|done]. split; [done|]. simpl.
      destruct (span_quoted_sql_identifier_bt (m_s it) o) as [e|] eqn:Es; [|done].
      apply span_bt_range in Es; lia.
    - apply orb_false_iff in E as [E _]. apply negb_false_iff in E.
      destruct (span_quoted_sql_identifier_bt (m_s it) o) as [e|] eqn:Es; [|done].
      apply (Hcont _ e); [done..|]. simpl. apply (valid_lt _ e) in E; [|done]. simpl in E.
      apply span_bt_range in Es; lia. }
  destruct (_ || _); [done|]. apply Hcont0; [done..|lia].
Qed.

(** Enough fuel: more does not change the result of the token loop. *)
Lemma token_loop_fuel f1 f2 it start previous o :
  m_offset it = Some o → o < length (m_s it) →
  length (m_s it) - o < f1 → length (m_s it) - o < f2 →
  token_loop f1 it start previous = token_loop f2 it start previous.
Proof.
  revert f2 it previous o. induction f1 as [|f1 IH]; intros [|f2] it previous o Ho Hlt H1 H2; try lia.
  cbn [token_loop]. rewrite Ho.
  assert (∀ it' o', same_text it it' → m_offset it' = Some o' → o ≤ o' →
    (it ← increment it';
     if valid it then token_loop f1 it start (default 0 (m_offset it'))
     else Ok (it, inr (default 0 (m_offset it')))) =
    (it ← increment it';
     if valid it then token_loop f2 it start (default 0 (m_offset it'))
     else Ok (it, inr (default 0 (m_offset it'))))) as Hc.
  { intros it' o' (Hm & _) Ho' Hle. pose proof (increment_spec it' o' Ho') as Hi.
    destruct (increment it') as [it1|]; cbn [mbind result_bind]; [|done].
    destruct Hi as ((Hm1 & _) & o1 & Ho1 & ? & _). destruct (valid it1) eqn:Ev; [|done].
    apply (valid_lt _ _ Ho1) in Ev.
    assert (length (m_s it1) = length (m_s it)) as Hl by congruence.
    assert (length (m_s it') = length (m_s it)) as Hl' by congruence.
    apply (IH f2 it1 _ o1); [done|lia..]. }
  pose proof (Hc it o) as Hc0. rewrite Ho in Hc0. rewrite Hc0 by (done || lia).
  destruct (span_quoted_sql_identifier_bt (m_s it) o) as [e|] eqn:Es; [|done].
  apply span_bt_range in Es; [|done].
  by rewrite (Hc (set_offset it (Some e)) e) by (done || lia).
Qed.

Lemma sub_to_nonempty s start e :
  start < length s → match e with Some e => start < e ≤ length s | None => True end →
  ∃ n, 0 < n ∧ start + n ≤ length s ∧ sub_to s start e = substr s start n.
Proof.
  intros Hlt He. destruct e as [e|]; simpl.
  - exists (e - start). split_and!; [lia..|done].
  - exists (length s - start). split_and!; [lia..|]. unfold substr. rewrite take_ge; [done|].
    rewrite length_drop. lia.
Qed.

(** The quoted tokens returned at once also advance the iterator. *)
Lemma quoted_token_spec it o :
  m_offset it = Some o → o < length (m_s it) →
  match quoted_token it o with
  | Ok (Some (it', tok)) => advanced it it' o ∧
      ∃ n, 0 < n ∧ o + n ≤ length (m_s it) ∧ tok = substr (m_s it) o n
  | Ok None => True
  | Throw e => ∃ m, e = invalid_argument m
  end.
Proof.
  intros Ho Hlt. unfold quoted_token. destruct (m_skip_quoted it); [done|].
  assert (∀ e, match e with Some e => o < e ≤ length (m_s it) | None => True end →
    advanced it (set_offset it e) o ∧
    ∃ n, 0 < n ∧ o + n ≤ length (m_s it) ∧ sub_to (m_s it) o e = substr (m_s it) o n) as H.
  { intros e He. split; [split; [done|exact He]|]. by apply sub_to_nonempty. }
  case_bool_decide.
  { apply H. destruct (span_quoted_string_sq _ _) eqn:E; [|done]. apply span_sq_range in E.
    simpl. lia. }
  case_bool_decide.
  { apply H. destruct (span_quoted_string_dq _ _) eqn:E; [|done]. apply span_dq_range in E.
    simpl. lia. }
  destruct (_ && _); [|done].
  destruct (span_dollar_quoted_string_or_dollar_identifier _ _) as [p|e] eqn:E;
    cbn [mbind result_bind].
  - apply span_dollar_range in E; [|done]. apply (H (Some p)). lia.
  - unfold span_dollar_quoted_string_or_dollar_identifier in E. repeat case_match; simplify_eq. eauto.
Qed.

(** ** Conditional comments *)

Lemma conditional_comment_step_spec stray s dq o c :
  s !! o = Some c →
  match conditional_comment_step stray s dq o c with
  | Ok (inl (Some o')) => o < o' ≤ length s
  | Ok (inl None) => True
  | Ok (inr e) => o + 2 = e ∧ e ≤ length s ∧ substr s o 2 = $"*/"
  | Throw e => ∃ m, e = invalid_argument m
  end.
Proof.
  intros Hc. pose proof (lookup_lt_Some _ _ _ Hc) as Hlt. unfold conditional_comment_step.
  case_bool_decide.
  { destruct (span_quoted_string_sq _ _) eqn:E; [|done]. apply span_sq_range in E. lia. }
  case_bool_decide.
  { destruct (span_quoted_string_dq _ _) eqn:E; [|done]. apply span_dq_range in E. lia. }
  case_bool_decide.
  { destruct (span_quoted_sql_identifier_bt _ _) eqn:E; [|done]. apply span_bt_range in E; lia. }
  case_bool_decide as Hstar.
  { case_bool_decide as Hsl; [|lia]. pose proof (lookup_lt_Some _ _ _ Hsl).
    split_and!; [lia..|]. unfold substr. rewrite (drop_S _ _ _ Hc).
    rewrite Nat.add_1_r in Hsl. rewrite (drop_S _ _ _ Hsl). subst. done. }
  case_bool_decide.
  { destruct (_ && _) eqn:E; [|lia]. bool_to_prop.
    pose proof (span_to_eol_range s (o + 1 + 3)). lia. }
  pose proof (span_unquoted_identifier_range s o Hlt).
  case_bool_decide.
  { destruct dq; [|lia].
    destruct (span_dollar_quoted_string_or_dollar_identifier _ _) as [p|e] eqn:E;
      cbn [mbind result_bind].
    - by apply span_dollar_range in E.
    - unfold span_dollar_quoted_string_or_dollar_identifier in E.
      repeat case_match; simplify_eq. eauto. }
  destruct (is_start_of_unquoted_identifier _ _); lia.
Qed.

Lemma conditional_comment_loop_spec stray fuel s dq o :
  match conditional_comment_loop stray fuel s dq (Some o) with
  | Ok (Some e) => o + 2 ≤ e ≤ length s ∧ substr s (e - 2) 2 = $"*/"
  | Ok None => True
  | Throw e => ∃ m, e = invalid_argument m
  end.
Proof.
  revert o. induction fuel as [|fuel IH]; intros o; cbn [conditional_comment_loop]; [done|].
  destruct (s !! o) as [c|] eqn:Hc; [|done].
  pose proof (conditional_comment_step_spec stray s dq o c Hc) as Hs.
  destruct (conditional_comment_step stray s dq o c) as [[[o'|]|e]|e]; cbn [mbind result_bind];
    [|by destruct fuel| |done].
  - specialize (IH o'). destruct (conditional_comment_loop _ _ _ _ _) as [[e|]|]; [|done..].
    destruct IH as [? ?]. split; [lia|done].
  - destruct Hs as (<- & ? & ?). rewrite Nat.add_sub. split; [lia|done].
Qed.

Lemma conditional_comment_loop_fuel stray f1 f2 s dq o :
  length s - o < f1 → length s - o < f2 →
  conditional_comment_loop stray f1 s dq (Some o) = conditional_comment_loop stray f2 s dq (Some o).
Proof.
  revert f2 o. induction f1 as [|f1 IH]; intros [|f2] o H1 H2; try lia.
  cbn [conditional_comment_loop]. destruct (s !! o) as [c|] eqn:Hc; [|done].
  pose proof (conditional_comment_step_spec stray s dq o c Hc) as Hs.
  pose proof (lookup_lt_Some _ _ _ Hc).
  destruct (conditional_comment_step stray s dq o c) as [[[o'|]|e]|e]; cbn [mbind result_bind];
    [apply IH; lia|by destruct f1, f2|done|done].
Qed.

Lemma span_cstyle_comment_ends s off e :
  span_cstyle_comment s off = Some e → off + 4 ≤ e ≤ length s ∧ substr s (e - 2) 2 = $"*/".
Proof.
  intros He. pose proof (span_cstyle_comment_range _ _ _ He). split; [done|]. revert He.
  unfold span_cstyle_comment. case_bool_decide; [done|]. intros (p & Hp & ->)%fmap_Some.
  rewrite Nat.add_sub. unfold find_str, from in Hp. case_decide; [|done].
  apply fmap_Some in Hp as (i & Hi & ->). apply find_sub_Some in Hi as [Hi _].
  unfold substr. rewrite drop_drop in Hi. destruct Hi as [k Hk]. by rewrite Hk.
Qed.


(** ** Unquoted identifiers *)

(** Bytes an unquoted identifier may contain: those of the table, or above 0x7f. *)
Definition unquoted_char (c : ascii) : bool :=
  mem_chars k_identifier_chars c || (0x7f <? uch c)%Z.

(** Length of the longest run of such bytes at the start of a text. *)
Fixpoint ident_run (s : str) : nat :=
  match s with
  | c :: s' => if unquoted_char c then S (ident_run s') else 0
  | [] => 0
  end.

Lemma ident_run_find s i :
  find_if (λ c, negb (mem_chars k_identifier_chars c)) s = Some i →
  ident_run s = i + ident_run (drop i s).
Proof.
  revert i. induction s as [|c s IH]; intros i; simpl; [done|].
  unfold unquoted_char at 1. destruct (mem_chars k_identifier_chars c) eqn:E; simpl.
  - intros (j & Hj & ->)%fmap_Some. simpl. by rewrite (IH j Hj).
  - intros [= <-]. simpl. unfold unquoted_char. by rewrite E.
Qed.

Lemma ident_run_all s :
  find_if (λ c, negb (mem_chars k_identifier_chars c)) s = None → ident_run s = length s.
Proof.
  induction s as [|c s IH]; simpl; [done|]. unfold unquoted_char.
  destruct (mem_chars k_identifier_chars c); simpl; [|done].
  intros ?%fmap_None. by rewrite IH.
Qed.

Lemma span_unquoted_identifier_run s off :
  off < length s → span_unquoted_identifier s off = off + 1 + ident_run (drop (off + 1) s).
Proof.
  unfold span_unquoted_identifier.
  assert (∀ fuel o, o < length s → length s - o < fuel →
    span_unquoted_identifier_loop fuel s o = o + 1 + ident_run (drop (o + 1) s)) as H;
    [|intros; apply H; lia].
  induction fuel as [|fuel IH]; intros o Ho Hf; [lia|]. cbn [span_unquoted_identifier_loop].
  unfold find_first_not_of. rewrite from_le by lia.
  destruct (find_if _ (drop (o + 1) s)) as [i|] eqn:Ei; csimpl.
  2:{ rewrite (ident_run_all _ Ei), length_drop. lia. }
  pose proof (find_if_lt _ _ _ Ei) as Hi. rewrite length_drop in Hi.
  rewrite (ident_run_find _ _ Ei), drop_drop.
  rewrite bool_decide_eq_false_2 by lia.
  destruct (lookup_lt_is_Some_2 s (o + 1 + i)) as [d Hd]; [lia|].
  rewrite (char_at_lookup _ _ _ Hd).
  apply find_if_Some in Ei as (d' & Hd' & Hneg & _). rewrite lookup_drop, Hd in Hd'.
  injection Hd' as <-. apply negb_true_iff in Hneg.
  rewrite (drop_S _ _ _ Hd). cbn [ident_run]. unfold unquoted_char at 1. rewrite Hneg.
  destruct (Z.leb_spec (uch d) 0x7f) as [Hle|Hgt].
  - assert ((0x7f <? uch d)%Z = false) as -> by lia. simpl. lia.
  - assert ((0x7f <? uch d)%Z = true) as -> by lia. rewrite IH by lia.
    cbn [orb]. rewrite Nat.add_1_r. lia.
Qed.


#[global] Arguments span_quoted_loop : simpl never.
#[global] Arguments span_quoted_identifier_loop : simpl never.
#[global] Arguments increment_loop : simpl never.
#[global] Arguments increment : simpl never.
#[global] Arguments make_SQL_iterator : simpl never.

(** ** Main results *)

(** The table-driven scanners of single- and double-quoted strings, with their
    restart after an embedded NUL, find exactly the end of the literal the MySQL
    grammar defines (a backslash protects one byte), for every text and offset. *)
Theorem span_quoted_string_correct s off :
  span_quoted_string_sq s off = (λ n, off + 1 + n) <$> scan_string squote (drop (off + 1) s) ∧
  span_quoted_string_dq s off = (λ n, off + 1 + n) <$> scan_string dquote (drop (off + 1) s).
Proof. split; [apply span_sq_scan|apply span_dq_scan]. Qed.

(** From an iterator within the text, [next_token_and_offset] either reports
    the end of the text with an empty token, or returns a non-empty contiguous
    part of the text that starts at or after the iterator and leaves the iterator
    strictly behind the start of the token (so that loops over tokens end). *)
Theorem next_token_progress it o :
  m_offset it = Some o → o ≤ length (m_s it) →
  match next_token_and_offset it with
  | Ok (it', [], _) => same_text it it' ∧ valid it' = false
  | Ok (it', tok, start) => ∃ st n, start = Some st ∧ o ≤ st ∧ 0 < n ∧ st + n ≤ length (m_s it) ∧
      tok = substr (m_s it) st n ∧ advanced it it' st
  | Throw e => ∃ m, e = invalid_argument m
  end.
Proof.
  intros Ho Hle. unfold next_token_and_offset.
  pose proof (skip_space_loop_spec (S (length (m_s it))) it o Ho Hle) as Hsk.
  destruct (skip_space_loop _ it) as [it1|]; cbn [mbind result_bind]; [|done].
  destruct Hsk as (Hs1 & o1 & Ho1 & Hr1). pose proof Hs1 as [Hm1 _].
  destruct (valid it1) eqn:Ev; cbn [negb]; [|done].
  apply (valid_lt _ _ Ho1) in Ev as Hlt. rewrite Ho1. cbn [default id].
  assert (∀ it' tok n, advanced it1 it' o1 → 0 < n → o1 + n ≤ length (m_s it1) →
    tok = substr (m_s it1) o1 n →
    match tok with
    | [] => same_text it it' ∧ valid it' = false
    | _ => ∃ st n, Some o1 = Some st ∧ o ≤ st ∧ 0 < n ∧ st + n ≤ length (m_s it) ∧
        tok = substr (m_s it) st n ∧ advanced it it' st
    end) as Hfin.
  { intros it' tok n Ha Hn Hle' ->. rewrite Hm1 in *. destruct (substr (m_s it) o1 n) eqn:E.
    - exfalso. apply (f_equal length) in E. unfold substr in E.
      rewrite length_take, length_drop in E. simpl in E. lia.
    - exists o1, n. split_and!; try done; [lia|by eapply advanced_same]. }
  pose proof (quoted_token_spec it1 o1 Ho1 Hlt) as Hq.
  destruct (quoted_token it1 o1) as [[[it2 tok]|]|]; cbn [mbind result_bind]; [| |done].
  { destruct Hq as (Ha & n & ? & ? & ?). by apply (Hfin it2 tok n). }
  pose proof (token_loop_spec (S (length (m_s it1))) it1 o1 o1 o1 Ho1 Hlt) as Ht.
  destruct (token_loop _ it1 o1 o1) as [[it2 [tok|p]]|];
    cbn [mbind result_bind]; [| |by apply Ht; auto].
  { destruct Ht as [Ha ->]; [lia|auto|]. pose proof Ha as [_ Hoff].
    destruct (sub_to_nonempty (m_s it1) o1 (m_offset it2) Hlt Hoff) as (n & ? & ? & Heq).
    by apply (Hfin it2 _ n). }
  destruct Ht as (Hs2 & Hp & o2 & Ho2 & Hle2 & Hpo); [lia|auto|]. pose proof Hs2 as [Hm2 _].
  assert (match (if bool_decide (m_offset it2 = Some o1) then increment it2 else Ok it2) with
          | Ok it' => m_s it' = m_s it1 ∧ advanced it1 it' o1
          | Throw e => ∃ m, e = invalid_argument m end) as Hinc.
  { rewrite Ho2. case_bool_decide as Heq.
    - injection Heq as ->. pose proof (increment_spec it2 o1 Ho2) as Hi. rewrite Hm2 in Hi.
      destruct (increment it2) as [it3|]; [|destruct Hi; [done|lia]].
      destruct Hi as (Hs3 & o3 & Ho3 & ? & _). split; [by destruct Hs3 as [-> _]|].
      split; [by eapply same_text_trans|]. rewrite Ho3. lia.
    - split; [done|]. split; [done|]. rewrite Ho2. assert (o2 ≠ o1) by congruence. lia. }
  destruct (if bool_decide (m_offset it2 = Some o1) then _ else _) as [it3|];
    cbn [mbind result_bind]; [|done]. destruct Hinc as [-> Ha].
  apply (Hfin it3 _ (p + 1 - o1)); [done|lia|lia|done].
Qed.

Lemma next_token_progress_witness :
  let it := {| m_s := $" foo (1)"; m_offset := Some 0; m_skip_quoted := true;
               m_dollar_quotes := true; m_comment_hint := false |} in
  0 ≤ length (m_s it) ∧
  match next_token_and_offset it with
  | Ok (it', [], _) => same_text it it' ∧ valid it' = false
  | Ok (it', tok, start) => ∃ st n, start = Some st ∧ 0 ≤ st ∧ 0 < n ∧ st + n ≤ length (m_s it) ∧
      tok = substr (m_s it) st n ∧ advanced it it' st
  | Throw e => ∃ m, e = invalid_argument m
  end ∧
  (λ r, r.1.2) <$> next_token_and_offset it = Ok ($"foo").
Proof.
  split; [lia|]. split; [|vm_compute; reflexivity].
  apply (next_token_progress _ 0); [reflexivity|lia].
Defined.

(** Whatever lies outside the character table, [span_cstyle_sql_comment] ends
    right after a closing mark that follows the opening one, within the text; it
    fails only with [std::invalid_argument]; and the loop over a conditional
    comment ends by itself, since more turns than the text has bytes do not
    change its result. *)
Theorem span_cstyle_sql_comment_correct stray s off dollar_quote_strings fuel :
  length s < fuel →
  match span_cstyle_sql_comment stray s off dollar_quote_strings with
  | Ok (Some e) => off + 4 ≤ e ≤ length s ∧ substr s (e - 2) 2 = $"*/"
  | Ok None => True
  | Throw e => ∃ m, e = invalid_argument m
  end ∧
  conditional_comment_loop stray fuel s dollar_quote_strings (Some (off + 3)) =
  conditional_comment_loop stray (S (length s)) s dollar_quote_strings (Some (off + 3)).
Proof.
  intros Hf. split; [|apply conditional_comment_loop_fuel; lia].
  unfold span_cstyle_sql_comment. case_bool_decide; [done|]. case_bool_decide.
  - pose proof (conditional_comment_loop_spec stray (S (length s)) s dollar_quote_strings (off + 3)) as H1.
    destruct (conditional_comment_loop _ _ _ _ _) as [[e|]|]; [|done..].
    destruct H1. split; [lia|done].
  - destruct (span_cstyle_comment s off) eqn:E; [|done]. by apply span_cstyle_comment_ends.
Qed.

Lemma span_cstyle_sql_comment_correct_witness :
  let s := $"/*!50000 '*/' x*/ y" in
  span_cstyle_sql_comment (λ _, true) s 0 true = Ok (Some 17) ∧ substr s (17 - 2) 2 = $"*/".
Proof.
  split; [vm_compute; reflexivity|].
  destruct (span_cstyle_sql_comment_correct (λ _, true) ($"/*!50000 '*/' x*/ y") 0 true 100) as [H _].
  { vm_compute. lia. }
  assert (span_cstyle_sql_comment (λ _, true) ($"/*!50000 '*/' x*/ y") 0 true = Ok (Some 17)) as E
    by (vm_compute; reflexivity).
  rewrite E in H. apply H.
Defined.

(** [is_start_of_unquoted_identifier] indexes its table with a [char] converted
    to [int], so a byte above 0x7f reads in front of the table: the end found for
    a conditional comment that contains such a byte depends on what the program
    finds there. *)
Theorem span_cstyle_sql_comment_reads_before_table :
  ∃ s, span_cstyle_sql_comment (λ _, true) s 0 true ≠ span_cstyle_sql_comment (λ _, false) s 0 true.
Proof.
  exists ($"/*!" ++ ["195"%char; "$"%char; "$"%char] ++ $"*/").
  vm_compute. discriminate.
Qed.
