(* ===== verification/SqlIteratorFacts.v ===== *)
(** * The iterator over SQL text: theorems

    What [SQL_iterator] skips, given by the characters: comments, the marks of conditional
    comments and of hints, and quoted parts.  The iterator stops at the first place at which
    none of them begins. *)
From S2P Require Import Prelude UtilsString UtilsStringFacts Lexing LexingFacts.

Open Scope nat_scope.

(** ** Parts of a text *)

(** [t] up to the first occurrence of [pat], and what follows it. *)
Definition up_to (pat t body rest : str) : Prop :=
  t = body ++ pat ++ rest ∧ ∀ a b, t = a ++ pat ++ b → length body ≤ length a.

Definition without (pat t : str) : Prop := ∀ a b, t ≠ a ++ pat ++ b.

(** Characters of the tag of a dollar quote. *)
Definition tag_char (c : ascii) : bool :=
  isalpha c || isdigit c || bool_decide (c = "_"%char) || (128 <=? uch c)%Z.

(** A text that starts with a dollar quote. *)
Definition dollar_quote (r tag t : str) : Prop :=
  r = dollar :: tag ++ dollar :: t ∧ Forall (λ c, tag_char c = true) tag.

Section parts.
Context (skip_quoted dollar_quotes : bool).

(** [part h r r' h']: a text that starts with a part to be skipped, what follows the part, and
    whether the place is in a conditional comment or a hint, before and behind it.  A quote or a
    comment that is not closed extends to the end of the text; a lone dollar sign counts as a
    quote. *)
Inductive part : bool → str → str → bool → Prop :=
| part_string h q r n :
    skip_quoted = true → q = squote ∨ q = dquote → scan_string q r = Some n → part h (q :: r) (drop n r) h
| part_open_string h q r :
    skip_quoted = true → q = squote ∨ q = dquote → scan_string q r = None → part h (q :: r) [] h
| part_name h r n :
    skip_quoted = true → scan_identifier backtick r = Some n → part h (backtick :: r) (drop n r) h
| part_open_name h r :
    skip_quoted = true → scan_identifier backtick r = None → part h (backtick :: r) [] h
| part_comment h t body rest :
    head t ≠ Some "!"%char → head t ≠ Some "+"%char → up_to ($"*/") t body rest → part h ("/"%char :: "*"%char :: t) rest h
| part_open_comment h t :
    head t ≠ Some "!"%char → head t ≠ Some "+"%char → without ($"*/") t → part h ("/"%char :: "*"%char :: t) [] h
| part_hint h c digits rest :
    c = "!"%char ∨ c = "+"%char → Forall (λ d, isdigit d = true) digits → (∀ d, head rest = Some d → isdigit d = false) →
    part h ("/"%char :: "*"%char :: c :: digits ++ rest) rest true
| part_hint_end rest : part true ("*"%char :: "/"%char :: rest) rest false
| part_line h line rest : newline ∉ line → part h ("#"%char :: line ++ newline :: rest) rest h
| part_last_line h line : newline ∉ line → part h ("#"%char :: line) [] h
| part_dashes h c line rest t :
    isspace c = true → newline ∉ line → c :: t = line ++ newline :: rest → part h ("-"%char :: "-"%char :: c :: t) rest h
| part_last_dashes h c t :
    isspace c = true → newline ∉ c :: t → part h ("-"%char :: "-"%char :: c :: t) [] h
| part_dollar h r tag t body rest :
    skip_quoted = true → dollar_quotes = true → dollar_quote r tag t → up_to (dollar :: tag ++ [dollar]) t body rest → part h r rest h
| part_lone_dollar h rest :
    skip_quoted = true → dollar_quotes = true → (∀ c, head rest = Some c → tag_char c = false ∧ c ≠ dollar) →
    part h (dollar :: rest) rest h.

Inductive skipped : bool → str → str → bool → Prop :=
| skipped_nothing h r : skipped h r r h
| skipped_part h r h1 r1 h2 r2 : part h r r1 h1 → skipped h1 r1 r2 h2 → skipped h r r2 h2.

(** The iterator is behind the parts that begin at [start], and no part begins where it is;
    or a dollar quote that has no end is found there, or [start] is behind the text. *)
Definition lands (s : str) (start : nat) (h : bool) (r : result SQL_iterator) : Prop :=
  match r with
  | Ok it => m_s it = s ∧ m_skip_quoted it = skip_quoted ∧ m_dollar_quotes it = dollar_quotes ∧
      ∃ o, m_offset it = Some o ∧ start ≤ o ≤ length s ∧
        skipped h (drop start s) (drop o s) (m_comment_hint it) ∧
        (∀ r' h', ¬ part (m_comment_hint it) (drop o s) r' h')
  | Throw (invalid_argument _) => dollar_quotes = true ∧
      ∃ h' r tag t, skipped h (drop start s) r h' ∧ dollar_quote r tag t ∧ without (dollar :: tag ++ [dollar]) t
  | Throw (out_of_range _) => length s < start
  | Throw _ => False
  end.
End parts.

(** ** Searching *)

Lemma find_sub_up_to pat t :
  match find_sub pat t with
  | Some i => up_to pat t (take i t) (drop (i + length pat) t) ∧ i ≤ length t
  | None => without pat t
  end.
Proof.
  assert (∀ a b, t = a ++ pat ++ b → pat `prefix_of` drop (length a) t) as Hocc.
  { intros a b ->. rewrite drop_app_length. by exists b. }
  destruct (find_sub pat t) as [i|] eqn:E.
  - destruct (find_sub_Some _ _ _ E) as ((k & Hk) & Hi & Hmin). split; [|done]. split.
    + rewrite <- (take_drop i t) at 1. f_equal. rewrite Hk. f_equal. rewrite <- drop_drop, Hk. by rewrite drop_app_length.
    + intros a b Eab. rewrite length_take_le by done. destruct (decide (length a < i)) as [Hlt|]; [|lia].
      by destruct (Hmin _ Hlt (Hocc a b Eab)).
  - intros a b Eab. apply (find_sub_None _ _ E (length a)); [|by eapply Hocc]. rewrite Eab, !length_app. lia.
Qed.

Lemma up_to_unique pat t body rest body' rest' : up_to pat t body rest → up_to pat t body' rest' → rest = rest'.
Proof.
  intros [E1 H1] [E2 H2]. pose proof (H1 _ _ E2). pose proof (H2 _ _ E1). rewrite E1 in E2.
  apply app_inj_1 in E2 as [_ E2]; [|lia]. by apply app_inv_head in E2.
Qed.

(** A line and what follows it. *)
Lemma span_line s k :
  k ≤ length s →
  ((newline ∉ drop k s) ∧ span_to_eol s k = length s) ∨
  ∃ line rest, drop k s = line ++ newline :: rest ∧ (newline ∉ line) ∧ drop (span_to_eol s k) s = rest ∧ k < span_to_eol s k ≤ length s.
Proof.
  intros Hk. unfold span_to_eol, find_char. rewrite from_le by done. destruct (find_if _ (drop k s)) as [i|] eqn:E; cbn [fmap option_fmap option_map].
  - right. apply find_if_Some in E as (c & Hc & Ec%bool_decide_eq_true_1 & Hall). subst c. exists (take i (drop k s)), (drop (S i) (drop k s)).
    rewrite drop_drop. replace (k + S i) with (k + i + 1) by lia. pose proof (lookup_lt_Some _ _ _ Hc) as Hlt. rewrite length_drop in Hlt.
    split_and!; [|intros Hin|done|lia|lia].
    + pose proof (take_drop_middle _ _ _ Hc) as Em. rewrite drop_drop in Em. replace (k + S i) with (k + i + 1) in Em by lia. done.
    + rewrite Forall_forall in Hall. specialize (Hall _ Hin). by rewrite bool_decide_eq_true_2 in Hall.
  - left. apply find_if_None in E. split; [|done]. intros Hin. rewrite Forall_forall in E. specialize (E _ Hin). by rewrite bool_decide_eq_true_2 in E.
Qed.

Lemma line_unique line rest line' rest' :
  newline ∉ line → newline ∉ line' → line ++ newline :: rest = line' ++ newline :: rest' → rest = rest'.
Proof.
  revert line'. induction line as [|c line IH]; intros [|d line'] H1 H2; cbn; intros E.
  - by injection E.
  - injection E as <- _. destruct H2. left.
  - injection E as -> _. destruct H1. left.
  - injection E as _ E. apply not_elem_of_cons in H1 as [_ H1], H2 as [_ H2]. by apply (IH line').
Qed.

Lemma skip_digits_spec t k :
  ∃ digits rest, t = digits ++ rest ∧ skip_digits t k = k + length digits ∧ Forall (λ d, isdigit d = true) digits ∧
    ∀ d, head rest = Some d → isdigit d = false.
Proof.
  revert k. induction t as [|c t IH]; intros k; cbn [skip_digits].
  { exists [], []. split_and!; [done|cbn; lia|constructor|done]. }
  destruct (isdigit c) eqn:E.
  - destruct (IH (S k)) as (ds & rest & -> & Es & Hd & Hr). exists (c :: ds), rest. split_and!; [done|cbn; lia|by constructor|done].
  - exists [], (c :: t). split_and!; [done|cbn; lia|constructor|]. by intros d [= <-].
Qed.

(** ** Dollar signs *)

Lemma tag_table c : bool_decide (table_at k_dollar_quoted_string_span_chars c ≠ 0%Z) = tag_char c.
Proof. by_bytes c. Qed.

Lemma tag_not_dollar c : tag_char c = true → c ≠ dollar.
Proof. by_bytes c. Qed.

Lemma identifier_chars c : tag_char c = false → c ≠ dollar → mem_chars k_identifier_chars c = false ∧ (uch c <=? 0x7f)%Z = true.
Proof. by_bytes c. Qed.

(** An identifier ends before a character that is not one of its characters. *)
Lemma identifier_ends s o k c :
  s !! k = Some c → o < k → tag_char c = false → c ≠ dollar → span_unquoted_identifier s o ≤ k.
Proof.
  intros Hk Ho Htag Hd. destruct (identifier_chars c Htag Hd) as [Hmem Hascii]. pose proof (lookup_lt_Some _ _ _ Hk) as Hlt.
  unfold span_unquoted_identifier.
  assert (∀ fuel o, o < k → k - o < fuel → span_unquoted_identifier_loop fuel s o ≤ k) as H; [|by apply H; lia].
  clear o Ho. induction fuel as [|fuel IH]; intros o Ho Hf; [lia|]. cbn [span_unquoted_identifier_loop]. unfold find_first_not_of.
  rewrite from_le by lia. destruct (find_if _ (drop (o + 1) s)) as [i|] eqn:E; cbn [fmap option_fmap option_map].
  - apply find_if_Some in E as (d & Hi & Pd & Hall). rewrite lookup_drop in Hi.
    assert (o + 1 + i ≤ k) as Hle.
    { destruct (decide (o + 1 + i ≤ k)) as [|Hgt]; [done|]. exfalso. rewrite Forall_lookup in Hall.
      specialize (Hall (k - (o + 1)) c). rewrite lookup_take, lookup_drop in Hall by lia. rewrite decide_True in Hall by lia.
      replace (o + 1 + (k - (o + 1))) with k in Hall by lia. specialize (Hall Hk). by rewrite Hmem in Hall. }
    rewrite bool_decide_eq_false_2 by lia. destruct (uch (char_at s (o + 1 + i)) <=? 0x7f)%Z eqn:Eu; [done|].
    apply IH; [|lia]. destruct (decide (o + 1 + i = k)) as [Ek|]; [|lia]. exfalso. rewrite Ek in Eu. unfold char_at in Eu. rewrite Hk in Eu.
    cbn in Eu. by rewrite Hascii in Eu.
  - apply find_if_None in E. rewrite Forall_lookup in E. specialize (E (k - (o + 1)) c). rewrite lookup_drop in E.
    replace (o + 1 + (k - (o + 1))) with k in E by lia. specialize (E Hk). by rewrite Hmem in E.
Qed.

(** The first dollar sign ends the tag. *)
Lemma tag_unique (tag t tag' t' : str) :
  dollar ∉ tag → dollar ∉ tag' → tag ++ dollar :: t = tag' ++ dollar :: t' → tag = tag' ∧ t = t'.
Proof.
  revert tag'. induction tag as [|c tag IH]; intros [|d tag'] H1 H2; cbn; intros E.
  - by injection E.
  - injection E as <- _. destruct H2. left.
  - injection E as -> _. destruct H1. left.
  - injection E as -> E. apply not_elem_of_cons in H1 as [_ H1], H2 as [_ H2]. by destruct (IH tag' H1 H2 E) as [-> ->].
Qed.

Lemma tag_no_dollar tag : Forall (λ c, tag_char c = true) tag → dollar ∉ tag.
Proof. intros H Hin. rewrite Forall_forall in H. by apply H, tag_not_dollar in Hin. Qed.

Lemma identifier_loop_range fuel s o : o < length s → o < span_unquoted_identifier_loop fuel s o ≤ length s.
Proof.
  revert o. induction fuel as [|fuel IH]; intros o Ho; cbn [span_unquoted_identifier_loop]; [lia|].
  destruct (find_first_not_of _ _ _) as [p|] eqn:E; [|lia]. apply from_find_if_range in E as [Hp _]. case_bool_decide; [lia|].
  destruct (_ <=? _)%Z; [lia|]. specialize (IH p). lia.
Qed.

(** An identifier has at least the character behind the dollar sign, if it is one of its
    characters. *)
Lemma identifier_continues s o c : s !! (o + 1) = Some c → tag_char c = true → o + 1 < span_unquoted_identifier s o.
Proof.
  intros Hc Ht. pose proof (lookup_lt_Some _ _ _ Hc) as Hlt. unfold span_unquoted_identifier. cbn [span_unquoted_identifier_loop].
  assert (tag_char c = true → mem_chars k_identifier_chars c = true ∨ (uch c <=? 0x7f)%Z = false) as Hch by (clear; by_bytes c).
  destruct (find_first_not_of s k_identifier_chars (o + 1)) as [p|] eqn:E; [|lia].
  apply from_find_if_range in E as (Hp & d & Hd & Pd). case_bool_decide; [lia|].
  destruct (decide (p = o + 1)) as [->|]; [|destruct (uch (char_at s p) <=? 0x7f)%Z; [lia|]; pose proof (identifier_loop_range (length s) s p ltac:(lia)); lia].
  assert (c = d) as -> by congruence. apply negb_true_iff in Pd. destruct (Hch Ht) as [?|Hu]; [congruence|].
  unfold char_at. rewrite Hd. cbn [default id]. unfold id. rewrite Hu. pose proof (identifier_loop_range (length s) s (o + 1) Hlt). lia.
Qed.

(** What is found behind a dollar sign: a tag and a second dollar sign, nothing that could be
    part of a name, or a name. *)
Inductive behind_dollar (s : str) (o : nat) : Prop :=
| behind_tag tag t :
    dollar_quote (drop o s) tag t →
    match span_dollar_quoted_string_or_dollar_identifier s o with
    | Ok p => ∃ body, up_to (dollar :: tag ++ [dollar]) t body (drop p s) ∧ o < p ≤ length s ∧ char_at s (p - 1) = dollar
    | Throw e => without (dollar :: tag ++ [dollar]) t ∧ ∃ m, e = invalid_argument m
    end → behind_dollar s o
| behind_nothing :
    (∀ c, head (drop (o + 1) s) = Some c → tag_char c = false ∧ c ≠ dollar) →
    span_dollar_quoted_string_or_dollar_identifier s o = Ok (o + 1) → behind_dollar s o
| behind_name c p :
    s !! (o + 1) = Some c → tag_char c = true → (∀ tag t, ¬ dollar_quote (drop o s) tag t) →
    span_dollar_quoted_string_or_dollar_identifier s o = Ok p → char_at s (p - 1) ≠ dollar → behind_dollar s o.

Lemma head_drop (s : str) k : head (drop k s) = s !! k.
Proof. revert k. induction s as [|c s IH]; intros [|k]; cbn; [done..|]. apply IH. Qed.

(** A name that is not a tag: some character before the next dollar sign, at [k], ends it. *)
Lemma not_a_tag s o p :
  s !! o = Some dollar → span_dollar_quoted_string_or_dollar_identifier s o = Ok p → p = span_unquoted_identifier s o →
  (∀ tag t, ¬ dollar_quote (drop o s) tag t) → (∀ k, o < k < p → s !! k ≠ Some dollar) → behind_dollar s o.
Proof.
  intros Hd Ep Es Hno Hk. pose proof (lookup_lt_Some _ _ _ Hd) as Hlt. pose proof (span_unquoted_identifier_range s o Hlt) as Hr.
  destruct (s !! (o + 1)) as [c|] eqn:Ec.
  - destruct (tag_char c) eqn:Et.
    + pose proof (identifier_continues s o c Ec Et). eapply behind_name; [done|done|done|done|]. intros E. apply (Hk (p - 1)); [lia|].
      unfold char_at in E. destruct (lookup_lt_is_Some_2 s (p - 1)) as [x Hx]; [lia|]. rewrite Hx in E |- *. cbn in E. by rewrite E.
    + assert (c ≠ dollar) as Hcd.
      { intros ->. apply (Hno [] (drop (o + 2) s)). split; [|constructor]. rewrite (drop_S _ _ _ Hd). cbn [app]. f_equal.
        replace (S o) with (o + 1) by lia. rewrite (drop_S _ _ _ Ec). do 2 f_equal. lia. }
      pose proof (identifier_ends s o (o + 1) c Ec ltac:(lia) Et Hcd). apply behind_nothing.
      * rewrite head_drop, Ec. by intros ? [= <-].
      * rewrite Ep. f_equal. lia.
  - apply lookup_ge_None in Ec. apply behind_nothing; [by rewrite drop_ge by lia|]. rewrite Ep. f_equal. lia.
Qed.

Lemma dollar_spec s o : s !! o = Some dollar → behind_dollar s o.
Proof.
  intros Hd. pose proof (lookup_lt_Some _ _ _ Hd) as Hlt. pose proof (drop_S _ _ _ Hd) as Es.
  assert (span_dollar_quoted_string_or_dollar_identifier s o = span_dollar_quoted_string_or_dollar_identifier s o) as Espan by done.
  unfold span_dollar_quoted_string_or_dollar_identifier in Espan at 2. unfold find_char in Espan. rewrite from_le in Espan by lia.
  replace (o + 1) with (S o) in Espan by lia. set (t := drop (S o) s) in *.
  destruct (find_if (λ d, bool_decide (d = dollar)) t) as [i|] eqn:E; cbn [fmap option_fmap option_map] in Espan.
  - apply find_if_Some in E as (c & Hi & Ec%bool_decide_eq_true_1 & Hall). subst c. pose proof (lookup_lt_Some _ _ _ Hi) as Hil.
    set (tag := take i t). set (rest := drop (S i) t). pose proof (take_drop_middle _ _ _ Hi) as Et. fold tag rest in Et.
    assert (dollar ∉ tag) as Hnd. { intros Hin. rewrite Forall_forall in Hall. specialize (Hall _ Hin). by rewrite bool_decide_eq_true_2 in Hall. }
    assert (length tag = i) as Hlen by (unfold tag; apply length_take_le; lia).
    assert (substr s o (S o + i + 1 - o) = dollar :: tag ++ [dollar]) as Etag.
    { unfold substr. rewrite Es, <- Et. replace (S o + i + 1 - o) with (S (i + 1)) by lia. cbn [take]. f_equal.
      rewrite take_app_ge by lia. rewrite Hlen. by replace (i + 1 - i) with 1 by lia. }
    rewrite Etag in Espan.
    assert (substr (dollar :: tag ++ [dollar]) 1 (length (dollar :: tag ++ [dollar]) - 2) = tag) as Ein.
    { unfold substr. cbn [drop length]. rewrite drop_0, length_app. cbn [length]. rewrite take_app_length'; [done|lia]. }
    rewrite Ein in Espan. unfold is_dollar_quote_tag in Espan. destruct (forallb _ tag) eqn:Ev; cbn [negb] in Espan.
    + assert (Forall (λ c, tag_char c = true) tag) as Hv.
      { apply Forall_forall. intros c Hc. rewrite forallb_forall in Ev. rewrite <- tag_table. by apply Ev, list_elem_of_In. }
      apply (behind_tag s o tag rest); [split; [by rewrite Es, <- Et|done]|]. rewrite Espan.
      set (pat := dollar :: tag ++ [dollar]). unfold find_str. assert (length pat = i + 2) as Hpat by (unfold pat; cbn; rewrite length_app; cbn; lia).
      assert (length s = S o + length t) as Hls by (unfold t; rewrite length_drop; lia). rewrite from_le by lia.
      assert (drop (o + length pat) s = rest) as Edrop.
      { unfold rest, t. rewrite drop_drop. f_equal. lia. }
      rewrite Edrop. pose proof (find_sub_up_to pat rest) as Hf. assert (length rest = length t - S i) as Hlr by (unfold rest; by rewrite length_drop).
      destruct (find_sub pat rest) as [j|]; cbn [fmap option_fmap option_map]; [|split; [done|by eexists]].
      destruct Hf as [Hf Hj]. exists (take j rest). split_and!; [|lia| |].
      * assert (drop (j + length pat) rest = drop (o + length pat + j + length pat) s) as Erest by (rewrite <- Edrop, drop_drop; f_equal; lia).
        by rewrite Erest in Hf.
      * destruct Hf as [Hf _]. apply (f_equal length) in Hf. rewrite !length_app, length_take_le in Hf by lia. lia.
      * assert (s !! (o + length pat + j + length pat - 1) = Some dollar) as Hlast; [|unfold char_at; by rewrite Hlast].
        assert (rest !! (j + (length pat - 1)) = Some dollar) as Hr.
        { destruct Hf as [Hf _]. rewrite Hf. rewrite lookup_app_r by (rewrite length_take; lia). rewrite length_take_le by lia.
          replace (j + (length pat - 1) - j) with (S i) by lia. 
          rewrite lookup_app_l by lia. unfold pat. change ((tag ++ [dollar]) !! i = Some dollar). rewrite lookup_app_r by lia.
          by replace (i - length tag) with 0 by lia. }
        rewrite <- Edrop, lookup_drop in Hr. by replace (o + length pat + j + length pat - 1) with (o + length pat + (j + (length pat - 1))) by lia.
    + apply not_true_iff_false in Ev. assert (∃ k c, tag !! k = Some c ∧ tag_char c = false) as (k & c & Hk & Hc).
      { assert (Exists (λ c, tag_char c = false) tag) as Hex.
        { apply Exists_exists. destruct (decide (Forall (λ c, tag_char c = true) tag)) as [Hf|Hf].
          - exfalso. apply Ev. rewrite forallb_forall. intros c Hc. rewrite tag_table. rewrite Forall_forall in Hf. apply Hf. by apply list_elem_of_In.
          - apply not_Forall_Exists in Hf; [|solve_decision]. apply Exists_exists in Hf as (c & Hin & Hc). exists c. split; [done|].
            by apply not_true_iff_false. }
        apply Exists_exists in Hex as (c & [k Hk]%list_elem_of_lookup & Hc). by exists k, c. }
      assert (s !! (S o + k) = Some c ∧ k < i) as [Hsk Hki].
      { pose proof (lookup_lt_Some _ _ _ Hk) as Hkl. split; [|lia]. rewrite <- lookup_drop. fold t. rewrite <- Et. by apply lookup_app_l_Some. }
      assert (c ≠ dollar) as Hcd. { intros ->. apply Hnd. by eapply list_elem_of_lookup_2. }
      eapply not_a_tag; [done|done|done| |].
      * intros tag' t' [E' Hv]. rewrite Es, <- Et in E'. injection E' as E'. apply tag_unique in E' as [<- _]; [|done|by apply tag_no_dollar].
        rewrite Forall_lookup in Hv. apply Hv in Hk. congruence.
      * intros j Hj Ej. pose proof (identifier_ends s o (S o + k) c Hsk ltac:(lia) Hc Hcd).
        apply Hnd. unfold tag. apply list_elem_of_lookup. exists (j - S o). rewrite lookup_take, decide_True by lia. unfold t. rewrite lookup_drop.
        by replace (S o + (j - S o)) with j by lia.
  - apply find_if_None in E. assert (dollar ∉ t) as Hnd.
    { intros Hin. rewrite Forall_forall in E. specialize (E _ Hin). by rewrite bool_decide_eq_true_2 in E. }
    eapply not_a_tag; [done|done|done| |].
    + intros tag t' [E' _]. rewrite Es in E'. injection E' as E'. apply Hnd. rewrite E'. apply elem_of_app. right. left.
    + intros j Hj Ej. apply Hnd. apply list_elem_of_lookup. exists (j - S o). unfold t. rewrite lookup_drop. by replace (S o + (j - S o)) with j by lia.
Qed.

(** ** One turn of the loop *)

Lemma part_inv sq dq h c t r' h' :
  part sq dq h (c :: t) r' h' →
  (sq = true ∧ (c = squote ∨ c = dquote ∨ c = backtick)) ∨ (c = "/"%char ∧ head t = Some "*"%char) ∨
  (c = "*"%char ∧ h = true ∧ head t = Some "/"%char) ∨ c = "#"%char ∨
  (c = "-"%char ∧ ∃ d t', t = "-"%char :: d :: t' ∧ isspace d = true) ∨
  (c = dollar ∧ sq = true ∧ dq = true ∧
   ((∃ tag t', dollar_quote (c :: t) tag t') ∨ ∀ d, head t = Some d → tag_char d = false ∧ d ≠ dollar)).
Proof.
  intros H. remember (c :: t) as r eqn:Er. destruct H as [h q r n Hs Hq _|h q r Hs Hq _|h r n Hs _|h r Hs _|h u body rest _ _ _|h u _ _ _
    |h x digits rest _ _ _|rest|h line rest _|h line _|h x line rest u Hx _ _|h x u Hx _|h r tag u body rest Hs Hd Hq _|h rest Hs Hd Hn];
    try (injection Er as <- <-).
  - left. split; [done|]. destruct Hq; tauto.
  - left. split; [done|]. destruct Hq; tauto.
  - left. split; [done|]. tauto.
  - left. split; [done|]. tauto.
  - right; left. done.
  - right; left. done.
  - right; left. done.
  - do 2 right; left. done.
  - do 3 right; left. done.
  - do 3 right; left. done.
  - do 4 right; left. split; [done|]. by eexists _, _.
  - do 4 right; left. split; [done|]. by eexists _, _.
  - do 5 right. subst r. pose proof Hq as [E _]. injection E as -> _. split_and!; try done. left. by exists tag, u.
  - do 5 right. split_and!; try done. by right.
Qed.

(** Every place has at most one part that begins there. *)
Lemma digits_unique (ds rest ds' rest' : str) :
  Forall (λ d, isdigit d = true) ds → Forall (λ d, isdigit d = true) ds' →
  (∀ d, head rest = Some d → isdigit d = false) → (∀ d, head rest' = Some d → isdigit d = false) →
  ds ++ rest = ds' ++ rest' → rest = rest'.
Proof.
  intros Hd. revert ds'. induction Hd as [|d ds Hd _ IH]; intros ds' Hd' H1 H2 E; destruct Hd' as [|d' ds' Hd' Hds']; cbn in E.
  - done.
  - subst rest. specialize (H1 _ eq_refl). congruence.
  - subst rest'. specialize (H2 _ eq_refl). congruence.
  - injection E as _ E. by apply (IH ds').
Qed.

Lemma no_newline_app (l line rest : str) : newline ∉ l → l = line ++ newline :: rest → False.
Proof. intros H ->. apply H, elem_of_app. right. left. Qed.

Lemma up_to_without pat t body rest : up_to pat t body rest → without pat t → False.
Proof. intros [E _] H. by apply (H body rest). Qed.

Lemma dollar_unique r tag t tag' t' : dollar_quote r tag t → dollar_quote r tag' t' → tag = tag' ∧ t = t'.
Proof. intros [-> H1] [E H2]. injection E as E. apply tag_unique; [by apply tag_no_dollar..|done]. Qed.

Lemma dollar_not_lone rest tag t :
  dollar_quote (dollar :: rest) tag t → (∀ c, head rest = Some c → tag_char c = false ∧ c ≠ dollar) → False.
Proof.
  intros [[= E] Ht] Hl. subst rest. destruct tag as [|c tag]; cbn in Hl.
  - by destruct (Hl dollar).
  - destruct (Hl c) as [Hc _]; [done|]. inversion Ht. congruence.
Qed.

Lemma dollar_head c r tag t : dollar_quote (c :: r) tag t → c = dollar.
Proof. intros [E _]. by injection E. Qed.

Lemma part_unique sq dq h r r1 h1 r2 h2 : part sq dq h r r1 h1 → part sq dq h r r2 h2 → r1 = r2 ∧ h1 = h2.
Proof.
  intros H1 H2; destruct H1; inversion H2; subst; clear H2; try done;
    repeat match goal with
    | H : _ ∨ _ |- _ => destruct H
    | H : dollar_quote (_ :: _) _ _, H' : ∀ c, _ |- _ => destruct (dollar_not_lone _ _ _ H H')
    | H : dollar_quote (_ :: _) _ _ |- _ => pose proof (dollar_head _ _ _ _ H) as ?; revert H
    end; simplify_eq; try done; intros;
    repeat match goal with
    | H : up_to ?p ?t _ _, H' : without ?p ?t |- _ => destruct (up_to_without _ _ _ _ H H')
    | H : dollar_quote (_ :: _) _ _, H' : ∀ c, _ |- _ => destruct (dollar_not_lone _ _ _ H H')
    | E : ?a :: ?r = _, E' : ?a :: ?r = _ |- _ => rewrite E in E'
    | H : newline ∉ ?l, H' : newline ∉ ?l', E : ?l ++ newline :: _ = ?l' ++ newline :: _ |- _ =>
        pose proof (line_unique _ _ _ _ H H' E); clear E
    | H : newline ∉ ?l, E : ?l = _ ++ newline :: _ |- _ => destruct (no_newline_app _ _ _ H E)
    | H : newline ∉ _ ++ newline :: _ |- _ => destruct (no_newline_app _ _ _ H eq_refl)
    | H : dollar_quote ?r _ _, H' : dollar_quote ?r _ _ |- _ => destruct (dollar_unique _ _ _ _ _ H H'); clear H'; subst
    end; (split; [|done]); eauto using up_to_unique, digits_unique.
Qed.

(** The step moves over a part, stops where no part begins, or finds a dollar quote without
    end. *)
Definition step_ok (it : SQL_iterator) (o : nat) (r : result (SQL_iterator * bool)) : Prop :=
  let p := part (m_skip_quoted it) (m_dollar_quotes it) in
  match r with
  | Ok (it', true) => it' = it ∧ ∀ r' h', ¬ p (m_comment_hint it) (drop o (m_s it)) r' h'
  | Ok (it', false) => same_text it it' ∧
      let e := default (length (m_s it)) (m_offset it') in
      o < e ≤ length (m_s it) ∧ p (m_comment_hint it) (drop o (m_s it)) (drop e (m_s it)) (m_comment_hint it')
  | Throw e => m_dollar_quotes it = true ∧ (∃ m, e = invalid_argument m) ∧
      ∃ tag t, dollar_quote (drop o (m_s it)) tag t ∧ without (dollar :: tag ++ [dollar]) t
  end.

Section step.
Context (it : SQL_iterator) (o : nat) (c : ascii).
Context (Hc : m_s it !! o = Some c).

Let Hlt : o < length (m_s it).
Proof. by eapply lookup_lt_Some. Qed.

Let Es : drop o (m_s it) = c :: drop (o + 1) (m_s it).
Proof. rewrite (drop_S _ _ _ Hc). by replace (S o) with (o + 1) by lia. Qed.

Lemma stops_ok :
  (∀ r' h', ¬ part (m_skip_quoted it) (m_dollar_quotes it) (m_comment_hint it) (c :: drop (o + 1) (m_s it)) r' h') →
  step_ok it o (Ok (it, true)).
Proof. intros H. split; [done|]. by rewrite Es. Qed.

Lemma moves_ok h p :
  let e := default (length (m_s it)) p in
  o < e ≤ length (m_s it) →
  part (m_skip_quoted it) (m_dollar_quotes it) (m_comment_hint it) (c :: drop (o + 1) (m_s it)) (drop e (m_s it)) h →
  step_ok it o (Ok (set_offset (set_hint it h) p, false)).
Proof. intros e He Hp. split; [done|]. cbn. rewrite Es. done. Qed.

(** Parts that end at a place, or extend to the end. *)
Lemma moves_over (p : option nat) :
  (∀ e, p = Some e → o < e ≤ length (m_s it) ∧
    part (m_skip_quoted it) (m_dollar_quotes it) (m_comment_hint it) (c :: drop (o + 1) (m_s it)) (drop e (m_s it)) (m_comment_hint it)) →
  (p = None → part (m_skip_quoted it) (m_dollar_quotes it) (m_comment_hint it) (c :: drop (o + 1) (m_s it)) [] (m_comment_hint it)) →
  step_ok it o (Ok (set_offset it p, false)).
Proof.
  intros H1 H2. assert (it = set_hint it (m_comment_hint it)) as Eit by (by destruct it). rewrite Eit at 2.
  destruct p as [e|]; apply moves_ok; cbn.
  - by apply H1.
  - by apply H1.
  - lia.
  - rewrite drop_all. by apply H2.
Qed.

Lemma quoted_ok (q : ascii) span :
  c = q → q = squote ∨ q = dquote → m_skip_quoted it = true →
  span = (λ n, o + 1 + n) <$> scan_string q (drop (o + 1) (m_s it)) → step_ok it o (Ok (set_offset it span, false)).
Proof.
  intros Ec Hq Hs ->. apply moves_over.
  - intros e He. apply fmap_Some in He as (n & Hn & ->). pose proof (scan_string_range _ _ _ Hn) as Hr. rewrite length_drop in Hr.
    split; [lia|]. replace (drop (o + 1 + n) (m_s it)) with (drop n (drop (o + 1) (m_s it))) by (by rewrite drop_drop). rewrite Ec; by apply part_string.
  - intros He. apply fmap_None in He. rewrite Ec; by apply part_open_string.
Qed.

Lemma name_ok : c = backtick → m_skip_quoted it = true → step_ok it o (Ok (set_offset it (span_quoted_sql_identifier_bt (m_s it) o), false)).
Proof.
  intros Ec Hs. rewrite span_bt_scan by apply Hlt. apply moves_over.
  - intros e He. apply fmap_Some in He as (n & Hn & ->). pose proof (scan_identifier_range _ _ _ Hn) as Hr. rewrite length_drop in Hr.
    split; [lia|]. replace (drop (o + 1 + n) (m_s it)) with (drop n (drop (o + 1) (m_s it))) by (by rewrite drop_drop). rewrite Ec; by apply part_name.
  - intros He. apply fmap_None in He. rewrite Ec; by apply part_open_name.
Qed.

(** The second character, and the text behind it. *)
Lemma second d : m_s it !! (o + 1) = Some d → drop (o + 1) (m_s it) = d :: drop (o + 2) (m_s it).
Proof. intros Hd. rewrite (drop_S _ _ _ Hd). by replace (S (o + 1)) with (o + 2) by lia. Qed.

Lemma comment_ok :
  c = "/"%char → m_s it !! (o + 1) = Some "*"%char → m_s it !! (o + 2) ≠ Some "!"%char → m_s it !! (o + 2) ≠ Some "+"%char →
  step_ok it o (Ok (set_offset it (span_cstyle_comment (m_s it) o), false)).
Proof.
  intros Ec Hd H1 H2. pose proof (lookup_lt_Some _ _ _ Hd) as Hlt1. rewrite <- head_drop in H1, H2. unfold span_cstyle_comment.
  assert (bool_decide (length (m_s it) < 4) = true → without ($"*/") (drop (o + 2) (m_s it))) as Hshort.
  { intros Hl%bool_decide_eq_true_1 a b E. apply (f_equal length) in E. rewrite length_drop, !length_app in E. cbn in E. lia. }
  destruct (bool_decide (length (m_s it) < 4)).
  - apply moves_over; [done|]. intros _. rewrite (second _ Hd). rewrite Ec. apply part_open_comment; auto.
  - unfold find_str. rewrite from_le by lia. pose proof (find_sub_up_to ($"*/") (drop (o + 2) (m_s it))) as Hf.
    destruct (find_sub _ _) as [i|] eqn:Ei; cbn [fmap option_fmap option_map].
    + apply moves_over; [|done]. intros e [= <-]. apply find_sub_le in Ei. rewrite length_drop in Ei. cbn in Ei. split; [lia|].
      rewrite (second _ Hd). destruct Hf as [Hf _]. rewrite drop_drop in Hf. change (length ($"*/")) with 2 in Hf.
      replace (o + 2 + (i + 2)) with (o + 2 + i + 2) in Hf by lia. rewrite Ec; by eapply part_comment.
    + apply moves_over; [done|]. intros _. rewrite (second _ Hd). rewrite Ec; by apply part_open_comment.
Qed.

Lemma hint_ok d :
  c = "/"%char → m_s it !! (o + 1) = Some "*"%char → m_s it !! (o + 2) = Some d → d = "!"%char ∨ d = "+"%char →
  step_ok it o (Ok (set_offset (set_hint it true) (Some (skip_digits (drop (o + 3) (m_s it)) (o + 3))), false)).
Proof.
  intros Ec Hs Ht Hd. pose proof (lookup_lt_Some _ _ _ Ht) as Hl. destruct (skip_digits_spec (drop (o + 3) (m_s it)) (o + 3)) as (ds & rest & E & -> & Hds & Hr).
  pose proof (f_equal length E) as El. rewrite length_drop, length_app in El. apply moves_ok; cbn; [lia|].
  assert (drop (o + 3 + length ds) (m_s it) = rest) as -> by (by rewrite <- drop_drop, E, drop_app_length).
  rewrite (second _ Hs), (drop_S _ _ _ Ht). replace (S (o + 2)) with (o + 3) by lia. rewrite E. rewrite Ec; by apply part_hint.
Qed.

Lemma line_ok : c = "#"%char → step_ok it o (Ok (set_offset it (Some (span_to_eol (m_s it) (o + 1))), false)).
Proof.
  intros Ec. apply moves_over; [|done]. intros e [= <-]. pose proof Hlt.
  destruct (span_line (m_s it) (o + 1)) as [[Hn ->]|(line & rest & E & Hn & Er & Hr)]; [lia|..].
  - rewrite drop_all. split; [lia|]. rewrite Ec; by apply part_last_line.
  - rewrite E, Er. split; [lia|]. rewrite Ec; by apply part_line.
Qed.

Lemma dashes_ok :
  c = "-"%char → o + 2 < length (m_s it) → char_at (m_s it) (o + 1) = "-"%char → isspace (char_at (m_s it) (o + 2)) = true →
  step_ok it o (Ok (set_offset it (Some (span_to_eol (m_s it) (o + 2))), false)).
Proof.
  intros Ec Hl H1 H2. destruct (lookup_lt_is_Some_2 (m_s it) (o + 1)) as [d Hd]; [lia|].
  destruct (lookup_lt_is_Some_2 (m_s it) (o + 2)) as [x Hx]; [lia|]. unfold char_at in H1, H2. rewrite Hd in H1. rewrite Hx in H2.
  cbn in H1, H2. subst d. apply moves_over; [|done]. intros e [= <-]. pose proof (drop_S _ _ _ Hx) as Ex.
  destruct (span_line (m_s it) (o + 2)) as [[Hn ->]|(line & rest & E & Hn & Er & Hr)]; [lia|..].
  - rewrite drop_all, (second _ Hd), Ex. split; [lia|]. rewrite Ec. apply part_last_dashes; [done|]. by rewrite <- Ex.
  - rewrite Er, (second _ Hd), Ex. split; [lia|]. rewrite Ec; eapply part_dashes; [done|done|]. by rewrite <- Ex.
Qed.

Lemma hint_end_ok :
  c = "*"%char → m_comment_hint it = true → m_s it !! (o + 1) = Some "/"%char →
  step_ok it o (Ok (set_offset (set_hint it false) (Some (o + 2)), false)).
Proof.
  intros Ec Hh Hd. pose proof (lookup_lt_Some _ _ _ Hd). apply moves_ok; cbn; [lia|]. rewrite Hh, (second _ Hd). rewrite Ec. apply part_hint_end.
Qed.

Lemma dollar_ok :
  c = dollar →
  step_ok it o
    (if m_dollar_quotes it then
       p ← span_dollar_quoted_string_or_dollar_identifier (m_s it) o;
       if bool_decide (char_at (m_s it) (p - 1) = dollar) && bool_decide (o < p) && m_skip_quoted it
       then Ok (set_offset it (Some p), false) else Ok (it, true)
     else Ok (it, true)).
Proof.
  intros Ec. pose proof Hlt as Hl. pose proof Hc as Hcd. rewrite Ec in Hcd.
  assert (m_skip_quoted it = false ∨ m_dollar_quotes it = false → step_ok it o (Ok (it, true))) as Hoff.
  { intros Hf. apply stops_ok. intros r' h' Hp'%part_inv. rewrite Ec in Hp'. destruct Hp' as [H|[H|[H|[H|[H|H]]]]]; try done; try (by destruct H as [? _]); [by destruct H as [_ [H|[H|H]]]|].
    destruct H as (_ & H1 & H2 & _). destruct Hf; congruence. }
  destruct (m_dollar_quotes it) eqn:Edq; [|apply Hoff; by right].
  destruct (m_skip_quoted it) eqn:Esq.
  - destruct (dollar_spec (m_s it) o Hcd) as [tag t Hq Hsp|Hn Hsp|d p Hd Ht Hno Hsp Hp].
    + destruct (span_dollar_quoted_string_or_dollar_identifier (m_s it) o) as [p|e]; cbn [mbind result_bind].
      * destruct Hsp as (body & Hup & Hr & Hch). rewrite !bool_decide_eq_true_2 by (done || lia). cbn [andb].
        apply moves_over; [|done]. intros e [= <-]. split; [lia|]. rewrite <- Es. by eapply part_dollar.
      * destruct Hsp as [Hw Hm]. split_and!; [done|done|]. by exists tag, t.
    + rewrite Hsp. cbn [mbind result_bind]. unfold char_at. replace (o + 1 - 1) with o by lia. rewrite Hcd. cbn [default].
      rewrite !bool_decide_eq_true_2 by (done || lia). cbn [andb]. apply moves_over; [|done]. intros e [= <-]. split; [lia|].
      rewrite Ec; by apply part_lone_dollar.
    + rewrite Hsp. cbn [mbind result_bind]. rewrite bool_decide_eq_false_2 by done. cbn [andb]. apply stops_ok.
      intros r' h' Hp'%part_inv. rewrite Ec in Hp'. destruct Hp' as [H|[H|[H|[H|[H|H]]]]]; try done; try (by destruct H as [? _]); [by destruct H as [_ [H|[H|H]]]|].
      destruct H as (_ & _ & _ & [(tag & t & H)|H]); [rewrite <- Ec, <- Es in H; by apply (Hno tag t)|].
      destruct (H d) as [Hx _]; [by rewrite head_drop|congruence].
  - destruct (dollar_spec (m_s it) o Hcd) as [tag t Hq Hsp|Hn Hsp|d p Hd Ht Hno Hsp Hp].
    + destruct (span_dollar_quoted_string_or_dollar_identifier (m_s it) o) as [p|e]; cbn [mbind result_bind].
      * rewrite andb_false_r. apply Hoff. by left.
      * destruct Hsp as [Hw Hm]. split_and!; [done|done|]. by exists tag, t.
    + rewrite Hsp. cbn [mbind result_bind]. rewrite andb_false_r. apply Hoff. by left.
    + rewrite Hsp. cbn [mbind result_bind]. rewrite andb_false_r. apply Hoff. by left.
Qed.

Lemma increment_step_ok : step_ok it o (increment_step it o c).
Proof.
  assert (∀ r' h', (c = squote ∨ c = dquote ∨ c = backtick) → m_skip_quoted it = false →
    ¬ part (m_skip_quoted it) (m_dollar_quotes it) (m_comment_hint it) (c :: drop (o + 1) (m_s it)) r' h') as Hquote.
  { intros r' h' Hq Hs [H|[H|[H|[H|[H|H]]]]]%part_inv; [by destruct H; congruence|..]; destruct_and?; destruct_or!; subst; done. }
  unfold increment_step. case_bool_decide as E1.
  { destruct (m_skip_quoted it) eqn:Es1; [apply (quoted_ok squote); auto using span_sq_scan|]. apply stops_ok. rewrite ?Es1. intros r' h'. apply Hquote; auto. }
  case_bool_decide as E2.
  { destruct (m_skip_quoted it) eqn:Es1; [apply (quoted_ok dquote); auto using span_dq_scan|]. apply stops_ok. rewrite ?Es1. intros r' h'. apply Hquote; auto. }
  case_bool_decide as E3.
  { destruct (m_skip_quoted it) eqn:Es1; [by apply name_ok|]. apply stops_ok. rewrite ?Es1. intros r' h'. apply Hquote; auto. }
  case_bool_decide as E4.
  { case_bool_decide as E5.
    - destruct (_ || _) eqn:Eh.
      + apply orb_true_iff in Eh as [Eh%bool_decide_eq_true_1|Eh%bool_decide_eq_true_1]; (eapply hint_ok; eauto).
      + apply orb_false_iff in Eh as [Eh1%bool_decide_eq_false_1 Eh2%bool_decide_eq_false_1]. by apply comment_ok.
    - apply stops_ok. intros r' h' [H|[H|[H|[H|[H|H]]]]]%part_inv; destruct_and?; destruct_or?; subst; try done.
      rewrite head_drop in *. done. }
  case_bool_decide as E5.
  { destruct (_ && _) eqn:Eh.
    - apply andb_true_iff in Eh as [Eh1 Eh2%bool_decide_eq_true_1]. by apply hint_end_ok.
    - apply stops_ok. intros r' h' [H|[H|[H|[H|[H|H]]]]]%part_inv; destruct_and?; destruct_or?; subst; try done.
      rewrite head_drop in *. apply not_true_iff_false in Eh. apply Eh. apply andb_true_iff. split; [done|by apply bool_decide_eq_true_2]. }
  case_bool_decide as E6; [by apply line_ok|].
  case_bool_decide as E7.
  { destruct (_ && _) eqn:Eh.
    - apply andb_true_iff in Eh as [[Eh1%bool_decide_eq_true_1 Eh2%bool_decide_eq_true_1]%andb_true_iff Eh3]. by apply dashes_ok.
    - apply stops_ok. intros r' h' [H|[H|[H|[H|[H|H]]]]]%part_inv; destruct_and?; destruct_or?; subst; try done.
      match goal with H : ∃ d t', _ |- _ => destruct H as (d & t & E & Hd) end. apply not_true_iff_false in Eh. apply Eh.
      assert (m_s it !! (o + 1) = Some "-"%char ∧ m_s it !! (o + 2) = Some d) as [H1 H2].
      { split; [by rewrite <- head_drop, E|]. replace (o + 2) with (o + 1 + 1) by lia. by rewrite <- lookup_drop, E. }
      unfold char_at. rewrite H1, H2. cbn [default]. apply lookup_lt_Some in H2. rewrite !bool_decide_eq_true_2 by (done || lia). done. }
  case_bool_decide as E8; [by apply dollar_ok|]. apply stops_ok.
  intros r' h' [H|[H|[H|[H|[H|H]]]]]%part_inv; destruct_and?; destruct_or?; subst; done.
Qed.
End step.

(** ** The loop *)

Lemma part_nil sq dq h r' h' : ¬ part sq dq h [] r' h'.
Proof. intros H. remember [] as r eqn:Er. destruct H as [| | | | | | | | | | | |? ? ? ? ? ? ? ? [E _] _|]; congruence. Qed.

Lemma lands_part sq dq s start e h h' r :
  start ≤ e → e ≤ length s → part sq dq h (drop start s) (drop e s) h' → lands sq dq s e h' r → lands sq dq s start h r.
Proof.
  intros H1 H2 Hp. destruct r as [it|[]]; cbn; try done; try lia.
  - intros (-> & -> & -> & o & -> & Ho & Hs & Hn). split_and!; try done. exists o. split_and!; try done; [lia..|]. by eapply skipped_part.
  - intros (-> & h1 & r & tag & t & Hs & Hq). split; [done|]. exists h1, r, tag, t. split; [|done]. by eapply skipped_part.
Qed.

Lemma increment_loop_lands fuel it o :
  m_offset it = Some o → o ≤ length (m_s it) → length (m_s it) - o < fuel →
  lands (m_skip_quoted it) (m_dollar_quotes it) (m_s it) o (m_comment_hint it) (increment_loop fuel it).
Proof.
  revert it o. induction fuel as [|fuel IH]; intros it o Ho Hle Hf; [lia|].
  unfold increment_loop; fold increment_loop. rewrite Ho. destruct (m_s it !! o) as [c|] eqn:Ec.
  2:{ apply lookup_ge_None in Ec. split_and!; try done. exists o. split_and!; [done|lia|lia|constructor|].
      rewrite drop_ge by done. apply part_nil. }
  pose proof (increment_step_ok it o c Ec) as Hs. destruct (increment_step it o c) as [[it1 [|]]|e]; cbn [mbind result_bind].
  - destruct Hs as [-> Hn]. rewrite Ho. split_and!; try done. exists o. split_and!; try done. constructor.
  - destruct Hs as ((Em & Es & Ed) & Hr & Hp). set (e := default (length (m_s it)) (m_offset it1)) in *.
    eapply (lands_part _ _ _ _ e); [lia|lia|exact Hp|]. rewrite <- Es, <- Ed, <- Em.
    assert (m_s it1 = m_s it → (match m_offset it1 with None => set_offset it1 (Some (length (m_s it1))) | Some _ => it1 end) = set_offset it1 (Some e)) as E.
    { intros E. unfold e. destruct it1 as [? [?|]]; cbn in *; by rewrite ?E. }
    rewrite E by done. refine (IH (set_offset it1 (Some e)) e _ _ _); cbn; rewrite ?Em; [done|lia|lia].
  - destruct Hs as (Hd & (m & ->) & tag & t & Hq & Hw). split; [done|]. exists (m_comment_hint it), (drop o (m_s it)), tag, t.
    split_and!; [constructor|done|done].
Qed.

Lemma increment_lands it :
  lands (m_skip_quoted it) (m_dollar_quotes it) (m_s it) (match m_offset it with Some o => o + 1 | None => 0 end)
    (m_comment_hint it) (increment it).
Proof.
  unfold increment. set (o := match m_offset it with Some o => o + 1 | None => 0 end). case_bool_decide as Ho; [exact Ho|].
  refine (increment_loop_lands _ (set_offset it (Some o)) o _ _ _); cbn; [done|lia|lia].
Qed.

(** C37: The constructor of SQL_iterator, from the given offset, and operator++, from the
    character behind the iterator, move to the first place within the text at which no
    part to be skipped begins; between the start and this place there are such parts only,
    one after the other. The parts, defined by their characters: comments from # or from
    two dashes and a space to the end of the line; comments between slash-star and
    star-slash; the opening mark of a conditional comment or hint with its digits, and the
    star-slash that closes it; and, if quoted parts are skipped, strings in quotes, names
    in backticks, dollar quotes and a dollar sign that no name follows (these two if
    dollar quotes are recognised). A quote or comment without end extends to the end of
    the text. They fail only for a dollar quote without end and for a start behind the
    text. *)
Theorem SQL_iterator_correct s offset sq dq it :
  lands sq dq s offset false (make_SQL_iterator s offset sq dq) ∧
  lands (m_skip_quoted it) (m_dollar_quotes it) (m_s it) (match m_offset it with Some o => o + 1 | None => 0 end)
    (m_comment_hint it) (increment it).
Proof.
  split; [|apply increment_lands]. unfold make_SQL_iterator.
  pose proof (increment_lands {| m_s := s; m_offset := match offset with O => None | S o => Some o end;
    m_skip_quoted := sq; m_dollar_quotes := dq; m_comment_hint := false |}) as H. cbn in H.
  destruct offset as [|o]; [done|]. by rewrite Nat.add_1_r in H.
Qed.
