(* ===== verification/SqlString.v ===== *)
(** * SQL text: escaping, quoting and formatting

    Model of [mysqlshdk/libs/utils/utils_sqlstring.{h,cc}] (namespace [shcore]),
    the wildcard functions excepted (see [SqlWild]): [escape_sql_string] and
    friends, reserved words, identifier quoting, and the [sqlstring] formatter
    with its [?] and [!] placeholders. *)
From S2P Require Import Prelude UtilsString Lexing.

Open Scope nat_scope.

(** ** Reserved words *)

Definition reserved_keywords : list str :=
  lit <$>
  [ "ACCESSIBLE"; "ADD"; "ADMIN"; "ALL"; "ALTER"; "ANALYZE"; "AND"; "ARRAY"; "AS";
    "ASC"; "ASENSITIVE"; "BEFORE"; "BETWEEN"; "BIGINT"; "BINARY"; "BLOB"; "BOTH"; "BY";
    "CALL"; "CASCADE"; "CASE"; "CHANGE"; "CHAR"; "CHARACTER"; "CHECK"; "COLLATE";
    "COLUMN"; "CONDITION"; "CONSTRAINT"; "CONTINUE"; "CONVERT"; "CREATE"; "CROSS";
    "CUBE"; "CUME_DIST"; "CURRENT_DATE"; "CURRENT_TIME"; "CURRENT_TIMESTAMP";
    "CURRENT_USER"; "CURSOR"; "DATABASE"; "DATABASES"; "DAY_HOUR"; "DAY_MICROSECOND";
    "DAY_MINUTE"; "DAY_SECOND"; "DEC"; "DECIMAL"; "DECLARE"; "DEFAULT"; "DELAYED";
    "DELETE"; "DENSE_RANK"; "DESC"; "DESCRIBE"; "DETERMINISTIC"; "DISTINCT";
    "DISTINCTROW"; "DIV"; "DOUBLE"; "DROP"; "DUAL"; "EACH"; "ELSE"; "ELSEIF"; "EMPTY";
    "ENCLOSED"; "ESCAPED"; "EXCEPT"; "EXISTS"; "EXIT"; "EXPLAIN"; "FALSE"; "FETCH";
    "FIRST_VALUE"; "FLOAT"; "FLOAT4"; "FLOAT8"; "FOR"; "FORCE"; "FOREIGN"; "FROM";
    "FULL"; "FULLTEXT"; "FUNCTION"; "GENERATED"; "GET"; "GET_MASTER_PUBLIC_KEY";
    "GRANT"; "GROUP"; "GROUPING"; "GROUPS"; "HAVING"; "HIGH_PRIORITY";
    "HOUR_MICROSECOND"; "HOUR_MINUTE"; "HOUR_SECOND"; "IF"; "IGNORE"; "IN"; "INDEX";
    "INFILE"; "INNER"; "INOUT"; "INSENSITIVE"; "INSERT"; "INT"; "INT1"; "INT2"; "INT3";
    "INT4"; "INT8"; "INTEGER"; "INTERVAL"; "INTERSECT"; "INTO"; "IO_AFTER_GTIDS";
    "IO_BEFORE_GTIDS"; "IS"; "ITERATE"; "JOIN"; "JSON_TABLE"; "KEY"; "KEYS"; "KILL";
    "LAG"; "LAST_VALUE"; "LATERAL"; "LEAD"; "LEADING"; "LEAVE"; "LEFT"; "LIKE";
    "LIMIT"; "LINEAR"; "LINES"; "LOAD"; "LOCALTIME"; "LOCALTIMESTAMP"; "LOCK"; "LONG";
    "LONGBLOB"; "LONGTEXT"; "LOOP"; "LOW_PRIORITY"; "MASTER_BIND";
    "MASTER_SSL_VERIFY_SERVER_CERT"; "MATCH"; "MAXVALUE"; "MEDIUMBLOB"; "MEDIUMINT";
    "MEDIUMTEXT"; "MEMBER"; "MIDDLEINT"; "MINUTE_MICROSECOND"; "MINUTE_SECOND"; "MOD";
    "MODIFIES"; "NATURAL"; "NONBLOCKING"; "NOT"; "NO_WRITE_TO_BINLOG"; "NTH_VALUE";
    "NTILE"; "NULL"; "NUMERIC"; "OF"; "ON"; "OPTIMIZE"; "OPTIMIZER_COSTS"; "OPTION";
    "OPTIONALLY"; "OR"; "ORDER"; "OUT"; "OUTER"; "OUTFILE"; "OVER"; "PARTITION";
    "PERCENT_RANK"; "PERSIST"; "PERSIST_ONLY"; "PRECISION"; "PRIMARY"; "PROCEDURE";
    "PURGE"; "RANGE"; "RANK"; "READ"; "READS"; "READ_WRITE"; "REAL"; "RECURSIVE";
    "REFERENCES"; "REGEXP"; "RELEASE"; "RENAME"; "REPEAT"; "REPLACE"; "REQUIRE";
    "RESIGNAL"; "RESTRICT"; "RETURN"; "REVOKE"; "RIGHT"; "RLIKE"; "ROLE"; "ROW";
    "ROWS"; "ROW_NUMBER"; "SCHEMA"; "SCHEMAS"; "SECOND_MICROSECOND"; "SELECT";
    "SENSITIVE"; "SEPARATOR"; "SET"; "SHOW"; "SIGNAL"; "SMALLINT"; "SPATIAL";
    "SPECIFIC"; "SQL"; "SQLEXCEPTION"; "SQLSTATE"; "SQLWARNING"; "SQL_BIG_RESULT";
    "SQL_CALC_FOUND_ROWS"; "SQL_SMALL_RESULT"; "SSL"; "STARTING"; "STORED";
    "STRAIGHT_JOIN"; "SYSTEM"; "TABLE"; "TERMINATED"; "THEN"; "TINYBLOB"; "TINYINT";
    "TINYTEXT"; "TO"; "TRAILING"; "TRIGGER"; "TRUE"; "UNDO"; "UNION"; "UNIQUE";
    "UNLOCK"; "UNSIGNED"; "UPDATE"; "USAGE"; "USE"; "USING"; "UTC_DATE"; "UTC_TIME";
    "UTC_TIMESTAMP"; "VALUES"; "VARBINARY"; "VARCHAR"; "VARCHARACTER"; "VARYING";
    "VIRTUAL"; "WHEN"; "WHERE"; "WHILE"; "WINDOW"; "WITH"; "WRITE"; "XOR";
    "YEAR_MONTH"; "ZEROFILL" ]%string.

(** [std::lower_bound] on a random access range: index of the first element that
    is not less than [v] in a sorted range. *)
Fixpoint lower_bound_loop (fuel : nat) (l : list str) (v : str) (first len : nat) : nat :=
  match fuel with
  | O => first
  | S fuel =>
      if bool_decide (0 < len) then
        let half := Nat.div2 len in
        let middle := first + half in
        if bool_decide (str_compare (nth middle l []) v = Lt)
        then lower_bound_loop fuel l v (middle + 1) (len - half - 1)
        else lower_bound_loop fuel l v first half
      else first
  end.
Definition lower_bound (l : list str) (v : str) : nat :=
  lower_bound_loop (S (length l)) l v 0 (length l).

Definition is_reserved_word (word : str) : bool :=
  let upper := str_upper word in
  let it := lower_bound reserved_keywords upper in
  bool_decide (it ≠ length reserved_keywords) && bool_decide (upper = nth it reserved_keywords []).

(** ** Escaping *)

(** The escape letter of a byte, if it must be escaped. *)
Definition sql_escape (wildcards : bool) (ch : ascii) : option ascii :=
  if bool_decide (ch = nul) then Some "0"%char
  else if bool_decide (ch = newline) then Some "n"%char
  else if bool_decide (ch = "013"%char) then Some "r"%char
  else if bool_decide (ch = backslash) then Some backslash
  else if bool_decide (ch = squote) then Some squote
  else if bool_decide (ch = dquote) then Some dquote
  else if bool_decide (ch = "026"%char) then Some "Z"%char   (* '\032' *)
  else if bool_decide (ch = "_"%char) then if wildcards then Some "_"%char else None
  else if bool_decide (ch = "%"%char) then if wildcards then Some "%"%char else None
  else None.

Definition escape_sql_string (s : str) (wildcards : bool) : str :=
  concat ((λ ch, match sql_escape wildcards ch with
                 | Some e => [backslash; e]
                 | None => [ch]
                 end) <$> s).

Definition escape_backticks (s : str) : str :=
  concat ((λ ch,
    if bool_decide (ch = nul) then [backslash; "0"%char]
    else if bool_decide (ch = newline) then [backslash; "n"%char]
    else if bool_decide (ch = "013"%char) then [backslash; "r"%char]
    else if bool_decide (ch = "026"%char) then [backslash; "Z"%char]
    else if bool_decide (ch = backtick) then [backtick; ch]
    else [ch]) <$> s).

Definition escape_wildcards (s : str) : str :=
  concat ((λ ch, if bool_decide (ch = "%"%char) || bool_decide (ch = "_"%char)
                 then [backslash; ch] else [ch]) <$> s).

Definition quote_sql_string (s : str) : str := [squote] ++ escape_sql_string s false ++ [squote].

(** ** Identifiers *)

Definition quote_identifier (identifier : str) (q : ascii) : str :=
  [q] ++ str_replace identifier [q] [q; q] ++ [q].

Definition identifier_char (i : ascii) : bool :=
  in_range 97 122 i || in_range 65 90 i || in_range 48 57 i ||
  bool_decide (i = "_"%char) || bool_decide (i = dollar) || (0x7F <? uch i)%Z.

(** The loop of [quote_identifier_if_needed]: whether quotes are needed, and the
    number of digits seen. *)
Fixpoint scan_unquoted (ident : str) (digits : nat) : bool * nat :=
  match ident with
  | [] => (false, digits)
  | i :: ident' =>
      if identifier_char i
      then scan_unquoted ident' (if in_range 48 57 i then S digits else digits)
      else (true, digits)
  end.

Definition quote_identifier_if_needed (ident : str) (q : ascii) : str :=
  let '(needs_quotation, digits) :=
    if is_reserved_word ident then (true, 0) else scan_unquoted ident 0 in
  if needs_quotation || bool_decide (digits = length ident)
  then quote_identifier ident q else ident.

(** ** sqlstring *)

Definition QuoteOnlyIfNeeded : Z := Z.shiftl 1 0.

Record sqlstring := {
  _formatted : str;
  _format_string_left : str;
  _format : Z;                    (* sqlstringformat::_flags *)
}.

Definition append (q : sqlstring) (s : str) : sqlstring :=
  {| _formatted := _formatted q ++ s; _format_string_left := _format_string_left q;
     _format := _format q |}.
Definition set_left (q : sqlstring) (l : str) : sqlstring :=
  {| _formatted := _formatted q; _format_string_left := l; _format := _format q |}.

(** [for (; it.valid(); ++it) if ( *it == '?' || *it == '!') break;] *)
Fixpoint seek_escape (fuel : nat) (it : SQL_iterator) : result SQL_iterator :=
  match fuel with
  | O => Ok it
  | S fuel =>
      if valid it then
        if bool_decide (get_char it = "?"%char) || bool_decide (get_char it = "!"%char)
        then Ok it
        else it ← increment it; seek_escape fuel it
      else Ok it
  end.

(** The text before the next placeholder, and the new [_format_string_left]. *)
Definition consume_until_next_escape (fmt : str) : result (str * str) :=
  it ← make_SQL_iterator fmt 0 true true;
  it ← seek_escape (S (length fmt)) it;
  let pos := default 0 (m_offset it) in
  if bool_decide (0 < pos) then
    Ok (substr fmt 0 pos, if bool_decide (pos < length fmt) then drop pos fmt else [])
  else Ok ([], fmt).

(** [append(consume_until_next_escape())] *)
Definition append_until_escape (q : sqlstring) : result sqlstring :=
  r ← consume_until_next_escape (_format_string_left q);
  let '(s, rest) := r in Ok (append (set_left q rest) s).

Definition make_sqlstring (format_string : str) (format : Z) : result sqlstring :=
  append_until_escape {| _formatted := []; _format_string_left := format_string;
                         _format := format |}.

Definition next_escape (q : sqlstring) : result (ascii * sqlstring) :=
  match _format_string_left q with
  | [] => Throw (invalid_argument "Error formatting SQL query: more arguments than escapes")
  | c :: rest => Ok (c, set_left q rest)
  end.

(** [done()]: the formatted text and the emptied rest. *)
Definition sqlstring_done (q : sqlstring) : result sqlstring :=
  match _format_string_left q with
  | c :: _ =>
      if bool_decide (c = "!"%char) || bool_decide (c = "?"%char)
      then Throw (logic_error "Unbound placeholders left in query")
      else Ok (set_left (append q (_format_string_left q)) [])
  | [] => Ok (set_left (append q (_format_string_left q)) [])
  end.

Definition sqlstring_str (q : sqlstring) : result str := q ← sqlstring_done q; Ok (_formatted q).

Definition sqlstring_size (q : sqlstring) : nat :=
  length (_formatted q) + length (_format_string_left q).

(** The values [operator<<] accepts (floating point values excepted). *)
Inductive sql_arg :=
| ArgFormat (flags : Z)            (* sqlstringformat *)
| ArgInt (v : Z)
| ArgString (v : str)              (* std::string_view *)
| ArgCString (v : option str)      (* const char *, which may be null *)
| ArgSql (v : sqlstring).

Definition quoted_identifier_arg (q : sqlstring) (v : str) : str :=
  if bool_decide (Z.land (_format q) QuoteOnlyIfNeeded ≠ 0%Z)
  then quote_identifier_if_needed v backtick else quote_identifier v backtick.

Definition bad_escape : exn :=
  invalid_argument "Error formatting SQL query: internal error, expected ? or ! escape got something else".

(** [operator<<] *)
Definition sqlstring_put (q : sqlstring) (a : sql_arg) : result sqlstring :=
  match a with
  | ArgFormat flags =>
      Ok {| _formatted := _formatted q; _format_string_left := _format_string_left q;
            _format := flags |}
  | ArgInt v =>
      r ← next_escape q; let '(esc, q) := r in
      if bool_decide (esc ≠ "?"%char)
      then Throw (invalid_argument "Error formatting SQL query: invalid escape for numeric argument")
      else append_until_escape (append q (to_string v))
  | ArgString v =>
      r ← next_escape q; let '(esc, q) := r in
      if bool_decide (esc = "!"%char) then append_until_escape (append q (quoted_identifier_arg q v))
      else if bool_decide (esc = "?"%char)
      then append_until_escape
             (append (append (append q [squote]) (escape_sql_string v false)) [squote])
      else Throw bad_escape
  | ArgCString v =>
      r ← next_escape q; let '(esc, q) := r in
      if bool_decide (esc = "!"%char) then
        match v with
        | None => Throw (invalid_argument "Error formatting SQL query: NULL value found for identifier")
        | Some v => append_until_escape (append q (quoted_identifier_arg q v))
        end
      else if bool_decide (esc = "?"%char) then
        append_until_escape (append q (match v with Some v => quote_sql_string v | None => $"NULL" end))
      else Throw bad_escape
  | ArgSql v =>
      r ← next_escape q; let '(_, q) := r in
      s ← sqlstring_str v;
      append_until_escape (append q s)
  end.

Fixpoint sqlstring_puts (q : sqlstring) (args : list sql_arg) : result sqlstring :=
  match args with
  | [] => Ok q
  | a :: args => q ← sqlstring_put q a; sqlstring_puts q args
  end.

(** [sqlformat(s, args...)] *)
Definition sqlformat (s : str) (args : list sql_arg) : result str :=
  q ← make_sqlstring s 0;
  q ← sqlstring_puts q args;
  q ← sqlstring_done q;
  sqlstring_str q.

#[global] Arguments consume_until_next_escape : simpl never.
#[global] Arguments is_reserved_word : simpl never.
#[global] Arguments quote_sql_string : simpl never.
#[global] Arguments quote_identifier : simpl never.
