(* ===== verification/SqlStringFacts.v ===== *)
(** * Correctness of SQL escaping, quoting and formatting

    Quoted values and identifiers are lexed back, by the scanners of [Lexing], as
    exactly one token, whatever follows them; escaping is inverted by the
    decoding rules of MySQL literals; the [sqlstring] formatter replaces its
    placeholders and nothing else. *)
From S2P Require Import Prelude UtilsString UtilsStringFacts Lexing LexingFacts SqlString.

Open Scope nat_scope.

(** ** Escaped strings *)

Definition esc1 (w : bool) (ch : ascii) : str :=
  match sql_escape w ch with Some e => [backslash; e] | None => [ch] end.

Lemma escape_cons w c s : escape_sql_string (c :: s) w = esc1 w c ++ escape_sql_string s w.
Proof. done. Qed.

(** An unescaped byte is neither a quote nor a backslash. *)
Lemma sql_escape_None w c :
  sql_escape w c = None → c ≠ squote ∧ c ≠ dquote ∧ c ≠ backslash.
Proof. unfold sql_escape. repeat case_bool_decide; subst; try done; by intros. Qed.

Lemma scan_escaped q w s rest :
  q = squote ∨ q = dquote →
  scan_string q (escape_sql_string s w ++ q :: rest) = Some (length (escape_sql_string s w) + 1).
Proof.
  intros Hq. induction s as [|c s IH].
  { simpl. by rewrite bool_decide_eq_true_2. }
  rewrite escape_cons. unfold esc1. destruct (sql_escape w c) as [e|] eqn:E.
  - simpl. rewrite bool_decide_eq_false_2 by (by destruct Hq; subst).
    rewrite IH. simpl. f_equal.
  - apply sql_escape_None in E as (? & ? & ?). simpl.
    rewrite !bool_decide_eq_false_2 by (destruct Hq; congruence).
    rewrite IH. simpl. f_equal.
Qed.

Lemma span_at_suffix {A} (pre s : list A) : drop (length pre) (pre ++ s) = s.
Proof. by rewrite drop_app_length. Qed.

Lemma drop_after {A} (pre : list A) c s : drop (length pre + 1) (pre ++ c :: s) = s.
Proof. rewrite <- drop_drop, drop_app_length. done. Qed.

(** Decoding of the body of a MySQL string literal (reference manual, "String
    Literals"): backslash sequences, with \% and \_ kept as they are. *)
Definition unescape_letter (e : ascii) : str :=
  if bool_decide (e = "0"%char) then [nul]
  else if bool_decide (e = "n"%char) then [newline]
  else if bool_decide (e = "r"%char) then ["013"%char]
  else if bool_decide (e = "t"%char) then ["009"%char]
  else if bool_decide (e = "b"%char) then ["008"%char]
  else if bool_decide (e = "Z"%char) then ["026"%char]
  else if bool_decide (e = "%"%char) || bool_decide (e = "_"%char) then [backslash; e]
  else [e].

Fixpoint sql_unescape (s : str) : str :=
  match s with
  | [] => []
  | c :: s' =>
      if bool_decide (c = backslash) then
        match s' with
        | [] => [backslash]
        | e :: s'' => unescape_letter e ++ sql_unescape s''
        end
      else c :: sql_unescape s'
  end.

Lemma sql_escape_letter c e : sql_escape false c = Some e → unescape_letter e = [c].
Proof. unfold sql_escape. repeat case_bool_decide; intros; simplify_eq; done. Qed.

Lemma sql_unescape_escape s : sql_unescape (escape_sql_string s false) = s.
Proof.
  induction s as [|c s IH]; [done|]. rewrite escape_cons. unfold esc1.
  destruct (sql_escape false c) as [e|] eqn:E.
  - cbn [app sql_unescape]. rewrite bool_decide_eq_true_2 by done.
    by rewrite IH, (sql_escape_letter _ _ E).
  - apply sql_escape_None in E as (_ & _ & ?). cbn [app sql_unescape].
    by rewrite bool_decide_eq_false_2, IH.
Qed.

(** ** Quoted identifiers *)

Definition dbl (q c : ascii) : str := if bool_decide (c = q) then [q; q] else [c].

Lemma replace_quote q s : str_replace s [q] [q; q] = concat (dbl q <$> s).
Proof. by rewrite str_replace_repl, repl_single by done. Qed.

Lemma scan_doubled q s rest :
  head rest ≠ Some q →
  scan_identifier q (concat (dbl q <$> s) ++ q :: rest) = Some (length (concat (dbl q <$> s)) + 1).
Proof.
  intros Hr. induction s as [|c s IH].
  - simpl. rewrite bool_decide_eq_true_2 by done. destruct rest as [|d rest]; [done|].
    rewrite bool_decide_eq_false_2; [done|]. intros ->. by apply Hr.
  - csimpl. rewrite <- (assoc_L (++)). unfold dbl at 1 3. case_bool_decide as Hc.
    + subst. simpl. rewrite !bool_decide_eq_true_2 by done. rewrite IH. done.
    + simpl. rewrite bool_decide_eq_false_2 by done. rewrite IH. done.
Qed.

(** The name a quoted identifier body denotes: doubled quotes are single. *)
Fixpoint unquote_name (q : ascii) (s : str) : str :=
  match s with
  | [] => []
  | c :: s' =>
      if bool_decide (c = q) then
        match s' with
        | d :: s'' => if bool_decide (d = q) then q :: unquote_name q s'' else c :: unquote_name q s'
        | [] => [c]
        end
      else c :: unquote_name q s'
  end.

Lemma unquote_doubled q s : unquote_name q (concat (dbl q <$> s)) = s.
Proof.
  induction s as [|c s IH]; [done|]. csimpl. unfold dbl at 1. case_bool_decide.
  - subst. cbn [app unquote_name]. rewrite !bool_decide_eq_true_2 by done. by rewrite IH.
  - cbn [app unquote_name]. rewrite bool_decide_eq_false_2 by done. by rewrite IH.
Qed.

(** ** Reserved words *)

Lemma reserved_found k :
  k ∈ reserved_keywords → k ≠ $"INTERVAL" → k ≠ $"INTERSECT" → is_reserved_word k = true.
Proof.
  assert (Forall (λ k, is_reserved_word k = true ∨ k = $"INTERVAL" ∨ k = $"INTERSECT")
            reserved_keywords) as H.
  { apply Forall_forall. intros x Hx. apply list_elem_of_In in Hx.
    assert (forallb (λ k, is_reserved_word k || bool_decide (k = $"INTERVAL") ||
      bool_decide (k = $"INTERSECT")) reserved_keywords = true) as Hall by (vm_compute; reflexivity).
    rewrite forallb_forall in Hall. specialize (Hall x Hx).
    apply orb_true_iff in Hall as [Hall|Hall]; [apply orb_true_iff in Hall as [Hall|Hall]|];
      bool_to_prop; auto. }
  intros Hk ? ?. rewrite Forall_forall in H. destruct (H k Hk) as [|[]]; [done|done|done].
Qed.

Lemma lower_bound_loop_le fuel l v first len :
  lower_bound_loop fuel l v first len ≤ first + len.
Proof.
  revert first len. induction fuel as [|fuel IH]; intros first len; simpl; [lia|].
  case_bool_decide; [|lia].
  assert (Nat.div2 len < len) by (apply Nat.lt_div2; done).
  case_bool_decide; [specialize (IH (first + Nat.div2 len + 1) (len - Nat.div2 len - 1))
                    |specialize (IH first (Nat.div2 len))]; lia.
Qed.

Lemma is_reserved_word_sound w : is_reserved_word w = true → str_upper w ∈ reserved_keywords.
Proof.
  unfold is_reserved_word. intros H. bool_to_prop.
  pose proof (lower_bound_loop_le (S (length reserved_keywords)) reserved_keywords (str_upper w) 0
    (length reserved_keywords)) as Hle.
  change (lower_bound reserved_keywords (str_upper w) ≤ 0 + length reserved_keywords) in Hle.
  apply list_elem_of_In. rewrite H0. apply nth_In. lia.
Qed.

(** ** The formatter *)

Definition placeholder (c : ascii) : Prop := c = "?"%char ∨ c = "!"%char.
(** The text left to format starts at a placeholder. *)
Definition at_placeholder (l : str) : Prop := ∀ c l', l = c :: l' → placeholder c.

Lemma seek_escape_spec fuel it o it' :
  m_offset it = Some o → o ≤ length (m_s it) → length (m_s it) - o < fuel →
  seek_escape fuel it = Ok it' →
  m_s it' = m_s it ∧ ∃ o', m_offset it' = Some o' ∧ o' ≤ length (m_s it) ∧
    at_placeholder (drop o' (m_s it)).
Proof.
  revert it o. induction fuel as [|fuel IH]; intros it o Ho Hle Hf; [lia|]. cbn [seek_escape].
  unfold valid, get_char. rewrite Ho. case_bool_decide as Hlt.
  2:{ intros [= <-]. split; [done|]. exists o. split_and!; [done|done|].
      rewrite drop_ge by lia. intros ? ? ?. done. }
  destruct (lookup_lt_is_Some_2 (m_s it) o Hlt) as [c Hc].
  rewrite (char_at_lookup _ _ _ Hc). destruct (_ || _) eqn:E.
  { intros [= <-]. split; [done|]. exists o. split_and!; [done|done|].
    rewrite (drop_S _ _ _ Hc). intros d l' [= <- _].
    unfold placeholder. apply orb_true_iff in E as [E|E]; bool_to_prop; auto. }
  pose proof (increment_spec it o Ho) as Hi. destruct (increment it) as [it1|]; simpl; [|done].
  destruct Hi as ((Hm & _ & _) & o1 & Ho1 & Hr1 & _). intros Hs.
  destruct (IH it1 o1 Ho1) as (Hm' & o' & ? & ? & ?); [rewrite Hm; lia..|done|].
  rewrite Hm in *. eauto.
Qed.

Lemma consume_spec fmt a b :
  consume_until_next_escape fmt = Ok (a, b) → a ++ b = fmt ∧ at_placeholder b.
Proof.
  unfold consume_until_next_escape. pose proof (make_SQL_iterator_spec fmt true true) as Hm.
  destruct (make_SQL_iterator fmt 0 true true) as [it|]; cbn [mbind result_bind]; [|done].
  destruct Hm as (Hs & _ & _ & o & Ho & Hle & _).
  destruct (seek_escape (S (length fmt)) it) as [it'|] eqn:E; cbn [mbind result_bind]; [|done].
  destruct (seek_escape_spec (S (length fmt)) it o it') as (Hs' & o' & Ho' & Hle' & Hp);
    [done|rewrite Hs; lia..|done|]. rewrite Hs in *. rewrite Ho'. simpl.
  case_bool_decide.
  - case_bool_decide; intros [= <- <-]; unfold substr; rewrite drop_0.
    + by rewrite take_drop.
    + rewrite app_nil_r, take_ge by lia. split; [done|]. intros ? ? ?. done.
  - intros [= <- <-]. split; [done|]. assert (o' = 0) as -> by lia. by rewrite drop_0 in Hp.
Qed.

(** The well-formedness invariant of [sqlstring]: what is left to format is empty
    or starts at a placeholder. *)
Definition wf (q : sqlstring) : Prop := at_placeholder (_format_string_left q).

Lemma append_until_escape_spec q q' :
  append_until_escape q = Ok q' →
  wf q' ∧ _format q' = _format q ∧
  ∃ seg, consume_until_next_escape (_format_string_left q) = Ok (seg, _format_string_left q') ∧
    _formatted q' = _formatted q ++ seg.
Proof.
  unfold append_until_escape.
  destruct (consume_until_next_escape (_format_string_left q)) as [[a b]|] eqn:E; simpl; [|done].
  intros [= <-]. apply consume_spec in E as [_ Hb]. simpl. eauto 10.
Qed.

(** Text that replaces the placeholder [c] when the flags are [fl]. *)
Definition render (fl : Z) (c : ascii) (a : sql_arg) : option str :=
  let ident v := if bool_decide (Z.land fl QuoteOnlyIfNeeded ≠ 0%Z)
                 then quote_identifier_if_needed v backtick else quote_identifier v backtick in
  match a with
  | ArgFormat _ => None
  | ArgInt v => if bool_decide (c = "?"%char) then Some (to_string v) else None
  | ArgString v => if bool_decide (c = "!"%char) then Some (ident v)
                   else if bool_decide (c = "?"%char) then Some (quote_sql_string v) else None
  | ArgCString (Some v) =>
      if bool_decide (c = "!"%char) then Some (ident v)
      else if bool_decide (c = "?"%char) then Some (quote_sql_string v) else None
  | ArgCString None => if bool_decide (c = "!"%char) then None
                       else if bool_decide (c = "?"%char) then Some ($"NULL") else None
  | ArgSql v => match sqlstring_str v with Ok s => Some s | Throw _ => None end
  end.

(** Where the next placeholder is: the iterator, started at the front of the
    format and skipping comments and quoted parts, stops at position [o] for the
    first time on a placeholder, or runs to the end. *)
Inductive seeks : SQL_iterator → nat → Prop :=
| seeks_here it o c :
    m_offset it = Some o → m_s it !! o = Some c → placeholder c → seeks it o
| seeks_end it o :
    m_offset it = Some o → length (m_s it) ≤ o → seeks it o
| seeks_next it it' o o' c :
    m_offset it = Some o → m_s it !! o = Some c → ¬ placeholder c →
    increment it = Ok it' → seeks it' o' → seeks it o'.

Definition first_placeholder (fmt seg left : str) : Prop :=
  ∃ it o, make_SQL_iterator fmt 0 true true = Ok it ∧ seeks it o ∧
    seg = take o fmt ∧ left = drop o fmt.

Lemma placeholder_test c :
  bool_decide (c = "?"%char) || bool_decide (c = "!"%char) = true ↔ placeholder c.
Proof. by rewrite orb_true_iff, !bool_decide_eq_true. Qed.

Lemma seek_escape_seeks fuel it o it' :
  m_offset it = Some o → length (m_s it) - o < fuel → seek_escape fuel it = Ok it' →
  ∃ o', m_offset it' = Some o' ∧ seeks it o'.
Proof.
  revert it o. induction fuel as [|fuel IH]; intros it o Ho Hf; [lia|]. cbn [seek_escape].
  unfold valid, get_char. rewrite Ho. case_bool_decide as Hlt.
  2:{ intros [= <-]. exists o. split; [done|]. apply seeks_end; [done|lia]. }
  destruct (lookup_lt_is_Some_2 (m_s it) o Hlt) as [c Hc].
  rewrite (char_at_lookup _ _ _ Hc). destruct (_ || _) eqn:E.
  { intros [= <-]. exists o. split; [done|]. eapply seeks_here; [done..|by apply placeholder_test]. }
  pose proof (increment_spec it o Ho) as Hi. destruct (increment it) as [it1|] eqn:Ei; simpl; [|done].
  destruct Hi as ((Hm & _ & _) & o1 & Ho1 & Hr1 & _). intros Hs.
  destruct (IH it1 o1 Ho1) as (o' & ? & ?); [rewrite Hm; lia|done|].
  exists o'. split; [done|]. eapply seeks_next; [done..| |done|done].
  rewrite <- placeholder_test, E. done.
Qed.

Lemma seeks_seek_escape fuel it o o' :
  m_offset it = Some o → length (m_s it) - o < fuel → seeks it o' →
  ∃ it', seek_escape fuel it = Ok it' ∧ m_offset it' = Some o' ∧ o ≤ o'.
Proof.
  intros Ho Hf Hs. revert o fuel Ho Hf.
  induction Hs as [it o1 c Ho1 Hc Hp|it o1 Ho1 Hl|it it1 o1 o' c Ho1 Hc Hp Hi Hs IH];
    intros o fuel Ho Hf; rewrite Ho in Ho1; injection Ho1 as <-;
    (destruct fuel as [|fuel]; [lia|]); cbn [seek_escape]; unfold valid, get_char; rewrite Ho.
  - rewrite bool_decide_eq_true_2 by (apply lookup_lt_Some in Hc; lia).
    rewrite (char_at_lookup _ _ _ Hc), (proj2 (placeholder_test c) Hp). eauto.
  - rewrite bool_decide_eq_false_2 by lia. eauto.
  - rewrite bool_decide_eq_true_2 by (apply lookup_lt_Some in Hc; lia).
    rewrite (char_at_lookup _ _ _ Hc). destruct (_ || _) eqn:E; [by apply placeholder_test in E|].
    pose proof (increment_spec it o Ho) as Hsp. rewrite Hi in Hsp |- *. cbn [mbind result_bind].
    destruct Hsp as ((Hm & _ & _) & o2 & Ho2 & Hr & _).
    destruct (IH o2 fuel Ho2) as (it' & ? & ? & ?); [rewrite Hm; lia|].
    exists it'. split_and!; [done|done|lia].
Qed.

Lemma consume_iff fmt seg left :
  consume_until_next_escape fmt = Ok (seg, left) ↔ first_placeholder fmt seg left.
Proof.
  unfold consume_until_next_escape, first_placeholder.
  pose proof (make_SQL_iterator_spec fmt true true) as Hm.
  destruct (make_SQL_iterator fmt 0 true true) as [it|]; cbn [mbind result_bind];
    [|split; [done|by intros (? & ? & ? & _)]].
  destruct Hm as (Hs & _ & _ & o & Ho & Hle & _).
  assert (∀ o', (if bool_decide (0 < o')
     then Ok (substr fmt 0 o', if bool_decide (o' < length fmt) then drop o' fmt else [])
     else Ok ([], fmt)) = Ok (take o' fmt, drop o' fmt)) as Hif.
  { intros o'. unfold substr. rewrite drop_0. destruct (decide (0 < o')).
    - rewrite bool_decide_eq_true_2 by done. case_bool_decide; [done|]. by rewrite drop_ge by lia.
    - rewrite bool_decide_eq_false_2 by done. by replace o' with 0 by lia. }
  split.
  - destruct (seek_escape (S (length fmt)) it) as [it'|] eqn:E; cbn [mbind result_bind]; [|done].
    destruct (seek_escape_seeks (S (length fmt)) it o it') as (o' & Ho' & Hk);
      [done|rewrite Hs; lia|done|]. rewrite Ho'. cbn [default id]. unfold id. rewrite Hif.
    intros [= <- <-]. exists it, o'. done.
  - intros (it1 & o' & [= <-] & Hk & -> & ->).
    destruct (seeks_seek_escape (S (length fmt)) it o o') as (it' & -> & Ho' & _);
      [done|rewrite Hs; lia|done|]. cbn [mbind result_bind]. rewrite Ho'.
    cbn [default id]. unfold id. apply Hif.
Qed.

(** Abstract formatting: [filled fl fmt args out] when [out] is [fmt] with its
    successive placeholders replaced by the
    arguments, all of which are used. *)
Inductive filled : Z → str → list sql_arg → str → Prop :=
| filled_end fl fmt seg :
    first_placeholder fmt seg [] → filled fl fmt [] seg
| filled_flags fl fl' fmt args out :
    filled fl' fmt args out → filled fl fmt (ArgFormat fl' :: args) out
| filled_arg fl fmt seg c rest a txt args out :
    first_placeholder fmt seg (c :: rest) →
    render fl c a = Some txt → filled fl rest args out →
    filled fl fmt (a :: args) (seg ++ txt ++ out).

Lemma wf_left q c rest : wf q → _format_string_left q = c :: rest → c = "?"%char ∨ c = "!"%char.
Proof. intros H. apply H. Qed.

(** One [operator<<]: the placeholder is consumed and its text appended. *)
Lemma sqlstring_put_spec q a q2 :
  sqlstring_put q a = Ok q2 → (∀ fl, a ≠ ArgFormat fl) →
  ∃ c rest txt seg, _format_string_left q = c :: rest ∧ render (_format q) c a = Some txt ∧
    consume_until_next_escape rest = Ok (seg, _format_string_left q2) ∧
    _formatted q2 = _formatted q ++ txt ++ seg ∧ _format q2 = _format q ∧ wf q2.
Proof.
  intros Hp Hna. unfold sqlstring_put in Hp.
  assert (∀ q1 c rest txt,
    _format_string_left q = c :: rest → render (_format q) c a = Some txt →
    _format_string_left q1 = rest → _formatted q1 = _formatted q ++ txt →
    _format q1 = _format q → append_until_escape q1 = Ok q2 →
    ∃ c rest txt seg, _format_string_left q = c :: rest ∧ render (_format q) c a = Some txt ∧
    consume_until_next_escape rest = Ok (seg, _format_string_left q2) ∧
    _formatted q2 = _formatted q ++ txt ++ seg ∧ _format q2 = _format q ∧ wf q2) as Hfin.
  { intros q1 c rest txt Hl Hr Hl1 Hf1 Hfl1 Ha.
    apply append_until_escape_spec in Ha as (? & ? & seg & Hc & Hf).
    exists c, rest, txt, seg. split_and!; try done; [by rewrite <- Hl1| |congruence].
    by rewrite Hf, Hf1, (assoc_L (++)). }
  unfold next_escape in Hp.
  destruct a as [fl|v|v|v|v]; [by destruct (Hna fl)|..];
    destruct (_format_string_left q) as [|c rest] eqn:El; try done;
    cbn [mbind result_bind] in Hp.
  - destruct (bool_decide (c ≠ "?"%char)) eqn:E1; [done|]. bool_to_prop.
    apply (Hfin _ c rest (to_string v)) in Hp; try done. simpl. rewrite bool_decide_eq_true_2; [done|].
    by apply dec_stable.
  - destruct (bool_decide (c = "!"%char)) eqn:E1; [|destruct (bool_decide (c = "?"%char)) eqn:E2; [|done]].
    + apply (Hfin _ c rest (quoted_identifier_arg q v)) in Hp; try done. simpl. by rewrite E1.
    + apply (Hfin _ c rest (quote_sql_string v)) in Hp; try done; simpl; [by rewrite E1, E2|].
      unfold quote_sql_string. by rewrite <- !(assoc_L (++)).
  - destruct (bool_decide (c = "!"%char)) eqn:E1; [|destruct (bool_decide (c = "?"%char)) eqn:E2; [|done]].
    + destruct v as [v|]; [|done].
      apply (Hfin _ c rest (quoted_identifier_arg q v)) in Hp; try done. simpl. by rewrite E1.
    + apply (Hfin _ c rest (match v with Some v => quote_sql_string v | None => $"NULL" end)) in Hp;
        try done. destruct v; simpl; by rewrite E1, E2.
  - destruct (sqlstring_str v) as [s|] eqn:Es; [|done]. cbn [mbind result_bind] in Hp.
    eapply (Hfin _ c rest); try exact Hp; try done. simpl. by rewrite Es.
Qed.

Lemma sqlstring_puts_filled args q base seg fmt q' out :
  consume_until_next_escape fmt = Ok (seg, _format_string_left q) → wf q →
  _formatted q = base ++ seg →
  sqlstring_puts q args = Ok q' → sqlstring_done q' = Ok out →
  ∃ txt, _formatted out = base ++ txt ∧ _format_string_left out = [] ∧
    filled (_format q) fmt args txt.
Proof.
  revert q base seg fmt. induction args as [|a args IH]; intros q base seg fmt Hc Hwf Hb Hp Hd.
  - injection Hp as <-. exists seg. unfold sqlstring_done in Hd.
    destruct (_format_string_left q) as [|c rest] eqn:El.
    + injection Hd as <-. simpl. rewrite app_nil_r. split_and!; [done|done|constructor; by apply consume_iff].
    + destruct (wf_left q c rest Hwf El) as [->| ->]; done.
  - cbn [sqlstring_puts] in Hp. destruct (sqlstring_put q a) as [q2|] eqn:Ep; [|done].
    cbn [mbind result_bind] in Hp.
    destruct a as [fl|v|v|v|v].
    { injection Ep as <-.
      destruct (λ H1 H2 H3, IH _ base seg fmt H1 H2 H3 Hp Hd) as (txt & ? & ? & Hf);
        [exact Hc|exact Hwf|exact Hb|].
      exists txt. split_and!; [done|done|by constructor]. }
    all: (destruct (sqlstring_put_spec _ _ _ Ep)
      as (c & rest & txt & seg2 & Hl & Hr & Hc2 & Hf2 & Hfl & Hwf2); [done|]);
      (destruct (IH q2 (base ++ seg ++ txt) seg2 rest Hc2 Hwf2) as (out' & Ho & ? & Hfil);
        [by rewrite Hf2, Hb, <- !(assoc_L (++))|done|done|]);
      exists (seg ++ txt ++ out'); (split_and!; [by rewrite Ho, <- !(assoc_L (++))|done|]);
      apply (filled_arg _ _ seg c rest _ txt); [apply consume_iff; by rewrite <- Hl|done|by rewrite <- Hfl].
Qed.

Lemma sqlformat_filled s args out : sqlformat s args = Ok out → filled 0 s args out.
Proof.
  unfold sqlformat, make_sqlstring.
  destruct (append_until_escape _) as [q|] eqn:Ea; cbn [mbind result_bind]; [|done].
  apply append_until_escape_spec in Ea as (Hwf & Hfl & seg & Hc & Hf). simpl in *.
  destruct (sqlstring_puts q args) as [q1|] eqn:Ep; cbn [mbind result_bind]; [|done].
  destruct (sqlstring_done q1) as [q2|] eqn:Ed; cbn [mbind result_bind]; [|done].
  destruct (sqlstring_puts_filled args q [] seg s q1 q2 Hc Hwf Hf Ep Ed) as (txt & Ht & Hl & Hfil).
  unfold sqlstring_str, sqlstring_done. rewrite Hl. cbn [mbind result_bind]. simpl.
  rewrite app_nil_r, Ht. intros [= <-]. by rewrite Hfl in Hfil.
Qed.

(** The converse: a filled format is what [sqlformat] returns. *)
Lemma filled_consume fl fmt args out :
  filled fl fmt args out → ∃ seg left, consume_until_next_escape fmt = Ok (seg, left).
Proof. induction 1; [|done|]; do 2 eexists; by apply consume_iff. Qed.

Lemma filled_puts fl fmt args out q base seg :
  filled fl fmt args out →
  consume_until_next_escape fmt = Ok (seg, _format_string_left q) →
  _formatted q = base ++ seg → _format q = fl →
  ∃ q1 q2, sqlstring_puts q args = Ok q1 ∧ sqlstring_done q1 = Ok q2 ∧
    _formatted q2 = base ++ out ∧ _format_string_left q2 = [].
Proof.
  intros Hf. revert q base seg. induction Hf as [fl fmt seg0 Hc0|fl fl' fmt args out Hf IH
    |fl fmt seg0 c rest a txt args out Hc0 Hr Hf IH]; intros q base seg Hc Hb Hfl.
  - apply consume_iff in Hc0. rewrite Hc in Hc0. injection Hc0 as -> Hl. exists q.
    eexists. split; [done|]. unfold sqlstring_done. rewrite Hl. split; [done|].
    simpl. by rewrite app_nil_r.
  - cbn [sqlstring_puts sqlstring_put mbind result_bind]. eapply IH; simpl; done.
  - apply consume_iff in Hc0. rewrite Hc in Hc0. injection Hc0 as -> Hl.
    destruct (filled_consume _ _ _ _ Hf) as (seg2 & left & Hc2).
    assert (sqlstring_put q a = Ok {| _formatted := _formatted q ++ txt ++ seg2;
              _format_string_left := left; _format := fl |}) as Hput.
    { assert (append_until_escape (append (set_left q rest) txt) =
        Ok {| _formatted := _formatted q ++ txt ++ seg2; _format_string_left := left; _format := fl |}) as Ha.
      { unfold append_until_escape. simpl. rewrite Hc2. cbn [mbind result_bind].
        unfold append, set_left. simpl. by rewrite Hfl, (assoc_L (++)). }
      unfold sqlstring_put, next_escape. rewrite Hl. subst fl. unfold render in Hr.
      destruct a as [fl|v|v|[v|]|v]; cbn [mbind result_bind]; [done|..].
      - case_bool_decide; simplify_eq. by rewrite bool_decide_eq_false_2 by tauto.
      - destruct (bool_decide (c = "!"%char)); [by simplify_eq|].
        destruct (bool_decide (c = "?"%char)); simplify_eq. rewrite <- Ha.
        f_equal. unfold append, quote_sql_string. simpl. by rewrite <- !(assoc_L (++)).
      - destruct (bool_decide (c = "!"%char)); [by simplify_eq|].
        by destruct (bool_decide (c = "?"%char)); simplify_eq.
      - destruct (bool_decide (c = "!"%char)); [by simplify_eq|].
        by destruct (bool_decide (c = "?"%char)); simplify_eq.
      - destruct (sqlstring_str v); by simplify_eq. }
    cbn [sqlstring_puts]. rewrite Hput. cbn [mbind result_bind].
    destruct (IH {| _formatted := _formatted q ++ txt ++ seg2; _format_string_left := left; _format := fl |}
      (base ++ seg0 ++ txt) seg2) as (q1 & q2 & ? & ? & Ho & ?); [done| |done|].
    { simpl. by rewrite Hb, <- !(assoc_L (++)). }
    exists q1, q2. split_and!; [done..| |done]. by rewrite Ho, <- !(assoc_L (++)).
Qed.

Lemma filled_sqlformat s args out : filled 0 s args out → sqlformat s args = Ok out.
Proof.
  intros Hf. destruct (filled_consume _ _ _ _ Hf) as (seg & left & Hc).
  unfold sqlformat, make_sqlstring, append_until_escape. cbn [_format_string_left].
  rewrite Hc. cbn [mbind result_bind].
  destruct (filled_puts _ _ _ _ (append (set_left
    {| _formatted := []; _format_string_left := s; _format := 0 |} left) seg) [] seg Hf)
    as (q1 & q2 & Hp & Hd & Ho & Hl); [done..|].
  rewrite Hp. cbn [mbind result_bind]. rewrite Hd. cbn [mbind result_bind].
  unfold sqlstring_str, sqlstring_done. rewrite Hl. cbn [mbind result_bind]. simpl.
  by rewrite app_nil_r, Ho.
Qed.

(** Formats a text of which everything but the arguments is concrete. *)
Ltac format_sql :=
  apply filled_sqlformat;
  repeat match goal with
  | |- filled _ _ (_ :: _) _ => eapply filled_arg; [apply consume_iff; vm_compute; reflexivity|done|]
  | |- filled _ _ [] _ => apply filled_end, consume_iff; vm_compute; reflexivity
  end.

(** ** Unquoted identifiers *)

Lemma identifier_char_unquoted c : identifier_char c = unquoted_char c.
Proof. by_bytes c. Qed.

Lemma scan_unquoted_false s d n :
  scan_unquoted s d = (false, n) → Forall (λ c, identifier_char c = true) s.
Proof.
  revert d. induction s as [|c s IH]; intros d; simpl; [constructor|].
  destruct (identifier_char c) eqn:E; [|done]. intros H%IH. by constructor.
Qed.

Lemma ident_run_app s rest :
  Forall (λ c, identifier_char c = true) s →
  match rest with c :: _ => identifier_char c = false | [] => True end →
  ident_run (s ++ rest) = length s.
Proof.
  intros Hs Hr. induction Hs as [|c s Hc Hs IH]; simpl.
  - destruct rest as [|c rest]; [done|]. simpl. by rewrite <- identifier_char_unquoted, Hr.
  - by rewrite <- identifier_char_unquoted, Hc, IH.
Qed.

Lemma is_reserved_upper v w : str_upper v = str_upper w → is_reserved_word v = is_reserved_word w.
Proof. unfold is_reserved_word. by intros ->. Qed.

Lemma toupper_idem c : toupper (toupper c) = toupper c.
Proof. by_bytes c. Qed.

Lemma str_upper_idem s : str_upper (str_upper s) = str_upper s.
Proof.
  unfold str_upper. rewrite <- list_fmap_compose. apply list_fmap_ext. intros ? c _.
  apply toupper_idem.
Qed.

(** ** Main results *)

(** C3: whatever text surrounds it, a value quoted by [quote_sql_string] is lexed by
    [span_quoted_string_sq] as exactly one literal that ends where the quoted value
    ends, and the literal denotes the value: no value can break out of its quotes. *)
Theorem quote_sql_string_safe pre s rest :
  span_quoted_string_sq (pre ++ quote_sql_string s ++ rest) (length pre) =
    Some (length pre + length (quote_sql_string s)) ∧
  sql_unescape (escape_sql_string s false) = s.
Proof.
  split; [|apply sql_unescape_escape]. rewrite span_sq_scan. unfold quote_sql_string.
  rewrite <- !(assoc_L (++)). cbn [app]. rewrite drop_after, scan_escaped by auto. simpl.
  rewrite length_app. simpl. f_equal. lia.
Qed.

(** An identifier quoted by [quote_identifier] with backticks is lexed as exactly
    one quoted identifier, provided the text after it does not start with another
    backtick, and it denotes the original name. *)
Theorem quote_identifier_safe pre name rest :
  head rest ≠ Some backtick →
  span_quoted_sql_identifier_bt (pre ++ quote_identifier name backtick ++ rest) (length pre) =
    Some (length pre + length (quote_identifier name backtick)) ∧
  unquote_name backtick (str_replace name [backtick] [backtick; backtick]) = name.
Proof.
  intros Hr. rewrite replace_quote. split; [|apply unquote_doubled].
  unfold quote_identifier. rewrite replace_quote. rewrite span_bt_scan.
  2:{ rewrite length_app. simpl. lia. }
  rewrite <- !(assoc_L (++)). cbn [app]. rewrite drop_after, scan_doubled by done. simpl.
  rewrite length_app. simpl. f_equal. lia.
Qed.

Lemma quote_identifier_safe_witness :
  head ($".t") ≠ Some backtick ∧
  span_quoted_sql_identifier_bt ($"use " ++ quote_identifier ($"a`b") backtick ++ $".t") 4 = Some 10.
Proof.
  split; [discriminate|].
  destruct (quote_identifier_safe ($"use ") ($"a`b") ($".t")) as [H _]; [discriminate|].
  replace (Some 10) with (Some (length ($"use ") + length (quote_identifier ($"a`b") backtick)))
    by (vm_compute; reflexivity).
  exact H.
Defined.

(** [quote_identifier_if_needed] either quotes the name like [quote_identifier]
    or returns it as it is; an unquoted non-empty name is not a known reserved word
    and is lexed back, before a byte that cannot continue it, as one unquoted
    identifier that spans the whole name. *)
Theorem quote_identifier_if_needed_safe pre ident rest q :
  match rest with c :: _ => identifier_char c = false | [] => True end →
  quote_identifier_if_needed ident q = quote_identifier ident q ∨
  quote_identifier_if_needed ident q = ident ∧ ident ≠ [] ∧ is_reserved_word ident = false ∧
  span_unquoted_identifier (pre ++ ident ++ rest) (length pre) = length pre + length ident.
Proof.
  intros Hr. unfold quote_identifier_if_needed. destruct (is_reserved_word ident); [by left|].
  destruct (scan_unquoted ident 0) as [[] n] eqn:E; [by left|].
  cbn [orb]. case_bool_decide as Hn; [by left|]. right.
  destruct ident as [|c ident]; [by injection E as <-|]. split_and!; [done..|].
  apply scan_unquoted_false in E. rewrite Forall_cons in E. destruct E as [Hc E].
  rewrite span_unquoted_identifier_run by (rewrite length_app; simpl; lia).
  cbn [app]. rewrite drop_after, ident_run_app by done. simpl. lia.
Qed.

Lemma quote_identifier_if_needed_safe_witness :
  quote_identifier_if_needed ($"my_col") backtick = $"my_col" ∧
  span_unquoted_identifier ($"a." ++ $"my_col" ++ $", b") 2 = 8.
Proof.
  destruct (quote_identifier_if_needed_safe ($"a.") ($"my_col") ($", b") backtick)
    as [H|(H & _ & _ & Hs)]; [reflexivity|vm_compute in H; discriminate H|].
  split; [exact H|exact Hs].
Defined.

(** C2: [sqlformat] returns a text exactly when the format has one placeholder per
    argument, each admissible for its argument; the text is then the format with
    every placeholder the iterator finds replaced, in order, by the rendered
    argument, and nothing else changed (in all other cases it throws). *)
Theorem sqlformat_refines_filled s args out :
  sqlformat s args = Ok out ↔ filled 0 s args out.
Proof. split; [apply sqlformat_filled|apply filled_sqlformat]. Qed.

(** [sqlstring] keeps the invariant that the text left to format is empty or
    starts at a placeholder: the constructor establishes it and every [operator<<]
    keeps it, so that the escape the next argument is bound to is always [?] or [!]
    and the branch for any other escape is dead. *)
Theorem sqlstring_invariant q a fmt flags :
  wf q →
  (∀ q0, make_sqlstring fmt flags = Ok q0 → wf q0) ∧
  (∀ q', sqlstring_put q a = Ok q' → wf q') ∧
  (∀ c q', next_escape q = Ok (c, q') → placeholder c).
Proof.
  intros Hwf. split_and!.
  - intros q0 Hm. by apply append_until_escape_spec in Hm as [? _].
  - intros q' Hp. destruct a as [fl|v|v|v|v]; [by injection Hp as <-|..];
      apply sqlstring_put_spec in Hp as (? & ? & ? & ? & ? & ? & ? & ? & ? & ?); done.
  - intros c q'. unfold next_escape. destruct (_format_string_left q) eqn:E; [done|].
    intros [= -> _]. by eapply Hwf.
Qed.

Lemma sqlstring_invariant_witness :
  ∃ q, make_sqlstring ($"a /* ? */ = ?") 0 = Ok q ∧ wf q ∧ _format_string_left q = $"?" ∧
  ∃ q', sqlstring_put q (ArgInt 7) = Ok q' ∧ wf q'.
Proof.
  exists {| _formatted := $"a /* ? */ = "; _format_string_left := $"?"; _format := 0 |}.
  assert (wf {| _formatted := $"a /* ? */ = "; _format_string_left := $"?"; _format := 0 |}) as Hwf.
  { intros c l [= <- _]. left. reflexivity. }
  split; [vm_compute; reflexivity|]. split; [exact Hwf|]. split; [reflexivity|].
  destruct (sqlstring_invariant _ (ArgInt 7) [] 0 Hwf) as (_ & H & _).
  eexists. split; [vm_compute; reflexivity|]. apply H. vm_compute. reflexivity.
Defined.

(** [is_reserved_word] accepts, ignoring case, exactly the words of its table
    other than INTERVAL and INTERSECT: these two are stored out of order, and the
    binary search misses both. *)
Theorem is_reserved_word_correct w :
  is_reserved_word w = true ↔
  str_upper w ∈ reserved_keywords ∧ str_upper w ≠ $"INTERVAL" ∧ str_upper w ≠ $"INTERSECT".
Proof.
  assert (∀ k, str_upper w = k → str_upper k = k → is_reserved_word w = is_reserved_word k) as Hu.
  { intros k <- ?. by apply is_reserved_upper. }
  split.
  - intros H. split; [by apply is_reserved_word_sound|].
    split; intros Hk; rewrite (Hu _ Hk) in H by reflexivity; vm_compute in H; done.
  - intros (Hin & H1 & H2). rewrite (Hu (str_upper w)) by (done || apply str_upper_idem).
    by apply reserved_found.
Qed.
