(* ===== verification/SqlWild.v ===== *)
(** * SQL wildcards

    Model of the wildcard functions at the end of
    [mysqlshdk/libs/utils/utils_sqlstring.cc]: detection and removal of escaped
    wildcards, the matcher [wild_compare_full] behind [match_sql_wild], and the
    order [SQL_wild_compare] on patterns.

    A pair of pointers [(str, strend)] is the list of the bytes between them.
    [wild_compare_full] returns [None] where the code would read past the end. *)
From S2P Require Import Prelude UtilsString Lexing.

Open Scope nat_scope.

Definition k_wild_escape : ascii := backslash.
Definition k_wild_one : ascii := "_"%char.
Definition k_wild_many : ascii := "%"%char.

Definition is_wild (c : ascii) : bool :=
  bool_decide (c = k_wild_one) || bool_decide (c = k_wild_many).

(** ** Detection and removal of wildcards *)

Definition has_sql_wildcard (s : str) : bool :=
  bool_decide (find_first_of s [k_wild_one; k_wild_many] 0 ≠ None).

Fixpoint has_unescaped_sql_wildcard (s : str) : bool :=
  match s with
  | [] => false
  | c :: s' =>
      if bool_decide (k_wild_escape = c)
      then match s' with [] => false | _ :: s'' => has_unescaped_sql_wildcard s'' end
      else if is_wild c then true else has_unescaped_sql_wildcard s'
  end.

Fixpoint has_escaped_sql_wildcard (s : str) : bool :=
  match s with
  | [] => false
  | c :: s' =>
      if bool_decide (k_wild_escape = c) then
        match s' with
        | [] => false
        | c :: s'' => if is_wild c then true else has_escaped_sql_wildcard s''
        end
      else has_escaped_sql_wildcard s'
  end.

Fixpoint unescape_sql_wildcards (s : str) : str :=
  match s with
  | [] => []
  | c :: s' =>
      if bool_decide (k_wild_escape = c) then
        match s' with
        | [] => [c]
        | c :: s'' =>
            (if is_wild c then [c] else [k_wild_escape; c]) ++ unescape_sql_wildcards s''
        end
      else c :: unescape_sql_wildcards s'
  end.

(** ** Matching *)

(** [while (str_is_pattern && str < strend && *str == w_many) str++;] *)
Fixpoint skip_many (str_is_pattern : bool) (w_many : ascii) (s : str) : str :=
  match s with
  | c :: s' => if str_is_pattern && bool_decide (c = w_many) then skip_many str_is_pattern w_many s' else s
  | [] => []
  end.

(** The [for] loop over the wildcards that follow a [w_many]: the rest of the
    string and of the pattern, or [None] for [return 1]. *)
Fixpoint skip_wildcards (str_is_pattern : bool) (w_prefix w_one w_many : ascii) (wildstr s : str)
    : option (str * str) :=
  match wildstr with
  | w :: wildstr' =>
      if bool_decide (w = w_many) then
        skip_wildcards str_is_pattern w_prefix w_one w_many wildstr' (skip_many str_is_pattern w_many s)
      else if bool_decide (w = w_one) then
        if str_is_pattern && bool_decide (1 < length s) && bool_decide (head s = Some w_prefix)
        then skip_wildcards str_is_pattern w_prefix w_one w_many wildstr' (drop 2 s)
        else match s with
             | [] => None
             | _ => skip_wildcards str_is_pattern w_prefix w_one w_many wildstr' s
             end
      else Some (s, wildstr)
  | [] => Some (s, [])
  end.

(** [for (;; str++)]: the calls [rec] at the occurrences of [cmp]. *)
Fixpoint search_match (rec : str → option Z) (cmp : ascii) (s : str) : option Z :=
  match s with
  | [] => Some 1%Z
  | c :: s' =>
      if bool_decide (c = cmp) then
        r ← rec s;
        if bool_decide (r = 0%Z) then Some 0%Z else search_match rec cmp s'
      else search_match rec cmp s'
  end.

(** One turn of the loops per element of the pattern; [fuel] exceeds its length.  The code
    keeps lengths of the rest of the texts in an int: the definition is about texts of less
    than 2^31 bytes. *)
Fixpoint wild_compare_full (fuel : nat) (s wildstr : str) (str_is_pattern : bool)
    (w_prefix w_one w_many : ascii) : option Z :=
  match fuel with
  | O => None
  | S fuel =>
      match wildstr with
      | [] => Some (if bool_decide (s = []) then 0 else 1)%Z
      | w :: wildstr' =>
          let rec s wildstr := wild_compare_full fuel s wildstr str_is_pattern w_prefix w_one w_many in
          (* [if (str == strend || *wildstr++ != *str++) return 1;] *)
          let literal w wildstr' s :=
            match s with
            | [] => Some 1%Z
            | c :: s' => if bool_decide (w ≠ c) then Some 1%Z else rec s' wildstr'
            end in
          if bool_decide (w ≠ w_many) && bool_decide (w ≠ w_one) then
            match wildstr' with
            | w1 :: wildstr'' =>
                if bool_decide (w = w_prefix) then
                  match s with
                  | c :: s' =>
                      if str_is_pattern
                      then if bool_decide (c ≠ w_prefix) then Some 1%Z else literal w1 wildstr'' s'
                      else literal w1 wildstr'' s
                  | [] => literal w1 wildstr'' s
                  end
                else literal w wildstr' s
            | [] => literal w wildstr' s
            end
          else if bool_decide (w = w_one) then
            match s with
            | [] => Some 1%Z
            | c :: s' =>
                if str_is_pattern && bool_decide (c = w_many) then Some 1%Z
                else if bool_decide (c = w_prefix) && str_is_pattern
                then match s' with [] => None | _ :: s'' => rec s'' wildstr' end
                else rec s' wildstr'
            end
          else
            match skip_wildcards str_is_pattern w_prefix w_one w_many wildstr'
                    (skip_many str_is_pattern w_many s) with
            | None => Some 1%Z
            | Some (_, []) => Some 0%Z
            | Some (s, (w :: rest) as wildstr) =>
                let cmp :=
                  match rest with
                  | w1 :: _ => if bool_decide (w = w_prefix) && negb str_is_pattern then w1 else w
                  | [] => w
                  end in
                search_match (λ s, rec s wildstr) cmp s
            end
      end
  end.

Definition match_sql_wild (s pattern : str) : bool :=
  bool_decide (wild_compare_full (S (length pattern)) s pattern false
                 k_wild_escape k_wild_one k_wild_many = Some 0%Z).

(** ** Ordering of patterns *)

(** The scan of one argument of [get_sort], [pos] bytes after its start:
    [wild_pos] and [chars]. *)
Fixpoint sort_scan (s : str) (pos : Z) (chars : Z) : Z * Z :=
  match s with
  | [] => (0, chars)%Z
  | c :: s' =>
      let plain s' n := sort_scan s' (pos + n)%Z 128%Z in
      let wild := if is_wild c then
          let wild_pos := u32 (pos + 1) in
          (if bool_decide (wild_pos = 1%Z) && bool_decide (c = k_wild_many) && bool_decide (s' = [])
           then wild_pos else u32 (wild_pos + 1), chars)
        else plain s' 1%Z in
      if bool_decide (c = k_wild_escape)
      then match s' with _ :: s'' => plain s'' 2%Z | [] => wild end
      else wild
  end.

Definition get_sort (args : list (option str)) : Z :=
  foldl (λ sort arg,
    let '(wild_pos, chars) := match arg with
                              | Some s => sort_scan (c_str s) 0 0
                              | None => (0, 0)%Z
                              end in
    u64 (Z.shiftl sort 8 + (if bool_decide (wild_pos = 0%Z) then chars else Z.min wild_pos 127))) 0%Z args.

Definition SQL_wild_compare (a b : str) : bool :=
  (get_sort [Some b] <? get_sort [Some a])%Z.
