(* ===== verification/SqlWildFacts.v ===== *)
(** * Correctness of SQL wildcard matching

    [match_sql_wild] is compared with a declarative definition of LIKE; escaping
    and unescaping wildcards are related to it; the order on patterns is given in
    closed form. *)
From S2P Require Import Prelude UtilsString UtilsStringFacts Lexing LexingFacts SqlString SqlWild.

Open Scope nat_scope.

(** ** LIKE *)

Inductive like : str → str → Prop :=
| like_nil : like [] []
| like_lit c s p :
    c ≠ k_wild_escape → c ≠ k_wild_one → c ≠ k_wild_many → like s p → like (c :: s) (c :: p)
| like_esc c s p : like s p → like (c :: s) (k_wild_escape :: c :: p)
| like_esc_end : like [k_wild_escape] [k_wild_escape]
| like_one c s p : like s p → like (c :: s) (k_wild_one :: p)
| like_many s1 s2 p : like s2 p → like (s1 ++ s2) (k_wild_many :: p).

(** No run of wildcards that starts with the multi-character one contains the
    single-character one. *)
Fixpoint run_ok (p : str) : bool :=
  match p with
  | c :: p' => if bool_decide (c = k_wild_many) then run_ok p' else bool_decide (c ≠ k_wild_one)
  | [] => true
  end.

Fixpoint plain_runs (p : str) : bool :=
  match p with
  | [] => true
  | c :: p' =>
      if bool_decide (c = k_wild_escape) then
        match p' with [] => true | _ :: p'' => plain_runs p'' end
      else (if bool_decide (c = k_wild_many) then run_ok p' else true) && plain_runs p'
  end.

(** ** The pieces of the matcher *)

Lemma skip_many_false w s : skip_many false w s = s.
Proof. by destruct s. Qed.

Lemma like_many_suffix s p : like s (k_wild_many :: p) → ∃ s1 s2, s = s1 ++ s2 ∧ like s2 p.
Proof. inversion 1; subst; try done. eauto. Qed.

Lemma like_one_inv s p : like s (k_wild_one :: p) → ∃ c s', s = c :: s' ∧ like s' p.
Proof. inversion 1; subst; try done. eauto. Qed.

Lemma like_esc_inv s c p : like s (k_wild_escape :: c :: p) → ∃ s', s = c :: s' ∧ like s' p.
Proof. inversion 1; subst; try done. eauto. Qed.

Lemma like_lit_inv s c p :
  c ≠ k_wild_escape ∨ p = [] → c ≠ k_wild_one → c ≠ k_wild_many → like s (c :: p) →
  ∃ s', s = c :: s' ∧ like s' p.
Proof. intros Hc ? ?. inversion 1; subst; try done; eauto using like; by destruct Hc. Qed.

Lemma like_nil_inv s : like s [] → s = [].
Proof. by inversion 1. Qed.

(** The run of wildcards after a [%]. *)
Lemma skip_wildcards_spec p s :
  match skip_wildcards false k_wild_escape k_wild_one k_wild_many p s with
  | None => s = [] ∧ run_ok p = false ∧ ∀ s2, like s2 p → s2 ≠ []
  | Some (s', rest) =>
      s' = s ∧ (∀ s2, like s2 p → ∃ u v, s2 = u ++ v ∧ like v rest) ∧
      (run_ok p = true → plain_runs p = true → plain_runs rest = true ∧
         ∀ s2, like s2 rest → like s2 p) ∧
      length rest ≤ length p ∧
      match rest with w :: _ => w ≠ k_wild_many ∧ w ≠ k_wild_one | [] => True end
  end.
Proof.
  induction p as [|w p IH]; cbn [skip_wildcards].
  { split_and!; try done. intros s2 ?. by exists [], s2. }
  case_bool_decide as Hm; [|case_bool_decide as Ho].
  - subst w. rewrite skip_many_false. destruct (skip_wildcards _ _ _ _ p s) as [[s' rest]|].
    + destruct IH as (-> & H1 & H2 & ? & ?). split_and!; [done| | |simpl; lia|done].
      * intros s2 (u & v & -> & (x & y & -> & ?)%H1)%like_many_suffix.
        exists (u ++ x), y. by rewrite (assoc_L (++)).
      * cbn [run_ok plain_runs]. rewrite !(bool_decide_eq_true_2 (k_wild_many = k_wild_many)) by done.
        rewrite bool_decide_eq_false_2 by done. intros Hr [_ Hp]%andb_true_iff.
        destruct (H2 Hr Hp) as [? Hl]. split; [done|]. intros s2 Hs2.
        apply (like_many [] s2). auto.
    + destruct IH as (-> & Hr & H). split_and!; [done| |].
      * cbn [run_ok]. by rewrite bool_decide_eq_true_2.
      * intros s2 (u & v & -> & Hv%H)%like_many_suffix. by destruct u, v.
  - subst w. cbn [andb]. destruct s as [|c s].
    + split_and!; [done|done|]. by intros s2 (? & ? & -> & _)%like_one_inv.
    + destruct (skip_wildcards _ _ _ _ p (c :: s)) as [[s' rest]|]; [|by destruct IH].
      destruct IH as (-> & H1 & H2 & ? & ?). split_and!; [done| | |simpl; lia|done].
      * intros s2 (d & s3 & -> & (u & v & -> & ?)%H1)%like_one_inv. by exists (d :: u), v.
      * done.
  - split_and!; try done. intros s2 ?. by exists [], s2.
Qed.

Lemma search_match_spec rec cmp s :
  (∀ s', ∃ r, rec s' = Some r) →
  (∃ r, search_match rec cmp s = Some r) ∧
  (search_match rec cmp s = Some 0%Z ↔
   ∃ s1 s2, s = s1 ++ cmp :: s2 ∧ rec (cmp :: s2) = Some 0%Z).
Proof.
  intros Hrec. induction s as [|c s [[r Hr] IH]]; cbn [search_match].
  { split; [eauto|]. split; [done|]. intros ([|] & ? & ? & _); done. }
  assert (search_match rec cmp s = Some 0%Z → ∃ s1 s2, c :: s = s1 ++ cmp :: s2 ∧ rec (cmp :: s2) = Some 0%Z)
    as Hlater.
  { intros (s1 & s2 & -> & ?)%IH. by exists (c :: s1), s2. }
  case_bool_decide as Hc.
  - subst c. destruct (Hrec (cmp :: s)) as [r0 Hr0]. rewrite Hr0. simpl. case_bool_decide.
    + subst. split; [eauto|]. split; [|done]. intros _. by exists [], s.
    + split; [eauto|]. split; [done|]. intros ([|d s1] & s2 & [= ] & ?); simplify_eq.
      apply IH. eauto.
  - split; [eauto|]. split; [done|]. intros ([|d s1] & s2 & [= ] & ?); simplify_eq.
    apply IH. eauto.
Qed.

Definition agrees (s p : str) (r : option Z) : Prop :=
  ∃ v, r = Some v ∧ (like s p → v = 0%Z) ∧ (plain_runs p = true → v = 0%Z → like s p).

(** A literal [c] of the pattern: [k] is how the rest of the pattern is matched. *)
Lemma agrees_literal s c p rest k :
  (∀ s', like s' p ↔ like (c :: s') rest) → (∀ s', like s' rest → head s' = Some c) →
  (plain_runs rest = true → plain_runs p = true) →
  (∀ s', agrees s' p (k s')) →
  agrees s rest (match s with
                 | [] => Some 1%Z
                 | d :: s' => if bool_decide (c ≠ d) then Some 1%Z else k s'
                 end).
Proof.
  intros Hiff Hhead Hplain Hk. destruct s as [|d s].
  { exists 1%Z. split; [done|]. split; [|done]. by intros ?%Hhead. }
  case_bool_decide as Hc.
  { exists 1%Z. split; [done|]. split; [|done]. intros [= ->]%Hhead. done. }
  subst d. destruct (Hk s) as (v & -> & H1 & H2).
  exists v. split; [done|]. split; [by intros ?%Hiff; auto|]. intros. apply Hiff. auto.
Qed.

(** A [%] of the pattern: [rec] matches the rest of the pattern at a suffix. *)
Lemma agrees_many (rec : str → str → option Z) s p :
  (∀ s' p', length p' ≤ length p → agrees s' p' (rec s' p')) →
  agrees s (k_wild_many :: p)
    match skip_wildcards false k_wild_escape k_wild_one k_wild_many p s with
    | None => Some 1%Z
    | Some (_, []) => Some 0%Z
    | Some (s, (w :: rest) as wildstr) =>
        let cmp := match rest with
                   | w1 :: _ => if bool_decide (w = k_wild_escape) && negb false then w1 else w
                   | [] => w
                   end in
        search_match (λ s, rec s wildstr) cmp s
    end.
Proof.
  intros IH.
  pose proof (skip_wildcards_spec p s) as Hsk.
  destruct (skip_wildcards _ _ _ _ p s) as [[s' rest]|].
  2:{ destruct Hsk as (-> & Hr & Hne). exists 1%Z. split; [done|]. split.
      - intros (u & v & Huv & Hv%Hne)%like_many_suffix. by destruct u, v.
      - done. }
  destruct Hsk as (-> & H1 & H2 & Hlen & Hhd).
  assert (plain_runs (k_wild_many :: p) = true → run_ok p = true ∧ plain_runs p = true) as Hpr.
  { cbn [plain_runs]. rewrite bool_decide_eq_false_2 by done.
    rewrite bool_decide_eq_true_2 by done. apply andb_true_iff. }
  destruct rest as [|w rest].
  { exists 0%Z. split; [done|]. split; [done|]. intros [Hr Hp]%Hpr _.
    destruct (H2 Hr Hp) as [_ Hl]. rewrite <- (app_nil_r s). apply like_many, Hl. constructor. }
  set (cmp := match rest with [] => w | _ => _ end).
  assert (∀ s2, like s2 (w :: rest) → ∃ s3, s2 = cmp :: s3) as Hcmp.
  { intros s2 Hs2. unfold cmp. destruct rest as [|w1 rest].
    - apply like_lit_inv in Hs2 as (s3 & -> & _); [eauto|auto|by destruct Hhd..].
    - case_bool_decide as Hw; cbn [andb negb].
      + subst w. apply like_esc_inv in Hs2 as (s3 & -> & _). eauto.
      + apply like_lit_inv in Hs2 as (s3 & -> & _); [eauto|auto|by destruct Hhd..]. }
  simpl in Hlen.
  destruct (search_match_spec (λ s, rec s (w :: rest)) cmp s) as [[r Hr] Hiff].
  { intros s'. destruct (IH s' (w :: rest)) as (v & ? & _); [simpl; lia|eauto]. }
  exists r. split; [done|]. split.
  + intros (u & v & -> & (x & y & -> & Hy)%H1)%like_many_suffix.
    destruct (Hcmp _ Hy) as [s3 ->].
    assert (Some r = Some 0%Z) as [= ->]; [|done]. rewrite <- Hr. apply Hiff.
    exists (u ++ x), s3. split; [by rewrite (assoc_L (++))|].
    destruct (IH (cmp :: s3) (w :: rest)) as (v & -> & Hv & _); [simpl; lia|]. by rewrite Hv.
  + intros [Hro Hp]%Hpr ->. destruct (H2 Hro Hp) as [Hpl Hl].
    apply Hiff in Hr as (s1 & s2 & -> & Hr). apply like_many, Hl.
    destruct (IH (cmp :: s2) (w :: rest)) as (v & Hv & _ & Hv2); [simpl; lia|].
    rewrite Hr in Hv. injection Hv as <-. auto.
Qed.

Lemma wild_compare_agrees fuel s p :
  length p < fuel →
  agrees s p (wild_compare_full fuel s p false k_wild_escape k_wild_one k_wild_many).
Proof.
  revert s p. induction fuel as [|fuel IH]; intros s p Hf; [lia|]. cbn [wild_compare_full].
  destruct p as [|w p].
  { eexists. split; [done|]. case_bool_decide as Hs.
    - subst. split; [done|]. intros. constructor.
    - split; [by intros ?%like_nil_inv|done]. }
  simpl in Hf. destruct (decide (w = k_wild_many)) as [->|Hm].
  - rewrite (bool_decide_eq_false_2 (k_wild_many ≠ k_wild_many)) by auto. cbn [andb].
    rewrite (bool_decide_eq_false_2 (k_wild_many = k_wild_one)) by done. rewrite skip_many_false.
    apply (agrees_many (λ s p, wild_compare_full fuel s p false k_wild_escape k_wild_one k_wild_many)).
    intros. apply IH. lia.
  - rewrite (bool_decide_eq_true_2 (w ≠ k_wild_many)) by done.
    destruct (decide (w = k_wild_one)) as [->|Ho].
    + rewrite (bool_decide_eq_false_2 (k_wild_one ≠ k_wild_one)) by auto. cbn [andb].
      rewrite (bool_decide_eq_true_2 (k_wild_one = k_wild_one)) by done.
      destruct s as [|c s].
      { exists 1%Z. split; [done|]. split; [|done]. by intros (? & ? & ? & _)%like_one_inv. }
      rewrite andb_false_r. destruct (IH s p) as (v & -> & H1 & H2); [lia|].
      exists v. split; [done|]. split.
      * intros (? & ? & [= <- <-] & ?)%like_one_inv. auto.
      * cbn [plain_runs]. rewrite !bool_decide_eq_false_2 by done. intros. constructor. auto.
    + rewrite (bool_decide_eq_true_2 (w ≠ k_wild_one)) by done. cbn [andb].
      destruct p as [|w1 p].
      { apply (agrees_literal s w [] [w]); [| |done|intros; apply IH; simpl; lia].
        - intros s'. destruct (decide (w = k_wild_escape)) as [->|].
          + split; [intros ->%like_nil_inv; apply like_esc_end|]. intros (? & [= <-] & ?)%like_lit_inv; auto.
          + split; [by constructor|]. intros (? & [= <-] & ?)%like_lit_inv; auto.
        - intros s' (? & -> & _)%like_lit_inv; auto. }
      destruct (decide (w = k_wild_escape)) as [->|He].
      * rewrite bool_decide_eq_true_2 by done. simpl in Hf.
        assert (agrees s (k_wild_escape :: w1 :: p) (match s with
                 | [] => Some 1%Z
                 | d :: s' => if bool_decide (w1 ≠ d) then Some 1%Z
                     else wild_compare_full fuel s' p false k_wild_escape k_wild_one k_wild_many
                 end)) as Hl; [|by destruct s].
        apply agrees_literal with (p := p); [| |done|intros; apply IH; lia].
        -- intros s'. split; [by constructor|]. by intros (? & [= <-] & ?)%like_esc_inv.
        -- by intros s' (? & -> & _)%like_esc_inv.
      * rewrite bool_decide_eq_false_2 by done.
        apply agrees_literal with (p := w1 :: p); [| | |intros; apply IH; simpl in *; lia].
        -- intros s'. split; [by constructor|]. intros (? & [= <-] & ?)%like_lit_inv; auto.
        -- intros s' (? & -> & _)%like_lit_inv; auto.
        -- cbn [plain_runs]. by rewrite !bool_decide_eq_false_2 by done.
Qed.

Lemma match_sql_wild_spec s p :
  (like s p → match_sql_wild s p = true) ∧
  (plain_runs p = true → match_sql_wild s p = true → like s p).
Proof.
  unfold match_sql_wild.
  destruct (wild_compare_agrees (S (length p)) s p) as (v & -> & H1 & H2); [lia|].
  split.
  - intros ?%H1. subst. by apply bool_decide_eq_true_2.
  - intros Hp Hv. bool_to_prop. simplify_eq. auto.
Qed.

(** ** Escaped wildcards *)

Definition esc_wild (c : ascii) : str :=
  if bool_decide (c = "%"%char) || bool_decide (c = "_"%char) then [backslash; c] else [c].

Lemma escape_wildcards_cons c s : escape_wildcards (c :: s) = esc_wild c ++ escape_wildcards s.
Proof. done. Qed.

(** By induction on a name without backslashes, byte by byte: the byte is either
    escaped or a plain one. *)
Lemma escape_wildcards_ind (P : str → str → Prop) :
  P [] [] →
  (∀ c s p, is_wild c = true → P s p → P (c :: s) (k_wild_escape :: c :: p)) →
  (∀ c s p, is_wild c = false → c ≠ k_wild_escape → P s p → P (c :: s) (c :: p)) →
  ∀ s, k_wild_escape ∉ s → P s (escape_wildcards s).
Proof.
  intros H0 Hw Hp s. induction s as [|c s IH]; [done|].
  rewrite not_elem_of_cons, escape_wildcards_cons. unfold esc_wild. intros [Hc Hs].
  destruct (_ || _) eqn:E.
  - apply Hw; [|by auto]. unfold is_wild. by rewrite orb_comm.
  - apply Hp; [|done|by auto]. unfold is_wild. by rewrite orb_comm.
Qed.

Lemma is_wild_false c : is_wild c = false → c ≠ k_wild_one ∧ c ≠ k_wild_many.
Proof. unfold is_wild. intros H%orb_false_iff. by rewrite !bool_decide_eq_false in H. Qed.

Lemma like_escape_wildcards s :
  k_wild_escape ∉ s → plain_runs (escape_wildcards s) = true ∧
  ∀ t, like t (escape_wildcards s) ↔ t = s.
Proof.
  revert s. apply (escape_wildcards_ind (λ s p, plain_runs p = true ∧ ∀ t, like t p ↔ t = s)).
  - split; [done|]. intros t. split; [apply like_nil_inv|intros ->; constructor].
  - intros c s p _ [IH1 IH2]. split; [done|]. intros t. split.
    + by intros (t' & -> & ->%IH2)%like_esc_inv.
    + intros ->. constructor. by apply IH2.
  - intros c s p [? ?]%is_wild_false ? [IH1 IH2]. split.
    + cbn [plain_runs]. by rewrite !bool_decide_eq_false_2 by done.
    + intros t. split.
      * intros (t' & -> & ->%IH2)%like_lit_inv; auto.
      * intros ->. constructor; [done..|]. by apply IH2.
Qed.

(** ** Ordering *)

(** Offset of the first unescaped wildcard. *)
Fixpoint first_wildcard (s : str) : option nat :=
  match s with
  | [] => None
  | c :: s' =>
      if bool_decide (c = k_wild_escape) then
        match s' with
        | _ :: s'' => (λ n, 2 + n) <$> first_wildcard s''
        | [] => None
        end
      else if is_wild c then Some 0 else (λ n, 1 + n) <$> first_wildcard s'
  end.

Definition sort_rank (s : str) : Z :=
  if bool_decide (s = []) then 0
  else if bool_decide (s = [k_wild_many]) then 1
  else match first_wildcard s with
       | None => 128
       | Some i => Z.min (Z.of_nat i + 2) 127
       end%Z.

Lemma sort_scan_cons c s pos chars :
  c ≠ k_wild_escape →
  sort_scan (c :: s) pos chars =
  if is_wild c then
    (if bool_decide (u32 (pos + 1) = 1%Z) && bool_decide (c = k_wild_many) && bool_decide (s = [])
     then u32 (pos + 1) else u32 (u32 (pos + 1) + 1), chars)
  else sort_scan s (pos + 1) 128.
Proof. intros. cbn [sort_scan]. by rewrite bool_decide_eq_false_2. Qed.

Lemma first_wildcard_cons c s :
  c ≠ k_wild_escape →
  first_wildcard (c :: s) = if is_wild c then Some 0 else (λ n, 1 + n) <$> first_wildcard s.
Proof. intros. cbn [first_wildcard]. by rewrite bool_decide_eq_false_2. Qed.

Lemma sort_scan_later s pos chars :
  (0 < pos)%Z → (pos + Z.of_nat (length s) + 2 < 2 ^ 32)%Z →
  sort_scan s pos chars =
  match first_wildcard s with
  | Some i => (pos + Z.of_nat i + 2, if bool_decide (i = O) then chars else 128)%Z
  | None => (0, if bool_decide (s = []) then chars else 128)%Z
  end.
Proof.
  assert (∀ c s pos chars, c ≠ k_wild_escape → (0 < pos)%Z →
    (pos + Z.of_nat (length (c :: s)) + 2 < 2 ^ 32)%Z →
    sort_scan s (pos + 1) 128 =
      match first_wildcard s with Some i => (pos + 1 + Z.of_nat i + 2, 128) | None => (0, 128) end%Z →
    sort_scan (c :: s) pos chars =
    match first_wildcard (c :: s) with
    | Some i => (pos + Z.of_nat i + 2, if bool_decide (i = O) then chars else 128)%Z
    | None => (0, 128)%Z
    end) as Hstep.
  { clear. intros c s pos chars Hc Hp Hlen Hs. simpl length in Hlen.
    rewrite sort_scan_cons, first_wildcard_cons by done. destruct (is_wild c).
    - rewrite !u32_small by (rewrite ?u32_small; lia).
      rewrite (bool_decide_eq_false_2 (_ = 1%Z)) by lia. cbn [andb]. csimpl. f_equal. lia.
    - rewrite Hs. destruct (first_wildcard s); csimpl; [|done]. f_equal. lia. }
  revert pos chars. induction s as [|c|c d s IH1 IH2] using str_ind2; intros pos chars Hp Hlen.
  - done.
  - destruct (decide (c = k_wild_escape)) as [->|Hc]; [done|]. rewrite Hstep; [|done..].
    by destruct (first_wildcard [c]).
  - destruct (decide (c = k_wild_escape)) as [->|Hc].
    + change (sort_scan (k_wild_escape :: d :: s) pos chars) with (sort_scan s (pos + 2) 128).
      change (first_wildcard (k_wild_escape :: d :: s)) with ((λ n, 2 + n) <$> first_wildcard s).
      simpl length in Hlen. rewrite IH1 by lia.
      destruct (first_wildcard s) as [i|]; csimpl; [|by destruct s].
      f_equal; [lia|]. by destruct i.
    + rewrite Hstep; [|done..|].
      * by destruct (first_wildcard (c :: d :: s)).
      * simpl length in Hlen. rewrite IH2 by (simpl length; lia).
        destruct (first_wildcard (d :: s)) as [i|]; [|done]. by destruct i.
Qed.

Lemma get_sort_rank s :
  (Z.of_nat (length (c_str s)) < 2 ^ 32 - 4)%Z → get_sort [Some s] = sort_rank (c_str s).
Proof.
  intros Hlen.
  assert (get_sort [Some s] =
    let '(wild_pos, chars) := sort_scan (c_str s) 0 0 in
    u64 (if bool_decide (wild_pos = 0%Z) then chars else Z.min wild_pos 127)) as ->.
  { unfold get_sort. cbn [foldl]. by destruct (sort_scan (c_str s) 0 0). }
  assert (∀ z, (0 ≤ z < 2 ^ 64)%Z → u64 z = z) as Hu by apply u64_small.
  destruct (c_str s) as [|c t]; [done|]. unfold sort_rank.
  rewrite (bool_decide_eq_false_2 (c :: t = [])) by done. simpl length in Hlen.
  destruct (decide (c = k_wild_escape)) as [->|Hc].
  - rewrite bool_decide_eq_false_2 by done. destruct t as [|d t]; [done|].
    change (sort_scan (k_wild_escape :: d :: t) 0 0) with (sort_scan t 2 128).
    change (first_wildcard (k_wild_escape :: d :: t)) with ((λ n, 2 + n) <$> first_wildcard t).
    simpl length in Hlen. rewrite sort_scan_later by lia. destruct (first_wildcard t) as [i|]; csimpl.
    + rewrite bool_decide_eq_false_2 by lia. rewrite Hu by lia. lia.
    + by destruct (bool_decide (t = [])).
  - rewrite sort_scan_cons, first_wildcard_cons by done. destruct (is_wild c) eqn:Ew.
    + change (u32 (0 + 1)) with 1%Z. change (u32 (1 + 1)) with 2%Z. cbn [andb].
      destruct (decide (c = k_wild_many ∧ t = [])) as [[-> ->]|Hn]; [done|].
      rewrite (bool_decide_eq_false_2 (c :: t = [k_wild_many])) by (intros [=]; tauto).
      destruct (bool_decide (1%Z = 1%Z) && _ && _) eqn:E; [|done].
      apply andb_true_iff in E as [E ?]. bool_to_prop. tauto.
    + rewrite bool_decide_eq_false_2 by (intros [= -> _]; done).
      rewrite sort_scan_later by lia. destruct (first_wildcard t) as [i|]; csimpl.
      * rewrite bool_decide_eq_false_2 by lia. rewrite Hu by lia. lia.
      * by destruct (bool_decide (t = [])).
Qed.

(** ** Main results *)

(** C8: for every pattern in which no run of wildcards that begins with [%] contains
    a [_], [match_sql_wild] decides LIKE, escapes included: it accepts a string
    exactly when the declarative relation holds. *)
Theorem match_sql_wild_correct s p :
  plain_runs p = true → match_sql_wild s p = true ↔ like s p.
Proof. intros Hp. destruct (match_sql_wild_spec s p) as [H1 H2]. split; auto. Qed.

Lemma match_sql_wild_correct_witness :
  plain_runs ($"a\%_b%c") = true ∧ like ($"a%xb..c") ($"a\%_b%c").
Proof.
  split; [reflexivity|].
  apply (match_sql_wild_correct ($"a%xb..c") ($"a\%_b%c")); [reflexivity|vm_compute; reflexivity].
Defined.

(** A [_] that follows a [%] in the same run is not charged for a character: the
    string is accepted although LIKE rejects it, because the loop over the run
    never advances the string. On all patterns the error is one-sided: what LIKE
    accepts is accepted. *)
Theorem match_sql_wild_overaccepts :
  (∀ s p, like s p → match_sql_wild s p = true) ∧
  match_sql_wild ($"a") ($"%_a") = true ∧ ¬ like ($"a") ($"%_a").
Proof.
  split; [intros s p; apply match_sql_wild_spec|]. split; [vm_compute; reflexivity|].
  intros (u & v & Huv & (c & w & -> & (x & -> & _)%like_lit_inv)%like_one_inv)%like_many_suffix;
    [|by left|done|done].
  destruct u as [|? [|]]; simplify_eq.
Qed.

(** For a name without backslashes, [escape_wildcards] makes a pattern that
    matches this name and nothing else, has no unescaped wildcard, and is turned
    back into the name by [unescape_sql_wildcards]. *)
Theorem escape_wildcards_exact s t :
  k_wild_escape ∉ s →
  (match_sql_wild t (escape_wildcards s) = true ↔ t = s) ∧
  has_unescaped_sql_wildcard (escape_wildcards s) = false ∧
  unescape_sql_wildcards (escape_wildcards s) = s.
Proof.
  intros Hs. split.
  - destruct (like_escape_wildcards s Hs) as [Hp Hl]. rewrite <- Hl.
    destruct (match_sql_wild_spec t (escape_wildcards s)). split; auto.
  - revert s Hs. apply (escape_wildcards_ind (λ s p,
      has_unescaped_sql_wildcard p = false ∧ unescape_sql_wildcards p = s)); [done| |].
    + intros c s p Hw [H1 H2]. split; [done|]. cbn [unescape_sql_wildcards].
      by rewrite bool_decide_eq_true_2, Hw, H2.
    + intros c s p Hw Hc [H1 H2]. cbn [has_unescaped_sql_wildcard unescape_sql_wildcards].
      rewrite !(bool_decide_eq_false_2 (k_wild_escape = c)) by congruence. by rewrite Hw, H2.
Qed.

Lemma escape_wildcards_exact_witness :
  (k_wild_escape ∉ ($"50%_a")) ∧ unescape_sql_wildcards (escape_wildcards ($"50%_a")) = ($"50%_a").
Proof.
  assert (k_wild_escape ∉ ($"50%_a")) as H by (apply (bool_decide_unpack _); vm_compute; exact I).
  split; [exact H|]. apply (escape_wildcards_exact ($"50%_a") [] H).
Defined.

(** [SQL_wild_compare] is the strict order by decreasing rank, where the rank puts
    names without wildcards first (128), then patterns by the position of their
    first unescaped wildcard, later positions first up to a cap of 127, then a
    lone [%], then the empty string. *)
Theorem SQL_wild_compare_correct a b :
  (Z.of_nat (length (c_str a)) < 2 ^ 32 - 4)%Z → (Z.of_nat (length (c_str b)) < 2 ^ 32 - 4)%Z →
  SQL_wild_compare a b = (sort_rank (c_str b) <? sort_rank (c_str a))%Z.
Proof. intros. unfold SQL_wild_compare. by rewrite !get_sort_rank. Qed.

Lemma SQL_wild_compare_correct_witness :
  SQL_wild_compare ($"abc") ($"a%") = true ∧ SQL_wild_compare ($"%") ($"") = true ∧
  SQL_wild_compare ($"ab%") ($"a%") = (sort_rank (c_str ($"a%")) <? sort_rank (c_str ($"ab%")))%Z.
Proof.
  split; [reflexivity|]. split; [reflexivity|].
  apply (SQL_wild_compare_correct ($"ab%") ($"a%")); vm_compute; reflexivity.
Defined.
