(* ===== verification/Version.v ===== *)
(** * Versions

    Model of [mysqlshdk/libs/utils/version.{h,cc}]: parsing and printing of MySQL
    version numbers, their order, and the release calendar behind
    [corresponding_versions].

    Components are [int]s, kept as [Z]; [std::from_chars] on [int] is modelled with
    its range check. *)
From S2P Require Import Prelude UtilsString.

Open Scope nat_scope.

Definition INT_MAX : Z := 2 ^ 31 - 1.
Definition INT_MIN : Z := - 2 ^ 31.

(** ** std::from_chars on int *)

Inductive errc := errc_ok | errc_invalid_argument | errc_result_out_of_range.

(** Leading digits and the rest. *)
Fixpoint take_digits (s : str) : str * str :=
  match s with
  | c :: s' => if isdigit c then let '(d, r) := take_digits s' in (c :: d, r) else ([], s)
  | [] => ([], [])
  end.

(** The error code, the value and what is left of the input ([result.ptr]). *)
Definition from_chars_int (s : str) : errc * Z * str :=
  let '(neg, body) := match s with
                      | c :: s' => if bool_decide (c = "-"%char) then (true, s') else (false, s)
                      | [] => (false, [])
                      end in
  let '(digits, rest) := take_digits body in
  match digits with
  | [] => (errc_invalid_argument, 0%Z, s)
  | _ =>
      let v := if neg : bool then (- dec_value digits 0)%Z else dec_value digits 0 in
      if (INT_MIN <=? v)%Z && (v <=? INT_MAX)%Z then (errc_ok, v, rest)
      else (errc_result_out_of_range, 0%Z, rest)
  end.

(** ** Version *)

Record Version := {
  _major : Z;
  _minor : option Z;
  _patch : option Z;
  _extra : option str;
}.

#[global] Instance Version_eq_dec : EqDecision Version.
Proof. solve_decision. Defined.

(** The constructors from numbers. *)
Definition version2 (major minor : Z) : Version :=
  {| _major := major; _minor := Some minor; _patch := None; _extra := None |}.
Definition version3 (major minor patch : Z) : Version :=
  {| _major := major; _minor := Some minor; _patch := Some patch; _extra := None |}.

Definition get_major (v : Version) : Z := _major v.
Definition get_minor (v : Version) : Z := default 0%Z (_minor v).
Definition get_patch (v : Version) : Z := default 0%Z (_patch v).
Definition get_extra (v : Version) : str := default [] (_extra v).

Definition parse_token (data : str) : result Z :=
  let '(ec, value, ptr) := from_chars_int data in
  match ec with
  | errc_ok =>
      if bool_decide (ptr ≠ [])
      then Throw (invalid_argument "Error parsing version: Only digits allowed for version numbers")
      else Ok value
  | errc_invalid_argument => Throw (invalid_argument "Error parsing version: Not an integer")
  | errc_result_out_of_range =>
      Throw (invalid_argument "Error parsing version: Out of integer range")
  end.

(** The constructor from a string. *)
Definition parse_version (version : str) : result Version :=
  match version with
  | [] => Ok {| _major := 0; _minor := None; _patch := None; _extra := None |}
  | _ =>
      let tokens := str_split version ($"-") 1 false in
      if bool_decide (length tokens = 1) && bool_decide (length version = 5) &&
         forallb isdigit version
      then
        major ← parse_token (substr version 0 1);
        minor ← parse_token (substr version 1 2);
        patch ← parse_token (substr version 3 2);
        Ok {| _major := major; _minor := Some minor; _patch := Some patch; _extra := None |}
      else
        let extra := if bool_decide (length tokens = 2) then tokens !! 1 else None in
        match str_split (nth 0 tokens []) ($".") (-1) false with
        | [t0; t1; t2] =>
            patch ← parse_token t2; minor ← parse_token t1; major ← parse_token t0;
            Ok {| _major := major; _minor := Some minor; _patch := Some patch; _extra := extra |}
        | [t0; t1] =>
            minor ← parse_token t1; major ← parse_token t0;
            Ok {| _major := major; _minor := Some minor; _patch := None; _extra := extra |}
        | [t0] =>
            major ← parse_token t0;
            Ok {| _major := major; _minor := None; _patch := None; _extra := extra |}
        | _ => Throw (invalid_argument "Invalid version format: 1 to 3 version numbers expected")
        end
  end.

Definition get_short (v : Version) : str :=
  to_string (_major v) ++ match _minor v with Some m => $"." ++ to_string m | None => [] end.

Definition get_base (v : Version) : str :=
  get_short v ++ match _minor v, _patch v with
                 | Some _, Some p => $"." ++ to_string p
                 | _, _ => []
                 end.

Definition get_full (v : Version) : str :=
  get_base v ++ match _extra v with Some e => $"-" ++ e | None => [] end.

Definition numeric (v : Version) : Z :=
  u32 (get_major v * 10000 + get_minor v * 100 + get_patch v).

Definition numeric_version_series (v : Version) : Z := (numeric v / 100)%Z.

Definition is_mds (v : Version) : bool :=
  match _extra v with Some e => str_endswith_pair e ($"cloud") | None => false end.

(** ** Order *)

Definition version_lt (v w : Version) : bool :=
  (_major v <? _major w)%Z ||
  (_major v =? _major w)%Z &&
    ((get_minor v <? get_minor w)%Z ||
     (get_minor v =? get_minor w)%Z && (get_patch v <? get_patch w)%Z).

Definition version_eq (v w : Version) : bool :=
  (_major v =? _major w)%Z && (get_minor v =? get_minor w)%Z && (get_patch v =? get_patch w)%Z.

Definition version_le (v w : Version) : bool :=
  version_lt v w ||
  ((_major v =? _major w)%Z && (get_minor v =? get_minor w)%Z && (get_patch v =? get_patch w)%Z).

Definition version_gt (v w : Version) : bool := negb (version_le v w).
Definition version_ge (v w : Version) : bool := negb (version_lt v w).
Definition version_ne (v w : Version) : bool := negb (version_eq v w).

Definition version_bool (v : Version) : bool :=
  negb ((get_major v =? 0)%Z && (get_minor v =? 0)%Z && (get_patch v =? 0)%Z).

Definition major_version_difference (source target : Version) : Z :=
  let major_version v :=
    let m := get_major v in if (5 =? m)%Z && (7 =? get_minor v)%Z then 7%Z else m in
  (major_version target - major_version source)%Z.

(** ** The release calendar *)

Definition k_minor_version_8_0 : Z := 0.
Definition k_minor_version_8_4 : Z := 4.
Definition k_minor_version : Z := 7.
Definition k_release_8_0_id : Z := 7.

Definition is_lts_release (v : Version) : bool :=
  if (8 =? get_major v)%Z
  then (k_minor_version_8_0 =? get_minor v)%Z || (k_minor_version_8_4 =? get_minor v)%Z
  else (k_minor_version =? get_minor v)%Z.

(** [detail::off_cycle_releases]: patch numbers, ascending, of an LTS series. *)
Definition detail_off_cycle_releases (version_id : Z) : option (list Z) :=
  if (version_id =? k_release_8_0_id)%Z then Some [39%Z]
  else if (version_id =? 8)%Z then Some [2%Z]
  else None.

Definition off_cycle_releases (v : Version) : option (list Z) :=
  let major := get_major v in
  detail_off_cycle_releases
    (if (8 =? major)%Z && (k_minor_version_8_0 =? get_minor v)%Z then k_release_8_0_id else major).

Definition is_off_cycle_release (v : Version) : bool :=
  if negb (is_lts_release v) then bool_decide (get_patch v ≠ 0%Z)
  else match off_cycle_releases v with
       | Some patch_versions => bool_decide (get_patch v ∈ patch_versions)
       | None => false
       end.

Definition count_planned_releases (major minor : Z) : Z :=
  if (8 =? major)%Z then minor else (minor + 1)%Z.

(** The reverse loop of [count_off_cycle_releases]. *)
Fixpoint count_down (patches : list Z) (patch count : Z) : Z :=
  match patches with
  | p :: patches => if (patch <? p)%Z then count_down patches patch (count - 1)%Z else count
  | [] => count
  end.

Definition count_off_cycle_releases (v : Version) : Z :=
  match off_cycle_releases v with
  | Some patch_versions =>
      count_down (reverse patch_versions) (get_patch v) (Z.of_nat (length patch_versions))
  | None => 0
  end.

(** The reverse loop of [lts_release_patch]. *)
Fixpoint adjust_patch (patches : list Z) (releases : Z) (allow_off_cycle : bool) : Z :=
  match patches with
  | p :: patches =>
      if (p <? releases)%Z then releases
      else if (p =? releases)%Z then if allow_off_cycle then releases else (releases - 1)%Z
      else adjust_patch patches (releases - 1)%Z allow_off_cycle
  | [] => releases
  end.

Definition lts_release_patch (major releases : Z) (allow_off_cycle : bool) : Z :=
  match detail_off_cycle_releases major with
  | Some patch_versions =>
      adjust_patch (reverse patch_versions) (releases + Z.of_nat (length patch_versions))%Z
        allow_off_cycle
  | None => releases
  end.

(** The [while (true)] loop: the versions in the order they are appended, [None]
    when it does not end within [fuel] turns. [back] is the major number of
    [result.back()]. *)
Fixpoint corresponding_loop (fuel : nat) (back planned_releases : Z) (is_off_cycle : bool)
    : option (list Version) :=
  match fuel with
  | O => None
  | S fuel =>
      let lts_release_major := (back - 1)%Z in
      if (k_release_8_0_id =? lts_release_major)%Z
      then Some [version3 8 k_minor_version_8_0
                   (lts_release_patch k_release_8_0_id (33 + planned_releases) is_off_cycle)]
      else
        let lts_release_minor :=
          if (8 =? lts_release_major)%Z then k_minor_version_8_4 else k_minor_version in
        rest ← corresponding_loop fuel lts_release_major
                 (planned_releases + count_planned_releases lts_release_major lts_release_minor)%Z
                 is_off_cycle;
        Some (version3 lts_release_major lts_release_minor
                (lts_release_patch lts_release_major planned_releases is_off_cycle) :: rest)
  end.

(** [planned_releases] before the loop. *)
Definition planned_at (version : Version) : Z :=
  let planned := count_planned_releases (get_major version) (get_minor version) in
  if is_lts_release version
  then (planned + get_patch version - count_off_cycle_releases version)%Z else planned.

Definition corresponding_versions (version : Version) : option (list Version) :=
  l ← corresponding_loop (Z.to_nat (get_major version)) (get_major version) (planned_at version)
        (is_off_cycle_release version);
  Some (reverse (version :: l)).

Definition get_first_lts_version (version : Version) : Version :=
  let major := get_major version in
  if (major =? 8)%Z then version3 8 4 0 else version3 major 7 0.

Definition get_first_innovation_version (version : Version) : Version :=
  let major := get_major version in
  if (major =? 8)%Z then version3 8 1 0 else version3 major 0 0.

#[global] Arguments parse_token : simpl never.
