(* ===== verification/VersionFacts.v ===== *)
(** * Correctness of versions

    Versions are totally ordered by their three numbers, printing is inverted by
    parsing, and [corresponding_versions] lists the releases that were current
    together, by the release calendar. *)
From S2P Require Import Prelude UtilsString UtilsStringFacts Version.
From Stdlib Require Import Sorted.

Open Scope nat_scope.

(** ** Order *)

Lemma version_lt_spec v w :
  version_lt v w = true ↔
  (_major v < _major w ∨ _major v = _major w ∧
    (get_minor v < get_minor w ∨ get_minor v = get_minor w ∧ get_patch v < get_patch w))%Z.
Proof.
  unfold version_lt. by rewrite !orb_true_iff, !andb_true_iff, !orb_true_iff, !andb_true_iff,
    !Z.ltb_lt, !Z.eqb_eq.
Qed.

Lemma version_eq_spec v w :
  version_eq v w = true ↔
  _major v = _major w ∧ get_minor v = get_minor w ∧ get_patch v = get_patch w.
Proof. unfold version_eq. rewrite !andb_true_iff, !Z.eqb_eq. tauto. Qed.

Lemma version_le_spec v w :
  version_le v w = true ↔
  (_major v < _major w ∨ _major v = _major w ∧
    (get_minor v < get_minor w ∨ get_minor v = get_minor w ∧ get_patch v <= get_patch w))%Z.
Proof.
  unfold version_le. rewrite orb_true_iff, version_lt_spec. fold (version_eq v w).
  rewrite version_eq_spec. lia.
Qed.

Lemma version_lt_trans u v w : version_lt u v = true → version_lt v w = true → version_lt u w = true.
Proof. rewrite !version_lt_spec. lia. Qed.

(** ** Parsing *)

Lemma take_digits_all s r :
  Forall (λ c, isdigit c = true) s → match r with c :: _ => isdigit c = false | [] => True end →
  take_digits (s ++ r) = (s, r).
Proof.
  intros Hs Hr. induction Hs as [|c s Hc Hs IH]; simpl.
  - destruct r as [|c r]; [done|]. simpl. by rewrite Hr.
  - by rewrite Hc, IH.
Qed.

Lemma isdigit_not c d : isdigit c = true → isdigit d = false → c ≠ d.
Proof. congruence. Qed.

Lemma parse_token_dec n : (0 ≤ n ≤ INT_MAX)%Z → parse_token (dec n) = Ok n.
Proof.
  intros Hn. destruct (dec_spec n) as (Hne & Hd & Hv); [lia|].
  unfold parse_token, from_chars_int. destruct (dec n) as [|c ds] eqn:E; [done|].
  rewrite bool_decide_eq_false_2.
  2:{ rewrite Forall_cons in Hd. apply isdigit_not; [apply Hd|done]. }
  rewrite <- (app_nil_r (c :: ds)), take_digits_all by done. rewrite Hv.
  assert ((INT_MIN <=? n)%Z && (n <=? INT_MAX)%Z = true) as ->.
  { apply andb_true_iff. unfold INT_MIN, INT_MAX in *. lia. }
  done.
Qed.

Lemma to_string_dec n : (0 ≤ n)%Z → to_string n = dec n.
Proof. unfold to_string. intros. destruct (Z.ltb_spec n 0); [lia|done]. Qed.

(** Printed numbers contain no separator. *)
Lemma no_sep_digits sep s :
  isdigit sep = false → Forall (λ c, isdigit c = true) s → no_sep [sep] s.
Proof.
  intros Hsep Hs. eapply Forall_impl; [exact Hs|]. intros c Hc. simpl.
  apply bool_decide_eq_false_2. rewrite list_elem_of_singleton. congruence.
Qed.

Lemma mem_chars_singleton c : mem_chars [c] c = true.
Proof. apply bool_decide_eq_true_2, list_elem_of_singleton. done. Qed.

(** Versions whose text denotes them: non-negative [int] parts, a patch only with a
    minor part, and not a bare five-digit number, which is read as Mmmpp. *)
Record printable (v : Version) : Prop := {
  pr_major : (0 ≤ _major v ≤ INT_MAX)%Z;
  pr_minor : ∀ m, _minor v = Some m → (0 ≤ m ≤ INT_MAX)%Z;
  pr_patch : ∀ p, _patch v = Some p → (0 ≤ p ≤ INT_MAX)%Z ∧ _minor v ≠ None;
  pr_short : _minor v = None → _extra v = None → length (dec (_major v)) ≠ 5;
}.

(** The dot-separated numbers of a version. *)
Definition numbers (v : Version) : list Z :=
  _major v :: match _minor v, _patch v with
              | Some m, Some p => [m; p]
              | Some m, None => [m]
              | None, _ => []
              end.

Fixpoint dotted (l : list Z) : str :=
  match l with
  | [] => []
  | [n] => dec n
  | n :: l => dec n ++ "."%char :: dotted l
  end.

Lemma get_base_dotted v : printable v → get_base v = dotted (numbers v).
Proof.
  intros [Hmaj Hmin Hpat _]. unfold get_base, get_short, numbers.
  destruct (_minor v) as [m|]; [|rewrite !app_nil_r; simpl; apply to_string_dec; lia].
  specialize (Hmin m eq_refl). destruct (_patch v) as [p|]; simpl.
  - destruct (Hpat p eq_refl). rewrite !to_string_dec by lia. by rewrite <- (assoc_L (++)).
  - rewrite !to_string_dec by lia. by rewrite app_nil_r.
Qed.

Lemma dotted_no_sep sep l :
  sep ≠ "."%char → isdigit sep = false → Forall (λ n, 0 ≤ n)%Z l → no_sep [sep] (dotted l).
Proof.
  intros Hs Hd Hl. induction Hl as [|n l Hn Hl IH]; [constructor|].
  destruct (dec_spec n Hn) as (_ & Hdig & _). pose proof (no_sep_digits _ _ Hd Hdig).
  destruct l as [|n' l]; [done|]. change (no_sep [sep] (dec n ++ "."%char :: dotted (n' :: l))).
  apply Forall_app. split; [done|]. constructor; [|done].
  apply bool_decide_eq_false_2. rewrite list_elem_of_singleton. congruence.
Qed.

Lemma dotted_split l :
  l ≠ [] → Forall (λ n, 0 ≤ n)%Z l →
  ∀ m, (m < 0)%Z → split_ref ($".") [] (dotted l) m = dec <$> l.
Proof.
  intros Hne Hl. induction Hl as [|n l Hn Hl IH]; [done|]. intros m Hm.
  destruct (dec_spec n Hn) as (_ & Hdig & _).
  assert (no_sep ($".") (dec n)) as Hns by (by apply no_sep_digits).
  destruct l as [|n' l].
  - simpl. rewrite split_ref_end by by right. done.
  - change (dotted (n :: n' :: l)) with (dec n ++ "."%char :: dotted (n' :: l)).
    rewrite split_ref_cut; [|lia|done|apply mem_chars_singleton].
    rewrite IH by (done || lia). done.
Qed.

Lemma dotted_nonempty n l : (0 ≤ n)%Z → dotted (n :: l) ≠ [].
Proof.
  intros Hn. destruct (dec_spec n Hn) as (Hd & _). destruct l; simpl; [done|].
  by destruct (dec n).
Qed.

(** The text after the base numbers, and the tokens of the whole text. *)
Definition extra_text (e : option str) : str :=
  match e with Some e => $"-" ++ e | None => [] end.
Definition extra_token (e : option str) : list str :=
  match e with Some e => [e] | None => [] end.

Lemma dash_split base e :
  base ≠ [] → no_sep ($"-") base →
  str_split (base ++ extra_text e) ($"-") 1 false = base :: extra_token e.
Proof.
  intros Hne Hns. rewrite str_split_ref by (by destruct base). destruct e as [e|]; simpl.
  - rewrite split_ref_cut; [|lia|done|apply mem_chars_singleton].
    rewrite split_ref_end by by left. done.
  - rewrite app_nil_r, split_ref_end by by right. done.
Qed.

(** The text of a printable version is not a bare five-digit number. *)
Lemma not_short v :
  printable v →
  bool_decide (length (dotted (numbers v) :: extra_token (_extra v)) = 1) &&
  bool_decide (length (dotted (numbers v) ++ extra_text (_extra v)) = 5) &&
  forallb isdigit (dotted (numbers v) ++ extra_text (_extra v)) = false.
Proof.
  intros [_ _ _ Hsh]. destruct (_extra v) as [e|] eqn:Ee; [done|]. cbn [extra_text].
  rewrite app_nil_r. unfold numbers in *. destruct (_minor v) as [m|] eqn:Em.
  - apply andb_false_intro2. destruct (forallb isdigit _) eqn:Ef; [|done]. exfalso.
    rewrite forallb_forall in Ef. specialize (Ef "."%char). discriminate Ef.
    destruct (_patch v); simpl; apply in_or_app; right; left; done.
  - rewrite (bool_decide_eq_false_2 (length _ = 5)); [by rewrite andb_false_r|]. by apply Hsh.
Qed.

Lemma numbers_bounds v : printable v → Forall (λ n, 0 ≤ n ≤ INT_MAX)%Z (numbers v).
Proof.
  intros [Hmaj Hmin Hpat _]. unfold numbers. apply Forall_cons_2; [done|].
  destruct (_minor v) as [m|]; [|by apply Forall_nil_2].
  destruct (_patch v) as [p|];
    [destruct (Hpat p eq_refl)|]; auto using Forall_cons_2, Forall_nil_2.
Qed.

Lemma parse_get_full v : printable v → parse_version (get_full v) = Ok v.
Proof.
  intros Hv. unfold get_full. rewrite (get_base_dotted v Hv).
  change (match _extra v with Some e => $"-" ++ e | None => [] end) with (extra_text (_extra v)).
  assert (Forall (λ n, 0 ≤ n)%Z (numbers v)) as Hpos.
  { eapply Forall_impl; [by apply numbers_bounds|]. simpl. lia. }
  pose proof (not_short v Hv) as Hns. pose proof Hv as [Hmaj Hmin Hpat _].
  assert (dotted (numbers v) ≠ []) as Hne by (apply dotted_nonempty; lia).
  unfold parse_version. rewrite dash_split by (done || by apply dotted_no_sep).
  destruct (dotted (numbers v) ++ extra_text (_extra v)) as [|c0 full] eqn:Efull.
  { by destruct (dotted (numbers v)). }
  rewrite Hns. cbn [nth]. rewrite str_split_ref, dotted_split by (done || lia).
  assert ((if bool_decide (length (dotted (numbers v) :: extra_token (_extra v)) = 2)
    then (dotted (numbers v) :: extra_token (_extra v)) !! 1 else None) = _extra v) as ->
    by (by destruct (_extra v)).
  clear Hns Efull Hne Hpos.
  unfold numbers. destruct v as [maj [m|] pat extra]; cbn [_major _minor _patch _extra] in *.
  - specialize (Hmin m eq_refl). destruct pat as [p|]; csimpl.
    + destruct (Hpat p eq_refl). by rewrite !parse_token_dec.
    + by rewrite !parse_token_dec.
  - csimpl. rewrite parse_token_dec by done. cbn [mbind result_bind].
    destruct pat as [p|]; [by destruct (Hpat p eq_refl)|done].
Qed.

(** ** The release calendar *)

(** A series with one off-cycle release [k]. *)
Lemma adjust_one k n allow :
  let p := adjust_patch [k] (n + 1) allow in
  (p - count_down [k] p 1 = n)%Z ∧ (p = k → allow = true).
Proof.
  simpl. destruct (Z.ltb_spec k (n + 1)).
  { destruct (Z.ltb_spec (n + 1) k); split; lia. }
  destruct (Z.eqb_spec k (n + 1)); [destruct allow|].
  - destruct (Z.ltb_spec (n + 1) k); split; done || lia.
  - destruct (Z.ltb_spec (n + 1 - 1) k); split; lia.
  - destruct (Z.ltb_spec (n + 1 - 1) k); split; lia.
Qed.

(** The patch number chosen for [n] planned releases: exactly [n] of the releases
    up to it were planned, and it is off-cycle only when that is allowed. *)
Lemma lts_release_patch_spec id n allow minor :
  id = k_release_8_0_id ∧ minor = k_minor_version_8_0 ∨
  id = 8%Z ∧ minor = k_minor_version_8_4 ∨ (8 < id)%Z ∧ minor = k_minor_version →
  let w := version3 (if (id =? k_release_8_0_id)%Z then 8 else id) minor (lts_release_patch id n allow) in
  is_lts_release w = true ∧ (get_patch w - count_off_cycle_releases w = n)%Z ∧
  (is_off_cycle_release w = true → allow = true).
Proof.
  intros Hid w. subst w.
  destruct Hid as [[-> ->]|[[-> ->]|[Hid ->]]].
  1: pose proof (adjust_one 39 n allow) as [H1 H2].
  2: pose proof (adjust_one 2 n allow) as [H1 H2].
  1,2: split; [done|]; split; [exact H1|]; intros Ho; apply H2;
    unfold is_off_cycle_release in Ho; simpl in Ho;
    by rewrite bool_decide_eq_true, list_elem_of_singleton in Ho.
  assert ((id =? k_release_8_0_id)%Z = false) as -> by (unfold k_release_8_0_id; lia).
  assert (detail_off_cycle_releases id = None) as Hd.
  { unfold detail_off_cycle_releases, k_release_8_0_id.
    by destruct (Z.eqb_spec id 7), (Z.eqb_spec id 8); try lia. }
  assert ((8 =? id)%Z = false) as H8 by lia.
  set (w := version3 id k_minor_version (lts_release_patch id n allow)).
  assert (is_lts_release w = true) as Hl.
  { unfold is_lts_release, get_major. simpl _major. by rewrite H8. }
  assert (off_cycle_releases w = None) as Ho.
  { unfold off_cycle_releases, get_major. simpl _major. by rewrite H8. }
  split; [done|]. unfold count_off_cycle_releases, is_off_cycle_release. rewrite Ho, Hl.
  split; [|done]. unfold w, get_patch, lts_release_patch. simpl. rewrite Hd. simpl. unfold Datatypes.id. lia.
Qed.

(** The versions the loop appends when [result.back()] has major number [8 + n]. *)
Fixpoint descending (n : nat) (planned : Z) (off : bool) : list Version :=
  match n with
  | O => [version3 8 k_minor_version_8_0 (lts_release_patch k_release_8_0_id (33 + planned) off)]
  | S n =>
      let major := (8 + Z.of_nat n)%Z in
      let minor := if (8 =? major)%Z then k_minor_version_8_4 else k_minor_version in
      version3 major minor (lts_release_patch major planned off) ::
      descending n (planned + count_planned_releases major minor) off
  end.

Lemma corresponding_loop_descending fuel n planned off :
  n < fuel → corresponding_loop fuel (8 + Z.of_nat n) planned off = Some (descending n planned off).
Proof.
  revert fuel planned. induction n as [|n IH]; intros [|fuel] planned Hf; try lia; [done|].
  cbn [corresponding_loop descending].
  assert ((k_release_8_0_id =? 8 + Z.of_nat (S n) - 1)%Z = false) as ->.
  { apply Z.eqb_neq. unfold k_release_8_0_id. lia. }
  replace (8 + Z.of_nat (S n) - 1)%Z with (8 + Z.of_nat n)%Z by lia.
  rewrite IH by lia. done.
Qed.

Lemma descending_below n planned off w v :
  w ∈ descending n planned off → _major v = (8 + Z.of_nat n)%Z → (n = 0 → (0 < get_minor v)%Z) →
  version_lt w v = true.
Proof.
  revert planned v. induction n as [|n IH]; intros planned v; cbn [descending].
  - rewrite list_elem_of_singleton. intros -> Hm Hv. specialize (Hv eq_refl).
    apply version_lt_spec. right. split; [done|]. left. done.
  - rewrite elem_of_cons. intros [->|Hw] Hm _.
    + apply version_lt_spec. left. simpl. lia.
    + apply (version_lt_trans _ (version3 (8 + Z.of_nat n) 4 0)).
      * apply (IH _ _ Hw); [done|]. intros. done.
      * apply version_lt_spec. left. simpl. lia.
Qed.

Lemma StronglySorted_snoc {A} (R : A → A → Prop) l y :
  StronglySorted R l → Forall (λ x, R x y) l → StronglySorted R (l ++ [y]).
Proof.
  induction 1 as [|x l Hs IH Hx]; intros Hy; simpl; [by repeat constructor|].
  rewrite Forall_cons in Hy. destruct Hy as [Hxy Hy]. constructor; [by apply IH|].
  apply Forall_app. split; [done|by repeat constructor].
Qed.

Lemma descending_sorted n planned off :
  StronglySorted (λ a b, version_lt a b = true) (reverse (descending n planned off)).
Proof.
  revert planned. induction n as [|n IH]; intros planned; cbn [descending].
  { by repeat constructor. }
  rewrite reverse_cons. apply StronglySorted_snoc; [apply IH|]. apply Forall_forall.
  intros w. rewrite elem_of_reverse. intros Hw. apply (descending_below _ _ _ _ _ Hw); [done|]. intros ->. done.
Qed.

(** Planned releases, in all series, from the first release of the LTS series of [w]
    up to a version of major number [major] at which [planned] of its own had been
    made: four for the 8.x innovation releases, eight per later series, and 33
    for 8.0 before 8.1. *)
Definition planned_between (w : Version) (major planned : Z) : Z :=
  if (get_major w =? 8)%Z && (get_minor w =? 0)%Z
  then 33 + planned + (if (major =? 8)%Z then 0 else 4 + 8 * (major - 9))%Z
  else (planned + 8 * (major - 1 - get_major w))%Z.

Lemma descending_entries n planned off :
  Forall (λ w, is_lts_release w = true ∧
    (get_patch w - count_off_cycle_releases w = planned_between w (8 + Z.of_nat n) planned)%Z ∧
    (is_off_cycle_release w = true → off = true)) (descending n planned off).
Proof.
  revert planned. induction n as [|n IH]; intros planned; cbn [descending].
  - apply Forall_singleton.
    destruct (lts_release_patch_spec k_release_8_0_id (33 + planned) off k_minor_version_8_0)
      as (? & Hp & ?); [by left|]. simpl in *. split_and!; [done| |done].
    rewrite Hp. unfold planned_between. simpl. lia.
  - set (major := (8 + Z.of_nat n)%Z).
    set (minor := if (8 =? major)%Z then k_minor_version_8_4 else k_minor_version).
    assert (major = 8%Z ∧ minor = k_minor_version_8_4 ∨ (8 < major)%Z ∧ minor = k_minor_version) as Hmm.
    { unfold minor. destruct (Z.eqb_spec 8 major); [left|right]; split; done || lia. }
    assert ((major =? k_release_8_0_id)%Z = false) as Hne by (unfold k_release_8_0_id; lia).
    destruct (lts_release_patch_spec major planned off minor) as (? & Hp & ?); [by right|].
    rewrite Hne in *. apply Forall_cons_2.
    + split_and!; [done| |done]. rewrite Hp. unfold planned_between.
      assert ((get_minor (version3 major minor (lts_release_patch major planned off)) =? 0)%Z = false) as ->.
      { simpl. destruct Hmm as [[_ ->]|[_ ->]]; done. }
      rewrite andb_false_r. simpl. lia.
    + specialize (IH (planned + count_planned_releases major minor)%Z).
      rewrite Forall_forall in IH. apply Forall_forall. intros w Hin.
      destruct (IH w Hin) as (? & -> & ?). split_and!; [done| |done].
      fold major. unfold planned_between, count_planned_releases.
      destruct Hmm as [[Hm ->]|[Hm ->]].
      * assert (n = 0) as -> by lia. simpl in Hin. apply list_elem_of_singleton in Hin as ->.
        rewrite Hm. simpl. unfold k_minor_version_8_4. lia.
      * assert ((8 =? major)%Z = false) as -> by lia. unfold k_minor_version.
        assert ((major =? 8)%Z = false) as -> by lia.
        assert ((8 + Z.of_nat (S n) =? 8)%Z = false) as -> by (apply Z.eqb_neq; lia). case_match; lia.
Qed.

(** The versions [corresponding_versions] accepts: 8.1 to 8.4, and x.0 to x.7. *)
Definition in_calendar (v : Version) : bool :=
  (get_major v =? 8)%Z && (1 <=? get_minor v)%Z && (get_minor v <=? k_minor_version_8_4)%Z ||
  (8 <? get_major v)%Z && (0 <=? get_minor v)%Z && (get_minor v <=? k_minor_version)%Z.

(** ** Main results *)

(** The comparison operators of [Version] form one total order on the triple of
    numbers: irreflexive, transitive and total up to [operator==], with every
    other operator derived from [operator<]. *)
Theorem version_total_order u v w :
  version_lt v v = false ∧
  (version_lt u v = true → version_lt v w = true → version_lt u w = true) ∧
  (version_lt v w = true ∨ version_eq v w = true ∨ version_lt w v = true) ∧
  (version_eq v w = true → version_lt u v = version_lt u w) ∧
  version_gt v w = version_lt w v ∧ version_le v w = negb (version_lt w v) ∧
  version_ge v w = version_le w v ∧ version_ne v w = negb (version_eq v w).
Proof.
  assert (∀ x y, version_le x y = negb (version_lt y x)) as Hle.
  { intros x y. apply eq_true_iff_eq.
    rewrite version_le_spec, negb_true_iff, <- not_true_iff_false, version_lt_spec. lia. }
  split_and!; try done.
  - apply not_true_iff_false. rewrite version_lt_spec. lia.
  - apply version_lt_trans.
  - rewrite !version_lt_spec, version_eq_spec. lia.
  - rewrite version_eq_spec. unfold version_lt. by intros (-> & -> & ->).
  - unfold version_gt. by rewrite Hle, negb_involutive.
Qed.

(** Parsing the text [get_full] prints gives the version back, extra part
    included, for every version whose numbers are non-negative [int]s (a bare
    five-digit major number excepted, which is read as Mmmpp). *)
Theorem version_parse_print v : printable v → parse_version (get_full v) = Ok v.
Proof. apply parse_get_full. Qed.

Lemma version_parse_print_witness :
  let v := {| _major := 8; _minor := Some 0%Z; _patch := Some 36%Z; _extra := Some ($"u1-cloud") |} in
  get_full v = $"8.0.36-u1-cloud" ∧ parse_version (get_full v) = Ok v.
Proof.
  split; [vm_compute; reflexivity|]. apply version_parse_print.
  split; simpl; [unfold INT_MAX; lia| | |discriminate].
  - intros m [= <-]. unfold INT_MAX. lia.
  - intros p [= <-]. split; [unfold INT_MAX; lia|discriminate].
Defined.

(** [numeric] orders versions like [operator<] as long as minor and patch have at
    most two digits and the number fits an [int]. *)
Theorem numeric_monotone v w :
  (0 ≤ get_major v < 214748)%Z → (0 ≤ get_minor v < 100)%Z → (0 ≤ get_patch v < 100)%Z →
  (0 ≤ get_major w < 214748)%Z → (0 ≤ get_minor w < 100)%Z → (0 ≤ get_patch w < 100)%Z →
  (numeric v <? numeric w)%Z = version_lt v w.
Proof.
  intros. unfold numeric. rewrite !u32_small by lia. unfold get_major in *.
  apply eq_true_iff_eq. rewrite Z.ltb_lt, version_lt_spec. lia.
Qed.

Lemma numeric_monotone_witness :
  (numeric (version3 8 0 40) <? numeric (version3 8 4 3))%Z = version_lt (version3 8 0 40) (version3 8 4 3).
Proof. apply numeric_monotone; vm_compute; split; congruence. Defined.

(** For every version of the calendar, [corresponding_versions] ends and returns
    the requested version preceded by one release of each earlier LTS series, in
    strictly ascending order. In each of them exactly as many planned releases had
    been made as since the start of that series up to the requested version, and
    an off-cycle release is listed only for an off-cycle version. *)
Theorem corresponding_versions_correct v :
  in_calendar v = true →
  ∃ older, corresponding_versions v = Some (older ++ [v]) ∧
    Z.of_nat (length older) = (get_major v - 7)%Z ∧
    StronglySorted (λ a b, version_lt a b = true) (older ++ [v]) ∧
    Forall (λ w, is_lts_release w = true ∧
      (get_patch w - count_off_cycle_releases w = planned_between w (get_major v) (planned_at v))%Z ∧
      (is_off_cycle_release w = true → is_off_cycle_release v = true)) older.
Proof.
  intros Hv. assert (∃ n, get_major v = (8 + Z.of_nat n)%Z ∧ (n = 0 → (0 < get_minor v)%Z)) as (n & Hn & H0).
  { exists (Z.to_nat (get_major v - 8)). unfold in_calendar, k_minor_version_8_4 in Hv.
    apply orb_true_iff in Hv. rewrite !andb_true_iff, Z.eqb_eq, Z.ltb_lt, !Z.leb_le in Hv. lia. }
  unfold corresponding_versions. rewrite Hn, corresponding_loop_descending by lia. simpl.
  set (l := descending n (planned_at v) (is_off_cycle_release v)).
  exists (reverse l). rewrite reverse_cons. split_and!; [done| | |].
  - assert (∀ n p off, length (descending n p off) = S n) as Hlen.
    { clear. induction n; intros; simpl; auto. }
    rewrite length_reverse. unfold l. rewrite Hlen. lia.
  - apply StronglySorted_snoc; [apply descending_sorted|]. apply Forall_forall.
    intros w. rewrite elem_of_reverse. intros Hw. by apply (descending_below _ _ _ _ _ Hw).
  - pose proof (descending_entries n (planned_at v) (is_off_cycle_release v)) as H.
    rewrite Forall_forall in H. apply Forall_forall. intros w. rewrite elem_of_reverse. apply H.
Qed.

Lemma corresponding_versions_correct_witness :
  in_calendar (version3 9 0 1) = true ∧
  corresponding_versions (version3 9 0 1) = Some [version3 8 0 39; version3 8 4 2; version3 9 0 1] ∧
  StronglySorted (λ a b, version_lt a b = true) [version3 8 0 39; version3 8 4 2; version3 9 0 1].
Proof.
  split; [reflexivity|]. split; [vm_compute; reflexivity|].
  destruct (corresponding_versions_correct (version3 9 0 1)) as (older & H & _ & Hs & _); [reflexivity|].
  assert (corresponding_versions (version3 9 0 1) =
    Some [version3 8 0 39; version3 8 4 2; version3 9 0 1]) as E by (vm_compute; reflexivity).
  rewrite E in H. injection H as H. rewrite H. exact Hs.
Defined.
