(* ===== verification/SqlSplitter.v ===== *)
(** * The SQL statement splitter

    Model of [mysqlshdk/libs/utils/utils_mysql_parsing.{h,cc}]: [Sql_splitter],
    which finds statement boundaries in a buffer that is fed in chunks, and the
    functions that apply it to a stream.

    Pointers into the buffer are offsets from [m_begin].  [m_buf] is the memory
    of the buffer: its bytes followed by the terminating NUL; it keeps what the
    code leaves behind [m_end] when it shrinks the text.  Reads behind the NUL
    yield NUL in the model.  The callbacks are parameters that thread a state
    [U]; the command callback also gets the offset of its text, which the code
    recovers from the data pointer. *)
From S2P Require Import Prelude UtilsString Lexing.

Open Scope nat_scope.

(** ** Memory *)

Definition memmove (mem : str) (dst src n : nat) : str :=
  take dst mem ++ substr mem src n ++ drop (dst + length (substr mem src n)) mem.

(** [memchr(p, c, end - p)]; the length wraps when [end < p]. *)
Definition memchr (mem : str) (p : nat) (c : ascii) (e : nat) : option nat :=
  match find_char mem c p with
  | Some q => if bool_decide (q < e) || bool_decide (e < p) then Some q else None
  | None => None
  end.

(** ** Spans *)

Definition span_table (tables : list (list Z)) (no_backslash_escapes : bool) : list Z :=
  nth (if no_backslash_escapes then 1 else 0) tables [].

Fixpoint span_string (fuel : nat) (table : list Z) (quote : ascii) (mem : str) (p e : nat)
    : option nat :=
  match fuel with
  | O => None
  | S fuel =>
      if bool_decide (p < e) then
        let last_ch := char_at mem p in
        if (0 <? table_at table last_ch)%Z
        then span_string fuel table quote mem (p + Z.to_nat (table_at table last_ch)) e
        else if bool_decide (last_ch = nul) then span_string fuel table quote mem (p + 1) e
        else if bool_decide (char_at mem (p + 1) = quote)
        then span_string fuel table quote mem (p + 2) e
        else Some (p + 1)
      else None
  end.

Fixpoint span_quoted_identifier (fuel : nat) (quote : ascii) (mem : str) (p e : nat) : option nat :=
  match fuel with
  | O => None
  | S fuel =>
      match memchr mem p quote e with
      | None => None
      | Some q => if bool_decide (char_at mem (q + 1) = quote)
                  then span_quoted_identifier fuel quote mem (q + 2) e else Some (q + 1)
      end
  end.

Fixpoint span_dollar_quote (fuel : nat) (mem : str) (p e : nat) : option nat :=
  match fuel with
  | O => None
  | S fuel =>
      if bool_decide (p < e) then
        if bool_decide (table_at k_dollar_quoted_string_span_chars (char_at mem p) = 0%Z)
        then Some p else span_dollar_quote fuel mem (p + 1) e
      else None
  end.

Definition span_dollar_quoted_string (mem : str) (p e : nat) (tag : str) : option nat :=
  match find_sub tag (substr mem p (e - p)) with
  | Some q => Some (p + q + length tag)
  | None => None
  end.

Fixpoint span_comment (fuel : nat) (mem : str) (p e : nat) : option nat :=
  match fuel with
  | O => None
  | S fuel =>
      if bool_decide (p + 1 < e) then
        match memchr mem p "*"%char e with
        | None => None
        | Some q =>
            if bool_decide (char_at mem (q + 1) = "/"%char)
            then if bool_decide (q + 1 < e) then Some q else None
            else span_comment fuel mem (q + 1) e
        end
      else None
  end.

Definition is_blank (c : ascii) : bool :=
  bool_decide (c = " "%char) || bool_decide (c = "009"%char) || bool_decide (c = "013"%char).
Definition is_any_blank (c : ascii) : bool := is_blank c || bool_decide (c = newline).

Fixpoint skip_blanks (fuel : nat) (mem : str) (p e : nat) : nat :=
  match fuel with
  | O => p
  | S fuel => if bool_decide (p < e) && is_blank (char_at mem p)
              then skip_blanks fuel mem (p + 1) e else p
  end.

Fixpoint skip_not_blanks (fuel : nat) (mem : str) (p e : nat) : nat :=
  match fuel with
  | O => p
  | S fuel => if bool_decide (p < e) && negb (is_any_blank (char_at mem p))
              then skip_not_blanks fuel mem (p + 1) e else p
  end.

Definition k_delimiter : str := $"delimiter".

(** ** State *)

Inductive Context :=
| kNone | kStatement | kIdentifier | kComment | kCommentHint | kCommentConditional
| kSQuoteString | kDQuoteString | kDollarQuotedString | kBQuoteIdentifier | kDQuoteIdentifier.

#[global] Instance Context_eq_dec : EqDecision Context.
Proof. solve_decision. Defined.

Record Sql_splitter := {
  m_buf : str;                    (* memory at [m_begin], NUL included *)
  m_begin_set : bool;             (* m_begin is not null *)
  m_end : nat;
  m_ptr : nat;
  m_delimiter : str;
  m_context : list Context;       (* back() first *)
  m_dollar_quote : str;
  m_commands_table : list (list str);
  m_shrinked_bytes : nat;
  m_current_line : nat;
  m_total_offset : nat;
  m_ansi_quotes : bool;
  m_dollar_quoted_strings : bool;
  m_no_backslash_escapes : bool;
  m_last_chunk : bool;
  m_eof : bool;
}.

Record Range := { r_offset : nat; r_length : Z; r_line_num : nat }.

Definition set_text (s : Sql_splitter) (buf : str) (e : nat) (shrinked : nat) : Sql_splitter :=
  {| m_buf := buf; m_begin_set := m_begin_set s; m_end := e; m_ptr := m_ptr s;
     m_delimiter := m_delimiter s; m_context := m_context s; m_dollar_quote := m_dollar_quote s;
     m_commands_table := m_commands_table s; m_shrinked_bytes := shrinked;
     m_current_line := m_current_line s; m_total_offset := m_total_offset s;
     m_ansi_quotes := m_ansi_quotes s; m_dollar_quoted_strings := m_dollar_quoted_strings s;
     m_no_backslash_escapes := m_no_backslash_escapes s; m_last_chunk := m_last_chunk s;
     m_eof := m_eof s |}.
Definition set_ptr (s : Sql_splitter) (p : nat) : Sql_splitter :=
  {| m_buf := m_buf s; m_begin_set := m_begin_set s; m_end := m_end s; m_ptr := p;
     m_delimiter := m_delimiter s; m_context := m_context s; m_dollar_quote := m_dollar_quote s;
     m_commands_table := m_commands_table s; m_shrinked_bytes := m_shrinked_bytes s;
     m_current_line := m_current_line s; m_total_offset := m_total_offset s;
     m_ansi_quotes := m_ansi_quotes s; m_dollar_quoted_strings := m_dollar_quoted_strings s;
     m_no_backslash_escapes := m_no_backslash_escapes s; m_last_chunk := m_last_chunk s;
     m_eof := m_eof s |}.
Definition set_context (s : Sql_splitter) (c : list Context) : Sql_splitter :=
  {| m_buf := m_buf s; m_begin_set := m_begin_set s; m_end := m_end s; m_ptr := m_ptr s;
     m_delimiter := m_delimiter s; m_context := c; m_dollar_quote := m_dollar_quote s;
     m_commands_table := m_commands_table s; m_shrinked_bytes := m_shrinked_bytes s;
     m_current_line := m_current_line s; m_total_offset := m_total_offset s;
     m_ansi_quotes := m_ansi_quotes s; m_dollar_quoted_strings := m_dollar_quoted_strings s;
     m_no_backslash_escapes := m_no_backslash_escapes s; m_last_chunk := m_last_chunk s;
     m_eof := m_eof s |}.
Definition set_line (s : Sql_splitter) (n : nat) : Sql_splitter :=
  {| m_buf := m_buf s; m_begin_set := m_begin_set s; m_end := m_end s; m_ptr := m_ptr s;
     m_delimiter := m_delimiter s; m_context := m_context s; m_dollar_quote := m_dollar_quote s;
     m_commands_table := m_commands_table s; m_shrinked_bytes := m_shrinked_bytes s;
     m_current_line := n; m_total_offset := m_total_offset s; m_ansi_quotes := m_ansi_quotes s;
     m_dollar_quoted_strings := m_dollar_quoted_strings s;
     m_no_backslash_escapes := m_no_backslash_escapes s; m_last_chunk := m_last_chunk s;
     m_eof := m_eof s |}.
Definition set_dollar_quote (s : Sql_splitter) (q : str) : Sql_splitter :=
  {| m_buf := m_buf s; m_begin_set := m_begin_set s; m_end := m_end s; m_ptr := m_ptr s;
     m_delimiter := m_delimiter s; m_context := m_context s; m_dollar_quote := q;
     m_commands_table := m_commands_table s; m_shrinked_bytes := m_shrinked_bytes s;
     m_current_line := m_current_line s; m_total_offset := m_total_offset s;
     m_ansi_quotes := m_ansi_quotes s; m_dollar_quoted_strings := m_dollar_quoted_strings s;
     m_no_backslash_escapes := m_no_backslash_escapes s; m_last_chunk := m_last_chunk s;
     m_eof := m_eof s |}.
Definition with_delimiter (s : Sql_splitter) (d : str) : Sql_splitter :=
  {| m_buf := m_buf s; m_begin_set := m_begin_set s; m_end := m_end s; m_ptr := m_ptr s;
     m_delimiter := d; m_context := m_context s; m_dollar_quote := m_dollar_quote s;
     m_commands_table := m_commands_table s; m_shrinked_bytes := m_shrinked_bytes s;
     m_current_line := m_current_line s; m_total_offset := m_total_offset s;
     m_ansi_quotes := m_ansi_quotes s; m_dollar_quoted_strings := m_dollar_quoted_strings s;
     m_no_backslash_escapes := m_no_backslash_escapes s; m_last_chunk := m_last_chunk s;
     m_eof := m_eof s |}.
Definition set_end_flags (s : Sql_splitter) (last : bool) (eof : bool) : Sql_splitter :=
  {| m_buf := m_buf s; m_begin_set := m_begin_set s; m_end := m_end s; m_ptr := m_ptr s;
     m_delimiter := m_delimiter s; m_context := m_context s; m_dollar_quote := m_dollar_quote s;
     m_commands_table := m_commands_table s; m_shrinked_bytes := m_shrinked_bytes s;
     m_current_line := m_current_line s; m_total_offset := m_total_offset s;
     m_ansi_quotes := m_ansi_quotes s; m_dollar_quoted_strings := m_dollar_quoted_strings s;
     m_no_backslash_escapes := m_no_backslash_escapes s; m_last_chunk := last; m_eof := eof |}.
Definition set_modes (s : Sql_splitter) (ansi : bool) (dollar : bool) (no_backslash : bool) : Sql_splitter :=
  {| m_buf := m_buf s; m_begin_set := m_begin_set s; m_end := m_end s; m_ptr := m_ptr s;
     m_delimiter := m_delimiter s; m_context := m_context s; m_dollar_quote := m_dollar_quote s;
     m_commands_table := m_commands_table s; m_shrinked_bytes := m_shrinked_bytes s;
     m_current_line := m_current_line s; m_total_offset := m_total_offset s;
     m_ansi_quotes := ansi; m_dollar_quoted_strings := dollar;
     m_no_backslash_escapes := no_backslash; m_last_chunk := m_last_chunk s; m_eof := m_eof s |}.

Definition set_ansi_quotes (s : Sql_splitter) (enabled : bool) : Sql_splitter :=
  set_modes s enabled (m_dollar_quoted_strings s) (m_no_backslash_escapes s).
Definition set_dollar_quoted_strings (s : Sql_splitter) (enabled : bool) : Sql_splitter :=
  set_modes s (m_ansi_quotes s) enabled (m_no_backslash_escapes s).
Definition set_no_backslash_escapes (s : Sql_splitter) (enabled : bool) : Sql_splitter :=
  set_modes s (m_ansi_quotes s) (m_dollar_quoted_strings s) enabled.

Definition chunk_size (s : Sql_splitter) : nat := m_end s.
Definition eof (s : Sql_splitter) : bool :=
  m_last_chunk s && (bool_decide (m_end s ≤ m_ptr s) || m_eof s).
Definition is_last_chunk (s : Sql_splitter) : bool := m_last_chunk s.

Definition context (s : Sql_splitter) : Context :=
  match m_context s with c :: _ => c | [] => kNone end.
Definition push (s : Sql_splitter) (c : Context) : Sql_splitter := set_context s (c :: m_context s).
Definition pop (s : Sql_splitter) : Sql_splitter := set_context s (tail (m_context s)).

(** The constructor: the table of commands by first letter ('a' to 'y'), the last
    given first. *)
Definition make_commands_table (commands : list str) : list (list str) :=
  (λ off, reverse (filter (λ cmd : str, uch (tolower (char_at cmd 0)) = (97 + Z.of_nat off)%Z) commands))
  <$> seq 0 25.

Definition make_Sql_splitter (commands : list str) : Sql_splitter :=
  {| m_buf := []; m_begin_set := false; m_end := 0; m_ptr := 0; m_delimiter := $";";
     m_context := []; m_dollar_quote := []; m_commands_table := make_commands_table commands;
     m_shrinked_bytes := 0; m_current_line := 1; m_total_offset := 0; m_ansi_quotes := false;
     m_dollar_quoted_strings := true; m_no_backslash_escapes := false; m_last_chunk := false;
     m_eof := false |}.

(** [reset]: the command table, the dollar quote and its mode are kept. *)
Definition reset (s : Sql_splitter) : Sql_splitter :=
  {| m_buf := []; m_begin_set := false; m_end := 0; m_ptr := 0; m_delimiter := $";";
     m_context := []; m_dollar_quote := m_dollar_quote s; m_commands_table := m_commands_table s;
     m_shrinked_bytes := 0; m_current_line := 1; m_total_offset := 0; m_ansi_quotes := false;
     m_dollar_quoted_strings := m_dollar_quoted_strings s; m_no_backslash_escapes := false;
     m_last_chunk := false; m_eof := false |}.

(** [feed_chunk(buffer, size)]: [mem] is the memory at [buffer]. *)
Definition feed_chunk (s : Sql_splitter) (mem : str) (size : nat) : Sql_splitter :=
  {| m_buf := mem; m_begin_set := true; m_end := size; m_ptr := 0; m_delimiter := m_delimiter s;
     m_context := []; m_dollar_quote := m_dollar_quote s; m_commands_table := m_commands_table s;
     m_shrinked_bytes := 0; m_current_line := m_current_line s;
     m_total_offset := m_total_offset s + (if m_begin_set s then m_end s else 0);
     m_ansi_quotes := m_ansi_quotes s; m_dollar_quoted_strings := m_dollar_quoted_strings s;
     m_no_backslash_escapes := m_no_backslash_escapes s; m_last_chunk := m_last_chunk s;
     m_eof := m_eof s |}.

Definition feed (s : Sql_splitter) (mem : str) (size : nat) : Sql_splitter :=
  let s := feed_chunk s mem size in set_end_flags s true (m_eof s).

(** [pack_buffer]: the new contents of the buffer. *)
Definition pack_buffer (s : Sql_splitter) (buffer : str) (last_range : Range) : str :=
  if bool_decide (0 < r_offset last_range) then
    substr buffer (r_offset last_range) (length buffer - r_offset last_range - m_shrinked_bytes s)
  else if bool_decide (0 < m_shrinked_bytes s) then take (length buffer - m_shrinked_bytes s) buffer
  else buffer.

Definition context_to_string (c : Context) : str :=
  match c with
  | kNone => []
  | kStatement | kIdentifier | kCommentHint | kCommentConditional => $"-"
  | kComment => $"/*"
  | kSQuoteString => [squote]
  | kDQuoteString => [dquote]
  | kDollarQuotedString => [dollar]
  | kBQuoteIdentifier => [backtick]
  | kDQuoteIdentifier => [dquote]
  end.

(** ** next_range *)

Section splitter.
Context {U : Type}.
(** [m_cmd_callback(text, single_line, line_num)], with the offset of the text
    first; it returns the length to skip and whether the command delimits. *)
Context (cmd_callback : U → nat → str → bool → nat → run (U * (nat * bool))).
Context (err_callback : U → str → run U).

Definition set_delimiter (u : U) (s : Sql_splitter) (delim : str) : run (U * Sql_splitter * bool) :=
  if bool_decide (delim = []) then
    u ← err_callback u ($"DELIMITER must be followed by a 'delimiter' character or string");
    Ret (u, s, false)
  else if negb (m_no_backslash_escapes s) && bool_decide (find_char delim backslash 0 ≠ None) then
    u ← err_callback u ($"DELIMITER cannot contain a backslash character");
    Ret (u, s, false)
  else Ret (u, with_delimiter s delim, true).

(** The variables of [next_range] that change while it scans a line. *)
Record Locals := {
  l_sp : Sql_splitter;
  l_bos : nat;
  l_p : nat;
  l_eol : nat;
  l_next_bol : nat;
  l_line_count : nat;
  l_command : bool;
  l_last_line_was_delimiter : bool;
}.

Definition set_sp (l : Locals) (s : Sql_splitter) : Locals :=
  {| l_sp := s; l_bos := l_bos l; l_p := l_p l; l_eol := l_eol l; l_next_bol := l_next_bol l;
     l_line_count := l_line_count l; l_command := l_command l;
     l_last_line_was_delimiter := l_last_line_was_delimiter l |}.
Definition set_p (l : Locals) (q : nat) : Locals :=
  {| l_sp := l_sp l; l_bos := l_bos l; l_p := q; l_eol := l_eol l; l_next_bol := l_next_bol l;
     l_line_count := l_line_count l; l_command := l_command l;
     l_last_line_was_delimiter := l_last_line_was_delimiter l |}.
Definition set_bos (l : Locals) (b : nat) : Locals :=
  {| l_sp := l_sp l; l_bos := b; l_p := l_p l; l_eol := l_eol l; l_next_bol := l_next_bol l;
     l_line_count := l_line_count l; l_command := l_command l;
     l_last_line_was_delimiter := l_last_line_was_delimiter l |}.
Definition set_ends (l : Locals) (e nb : nat) : Locals :=
  {| l_sp := l_sp l; l_bos := l_bos l; l_p := l_p l; l_eol := e; l_next_bol := nb;
     l_line_count := l_line_count l; l_command := l_command l;
     l_last_line_was_delimiter := l_last_line_was_delimiter l |}.
Definition set_line_count (l : Locals) (n : nat) : Locals :=
  {| l_sp := l_sp l; l_bos := l_bos l; l_p := l_p l; l_eol := l_eol l; l_next_bol := l_next_bol l;
     l_line_count := n; l_command := l_command l;
     l_last_line_was_delimiter := l_last_line_was_delimiter l |}.
Definition set_command (l : Locals) (b : bool) : Locals :=
  {| l_sp := l_sp l; l_bos := l_bos l; l_p := l_p l; l_eol := l_eol l; l_next_bol := l_next_bol l;
     l_line_count := l_line_count l; l_command := b;
     l_last_line_was_delimiter := l_last_line_was_delimiter l |}.
Definition set_last_delim (l : Locals) (b : bool) : Locals :=
  {| l_sp := l_sp l; l_bos := l_bos l; l_p := l_p l; l_eol := l_eol l; l_next_bol := l_next_bol l;
     l_line_count := l_line_count l; l_command := l_command l; l_last_line_was_delimiter := b |}.

Definition push_l (l : Locals) (c : Context) : Locals := set_sp l (push (l_sp l) c).
Definition pop_l (l : Locals) : Locals := set_sp l (pop (l_sp l)).
Definition byte_at (l : Locals) (q : nat) : ascii := char_at (m_buf (l_sp l)) q.

(** Where control goes: the next turn of the loop over the line ([continue]), the
    second [switch] ([break]), or out of [next_range]; [delim] is [None] when
    [*out_delim] is not assigned. *)
Inductive flow :=
| Continue (u : U) (l : Locals)
| Break (u : U) (l : Locals)
| Return (u : U) (s : Sql_splitter) (found : bool) (r : Range) (delim : option str).

(** [static_cast<size_t>(a - b)] on pointers. *)
Definition pdiff (a b : nat) : Z := u64 (Z.of_nat a - Z.of_nat b).

Definition unfinished_stmt (u : U) (l : Locals) : run flow :=
  Ret (Return u (set_ptr (l_sp l) (l_bos l)) false
         {| r_offset := l_bos l; r_length := pdiff (m_end (l_sp l)) (l_bos l);
            r_line_num := m_current_line (l_sp l) |} None).

(** [run_command]: the new state and whether the command was removed. *)
Definition run_command (u : U) (l : Locals) (delimited : bool) : run (U * Locals * bool) :=
  let l := set_command l false in
  let s := l_sp l in
  r ← cmd_callback u (l_bos l) (substr (m_buf s) (l_bos l) (l_p l - l_bos l)) true (m_current_line s);
  let '(u, (skip, _)) := r in
  if bool_decide (skip = 0) then Ret (u, l, false)
  else
    let skip := if delimited then skip + length (m_delimiter s) else skip in
    let q := l_bos l + skip in
    let s := set_text s (memmove (m_buf s) (l_bos l) q (m_end s - q + 1)) (m_end s - skip)
               (m_shrinked_bytes s + skip) in
    let l := set_ends (set_p (set_sp l s) (l_bos l)) (l_eol l - skip) (l_next_bol l - skip) in
    Ret (u, pop_l l, true).

(** [m_delimiter.compare(0, size, p, 0, size) == 0] reads a C string at [p]. *)
Definition at_delimiter (l : Locals) : bool :=
  let d := m_delimiter (l_sp l) in
  bool_decide (byte_at l (l_p l) = char_at d 0) && bool_decide (l_p l + length d ≤ l_eol l) &&
  bool_decide (take (length d) (c_str (drop (l_p l) (m_buf (l_sp l)))) = d).

(** The end of [other]: a byte with no special meaning. *)
Definition plain_char (u : U) (l : Locals) : run flow :=
  let l :=
    if negb (is_any_blank (byte_at l (l_p l))) then
      if bool_decide (context (l_sp l) = kNone) then push_l l kStatement else l
    else
      let l := if bool_decide (context (l_sp l) = kIdentifier) then pop_l l else l in
      if bool_decide (l_p l = l_bos l) then set_bos l (l_bos l + 1) else l in
  Ret (Break u (set_p l (l_p l + 1))).

(** Labels [default] and [other]. *)
Definition other (u : U) (l : Locals) : run flow :=
  let c := byte_at l (l_p l) in
  let text := substr (m_buf (l_sp l)) (l_p l) (m_end (l_sp l) - l_p l) in
  if bool_decide (context (l_sp l) = kNone) then
    let kwds := if in_range 97 121 (tolower c)
                then nth (Z.to_nat (uch (tolower c) - 97)) (m_commands_table (l_sp l)) [] else [] in
    match List.find (λ kwd, str_ibeginswith_pair text kwd &&
                            is_any_blank (byte_at l (l_p l + length kwd))) kwds with
    | Some kwd =>
        Ret (Continue u (push_l (set_command (set_p l (l_p l + length kwd + 1)) true) kStatement))
    | None => if negb (bool_decide (kwds = [])) && l_command l then Ret (Continue u l) else plain_char u l
    end
  else if bool_decide (context (l_sp l) = kDollarQuotedString) then
    Ret (Break u (set_p (set_sp l (set_dollar_quote (l_sp l) (m_dollar_quote (l_sp l) ++ [c]))) (l_p l + 1)))
  else plain_char u l.

(** [case '\\']: an escape command. *)
Definition case_backslash (u : U) (l : Locals) (has_complete_line : bool) : run flow :=
  let s := l_sp l in
  if m_no_backslash_escapes s || l_command l then other u l
  else if bool_decide (l_eol l - l_p l = 1) then unfinished_stmt u l
  else
    r ← cmd_callback u (l_p l) (substr (m_buf s) (l_p l) (l_eol l - l_p l))
          (bool_decide (l_p l = l_bos l)) (m_current_line s);
    let '(u, (skip, delim)) := r in
    if bool_decide (skip = 0) && bool_decide (l_p l = l_bos l) && negb has_complete_line
    then unfinished_stmt u l
    else if delim : bool then
      Ret (Return u (set_line (pop (set_ptr s (l_p l + skip))) (m_current_line s + l_line_count l)) true
             {| r_offset := l_bos l; r_length := pdiff (l_p l) (l_bos l);
                r_line_num := m_current_line s |}
             (Some (substr (m_buf s) (l_p l) skip)))
    else
      let s := set_text s (memmove (m_buf s) (l_p l) (l_p l + skip) (m_end s - l_p l - skip))
                 (m_end s - skip) (m_shrinked_bytes s + skip) in
      Ret (Break u (set_ends (set_sp l s) (l_eol l - skip) (l_next_bol l))).

(** [case '$'] *)
Definition case_dollar (u : U) (l : Locals) : run flow :=
  let s := l_sp l in
  if m_dollar_quoted_strings s then
    match span_dollar_quote (S (l_eol l)) (m_buf s) (l_p l + 1) (l_eol l) with
    | Some pp =>
        if bool_decide (byte_at l pp = dollar) then
          let s := set_dollar_quote s (substr (m_buf s) (l_p l) (pp - l_p l + 1)) in
          Ret (Break u (push_l (set_p (set_sp l s) (pp + 1)) kDollarQuotedString))
        else Ret (Break u (set_p l pp))
    | None => unfinished_stmt u l
    end
  else Ret (Break u (push_l (set_p l (l_p l + 1)) kIdentifier)).

(** [case '/'] *)
Definition case_slash (u : U) (l : Locals) (has_complete_line : bool) : run flow :=
  if bool_decide (3 ≤ m_end (l_sp l) - l_p l) then
    if bool_decide (byte_at l (l_p l + 1) = "*"%char) then
      if bool_decide (byte_at l (l_p l + 2) = "+"%char)
      then Ret (Break u (set_p (push_l l kCommentHint) (l_p l + 3)))
      else if bool_decide (byte_at l (l_p l + 2) = "!"%char)
      then Ret (Break u (set_p (push_l l kCommentConditional) (l_p l + 3)))
      else Ret (Break u (set_p (push_l l kComment) (l_p l + 2)))
    else other u l
  else if negb has_complete_line then unfinished_stmt u l
  else other u l.

(** [case 'd'] and [case 'D']: the DELIMITER keyword. *)
Definition case_delimiter (u : U) (l : Locals) (has_complete_line : bool) : run flow :=
  let s := l_sp l in
  if bool_decide (context s = kNone) &&
     str_ibeginswith_pair (substr (m_buf s) (l_p l) (m_end s - l_p l)) k_delimiter then
    if has_complete_line then
      let after := l_p l + length k_delimiter in
      let np := skip_blanks (S (l_eol l)) (m_buf s) after (l_eol l) in
      r ← (if bool_decide (np = l_eol l) || bool_decide (np = after) then set_delimiter u s []
           else set_delimiter u s (substr (m_buf s) np
                  (skip_not_blanks (S (l_eol l)) (m_buf s) np (l_eol l) - np)));
      let '(u, s, _) := r in
      let l := set_sp l (set_line (pop s) (m_current_line s + 1)) in
      Ret (Break u (set_last_delim (set_p (set_bos l (l_next_bol l)) (l_next_bol l)) true))
    else unfinished_stmt u l
  else other u l.

(** A comment up to the end of the line ([case '#'] and [case '-']). *)
Definition line_comment (u : U) (l : Locals) (has_complete_line has_newline : bool) : run flow :=
  let s := l_sp l in
  if has_complete_line then
    if bool_decide (context s = kNone) then
      let nl := (if has_newline then 1 else 0) +
                (if bool_decide (byte_at l (l_eol l - 1) = "013"%char) then 1 else 0) in
      Ret (Return u (set_line (set_ptr s (l_next_bol l)) (m_current_line s + (l_line_count l + 1))) true
             {| r_offset := l_bos l;
                r_length := u64 (Z.of_nat (l_eol l) - Z.of_nat (l_bos l) - Z.of_nat nl);
                r_line_num := m_current_line s |} (Some []))
    else Ret (Break u (set_p l (l_next_bol l)))
  else unfinished_stmt u l.

Definition case_dash (u : U) (l : Locals) (has_complete_line has_newline : bool) : run flow :=
  if bool_decide (2 < m_end (l_sp l) - l_p l) && bool_decide (byte_at l (l_p l + 1) = "-"%char) &&
     is_any_blank (byte_at l (l_p l + 2))
  then line_comment u l has_complete_line has_newline
  else other u l.

(** [switch ( *p)] *)
Definition first_switch (u : U) (l : Locals) (has_complete_line has_newline : bool) : run flow :=
  let c := byte_at l (l_p l) in
  let opening ctx := Ret (Break u (push_l (set_p l (l_p l + 1)) ctx)) in
  if bool_decide (c = backslash) then case_backslash u l has_complete_line
  else if bool_decide (c = squote) then opening kSQuoteString
  else if bool_decide (c = dquote)
  then opening (if m_ansi_quotes (l_sp l) then kDQuoteIdentifier else kDQuoteString)
  else if bool_decide (c = backtick) then opening kBQuoteIdentifier
  else if bool_decide (c = dollar) then case_dollar u l
  else if bool_decide (c = "/"%char) then case_slash u l has_complete_line
  else if bool_decide (c = "d"%char) || bool_decide (c = "D"%char)
  then case_delimiter u l has_complete_line
  else if bool_decide (c = "#"%char) then line_comment u l has_complete_line has_newline
  else if bool_decide (c = "-"%char) then case_dash u l has_complete_line has_newline
  else other u l.

(** [switch (context())]: the rest of a quoted part or comment, up to the end of
    the line. *)
Definition second_switch (u : U) (l : Locals) (has_complete_line : bool) : run flow :=
  let s := l_sp l in
  let mem := m_buf s in
  let fuel := S (S (length mem)) in
  let spanned (q : option nat) :=
    match q with
    | Some q => Ret (Continue u (pop_l (set_p l q)))
    | None => if has_complete_line then Ret (Continue u (set_p l (l_eol l))) else unfinished_stmt u l
    end in
  match context s with
  | kNone | kStatement | kIdentifier | kCommentConditional => Ret (Continue u l)
  | kSQuoteString =>
      spanned (span_string fuel (span_table k_quoted_string_span_skips_sq (m_no_backslash_escapes s))
                 squote mem (l_p l) (l_eol l))
  | kDQuoteString =>
      spanned (span_string fuel (span_table k_quoted_string_span_skips_dq (m_no_backslash_escapes s))
                 dquote mem (l_p l) (l_eol l))
  | kComment | kCommentHint =>
      spanned ((λ q, q + 2) <$> span_comment fuel mem (l_p l) (l_eol l))
  | kDollarQuotedString =>
      spanned (span_dollar_quoted_string mem (l_p l) (l_eol l) (c_str (m_dollar_quote s)))
  | kBQuoteIdentifier => spanned (span_quoted_identifier fuel backtick mem (l_p l) (l_eol l))
  | kDQuoteIdentifier => spanned (span_quoted_identifier fuel dquote mem (l_p l) (l_eol l))
  end.

(** One turn of [while (p && p < eol)]. *)
Definition lex_step (u : U) (l : Locals) (has_complete_line has_newline : bool) : run flow :=
  let ctx := context (l_sp l) in
  let switches :=
    f ← first_switch u l has_complete_line has_newline;
    match f with
    | Break u l => second_switch u l has_complete_line
    | f => Ret f
    end in
  match ctx with
  | kCommentConditional =>
      if bool_decide (2 < l_eol l - l_p l) && bool_decide (byte_at l (l_p l) = "*"%char) &&
         bool_decide (byte_at l (l_p l + 1) = "/"%char)
      then Ret (Continue u (set_p (pop_l l) (l_p l + 2)))
      else switches
  | kNone | kStatement | kIdentifier =>
      if at_delimiter l then
        r ← (if l_command l then run_command u l true else Ret (u, l, false));
        let '(u, l, removed) := r in
        if removed : bool then Ret (Continue u l)
        else
          let s := l_sp l in
          Ret (Return u (set_line (set_ptr (pop s) (l_p l + length (m_delimiter s)))
                           (m_current_line s + l_line_count l)) true
                 {| r_offset := l_bos l; r_length := pdiff (l_p l) (l_bos l);
                    r_line_num := m_current_line s |} (Some (m_delimiter s)))
      else switches
  | _ => second_switch u l has_complete_line
  end.

Fixpoint line_loop (fuel : nat) (u : U) (l : Locals) (has_complete_line has_newline : bool) : run flow :=
  match fuel with
  | O => Diverge
  | S fuel =>
      if bool_decide (l_p l < l_eol l) then
        f ← lex_step u l has_complete_line has_newline;
        match f with
        | Continue u l => line_loop fuel u l has_complete_line has_newline
        | f => Ret f
        end
      else Ret (Break u l)
  end.

(** [if (p == eol)]: a pending command is run, or the line is counted. *)
Definition end_of_line (u : U) (l : Locals) : run flow :=
  if bool_decide (l_p l = l_eol l) then
    if l_command l then
      r ← run_command u l false;
      let '(u, l, _) := r in Ret (Continue u l)
    else if negb (l_last_line_was_delimiter l)
    then Ret (Continue u (set_line_count l (l_line_count l + 1)))
    else Ret (Continue u l)
  else Ret (Continue u l).

(** One turn of [while (next_bol < m_end)]: a line. *)
Definition scan_line (u : U) (l : Locals) : run flow :=
  let s := l_sp l in
  let bol := l_next_bol l in
  let '(e, has_complete_line, has_newline) :=
    match memchr (m_buf s) bol newline (m_end s) with
    | Some e => (e + 1, true, true)
    | None => (m_end s, m_last_chunk s, false)
    end in
  f ← line_loop (S (S (length (m_buf s)))) u
        {| l_sp := s; l_bos := l_bos l; l_p := bol; l_eol := e; l_next_bol := e;
           l_line_count := l_line_count l; l_command := false; l_last_line_was_delimiter := false |}
        has_complete_line has_newline;
  match f with
  | Break u l | Continue u l => end_of_line u l
  | f => Ret f
  end.

Fixpoint lines_loop (fuel : nat) (u : U) (l : Locals) : run flow :=
  match fuel with
  | O => Diverge
  | S fuel =>
      if bool_decide (l_next_bol l < m_end (l_sp l)) then
        f ← scan_line u l;
        match f with
        | Continue u l | Break u l => lines_loop fuel u l
        | f => Ret f
        end
      else Ret (Break u l)
  end.

(** The loop over blank lines at the start; the new [bos] and the lines skipped. *)
Fixpoint skip_empty_lines (fuel : nat) (mem : str) (b e line : nat) : nat * nat :=
  match fuel with
  | O => (b, line)
  | S fuel =>
      let b := skip_blanks (S e) mem b e in
      if bool_decide (char_at mem b = newline) then skip_empty_lines fuel mem (b + 1) e (line + 1)
      else (b, line)
  end.

(** The caller's state, the splitter, the result, [*out_range] and [*out_delim]
    ([None] when it is not assigned). *)
Definition next_range (u : U) (s : Sql_splitter) : run (U * Sql_splitter * bool * Range * option str) :=
  let '(b, line) :=
    skip_empty_lines (S (length (m_buf s))) (m_buf s) (m_ptr s) (m_end s) (m_current_line s) in
  f ← lines_loop (S (length (m_buf s))) u
        {| l_sp := set_line s line; l_bos := b; l_p := b; l_eol := b; l_next_bol := b;
           l_line_count := 0; l_command := false; l_last_line_was_delimiter := false |};
  match f with
  | Return u s found r delim => Ret (u, s, found, r, delim)
  | Break u l | Continue u l =>
      let s := l_sp l in
      let range := {| r_offset := l_bos l; r_length := pdiff (m_end s) (l_bos l);
                      r_line_num := m_current_line s |} in
      if m_last_chunk s && bool_decide (l_bos l < m_end s) then
        Ret (u, set_line (set_ptr s (m_end s)) (m_current_line s + l_line_count l), true, range, Some [])
      else
        let s := if m_last_chunk s then set_end_flags s true true else s in
        Ret (u, s, false, range, None)
  end.
End splitter.

Arguments flow : clear implicits.

(** ** Streams *)

Section stream.
Context {U : Type}.
(** The statement callback: text, delimiter, line number and offset; [false]
    stops the iteration. *)
Context (callback : U → str → str → nat → nat → U * bool).
Context (err_callback : U → str → run U).

(** The state of the closures: the caller's state and [stop]. *)
Definition closure : Type := U * bool.

(** The command callback of [iterate_sql_stream]. *)
Definition iterate_command (v : closure) (off : nat) (s : str) (bol : bool) (lnum : nat)
    : run (closure * (nat * bool)) :=
  let '(u, stop) := v in
  let s := if bol then s else take 2 s in
  if bool_decide (char_at s 1 ≠ "g"%char) && bool_decide (char_at s 1 ≠ "G"%char) then
    let '(u, ok) := callback u s [] lnum off in
    Ret ((u, if ok : bool then stop else true), (length s, false))
  else Ret (v, (2, true)).

Definition iterate_error (v : closure) (msg : str) : run closure :=
  u ← err_callback v.1 msg; Ret (u, v.2).

(** [callback({&buffer[range.offset], range.length}, ...)] *)
Definition call_statement (v : closure) (buffer : str) (range : Range) (delim : option str)
    (offset : nat) : run closure :=
  if (Z.of_nat (r_offset range) + r_length range <=? Z.of_nat (length buffer))%Z then
    let '(u, ok) := callback v.1 (substr buffer (r_offset range) (Z.to_nat (r_length range)))
                      (default [] delim) (r_line_num range) (offset + r_offset range) in
    Ret (u, if ok : bool then v.2 else true)
  else Undefined.

(** The contents of the buffer: its memory without the NUL. *)
Definition buffer_of (s : Sql_splitter) : str := take (length (m_buf s) - 1) (m_buf s).

(** The buffer after the unfinished statement is moved to its start; the size is a
    [size_t] that must not wrap. *)
Definition keep_unfinished (buffer : str) (range : Range) (shrinkage : nat) : run str :=
  if bool_decide (0 < r_offset range) then
    if bool_decide (r_offset range + shrinkage ≤ length buffer)
    then Ret (substr buffer (r_offset range) (length buffer - r_offset range - shrinkage))
    else Undefined
  else if bool_decide (0 < shrinkage) then Ret (take (length buffer - shrinkage) buffer)
  else Ret buffer.

Fixpoint iterate_loop (fuel : nat) (chunk_sz : nat) (v : closure) (s : Sql_splitter)
    (offset old_chunk_size : nat) (stream : str) : run (closure * Sql_splitter) :=
  match fuel with
  | O => Diverge
  | S fuel =>
      if negb (eof s) && negb v.2 then
        r ← next_range iterate_command iterate_error v s;
        let '(v, s, found, range, delim) := r in
        let buffer := buffer_of s in
        if found : bool then
          v ← call_statement v buffer range delim offset;
          iterate_loop fuel chunk_sz v s offset old_chunk_size stream
        else if is_last_chunk s && (0 <? r_length range)%Z then
          v ← call_statement v buffer range delim offset;
          Ret (v, s)
        else
          buffer ← keep_unfinished buffer range (old_chunk_size - chunk_size s);
          let data := take chunk_sz stream in
          let buffer := buffer ++ data in
          let s := if bool_decide (length data < chunk_sz)
                   then feed s (buffer ++ [nul]) (length buffer)
                   else feed_chunk s (buffer ++ [nul]) (length buffer) in
          iterate_loop fuel chunk_sz v s (offset + r_offset range) (chunk_size s) (drop chunk_sz stream)
      else Ret (v, s)
  end.

(** [iterate_sql_stream]: the caller's state, whether it ran to the end, and the
    final delimiter. *)
Definition iterate_sql_stream (fuel : nat) (stream : str) (chunk_sz : nat) (u : U)
    (ansi_quotes no_backslash_escapes dollar_quoted_strings : bool) (delimiter : option str)
    : run (U * bool * str) :=
  let s := make_Sql_splitter [$"source"] in
  let s := set_dollar_quoted_strings (set_no_backslash_escapes (set_ansi_quotes s ansi_quotes)
             no_backslash_escapes) dollar_quoted_strings in
  r ← match delimiter with
      | Some d => r ← set_delimiter iterate_error (u, false) s d;
                  let '(v, s, _) := r in Ret (v, s)
      | None => Ret ((u, false), s)
      end;
  let '(v, s) := r in
  let buffer := take chunk_sz stream in
  let s := feed_chunk s (buffer ++ [nul]) (length buffer) in
  r ← iterate_loop fuel chunk_sz v s 0 (chunk_size s) (drop chunk_sz stream);
  let '(v, s) := r in
  Ret (v.1, negb v.2, m_delimiter s).
End stream.

(** [split_sql_stream]: (statement, delimiter, line number), with an error callback
    on the list built so far. *)
Definition split_sql_stream (fuel : nat) (stream : str) (chunk_sz : nat)
    (err_callback : list (str * str * nat) → str → run (list (str * str * nat)))
    (ansi_quotes no_backslash_escapes dollar_quoted_strings : bool) (delimiter : option str)
    : run (list (str * str * nat)) :=
  r ← iterate_sql_stream (λ results s delim lnum _, (results ++ [(s, delim, lnum)], true))
        err_callback fuel stream chunk_sz [] ansi_quotes no_backslash_escapes
        dollar_quoted_strings delimiter;
  let '(results, _, _) := r in Ret results.

Definition split_sql (fuel : nat) (s : str)
    (ansi_quotes no_backslash_escapes dollar_quoted_strings : bool) : run (list str) :=
  parts ← split_sql_stream fuel s (length s)
    (λ _ err, Raise (runtime_error ("Error splitting SQL script: " +:+ string_of_list_ascii err)))
    ansi_quotes no_backslash_escapes dollar_quoted_strings None;
  Ret (map (λ part : str * str * nat, part.1.1) parts).
