(* ===== verification/SqlSplitterFacts.v ===== *)
(** * Correctness of the SQL statement splitter

    When no command is stripped from the text, [next_range] ends, leaves the
    buffer alone and returns a range inside it, after the previous one and
    followed by the delimiter it reports. *)
From S2P Require Import Prelude UtilsString UtilsStringFacts Lexing LexingFacts.
From S2P Require Import SqlString SqlStringFacts SqlSplitter.

Open Scope nat_scope.

(** ** Spans stay at or after their start *)

Lemma table_step_pos t c : (0 <? table_at t c)%Z = true → 0 < Z.to_nat (table_at t c).
Proof. intros H%Z.ltb_lt. lia. Qed.

Lemma span_string_range fuel t q mem p e r :
  span_string fuel t q mem p e = Some r → p < r ≤ e.
Proof.
  revert p. induction fuel as [|fuel IH]; intros p; simpl; [done|].
  case_bool_decide; [|done]. destruct (0 <? _)%Z eqn:E.
  { apply table_step_pos in E. intros ?%IH. lia. }
  case_bool_decide; [intros ?%IH; lia|]. case_bool_decide; [intros ?%IH; lia|].
  intros [= <-]. lia.
Qed.

Lemma memchr_ge mem p c e q : memchr mem p c e = Some q → p ≤ q < length mem ∧ (p ≤ e → q < e).
Proof.
  unfold memchr, find_char. destruct (from _ _ _) as [q'|] eqn:E; [|done].
  apply from_find_if_range in E as [? _]. destruct (_ || _) eqn:Eb; [|done]. intros [= <-].
  split; [done|]. intros. apply orb_true_iff in Eb as [Eb|Eb]; bool_to_prop; lia.
Qed.

Lemma span_quoted_identifier_ge fuel q mem p e r :
  span_quoted_identifier fuel q mem p e = Some r → p < r.
Proof.
  revert p. induction fuel as [|fuel IH]; intros p; simpl; [done|].
  destruct (memchr mem p q e) as [i|] eqn:E; [|done]. apply memchr_ge in E as [? _].
  case_bool_decide; [intros ?%IH; lia|]. intros [= <-]. lia.
Qed.

Lemma span_comment_ge fuel mem p e r : span_comment fuel mem p e = Some r → p ≤ r ∧ r + 1 < e.
Proof.
  revert p. induction fuel as [|fuel IH]; intros p; simpl; [done|].
  case_bool_decide; [|done]. destruct (memchr mem p _ e) as [i|] eqn:E; [|done].
  apply memchr_ge in E as [? _]. case_bool_decide; [|intros ?%IH; lia].
  case_bool_decide; [|done]. intros [= <-]. lia.
Qed.

Lemma span_dollar_quote_range fuel mem p e r :
  span_dollar_quote fuel mem p e = Some r → p ≤ r < e.
Proof.
  revert p. induction fuel as [|fuel IH]; intros p; simpl; [done|].
  case_bool_decide; [|done]. case_bool_decide; [intros [= <-]; lia|]. intros ?%IH. lia.
Qed.

Lemma span_dollar_quoted_string_ge mem p e tag r :
  tag ≠ [] → span_dollar_quoted_string mem p e tag = Some r → p < r.
Proof.
  unfold span_dollar_quoted_string. intros Ht. destruct (find_sub _ _) as [i|]; [|done].
  intros [= <-]. destruct tag; [done|]. simpl. lia.
Qed.

Lemma skip_blanks_range fuel mem p e : p ≤ e → p ≤ skip_blanks fuel mem p e ≤ e.
Proof.
  revert p. induction fuel as [|fuel IH]; intros p Hp; simpl; [lia|].
  destruct (_ && _) eqn:E; [|lia]. bool_to_prop. specialize (IH (p + 1)). lia.
Qed.

Lemma skip_not_blanks_ge fuel mem p e : p ≤ skip_not_blanks fuel mem p e.
Proof.
  revert p. induction fuel as [|fuel IH]; intros p; simpl; [lia|].
  destruct (_ && _); [|lia]. specialize (IH (p + 1)). lia.
Qed.

Lemma c_str_cons c s : c ≠ nul → c_str (c :: s) ≠ [].
Proof.
  intros Hc. unfold c_str. simpl. rewrite bool_decide_eq_false_2 by done.
  destruct (find_if _ s); simpl; done.
Qed.

Lemma pdiff_small a b : b ≤ a → (Z.of_nat a < 2 ^ 64)%Z → pdiff a b = (Z.of_nat a - Z.of_nat b)%Z.
Proof. intros. unfold pdiff. apply u64_small. lia. Qed.

Section next_range.
Context {U : Type}.
Context (cmd_callback : U → nat → str → bool → nat → run (U * (nat * bool))).
Context (err_callback : U → str → run U).

(** The callbacks return, and commands only delimit (like [\g]). *)
Hypothesis Hcmd : ∀ u off t bol n, 1 < length t →
  ∃ u' skip, cmd_callback u off t bol n = Ret (u', (skip, true)) ∧ 0 < skip ≤ length t.
Hypothesis Herr : ∀ u t, ∃ u', err_callback u t = Ret u'.

(** The buffer and the offset [next_range] starts from. *)
Context (mem : str) (e ptr0 : nat).
Hypothesis Hmem : e < length mem.
Hypothesis Hsize : (Z.of_nat (length mem) < 2 ^ 64)%Z.

Definition sp_ok (s : Sql_splitter) : Prop :=
  m_buf s = mem ∧ m_end s = e ∧ m_delimiter s ≠ [] ∧
  Forall (λ kwds, kwds = []) (m_commands_table s) ∧
  (kDollarQuotedString ∈ m_context s → c_str (m_dollar_quote s) ≠ []).

Definition inv (l : Locals) : Prop :=
  sp_ok (l_sp l) ∧ m_ptr (l_sp l) = ptr0 ∧ ptr0 ≤ l_bos l ∧ l_bos l ≤ l_p l ∧ l_bos l ≤ l_eol l ∧
  l_next_bol l = l_eol l ∧ l_eol l ≤ e ∧ l_command l = false.

Record ret_ok (s : Sql_splitter) (found : bool) (r : Range) (delim : option str) : Prop := {
  ret_sp : sp_ok s;
  ret_ptr : ptr0 ≤ m_ptr s ≤ e;
  ret_range : ptr0 ≤ r_offset r ∧ (0 ≤ r_length r)%Z ∧
    (Z.of_nat (r_offset r) + r_length r ≤ Z.of_nat e)%Z;
  ret_found : found = true → ptr0 < m_ptr s ∧
    (Z.of_nat (r_offset r) + r_length r ≤ Z.of_nat (m_ptr s))%Z ∧
    ∃ d, delim = Some d ∧ substr mem (r_offset r + Z.to_nat (r_length r)) (length d) = d;
  ret_unfinished : found = false →
    (Z.of_nat (r_offset r) + r_length r = Z.of_nat e)%Z ∧ (m_ptr s = r_offset r ∨ m_ptr s = ptr0);
}.

(** What a step from [l] may lead to. *)
Definition flow_ok (l : Locals) (f : flow U) : Prop :=
  match f with
  | Continue _ l' | Break _ l' =>
      inv l' ∧ l_eol l' = l_eol l ∧ l_p l < l_p l'
  | Return _ s found r delim => ret_ok s found r delim
  end.

Definition runs_ok (l : Locals) (r : run (flow U)) : Prop := ∃ f, r = Ret f ∧ flow_ok l f.

Lemma sp_ok_push s c :
  sp_ok s → (c = kDollarQuotedString → c_str (m_dollar_quote s) ≠ []) → sp_ok (push s c).
Proof.
  intros (? & ? & ? & ? & Hd) Hc. split_and!; try done. simpl. rewrite elem_of_cons.
  intros [<-|?]; auto.
Qed.

Lemma sp_ok_pop s : sp_ok s → sp_ok (pop s).
Proof.
  intros (? & ? & ? & ? & Hd). split_and!; try done. simpl. intros Hin. apply Hd.
  destruct (m_context s); [done|]. by right.
Qed.

Lemma sp_ok_line s n : sp_ok s → sp_ok (set_line s n).
Proof. done. Qed.

Lemma sp_ok_ptr s n : sp_ok s → sp_ok (set_ptr s n).
Proof. done. Qed.

(** [inv] after changes of the position, the context and the start. *)
Lemma inv_move l q : inv l → l_bos l ≤ q → inv (set_p l q).
Proof. intros (? & ? & ? & ? & ? & ? & ? & ?) ?. by split_and!. Qed.

Lemma inv_push l c :
  inv l → (c = kDollarQuotedString → c_str (m_dollar_quote (l_sp l)) ≠ []) → inv (push_l l c).
Proof. intros (? & ? & ?) ?. split; [by apply sp_ok_push|done]. Qed.

Lemma inv_pop l : inv l → inv (pop_l l).
Proof. intros (? & ? & ?). split; [by apply sp_ok_pop|done]. Qed.

(** Closing a step that only moves. *)
Lemma break_ok u l l' : inv l' → l_eol l' = l_eol l → l_p l < l_p l' → runs_ok l (Ret (Break u l')).
Proof. intros. eexists. split; [done|]. done. Qed.

Lemma continue_ok u l l' :
  inv l' → l_eol l' = l_eol l → l_p l < l_p l' → runs_ok l (Ret (Continue u l')).
Proof. intros. eexists. split; [done|]. done. Qed.

Lemma unfinished_ok u l0 l : inv l → runs_ok l0 (unfinished_stmt u l).
Proof.
  intros ((Hb & He & Hs) & ? & ? & ? & ? & ? & ? & ?). eexists. split; [done|].
  rewrite He, pdiff_small by lia. split; simpl; [done|lia|lia|done|].
  intros _. split; [lia|by left].
Qed.

Lemma no_commands l n : inv l → nth n (m_commands_table (l_sp l)) [] = [].
Proof.
  intros ((_ & _ & _ & Hc & _) & _). revert n. induction Hc as [|k ks -> _ IH]; intros [|n]; simpl; auto.
Qed.

Lemma plain_char_ok u l : inv l → l_p l < l_eol l → runs_ok l (plain_char u l).
Proof.
  intros Hinv Hp. pose proof Hinv as (_ & _ & _ & Hbp & _). unfold plain_char.
  destruct (negb (is_any_blank _)).
  - case_bool_decide; apply break_ok; simpl; try done; try lia.
    + apply inv_move; [by apply inv_push|]. simpl. lia.
    + apply inv_move; [done|]. lia.
  - cbv zeta. set (l1 := if bool_decide (context (l_sp l) = kIdentifier) then pop_l l else l).
    assert (inv l1 ∧ l_eol l1 = l_eol l ∧ l_p l1 = l_p l ∧ l_bos l1 = l_bos l) as (H1 & He & Hp1 & Hb).
    { unfold l1. pose proof (inv_pop l Hinv). case_bool_decide; done. }
    clearbody l1. destruct H1 as (? & ? & ? & ? & ? & ? & ? & ?).
    case_bool_decide; apply break_ok; simpl; try lia; split_and!; simpl; try done; lia.
Qed.

Lemma other_ok u l : inv l → l_p l < l_eol l → runs_ok l (other u l).
Proof.
  intros Hinv Hp. pose proof (plain_char_ok u l Hinv Hp) as Hplain. unfold other.
  assert ((if in_range 97 121 (tolower (byte_at l (l_p l)))
           then nth (Z.to_nat (uch (tolower (byte_at l (l_p l))) - 97)) (m_commands_table (l_sp l)) []
           else []) = []) as ->.
  { destruct (in_range _ _ _); [by apply no_commands|done]. }
  simpl List.find. rewrite (bool_decide_eq_true_2 (@nil str = [])) by done. cbn [negb andb].
  destruct (bool_decide (context (l_sp l) = kNone)); [done|].
  destruct (bool_decide (context (l_sp l) = kDollarQuotedString)) eqn:Ed; [|done]. bool_to_prop.
  destruct Hinv as ((? & ? & ? & ? & Hdq) & ? & ? & ? & ? & ? & ? & ?).
  assert (c_str (m_dollar_quote (l_sp l)) ≠ []) as Hne.
  { apply Hdq. unfold context in Ed. destruct (m_context (l_sp l)); [done|]. subst. by left. }
  apply break_ok; simpl; try lia.
  split_and!; simpl; try done; try lia. split_and!; try done. intros _. simpl.
  destruct (m_dollar_quote (l_sp l)) as [|q qs]; [done|]. apply c_str_cons. by intros ->.
Qed.

(** A found statement that ends at [q], with delimiter [d] and next position [n]. *)
Lemma return_ok u l0 s q n d line :
  sp_ok s → ptr0 ≤ q → ptr0 < n ≤ e → ∀ b, ptr0 ≤ b ≤ q → q ≤ n → substr mem q (length d) = d →
  runs_ok l0 (Ret (Return u (set_ptr s n) true
    {| r_offset := b; r_length := pdiff q b; r_line_num := line |} (Some d))).
Proof.
  intros Hs Hq Hn b Hb Hqn Hd. eexists. split; [done|]. rewrite pdiff_small by lia.
  split; simpl; [done|lia|lia| |done]. intros _. split_and!; [lia|lia|].
  exists d. split; [done|]. by replace (b + Z.to_nat (Z.of_nat q - Z.of_nat b)) with q by lia.
Qed.

Lemma substr_length_eq s i n : i + n ≤ length s → length (substr s i n) = n.
Proof. intros. unfold substr. rewrite length_take, length_drop. lia. Qed.

Lemma case_backslash_ok u l hcl :
  inv l → l_p l < l_eol l → runs_ok l (case_backslash cmd_callback u l hcl).
Proof.
  intros Hinv Hp. unfold case_backslash. destruct (_ || _); [by apply other_ok|].
  case_bool_decide; [by apply unfinished_ok|].
  pose proof Hinv as (Hs & Hptr & H1 & H2 & H3 & H4 & H5 & _). pose proof Hs as (Hb & He & _).
  rewrite Hb.
  assert (length (substr mem (l_p l) (l_eol l - l_p l)) = l_eol l - l_p l) as Hlen
    by (apply substr_length_eq; lia).
  destruct (Hcmd u (l_p l) (substr mem (l_p l) (l_eol l - l_p l)) (bool_decide (l_p l = l_bos l))
    (m_current_line (l_sp l))) as (u' & skip & -> & Hskip); [lia|]. cbn [mbind run_bind].
  rewrite (bool_decide_eq_false_2 (skip = 0)) by lia. cbn [andb].
  apply (return_ok u' l (set_line (pop (l_sp l)) _) (l_p l) (l_p l + skip)); try lia.
  - by apply sp_ok_line, sp_ok_pop.
  - by rewrite substr_length_eq by lia.
Qed.

Lemma dollar_tag_nonempty q n :
  char_at mem q = dollar → 0 < n → c_str (substr mem q n) ≠ [].
Proof.
  intros Hq Hn. unfold char_at in Hq. destruct (mem !! q) as [c|] eqn:Ec; [|done]. simpl in Hq. subst c.
  unfold substr. rewrite (drop_S _ _ _ Ec). destruct n; [lia|]. simpl. by apply c_str_cons.
Qed.

Lemma case_dollar_ok u l :
  inv l → l_p l < l_eol l → byte_at l (l_p l) = dollar → runs_ok l (case_dollar u l).
Proof.
  intros Hinv Hp Hdollar. unfold case_dollar.
  pose proof Hinv as ((Hb & He & Hd & Hc & _) & ? & ? & ? & ? & ? & ? & ?).
  destruct (m_dollar_quoted_strings _).
  2:{ apply break_ok; simpl; try done; try lia. apply inv_push; [|done]. apply inv_move; [done|lia]. }
  destruct (span_dollar_quote _ _ _ _) as [pp|] eqn:E; [|by apply unfinished_ok].
  apply span_dollar_quote_range in E. case_bool_decide as Hdol.
  2:{ apply break_ok; simpl; try lia. apply inv_move; [done|lia]. }
  assert (c_str (substr (m_buf (l_sp l)) (l_p l) (pp - l_p l + 1)) ≠ []) as Htag.
  { unfold byte_at in Hdollar. rewrite Hb in *. apply dollar_tag_nonempty; [done|lia]. }
  apply break_ok; simpl; try lia. apply inv_push; [|done].
  split_and!; simpl; try done; try lia.
Qed.

Lemma case_slash_ok u l hcl : inv l → l_p l < l_eol l → runs_ok l (case_slash u l hcl).
Proof.
  intros Hinv Hp. unfold case_slash. pose proof Hinv as (_ & _ & _ & ? & _).
  case_bool_decide; [|destruct (negb hcl); [by apply unfinished_ok|by apply other_ok]].
  case_bool_decide; [|by apply other_ok].
  repeat case_bool_decide; apply break_ok; simpl; try done; try lia;
    (apply inv_move; [by apply inv_push|simpl; lia]).
Qed.

Lemma set_delimiter_ok u s d :
  sp_ok s → ∃ u' s' b, set_delimiter err_callback u s d = Ret (u', s', b) ∧ sp_ok s' ∧
    m_ptr s' = m_ptr s.
Proof.
  intros Hs. unfold set_delimiter. case_bool_decide.
  { destruct (Herr u ($"DELIMITER must be followed by a 'delimiter' character or string")) as [u' ->].
    cbn [mbind run_bind]. eauto 10. }
  destruct (_ && _).
  { destruct (Herr u ($"DELIMITER cannot contain a backslash character")) as [u' ->].
    cbn [mbind run_bind]. eauto 10. }
  exists u, (with_delimiter s d), true. split; [done|]. destruct Hs as (? & ? & ? & ? & ?).
  by split_and!.
Qed.

Lemma case_delimiter_ok u l hcl :
  inv l → l_p l < l_eol l → runs_ok l (case_delimiter err_callback u l hcl).
Proof.
  intros Hinv Hp. unfold case_delimiter. destruct (_ && _); [|by apply other_ok].
  destruct hcl; [|by apply unfinished_ok].
  pose proof Hinv as (Hs & ? & ? & ? & ? & ? & ? & ?).
  match goal with |- context [(if ?b then ?x else ?y) ≫= _] =>
    assert (∃ u' s' r, (if b then x else y) = Ret (u', s', r) ∧ sp_ok s' ∧ m_ptr s' = m_ptr (l_sp l))
      as (u' & s' & r & -> & Hs' & Hptr') end.
  { destruct (_ || _); by apply set_delimiter_ok. }
  cbn [mbind run_bind]. apply break_ok; simpl; try lia.
  split_and!; simpl; try done; try lia. by apply sp_ok_line, sp_ok_pop.
Qed.

Lemma line_comment_ok u l hcl hnl :
  inv l → l_p l < l_eol l → (hnl = true → byte_at l (l_eol l - 1) = newline) →
  runs_ok l (line_comment u l hcl hnl).
Proof.
  intros Hinv Hp Hnl. unfold line_comment. destruct hcl; [|by apply unfinished_ok].
  pose proof Hinv as (Hs & ? & ? & ? & ? & ? & ? & ?).
  case_bool_decide; [|apply break_ok; simpl; try lia; apply inv_move; [done|lia]].
  set (nl := (if hnl then 1 else 0) + _).
  assert (nl ≤ 1) as Hnl1.
  { unfold nl. destruct hnl; [rewrite Hnl by done; done|]. by case_bool_decide; simpl; lia. }
  eexists. split; [done|]. rewrite u64_small by lia.
  split; simpl; [done|lia|lia| |done]. intros _. split_and!; [lia|lia|]. by exists [].
Qed.

(** What is known of the line: its last byte, when it has a newline. *)
Definition line_ok (l : Locals) (hnl : bool) : Prop :=
  hnl = true → char_at mem (l_eol l - 1) = newline.

Lemma first_switch_ok u l hcl hnl :
  inv l → l_p l < l_eol l → line_ok l hnl →
  runs_ok l (first_switch cmd_callback err_callback u l hcl hnl).
Proof.
  intros Hinv Hp Hl. pose proof Hinv as ((Hb & _) & _ & _ & ? & _).
  assert (hnl = true → byte_at l (l_eol l - 1) = newline) as Hnl by (unfold byte_at; by rewrite Hb).
  assert (∀ c, c ≠ kDollarQuotedString →
    runs_ok l (Ret (Break u (push_l (set_p l (l_p l + 1)) c)))) as Hopen.
  { intros c Hc. apply break_ok; simpl; try lia. apply inv_push; [|done]. apply inv_move; [done|lia]. }
  unfold first_switch. case_bool_decide; [by apply case_backslash_ok|].
  case_bool_decide; [by apply Hopen|]. case_bool_decide; [apply Hopen; by destruct (m_ansi_quotes _)|].
  case_bool_decide; [by apply Hopen|]. case_bool_decide; [by apply case_dollar_ok|].
  case_bool_decide; [by apply case_slash_ok|]. destruct (_ || _); [by apply case_delimiter_ok|].
  case_bool_decide; [by apply line_comment_ok|]. case_bool_decide; [|by apply other_ok].
  unfold case_dash. destruct (_ && _); [by apply line_comment_ok|by apply other_ok].
Qed.

(** The second switch, from a position at or after the start of the turn. *)
Lemma second_switch_ok u l0 l hcl :
  inv l → l_eol l = l_eol l0 → l_p l0 < l_eol l0 → l_p l0 ≤ l_p l →
  (l_p l0 = l_p l → context (l_sp l) ≠ kNone ∧ context (l_sp l) ≠ kStatement ∧
     context (l_sp l) ≠ kIdentifier ∧ context (l_sp l) ≠ kCommentConditional) →
  runs_ok l0 (second_switch u l hcl).
Proof.
  intros Hinv Heol Hp0 Hp Hctx. pose proof Hinv as (Hs & _ & _ & ? & ? & _).
  assert (∀ q, (∀ r, q = Some r → l_p l < r) →
    runs_ok l0 (match q with
      | Some q => Ret (Continue u (pop_l (set_p l q)))
      | None => if hcl then Ret (Continue u (set_p l (l_eol l))) else unfinished_stmt u l
      end)) as Hspan.
  { intros [q|] Hq.
    - specialize (Hq q eq_refl). apply continue_ok; simpl; try lia.
      apply inv_pop, inv_move; [done|lia].
    - destruct hcl; [|by apply unfinished_ok]. apply continue_ok; simpl; try lia.
      by apply inv_move. }
  unfold second_switch. destruct (context (l_sp l)) eqn:Ec.
  1,2,3,6: (apply continue_ok; [done|done|]; destruct (decide (l_p l0 = l_p l)) as [Heq|]; [|lia];
    destruct (Hctx Heq) as (? & ? & ? & ?); done).
  1,2: apply Hspan; intros r (i & Hi & ->)%fmap_Some; apply span_comment_ge in Hi; lia.
  1,2: apply Hspan; intros r Hr; apply span_string_range in Hr; lia.
  - apply Hspan. intros r Hr. apply span_dollar_quoted_string_ge in Hr; [done|].
    destruct Hs as (_ & _ & _ & _ & Hd). apply Hd. unfold context in Ec.
    destruct (m_context (l_sp l)); [done|]. subst. by left.
  - apply Hspan. intros r Hr. by apply span_quoted_identifier_ge in Hr.
  - apply Hspan. intros r Hr. by apply span_quoted_identifier_ge in Hr.
Qed.

Lemma at_delimiter_spec l :
  sp_ok (l_sp l) → at_delimiter l = true →
  l_p l + length (m_delimiter (l_sp l)) ≤ l_eol l ∧
  substr mem (l_p l) (length (m_delimiter (l_sp l))) = m_delimiter (l_sp l).
Proof.
  intros (Hb & _). unfold at_delimiter. intros Hd. bool_to_prop.
  split; [done|]. rewrite Hb in *. unfold substr.
  set (d := m_delimiter (l_sp l)) in *. set (t := drop (l_p l) mem) in *. unfold c_str in H0.
  rewrite take_take in H0. pose proof (f_equal length H0) as Hlen. rewrite length_take in Hlen.
  replace (length d `min` default (length t) (find_if (λ c, bool_decide (c = nul)) t)) with (length d) in H0;
    [done|lia].
Qed.

Lemma lex_step_ok u l hcl hnl :
  inv l → l_p l < l_eol l → line_ok l hnl →
  runs_ok l (lex_step cmd_callback err_callback u l hcl hnl).
Proof.
  intros Hinv Hp Hl. pose proof Hinv as (Hs & ? & ? & Hbp & ? & ? & ? & Hcmdf).
  assert (runs_ok l (f ← first_switch cmd_callback err_callback u l hcl hnl;
    match f with Break u l => second_switch u l hcl | f => Ret f end)) as Hsw.
  { destruct (first_switch_ok u l hcl hnl Hinv Hp Hl) as (f & -> & Hf). cbn [mbind run_bind].
    destruct f as [u' l'|u' l'|u' s found r d]; [by eexists| |by eexists].
    destruct Hf as (? & ? & ?). apply second_switch_ok; try done; try lia. }
  assert (runs_ok l
    (if at_delimiter l then
       r ← (if l_command l then run_command cmd_callback u l true else Ret (u, l, false));
       let '(u, l, removed) := r in
       if removed : bool then Ret (Continue u l)
       else
         let s := l_sp l in
         Ret (Return u (set_line (set_ptr (pop s) (l_p l + length (m_delimiter s)))
                          (m_current_line s + l_line_count l)) true
                {| r_offset := l_bos l; r_length := pdiff (l_p l) (l_bos l);
                   r_line_num := m_current_line s |} (Some (m_delimiter s)))
     else f ← first_switch cmd_callback err_callback u l hcl hnl;
       match f with Break u l => second_switch u l hcl | f => Ret f end)) as Hdelim.
  { destruct (at_delimiter l) eqn:Ed; [|done]. rewrite Hcmdf. cbn [mbind run_bind].
    apply at_delimiter_spec in Ed as [Hle Hd]; [|done].
    assert (0 < length (m_delimiter (l_sp l))).
    { destruct Hs as (_ & _ & Hne & _). destruct (m_delimiter (l_sp l)); [done|simpl; lia]. }
    apply (return_ok u l (set_line (pop (l_sp l)) (m_current_line (l_sp l) + l_line_count l)) (l_p l)
      (l_p l + length (m_delimiter (l_sp l)))); try done; try lia.
    by apply sp_ok_line, sp_ok_pop. }
  unfold lex_step. destruct (context (l_sp l)) eqn:Ec; try done;
    try (by apply second_switch_ok; rewrite ?Ec).
  destruct (_ && _) eqn:E; [|done]. apply continue_ok; simpl; try lia.
  apply inv_move; [by apply inv_pop|simpl; lia].
Qed.

(** The end of a loop: an [inv] state or a return. *)
Definition loop_ok (l : Locals) (f : flow U) : Prop :=
  match f with
  | Continue _ l' | Break _ l' => inv l' ∧ l_eol l ≤ l_eol l'
  | Return _ s found r delim => ret_ok s found r delim
  end.

Lemma line_loop_ok fuel u l hcl hnl :
  inv l → line_ok l hnl → l_eol l - l_p l < fuel →
  ∃ f, line_loop cmd_callback err_callback fuel u l hcl hnl = Ret f ∧ loop_ok l f.
Proof.
  revert u l. induction fuel as [|fuel IH]; intros u l Hinv Hl Hf; [lia|]. cbn [line_loop].
  case_bool_decide as Hp; [|by eexists].
  destruct (lex_step_ok u l hcl hnl Hinv Hp Hl) as (f & -> & Hfo). cbn [mbind run_bind].
  destruct f as [u' l'|u' l'|u' s found r d]; simpl in Hfo; [| |by eexists];
    destruct Hfo as (Hinv' & Heol & Hlt); [|eexists; split; [done|]; simpl; by rewrite Heol].
  destruct (IH u' l' Hinv') as (f & -> & Hfo); [unfold line_ok; by rewrite Heol|lia|].
  eexists. split; [done|]. unfold loop_ok in *. rewrite <- Heol. done.
Qed.

Lemma scan_line_ok u l :
  inv l → l_next_bol l < e →
  ∃ f, scan_line cmd_callback err_callback u l = Ret f ∧
  match f with
  | Continue _ l' => inv l' ∧ l_next_bol l < l_next_bol l'
  | Break _ _ => False
  | Return _ s found r delim => ret_ok s found r delim
  end.
Proof.
  intros Hinv Hlt. pose proof Hinv as (Hs & ? & ? & ? & ? & ? & ? & _).
  pose proof Hs as (Hb & He & _). unfold scan_line. rewrite Hb, He.
  set (x := match memchr mem (l_next_bol l) newline e with Some e => (e + 1, true, true)
            | None => (e, m_last_chunk (l_sp l), false) end).
  assert (l_next_bol l < x.1.1 ≤ e ∧ (x.2 = true → char_at mem (x.1.1 - 1) = newline)) as [Hx Hnl].
  { unfold x. destruct (memchr mem (l_next_bol l) newline e) as [q|] eqn:Em; simpl; [|split; [lia|done]].
    pose proof (memchr_ge _ _ _ _ _ Em) as [? ?]. split; [lia|]. intros _.
    rewrite Nat.add_sub. unfold memchr, find_char in Em.
    destruct (from _ _ _) as [q'|] eqn:Ef; [|done]. destruct (_ || _); [|done]. injection Em as ->.
    apply from_find_if_range in Ef as (_ & c & Hc & Hc'). bool_to_prop.
    rewrite (char_at_lookup _ _ _ Hc). done. }
  destruct x as [[eo hcl] hnl]. simpl in Hx, Hnl.
  match goal with |- context [line_loop _ _ ?fuel u ?l0 hcl hnl] =>
    assert (inv l0) as Hinv0; [|destruct (line_loop_ok fuel u l0 hcl hnl Hinv0) as (f & -> & Hf)] end.
  { split_and!; simpl; try done; lia. }
  { exact Hnl. }
  { simpl. lia. }
  cbn [mbind run_bind]. unfold loop_ok in Hf. simpl in Hf.
  assert (∀ u' l', inv l' ∧ eo ≤ l_eol l' →
    ∃ f, end_of_line cmd_callback u' l' = Ret f ∧
    match f with
    | Continue _ l' => inv l' ∧ l_next_bol l < l_next_bol l'
    | Break _ _ => False
    | Return _ s found r delim => ret_ok s found r delim
    end) as Hend.
  { intros u' l' [Hl' Heo]. pose proof Hl' as (? & ? & ? & ? & ? & Hnb & ? & Hc).
    unfold end_of_line. rewrite Hc.
    case_bool_decide; [destruct (negb _)|]; eexists; (split; [done|]); (split; [done|simpl; lia]). }
  destruct f as [u' l'|u' l'|u' s found r d]; [by apply Hend|by apply Hend|by eexists].
Qed.

Lemma lines_loop_ok fuel u l :
  inv l → e - l_next_bol l < fuel →
  ∃ f, lines_loop cmd_callback err_callback fuel u l = Ret f ∧
  match f with
  | Break _ l' | Continue _ l' => inv l'
  | Return _ s found r delim => ret_ok s found r delim
  end.
Proof.
  revert u l. induction fuel as [|fuel IH]; intros u l Hinv Hf; [lia|]. cbn [lines_loop].
  pose proof Hinv as ((_ & He & _) & _). rewrite He. case_bool_decide as Hlt; [|by eexists].
  destruct (scan_line_ok u l Hinv Hlt) as (f & -> & Hfo). cbn [mbind run_bind].
  destruct f as [u' l'|u' l'|u' s found r d]; [|done|by eexists].
  destruct Hfo. apply IH; [done|lia].
Qed.

Hypothesis Hnul : char_at mem e = nul.

Lemma skip_empty_lines_range fuel b line :
  b ≤ e → let '(b', _) := skip_empty_lines fuel mem b e line in b ≤ b' ≤ e.
Proof.
  revert b line. induction fuel as [|fuel IH]; intros b line Hb; cbn [skip_empty_lines]; [lia|].
  pose proof (skip_blanks_range (S e) mem b e Hb) as Hr.
  case_bool_decide as Hn; [|lia].
  assert (skip_blanks (S e) mem b e ≠ e). { intros Heq. rewrite Heq, Hnul in Hn. done. }
  specialize (IH (skip_blanks (S e) mem b e + 1) (line + 1)).
  destruct (skip_empty_lines _ _ _ _ _). lia.
Qed.

Lemma next_range_ok u s :
  sp_ok s → m_ptr s = ptr0 → ptr0 ≤ e →
  ∃ u' s' found r delim,
    next_range cmd_callback err_callback u s = Ret (u', s', found, r, delim) ∧
    ret_ok s' found r delim.
Proof.
  intros Hs Hptr Hle. pose proof Hs as (Hb & He & _). unfold next_range. rewrite Hb, He, Hptr.
  pose proof (skip_empty_lines_range (S (length mem)) ptr0 (m_current_line s) Hle) as Hsk.
  destruct (skip_empty_lines _ _ _ _ _) as [b line].
  match goal with |- context [lines_loop _ _ ?fuel u ?l0] =>
    assert (inv l0) as Hinv0; [|destruct (lines_loop_ok fuel u l0 Hinv0) as (f & -> & Hf)] end.
  { split_and!; simpl; try done; lia. }
  { simpl. lia. }
  cbn [mbind run_bind].
  assert (∀ (u' : U) (l : Locals), inv l → ∃ (u'' : U) (s' : Sql_splitter) (found : bool) (r : Range)
    (delim : option str),
    (if m_last_chunk (l_sp l) && bool_decide (l_bos l < m_end (l_sp l))
     then Ret (u', set_line (set_ptr (l_sp l) (m_end (l_sp l))) (m_current_line (l_sp l) + l_line_count l),
       true, {| r_offset := l_bos l; r_length := pdiff (m_end (l_sp l)) (l_bos l);
                r_line_num := m_current_line (l_sp l) |}, Some [])
     else Ret (u', if m_last_chunk (l_sp l) then set_end_flags (l_sp l) true true else l_sp l, false,
       {| r_offset := l_bos l; r_length := pdiff (m_end (l_sp l)) (l_bos l);
          r_line_num := m_current_line (l_sp l) |}, None))
    = Ret (u'', s', found, r, delim) ∧ ret_ok s' found r delim) as Hend.
  { intros u' l (Hs' & Hp' & ? & ? & ? & ? & ? & _). pose proof Hs' as (_ & He' & _). rewrite He'.
    rewrite pdiff_small by lia. destruct (_ && _) eqn:E.
    - bool_to_prop. do 5 eexists. split; [done|]. split; simpl; [done|lia|lia| |done].
      intros _. split_and!; [lia|lia|]. by exists [].
    - do 5 eexists. split; [done|]. split; simpl.
      + by destruct (m_last_chunk (l_sp l)).
      + destruct (m_last_chunk (l_sp l)); simpl; lia.
      + lia.
      + done.
      + intros _. split; [lia|]. right. by destruct (m_last_chunk (l_sp l)). }
  destruct f as [u' l'|u' l'|u' s' found r d]; [by apply Hend|by apply Hend|by eauto 10].
Qed.
End next_range.

(** ** Quoted values *)

Lemma char_at_drop (s : str) q c r : drop q s = c :: r → char_at s q = c.
Proof.
  intros H. unfold char_at. assert (s !! q = Some c) as ->; [|done].
  replace q with (q + 0) by lia. by rewrite <- lookup_drop, H.
Qed.

Lemma drop_more (s : str) q t r : drop q s = t ++ r → drop (q + length t) s = r.
Proof. intros H. rewrite <- drop_drop, H, drop_app_length. done. Qed.

Lemma span_string_escaped fuel mem q e v rest :
  drop q mem = escape_sql_string v false ++ squote :: rest → head rest ≠ Some squote →
  q + length (escape_sql_string v false) < e → length (escape_sql_string v false) < fuel →
  span_string fuel (span_table k_quoted_string_span_skips_sq false) squote mem q e =
    Some (q + length (escape_sql_string v false) + 1).
Proof.
  revert fuel q. induction v as [|c v IH]; intros fuel q Hd Hr He Hf;
    destruct fuel as [|fuel]; try (simpl in Hf; lia); cbn [span_string];
    rewrite bool_decide_eq_true_2 by lia.
  - simpl in Hd. rewrite (char_at_drop _ _ _ _ Hd).
    change (table_at (span_table k_quoted_string_span_skips_sq false) squote) with 0%Z.
    rewrite bool_decide_eq_false_2 by done.
    rewrite bool_decide_eq_false_2; [simpl; f_equal; lia|].
    apply (drop_more mem q [squote] rest) in Hd. simpl in Hd.
    unfold char_at. rewrite <- (Nat.add_0_r (q + 1)), <- lookup_drop, Hd.
    destruct rest as [|d rest]; simpl; [done|]. intros ->. by apply Hr.
  - rewrite escape_cons, <- (assoc_L (++)) in Hd.
    rewrite escape_cons, length_app in He, Hf |- *.
    pose proof (drop_more _ _ _ _ Hd) as Hd2. pose proof (sq_table_ok c) as Htc.
    pose proof (sq_table_ok backslash) as Htb. change (nth 0 k_quoted_string_span_skips_sq [])
      with (span_table k_quoted_string_span_skips_sq false) in Htc, Htb.
    unfold esc1 in *. destruct (sql_escape false c) as [d|] eqn:Ec.
    + rewrite (char_at_drop _ _ _ _ Hd), Htb. change (0 <? 2)%Z with true. simpl length in *.
      change (if bool_decide (backslash = nul) || bool_decide (backslash = squote) then 0%Z
              else if bool_decide (backslash = backslash) then 2%Z else 1%Z) with 2%Z.
      change (0 <? 2)%Z with true. change (Z.to_nat 2) with 2. cbv iota.
      rewrite (IH fuel (q + 2)) by (done || lia). f_equal. lia.
    + rewrite (char_at_drop _ _ _ _ Hd), Htc. simpl length in *.
      pose proof (sql_escape_None _ _ Ec) as (? & ? & ?).
      assert (c ≠ nul) by (intros ->; done).
      rewrite !bool_decide_eq_false_2 by done. cbn [orb]. change (0 <? 1)%Z with true.
      change (Z.to_nat 1) with 1. cbv iota. rewrite (IH fuel (q + 1)) by (done || lia). f_equal. lia.
Qed.

(** The state after a quoted part: only the position has changed. *)
Lemma push_pop_move l c q : pop_l (set_p (push_l (set_p l (l_p l + 1)) c) q) = set_p l q.
Proof. destruct l as [s]. destruct s. done. Qed.

(** ** Empty streams *)

Lemma iterate_empty_diverges {U} (cb : U → str → str → nat → nat → U * bool) er fuel u s n :
  m_buf s = [nul] → m_end s = 0 → m_ptr s = 0 → m_last_chunk s = false → n = 0 →
  iterate_loop cb er fuel 0 (u, false) s 0 n [] = Diverge.
Proof.
  revert s n. induction fuel as [|fuel IH]; intros s n Hb He Hp Hl ->; [done|].
  destruct s. simpl in Hb, He, Hp, Hl. subst.
  match goal with |- iterate_loop _ _ _ _ _ ?s _ _ _ = _ =>
    apply (IH (feed_chunk s [nul] 0) 0); done end.
Qed.

(** ** Main results *)

(** C1: if escape commands only delimit statements and no command keyword is
    registered, [next_range] ends and leaves the buffer alone; it returns a range
    within the text, at or after the position it started from. A found statement
    is followed in the buffer by the delimiter reported with it, and the splitter
    moves strictly past its start and not before its end; an unfinished one
    extends to the end of the text. *)
Theorem next_range_correct {U} cmd_callback err_callback (u : U) s :
  (∀ u off t bol n, 1 < length t →
     ∃ u' skip, cmd_callback u off t bol n = Ret (u', (skip, true)) ∧ 0 < skip ≤ length t) →
  (∀ u t, ∃ u', err_callback u t = Ret u') →
  m_end s < length (m_buf s) → char_at (m_buf s) (m_end s) = nul →
  (Z.of_nat (length (m_buf s)) < 2 ^ 64)%Z → m_ptr s ≤ m_end s →
  sp_ok (m_buf s) (m_end s) s →
  ∃ u' s' found r delim,
    next_range cmd_callback err_callback u s = Ret (u', s', found, r, delim) ∧
    ret_ok (m_buf s) (m_end s) (m_ptr s) s' found r delim.
Proof. intros Hcmd Herr ? ? ? ? ?. by apply next_range_ok. Qed.

Lemma next_range_correct_witness :
  let cmd := λ (u : nat) (off : nat) (t : str) (bol : bool) (n : nat), Ret (u, (2, true)) in
  let err := λ (u : nat) (t : str), Ret u in
  let text := $"select ';' /* ; */ \G select 2;" in
  let s := feed_chunk (make_Sql_splitter []) (text ++ [nul]) (length text) in
  ∃ u' s' found r delim, next_range cmd err 0 s = Ret (u', s', found, r, delim) ∧
    ret_ok (m_buf s) (m_end s) (m_ptr s) s' found r delim ∧
    found = true ∧ r_length r = 19%Z ∧ delim = Some ($"\G").
Proof.
  intros cmd err text s.
  destruct (next_range_correct cmd err 0 s) as (u' & s' & found & r & delim & H & Hok).
  - intros u off t bol n Ht. exists u, 2. split; [reflexivity|lia].
  - intros u t. exists u. reflexivity.
  - vm_compute. lia.
  - reflexivity.
  - vm_compute. reflexivity.
  - vm_compute. lia.
  - split_and!; [reflexivity|reflexivity|discriminate| |intros Hin; inversion Hin].
    repeat (apply Forall_cons; split; [reflexivity|]). apply Forall_nil. exact I.
  - exists u', s', found, r, delim. split; [exact H|]. split; [exact Hok|].
    assert ((next_range cmd err 0 s) = (next_range cmd err 0 s)) as E by reflexivity.
    rewrite H in E at 1. vm_compute in E. injection E as -> -> -> -> ->.
    split_and!; reflexivity.
Defined.

(** C7: Inside a statement, one turn of the splitter skips a value quoted by
    quote_sql_string as a unit, whatever it contains, and changes nothing but the
    position; provided that NO_BACKSLASH_ESCAPES is off (with it the escapes mean
    something else), that the delimiter does not start with a single quote, that no single
    quote stands right behind the quoted value (two of them would be one of the value),
    and that the quoted value ends on the line. *)
Theorem splitter_skips_quoted_value {U} cmd_callback err_callback (u : U) l v rest hcl hnl :
  context (l_sp l) = kStatement → m_no_backslash_escapes (l_sp l) = false →
  char_at (m_delimiter (l_sp l)) 0 ≠ squote →
  drop (l_p l) (m_buf (l_sp l)) = quote_sql_string v ++ rest → head rest ≠ Some squote →
  l_p l + length (quote_sql_string v) ≤ l_eol l →
  lex_step cmd_callback err_callback u l hcl hnl =
    Ret (Continue u (set_p l (l_p l + length (quote_sql_string v)))).
Proof.
  intros Hctx Hnb Hd Hdrop Hr Hle. unfold quote_sql_string in Hdrop, Hle |- *.
  rewrite <- !(assoc_L (++)) in Hdrop. cbn [app] in Hdrop.
  assert (byte_at l (l_p l) = squote) as Hb by (unfold byte_at; by eapply char_at_drop).
  unfold lex_step. rewrite Hctx.
  assert (at_delimiter l = false) as ->.
  { unfold at_delimiter. rewrite Hb, bool_decide_eq_false_2 by done. done. }
  unfold first_switch. rewrite Hb. rewrite bool_decide_eq_false_2 by done.
  rewrite bool_decide_eq_true_2 by done. cbn [mbind run_bind].
  assert (length (m_buf (l_sp l)) - l_p l ≥ 2 + length (escape_sql_string v false)) as Hlen.
  { rewrite <- length_drop, Hdrop. simpl. rewrite length_app. simpl. lia. }
  unfold second_switch.
  change (m_no_backslash_escapes (l_sp (push_l (set_p l (l_p l + 1)) kSQuoteString)))
    with (m_no_backslash_escapes (l_sp l)). rewrite Hnb.
  change (context (l_sp (push_l (set_p l (l_p l + 1)) kSQuoteString))) with kSQuoteString.
  change (m_buf (l_sp (push_l (set_p l (l_p l + 1)) kSQuoteString))) with (m_buf (l_sp l)).
  change (l_eol (push_l (set_p l (l_p l + 1)) kSQuoteString)) with (l_eol l).
  change (l_p (push_l (set_p l (l_p l + 1)) kSQuoteString)) with (l_p l + 1). cbv iota beta.
  rewrite !length_app in Hle |- *. simpl length in Hle |- *.
  rewrite (span_string_escaped _ _ _ _ v rest); try done; try lia.
  - rewrite push_pop_move. do 3 f_equal. lia.
  - apply (drop_more _ _ [squote]) in Hdrop. done.
Qed.

Lemma splitter_skips_quoted_value_witness :
  let cmd := λ (u : nat) (off : nat) (t : str) (bol : bool) (n : nat), Ret (u, (2, true)) in
  let err := λ (u : nat) (t : str), Ret u in
  let text := $"select " ++ quote_sql_string ($"a';drop") ++ $";" in
  let s := push (feed_chunk (make_Sql_splitter []) (text ++ [nul]) (length text)) kStatement in
  let l := {| l_sp := s; l_bos := 0; l_p := 7; l_eol := length text; l_next_bol := length text;
              l_line_count := 0; l_command := false; l_last_line_was_delimiter := false |} in
  lex_step cmd err 0 l true false = Ret (Continue 0 (set_p l 17)).
Proof.
  intros cmd err text s l.
  apply (splitter_skips_quoted_value cmd err 0 l ($"a';drop") ($";" ++ [nul]));
    try reflexivity; try discriminate.
  vm_compute. lia.
Defined.

(** An escape command removed from the middle of a line shifts the text but not the
    start of the next line, so that the first bytes of the next line are not
    scanned: the script below is cut inside a string literal, while the same script without the command
    is split at its two delimiters. *)
Theorem split_sql_command_misaligns :
  let tail := [newline] ++ $"';';" ++ [newline] ++ $"select ';';" ++ [newline] in
  split_sql 100 ($"select " ++ tail) false false true =
    Ret [$"select " ++ [newline] ++ $"';'"; $"select ';'"] ∧
  split_sql 100 ($"select \w" ++ tail) false false true =
    Ret [$"\w"; $"select " ++ [newline] ++ $"';';" ++ [newline] ++ $"select '"; $"';" ++ [newline]].
Proof. split; vm_compute; reflexivity. Qed.

(** Removing an escape command does not move the terminating NUL, so [next_range]
    may read stale bytes behind the end of the text and return a range that starts
    behind it, with a length that wraps; the stream loop then moves a wrapped
    number of bytes. *)
Theorem split_sql_command_stale_bytes :
  split_sql 100 ($"select 1\w;" ++ [newline; newline]) false false true = Undefined.
Proof. vm_compute. reflexivity. Qed.

(** [split_sql] of the empty script never returns (the check that the chunk size is
    positive is only an assertion), whatever the number of turns. *)
Theorem split_sql_empty_diverges fuel ansi_quotes no_backslash_escapes dollar_quotes :
  split_sql fuel [] ansi_quotes no_backslash_escapes dollar_quotes = Diverge.
Proof.
  unfold split_sql, split_sql_stream, iterate_sql_stream. cbn [mbind run_bind].
  rewrite iterate_empty_diverges; done.
Qed.

(** When dollar quoting is off, a delimiter right after an identifier that starts
    with [$] leaves the statement context on the stack: a DELIMITER command that
    follows is taken as SQL text. With a blank before the delimiter it is obeyed. *)
Theorem split_sql_identifier_context_leaks :
  let tail := [newline] ++ $"delimiter //" ++ [newline] ++ $"select 1; //" in
  split_sql 100 ($"select $a ;" ++ tail) false false false = Ret [$"select $a "; $"select 1; "] ∧
  split_sql 100 ($"select $a;" ++ tail) false false false =
    Ret [$"select $a"; $"delimiter //" ++ [newline] ++ $"select 1"; $"//"].
Proof. split; vm_compute; reflexivity. Qed.
