(* ===== verification/UtilsGeneral.v ===== *)
(** * Names, accounts and globs

    Model of the text functions of [mysqlshdk/libs/utils/utils_general.{h,cc}]
    (namespace [shcore]): accounts, qualified object names, SQL string literals,
    glob patterns, naming styles, and the removal of passwords from URIs.

    The span functions read [s] from an index to the end, so their loops recurse on
    what is left of [s]; they return the index they reached and the text appended to
    [*out_string].  Messages of exceptions are kept up to their first variable part. *)
From S2P Require Import Prelude UtilsString Lexing SqlString.

Open Scope nat_scope.

Definition isalnum (c : ascii) : bool := isalpha c || isdigit c.
Definition underscore : ascii := "_"%char.
Definition dash : ascii := "-"%char.
Definition dot : ascii := "."%char.
Definition at_sign : ascii := "@"%char.

(** ** Identifiers *)

Definition is_valid_identifier (name : str) : bool :=
  match name with
  | [] => false
  | c :: name' =>
      if negb (isalpha c) && bool_decide (c ≠ underscore) then false
      else forallb (λ c, isalnum c || bool_decide (c = underscore)) name'
  end.

(** The loop over a quoted identifier: the index reached, the text, and whether the
    closing quote was seen. *)
Fixpoint quoted_identifier_loop (quote : ascii) (s : str) (p : nat) (esc : bool) (out : str)
    : nat * str * bool :=
  match s with
  | [] => (p, out, esc)
  | c :: s' =>
      if bool_decide (quote = c) then
        if esc then quoted_identifier_loop quote s' (S p) false (out ++ [c])
        else quoted_identifier_loop quote s' (S p) true out
      else if esc then (p, out, true)
      else quoted_identifier_loop quote s' (S p) false (out ++ [c])
  end.

Definition identifier_char (c : ascii) : bool :=
  isalnum c || bool_decide (c = underscore) || bool_decide (c = dollar).

(** The loop over an unquoted one: the index reached, the text, and
    [seen_not_a_digit]. *)
Fixpoint unquoted_identifier_loop (s : str) (first p : nat) (seen_not_a_digit : bool) (out : str)
    : result (nat * str * bool) :=
  match s with
  | [] => Ok (p, out, seen_not_a_digit)
  | c :: s' =>
      if negb (identifier_char c) then
        if bool_decide (first = p) then Throw (runtime_error "Invalid character in identifier")
        else Ok (p, out, seen_not_a_digit)
      else unquoted_identifier_loop s' first (S p) (seen_not_a_digit || negb (isdigit c)) (out ++ [c])
  end.

Definition span_quotable_identifier (s : str) (p : nat) (allow_ansi_quotes : bool)
    : result (nat * str) :=
  match s !! p with
  | None => Ok (p, [])
  | Some c =>
      if bool_decide (c = backtick) || (allow_ansi_quotes && bool_decide (c = dquote)) then
        let '(p, out, done) := quoted_identifier_loop c (drop (S p) s) (S p) false [] in
        if done : bool then Ok (p, out) else Throw (runtime_error "Invalid syntax in identifier")
      else
        r ← unquoted_identifier_loop (drop p s) p p false [];
        let '(p, out, seen_not_a_digit) := r in
        if seen_not_a_digit : bool then Ok (p, out)
        else Throw (runtime_error "Invalid identifier: identifiers may begin with a digit but unless quoted may not consist solely of digits.")
  end.

(** ** String literals *)

(** The values of [esc]: 0, the quote, the backslash. *)
Inductive esc_state := esc_none | esc_quote | esc_backslash.

#[global] Instance esc_state_eq_dec : EqDecision esc_state.
Proof. solve_decision. Defined.

(** What a backslash and [c] stand for. *)
Definition unescape_char (c : ascii) : ascii :=
  if bool_decide (c = "n"%char) then "010"%char
  else if bool_decide (c = "t"%char) then "009"%char
  else if bool_decide (c = "b"%char) then "008"%char
  else if bool_decide (c = "r"%char) then "013"%char
  else if bool_decide (c = "0"%char) then "000"%char
  else if bool_decide (c = "Z"%char) then "026"%char
  else c.

(** The loop over a quoted literal: the index reached, the text, [done] and [esc]. *)
Fixpoint literal_loop (quote : ascii) (s : str) (p : nat) (esc : esc_state) (out : str)
    : nat * str * bool * esc_state :=
  match s with
  | [] => (p, out, false, esc)
  | c :: s' =>
      let next := literal_loop quote s' (S p) in
      if bool_decide (esc = esc_quote) && bool_decide (c ≠ quote) then (p, out, true, esc)
      else if bool_decide (c = dquote) || bool_decide (c = squote) then
        if bool_decide (quote = c) then
          if bool_decide (esc = esc_quote) || bool_decide (esc = esc_backslash)
          then next esc_none (out ++ [c])
          else next esc_quote out
        else next esc_none (out ++ [c])
      else if bool_decide (c = backslash) then
        match esc with
        | esc_backslash => next esc_none (out ++ [c])
        | esc_none => next esc_backslash out
        | esc_quote => (S p, out, true, esc)
        end
      else
        match esc with
        | esc_backslash => next esc_none (out ++ [unescape_char c])
        | esc_none => next esc_none (out ++ [c])
        | esc_quote => (S p, out, true, esc)
        end
  end.

Definition literal_char (c : ascii) : bool :=
  isalnum c || bool_decide (c = underscore) || bool_decide (c = dollar) ||
  bool_decide (c = dot) || bool_decide (c = "%"%char).

Fixpoint unquoted_literal_loop (s : str) (p : nat) (out : str) : nat * str :=
  match s with
  | c :: s' => if negb (literal_char c) then (p, out) else unquoted_literal_loop s' (S p) (out ++ [c])
  | [] => (p, out)
  end.

Definition span_quotable_string_literal (s : str) (p : nat) (allow_number_at_beginning : bool)
    : result (nat * str) :=
  match s !! p with
  | None => Ok (p, [])
  | Some quote =>
      if bool_decide (quote ≠ squote) && bool_decide (quote ≠ dquote) then
        if negb (isalpha quote) && negb (allow_number_at_beginning && isdigit quote) &&
           bool_decide (quote ≠ underscore) && bool_decide (quote ≠ dollar) &&
           bool_decide (quote ≠ "%"%char)
        then Throw (runtime_error "Invalid character in string literal")
        else Ok (unquoted_literal_loop (drop p s) p [])
      else
        let '(p, out, done, esc) := literal_loop quote (drop (S p) s) (S p) esc_none [] in
        if done || bool_decide (esc = esc_quote) then Ok (p, out)
        else Throw (runtime_error "Invalid syntax in string literal")
  end.

(** ** Accounts *)

Inductive Auto_quote := NO | HOST | USER_AND_HOST.

#[global] Instance Auto_quote_eq_dec : EqDecision Auto_quote.
Proof. solve_decision. Defined.

Definition rfind (s : str) (c : ascii) : option nat := find_last_if (λ d, bool_decide (d = c)) s.
Definition found (s : str) (c : ascii) (pos : nat) : bool :=
  match find_char s c pos with Some _ => true | None => false end.

(** The index returned is one of the text with added quotes when quoting was tried; a
    parse error without [auto_quote_hosts] is swallowed and leaves [res] at 0. *)
Definition span_account_hostname_relaxed (s : str) (p : nat) (auto_quote_hosts : bool)
    : result (nat * str) :=
  match s !! p with
  | None => Ok (p, [])
  | Some c =>
      if found s at_sign p then Throw (runtime_error "Malformed hostname (illegal symbol: '@')")
      else if bool_decide (c = backtick) then span_quotable_identifier s p false
      else
        let quoted := bool_decide (last s = Some c) &&
                      (bool_decide (c = squote) || bool_decide (c = dquote)) in
        if negb quoted && (found s squote p || found s dquote p)
        then Throw (runtime_error "Malformed hostname. Cannot use quote characters on the hostname without quotes")
        else
          let '(res, out, try_quoting) :=
            match span_quotable_string_literal s p true with
            | Ok (res, out) =>
                (res, out, bool_decide (res < length s) && auto_quote_hosts && negb quoted)
            | Throw _ => (0, [], auto_quote_hosts)
            end in
          if try_quoting : bool then
            span_quotable_string_literal
              (substr s 0 p ++ [squote] ++ escape_backticks (drop p s) ++ [squote]) p true
          else Ok (res, out)
  end.

(** The user and the host. *)
Definition split_account (account : str) (auto_quote : Auto_quote) : result (str * str) :=
  u ← match account with
      | [] => Throw (runtime_error "User name must not be empty.")
      | c :: _ =>
          if bool_decide (c = backtick) then
            r ← span_quotable_identifier account 0 false; Ok (Some r.1, r.2)
          else if bool_decide (c = squote) || bool_decide (c = dquote) then
            r ← span_quotable_string_literal account 0 false; Ok (Some r.1, r.2)
          else
            let pos := rfind account at_sign in
            if bool_decide (pos = Some 0) then Throw (runtime_error "User name must not be empty.")
            else
              let before := match pos with Some pos => take pos account | None => account end in
              if bool_decide (auto_quote ≠ USER_AND_HOST) && bool_decide (is_Some (rfind before at_sign))
              then Throw (runtime_error "Invalid user name: ")
              else Ok (pos, before)
      end;
  let '(pos, user) := u in
  h ← match pos with
      | Some pos =>
          if bool_decide (account !! pos = Some at_sign) && bool_decide (pos + 1 < length account) then
            if bool_decide (drop (pos + 1) account = $"skip-grants host")
            then Ok (Some (length account), $"skip-grants host")
            else
              r ← span_account_hostname_relaxed account (pos + 1) (bool_decide (auto_quote ≠ NO));
              Ok (Some r.1, r.2)
          else Ok (Some (if bool_decide (account !! pos = Some at_sign) then pos + 1 else pos), [])
      | None => Ok (None, [])
      end;
  let '(pos, host) := h in
  match pos with
  | Some pos =>
      if bool_decide (pos < length account)
      then Throw (runtime_error "Invalid syntax in account name '")
      else Ok (user, host)
  | None => Ok (user, host)
  end.

Definition make_account (user host : str) : result str :=
  q ← make_sqlstring ($"?@?") 0;
  q ← sqlstring_puts q [ArgString user; ArgString host];
  sqlstring_str q.

(** ** Qualified names *)

Definition ensure_dot (s : str) (pos : nat) : result unit :=
  if bool_decide (char_at s pos ≠ dot)
  then Throw (runtime_error "Invalid object name, expected '.', but got: '") else Ok tt.

Definition ensure_eos (s : str) (pos : nat) : result unit :=
  if bool_decide (pos < length s)
  then Throw (runtime_error "Invalid object name, expected end of name, but got: '") else Ok tt.

(** The schema and the table. *)
Definition split_schema_and_table (s : str) (allow_ansi_quotes : bool) : result (str * str) :=
  r ← span_quotable_identifier s 0 allow_ansi_quotes;
  let '(pos, schema) := r in
  r ← (if bool_decide (pos < length s) then
         _ ← ensure_dot s pos;
         r ← span_quotable_identifier s (pos + 1) allow_ansi_quotes;
         let '(pos, table) := r in
         _ ← ensure_eos s pos;
         Ok (schema, table)
       else Ok ([], schema));
  let '(schema, table) := r in
  if bool_decide (table = [])
  then Throw (runtime_error "Invalid object name, table name cannot be empty.")
  else Ok (schema, table).

(** The schema, the table and the object. *)
Definition split_schema_table_and_object (s : str) (allow_ansi_quotes : bool)
    : result (str * str * str) :=
  r ← span_quotable_identifier s 0 allow_ansi_quotes;
  let '(pos, schema) := r in
  r ← (if bool_decide (pos < length s) then
         _ ← ensure_dot s pos;
         r ← span_quotable_identifier s (pos + 1) allow_ansi_quotes;
         let '(pos, table) := r in
         if bool_decide (pos < length s) then
           _ ← ensure_dot s pos;
           r ← span_quotable_identifier s (pos + 1) allow_ansi_quotes;
           let '(pos, object) := r in
           _ ← ensure_eos s pos;
           Ok (schema, table, object)
         else Ok ([], schema, table)
       else Ok ([], [], schema));
  let '(schema, table, object) := r in
  if bool_decide (object = [])
  then Throw (runtime_error "Invalid identifier, object name cannot be empty.")
  else Ok (schema, table, object).

(** The schema, the object, and [*out_leftover] when it is written. *)
Definition split_priv_level (s : str) (has_leftover : bool) : result (str * str * option nat) :=
  match s with
  | [] => Ok ([], [], None)
  | c :: _ =>
      r ← (if bool_decide (c = "*"%char) then Ok (1, $"*") else span_quotable_identifier s 0 false);
      let '(pos, schema) := r in
      if bool_decide (pos < length s) then
        if bool_decide (char_at s pos ≠ dot)
        then Throw (runtime_error "Invalid object name '")
        else
          r ← match s !! (pos + 1) with
              | None => Throw (runtime_error "Invalid object name '")
              | Some d => if bool_decide (d = "*"%char) then Ok (pos + 2, $"*")
                          else span_quotable_identifier s (pos + 1) false
              end;
          let '(pos, object) := r in
          if bool_decide (pos < length s) then
            if has_leftover then Ok (schema, object, Some pos)
            else Throw (runtime_error "Invalid object name '")
          else Ok (schema, object, None)
      else Ok (schema, [], None)
  end.

Definition unquote_identifier (s : str) (allow_ansi_quotes : bool) : result str :=
  r ← span_quotable_identifier s 0 allow_ansi_quotes;
  let '(pos, object) := r in
  if bool_decide (pos < length s)
  then Throw (runtime_error "Invalid object name, expected end of name, but got: '")
  else if bool_decide (object = []) then Throw (runtime_error "Object name cannot be empty.")
  else Ok object.

Definition parse_schema_and_object (s : str) : result (str * str) :=
  match split_schema_and_table s false with
  | Throw (runtime_error _) => Throw (invalid_argument "Failed to parse ")
  | Throw e => Throw e
  | Ok (schema, table) =>
      if bool_decide (schema = []) then Throw (invalid_argument "The ")
      else Ok (schema, table)
  end.

(** ** Quoted SQL strings *)

Definition unquote_escape (c : ascii) : ascii :=
  if bool_decide (c = "0"%char) then "000"%char
  else if bool_decide (c = "n"%char) then "010"%char
  else if bool_decide (c = "r"%char) then "013"%char
  else if bool_decide (c = "Z"%char) then "026"%char
  else c.

Definition not_quoted : exn := invalid_argument "string is not properly quoted".

(** [for (;;)]; every turn moves [offs] forward. *)
Fixpoint unquote_sql_loop (fuel : nat) (s : str) (offs : nat) (out : str) : result str :=
  match fuel with
  | O => Throw not_quoted
  | S fuel =>
      match find_first_of s [squote; backslash] offs with
      | None => Throw not_quoted
      | Some p =>
          let out := out ++ substr s offs (p - offs) in
          let c := char_at s (p + 1) in
          if bool_decide (char_at s p = backslash) then
            if bool_decide (c = nul) then Throw not_quoted
            else unquote_sql_loop fuel s (p + 2) (out ++ [unquote_escape c])
          else if bool_decide (c = squote) then unquote_sql_loop fuel s (p + 2) (out ++ [squote])
          else if bool_decide (p + 1 = length s) then Ok out
          else Throw not_quoted
      end
  end.

Definition unquote_sql_string (s : str) : result str :=
  if bool_decide (length s < 2) || bool_decide (char_at s 0 ≠ squote) ||
     bool_decide (last s ≠ Some (char_at s 0))
  then Throw not_quoted
  else unquote_sql_loop (S (length s)) s 1 [].

(** ** Globs *)

Definition k_glob_escape : ascii := "\"%char.
Definition k_glob_match_single : ascii := "?"%char.
Definition k_glob_match_many : ascii := "*"%char.

Definition glob_special (c : ascii) : bool :=
  bool_decide (c = k_glob_escape) || bool_decide (c = k_glob_match_many) ||
  bool_decide (c = k_glob_match_single).

Record glob_state := { px : nat; sx : nat; ppx : nat; psx : nat }.

(** One turn of the loop, entered with [px < pend || sx < send]: the next state, or
    [None] for [return false]. *)
Definition glob_step (pat s : str) (st : glob_state) : option glob_state :=
  let restart :=
    if bool_decide (0 < psx st) && bool_decide (psx st ≤ length s)
    then Some {| px := ppx st + 1; sx := psx st; ppx := ppx st; psx := psx st + 1 |}
    else None in
  match pat !! px st with
  | None => restart
  | Some c =>
      if bool_decide (c = k_glob_match_single) then
        if bool_decide (sx st < length s)
        then Some {| px := px st + 1; sx := sx st + 1; ppx := ppx st; psx := psx st |}
        else restart
      else if bool_decide (c = k_glob_match_many) then
        Some {| px := px st + 1; sx := sx st; ppx := px st; psx := sx st + 1 |}
      else
        let '(p, c) :=
          match pat !! (px st + 1) with
          | Some d => if bool_decide (c = k_glob_escape) && glob_special d then (px st + 1, d) else (px st, c)
          | None => (px st, c)
          end in
        if bool_decide (s !! sx st = Some c)
        then Some {| px := p + 1; sx := sx st + 1; ppx := ppx st; psx := psx st |}
        else restart
  end.

(** [None] when the turns allowed by [fuel] are used up. *)
Fixpoint glob_loop (fuel : nat) (pat s : str) (st : glob_state) : option bool :=
  match fuel with
  | O => None
  | S fuel =>
      if bool_decide (px st < length pat) || bool_decide (sx st < length s) then
        match glob_step pat s st with
        | Some st => glob_loop fuel pat s st
        | None => Some false
        end
      else Some true
  end.

Definition glob_fuel (pat s : str) : nat :=
  (length pat + 2) * (length s + 2) * (length pat + length s + 2).

Definition _match_glob (pat s : str) : bool :=
  default false (glob_loop (glob_fuel pat s) pat s {| px := 0; sx := 0; ppx := 0; psx := 0 |}).

Definition match_glob (pattern s : str) (case_sensitive : bool) : bool :=
  if negb case_sensitive then _match_glob (str_lower pattern) (str_lower s)
  else _match_glob pattern s.

Fixpoint unescape_glob (pattern : str) : option str :=
  match pattern with
  | [] => Some []
  | c :: rest =>
      if bool_decide (c = k_glob_match_single) || bool_decide (c = k_glob_match_many) then None
      else
        match rest with
        | d :: rest' =>
            if bool_decide (c = k_glob_escape) && glob_special d
            then (λ r, d :: r) <$> unescape_glob rest'
            else (λ r, c :: r) <$> unescape_glob rest
        | [] => Some [c]
        end
  end.

(** ** Naming styles *)

Inductive NamingStyle := LowerCamelCase | LowerCaseUnderscores | Constants.

(** The body of the loop for [LowerCaseUnderscores]; [skip_underscore] and the name. *)
Definition member_step (st : bool * str) (c : ascii) : bool * str :=
  let '(skip, new_name) := st in
  if isupper c then
    (false, (if skip : bool then new_name else new_name ++ [underscore]) ++ [byte_of (uch c + 32)])
  else (bool_decide (c = underscore), new_name ++ [c]).

Definition get_member_name (name : str) (style : NamingStyle) : str :=
  match style with
  | LowerCamelCase => name
  | LowerCaseUnderscores => (foldl member_step (true, []) name).2
  | Constants => (λ c, if islower c then byte_of (uch c - 32) else c) <$> name
  end.

Definition is_word_sep (c : ascii) : bool := bool_decide (c = underscore) || bool_decide (c = dash).

(** [upper_next], [upper_count] and the name. *)
Definition to_camel_step (st : bool * nat * str) (c : ascii) : bool * nat * str :=
  let '(upper_next, upper_count, new_name) := st in
  let upper_count := if isupper c then S upper_count else upper_count in
  if is_word_sep c then (true, S upper_count, new_name)
  else if upper_next : bool then (false, upper_count, new_name ++ [toupper c])
  else (upper_next, upper_count, new_name ++ [c]).

Definition to_camel_case (name : str) : str :=
  match name with
  | [] => []
  | _ =>
      let '(_, upper_count, new_name) := foldl to_camel_step (false, 0, []) name in
      if bool_decide (upper_count = length name) then name else new_name
  end.

(** [skip_underscore], [upper_count] and the name. *)
Definition from_camel_step (st : bool * nat * str) (c : ascii) : bool * nat * str :=
  let '(skip, upper_count, new_name) := st in
  if isupper c then
    (false, S upper_count, (if skip : bool then new_name else new_name ++ [underscore]) ++ [tolower c])
  else
    (is_word_sep c, if is_word_sep c then S upper_count else upper_count, new_name ++ [c]).

Definition from_camel_case (name : str) : str :=
  match name with
  | [] => []
  | _ =>
      let '(_, upper_count, new_name) := foldl from_camel_step (true, 0, []) name in
      if bool_decide (upper_count = length name) then name else new_name
  end.

Definition from_camel_case_to_dashes (name : str) : str :=
  str_replace (from_camel_case name) [underscore] [dash].

(** ** Passwords in URIs *)

Definition strip_password (connstring : str) : str :=
  let '(scheme, remaining) :=
    match find_str connstring ($"://") 0 with
    | Some p => (substr connstring 0 (p + 3), drop (p + 3) connstring)
    | None => ([], connstring)
    end in
  let s := match find_char remaining "/"%char 0 with Some p => substr remaining 0 p | None => remaining end in
  let user_part := match rfind s at_sign with Some p => substr s 0 p | None => [] end in
  match find_char user_part ":"%char 0 with
  | Some p =>
      let password := drop p user_part in
      let uri_stripped :=
        match find_str remaining password 0 with
        | Some i => take i remaining ++ drop (i + length password) remaining
        | None => remaining
        end in
      scheme ++ uri_stripped
  | None => connstring
  end.

(** ** Splitting at a separator text or at any of its characters *)

Fixpoint split_string_chars_loop (fuel : nat) (input separator_chars : str) (compress : bool)
    (index : nat) (ret_val : list str) : list str :=
  match fuel with
  | O => ret_val
  | S fuel =>
      match find_first_of input separator_chars index with
      | Some p =>
          split_string_chars_loop fuel input separator_chars compress (p + 1)
            (if bool_decide (index < p) || negb compress || bool_decide (p = 0)
             then ret_val ++ [substr input index (p - index)] else ret_val)
      | None => ret_val ++ [drop index input]
      end
  end.

Definition split_string_chars (input separator_chars : str) (compress : bool) : list str :=
  split_string_chars_loop (S (length input)) input separator_chars compress 0 [].
