(* ===== verification/NaturalCompare.v ===== *)
(** * Natural string order (mysqlshdk/libs/utils/natural_compare.h)

    The iterator pairs [first1, last1) and [first2, last2) are the texts still to
    be read; the two helpers take them by reference and return what is left.
    [*first] is a signed [char]. *)
From S2P Require Import Prelude.

Open Scope nat_scope.

Fixpoint compare_numbers_loop (bias : Z) (s1 s2 : str) : Z * str * str :=
  match s1, s2 with
  | c1 :: s1', c2 :: s2' =>
      if negb (isdigit c1) && negb (isdigit c2) then (bias, s1, s2)
      else if negb (isdigit c1) then ((-1)%Z, s1, s2)
      else if negb (isdigit c2) then (1%Z, s1, s2)
      else
        let bias :=
          if (sch c1 <? sch c2)%Z then if (bias =? 0)%Z then (-1)%Z else bias
          else if (sch c2 <? sch c1)%Z then if (bias =? 0)%Z then 1%Z else bias
          else bias in
        compare_numbers_loop bias s1' s2'
  | [], [] => (bias, [], [])
  | _, _ => (0%Z, s1, s2)
  end.

Definition compare_numbers (s1 s2 : str) : Z * str * str := compare_numbers_loop 0 s1 s2.

Fixpoint compare_fractional (s1 s2 : str) : Z * str * str :=
  match s1, s2 with
  | c1 :: s1', c2 :: s2' =>
      if negb (isdigit c1) && negb (isdigit c2) then (0%Z, s1, s2)
      else if negb (isdigit c1) then ((-1)%Z, s1, s2)
      else if negb (isdigit c2) then (1%Z, s1, s2)
      else if (sch c1 <? sch c2)%Z then ((-1)%Z, s1, s2)
      else if (sch c2 <? sch c1)%Z then (1%Z, s1, s2)
      else compare_fractional s1' s2'
  | _, _ => (0%Z, s1, s2)
  end.

(** The [while] loop; each turn reads at least one character of both texts. *)
Fixpoint natural_compare_loop (fuel : nat) (s1 s2 : str) : bool :=
  match s1, s2, fuel with
  | c1 :: s1', c2 :: s2', S fuel =>
      if isdigit c1 && isdigit c2 then
        let '(r, s1, s2) :=
          if bool_decide (c1 = "0"%char) || bool_decide (c2 = "0"%char)
          then compare_fractional s1 s2 else compare_numbers s1 s2 in
        if (r =? -1)%Z then true
        else if (r =? 1)%Z then false
        else natural_compare_loop fuel s1 s2
      else if (sch c1 <? sch c2)%Z then true
      else if (sch c2 <? sch c1)%Z then false
      else natural_compare_loop fuel s1' s2'
  | _, _, _ => bool_decide (s1 = []) && bool_decide (s2 ≠ [])
  end.

Definition natural_compare (s1 s2 : str) : bool :=
  natural_compare_loop (S (length s1)) s1 s2.
