(* ===== verification/NaturalCompareFacts.v ===== *)
(** * Correctness of the natural string order

    [natural_compare] is the lexicographic order of an explicit sort key, hence
    a strict total order; the key shows where it departs from comparing numbers
    by value. *)
From S2P Require Import Prelude NaturalCompare.

Open Scope nat_scope.

(** ** Lexicographic order on integer keys *)

Fixpoint lexb (l1 l2 : list Z) : bool :=
  match l1, l2 with
  | _, [] => false
  | [], _ => true
  | a :: l1, b :: l2 => (a <? b)%Z || ((a =? b)%Z && lexb l1 l2)
  end.

Lemma lexb_irrefl l : lexb l l = false.
Proof. induction l as [|a l IH]; simpl; [done|]. by rewrite Z.ltb_irrefl, Z.eqb_refl, IH. Qed.

Lemma lexb_trans l1 l2 l3 : lexb l1 l2 = true → lexb l2 l3 = true → lexb l1 l3 = true.
Proof.
  revert l2 l3. induction l1 as [|a l1 IH]; intros [|b l2] [|c l3]; simpl; try done.
  rewrite !orb_true_iff, !andb_true_iff, !Z.ltb_lt, !Z.eqb_eq.
  intros [?|[? H1]] [?|[? H2]]; [left; lia..|]. right. split; [lia|eauto].
Qed.

Lemma lexb_total l1 l2 : l1 = l2 ∨ lexb l1 l2 = true ∨ lexb l2 l1 = true.
Proof.
  revert l2. induction l1 as [|a l1 IH]; intros [|b l2]; simpl; auto.
  rewrite !orb_true_iff, !andb_true_iff, !Z.ltb_lt, !Z.eqb_eq.
  destruct (Z.lt_trichotomy a b) as [?|[->|?]]; [tauto| |tauto].
  destruct (IH l2) as [->|[?|?]]; auto.
Qed.

Lemma lexb_prefix p l1 l2 : lexb (p ++ l1) (p ++ l2) = lexb l1 l2.
Proof. induction p as [|a p IH]; simpl; [done|]. by rewrite Z.ltb_irrefl, Z.eqb_refl, IH. Qed.

(** ** The sort key *)

Fixpoint digits (s : str) : str :=
  match s with c :: s' => if isdigit c then c :: digits s' else [] | [] => [] end.
Fixpoint after_digits (s : str) : str :=
  match s with c :: s' => if isdigit c then after_digits s' else s | [] => [] end.

(** A number that does not start with 0 is ordered by its length, then by whether
    it ends the text, then by its digits; one that starts with 0 is ordered, before
    all others, like a fraction; every other character by its (signed) value. *)
Fixpoint key_of (fuel : nat) (s : str) : list Z :=
  match fuel, s with
  | S fuel, c :: s' =>
      if isdigit c then
        48%Z :: (if bool_decide (c = "0"%char) then 0%Z :: (uch <$> digits s) ++ [0%Z]
                 else [1%Z; Z.of_nat (length (digits s));
                       if bool_decide (after_digits s = []) then 0%Z else 1%Z] ++ (uch <$> digits s))
        ++ key_of fuel (after_digits s)
      else sch c :: key_of fuel s'
  | _, _ => []
  end.
Definition natural_key (s : str) : list Z := key_of (S (length s)) s.

Lemma digits_after s : digits s ++ after_digits s = s.
Proof. induction s as [|c s IH]; simpl; [done|]. destruct (isdigit c); simpl; congruence. Qed.

Lemma after_length s : length (digits s) + length (after_digits s) = length s.
Proof. by rewrite <- length_app, digits_after. Qed.

Lemma sch_digit c : isdigit c = true → sch c = uch c ∧ (48 <= uch c <= 57)%Z.
Proof.
  unfold isdigit, in_range, sch. intros H. bool_to_prop.
  destruct (Z.ltb_spec (uch c) 128); lia.
Qed.

Lemma sch_nondigit c : isdigit c = false → ¬ (48 <= sch c <= 57)%Z.
Proof.
  unfold isdigit, in_range, sch. pose proof (uch_range c). intros Hd Hr.
  apply andb_false_iff in Hd as [Hd|Hd]; bool_to_prop; destruct (Z.ltb_spec (uch c) 128); lia.
Qed.

Lemma sch_inj c d : sch c = sch d → c = d.
Proof.
  unfold sch. pose proof (uch_range c). pose proof (uch_range d).
  destruct (Z.ltb_spec (uch c) 128), (Z.ltb_spec (uch d) 128); intros; apply uch_inj; lia.
Qed.

Lemma digit_zero c : isdigit c = true → c = "0"%char ∨ (48 < uch c)%Z.
Proof.
  intros H. destruct (sch_digit c H) as [_ ?]. destruct (decide (uch c = 48%Z)) as [E|]; [|right; lia].
  left. by apply uch_inj.
Qed.

(** ** The helpers *)

(** Sign of the comparison of two digit strings of one length. *)
Fixpoint dcmp (d1 d2 : str) : Z :=
  match d1, d2 with
  | c1 :: d1, c2 :: d2 =>
      if (uch c1 <? uch c2)%Z then (-1)%Z else if (uch c2 <? uch c1)%Z then 1%Z else dcmp d1 d2
  | _, _ => 0%Z
  end.

Lemma dcmp_lexb d1 d2 x y :
  length d1 = length d2 →
  lexb ((uch <$> d1) ++ x) ((uch <$> d2) ++ y) =
  if (dcmp d1 d2 =? -1)%Z then true else if (dcmp d1 d2 =? 1)%Z then false else lexb x y.
Proof.
  revert d2. induction d1 as [|a d1 IH]; intros [|b d2] H; simplify_eq/=; [done|].
  destruct (Z.ltb_spec (uch a) (uch b)); simpl; [done|].
  destruct (Z.ltb_spec (uch b) (uch a)); simpl.
  - by rewrite (proj2 (Z.eqb_neq _ _)) by lia.
  - rewrite (proj2 (Z.eqb_eq _ _)) by lia. by apply IH.
Qed.

Lemma compare_numbers_spec b s1 s2 r t1 t2 :
  compare_numbers_loop b s1 s2 = (r, t1, t2) →
  let n1 := length (digits s1) in let n2 := length (digits s2) in
  let e1 := after_digits s1 in let e2 := after_digits s2 in
  (n1 < n2 ∧ (e1 ≠ [] ∧ r = (-1)%Z ∨ e1 = [] ∧ r = 0%Z ∧ t1 = [] ∧ t2 ≠ [])) ∨
  (n2 < n1 ∧ (e2 ≠ [] ∧ r = 1%Z ∨ e2 = [] ∧ r = 0%Z ∧ t2 = [] ∧ t1 ≠ [])) ∨
  (n1 = n2 ∧ t1 = e1 ∧ t2 = e2 ∧
   r = if bool_decide (e1 = [] ↔ e2 = [])
       then if (b =? 0)%Z then dcmp (digits s1) (digits s2) else b else 0%Z).
Proof.
  revert b s2. induction s1 as [|c1 s1 IH]; intros b [|c2 s2]; cbn [compare_numbers_loop].
  - intros [= <- <- <-]. simpl. right; right. split_and!; try done. by destruct (Z.eqb_spec b 0).
  - intros [= <- <- <-]. simpl. destruct (isdigit c2); simpl; [left; split; [lia|by right]|].
    right; right. by split_and!.
  - intros [= <- <- <-]. simpl. destruct (isdigit c1); simpl; [right; left; split; [lia|by right]|].
    right; right. by split_and!.
  - simpl. destruct (isdigit c1) eqn:D1, (isdigit c2) eqn:D2; simpl; intros H.
    + apply IH in H. destruct H as [[? H]|[[? H]|(Hn & -> & -> & Hr)]].
      * left. split; [lia|]. exact H.
      * right; left. split; [lia|]. exact H.
      * right; right. split_and!; [lia|done|done|]. rewrite Hr.
        destruct (bool_decide _); [|done].
        destruct (sch_digit _ D1) as [-> _], (sch_digit _ D2) as [-> _].
        destruct (Z.ltb_spec (uch c1) (uch c2)); [by destruct (Z.eqb_spec b 0) as [->|Hb];
          [|rewrite (proj2 (Z.eqb_neq _ _) Hb)]|].
        destruct (Z.ltb_spec (uch c2) (uch c1)); [|done].
        destruct (Z.eqb_spec b 0) as [->|Hb]; [done|by rewrite (proj2 (Z.eqb_neq _ _) Hb)].
    + right; left. split; [lia|]. left. by simplify_eq.
    + left. split; [lia|]. left. by simplify_eq.
    + right; right. simplify_eq. split_and!; try done.
      by destruct (Z.eqb_spec r 0).
Qed.

(** [compare_fractional] compares the two runs of digits, each closed by a mark
    below all digits. *)
Lemma compare_fractional_spec s1 s2 r t1 t2 x y :
  compare_fractional s1 s2 = (r, t1, t2) →
  let k := lexb ((uch <$> digits s1) ++ 0%Z :: x) ((uch <$> digits s2) ++ 0%Z :: y) in
  (r = (-1)%Z ∧ k = true) ∨ (r = 1%Z ∧ k = false) ∨
  (r = 0%Z ∧ ((t1 = [] ∧ t2 ≠ [] ∧ length t2 ≤ length s2 ∧ k = true) ∨
              (t2 = [] ∧ t1 ≠ [] ∧ k = false) ∨
              (t1 = after_digits s1 ∧ t2 = after_digits s2 ∧ k = lexb x y))).
Proof.
  revert s2. induction s1 as [|c1 s1 IH]; intros [|c2 s2]; cbn [compare_fractional].
  - intros [= <- <- <-]. simpl. auto 10.
  - intros [= <- <- <-]. simpl. destruct (isdigit c2) eqn:D2; simpl; [|auto 10].
    destruct (sch_digit _ D2) as [_ ?]. right; right. split; [done|]. left.
    rewrite (proj2 (Z.ltb_lt _ _)) by lia. simpl. split_and!; done.
  - intros [= <- <- <-]. simpl. destruct (isdigit c1) eqn:D1; simpl; [|auto 10].
    destruct (sch_digit _ D1) as [_ ?]. right; right. split; [done|]. right; left.
    rewrite (proj2 (Z.ltb_ge _ _)), (proj2 (Z.eqb_neq _ _)) by lia. done.
  - simpl. destruct (isdigit c1) eqn:D1, (isdigit c2) eqn:D2; simpl.
    + destruct (sch_digit _ D1) as [-> ?], (sch_digit _ D2) as [-> ?].
      destruct (Z.ltb_spec (uch c1) (uch c2)); simpl; [intros [= <- <- <-]; auto|].
      destruct (Z.ltb_spec (uch c2) (uch c1)); simpl.
      { intros [= <- <- <-]. rewrite (proj2 (Z.eqb_neq _ _)) by lia. auto. }
      rewrite (proj2 (Z.eqb_eq _ _)) by lia. simpl. intros Hc.
      destruct (IH s2 Hc) as [?|[?|[? [(?&?&?&?)|[?|?]]]]]; auto 10.
    + destruct (sch_digit _ D1) as [_ ?]. intros [= <- <- <-].
      rewrite (proj2 (Z.ltb_ge _ _)), (proj2 (Z.eqb_neq _ _)) by lia. auto.
    + destruct (sch_digit _ D2) as [_ ?]. intros [= <- <- <-].
      rewrite (proj2 (Z.ltb_lt _ _)) by lia. auto.
    + intros [= <- <- <-]. auto 10.
Qed.

Lemma natural_loop_nil f s1 s2 :
  s1 = [] ∨ s2 = [] → natural_compare_loop f s1 s2 = bool_decide (s1 = []) && bool_decide (s2 ≠ []).
Proof. intros [->| ->]; [by destruct f|by destruct s1, f]. Qed.

Lemma key_nonempty f c s : lexb [] (key_of (S f) (c :: s)) = true.
Proof. simpl. by destruct (isdigit c). Qed.

(** Two numbers, neither of which starts with 0. *)
Lemma numbers_key s1 s2 r t1 t2 x y :
  compare_numbers s1 s2 = (r, t1, t2) →
  let num s := [Z.of_nat (length (digits s)); if bool_decide (after_digits s = []) then 0%Z else 1%Z]
               ++ (uch <$> digits s) in
  let k := lexb (num s1 ++ x) (num s2 ++ y) in
  (r = (-1)%Z ∧ k = true) ∨ (r = 1%Z ∧ k = false) ∨
  (r = 0%Z ∧ ((t1 = [] ∧ t2 ≠ [] ∧ k = true) ∨ (t2 = [] ∧ t1 ≠ [] ∧ k = false) ∨
              (t1 = after_digits s1 ∧ t2 = after_digits s2 ∧ k = lexb x y))).
Proof.
  intros H. apply compare_numbers_spec in H. cbn zeta in *. simpl app. cbn [lexb].
  destruct H as [[Hn H]|[[Hn H]|(Hn & Ht1 & Ht2 & Hr)]].
  - rewrite (proj2 (Z.ltb_lt _ _)) by lia. simpl. destruct H as [[_ H]|(_ & ? & ? & ?)]; auto 10.
  - rewrite (proj2 (Z.ltb_ge _ _)), (proj2 (Z.eqb_neq _ _)) by lia. simpl.
    destruct H as [[_ H]|(_ & ? & ? & ?)]; auto 10.
  - rewrite Hn, Z.ltb_irrefl, Z.eqb_refl, dcmp_lexb by done. simpl.
    assert (∀ d1 d2, dcmp d1 d2 = (-1)%Z ∨ dcmp d1 d2 = 1%Z ∨ dcmp d1 d2 = 0%Z) as Hd.
    { intros d1. induction d1; intros []; simpl; auto. repeat case_match; auto. }
    destruct (decide (after_digits s1 = [])) as [E1|E1], (decide (after_digits s2 = [])) as [E2|E2].
    all: rewrite ?(bool_decide_eq_true_2 _ E1), ?(bool_decide_eq_true_2 _ E2),
           ?(bool_decide_eq_false_2 _ E1), ?(bool_decide_eq_false_2 _ E2); simpl.
    + rewrite bool_decide_eq_true_2 in Hr by tauto. simpl in Hr. rewrite <- Hr.
      destruct (Hd (digits s1) (digits s2)) as [E|[E|E]]; rewrite Hr, E; simpl; auto 10.
    + rewrite bool_decide_eq_false_2 in Hr by tauto. right; right. split; [done|]. left.
      subst. done.
    + rewrite bool_decide_eq_false_2 in Hr by tauto. right; right. split; [done|]. right; left.
      subst. done.
    + rewrite bool_decide_eq_true_2 in Hr by tauto. simpl in Hr.
      destruct (Hd (digits s1) (digits s2)) as [E|[E|E]]; rewrite Hr, E; simpl; auto 10.
Qed.

(** What the loop does with the result of a helper that compared the numbers in front of
    [u1] and [u2]. *)
Lemma helper_result f (u1 u2 : str) (r : Z) (t1 t2 : str) (k : bool) :
  (r = (-1)%Z ∧ k = true) ∨ (r = 1%Z ∧ k = false) ∨
  (r = 0%Z ∧ ((t1 = [] ∧ t2 ≠ [] ∧ k = true) ∨ (t2 = [] ∧ t1 ≠ [] ∧ k = false) ∨
    (t1 = u1 ∧ t2 = u2 ∧ k = natural_compare_loop f t1 t2))) →
  (if (r =? -1)%Z then true else if (r =? 1)%Z then false else natural_compare_loop f t1 t2) = k.
Proof.
  intros [[-> ->]|[[-> ->]|[-> [(->&?&->)|[(->&?&->)|(_&_&->)]]]]]; simpl; try done;
    rewrite natural_loop_nil by auto; [by rewrite !bool_decide_eq_true_2|by rewrite (bool_decide_eq_false_2 (t1 = []))].
Qed.

(** A number with leading zeros comes before one without. *)
Lemma fractional_zero_first c s1 s2 :
  isdigit c = true → (48 < sch c)%Z →
  (compare_fractional ("0"%char :: s1) (c :: s2)).1.1 = (-1)%Z ∧
  (compare_fractional (c :: s1) ("0"%char :: s2)).1.1 = 1%Z.
Proof.
  intros D H. cbn [compare_fractional]. rewrite D. simpl. change (sch "0") with 48%Z.
  rewrite (proj2 (Z.ltb_lt 48 _)) by done. by rewrite (proj2 (Z.ltb_ge (sch c) 48)) by lia.
Qed.

Lemma natural_loop_key f s1 s2 f1 f2 :
  length s1 < f → length s1 < f1 → length s2 < f2 →
  natural_compare_loop f s1 s2 = lexb (key_of f1 s1) (key_of f2 s2).
Proof.
  revert s1 s2 f1 f2. induction f as [|f IH]; intros s1 s2 f1 f2 Hf H1 H2; [lia|].
  destruct f1 as [|f1], f2 as [|f2]; [lia..|].
  destruct s1 as [|c1 s1], s2 as [|c2 s2];
    [done|by rewrite (key_nonempty f2)|rewrite natural_loop_nil by auto; simpl; by destruct (isdigit c1)|].
  cbn [natural_compare_loop key_of]. destruct (isdigit c1) eqn:D1, (isdigit c2) eqn:D2; cbn [andb].
  - assert (natural_compare_loop f (after_digits (c1 :: s1)) (after_digits (c2 :: s2)) =
      lexb (key_of f1 (after_digits (c1 :: s1))) (key_of f2 (after_digits (c2 :: s2)))) as Hrec.
    { pose proof (after_length (c1 :: s1)) as L1. pose proof (after_length (c2 :: s2)) as L2.
      revert L1 L2. cbn [digits]. rewrite D1, D2. cbn [length] in *. intros. apply IH; lia. }
    cbn [lexb app]. rewrite Z.ltb_irrefl, Z.eqb_refl. cbn [orb andb].
    destruct (sch_digit _ D1) as [Hc1 ?], (sch_digit _ D2) as [Hc2 ?].
    destruct (digit_zero _ D1) as [->|Hz1], (digit_zero _ D2) as [->|Hz2].
    + rewrite bool_decide_eq_true_2 by done. cbn [orb].
      destruct (compare_fractional _ _) as [[r t1] t2] eqn:E. eapply helper_result.
      apply (compare_fractional_spec _ _ _ _ _ (key_of f1 (after_digits ("0"%char :: s1)))
        (key_of f2 (after_digits ("0"%char :: s2)))) in E.
      cbn [lexb app]. rewrite Z.ltb_irrefl, Z.eqb_refl, <- !(assoc_L (++)). cbn [orb andb].
      rewrite <- Hrec in E. cbn zeta in E.
      destruct E as [?|[?|[? [(?&?&?&?)|[?|(->&->&?)]]]]]; auto 10.
    + rewrite (bool_decide_eq_true_2 ("0"%char = "0"%char)) by done. cbn [orb].
      rewrite (bool_decide_eq_false_2 (c2 = "0"%char)) by (intros ->; done).
      destruct (fractional_zero_first c2 s1 s2) as [Hr _]; [done|lia|].
      destruct (compare_fractional _ _) as [[r t1] t2]. simpl in *. by subst r.
    + rewrite (bool_decide_eq_true_2 ("0"%char = "0"%char)), orb_true_r by done.
      rewrite (bool_decide_eq_false_2 (c1 = "0"%char)) by (intros ->; done).
      destruct (fractional_zero_first c1 s1 s2) as [_ Hr]; [done|lia|].
      destruct (compare_fractional _ _) as [[r t1] t2]. simpl in *. by subst r.
    + rewrite !bool_decide_eq_false_2 by (intros ->; done). cbn [orb].
      destruct (compare_numbers _ _) as [[r t1] t2] eqn:E. eapply helper_result.
      apply (numbers_key _ _ _ _ _ (key_of f1 (after_digits (c1 :: s1)))
        (key_of f2 (after_digits (c2 :: s2)))) in E.
      cbn [app]. change (lexb (1%Z :: ?a) (1%Z :: ?b)) with (lexb a b). rewrite <- Hrec in E. cbn zeta in E.
      destruct E as [?|[?|[? [?|[?|(->&->&?)]]]]]; auto 10.
  - cbn [lexb app]. destruct (sch_digit _ D1) as [-> ?]. pose proof (sch_nondigit _ D2).
    destruct (Z.ltb_spec (uch c1) (sch c2)), (Z.ltb_spec 48 (sch c2)); cbn [orb andb]; try lia; try done.
    by rewrite (proj2 (Z.ltb_lt _ _)), (proj2 (Z.eqb_neq _ _)) by lia.
  - cbn [lexb app]. destruct (sch_digit _ D2) as [-> ?]. pose proof (sch_nondigit _ D1).
    destruct (Z.ltb_spec (sch c1) (uch c2)), (Z.ltb_spec (sch c1) 48); cbn [orb andb]; try lia; try done.
    by rewrite (proj2 (Z.ltb_lt _ _)), (proj2 (Z.eqb_neq _ _)) by lia.
  - cbn [lexb app]. destruct (Z.ltb_spec (sch c1) (sch c2)); [done|].
    destruct (Z.ltb_spec (sch c2) (sch c1)); simpl; [by rewrite (proj2 (Z.eqb_neq _ _)) by lia|].
    rewrite (proj2 (Z.eqb_eq _ _)) by lia. simpl in *. apply IH; lia.
Qed.

Lemma natural_compare_key s1 s2 : natural_compare s1 s2 = lexb (natural_key s1) (natural_key s2).
Proof. apply natural_loop_key; lia. Qed.

#[global] Instance uch_Inj : Inj (=) (=) uch.
Proof. intros c d. apply uch_inj. Qed.

(** ** The key determines the text *)

Lemma closed_run_inj d1 d2 x y :
  Forall (λ c, isdigit c = true) d1 → Forall (λ c, isdigit c = true) d2 →
  (uch <$> d1) ++ 0%Z :: x = (uch <$> d2) ++ 0%Z :: y → d1 = d2 ∧ x = y.
Proof.
  revert d2. induction d1 as [|a d1 IH]; intros [|b d2] H1 H2 He; simpl in He.
  - by injection He as ->.
  - injection He as He _. apply Forall_cons in H2 as [Hb _]. destruct (sch_digit _ Hb). lia.
  - injection He as He _. apply Forall_cons in H1 as [Ha _]. destruct (sch_digit _ Ha). lia.
  - injection He as He1 He2. apply Forall_cons in H1 as [_ H1]. apply Forall_cons in H2 as [_ H2].
    apply uch_inj in He1 as ->. destruct (IH d2) as [-> ->]; done.
Qed.

Lemma digits_all s : Forall (λ c, isdigit c = true) (digits s).
Proof. induction s as [|c s IH]; simpl; [done|]. destruct (isdigit c) eqn:E; [|done]. by constructor. Qed.

Lemma key_of_inj f1 s1 f2 s2 :
  length s1 < f1 → length s2 < f2 → key_of f1 s1 = key_of f2 s2 → s1 = s2.
Proof.
  revert s1 f2 s2. induction f1 as [|f1 IH]; intros s1 [|f2] s2 H1 H2 He; [lia..|].
  destruct s1 as [|c1 s1], s2 as [|c2 s2]; [done|simpl in He; by destruct (isdigit c2)
    |simpl in He; by destruct (isdigit c1)|].
  assert (∀ c s, isdigit c = true → length (after_digits (c :: s)) ≤ length s) as Ha.
  { intros c s D. pose proof (after_length (c :: s)) as L. revert L. cbn [digits]. rewrite D. simpl. lia. }
  cbn [key_of] in He. destruct (isdigit c1) eqn:D1, (isdigit c2) eqn:D2.
  - pose proof (Ha _ s1 D1). pose proof (Ha _ s2 D2). cbn [length] in *.
    rewrite <- (digits_after (c1 :: s1)), <- (digits_after (c2 :: s2)).
    pose proof (digits_all (c1 :: s1)). pose proof (digits_all (c2 :: s2)).
    generalize dependent (digits (c1 :: s1)). generalize dependent (digits (c2 :: s2)).
    generalize dependent (after_digits (c1 :: s1)). generalize dependent (after_digits (c2 :: s2)).
    intros e2 Hl2 e1 Hl1 d2 Hd2 d1 He Hd1.
    destruct (bool_decide (c1 = _)), (bool_decide (c2 = _)); cbn [app] in He; try done.
    + injection He as He. rewrite <- !(assoc_L (++)) in He. apply closed_run_inj in He as [-> He]; [|done..].
      f_equal. eapply IH; [..|exact He]; lia.
    + injection He as Hn _ He. apply Nat2Z.inj in Hn.
      apply app_inj_1 in He as [Hd He]; [|by rewrite !length_fmap].
      apply (inj (fmap uch)) in Hd as ->.
      f_equal. eapply IH; [..|exact He]; lia.
  - injection He as He _. pose proof (sch_nondigit _ D2). lia.
  - injection He as He _. pose proof (sch_nondigit _ D1). lia.
  - injection He as Hc He. apply sch_inj in Hc as ->. simpl in *. f_equal. eapply IH; [..|exact He]; lia.
Qed.

(** ** Numbers inside a text *)

Definition no_digit_first (t : str) : Prop := ∀ c t', t = c :: t' → isdigit c = false.

Lemma digits_run d t :
  Forall (λ c, isdigit c = true) d → no_digit_first t → digits (d ++ t) = d ∧ after_digits (d ++ t) = t.
Proof.
  intros Hd Ht. induction Hd as [|c d Hc Hd [IH1 IH2]]; simpl.
  - destruct t as [|c t]; simpl; [done|]. by rewrite (Ht c t).
  - rewrite Hc. by rewrite IH1, IH2.
Qed.

Lemma after_no_digit s : no_digit_first (after_digits s).
Proof.
  induction s as [|c s IH]; simpl; [done|]. destruct (isdigit c) eqn:E; [done|].
  by intros d t' [= <- _].
Qed.

Lemma key_of_fuel f1 f2 s : length s < f1 → length s < f2 → key_of f1 s = key_of f2 s.
Proof.
  revert s f2. induction f1 as [|f1 IH]; intros s [|f2] H1 H2; [lia..|].
  destruct s as [|c s]; [done|]. cbn [key_of]. destruct (isdigit c) eqn:D.
  - pose proof (after_length (c :: s)) as L. revert L. cbn [digits]. rewrite D. cbn [length] in *.
    intros L. do 2 f_equal. apply IH; lia.
  - f_equal. simpl in *. apply IH; lia.
Qed.

(** A prefix that does not end in a digit contributes a fixed part of the key. *)
Definition no_digit_last (p : str) : Prop := ∀ q c, p = q ++ [c] → isdigit c = false.

Lemma after_digits_app d e s :
  Forall (λ c, isdigit c = true) d → no_digit_first e → e ≠ [] →
  digits (d ++ e ++ s) = d ∧ after_digits (d ++ e ++ s) = e ++ s.
Proof.
  intros Hd He Hne. apply digits_run; [done|]. destruct e as [|c e]; [done|].
  intros c' t' [= <- _]. by apply (He c e).
Qed.

Lemma natural_key_app p :
  no_digit_last p → ∃ k, ∀ s, natural_key (p ++ s) = k ++ natural_key s.
Proof.
  remember (length p) as n eqn:Hn. revert p Hn.
  induction n as [n IH] using lt_wf_ind. intros p -> Hp.
  destruct p as [|c p]; [by exists []|]. unfold natural_key at 1. cbn [app].
  destruct (isdigit c) eqn:D.
  - pose proof (digits_all (c :: p)) as Ha. pose proof (digits_after (c :: p)) as Hda.
    pose proof (after_no_digit (c :: p)) as Hnd. pose proof (after_length (c :: p)) as L.
    assert (1 ≤ length (digits (c :: p))) by (cbn [digits]; rewrite D; simpl; lia).
    generalize dependent (digits (c :: p)). generalize dependent (after_digits (c :: p)).
    intros e He d Hd Hde L Hlen.
    assert (e ≠ []) as Hne.
    { intros ->. rewrite app_nil_r in Hde. subst d.
      destruct (exists_last (l := c :: p)) as (q & z & E); [done|].
      rewrite E in Hd. apply Forall_app in Hd as [_ [Hz _]%Forall_cons].
      rewrite (Hp q z E) in Hz. done. }
    destruct (IH (length e)) with (p := e) as [k Hk]; [lia|done|..].
    { intros q z ->. apply (Hp (d ++ q)). by rewrite <- Hde, (assoc_L (++)). }
    exists (48%Z :: (if bool_decide (c = "0"%char) then 0%Z :: (uch <$> d) ++ [0%Z]
                 else [1%Z; Z.of_nat (length d); 1%Z] ++ (uch <$> d)) ++ k). intros s.
    destruct (after_digits_app d e s Hd He Hne) as [E1 E2].
    assert (c :: p ++ s = d ++ e ++ s) as Es by (rewrite (assoc_L (++)), Hde; done).
    cbn [key_of]. rewrite D, Es, E1, E2.
    rewrite (bool_decide_eq_false_2 (e ++ s = [])) by (intros [? _]%app_nil; done).
    simpl app. f_equal. rewrite <- (assoc_L (++)), <- Hk. f_equal.
    apply key_of_fuel; [|lia]. simpl in L. rewrite !length_app. lia.
  - destruct (IH (length p)) with (p := p) as [k Hk]; [simpl; lia|done|..].
    { intros q z ->. by apply (Hp (c :: q)). }
    exists (sch c :: k). intros s. cbn [key_of]. rewrite D. cbn [app]. f_equal.
    rewrite <- Hk. apply key_of_fuel; simpl; lia.
Qed.

Lemma natural_key_number d t :
  Forall (λ c, isdigit c = true) d → no_digit_first t → (∃ c d', d = c :: d' ∧ c ≠ "0"%char) →
  natural_key (d ++ t) = [48; 1; Z.of_nat (length d); if bool_decide (t = []) then 0 else 1]%Z
    ++ (uch <$> d) ++ natural_key t.
Proof.
  intros Hd Ht (c & d' & Hc & Hz). destruct (digits_run d t Hd Ht) as [E1 E2].
  assert (isdigit c = true) as D by (subst d; by apply Forall_cons in Hd as [? _]).
  unfold natural_key at 1. assert (d ++ t = c :: d' ++ t) as E by by subst d.
  rewrite E at 2. cbn [key_of]. rewrite D, <- E, E1, E2, bool_decide_eq_false_2 by done.
  simpl. do 4 f_equal. f_equal. apply key_of_fuel; [|lia]. rewrite length_app. subst d. simpl. lia.
Qed.

(** ** Numbers by value *)

Lemma dcmp_value d1 d2 :
  Forall (λ c, isdigit c = true) d1 → Forall (λ c, isdigit c = true) d2 → length d1 = length d2 →
  (dec_value d1 0 < dec_value d2 0)%Z → dcmp d1 d2 = (-1)%Z.
Proof.
  intros H1. revert d2. induction H1 as [|a d1 Ha H1 IH]; intros [|b d2] H2 Hl; simplify_eq/=; [done|].
  apply Forall_cons in H2 as [Hb H2].
  change (dec_value (a :: d1) 0) with (dec_value d1 (digit_value a)).
  change (dec_value (b :: d2) 0) with (dec_value d2 (digit_value b)).
  rewrite dec_value_acc, (dec_value_acc d2), Hl. unfold digit_value. intros Hv.
  pose proof (dec_value_bound d1 H1) as B1. pose proof (dec_value_bound d2 H2) as B2. rewrite Hl in B1.
  destruct (Z.ltb_spec (uch a) (uch b)); [done|].
  destruct (Z.ltb_spec (uch b) (uch a)); [nia|]. apply IH; [done|done|nia].
Qed.

Lemma dec_digits_head fuel n acc :
  (0 < n)%Z → Z.to_nat (Z.log2 n) < fuel →
  ∃ c l, dec_digits fuel n acc = c :: l ∧ c ≠ "0"%char.
Proof.
  revert n acc. induction fuel as [|fuel IH]; intros n acc Hn Hf; [lia|]. cbn [dec_digits].
  destruct (Z.ltb_spec n 10).
  - do 2 eexists. split; [done|]. intros E%(f_equal digit_value).
    rewrite (proj2 (isdigit_digit_char (n mod 10) ltac:(apply Z.mod_pos_bound; lia))) in E.
    rewrite Z.mod_small in E by lia. change (digit_value "0") with 0%Z in E. lia.
  - pose proof (log2_div10 n). apply IH; [apply Z.div_str_pos; lia|lia].
Qed.

Lemma dec_head n : (0 < n)%Z → ∃ c l, dec n = c :: l ∧ c ≠ "0"%char.
Proof. intros. apply dec_digits_head; [done|lia]. Qed.

Lemma dec_order n m :
  (0 < n < m)%Z →
  length (dec n) < length (dec m) ∨
  (length (dec n) = length (dec m) ∧ dcmp (dec n) (dec m) = (-1)%Z).
Proof.
  intros H. destruct (dec_spec n) as (_ & Dn & Vn); [lia|]. destruct (dec_spec m) as (_ & Dm & Vm); [lia|].
  destruct (Nat.lt_trichotomy (length (dec n)) (length (dec m))) as [?|[?|Hlt]]; [by left|right|exfalso].
  - split; [done|]. apply dcmp_value; [done..|lia].
  - destruct (dec_head n) as (c & l & E & Hc); [lia|]. rewrite E in *.
    apply Forall_cons in Dn as [Dc Dl]. pose proof (dec_value_bound l Dl).
    pose proof (dec_value_bound _ Dm) as Bm. destruct (digit_zero c Dc); [done|].
    change (dec_value (c :: l) 0) with (dec_value l (digit_value c)) in Vn.
    rewrite dec_value_acc in Vn. unfold digit_value in Vn. simpl in Hlt.
    assert (10 ^ Z.of_nat (length (dec m)) <= 10 ^ Z.of_nat (length l))%Z by (apply Z.pow_le_mono_r; lia).
    nia.
Qed.

(** C40: the loop of [natural_compare] ends, and computes the lexicographic order of
    an explicit key that determines the text: a strict total order. *)
Theorem natural_compare_total_order :
  (∀ s1 s2, natural_compare s1 s2 = lexb (natural_key s1) (natural_key s2)) ∧
  (∀ s, natural_compare s s = false) ∧
  (∀ s1 s2 s3, natural_compare s1 s2 = true → natural_compare s2 s3 = true →
               natural_compare s1 s3 = true) ∧
  (∀ s1 s2, s1 = s2 ∨ natural_compare s1 s2 = true ∨ natural_compare s2 s1 = true).
Proof.
  setoid_rewrite natural_compare_key. split_and!; [done|intros; apply lexb_irrefl| |].
  - intros s1 s2 s3. apply lexb_trans.
  - intros s1 s2. destruct (lexb_total (natural_key s1) (natural_key s2)) as [H|H]; [left|by right].
    eapply key_of_inj; [..|exact H]; lia.
Qed.

(** Numbers inside a text are compared by value: whatever precedes them (not a
    digit) and follows them, unless only the larger one ends its text. *)
Theorem natural_compare_numeric (p t t' : str) (n m : Z) :
  no_digit_last p → no_digit_first t → no_digit_first t' → (t' = [] → t = []) → (0 < n < m)%Z →
  natural_compare (p ++ dec n ++ t) (p ++ dec m ++ t') = true.
Proof.
  intros Hp Ht Ht' Hend H. destruct (natural_key_app p Hp) as [k Hk].
  destruct (dec_spec n) as (_ & Dn & _); [lia|]. destruct (dec_spec m) as (_ & Dm & _); [lia|].
  rewrite natural_compare_key, !Hk, lexb_prefix.
  rewrite !natural_key_number by (try done; apply dec_head; lia).
  destruct (dec_order n m H) as [Hl|[Hl Hd]].
  - simpl. by rewrite (proj2 (Z.ltb_lt _ _)) by lia.
  - rewrite Hl. simpl. rewrite Z.ltb_irrefl, Z.eqb_refl, dcmp_lexb, Hd by done. simpl.
    destruct t'; [by rewrite Hend by done|]. by destruct t.
Qed.

Lemma natural_compare_numeric_witness :
  no_digit_last ($"tab@") ∧ no_digit_first ($".tsv") ∧ (0 < 9 < 10)%Z ∧
  natural_compare ($"tab@9.tsv") ($"tab@10.tsv") = true.
Proof.
  assert (no_digit_last ($"tab@")) as Hp.
  { intros q c E. apply (app_inj_2 ($"tab") q ["@"%char] [c]) in E as [_ [= <-]]; reflexivity. }
  assert (no_digit_first ($".tsv")) as Ht by (intros c t' [= <- _]; reflexivity).
  split; [exact Hp|]. split; [exact Ht|]. split; [lia|].
  apply (natural_compare_numeric ($"tab@") ($".tsv") ($".tsv") 9 10 Hp Ht Ht); [done|lia].
Defined.

(** A number that ends its text comes before every number of as many digits that
    does not, whatever their values: the bias [compare_numbers] collected is dropped
    when one of the texts ends. *)
Theorem natural_compare_number_at_end (p t : str) (n m : Z) :
  no_digit_last p → no_digit_first t → t ≠ [] → (0 < n)%Z → (0 < m)%Z →
  length (dec n) = length (dec m) →
  natural_compare (p ++ dec n) (p ++ dec m ++ t) = true.
Proof.
  intros Hp Ht Hne Hn Hm Hl. destruct (natural_key_app p Hp) as [k Hk].
  destruct (dec_spec n) as (_ & Dn & _); [lia|]. destruct (dec_spec m) as (_ & Dm & _); [lia|].
  rewrite <- (app_nil_r (dec n)), natural_compare_key, !Hk, lexb_prefix.
  rewrite !natural_key_number by (try done; apply dec_head; lia).
  rewrite Hl. simpl. rewrite Z.ltb_irrefl, Z.eqb_refl. by destruct t.
Qed.

Lemma natural_compare_number_at_end_witness :
  length (dec 2) = length (dec 1) ∧ natural_compare ($"file2") ($"file1a") = true.
Proof.
  split; [reflexivity|].
  apply (natural_compare_number_at_end ($"file") ($"a") 2 1); [| |done|lia|lia|reflexivity].
  - intros q c E. apply (app_inj_2 ($"fil") q ["e"%char] [c]) in E as [_ [= <-]]; reflexivity.
  - intros c t' [= <- _]. reflexivity.
Defined.
