(* ===== verification/GtidUtils.v ===== *)
(** * GTID sets (mysqlshdk/libs/mysql/gtid_utils.{h,cc})

    [Gtid_set] keeps a GTID set as text, with a flag that says whether the server
    has normalized it; set operations are done by the server, through the queries
    of [IInstance], and everything else by scanning the text with [iter_ranges].

    A call that throws leaves its object in the state the code reached, so the
    operations that query the server return the object next to the outcome. *)
From S2P Require Import Prelude UtilsString Lexing SqlString Version.

Open Scope nat_scope.

(** ** shcore::lexical_cast<uint64_t> (std::from_chars, whole input) *)

Fixpoint leading_digits (s : str) : str :=
  match s with c :: s' => if isdigit c then c :: leading_digits s' else [] | [] => [] end.

Definition lexical_cast_uint64 (s : str) : result Z :=
  let ds := leading_digits s in
  if bool_decide (ds = []) || bool_decide (UINT64_MOD ≤ dec_value ds 0)%Z
  then Throw (invalid_argument "Unable to perform conversion.")
  else if bool_decide (length ds ≠ length s)
  then Throw (invalid_argument "Conversion did not consume whole input.")
  else Ok (dec_value ds 0).

(** ** Scanning *)

(** [None] when the function returns false: a malformed range is only logged. *)
Definition read_range (range : str) : option (Z * Z) :=
  let range := str_strip_view range k_blanks in
  match find_char range "-"%char 0 with
  | None => match lexical_cast_uint64 range with Ok n => Some (n, n) | Throw _ => None end
  | Some p =>
      match lexical_cast_uint64 (substr range 0 p), lexical_cast_uint64 (drop (p + 1) range) with
      | Ok b, Ok e => Some (b, e)
      | _, _ => None
      end
  end.

Definition is_gtid_tag (tag : str) : bool :=
  if bool_decide (tag = []) then false
  else if bool_decide (32 < length tag) then false
  else if negb (forallb (λ c, islower c || isupper c || isdigit c || bool_decide (c = "_"%char)) tag)
  then false
  else negb (isdigit (char_at tag 0)).

Section iter.
Context {S : Type}.

(** The callback of [iter_tag_ranges]; the state is [cur_tag] and that of [cb]. *)
Definition tag_range_step (cb : S → str → Z → Z → S) (st : str * S) (range : str)
    : (str * S) * bool :=
  let '(cur_tag, s) := st in
  if bool_decide (range = []) then (st, true)
  else if is_gtid_tag range then ((range, s), true)
  else match read_range range with
       | Some (b, e) => ((cur_tag, cb s cur_tag b e), true)
       | None => (st, true)
       end.

Definition iter_tag_ranges (ranges : str) (cb : S → str → Z → Z → S) (s : S) : S :=
  (str_itersplit (tag_range_step cb) ranges ([], s) ($":") (-1) false).1.2.

Definition gtid_step (cb : S → str → str → Z → Z → S) (s : S) (gtid : str) : S * bool :=
  let gtid := str_strip_view gtid k_blanks in
  match find_char gtid ":"%char 0 with
  | None => (s, true)
  | Some p =>
      let uuid := substr gtid 0 p in
      (iter_tag_ranges (drop (p + 1) gtid) (λ s tag b e, cb s uuid tag b e) s, true)
  end.

Definition iter_ranges (gtids : str) (cb : S → str → str → Z → Z → S) (s : S) : S :=
  (str_itersplit (gtid_step cb) gtids s ($",") (-1) false).1.
End iter.

(** ** Gtid_range *)

Record Gtid_range := { uuid_tag : str; begin : Z; end_ : Z }.

#[global] Instance Gtid_range_eq_dec : EqDecision Gtid_range.
Proof. solve_decision. Defined.

Definition make_Gtid_range (range_uuid range_tag : str) (range_begin range_end : Z) : Gtid_range :=
  {| uuid_tag := if bool_decide (range_tag = []) then range_uuid
                 else range_uuid ++ $":" ++ str_lower range_tag;
     begin := range_begin; end_ := range_end |}.

Definition Gtid_range_default : Gtid_range := {| uuid_tag := []; begin := 0; end_ := 0 |}.

Definition from_gtid (gtid : str) : Gtid_range :=
  iter_ranges gtid (λ _ u t b e, make_Gtid_range u t b e) Gtid_range_default.

(** [operator bool] *)
Definition range_bool (r : Gtid_range) : bool :=
  negb (bool_decide (uuid_tag r = [])) && negb (begin r =? 0)%Z && negb (end_ r =? 0)%Z.

Definition is_single (r : Gtid_range) : bool := (begin r =? end_ r)%Z.

(** [str_format("%s:%" PRIu64, ...)] *)
Definition gtid_text (uuid : str) (i : Z) : str := c_str uuid ++ $":" ++ dec i.

Definition range_str (r : Gtid_range) : str :=
  if (begin r =? end_ r)%Z then gtid_text (uuid_tag r) (begin r)
  else gtid_text (uuid_tag r) (begin r) ++ $"-" ++ dec (end_ r).

Definition range_count (r : Gtid_range) : Z := u64 (end_ r - begin r + 1).

(** ** The server *)

(** What [IInstance::query] gives for a text: the first column of the first row as
    a string or as an integer, [None] without a row or for NULL. *)
Class IInstance := {
  get_version : Version;
  query_string : str → result (option str);
  query_int : str → result (option Z);
}.

Section server.
Context `{IInstance}.

Definition queryf_one_string (default_if_null sql : str) (args : list sql_arg) : result str :=
  q ← sqlformat sql args;
  r ← query_string q;
  Ok (default default_if_null r).

Definition queryf_one_int (default_if_null : Z) (sql : str) (args : list sql_arg) : result Z :=
  q ← sqlformat sql args;
  r ← query_int q;
  Ok (default default_if_null r).
End server.

(** ** Gtid_set *)

Record Gtid_set := { m_gtid_set : str; m_normalized : bool }.

Definition Gtid_set_default : Gtid_set := {| m_gtid_set := []; m_normalized := true |}.
Definition from_string (s : str) : Gtid_set := {| m_gtid_set := s; m_normalized := false |}.
Definition from_normalized_string (s : str) : Gtid_set := {| m_gtid_set := s; m_normalized := true |}.

Definition gtid_set_empty (g : Gtid_set) : bool := bool_decide (m_gtid_set g = []).

(** [add(const Gtid &)] *)
Definition add_gtid (g : Gtid_set) (gtid : str) : Gtid_set :=
  if bool_decide (m_gtid_set g = []) then {| m_gtid_set := gtid; m_normalized := true |}
  else {| m_gtid_set := m_gtid_set g ++ $"," ++ gtid; m_normalized := false |}.

(** [add(const Gtid_set &)] *)
Definition add_set (g other : Gtid_set) : Gtid_set :=
  if bool_decide (m_gtid_set g = [])
  then {| m_gtid_set := m_gtid_set other; m_normalized := m_normalized other |}
  else if negb (bool_decide (m_gtid_set other = []))
  then {| m_gtid_set := m_gtid_set g ++ $"," ++ m_gtid_set other; m_normalized := false |}
  else g.

(** [add(const Gtid_range &)] *)
Definition add_range (g : Gtid_set) (range : Gtid_range) : Gtid_set :=
  if bool_decide (m_gtid_set g = []) then {| m_gtid_set := range_str range; m_normalized := true |}
  else {| m_gtid_set := m_gtid_set g ++ $"," ++ range_str range; m_normalized := false |}.

Definition Gtid_set_of_range (range : Gtid_range) : Gtid_set := add_range Gtid_set_default range.

Definition get_gtids_tagged (g : Gtid_set) : Gtid_set :=
  iter_ranges (m_gtid_set g)
    (λ matches u t b e, if bool_decide (t = []) then matches
                        else add_range matches (make_Gtid_range u t b e)) Gtid_set_default.

Definition get_gtids_from (g : Gtid_set) (uuid : str) : Gtid_set :=
  if bool_decide (uuid = []) then Gtid_set_default
  else iter_ranges (m_gtid_set g)
    (λ matches u t b e, if bool_decide (u ≠ uuid) then matches
                        else add_range matches (make_Gtid_range u t b e)) Gtid_set_default.

Definition get_gtids_from_tag (g : Gtid_set) (uuid tag : str) : Gtid_set :=
  if bool_decide (uuid = []) || bool_decide (tag = []) then Gtid_set_default
  else iter_ranges (m_gtid_set g)
    (λ matches u t b e, if bool_decide (u ≠ uuid) then matches
                        else if negb (str_caseeq t [tag]) then matches
                        else add_range matches (make_Gtid_range u t b e)) Gtid_set_default.

Definition count (g : Gtid_set) : result Z :=
  if negb (m_normalized g)
  then Throw (invalid_argument "Can't get count of un-normalized Gtid_set")
  else Ok (iter_ranges (m_gtid_set g) (λ n _ _ b e, u64 (n + u64 (e - b + 1))) 0%Z).

Definition has_tags (g : Gtid_set) : bool :=
  iter_ranges (m_gtid_set g) (λ h _ t _ _, h || negb (bool_decide (t = []))) false.

Definition set_eq (g other : Gtid_set) : result bool :=
  if negb (m_normalized g) || negb (m_normalized other)
  then Throw (invalid_argument "Can't compare un-normalized Gtid_set")
  else Ok (bool_decide (m_gtid_set g = m_gtid_set other)).

Section enumerate.
Context {S : Type}.

Definition enumerate_ranges (g : Gtid_set) (fn : S → Gtid_range → S) (s : S) : result S :=
  if negb (m_normalized g)
  then Throw (invalid_argument "Can't enumerate un-normalized Gtid_set")
  else Ok (iter_ranges (m_gtid_set g) (λ s u t b e, fn s (make_Gtid_range u t b e)) s).

(** [for (auto i = range.begin; i <= range.end; ++i)] on [uint64_t]; [None] when the
    turns allowed by [fuel] are used up. *)
Fixpoint enumerate_loop (fuel : nat) (fn : S → str → S) (uuid : str) (i e : Z) (s : S) : option S :=
  match fuel with
  | O => None
  | Datatypes.S fuel =>
      if (i <=? e)%Z then enumerate_loop fuel fn uuid (u64 (i + 1)) e (fn s (gtid_text uuid i))
      else Some s
  end.
End enumerate.

Definition enumerate {S} (fuel : nat) (g : Gtid_set) (fn : S → str → S) (s : S) : result (option S) :=
  enumerate_ranges g (λ os r, s ← os; enumerate_loop fuel fn (uuid_tag r) (begin r) (end_ r) s) (Some s).

Section server_ops.
Context `{IInstance}.

Definition normalize (g : Gtid_set) : Gtid_set * result unit :=
  if m_normalized g then (g, Ok tt)
  else
    match queryf_one_string [] ($"SELECT gtid_subtract(?, '')") [ArgString (m_gtid_set g)] with
    | Ok s => ({| m_gtid_set := s; m_normalized := true |}, Ok tt)
    | Throw e => ({| m_gtid_set := m_gtid_set g; m_normalized := true |}, Throw e)
    end.

Definition intersect (g other : Gtid_set) : Gtid_set * result unit :=
  if bool_decide (m_gtid_set g = []) || bool_decide (m_gtid_set other = [])
  then ({| m_gtid_set := []; m_normalized := false |}, Ok tt)
  else
    match queryf_one_string [] ($"SELECT gtid_subtract(?, gtid_subtract(?, ?))")
            [ArgString (m_gtid_set other); ArgString (m_gtid_set other); ArgString (m_gtid_set g)] with
    | Ok s => ({| m_gtid_set := s; m_normalized := true |}, Ok tt)
    | Throw e => ({| m_gtid_set := m_gtid_set g; m_normalized := true |}, Throw e)
    end.

Definition subtract (g other : Gtid_set) : Gtid_set * result unit :=
  match queryf_one_string [] ($"SELECT gtid_subtract(?, ?)")
          [ArgString (m_gtid_set g); ArgString (m_gtid_set other)] with
  | Ok s => ({| m_gtid_set := s; m_normalized := true |}, Ok tt)
  | Throw e => ({| m_gtid_set := m_gtid_set g; m_normalized := true |}, Throw e)
  end.

Definition contains (g other : Gtid_set) : result bool :=
  n ← queryf_one_int 0 ($"SELECT gtid_subtract(?, ?) = ''")
        [ArgString (m_gtid_set other); ArgString (m_gtid_set g)];
  Ok (negb (n =? 0)%Z).

(** replication.cc *)
Definition get_executed_gtid_set : result str :=
  queryf_one_string [] ($"SELECT @@GLOBAL.GTID_EXECUTED") [].
Definition get_purged_gtid_set : result str :=
  queryf_one_string [] ($"SELECT @@GLOBAL.GTID_PURGED") [].
Definition get_received_gtid_set (channel_name : str) : result str :=
  queryf_one_string []
    ($"SELECT received_transaction_set FROM performance_schema.replication_connection_status WHERE channel_name = ?")
    [ArgString channel_name].

Definition from_gtid_executed : result Gtid_set := from_normalized_string <$> get_executed_gtid_set.
Definition from_gtid_purged : result Gtid_set := from_normalized_string <$> get_purged_gtid_set.
Definition from_received_transaction_set (channel : str) : result Gtid_set :=
  from_normalized_string <$> get_received_gtid_set channel.
End server_ops.
