(* ===== verification/GtidUtilsFacts.v ===== *)
(** * Correctness of GTID sets

    The scanners are folds over the list [entries] of the (UUID, tag, begin, end)
    entries of a text; printing and parsing of entries are inverse, so that the
    functions that select entries return exactly the selected ones. *)
From S2P Require Import Prelude UtilsString UtilsStringFacts Lexing SqlString GtidUtils.

Open Scope nat_scope.

(** ** Iterating over tokens *)

Lemma str_itersplit_foldl {A} (f : A → str → A * bool) input seps m compress a :
  (∀ a t, (f a t).2 = true) →
  (str_itersplit f input a seps m compress).1 =
  foldl (λ a t, (f a t).1) a (str_split input seps m compress).
Proof.
  intros Hf. unfold str_itersplit, str_split.
  assert (∀ fuel index nf m a acc, ∃ toks,
    str_split_loop fuel input seps compress index nf m acc = acc ++ toks ∧
    (str_itersplit_loop f fuel input seps compress index nf m a).1 = foldl (λ a t, (f a t).1) a toks) as H.
  { intros fuel. induction fuel as [|fuel IH]; intros index nf k b acc; simpl.
    { exists []. by rewrite app_nil_r. }
    case_bool_decide; [|exists []; by rewrite app_nil_r].
    destruct (if bool_decide (k ≠ 0%Z) then _ else _) as [p|]; [|by exists [drop index input]].
    destruct (_ || _); [|apply IH].
    specialize (Hf b (substr input index (p - index))).
    destruct (f b (substr input index (p - index))) as [b' ok] eqn:E. simpl in Hf. subst ok.
    destruct (IH (S p) p (k - 1)%Z b' (acc ++ [substr input index (p - index)])) as (toks & -> & ->).
    exists (substr input index (p - index) :: toks). simpl. rewrite E. by rewrite <- (assoc_L (++)). }
  destruct (H (S (S (length input))) 0 0 m a []) as (toks & -> & ->). done.
Qed.

(** Tokens between single separators, without a limit. *)
Definition split_on (c : ascii) (s : str) : list str := split_ref [c] [] s (-1).

Lemma split_ref_neg seps cur s m m' :
  (m < 0)%Z → (m' < 0)%Z → split_ref seps cur s m = split_ref seps cur s m'.
Proof.
  revert cur m m'. induction s as [|c s IH]; intros cur m m' H H'; simpl; [done|].
  rewrite !bool_decide_eq_true_2 by lia. simpl. destruct (mem_chars seps c).
  - f_equal. apply IH; lia.
  - by apply IH.
Qed.

Lemma split_ref_app c cur s t :
  split_ref [c] cur (s ++ c :: t) (-1) = split_ref [c] cur s (-1) ++ split_on c t.
Proof.
  revert cur. induction s as [|d s IH]; intros cur; cbn [app split_ref].
  - rewrite (bool_decide_eq_true_2 (-1 ≠ 0)%Z) by done. unfold mem_chars.
    rewrite bool_decide_eq_true_2 by set_solver. simpl. f_equal. by apply split_ref_neg.
  - destruct (_ && _); [|apply IH]. simpl. f_equal.
    rewrite !(split_ref_neg _ _ _ (-1 - 1) (-1)) by lia. apply IH.
Qed.

Lemma split_on_app c s t : split_on c (s ++ c :: t) = split_on c s ++ split_on c t.
Proof. apply split_ref_app. Qed.

Lemma split_on_none c s : c ∉ s → split_on c s = [s].
Proof.
  intros H. unfold split_on. rewrite split_ref_end; [done|]. right.
  unfold no_sep. rewrite Forall_forall. intros d Hd. unfold mem_chars.
  apply bool_decide_eq_false_2. intros ->%list_elem_of_singleton. done.
Qed.

Lemma split_on_sub c s t x : t ∈ split_on c s → x ∈ t → x ∈ s ∧ x ≠ c.
Proof.
  unfold split_on. assert (∀ cur m, (∀ y, y ∈ cur → y ≠ c) → (m < 0)%Z →
    t ∈ split_ref [c] cur s m → x ∈ t → (x ∈ cur ∨ x ∈ s) ∧ x ≠ c) as H.
  { induction s as [|d s IH]; intros cur m Hc Hm; cbn [split_ref].
    - intros ->%list_elem_of_singleton Hx. auto.
    - unfold mem_chars. rewrite (bool_decide_eq_true_2 (m ≠ 0%Z)) by lia. cbn [andb].
      case_bool_decide as Hd.
      + intros [->|Ht]%elem_of_cons Hx; [by auto|].
        destruct (IH [] (m - 1)%Z) as [[Hy|?] ?]; [by intros y Hy%elem_of_nil|lia|done|done| |].
        * by apply elem_of_nil in Hy.
        * split; [right; by constructor|done].
      + intros Ht Hx. rewrite list_elem_of_singleton in Hd.
        destruct (IH (cur ++ [d]) m) as [[Hy|?] ?]; [|done|done|done| |].
        * intros y [Hy|Hy]%elem_of_app; [by apply Hc|]. apply list_elem_of_singleton in Hy as ->. done.
        * apply elem_of_app in Hy as [Hy|Hy]; [by auto|].
          apply list_elem_of_singleton in Hy as ->. split; [right; by constructor|done].
        * split; [right; by constructor|done]. }
  intros Ht Hx. destruct (H [] (-1)%Z) as [[Hy|?] ?]; [by intros y Hy%elem_of_nil|lia|done|done| |done].
  by apply elem_of_nil in Hy.
Qed.

(** ** The entries of a text *)

Abbreviation entry := (str * str * Z * Z)%type.
Definition e_uuid (x : entry) : str := x.1.1.1.
Definition e_tag (x : entry) : str := x.1.1.2.

Fixpoint tag_entries (uuid tag : str) (pieces : list str) : list entry :=
  match pieces with
  | [] => []
  | r :: rs =>
      if bool_decide (r = []) then tag_entries uuid tag rs
      else if is_gtid_tag r then tag_entries uuid r rs
      else match read_range r with
           | Some (b, e) => (uuid, tag, b, e) :: tag_entries uuid tag rs
           | None => tag_entries uuid tag rs
           end
  end.

Definition item_entries (gtid : str) : list entry :=
  let g := str_strip_view gtid k_blanks in
  match find_char g ":"%char 0 with
  | None => []
  | Some p => tag_entries (substr g 0 p) [] (split_on ":"%char (drop (p + 1) g))
  end.

Definition entries (s : str) : list entry := split_on ","%char s ≫= item_entries.

Lemma str_split_on (c : ascii) s : s ≠ [] → str_split s [c] (-1) false = split_on c s.
Proof. intros. by apply str_split_ref. Qed.

Lemma iter_tag_ranges_foldl {S} uuid ranges (cb : S → str → str → Z → Z → S) s :
  iter_tag_ranges ranges (λ s tag b e, cb s uuid tag b e) s =
  foldl (λ s '(u, t, b, e), cb s u t b e) s (tag_entries uuid [] (split_on ":"%char ranges)).
Proof.
  unfold iter_tag_ranges. rewrite str_itersplit_foldl.
  2:{ intros [tag st] t. unfold tag_range_step. repeat case_match; done. }
  assert (∀ pieces tag st, (foldl (λ a t, (tag_range_step (λ s tag b e, cb s uuid tag b e) a t).1)
      (tag, st) pieces).2 =
    foldl (λ s '(u, t, b, e), cb s u t b e) st (tag_entries uuid tag pieces)) as H.
  { induction pieces as [|r rs IH]; intros tag st; [done|]. cbn [foldl tag_entries].
    unfold tag_range_step at 2. case_bool_decide; [apply IH|]. destruct (is_gtid_tag r); [apply IH|].
    destruct (read_range r) as [[b e]|]; apply IH. }
  destruct (decide (ranges = [])) as [->|Hne]; [done|].
  rewrite (str_split_on ":"%char) by done. apply H.
Qed.

Lemma foldl_bind {A B S} (f : S → B → S) (g : A → list B) l s :
  foldl f s (l ≫= g) = foldl (λ s x, foldl f s (g x)) s l.
Proof. revert s. induction l as [|x l IH]; intros s; csimpl; [done|]. by rewrite foldl_app, IH. Qed.

(** The scan of a text is a fold over its entries. *)
Lemma iter_ranges_foldl {S} gtids (cb : S → str → str → Z → Z → S) s :
  iter_ranges gtids cb s = foldl (λ s '(u, t, b, e), cb s u t b e) s (entries gtids).
Proof.
  unfold iter_ranges. rewrite str_itersplit_foldl.
  2:{ intros a t. unfold gtid_step. by case_match. }
  assert (∀ a t, (gtid_step cb a t).1 = foldl (λ s '(u, t, b, e), cb s u t b e) a (item_entries t)) as H.
  { intros a t. unfold gtid_step, item_entries. destruct (find_char _ _ _); [|done].
    apply iter_tag_ranges_foldl. }
  unfold entries. rewrite foldl_bind.
  destruct (decide (gtids = [])) as [->|Hne]; [done|]. rewrite (str_split_on ","%char) by done.
  generalize (split_on "," gtids) as l. intros l. revert s. induction l as [|x l IH]; intros s; simpl; [done|].
  rewrite H. apply IH.
Qed.

Lemma entries_app s t : entries (s ++ $"," ++ t) = entries s ++ entries t.
Proof. unfold entries. change ($"," ++ t) with (","%char :: t). by rewrite split_on_app, bind_app. Qed.

(** ** Entries are well formed *)

Definition clean_uuid (u : str) : Prop :=
  (":"%char ∉ u) ∧ (","%char ∉ u) ∧ (nul ∉ u) ∧ ∀ c u', u = c :: u' → c ∉ k_blanks.
Definition clean_tag (t : str) : Prop := t = [] ∨ is_gtid_tag t = true.
Definition uint64 (z : Z) : Prop := (0 <= z < 2 ^ 64)%Z.
Definition clean (x : entry) : Prop :=
  clean_uuid (e_uuid x) ∧ clean_tag (e_tag x) ∧ uint64 x.1.2 ∧ uint64 x.2.

Lemma leading_digits_all s : Forall (λ c, isdigit c = true) (leading_digits s).
Proof. induction s as [|c s IH]; simpl; [done|]. destruct (isdigit c) eqn:E; [|done]. by constructor. Qed.

Lemma lexical_cast_range s n : lexical_cast_uint64 s = Ok n → uint64 n.
Proof.
  unfold lexical_cast_uint64. pose proof (dec_value_bound _ (leading_digits_all s)).
  destruct (bool_decide (leading_digits s = [])); [done|]. cbn [orb].
  case_bool_decide; [done|]. case_bool_decide; [done|]. intros [= <-].
  unfold uint64. unfold UINT64_MOD in *. lia.
Qed.

Lemma read_range_range r b e : read_range r = Some (b, e) → uint64 b ∧ uint64 e.
Proof.
  unfold read_range. destruct (find_char _ _ _) as [p|].
  - destruct (lexical_cast_uint64 (substr _ _ _)) eqn:E1; [|done].
    destruct (lexical_cast_uint64 (drop _ _)) eqn:E2; [|done].
    intros [= <- <-]. split; by eapply lexical_cast_range.
  - destruct (lexical_cast_uint64 _) eqn:E1; [|done]. intros [= <- <-].
    split; by eapply lexical_cast_range.
Qed.

Lemma tag_entries_clean u tag pieces x :
  clean_uuid u → clean_tag tag → x ∈ tag_entries u tag pieces → clean x.
Proof.
  intros Hu. revert tag. induction pieces as [|r rs IH]; intros tag Ht; cbn [tag_entries]; [set_solver|].
  case_bool_decide; [by apply IH|]. destruct (is_gtid_tag r) eqn:E; [apply IH; by right|].
  destruct (read_range r) as [[b e]|] eqn:Er; [|by apply IH].
  intros [->|Hx]%elem_of_cons; [|by eapply IH]. apply read_range_range in Er as [? ?]. done.
Qed.

Lemma strip_sub s x : x ∈ str_strip_view s k_blanks → x ∈ s.
Proof.
  destruct (str_strip_decompose s k_blanks) as (l & r & E & _). rewrite E at 2. set_solver.
Qed.

Lemma find_char_Some s c p : find_char s c 0 = Some p → s !! p = Some c ∧ c ∉ take p s.
Proof.
  unfold find_char. rewrite from_0. intros (d & Hd & Pd & Hall)%find_if_Some.
  apply bool_decide_eq_true_1 in Pd as ->. split; [done|]. intros Hin.
  rewrite Forall_forall in Hall. apply Hall in Hin. by apply bool_decide_eq_false_1 in Hin.
Qed.

Lemma entries_clean s x : nul ∉ s → x ∈ entries s → clean x.
Proof.
  intros Hn (t & Hx & Ht)%list_elem_of_bind. unfold item_entries in Hx.
  destruct (find_char _ _ _) as [p|] eqn:Ep; [|set_solver].
  apply find_char_Some in Ep as [_ Hc]. eapply tag_entries_clean; [..|exact Hx]; [|by left].
  unfold substr. rewrite drop_0.
  assert (∀ c, c ∈ take p (str_strip_view t k_blanks) → c ∈ s ∧ c ≠ ","%char) as Hin.
  { intros c Hct. eapply split_on_sub; [exact Ht|]. apply strip_sub.
    rewrite <- (take_drop p (str_strip_view t k_blanks)). apply elem_of_app. by left. }
  split_and!; [done|..].
  - intros [_ H]%Hin. done.
  - intros [H _]%Hin. done.
  - intros c u' E. destruct (str_strip_decompose t k_blanks) as (_ & _ & _ & _ & _ & Hh & _).
    assert (head (str_strip_view t k_blanks) = Some c) as H.
    { destruct p; [done|]. by destruct (str_strip_view t k_blanks); simplify_eq/=. }
    apply Hh in H. by apply bool_decide_eq_false_1 in H.
Qed.

(** ** Printing and parsing of an entry *)

Definition mk (x : entry) : Gtid_range := let '(u, t, b, e) := x in make_Gtid_range u t b e.
Definition lower_tag (x : entry) : entry := let '(u, t, b, e) := x in (u, str_lower t, b, e).
Definition piece (b e : Z) : str := if (b =? e)%Z then dec b else dec b ++ $"-" ++ dec e.

Lemma c_str_id s : nul ∉ s → c_str s = s.
Proof.
  intros H. unfold c_str. rewrite (proj2 (find_if_None _ _)); [by apply take_ge|].
  rewrite Forall_forall. intros c Hc. apply bool_decide_eq_false_2. by intros ->.
Qed.

Lemma strip_id s c d : head s = Some c → last s = Some d → c ∉ k_blanks → d ∉ k_blanks →
  str_strip_view s k_blanks = s.
Proof.
  intros Hc Hd Bc Bd. destruct (str_strip_decompose s k_blanks) as (l & r & E & Hl & Hr & _).
  unfold all_in, mem_chars in *. rewrite Forall_forall in Hl. rewrite Forall_forall in Hr.
  destruct l as [|a l].
  2:{ rewrite E in Hc. injection Hc as ->. specialize (Hl c ltac:(by left)).
      by apply bool_decide_eq_true_1 in Hl. }
  destruct r as [|a r]; [by rewrite app_nil_r in E|].
  rewrite E, (assoc_L (++)), last_app in Hd. destruct (last (a :: r)) as [z|] eqn:Ez; [|by apply last_None in Ez].
  injection Hd as ->. apply last_Some in Ez as [l' Ez]. rewrite Ez in Hr.
  specialize (Hr d ltac:(apply elem_of_app; right; by left)). by apply bool_decide_eq_true_1 in Hr.
Qed.

Lemma leading_digits_id s : Forall (λ c, isdigit c = true) s → leading_digits s = s.
Proof. induction 1 as [|c s Hc Hs IH]; simpl; [done|]. by rewrite Hc, IH. Qed.

Lemma lexical_cast_dec n : uint64 n → lexical_cast_uint64 (dec n) = Ok n.
Proof.
  intros H. destruct (dec_spec n) as (Hne & Hd & Hv); [apply H|].
  unfold lexical_cast_uint64. rewrite leading_digits_id, Hv by done.
  rewrite !bool_decide_eq_false_2; [done|naive_solver| |done].
  unfold uint64, UINT64_MOD in *. lia.
Qed.

Lemma dec_ends n : (0 <= n)%Z →
  ∃ c d, head (dec n) = Some c ∧ last (dec n) = Some d ∧ isdigit c = true ∧ isdigit d = true.
Proof.
  intros H. destruct (dec_spec n H) as (Hne & Hd & _). destruct (dec n) as [|c l]; [done|].
  destruct (last (c :: l)) as [d|] eqn:E; [|by apply last_None in E].
  exists c, d. split_and!; [done|done|by apply Forall_cons in Hd as [? _]|].
  apply last_Some in E as [l' E]. rewrite E in Hd. by apply Forall_app in Hd as [_ [? _]%Forall_cons].
Qed.

Lemma digit_not_blank c : isdigit c = true → c ∉ k_blanks.
Proof. intros Hd H. unfold k_blanks in H. set_unfold in H. destruct_or! H; by subst. Qed.

Lemma dec_not_in n c : (0 <= n)%Z → isdigit c = false → c ∉ dec n.
Proof.
  intros H Hc Hin. destruct (dec_spec n H) as (_ & Hd & _). rewrite Forall_forall in Hd.
  apply Hd in Hin. congruence.
Qed.

Lemma piece_ends b e : uint64 b → uint64 e →
  ∃ c d, head (piece b e) = Some c ∧ last (piece b e) = Some d ∧ isdigit c = true ∧ isdigit d = true.
Proof.
  intros [Hb _] [He _]. destruct (dec_ends b Hb) as (c & d & ? & ? & ? & ?).
  destruct (dec_ends e He) as (c' & d' & ? & Hl & ? & ?). unfold piece.
  destruct (b =? e)%Z; [by exists c, d|]. exists c, d'.
  split_and!; [by destruct (dec b)| |done|done]. by rewrite (assoc_L (++)), last_app, Hl.
Qed.

Lemma piece_not_in b e c : uint64 b → uint64 e → isdigit c = false → c ≠ "-"%char → c ∉ piece b e.
Proof.
  intros [Hb _] [He _] Hc Hd. pose proof (dec_not_in b c Hb Hc). pose proof (dec_not_in e c He Hc).
  unfold piece. destruct (b =? e)%Z; [done|]. rewrite !elem_of_app.
  intros [?|[Hm|?]]; [done| |done]. by apply list_elem_of_singleton in Hm.
Qed.

Lemma read_range_piece b e : uint64 b → uint64 e → read_range (piece b e) = Some (b, e).
Proof.
  intros Hb He. destruct (piece_ends b e Hb He) as (c & d & Hc & Hd & Dc & Dd).
  unfold read_range. rewrite (strip_id _ c d) by (done || by apply digit_not_blank).
  unfold piece. destruct (Z.eqb_spec b e) as [<-|Hne].
  - rewrite find_char_None by (apply dec_not_in; [apply Hb|done]). by rewrite lexical_cast_dec.
  - change ($"-" ++ dec e) with ("-"%char :: dec e). rewrite find_char_app by (apply dec_not_in; [apply Hb|done]).
    unfold substr. rewrite drop_0, take_app_length, lexical_cast_dec by done.
    rewrite (drop_app_add' _ _ _ 1) by lia. simpl. rewrite drop_0. by rewrite lexical_cast_dec.
Qed.

Lemma piece_not_tag b e : uint64 b → uint64 e → is_gtid_tag (piece b e) = false.
Proof.
  intros Hb He. destruct (piece_ends b e Hb He) as (c & d & Hc & _ & Dc & _).
  unfold is_gtid_tag. destruct (piece b e) as [|c' l]; [done|]. injection Hc as ->.
  repeat case_match; try done. unfold char_at. simpl. by rewrite Dc.
Qed.

Lemma tolower_idem c : tolower (tolower c) = tolower c.
Proof. by_bytes c. Qed.

Lemma str_lower_idem s : str_lower (str_lower s) = str_lower s.
Proof. unfold str_lower. rewrite <- list_fmap_compose. apply list_fmap_ext. intros. apply tolower_idem. Qed.

Definition tag_char (c : ascii) : bool := islower c || isupper c || isdigit c || bool_decide (c = "_"%char).

Lemma tag_char_lower c : tag_char c = true → tag_char (tolower c) = true.
Proof.
  intros H. assert (implb (tag_char c) (tag_char (tolower c)) = true) as Hi by by_bytes c.
  by rewrite H in Hi.
Qed.

Lemma isdigit_lower c : isdigit (tolower c) = isdigit c.
Proof. by_bytes c. Qed.

Lemma is_gtid_tag_spec t :
  is_gtid_tag t = true ↔
  ∃ c t', t = c :: t' ∧ length t ≤ 32 ∧ Forall (λ c, tag_char c = true) t ∧ isdigit c = false.
Proof.
  unfold is_gtid_tag. fold tag_char. destruct t as [|c t]; [split; [done|by intros (?&?&?&_)]|].
  rewrite bool_decide_eq_false_2 by done. case_bool_decide as Hl.
  { split; [done|]. intros (?&?&_&?&_). lia. }
  change (forallb _ (c :: t)) with (forallb tag_char (c :: t)).
  destruct (forallb tag_char (c :: t)) eqn:E.
  - cbn [negb]. unfold char_at. cbn [nth lookup list_lookup]. simpl.
    rewrite negb_true_iff. split.
    + intros H. exists c, t. split_and!; [done|simpl in Hl; lia| |done].
      rewrite Forall_forall. intros x Hx. rewrite forallb_forall in E. apply E. by apply list_elem_of_In.
    + by intros (c' & t' & [= <- <-] & _ & _ & ?).
  - cbn [negb]. split; [done|]. intros (c' & t' & _ & _ & Hall & _). rewrite <- E.
    apply forallb_forall. intros x Hx. rewrite Forall_forall in Hall. apply Hall. by apply list_elem_of_In.
Qed.

Lemma is_gtid_tag_lower t : is_gtid_tag t = true → is_gtid_tag (str_lower t) = true.
Proof.
  rewrite !is_gtid_tag_spec. intros (c & t' & -> & Hl & Hall & Hd).
  exists (tolower c), (str_lower t'). split_and!; [done|unfold str_lower; by rewrite length_fmap| |by rewrite isdigit_lower].
  unfold str_lower. rewrite Forall_fmap. eapply Forall_impl; [exact Hall|]. intros. by apply tag_char_lower.
Qed.

Lemma tag_not_in t c : is_gtid_tag t = true → tag_char c = false → c ∉ t.
Proof.
  intros (a & t' & _ & _ & Hall & _)%is_gtid_tag_spec Hc Hin. rewrite Forall_forall in Hall.
  apply Hall in Hin. congruence.
Qed.

Lemma range_str_shape u t b e :
  clean (u, t, b, e) →
  range_str (mk (u, t, b, e)) =
  u ++ ":"%char :: (if bool_decide (t = []) then piece b e else str_lower t ++ ":"%char :: piece b e).
Proof.
  intros ((_ & _ & Hn & _) & Ht & _). cbn [e_uuid e_tag fst snd mk] in *.
  unfold make_Gtid_range, range_str, gtid_text, piece. cbn [uuid_tag begin end_].
  assert (nul ∉ (if bool_decide (t = []) then u else u ++ $":" ++ str_lower t)) as Hc.
  { case_bool_decide; [done|]. destruct Ht as [|Ht]; [done|].
    rewrite !elem_of_app. intros [?|[Hm|Hm]]; [done| |].
    - by apply list_elem_of_singleton in Hm.
    - by apply (tag_not_in _ nul (is_gtid_tag_lower t Ht)). }
  rewrite (c_str_id _ Hc). destruct (b =? e)%Z, (bool_decide (t = []));
    rewrite <- ?(assoc_L (++)); done.
Qed.

(** A printed entry is read back as that entry, with its tag in lower case. *)
Lemma item_entries_str u t b e :
  clean (u, t, b, e) → item_entries (range_str (mk (u, t, b, e))) = [lower_tag (u, t, b, e)].
Proof.
  intros Hcl. rewrite range_str_shape by done.
  destruct Hcl as ((Hcol & _ & _ & Hh) & Ht & Hb & He). simpl in *.
  destruct (piece_ends b e Hb He) as (c & d & Hc & Hd & Dc & Dd).
  set (rest := if bool_decide (t = []) then piece b e else str_lower t ++ ":"%char :: piece b e).
  assert (last rest = Some d) as Hlast.
  { unfold rest. case_bool_decide; [done|]. rewrite last_app. change (":"%char :: ?l) with ([":"%char] ++ l).
    by rewrite last_app, Hd. }
  assert (∃ h, head (u ++ ":"%char :: rest) = Some h ∧ h ∉ k_blanks) as (h & Hhd & Hhb).
  { destruct u as [|h u]; [exists ":"%char; split; [done|by apply (bool_decide_eq_false_1 (":"%char ∈ k_blanks))]|]. exists h. split; [done|by eapply Hh]. }
  unfold item_entries. rewrite (strip_id _ h d);
    [|done| |done|by apply digit_not_blank].
  2:{ change (":"%char :: ?l) with ([":"%char] ++ l). by rewrite !last_app, Hlast. }
  rewrite find_char_app by done. unfold substr. rewrite drop_0, take_app_length.
  rewrite (drop_app_add' _ _ _ 1) by lia. cbn [drop]. rewrite ?drop_0. unfold rest.
  assert (":"%char ∉ piece b e) as Hcp by (by apply piece_not_in).
  assert (piece b e ≠ []) as Hpn by (by destruct (piece b e)).
  case_bool_decide as Htn.
  - subst t. rewrite split_on_none by done. cbn [tag_entries].
    rewrite bool_decide_eq_false_2, piece_not_tag, read_range_piece by done. done.
  - destruct Ht as [?|Ht]; [done|]. apply is_gtid_tag_lower in Ht as Htl.
    rewrite split_on_app, !split_on_none by (done || by apply tag_not_in). cbn [app tag_entries].
    rewrite (bool_decide_eq_false_2 (str_lower t = [])) by (by destruct t). change (is_gtid_tag (str_lower t) = true) in Htl. rewrite Htl.
    rewrite bool_decide_eq_false_2, piece_not_tag, read_range_piece by done. done.
Qed.

Lemma range_str_no_comma u t b e : clean (u, t, b, e) → ","%char ∉ range_str (mk (u, t, b, e)).
Proof.
  intros Hcl. rewrite range_str_shape by done. destruct Hcl as ((_ & Hc & _) & Ht & Hb & He). simpl in *.
  pose proof (piece_not_in b e ","%char Hb He eq_refl ltac:(done)) as Hp.
  rewrite elem_of_app, elem_of_cons. intros [?|[?|Hx]]; [done|done|]. case_bool_decide; [done|].
  destruct Ht as [|Ht]; [done|]. apply elem_of_app in Hx as [Hx|[?|?]%elem_of_cons]; [|done|done].
  by apply (tag_not_in _ ","%char (is_gtid_tag_lower t Ht)).
Qed.

Lemma entries_str x : clean x → entries (range_str (mk x)) = [lower_tag x].
Proof.
  destruct x as [[[u t] b] e]. intros Hcl. unfold entries.
  rewrite split_on_none by by apply range_str_no_comma. etrans; [apply app_nil_r|]. by apply item_entries_str.
Qed.

Lemma entries_add_range g x :
  clean x → entries (m_gtid_set (add_range g (mk x))) = entries (m_gtid_set g) ++ [lower_tag x].
Proof.
  intros Hcl. unfold add_range. case_bool_decide as E; cbn [m_gtid_set].
  - rewrite E, entries_str by done. done.
  - by rewrite entries_app, entries_str.
Qed.

Lemma mk_lower x : mk (lower_tag x) = mk x.
Proof.
  destruct x as [[[u t] b] e]. simpl. unfold make_Gtid_range. rewrite str_lower_idem.
  destruct t; [done|]. by rewrite !bool_decide_eq_false_2.
Qed.

(** ** Selection of entries *)

(** The ranges of a text, in the order [enumerate_ranges] visits them. *)
Definition ranges (s : str) : list Gtid_range := mk <$> entries s.

Lemma foldl_ext' {A B} (f g : A → B → A) l a : (∀ a b, f a b = g a b) → foldl f a l = foldl g a l.
Proof. intros H. revert a. induction l as [|b l IH]; intros a; simpl; [done|]. by rewrite H, IH. Qed.

Lemma select_entries (skip : entry → bool) l g :
  Forall clean l →
  entries (m_gtid_set (foldl (λ m x, if skip x then m else add_range m (mk x)) g l)) =
  entries (m_gtid_set g) ++ (lower_tag <$> filter (λ x, skip x = false) l).
Proof.
  intros Hl. revert g. induction Hl as [|x l Hx Hl IH]; intros g; [by rewrite app_nil_r|].
  cbn [foldl]. rewrite IH. destruct (skip x) eqn:E.
  - by rewrite filter_cons_False by congruence.
  - rewrite filter_cons_True, entries_add_range, <- (assoc_L (++)) by done. done.
Qed.

Lemma select_ranges (P : entry → Prop) `{∀ x, Decision (P x)} (f : Gtid_set → entry → Gtid_set) s :
  nul ∉ s →
  (∀ m x, clean x → f m x = if decide (P x) then add_range m (mk x) else m) →
  ranges (m_gtid_set (foldl f Gtid_set_default (entries s))) = mk <$> filter P (entries s).
Proof.
  intros Hn Hf. assert (Forall clean (entries s)) as Hc.
  { rewrite Forall_forall. intros x. by apply entries_clean. }
  assert (∀ g, foldl f g (entries s) =
    foldl (λ m x, if bool_decide (¬ P x) then m else add_range m (mk x)) g (entries s)) as ->.
  { induction Hc as [|x l Hx Hl IH]; intros g; simpl; [done|].
    rewrite IH, Hf by done. destruct (decide (P x)).
    - by rewrite (bool_decide_eq_false_2 (¬ P x)) by tauto.
    - by rewrite (bool_decide_eq_true_2 (¬ P x)). }
  unfold ranges. rewrite select_entries by done. cbn [m_gtid_set Gtid_set_default].
  change (entries []) with (@nil entry). rewrite app_nil_l, <- list_fmap_compose.
  rewrite (list_fmap_ext (mk ∘ lower_tag) mk) by (intros; apply mk_lower). f_equal.
  apply list_filter_iff. intros x. rewrite bool_decide_eq_false. split; [apply dec_stable|tauto].
Qed.

Lemma strncasecmp_lower a b : nul ∉ a → length a = length b →
  strncasecmp_eq a b (length a) = bool_decide (str_lower a = str_lower b).
Proof.
  revert b. induction a as [|c a IH]; intros [|d b] Hn Hl; simplify_eq/=; [done|].
  rewrite not_elem_of_cons in Hn. destruct Hn as [Hc Hn]. rewrite IH by done.
  case_bool_decide as Hcd; [rewrite (bool_decide_eq_false_2 (c = _)) by done|].
  - apply bool_decide_ext. rewrite Hcd. split; [by intros ->|by intros [= ->]].
  - symmetry. apply bool_decide_eq_false_2. by intros [= ?].
Qed.

Lemma str_caseeq_lower a b : nul ∉ a → str_caseeq a [b] = bool_decide (str_lower a = str_lower b).
Proof.
  intros Hn. unfold str_caseeq. simpl. rewrite orb_false_r. unfold str_caseeq_pair.
  case_bool_decide as Hl; [|by apply strncasecmp_lower].
  symmetry. apply bool_decide_eq_false_2. intros H%(f_equal length).
  unfold str_lower in H. rewrite !length_fmap in H. done.
Qed.

Lemma clean_tag_no_nul t : clean_tag t → nul ∉ t.
Proof. intros [->|Ht]; [apply not_elem_of_nil|by apply tag_not_in]. Qed.

Lemma get_gtids_from_ranges g uuid :
  nul ∉ m_gtid_set g → uuid ≠ [] →
  ranges (m_gtid_set (get_gtids_from g uuid)) =
  mk <$> filter (λ x, e_uuid x = uuid) (entries (m_gtid_set g)).
Proof.
  intros Hn Hu. unfold get_gtids_from. rewrite (bool_decide_eq_false_2 (_ = [])) by done.
  rewrite iter_ranges_foldl. apply select_ranges; [done|].
  intros m [[[u t] b] e] _. cbn [e_uuid fst]. destruct (decide (u = uuid)).
  - by rewrite bool_decide_eq_false_2 by tauto.
  - by rewrite bool_decide_eq_true_2.
Qed.

(** The UUID of a source. *)
Definition uuid_of (uuid_tag : str) : str :=
  match find_char uuid_tag ":"%char 0 with Some p => take p uuid_tag | None => uuid_tag end.

Lemma uuid_of_mk x : clean x → uuid_of (uuid_tag (mk x)) = e_uuid x.
Proof.
  destruct x as [[[u t] b] e]. intros ((Hc & _) & _). cbn [e_uuid fst mk] in *. unfold uuid_of, make_Gtid_range.
  cbn [uuid_tag]. case_bool_decide.
  - by rewrite find_char_None.
  - change ($":" ++ ?l) with (":"%char :: l). by rewrite find_char_app, take_app_length.
Qed.

(** ** Enumeration *)

Definition gtids_of (r : Gtid_range) : list str :=
  gtid_text (uuid_tag r) <$> seqZ (begin r) (end_ r - begin r + 1).

Lemma enumerate_loop_all {S} fuel (fn : S → str → S) uuid i e s :
  (0 <= i)%Z → (e < 2 ^ 64 - 1)%Z → 0 < fuel → (e - i + 1 < Z.of_nat fuel)%Z →
  enumerate_loop fuel fn uuid i e s = Some (foldl fn s (gtid_text uuid <$> seqZ i (e - i + 1))).
Proof.
  revert i s. induction fuel as [|fuel IH]; intros i s Hi He H0 Hf; [lia|].
  - cbn [enumerate_loop]. destruct (Z.leb_spec i e).
    + rewrite u64_small, IH by lia. rewrite (seqZ_cons i) by lia.
      replace (Z.succ i) with (i + 1)%Z by lia. csimpl.
      by replace (Z.pred (e - i + 1)) with (e - (i + 1) + 1)%Z by lia.
    + by rewrite seqZ_nil by lia.
Qed.

Lemma enumerate_loop_diverges {S} fuel (fn : S → str → S) uuid i s :
  uint64 i → enumerate_loop fuel fn uuid i (2 ^ 64 - 1) s = None.
Proof.
  revert i s. induction fuel as [|fuel IH]; intros i s Hi; [done|]. cbn [enumerate_loop].
  rewrite (proj2 (Z.leb_le _ _)) by (unfold uint64 in Hi; lia). apply IH, u64_range.
Qed.

Lemma enumerate_foldl {S} fuel g (fn : S → str → S) s :
  m_normalized g = true →
  enumerate fuel g fn s =
  Ok (foldl (λ os r, s ← os; enumerate_loop fuel fn (uuid_tag r) (begin r) (end_ r) s) (Some s)
        (ranges (m_gtid_set g))).
Proof.
  intros Hn. unfold enumerate, enumerate_ranges. rewrite Hn. cbn [negb]. f_equal.
  rewrite iter_ranges_foldl. unfold ranges. rewrite foldl_fmap.
  apply foldl_ext'. intros a [[[u t] b] e]. done.
Qed.

Lemma ranges_uint64 s r : r ∈ ranges s → uint64 (begin r) ∧ uint64 (end_ r).
Proof.
  intros (x & -> & (t & Hx & Ht)%list_elem_of_bind)%list_elem_of_fmap. unfold item_entries in Hx.
  destruct (find_char _ _ _) as [p|]; [|by apply elem_of_nil in Hx].
  generalize dependent (split_on ":" (drop (p + 1) (str_strip_view t k_blanks))).
  generalize (substr (str_strip_view t k_blanks) 0 p) as u. generalize (@nil ascii) as tag.
  intros tag u l. revert tag. induction l as [|r rs IH]; intros tag; cbn [tag_entries];
    [by intros ?%elem_of_nil|].
  case_bool_decide; [apply IH|]. destruct (is_gtid_tag r); [apply IH|].
  destruct (read_range r) as [[b e]|] eqn:E; [|apply IH].
  intros [->|?]%elem_of_cons; [|by eapply IH]. by apply read_range_range in E.
Qed.

(** The last callback wins in [from_gtid]. *)
Lemma from_gtid_entries s : from_gtid s = default Gtid_range_default (mk <$> last (entries s)).
Proof.
  unfold from_gtid. rewrite iter_ranges_foldl.
  induction (entries s) as [|[[[u t] b] e] l _] using rev_ind; [done|].
  by rewrite foldl_app, last_snoc.
Qed.

Lemma ranges_add_set g h :
  ranges (m_gtid_set (add_set g h)) = ranges (m_gtid_set g) ++ ranges (m_gtid_set h).
Proof.
  unfold add_set, ranges. case_bool_decide as E; cbn [m_gtid_set]; [by rewrite E|].
  case_bool_decide as E2; cbn [negb]; [by rewrite E2, app_nil_r|].
  cbn [m_gtid_set]. by rewrite entries_app, fmap_app.
Qed.

(** ** Theorems *)

(** A range built from a UUID without separators, a valid or absent tag and two
    64-bit numbers is printed to a text that [from_gtid] reads back as that range,
    and adding it to a set, like adding another set, appends to the ranges the set
    enumerates and changes nothing else. *)
Theorem gtid_range_roundtrip (u t : str) (b e : Z) (g h : Gtid_set) :
  clean (u, t, b, e) →
  let r := make_Gtid_range u t b e in
  from_gtid (range_str r) = r ∧
  ranges (m_gtid_set (add_range g r)) = ranges (m_gtid_set g) ++ [r] ∧
  ranges (m_gtid_set (add_set g h)) = ranges (m_gtid_set g) ++ ranges (m_gtid_set h).
Proof.
  intros Hc. cbn zeta. change (make_Gtid_range u t b e) with (mk (u, t, b, e)). split_and!.
  - rewrite from_gtid_entries, entries_str by done. apply mk_lower.
  - unfold ranges. rewrite entries_add_range, fmap_app by done. f_equal.
    exact (f_equal (λ x, [x]) (mk_lower (u, t, b, e))).
  - apply ranges_add_set.
Qed.

Lemma gtid_range_roundtrip_witness :
  clean ($"7D1C", $"Foo", 3, 9)%Z ∧
  from_gtid ($"7D1C:foo:3-9") = make_Gtid_range ($"7D1C") ($"Foo") 3 9.
Proof.
  assert (clean ($"7D1C", $"Foo", 3, 9)%Z) as H.
  { split; [|split; [right; reflexivity|split; unfold uint64; simpl; lia]].
    repeat split; try (apply (bool_decide_eq_false_1 (_ ∈ lit "7D1C")); vm_compute; reflexivity).
    intros c u' [= <- _]. apply (bool_decide_eq_false_1 ("7"%char ∈ k_blanks)). vm_compute. reflexivity. }
  split; [exact H|].
  apply (gtid_range_roundtrip ($"7D1C") ($"Foo") 3 9 Gtid_set_default Gtid_set_default H).
Defined.

(** For every text without NUL, however it is written, the selections by UUID,
    by tag, and by both return a set whose ranges are exactly those of the selected
    entries, in order; [has_tags] holds when some entry has a tag. *)
Theorem gtid_selection_correct (g : Gtid_set) (uuid tag : str) :
  nul ∉ m_gtid_set g → uuid ≠ [] → tag ≠ [] →
  let es := entries (m_gtid_set g) in
  ranges (m_gtid_set (get_gtids_from g uuid)) = mk <$> filter (λ x, e_uuid x = uuid) es ∧
  ranges (m_gtid_set (get_gtids_tagged g)) = mk <$> filter (λ x, e_tag x ≠ []) es ∧
  ranges (m_gtid_set (get_gtids_from_tag g uuid tag)) =
    mk <$> filter (λ x, e_uuid x = uuid ∧ str_lower (e_tag x) = str_lower tag) es ∧
  (has_tags g = true ↔ ∃ x, x ∈ es ∧ e_tag x ≠ []).
Proof.
  intros Hn Hu Ht es. unfold get_gtids_tagged, get_gtids_from_tag, has_tags.
  rewrite !(bool_decide_eq_false_2 (_ = [])) by done. cbn [orb]. rewrite !iter_ranges_foldl.
  split_and!; [by apply get_gtids_from_ranges|apply select_ranges; [done|]..|].
  - intros m [[[u t] b] e] _. cbn [e_tag fst snd].
    by destruct t; [rewrite bool_decide_eq_true_2|rewrite bool_decide_eq_false_2].
  - intros m [[[u t] b] e] (_ & Hc & _). cbn [e_uuid e_tag fst snd] in *.
    rewrite str_caseeq_lower by by apply clean_tag_no_nul.
    destruct (decide (u = uuid)) as [E1|E1].
    2:{ rewrite (bool_decide_eq_true_2 (u ≠ uuid)) by done. by rewrite decide_False by tauto. }
    rewrite (bool_decide_eq_false_2 (u ≠ uuid)) by tauto.
    destruct (decide (str_lower t = str_lower tag)).
    + by rewrite bool_decide_eq_true_2, decide_True by done.
    + by rewrite bool_decide_eq_false_2, decide_False by tauto.
  - fold es. clear. assert (∀ h, foldl (λ (s : bool) '(_, t, _, _), s || negb (bool_decide (t = []))) h es = true ↔
      h = true ∨ ∃ x, x ∈ es ∧ e_tag x ≠ []) as H.
    { induction es as [|[[[u t] b] e] l IH]; intros h; cbn [foldl].
      - split; [by left|]. intros [?|(x & Hx & _)]; [done|by apply elem_of_nil in Hx].
      - rewrite IH, orb_true_iff, negb_true_iff, bool_decide_eq_false. split.
        + intros [[?|?]|(x & Hx & ?)]; [by left|right..].
          * exists (u, t, b, e). split; [by left|done].
          * exists x. split; [by right|done].
        + intros [?|(x & [->|Hx]%elem_of_cons & ?)]; [by auto|by auto|right; eauto]. }
    rewrite (H false). split; [by intros [?|?]|by right].
Qed.

Lemma gtid_selection_correct_witness :
  let g := from_string ($"a:1-5:Tag:7,
b:2") in
  ranges (m_gtid_set (get_gtids_from g ($"a"))) =
    [make_Gtid_range ($"a") [] 1 5; make_Gtid_range ($"a") ($"tag") 7 7] ∧
  m_gtid_set (get_gtids_from g ($"a")) = $"a:1-5,a:tag:7".
Proof.
  set (g := from_string _). split; [|vm_compute; reflexivity].
  destruct (gtid_selection_correct g ($"a") ($"x")) as [H _].
  - apply (bool_decide_eq_false_1 (nul ∈ m_gtid_set g)). vm_compute. reflexivity.
  - discriminate.
  - discriminate.
  - rewrite H. vm_compute. reflexivity.
Defined.

(** [enumerate] of a normalized set visits the GTIDs of its ranges one by one, in
    order, and returns, if no range reaches the largest [uint64_t]; if a non-empty one
    does, the loop counter wraps and the call never returns.  Un-normalized sets are
    refused. *)
Theorem gtid_enumerate_correct {S} (g : Gtid_set) (fn : S → str → S) (s : S) (fuel : nat) :
  if m_normalized g then
    (Forall (λ r, end_ r < 2 ^ 64 - 1 ∧ end_ r - begin r + 1 < Z.of_nat fuel)%Z
       (ranges (m_gtid_set g)) → 0 < fuel →
     enumerate fuel g fn s = Ok (Some (foldl fn s (ranges (m_gtid_set g) ≫= gtids_of)))) ∧
    ((∃ r, r ∈ ranges (m_gtid_set g) ∧ end_ r = 2 ^ 64 - 1)%Z → enumerate fuel g fn s = Ok None)
  else enumerate fuel g fn s = Throw (invalid_argument "Can't enumerate un-normalized Gtid_set").
Proof.
  destruct (m_normalized g) eqn:Hn.
  2:{ unfold enumerate, enumerate_ranges. by rewrite Hn. }
  rewrite enumerate_foldl by done. pose proof (ranges_uint64 (m_gtid_set g)) as Hu.
  generalize dependent (ranges (m_gtid_set g)). intros rs Hu. split.
  - intros Hall H0. f_equal. revert s. induction Hall as [|r rs [He Hf] Hall IH]; intros s; [done|].
    csimpl. rewrite foldl_app. cbn [foldl]. rewrite enumerate_loop_all; [|apply (Hu r); by left|done..].
    apply IH. intros r' Hr'. apply Hu. by right.
  - intros (r & Hr & He). f_equal.
    assert (∀ rs, foldl (λ (os : option S) r, s ← os;
      enumerate_loop fuel fn (uuid_tag r) (begin r) (end_ r) s) None rs = None) as Hnone.
    { intros l. induction l; [done|]. done. }
    revert s. induction rs as [|r' rs IH]; intros s; [by apply elem_of_nil in Hr|]. cbn [foldl mbind option_bind].
    apply elem_of_cons in Hr as [<-|Hr].
    + rewrite He, enumerate_loop_diverges by (apply (Hu r); by left). apply Hnone.
    + destruct (enumerate_loop _ _ _ _ _ s) as [s'|]; [|apply Hnone].
      apply IH; [|done]. intros r'' ?. apply Hu. by right.
Qed.

Lemma gtid_enumerate_correct_witness :
  enumerate 5 (from_normalized_string ($"a:1-3")) (λ l x, l ++ [x]) [] =
    Ok (Some [$"a:1"; $"a:2"; $"a:3"]) ∧
  (∀ fuel, enumerate fuel (from_normalized_string ($"a:18446744073709551615")) (λ l x, l ++ [x]) []
           = Ok None).
Proof.
  split.
  - destruct (gtid_enumerate_correct (from_normalized_string ($"a:1-3")) (λ l x, l ++ [x]) [] 5)
      as [H _].
    apply H; [|lia].
    assert (ranges (m_gtid_set (from_normalized_string ($"a:1-3"))) = [make_Gtid_range ($"a") [] 1 3])
      as -> by (vm_compute; reflexivity).
    repeat constructor; simpl; lia.
  - intros fuel.
    apply (gtid_enumerate_correct (from_normalized_string ($"a:18446744073709551615"))
      (λ l x, l ++ [x]) [] fuel).
    exists (make_Gtid_range ($"a") [] 18446744073709551615 18446744073709551615).
    split; [|reflexivity].
    assert (ranges (m_gtid_set (from_normalized_string ($"a:18446744073709551615"))) =
      [make_Gtid_range ($"a") [] 18446744073709551615 18446744073709551615])
      as -> by (vm_compute; reflexivity).
    by left.
Defined.
