(* ===== verification/GtidServer.v ===== *)
(** * What GTID sets rely on from the server, and set algebra

    [GtidServer] states the documented behaviour of the function GTID_SUBTRACT of the
    MySQL server, at the level of the SQL text it is sent in: on texts of GTID sets
    the function returns the text of the difference, the empty text standing for the
    empty set.  The operations of [Gtid_set] are proved correct against it. *)
From S2P Require Import Prelude UtilsString UtilsStringFacts Lexing LexingFacts.
From S2P Require Import SqlString SqlStringFacts Version GtidUtils GtidUtilsFacts.

Open Scope nat_scope.

(** The transaction [x.2] of the source (UUID and tag) [x.1] belongs to a set. *)
Definition gtid_mem (s : str) (x : str * Z) : Prop :=
  ∃ r, r ∈ ranges s ∧ uuid_tag r = x.1 ∧ (begin r <= x.2 <= end_ r)%Z.

(** Ranges printed one after the other. *)
Fixpoint ranges_text (rs : list Gtid_range) : str :=
  match rs with
  | [] => []
  | [r] => range_str r
  | r :: rs => range_str r ++ $"," ++ ranges_text rs
  end.

#[global] Instance gtid_mem_dec s x : Decision (gtid_mem s x).
Proof.
  refine (cast_if (decide (Exists (λ r, uuid_tag r = x.1 ∧ (begin r <= x.2 <= end_ r)%Z) (ranges s))));
    by rewrite Exists_exists in *.
Defined.

Definition subtract_sql (a b : str) : str :=
  $"SELECT gtid_subtract(" ++ quote_sql_string a ++ $", " ++ quote_sql_string b ++ $")".
Definition subtract_subtract_sql (a b c : str) : str :=
  $"SELECT gtid_subtract(" ++ quote_sql_string a ++ $", gtid_subtract(" ++ quote_sql_string b ++
  $", " ++ quote_sql_string c ++ $"))".
Definition subset_sql (f : str) (a b : str) : str :=
  $"SELECT " ++ f ++ $"(" ++ quote_sql_string a ++ $", " ++ quote_sql_string b ++ $") = ''".

Class GtidServer `{IInstance} := {
  (** texts in the form in which the server prints GTID sets *)
  gtid_set_text : str → Prop;
  gtid_subtract : str → str → str;
  text_nil : gtid_set_text [];
  text_no_nul a : gtid_set_text a → nul ∉ a;
  text_nodup a : gtid_set_text a → NoDup (ranges a);
  (** a set that is not empty has a member *)
  text_member a : gtid_set_text a → a ≠ [] → ∃ x, gtid_mem a x;
  (** ranges of a set form a set *)
  text_ranges a rs :
    gtid_set_text a → NoDup rs → (∀ r, r ∈ rs → r ∈ ranges a) → gtid_set_text (ranges_text rs);
  subtract_text a b : gtid_set_text a → gtid_set_text b → gtid_set_text (gtid_subtract a b);
  subtract_mem a b x : gtid_set_text a → gtid_set_text b →
    gtid_mem (gtid_subtract a b) x ↔ gtid_mem a x ∧ ¬ gtid_mem b x;
  query_subtract a b : gtid_set_text a → gtid_set_text b →
    query_string (subtract_sql a b) = Ok (Some (gtid_subtract a b));
  query_subtract_subtract a b c : gtid_set_text a → gtid_set_text b → gtid_set_text c →
    query_string (subtract_subtract_sql a b c) = Ok (Some (gtid_subtract a (gtid_subtract b c)));
  query_subset f a b : f = $"gtid_subtract" ∨ f = $"GTID_SUBTRACT" →
    gtid_set_text a → gtid_set_text b →
    query_int (subset_sql f a b) = Ok (Some (if bool_decide (gtid_subtract a b = []) then 1 else 0)%Z);
}.

#[export] Hint Resolve text_nil subtract_text text_no_nul : shell.

(** ** The SQL the operations send *)

Lemma format_subtract a b :
  sqlformat ($"SELECT gtid_subtract(?, ?)") [ArgString a; ArgString b] = Ok (subtract_sql a b).
Proof. unfold subtract_sql. format_sql. Qed.

Lemma format_normalize a :
  sqlformat ($"SELECT gtid_subtract(?, '')") [ArgString a] = Ok (subtract_sql a []).
Proof. unfold subtract_sql. format_sql. Qed.

Lemma format_subtract_subtract a b c :
  sqlformat ($"SELECT gtid_subtract(?, gtid_subtract(?, ?))") [ArgString a; ArgString b; ArgString c]
  = Ok (subtract_subtract_sql a b c).
Proof. unfold subtract_subtract_sql. format_sql. Qed.

Lemma format_subset a b :
  sqlformat ($"SELECT gtid_subtract(?, ?) = ''") [ArgString a; ArgString b] =
  Ok (subset_sql ($"gtid_subtract") a b).
Proof.
  unfold subset_sql. rewrite 2!(assoc_L (++)). format_sql.
Qed.

Lemma format_SUBSET a b :
  sqlformat ($"SELECT GTID_SUBTRACT(?, ?) = ''") [ArgString a; ArgString b] =
  Ok (subset_sql ($"GTID_SUBTRACT") a b).
Proof.
  unfold subset_sql. rewrite 2!(assoc_L (++)). format_sql.
Qed.

(** ** Set algebra *)

Section algebra.
Context `{GtidServer}.

Definition set_mem (g : Gtid_set) (x : str * Z) : Prop := gtid_mem (m_gtid_set g) x.
Definition set_text (g : Gtid_set) : Prop := gtid_set_text (m_gtid_set g).

Lemma gtid_mem_nil x : ¬ gtid_mem [] x.
Proof. intros (r & Hr & _). by apply elem_of_nil in Hr. Qed.

Lemma gtid_set_empty_spec g :
  set_text g → gtid_set_empty g = true ↔ ∀ x, ¬ set_mem g x.
Proof.
  unfold gtid_set_empty, set_mem, set_text. rewrite bool_decide_eq_true. intros Ht. split.
  - intros ->. apply gtid_mem_nil.
  - intros Hn. destruct (decide (m_gtid_set g = [])) as [|Hne]; [done|].
    destruct (text_member _ Ht Hne) as [x Hx]. by destruct (Hn x).
Qed.

Lemma subtract_spec g h :
  set_text g → set_text h →
  ∃ d, subtract g h = (d, Ok tt) ∧ set_text d ∧ m_normalized d = true ∧
       ∀ x, set_mem d x ↔ set_mem g x ∧ ¬ set_mem h x.
Proof.
  intros Hg Hh. unfold subtract, queryf_one_string. rewrite format_subtract. cbn [mbind result_bind].
  rewrite query_subtract by done. eexists. split; [done|]. split; [by apply subtract_text|]. split; [done|].
  intros x. by apply subtract_mem.
Qed.

Lemma intersect_spec g h :
  set_text g → set_text h →
  ∃ d, intersect g h = (d, Ok tt) ∧ set_text d ∧ ∀ x, set_mem d x ↔ set_mem g x ∧ set_mem h x.
Proof.
  intros Hg Hh. unfold intersect. destruct (bool_decide _ || bool_decide _) eqn:E.
  { eexists. split; [done|]. split; [apply text_nil|]. intros x. split; [by intros ?%gtid_mem_nil|].
    unfold set_mem. apply orb_true_iff in E as [E|E]; apply bool_decide_eq_true_1 in E; rewrite E;
      intros [? ?]; exfalso; by eapply gtid_mem_nil. }
  unfold queryf_one_string. rewrite format_subtract_subtract. cbn [mbind result_bind].
  rewrite query_subtract_subtract by done. eexists. split; [done|].
  split; [unfold set_text; simpl; auto with shell|].
  intros x. unfold set_mem. simpl. rewrite subtract_mem by auto with shell.
  rewrite subtract_mem by done. destruct (decide (gtid_mem (m_gtid_set g) x)); tauto.
Qed.

Lemma normalize_spec g :
  set_text g →
  ∃ d, normalize g = (d, Ok tt) ∧ set_text d ∧ m_normalized d = true ∧ ∀ x, set_mem d x ↔ set_mem g x.
Proof.
  intros Hg. unfold normalize. destruct (m_normalized g) eqn:En; [by eexists|].
  unfold queryf_one_string. rewrite format_normalize. cbn [mbind result_bind].
  rewrite query_subtract by auto with shell. eexists. split; [done|].
  split; [unfold set_text; simpl; auto with shell|]. split; [done|]. intros x. unfold set_mem. simpl.
  rewrite subtract_mem by auto with shell. pose proof (gtid_mem_nil x). tauto.
Qed.

Lemma contains_spec g h :
  set_text g → set_text h →
  ∃ r, contains g h = Ok r ∧ (r = true ↔ ∀ x, set_mem h x → set_mem g x).
Proof.
  intros Hg Hh. unfold contains, queryf_one_int. rewrite format_subset. cbn [mbind result_bind].
  rewrite query_subset by auto. cbn [mbind result_bind default id]. eexists. split; [done|].
  assert (gtid_subtract (m_gtid_set h) (m_gtid_set g) = [] ↔
          ∀ x, ¬ gtid_mem (gtid_subtract (m_gtid_set h) (m_gtid_set g)) x) as Hs.
  { split; [intros ->; apply gtid_mem_nil|]. intros Hn. apply dec_stable. intros Hne.
    destruct (text_member _ (subtract_text _ _ Hh Hg) Hne) as [x Hx]. by destruct (Hn x). }
  transitivity (gtid_subtract (m_gtid_set h) (m_gtid_set g) = []); [by case_bool_decide|]. rewrite Hs.
  apply forall_proper. intros x. unfold set_mem. rewrite subtract_mem by done.
  destruct (decide (gtid_mem (m_gtid_set g) x)); tauto.
Qed.
(** C39: against a server that implements GTID_SUBTRACT, the operations of [Gtid_set]
    compute difference, intersection, inclusion and the same set in normal form, and
    do not fail. *)
Theorem gtid_set_algebra (g h : Gtid_set) :
  set_text g → set_text h →
  (∃ d, subtract g h = (d, Ok tt) ∧ m_normalized d = true ∧
        ∀ x, set_mem d x ↔ set_mem g x ∧ ¬ set_mem h x) ∧
  (∃ d, intersect g h = (d, Ok tt) ∧ ∀ x, set_mem d x ↔ set_mem g x ∧ set_mem h x) ∧
  (∃ d, normalize g = (d, Ok tt) ∧ m_normalized d = true ∧ ∀ x, set_mem d x ↔ set_mem g x) ∧
  (∃ r, contains g h = Ok r ∧ (r = true ↔ ∀ x, set_mem h x → set_mem g x)).
Proof.
  intros Hg Hh. split_and!.
  - destruct (subtract_spec g h Hg Hh) as (d & ? & _ & ? & ?). exists d. split_and!; assumption.
  - destruct (intersect_spec g h Hg Hh) as (d & ? & _ & ?). exists d. split_and!; assumption.
  - destruct (normalize_spec g Hg) as (d & ? & _ & ? & ?). exists d. split_and!; assumption.
  - by apply contains_spec.
Qed.
End algebra.

(** When the query of [normalize] throws, the set keeps its text but is marked as
    normalized already, so that [count] no longer refuses it. *)
Lemma normalize_failure `{IInstance} g e :
  m_normalized g = false → query_string (subtract_sql (m_gtid_set g) []) = Throw e →
  normalize g = (from_normalized_string (m_gtid_set g), Throw e) ∧
  is_ok (count (normalize g).1) = true.
Proof.
  intros Hn Hq. unfold normalize, queryf_one_string. rewrite Hn, format_normalize.
  cbn [mbind result_bind]. by rewrite Hq.
Qed.

(** ** A concrete server

    A server that knows the sets made of the transactions [a:1] and [b:2] shows that
    the interface can be implemented. *)
Module Sample.

Definition rA : Gtid_range := make_Gtid_range ($"a") [] 1 1.
Definition rB : Gtid_range := make_Gtid_range ($"b") [] 2 2.
Definition texts : list str := ranges_text <$> [[]; [rA]; [rB]; [rA; rB]; [rB; rA]].
Definition difference (a b : str) : str :=
  ranges_text (filter (λ r, r ∉ ranges b) (ranges a)).

Definition known (f : str → str → str) (sql : str) : option (str * str) :=
  List.find (λ '(a, b), bool_decide (sql = f a b)) (list_prod texts texts).
Definition known3 (sql : str) : option (str * (str * str)) :=
  List.find (λ '(a, (b, c)), bool_decide (sql = subtract_subtract_sql a b c))
    (list_prod texts (list_prod texts texts)).

#[export] Instance server : IInstance := {|
  get_version := {| _major := 8; _minor := Some 4%Z; _patch := Some 0%Z; _extra := None |};
  query_string sql :=
    match known subtract_sql sql, known3 sql with
    | Some (a, b), _ => Ok (Some (difference a b))
    | None, Some (a, (b, c)) => Ok (Some (difference a (difference b c)))
    | None, None => Throw (runtime_error "unknown query")
    end;
  query_int sql :=
    match known (subset_sql ($"gtid_subtract")) sql, known (subset_sql ($"GTID_SUBTRACT")) sql with
    | Some (a, b), _ | None, Some (a, b) => Ok (Some (if bool_decide (difference a b = []) then 1 else 0)%Z)
    | None, None => Throw (runtime_error "unknown query")
    end;
|}.

(** Statements about the five texts are checked one by one. *)
Lemma texts_check (P : str → bool) : forallb P texts = true → ∀ a, a ∈ texts → P a = true.
Proof. rewrite forallb_forall. intros H a Ha. apply H. by apply list_elem_of_In. Qed.

Lemma texts_check2 (P : str → str → bool) :
  forallb (λ a, forallb (P a) texts) texts = true → ∀ a b, a ∈ texts → b ∈ texts → P a b = true.
Proof. intros H a b Ha. apply texts_check. revert a Ha. by apply texts_check. Qed.

Ltac check_texts :=
  match goal with
  | Ha : ?a ∈ texts, Hb : ?b ∈ texts |- ?G =>
      clear -Ha Hb; apply (bool_decide_eq_true_1 G); revert a b Ha Hb; apply texts_check2; vm_compute; reflexivity
  | Ha : ?a ∈ texts |- ?G =>
      clear -Ha; apply (bool_decide_eq_true_1 G); revert a Ha; apply texts_check; vm_compute; reflexivity
  end.

Lemma texts_ranges a r : a ∈ texts → r ∈ ranges a → r = rA ∨ r = rB.
Proof.
  intros Ha Hr. assert (Forall (λ r, r = rA ∨ r = rB) (ranges a)) as H by check_texts.
  rewrite Forall_forall in H. by apply H.
Qed.

Lemma same_range r r' x :
  r = rA ∨ r = rB → r' = rA ∨ r' = rB → uuid_tag r = x → uuid_tag r' = x → r = r'.
Proof. intros [->| ->] [->| ->] <- E; done. Qed.

Lemma difference_mem a b x : a ∈ texts → b ∈ texts →
  gtid_mem (difference a b) x ↔ gtid_mem a x ∧ ¬ gtid_mem b x.
Proof.
  intros Ha Hb. assert (ranges (difference a b) = filter (λ r, r ∉ ranges b) (ranges a)) as E
    by check_texts.
  unfold gtid_mem. rewrite E. setoid_rewrite list_elem_of_filter. split.
  - intros (r & [Hn Hr] & Hu & Hx). split; [by exists r|]. intros (r' & Hr' & Hu' & _).
    apply Hn. rewrite (same_range r r' x.1); eauto using texts_ranges.
  - intros [(r & Hr & Hu & Hx) Hn]. exists r. split; [|done]. split; [|done]. intros Hb'.
    apply Hn. by exists r.
Qed.

Lemma texts_of_ranges rs :
  NoDup rs → (∀ r, r ∈ rs → r = rA ∨ r = rB) → ranges_text rs ∈ texts.
Proof.
  intros Hnd Hin. apply (list_elem_of_fmap_2 ranges_text).
  destruct rs as [|x [|y [|z rs]]]; [by left|..].
  all: assert (x = rA ∨ x = rB) as Hx by (apply Hin; by left).
  1: destruct Hx as [->| ->]; apply (bool_decide_eq_true_1 (_ ∈ _)); vm_compute; reflexivity.
  all: assert (y = rA ∨ y = rB) as Hy by (apply Hin; right; by left).
  all: rewrite !NoDup_cons, !not_elem_of_cons in Hnd.
  - destruct Hx as [->| ->], Hy as [->| ->]; try tauto;
      apply (bool_decide_eq_true_1 (_ ∈ _)); vm_compute; reflexivity.
  - assert (z = rA ∨ z = rB) as Hz by (apply Hin; do 2 right; by left).
    exfalso. destruct Hx as [->| ->], Hy as [->| ->], Hz as [->| ->]; tauto.
Qed.

Lemma sample_query_subtract a b :
  a ∈ texts → b ∈ texts → query_string (subtract_sql a b) = Ok (Some (difference a b)).
Proof. intros Ha Hb. check_texts. Qed.

Lemma sample_query_subset f a b :
  f = $"gtid_subtract" ∨ f = $"GTID_SUBTRACT" → a ∈ texts → b ∈ texts →
  query_int (subset_sql f a b) = Ok (Some (if bool_decide (difference a b = []) then 1 else 0)%Z).
Proof. intros [->| ->] Ha Hb; check_texts. Qed.

Lemma sample_query_nested a b c :
  a ∈ texts → b ∈ texts → c ∈ texts →
  query_string (subtract_subtract_sql a b c) = Ok (Some (difference a (difference b c))).
Proof.
  intros Ha Hb Hc. apply (bool_decide_eq_true_1 (query_string _ = _)). revert c Hc. apply texts_check.
  revert a b Ha Hb. apply texts_check2. vm_compute. reflexivity.
Qed.

Lemma texts_member a : a ∈ texts → a ≠ [] → ∃ x, gtid_mem a x.
Proof.
  intros Ha Hne.
  assert (match ranges a with
          | [] => bool_decide (a = [])
          | r :: _ => bool_decide (begin r <= end_ r)%Z
          end = true) as E.
  { clear Hne. revert a Ha. apply texts_check. vm_compute. reflexivity. }
  unfold gtid_mem. destruct (ranges a) as [|r rs]; apply bool_decide_eq_true_1 in E; [done|].
  exists (uuid_tag r, begin r), r. simpl. split; [by left|]. split; [done|lia].
Qed.

#[export] Instance gtid_server : GtidServer.
Proof.
  refine {|
    gtid_set_text a := a ∈ texts; gtid_subtract := difference;
    text_nil := _; text_no_nul := _; text_nodup := _; text_member := texts_member;
    text_ranges := _; subtract_text := _; subtract_mem := difference_mem;
    query_subtract := sample_query_subtract; query_subtract_subtract := sample_query_nested;
    query_subset := sample_query_subset |}.
  - apply (bool_decide_eq_true_1 (_ ∈ _)). vm_compute. reflexivity.
  - intros a Ha. check_texts.
  - intros a Ha. check_texts.
  - intros a rs Ha Hnd Hin. apply texts_of_ranges; [done|]. intros r Hr.
    by apply (texts_ranges a), Hin.
  - intros a b Ha Hb. check_texts.
Defined.
End Sample.

Lemma gtid_set_algebra_witness :
  let g := from_string ($"a:1,b:2") in
  let h := from_string ($"b:2") in
  ∃ d, @intersect Sample.server g h = (d, Ok tt) ∧ ∀ x, set_mem d x ↔ set_mem g x ∧ set_mem h x.
Proof.
  intros g h.
  destruct (@gtid_set_algebra Sample.server Sample.gtid_server g h) as (_ & H & _); [| |exact H].
  - apply (bool_decide_eq_true_1 (_ ∈ Sample.texts)). vm_compute. reflexivity.
  - apply (bool_decide_eq_true_1 (_ ∈ Sample.texts)). vm_compute. reflexivity.
Defined.
