(* ===== verification/ReplicationGtid.v ===== *)
(** * GTID state of replicas (mysqlshdk/libs/mysql/replication.{h,cc})

    The decisions replication management takes on GTID sets: how two sets are
    related, whether a replica can join, and which transactions it lacks or has in
    excess.  Sets are combined by the server through [Gtid_set]. *)
From S2P Require Import Prelude UtilsString Lexing SqlString Version GtidUtils.

Open Scope nat_scope.

(** modules/adminapi/common/server_features.cc *)
Definition supports_gtid_tags (version : Version) : bool :=
  version_ge version {| _major := 8; _minor := Some 3%Z; _patch := Some 0%Z; _extra := None |}.

Inductive Gtid_set_relation := EQUAL | CONTAINS | CONTAINED | INTERSECTS | DISJOINT.
Inductive Replica_gtid_state := NEW | IDENTICAL | RECOVERABLE | IRRECOVERABLE | DIVERGED.

Definition replica_gtid_state_to_string (state : Replica_gtid_state) : str :=
  match state with
  | NEW => $"NEW"
  | IDENTICAL => $"IDENTICAL"
  | RECOVERABLE => $"RECOVERABLE"
  | IRRECOVERABLE => $"IRRECOVERABLE"
  | DIVERGED => $"DIVERGED"
  end.

(** The object after a call that did not throw. *)
Definition returned (r : Gtid_set * result unit) : result Gtid_set :=
  match r with (g, Ok _) => Ok g | (_, Throw e) => Throw e end.

Section replication.
Context `{IInstance}.

Definition unsupported_tags : exn := shcore_exception "SHERR_UNSUPPORTED_GTID_TAG".

(** The relation with [*out_missing_from_a] and [*out_missing_from_b]. *)
Definition compare_gtid_sets (gtidset_a gtidset_b : str)
    : result (Gtid_set_relation * str * str) :=
  if bool_decide (gtidset_a = []) || bool_decide (gtidset_b = []) then
    Ok (if bool_decide (gtidset_a = [])
        then if bool_decide (gtidset_b = []) then EQUAL else CONTAINED
        else CONTAINS, gtidset_b, gtidset_a)
  else
    let set_a := from_normalized_string gtidset_a in
    let set_b := from_normalized_string gtidset_b in
    if negb (supports_gtid_tags get_version) && (has_tags set_a || has_tags set_b)
    then Throw unsupported_tags
    else
      a_sub_b ← returned (subtract set_a set_b);
      b_sub_a ← returned (subtract set_b set_a);
      rel ← (if gtid_set_empty a_sub_b && gtid_set_empty b_sub_a then Ok EQUAL
             else if gtid_set_empty a_sub_b && negb (gtid_set_empty b_sub_a) then Ok CONTAINED
             else if negb (gtid_set_empty a_sub_b) && gtid_set_empty b_sub_a then Ok CONTAINS
             else
               set_b ← returned (intersect set_b set_a);
               Ok (if gtid_set_empty set_b then DISJOINT else INTERSECTS));
      Ok (rel, m_gtid_set b_sub_a, m_gtid_set a_sub_b).

(** [queryf(...)->fetch_one_or_throw()->get_int(0)] *)
Definition queryf_int_or_throw (sql : str) (args : list sql_arg) : result Z :=
  q ← sqlformat sql args;
  r ← query_int q;
  match r with Some n => Ok n | None => Throw (logic_error "Query returned fewer rows than expected") end.

(** The state with [*out_missing_gtids] and [*out_errant_gtids]. *)
Definition check_replica_gtid_state (master_gtidset master_purged_gtidset slave_gtidset : str)
    : result (Replica_gtid_state * str * str) :=
  if bool_decide (slave_gtidset = []) && bool_decide (master_purged_gtidset = []) &&
     negb (bool_decide (master_gtidset = []))
  then Ok (NEW, master_gtidset, [])
  else
    r ← compare_gtid_sets master_gtidset slave_gtidset;
    let '(rel, errant, missing) := r in
    state ← match rel with
            | INTERSECTS | DISJOINT | CONTAINED => Ok DIVERGED
            | EQUAL => Ok IDENTICAL
            | CONTAINS =>
                if bool_decide (master_purged_gtidset = []) then Ok RECOVERABLE
                else
                  n ← queryf_int_or_throw ($"SELECT GTID_SUBTRACT(?, ?) = ''")
                        [ArgString master_purged_gtidset; ArgString slave_gtidset];
                  Ok (if (n =? 0)%Z then IRRECOVERABLE else RECOVERABLE)
            end;
    Ok (state, missing, errant).

(** The loop over the purged sets of the other members. *)
Fixpoint intersect_all (g : Gtid_set) (sets : list Gtid_set) : result Gtid_set :=
  match sets with
  | [] => Ok g
  | s :: sets => g ← returned (intersect g s); intersect_all g sets
  end.

Record joining_state := {
  out_missing_gtids : Gtid_set;
  out_unrecoverable_gtids : Gtid_set;
  out_errant_gtids : Gtid_set;
  out_allowed_errant_gtids : Gtid_set;
}.

Definition compute_joining_replica_gtid_state (primary_gtids : Gtid_set)
    (purged_gtids : list Gtid_set) (joiner_gtids : Gtid_set) (allowed_errant_uuids : list str)
    : result joining_state :=
  if negb (supports_gtid_tags get_version) && has_tags joiner_gtids then Throw unsupported_tags
  else
    completely_purged_gtids ←
      match purged_gtids with
      | [] => Ok Gtid_set_default
      | g :: rest => intersect_all g rest
      end;
    missing ← returned (subtract primary_gtids joiner_gtids);
    errant ← returned (subtract joiner_gtids primary_gtids);
    unrecoverable ← returned (intersect missing completely_purged_gtids);
    missing ← returned (subtract missing unrecoverable);
    allowed ← returned (normalize
      (foldl (λ allowed uuid, add_set allowed (get_gtids_from errant uuid))
         Gtid_set_default allowed_errant_uuids));
    errant ← returned (subtract errant allowed);
    Ok {| out_missing_gtids := missing; out_unrecoverable_gtids := unrecoverable;
          out_errant_gtids := errant; out_allowed_errant_gtids := allowed |}.
End replication.

(** The overload that asks the two instances for their sets. *)
Definition check_replica_gtid_state_of (master slave : IInstance)
    : result (Replica_gtid_state * str * str) :=
  slave_gtid ← @get_executed_gtid_set slave;
  master_gtid ← @get_executed_gtid_set master;
  master_purged_gtid ← @get_purged_gtid_set master;
  @check_replica_gtid_state master master_gtid master_purged_gtid slave_gtid.
