(* ===== verification/ReplicationGtidFacts.v ===== *)
(** * Correctness of the GTID state of replicas

    The relation between two sets, the state of a replica, and the split of the
    transactions of a joining replica, characterised by set membership. *)
From S2P Require Import Prelude UtilsString UtilsStringFacts Lexing LexingFacts.
From S2P Require Import SqlString SqlStringFacts Version GtidUtils GtidUtilsFacts.
From S2P Require Import GtidServer ReplicationGtid.

Open Scope nat_scope.

Section facts.
Context `{GtidServer}.

Abbreviation src := (str * Z)%type.
Definition subset (P Q : src → Prop) : Prop := ∀ x, P x → Q x.

(** What each relation means. *)
Definition relation_holds (rel : Gtid_set_relation) (A B : src → Prop) : Prop :=
  match rel with
  | EQUAL => subset A B ∧ subset B A
  | CONTAINS => subset B A ∧ ¬ subset A B
  | CONTAINED => subset A B ∧ ¬ subset B A
  | INTERSECTS => ¬ subset A B ∧ ¬ subset B A ∧ ∃ x, A x ∧ B x
  | DISJOINT => ¬ subset A B ∧ ¬ subset B A ∧ ∀ x, ¬ (A x ∧ B x)
  end.

(** The server can be asked about sets with tags. *)
Definition tags_ok (s : str) : Prop :=
  supports_gtid_tags get_version = true ∨ has_tags (from_normalized_string s) = false.

Lemma subset_dec_empty g A B :
  set_text g → (∀ x, set_mem g x ↔ A x ∧ ¬ B x) → (∀ x, Decision (B x)) →
  gtid_set_empty g = true ↔ subset A B.
Proof.
  intros Ht Hm Hd. rewrite gtid_set_empty_spec by done. apply forall_proper. intros x.
  rewrite Hm. destruct (Hd x); tauto.
Qed.

Lemma not_empty_member g : set_text g → gtid_set_empty g = false ↔ ∃ x, set_mem g x.
Proof.
  intros Ht. split.
  - intros He%bool_decide_eq_false_1. by apply text_member.
  - intros [x Hx]. apply bool_decide_eq_false_2. intros E. unfold set_mem in Hx. rewrite E in Hx.
    by apply gtid_mem_nil in Hx.
Qed.

Lemma compare_gtid_sets_spec a b :
  gtid_set_text a → gtid_set_text b → tags_ok a → tags_ok b →
  ∃ rel missing_a missing_b,
    compare_gtid_sets a b = Ok (rel, missing_a, missing_b) ∧
    relation_holds rel (gtid_mem a) (gtid_mem b) ∧
    (∀ x, gtid_mem missing_a x ↔ gtid_mem b x ∧ ¬ gtid_mem a x) ∧
    (∀ x, gtid_mem missing_b x ↔ gtid_mem a x ∧ ¬ gtid_mem b x).
Proof.
  intros Ha Hb Hta Htb. unfold compare_gtid_sets.
  destruct (bool_decide (a = []) || bool_decide (b = [])) eqn:E.
  - do 3 eexists. split; [done|].
    destruct (decide (a = [])) as [->|Ea].
    + rewrite (bool_decide_eq_true_2 ([] = [])) by done. split.
      * destruct (decide (b = [])) as [->|Eb].
        -- rewrite bool_decide_eq_true_2 by done. split; intros x Hx; exact Hx.
        -- rewrite bool_decide_eq_false_2 by done. split; [by intros x ?%gtid_mem_nil|].
           intros Hs. destruct (text_member b Hb Eb) as [x Hx]. by apply Hs, gtid_mem_nil in Hx.
      * split; intros x; pose proof (gtid_mem_nil x); tauto.
    + rewrite (bool_decide_eq_false_2 (a = [])) in * by done. simpl in E.
      apply bool_decide_eq_true_1 in E as ->. split.
      * split; [by intros x ?%gtid_mem_nil|]. intros Hs.
        destruct (text_member a Ha Ea) as [x Hx]. by apply Hs, gtid_mem_nil in Hx.
      * split; intros x; pose proof (gtid_mem_nil x); tauto.
  - assert (negb (supports_gtid_tags get_version) &&
      (has_tags (from_normalized_string a) || has_tags (from_normalized_string b)) = false) as ->.
    { destruct Hta as [->| ->]; [done|]. destruct Htb as [->| ->]; [done|]. by rewrite andb_false_r. }
    destruct (subtract_spec (from_normalized_string a) (from_normalized_string b)) as (d1 & -> & T1 & _ & M1);
      [done..|].
    destruct (subtract_spec (from_normalized_string b) (from_normalized_string a)) as (d2 & -> & T2 & _ & M2);
      [done..|].
    cbn [returned mbind result_bind].
    pose proof (subset_dec_empty d1 _ _ T1 M1 _) as S1. pose proof (subset_dec_empty d2 _ _ T2 M2 _) as S2.
    destruct (gtid_set_empty d1), (gtid_set_empty d2); cbn [andb negb mbind result_bind].
    4: destruct (intersect_spec (from_normalized_string b) (from_normalized_string a)) as (d3 & -> & T3 & M3);
      [done..|]; cbn [returned mbind result_bind].
    all: do 3 eexists; (split; [done|]); (split; [|done]); unfold relation_holds.
    1-3: naive_solver.
    destruct (gtid_set_empty d3) eqn:E3.
    + rewrite gtid_set_empty_spec in E3 by done. split_and!; [naive_solver..|].
      intros x [? ?]. apply (E3 x). by apply M3.
    + apply not_empty_member in E3 as [x Hx]; [|done]. apply M3 in Hx. split_and!; [naive_solver..|].
      exists x. tauto.
Qed.

(** ** The state of a replica *)

(** What the states mean, for the transactions executed on the source, purged from the
    source, and executed on the replica; no two of them hold together. *)
Definition state_holds (st : Replica_gtid_state) (M P S : src → Prop) : Prop :=
  match st with
  | NEW => (∀ x, ¬ S x) ∧ (∀ x, ¬ P x) ∧ ∃ x, M x
  | IDENTICAL => subset M S ∧ subset S M
  | RECOVERABLE => subset S M ∧ ¬ subset M S ∧ subset P S ∧ ∃ x, S x
  | IRRECOVERABLE => subset S M ∧ ¬ subset M S ∧ ¬ subset P S
  | DIVERGED => ¬ subset S M
  end.

Lemma state_holds_unique st st' M P S : state_holds st M P S → state_holds st' M P S → st = st'.
Proof.
  assert ((∀ x, ¬ S x) → subset S M) as H1 by (intros Hn x Hx; by destruct (Hn x)).
  assert ((∃ x, M x) → subset M S → ∃ x, S x) as H2 by (intros [x ?] Hn; exists x; by apply Hn).
  assert ((∀ x, ¬ S x) → (∃ x, S x) → False) as H3 by (intros Hn [x ?]; by apply (Hn x)).
  assert ((∀ x, ¬ P x) → subset P S) as H4 by (intros Hn x Hx; by destruct (Hn x)).
  destruct st, st'; cbn [state_holds]; tauto.
Qed.

(** The query for the purged transactions. *)
Lemma purged_query p s :
  gtid_set_text p → gtid_set_text s →
  ∃ n, queryf_int_or_throw ($"SELECT GTID_SUBTRACT(?, ?) = ''") [ArgString p; ArgString s] = Ok n ∧
       ((n =? 0)%Z = false ↔ subset (gtid_mem p) (gtid_mem s)).
Proof.
  intros Hp Hs. unfold queryf_int_or_throw. rewrite format_SUBSET. cbn [mbind result_bind].
  rewrite query_subset by auto. cbn [mbind result_bind]. eexists. split; [done|].
  rewrite <- (subset_dec_empty (from_normalized_string (gtid_subtract p s)));
    [|by apply subtract_text|intros x; by apply subtract_mem|apply _].
  unfold gtid_set_empty. cbn [m_gtid_set from_normalized_string]. by case_bool_decide.
Qed.

(** ** The transactions of a joining replica *)















Lemma check_replica_gtid_state_spec (m p s : str) :
  gtid_set_text m → gtid_set_text p → gtid_set_text s → tags_ok m → tags_ok s →
  ∃ st missing errant,
    check_replica_gtid_state m p s = Ok (st, missing, errant) ∧
    state_holds st (gtid_mem m) (gtid_mem p) (gtid_mem s) ∧
    (∀ x, gtid_mem missing x ↔ gtid_mem m x ∧ ¬ gtid_mem s x) ∧
    (∀ x, gtid_mem errant x ↔ gtid_mem s x ∧ ¬ gtid_mem m x).
Proof.
  intros Hm Hp Hs Htm Hts. unfold check_replica_gtid_state.
  destruct (_ && _ && _) eqn:E.
  - bool_to_prop. subst. do 3 eexists. split; [done|].
    split; [split_and!; [apply gtid_mem_nil..|by apply text_member]|].
    split; intros x; pose proof (gtid_mem_nil x); tauto.
  - destruct (compare_gtid_sets_spec m s Hm Hs Htm Hts) as (rel & ma & mb & -> & Hr & Ha & Hb).
    cbn [mbind result_bind]. destruct rel; cbn [relation_holds] in Hr; cbn [mbind result_bind].
    + do 3 eexists. split; [done|]. split; [|by split]. exact Hr.
    + destruct (decide (p = [])) as [Ep|Ep];
        [rewrite (bool_decide_eq_true_2 _ Ep)|rewrite (bool_decide_eq_false_2 _ Ep)]; cbn [mbind result_bind].
      * do 3 eexists. split; [done|]. split; [|by split]. subst p. destruct Hr as [Hr1 Hr2].
        split_and!; [done|done|by intros x ?%gtid_mem_nil|]. apply text_member; [done|].
        intros ->. cbn in E. apply negb_false_iff, bool_decide_eq_true_1 in E. subst m.
        apply Hr2. by intros x ?%gtid_mem_nil.
      * destruct (purged_query p s Hp Hs) as (n & -> & Hn). cbn [mbind result_bind].
        do 3 eexists. split; [done|]. split; [|by split]. destruct (text_member p Hp Ep) as [x Hx].
        destruct (n =? 0)%Z; cbn [state_holds]; (split; [tauto|split; [tauto|]]).
        -- intros Hsub. by apply Hn in Hsub.
        -- assert (subset (gtid_mem p) (gtid_mem s)) as Hsub by (by apply Hn).
           split; [done|]. exists x. by apply Hsub.
    + do 3 eexists. split; [done|]. split; [|by split]. apply Hr.
    + do 3 eexists. split; [done|]. split; [|by split]. apply Hr.
    + do 3 eexists. split; [done|]. split; [|by split]. apply Hr.
Qed.

(** ** Theorems *)

(** [compare_gtid_sets] does not fail and names the relation between the two sets,
    returning the transactions each of them lacks. *)
Theorem compare_gtid_sets_correct (a b : str) :
  gtid_set_text a → gtid_set_text b → tags_ok a → tags_ok b →
  ∃ rel missing_a missing_b,
    compare_gtid_sets a b = Ok (rel, missing_a, missing_b) ∧
    relation_holds rel (gtid_mem a) (gtid_mem b) ∧
    (∀ x, gtid_mem missing_a x ↔ gtid_mem b x ∧ ¬ gtid_mem a x) ∧
    (∀ x, gtid_mem missing_b x ↔ gtid_mem a x ∧ ¬ gtid_mem b x).
Proof. apply compare_gtid_sets_spec. Qed.

(** C5: Against a server that implements GTID_SUBTRACT, and for texts of GTID sets, with
    tags only if the server supports them, check_replica_gtid_state does not fail and
    returns the one state that holds, of five that exclude each other: new (the replica
    has executed nothing, the source has executed something and purged nothing),
    identical, recoverable (the replica has executed something, all of it is on the
    source, which has more and has purged nothing the replica lacks), irrecoverable (the
    same, but the source has purged something the replica lacks; the replica may have
    executed nothing), or diverged (it has transactions of its own); and it returns the
    missing and the errant transactions. *)
Theorem check_replica_gtid_state_correct (m p s : str) :
  gtid_set_text m → gtid_set_text p → gtid_set_text s → tags_ok m → tags_ok s →
  ∃ st missing errant,
    check_replica_gtid_state m p s = Ok (st, missing, errant) ∧
    (∀ st', state_holds st' (gtid_mem m) (gtid_mem p) (gtid_mem s) ↔ st' = st) ∧
    (∀ x, gtid_mem missing x ↔ gtid_mem m x ∧ ¬ gtid_mem s x) ∧
    (∀ x, gtid_mem errant x ↔ gtid_mem s x ∧ ¬ gtid_mem m x).
Proof.
  intros Hm Hp Hs Htm Hts.
  destruct (check_replica_gtid_state_spec m p s) as (st & ma & mb & E & Hst & ? & ?); [done..|].
  exists st, ma, mb. split_and!; [done| |done|done]. intros st'.
  split; [intros Hst'; by eapply state_holds_unique|by intros ->].
Qed.

End facts.

Lemma compare_gtid_sets_correct_witness :
  @compare_gtid_sets Sample.server ($"a:1") ($"b:2,a:1") = Ok (CONTAINED, $"b:2", []) ∧
  relation_holds CONTAINED (gtid_mem ($"a:1")) (gtid_mem ($"b:2,a:1")).
Proof.
  assert (@compare_gtid_sets Sample.server ($"a:1") ($"b:2,a:1") = Ok (CONTAINED, $"b:2", [])) as E
    by (vm_compute; reflexivity).
  split; [exact E|].
  destruct (@compare_gtid_sets_correct Sample.server Sample.gtid_server ($"a:1") ($"b:2,a:1"))
    as (rel & ma & mb & E' & Hr & _).
  - apply (bool_decide_eq_true_1 (_ ∈ Sample.texts)). vm_compute. reflexivity.
  - apply (bool_decide_eq_true_1 (_ ∈ Sample.texts)). vm_compute. reflexivity.
  - left. reflexivity.
  - left. reflexivity.
  - rewrite E in E'. injection E' as <- _ _. exact Hr.
Defined.

Lemma check_replica_gtid_state_correct_witness :
  @check_replica_gtid_state Sample.server ($"a:1,b:2") ($"b:2") ($"a:1") = Ok (IRRECOVERABLE, $"b:2", []) ∧
  state_holds IRRECOVERABLE (gtid_mem ($"a:1,b:2")) (gtid_mem ($"b:2")) (gtid_mem ($"a:1")).
Proof.
  assert (@check_replica_gtid_state Sample.server ($"a:1,b:2") ($"b:2") ($"a:1") =
    Ok (IRRECOVERABLE, $"b:2", [])) as E by (vm_compute; reflexivity).
  split; [exact E|].
  destruct (@check_replica_gtid_state_correct Sample.server Sample.gtid_server
    ($"a:1,b:2") ($"b:2") ($"a:1")) as (st & missing & errant & E' & Hr & _).
  - apply (bool_decide_eq_true_1 (_ ∈ Sample.texts)). vm_compute. reflexivity.
  - apply (bool_decide_eq_true_1 (_ ∈ Sample.texts)). vm_compute. reflexivity.
  - apply (bool_decide_eq_true_1 (_ ∈ Sample.texts)). vm_compute. reflexivity.
  - left. reflexivity.
  - left. reflexivity.
  - rewrite E in E'. injection E' as <- _ _. apply Hr. reflexivity.
Defined.

