(* ===== verification/SyncQueue.v ===== *)
(** * The synchronized queue

    Model of [mysqlshdk/libs/utils/synchronized_queue.h] (namespace [shcore]): a queue
    with several producers and consumers, one deque per priority.  The first part models
    the data and the private operations, the second the calls of several threads: their
    critical sections, waiting on [m_task_ready], and the notifications sent after the
    mutex has been released. *)
From S2P Require Import Prelude.

Open Scope nat_scope.

Inductive Queue_priority := LOWEST | LOW | MEDIUM | HIGH.

#[global] Instance Queue_priority_eq_dec : EqDecision Queue_priority.
Proof. solve_decision. Defined.

Definition map_priority (p : Queue_priority) : nat :=
  match p with LOWEST => 1 | LOW => 2 | MEDIUM => 3 | HIGH => 4 end.

Definition k_shutdown_priority : nat := 0.
Definition k_max_priority : nat := map_priority HIGH.

(** ** Data and private operations *)

Record Synchronized_queue (T : Type) := { m_queues : list (list T); m_size : nat }.
Arguments m_queues {T}.
Arguments m_size {T}.

Definition make_Synchronized_queue {T} : Synchronized_queue T :=
  {| m_queues := replicate (1 + k_max_priority) []; m_size := 0 |}.

Definition unsynchronized_push {T} (u : T) (p : nat) (q : Synchronized_queue T)
    : Synchronized_queue T :=
  {| m_queues := alter (λ queue, queue ++ [u]) (k_max_priority - p) (m_queues q);
     m_size := m_size q + 1 |}.

(** The loop over the deques: the element taken and the deques after it. *)
Fixpoint pop_first {T} (queues : list (list T)) : option (T * list (list T)) :=
  match queues with
  | [] => None
  | (r :: queue) :: queues => Some (r, queue :: queues)
  | [] :: queues => (λ x, (x.1, [] :: x.2)) <$> pop_first queues
  end.

Definition unsynchronized_pop {T} (q : Synchronized_queue T) : result (T * Synchronized_queue T) :=
  match pop_first (m_queues q) with
  | Some (r, queues) => Ok (r, {| m_queues := queues; m_size := m_size q - 1 |})
  | None => Throw (logic_error "Trying to pop from an empty queue.")
  end.

Definition unsynchronized_empty {T} (q : Synchronized_queue T) : bool :=
  bool_decide (0 = m_size q).

Definition size {T} (q : Synchronized_queue T) : nat := m_size q.

(** The critical sections of [push] and [shutdown]; [d] is [T()]. *)
Definition push {T} (r : T) (p : Queue_priority) (q : Synchronized_queue T) : Synchronized_queue T :=
  unsynchronized_push r (map_priority p) q.

Fixpoint shutdown {T} (d : T) (n : nat) (q : Synchronized_queue T) : Synchronized_queue T :=
  match n with
  | O => q
  | S n => shutdown d n (unsynchronized_push d k_shutdown_priority q)
  end.

(** ** Threads

    A critical section is one step, since it holds the mutex; [wait] releases the mutex
    and goes to sleep at once.  [Woken] threads have been notified, have woken up
    spuriously, or have timed out, and need the mutex again. *)

Inductive call (T : Type) :=
| call_push (r : T) (p : Queue_priority)
| call_pop
| call_try_pop
| call_shutdown (n : nat).
Arguments call_push {T}.
Arguments call_pop {T}.
Arguments call_try_pop {T}.
Arguments call_shutdown {T}.

Inductive thread_state (T : Type) :=
| Outside
| Calling (c : call T)
| Waiting (timed : bool)
| Woken (timed expired : bool)
| Notify_one
| Notify_all.
Arguments Outside {T}.
Arguments Calling {T}.
Arguments Waiting {T}.
Arguments Woken {T}.
Arguments Notify_one {T}.
Arguments Notify_all {T}.

Record monitor (T : Type) := {
  m_queue : Synchronized_queue T;
  m_threads : list (thread_state T);
  m_returned : list (option T);   (* what the calls of pop and try_pop returned *)
}.
Arguments m_queue {T}.
Arguments m_threads {T}.
Arguments m_returned {T}.

Section monitor.
Context {T : Type} (d : T).

Definition is_waiting (t : thread_state T) : bool :=
  match t with Waiting _ => true | _ => false end.

Definition wake (t : thread_state T) : thread_state T :=
  match t with Waiting timed => Woken timed false | _ => t end.

(** The state after thread [i] has moved to [t] with queue [q]. *)
Definition moved (m : monitor T) (i : nat) (t : thread_state T) (q : Synchronized_queue T)
    (out : list (option T)) : monitor T :=
  {| m_queue := q; m_threads := <[i := t]> (m_threads m); m_returned := m_returned m ++ out |}.

(** The critical section of [pop] and [try_pop], entered for the first time or after
    waking up: the predicate of the wait, then the pop. *)
Definition pop_section (m : monitor T) (i : nat) (timed expired : bool) : result (monitor T) :=
  if unsynchronized_empty (m_queue m) then
    if expired then Ok (moved m i Outside (m_queue m) [None])
    else Ok (moved m i (Waiting timed) (m_queue m) [])
  else
    r ← unsynchronized_pop (m_queue m);
    Ok (moved m i Outside r.2 [Some r.1]).

Inductive monitor_step (m : monitor T) : monitor T → Prop :=
| step_call i c :
    m_threads m !! i = Some Outside →
    monitor_step m (moved m i (Calling c) (m_queue m) [])
| step_push i r p :
    m_threads m !! i = Some (Calling (call_push r p)) →
    monitor_step m (moved m i Notify_one (push r p (m_queue m)) [])
| step_shutdown i n :
    m_threads m !! i = Some (Calling (call_shutdown n)) →
    monitor_step m (moved m i Notify_all (shutdown d n (m_queue m)) [])
| step_pop i m' :
    m_threads m !! i = Some (Calling call_pop) →
    pop_section m i false false = Ok m' → monitor_step m m'
| step_try_pop i m' :
    m_threads m !! i = Some (Calling call_try_pop) →
    pop_section m i true false = Ok m' → monitor_step m m'
| step_woken i timed expired m' :
    m_threads m !! i = Some (Woken timed expired) →
    pop_section m i timed expired = Ok m' → monitor_step m m'
| step_spurious i timed :
    m_threads m !! i = Some (Waiting timed) →
    monitor_step m (moved m i (Woken timed false) (m_queue m) [])
| step_timeout i :
    m_threads m !! i = Some (Waiting true) →
    monitor_step m (moved m i (Woken true true) (m_queue m) [])
| step_notify_one i j timed :
    m_threads m !! i = Some Notify_one → m_threads m !! j = Some (Waiting timed) →
    monitor_step m
      {| m_queue := m_queue m;
         m_threads := <[i := Outside]> (<[j := Woken timed false]> (m_threads m));
         m_returned := m_returned m |}
| step_notify_nobody i :
    m_threads m !! i = Some Notify_one → Forall (λ t, is_waiting t = false) (m_threads m) →
    monitor_step m (moved m i Outside (m_queue m) [])
| step_notify_all i :
    m_threads m !! i = Some Notify_all →
    monitor_step m
      {| m_queue := m_queue m; m_threads := <[i := Outside]> (wake <$> m_threads m);
         m_returned := m_returned m |}.

(** [n] threads, none of them in a call yet. *)
Definition monitor_init (n : nat) : monitor T :=
  {| m_queue := make_Synchronized_queue; m_threads := replicate n Outside; m_returned := [] |}.

Definition monitor_reachable (n : nat) (m : monitor T) : Prop :=
  rtc monitor_step (monitor_init n) m.
End monitor.
