(* ===== verification/SyncQueueFacts.v ===== *)
(** * The synchronized queue: facts

    The deques implement a list of prioritized entries in order of arrival, from which
    the first entry of the highest priority is taken: the critical sections of the
    threads, in the order in which they are entered, are calls on that list, and return
    what these return.  And no notification is lost: a thread sleeps next to a filled
    queue only while enough other threads are on their way to empty it. *)
From S2P Require Import Prelude SyncQueue.

Open Scope nat_scope.

(** ** Abstract specification *)

(** The rank of an entry: guards of [shutdown] below everything that is pushed. *)
Definition rank (p : option Queue_priority) : nat :=
  match p with
  | None => 0 | Some LOWEST => 1 | Some LOW => 2 | Some MEDIUM => 3 | Some HIGH => 4
  end.

Section spec.
Context {T : Type} (d : T).

Implicit Types A : list (nat * T).

(** [A] holds the entries with their ranks, in order of arrival.  A call is given with
    what it returns: nothing for [push] and [shutdown], an element for [pop], an element
    or, only when there is none, [None] for [try_pop]. *)
Inductive spec_step A : call T → list (option T) → list (nat * T) → Prop :=
| spec_push r p : spec_step A (call_push r p) [] (A ++ [(rank (Some p), r)])
| spec_shutdown n : spec_step A (call_shutdown n) [] (A ++ replicate n (rank None, d))
| spec_pop A1 A2 p r c :
    c = call_pop ∨ c = call_try_pop →
    A = A1 ++ (p, r) :: A2 →
    Forall (λ e, e.1 < p) A1 → Forall (λ e, e.1 ≤ p) A2 →
    spec_step A c [Some r] (A1 ++ A2)
| spec_try_pop_empty : A = [] → spec_step A call_try_pop [None] [].

Inductive spec_run A : list (call T * list (option T)) → list (nat * T) → Prop :=
| spec_run_nil : spec_run A [] A
| spec_run_snoc A1 A2 cs c out :
    spec_run A cs A1 → spec_step A1 c out A2 → spec_run A (cs ++ [(c, out)]) A2.
End spec.

(** ** Refinement *)

Section refinement.
Context {T : Type} (d : T).
Implicit Types (q : Synchronized_queue T) (A : list (nat * T)).

Definition level (p : nat) A : list T := snd <$> filter (λ e, e.1 = p) A.

(** The order in which the deques are searched. *)
Definition levels : list nat := [4; 3; 2; 1; 0].

Definition refines q A : Prop :=
  m_queues q = (λ p, level p A) <$> levels ∧ m_size q = length A ∧
  Forall (λ e, e.1 ≤ k_max_priority) A.

Lemma level_app p A1 A2 : level p (A1 ++ A2) = level p A1 ++ level p A2.
Proof. unfold level. by rewrite filter_app, fmap_app. Qed.

Lemma level_cons p e A :
  level p (e :: A) = if decide (e.1 = p) then e.2 :: level p A else level p A.
Proof. unfold level. rewrite filter_cons. by case_decide. Qed.

Lemma level_nil p A : level p A = [] ↔ Forall (λ e, e.1 ≠ p) A.
Proof.
  induction A as [|e A IH]; [split; [constructor|done]|]. rewrite level_cons, Forall_cons.
  case_decide; [split; [done|tauto]|]. rewrite IH. tauto.
Qed.

Lemma level_head p A r rest :
  level p A = r :: rest →
  ∃ A1 A2, A = A1 ++ (p, r) :: A2 ∧ Forall (λ e, e.1 ≠ p) A1 ∧ rest = level p A2.
Proof.
  induction A as [|[p' x] A IH]; [done|]. rewrite level_cons. simpl. case_decide as Hp.
  - intros [= -> <-]. subst p'. by exists [], A.
  - intros (A1 & A2 & -> & ? & ?)%IH. exists ((p', x) :: A1), A2. split_and!; [done| |done].
    by constructor.
Qed.

Lemma refines_init : refines make_Synchronized_queue [].
Proof. split_and!; [done|done|constructor]. Qed.

Lemma refines_push q A r p :
  p ≤ k_max_priority → refines q A → refines (unsynchronized_push r p q) (A ++ [(p, r)]).
Proof.
  intros Hp (Hq & Hs & Hf). split_and!; simpl; [|by rewrite length_app, Hs|].
  - rewrite Hq. do 5 (destruct p as [|p]; [cbn; by rewrite ?level_app, ?app_nil_r|]).
    unfold k_max_priority in Hp. simpl in Hp. lia.
  - apply Forall_app. split; [done|by apply Forall_singleton].
Qed.

Lemma refines_shutdown n q A :
  refines q A → refines (shutdown d n q) (A ++ replicate n (k_shutdown_priority, d)).
Proof.
  revert q A. induction n as [|n IH]; intros q A H; simpl; [by rewrite app_nil_r|].
  rewrite cons_middle, (assoc_L (++)). apply IH, refines_push; [unfold k_shutdown_priority; lia|done].
Qed.

(** The search of the deques [ps] finds the first entry of the first priority in use. *)
Lemma pop_first_levels ps A :
  NoDup ps →
  match pop_first ((λ p, level p A) <$> ps) with
  | Some (r, qs) => ∃ before p after A1 A2,
      ps = before ++ p :: after ∧ A = A1 ++ (p, r) :: A2 ∧
      Forall (λ p', Forall (λ e, e.1 ≠ p') A) before ∧ Forall (λ e, e.1 ≠ p) A1 ∧
      qs = (λ p, level p (A1 ++ A2)) <$> ps
  | None => Forall (λ p, Forall (λ e, e.1 ≠ p) A) ps
  end.
Proof.
  induction ps as [|p ps IH]; intros Hd; [constructor|]. apply NoDup_cons in Hd as [Hp Hd].
  csimpl. destruct (level p A) as [|r rest] eqn:El.
  - pose proof (proj1 (level_nil p A) El) as Hno. specialize (IH Hd).
    destruct (pop_first _) as [[r qs]|]; csimpl; [|by constructor].
    destruct IH as (before & p' & after & A1 & A2 & -> & HA & Hb & H1 & ->).
    exists (p :: before), p', after, A1, A2. split_and!; [done|done|by constructor|done|].
    csimpl. f_equal. symmetry. apply level_nil. subst A.
    apply Forall_app in Hno as [? [_ ?]%Forall_cons]. by apply Forall_app.
  - destruct (level_head _ _ _ _ El) as (A1 & A2 & -> & H1 & ->).
    exists [], p, ps, A1, A2. split_and!; [done|done|constructor|done|]. csimpl. f_equal.
    + rewrite level_app, (proj2 (level_nil p A1)) by done. done.
    + apply list_fmap_ext. intros i p' Hi. rewrite !level_app, level_cons. simpl.
      destruct (decide (p = p')) as [<-|]; [|done]. destruct Hp. by eapply list_elem_of_lookup_2.
Qed.

Lemma refines_pop q A :
  refines q A →
  match unsynchronized_pop q with
  | Ok (r, q') => ∃ A1 A2 p, A = A1 ++ (p, r) :: A2 ∧ Forall (λ e, e.1 < p) A1 ∧
      Forall (λ e, e.1 ≤ p) A2 ∧ refines q' (A1 ++ A2)
  | Throw e => A = [] ∧ e = logic_error "Trying to pop from an empty queue."
  end.
Proof.
  intros (Hq & Hs & Hf). unfold unsynchronized_pop. rewrite Hq.
  assert (NoDup levels) as Hd by (repeat constructor; set_solver).
  pose proof (pop_first_levels levels A Hd) as H.
  destruct (pop_first _) as [[r qs]|].
  - destruct H as (before & p & after & A1 & A2 & Hl & HA & Hb & H1 & ->).
    assert (Forall (λ e, e.1 ≤ p) A) as Hle.
    { apply Forall_forall. intros e He. rewrite Forall_forall in Hf. pose proof (Hf e He) as Hm.
      assert (e.1 ∈ levels) as Hin.
      { unfold k_max_priority in Hm. simpl in Hm. unfold levels.
        destruct (e.1) as [|[|[|[|[|]]]]]; [set_solver..|lia]. }
      assert (e.1 ∉ before) as Hnb.
      { intros Hbe. rewrite Forall_forall in Hb. specialize (Hb _ Hbe).
        rewrite Forall_forall in Hb. by specialize (Hb e He). }
      clear -Hl Hin Hnb. unfold levels in *.
      destruct before as [|? [|? [|? [|? [|? [|]]]]]]; simplify_eq/=; set_unfold; lia. }
    subst A. apply Forall_app in Hle as [Hle1 [_ Hle2]%Forall_cons].
    exists A1, A2, p. split_and!; [done| |done|].
    + apply Forall_forall. intros e He. rewrite Forall_forall in H1, Hle1.
      specialize (H1 e He). specialize (Hle1 e He). simpl in *. lia.
    + split_and!; [done| |].
      * simpl. rewrite Hs, !length_app. simpl. lia.
      * apply Forall_app in Hf as [? [_ ?]%Forall_cons]. by apply Forall_app.
  - split; [|done]. destruct A as [|[p x] A]; [done|]. exfalso.
    apply Forall_cons in Hf as [Hp _]. unfold k_max_priority in Hp. simpl in Hp.
    unfold levels in H. rewrite !Forall_cons in H. simpl in H. lia.
Qed.
End refinement.

(** ** Threads *)

Section threads.
Context {T : Type} (d : T).
Implicit Types (m : monitor T) (t : thread_state T) (ts : list (thread_state T)) (i : nat).

(** Threads that are on their way to the queue or will wake up another one. *)
Definition helps t : bool :=
  match t with
  | Calling call_pop | Calling call_try_pop | Woken _ _ | Notify_one => true
  | _ => false
  end.

Definition helpers (ts : list (thread_state T)) : nat :=
  sum_list_with (λ t, if helps t then 1 else 0) ts.

Definition nobody_waits (ts : list (thread_state T)) : Prop :=
  Forall (λ t, is_waiting t = false) ts.

(** Sleeping next to elements needs helpers for all of them. *)
Definition wake_ups m : Prop :=
  nobody_waits (m_threads m) ∨ Notify_all ∈ m_threads m ∨ m_size (m_queue m) ≤ helpers (m_threads m).

(** The deques hold a list of prioritized entries. *)
Definition represented m : Prop := ∃ A, refines (m_queue m) A.

Lemma helpers_insert ts i t0 t :
  ts !! i = Some t0 →
  helpers (<[i := t]> ts) + (if helps t0 then 1 else 0) = helpers ts + (if helps t then 1 else 0).
Proof. apply sum_list_with_insert. Qed.

Lemma nobody_waits_insert ts i t :
  is_waiting t = false → nobody_waits ts → nobody_waits (<[i := t]> ts).
Proof. intros. by apply Forall_insert. Qed.

Lemma notify_all_insert ts i t0 t :
  ts !! i = Some t0 → t0 ≠ Notify_all → Notify_all ∈ ts → Notify_all ∈ <[i := t]> ts.
Proof.
  intros Hi Hne [j Hj]%list_elem_of_lookup. apply list_elem_of_lookup. exists j.
  rewrite list_lookup_insert_ne; [done|]. intros ->. congruence.
Qed.

Lemma represented_pop m i timed expired m' :
  represented m → pop_section m i timed expired = Ok m' → represented m'.
Proof.
  intros [A HA]. unfold pop_section. destruct (unsynchronized_empty (m_queue m)).
  - destruct expired; intros [= <-]; by exists A.
  - pose proof (refines_pop _ _ HA) as Hpop.
    destruct (unsynchronized_pop (m_queue m)) as [[r q]|e]; [|done].
    cbn [mbind result_bind]. intros [= <-]. destruct Hpop as (A1 & A2 & p & _ & _ & _ & ?). by eexists.
Qed.

Lemma represented_step m m' : represented m → monitor_step d m m' → represented m'.
Proof.
  intros [A HA]. destruct 1; try (by eapply represented_pop; [exists A|]); try (by exists A).
  - eexists. apply refines_push; [|done]. unfold k_max_priority. destruct p; simpl; lia.
  - eexists. by apply refines_shutdown.
Qed.

(** A pop on a queue that is not empty takes an element; one on an empty queue waits. *)
Lemma wake_ups_pop m i t0 timed expired m' :
  represented m → m_threads m !! i = Some t0 → helps t0 = true → t0 ≠ Notify_all →
  wake_ups m → pop_section m i timed expired = Ok m' → wake_ups m'.
Proof.
  intros HL Hi Ht Hna HW. unfold pop_section, unsynchronized_empty.
  destruct HL as [A HA].
  case_bool_decide as Hsz.
  - intros Hm. right. right. destruct expired; injection Hm as <-; simpl; lia.
  - pose proof (refines_pop _ _ HA) as Hpop. destruct HA as (_ & Hs & _).
    destruct (unsynchronized_pop (m_queue m)) as [[r q]|e]; [|done].
    cbn [mbind result_bind]. intros [= <-]. simpl.
    destruct Hpop as (A1 & A2 & p & -> & _ & _ & (_ & Hs' & _)).
    rewrite length_app in Hs, Hs'. simpl in Hs.
    pose proof (helpers_insert (m_threads m) i t0 Outside Hi) as Hh. rewrite Ht in Hh. simpl in Hh.
    destruct HW as [HW|[HW|HW]]; [left|right; left|right; right]; simpl.
    + by apply nobody_waits_insert.
    + by eapply notify_all_insert.
    + lia.
Qed.

(** A move that leaves the queue alone and does not lose a helper. *)
Lemma wake_ups_move m i t0 t q out :
  m_threads m !! i = Some t0 → t0 ≠ Notify_all → is_waiting t = false →
  m_size q + (if helps t0 then 1 else 0) ≤ m_size (m_queue m) + (if helps t then 1 else 0) →
  wake_ups m → wake_ups (moved m i t q out).
Proof.
  intros Hi Hna Hw Hsz [H|[H|H]]; [left|right; left|right; right]; simpl.
  - by apply nobody_waits_insert.
  - by eapply notify_all_insert.
  - pose proof (helpers_insert _ _ _ t Hi). lia.
Qed.

Lemma wake_ups_step m m' : represented m → wake_ups m → monitor_step d m m' → wake_ups m'.
Proof.
  intros HL HW. destruct 1 as [i c Hi|i r p Hi|i n Hi|i m' Hi Hp|i m' Hi Hp|i timed expired m' Hi Hp
    |i timed Hi|i Hi|i j timed Hi Hj|i Hi Hno|i Hi].
  - eapply wake_ups_move; eauto; simpl; lia.
  - eapply wake_ups_move; eauto. simpl. lia.
  - right. left. simpl. apply list_elem_of_lookup. exists i.
    apply list_lookup_insert_eq. by eapply lookup_lt_Some.
  - by eapply wake_ups_pop.
  - by eapply wake_ups_pop.
  - by eapply wake_ups_pop.
  - eapply wake_ups_move; eauto. simpl. lia.
  - eapply wake_ups_move; eauto. simpl. lia.
  - assert (i ≠ j) by congruence.
    assert (<[j:=Woken timed false]> (m_threads m) !! i = Some Notify_one) as Hi'
      by by rewrite list_lookup_insert_ne.
    pose proof (helpers_insert _ _ _ (Woken timed false) Hj) as H1.
    pose proof (helpers_insert _ _ _ Outside Hi') as H2. simpl in *.
    destruct HW as [H0|[H0|H0]]; [left|right; left|right; right]; simpl.
    + by apply nobody_waits_insert, nobody_waits_insert.
    + eapply notify_all_insert; [done|done|]. by eapply notify_all_insert.
    + lia.
  - left. simpl. by apply nobody_waits_insert.
  - left. simpl. apply nobody_waits_insert; [done|]. apply Forall_fmap, Forall_true. by intros [].
Qed.

Lemma reachable_wake_ups n m : monitor_reachable d n m → represented m ∧ wake_ups m.
Proof.
  unfold monitor_reachable. intros H. cut (represented (monitor_init n) ∧ wake_ups (monitor_init n)).
  - induction H as [m|m m1 m2 Hs Hr IH]; [done|]. intros [? ?]. apply IH.
    split; [by eapply represented_step|by eapply wake_ups_step].
  - split; [exists []; apply refines_init|]. left. by apply Forall_replicate.
Qed.

(** A helper can move. *)
Lemma helper_moves n m i t :
  monitor_reachable d n m → m_threads m !! i = Some t → helps t = true ∨ t = Notify_all →
  ∃ m', monitor_step d m m' ∧ m_threads m' !! i ≠ Some t.
Proof.
  intros Hr Hi Ht. apply reachable_wake_ups in Hr as [HL _].
  pose proof (lookup_lt_Some _ _ _ Hi) as Hlt.
  assert (∀ timed expired, ∃ m' t', pop_section m i timed expired = Ok m' ∧
    m_threads m' = <[i := t']> (m_threads m) ∧ (t' = Outside ∨ t' = Waiting timed)) as Hpop.
  { intros timed expired. unfold pop_section, unsynchronized_empty.
    destruct HL as [A HA]. case_bool_decide as Hsz.
    { destruct expired; (do 2 eexists; split; [done|]; split; [done|]; auto). }
    pose proof (refines_pop _ _ HA) as Hp. destruct (unsynchronized_pop _) as [[r q]|e].
    - do 2 eexists. split; [done|]. split; [done|]. auto.
    - destruct Hp as [-> _]. destruct HA as (_ & ? & _). simpl in *. lia. }
  assert (∀ t', <[i := t']> (m_threads m) !! i = Some t') as Hins by (intros; by apply list_lookup_insert_eq).
  destruct t as [|[r p| | |k]|timed|timed expired| |]; destruct Ht as [Ht|Ht]; try done.
  - destruct (Hpop false false) as (m' & t' & E & Hm & Ho). exists m'. split; [by eapply step_pop|].
    rewrite Hm, Hins. by destruct Ho as [-> | ->].
  - destruct (Hpop true false) as (m' & t' & E & Hm & Ho). exists m'. split; [by eapply step_try_pop|].
    rewrite Hm, Hins. by destruct Ho as [-> | ->].
  - destruct (Hpop timed expired) as (m' & t' & E & Hm & Ho). exists m'. split; [by eapply step_woken|].
    rewrite Hm, Hins. by destruct Ho as [-> | ->].
  - destruct (decide (Forall (λ t, is_waiting t = false) (m_threads m))) as [Hno|Hex].
    + eexists. split; [by apply (step_notify_nobody d m i)|]. simpl. by rewrite Hins.
    + apply not_Forall_Exists, Exists_exists in Hex as (t & Hin & Hwt); [|solve_decision].
      apply list_elem_of_lookup in Hin as [j Hj]. destruct t; try by destruct Hwt.
      eexists. split; [by eapply (step_notify_one d m i j)|]. simpl.
      rewrite list_lookup_insert_eq; [done|]. by rewrite length_insert.
  - eexists. split; [by apply (step_notify_all d m i)|]. simpl.
    rewrite list_lookup_insert_eq; [done|]. by rewrite length_fmap.
Qed.
End threads.

(** ** Histories

    What can be seen of an execution: the calls the threads begin, and the calls that take
    effect, which is when a thread leaves the part of the call that needs the queue. *)

Inductive event (T : Type) :=
| Begin (i : nat) (c : call T)
| Effect (i : nat) (c : call T) (out : list (option T)).
Arguments Begin {T}.
Arguments Effect {T}.

Section history.
Context {T : Type} (d : T).
Implicit Types (m : monitor T) (t : thread_state T) (es : list (event T)) (i : nat).

(** The call a thread is in, which has not taken effect yet; only [try_pop] waits with a
    time limit. *)
Definition in_call t : option (call T) :=
  match t with
  | Calling c => Some c
  | Waiting timed | Woken timed _ => Some (if timed then call_try_pop else call_pop)
  | Outside | Notify_one | Notify_all => None
  end.

(** What a step shows of thread [i], which it takes from [t] to [t'], when [out] has been
    returned. *)
Definition event_of i t t' (out : list (option T)) : option (event T) :=
  match in_call t, in_call t' with
  | None, Some c => Some (Begin i c)
  | Some c, None => Some (Effect i c out)
  | _, _ => None
  end.

Definition events m m' : list (event T) :=
  omap id (imap (λ i tt, event_of i tt.1 tt.2 (drop (length (m_returned m)) (m_returned m')))
    (zip (m_threads m) (m_threads m'))).

(** An execution of [n] threads with its history. *)
Inductive execution (n : nat) : list (event T) → monitor T → Prop :=
| execution_init : execution n [] (monitor_init n)
| execution_step es m m' :
    execution n es m → monitor_step d m m' → execution n (es ++ events m m') m'.

Definition effect_of (e : event T) : option (call T * list (option T)) :=
  match e with Effect _ c out => Some (c, out) | Begin _ _ => None end.

(** The calls of a history in the order in which they take effect, with what they return. *)
Definition effects es : list (call T * list (option T)) := omap effect_of es.

(** The calls thread [i] has begun, and those of them that have taken effect. *)
Definition begun i es : list (call T) :=
  omap (λ e, match e with Begin j c => if decide (j = i) then Some c else None | _ => None end) es.

Definition finished i es : list (call T) :=
  omap (λ e, match e with Effect j c _ => if decide (j = i) then Some c else None | _ => None end) es.

Lemma omap_id_none {B} (l : list (option B)) : Forall (λ x, x = None) l → omap id l = [].
Proof. induction 1 as [|x l -> _ IH]; [done|]. by csimpl. Qed.

Lemma omap_option_list {B C} (f : B → option C) (o : option B) :
  omap f (option_list o) = option_list (o ≫= f).
Proof. destruct o as [x|]; [|done]. csimpl. by destruct (f x). Qed.

Lemma elem_of_insert_inv (ts : list (thread_state T)) i t x : x ∈ <[i := t]> ts → x = t ∨ x ∈ ts.
Proof.
  intros [j Hj]%list_elem_of_lookup. destruct (decide (i = j)) as [<-|Hne].
  - pose proof (lookup_lt_Some _ _ _ Hj) as Hlt. rewrite length_insert in Hlt.
    rewrite list_lookup_insert_eq in Hj by done. left. congruence.
  - rewrite list_lookup_insert_ne in Hj by done. right. by eapply list_elem_of_lookup_2.
Qed.

(** A step of which only thread [i] can be seen. *)
Lemma events_one m m' i t t' :
  length (m_threads m') = length (m_threads m) →
  m_threads m !! i = Some t → m_threads m' !! i = Some t' →
  (∀ j tj tj', j ≠ i → m_threads m !! j = Some tj → m_threads m' !! j = Some tj' →
    in_call tj' = in_call tj) →
  events m m' = option_list (event_of i t t' (drop (length (m_returned m)) (m_returned m'))).
Proof.
  intros Hl Hi Hi' Hj. unfold events.
  set (f := λ i tt, event_of i tt.1 tt.2 (drop (length (m_returned m)) (m_returned m'))).
  set (l := zip (m_threads m) (m_threads m')).
  assert (l !! i = Some (t, t')) as Hz by (by apply lookup_zip_Some).
  assert (∀ j, j ≠ i → imap f l !! j = Some None ∨ imap f l !! j = None) as Hn.
  { intros j Hne. rewrite list_lookup_imap. destruct (l !! j) as [[tj tj']|] eqn:E; [left|by right].
    apply lookup_zip_Some in E as [E1 E2]. simpl. f_equal. unfold f, event_of. simpl.
    rewrite (Hj j tj tj') by done. by destruct (in_call tj). }
  assert (imap f l !! i = Some (f i (t, t'))) as Hfi by (by rewrite list_lookup_imap, Hz).
  rewrite <-(take_drop_middle _ _ _ Hfi), omap_app. csimpl.
  rewrite !omap_id_none.
  - unfold f. simpl. by destruct (event_of i t t' _).
  - apply Forall_lookup. intros k x Hk. rewrite lookup_drop in Hk.
    destruct (Hn (S i + k)) as [E|E]; [lia| |]; congruence.
  - apply Forall_lookup. intros k x Hk. apply lookup_take_Some in Hk as [Hk ?].
    destruct (Hn k) as [E|E]; [lia| |]; congruence.
Qed.

(** The history so far is one of the specification, and explains the state. *)
Record explained es m (A : list (nat * T)) : Prop := {
  x_run : spec_run d [] (effects es) A;
  x_queue : refines (m_queue m) A;
  x_returned : m_returned m = concat (effects es).*2;
  x_calls : ∀ i t, m_threads m !! i = Some t → begun i es = finished i es ++ option_list (in_call t);
  x_expired : Woken false true ∉ m_threads m;
}.

(** A step that shows nothing. *)
Lemma explained_quiet es m m' A :
  length (m_threads m') = length (m_threads m) →
  (∀ j t t', m_threads m !! j = Some t → m_threads m' !! j = Some t' → in_call t' = in_call t) →
  m_queue m' = m_queue m → m_returned m' = m_returned m → Woken false true ∉ m_threads m' →
  explained es m A → explained (es ++ events m m') m' A.
Proof.
  intros Hl Hj Hq Hr Hx H.
  assert (events m m' = []) as ->.
  { apply omap_id_none, Forall_lookup. intros k x. rewrite list_lookup_imap.
    destruct (zip _ _ !! k) as [[t t']|] eqn:E; [|done]. apply lookup_zip_Some in E as [E1 E2].
    simpl. intros [= <-]. unfold event_of. simpl. rewrite (Hj k t t') by done. by destruct (in_call t). }
  rewrite app_nil_r. destruct H as [? ? ? Hc ?]. split; [done|by rewrite Hq|by rewrite Hr| |done].
  intros i t' Hi. destruct (lookup_lt_is_Some_2 (m_threads m) i) as [t Ht].
  { rewrite <-Hl. by eapply lookup_lt_Some. }
  rewrite (Hj i t t') by done. by apply Hc.
Qed.

(** A step of thread [i] alone. *)
Lemma explained_moved es m i t t' q out A A' :
  m_threads m !! i = Some t → t' ≠ Woken false true →
  match in_call t, in_call t' with
  | Some c, None => spec_step d A c out A'
  | Some c, Some c' => c = c' ∧ A' = A ∧ out = []
  | None, _ => A' = A ∧ out = []
  end →
  refines q A' → explained es m A → explained (es ++ events m (moved m i t' q out)) (moved m i t' q out) A'.
Proof.
  intros Hi Hx Hm Hq [Hrun _ Hret Hc He]. pose proof (lookup_lt_Some _ _ _ Hi) as Hlt.
  rewrite (events_one m _ i t t'); simpl; [|by rewrite length_insert|done|by apply list_lookup_insert_eq|].
  2: { intros j tj tj' Hne H1. rewrite list_lookup_insert_ne by done. congruence. }
  rewrite drop_app_length. split; simpl.
  - unfold effects. rewrite omap_app, omap_option_list. fold (effects es). unfold event_of.
    destruct (in_call t) as [c|], (in_call t') as [c'|]; simpl; rewrite ?app_nil_r;
      [by destruct Hm as (_ & -> & _)|by econstructor|by destruct Hm as [-> _]..].
  - done.
  - unfold effects. rewrite omap_app, omap_option_list. fold (effects es).
    rewrite fmap_app, concat_app, Hret. f_equal. unfold event_of.
    destruct (in_call t) as [c|], (in_call t') as [c'|]; simpl; rewrite ?app_nil_r;
      [by destruct Hm as (_ & _ & ->)|done|by destruct Hm as [_ ->]..].
  - intros j tj Hj. unfold begun, finished. rewrite !omap_app, !omap_option_list.
    fold (begun j es) (finished j es). destruct (decide (i = j)) as [<-|Hne].
    + rewrite list_lookup_insert_eq in Hj by done. injection Hj as <-. rewrite (Hc i t Hi).
      unfold event_of. destruct (in_call t) as [c|] eqn:E1, (in_call t') as [c'|] eqn:E2; simpl;
        rewrite ?decide_True by done; simpl; rewrite ?app_nil_r; try done. by destruct Hm as (-> & _).
    + rewrite list_lookup_insert_ne in Hj by done. rewrite (Hc j tj Hj). unfold event_of.
      destruct (in_call t) as [c|] eqn:E1, (in_call t') as [c'|] eqn:E2; simpl;
        rewrite ?decide_False by done; simpl; by rewrite ?app_nil_r.
  - by intros [Heq|Hin]%elem_of_insert_inv.
Qed.

Lemma explained_pop es m i t (timed expired : bool) m' A :
  m_threads m !! i = Some t → in_call t = Some (if timed then call_try_pop else call_pop) →
  (expired = true → timed = true) → pop_section m i timed expired = Ok m' →
  explained es m A → ∃ A', explained (es ++ events m m') m' A'.
Proof.
  intros Hi Ht Hte Hp H. revert Hp. unfold pop_section, unsynchronized_empty.
  pose proof (x_queue _ _ _ H) as HA. destruct HA as (Hqs & Hs & Hf). case_bool_decide as Hsz.
  - destruct expired; intros [= <-]; exists A.
    + rewrite Hte in Ht by done. eapply explained_moved; [done|done| | |done]; [|done].
      rewrite Ht. simpl. assert (A = []) as -> by (apply length_zero_iff_nil; lia). by constructor.
    + eapply explained_moved; [done|done| | |done]; [|done]. by rewrite Ht.
  - pose proof (refines_pop _ _ (x_queue _ _ _ H)) as Hpop.
    destruct (unsynchronized_pop (m_queue m)) as [[r q]|e]; [|done].
    cbn [mbind result_bind]. intros [= <-]. destruct Hpop as (A1 & A2 & p & HA & H1 & H2 & Hr).
    exists (A1 ++ A2). eapply explained_moved; [done|done| |done|done]. rewrite Ht. simpl.
    eapply spec_pop; [destruct timed; auto|done..].
Qed.

Lemma explained_step es m m' A :
  explained es m A → monitor_step d m m' → ∃ A', explained (es ++ events m m') m' A'.
Proof.
  intros H. destruct 1 as [i c Hi|i r p Hi|i n Hi|i m' Hi Hp|i m' Hi Hp|i timed expired m' Hi Hp
    |i timed Hi|i Hi|i j timed Hi Hj|i Hi Hno|i Hi].
  - exists A. eapply explained_moved; [done|done|done|apply H|done].
  - exists (A ++ [(rank (Some p), r)]). eapply explained_moved; [done|done|simpl; constructor| |done].
    destruct p; (apply refines_push; [unfold k_max_priority; simpl; lia|apply H]).
  - exists (A ++ replicate n (rank None, d)).
    eapply explained_moved; [done|done|simpl; constructor| |done]. apply refines_shutdown, H.
  - by eapply (explained_pop es m i _ false false).
  - by eapply (explained_pop es m i _ true false).
  - eapply (explained_pop es m i _ timed expired); [done|done| |done|done]. intros ->. destruct timed; [done|].
    exfalso. apply (x_expired _ _ _ H). by eapply list_elem_of_lookup_2.
  - exists A. eapply explained_moved; [done|done|done|apply H|done].
  - exists A. eapply explained_moved; [done|done|done|apply H|done].
  - exists A. assert (i ≠ j) by congruence.
    apply explained_quiet; simpl; [by rewrite !length_insert| |done|done| |done].
    + intros k t t' Hk. destruct (decide (i = k)) as [<-|].
      { rewrite list_lookup_insert_eq; [|rewrite length_insert; by eapply lookup_lt_Some].
        intros [= <-]. by simplify_eq. }
      rewrite list_lookup_insert_ne by done. destruct (decide (j = k)) as [<-|].
      { rewrite list_lookup_insert_eq by (by eapply lookup_lt_Some). intros [= <-]. by simplify_eq. }
      rewrite list_lookup_insert_ne by done. congruence.
    + intros [?|[?|?]%elem_of_insert_inv]%elem_of_insert_inv; [done..|].
      by apply (x_expired _ _ _ H).
  - exists A. eapply explained_moved; [done|done|done|apply H|done].
  - exists A. apply explained_quiet; simpl; [by rewrite length_insert, length_fmap| |done|done| |done].
    + intros k t t' Hk. destruct (decide (i = k)) as [<-|].
      { rewrite list_lookup_insert_eq by (rewrite length_fmap; by eapply lookup_lt_Some).
        intros [= <-]. by simplify_eq. }
      rewrite list_lookup_insert_ne, list_lookup_fmap, Hk by done. intros [= <-]. by destruct t.
    + intros [?|(t & Ht & Hin)%list_elem_of_fmap]%elem_of_insert_inv; [done|].
      destruct t; try done. simplify_eq/=. by apply (x_expired _ _ _ H).
Qed.

Lemma explained_execution n es m : execution n es m → ∃ A, explained es m A.
Proof.
  induction 1 as [|es m m' _ [A IH] Hs]; [|by eapply explained_step].
  exists []. split; [constructor|apply refines_init|done| |].
  - intros i t Hi. apply lookup_replicate in Hi as [-> _]. done.
  - intros Hin. by apply elem_of_replicate in Hin as [? _].
Qed.

(** Every reachable state has a history. *)
Lemma reachable_execution n m : monitor_reachable d n m ↔ ∃ es, execution n es m.
Proof.
  split.
  - apply (rtc_ind_r (λ m, ∃ es, execution n es m)).
    + exists []. constructor.
    + intros m1 m2 _ Hs [es IH]. eexists. by econstructor.
  - intros [es H]. induction H as [|es m m' _ IH Hs]; [apply rtc_refl|]. by eapply rtc_r.
Qed.
End history.

(** ** Theorems *)

(** C9: In every interleaving of push, pop, try_pop and shutdown, the calls the threads
    made, taken in the order in which their critical sections take effect, are calls on
    one list of entries in order of arrival: a pop returns, and removes, the first entry
    of the highest priority, try_pop returns nothing only when the list is empty, and
    shutdown adds its guards below everything that is pushed. The values returned so far
    are those of these calls, the size is that of the list, and the calls of each thread
    that took effect are, in order, the calls it began, except the one it is still in. *)
Theorem monitor_linearizable {T} (d : T) (n : nat) (es : list (event T)) (m : monitor T) :
  execution d n es m →
  ∃ A, spec_run d [] (effects es) A ∧ m_returned m = concat (effects es).*2 ∧
    size (m_queue m) = length A ∧
    ∀ i t, m_threads m !! i = Some t → begun i es = finished i es ++ option_list (in_call t).
Proof.
  intros [A [Hrun (_ & Hs & _) Hret Hc _]]%explained_execution. by exists A.
Qed.

(** Two threads: one pushes while the other sleeps in [pop]. *)
Definition sample_monitor : monitor nat :=
  {| m_queue := push 7 LOW make_Synchronized_queue;
     m_threads := [Waiting false; Notify_one]; m_returned := [] |}.

Lemma sample_monitor_reachable : monitor_reachable 0 2 sample_monitor.
Proof.
  eapply rtc_l; [by apply (step_call 0 _ 0 call_pop)|].
  eapply rtc_l; [by apply (step_pop 0 _ 0)|].
  eapply rtc_l; [by apply (step_call 0 _ 1 (call_push 7 LOW))|].
  eapply rtc_l; [by apply (step_push 0 _ 1)|]. apply rtc_refl.
Qed.

(** One thread pushes 7 and, with a higher priority, 8; the other one pops them. *)
Definition sample_history : list (event nat) :=
  [Begin 1 call_pop; Begin 0 (call_push 7 LOW); Effect 0 (call_push 7 LOW) [];
   Begin 0 (call_push 8 HIGH); Effect 0 (call_push 8 HIGH) []; Effect 1 call_pop [Some 8];
   Begin 1 call_try_pop; Effect 1 call_try_pop [Some 7]].

Definition sample_final : monitor nat :=
  {| m_queue := make_Synchronized_queue; m_threads := [Notify_one; Outside];
     m_returned := [Some 8; Some 7] |}.

(** The execution with one step more, whose events are computed. *)
Ltac step_by H := eapply (execution_step _ _ _ _ _) in H; [cbv in H|].

Lemma sample_execution : execution 0 2 sample_history sample_final.
Proof.
  pose proof (execution_init 0 2) as H.
  step_by H; [|by apply (step_call 0 _ 1 call_pop)].
  step_by H; [|by apply (step_pop 0 _ 1)].
  step_by H; [|by apply (step_call 0 _ 0 (call_push 7 LOW))].
  step_by H; [|by apply (step_push 0 _ 0 7 LOW)].
  step_by H; [|by apply (step_notify_one 0 _ 0 1 false)].
  step_by H; [|by apply (step_call 0 _ 0 (call_push 8 HIGH))].
  step_by H; [|by apply (step_push 0 _ 0 8 HIGH)].
  step_by H; [|by apply (step_woken 0 _ 1 false false)].
  step_by H; [|by apply (step_call 0 _ 1 call_try_pop)].
  step_by H; [|by apply (step_try_pop 0 _ 1)].
  exact H.
Qed.

Lemma monitor_linearizable_witness :
  ∃ A, spec_run 0 [] (effects sample_history) A ∧
    [Some 8; Some 7] = concat (effects sample_history).*2 ∧
    size (m_queue sample_final) = length A ∧
    ∀ i t, m_threads sample_final !! i = Some t →
      begun i sample_history = finished i sample_history ++ option_list (in_call t).
Proof. apply (monitor_linearizable 0 2 sample_history sample_final). exact sample_execution. Defined.

(** C34: no notification is lost: while a thread sleeps in [pop] or [try_pop] next to a
    queue that is not empty, another thread that is about to look into the queue or to
    notify the sleepers can move, and there are as many of them as elements, or all
    sleepers are about to be notified. *)
Theorem monitor_no_lost_wakeup {T} (d : T) (n : nat) (m : monitor T) (i : nat) (timed : bool) :
  monitor_reachable d n m → m_threads m !! i = Some (Waiting timed) → 0 < size (m_queue m) →
  (Notify_all ∈ m_threads m ∨ size (m_queue m) ≤ helpers (m_threads m)) ∧
  ∃ j t m', m_threads m !! j = Some t ∧ (helps t = true ∨ t = Notify_all) ∧
    monitor_step d m m' ∧ m_threads m' !! j ≠ Some t.
Proof.
  intros Hr Hi Hs. destruct (reachable_wake_ups d n m Hr) as [_ HW].
  assert (Notify_all ∈ m_threads m ∨ size (m_queue m) ≤ helpers (m_threads m)) as Hor.
  { destruct HW as [HW|HW]; [|done]. eapply Forall_lookup_1 in HW; [|done]. done. }
  split; [done|].
  assert (∃ j t, m_threads m !! j = Some t ∧ (helps t = true ∨ t = Notify_all)) as (j & t & Hj & Ht).
  { destruct Hor as [Hin|Hle]; [apply list_elem_of_lookup in Hin as [j ?]; eauto|].
    destruct (sum_list_with_pos (λ t, if helps t then 1 else 0) (m_threads m)) as (j & t & ? & ?);
      [unfold helpers in Hle; lia|]. exists j, t. destruct (helps t); [auto|lia]. }
  destruct (helper_moves d n m j t) as (m' & ? & ?); [done..|]. by exists j, t, m'.
Qed.

Lemma monitor_no_lost_wakeup_witness :
  ∃ j t m', m_threads sample_monitor !! j = Some t ∧ (helps t = true ∨ t = Notify_all) ∧
    monitor_step 0 sample_monitor m' ∧ m_threads m' !! j ≠ Some t.
Proof.
  apply (monitor_no_lost_wakeup 0 2 sample_monitor 0 false);
    [exact sample_monitor_reachable|reflexivity|simpl; lia].
Defined.
