(* ===== verification/ThreadPool.v ===== *)
(** * The thread pool

    Model of [mysqlshdk/libs/utils/thread_pool.{h,cc}] (namespace [shcore]): worker
    threads run the producers of the tasks, the thread in [process()] runs the processors
    on what was produced, and a client adds tasks, says that they are all, or terminates
    the pool.

    Each thread has a program counter, and moves in steps of one access to the shared
    state: a queue operation, a read or write of [m_worker_interrupt] or
    [m_async_state], or the decrement of [m_active_threads].  [Synchronized_queue::pop]
    is enabled while its queue is not empty, which is what [SyncQueueFacts] shows of it.
    A [Producer] is what it returns or throws, a [Processor] a function of the data;
    neither calls the pool. *)
From S2P Require Import Prelude SyncQueue.

Open Scope nat_scope.

Abbreviation Producer := (result str).
Abbreviation Processor := (str → result unit).

(** An empty [std::function] is [None]. *)
Record Task := { produce_data : option Producer; process_data : Processor }.

(** [Task()]. *)
Definition no_task : Task := {| produce_data := None; process_data := λ _, Ok tt |}.

(** The closures of the main thread: the data and the processor they capture. *)
Abbreviation closure := (str * Processor)%type.

Inductive Async_state := IDLE | PRODUCING | PROCESSING | DONE | TERMINATED.

#[global] Instance Async_state_eq_dec : EqDecision Async_state.
Proof. solve_decision. Defined.

(** ** Program counters *)

(** In [emergency_shutdown]: at the test, at the three assignments and pushes. *)
Inductive emergency := E_test | E_interrupt | E_state | E_workers | E_main.

(** A worker is [W_returned] after a [return] or an exception, and [W_finished] after
    [maybe_shutdown_main_thread]. *)
Inductive worker :=
| W_pop
| W_check (task : Task)
| W_produce (produce : Producer) (process : Processor)
| W_push (c : closure)
| W_check_again
| W_exit
| W_state
| W_shutdown_main
| W_emergency (e : emergency)
| W_returned
| W_finished.

(** The thread in [process()]; [M_join] knows the exception thrown after it, if any. *)
Inductive main_thread :=
| M_pop
| M_check (task : option closure)
| M_run (c : closure)
| M_check_again
| M_after
| M_done
| M_emergency (e : emergency) (thrown : exn)
| M_join (thrown : option exn)
| M_rethrow
| M_returned (r : result unit).

Inductive api_call :=
| Add_task (task : Task) (priority : Queue_priority)
| Tasks_done
| Terminate.

(** The client: [C_ready] to make its next call. *)
Inductive client_thread := C_ready | C_emergency (e : emergency).

Record pool := {
  m_active_threads : Z;
  m_worker_exceptions : list (option exn);
  m_worker_interrupt : bool;
  m_all_tasks_pushed : bool;
  m_worker_tasks : Synchronized_queue Task;
  m_main_thread_tasks : Synchronized_queue (option closure);
  m_async_state : Async_state;
  m_workers : list worker;
  main : main_thread;
  client : client_thread;
  script : list api_call;         (* the calls the client has still to make *)
  refused : list exn;             (* what its calls have thrown *)
  processed : list closure;       (* the closures the main thread has called *)
}.

(** ** Updates of one part of the state *)

Definition set_worker (i : nat) (w : worker) (s : pool) : pool :=
  {| m_active_threads := m_active_threads s; m_worker_exceptions := m_worker_exceptions s;
     m_worker_interrupt := m_worker_interrupt s; m_all_tasks_pushed := m_all_tasks_pushed s;
     m_worker_tasks := m_worker_tasks s; m_main_thread_tasks := m_main_thread_tasks s;
     m_async_state := m_async_state s; m_workers := <[i := w]> (m_workers s);
     main := main s; client := client s; script := script s; refused := refused s;
     processed := processed s |}.

Definition set_main (m : main_thread) (called : list closure) (s : pool) : pool :=
  {| m_active_threads := m_active_threads s; m_worker_exceptions := m_worker_exceptions s;
     m_worker_interrupt := m_worker_interrupt s; m_all_tasks_pushed := m_all_tasks_pushed s;
     m_worker_tasks := m_worker_tasks s; m_main_thread_tasks := m_main_thread_tasks s;
     m_async_state := m_async_state s; m_workers := m_workers s;
     main := m; client := client s; script := script s; refused := refused s;
     processed := processed s ++ called |}.

Definition set_client (c : client_thread) (calls : list api_call) (thrown : list exn) (s : pool) : pool :=
  {| m_active_threads := m_active_threads s; m_worker_exceptions := m_worker_exceptions s;
     m_worker_interrupt := m_worker_interrupt s; m_all_tasks_pushed := m_all_tasks_pushed s;
     m_worker_tasks := m_worker_tasks s; m_main_thread_tasks := m_main_thread_tasks s;
     m_async_state := m_async_state s; m_workers := m_workers s;
     main := main s; client := c; script := calls; refused := refused s ++ thrown;
     processed := processed s |}.

Definition set_queues (wq : Synchronized_queue Task) (mq : Synchronized_queue (option closure))
    (s : pool) : pool :=
  {| m_active_threads := m_active_threads s; m_worker_exceptions := m_worker_exceptions s;
     m_worker_interrupt := m_worker_interrupt s; m_all_tasks_pushed := m_all_tasks_pushed s;
     m_worker_tasks := wq; m_main_thread_tasks := mq;
     m_async_state := m_async_state s; m_workers := m_workers s;
     main := main s; client := client s; script := script s; refused := refused s;
     processed := processed s |}.

Definition set_flags (active : Z) (interrupt pushed : bool) (async : Async_state) (s : pool) : pool :=
  {| m_active_threads := active; m_worker_exceptions := m_worker_exceptions s;
     m_worker_interrupt := interrupt; m_all_tasks_pushed := pushed;
     m_worker_tasks := m_worker_tasks s; m_main_thread_tasks := m_main_thread_tasks s;
     m_async_state := async; m_workers := m_workers s;
     main := main s; client := client s; script := script s; refused := refused s;
     processed := processed s |}.

Definition set_exception (i : nat) (e : exn) (s : pool) : pool :=
  {| m_active_threads := m_active_threads s;
     m_worker_exceptions := <[i := Some e]> (m_worker_exceptions s);
     m_worker_interrupt := m_worker_interrupt s; m_all_tasks_pushed := m_all_tasks_pushed s;
     m_worker_tasks := m_worker_tasks s; m_main_thread_tasks := m_main_thread_tasks s;
     m_async_state := m_async_state s; m_workers := m_workers s;
     main := main s; client := client s; script := script s; refused := refused s;
     processed := processed s |}.

(** The queues after a push or shutdown of one of them. *)
Definition with_worker_tasks (f : Synchronized_queue Task → Synchronized_queue Task) (s : pool) : pool :=
  set_queues (f (m_worker_tasks s)) (m_main_thread_tasks s) s.
Definition with_main_tasks (f : Synchronized_queue (option closure) → Synchronized_queue (option closure))
    (s : pool) : pool :=
  set_queues (m_worker_tasks s) (f (m_main_thread_tasks s)) s.
Definition set_interrupt (s : pool) : pool :=
  set_flags (m_active_threads s) true (m_all_tasks_pushed s) (m_async_state s) s.
Definition set_async_state (a : Async_state) (s : pool) : pool :=
  set_flags (m_active_threads s) (m_worker_interrupt s) (m_all_tasks_pushed s) a s.
Definition set_pushed (s : pool) : pool :=
  set_flags (m_active_threads s) (m_worker_interrupt s) true (m_async_state s) s.
Definition set_active (n : Z) (s : pool) : pool :=
  set_flags n (m_worker_interrupt s) (m_all_tasks_pushed s) (m_async_state s) s.

(** ** Steps *)

Definition shutdown_main_thread (s : pool) : pool := with_main_tasks (shutdown None 1) s.

(** The next step of [emergency_shutdown]; [None] when it returns. *)
Definition emergency_shutdown (threads : nat) (e : emergency) (s : pool) : pool * option emergency :=
  match e with
  | E_test => (s, if m_worker_interrupt s then None else Some E_interrupt)
  | E_interrupt => (set_interrupt s, Some E_state)
  | E_state => (set_async_state TERMINATED s, Some E_workers)
  | E_workers => (with_worker_tasks (shutdown no_task threads) s, Some E_main)
  | E_main => (shutdown_main_thread s, None)
  end.

(** One step of worker [id]; [None] when it is blocked or has ended. *)
Definition worker_step (threads id : nat) (w : worker) (s : pool) : option pool :=
  match w with
  | W_pop =>
      match unsynchronized_pop (m_worker_tasks s) with
      | Ok (task, q) => Some (set_worker id (W_check task) (set_queues q (m_main_thread_tasks s) s))
      | Throw _ => None
      end
  | W_check task =>
      Some (set_worker id
        (if m_worker_interrupt s then W_returned
         else match produce_data task with
              | None => W_exit
              | Some produce => W_produce produce (process_data task)
              end) s)
  | W_produce produce process =>
      match produce with
      | Ok data => Some (set_worker id (W_push (data, process)) s)
      | Throw e => Some (set_worker id (W_emergency E_test) (set_exception id e s))
      end
  | W_push c => Some (set_worker id W_check_again (with_main_tasks (push (Some c) MEDIUM) s))
  | W_check_again =>
      Some (set_worker id (if m_worker_interrupt s then W_returned else W_pop) s)
  | W_exit =>
      let n := u64 (m_active_threads s - 1) in
      Some (set_worker id (if (n =? 0)%Z then W_state else W_finished) (set_active n s))
  | W_state => Some (set_worker id W_shutdown_main (set_async_state PROCESSING s))
  | W_shutdown_main => Some (set_worker id W_finished (shutdown_main_thread s))
  | W_emergency e =>
      let '(s, next) := emergency_shutdown threads e s in
      Some (set_worker id (match next with Some e => W_emergency e | None => W_returned end) s)
  | W_returned | W_finished => None
  end.

Definition joinable (w : worker) : bool :=
  match w with W_returned | W_finished => true | _ => false end.

(** The first exception of the workers. *)
Definition rethrow (s : pool) : result unit :=
  match list_find is_Some (m_worker_exceptions s) with
  | Some (_, Some e) => Throw e
  | _ => Ok tt
  end.

(** One step of [process()]. *)
Definition process_step (threads : nat) (s : pool) : option pool :=
  match main s with
  | M_pop =>
      match unsynchronized_pop (m_main_thread_tasks s) with
      | Ok (task, q) => Some (set_main (M_check task) [] (set_queues (m_worker_tasks s) q s))
      | Throw _ => None
      end
  | M_check task =>
      Some (set_main
        (if m_worker_interrupt s then M_after
         else match task with None => M_after | Some c => M_run c end) [] s)
  | M_run c =>
      Some (set_main (match c.2 c.1 with Ok _ => M_check_again | Throw e => M_emergency E_test e end) [c] s)
  | M_check_again => Some (set_main (if m_worker_interrupt s then M_after else M_pop) [] s)
  | M_after => Some (set_main (if m_worker_interrupt s then M_join None else M_done) [] s)
  | M_done => Some (set_main (M_join None) [] (set_async_state DONE s))
  | M_emergency e thrown =>
      let '(s, next) := emergency_shutdown threads e s in
      Some (set_main (match next with Some e => M_emergency e thrown | None => M_join (Some thrown) end) [] s)
  | M_join thrown =>
      if forallb joinable (m_workers s)
      then Some (set_main (match thrown with Some e => M_returned (Throw e) | None => M_rethrow end) [] s)
      else None
  | M_rethrow => Some (set_main (M_returned (rethrow s)) [] s)
  | M_returned _ => None
  end.

(** One step of the client, which alone uses [m_all_tasks_pushed]. *)
Definition client_step (threads : nat) (s : pool) : option pool :=
  match client s with
  | C_emergency e =>
      let '(s, next) := emergency_shutdown threads e s in
      Some (set_client (match next with Some e => C_emergency e | None => C_ready end) (script s) [] s)
  | C_ready =>
      match script s with
      | [] => None
      | Add_task task priority :: calls =>
          if m_all_tasks_pushed s
          then Some (set_client C_ready calls
                 [logic_error "Cannot add a task after the worker queue has been shut down"] s)
          else Some (set_client C_ready calls [] (with_worker_tasks (push task priority) s))
      | Tasks_done :: calls =>
          if m_all_tasks_pushed s
          then Some (set_client C_ready calls [logic_error "Worker queue is already shut down"] s)
          else Some (set_client C_ready calls []
                 (with_worker_tasks (shutdown no_task threads) (set_pushed s)))
      | Terminate :: calls => Some (set_client (C_emergency E_test) calls [] s)
      end
  end.

Inductive tid := T_worker (id : nat) | T_main | T_client.

(** The step of one thread. *)
Definition thread_step (threads : nat) (t : tid) (s : pool) : option pool :=
  match t with
  | T_worker id => w ← m_workers s !! id; worker_step threads id w s
  | T_main => process_step threads s
  | T_client => client_step threads s
  end.

Definition pool_step (threads : nat) (s s' : pool) : Prop :=
  ∃ t, thread_step threads t s = Some s'.

(** The pool when its threads have been started. *)
Definition make_Thread_pool (threads : nat) (calls : list api_call) : pool :=
  {| m_active_threads := Z.of_nat threads; m_worker_exceptions := replicate threads None;
     m_worker_interrupt := false; m_all_tasks_pushed := false;
     m_worker_tasks := make_Synchronized_queue; m_main_thread_tasks := make_Synchronized_queue;
     m_async_state := IDLE; m_workers := replicate threads W_pop;
     main := M_pop; client := C_ready; script := calls; refused := []; processed := [] |}.

Definition pool_reachable (threads : nat) (calls : list api_call) (s : pool) : Prop :=
  rtc (pool_step threads) (make_Thread_pool threads calls) s.

(** Runs a schedule; threads that cannot move are skipped. *)
Fixpoint run_schedule (threads : nat) (ts : list tid) (s : pool) : pool :=
  match ts with
  | [] => s
  | t :: ts => run_schedule threads ts (default s (thread_step threads t s))
  end.
