(* ===== verification/ThreadPoolFacts.v ===== *)
(** * The thread pool: facts

    The invariant of the pool, by rule induction on its steps: how many threads are where,
    how many markers (default tasks) the queues hold, and which closures are still under
    way.  It gives termination without deadlock, completeness of the processing, and the
    propagation of exceptions. *)
From S2P Require Import Prelude SyncQueue SyncQueueFacts ThreadPool.

Open Scope nat_scope.

(** ** Where the threads are *)

Definition looping (w : worker) : bool :=
  match w with
  | W_pop | W_produce _ _ | W_push _ | W_check_again => true
  | W_check t => bool_decide (is_Some (produce_data t))
  | _ => false
  end.

(** Has not decremented [m_active_threads]. *)
Definition undecided (w : worker) : bool :=
  match w with W_state | W_shutdown_main | W_finished => false | _ => true end.

Definition exiting (w : worker) : bool :=
  match w with W_state | W_shutdown_main => true | _ => false end.

Definition returned (w : worker) : bool := match w with W_returned => true | _ => false end.

(** Has taken a marker from the queue. *)
Definition saw_marker (w : worker) : bool :=
  match w with
  | W_check t => negb (bool_decide (is_Some (produce_data t)))
  | W_exit | W_state | W_shutdown_main | W_finished => true
  | _ => false
  end.

Definition in_emergency (P : emergency → bool) (w : worker) : bool :=
  match w with W_emergency e => P e | _ => false end.

(** Before the push of the markers for the workers, or for the main thread. *)
Definition before_workers (e : emergency) : bool :=
  match e with E_state | E_workers => true | _ => false end.
Definition before_main (e : emergency) : bool :=
  match e with E_state | E_workers | E_main => true | _ => false end.
Definition starting (e : emergency) : bool :=
  match e with E_test | E_interrupt => true | _ => false end.

Definition main_looping (m : main_thread) : bool :=
  match m with M_pop | M_check (Some _) | M_run _ | M_check_again => true | _ => false end.
Definition main_saw_marker (m : main_thread) : bool :=
  match m with
  | M_check None | M_after | M_done | M_join None | M_rethrow | M_returned _ => true
  | _ => false
  end.
Definition main_in_emergency (P : emergency → bool) (m : main_thread) : bool :=
  match m with M_emergency e _ => P e | _ => false end.
Definition main_killed (m : main_thread) : bool :=
  match m with M_join (Some _) => true | _ => false end.
Definition main_joined (m : main_thread) : bool :=
  match m with M_rethrow | M_returned _ => true | _ => false end.
Definition client_in_emergency (P : emergency → bool) (c : client_thread) : bool :=
  match c with C_emergency e => P e | _ => false end.

(** The number of workers in states [P], and of threads in an emergency shutdown. *)
Definition count (P : worker → bool) (ws : list worker) : nat := sum_list_with (λ w, Nat.b2n (P w)) ws.
Definition emergencies (P : emergency → bool) (s : pool) : nat :=
  count (in_emergency P) (m_workers s) + Nat.b2n (main_in_emergency P (main s)) +
  Nat.b2n (client_in_emergency P (client s)).

(** Entries of a queue with priority 0, and the others. *)
Definition markers {T} (A : list (nat * T)) : nat := sum_list_with (λ e, if decide (e.1 = 0) then 1 else 0) A.
Definition reals {T} (A : list (nat * T)) : nat := sum_list_with (λ e, if decide (e.1 = 0) then 0 else 1) A.

Definition is_end (c : api_call) : bool := match c with Add_task _ _ => false | _ => true end.
Definition real_call (c : api_call) : Prop :=
  match c with Add_task t _ => is_Some (produce_data t) | _ => True end.

(** ** The invariant *)

Record pool_inv (threads : nat) (s : pool) (WA : list (nat * Task)) (MA : list (nat * option closure)) : Prop := {
  i_threads : 0 < threads ∧ (Z.of_nat threads < 2 ^ 64)%Z;
  i_workers : length (m_workers s) = threads;
  i_exceptions : length (m_worker_exceptions s) = threads;
  i_wq : refines (m_worker_tasks s) WA;
  i_mq : refines (m_main_thread_tasks s) MA;
  i_wa : Forall (λ e, e.1 = 0 ↔ produce_data e.2 = None) WA;
  i_ma : Forall (λ e, e.1 = 0 ↔ e.2 = None) MA;
  i_script : Forall real_call (script s);
  i_active : m_active_threads s = Z.of_nat (count undecided (m_workers s));
  i_returned : 0 < count returned (m_workers s) → Nat.b2n (m_worker_interrupt s) = 1;
  i_pending : 0 < emergencies before_main s → Nat.b2n (m_worker_interrupt s) = 1;
  i_killed : Nat.b2n (main_killed (main s)) = 1 → Nat.b2n (m_worker_interrupt s) = 1;
  i_exit : 0 < count exiting (m_workers s) → count undecided (m_workers s) = 0;
  i_pushed : Nat.b2n (m_all_tasks_pushed s) = 1 → count looping (m_workers s) ≤ markers WA;
  i_int_w : Nat.b2n (m_worker_interrupt s) = 1 →
    0 < emergencies before_workers s ∨ count looping (m_workers s) ≤ markers WA;
  i_int_m : Nat.b2n (m_worker_interrupt s) = 1 →
    0 < emergencies before_main s ∨ Nat.b2n (main_looping (main s)) = 0 ∨ 0 < markers MA;
  i_zero : count undecided (m_workers s) = 0 →
    0 < count exiting (m_workers s) ∨ Nat.b2n (main_looping (main s)) = 0 ∨ 0 < markers MA;
  i_marker : Nat.b2n (m_worker_interrupt s) = 0 →
    0 < markers WA + count saw_marker (m_workers s) → Nat.b2n (m_all_tasks_pushed s) = 1;
  i_drained : Nat.b2n (m_worker_interrupt s) = 0 → 0 < count saw_marker (m_workers s) → reals WA = 0;
  i_saw : Nat.b2n (m_worker_interrupt s) = 0 →
    0 < markers MA + Nat.b2n (main_saw_marker (main s)) → count undecided (m_workers s) = 0;
  i_done : Nat.b2n (m_worker_interrupt s) = 0 → Nat.b2n (main_saw_marker (main s)) = 1 → reals MA = 0;
}.

(** ** Counting *)

Lemma count_insert P ws i w w' :
  ws !! i = Some w → count P (<[i := w']> ws) + Nat.b2n (P w) = count P ws + Nat.b2n (P w').
Proof. intros H. by apply (sum_list_with_insert (λ w, Nat.b2n (P w))). Qed.

Lemma count_pos P ws i w : ws !! i = Some w → P w = true → 0 < count P ws.
Proof.
  intros Hi HP. revert i Hi. induction ws as [|v ws IH]; intros [|i] Hi; simplify_eq/=; unfold count in *; simpl.
  - rewrite HP. simpl. lia.
  - specialize (IH i Hi). lia.
Qed.

Lemma count_zero P ws : count P ws = 0 → Forall (λ w, P w = false) ws.
Proof.
  intros H. apply Forall_lookup. intros i w Hi. destruct (P w) eqn:E; [|done].
  pose proof (count_pos P ws i w Hi E). lia.
Qed.

Lemma count_Exists P ws : 0 < count P ws → ∃ i w, ws !! i = Some w ∧ P w = true.
Proof.
  intros (i & w & ? & Hw)%sum_list_with_pos. exists i, w. destruct (P w); [done|simpl in Hw; lia].
Qed.

Section entries.
Context {T : Type}.
Implicit Types A : list (nat * T).

Lemma markers_app A1 A2 : markers (A1 ++ A2) = markers A1 + markers A2.
Proof. apply sum_list_with_app. Qed.
Lemma reals_app A1 A2 : reals (A1 ++ A2) = reals A1 + reals A2.
Proof. apply sum_list_with_app. Qed.

Lemma entries_replicate n (x : T) :
  markers (replicate n (k_shutdown_priority, x)) = n ∧
  reals (replicate n (k_shutdown_priority, x)) = 0.
Proof. induction n as [|n [? ?]]; [done|]. unfold markers, reals in *. simpl. lia. Qed.

Lemma reals_zero A : reals A = 0 → Forall (λ e, e.1 = 0) A.
Proof.
  induction A as [|e A IH]; [constructor|]. unfold reals in *. simpl. case_decide; [|lia].
  intros. constructor; auto.
Qed.

Lemma low_reals A : Forall (λ e, e.1 ≤ 0) A → reals A = 0.
Proof. induction 1 as [|e A ? ? IH]; [done|]. unfold reals in *. simpl. case_decide; lia. Qed.

(** What a pop does to the entries; a marker is taken only from a queue of markers. *)
Lemma pop_entries (q : Synchronized_queue T) A (P : nat * T → Prop) :
  refines q A → Forall P A →
  match unsynchronized_pop q with
  | Ok (r, q') => ∃ A' p, refines q' A' ∧ Forall P A' ∧ P (p, r) ∧ A ≡ₚ (p, r) :: A' ∧
      markers A = markers A' + (if decide (p = 0) then 1 else 0) ∧
      reals A = reals A' + (if decide (p = 0) then 0 else 1) ∧ (p = 0 → reals A' = 0)
  | Throw _ => A = []
  end.
Proof.
  intros HA HP. pose proof (refines_pop q A HA) as H.
  destruct (unsynchronized_pop q) as [[r q']|e]; [|by destruct H].
  destruct H as (A1 & A2 & p & -> & H1 & H2 & Hr). exists (A1 ++ A2), p.
  apply Forall_app in HP as [? [? ?]%Forall_cons].
  rewrite !markers_app, !reals_app. unfold markers, reals. simpl.
  split_and!; [done|by apply Forall_app|done|by rewrite <- Permutation_middle|lia|case_decide; lia|].
  intros ->. enough (reals A1 = 0 ∧ reals A2 = 0) as [? ?] by (unfold reals in *; lia).
  split; apply low_reals; [|done]. eapply Forall_impl; [done|]. simpl. lia.
Qed.
End entries.

Lemma count_le P ws : count P ws ≤ length ws.
Proof. induction ws as [|w ws IH]; unfold count in *; simpl; [done|]. destruct (P w); simpl; lia. Qed.

(** ** Preservation *)

(** The equations for the counts when worker [id] moves to [w']. *)
Ltac counts Hid w' :=
  pose proof (count_insert looping _ _ _ w' Hid);
  pose proof (count_insert undecided _ _ _ w' Hid);
  pose proof (count_insert exiting _ _ _ w' Hid);
  pose proof (count_insert returned _ _ _ w' Hid);
  pose proof (count_insert saw_marker _ _ _ w' Hid);
  pose proof (count_insert (in_emergency before_workers) _ _ _ w' Hid);
  pose proof (count_insert (in_emergency before_main) _ _ _ w' Hid).

(** Proves a field of the new invariant from the same field [p] of the old one. *)
Ltac by_field H p :=
  first
    [ assumption
    | exact (p _ _ _ _ H)
    | solve [let K := fresh in
      pose proof (p _ _ _ _ H) as K; unfold emergencies in *; simpl in *; rewrite ?length_insert;
      repeat match goal with
      | E : main _ = _ |- _ => progress rewrite E in *
      | E : client _ = _ |- _ => progress rewrite E in *
      end; simpl in *; lia]
    | idtac ].

Ltac by_fields H :=
  constructor; simpl;
  [ by_field H i_threads
  | by_field H i_workers
  | by_field H i_exceptions
  | by_field H i_wq
  | by_field H i_mq
  | by_field H i_wa
  | by_field H i_ma
  | by_field H i_script
  | by_field H i_active
  | by_field H i_returned
  | by_field H i_pending
  | by_field H i_killed
  | by_field H i_exit
  | by_field H i_pushed
  | by_field H i_int_w
  | by_field H i_int_m
  | by_field H i_zero
  | by_field H i_marker
  | by_field H i_drained
  | by_field H i_saw
  | by_field H i_done ].

Section preservation.
Context (threads : nat).
Implicit Types (s : pool) (WA : list (nat * Task)) (MA : list (nat * option closure)).

Lemma inv_worker_pop s id WA MA :
  pool_inv threads s WA MA → m_workers s !! id = Some W_pop →
  ∀ s', worker_step threads id W_pop s = Some s' → ∃ WA', pool_inv threads s' WA' MA.
Proof.
  intros H Hid s' Hs. simpl in Hs.
  pose proof (pop_entries _ _ _ (i_wq _ _ _ _ H) (i_wa _ _ _ _ H)) as Hp.
  destruct (unsynchronized_pop (m_worker_tasks s)) as [[task q]|]; [|done]. injection Hs as <-.
  destruct Hp as (WA' & p & Hr & HP & Ht & _ & Hm & Hre & Hz). simpl in Ht.
  exists WA'. counts Hid (W_check task). simpl in *.
  destruct (produce_data task) as [pr|] eqn:E; simpl in *.
  - assert (p ≠ 0) by (intros ->; discriminate (proj1 Ht eq_refl)).
    rewrite decide_False in Hm, Hre by done.
    by_fields H.
  - assert (p = 0) as -> by by apply Ht. rewrite decide_True in Hm, Hre by done.
    specialize (Hz eq_refl). by_fields H.
Qed.

Lemma inv_worker_push s id c WA MA :
  pool_inv threads s WA MA → m_workers s !! id = Some (W_push c) →
  pool_inv threads (set_worker id W_check_again (with_main_tasks (push (Some c) MEDIUM) s)) WA
    (MA ++ [(map_priority MEDIUM, Some c)]).
Proof.
  intros H Hid. counts Hid W_check_again.
  pose proof (markers_app MA [(map_priority MEDIUM, Some c)]) as Hm.
  pose proof (reals_app MA [(map_priority MEDIUM, Some c)]) as Hre.
  change (markers [(map_priority MEDIUM, Some c)]) with 0 in Hm.
  change (reals [(map_priority MEDIUM, Some c)]) with 1 in Hre.
  pose proof (count_pos undecided _ _ _ Hid eq_refl).
  by_fields H.
  - apply refines_push; [unfold k_max_priority; simpl; lia|apply H].
  - apply Forall_app. split; [apply H|]. by apply Forall_singleton.
  - pose proof (i_saw _ _ _ _ H). simpl in *. lia.
Qed.

(** A marker for the main thread. *)
Lemma main_marker s MA :
  refines (m_main_thread_tasks s) MA → Forall (λ e, e.1 = 0 ↔ e.2 = None) MA →
  let MA' := MA ++ replicate 1 (k_shutdown_priority, None) in
  refines (m_main_thread_tasks (shutdown_main_thread s)) MA' ∧
  Forall (λ e, e.1 = 0 ↔ e.2 = None) MA' ∧ markers MA' = markers MA + 1 ∧ reals MA' = reals MA.
Proof.
  intros Hr Hf MA'. split_and!.
  - by apply (refines_shutdown None 1).
  - apply Forall_app. split; [done|]. by apply Forall_singleton.
  - unfold MA'. by rewrite markers_app.
  - unfold MA'. rewrite reals_app. simpl. lia.
Qed.

(** Markers for the workers. *)
Lemma worker_markers s WA :
  refines (m_worker_tasks s) WA → Forall (λ e, e.1 = 0 ↔ produce_data e.2 = None) WA →
  let WA' := WA ++ replicate threads (k_shutdown_priority, no_task) in
  refines (shutdown no_task threads (m_worker_tasks s)) WA' ∧
  Forall (λ e, e.1 = 0 ↔ produce_data e.2 = None) WA' ∧
  markers WA' = markers WA + threads ∧ reals WA' = reals WA.
Proof.
  intros Hr Hf WA'. destruct (entries_replicate threads no_task) as [E1 E2]. split_and!.
  - by apply refines_shutdown.
  - apply Forall_app. split; [done|]. by apply Forall_replicate.
  - unfold WA'. by rewrite markers_app, E1.
  - unfold WA'. rewrite reals_app, E2. lia.
Qed.

Lemma inv_worker_shutdown_main s id WA MA :
  pool_inv threads s WA MA → m_workers s !! id = Some W_shutdown_main →
  pool_inv threads (set_worker id W_finished (shutdown_main_thread s)) WA
    (MA ++ replicate 1 (k_shutdown_priority, None)).
Proof.
  intros H Hid. counts Hid W_finished.
  destruct (main_marker s MA (i_mq _ _ _ _ H) (i_ma _ _ _ _ H)) as (? & ? & Hm & Hre).
  pose proof (count_pos exiting _ _ _ Hid eq_refl). pose proof (i_exit _ _ _ _ H). by_fields H.
Qed.

Lemma inv_worker_exit s id WA MA :
  pool_inv threads s WA MA → m_workers s !! id = Some W_exit →
  let n := u64 (m_active_threads s - 1) in
  pool_inv threads (set_worker id (if (n =? 0)%Z then W_state else W_finished) (set_active n s)) WA MA.
Proof.
  intros H Hid n.
  pose proof (count_pos undecided _ _ _ Hid eq_refl). pose proof (count_le undecided (m_workers s)).
  pose proof (count_pos saw_marker _ _ _ Hid eq_refl).
  pose proof (i_active _ _ _ _ H). pose proof (i_threads _ _ _ _ H). pose proof (i_workers _ _ _ _ H).
  assert (n = (m_active_threads s - 1)%Z) as -> by (apply u64_small; lia).
  destruct (Z.eqb_spec (m_active_threads s - 1) 0).
  - counts Hid W_state. by_fields H.
  - counts Hid W_finished. by_fields H.
Qed.

Lemma inv_worker_emergency s id e WA MA :
  pool_inv threads s WA MA → m_workers s !! id = Some (W_emergency e) →
  ∀ s', worker_step threads id (W_emergency e) s = Some s' → ∃ WA' MA', pool_inv threads s' WA' MA'.
Proof.
  intros H Hid s' Hs.
  destruct (main_marker s MA (i_mq _ _ _ _ H) (i_ma _ _ _ _ H)) as (? & ? & Hm & Hre).
  destruct (worker_markers s WA (i_wq _ _ _ _ H) (i_wa _ _ _ _ H)) as (? & ? & Hwm & Hwre).
  pose proof (count_le looping (m_workers s)).
  destruct e; simpl in Hs.
  - injection Hs as <-. exists WA, MA. destruct (m_worker_interrupt s) eqn:Hi.
    + assert (Nat.b2n (m_worker_interrupt s) = 1) by by rewrite Hi. counts Hid W_returned. by_fields H.
    + counts Hid (W_emergency E_interrupt). by_fields H.
  - injection Hs as <-. exists WA, MA. counts Hid (W_emergency E_state). by_fields H.
  - injection Hs as <-. exists WA, MA. counts Hid (W_emergency E_workers). by_fields H.
  - injection Hs as <-. exists (WA ++ replicate threads (k_shutdown_priority, no_task)), MA.
    counts Hid (W_emergency E_main).
    pose proof (count_pos (in_emergency before_main) _ _ _ Hid eq_refl).
    pose proof (i_pending _ _ _ _ H). pose proof (i_workers _ _ _ _ H). by_fields H.
  - injection Hs as <-. exists WA, (MA ++ replicate 1 (k_shutdown_priority, None)).
    counts Hid W_returned. pose proof (count_pos (in_emergency before_main) _ _ _ Hid eq_refl).
    pose proof (i_pending _ _ _ _ H). by_fields H.
Qed.

Lemma inv_worker_step s id w s' WA MA :
  pool_inv threads s WA MA → m_workers s !! id = Some w → worker_step threads id w s = Some s' →
  ∃ WA' MA', pool_inv threads s' WA' MA'.
Proof.
  intros H Hid Hs. destruct w as [|task|pr pp|c| | | | |e| |]; try discriminate Hs.
  - destruct (inv_worker_pop s id WA MA H Hid s' Hs) as [WA' ?]. by exists WA', MA.
  - injection Hs as <-. exists WA, MA. destruct (m_worker_interrupt s) eqn:Hi.
    + assert (Nat.b2n (m_worker_interrupt s) = 1) by by rewrite Hi. counts Hid W_returned.
      destruct (produce_data task) eqn:E; simpl in *; rewrite E in *; simpl in *; by_fields H.
    + destruct (produce_data task) as [pr|] eqn:E.
      * counts Hid (W_produce pr (process_data task)). simpl in *. rewrite E in *. simpl in *. by_fields H.
      * counts Hid W_exit. simpl in *. rewrite E in *. simpl in *. by_fields H.
  - destruct pr as [data|e]; injection Hs as <-; exists WA, MA.
    + counts Hid (W_push (data, pp)). by_fields H.
    + counts Hid (W_emergency E_test). by_fields H.
  - injection Hs as <-. do 2 eexists. by apply inv_worker_push.
  - injection Hs as <-. exists WA, MA. destruct (m_worker_interrupt s) eqn:Hi.
    + assert (Nat.b2n (m_worker_interrupt s) = 1) by by rewrite Hi. counts Hid W_returned. by_fields H.
    + counts Hid W_pop. by_fields H.
  - injection Hs as <-. do 2 eexists. by apply inv_worker_exit.
  - injection Hs as <-. exists WA, MA. counts Hid W_shutdown_main. by_fields H.
  - injection Hs as <-. do 2 eexists. by apply inv_worker_shutdown_main.
  - by eapply inv_worker_emergency.
Qed.

Lemma inv_main_pop s s' WA MA :
  pool_inv threads s WA MA → main s = M_pop → process_step threads s = Some s' →
  ∃ MA', pool_inv threads s' WA MA'.
Proof.
  intros H Em Hs. unfold process_step in Hs. rewrite Em in Hs.
  pose proof (pop_entries _ _ _ (i_mq _ _ _ _ H) (i_ma _ _ _ _ H)) as Hp.
  destruct (unsynchronized_pop (m_main_thread_tasks s)) as [[task q]|]; [|done]. injection Hs as <-.
  destruct Hp as (MA' & p & Hr & HP & Ht & _ & Hm & Hre & Hz). simpl in Ht. exists MA'.
  destruct task as [c|].
  - assert (p ≠ 0) by (intros ->; discriminate (proj1 Ht eq_refl)).
    rewrite decide_False in Hm, Hre by done. by_fields H.
  - assert (p = 0) as -> by by apply Ht. rewrite decide_True in Hm, Hre by done.
    specialize (Hz eq_refl). by_fields H.
Qed.

Lemma inv_main_emergency s s' e x WA MA :
  pool_inv threads s WA MA → main s = M_emergency e x →
  (let '(s, next) := emergency_shutdown threads e s in
   Some (set_main (match next with Some e => M_emergency e x | None => M_join (Some x) end) [] s)) = Some s' →
  ∃ WA' MA', pool_inv threads s' WA' MA'.
Proof.
  intros H Em Hs. pose proof (count_le looping (m_workers s)).
  destruct (main_marker s MA (i_mq _ _ _ _ H) (i_ma _ _ _ _ H)) as (? & ? & Hm & Hre).
  destruct (worker_markers s WA (i_wq _ _ _ _ H) (i_wa _ _ _ _ H)) as (? & ? & Hwm & Hwre).
  destruct e; injection Hs as <-.
  - exists WA, MA. destruct (m_worker_interrupt s) eqn:Hi; [|by_fields H].
    assert (Nat.b2n (m_worker_interrupt s) = 1) by by rewrite Hi. by_fields H.
  - exists WA, MA. by_fields H.
  - exists WA, MA. by_fields H.
  - exists (WA ++ replicate threads (k_shutdown_priority, no_task)), MA.
    pose proof (i_pending _ _ _ _ H). pose proof (i_workers _ _ _ _ H). by_fields H.
  - exists WA, (MA ++ replicate 1 (k_shutdown_priority, None)).
    pose proof (i_pending _ _ _ _ H). by_fields H.
Qed.

Lemma inv_client_emergency s s' e WA MA :
  pool_inv threads s WA MA → client s = C_emergency e →
  (let '(s, next) := emergency_shutdown threads e s in
   Some (set_client (match next with Some e => C_emergency e | None => C_ready end) (script s) [] s)) = Some s' →
  ∃ WA' MA', pool_inv threads s' WA' MA'.
Proof.
  intros H Em Hs. pose proof (count_le looping (m_workers s)).
  destruct (main_marker s MA (i_mq _ _ _ _ H) (i_ma _ _ _ _ H)) as (? & ? & Hm & Hre).
  destruct (worker_markers s WA (i_wq _ _ _ _ H) (i_wa _ _ _ _ H)) as (? & ? & Hwm & Hwre).
  destruct e; injection Hs as <-.
  - exists WA, MA. destruct (m_worker_interrupt s) eqn:Hi; by_fields H.
  - exists WA, MA. by_fields H.
  - exists WA, MA. by_fields H.
  - exists (WA ++ replicate threads (k_shutdown_priority, no_task)), MA.
    pose proof (i_pending _ _ _ _ H). pose proof (i_workers _ _ _ _ H). by_fields H.
  - exists WA, (MA ++ replicate 1 (k_shutdown_priority, None)).
    pose proof (i_pending _ _ _ _ H). by_fields H.
Qed.

Lemma inv_client_step s s' WA MA :
  pool_inv threads s WA MA → client_step threads s = Some s' → ∃ WA' MA', pool_inv threads s' WA' MA'.
Proof.
  intros H Hs. unfold client_step in Hs. destruct (client s) as [|e] eqn:Ec.
  2: by eapply inv_client_emergency.
  pose proof (i_script _ _ _ _ H) as Hsc.
  destruct (script s) as [|c calls] eqn:Esc; [done|]. apply Forall_cons in Hsc as [Hc Hcalls].
  destruct c as [task p| |].
  - destruct (m_all_tasks_pushed s) eqn:Ep; injection Hs as <-; [exists WA, MA; by_fields H|].
    exists (WA ++ [(map_priority p, task)]), MA.
    assert (Nat.b2n (m_all_tasks_pushed s) = 0) by by rewrite Ep.
    pose proof (markers_app WA [(map_priority p, task)]) as Hm.
    pose proof (reals_app WA [(map_priority p, task)]) as Hre.
    assert (markers [(map_priority p, task)] = 0) as E1 by by destruct p.
    assert (reals [(map_priority p, task)] = 1) as E2 by by destruct p.
    pose proof (i_marker _ _ _ _ H). by_fields H.
    + apply refines_push; [|apply H]. unfold k_max_priority. destruct p; simpl; lia.
    + apply Forall_app. split; [apply H|]. apply Forall_singleton. simpl in *.
      destruct Hc as [? ->]. by destruct p.
  - pose proof (count_le looping (m_workers s)). pose proof (i_workers _ _ _ _ H).
    destruct (worker_markers s WA (i_wq _ _ _ _ H) (i_wa _ _ _ _ H)) as (? & ? & Hwm & Hwre).
    destruct (m_all_tasks_pushed s) eqn:Ep; injection Hs as <-; [exists WA, MA; by_fields H|].
    exists (WA ++ replicate threads (k_shutdown_priority, no_task)), MA. by_fields H.
  - injection Hs as <-. exists WA, MA. by_fields H.
Qed.

Lemma inv_main_step s s' WA MA :
  pool_inv threads s WA MA → process_step threads s = Some s' → ∃ WA' MA', pool_inv threads s' WA' MA'.
Proof.
  intros H Hs. destruct (main s) as [|task|c| | | |e x|o| |r] eqn:Em.
  { destruct (inv_main_pop s s' WA MA H Em Hs) as [MA' ?]. by exists WA, MA'. }
  all: unfold process_step in Hs; rewrite Em in Hs.
  - injection Hs as <-. exists WA, MA. destruct (m_worker_interrupt s) eqn:Hi.
    + assert (Nat.b2n (m_worker_interrupt s) = 1) by by rewrite Hi. destruct task; by_fields H.
    + destruct task; by_fields H.
  - injection Hs as <-. exists WA, MA. destruct (c.2 c.1); by_fields H.
  - injection Hs as <-. exists WA, MA. destruct (m_worker_interrupt s) eqn:Hi.
    + assert (Nat.b2n (m_worker_interrupt s) = 1) by by rewrite Hi. by_fields H.
    + by_fields H.
  - injection Hs as <-. exists WA, MA. destruct (m_worker_interrupt s) eqn:Hi; by_fields H.
  - injection Hs as <-. exists WA, MA. by_fields H.
  - by eapply inv_main_emergency.
  - destruct (forallb joinable (m_workers s)); [|done]. injection Hs as <-. exists WA, MA.
    pose proof (i_killed _ _ _ _ H). destruct o; by_fields H.
  - injection Hs as <-. exists WA, MA. by_fields H.
  - done.
Qed.

Lemma count_replicate P w : count P (replicate threads w) = if P w then threads else 0.
Proof.
  induction threads as [|n IH]; unfold count in *; simpl; [by destruct (P w)|].
  rewrite IH. by destruct (P w).
Qed.

Lemma inv_init calls :
  0 < threads → (Z.of_nat threads < 2 ^ 64)%Z → Forall real_call calls →
  pool_inv threads (make_Thread_pool threads calls) [] [].
Proof.
  intros. constructor; simpl; rewrite ?count_replicate, ?length_replicate; simpl;
    unfold emergencies; simpl; rewrite ?count_replicate; simpl;
    try done; try (intros; lia); try apply refines_init; try constructor.
Qed.
End preservation.

Lemma pool_step_cases threads s s' :
  pool_step threads s s' →
  (∃ id w, m_workers s !! id = Some w ∧ worker_step threads id w s = Some s') ∨
  process_step threads s = Some s' ∨ client_step threads s = Some s'.
Proof.
  intros [[id| |] H]; simpl in H; [|by auto..]. left.
  destruct (m_workers s !! id) as [w|] eqn:E; [|done]. by exists id, w.
Qed.

Lemma inv_step threads s s' WA MA :
  pool_inv threads s WA MA → pool_step threads s s' → ∃ WA' MA', pool_inv threads s' WA' MA'.
Proof.
  intros H [(id & w & Hid & Hs)|[Hs|Hs]]%pool_step_cases.
  - by eapply inv_worker_step.
  - by eapply inv_main_step.
  - by eapply inv_client_step.
Qed.

(** Induction on the steps of a pool, with the invariant at hand. *)
Lemma pool_ind threads calls (P : pool → Prop) :
  0 < threads → (Z.of_nat threads < 2 ^ 64)%Z → Forall real_call calls →
  P (make_Thread_pool threads calls) →
  (∀ s s' WA MA, pool_inv threads s WA MA → P s → pool_step threads s s' → P s') →
  ∀ s, pool_reachable threads calls s → P s ∧ ∃ WA MA, pool_inv threads s WA MA.
Proof.
  intros Ht Ht' Hc Hi Hstep s Hr. unfold pool_reachable in Hr.
  assert (∃ WA MA, pool_inv threads (make_Thread_pool threads calls) WA MA) as Hinv
    by (exists [], []; by apply inv_init).
  induction Hr as [s|s s1 s2 Hs Hr IH] in Hi, Hinv |- *; [done|].
  destruct Hinv as (WA & MA & Hinv). apply IH; [by eapply Hstep|by eapply inv_step].
Qed.

(** ** Deadlock *)

(** The script is not over, or its last call has been heard. *)
Definition heard (s : pool) : Prop :=
  m_all_tasks_pushed s = true ∨ m_worker_interrupt s = true ∨
  client_in_emergency starting (client s) = true ∨ existsb is_end (script s) = true.

Lemma emergency_keeps threads e s s' next :
  emergency_shutdown threads e s = (s', next) →
  m_workers s' = m_workers s ∧ main s' = main s ∧ client s' = client s ∧ script s' = script s ∧
  m_all_tasks_pushed s' = m_all_tasks_pushed s ∧ m_worker_exceptions s' = m_worker_exceptions s ∧
  processed s' = processed s ∧
  m_worker_interrupt s' = (if e is E_interrupt then true else m_worker_interrupt s).
Proof. destruct e; simpl; intros [= <- <-]; done. Qed.

Lemma worker_step_frame threads id w s s' :
  worker_step threads id w s = Some s' →
  main s' = main s ∧ client s' = client s ∧ script s' = script s ∧ processed s' = processed s ∧
  m_all_tasks_pushed s' = m_all_tasks_pushed s ∧
  (m_worker_interrupt s = true → m_worker_interrupt s' = true).
Proof.
  destruct w as [|task|pr pp|c| | | | |e| |]; simpl; intros Hs; try discriminate Hs;
    try (injection Hs as <-; done).
  - destruct (unsynchronized_pop (m_worker_tasks s)) as [[? ?]|]; [|done]. injection Hs as <-. done.
  - destruct pr; injection Hs as <-; done.
  - destruct (emergency_shutdown threads e s) as [s1 next] eqn:E. injection Hs as <-.
    apply emergency_keeps in E as (? & ? & ? & ? & ? & ? & ? & Hi). simpl. split_and!; try done.
    rewrite Hi. by destruct e.
Qed.

Lemma main_step_frame threads s s' :
  process_step threads s = Some s' →
  m_workers s' = m_workers s ∧ client s' = client s ∧ script s' = script s ∧
  m_worker_exceptions s' = m_worker_exceptions s ∧
  m_all_tasks_pushed s' = m_all_tasks_pushed s ∧
  (m_worker_interrupt s = true → m_worker_interrupt s' = true).
Proof.
  unfold process_step. destruct (main s) as [|task|c| | | |e x|o| |r]; intros Hs;
    try (injection Hs as <-; done); try done.
  - destruct (unsynchronized_pop (m_main_thread_tasks s)) as [[? ?]|]; [|done]. injection Hs as <-. done.
  - destruct (emergency_shutdown threads e s) as [s1 next] eqn:E. injection Hs as <-.
    apply emergency_keeps in E as (? & ? & ? & ? & ? & ? & ? & Hi). simpl. split_and!; try done.
    rewrite Hi. by destruct e.
  - destruct (forallb joinable (m_workers s)); [|done]. injection Hs as <-. done.
Qed.

Lemma client_step_frame threads s s' :
  client_step threads s = Some s' →
  m_workers s' = m_workers s ∧ main s' = main s ∧ processed s' = processed s ∧
  m_worker_exceptions s' = m_worker_exceptions s ∧
  (m_worker_interrupt s = true → m_worker_interrupt s' = true).
Proof.
  unfold client_step. destruct (client s) as [|e].
  - destruct (script s) as [|[task p| |] calls]; [done| | |by intros [= <-]];
      destruct (m_all_tasks_pushed s); by intros [= <-].
  - destruct (emergency_shutdown threads e s) as [s1 next] eqn:E. intros [= <-].
    apply emergency_keeps in E as (? & ? & ? & ? & ? & ? & ? & Hi). simpl. split_and!; try done.
    rewrite Hi. by destruct e.
Qed.

Lemma heard_step threads s s' : heard s → pool_step threads s s' → heard s'.
Proof.
  unfold heard. intros H [(id & w & _ & Hs)|[Hs|Hs]]%pool_step_cases.
  - apply worker_step_frame in Hs as (_ & -> & -> & _ & -> & Hi). naive_solver.
  - apply main_step_frame in Hs as (_ & -> & -> & _ & -> & Hi). naive_solver.
  - pose proof (client_step_frame _ _ _ Hs) as (_ & _ & _ & _ & Hi).
    destruct (m_worker_interrupt s) eqn:Ei; [by auto|]. clear Hi. unfold client_step in Hs.
    destruct (client s) as [|e] eqn:Ec.
    + destruct (script s) as [|[task p| |] calls] eqn:Es; [done| | |]; simpl in H.
      * destruct (m_all_tasks_pushed s) eqn:Ep; injection Hs as <-; simpl; naive_solver.
      * destruct (m_all_tasks_pushed s) eqn:Ep; injection Hs as <-; simpl; naive_solver.
      * injection Hs as <-. simpl. auto.
    + destruct e; simpl in Hs; injection Hs as <-; simpl in *; rewrite ?Ei; simpl; naive_solver.
Qed.

(** *** A reachable pool with nobody able to move has ended *)

Section stuck.
Context (threads : nat) (s : pool) (WA : list (nat * Task)) (MA : list (nat * option closure)).
Hypothesis H : pool_inv threads s WA MA.
Hypothesis Hno : ∀ t, thread_step threads t s = None.

Lemma stuck_client : client s = C_ready ∧ script s = [].
Proof.
  pose proof (Hno T_client) as Hc. simpl in Hc. unfold client_step in Hc. destruct (client s) as [|e].
  - split; [done|]. destruct (script s) as [|[| |] ?]; [done| | |done]; by destruct (m_all_tasks_pushed s).
  - by destruct (emergency_shutdown threads e s).
Qed.

Lemma stuck_worker id w : m_workers s !! id = Some w → joinable w = true ∨ w = W_pop ∧ WA = [].
Proof.
  intros Hid. pose proof (Hno (T_worker id)) as Hw. simpl in Hw. rewrite Hid in Hw.
  destruct w as [|task|pr pp|c| | | | |e| |]; simpl in Hw; auto; try done.
  - pose proof (pop_entries _ _ _ (i_wq _ _ _ _ H) (i_wa _ _ _ _ H)) as Hp.
    destruct (unsynchronized_pop (m_worker_tasks s)) as [[? ?]|]; [done|]. auto.
  - by destruct pr.
  - by destruct (emergency_shutdown threads e s).
Qed.

Lemma stuck_count P : P W_pop = false → P W_returned = false → P W_finished = false → count P (m_workers s) = 0.
Proof.
  intros H1 H2 H3. destruct (decide (0 < count P (m_workers s))) as [Hp|]; [|lia].
  apply count_Exists in Hp as (id & w & Hid & Hw).
  destruct (stuck_worker id w Hid) as [Hj|[-> _]]; [destruct w; try done; congruence|congruence].
Qed.

Lemma stuck_emergencies P : emergencies P s = 0.
Proof.
  unfold emergencies. destruct stuck_client as [-> _]. rewrite stuck_count by done. simpl.
  destruct (main s) as [| | | | | |e x| | |] eqn:Em; try done.
  pose proof (Hno T_main) as Hm. simpl in Hm. unfold process_step in Hm. rewrite Em in Hm.
  by destruct (emergency_shutdown threads e s).
Qed.

Lemma stuck_joinable : heard s → Forall (λ w, joinable w = true) (m_workers s).
Proof.
  intros Hh. apply Forall_lookup. intros id w Hid.
  destruct (stuck_worker id w Hid) as [|[-> HW]]; [done|]. exfalso.
  pose proof (count_pos looping _ _ _ Hid eq_refl) as Hpos. destruct stuck_client as [Hc Hsc].
  pose proof (i_pushed _ _ _ _ H) as H1. pose proof (i_int_w _ _ _ _ H) as H2.
  rewrite stuck_emergencies, HW in H2. rewrite HW in H1. unfold markers in H1, H2. simpl in H1, H2.
  destruct Hh as [Hh|[Hh|[Hh|Hh]]].
  - rewrite Hh in H1. simpl in H1. lia.
  - rewrite Hh in H2. simpl in H2. lia.
  - by rewrite Hc in Hh.
  - by rewrite Hsc in Hh.
Qed.

(** The main thread does not wait for a task when all workers have ended. *)
Lemma stuck_not_pop : Forall (λ w, joinable w = true) (m_workers s) → main s ≠ M_pop.
Proof.
  intros Hj Em. pose proof (pop_entries _ _ _ (i_mq _ _ _ _ H) (i_ma _ _ _ _ H)) as Hp.
  pose proof (Hno T_main) as Hm. simpl in Hm. unfold process_step in Hm. rewrite Em in Hm.
  destruct (unsynchronized_pop (m_main_thread_tasks s)) as [[? ?]|]; [done|].
  pose proof (i_int_m _ _ _ _ H) as H1. pose proof (i_zero _ _ _ _ H) as H2.
  rewrite Em, stuck_emergencies, Hp in H1. rewrite Em, Hp in H2. unfold markers in H1, H2.
  rewrite (stuck_count exiting) in H2 by done. simpl in H1, H2.
  assert (0 < count undecided (m_workers s)) as Hpos by lia.
  apply count_Exists in Hpos as (id & w & Hid & Hw). rewrite Forall_lookup in Hj.
  specialize (Hj id w Hid). destruct w; try done.
  pose proof (count_pos returned _ _ _ Hid eq_refl). pose proof (i_returned _ _ _ _ H). lia.
Qed.

Lemma stuck_ended :
  heard s → Forall (λ w, joinable w = true) (m_workers s) ∧ (∃ r, main s = M_returned r) ∧ script s = [].
Proof.
  intros Hh. pose proof (stuck_joinable Hh) as Hj. split; [done|]. split; [|apply stuck_client].
  pose proof (stuck_not_pop Hj). pose proof (Hno T_main) as Hm. simpl in Hm. unfold process_step in Hm.
  destruct (main s) as [|task|c| | | |e x|o| |r]; try done.
  - by destruct (emergency_shutdown threads e s).
  - rewrite (proj2 (forallb_forall _ _)) in Hm; [by destruct o|].
    intros w Hin. rewrite Forall_forall in Hj. by apply Hj, list_elem_of_In.
  - by exists r.
Qed.
End stuck.

(** ** Termination: every step takes something from the work that is left *)

(** [k] is the number of workers, times the work of a marker. *)
Definition emergency_work (k : nat) (e : emergency) : nat :=
  match e with E_test => k + 12 | E_interrupt => k + 11 | E_state => k + 10 | E_workers => k + 9 | E_main => 8 end.

Definition worker_work (k : nat) (w : worker) : nat :=
  match w with
  | W_pop => k + 20
  | W_check _ => k + 31
  | W_produce _ _ => k + 30
  | W_push _ => k + 29
  | W_check_again => k + 21
  | W_exit => 12
  | W_state => 11
  | W_shutdown_main => 10
  | W_emergency e => S (emergency_work k e)
  | W_returned | W_finished => 0
  end.

Definition main_work (k : nat) (m : main_thread) : nat :=
  match m with
  | M_pop => k + 20
  | M_check _ => k + 24
  | M_run _ => k + 23
  | M_check_again => k + 22
  | M_after => 6
  | M_done => 5
  | M_emergency e _ => 5 + emergency_work k e
  | M_join _ => 4
  | M_rethrow => 3
  | M_returned _ => 0
  end.

Definition call_work (k : nat) (c : api_call) : nat :=
  match c with Add_task _ _ => 13 | Tasks_done => k + 1 | Terminate => k + 20 end.

Definition client_work (k : nat) (c : client_thread) : nat :=
  match c with C_ready => 0 | C_emergency e => S (emergency_work k e) end.

Definition work (threads : nat) (s : pool) : nat :=
  let k := 12 * threads in
  12 * m_size (m_worker_tasks s) + 5 * m_size (m_main_thread_tasks s) +
  sum_list_with (worker_work k) (m_workers s) + main_work k (main s) +
  client_work k (client s) + sum_list_with (call_work k) (script s).

Lemma shutdown_size {T} (d : T) n q : m_size (shutdown d n q) = m_size q + n.
Proof. revert q. induction n as [|n IH]; intros q; simpl; [lia|]. rewrite IH. simpl. lia. Qed.

Lemma pop_size {T} (q q' : Synchronized_queue T) A r :
  refines q A → unsynchronized_pop q = Ok (r, q') → m_size q = m_size q' + 1.
Proof.
  intros HA E. pose proof (refines_pop q A HA) as H. rewrite E in H. destruct HA as (_ & -> & _).
  destruct H as (A1 & A2 & p & -> & _ & _ & (_ & -> & _)). rewrite !length_app. simpl. lia.
Qed.

Lemma emergency_work_step threads e s s' next :
  emergency_shutdown threads e s = (s', next) →
  12 * m_size (m_worker_tasks s') + 5 * m_size (m_main_thread_tasks s') +
    (if next is Some e' then emergency_work (12 * threads) e' else 0) <
  12 * m_size (m_worker_tasks s) + 5 * m_size (m_main_thread_tasks s) + emergency_work (12 * threads) e.
Proof.
  destruct e; simpl; intros [= <- <-]; simpl; try lia; [by destruct (m_worker_interrupt s); simpl; lia|].
  rewrite shutdown_size. lia.
Qed.

Lemma worker_work_decreases threads id w s s' WA MA :
  pool_inv threads s WA MA → m_workers s !! id = Some w → worker_step threads id w s = Some s' →
  work threads s' < work threads s.
Proof.
  intros H Hid Hs. unfold work. set (k := 12 * threads).
  pose proof (λ w', sum_list_with_insert (worker_work k) _ _ _ w' Hid) as Hw.
  destruct w as [|task|pr pp|c| | | | |e| |]; simpl in Hs; try discriminate Hs.
  - destruct (unsynchronized_pop (m_worker_tasks s)) as [[task q]|] eqn:E; [|done]. injection Hs as <-.
    pose proof (pop_size _ _ _ _ (i_wq _ _ _ _ H) E). specialize (Hw (W_check task)). simpl in *. lia.
  - injection Hs as <-. simpl. destruct (m_worker_interrupt s); [specialize (Hw W_returned); simpl in *; lia|].
    destruct (produce_data task) as [pr|];
      [specialize (Hw (W_produce pr (process_data task)))|specialize (Hw W_exit)]; simpl in *; lia.
  - destruct pr as [data|e]; injection Hs as <-; simpl;
      [specialize (Hw (W_push (data, pp)))|specialize (Hw (W_emergency E_test))]; simpl in *; lia.
  - injection Hs as <-. specialize (Hw W_check_again). simpl in *. lia.
  - injection Hs as <-. simpl. destruct (m_worker_interrupt s);
      [specialize (Hw W_returned)|specialize (Hw W_pop)]; simpl in *; lia.
  - injection Hs as <-. simpl. destruct (_ =? _)%Z;
      [specialize (Hw W_state)|specialize (Hw W_finished)]; simpl in *; lia.
  - injection Hs as <-. specialize (Hw W_shutdown_main). simpl in *. lia.
  - injection Hs as <-. specialize (Hw W_finished). simpl in *. lia.
  - destruct (emergency_shutdown threads e s) as [s1 next] eqn:E. injection Hs as <-.
    pose proof (emergency_work_step _ _ _ _ _ E) as He. fold k in He.
    apply emergency_keeps in E as (E1 & E2 & E3 & E4 & _). simpl. rewrite E1, E2, E3, E4.
    destruct next as [e'|]; [specialize (Hw (W_emergency e'))|specialize (Hw W_returned)];
      simpl in *; lia.
Qed.

Lemma main_work_decreases threads s s' WA MA :
  pool_inv threads s WA MA → process_step threads s = Some s' → work threads s' < work threads s.
Proof.
  intros H Hs. unfold work. set (k := 12 * threads). unfold process_step in Hs.
  destruct (main s) as [|task|c| | | |e x|o| |r]; try discriminate Hs.
  - destruct (unsynchronized_pop (m_main_thread_tasks s)) as [[task q]|] eqn:E; [|done]. injection Hs as <-.
    pose proof (pop_size _ _ _ _ (i_mq _ _ _ _ H) E). simpl in *. lia.
  - injection Hs as <-. simpl. destruct (m_worker_interrupt s), task; simpl; lia.
  - injection Hs as <-. simpl. destruct (c.2 c.1); simpl; lia.
  - injection Hs as <-. simpl. destruct (m_worker_interrupt s); simpl; lia.
  - injection Hs as <-. simpl. destruct (m_worker_interrupt s); simpl; lia.
  - injection Hs as <-. simpl. lia.
  - destruct (emergency_shutdown threads e s) as [s1 next] eqn:E. injection Hs as <-.
    pose proof (emergency_work_step _ _ _ _ _ E) as He. fold k in He.
    apply emergency_keeps in E as (E1 & E2 & E3 & E4 & _). simpl. rewrite E1, E3, E4.
    destruct next as [e'|]; simpl in *; [lia|]. destruct e; simpl in *; lia.
  - destruct (forallb joinable (m_workers s)); [|done]. injection Hs as <-. simpl. destruct o; simpl; lia.
  - injection Hs as <-. simpl. lia.
Qed.

Lemma client_work_decreases threads s s' :
  client_step threads s = Some s' → work threads s' < work threads s.
Proof.
  intros Hs. unfold work. set (k := 12 * threads). unfold client_step in Hs. destruct (client s) as [|e].
  - destruct (script s) as [|[task p| |] calls]; [done| | |].
    + destruct (m_all_tasks_pushed s); injection Hs as <-; simpl; lia.
    + destruct (m_all_tasks_pushed s); injection Hs as <-; simpl; [lia|]. rewrite shutdown_size. lia.
    + injection Hs as <-. simpl. lia.
  - destruct (emergency_shutdown threads e s) as [s1 next] eqn:E. injection Hs as <-.
    pose proof (emergency_work_step _ _ _ _ _ E) as He. fold k in He.
    apply emergency_keeps in E as (E1 & E2 & E3 & E4 & _). simpl. rewrite E1, E2, E4.
    destruct next as [e'|]; simpl in *; lia.
Qed.

Lemma work_decreases threads s s' WA MA :
  pool_inv threads s WA MA → pool_step threads s s' → work threads s' < work threads s.
Proof.
  intros H [(id & w & Hid & Hs)|[Hs|Hs]]%pool_step_cases.
  - by eapply worker_work_decreases.
  - by eapply main_work_decreases.
  - by eapply client_work_decreases.
Qed.

(** ** Completeness: no task is lost while nobody interrupts the pool *)

(** The closures a task, a call, a worker, the main thread stand for. *)
Definition task_closures (t : Task) : list closure :=
  match produce_data t with Some (Ok data) => [(data, process_data t)] | _ => [] end.

Fixpoint accepted (calls : list api_call) : list closure :=
  match calls with
  | Add_task t _ :: calls => task_closures t ++ accepted calls
  | Terminate :: calls => accepted calls
  | Tasks_done :: _ | [] => []
  end.

Definition worker_closures (w : worker) : list closure :=
  match w with
  | W_check t => task_closures t
  | W_produce p q => task_closures {| produce_data := Some p; process_data := q |}
  | W_push c => [c]
  | _ => []
  end.

Definition main_closures (m : main_thread) : list closure :=
  match m with M_check (Some c) | M_run c => [c] | _ => [] end.

(** The elements of a queue. *)
Definition items {T} (q : Synchronized_queue T) : list T := concat (m_queues q).

(** Everything processed, on its way, or still to be added. *)
Definition under_way (s : pool) : list closure :=
  processed s ++ main_closures (main s) ++ (items (m_main_thread_tasks s) ≫= option_list) ++
  (m_workers s ≫= worker_closures) ++ (items (m_worker_tasks s) ≫= task_closures) ++
  (if m_all_tasks_pushed s then [] else accepted (script s)).

Lemma concat_alter {A} (l : list (list A)) i x :
  i < length l → concat (alter (λ q, q ++ [x]) i l) ≡ₚ concat l ++ [x].
Proof.
  revert i. induction l as [|q l IH]; intros [|i] Hi; simpl in *; [lia|lia| |].
  - solve_Permutation.
  - change (q ++ concat (alter (λ q, q ++ [x]) i l) ≡ₚ (q ++ concat l) ++ [x]).
    rewrite IH by lia. solve_Permutation.
Qed.

Lemma items_push {T} (q : Synchronized_queue T) A r p :
  refines q A → p ≤ k_max_priority → items (unsynchronized_push r p q) ≡ₚ items q ++ [r].
Proof.
  intros (Hq & _ & _) Hp. apply concat_alter. rewrite Hq. unfold k_max_priority. simpl. lia.
Qed.

Lemma items_shutdown {T} (d : T) n q A :
  refines q A → items (shutdown d n q) ≡ₚ items q ++ replicate n d.
Proof.
  revert q A. induction n as [|n IH]; intros q A H; simpl; [by rewrite app_nil_r|].
  assert (0 ≤ k_max_priority) by lia.
  rewrite (IH _ (A ++ [(0, d)])) by (by apply refines_push). rewrite items_push by done. solve_Permutation.
Qed.

Lemma items_pop {T} (q q' : Synchronized_queue T) r : unsynchronized_pop q = Ok (r, q') → items q = r :: items q'.
Proof.
  unfold unsynchronized_pop, items. intros H.
  assert (∀ (l : list (list T)) r l', pop_first l = Some (r, l') → concat l = r :: concat l') as Hp.
  { induction l as [|[|x l1] l IH]; simpl; intros r0 l' E; [done| |by injection E as <- <-].
    destruct (pop_first l) as [[x l1]|]; [|done]. injection E as <- <-. simpl. by apply IH. }
  destruct (pop_first (m_queues q)) as [[x l]|] eqn:E; [|done]. injection H as <- <-. simpl. by apply Hp.
Qed.

Lemma bind_insert {A B} (f : A → list B) l i x :
  l !! i = Some x → ∃ R, l ≫= f ≡ₚ f x ++ R ∧ ∀ y, <[i := y]> l ≫= f ≡ₚ f y ++ R.
Proof.
  intros Hi. exists ((take i l ≫= f) ++ (drop (S i) l ≫= f)).
  pose proof (lookup_lt_Some _ _ _ Hi). split.
  - rewrite <- (take_drop_middle l i x Hi) at 1. rewrite bind_app. csimpl. solve_Permutation.
  - intros y. rewrite insert_take_drop by done. rewrite bind_app. csimpl. solve_Permutation.
Qed.

Lemma markers_nothing {A B} (f : A → list B) (n : nat) x : f x = [] → replicate n x ≫= f = [].
Proof. intros Hx. induction n as [|n IH]; csimpl; [done|]. by rewrite Hx, IH. Qed.

Lemma bind_nothing n : replicate n W_pop ≫= worker_closures = [].
Proof. by apply markers_nothing. Qed.

Lemma under_way_worker threads s s' id w WA MA :
  pool_inv threads s WA MA → m_workers s !! id = Some w → worker_step threads id w s = Some s' →
  under_way s' ≡ₚ under_way s ∨ (m_worker_interrupt s = true ∧ under_way s' ⊆+ under_way s).
Proof.
  intros H Hid Hs. unfold under_way.
  destruct (bind_insert worker_closures _ _ _ Hid) as (R & HR & HR').
  destruct w as [|task|pr pp|c| | | | |e| |]; simpl in Hs; try discriminate Hs.
  - destruct (unsynchronized_pop (m_worker_tasks s)) as [[task q]|] eqn:E; [|done]. injection Hs as <-.
    left. simpl. apply items_pop in E. rewrite E, HR, HR'. csimpl. solve_Permutation.
  - injection Hs as <-. simpl. rewrite HR, HR'. destruct (m_worker_interrupt s); simpl; unfold task_closures.
    + right. split; [done|]. destruct (produce_data task) as [[]|]; simpl; solve_submseteq.
    + left. destruct (produce_data task) as [[]|]; simpl; solve_Permutation.
  - left. destruct pr as [data|e]; injection Hs as <-; simpl; rewrite HR, HR'; simpl; unfold task_closures; simpl;
      solve_Permutation.
  - left. injection Hs as <-. simpl. rewrite HR, HR'. simpl. unfold push.
    rewrite (items_push _ MA) by (try apply H; unfold k_max_priority, k_shutdown_priority; simpl; lia).
    rewrite bind_app. csimpl. solve_Permutation.
  - left. injection Hs as <-. simpl. rewrite HR, HR'. by destruct (m_worker_interrupt s).
  - left. injection Hs as <-. simpl. rewrite HR, HR'. by destruct (_ =? _)%Z.
  - left. injection Hs as <-. simpl. rewrite HR, HR'. simpl. solve_Permutation.
  - left. injection Hs as <-. simpl. rewrite HR, HR'. simpl.
    rewrite (items_push _ MA) by (try apply H; unfold k_max_priority, k_shutdown_priority; simpl; lia).
    rewrite bind_app. csimpl. solve_Permutation.
  - left. destruct e; simpl in Hs; injection Hs as <-; simpl; rewrite HR, HR'; simpl; try done.
    + by destruct (m_worker_interrupt s).
    + rewrite (items_shutdown _ _ _ WA) by apply H. rewrite bind_app, markers_nothing by done. solve_Permutation.
    + rewrite (items_push _ MA) by (try apply H; unfold k_max_priority, k_shutdown_priority; simpl; lia).
      rewrite bind_app. csimpl. solve_Permutation.
Qed.

Lemma under_way_emergency threads e s s' next WA MA :
  pool_inv threads s WA MA → emergency_shutdown threads e s = (s', next) →
  (items (m_main_thread_tasks s') ≫= option_list) ≡ₚ (items (m_main_thread_tasks s) ≫= option_list) ∧
  (items (m_worker_tasks s') ≫= task_closures) ≡ₚ (items (m_worker_tasks s) ≫= task_closures).
Proof.
  intros H. destruct e; simpl; intros [= <- <-]; simpl; split; try done.
  - rewrite (items_shutdown _ _ _ WA) by apply H. rewrite bind_app, markers_nothing by done. solve_Permutation.
  - rewrite (items_push _ MA) by (try apply H; unfold k_max_priority, k_shutdown_priority; simpl; lia).
    rewrite bind_app. csimpl. solve_Permutation.
Qed.

Lemma under_way_main threads s s' WA MA :
  pool_inv threads s WA MA → process_step threads s = Some s' →
  under_way s' ≡ₚ under_way s ∨ (m_worker_interrupt s = true ∧ under_way s' ⊆+ under_way s).
Proof.
  intros H Hs. unfold under_way. unfold process_step in Hs.
  destruct (main s) as [|task|c| | | |e x|o| |r] eqn:Em; try discriminate Hs.
  - left. destruct (unsynchronized_pop (m_main_thread_tasks s)) as [[task q]|] eqn:E; [|done]. injection Hs as <-.
    simpl. apply items_pop in E. rewrite E, app_nil_r. csimpl. destruct task; simpl; solve_Permutation.
  - injection Hs as <-. simpl. rewrite app_nil_r. destruct (m_worker_interrupt s).
    + right. split; [done|]. destruct task; simpl; solve_submseteq.
    + left. by destruct task.
  - left. injection Hs as <-. simpl. destruct (c.2 c.1); simpl; solve_Permutation.
  - left. injection Hs as <-. simpl. rewrite app_nil_r. by destruct (m_worker_interrupt s).
  - left. injection Hs as <-. simpl. rewrite app_nil_r. by destruct (m_worker_interrupt s).
  - left. injection Hs as <-. simpl. rewrite app_nil_r. by destruct (m_worker_interrupt s).
  - left. destruct (emergency_shutdown threads e s) as [s1 next] eqn:E. injection Hs as <-.
    destruct (under_way_emergency _ _ _ _ _ _ _ H E) as [E1 E2].
    apply emergency_keeps in E as (E3 & E4 & E5 & E6 & E7 & E8 & E9 & _). simpl.
    rewrite E1, E2, E3, E6, E7, E9, app_nil_r. by destruct next.
  - left. destruct (forallb joinable (m_workers s)); [|done]. injection Hs as <-. simpl. rewrite app_nil_r.
    by destruct o.
  - left. injection Hs as <-. simpl. rewrite app_nil_r. by destruct (m_worker_interrupt s).
Qed.

Lemma under_way_client threads s s' WA MA :
  pool_inv threads s WA MA → client_step threads s = Some s' → under_way s' ≡ₚ under_way s.
Proof.
  intros H Hs. unfold under_way. unfold client_step in Hs. destruct (client s) as [|e].
  - destruct (script s) as [|[task p| |] calls] eqn:Es; [done| | |].
    + destruct (m_all_tasks_pushed s) eqn:Ep; injection Hs as <-; simpl; rewrite ?Ep; [done|].
      unfold push. rewrite (items_push _ WA); [|apply H|by destruct p; unfold k_max_priority; simpl; lia].
      rewrite bind_app. csimpl. solve_Permutation.
    + destruct (m_all_tasks_pushed s) eqn:Ep; injection Hs as <-; simpl; rewrite ?Ep; [done|].
      rewrite (items_shutdown _ _ _ WA) by apply H. rewrite bind_app, markers_nothing by done. solve_Permutation.
    + injection Hs as <-. simpl. done.
  - destruct (emergency_shutdown threads e s) as [s1 next] eqn:E. injection Hs as <-.
    destruct (under_way_emergency _ _ _ _ _ _ _ H E) as [E1 E2].
    apply emergency_keeps in E as (E3 & E4 & E5 & E6 & E7 & E8 & E9 & _). simpl.
    by rewrite E1, E2, E3, E4, E6, E7, E9.
Qed.

Lemma under_way_step threads s s' WA MA :
  pool_inv threads s WA MA → pool_step threads s s' →
  under_way s' ≡ₚ under_way s ∨ (m_worker_interrupt s' = true ∧ under_way s' ⊆+ under_way s).
Proof.
  intros H [(id & w & Hid & Hs)|[Hs|Hs]]%pool_step_cases.
  - destruct (under_way_worker _ _ _ _ _ _ _ H Hid Hs) as [|[Hi ?]]; [by auto|].
    apply worker_step_frame in Hs as (_ & _ & _ & _ & _ & Hm). auto.
  - destruct (under_way_main _ _ _ _ _ H Hs) as [|[Hi ?]]; [by auto|].
    apply main_step_frame in Hs as (_ & _ & _ & _ & _ & Hm). auto.
  - left. by eapply under_way_client.
Qed.

Lemma interrupt_step threads s s' :
  pool_step threads s s' → m_worker_interrupt s = true → m_worker_interrupt s' = true.
Proof.
  intros [(id & w & _ & Hs)|[Hs|Hs]]%pool_step_cases.
  - by apply worker_step_frame in Hs as (_ & _ & _ & _ & _ & Hm).
  - by apply main_step_frame in Hs as (_ & _ & _ & _ & _ & Hm).
  - by apply client_step_frame in Hs as (_ & _ & _ & _ & Hm).
Qed.

Lemma items_elem {T} (q : Synchronized_queue T) A x : refines q A → x ∈ items q → ∃ p, (p, x) ∈ A.
Proof.
  intros (Hq & _ & _) Hx. unfold items in Hx. rewrite Hq in Hx.
  apply list_elem_of_In, in_concat in Hx as (l & Hl%list_elem_of_In & Hx%list_elem_of_In). apply list_elem_of_fmap in Hl as (p & -> & _).
  unfold level in Hx. apply list_elem_of_fmap in Hx as ([p' y] & -> & Hy).
  apply list_elem_of_filter in Hy as [_ Hy]. by exists p'.
Qed.

Lemma markers_only {T B} (q : Synchronized_queue T) A (f : T → list B) :
  refines q A → reals A = 0 → Forall (λ e, e.1 = 0 → f e.2 = []) A → items q ≫= f = [].
Proof.
  intros HA Hr%reals_zero Hf.
  assert (∀ x, x ∈ items q → f x = []) as Hx.
  { intros x (p & Hp)%(items_elem q A); [|done]. rewrite Forall_forall in Hr, Hf.
    apply (Hf (p, x) Hp), (Hr (p, x) Hp). }
  clear -Hx. induction (items q) as [|x l IH]; [done|]. csimpl. rewrite Hx by set_solver.
  apply IH. set_solver.
Qed.

(** Nothing is under way when the main thread has seen its marker and nobody interrupts. *)
Lemma drained threads s WA MA :
  pool_inv threads s WA MA → m_worker_interrupt s = false → main_saw_marker (main s) = true →
  under_way s = processed s.
Proof.
  intros H Hi Hsaw. pose proof (i_saw _ _ _ _ H) as H1. rewrite Hi, Hsaw in H1. simpl in H1.
  pose proof (i_done _ _ _ _ H) as H2. rewrite Hi, Hsaw in H2. simpl in H2.
  assert (count undecided (m_workers s) = 0) as Hu by (apply H1; lia). clear H1.
  assert (reals MA = 0) as Hm by (by apply H2). clear H2.
  pose proof (count_zero _ _ Hu) as Hw.
  assert (0 < count saw_marker (m_workers s)) as Hsm.
  { pose proof (i_threads _ _ _ _ H) as [Ht _]. pose proof (i_workers _ _ _ _ H) as Hl.
    destruct (m_workers s) as [|w ws] eqn:E; [simpl in *; lia|]. apply Forall_cons in Hw as [Hw _].
    apply (count_pos saw_marker (w :: ws) 0 w); [done|]. by destruct w. }
  pose proof (i_drained _ _ _ _ H) as H3. rewrite Hi in H3. specialize (H3 eq_refl Hsm).
  pose proof (i_marker _ _ _ _ H) as H4. rewrite Hi in H4. simpl in H4.
  assert (m_all_tasks_pushed s = true) as Hp.
  { destruct (m_all_tasks_pushed s); [done|]. simpl in H4. lia. }
  unfold under_way. rewrite Hp.
  assert (main_closures (main s) = []) as -> by (destruct (main s) as [|[]| | | | | | | |]; done).
  assert (m_workers s ≫= worker_closures = []) as ->.
  { clear -Hw. induction Hw as [|w ws Hw Hws IH]; csimpl; [done|]. rewrite IH. by destruct w. }
  rewrite (markers_only (m_main_thread_tasks s) MA option_list), (markers_only (m_worker_tasks s) WA task_closures).
  - by rewrite !app_nil_r.
  - apply H.
  - done.
  - eapply Forall_impl; [apply (i_wa _ _ _ _ H)|]. intros e He Hz. unfold task_closures. simpl in He. by rewrite (proj1 He Hz).
  - apply H.
  - done.
  - eapply Forall_impl; [apply (i_ma _ _ _ _ H)|]. intros e He Hz. simpl in He. by rewrite (proj1 He Hz).
Qed.

(** ** Exceptions *)

(** A worker that has thrown interrupts the pool and ends; the main thread returns only
    when all workers have ended, normally only if none has thrown, and throws only what a
    producer or a processor has thrown. *)
Record reported (s : pool) : Prop := {
  r_thrown : ∀ id e, m_worker_exceptions s !! id = Some (Some e) →
    (∃ p, m_workers s !! id = Some (W_emergency p) ∧ (starting p = true ∨ m_worker_interrupt s = true)) ∨
    (m_workers s !! id = Some W_returned ∧ m_worker_interrupt s = true);
  r_joined : main_joined (main s) = true → Forall (λ w, joinable w = true) (m_workers s);
  r_normal : main s = M_returned (Ok tt) → Forall (λ o, o = None) (m_worker_exceptions s);
  r_source : ∀ e, main s = M_returned (Throw e) ∨ main s = M_join (Some e) ∨ (∃ p, main s = M_emergency p e) →
    Some e ∈ m_worker_exceptions s ∨ ∃ c, c ∈ processed s ∧ c.2 c.1 = Throw e;
}.

Lemma rethrow_ok s : rethrow s = Ok tt → Forall (λ o, o = None) (m_worker_exceptions s).
Proof.
  unfold rethrow. destruct (list_find is_Some (m_worker_exceptions s)) as [[i [e|]]|] eqn:E; [done| |].
  - apply list_find_Some in E as (_ & [? ?] & _). done.
  - intros _. apply list_find_None in E. eapply Forall_impl; [done|]. intros [e|] He; [|done].
    destruct He. by exists e.
Qed.

Lemma rethrow_throw s e : rethrow s = Throw e → Some e ∈ m_worker_exceptions s.
Proof.
  unfold rethrow. destruct (list_find is_Some (m_worker_exceptions s)) as [[i [e'|]]|] eqn:E; [|done|done].
  intros [= ->]. apply list_find_Some in E as (Hi & _). by eapply list_elem_of_lookup_2.
Qed.

(** The worker at [id] after a step, and the exceptions. *)
Lemma worker_step_exceptions threads id w s s' :
  m_workers s !! id = Some w → worker_step threads id w s = Some s' →
  ∃ w', m_workers s' = <[id := w']> (m_workers s) ∧
    ((m_worker_exceptions s' = m_worker_exceptions s ∧
      ∀ p, w = W_emergency p → starting p = true ∨ m_worker_interrupt s = true →
        (∃ p', w' = W_emergency p' ∧ (starting p' = true ∨ m_worker_interrupt s' = true)) ∨
        (w' = W_returned ∧ m_worker_interrupt s' = true)) ∨
     (∃ e, w' = W_emergency E_test ∧ looping w = true ∧
        m_worker_exceptions s' = <[id := Some e]> (m_worker_exceptions s))).
Proof.
  intros Hid Hs. destruct w as [|task|pr pp|c| | | | |e| |]; simpl in Hs; try discriminate Hs.
  - destruct (unsynchronized_pop (m_worker_tasks s)) as [[? ?]|]; [|done]. injection Hs as <-.
    eexists. split; [done|]. by left.
  - injection Hs as <-. eexists. split; [done|]. by left.
  - destruct pr as [data|e]; injection Hs as <-; eexists; (split; [done|]); [by left|].
    right. by exists e.
  - injection Hs as <-. eexists. split; [done|]. by left.
  - injection Hs as <-. eexists. split; [done|]. by left.
  - injection Hs as <-. eexists. split; [done|]. by left.
  - injection Hs as <-. eexists. split; [done|]. by left.
  - injection Hs as <-. eexists. split; [done|]. by left.
  - destruct e; simpl in Hs; injection Hs as <-; eexists; (split; [done|]); left; (split; [done|]);
      intros p [= <-] Hp; simpl in *; try (destruct Hp; [done|]); eauto 6.
    destruct (m_worker_interrupt s); eauto 6.
Qed.

Lemma reported_worker threads id w s s' :
  reported s → m_workers s !! id = Some w → worker_step threads id w s = Some s' → reported s'.
Proof.
  intros [H1 H2 H3 H4] Hid Hs.
  pose proof (worker_step_frame _ _ _ _ _ Hs) as (Em & _ & _ & Epr & _ & Hi).
  assert (joinable w = false) as Hj by (destruct w; done).
  assert (main_joined (main s) = false) as Hmj.
  { destruct (main_joined (main s)); [|done]. specialize (H2 eq_refl). rewrite Forall_lookup in H2.
    specialize (H2 id w Hid). congruence. }
  pose proof (lookup_lt_Some _ _ _ Hid) as Hlt.
  destruct (worker_step_exceptions _ _ _ _ _ Hid Hs) as (w' & Ew & Hcase).
  assert (∀ j e, j ≠ id → m_worker_exceptions s !! j = Some (Some e) →
    (∃ p, m_workers s' !! j = Some (W_emergency p) ∧ (starting p = true ∨ m_worker_interrupt s' = true)) ∨
    (m_workers s' !! j = Some W_returned ∧ m_worker_interrupt s' = true)) as Hother.
  { intros j e Hne He. rewrite Ew, list_lookup_insert_ne by done.
    destruct (H1 j e He) as [(p & Hp & Hor)|[Hp Hor]]; [|by auto]. left. exists p. naive_solver. }
  constructor; rewrite ?Em; try (intros E; by rewrite E in Hmj).
  - intros j e He. destruct (decide (j = id)) as [->|Hne].
    + destruct Hcase as [[Ee Hc]|(e' & -> & Hl & Ee)]; rewrite Ee in He.
      * destruct (H1 id e He) as [(p & Hp & Hor)|[Hp _]]; [|by rewrite Hid in Hp; injection Hp as ->].
        rewrite Hid in Hp. injection Hp as ->. rewrite Ew, list_lookup_insert_eq by done.
        destruct (Hc p eq_refl Hor) as [(p' & -> & ?)|[-> ?]]; [left; by exists p'|by right].
      * left. exists E_test. rewrite Ew, list_lookup_insert_eq by done. auto.
    + apply (Hother j e Hne). destruct Hcase as [[<- _]|(e' & _ & _ & Ee)]; [done|].
      by rewrite Ee, list_lookup_insert_ne in He.
  - intros e He. rewrite Epr. destruct (H4 e He) as [Hin|?]; [left|by right].
    destruct Hcase as [[-> _]|(e' & _ & Hl & Ee)]; [done|]. rewrite Ee.
    apply list_elem_of_lookup in Hin as [j Hin]. apply list_elem_of_lookup. exists j.
    rewrite list_lookup_insert_ne; [done|]. intros <-.
    destruct (H1 id e Hin) as [(p & Hp & _)|[Hp _]]; rewrite Hid in Hp; injection Hp as ->; done.
Qed.

(** The main thread moves to a state without an exception to report. *)
Local Ltac quiet := constructor; simpl in *; [done|done|done|intros ? [?|[?|[? ?]]]; done].

Lemma reported_main threads s s' : reported s → process_step threads s = Some s' → reported s'.
Proof.
  intros [H1 H2 H3 H4] Hs. pose proof (main_step_frame _ _ _ Hs) as (Ew & _ & _ & Ee & _ & Hi).
  assert (∀ id e, m_worker_exceptions s' !! id = Some (Some e) →
    (∃ p, m_workers s' !! id = Some (W_emergency p) ∧ (starting p = true ∨ m_worker_interrupt s' = true)) ∨
    (m_workers s' !! id = Some W_returned ∧ m_worker_interrupt s' = true)) as H1'.
  { intros id e. rewrite Ee, Ew. intros He. destruct (H1 id e He) as [(p & Hp & Hor)|[Hp Hor]]; [|by auto].
    left. exists p. naive_solver. }
  unfold process_step in Hs. destruct (main s) as [|task|c| | | |p x|o| |r] eqn:Em; try discriminate Hs.
  - destruct (unsynchronized_pop (m_main_thread_tasks s)) as [[? ?]|]; [|done]. injection Hs as <-.
    quiet.
  - injection Hs as <-. destruct (m_worker_interrupt s), task; quiet.
  - injection Hs as <-. destruct (c.2 c.1) as [[]|e] eqn:Ec; [quiet|].
    constructor; simpl in *; [done|done|done|]. intros e0 He. right. exists c. split; [set_solver|].
    rewrite Ec. destruct He as [?|[?|[p Hp]]]; [done|done|]. by injection Hp as _ ->.
  - injection Hs as <-. destruct (m_worker_interrupt s); quiet.
  - injection Hs as <-. destruct (m_worker_interrupt s); quiet.
  - injection Hs as <-. quiet.
  - destruct (emergency_shutdown threads p s) as [s1 next] eqn:E. injection Hs as <-.
    apply emergency_keeps in E as (_ & _ & _ & _ & _ & E6 & E7 & _).
    constructor; simpl in *; [done|by destruct next|by destruct next|]. rewrite E6, E7, app_nil_r.
    intros e He. apply H4. destruct next; destruct He as [?|[He|[? He]]]; simplify_eq; eauto.
  - destruct (forallb joinable (m_workers s)) eqn:Ej; [|done]. injection Hs as <-.
    constructor; simpl in *; [done| |by destruct o|].
    + intros _. apply Forall_forall. intros w Hw. rewrite forallb_forall in Ej. by apply Ej, list_elem_of_In.
    + rewrite app_nil_r. intros e He. apply H4. destruct o; destruct He as [He|[He|[? He]]]; simplify_eq; eauto.
  - injection Hs as <-. constructor; simpl in *; [done|by auto| |].
    + intros [= Hr]. by apply rethrow_ok.
    + intros e [[= Hr]|[?|[? ?]]]; [|done|done]. left. by apply rethrow_throw.
Qed.

Lemma reported_step threads s s' : reported s → pool_step threads s s' → reported s'.
Proof.
  intros H [(id & w & Hid & Hs)|[Hs|Hs]]%pool_step_cases.
  - by eapply reported_worker.
  - by eapply reported_main.
  - destruct H as [H1 H2 H3 H4]. apply client_step_frame in Hs as (Ew & Em & Ep & Ee & Hi).
    constructor; rewrite ?Ew, ?Em, ?Ep, ?Ee; try done.
    intros id e He. destruct (H1 id e He) as [(p & Hp & Hor)|[Hp Hor]]; [|by auto].
    left. exists p. naive_solver.
Qed.

Lemma reported_init threads calls : reported (make_Thread_pool threads calls).
Proof.
  constructor; simpl; [|done|done|naive_solver].
  intros id e. by intros [? _]%lookup_replicate.
Qed.

(** ** Theorems *)

Section theorems.
Context (threads : nat) (calls : list api_call).
Hypothesis Hthreads : 0 < threads ∧ (Z.of_nat threads < 2 ^ 64)%Z.
Hypothesis Hcalls : Forall real_call calls.

Lemma reachable_facts s :
  pool_reachable threads calls s →
  (∃ WA MA, pool_inv threads s WA MA) ∧ reported s ∧ under_way s ⊆+ accepted calls ∧
  (m_worker_interrupt s = false → under_way s ≡ₚ accepted calls) ∧
  (existsb is_end calls = true → heard s).
Proof.
  intros Hr.
  destruct (pool_ind threads calls (λ s, reported s ∧ under_way s ⊆+ accepted calls ∧
    (m_worker_interrupt s = false → under_way s ≡ₚ accepted calls) ∧
    (existsb is_end calls = true → heard s))) with (s := s) as [? ?]; try done; try apply Hthreads.
  - split_and!; [apply reported_init| | |intros; by right; right; right].
    + unfold under_way. simpl. by rewrite bind_nothing.
    + intros _. unfold under_way. simpl. by rewrite bind_nothing.
  - intros s1 s2 WA MA Hinv (H1 & H2 & H3 & H4) Hs. split_and!.
    + by eapply reported_step.
    + destruct (under_way_step _ _ _ _ _ Hinv Hs) as [E|[_ E]]; [by rewrite E|by etrans].
    + intros Hi. destruct (under_way_step _ _ _ _ _ Hinv Hs) as [E|[Hi' _]]; [|congruence].
      rewrite E. apply H3. destruct (m_worker_interrupt s1) eqn:E1; [|done].
      rewrite (interrupt_step _ _ _ Hs E1) in Hi. done.
    + intros He. eapply heard_step; [by apply H4|done].
Qed.
End theorems.

(** A run of a pool with one worker and two tasks. *)
Definition sample_calls : list api_call :=
  [Add_task {| produce_data := Some (Ok ($"a")); process_data := λ _, Ok tt |} LOW;
   Add_task {| produce_data := Some (Ok ($"b")); process_data := λ _, Ok tt |} HIGH; Tasks_done].
Definition sample_schedule : list tid :=
  replicate 3 T_client ++ replicate 20 (T_worker 0) ++ replicate 20 T_main.

Lemma run_reachable threads calls ts s :
  pool_reachable threads calls s → pool_reachable threads calls (run_schedule threads ts s).
Proof.
  revert s. induction ts as [|t ts IH]; intros s H; simpl; [done|]. apply IH.
  destruct (thread_step threads t s) as [s'|] eqn:E; simpl; [|done].
  eapply rtc_r; [done|]. by exists t.
Qed.

(** C32: a pool with at least one worker, whose client adds tasks with a producer and calls
    [tasks_done] or [terminate], cannot deadlock or run forever: under every schedule the
    number of steps is bounded, and when no thread can move the client has made all its
    calls, all workers have ended and [process] has returned. *)
Theorem pool_terminates (threads : nat) (calls : list api_call) :
  0 < threads ∧ (Z.of_nat threads < 2 ^ 64)%Z → Forall real_call calls → existsb is_end calls = true →
  (∀ n s, nsteps (pool_step threads) n (make_Thread_pool threads calls) s →
     n ≤ work threads (make_Thread_pool threads calls)) ∧
  ∀ s, pool_reachable threads calls s → (∀ s', ¬ pool_step threads s s') →
    Forall (λ w, joinable w = true) (m_workers s) ∧ (∃ r, main s = M_returned r) ∧ script s = [].
Proof.
  intros Ht Hc He. split.
  - intros n s Hn. enough (n + work threads s ≤ work threads (make_Thread_pool threads calls)) by lia.
    assert (∃ WA MA, pool_inv threads (make_Thread_pool threads calls) WA MA) as Hinv
      by (exists [], []; apply inv_init; [apply Ht|apply Ht|done]).
    induction Hn as [s|n s1 s2 s3 Hs Hn IH]; [done|]. destruct Hinv as (WA & MA & Hinv).
    pose proof (work_decreases _ _ _ _ _ Hinv Hs). specialize (IH (inv_step _ _ _ _ _ Hinv Hs)). lia.
  - intros s Hr Hstuck. destruct (reachable_facts threads calls Ht Hc s Hr) as ((WA & MA & Hinv) & _ & _ & _ & Hh).
    eapply stuck_ended; [done| |by apply Hh]. intros t.
    destruct (thread_step threads t s) as [s'|] eqn:E; [|done]. destruct (Hstuck s'). by exists t.
Qed.

Lemma pool_terminates_witness :
  existsb is_end sample_calls = true ∧
  ∀ s, pool_reachable 2 sample_calls s → (∀ s', ¬ pool_step 2 s s') →
    Forall (λ w, joinable w = true) (m_workers s) ∧ (∃ r, main s = M_returned r) ∧ script s = [].
Proof.
  split; [reflexivity|]. apply (pool_terminates 2 sample_calls); [split; [lia|reflexivity]| |reflexivity].
  repeat constructor; by eexists.
Defined.

(** C33: the main thread never calls a processor twice or on data that no accepted task has
    produced; and when [process] has returned normally and nobody has interrupted the
    pool, it has called the processors of all accepted tasks, each once, on their data. *)
Theorem pool_processes_all (threads : nat) (calls : list api_call) (s : pool) :
  0 < threads ∧ (Z.of_nat threads < 2 ^ 64)%Z → Forall real_call calls → pool_reachable threads calls s →
  processed s ⊆+ accepted calls ∧
  (main s = M_returned (Ok tt) → m_worker_interrupt s = false → processed s ≡ₚ accepted calls).
Proof.
  intros Ht Hc Hr. destruct (reachable_facts threads calls Ht Hc s Hr) as ((WA & MA & Hinv) & _ & Hsub & Hall & _).
  split.
  - etrans; [|exact Hsub]. apply submseteq_inserts_r. done.
  - intros Em Hi. rewrite <- (Hall Hi). erewrite drained; [done|exact Hinv|done|]. by rewrite Em.
Qed.

Lemma pool_processes_all_witness :
  let s := run_schedule 1 sample_schedule (make_Thread_pool 1 sample_calls) in
  main s = M_returned (Ok tt) ∧ m_async_state s = DONE ∧ processed s ≡ₚ accepted sample_calls.
Proof.
  intros s. split; [vm_compute; reflexivity|]. split; [vm_compute; reflexivity|].
  apply (pool_processes_all 1 sample_calls s).
  - split; [lia|reflexivity].
  - repeat constructor; by eexists.
  - apply run_reachable, rtc_refl.
  - vm_compute. reflexivity.
  - vm_compute. reflexivity.
Defined.

(** C35: an exception of a producer or processor is not lost: when [process] has returned,
    all workers have ended, it has returned normally only if no worker has thrown, and
    what it throws was thrown by a producer, whose worker has recorded it, or by a
    processor it has called. *)
Theorem pool_exceptions (threads : nat) (calls : list api_call) (s : pool) (r : result unit) :
  0 < threads ∧ (Z.of_nat threads < 2 ^ 64)%Z → Forall real_call calls → pool_reachable threads calls s →
  main s = M_returned r →
  Forall (λ w, joinable w = true) (m_workers s) ∧
  match r with
  | Ok _ => Forall (λ o, o = None) (m_worker_exceptions s)
  | Throw e => Some e ∈ m_worker_exceptions s ∨ ∃ c, c ∈ processed s ∧ c.2 c.1 = Throw e
  end.
Proof.
  intros Ht Hc Hr Em. destruct (reachable_facts threads calls Ht Hc s Hr) as (_ & [_ H2 H3 H4] & _).
  split; [apply H2; by rewrite Em|]. destruct r as [[]|e]; auto.
Qed.

(** One worker and one task whose processor throws; the worker sets [m_async_state] after
    the main thread did. *)
Definition throwing_calls : list api_call :=
  [Add_task {| produce_data := Some (Ok ($"a")); process_data := λ _, Throw (runtime_error "x") |} LOW; Tasks_done].
Definition throwing_schedule : list tid :=
  replicate 2 T_client ++ replicate 8 (T_worker 0) ++ replicate 6 T_main ++ replicate 2 (T_worker 0) ++
  replicate 5 T_main.

Lemma pool_exceptions_witness :
  let s := run_schedule 1 throwing_schedule (make_Thread_pool 1 throwing_calls) in
  main s = M_returned (Throw (runtime_error "x")) ∧
  (Some (runtime_error "x") ∈ m_worker_exceptions s ∨
   ∃ c, c ∈ processed s ∧ c.2 c.1 = Throw (runtime_error "x")).
Proof.
  intros s. assert (main s = M_returned (Throw (runtime_error "x"))) as Em by (vm_compute; reflexivity).
  split; [exact Em|]. apply (pool_exceptions 1 throwing_calls s (Throw (runtime_error "x"))).
  - split; [lia|reflexivity].
  - repeat constructor; by eexists.
  - apply run_reachable, rtc_refl.
  - exact Em.
Defined.

(** [m_async_state] does not tell whether an exception has stopped the pool: the last
    worker writes it without looking at [m_worker_interrupt], so that a pool that was
    terminated by a processor that throws may be left with [PROCESSING], although its
    client is told to look for [TERMINATED]. *)
Theorem pool_state_overwritten :
  ∃ s, pool_reachable 1 throwing_calls s ∧ main s = M_returned (Throw (runtime_error "x")) ∧
    m_worker_interrupt s = true ∧ m_async_state s = PROCESSING ∧ ∀ s', ¬ pool_step 1 s s'.
Proof.
  exists (run_schedule 1 throwing_schedule (make_Thread_pool 1 throwing_calls)).
  split_and!; [apply run_reachable, rtc_refl|vm_compute; reflexivity..|].
  intros s' [[[|id]| |] H]; vm_compute in H; discriminate.
Qed.
