(* ===== verification/BlockAllocator.v ===== *)
(** * What an allocator promises to its clients

    The interface between [Allocator] (mysqlshdk/libs/storage/backend/in_memory/allocator.h),
    which implements it, and [AllocatedFile], whose theorems are proved against it. *)
From S2P Require Import Prelude.

Open Scope nat_scope.

(** Ranges of [n] bytes that do not overlap. *)
Definition apart (n a b : nat) : Prop := a + n ≤ b ∨ b + n ≤ a.

(** What an allocator promises to its clients; [ba_holds s live] says that they hold the
    blocks [live] of state [s]. *)
Class Block_allocator (A : Type) := {
  ba_block_size : A → nat;
  ba_allocate : nat → A → option (list nat * A);
  ba_free : nat → A → option A;
  ba_holds : A → list nat → Prop;
  ba_holds_perm s live live' : live ≡ₚ live' → ba_holds s live → ba_holds s live';
  ba_size_pos s live : ba_holds s live → 0 < ba_block_size s;
  ba_nodup s live : ba_holds s live → NoDup live;
  ba_apart s live b c : ba_holds s live → b ∈ live → c ∈ live → b ≠ c → apart (ba_block_size s) b c;
  ba_allocate_ok s live n :
    ba_holds s live → (Z.of_nat (n + ba_block_size s) <= 2 ^ 64)%Z → ∃ blocks s',
      ba_allocate n s = Some (blocks, s') ∧ ba_holds s' (blocks ++ live) ∧
      ba_block_size s' = ba_block_size s ∧
      length blocks = (n + ba_block_size s - 1) / ba_block_size s;
  ba_free_ok s live b :
    ba_holds s (b :: live) → ∃ s', ba_free b s = Some s' ∧ ba_holds s' live ∧
      ba_block_size s' = ba_block_size s;
}.

