(* ===== verification/Allocator.v ===== *)
(** * The allocator of the in-memory storage

    Model of [mysqlshdk/libs/storage/backend/in_memory/allocator.{h,cc}] (class
    [Allocator]): memory blocks of a fixed size, served from pages.  Addresses are natural
    numbers.  Where new pages are placed is decided by [operator new], an instance of the
    class [Heap]; a call through a pointer that is not there is [None].  Operations hold
    [m_mutex], so they are functions of the state. *)
From S2P Require Import Prelude.

Open Scope nat_scope.

(** [Page]: [m_memory] is its address, the vector of available blocks ends at its back. *)
Record Page := { m_memory : nat; m_available : list nat }.

#[global] Instance Page_eq_dec : EqDecision Page.
Proof. solve_decision. Defined.

(** What [std::make_unique<char[]>(page_size)] promises: the new page is at a valid address
    and does not overlap the pages that are in use. *)
Class Heap := {
  new_page : nat → list nat → nat;
  new_page_fresh page_size used a :
    a ∈ used → new_page page_size used + page_size ≤ a ∨ a + page_size ≤ new_page page_size used;
  new_page_valid page_size used : 0 < new_page page_size used;
}.

Record Allocator := {
  m_blocks_per_page : nat;
  m_block_size : nat;
  m_page_size : nat;
  m_pages : list Page;        (* std::set: in the order of their addresses *)
  m_full_pages : list Page;
  m_empty_page : option nat;  (* a pointer to a page: its address *)
  m_available_blocks : nat;
}.

Definition set_pages (pages full : list Page) (empty : option nat) (available : nat) (s : Allocator) : Allocator :=
  {| m_blocks_per_page := m_blocks_per_page s; m_block_size := m_block_size s;
     m_page_size := m_page_size s; m_pages := pages; m_full_pages := full;
     m_empty_page := empty; m_available_blocks := available |}.

(** ** Pages *)

(** The loop of the constructor: blocks from the end of the page to its beginning. *)
Definition make_Page (address page_size blocks block_size : nat) : Page :=
  {| m_memory := address;
     m_available := (λ i, address + page_size - (i + 1) * block_size) <$> seq 0 blocks |}.

(** The blocks taken from the back, and what is left. *)
Fixpoint use_blocks (blocks : nat) (available : list nat) (result : list nat) : list nat * list nat :=
  match blocks with
  | O => (result, available)
  | S blocks =>
      match last available with
      | None => (result, available)
      | Some b => use_blocks blocks (take (length available - 1) available) (result ++ [b])
      end
  end.

(** Insertion into a set ordered by [Compare_pages]; an equal element stays. *)
Fixpoint insert_page (p : Page) (pages : list Page) : list Page :=
  match pages with
  | [] => [p]
  | q :: rest =>
      if bool_decide (m_memory p < m_memory q) then p :: pages
      else if bool_decide (m_memory q < m_memory p) then q :: insert_page p rest
      else pages
  end.

(** The transparent comparison: neither is less than the other. *)
Definition holds_block (page_size block : nat) (p : Page) : bool :=
  negb (bool_decide (block < m_memory p)) && negb (bool_decide (m_memory p + (page_size - 1) < block)).

Definition find_page (page_size block : nat) (pages : list Page) : option (nat * Page) :=
  list_find (λ p, holds_block page_size block p = true) pages.

(** ** Operations *)

Section operations.
Context `{Heap}.

(** The addresses of the pages in use. *)
Definition used_pages (s : Allocator) : list nat := m_memory <$> m_pages s ++ m_full_pages s.

Definition add_page (s : Allocator) : Allocator :=
  let page := make_Page (new_page (m_page_size s) (used_pages s))
                (m_page_size s) (m_blocks_per_page s) (m_block_size s) in
  set_pages (insert_page page (m_pages s)) (m_full_pages s) (Some (m_memory page))
    (m_available_blocks s + m_blocks_per_page s) s.

Definition make_Allocator (page_size block_size : nat) : result Allocator :=
  if bool_decide (block_size = 0) then Throw (runtime_error "The block size cannot be 0")
  else
    let blocks_per_page := page_size / block_size in
    if bool_decide (blocks_per_page = 0) then Throw (runtime_error "The page size cannot be 0")
    else
      Ok (add_page {| m_blocks_per_page := blocks_per_page; m_block_size := block_size;
                      m_page_size := blocks_per_page * block_size; m_pages := []; m_full_pages := [];
                      m_empty_page := None; m_available_blocks := 0 |}).

Definition block_count (s : Allocator) (memory : nat) : nat :=
  Z.to_nat (u64 (Z.of_nat (memory + m_block_size s - 1))) / m_block_size s.

(** [while (blocks > m_available_blocks)]; [None] when the turns are used up. *)
Fixpoint add_pages (fuel : nat) (blocks : nat) (s : Allocator) : option Allocator :=
  if bool_decide (m_available_blocks s < blocks) then
    match fuel with
    | O => None
    | S fuel => add_pages fuel blocks (add_page s)
    end
  else Some s.

(** [while (blocks > 0)]. *)
Fixpoint take_blocks (fuel : nat) (blocks : nat) (result : list nat) (s : Allocator)
    : option (list nat * Allocator) :=
  if bool_decide (blocks = 0) then Some (result, s)
  else
    match fuel, m_pages s with
    | S fuel, page :: rest =>
        let '(taken, available) := use_blocks blocks (m_available page) [] in
        let allocated := length taken in
        let page := {| m_memory := m_memory page; m_available := available |} in
        let empty := if bool_decide (m_empty_page s = Some (m_memory page)) then None else m_empty_page s in
        let '(pages, full) :=
          if bool_decide (available = []) then (rest, insert_page page (m_full_pages s))
          else (page :: rest, m_full_pages s) in
        take_blocks fuel (blocks - allocated) (result ++ taken)
          (set_pages pages full empty (m_available_blocks s - allocated) s)
    | _, _ => None
    end.

Definition allocate (memory : nat) (s : Allocator) : option (list nat * Allocator) :=
  let blocks := block_count s memory in
  s ← add_pages blocks blocks s;
  take_blocks blocks blocks [] s.

Definition allocate_blocks (blocks : nat) (s : Allocator) : option (list nat * Allocator) :=
  allocate (Z.to_nat (u64 (Z.of_nat (blocks * m_block_size s)))) s.

Definition allocate_block (s : Allocator) : option (nat * Allocator) :=
  '(blocks, s) ← allocate_blocks 1 s;
  b ← head blocks;
  Some (b, s).

Definition remove_page (i : nat) (s : Allocator) : Allocator :=
  set_pages (delete i (m_pages s)) (m_full_pages s) (m_empty_page s)
    (m_available_blocks s - m_blocks_per_page s) s.

(** The first part of [free_block]: a full page is going to have a block. *)
Definition move_full_page (block : nat) (s : Allocator) : Allocator :=
  match find_page (m_page_size s) block (m_full_pages s) with
  | Some (i, full) =>
      set_pages (insert_page full (m_pages s)) (delete i (m_full_pages s)) (m_empty_page s)
        (m_available_blocks s) s
  | None => s
  end.

Definition free_block (block : nat) (s : Allocator) : option Allocator :=
  let s := move_full_page block s in
  '(i, page) ← find_page (m_page_size s) block (m_pages s);
  let page := {| m_memory := m_memory page; m_available := m_available page ++ [block] |} in
  let s := set_pages (<[i := page]> (m_pages s)) (m_full_pages s) (m_empty_page s)
             (m_available_blocks s + 1) s in
  if bool_decide (m_blocks_per_page s = length (m_available page)) then
    match m_empty_page s with
    | Some _ => Some (remove_page i s)
    | None => Some (set_pages (m_pages s) (m_full_pages s) (Some (m_memory page)) (m_available_blocks s) s)
    end
  else Some s.

(** [free] of a series of blocks. *)
Fixpoint free_blocks (blocks : list nat) (s : Allocator) : option Allocator :=
  match blocks with
  | [] => Some s
  | b :: blocks => s ← free_block b s; free_blocks blocks s
  end.

(** The assertions of the destructor. *)
Definition destructor_asserts (s : Allocator) : bool :=
  match m_pages s with
  | [page] => bool_decide (m_empty_page s = Some (m_memory page)) &&
              bool_decide (m_blocks_per_page s = m_available_blocks s)
  | _ => false
  end.
End operations.
