(* ===== verification/AllocatorFacts.v ===== *)
(** * The allocator of the in-memory storage: facts

    The invariant of the allocator relates its pages to the blocks its clients hold, and
    is kept by [allocate] and [free]: blocks handed out are inside pages and do not
    overlap, freeing never misses its page, and memory is given back. *)
From S2P Require Import Prelude BlockAllocator Allocator.

Open Scope nat_scope.

(** ** Vocabulary *)

(** The blocks of the page at an address. *)
Definition grid (block_size blocks address : nat) : list nat :=
  (λ i, address + i * block_size) <$> seq 0 blocks.

Section layout.
Context (bs bpp : nat).   (* size of a block, blocks per page *)

Definition grid_of (p : Page) : list nat := grid bs bpp (m_memory p).

(** Pages with available blocks, full pages, and the blocks [live] held by clients. *)
Record layout (pages full : list Page) (live : list nat) : Prop := {
  l_nodup : NoDup (m_memory <$> pages ++ full);
  l_apart : ∀ p q, p ∈ pages ++ full → q ∈ pages ++ full → m_memory p ≠ m_memory q →
    apart (bpp * bs) (m_memory p) (m_memory q);
  l_valid : Forall (λ p, 0 < m_memory p) (pages ++ full);
  l_avail : Forall (λ p, m_available p ⊆ grid_of p) (pages ++ full);
  l_pages : Forall (λ p, m_available p ≠ []) pages;
  l_full : Forall (λ p, m_available p = []) full;
  l_live : (pages ≫= m_available) ++ live ≡ₚ (pages ++ full) ≫= grid_of;
}.
End layout.

Definition unused (s : Allocator) (p : Page) : Prop := length (m_available p) = m_blocks_per_page s.

Record blocks_inv (s : Allocator) (live : list nat) : Prop := {
  v_size : 0 < m_block_size s ∧ 0 < m_blocks_per_page s ∧
    m_page_size s = m_blocks_per_page s * m_block_size s;
  v_layout : layout (m_block_size s) (m_blocks_per_page s) (m_pages s) (m_full_pages s) live;
  v_count : m_available_blocks s = length (m_pages s ≫= m_available);
}.

(** [m_empty_page] is an unused page. *)
Definition empty_ok (s : Allocator) : Prop :=
  ∀ a, m_empty_page s = Some a → ∃ p, p ∈ m_pages s ∧ m_memory p = a ∧ unused s p.

(** It is the only unused page. *)
Definition empty_only (s : Allocator) : Prop :=
  ∀ p, p ∈ m_pages s → unused s p → m_empty_page s = Some (m_memory p).

(** The invariant between calls. *)
Definition alloc_inv (s : Allocator) (live : list nat) : Prop :=
  blocks_inv s live ∧ empty_ok s ∧ empty_only s ∧ 0 < length (m_pages s ++ m_full_pages s).

(** ** Grids *)

Lemma elem_of_grid bs n a b : b ∈ grid bs n a ↔ ∃ i, i < n ∧ b = a + i * bs.
Proof.
  unfold grid. rewrite list_elem_of_fmap. split.
  - intros (i & -> & Hi%elem_of_seq). exists i. split; [lia|done].
  - intros (i & Hi & ->). exists i. split; [done|]. apply elem_of_seq. lia.
Qed.

Lemma grid_range bs n a b : b ∈ grid bs n a → a ≤ b ∧ b + bs ≤ a + n * bs.
Proof. intros (i & Hi & ->)%elem_of_grid. split; [lia|]. nia. Qed.

Lemma grid_apart bs n a b c : b ∈ grid bs n a → c ∈ grid bs n a → b ≠ c → apart bs b c.
Proof.
  intros (i & Hi & ->)%elem_of_grid (j & Hj & ->)%elem_of_grid Hne. unfold apart.
  destruct (decide (i < j)); [left; nia|right]. assert (i ≠ j) by congruence. nia.
Qed.

Lemma grid_NoDup bs n a : 0 < bs → NoDup (grid bs n a).
Proof.
  intros Hbs. apply NoDup_fmap_2_strong; [|apply NoDup_seq].
  intros i j _ _ H. assert (i * bs = j * bs) by lia. by apply Nat.mul_cancel_r in H0; [|lia].
Qed.

(** The vector of a new page holds its blocks, the first one at its back. *)
Lemma make_Page_grid a bs n :
  m_available (make_Page a (n * bs) n bs) ≡ₚ grid bs n a.
Proof.
  unfold make_Page, grid. simpl.
  assert (∀ k, k ≤ n → (λ i, a + n * bs - (i + 1) * bs) <$> seq (n - k) k ≡ₚ (λ i, a + i * bs) <$> seq 0 k) as H.
  { induction k as [|k IH]; intros Hk; [done|].
    replace (seq 0 (S k)) with (seq 0 k ++ [k]) by (by rewrite seq_S). rewrite fmap_app, <- IH by lia.
    simpl. replace (S (n - S k)) with (n - k) by lia.
    replace (a + n * bs - (n - S k + 1) * bs) with (a + k * bs); [solve_Permutation|].
    replace (n - S k + 1) with (n - k) by lia.
    pose proof (Nat.mul_sub_distr_r n k bs). assert (k * bs ≤ n * bs) by (apply Nat.mul_le_mono_r; lia). lia. }
  specialize (H n ltac:(lia)). by rewrite Nat.sub_diag in H.
Qed.

Lemma grid_length bs n a : length (grid bs n a) = n.
Proof. unfold grid. by rewrite length_fmap, length_seq. Qed.

(** ** Pages *)

Lemma use_blocks_spec n avail res :
  ∃ taken left, use_blocks n avail res = (res ++ taken, left) ∧ avail ≡ₚ taken ++ left ∧
    length taken = n `min` length avail.
Proof.
  revert avail res. induction n as [|n IH]; intros avail res; cbn [use_blocks].
  { exists [], avail. by rewrite app_nil_r. }
  destruct (last avail) as [b|] eqn:E.
  - apply last_Some in E as [l ->]. rewrite length_app. cbn [length].
    replace (length l + 1 - 1) with (length l) by lia. rewrite take_app_length.
    destruct (IH l (res ++ [b])) as (taken & left & -> & Hp & Hl).
    exists (b :: taken), left. rewrite <- (assoc_L (++)). split_and!; [done| |cbn [length]; lia].
    rewrite Hp. solve_Permutation.
  - apply last_None in E as ->. exists [], []. by rewrite app_nil_r.
Qed.

Lemma insert_page_perm p pages :
  m_memory p ∉ m_memory <$> pages → insert_page p pages ≡ₚ p :: pages.
Proof.
  induction pages as [|q pages IH]; csimpl; [done|]. rewrite not_elem_of_cons. intros [Hne Hni].
  case_bool_decide; [done|]. case_bool_decide; [|lia]. rewrite IH by done. constructor.
Qed.

(** ** Layouts *)

Lemma full_nothing (ps : list Page) : Forall (λ p, m_available p = []) ps → ps ≫= m_available = [].
Proof. induction 1 as [|p ps Hp Hps IH]; csimpl; [done|]. by rewrite Hp, IH. Qed.

#[global] Instance layout_proper bs bpp :
  Proper ((≡ₚ) ==> (≡ₚ) ==> (≡ₚ) ==> iff) (layout bs bpp).
Proof.
  enough (∀ ps ps' fs fs' l l', ps ≡ₚ ps' → fs ≡ₚ fs' → l ≡ₚ l' →
    layout bs bpp ps fs l → layout bs bpp ps' fs' l') as Himpl.
  { intros ps ps' Hp fs fs' Hf l l' Hl. split; apply Himpl; done. }
  intros ps ps' fs fs' l l' Hp Hf Hl [H1 H2 H3 H4 H5 H6 H7].
  assert (ps ++ fs ≡ₚ ps' ++ fs') as Hpf by by rewrite Hp, Hf.
  constructor; try by rewrite <- ?Hpf, <- ?Hp, <- ?Hf.
  - intros p q. rewrite <- Hpf. apply H2.
  - by rewrite <- Hpf, <- Hp, <- Hl.
Qed.

Section layout_facts.
Context (bs bpp : nat) (Hbs : 0 < bs).
Implicit Types (p q : Page) (pages full : list Page) (live : list nat).

Lemma page_range p b : b ∈ grid_of bs bpp p → m_memory p ≤ b ∧ b + bs ≤ m_memory p + bpp * bs.
Proof. apply grid_range. Qed.

Lemma blocks_apart pages full live b c :
  layout bs bpp pages full live →
  b ∈ (pages ++ full) ≫= grid_of bs bpp → c ∈ (pages ++ full) ≫= grid_of bs bpp → b ≠ c → apart bs b c.
Proof.
  intros H (p & Hb & Hp)%list_elem_of_bind (q & Hc & Hq)%list_elem_of_bind Hne.
  destruct (decide (m_memory p = m_memory q)) as [E|E].
  - unfold grid_of in *. rewrite E in Hb. by eapply grid_apart.
  - pose proof (page_range _ _ Hb). pose proof (page_range _ _ Hc).
    destruct (l_apart _ _ _ _ _ H p q Hp Hq E); unfold apart; lia.
Qed.

(** The page of a block is found, and no other one. *)
Lemma page_holds p b : b ∈ grid_of bs bpp p → holds_block (bpp * bs) b p = true.
Proof.
  intros Hb%page_range. unfold holds_block. rewrite !bool_decide_eq_false_2 by lia. done.
Qed.

Lemma page_unique pages full live p q b :
  layout bs bpp pages full live → p ∈ pages ++ full → q ∈ pages ++ full → b ∈ grid_of bs bpp p →
  holds_block (bpp * bs) b q = true → p = q.
Proof.
  intros H Hp Hq Hb Hh. unfold holds_block in Hh. bool_to_prop. pose proof (page_range _ _ Hb).
  destruct (decide (m_memory p = m_memory q)) as [E|E].
  - apply list_elem_of_lookup in Hp as [i Hi], Hq as [j Hj].
    pose proof (l_nodup _ _ _ _ _ H) as Hd. rewrite NoDup_alt in Hd.
    assert (i = j) as ->; [|congruence]. apply (Hd i j (m_memory p)).
    + by rewrite list_lookup_fmap, Hi.
    + by rewrite list_lookup_fmap, Hj, E.
  - destruct (l_apart _ _ _ _ _ H p q Hp Hq E); lia.
Qed.

Lemma grids_NoDup pages full live :
  layout bs bpp pages full live → NoDup ((pages ++ full) ≫= grid_of bs bpp).
Proof.
  intros H. pose proof (l_nodup _ _ _ _ _ H) as Hd. pose proof (l_apart _ _ _ _ _ H) as Ha. clear H.
  induction (pages ++ full) as [|p ps IH]; csimpl; [constructor|]. csimpl in Hd.
  apply NoDup_cons in Hd as [Hni Hd]. apply NoDup_app. split_and!.
  - by apply grid_NoDup.
  - intros b Hb (q & Hbq & Hq)%list_elem_of_bind.
    assert (m_memory p ≠ m_memory q) as Hne by (intros E; apply Hni; rewrite E; by apply list_elem_of_fmap_2).
    pose proof (page_range _ _ Hb). pose proof (page_range _ _ Hbq).
    destruct (Ha p q) as [?|?]; [set_solver..|done|lia|lia].
  - apply IH; [done|]. intros. apply Ha; set_solver.
Qed.

Lemma live_NoDup pages full live :
  layout bs bpp pages full live → NoDup ((pages ≫= m_available) ++ live).
Proof. intros H. rewrite (l_live _ _ _ _ _ H). by eapply grids_NoDup. Qed.

Lemma live_block pages full live b :
  layout bs bpp pages full live → b ∈ live → ∃ p, p ∈ pages ++ full ∧ b ∈ grid_of bs bpp p.
Proof.
  intros H Hb. assert (b ∈ (pages ++ full) ≫= grid_of bs bpp) as (p & ? & ?)%list_elem_of_bind; [|by exists p].
  rewrite <- (l_live _ _ _ _ _ H). apply elem_of_app. by right.
Qed.

(** A new page. *)
Lemma layout_add pages full live p :
  0 < bpp → layout bs bpp pages full live → 0 < m_memory p →
  (∀ q, q ∈ pages ++ full → apart (bpp * bs) (m_memory p) (m_memory q)) →
  m_available p ≡ₚ grid_of bs bpp p → layout bs bpp (p :: pages) full live.
Proof.
  intros Hbpp [H1 H2 H3 H4 H5 H6 H7] Hv Ha Hp.
  assert (∀ q, q ∈ pages ++ full → m_memory p ≠ m_memory q) as Hne.
  { intros q Hq E. destruct (Ha q Hq); nia. }
  constructor; csimpl.
  - apply NoDup_cons. split; [|done]. intros (q & ? & Hq)%list_elem_of_fmap. by eapply Hne.
  - intros q r [->|Hq]%elem_of_cons [->|Hr]%elem_of_cons E; [done|by apply Ha| |by apply H2].
    destruct (Ha q Hq); unfold apart; auto.
  - by constructor.
  - constructor; [|done]. by rewrite Hp.
  - constructor; [|done]. intros E. rewrite E in Hp. apply Permutation_nil_l, (f_equal length) in Hp.
    unfold grid_of in Hp. rewrite grid_length in Hp. simpl in Hp. lia.
  - done.
  - rewrite Hp, <- H7. solve_Permutation.
Qed.

(** The pages after the available blocks of [p] have changed. *)
Definition with_available (avail : list nat) p : Page := {| m_memory := m_memory p; m_available := avail |}.

(** Moves [p], with other blocks available, between the two sets of pages. *)
Lemma layout_update p0 avail pages full live pages' full' live' :
  layout bs bpp pages full live →
  let p := with_available avail p0 in
  (∃ ps fs, pages ++ full ≡ₚ p0 :: ps ++ fs ∧
     ((avail ≠ [] ∧ pages' ≡ₚ p :: ps ∧ full' ≡ₚ fs) ∨ (avail = [] ∧ pages' ≡ₚ ps ∧ full' ≡ₚ p :: fs)) ∧
     Forall (λ p, m_available p ≠ []) ps ∧ Forall (λ p, m_available p = []) fs) →
  avail ⊆ grid_of bs bpp p0 →
  avail ++ live' ≡ₚ m_available p0 ++ live →
  layout bs bpp pages' full' live'.
Proof.
  intros [H1 H2 H3 H4 H5 H6 H7] p (ps & fs & Hall & Hcase & Hps & Hfs) Hsub Hlive.
  assert (layout bs bpp (if decide (avail = []) then ps else p :: ps)
    (if decide (avail = []) then p :: fs else fs) live') as HL.
  2: { destruct Hcase as [(Hn & E1 & E2)|(Hn & E1 & E2)]; rewrite E1, E2.
       - by rewrite !decide_False in HL. - by rewrite !decide_True in HL. }
  assert ((if decide (avail = []) then ps else p :: ps) ++ (if decide (avail = []) then p :: fs else fs)
    ≡ₚ p :: ps ++ fs) as Hall'.
  { case_decide; [by rewrite <- Permutation_middle|done]. }
  assert (∀ q, q ∈ p :: ps ++ fs → ∃ q', q' ∈ pages ++ full ∧ m_memory q' = m_memory q) as Hmem.
  { intros q Hq. setoid_rewrite Hall. apply elem_of_cons in Hq as [->|Hq]; [by exists p0; set_solver|].
    exists q. set_solver. }
  assert (m_available p0 ++ (ps ≫= m_available) ≡ₚ pages ≫= m_available) as Hav.
  { pose proof full_nothing as Hnil.
    assert ((pages ++ full) ≫= m_available ≡ₚ (p0 :: ps ++ fs) ≫= m_available) as E by by rewrite Hall.
    rewrite bind_app, (Hnil full) in E by done. csimpl in E. rewrite bind_app, (Hnil fs) in E by done.
    rewrite !app_nil_r in E. by symmetry. }
  constructor.
  - rewrite Hall'. rewrite Hall in H1. done.
  - intros q r. rewrite Hall'. intros (q' & Hq' & <-)%Hmem (r' & Hr' & <-)%Hmem. by apply H2.
  - rewrite Hall'. rewrite Hall in H3. apply Forall_cons in H3 as [? H3]. by constructor.
  - rewrite Hall'. rewrite Hall in H4. apply Forall_cons in H4 as [_ H4]. by constructor.
  - case_decide; [done|by constructor].
  - case_decide; [by constructor|done].
  - rewrite Hall'. csimpl.
    assert ((if decide (avail = []) then ps else p :: ps) ≫= m_available ≡ₚ avail ++ (ps ≫= m_available)) as ->.
    { case_decide as E; [by rewrite E|done]. }
    rewrite Hall in H7. csimpl in H7.
    change (grid_of bs bpp p) with (grid_of bs bpp p0). rewrite <- H7, <- Hav.
    rewrite <- (assoc_L (++)), (Permutation_app_comm _ live'), (assoc_L (++)), Hlive. solve_Permutation.
Qed.

Lemma layout_remove p pages full live :
  layout bs bpp (p :: pages) full live → m_available p ≡ₚ grid_of bs bpp p → layout bs bpp pages full live.
Proof.
  intros [H1 H2 H3 H4 H5 H6 H7] Hp. csimpl in *.
  apply NoDup_cons in H1 as [_ H1]. apply Forall_cons in H3 as [_ H3], H4 as [_ H4], H5 as [_ H5].
  constructor; try done.
  - intros q r Hq Hr. apply H2; set_solver.
  - rewrite Hp in H7. rewrite <- (assoc_L (++)) in H7. by apply Permutation_app_inv_l in H7.
Qed.
End layout_facts.

(** ** Allocation *)

Definition page_count (s : Allocator) : nat := length (m_pages s ++ m_full_pages s).

Definition same_sizes (s s' : Allocator) : Prop :=
  m_block_size s' = m_block_size s ∧ m_blocks_per_page s' = m_blocks_per_page s ∧
  m_page_size s' = m_page_size s.

Lemma avail_submseteq s live p :
  blocks_inv s live → p ∈ m_pages s →
  m_available p ⊆+ grid_of (m_block_size s) (m_blocks_per_page s) p.
Proof.
  intros [(Hbs & _ & _) HL _] Hp. apply NoDup_submseteq.
  - apply live_NoDup in HL as HN; [|done]. apply NoDup_app in HN as (HN & _ & _).
    apply list_elem_of_split in Hp as (l1 & l2 & E). rewrite E, bind_app in HN. csimpl in HN.
    apply NoDup_app in HN as (_ & _ & HN). by apply NoDup_app in HN as (HN & _ & _).
  - pose proof (l_avail _ _ _ _ _ HL) as Ha. rewrite Forall_forall in Ha. apply Ha. set_solver.
Qed.

Lemma avail_length s live p :
  blocks_inv s live → p ∈ m_pages s → length (m_available p) ≤ m_blocks_per_page s.
Proof.
  intros Hs Hp. rewrite <- (grid_length (m_block_size s) (m_blocks_per_page s) (m_memory p)).
  by eapply submseteq_length, avail_submseteq.
Qed.

Lemma unused_grid s live p :
  blocks_inv s live → p ∈ m_pages s → unused s p →
  m_available p ≡ₚ grid_of (m_block_size s) (m_blocks_per_page s) p.
Proof.
  intros Hs Hp Hu. apply submseteq_length_Permutation; [by eapply avail_submseteq|].
  unfold grid_of. rewrite grid_length. unfold unused in Hu. lia.
Qed.

Lemma avail_sublength (ps : list Page) p : p ∈ ps → length (m_available p) ≤ length (ps ≫= m_available).
Proof.
  intros (l1 & l2 & ->)%list_elem_of_split. rewrite bind_app. csimpl. rewrite !length_app. lia.
Qed.

Section operation_facts.
Context `{Heap}.
Implicit Types (s : Allocator) (live : list nat).

Lemma add_page_inv s live :
  blocks_inv s live →
  blocks_inv (add_page s) live ∧ empty_ok (add_page s) ∧ same_sizes s (add_page s) ∧
  m_available_blocks (add_page s) = m_available_blocks s + m_blocks_per_page s ∧
  page_count (add_page s) = S (page_count s).
Proof.
  intros [(Hbs & Hbpp & Hps) HL Hc]. unfold add_page.
  set (a := new_page (m_page_size s) (used_pages s)).
  set (p := make_Page a (m_page_size s) (m_blocks_per_page s) (m_block_size s)).
  assert (m_available p ≡ₚ grid_of (m_block_size s) (m_blocks_per_page s) p) as Hg
    by (unfold p; rewrite Hps; apply make_Page_grid).
  assert (length (m_available p) = m_blocks_per_page s) as Hlp by (rewrite Hg; apply grid_length).
  assert (∀ q, q ∈ m_pages s ++ m_full_pages s →
    apart (m_blocks_per_page s * m_block_size s) (m_memory p) (m_memory q)) as Ha.
  { intros q Hq. rewrite <- Hps. apply (new_page_fresh (m_page_size s) (used_pages s)).
    by apply list_elem_of_fmap_2. }
  assert (insert_page p (m_pages s) ≡ₚ p :: m_pages s) as Hi.
  { apply insert_page_perm. intros (q & E & Hq)%list_elem_of_fmap.
    destruct (Ha q) as [?|?]; [set_solver|nia|nia]. }
  split_and!; [|intros ? [= <-]|done|done|by unfold page_count; simpl; rewrite Hi].
  - constructor; simpl; [done| |].
    + rewrite Hi. apply layout_add; [done..| |done|done]. apply new_page_valid.
    + rewrite Hi, bind_cons, length_app, Hlp, Hc. lia.
  - exists p. simpl. split_and!; [|done|].
    + rewrite Hi. set_solver.
    + exact Hlp.
Qed.

Lemma add_pages_spec fuel blocks s live :
  blocks_inv s live → empty_ok s → blocks ≤ m_available_blocks s + fuel →
  ∃ s', add_pages fuel blocks s = Some s' ∧ blocks_inv s' live ∧ empty_ok s' ∧ same_sizes s s' ∧
    page_count s ≤ page_count s' ∧
    blocks ≤ m_available_blocks s' ∧ (s' = s ∨ m_available_blocks s' < blocks + m_blocks_per_page s).
Proof.
  revert s. induction fuel as [|fuel IH]; intros s Hs He Hf; simpl; case_bool_decide.
  - lia.
  - exists s. split_and!; [done|done|done|done|done|lia|by left].
  - destruct (add_page_inv s live Hs) as (H1 & H2 & (E1 & E2 & E3) & E4 & E5).
    destruct (v_size _ _ Hs) as (_ & Hbpp & _).
    destruct (IH (add_page s) H1 H2) as (s' & ? & ? & ? & (F1 & F2 & F3) & ? & ? & Hor); [lia|].
    exists s'. split_and!; [done|done|done|split_and!; congruence|lia|done|]. right.
    destruct Hor as [->|Hor]; lia.
  - exists s. split_and!; [done|done|done|done|done|lia|by left].
Qed.

Lemma take_blocks_spec fuel blocks result s live :
  blocks_inv s live → empty_ok s → blocks ≤ m_available_blocks s → blocks ≤ fuel →
  ∃ taken s', take_blocks fuel blocks result s = Some (result ++ taken, s') ∧
    blocks_inv s' (taken ++ live) ∧ empty_ok s' ∧ (empty_only s → empty_only s') ∧ same_sizes s s' ∧
    length taken = blocks ∧ m_available_blocks s' = m_available_blocks s - blocks ∧
    page_count s' = page_count s.
Proof.
  revert blocks result s live. induction fuel as [|fuel IH]; intros blocks result s live Hs He Hb Hf;
    cbn [take_blocks]; (case_bool_decide as Hz; [subst; exists [], s; rewrite app_nil_r, Nat.sub_0_r; by split_and!|]); [lia|].
  pose proof (v_count _ _ Hs) as Hc. pose proof (v_layout _ _ Hs) as HL.
  destruct (m_pages s) as [|page rest] eqn:Ep; [simpl in Hc; lia|].
  destruct (use_blocks_spec blocks (m_available page) []) as (taken & left & -> & Hperm & Hlen).
  cbn [app m_memory m_available]. pose proof (l_pages _ _ _ _ _ HL) as Hne. apply Forall_cons in Hne as [Hne Hrest].
  pose proof (l_nodup _ _ _ _ _ HL) as Hnd. csimpl in Hnd. apply NoDup_cons in Hnd as [Hni Hnd].
  assert (0 < length taken) as Hpos by (destruct (m_available page); [done|]; simpl in Hlen; lia).
  assert (length (m_available page) = length taken + length left) as Hl by by rewrite Hperm, length_app.
  assert (length (m_available page) ≤ m_blocks_per_page s) as Hle by (eapply avail_length; [done|rewrite Ep; set_solver]).
  assert (left ⊆ grid_of (m_block_size s) (m_blocks_per_page s) page) as Hsub.
  { pose proof (l_avail _ _ _ _ _ HL) as Ha. apply Forall_cons in Ha as [Ha _].
    intros x Hx. apply Ha. rewrite Hperm. set_solver. }
  set (page' := {| m_memory := m_memory page; m_available := left |}).
  set (empty := if bool_decide (m_empty_page s = Some (m_memory page)) then None else m_empty_page s).
  destruct (if bool_decide (left = []) then (rest, insert_page page' (m_full_pages s))
            else (page' :: rest, m_full_pages s)) as [pages full] eqn:E.
  assert (layout (m_block_size s) (m_blocks_per_page s) pages full (taken ++ live)) as HL'.
  { eapply (layout_update _ _ (proj1 (v_size _ _ Hs)) page left); [exact HL| |done|rewrite Hperm; solve_Permutation].
    exists rest, (m_full_pages s). split_and!; [done| |done|apply HL].
    case_bool_decide as El; injection E as <- <-; [right|left]; split_and!; try done.
    apply insert_page_perm. intros Hin. apply Hni. rewrite fmap_app. set_solver. }
  assert (pages ≫= m_available ≡ₚ left ++ (rest ≫= m_available)) as Hpa.
  { case_bool_decide as El; injection E as <- <-; [by rewrite El|done]. }
  assert (length (pages ++ full) = length ((page :: rest) ++ m_full_pages s)) as Hcnt.
  { case_bool_decide; injection E as <- <-; [|done]. rewrite !length_app, insert_page_perm; [simpl; lia|].
    intros Hin. apply Hni. rewrite fmap_app. set_solver. }
  assert (∀ q, q ∈ rest → q ∈ pages) as Hin by (case_bool_decide; injection E as <- <-; set_solver).
  destruct (IH (blocks - length taken) (result ++ taken)
    (set_pages pages full empty (m_available_blocks s - length taken) s) (taken ++ live))
    as (taken' & s' & -> & Hs' & He' & Ho' & Hsz & Hl' & Hc' & Hn').
  - constructor; simpl; [apply Hs|done|]. rewrite Hpa, Hc. csimpl. rewrite !length_app. lia.
  - intros a Ha. simpl in Ha. unfold empty in Ha. case_bool_decide as Hea; [done|].
    destruct (He a Ha) as (q & Hq & <- & Hu). rewrite Ep in Hq. apply elem_of_cons in Hq as [->|Hq]; [done|].
    exists q. split_and!; [by apply Hin|done|done].
  - simpl. lia.
  - lia.
  - exists (taken ++ taken'), s'. rewrite (assoc_L (++)). split_and!; [done| |done| |done| | |].
    + destruct Hs' as [? ? ?]. constructor; [done| |done].
      by rewrite (Permutation_app_comm taken taken'), <- (assoc_L (++)).
    + intros Ho. apply Ho'. intros q Hq Hu. simpl in *. unfold empty, unused in *. simpl in Hu.
      assert (q ∈ rest) as Hqr.
      { destruct (bool_decide (left = [])); injection E as <- <-; [done|]. apply elem_of_cons in Hq as [->|Hq]; [|done].
        simpl in Hu. lia. }
      rewrite (Ho q); [|rewrite Ep; set_solver|done]. rewrite bool_decide_eq_false_2; [done|].
      intros [= E']. apply Hni. rewrite <- E', fmap_app. set_solver.
    + rewrite length_app. lia.
    + rewrite Hc'. simpl. lia.
    + rewrite Hn'. unfold page_count. simpl. rewrite Ep, <- Hcnt. done.
Qed.

Lemma allocate_inv memory s live :
  alloc_inv s live → (Z.of_nat (memory + m_block_size s) <= 2 ^ 64)%Z →
  ∃ blocks s', allocate memory s = Some (blocks, s') ∧ alloc_inv s' (blocks ++ live) ∧ same_sizes s s' ∧
    length blocks = (memory + m_block_size s - 1) / m_block_size s.
Proof.
  intros (Hs & He & Ho & Hne) Hm. destruct (v_size _ _ Hs) as (Hbs & _ & _). unfold allocate.
  assert (block_count s memory = (memory + m_block_size s - 1) / m_block_size s) as ->.
  { unfold block_count. by rewrite u64_small, Nat2Z.id by lia. }
  set (blocks := (memory + m_block_size s - 1) / m_block_size s).
  destruct (add_pages_spec blocks blocks s live) as (s1 & -> & Hs1 & He1 & (E1 & E2 & E3) & Hn1 & Hle & Hor);
    [done|done|lia|]. cbn [mbind option_bind].
  destruct (take_blocks_spec blocks blocks [] s1 live)
    as (taken & s2 & -> & Hs2 & He2 & Ho2 & (F1 & F2 & F3) & Hl & Hc & Hn2); [done..|].
  exists taken, s2. split_and!; [done| |split_and!; congruence|done].
  unfold page_count in *. split_and!; [done|done| |lia].
  destruct Hor as [->|Hlt]; [by apply Ho2|]. intros q Hq Hu. exfalso.
  pose proof (avail_sublength _ _ Hq) as Hq'. rewrite <- (v_count _ _ Hs2) in Hq'. unfold unused in Hu. lia.
Qed.

(** ** Freeing *)

Lemma find_page_found bs bpp pages full live l p b :
  0 < bs → layout bs bpp pages full live → (∀ q, q ∈ l → q ∈ pages ++ full) → p ∈ l →
  b ∈ grid_of bs bpp p → ∃ i, find_page (bpp * bs) b l = Some (i, p) ∧ l !! i = Some p.
Proof.
  intros Hbs HL Hsub Hp Hb. unfold find_page.
  destruct (list_find_elem_of (λ q, holds_block (bpp * bs) b q = true) l p) as [[i q] E];
    [done|by apply page_holds|].
  exists i. rewrite E. apply list_find_Some in E as (Hi & Hh & _).
  assert (p = q) as <-; [|done]. eapply page_unique; eauto.
  apply Hsub. by eapply list_elem_of_lookup_2.
Qed.

Lemma find_page_missing bs bpp pages full live l p b :
  0 < bs → layout bs bpp pages full live → (∀ q, q ∈ l → q ∈ pages ++ full) → p ∈ pages ++ full →
  p ∉ l → b ∈ grid_of bs bpp p → find_page (bpp * bs) b l = None.
Proof.
  intros Hbs HL Hsub Hp Hni Hb. apply list_find_None, Forall_forall. intros q Hq Hh.
  assert (p = q) as <-; [|done]. eapply page_unique; eauto.
Qed.

(** The page [p] of the block, at [j] in [m_pages] after the first part of [free_block],
    and the other pages [ps]. *)
Lemma move_full_page_spec s b live :
  blocks_inv s (b :: live) → let s1 := move_full_page b s in
  same_sizes s s1 ∧ m_empty_page s1 = m_empty_page s ∧ m_available_blocks s1 = m_available_blocks s ∧
  ∃ j p, m_pages s1 !! j = Some p ∧ find_page (m_page_size s) b (m_pages s1) = Some (j, p) ∧
    b ∈ grid_of (m_block_size s) (m_blocks_per_page s) p ∧
    m_pages s ++ m_full_pages s ≡ₚ p :: delete j (m_pages s1) ++ m_full_pages s1 ∧
    (∀ q, q ∈ delete j (m_pages s1) → q ∈ m_pages s) ∧
    (∀ q, q ∈ m_pages s → q = p ∨ q ∈ delete j (m_pages s1)) ∧
    Forall (λ p, m_available p = []) (m_full_pages s1).
Proof.
  intros Hs s1. destruct Hs as [(Hbs & Hbpp & Hps) HL Hc].
  destruct (live_block _ _ _ _ _ b HL) as (p & Hp & Hb); [set_solver|].
  pose proof (l_full _ _ _ _ _ HL) as Hfull.
  assert (p ∈ m_full_pages s ∨ p ∉ m_full_pages s) as [Hpf|Hpf] by (destruct (decide (p ∈ m_full_pages s)); auto).
  - destruct (find_page_found _ _ _ _ _ (m_full_pages s) p b Hbs HL) as (i & E & Hi); [set_solver|done|done|].
    rewrite <- Hps in E. unfold s1, move_full_page. rewrite E. simpl.
    pose proof (delete_Permutation _ _ _ Hi) as Hdel.
    assert (insert_page p (m_pages s) ≡ₚ p :: m_pages s) as Hins.
    { apply insert_page_perm. intros (q & Em & Hq)%list_elem_of_fmap.
      assert (p = q) as <-; [|].
      { eapply (page_unique (m_block_size s) (m_blocks_per_page s)); [done|exact HL|done|set_solver|exact Hb|].
        apply page_holds; [done|].
        unfold grid_of. by rewrite <- Em. }
      pose proof (l_pages _ _ _ _ _ HL) as Hpp. rewrite Forall_forall in Hpp, Hfull.
      by apply (Hpp p Hq), Hfull. }
    assert (∀ q, q ∈ insert_page p (m_pages s) → q ∈ m_pages s ++ m_full_pages s) as Hsub
      by (intros q; rewrite Hins; set_solver).
    destruct (find_page_found _ _ _ _ _ (insert_page p (m_pages s)) p b Hbs HL) as (j & Ej & Hj);
      [done|rewrite Hins; set_solver|done|].
    assert (m_pages s ≡ₚ delete j (insert_page p (m_pages s))) as Hdel2.
    { apply (Permutation_cons_inv (a := p)). rewrite <- Hins at 1. by apply delete_Permutation. }
    split_and!; [done|done|done|]. exists j, p.
    split_and!; [done|by rewrite Hps|done| | | |].
    + rewrite <- Hdel2. rewrite Hdel at 1. solve_Permutation.
    + intros q. by rewrite <- Hdel2.
    + intros q. rewrite <- Hdel2. auto.
    + rewrite Hdel in Hfull. by apply Forall_cons in Hfull as [_ ?].
  - pose proof (find_page_missing _ _ _ _ _ (m_full_pages s) p b Hbs HL) as E. rewrite <- Hps in E.
    unfold s1, move_full_page. rewrite E by (set_solver || done). assert (p ∈ m_pages s) as Hpp by set_solver.
    destruct (find_page_found _ _ _ _ _ (m_pages s) p b Hbs HL) as (j & Ej & Hj); [set_solver|done|done|].
    pose proof (delete_Permutation _ _ _ Hj) as Hdel. split_and!; [done|done|done|]. exists j, p.
    split_and!; [done|by rewrite Hps|done| | | |done].
    + by rewrite Hdel at 1.
    + intros q Hq. rewrite Hdel. set_solver.
    + intros q. rewrite Hdel at 1. set_solver.
Qed.

(** The state after the block has been added to its page. *)
Lemma free_block_added s b live :
  blocks_inv s (b :: live) → let s1 := move_full_page b s in
  ∃ j p, find_page (m_page_size s1) b (m_pages s1) = Some (j, p) ∧ j < length (m_pages s1) ∧
    (∀ q, q ∈ delete j (m_pages s1) → q ∈ m_pages s) ∧
    (∀ q, q ∈ m_pages s → q = p ∨ q ∈ delete j (m_pages s1)) ∧
    let p' := with_available (m_available p ++ [b]) p in
    let s2 := set_pages (<[j := p']> (m_pages s1)) (m_full_pages s1) (m_empty_page s1)
                (m_available_blocks s1 + 1) s1 in
    blocks_inv s2 live ∧ <[j := p']> (m_pages s1) ≡ₚ p' :: delete j (m_pages s1) ∧
    length (m_available p) < m_blocks_per_page s ∧ same_sizes s s2.
Proof.
  intros Hs s1.
  destruct (move_full_page_spec s b live Hs) as ((E1 & E2 & E3) & E4 & E5 & j & p & Hj & Hf & Hb & Hall & Hin & Hin' & Hfull).
  fold s1 in E1, E2, E3, E4, E5, Hj, Hf, Hall, Hin, Hin', Hfull.
  exists j, p. rewrite E3. pose proof (lookup_lt_Some _ _ _ Hj) as Hlt. split; [done|]. split; [done|].
  split; [done|]. split; [done|]. intros p' s2.
  destruct Hs as [(Hbs & Hbpp & Hps) HL Hc].
  assert (<[j := p']> (m_pages s1) ≡ₚ p' :: delete j (m_pages s1)) as Hins.
  { rewrite insert_take_drop, delete_take_drop by done. by rewrite <- Permutation_middle. }
  assert (layout (m_block_size s) (m_blocks_per_page s) (<[j := p']> (m_pages s1)) (m_full_pages s1) live) as HL'.
  { eapply (layout_update _ _ Hbs p (m_available p ++ [b])); [exact HL| | |solve_Permutation].
    - exists (delete j (m_pages s1)), (m_full_pages s1). split_and!; [done| | |done].
      + left. split_and!; [by destruct (m_available p)|done|done].
      + apply Forall_forall. intros q Hq. pose proof (l_pages _ _ _ _ _ HL) as Hpp.
        rewrite Forall_forall in Hpp. by apply Hpp, Hin.
    - pose proof (l_avail _ _ _ _ _ HL) as Ha. rewrite Hall in Ha. apply Forall_cons in Ha as [Ha _].
      intros x [?|Hx%list_elem_of_singleton]%elem_of_app; [by apply Ha|by subst]. }
  assert (blocks_inv s2 live) as Hs2.
  { constructor; simpl; rewrite ?E1, ?E2, ?E3; [done|done|]. rewrite E5, Hc, Hins, bind_cons, length_app.
    assert ((m_pages s ++ m_full_pages s) ≫= m_available ≡ₚ
      (p :: delete j (m_pages s1) ++ m_full_pages s1) ≫= m_available) as E by by rewrite Hall.
    rewrite bind_cons, !bind_app, (full_nothing (m_full_pages s)), (full_nothing (m_full_pages s1)) in E
      by (done || apply HL). rewrite !app_nil_r in E. rewrite E, length_app. simpl. rewrite length_app. simpl. lia. }
  split_and!; [done|done| |by split_and!].
  pose proof (avail_length s2 live p' Hs2) as Hl. simpl in Hl. rewrite E2, length_app in Hl. simpl in Hl.
  assert (p' ∈ <[j := p']> (m_pages s1)) as Hp' by (rewrite Hins; set_solver). specialize (Hl Hp'). lia.
Qed.

Lemma free_block_inv s b live :
  alloc_inv s (b :: live) → ∃ s', free_block b s = Some s' ∧ alloc_inv s' live ∧ same_sizes s s'.
Proof.
  intros (Hs & He & Ho & Hne).
  destruct (free_block_added s b live Hs) as (j & p & Hf & Hj & Hin & Hin' & H2).
  unfold free_block. set (s1 := move_full_page b s) in *. rewrite Hf. cbn [mbind option_bind].
  fold (with_available (m_available p ++ [b]) p). set (p' := with_available (m_available p ++ [b]) p) in *.
  set (s2 := set_pages (<[j := p']> (m_pages s1)) (m_full_pages s1) (m_empty_page s1) (m_available_blocks s1 + 1) s1) in *.
  cbn zeta in H2. destruct H2 as (Hs2 & Hperm & Hlt & Hsz). pose proof Hsz as (E1 & E2 & E3).
  destruct (move_full_page_spec s b live Hs) as (_ & E4 & _ & _). fold s1 in E4.
  assert (m_empty_page s2 = m_empty_page s) as E5 by done.
  change (m_blocks_per_page s2) with (m_blocks_per_page s1) in *.
  assert (unused s p → False) as Hnu by (unfold unused; lia).
  assert (∀ q, q ∈ m_pages s → unused s q → q ∈ delete j (m_pages s1)) as Hkeep.
  { intros q Hq Hu. destruct (Hin' q Hq) as [->|]; [by destruct Hnu|done]. }
  assert (∀ q, q ∈ m_pages s2 ↔ q = p' ∨ q ∈ delete j (m_pages s1)) as Hpages.
  { intros q. simpl. rewrite Hperm. apply elem_of_cons. }
  case_bool_decide as Hfull.
  - assert (unused s2 p') as Hu' by done. destruct (m_empty_page s2) as [e|] eqn:Ee.
    + eexists. split; [done|].
      assert (m_empty_page s = Some e) as Ee' by congruence. destruct (He e Ee') as (q & Hq & <- & Hu).
      assert (m_pages (remove_page j s2) = delete j (m_pages s1)) as Edel.
      { simpl. rewrite !delete_take_drop, take_insert_ge, drop_insert_lt by lia. done. }
      split; [|done]. split_and!.
      * assert (m_available p' ≡ₚ grid_of (m_block_size s2) (m_blocks_per_page s2) p') as Hg
          by (by apply (unused_grid s2 live); [|apply Hpages; left|]).
        destruct Hs2 as [Hsz2 HL Hc]. constructor; [done| |].
        -- rewrite Edel. simpl in *. rewrite Hperm in HL. eapply layout_remove; [apply Hsz2|exact HL|exact Hg].
        -- rewrite Edel. simpl in *. rewrite Hperm, bind_cons, length_app in Hc. unfold unused in Hu'. simpl in *. lia.
      * intros a Ha. simpl in Ha. rewrite E4, Ee' in Ha. injection Ha as <-. exists q. rewrite Edel.
        split_and!; [by apply Hkeep|done|]. unfold unused in *. simpl in *. congruence.
      * intros r Hr Hur. rewrite Edel in Hr. simpl. rewrite E4. apply Ho; [by apply Hin|].
        unfold unused in *. simpl in *. congruence.
      * rewrite Edel, length_app. pose proof (Hkeep q Hq Hu) as Hk. destruct (delete j (m_pages s1)); [set_solver|simpl; lia].
    + eexists. split; [done|]. split; [|done]. split_and!.
      * destruct Hs2 as [? ? ?]. by constructor.
      * intros a [= <-]. exists p'. split_and!; [by apply Hpages; left|done|done].
      * intros r Hr Hur. simpl in *. apply Hpages in Hr as [->|Hr]; [done|]. exfalso.
        assert (m_empty_page s = None) as Ee' by congruence. rewrite (Ho r) in Ee'; [done|by apply Hin|]. unfold unused in *. simpl in *. congruence.
      * simpl. rewrite length_app, length_insert. lia.
  - exists s2. split; [done|]. split; [|done]. split_and!.
    + done.
    + intros a Ha. rewrite E5 in Ha. destruct (He a Ha) as (q & Hq & <- & Hu). exists q.
      split_and!; [apply Hpages; right; by apply Hkeep|done|]. unfold unused in *. simpl in *. congruence.
    + intros r Hr Hur. rewrite E5. apply Hpages in Hr as [->|Hr]; [by destruct Hfull|].
      apply Ho; [by apply Hin|]. unfold unused in *. simpl in *. congruence.
    + simpl. rewrite length_app, length_insert. lia.
Qed.
End operation_facts.

(** ** Runs of an allocator and its clients *)

Section runs.
Context `{Heap} (page_size block_size : nat).

(** The allocator and the blocks its clients hold. *)
Inductive allocator_run : Allocator → list nat → Prop :=
| run_init s : make_Allocator page_size block_size = Ok s → allocator_run s []
| run_allocate s live memory blocks s' :
    allocator_run s live → (Z.of_nat (memory + block_size) <= 2 ^ 64)%Z →
    allocate memory s = Some (blocks, s') → allocator_run s' (blocks ++ live)
| run_free s live b live' s' :
    allocator_run s live → live ≡ₚ b :: live' → free_block b s = Some s' → allocator_run s' live'.

Lemma make_Allocator_inv s :
  make_Allocator page_size block_size = Ok s → alloc_inv s [] ∧ m_block_size s = block_size.
Proof.
  unfold make_Allocator. case_bool_decide as Hbs; [done|]. case_bool_decide as Hn; [done|]. intros [= <-].
  set (s0 := {| m_blocks_per_page := _ |}).
  destruct (add_page_inv s0 []) as (Hs & He & (E1 & E2 & E3) & Ha & Hc).
  { constructor; [split_and!; simpl; lia| |done]. constructor; try done; try constructor. set_solver. }
  split; [|done]. split_and!; [done|done| |].
  - intros p Hp _. simpl in *. set_solver.
  - unfold page_count in Hc. rewrite Hc. lia.
Qed.

Lemma live_perm s live live' : live ≡ₚ live' → alloc_inv s live → alloc_inv s live'.
Proof. intros Hp ([? ? ?] & ?). split; [|done]. constructor; [done|by rewrite <- Hp|done]. Qed.

Lemma run_inv s live : allocator_run s live → alloc_inv s live ∧ m_block_size s = block_size.
Proof.
  induction 1 as [s Hs|s live memory blocks s' Hr [IH Hb] Hm Ha|s live b live' s' Hr [IH Hb] Hp Hf].
  - by apply make_Allocator_inv.
  - destruct (allocate_inv memory s live) as (bl & s1 & E & Hi & (E1 & _) & _); [done|by rewrite Hb|].
    rewrite E in Ha. injection Ha as <- <-. split; [done|congruence].
  - apply (live_perm _ _ _ Hp) in IH. destruct (free_block_inv s b live' IH) as (s1 & E & Hi & (E1 & _)).
    rewrite E in Hf. injection Hf as <-. split; [done|congruence].
Qed.

Lemma pages_full_length s (ps : list Page) :
  Forall (λ p, length (m_available p) ≤ m_blocks_per_page s) ps →
  length ps * m_blocks_per_page s ≤ length (ps ≫= m_available) → Forall (unused s) ps.
Proof.
  assert (∀ ps, Forall (λ p, length (m_available p) ≤ m_blocks_per_page s) ps →
    length (ps ≫= m_available) ≤ length ps * m_blocks_per_page s) as Hle.
  { induction 1 as [|p ps' Hp Hps IH]; csimpl; [done|]. rewrite length_app. lia. }
  induction 1 as [|p ps Hp Hps IH]; csimpl; [constructor|]. rewrite length_app. intros Hl.
  pose proof (Hle ps Hps). constructor; [unfold unused; lia|]. apply IH. lia.
Qed.

Lemma grids_length bs n (ps : list Page) : length (ps ≫= grid_of bs n) = length ps * n.
Proof.
  induction ps as [|p ps IH]; csimpl; [done|]. unfold grid_of at 1. by rewrite length_app, grid_length, IH.
Qed.

Lemma run_free_blocks blocks s live s' :
  allocator_run s (blocks ++ live) → free_blocks blocks s = Some s' → allocator_run s' live.
Proof.
  revert s. induction blocks as [|b blocks IH]; intros s Hr Hf; simpl in *; [by injection Hf as <-|].
  destruct (free_block b s) as [s1|] eqn:E; [|done]. eapply (IH s1); [|done]. by eapply run_free.
Qed.

(** Without live blocks there is one page. *)
Lemma no_live_one_page s : alloc_inv s [] → destructor_asserts s = true.
Proof.
  intros (Hs & He & Ho & Hne). pose proof Hs as [(Hbs & Hbpp & Hps) HL Hc].
  pose proof (l_live _ _ _ _ _ HL) as Hl. rewrite app_nil_r in Hl. apply Permutation_length in Hl.
  rewrite grids_length, length_app in Hl.
  assert (Forall (unused s) (m_pages s)) as Hu.
  { apply pages_full_length; [|lia]. apply Forall_forall. intros p Hp. by eapply avail_length. }
  assert (length (m_pages s ≫= m_available) = length (m_pages s) * m_blocks_per_page s) as Hl'.
  { clear -Hu. induction Hu as [|p ps Hp Hps IH]; csimpl; [done|]. rewrite length_app, IH. by rewrite Hp. }
  assert (m_full_pages s = []) as Ef by (apply length_zero_iff_nil; nia).
  rewrite Ef, app_nil_r in Hne. unfold destructor_asserts.
  destruct (m_pages s) as [|p [|q ps]] eqn:Ep; [simpl in Hne; lia| |].
  - apply Forall_cons in Hu as [Hu _]. rewrite (Ho p) by (rewrite ?Ep; set_solver || done).
    rewrite bool_decide_eq_true_2 by done. rewrite bool_decide_eq_true_2; [done|]. rewrite Hc, Hl'. simpl. lia.
  - exfalso. apply Forall_cons in Hu as [Hu1 [Hu2 _]%Forall_cons].
    pose proof (Ho p) as H1. pose proof (Ho q) as H2. rewrite Ep in H1, H2.
    rewrite H1 in H2 by (set_solver || done). specialize (H2 ltac:(set_solver) Hu2). injection H2 as E.
    pose proof (l_nodup _ _ _ _ _ HL) as Hd. csimpl in Hd. apply NoDup_cons in Hd as [Hd _].
    apply Hd. rewrite E. set_solver.
Qed.
End runs.

Section interface.
Context `{Heap}.
Implicit Types (s : Allocator) (live : list nat).

Lemma inv_size_pos s live : alloc_inv s live → 0 < m_block_size s.
Proof. by intros ([(? & _ & _) _ _] & _). Qed.

Lemma inv_nodup s live : alloc_inv s live → NoDup live.
Proof. intros ([(Hbs & _ & _) HL _] & _). by apply (live_NoDup _ _ Hbs), NoDup_app in HL as (_ & _ & ?). Qed.

Lemma inv_apart s live b c :
  alloc_inv s live → b ∈ live → c ∈ live → b ≠ c → apart (m_block_size s) b c.
Proof.
  intros ([(Hbs & _ & _) HL _] & _) Hb Hc Hne.
  assert (∀ b, b ∈ live → b ∈ (m_pages s ++ m_full_pages s) ≫= grid_of (m_block_size s) (m_blocks_per_page s)) as Hin
    by (intros x Hx; rewrite <- (l_live _ _ _ _ _ HL); set_solver).
  eapply blocks_apart; eauto.
Qed.

Lemma inv_allocate s live n :
  alloc_inv s live → (Z.of_nat (n + m_block_size s) <= 2 ^ 64)%Z → ∃ blocks s',
    allocate n s = Some (blocks, s') ∧ alloc_inv s' (blocks ++ live) ∧ m_block_size s' = m_block_size s ∧
    length blocks = (n + m_block_size s - 1) / m_block_size s.
Proof. intros Hi Hm. destruct (allocate_inv n s live Hi Hm) as (bl & s' & ? & ? & (? & _) & ?). by exists bl, s'. Qed.

Lemma inv_free s live b :
  alloc_inv s (b :: live) → ∃ s', free_block b s = Some s' ∧ alloc_inv s' live ∧ m_block_size s' = m_block_size s.
Proof. intros Hi. destruct (free_block_inv s b live Hi) as (s' & ? & ? & (? & _)). by exists s'. Qed.
End interface.

(** The allocator keeps the promises of the interface. *)
#[global] Instance Allocator_block_allocator `{Heap} : Block_allocator Allocator :=
  {| ba_block_size := m_block_size; ba_allocate := allocate; ba_free := free_block;
     ba_holds := alloc_inv; ba_holds_perm := live_perm; ba_size_pos := inv_size_pos;
     ba_nodup := inv_nodup; ba_apart := inv_apart; ba_allocate_ok := inv_allocate;
     ba_free_ok := inv_free |}.

(** ** Theorems *)

(** A heap that puts every page behind the others. *)
Definition bump (page_size : nat) (used : list nat) : nat :=
  S (foldr (λ a m, (a + page_size) `max` m) 0 used).

Lemma bump_fresh page_size used a :
  a ∈ used → bump page_size used + page_size ≤ a ∨ a + page_size ≤ bump page_size used.
Proof.
  intros Ha. right. unfold bump.
  enough (a + page_size ≤ foldr (λ a m, (a + page_size) `max` m) 0 used) by lia.
  induction used as [|b used IH]; [set_solver|]. apply elem_of_cons in Ha as [->|Ha]; simpl; [lia|].
  specialize (IH Ha). lia.
Qed.

Lemma bump_valid page_size used : 0 < bump page_size used.
Proof. unfold bump. lia. Qed.

Definition bump_heap : Heap :=
  {| new_page := bump; new_page_fresh := bump_fresh; new_page_valid := bump_valid |}.
#[local] Existing Instance bump_heap.

Definition sample_allocator : Allocator :=
  add_page {| m_blocks_per_page := 4; m_block_size := 8; m_page_size := 32; m_pages := [];
              m_full_pages := []; m_empty_page := None; m_available_blocks := 0 |}.

(** C30: whatever its clients do, the blocks they hold are distinct, not null, and do not
    overlap; an allocation returns as many blocks as the memory needs, and freeing a
    block finds its page: neither follows a pointer that is not there, and the loops end. *)
Theorem allocator_safe `{Heap} (page_size block_size : nat) (s : Allocator) (live : list nat) :
  allocator_run page_size block_size s live →
  NoDup live ∧ Forall (λ b, 0 < b) live ∧
  (∀ b c, b ∈ live → c ∈ live → b ≠ c → apart block_size b c) ∧
  (∀ memory, (Z.of_nat (memory + block_size) <= 2 ^ 64)%Z → ∃ blocks s',
     allocate memory s = Some (blocks, s') ∧ length blocks = (memory + block_size - 1) / block_size) ∧
  (∀ b, b ∈ live → ∃ s', free_block b s = Some s').
Proof.
  intros Hr. destruct (run_inv _ _ _ _ Hr) as [Hi Hb]. pose proof Hi as ([(Hbs & _ & _) HL _] & _ & _ & _).
  split_and!; [by eapply inv_nodup| | | |].
  - apply Forall_forall. intros b Hl. destruct (live_block _ _ _ _ _ b HL Hl) as (p & Hp & Hg).
    pose proof (l_valid _ _ _ _ _ HL) as Hv. rewrite Forall_forall in Hv. specialize (Hv p Hp).
    apply grid_range in Hg. simpl in Hv. lia.
  - intros b c Hl Hc. rewrite <- Hb. by eapply inv_apart.
  - intros memory Hm. destruct (allocate_inv memory s live) as (bl & s' & E & _ & _ & Hl); [done|by rewrite Hb|].
    exists bl, s'. by rewrite Hl, Hb.
  - intros b (l1 & l2 & ->)%list_elem_of_split.
    destruct (free_block_inv s b (l1 ++ l2)) as (s' & ? & _); [|by exists s'].
    eapply live_perm; [|done]. by rewrite Permutation_middle.
Qed.

Lemma sample_run : allocator_run 32 8 sample_allocator [].
Proof. apply run_init. reflexivity. Qed.

Lemma allocator_safe_witness :
  ∃ blocks s', allocate 50 sample_allocator = Some (blocks, s') ∧ length blocks = 7.
Proof. apply (allocator_safe 32 8 sample_allocator [] sample_run). vm_compute. discriminate. Defined.

(** Pages do not leak: once its clients have freed all blocks, the allocator has one
    page, the one [m_empty_page] points to, and all its blocks are available, which is
    what the destructor asserts. *)
Theorem allocator_releases `{Heap} (page_size block_size : nat) (s : Allocator) :
  allocator_run page_size block_size s [] → destructor_asserts s = true ∧ m_full_pages s = [].
Proof.
  intros Hr. destruct (run_inv _ _ _ _ Hr) as [Hi Hb]. split; [by apply no_live_one_page|].
  destruct Hi as ([(Hbs & Hbpp & _) HL _] & _). pose proof (l_live _ _ _ _ _ HL) as Hl. rewrite app_nil_r in Hl.
  destruct (m_full_pages s) as [|p ps] eqn:Ef; [done|]. exfalso.
  pose proof (live_NoDup _ _ Hbs _ _ _ HL) as _.
  assert (m_memory p ∈ m_pages s ≫= m_available) as (q & Hq & Hqp)%list_elem_of_bind.
  { rewrite Hl. apply list_elem_of_bind. exists p. split; [|set_solver]. apply elem_of_grid. exists 0. lia. }
  assert (p = q) as <-.
  { eapply (page_unique _ _ Hbs _ _ _ p q (m_memory p) HL); [set_solver|set_solver|apply elem_of_grid; exists 0; lia|].
    apply page_holds; [done|]. pose proof (l_avail _ _ _ _ _ HL) as Ha. rewrite Forall_forall in Ha.
    apply (Ha q); [set_solver|done]. }
  pose proof (l_full _ _ _ _ _ HL) as Hf. apply Forall_cons in Hf as [Hf _]. rewrite Hf in Hq. set_solver.
Qed.

(** Seven blocks in two pages, and the allocator after they have been freed. *)
Definition sample_allocated : list nat * Allocator := default ([], sample_allocator) (allocate 50 sample_allocator).
Definition sample_freed : Allocator :=
  default sample_allocator (free_blocks sample_allocated.1 sample_allocated.2).

Lemma allocator_releases_witness :
  length (m_full_pages sample_allocated.2) = 1 ∧ destructor_asserts sample_freed = true.
Proof.
  split; [vm_compute; reflexivity|]. apply (allocator_releases 32 8).
  apply (run_free_blocks 32 8 sample_allocated.1 sample_allocated.2 []); [|vm_compute; reflexivity].
  apply (run_allocate 32 8 sample_allocator [] 50); [exact sample_run|vm_compute; discriminate|].
  vm_compute. reflexivity.
Defined.
