(* ===== verification/AllocatedFile.v ===== *)
(** * Files of the in-memory storage

    Model of [mysqlshdk/libs/storage/backend/in_memory/allocated_file.{h,cc}] (class
    [Allocated_file]): a file kept in blocks of an allocator, which are released while it
    is read.  The allocator is used through the class [Block_allocator], which states what
    the file relies on; [AllocatedFileFacts] uses the instance of [AllocatorFacts].

    The store holds the allocator and the contents of memory.  An operation returns the
    file after the call also when it throws, because an exception leaves it changed; the
    accesses to [m_blocks] and the calls of the allocator make [read] and [write] return
    [None] where they would be undefined.  A buffer is the list of its bytes. *)
From S2P Require Import Prelude BlockAllocator.

Open Scope nat_scope.

Record store (A : Type) := { st_allocator : A; st_memory : nat → ascii }.
Arguments st_allocator {A}.
Arguments st_memory {A}.

(** [memcpy] from and to memory. *)
Definition load (mem : nat → ascii) (a n : nat) : str := mem <$> seq a n.
Definition save (mem : nat → ascii) (a : nat) (data : str) : nat → ascii :=
  λ x, if decide (a ≤ x) then default (mem x) (data !! (x - a)) else mem x.

Record Allocated_file := {
  m_name : string;              (* of the base class IFile *)
  m_is_open : bool;
  m_read_mode : bool;
  m_size : nat;
  m_capacity : nat;
  m_offset : nat;
  m_block_size : nat;
  m_bytes_consumed : nat;
  m_reading_from_beginning : bool;
  m_blocks : list nat;
  m_consume_if_first : bool;
  m_accepts_append : bool;
}.

Definition make_Allocated_file (name : string) (block_size : nat) (consume_if_first : bool) : Allocated_file :=
  {| m_name := name; m_is_open := false; m_read_mode := false; m_size := 0; m_capacity := 0; m_offset := 0;
     m_block_size := block_size; m_bytes_consumed := 0; m_reading_from_beginning := false;
     m_blocks := []; m_consume_if_first := consume_if_first; m_accepts_append := true |}.

(** Updates of the fields the operations assign. *)
Definition set_mode (is_open read_mode accepts : bool) (f : Allocated_file) : Allocated_file :=
  {| m_name := m_name f; m_is_open := is_open; m_read_mode := read_mode; m_size := m_size f; m_capacity := m_capacity f;
     m_offset := m_offset f; m_block_size := m_block_size f; m_bytes_consumed := m_bytes_consumed f;
     m_reading_from_beginning := m_reading_from_beginning f; m_blocks := m_blocks f;
     m_consume_if_first := m_consume_if_first f; m_accepts_append := accepts |}.

Definition set_position (offset : nat) (from_beginning : bool) (f : Allocated_file) : Allocated_file :=
  {| m_name := m_name f; m_is_open := m_is_open f; m_read_mode := m_read_mode f; m_size := m_size f; m_capacity := m_capacity f;
     m_offset := offset; m_block_size := m_block_size f; m_bytes_consumed := m_bytes_consumed f;
     m_reading_from_beginning := from_beginning; m_blocks := m_blocks f;
     m_consume_if_first := m_consume_if_first f; m_accepts_append := m_accepts_append f |}.

Definition set_blocks (size capacity consumed : nat) (blocks : list nat) (f : Allocated_file) : Allocated_file :=
  {| m_name := m_name f; m_is_open := m_is_open f; m_read_mode := m_read_mode f; m_size := size; m_capacity := capacity;
     m_offset := m_offset f; m_block_size := m_block_size f; m_bytes_consumed := consumed;
     m_reading_from_beginning := m_reading_from_beginning f; m_blocks := blocks;
     m_consume_if_first := m_consume_if_first f; m_accepts_append := m_accepts_append f |}.

(** The exception of an operation: what it tried on which file, and why not. *)
Definition file_error (before : string) (f : Allocated_file) (after : string) : exn :=
  runtime_error (before ++ m_name f ++ after)%string.

(** ** Positions *)

Definition is_open (f : Allocated_file) : bool := m_is_open f.
Definition file_size (f : Allocated_file) : nat := m_size f.

Definition tell (f : Allocated_file) : result nat :=
  if negb (is_open f) then Throw (file_error "Unable to fetch offset of file: " f ", it is not open") else Ok (m_offset f).

Definition seek (offset : Z) (f : Allocated_file) : result nat * Allocated_file :=
  if (offset <? 0)%Z then (Throw (file_error "Unable to seek file: " f ", using disallowed negative value"), f)
  else if negb (is_open f) then (Throw (file_error "Unable to seek file: " f ", it is not open"), f)
  else
    let new_offset := Z.to_nat offset `min` m_size f in
    if bool_decide (new_offset < m_bytes_consumed f)
    then (Throw (file_error "Unable to seek file: " f ", requested offset has already been consumed"), f)
    else
      let f := set_position new_offset
        (bool_decide (new_offset = m_bytes_consumed f) ||
         (m_consume_if_first f && bool_decide (new_offset < m_bytes_consumed f + m_block_size f))) f in
      (tell f, f).

Definition open (read_mode : bool) (f : Allocated_file) : result unit * Allocated_file :=
  if is_open f then (Throw (file_error "Unable to open file: " f ", it is already open"), f)
  else if negb (bool_decide (m_bytes_consumed f = 0)) && negb read_mode
  then (Throw (file_error "Unable to open file: " f " for writing, it was already read from"), f)
  else
    let '(r, f) := seek 0 (set_mode true read_mode false f) in
    (r ≫= λ _, Ok tt, f).

Definition close (f : Allocated_file) : result unit * Allocated_file :=
  if negb (is_open f) then (Throw (file_error "Unable to close file: " f ", it is already closed"), f)
  else (Ok tt, set_mode false (m_read_mode f) (m_accepts_append f) f).

(** ** Reading and writing *)

Section io.
Context `{Block_allocator A}.

(** [while (length > 0 && m_offset != m_size)]: the bytes read, the file and the store. *)
Fixpoint read_loop (fuel length : nat) (block_number block_offset : nat) (out : str)
    (f : Allocated_file) (st : store A) : option (str * Allocated_file * store A) :=
  if bool_decide (length = 0) || bool_decide (m_offset f = m_size f) then Some (out, f, st)
  else
    match fuel with
    | O => None
    | S fuel =>
        let to_read := (length `min` (m_block_size f - block_offset)) `min` (m_size f - m_offset f) in
        block ← m_blocks f !! block_number;
        let out := out ++ load (st_memory st) (block + block_offset) to_read in
        let f := set_position (m_offset f + to_read) (m_reading_from_beginning f) f in
        let length := length - to_read in
        if m_reading_from_beginning f &&
           (bool_decide (block_offset + to_read = m_block_size f) || bool_decide (m_offset f = m_size f))
        then
          front ← head (m_blocks f);
          a ← ba_free front (st_allocator st);
          read_loop fuel length block_number 0 out
            (set_blocks (m_size f) (m_capacity f) (m_bytes_consumed f + m_block_size f)
               (tail (m_blocks f)) f)
            {| st_allocator := a; st_memory := st_memory st |}
        else read_loop fuel length (block_number + 1) 0 out f st
    end.

Definition read (length : nat) (f : Allocated_file) (st : store A)
    : option (result str * Allocated_file * store A) :=
  if negb (is_open f) then Some (Throw (file_error "Unable to read from file: " f ", it is not open"), f, st)
  else if negb (m_read_mode f)
  then Some (Throw (file_error "Unable to read from file: " f ", it is opened for writing"), f, st)
  else if bool_decide (m_offset f = m_size f) then Some (Ok [], f, st)
  else
    let block_number := (m_offset f - m_bytes_consumed f) / m_block_size f in
    let block_offset := m_offset f - m_bytes_consumed f - block_number * m_block_size f in
    '(out, f, st) ← read_loop length length block_number block_offset [] f st;
    Some (Ok out, f, st).

(** [while (length > 0)] of [write], on the memory. *)
Fixpoint write_loop (fuel : nat) (data : str) (block_number block_offset : nat) (block_size : nat)
    (blocks : list nat) (mem : nat → ascii) : option (nat → ascii) :=
  if bool_decide (data = []) then Some mem
  else
    match fuel with
    | O => None
    | S fuel =>
        let to_write := length data `min` (block_size - block_offset) in
        block ← blocks !! block_number;
        write_loop fuel (drop to_write data) (block_number + 1) 0 block_size blocks
          (save mem (block + block_offset) (take to_write data))
    end.

Definition write (data : str) (f : Allocated_file) (st : store A)
    : option (result nat * Allocated_file * store A) :=
  if negb (is_open f) then Some (Throw (file_error "Unable to write to file: " f ", it is not open"), f, st)
  else if m_read_mode f
  then Some (Throw (file_error "Unable to write to file: " f ", it is opened for reading"), f, st)
  else
    '(f, a) ← (if bool_decide (m_capacity f - m_offset f < length data) then
                 '(blocks, a) ← ba_allocate (length data - (m_capacity f - m_offset f)) (st_allocator st);
                 Some (set_blocks (m_size f) (m_capacity f + length blocks * m_block_size f)
                         (m_bytes_consumed f) (m_blocks f ++ blocks) f, a)
               else Some (f, st_allocator st));
    let block_number := m_offset f / m_block_size f in
    let block_offset := m_offset f - block_number * m_block_size f in
    mem ← write_loop (length data) data block_number block_offset (m_block_size f) (m_blocks f)
            (st_memory st);
    let f := set_position (m_offset f + length data) (m_reading_from_beginning f) f in
    let f := if bool_decide (m_size f < m_offset f)
             then set_blocks (m_offset f) (m_capacity f) (m_bytes_consumed f) (m_blocks f) f else f in
    Some (Ok (length data), f, {| st_allocator := a; st_memory := mem |}).

(** [append] of a block with [size] bytes, which the file takes over. *)
Definition append (block size : nat) (f : Allocated_file) : result unit * Allocated_file :=
  if negb (m_accepts_append f) then (Throw (file_error "Unable to append a block to file: " f ", not allowed"), f)
  else
    let f := set_blocks (m_size f + size) (m_capacity f + m_block_size f) (m_bytes_consumed f)
               (m_blocks f ++ [block]) f in
    (Ok tt, set_mode (m_is_open f) (m_read_mode f) (bool_decide (size = m_block_size f)) f).

(** The destructor gives the blocks back. *)
Fixpoint release (blocks : list nat) (a : A) : option A :=
  match blocks with
  | [] => Some a
  | b :: blocks => a ← ba_free b a; release blocks a
  end.

Definition destroy (f : Allocated_file) (st : store A) : option (store A) :=
  a ← release (m_blocks f) (st_allocator st);
  Some {| st_allocator := a; st_memory := st_memory st |}.
End io.
