(* ===== verification/AllocatedFileFacts.v ===== *)
(** * Files of the in-memory storage: facts

    A file refines a list of bytes with an offset: reads and writes act on that list,
    blocks that were read are given back, and the memory of other clients is not touched.
    The proofs use the interface of the allocator; the round trip at the end runs on the
    allocator itself. *)
From S2P Require Import Prelude BlockAllocator Allocator AllocatorFacts AllocatedFile.

Open Scope nat_scope.

(** ** Overwriting a value at a position of a text *)

Definition over (old : ascii) (pos : nat) (data : str) (x : nat) : ascii :=
  if decide (pos ≤ x) then default old (data !! (x - pos)) else old.

Lemma over_nil old pos x : over old pos [] x = old.
Proof. unfold over. by case_decide. Qed.

Lemma over_out old pos data x : x < pos ∨ pos + length data ≤ x → over old pos data x = old.
Proof. intros Hx. unfold over. case_decide; [|done]. rewrite lookup_ge_None_2; [done|lia]. Qed.

Lemma over_shift old pos data x n : over old (n + pos) data (n + x) = over old pos data x.
Proof.
  unfold over. replace (n + x - (n + pos)) with (x - pos) by lia.
  do 2 case_decide; lia || done.
Qed.

Lemma over_split old pos data x n :
  n ≤ length data →
  over (over old pos (take n data) x) (pos + n) (drop n data) x = over old pos data x.
Proof.
  intros Hn. unfold over. destruct (decide (pos + n ≤ x)) as [H|H].
  - rewrite decide_True by lia. rewrite (decide_True (P := pos ≤ x)) by lia.
    rewrite lookup_drop. replace (n + (x - (pos + n))) with (x - pos) by lia.
    rewrite (lookup_take_ge data) by lia. done.
  - destruct (decide (pos ≤ x)); [|done]. by rewrite lookup_take_lt by lia.
Qed.

(** Overwriting part of a text, growing it if needed. *)
Definition splice (c : str) (pos : nat) (data : str) : str := take pos c ++ data ++ drop (pos + length data) c.

Lemma length_splice c pos data : pos ≤ length c → length (splice c pos data) = length c `max` (pos + length data).
Proof. intros. unfold splice. rewrite !length_app, length_take, length_drop. lia. Qed.

Lemma lookup_splice c pos data x :
  pos ≤ length c → x < length (splice c pos data) →
  splice c pos data !! x = Some (over (default "000"%char (c !! x)) pos data x).
Proof.
  intros Hp Hx. rewrite length_splice in Hx by done. unfold splice, over. case_decide as E.
  - rewrite lookup_app_r by (rewrite length_take; lia). rewrite length_take, Nat.min_l by lia.
    destruct (data !! (x - pos)) as [d|] eqn:Ed.
    + by rewrite lookup_app_l, Ed by (by eapply lookup_lt_Some).
    + apply lookup_ge_None in Ed. rewrite lookup_app_r by done. rewrite lookup_drop.
      replace (pos + length data + (x - pos - length data)) with x by lia.
      destruct (lookup_lt_is_Some_2 c x) as [d Hd]; [lia|]. by rewrite Hd.
  - rewrite lookup_app_l by (rewrite length_take; lia). rewrite lookup_take_lt by lia.
    destruct (lookup_lt_is_Some_2 c x) as [d Hd]; [lia|]. by rewrite Hd.
Qed.

(** ** Blocks and positions *)

Section blocks.
Context (bs : nat) (Hbs : 0 < bs).

Lemma div_mod_pos i r : r < bs → (i * bs + r) / bs = i ∧ (i * bs + r) mod bs = r.
Proof.
  intros Hr. split.
  - rewrite Nat.div_add_l, Nat.div_small by lia. lia.
  - rewrite Nat.add_comm, Nat.Div0.mod_add. by apply Nat.mod_small.
Qed.

Lemma pos_div_mod x : x = x / bs * bs + x mod bs ∧ x mod bs < bs.
Proof. split; [rewrite Nat.mul_comm; by apply Nat.div_mod_eq|apply Nat.mod_upper_bound; lia]. Qed.

(** Positions in different blocks. *)
Lemma block_pos i j r : i ≠ j → r < bs → i * bs + r < j * bs ∨ (j + 1) * bs ≤ i * bs + r.
Proof. intros. destruct (decide (i < j)); [left|right]; nia. Qed.

Definition separate (blocks : list nat) : Prop :=
  ∀ i j b c, blocks !! i = Some b → blocks !! j = Some c → i ≠ j → apart bs b c.

(** Saving inside block [k] overwrites the text of the blocks at its position. *)
Lemma save_block blocks mem k b0 o data i b r :
  separate blocks → blocks !! k = Some b0 → o + length data ≤ bs → blocks !! i = Some b → r < bs →
  save mem (b0 + o) data (b + r) = over (mem (b + r)) (k * bs + o) data (i * bs + r).
Proof.
  intros Hsep Hk Hd Hi Hr. change (over (mem (b + r)) (b0 + o) data (b + r) =
    over (mem (b + r)) (k * bs + o) data (i * bs + r)).
  destruct (decide (i = k)) as [->|Hne].
  - rewrite Hi in Hk. injection Hk as ->. by rewrite !over_shift.
  - destruct (Hsep i k b b0 Hi Hk Hne) as [?|?].
    + rewrite over_out by lia. rewrite over_out; [done|]. pose proof (block_pos i k r Hne Hr). lia.
    + rewrite over_out by lia. rewrite over_out; [done|]. pose proof (block_pos i k r Hne Hr). lia.
Qed.

(** Addresses outside the blocks. *)
Definition outside (blocks : list nat) (a : nat) : Prop := ∀ b, b ∈ blocks → a < b ∨ b + bs ≤ a.

Lemma save_outside blocks mem k b0 o data a :
  blocks !! k = Some b0 → o + length data ≤ bs → outside blocks a → save mem (b0 + o) data a = mem a.
Proof.
  intros Hk Hd Ha. change (over (mem a) (b0 + o) data a = mem a). apply over_out.
  destruct (Ha b0); [by eapply list_elem_of_lookup_2|lia|lia].
Qed.

Lemma write_loop_spec blocks fuel data k o mem :
  separate blocks → length data ≤ fuel → o < bs → k * bs + o + length data ≤ length blocks * bs →
  ∃ mem', write_loop fuel data k o bs blocks mem = Some mem' ∧
    (∀ i b r, blocks !! i = Some b → r < bs →
       mem' (b + r) = over (mem (b + r)) (k * bs + o) data (i * bs + r)) ∧
    (∀ a, outside blocks a → mem' a = mem a).
Proof.
  intros Hsep. revert data k o mem. induction fuel as [|fuel IH]; intros data k o mem Hf Ho Hlen; simpl.
  { destruct data; [|simpl in Hf; lia]. exists mem. split_and!; [done| |done]. intros. by rewrite over_nil. }
  case_bool_decide as Hd.
  { subst. exists mem. split_and!; [done| |done]. intros. by rewrite over_nil. }
  assert (0 < length data) by (destruct data; [done|simpl; lia]).
  set (n := length data `min` (bs - o)).
  destruct (lookup_lt_is_Some_2 blocks k) as [b0 Hk]; [nia|]. rewrite Hk. cbn [mbind option_bind].
  assert (length (take n data) = n) as Hn by (rewrite length_take; lia).
  assert (drop n data ≠ [] → n = bs - o) as Hfull.
  { intros Hne. destruct (decide (n = bs - o)); [done|]. rewrite drop_ge in Hne by lia. done. }
  assert ((k + 1) * bs + 0 + length (drop n data) ≤ length blocks * bs) as Hlen'.
  { rewrite length_drop. destruct (decide (n = bs - o)); [nia|]. assert (n = length data) by lia.
    assert (k < length blocks) by (by eapply lookup_lt_Some). nia. }
  destruct (IH (drop n data) (k + 1) 0 (save mem (b0 + o) (take n data))) as (mem' & -> & H1 & H2);
    [rewrite length_drop; lia|lia|done|].
  exists mem'. split_and!; [done| |].
  - intros i b r Hi Hr. rewrite (H1 i b r Hi Hr). rewrite (save_block blocks mem k b0 o _ i) by (done || lia).
    destruct (decide (drop n data = [])) as [E|E].
    + rewrite E, over_nil. f_equal. rewrite <- (take_drop n data) at 2. by rewrite E, app_nil_r.
    + replace ((k + 1) * bs + 0) with (k * bs + o + n) by (rewrite (Hfull E); lia).
      apply over_split. lia.
  - intros a Ha. rewrite H2 by done. eapply save_outside; [done| |done]. lia.
Qed.

(** The text [c] from [consumed] on is stored in the blocks. *)
Definition stored (mem : nat → ascii) (blocks : list nat) (consumed : nat) (c : str) : Prop :=
  ∀ x, consumed ≤ x < length c → ∃ b, blocks !! ((x - consumed) / bs) = Some b ∧
    c !! x = Some (mem (b + (x - consumed) mod bs)).

(** Loading within a block. *)
Lemma load_stored mem blocks consumed c b x n :
  stored mem blocks consumed c → consumed ≤ x → x + n ≤ length c →
  blocks !! ((x - consumed) / bs) = Some b → (x - consumed) mod bs + n ≤ bs →
  load mem (b + (x - consumed) mod bs) n = take n (drop x c).
Proof.
  intros Hst Hx Hn Hb Hm. apply list_eq. intros i. unfold load. rewrite list_lookup_fmap.
  destruct (decide (i < n)) as [Hi|Hi].
  - rewrite lookup_seq_lt, lookup_take_lt, lookup_drop by done. simpl.
    destruct (Hst (x + i)) as (b' & Hb' & ->); [lia|].
    destruct (pos_div_mod (x - consumed)) as [E Hr].
    assert ((x + i - consumed) = (x - consumed) / bs * bs + ((x - consumed) mod bs + i)) as E' by lia.
    destruct (div_mod_pos ((x - consumed) / bs) ((x - consumed) mod bs + i)) as [E1 E2]; [lia|].
    rewrite <- E' in E1, E2. rewrite E1 in Hb'. rewrite E2. simplify_eq. by rewrite Nat.add_assoc.
  - rewrite lookup_take_ge by lia. rewrite lookup_ge_None_2; [done|]. rewrite length_seq. lia.
Qed.

(** Without the first block. *)
Lemma stored_tail mem b blocks consumed c :
  stored mem (b :: blocks) consumed c → stored mem blocks (consumed + bs) c.
Proof.
  intros Hst x Hx. destruct (Hst x) as (b' & Hb' & ->); [lia|]. exists b'.
  assert (x - consumed = 1 * bs + (x - (consumed + bs))) as E by lia. rewrite E in *.
  rewrite Nat.div_add_l in Hb' by lia. split; [done|]. do 3 f_equal.
  rewrite Nat.add_comm. by rewrite Nat.Div0.mod_add.
Qed.
End blocks.

(** ** The file as a text *)

Section file.
Context `{Block_allocator A}.
Implicit Types (f : Allocated_file) (st : store A) (c : str) (others : list nat).

(** The file stores the text [c]; other clients hold the blocks [others]. *)
Record file_inv f st c others : Prop := {
  fi_bs : m_block_size f = ba_block_size (st_allocator st) ∧ 0 < m_block_size f;
  fi_holds : ba_holds (st_allocator st) (m_blocks f ++ others);
  fi_size : m_size f = length c;
  fi_stored : stored (m_block_size f) (st_memory st) (m_blocks f) (m_bytes_consumed f) c;
  fi_capacity : m_capacity f = m_bytes_consumed f + length (m_blocks f) * m_block_size f;
  fi_fits : m_size f ≤ m_capacity f;
  fi_offset : m_offset f ≤ m_size f;
  fi_write : m_is_open f = true → m_read_mode f = false → m_bytes_consumed f = 0;
  fi_read : m_offset f = m_size f ∨ m_bytes_consumed f ≤ m_offset f;
  fi_begin : 0 < m_bytes_consumed f ∨ (m_is_open f = true ∧ m_read_mode f = true) →
    m_reading_from_beginning f = true →
    m_offset f = m_size f ∨ m_offset f < m_bytes_consumed f + m_block_size f;
}.

(** No block is needed only for bytes behind the end. *)
Definition tight f : Prop := m_capacity f < m_size f + m_block_size f.

Lemma separate_blocks f st c others : file_inv f st c others → separate (m_block_size f) (m_blocks f).
Proof.
  intros Hf i j b d Hi Hj Hne. destruct (fi_bs _ _ _ _ Hf) as [-> _].
  pose proof (fi_holds _ _ _ _ Hf) as Hh. eapply ba_apart; [exact Hh| | |].
  - apply elem_of_app. left. by eapply list_elem_of_lookup_2.
  - apply elem_of_app. left. by eapply list_elem_of_lookup_2.
  - intros ->. pose proof (ba_nodup _ _ Hh) as (Hnd & _ & _)%NoDup_app.
    destruct Hne. eapply (proj1 (NoDup_alt _) Hnd); eauto.
Qed.

(** The blocks of other clients are outside those of the file. *)
Lemma others_outside f st c others b r :
  file_inv f st c others → b ∈ others → r < m_block_size f → outside (m_block_size f) (m_blocks f) (b + r).
Proof.
  intros Hf Hb Hr d Hd. destruct (fi_bs _ _ _ _ Hf) as [Ebs _]. pose proof (fi_holds _ _ _ _ Hf) as Hh.
  assert (b ≠ d) as Hne.
  { intros ->. pose proof (ba_nodup _ _ Hh) as (_ & Hnd & _)%NoDup_app. by eapply Hnd. }
  destruct (ba_apart _ _ b d Hh) as [?|?]; [set_solver|set_solver|done|lia|lia].
Qed.

(** The invariant only depends on the memory of the file. *)
Lemma file_inv_frame f st c others st' others' :
  file_inv f st c others → ba_holds (st_allocator st') (m_blocks f ++ others') →
  ba_block_size (st_allocator st') = ba_block_size (st_allocator st) →
  (∀ b r, b ∈ m_blocks f → r < m_block_size f → st_memory st' (b + r) = st_memory st (b + r)) →
  file_inv f st' c others'.
Proof.
  intros [[Ebs Hbs] Hh Hsz Hst Hcap Hfit Hoff Hw Hr Hbeg] Hh' Ebs' Hmem. constructor; try done.
  - by rewrite Ebs'.
  - intros x Hx. destruct (Hst x Hx) as (b & Hb & ->). exists b. split; [done|]. f_equal. symmetry. apply Hmem.
    + by eapply list_elem_of_lookup_2.
    + apply Nat.mod_upper_bound. lia.
Qed.

(** *** Reading *)

(** [f] after bytes up to [off] have been read, and [n] blocks released. *)
Definition same_file f f' : Prop :=
  m_is_open f' = m_is_open f ∧ m_read_mode f' = m_read_mode f ∧ m_size f' = m_size f ∧
  m_capacity f' = m_capacity f ∧ m_block_size f' = m_block_size f ∧
  m_reading_from_beginning f' = m_reading_from_beginning f.

Lemma read_turn_keep f st c others n :
  file_inv f st c others → m_is_open f = true → m_read_mode f = true →
  m_bytes_consumed f ≤ m_offset f → m_offset f + n ≤ m_size f →
  (m_reading_from_beginning f = true → m_offset f + n = m_size f ∨ m_offset f + n < m_bytes_consumed f + m_block_size f) →
  file_inv (set_position (m_offset f + n) (m_reading_from_beginning f) f) st c others.
Proof.
  intros [] Ho Hm Hc Hn Hb. constructor; simpl; try done; try lia.
Qed.

Lemma read_turn_discard f st c others n front blocks :
  file_inv f st c others → m_is_open f = true → m_read_mode f = true →
  m_bytes_consumed f ≤ m_offset f → m_offset f + n ≤ m_size f →
  m_offset f + n = m_bytes_consumed f + m_block_size f ∨ m_offset f + n = m_size f →
  m_blocks f = front :: blocks →
  ∃ a, ba_free front (st_allocator st) = Some a ∧
    file_inv (set_blocks (m_size f) (m_capacity f) (m_bytes_consumed f + m_block_size f) blocks
                (set_position (m_offset f + n) (m_reading_from_beginning f) f))
      {| st_allocator := a; st_memory := st_memory st |} c others.
Proof.
  intros Hf Ho Hm Hc Hn Hor Hb. pose proof Hf as [[Ebs Hpos] Hh Hsz Hst Hcap Hfit Hoff Hw Hr Hbeg].
  rewrite Hb in Hh, Hst, Hcap. cbn [app length] in Hh, Hcap.
  destruct (ba_free_ok (st_allocator st) (blocks ++ others) front Hh) as (a & E & Hh' & Ebs').
  exists a. split; [done|]. constructor; simpl; try done; try lia.
  - by apply stored_tail in Hst.
  - by rewrite Hm.
Qed.

Lemma read_loop_spec fuel len k o out f st c others :
  file_inv f st c others → m_is_open f = true → m_read_mode f = true → len ≤ fuel →
  (len = 0 ∨ m_offset f = m_size f ∨
   (m_bytes_consumed f ≤ m_offset f ∧ k = (m_offset f - m_bytes_consumed f) / m_block_size f ∧
    o = (m_offset f - m_bytes_consumed f) mod m_block_size f)) →
  ∃ f' st', read_loop fuel len k o out f st = Some (out ++ take len (drop (m_offset f) c), f', st') ∧
    file_inv f' st' c others ∧ m_offset f' = (m_offset f + len) `min` m_size f ∧
    same_file f f' ∧ st_memory st' = st_memory st ∧ m_bytes_consumed f ≤ m_bytes_consumed f' ∧
    (m_reading_from_beginning f = true → m_offset f < m_size f → m_size f ≤ m_offset f + len →
     m_size f ≤ m_bytes_consumed f').
Proof.
  revert len k o out f st. induction fuel as [|fuel IH]; intros len k o out f st Hf Ho Hm Hle Hpos.
  all: cbn [read_loop]; destruct (bool_decide (len = 0) || bool_decide (m_offset f = m_size f)) eqn:Ez.
  1,3: exists f, st; pose proof (fi_offset _ _ _ _ Hf); pose proof (fi_size _ _ _ _ Hf);
    apply orb_true_iff in Ez as [Ez|Ez]; bool_to_prop; subst;
    (split_and!; [|done|lia|by split_and!|done|done|lia]); rewrite ?take_0, ?drop_ge, ?take_nil, ?app_nil_r by lia; done.
  { apply orb_false_iff in Ez as [? ?]. bool_to_prop. lia. }
  apply orb_false_iff in Ez as [Ez1 Ez2]. bool_to_prop.
  destruct Hpos as [?|[?|(Hc & -> & ->)]]; [lia|lia|].
  pose proof Hf as [[Ebs Hbs] Hh Hsz Hst Hcap Hfit Hoff Hw Hr Hbeg].
  set (x := m_offset f) in *. set (d := m_bytes_consumed f) in *. set (bs := m_block_size f) in *.
  destruct (pos_div_mod bs Hbs (x - d)) as [Ex Hr'].
  set (n := (len `min` (bs - (x - d) mod bs)) `min` (m_size f - x)).
  assert (0 < n ∧ n ≤ len ∧ (x - d) mod bs + n ≤ bs ∧ x + n ≤ m_size f ∧
    (n = len ∨ (x - d) mod bs + n = bs ∨ x + n = m_size f)) as (N1 & N2 & N3 & N4 & N5) by lia.
  clearbody n. destruct (Hst x) as (b & Hb & _); [lia|]. rewrite Hb. cbn [mbind option_bind].
  assert (load (st_memory st) (b + (x - d) mod bs) n = take n (drop x c)) as ->
    by (apply (load_stored bs Hbs (st_memory st) (m_blocks f) d); auto; lia).
  assert (out ++ take len (drop x c) = (out ++ take n (drop x c)) ++ take (len - n) (drop (x + n) c)) as Eout.
  { rewrite <- (assoc_L (++)). f_equal. rewrite <- drop_drop, take_take_drop. f_equal. lia. }
  rewrite Eout. cbn [m_reading_from_beginning set_position m_offset m_size m_block_size m_blocks m_capacity m_bytes_consumed].
  fold x d bs. destruct (m_reading_from_beginning f) eqn:Erb; cbn [andb].
  - assert (x < d + bs) as Hlt by (destruct Hbeg as [?|?]; [auto|done|lia|done]).
    assert ((x - d) / bs = 0 ∧ (x - d) mod bs = x - d) as [Ediv Emod]
      by (split; [apply Nat.div_small; lia|apply Nat.mod_small; lia]).
    rewrite Ediv in Hb |- *. rewrite Emod in N3, N5 |- *.
    destruct (bool_decide (x - d + n = bs) || bool_decide (x + n = m_size f)) eqn:Ed.
    + destruct (m_blocks f) as [|front blocks] eqn:Ebl; [done|]. cbn [head mbind option_bind tail].
      destruct (read_turn_discard f st c others n front blocks) as (a & -> & Hf'); [done..|lia| |done|].
      { apply orb_true_iff in Ed as [Ed|Ed]; bool_to_prop; [left|right]; unfold x, d, bs in *; lia. }
      rewrite Erb in Hf'. fold x d bs in Hf'. cbn [option_bind mbind].
      destruct (IH (len - n) 0 0 (out ++ take n (drop x c)) _ _ Hf')
        as (f' & st' & E & Hi & Hoff' & (S1 & S2 & S3 & S4 & S5 & S6) & Hmem & Hmono & Hend); [done|done|lia| |].
      2: { exists f', st'. split; [exact E|]. simpl in *. split_and!; [done|lia|unfold same_file; split_and!; congruence|done|lia|].
           intros _ _ Hall. destruct (decide (x + n = m_size f)); [lia|]. apply Hend; [done|lia|lia]. }
      simpl. apply orb_true_iff in Ed as [Ed|Ed]; bool_to_prop; [right; right|right; left; lia].
      replace (x + n - (d + bs)) with 0 by lia. rewrite Nat.Div0.div_0_l, Nat.Div0.mod_0_l. lia.
    + apply orb_false_iff in Ed as [Ed1 Ed2]. bool_to_prop. assert (n = len) as En by lia.
      pose proof (read_turn_keep f st c others n) as Hf'. rewrite Erb in Hf'. fold x d bs in Hf'.
      destruct (IH (len - n) (0 + 1) 0 (out ++ take n (drop x c)) (set_position (x + n) true f) st)
        as (f' & st' & E & Hi & Hoff' & (S1 & S2 & S3 & S4 & S5 & S6) & Hmem & Hmono & Hend);
        [apply Hf'; auto; lia|done|done|lia|left; lia|].
      exists f', st'. split; [exact E|]. simpl in *. split_and!; [done|lia|unfold same_file; split_and!; congruence|done|lia|lia].
  - pose proof (read_turn_keep f st c others n) as Hf'. rewrite Erb in Hf'. fold x d bs in Hf'.
    destruct (IH (len - n) ((x - d) / bs + 1) 0 (out ++ take n (drop x c)) (set_position (x + n) false f) st)
      as (f' & st' & E & Hi & Hoff' & (S1 & S2 & S3 & S4 & S5 & S6) & Hmem & Hmono & Hend);
      [by apply Hf'; auto|done|done|lia| |].
    2: { exists f', st'. split; [exact E|]. simpl in *. split_and!; [done|lia|unfold same_file; split_and!; congruence|done|lia|done]. }
    simpl. destruct (decide (len - n = 0)); [by left|]. destruct (decide (x + n = m_size f)); [by right; left|].
    right. right. assert (n = bs - (x - d) mod bs) as En by lia.
    assert (x + n - d = ((x - d) / bs + 1) * bs + 0) as E by lia.
    destruct (div_mod_pos bs Hbs ((x - d) / bs + 1) 0) as [E1 E2]; [done|]. rewrite <- E in E1, E2. split; [lia|]. auto.
Qed.

Lemma read_spec len f st c others :
  file_inv f st c others → m_is_open f = true → m_read_mode f = true →
  ∃ f' st', read len f st = Some (Ok (take len (drop (m_offset f) c)), f', st') ∧
    file_inv f' st' c others ∧ m_offset f' = (m_offset f + len) `min` m_size f ∧
    same_file f f' ∧ st_memory st' = st_memory st ∧ m_bytes_consumed f ≤ m_bytes_consumed f' ∧
    (m_reading_from_beginning f = true → m_offset f < m_size f → m_size f ≤ m_offset f + len →
     m_size f ≤ m_bytes_consumed f').
Proof.
  intros Hf Ho Hm. unfold read, is_open. rewrite Ho, Hm. cbn [negb].
  pose proof (fi_size _ _ _ _ Hf) as Hsz. pose proof (fi_offset _ _ _ _ Hf) as Hoff.
  destruct (fi_bs _ _ _ _ Hf) as [_ Hbs]. case_bool_decide as E.
  { exists f, st. rewrite drop_ge, take_nil by lia. split_and!; try done; lia. }
  set (k := (m_offset f - m_bytes_consumed f) / m_block_size f).
  destruct (pos_div_mod (m_block_size f) Hbs (m_offset f - m_bytes_consumed f)) as [Ex Hr].
  replace (m_offset f - m_bytes_consumed f - k * m_block_size f)
    with ((m_offset f - m_bytes_consumed f) mod m_block_size f) by (fold k in Ex; lia).
  destruct (read_loop_spec len len k ((m_offset f - m_bytes_consumed f) mod m_block_size f) [] f st c others)
    as (f' & st' & -> & H1); [done..| |].
  { destruct (fi_read _ _ _ _ Hf) as [?|?]; [done|]. auto. }
  exists f', st'. split; [done|exact H1].
Qed.

(** *** Writing *)

Lemma allocate_for f st c others n :
  file_inv f st c others → (Z.of_nat (n + m_block_size f) <= 2 ^ 64)%Z →
  ∃ blocks a, ba_allocate n (st_allocator st) = Some (blocks, a) ∧
    ba_holds a ((m_blocks f ++ blocks) ++ others) ∧ m_block_size f = ba_block_size a ∧
    n ≤ length blocks * m_block_size f < n + m_block_size f.
Proof.
  intros Hf Hn. destruct (fi_bs _ _ _ _ Hf) as [Ebs Hbs]. rewrite Ebs in Hn.
  destruct (ba_allocate_ok _ _ n (fi_holds _ _ _ _ Hf) Hn) as (blocks & a & E & Hh & Ea & Hl).
  exists blocks, a. rewrite <- Ebs in Hl, Ea. split_and!; [done| |done| |].
  - eapply ba_holds_perm; [|exact Hh]. solve_Permutation.
  - pose proof (Nat.div_mod_eq (n + m_block_size f - 1) (m_block_size f)).
    pose proof (Nat.mod_upper_bound (n + m_block_size f - 1) (m_block_size f)). rewrite Hl. nia.
  - pose proof (Nat.div_mod_eq (n + m_block_size f - 1) (m_block_size f)).
    pose proof (Nat.mod_upper_bound (n + m_block_size f - 1) (m_block_size f)). rewrite Hl. nia.
Qed.

(** The part of [write] that makes room. *)
Definition make_room (n : nat) f st : option (Allocated_file * A) :=
  if bool_decide (m_capacity f - m_offset f < n) then
    '(blocks, a) ← ba_allocate (n - (m_capacity f - m_offset f)) (st_allocator st);
    Some (set_blocks (m_size f) (m_capacity f + length blocks * m_block_size f)
            (m_bytes_consumed f) (m_blocks f ++ blocks) f, a)
  else Some (f, st_allocator st).

Lemma make_room_spec n f st c others :
  file_inv f st c others → (Z.of_nat (n + m_block_size f) <= 2 ^ 64)%Z →
  ∃ f' a, make_room n f st = Some (f', a) ∧
    file_inv f' {| st_allocator := a; st_memory := st_memory st |} c others ∧
    same_file f (set_blocks (m_size f') (m_capacity f) (m_bytes_consumed f') (m_blocks f') f') ∧
    m_offset f' = m_offset f ∧ m_bytes_consumed f' = m_bytes_consumed f ∧
    m_offset f + n ≤ m_capacity f' ∧
    (m_capacity f' = m_capacity f ∨ m_capacity f' < m_offset f + n + m_block_size f).
Proof.
  intros Hf Hn. pose proof Hf as [[Ebs Hbs] Hh Hsz Hst Hcap Hfit Hoff Hw Hr Hbeg].
  unfold make_room. case_bool_decide as E.
  - destruct (allocate_for f st c others (n - (m_capacity f - m_offset f))) as (blocks & a & -> & Hh' & Ea & Hl1 & Hl2);
      [done|lia|]. cbn [mbind option_bind]. do 2 eexists. split; [done|]. split; [|split_and!; simpl; done || lia].
    constructor; simpl; try done; try lia.
    + intros x Hx. destruct (Hst x Hx) as (b & Hb & Hc). exists b. split; [|done].
      by apply lookup_app_l_Some.
    + rewrite length_app. lia.
  - do 2 eexists. split; [done|]. split; [by constructor|]. split_and!; simpl; done || lia.
Qed.

Lemma write_spec data f st c others :
  file_inv f st c others → m_is_open f = true → m_read_mode f = false →
  (Z.of_nat (length data + m_block_size f) <= 2 ^ 64)%Z →
  ∃ f' st', write data f st = Some (Ok (length data), f', st') ∧
    file_inv f' st' (splice c (m_offset f) data) others ∧
    m_offset f' = m_offset f + length data ∧ m_is_open f' = true ∧ m_read_mode f' = false ∧
    m_block_size f' = m_block_size f ∧ m_reading_from_beginning f' = m_reading_from_beginning f ∧
    (∀ b r, b ∈ others → r < m_block_size f → st_memory st' (b + r) = st_memory st (b + r)) ∧
    (tight f → tight f').
Proof.
  intros Hf Ho Hm Hn. unfold write, is_open. rewrite Ho, Hm. cbn [negb].
  pose proof (fi_write _ _ _ _ Hf Ho Hm) as Hz. pose proof (fi_offset _ _ _ _ Hf) as Hoff.
  pose proof (fi_size _ _ _ _ Hf) as Hsz0.
  change (if bool_decide (m_capacity f - m_offset f < length data) then _ else _) with (make_room (length data) f st).
  destruct (make_room_spec (length data) f st c others Hf Hn)
    as (g & a & -> & Hg & (S1 & S2 & S3 & _ & S5 & S6) & Eo & Ez & Hcap & Htight).
  cbn [mbind option_bind]. simpl in S1, S2, S3, S5, S6.
  pose proof Hg as [[Ebs Hbs] Hh Hsz Hst Hcp Hfit _ Hw Hr Hbeg]. simpl in *. rewrite Ez, Hz in *.
  destruct (pos_div_mod (m_block_size g) Hbs (m_offset g)) as [Ex Hmod].
  replace (m_offset g - m_offset g / m_block_size g * m_block_size g)
    with (m_offset g mod m_block_size g) by lia.
  destruct (write_loop_spec (m_block_size g) Hbs (m_blocks g) (length data) data
    (m_offset g / m_block_size g) (m_offset g mod m_block_size g) (st_memory st)) as (mem & -> & Hin & Hout);
    [by eapply separate_blocks|lia|lia|lia|]. cbn [mbind option_bind]. rewrite <- Ex in Hin.
  assert (stored (m_block_size g) mem (m_blocks g) 0 (splice c (m_offset f) data)) as Hst'.
  { intros x [_ Hx]. rewrite Nat.sub_0_r. pose proof Hx as Hx'. rewrite length_splice in Hx' by lia.
    destruct (pos_div_mod (m_block_size g) Hbs x) as [Exx Hxm].
    destruct (lookup_lt_is_Some_2 (m_blocks g) (x / m_block_size g)) as [b Hb]; [nia|]. exists b. split; [done|].
    rewrite lookup_splice by (done || lia). rewrite (Hin _ _ _ Hb Hxm), <- Exx, <- Eo. f_equal.
    destruct (decide (x < length c)) as [Hlt|Hge].
    - destruct (Hst x) as (b' & Hb' & ->); [lia|]. rewrite Nat.sub_0_r in *. by simplify_eq.
    - unfold over. rewrite !decide_True by lia.
      destruct (lookup_lt_is_Some_2 data (x - m_offset g)) as [ch ->]; [lia|done]. }
  eexists _, _. split; [done|].
  pose proof (length_splice c (m_offset f) data ltac:(lia)) as Hls.
  set (f' := if bool_decide _ then _ else _).
  assert (f' = set_blocks (m_size g `max` (m_offset g + length data)) (m_capacity g) 0 (m_blocks g)
    (set_position (m_offset g + length data) (m_reading_from_beginning g) g)) as ->.
  { unfold f', set_blocks, set_position. simpl. rewrite Ez. case_bool_decide; f_equal; lia. }
  split; [|split_and!; simpl; try congruence].
  - constructor; simpl; try done; try lia.
    intros [?|[_ ?]]; [lia|congruence].
  - intros b r Hb Hr'. apply Hout. rewrite <- S5 in Hr'. by eapply others_outside.
  - unfold tight. simpl. intros Ht. destruct Htight; lia.
Qed.

(** *** Opening, seeking, appending *)

Lemma make_file_inv name consume others st :
  ba_holds (st_allocator st) others →
  file_inv (make_Allocated_file name (ba_block_size (st_allocator st)) consume) st [] others.
Proof.
  intros Hh. pose proof (ba_size_pos _ _ Hh). constructor; simpl; try done; try lia.
  intros x Hx. simpl in Hx. lia.
Qed.

Lemma seek_spec offset f st c others :
  file_inv f st c others → file_inv (seek offset f).2 st c others.
Proof.
  intros Hf. pose proof Hf as [[Ebs Hbs] Hh Hsz Hst Hcap Hfit Hoff Hw Hr Hbeg]. unfold seek.
  destruct (offset <? 0)%Z; [done|]. destruct (is_open f) eqn:Eo; [|done]. cbn [negb].
  case_bool_decide; [done|]. constructor; simpl; try done; try lia.
  intros _ Hb. apply orb_true_iff in Hb as [Hb|Hb]; bool_to_prop; lia.
Qed.

Lemma open_spec read_mode f st c others :
  file_inv f st c others → file_inv (open read_mode f).2 st c others ∧
  (m_is_open f = false → m_bytes_consumed f = 0 →
   (open read_mode f).1 = Ok tt ∧ m_offset (open read_mode f).2 = 0 ∧
   m_is_open (open read_mode f).2 = true ∧ m_read_mode (open read_mode f).2 = read_mode ∧
   m_bytes_consumed (open read_mode f).2 = 0 ∧ m_reading_from_beginning (open read_mode f).2 = true ∧
   m_block_size (open read_mode f).2 = m_block_size f ∧ m_capacity (open read_mode f).2 = m_capacity f).
Proof.
  intros Hf. unfold open, is_open.
  destruct (m_is_open f) eqn:Eo; [by split|].
  destruct (negb (bool_decide (m_bytes_consumed f = 0)) && negb read_mode) eqn:Ec.
  { split; [done|]. intros _ Hz. by rewrite bool_decide_eq_true_2 in Ec. }
  assert (m_bytes_consumed f = 0 ∨ read_mode = true) as Hor.
  { apply andb_false_iff in Ec as [Ec|Ec]; bool_to_prop; auto. }
  pose proof Hf as [[Ebs Hbs] Hh Hsz Hst Hcap Hfit Hoff Hw Hr Hbeg]. split.
  - destruct (decide (m_bytes_consumed f = 0)) as [Hz|Hz].
    + unfold seek. simpl. rewrite bool_decide_eq_false_2 by lia.
      constructor; simpl; try done; try lia.
    + unfold seek. simpl. rewrite bool_decide_eq_true_2 by lia. constructor; simpl; try done.
      * intros _ ->. destruct Hor; done.
      * intros _. apply Hbeg. lia.
  - intros _ Hz. unfold seek. simpl. rewrite Hz. done.
Qed.

Lemma close_spec f st c others :
  file_inv f st c others → file_inv (close f).2 st c others ∧
  (m_is_open f = true → (close f).1 = Ok tt ∧ m_is_open (close f).2 = false).
Proof.
  intros Hf. pose proof Hf as [[Ebs Hbs] Hh Hsz Hst Hcap Hfit Hoff Hw Hr Hbeg]. unfold close, is_open.
  destruct (m_is_open f); simpl; [|by split]. split; [|done]. constructor; simpl; try done. intros [?|[? _]] ?; [auto|done].
Qed.

(** Blocks that come filled with a part of the text. *)
Lemma append_spec f st c others block data :
  file_inv f st c (block :: others) → m_accepts_append f = true → m_bytes_consumed f = 0 →
  m_is_open f = false → m_offset f = 0 → m_size f = m_capacity f → length data ≤ m_block_size f →
  load (st_memory st) block (length data) = data →
  (append block (length data) f).1 = Ok tt ∧
  file_inv (append block (length data) f).2 st (c ++ data) others ∧
  (m_accepts_append (append block (length data) f).2 = true →
   m_size (append block (length data) f).2 = m_capacity (append block (length data) f).2).
Proof.
  intros Hf Ha Hz Ho Hoff Hfull Hl Hd. pose proof Hf as [[Ebs Hbs] Hh Hsz Hst Hcap Hfit _ Hw Hr Hbeg].
  unfold append. rewrite Ha. simpl. split; [done|]. rewrite Hz in *. split; [|intros ?; bool_to_prop; lia].
  constructor; simpl; rewrite ?Hz; try done; try lia.
  - eapply ba_holds_perm; [|exact Hh]. by rewrite <- (assoc_L (++)).
  - rewrite length_app. lia.
  - intros x [_ Hx]. rewrite length_app in Hx. rewrite Nat.sub_0_r.
    destruct (decide (x < length c)) as [Hlt|Hge].
    + destruct (Hst x) as (b & Hb & Hc); [lia|]. rewrite Nat.sub_0_r in *. exists b.
      split; [by apply lookup_app_l_Some|]. by rewrite lookup_app_l.
    + assert (x = length (m_blocks f) * m_block_size f + (x - length c)) as Ex by lia.
      destruct (div_mod_pos (m_block_size f) Hbs (length (m_blocks f)) (x - length c)) as [E1 E2]; [lia|].
      rewrite <- Ex in E1, E2. exists block. rewrite E1, E2. split; [by rewrite lookup_app_r, Nat.sub_diag|].
      rewrite lookup_app_r by lia. rewrite <- Hd at 1. unfold load. rewrite list_lookup_fmap, lookup_seq_lt by lia.
      done.
  - rewrite length_app. simpl. lia.
Qed.

Lemma release_spec blocks a others :
  ba_holds a (blocks ++ others) →
  ∃ a', release blocks a = Some a' ∧ ba_holds a' others ∧ ba_block_size a' = ba_block_size a.
Proof.
  revert a. induction blocks as [|b blocks IH]; intros a Hh; simpl; [by exists a|].
  destruct (ba_free_ok a (blocks ++ others) b Hh) as (a1 & -> & Hh1 & E1). cbn [mbind option_bind].
  destruct (IH a1 Hh1) as (a' & -> & ? & ?). exists a'. split_and!; [done|done|congruence].
Qed.
End file.

(** ** Storing a text and loading it *)

Section transfer.
Context `{Block_allocator A}.
Implicit Types (f : Allocated_file) (st : store A).

Fixpoint write_all (chunks : list str) f st : option (Allocated_file * store A) :=
  match chunks with
  | [] => Some (f, st)
  | data :: chunks =>
      '(r, f, st) ← write data f st;
      match r with Ok _ => write_all chunks f st | Throw _ => None end
  end.

Fixpoint read_all (sizes : list nat) (out : str) f st : option (str * Allocated_file * store A) :=
  match sizes with
  | [] => Some (out, f, st)
  | n :: sizes =>
      '(r, f, st) ← read n f st;
      match r with Ok data => read_all sizes (out ++ data) f st | Throw _ => None end
  end.

(** A producer writes a new file, then a consumer reads it. *)
Definition transfer (name : string) (consume : bool) (chunks : list str) (sizes : list nat) st
    : option (str * Allocated_file * store A) :=
  let f := make_Allocated_file name (ba_block_size (st_allocator st)) consume in
  let '(r1, f) := open false f in
  '(f, st) ← write_all chunks f st;
  let '(r2, f) := close f in
  let '(r3, f) := open true f in
  match r1, r2, r3 with
  | Ok _, Ok _, Ok _ => read_all sizes [] f st
  | _, _, _ => None
  end.

Lemma write_all_spec chunks f st c others :
  file_inv f st c others → m_is_open f = true → m_read_mode f = false → m_offset f = length c →
  Forall (λ d, (Z.of_nat (length d + m_block_size f) <= 2 ^ 64)%Z) chunks →
  ∃ f' st', write_all chunks f st = Some (f', st') ∧ file_inv f' st' (c ++ concat chunks) others ∧
    m_is_open f' = true ∧ m_block_size f' = m_block_size f ∧ m_bytes_consumed f' = 0 ∧
    (∀ b r, b ∈ others → r < m_block_size f → st_memory st' (b + r) = st_memory st (b + r)) ∧
    (tight f → tight f').
Proof.
  revert f st c. induction chunks as [|d chunks IH]; intros f st c Hf Ho Hm Hoff Hall; simpl.
  { exists f, st. rewrite app_nil_r. split_and!; try done. by eapply fi_write. }
  apply Forall_cons in Hall as [Hd Hall].
  destruct (write_spec d f st c others Hf Ho Hm Hd) as (f1 & st1 & -> & Hf1 & E1 & E2 & E3 & E4 & _ & Hfr & Ht1).
  cbn [mbind option_bind].
  assert (splice c (m_offset f) d = c ++ d) as Es.
  { unfold splice. rewrite Hoff, take_ge, drop_ge, app_nil_r by lia. done. }
  rewrite Es in Hf1. destruct (IH f1 st1 (c ++ d)) as (f' & st' & -> & Hf' & ? & E5 & ? & Hfr' & Ht'); try done.
  - rewrite E1, length_app. lia.
  - by rewrite E4.
  - exists f', st'. rewrite (assoc_L (++)). split_and!; try done; [congruence| |auto].
    intros b r Hb Hr. rewrite Hfr' by (done || lia). by apply Hfr.
Qed.

Lemma read_all_spec sizes out f st c others :
  file_inv f st c others → m_is_open f = true → m_read_mode f = true →
  m_reading_from_beginning f = true → tight f →
  (m_offset f < length c ∨ m_blocks f = []) →
  ∃ f' st', read_all sizes out f st = Some (out ++ take (sum_list sizes) (drop (m_offset f) c), f', st') ∧
    file_inv f' st' c others ∧ st_memory st' = st_memory st ∧
    (length c ≤ m_offset f + sum_list sizes → m_blocks f' = []).
Proof.
  revert out f st. induction sizes as [|n sizes IH]; intros out f st Hf Ho Hm Hb Ht Hor; simpl.
  { exists f, st. rewrite app_nil_r. split_and!; try done. intros ?. destruct Hor; [lia|done]. }
  destruct (read_spec n f st c others Hf Ho Hm)
    as (f1 & st1 & -> & Hf1 & Eo & (S1 & S2 & S3 & S4 & S5 & S6) & Em & Hmono & Hend). cbn [mbind option_bind].
  pose proof (fi_size _ _ _ _ Hf) as Hsz. pose proof (fi_offset _ _ _ _ Hf) as Hoff.
  destruct (IH (out ++ take n (drop (m_offset f) c)) f1 st1) as (f' & st' & -> & Hf' & Em' & Hbl); try congruence.
  - unfold tight in *. by rewrite S3, S4, S5.
  - destruct (decide (m_offset f1 < length c)) as [?|Hge]; [by left|right].
    pose proof (fi_capacity _ _ _ _ Hf1) as Hcap. destruct (fi_bs _ _ _ _ Hf1) as [_ Hbs]. unfold tight in Ht.
    destruct Hor as [Hlt|Hnil].
    + assert (m_size f ≤ m_bytes_consumed f1) as Hle by (apply Hend; [done|lia|lia]).
      destruct (m_blocks f1); [done|]. simpl in Hcap. lia.
    + pose proof (fi_capacity _ _ _ _ Hf) as Hcap0. rewrite Hnil in Hcap0. simpl in Hcap0.
      destruct (m_blocks f1); [done|]. simpl in Hcap. lia.
  - exists f', st'. split_and!; [|done|congruence|].
    + f_equal. rewrite Eo, <- (assoc_L (++)). do 3 f_equal. destruct (decide (m_offset f + n ≤ length c)).
      * rewrite Nat.min_l by lia. by rewrite <- drop_drop, take_take_drop.
      * rewrite Nat.min_r by lia. rewrite Hsz, drop_all, take_nil, app_nil_r.
        rewrite !take_ge; [done|rewrite length_drop; lia..].
    + intros Hle. apply Hbl. lia.
Qed.
End transfer.

(** ** Theorems *)

(** C31: a file is a text: writing at the offset replaces the bytes there and grows the
    text, whatever the allocator returns, and leaves the blocks of other clients alone;
    reading returns the next bytes of the text, and only gives back blocks that were read. *)
Theorem file_refines_text `{Block_allocator A} (f : Allocated_file) (st : store A) (c : str)
    (others : list nat) (data : str) (n : nat) :
  file_inv f st c others → m_is_open f = true →
  (Z.of_nat (length data + m_block_size f) <= 2 ^ 64)%Z →
  (m_read_mode f = false → ∃ f' st', write data f st = Some (Ok (length data), f', st') ∧
     file_inv f' st' (splice c (m_offset f) data) others ∧ tell f' = Ok (m_offset f + length data) ∧
     ∀ b r, b ∈ others → r < m_block_size f → st_memory st' (b + r) = st_memory st (b + r)) ∧
  (m_read_mode f = true → ∃ f' st', read n f st = Some (Ok (take n (drop (m_offset f) c)), f', st') ∧
     file_inv f' st' c others ∧ tell f' = Ok ((m_offset f + n) `min` length c) ∧
     st_memory st' = st_memory st).
Proof.
  intros Hf Ho Hn. split; intros Hm.
  - destruct (write_spec data f st c others Hf Ho Hm Hn) as (f' & st' & ? & ? & Eo & Eop & ? & ? & ? & ? & ?).
    exists f', st'. unfold tell, is_open. rewrite Eop, Eo. done.
  - destruct (read_spec n f st c others Hf Ho Hm) as (f' & st' & ? & ? & Eo & (Eop & _) & ? & ? & ?).
    exists f', st'. unfold tell, is_open. rewrite Eop, Ho, Eo, (fi_size _ _ _ _ Hf). done.
Qed.

(** An allocator with an empty memory, and a file on it. *)
#[local] Existing Instance bump_heap.

Definition sample_store : store Allocator := {| st_allocator := sample_allocator; st_memory := λ _, "000"%char |}.
Definition sample_file : Allocated_file := (open false (make_Allocated_file "sample" 8 false)).2.

Lemma sample_holds : ba_holds (st_allocator sample_store) [].
Proof. apply (run_inv 32 8), sample_run. Qed.

Lemma file_refines_text_witness :
  ∃ f' st', write ($"twelve bytes") sample_file sample_store = Some (Ok 12, f', st') ∧
    file_inv f' st' ($"twelve bytes") [] ∧ tell f' = Ok 12.
Proof.
  destruct (file_refines_text sample_file sample_store [] [] ($"twelve bytes") 0) as [H _].
  - apply open_spec. apply (make_file_inv "sample" false [] sample_store sample_holds).
  - reflexivity.
  - vm_compute. discriminate.
  - destruct (H eq_refl) as (f' & st' & H1 & H2 & H3 & _). exists f', st'. split; [exact H1|]. split; [exact H2|exact H3].
Defined.

(** A text written to a new file in any pieces is read back in any pieces, and once it
    has been read to its end the file holds no blocks: all memory is back with the
    allocator, and that of other clients is unchanged. *)
Theorem file_roundtrip `{Block_allocator A} (st : store A) (others : list nat) (name : string) (consume : bool)
    (chunks : list str) (sizes : list nat) :
  ba_holds (st_allocator st) others →
  Forall (λ d, (Z.of_nat (length d + ba_block_size (st_allocator st)) <= 2 ^ 64)%Z) chunks →
  ∃ f st', transfer name consume chunks sizes st = Some (take (sum_list sizes) (concat chunks), f, st') ∧
    (∀ b r, b ∈ others → r < ba_block_size (st_allocator st) → st_memory st' (b + r) = st_memory st (b + r)) ∧
    (length (concat chunks) ≤ sum_list sizes → m_blocks f = [] ∧ ba_holds (st_allocator st') others).
Proof.
  intros Hh Hall. set (bs := ba_block_size (st_allocator st)).
  pose proof (make_file_inv name consume others st Hh) as Hf0. fold bs in Hf0.
  set (f0 := make_Allocated_file name bs consume) in *.
  destruct (open_spec false f0 st [] others Hf0) as [Hf1 Ho1].
  destruct Ho1 as (E1 & E2 & E3 & E4 & _ & _ & E7 & E8); [done|done|].
  unfold transfer. fold bs f0. destruct (open false f0) as [r1 f1]. simpl in *. subst r1.
  destruct (write_all_spec chunks f1 st [] others Hf1 E3 E4) as (f2 & st2 & -> & Hf2 & Eo2 & Eb2 & Ez2 & Hfr & Ht);
    [done|by rewrite E7|]. cbn [mbind option_bind].
  assert (tight f2) as Ht2.
  { apply Ht. unfold tight. rewrite E7, E8. pose proof (ba_size_pos _ _ Hh). simpl. fold bs in H0. lia. }
  destruct (close_spec f2 st2 (concat chunks) others Hf2) as [Hf3 Hc3]. specialize (Hc3 Eo2) as [Ec3 Eo3].
  pose proof Hf3 as Hf3'. unfold close, is_open in *. rewrite Eo2 in *. cbn [negb fst snd] in *.
  set (f3 := set_mode false (m_read_mode f2) (m_accepts_append f2) f2) in *.
  destruct (open_spec true f3 st2 (concat chunks) others Hf3) as [Hf4 Ho4].
  destruct Ho4 as (F1 & F2 & F3 & F4 & F5 & F6 & F7 & F8); [done|done|].
  pose proof (fi_size _ _ _ _ Hf4) as Hsz4. pose proof (fi_capacity _ _ _ _ Hf4) as Hcap4.
  pose proof (fi_size _ _ _ _ Hf2) as Hsz2.
  destruct (open true f3) as [r3 f4]. simpl in *. subst r3.
  assert (tight f4) as Ht4 by (unfold tight in *; rewrite F7, F8; simpl; lia).
  destruct (read_all_spec sizes [] f4 st2 (concat chunks) others) as (f5 & st5 & -> & Hf5 & Em & Hbl); try done.
  { rewrite F2. destruct (concat chunks); [right|left; simpl; lia]. unfold tight in Ht4. simpl in *.
    destruct (m_blocks f4); [done|]. simpl in *. lia. }
  exists f5, st5. rewrite F2, drop_0. split; [done|]. split.
  - intros b r Hb Hr. rewrite Em. apply Hfr; [done|]. by rewrite E7.
  - intros Hle. rewrite F2 in Hbl. specialize (Hbl Hle). split; [done|].
    pose proof (fi_holds _ _ _ _ Hf5) as Hh5. by rewrite Hbl in Hh5.
Qed.

Lemma file_roundtrip_witness :
  ∃ f st', transfer "sample" false [$"hello, "; $"in-memory "; $"world"] [3; 10; 20] sample_store =
    Some ($"hello, in-memory world", f, st') ∧ m_blocks f = [] ∧ ba_holds (st_allocator st') [].
Proof.
  destruct (file_roundtrip sample_store [] "sample" false [$"hello, "; $"in-memory "; $"world"] [3; 10; 20]) as (f & st' & H1 & _ & H2).
  - exact sample_holds.
  - repeat constructor; vm_compute; discriminate.
  - exists f, st'. split; [exact H1|]. apply H2. vm_compute. lia.
Defined.

(** Reading releases what was read, so a file cannot be opened again after a block of
    it has been read; [open] throws then, and leaves the file marked as open. *)
Theorem reopen_after_read (f : Allocated_file) :
  m_is_open f = false → 0 < m_bytes_consumed f →
  (open true f).1 = Throw (file_error "Unable to seek file: " f ", requested offset has already been consumed") ∧
  is_open (open true f).2 = true.
Proof.
  intros Ho Hc. unfold open, is_open. rewrite Ho, andb_false_r. unfold seek. simpl.
  by rewrite bool_decide_eq_true_2 by lia.
Qed.

Lemma reopen_after_read_witness :
  match transfer "sample" false [$"more than eight bytes"] [9] sample_store with
  | Some (_, f, _) =>
      (open true (close f).2).1 =
        Throw (runtime_error "Unable to seek file: sample, requested offset has already been consumed") ∧
      is_open (open true (close f).2).2 = true
  | None => False
  end.
Proof.
  destruct (transfer "sample" false [$"more than eight bytes"] [9] sample_store) as [[[out f] st]|] eqn:E.
  - vm_compute in E. injection E as <- <- <-.
    refine (reopen_after_read _ _ _); vm_compute; [reflexivity|lia].
  - vm_compute in E. discriminate.
Defined.
