(* ===== verification/Dialect.v ===== *)
(** * Dialects of text files

    Model of [modules/util/import_table/dialect.{h,cc}] (namespace
    [mysqlsh::import_table]): how the rows and fields of a file are separated, the
    dialects with a name, their validation, and the clauses of LOAD DATA that describe
    them.  The option unpacker that sets the members is a library of the shell. *)
From S2P Require Import Prelude UtilsString Lexing SqlString.

Open Scope nat_scope.

Record Dialect := {
  lines_terminated_by : str;
  fields_escaped_by : str;
  fields_terminated_by : str;
  fields_enclosed_by : str;
  fields_optionally_enclosed : bool;
  lines_starting_by : str;
}.

#[global] Instance Dialect_eq_dec : EqDecision Dialect.
Proof. solve_decision. Defined.

Definition tab : ascii := "009"%char.
Definition carriage_return : ascii := "013"%char.

Definition default_ : Dialect :=
  {| lines_terminated_by := [newline]; fields_escaped_by := [backslash];
     fields_terminated_by := [tab]; fields_enclosed_by := [];
     fields_optionally_enclosed := false; lines_starting_by := [] |}.

Definition json : Dialect :=
  {| lines_terminated_by := [newline]; fields_escaped_by := [];
     fields_terminated_by := [newline]; fields_enclosed_by := [];
     fields_optionally_enclosed := false; lines_starting_by := [] |}.

Definition csv : Dialect :=
  {| lines_terminated_by := [carriage_return; newline]; fields_escaped_by := [backslash];
     fields_terminated_by := $","; fields_enclosed_by := [dquote];
     fields_optionally_enclosed := true; lines_starting_by := [] |}.

Definition tsv : Dialect :=
  {| lines_terminated_by := lines_terminated_by csv; fields_escaped_by := fields_escaped_by csv;
     fields_terminated_by := [tab]; fields_enclosed_by := fields_enclosed_by csv;
     fields_optionally_enclosed := fields_optionally_enclosed csv;
     lines_starting_by := lines_starting_by csv |}.

Definition csv_unix : Dialect :=
  {| lines_terminated_by := [newline]; fields_escaped_by := [backslash];
     fields_terminated_by := $","; fields_enclosed_by := [dquote];
     fields_optionally_enclosed := false; lines_starting_by := [] |}.

(** [set_dialect]: the dialect after the call. *)
Definition set_dialect (name : str) (d : Dialect) : result Dialect :=
  if bool_decide (name = []) then Ok d
  else if str_caseeq name [$"default"] then Ok d
  else if str_caseeq name [$"csv"] then Ok csv
  else if str_caseeq name [$"tsv"] then Ok tsv
  else if str_caseeq name [$"json"] then Ok json
  else if str_caseeq name [$"csv-unix"] then Ok csv_unix
  else Throw (shcore_exception "dialect value must be default, csv, tsv, json or csv-unix.").

Definition BUFFER_SIZE : nat := Z.to_nat (Z.shiftl 1 16).

Definition validate (d : Dialect) : result unit :=
  if negb (bool_decide (length (lines_terminated_by d) / 2 < BUFFER_SIZE)) then
    Throw (invalid_argument "Line terminator string is too long.")
  else if bool_decide (1 < length (fields_escaped_by d)) then
    Throw (invalid_argument "fieldsEscapedBy must be empty or a char.")
  else if negb (bool_decide (lines_terminated_by d = [])) && negb (bool_decide (fields_escaped_by d = []))
          && bool_decide (find_sub (fields_escaped_by d) (lines_terminated_by d) = Some 0) then
    Throw (invalid_argument "Separators cannot be the same or be a prefix of another.")
  else if bool_decide (1 < length (fields_enclosed_by d)) then
    Throw (invalid_argument "fieldsEnclosedBy must be empty or a char.")
  else if fields_optionally_enclosed d && bool_decide (fields_enclosed_by d = []) then
    Throw (invalid_argument "fieldsEnclosedBy must be set if fieldsOptionallyEnclosed is true.")
  else if bool_decide (fields_terminated_by d = []) && bool_decide (fields_enclosed_by d = []) then
    Throw (invalid_argument "The fieldsTerminatedBy and fieldsEnclosedBy are both empty, resulting in a fixed-row format. This is currently not supported.")
  else Ok tt.

Definition on_unpacked_options (d : Dialect) : result Dialect :=
  _ ← validate d;
  if bool_decide (lines_terminated_by d = []) && negb (bool_decide (fields_terminated_by d = [])) then
    Ok {| lines_terminated_by := fields_terminated_by d; fields_escaped_by := fields_escaped_by d;
          fields_terminated_by := fields_terminated_by d; fields_enclosed_by := fields_enclosed_by d;
          fields_optionally_enclosed := fields_optionally_enclosed d;
          lines_starting_by := lines_starting_by d |}
  else Ok d.

(** [(sqlstring(format, 0) << args...).str()] *)
Definition sqlstring_format (format : str) (args : list sql_arg) : result str :=
  q ← make_sqlstring format 0;
  q ← sqlstring_puts q args;
  sqlstring_str q.

(** The clauses of LOAD DATA. *)
Definition build_sql (d : Dialect) : result str :=
  sql ← sqlstring_format ($"FIELDS TERMINATED BY ?") [ArgString (fields_terminated_by d)];
  enclosed ← (if negb (bool_decide (fields_enclosed_by d = [])) then
                s ← sqlstring_format ($" ENCLOSED BY ?") [ArgString (fields_enclosed_by d)];
                Ok ((if fields_optionally_enclosed d then $" OPTIONALLY" else []) ++ s)
              else Ok []);
  rest ← sqlstring_format ($" ESCAPED BY ? LINES STARTING BY ? TERMINATED BY ?")
           [ArgString (fields_escaped_by d); ArgString (lines_starting_by d);
            ArgString (lines_terminated_by d)];
  Ok (sql ++ enclosed ++ rest).
