(* ===== verification/Scanner.v ===== *)
(** * The scanner of text files

    Model of [modules/util/import_table/scanner.{h,cc}] (class [Scanner]): finds where
    rows start in a file that arrives in blocks.  What it has to read again when the next
    block arrives is kept on a stack of characters; a push on a full stack, which only an
    assertion excludes, is [None].  An [int] that holds a character or a marker is an
    [option ascii]: [None] stands for [k_end_of_block] as a character that was read, and
    for [k_not_used] as a character of the dialect; they differ, see [same].  A
    [Sequence] is its string. *)
From S2P Require Import Prelude UtilsString Dialect.

Open Scope nat_scope.

Inductive Row_status := BEGIN | PREFIX | BEGIN_OF_FIELD | FIELD.
Inductive Field_status := CONTINUED | END_OF_FIELD | END_OF_LINE.

#[global] Instance Row_status_eq_dec : EqDecision Row_status.
Proof. solve_decision. Defined.
#[global] Instance Field_status_eq_dec : EqDecision Field_status.
Proof. solve_decision. Defined.

Definition first_char (s : str) : option ascii := head s.

Definition used (c : option ascii) : bool := bool_decide (is_Some c).

(** The members set by the constructor. *)
Record Sequences := {
  m_fields_terminated_by : str;
  m_lines_starting_by : str;
  m_lines_terminated_by : str;
  m_enclosed_char : option ascii;
  m_escaped_char : option ascii;
}.

(** The members that change: the stack with its top first, the rest of the block. *)
Record Scanner := {
  m_skip_rows : nat;
  m_stack_size : nat;
  m_stack : str;
  m_data : str;
  m_end_of_block : bool;
  m_status : Row_status;
  m_found_enclosed_char : option ascii;
}.

Definition set_input (stack data : str) (eob : bool) (s : Scanner) : Scanner :=
  {| m_skip_rows := m_skip_rows s; m_stack_size := m_stack_size s; m_stack := stack;
     m_data := data; m_end_of_block := eob; m_status := m_status s;
     m_found_enclosed_char := m_found_enclosed_char s |}.

Definition set_state (skip : nat) (status : Row_status) (found : option ascii) (s : Scanner) : Scanner :=
  {| m_skip_rows := skip; m_stack_size := m_stack_size s; m_stack := m_stack s;
     m_data := m_data s; m_end_of_block := m_end_of_block s; m_status := status;
     m_found_enclosed_char := found |}.

Definition set_status (status : Row_status) (s : Scanner) : Scanner :=
  set_state (m_skip_rows s) status (m_found_enclosed_char s) s.

Definition make_Sequences (d : Dialect) : Sequences :=
  {| m_fields_terminated_by := fields_terminated_by d;
     m_lines_starting_by := lines_starting_by d;
     m_lines_terminated_by := lines_terminated_by d;
     m_enclosed_char := first_char (fields_enclosed_by d);
     m_escaped_char := first_char (fields_escaped_by d) |}.

(** The size of the stack: [std::max] of a terminator with the FIELDS ENCLOSED BY character. *)
Definition stack_size (q : Sequences) : nat :=
  (length (m_fields_terminated_by q) + 1) `max`
    (length (m_lines_starting_by q) `max` (length (m_lines_terminated_by q) + 1)).

Definition make_Scanner (d : Dialect) (skip_rows : nat) : result (Sequences * Scanner) :=
  if bool_decide (lines_terminated_by d = []) ||
     bool_decide (lines_terminated_by d = fields_terminated_by d) then
    Throw (invalid_argument ("Scanner: unsupported LINES TERMINATED BY: '" ++
                             string_of_list_ascii (lines_terminated_by d) ++ "'"))
  else
    let q := make_Sequences d in
    Ok (q, {| m_skip_rows := skip_rows; m_stack_size := stack_size q; m_stack := []; m_data := [];
              m_end_of_block := false; m_status := BEGIN; m_found_enclosed_char := None |}).

(** A character that was read is a character of the dialect. *)
Definition same (chr c : option ascii) : bool :=
  match chr, c with Some a, Some b => bool_decide (a = b) | _, _ => false end.

Definition get (s : Scanner) : option ascii * Scanner :=
  match m_stack s, m_data s with
  | c :: stack, data => (Some c, set_input stack data (m_end_of_block s) s)
  | [], c :: data => (Some c, set_input [] data (m_end_of_block s) s)
  | [], [] => (None, set_input [] [] true s)
  end.

Definition unget (c : option ascii) (s : Scanner) : option Scanner :=
  c ← c;
  if bool_decide (length (m_stack s) < m_stack_size s)
  then Some (set_input (c :: m_stack s) (m_data s) (m_end_of_block s) s) else None.

(** [unget] of several characters, the first one first. *)
Fixpoint ungets (cs : list (option ascii)) (s : Scanner) : option Scanner :=
  match cs with
  | [] => Some s
  | c :: cs => s ← unget c s; ungets cs s
  end.

(** The loop of [contains] over the rest of the sequence; [matched] are the characters
    compared so far, the last one first. *)
Fixpoint contains_loop (rest matched : str) (s : Scanner) : option (bool * Scanner) :=
  match rest with
  | [] => Some (true, s)
  | c :: rest =>
      let '(chr, s) := get s in
      if same chr (Some c) then contains_loop rest (c :: matched) s
      else
        s ← (if m_end_of_block s then Some s else unget chr s);
        s ← ungets (Some <$> matched) s;
        Some (false, s)
  end.

Definition contains (seq : str) (s : Scanner) : option (bool * Scanner) :=
  contains_loop (tail seq) [] s.

(** How many turns a loop may need: a turn consumes a character or changes the status. *)
Definition turns (s : Scanner) : nat := 4 * (length (m_stack s) + length (m_data s)) + 4.

Section scanner.
Context (q : Sequences).

Definition is_first (chr : option ascii) (seq : str) : bool := same chr (first_char seq).

Fixpoint skip_row (fuel : nat) (s : Scanner) : option (bool * Scanner) :=
  if bool_decide (m_data s = []) then Some (false, s)
  else
    match fuel with
    | O => None
    | S fuel =>
        let '(chr, s) := get s in
        if same chr (m_escaped_char q) then
          let '(_, s) := get s in
          s ← (if m_end_of_block s then unget (m_escaped_char q) s else Some s);
          skip_row fuel s
        else
          '(found, s) ← (if is_first chr (m_lines_terminated_by q)
                         then contains (m_lines_terminated_by q) s else Some (false, s));
          if (found : bool) then Some (true, s)
          else
            s ← (if m_end_of_block s then unget chr s else Some s);
            skip_row fuel s
    end.

Fixpoint skip_line_start_loop (fuel : nat) (s : Scanner) : option (bool * Scanner) :=
  if bool_decide (m_data s = []) then Some (false, s)
  else
    match fuel with
    | O => None
    | S fuel =>
        let '(chr, s) := get s in
        '(found, s) ← (if is_first chr (m_lines_starting_by q)
                       then contains (m_lines_starting_by q) s else Some (false, s));
        if (found : bool) then Some (true, s)
        else
          s ← (if m_end_of_block s then unget chr s else Some s);
          skip_line_start_loop fuel s
    end.

Definition skip_line_start (s : Scanner) : option (bool * Scanner) :=
  if negb (used (first_char (m_lines_starting_by q))) then Some (true, s)
  else skip_line_start_loop (turns s) s.

(** The outcome of a part of [scan_field]: return, or go on. *)
Inductive control := Return (f : Field_status) (s : Scanner) | Next (s : Scanner).

(** [HANDLE_END_OF_BLOCK] *)
Definition handle_end_of_block (cs : list (option ascii)) (s : Scanner) : option control :=
  if m_end_of_block s then s ← ungets cs s; Some (Return CONTINUED s) else Some (Next s).

(** [if (chr == seq.first) { if (contains(seq)) return ...; HANDLE_END_OF_BLOCK(...); }] *)
Definition terminator (guard : bool) (chr : option ascii) (seq : str) (f : Field_status)
    (cs : list (option ascii)) (s : Scanner) : option control :=
  if guard && is_first chr seq then
    '(found, s) ← contains seq s;
    if (found : bool) then Some (Return f s) else handle_end_of_block cs s
  else Some (Next s).

(** After the FIELDS ENCLOSED BY character: the end of the field, or a part of it. *)
Definition scan_after_enclosed (chr : option ascii) (s : Scanner) : option control :=
  let enclosed := m_found_enclosed_char s in
  r ← terminator true chr (m_lines_terminated_by q) END_OF_LINE [chr; enclosed] s;
  match r with
  | Return f s => Some (Return f s)
  | Next s =>
      r ← terminator true chr (m_fields_terminated_by q) END_OF_FIELD [chr; enclosed] s;
      match r with
      | Return f s => Some (Return f s)
      | Next s => s ← unget chr s; Some (Next s)
      end
  end.

(** What follows the check for an escape character. *)
Definition scan_char (chr : option ascii) (s : Scanner) : option control :=
  let enclosed := m_found_enclosed_char s in
  r ← terminator (negb (used enclosed)) chr (m_lines_terminated_by q) END_OF_LINE [chr] s;
  match r with
  | Return f s => Some (Return f s)
  | Next s =>
      if same chr enclosed then
        let '(chr, s) := get s in
        r ← handle_end_of_block [enclosed] s;
        match r with
        | Return f s => Some (Return f s)
        | Next s => if same chr enclosed then Some (Next s) else scan_after_enclosed chr s
        end
      else terminator (negb (used enclosed)) chr (m_fields_terminated_by q) END_OF_FIELD [chr] s
  end.

(** One turn of the loop of [scan_field]. *)
Definition scan_field_turn (s : Scanner) : option control :=
  let '(chr, s) := get s in
  if same chr (m_escaped_char q) then
    let '(chr, s) := get s in
    r ← handle_end_of_block [m_escaped_char q] s;
    match r with
    | Return f s => Some (Return f s)
    | Next s =>
        if negb (bool_decide (m_escaped_char q = m_enclosed_char q)) || same chr (m_escaped_char q)
        then Some (Next s)
        else s ← unget chr s; scan_char (m_escaped_char q) s
    end
  else scan_char chr s.

Fixpoint scan_field (fuel : nat) (s : Scanner) : option (Field_status * Scanner) :=
  if bool_decide (m_data s = []) then Some (CONTINUED, s)
  else
    match fuel with
    | O => None
    | S fuel =>
        r ← scan_field_turn s;
        match r with
        | Return f s => Some (f, s)
        | Next s => scan_field fuel s
        end
    end.

(** [while (m_skip_rows > 0)] *)
Fixpoint skip_rows (n : nat) (s : Scanner) : option (bool * Scanner) :=
  match n with
  | O => Some (true, s)
  | S n =>
      '(b, s) ← skip_row (turns s) s;
      if (b : bool) then skip_rows n (set_state n (m_status s) (m_found_enclosed_char s) s)
      else Some (false, s)
  end.

Definition k_row_not_found : Z := -1.

(** [while (m_length)]; [length] is the size of the block. *)
Fixpoint scan_loop (fuel length : nat) (first_row : Z) (s : Scanner) : option (Z * Scanner) :=
  if bool_decide (m_data s = []) then Some (first_row, s)
  else
    match fuel with
    | O => None
    | S fuel =>
        match m_status s with
        | BEGIN =>
            let first_row := if (first_row =? k_row_not_found)%Z
                             then Z.of_nat (length - List.length (m_data s)) else first_row in
            scan_loop fuel length first_row (set_status PREFIX s)
        | PREFIX =>
            '(found, s) ← skip_line_start s;
            if (found : bool) then scan_loop fuel length first_row (set_status BEGIN_OF_FIELD s)
            else Some (first_row, s)
        | BEGIN_OF_FIELD =>
            let '(chr, s) := get s in
            if same chr (m_enclosed_char q) then
              scan_loop fuel length first_row (set_state (m_skip_rows s) FIELD chr s)
            else
              s ← unget chr s;
              scan_loop fuel length first_row (set_state (m_skip_rows s) FIELD None s)
        | FIELD =>
            '(f, s) ← scan_field (turns s) s;
            scan_loop fuel length first_row
              (match f with
               | CONTINUED => s
               | END_OF_FIELD => set_status BEGIN_OF_FIELD s
               | END_OF_LINE => set_status BEGIN s
               end)
        end
    end.

Definition scan (data : str) (s : Scanner) : option (Z * Scanner) :=
  let s := set_input (m_stack s) data false s in
  '(ready, s) ← skip_rows (m_skip_rows s) s;
  if (ready : bool) then scan_loop (turns s) (length data) k_row_not_found s
  else Some (k_row_not_found, s).
End scanner.

