(* ===== verification/ScannerFacts.v ===== *)
(** * The scanner of text files: theorems

    The scanner is compared with a machine that sees the whole text: [turn] looks ahead
    as far as it needs, and [row_starts] lists where it begins a row.  A state of the
    scanner is described by the text that is still to be read, of which a part is on the
    stack; a turn that meets the end of the block puts back what it has read. *)
From S2P Require Import Prelude UtilsString Dialect Scanner.

Open Scope nat_scope.

(** ** The machine on the whole text *)

(** Does a text continue with a sequence?  [More] when it ends first. *)
Inductive looked := Yes (rest : str) | No | More.

Fixpoint look (seq p : str) : looked :=
  match seq, p with
  | [], _ => Yes p
  | _ :: _, [] => More
  | c :: seq, a :: p => if bool_decide (a = c) then look seq p else No
  end.

Section machine.
Context (q : Sequences).

(** The sequence [seq], of which the first character has been read as [c]. *)
Definition look_term (guard : bool) (c : ascii) (seq p : str) : looked :=
  if guard && is_first (Some c) seq then look (tail seq) p else No.

(** Each turn is [None] when the text is too short to decide. *)
Definition row_turn (p : str) : option (bool * str) :=
  match p with
  | [] => None
  | c :: p =>
      if same (Some c) (m_escaped_char q) then
        match p with [] => None | _ :: p => Some (false, p) end
      else
        match look_term true c (m_lines_terminated_by q) p with
        | Yes p => Some (true, p)
        | No => Some (false, p)
        | More => None
        end
  end.

Definition prefix_turn (p : str) : option (bool * str) :=
  match p with
  | [] => None
  | c :: p =>
      match look_term true c (m_lines_starting_by q) p with
      | Yes p => Some (true, p)
      | No => Some (false, p)
      | More => None
      end
  end.

Definition enclosed_turn (c : ascii) (p : str) : option (Field_status * str) :=
  match look_term true c (m_lines_terminated_by q) p with
  | Yes p => Some (END_OF_LINE, p)
  | More => None
  | No =>
      match look_term true c (m_fields_terminated_by q) p with
      | Yes p => Some (END_OF_FIELD, p)
      | More => None
      | No => Some (CONTINUED, c :: p)
      end
  end.

Definition char_turn (found : option ascii) (c : ascii) (p : str) : option (Field_status * str) :=
  match look_term (negb (used found)) c (m_lines_terminated_by q) p with
  | Yes p => Some (END_OF_LINE, p)
  | More => None
  | No =>
      if same (Some c) found then
        match p with
        | [] => None
        | c2 :: p2 => if same (Some c2) found then Some (CONTINUED, p2) else enclosed_turn c2 p2
        end
      else
        match look_term (negb (used found)) c (m_fields_terminated_by q) p with
        | Yes p => Some (END_OF_FIELD, p)
        | More => None
        | No => Some (CONTINUED, p)
        end
  end.

Definition field_turn (found : option ascii) (p : str) : option (Field_status * str) :=
  match p with
  | [] => None
  | c :: p =>
      if same (Some c) (m_escaped_char q) then
        match p with
        | [] => None
        | c2 :: p2 =>
            if negb (bool_decide (m_escaped_char q = m_enclosed_char q)) || same (Some c2) (m_escaped_char q)
            then Some (CONTINUED, p2) else char_turn found c p
        end
      else char_turn found c p
  end.

(** The state of the machine: rows to skip, and the state within a row. *)
Record machine := Machine { to_skip : nat; status : Row_status; found : option ascii }.

Definition after (f : Field_status) (a : machine) : machine :=
  match f with
  | CONTINUED => a
  | END_OF_FIELD => Machine (to_skip a) BEGIN_OF_FIELD (found a)
  | END_OF_LINE => Machine (to_skip a) BEGIN (found a)
  end.

(** The next state, the rest of the text, and whether a row begins here. *)
Definition turn (a : machine) (p : str) : option (machine * str * bool) :=
  match p with
  | [] => None
  | c :: p' =>
      match to_skip a with
      | S n => '(skipped, p) ← row_turn p;
               Some (if (skipped : bool) then Machine n (status a) (found a) else a, p, false)
      | O =>
          match status a with
          | BEGIN => Some (Machine 0 PREFIX (found a), p, true)
          | PREFIX =>
              if bool_decide (m_lines_starting_by q = []) then Some (Machine 0 BEGIN_OF_FIELD (found a), p, false)
              else '(started, p) ← prefix_turn p;
                   Some (if (started : bool) then Machine 0 BEGIN_OF_FIELD (found a) else a, p, false)
          | BEGIN_OF_FIELD =>
              if same (Some c) (m_enclosed_char q) then Some (Machine 0 FIELD (Some c), p', false)
              else Some (Machine 0 FIELD None, p, false)
          | FIELD => '(f, p) ← field_turn (found a) p; Some (after f a, p, false)
          end
      end
  end.

(** The rows of a text, by their positions. *)
Fixpoint rows_from (fuel : nat) (a : machine) (pos : nat) (p : str) : list nat :=
  match fuel with
  | O => []
  | S fuel =>
      match turn a p with
      | None => []
      | Some (a', p', b) => (if b then [pos] else []) ++ rows_from fuel a' (pos + (length p - length p')) p'
      end
  end.

Definition row_starts (skip : nat) (text : str) : list nat :=
  rows_from (4 * length text + 4) (Machine skip BEGIN None) 0 text.

(** Runs of the machine, with what was left of the text when a row began. *)
Inductive runs : machine → str → list nat → machine → str → Prop :=
| runs_refl a p : runs a p [] a p
| runs_step a p a1 p1 b es a2 p2 :
    turn a p = Some (a1, p1, b) → runs a1 p1 es a2 p2 →
    runs a p ((if b then [length p] else []) ++ es) a2 p2.
End machine.

(** ** Looking ahead *)

Lemma look_Yes seq p p' : look seq p = Yes p' → p = seq ++ p'.
Proof.
  revert p. induction seq as [|c seq IH]; intros [|a p]; simpl; try congruence.
  case_bool_decide; [intros ->%IH; by subst|done].
Qed.

Lemma look_More seq p : look seq p = More → length p < length seq.
Proof.
  revert p. induction seq as [|c seq IH]; intros [|a p]; simpl; try done; [lia|].
  case_bool_decide; [intros ?%IH; lia|done].
Qed.

Lemma look_tail_More seq p : look (tail seq) p = More → S (length p) < length seq.
Proof. intros H%look_More. destruct seq; simpl in *; lia. Qed.

Lemma look_term_Yes guard c seq p p' : look_term guard c seq p = Yes p' → c :: p = seq ++ p'.
Proof.
  unfold look_term. destruct guard; [|done]. destruct seq as [|d seq]; simpl; [done|].
  case_bool_decide; [|done]. intros ->%look_Yes. by subst.
Qed.

Lemma look_term_length guard c seq p p' : look_term guard c seq p = Yes p' → length p' ≤ length p.
Proof.
  intros H. pose proof (look_term_Yes _ _ _ _ _ H) as E%(f_equal length). rewrite length_app in E. simpl in E.
  destruct seq; [|simpl in *; lia]. unfold look_term in H. by rewrite andb_false_r in H.
Qed.

Lemma look_app seq p t :
  match look seq p with
  | Yes p' => look seq (p ++ t) = Yes (p' ++ t)
  | No => look seq (p ++ t) = No
  | More => True
  end.
Proof.
  revert p. induction seq as [|c seq IH]; intros [|a p]; simpl; try done.
  case_bool_decide; [apply IH|done].
Qed.

(** ** States of the scanner

    [reading p k eob s]: the text [p] is to be read, its first [k] characters are on the
    stack. *)
Definition reading (p : str) (k : nat) (eob : bool) (s : Scanner) : Scanner :=
  set_input (take k p) (drop k p) eob s.

Lemma get_reading c p k eob s : get (reading (c :: p) k eob s) = (Some c, reading p (k - 1) eob s).
Proof. destruct k; simpl; [done|]. by rewrite Nat.sub_0_r. Qed.

Lemma get_end k eob s : get (reading [] k eob s) = (None, reading [] 0 true s).
Proof. by destruct k. Qed.

Lemma unget_reading c p k eob s :
  k < m_stack_size s → unget (Some c) (reading p k eob s) = Some (reading (c :: p) (S k) eob s).
Proof.
  intros Hk. unfold unget. cbn [mbind option_bind]. rewrite bool_decide_eq_true_2; [done|].
  simpl. rewrite length_take. lia.
Qed.

Lemma ungets_reading cs p k eob s :
  length cs + k ≤ m_stack_size s →
  ungets (Some <$> cs) (reading p k eob s) = Some (reading (reverse cs ++ p) (length cs + k) eob s).
Proof.
  revert p k. induction cs as [|c cs IH]; intros p k Hk; [done|].
  cbn [fmap list_fmap ungets]. simpl length in *. rewrite unget_reading by lia. cbn [mbind option_bind].
  rewrite IH by lia. rewrite reverse_cons, <- (assoc_L (++)). simpl. do 2 f_equal. lia.
Qed.

Lemma reading_data p k eob s : m_data (reading p k eob s) = [] ↔ length p ≤ k.
Proof. simpl. rewrite <- length_zero_iff_nil, length_drop. lia. Qed.

(** A sequence is found, missing, or cut by the end of the block; in the last two cases
    nothing has been consumed. *)
Lemma contains_loop_spec rest matched p k s :
  k ≤ length p → length matched + k `max` length rest ≤ m_stack_size s →
  match look rest p with
  | Yes p' => contains_loop rest matched (reading p k false s) = Some (true, reading p' (k - length rest) false s)
  | More => contains_loop rest matched (reading p k false s) =
              Some (false, reading (reverse matched ++ p) (length matched + length p) true s)
  | No => ∃ k', k ≤ k' ≤ k `max` length rest ∧ k' ≤ length p ∧
            contains_loop rest matched (reading p k false s) =
              Some (false, reading (reverse matched ++ p) (length matched + k') false s)
  end.
Proof.
  revert matched p k. induction rest as [|c rest IH]; intros matched p k Hk Hsz; cbn [look contains_loop].
  { by rewrite Nat.sub_0_r. }
  destruct p as [|a p].
  { rewrite get_end. cbn. simpl in *. rewrite Nat.add_0_r.
    rewrite (ungets_reading matched [] 0 true s) by lia. by rewrite Nat.add_0_r. }
  rewrite get_reading. unfold same. simpl length in *. destruct (bool_decide (a = c)) eqn:E.
  - apply bool_decide_eq_true in E as ->.
    specialize (IH (c :: matched) p (k - 1)). simpl length in IH.
    assert (k - 1 ≤ length p) as H1 by lia.
    assert (S (length matched) + (k - 1) `max` length rest ≤ m_stack_size s) as H2 by lia.
    specialize (IH H1 H2). rewrite reverse_cons, <- (assoc_L (++)) in IH. simpl app in IH.
    destruct (look rest p) as [p'| |].
    + rewrite IH. do 3 f_equal. lia.
    + destruct IH as (k' & ? & ? & ->). exists (S k'). split_and!; [lia..|]. do 3 f_equal. lia.
    + rewrite IH. do 3 f_equal. lia.
  - simpl m_end_of_block. cbv iota. rewrite unget_reading by lia. cbn [mbind option_bind].
    exists (S (k - 1)). split_and!; [lia..|]. by rewrite ungets_reading by lia.
Qed.

Lemma scanner_contains_spec c seq p k s :
  is_first (Some c) seq = true → k ≤ length p → k `max` length seq ≤ m_stack_size s →
  match look (tail seq) p with
  | Yes p' => contains seq (reading p k false s) = Some (true, reading p' (k - (length seq - 1)) false s)
  | More => contains seq (reading p k false s) = Some (false, reading p (length p) true s)
  | No => ∃ k', k ≤ k' ≤ k `max` (length seq - 1) ∧ k' ≤ length p ∧
            contains seq (reading p k false s) = Some (false, reading p k' false s)
  end.
Proof.
  intros Hf Hk Hsz. destruct seq as [|d seq]; [done|].
  pose proof (contains_loop_spec seq [] p k s Hk) as H. simpl in *. rewrite Nat.sub_0_r.
  apply H. lia.
Qed.

(** ** Turns of the loops *)

Lemma terminator_spec guard c seq f cs p k s :
  k ≤ length p → k `max` length seq ≤ m_stack_size s → length cs + length seq ≤ m_stack_size s + 2 →
  match look_term guard c seq p with
  | Yes p' => terminator guard (Some c) seq f (Some <$> cs) (reading p k false s) =
                Some (Return f (reading p' (k - (length seq - 1)) false s))
  | More => terminator guard (Some c) seq f (Some <$> cs) (reading p k false s) =
              Some (Return CONTINUED (reading (reverse cs ++ p) (length cs + length p) true s))
  | No => ∃ k', k ≤ k' ≤ k `max` (length seq - 1) ∧ k' ≤ length p ∧
            terminator guard (Some c) seq f (Some <$> cs) (reading p k false s) =
              Some (Next (reading p k' false s))
  end.
Proof.
  intros Hk Hsz Hcs. unfold terminator, look_term.
  destruct guard; cbn [andb]; [|exists k; split_and!; [lia..|done]].
  destruct (is_first (Some c) seq) eqn:Ef; [|exists k; split_and!; [lia..|done]].
  pose proof (scanner_contains_spec c seq p k s Ef Hk Hsz) as H.
  destruct (look (tail seq) p) as [p'| |] eqn:El.
  - by rewrite H.
  - destruct H as (k' & ? & ? & ->). exists k'. split_and!; [lia..|done].
  - rewrite H. cbn [mbind option_bind]. unfold handle_end_of_block. simpl m_end_of_block. cbv iota.
    apply look_tail_More in El. rewrite ungets_reading; [done|lia].
Qed.

(** *** What a turn consumes *)

Section lengths.
Context (q : Sequences).

Lemma char_turn_length enc c p f p' : char_turn q enc c p = Some (f, p') → length p' ≤ length p.
Proof.
  unfold char_turn, enclosed_turn. intros H. repeat case_match; simplify_eq;
    repeat match goal with E : look_term _ _ _ _ = Yes _ |- _ => apply look_term_length in E end;
    simpl in *; lia.
Qed.

Lemma field_turn_length enc p f p' : field_turn q enc p = Some (f, p') → length p' < length p.
Proof.
  destruct p as [|c p]; simpl; [done|]. intros Hn. repeat case_match; simplify_eq;
    try apply char_turn_length in Hn; simpl in *; lia.
Qed.

Lemma row_turn_length p b p' : row_turn q p = Some (b, p') → length p' < length p.
Proof.
  destruct p as [|c p]; simpl; [done|]. intros Hn. repeat case_match; simplify_eq;
    try match goal with E : look_term _ _ _ _ = Yes _ |- _ => apply look_term_length in E end; simpl in *; lia.
Qed.

Lemma prefix_turn_length p b p' : prefix_turn q p = Some (b, p') → length p' < length p.
Proof.
  destruct p as [|c p]; simpl; [done|]. intros Hn. repeat case_match; simplify_eq;
    try match goal with E : look_term _ _ _ _ = Yes _ |- _ => apply look_term_length in E end; simpl in *; lia.
Qed.

Lemma prefix_turn_true p p' : prefix_turn q p = Some (true, p') → length p = length (m_lines_starting_by q) + length p'.
Proof.
  destruct p as [|c p]; simpl; [done|]. intros Hn. repeat case_match; simplify_eq.
  match goal with E : look_term _ _ _ _ = Yes _ |- _ => apply look_term_Yes, (f_equal length) in E end.
  by rewrite length_app in *.
Qed.

Lemma row_turn_true p p' : row_turn q p = Some (true, p') → length p = length (m_lines_terminated_by q) + length p'.
Proof.
  destruct p as [|c p]; simpl; [done|]. intros Hn. repeat case_match; simplify_eq;
    match goal with E : look_term _ _ _ _ = Yes _ |- _ => apply look_term_Yes, (f_equal length) in E end;
    by rewrite length_app in *.
Qed.

Lemma char_turn_line enc c p p' :
  char_turn q enc c p = Some (END_OF_LINE, p') → length (m_lines_terminated_by q) + length p' ≤ S (length p).
Proof.
  unfold char_turn, enclosed_turn. intros H. repeat case_match; simplify_eq;
    repeat match goal with E : look_term _ _ _ _ = Yes _ |- _ => apply look_term_Yes, (f_equal length) in E end;
    rewrite length_app in *; simpl in *; lia.
Qed.

Lemma field_turn_line enc p p' :
  field_turn q enc p = Some (END_OF_LINE, p') → length (m_lines_terminated_by q) + length p' ≤ length p.
Proof.
  destruct p as [|c p]; simpl; [done|]. intros H. repeat case_match; simplify_eq;
    apply char_turn_line in H; simpl in *; lia.
Qed.
End lengths.

Section simulation.
Context (q : Sequences).

Abbreviation lt := (length (m_lines_terminated_by q)).
Abbreviation ft := (length (m_fields_terminated_by q)).
Abbreviation ls := (length (m_lines_starting_by q)).

(** How much of the text may be on the stack while a field is scanned. *)
Definition depth : nat := lt `max` ft.

Context (s : Scanner) (Hlt : 0 < lt) (Hsize : m_stack_size s = stack_size q).
Context (Hesc : is_first (m_escaped_char q) (m_lines_terminated_by q) = false).

Lemma depth_size : depth < m_stack_size s ∧ ls ≤ m_stack_size s.
Proof. rewrite Hsize. unfold stack_size, depth. lia. Qed.

(** What is read again later fits on the stack. *)
Lemma enclosed_turn_None c p : enclosed_turn q c p = None → 2 + length p ≤ depth.
Proof.
  unfold enclosed_turn, depth, look_term. intros H. repeat case_match; simplify_eq;
    match goal with E : look _ _ = More |- _ => apply look_tail_More in E end; simpl in *; lia.
Qed.

Lemma char_turn_None enc c p : char_turn q enc c p = None → S (length p) ≤ depth.
Proof.
  unfold char_turn, look_term. intros H. unfold depth. repeat case_match; simplify_eq;
    try match goal with E : look _ _ = More |- _ => apply look_tail_More in E end; simpl in *; try lia.
  all: apply enclosed_turn_None in H; unfold depth in H; lia.
Qed.

(** [o] is what the machine does with the text, [r] what the scanner does; [back] is the
    text when the turn began, [k] what is on the stack. *)
Definition control_spec (o : option (Field_status * str)) (back : str) (k : nat) (r : option control) : Prop :=
  match o with
  | None => r = Some (Return CONTINUED (reading back (length back) true s))
  | Some (CONTINUED, p) => ∃ k', k' ≤ depth ∧ k' ≤ length p ∧ r = Some (Next (reading p k' false s))
  | Some (f, p) => ∃ k', k' ≤ depth ∧ k' ≤ length p ∧ (f = END_OF_LINE → k' ≤ k - lt) ∧
      r = Some (Return f (reading p k' false s))
  end.

Lemma control_spec_mono o back k1 k2 r : k1 - lt ≤ k2 - lt → control_spec o back k1 r → control_spec o back k2 r.
Proof. intros Hk. destruct o as [[[] p]|]; simpl; try done; intros (k' & ? & ? & ? & ?); exists k'; naive_solver lia. Qed.

Lemma scan_after_enclosed_spec e c p k :
  m_found_enclosed_char s = Some e → k ≤ length p → k ≤ depth - 2 →
  control_spec (enclosed_turn q c p) (e :: c :: p) (S k) (scan_after_enclosed q (Some c) (reading p k false s)).
Proof.
  intros He Hk Hd. destruct depth_size as [Hds _]. unfold depth in *.
  unfold scan_after_enclosed, enclosed_turn. change (m_found_enclosed_char (reading p k false s)) with (m_found_enclosed_char s).
  rewrite He. cbv zeta.
  pose proof (terminator_spec true c (m_lines_terminated_by q) END_OF_LINE [c; e] p k s Hk) as H1.
  simpl length in H1. cbn [fmap list_fmap] in H1. specialize (H1 ltac:(lia) ltac:(lia)).
  destruct (look_term true c (m_lines_terminated_by q) p) as [p'| |] eqn:E1; [|destruct H1 as (k1 & ? & ? & ->)|by rewrite H1].
  { apply look_term_Yes, (f_equal length) in E1. rewrite length_app in E1. simpl in E1.
    rewrite H1. exists (k - (lt - 1)). unfold depth. split_and!; [lia..|done]. }
  cbn [mbind option_bind].
  pose proof (terminator_spec true c (m_fields_terminated_by q) END_OF_FIELD [c; e] p k1 s) as H2.
  simpl length in H2. cbn [fmap list_fmap] in H2. specialize (H2 ltac:(done) ltac:(lia) ltac:(lia)).
  destruct (look_term true c (m_fields_terminated_by q) p) as [p'| |] eqn:E2; [|destruct H2 as (k2 & ? & ? & ->)|by rewrite H2].
  { apply look_term_Yes, (f_equal length) in E2. rewrite length_app in E2. simpl in E2.
    rewrite H2. exists (k1 - (ft - 1)). unfold depth. split_and!; [lia..|done|done]. }
  cbn [mbind option_bind]. rewrite unget_reading by lia. exists (S k2). unfold depth. simpl length. split_and!; [lia..|done].
Qed.

Lemma scan_char_spec c p k n :
  k ≤ length p →
  k ≤ depth - 1 ∧ n = S k ∨ k = 1 ∧ is_first (Some c) (m_lines_terminated_by q) = false →
  control_spec (char_turn q (m_found_enclosed_char s) c p) (c :: p) n
    (scan_char q (Some c) (reading p k false s)).
Proof.
  intros Hk Hd. destruct depth_size as [Hds _]. unfold depth in *.
  unfold scan_char, char_turn. change (m_found_enclosed_char (reading p k false s)) with (m_found_enclosed_char s).
  set (enc := m_found_enclosed_char s). cbv zeta.
  pose proof (terminator_spec (negb (used enc)) c (m_lines_terminated_by q) END_OF_LINE [c] p k s Hk) as H1.
  simpl length in H1. cbn [fmap list_fmap] in H1. specialize (H1 ltac:(lia) ltac:(lia)).
  destruct (look_term (negb (used enc)) c (m_lines_terminated_by q) p) as [p'| |] eqn:E1;
    [|destruct H1 as (k1 & ? & ? & ->)|by rewrite H1].
  { assert (k ≤ lt `max` ft - 1 ∧ n = S k).
    { destruct Hd as [|[_ Hd]]; [done|]. unfold look_term in E1. by rewrite Hd, andb_false_r in E1. }
    apply look_term_Yes, (f_equal length) in E1. rewrite length_app in E1. simpl in E1.
    rewrite H1. exists (k - (lt - 1)). unfold depth. split_and!; [lia..|done]. }
  cbn [mbind option_bind]. destruct (same (Some c) enc) eqn:Ec.
  - destruct enc as [e|] eqn:Ee; [|done]. simpl in Ec. apply bool_decide_eq_true in Ec as <-.
    destruct p as [|c2 p].
    { rewrite get_end. unfold handle_end_of_block. simpl m_end_of_block. cbv iota.
      change [Some c] with (Some <$> [c]). by rewrite (ungets_reading [c] [] 0) by (simpl; lia). }
    rewrite get_reading. cbn [handle_end_of_block m_end_of_block reading set_input]. cbn [mbind option_bind].
    fold (reading p (k1 - 1) false s). simpl length in *. destruct (same (Some c2) (Some c)).
    { exists (k1 - 1). unfold depth. split_and!; [lia..|done]. }
    eapply control_spec_mono; [|apply scan_after_enclosed_spec; [done|lia|unfold depth; lia]]. lia.
  - pose proof (terminator_spec (negb (used enc)) c (m_fields_terminated_by q) END_OF_FIELD [c] p k1 s) as H2.
    simpl length in H2. cbn [fmap list_fmap] in H2. specialize (H2 ltac:(done) ltac:(lia) ltac:(lia)).
    destruct (look_term (negb (used enc)) c (m_fields_terminated_by q) p) as [p'| |] eqn:E2; [|destruct H2 as (k2 & ? & ? & ->)|by rewrite H2].
    + apply look_term_Yes, (f_equal length) in E2. rewrite length_app in E2. simpl in E2.
      rewrite H2. exists (k1 - (ft - 1)). unfold depth. split_and!; [lia..|done|done].
    + exists k2. unfold depth. split_and!; [lia..|done].
Qed.

Lemma field_turn_None enc p : p ≠ [] → field_turn q enc p = None → length p ≤ depth.
Proof.
  destruct p as [|c p]; simpl; [done|]. intros _ Hn. unfold depth. repeat case_match; simplify_eq;
    try apply char_turn_None in Hn; simpl in *; unfold depth in *; lia.
Qed.

Lemma scan_field_turn_spec p k :
  p ≠ [] → k ≤ length p → k ≤ depth →
  control_spec (field_turn q (m_found_enclosed_char s) p) p k (scan_field_turn q (reading p k false s)).
Proof.
  intros Hp Hk Hd. destruct depth_size as [Hds _]. destruct p as [|c p]; [done|].
  unfold scan_field_turn, field_turn. rewrite get_reading. simpl length in *.
  assert (control_spec (char_turn q (m_found_enclosed_char s) c p) (c :: p) k
            (scan_char q (Some c) (reading p (k - 1) false s))) as Hchar.
  { eapply control_spec_mono; [|apply (scan_char_spec c p (k - 1) (S (k - 1)))]; [lia..|]. left. lia. }
  destruct (same (Some c) (m_escaped_char q)) eqn:Ec; [|done].
  destruct (m_escaped_char q) as [e|] eqn:Ee; [|done]. simpl in Ec. apply bool_decide_eq_true in Ec as <-.
  destruct p as [|c2 p].
  { rewrite get_end. unfold handle_end_of_block. simpl m_end_of_block. cbv iota.
    change [Some c] with (Some <$> [c]). by rewrite (ungets_reading [c] [] 0) by (simpl; lia). }
  rewrite get_reading. cbn [handle_end_of_block m_end_of_block reading set_input]. cbn [mbind option_bind].
  fold (reading p (k - 1 - 1) false s). destruct (_ || _).
  { exists (k - 1 - 1). simpl in *. split_and!; [lia..|done]. }
  rewrite unget_reading by lia. cbn [mbind option_bind].
  destruct (decide (2 ≤ k)).
  { apply scan_char_spec; [simpl in *; lia|]. left. lia. }
  apply scan_char_spec; [simpl; lia|]. right. split; [lia|done].
Qed.

(** The loop of [scan_field] makes turns of the machine. *)
Lemma scan_field_spec fuel p k :
  k ≤ length p → k ≤ depth → length p < fuel →
  let a := Machine 0 FIELD (m_found_enclosed_char s) in
  ∃ f p' k' eob, scan_field q fuel (reading p k false s) = Some (f, reading p' k' eob s) ∧
    runs q a p [] (after f a) p' ∧ k' ≤ depth ∧ k' ≤ length p' ∧ length p' ≤ length p ∧
    match f with
    | CONTINUED => k' = length p'
    | END_OF_FIELD => eob = false ∧ length p' < length p
    | END_OF_LINE => eob = false ∧ length p' < length p ∧ k' ≤ depth - lt
    end.
Proof.
  intros Hk Hd Hf a. revert p k Hk Hd Hf. induction fuel as [|fuel IH]; intros p k Hk Hd Hf; [lia|].
  cbn [scan_field]. case_bool_decide as Hdata.
  { apply reading_data in Hdata. exists CONTINUED, p, k, false. split_and!; try done; [constructor|lia]. }
  rewrite reading_data in Hdata. destruct p as [|c p]; [simpl in *; lia|].
  pose proof (scan_field_turn_spec (c :: p) k ltac:(done) Hk Hd) as Hc.
  destruct (field_turn q (m_found_enclosed_char s) (c :: p)) as [[f p']|] eqn:Et.
  - pose proof (field_turn_length q _ _ _ _ Et) as Hlen.
    assert (turn q a (c :: p) = Some (after f a, p', false)) as Hturn
      by (unfold turn, a; cbn [to_skip status found]; by rewrite Et).
    destruct f; simpl in Hc.
    + destruct Hc as (k1 & ? & ? & ->). cbn [mbind option_bind].
      destruct (IH p' k1) as (f & p2 & k2 & eob & ? & Hruns & ? & ? & ? & Hm); [lia..|].
      exists f, p2, k2, eob. split_and!; try done; [|lia|destruct f; naive_solver lia].
      eapply (runs_step _ _ _ _ _ false []); [exact Hturn|done].
    + destruct Hc as (k1 & ? & ? & _ & ->). exists END_OF_FIELD, p', k1, false.
      split_and!; try done; [|lia]. eapply (runs_step _ _ _ _ _ false []); [exact Hturn|constructor].
    + destruct Hc as (k1 & ? & ? & ? & ->). exists END_OF_LINE, p', k1, false.
      split_and!; try done; [|lia|]. { eapply (runs_step _ _ _ _ _ false []); [exact Hturn|constructor]. }
      specialize (H1 eq_refl). lia.
  - simpl in Hc. rewrite Hc. cbn [mbind option_bind].
    apply field_turn_None in Et; [|done].
    exists CONTINUED, (c :: p), (S (length p)), true. split_and!; try done; constructor.
Qed.

(** *** Skipping rows *)

Lemma row_turn_None p : p ≠ [] → row_turn q p = None → length p ≤ lt.
Proof.
  destruct p as [|c p]; simpl; [done|]. intros _ Hn. unfold look_term in Hn. repeat case_match; simplify_eq;
    try match goal with E : look _ _ = More |- _ => apply look_tail_More in E end; simpl in *; lia.
Qed.

Lemma skip_row_done fuel st : m_data st = [] → skip_row q fuel st = Some (false, st).
Proof. intros H. destruct fuel; simpl; by rewrite bool_decide_eq_true_2. Qed.

Lemma skip_row_turn fuel p k :
  p ≠ [] → k < length p → k ≤ lt →
  match row_turn q p with
  | None => skip_row q (S fuel) (reading p k false s) = Some (false, reading p (length p) true s)
  | Some (true, p') => skip_row q (S fuel) (reading p k false s) = Some (true, reading p' (k - lt) false s)
  | Some (false, p') => ∃ k', k' ≤ lt ∧ k' ≤ length p' ∧
      skip_row q (S fuel) (reading p k false s) = skip_row q fuel (reading p' k' false s)
  end.
Proof.
  intros Hp Hk Hd. destruct depth_size as [Hds _]. unfold depth in Hds. destruct p as [|c p]; [done|].
  cbn [skip_row row_turn]. rewrite bool_decide_eq_false_2 by (rewrite reading_data; lia).
  rewrite get_reading. simpl length in *. destruct (same (Some c) (m_escaped_char q)) eqn:Ec.
  - destruct (m_escaped_char q) as [e|] eqn:Ee; [|done]. simpl in Ec. apply bool_decide_eq_true in Ec as <-.
    destruct p as [|c2 p].
    + rewrite get_end. simpl m_end_of_block. cbv iota. rewrite unget_reading by lia. cbn [mbind option_bind].
      by rewrite skip_row_done.
    + rewrite get_reading. simpl m_end_of_block. cbv iota. cbn [mbind option_bind].
      exists (k - 1 - 1). simpl in *. split_and!; [lia..|done].
  - unfold look_term. cbn [andb]. destruct (is_first (Some c) (m_lines_terminated_by q)) eqn:Ef.
    + pose proof (scanner_contains_spec c _ p (k - 1) s Ef ltac:(lia) ltac:(lia)) as Hc.
      destruct (look (tail (m_lines_terminated_by q)) p) as [p'| |] eqn:El.
      * rewrite Hc. cbn [mbind option_bind]. do 3 f_equal. lia.
      * destruct Hc as (k' & ? & ? & ->). cbn [mbind option_bind].
        exists k'. split_and!; [lia..|done].
      * rewrite Hc. cbn [mbind option_bind]. simpl m_end_of_block. cbv iota.
        apply look_tail_More in El. rewrite unget_reading by lia. cbn [mbind option_bind].
        rewrite skip_row_done; [done|]. apply reading_data. simpl. lia.
    + cbn [mbind option_bind]. exists (k - 1). split_and!; [lia..|done].
Qed.

Lemma skip_row_spec fuel p k n st fd :
  k ≤ length p → k ≤ lt → length p < fuel →
  ∃ (b : bool) p' k' eob, skip_row q fuel (reading p k false s) = Some (b, reading p' k' eob s) ∧
    runs q (Machine (S n) st fd) p [] (Machine (if b then n else S n) st fd) p' ∧
    k' ≤ length p' ∧ length p' ≤ length p ∧
    if b then eob = false ∧ k' = 0 else k' = length p' ∧ k' ≤ lt.
Proof.
  intros Hk Hd Hf. revert p k Hk Hd Hf. induction fuel as [|fuel IH]; intros p k Hk Hd Hf; [lia|].
  destruct (decide (length p ≤ k)).
  { exists false, p, k, false. rewrite skip_row_done by (by apply reading_data).
    split_and!; try done; [constructor|lia]. }
  assert (p ≠ []) as Hp by (by intros ->; simpl in *; lia).
  pose proof (skip_row_turn fuel p k Hp ltac:(lia) Hd) as Ht.
  assert (∀ b p', row_turn q p = Some (b, p') →
    turn q (Machine (S n) st fd) p = Some (Machine (if b then n else S n) st fd, p', false)) as Hturn.
  { intros b p' E. unfold turn. destruct p; [done|]. cbn [to_skip status found]. rewrite E. by destruct b. }
  destruct (row_turn q p) as [[[] p']|] eqn:E.
  - pose proof (row_turn_length q _ _ _ E). rewrite Ht. exists true, p', (k - lt), false.
    split_and!; [done| |lia..|done|lia]. eapply (runs_step _ _ _ _ _ false []); [by apply Hturn|constructor].
  - destruct Ht as (k1 & ? & ? & ->). pose proof (row_turn_length q _ _ _ E).
    destruct (IH p' k1) as (b & p2 & k2 & eob & ? & ? & ? & ? & ?); [lia..|].
    exists b, p2, k2, eob. split_and!; try done; [|lia].
    eapply (runs_step _ _ _ _ _ false []); [by apply Hturn|done].
  - apply row_turn_None in E; [|done]. rewrite Ht. exists false, p, (length p), true.
    split_and!; try done. constructor.
Qed.

(** *** The start of a line *)

Lemma prefix_turn_None p : p ≠ [] → prefix_turn q p = None → length p < ls.
Proof.
  destruct p as [|c p]; simpl; [done|]. intros _ Hn. unfold look_term in Hn. repeat case_match; simplify_eq.
  match goal with E : look _ _ = More |- _ => apply look_tail_More in E end; simpl in *; lia.
Qed.

Lemma skip_line_start_done fuel st : m_data st = [] → skip_line_start_loop q fuel st = Some (false, st).
Proof. intros H. destruct fuel; simpl; by rewrite bool_decide_eq_true_2. Qed.

(** What may be on the stack when a row begins, and before its first field. *)
Definition depth_begin : nat := depth - lt.
Definition depth_prefix : nat := depth_begin `max` ls.

Lemma skip_line_start_turn fuel p k :
  p ≠ [] → k < length p → k ≤ depth_prefix →
  match prefix_turn q p with
  | None => skip_line_start_loop q (S fuel) (reading p k false s) = Some (false, reading p (length p) true s)
  | Some (true, p') => skip_line_start_loop q (S fuel) (reading p k false s) = Some (true, reading p' (k - ls) false s)
  | Some (false, p') => ∃ k', k' ≤ depth_prefix ∧ k' ≤ length p' ∧
      skip_line_start_loop q (S fuel) (reading p k false s) = skip_line_start_loop q fuel (reading p' k' false s)
  end.
Proof.
  intros Hp Hk Hd. destruct depth_size as [Hds Hds']. unfold depth_prefix, depth_begin in *.
  destruct p as [|c p]; [done|].
  cbn [skip_line_start_loop prefix_turn]. rewrite bool_decide_eq_false_2 by (rewrite reading_data; lia).
  rewrite get_reading. simpl length in *.
  unfold look_term. cbn [andb]. destruct (is_first (Some c) (m_lines_starting_by q)) eqn:Ef.
  - assert (0 < ls) by (destruct (m_lines_starting_by q); simpl in *; [done|lia]).
    pose proof (scanner_contains_spec c _ p (k - 1) s Ef ltac:(lia) ltac:(lia)) as Hc.
    destruct (look (tail (m_lines_starting_by q)) p) as [p'| |] eqn:El.
    + rewrite Hc. cbn [mbind option_bind]. do 3 f_equal. lia.
    + destruct Hc as (k' & ? & ? & ->). cbn [mbind option_bind].
      exists k'. split_and!; [lia..|done].
    + rewrite Hc. cbn [mbind option_bind]. simpl m_end_of_block. cbv iota.
      apply look_tail_More in El. rewrite unget_reading by lia. cbn [mbind option_bind].
      rewrite skip_line_start_done; [done|]. apply reading_data. simpl. lia.
  - cbn [mbind option_bind]. exists (k - 1). split_and!; [lia..|done].
Qed.

Lemma skip_line_start_loop_spec fuel p k fd :
  k ≤ length p → k ≤ depth_prefix → length p < fuel → m_lines_starting_by q ≠ [] →
  ∃ (b : bool) p' k' eob, skip_line_start_loop q fuel (reading p k false s) = Some (b, reading p' k' eob s) ∧
    runs q (Machine 0 PREFIX fd) p [] (Machine 0 (if b then BEGIN_OF_FIELD else PREFIX) fd) p' ∧
    k' ≤ length p' ∧ length p' ≤ length p ∧
    if b then eob = false ∧ k' ≤ depth ∧ length p' < length p else k' = length p' ∧ k' ≤ depth_prefix.
Proof.
  intros Hk Hd Hf Hls. revert p k Hk Hd Hf. induction fuel as [|fuel IH]; intros p k Hk Hd Hf; [lia|].
  destruct (decide (length p ≤ k)).
  { exists false, p, k, false. rewrite skip_line_start_done by (by apply reading_data).
    split_and!; try done; [constructor|lia]. }
  assert (p ≠ []) as Hp by (by intros ->; simpl in *; lia).
  pose proof (skip_line_start_turn fuel p k Hp ltac:(lia) Hd) as Ht.
  assert (∀ b p', prefix_turn q p = Some (b, p') →
    turn q (Machine 0 PREFIX fd) p = Some (Machine 0 (if b then BEGIN_OF_FIELD else PREFIX) fd, p', false)) as Hturn.
  { intros b p' E. unfold turn. destruct p; [done|]. cbn [to_skip status found].
    rewrite bool_decide_eq_false_2 by done. rewrite E. by destruct b. }
  destruct (prefix_turn q p) as [[[] p']|] eqn:E.
  - pose proof (prefix_turn_length q _ _ _ E). rewrite Ht. exists true, p', (k - ls), false.
    apply prefix_turn_true in E. unfold depth_prefix, depth_begin in *.
    split_and!; [done| |lia..|done|lia|lia]. eapply (runs_step _ _ _ _ _ false []); [by apply Hturn|constructor].
  - destruct Ht as (k1 & ? & ? & ->). pose proof (prefix_turn_length q _ _ _ E).
    destruct (IH p' k1) as (b & p2 & k2 & eob & ? & ? & ? & ? & Hb); [lia..|].
    exists b, p2, k2, eob. split_and!; try done; [|lia|destruct b; naive_solver lia].
    eapply (runs_step _ _ _ _ _ false []); [by apply Hturn|done].
  - apply prefix_turn_None in E; [|done]. rewrite Ht. exists false, p, (length p), true.
    unfold depth_prefix. split_and!; try done; [constructor|lia].
Qed.

Lemma skip_line_start_spec p k fd :
  k ≤ length p → k ≤ depth_prefix → p ≠ [] →
  ∃ (b : bool) p' k' eob, skip_line_start q (reading p k false s) = Some (b, reading p' k' eob s) ∧
    runs q (Machine 0 PREFIX fd) p [] (Machine 0 (if b then BEGIN_OF_FIELD else PREFIX) fd) p' ∧
    k' ≤ length p' ∧ length p' ≤ length p ∧
    if b then eob = false ∧ k' ≤ depth else k' = length p' ∧ k' ≤ depth_prefix.
Proof.
  intros Hk Hd Hp. unfold skip_line_start. destruct (m_lines_starting_by q) as [|x l] eqn:E; simpl.
  - exists true, p, k, false. unfold depth_prefix, depth_begin in Hd. rewrite E in Hd. simpl in Hd.
    split_and!; try done; [|lia]. eapply (runs_step _ _ _ _ _ false []); [|constructor].
    destruct p; [done|]. unfold turn. simpl. by rewrite E.
  - destruct (skip_line_start_loop_spec (turns (reading p k false s)) p k fd) as (b & p' & k' & eob & ? & ? & ? & ? & Hb); try done.
    + unfold turns. simpl. rewrite <- (take_drop k p) at 1. rewrite length_app. lia.
    + by rewrite E.
    + exists b, p', k', eob. split_and!; try done. destruct b; naive_solver.
Qed.
End simulation.

(** ** Blocks *)

Lemma runs_trans q a p es b p1 es' c p2 :
  runs q a p es b p1 → runs q b p1 es' c p2 → runs q a p (es ++ es') c p2.
Proof. induction 1; [done|]. intros. rewrite <- (assoc_L (++)). econstructor; eauto. Qed.

Section scanning.
Context (q : Sequences).
Context (Hlt : 0 < length (m_lines_terminated_by q)).
Context (Hesc : is_first (m_escaped_char q) (m_lines_terminated_by q) = false).

Definition machine_of (s : Scanner) : machine :=
  Machine (m_skip_rows s) (m_status s) (m_found_enclosed_char s).

(** What may be on the stack between the turns. *)
Definition stack_ok (k : nat) (s : Scanner) : Prop :=
  match m_skip_rows s, m_status s with
  | S _, _ => k ≤ length (m_lines_terminated_by q)
  | O, BEGIN => k ≤ depth_begin q
  | O, PREFIX => k ≤ depth_prefix q
  | O, _ => k ≤ depth q
  end.

Definition rank (st : Row_status) : nat :=
  match st with BEGIN => 3 | PREFIX => 2 | BEGIN_OF_FIELD => 1 | FIELD => 0 end.

(** The result of [scan]: [ms] is what was left of the block when rows began. *)
Definition first_row (len : nat) (ms : list nat) (first : Z) : Z :=
  if (first =? k_row_not_found)%Z
  then match ms with [] => first | m :: _ => Z.of_nat (len - m) end else first.

Lemma first_row_found len ms m : first_row len ms (Z.of_nat m) = Z.of_nat m.
Proof. unfold first_row, k_row_not_found. case_match; [lia|done]. Qed.

Lemma first_row_cons len ms m first :
  first_row len ms (if (first =? k_row_not_found)%Z then Z.of_nat (len - m) else first) = first_row len (m :: ms) first.
Proof.
  unfold first_row at 2. destruct (first =? k_row_not_found)%Z eqn:E; [apply first_row_found|].
  unfold first_row. by rewrite E.
Qed.

(** What a row start is for the scanner and for the machine. *)
Definition near (n m : nat) : Prop := m ≤ n ∧ n ≤ m + depth_begin q.

(** The state after [scan_loop], which has used up the block. *)
Definition scan_result (s : Scanner) (p : str) (len : nat) (first : Z) (r : option (Z * Scanner)) : Prop :=
  ∃ es ms p' eob s', r = Some (first_row len ms first, reading p' (length p') eob s') ∧
    runs q (machine_of s) p es (machine_of s') p' ∧ Forall2 near es ms ∧
    m_stack_size s' = m_stack_size s ∧ stack_ok (length p') s'.

Lemma scan_result_step s p s1 p1 es ms len first first1 r :
  runs q (machine_of s) p es (machine_of s1) p1 → Forall2 near es ms → m_stack_size s1 = m_stack_size s →
  (∀ ms', first_row len ms' first1 = first_row len (ms ++ ms') first) →
  scan_result s1 p1 len first1 r → scan_result s p len first r.
Proof.
  intros Hr Hn Hs Hf (es' & ms' & p' & eob & s' & -> & Hr' & Hn' & Hs' & Hok).
  exists (es ++ es'), (ms ++ ms'), p', eob, s'. rewrite Hf.
  split_and!; [done| |by apply Forall2_app|congruence|done]. eapply runs_trans; eauto.
Qed.

Lemma scan_result_done s p len first eob :
  stack_ok (length p) s → scan_result s p len first (Some (first, reading p (length p) eob s)).
Proof.
  intros Hok. exists [], [], p, eob, s. split_and!; try done; [|constructor].
  unfold first_row. by destruct (_ =? _)%Z.
Qed.

Lemma scan_loop_done fuel len first st : m_data st = [] → scan_loop q fuel len first st = Some (first, st).
Proof. intros H. destruct fuel; simpl; by rewrite bool_decide_eq_true_2. Qed.

Lemma turns_reading p k eob s : turns (reading p k eob s) = 4 * length p + 4.
Proof.
  unfold turns. simpl m_stack. simpl m_data. rewrite <- (length_app (take k p)), take_drop. lia.
Qed.

(** The loop with [fuel] turns does what the machine does. *)
Definition scans (fuel : nat) : Prop := ∀ len first p k s,
  m_skip_rows s = 0 → m_stack_size s = stack_size q → k ≤ length p → stack_ok k s →
  4 * length p + rank (m_status s) < fuel →
  scan_result s p len first (scan_loop q fuel len first (reading p k false s)).

Section one_turn.
Context (fuel : nat) (IH : scans fuel).
Context (len : nat) (first : Z) (p : str) (k : nat) (s : Scanner).
Context (Hskip : m_skip_rows s = 0) (Hsize : m_stack_size s = stack_size q) (Hk : k < length p).
Context (Hok : stack_ok k s) (Hf : 4 * length p + rank (m_status s) < S fuel).

Lemma machine_of_status st : m_status s = st → machine_of s = Machine 0 st (m_found_enclosed_char s).
Proof. intros <-. unfold machine_of. by rewrite Hskip. Qed.

(** A step to a status within the row. *)
Lemma scan_next st fd p1 k1 :
  runs q (machine_of s) p [] (Machine 0 st fd) p1 → k1 ≤ length p1 → stack_ok k1 (set_state 0 st fd s) →
  4 * length p1 + rank st < fuel →
  scan_result s p len first (scan_loop q fuel len first (reading p1 k1 false (set_state 0 st fd s))).
Proof.
  intros Hr Hk1 Hok1 Hf1. eapply (scan_result_step s p (set_state 0 st fd s) p1 [] []); [done|done..|by apply IH].
Qed.

Lemma scan_stop p1 eob :
  runs q (machine_of s) p [] (machine_of s) p1 → stack_ok (length p1) s →
  scan_result s p len first (Some (first, reading p1 (length p1) eob s)).
Proof. intros Hr Hok1. eapply (scan_result_step s p s p1 [] []); try done. by apply scan_result_done. Qed.

Lemma scan_begin : m_status s = BEGIN → scan_result s p len first (scan_loop q (S fuel) len first (reading p k false s)).
Proof.
  intros Est. cbn [scan_loop]. rewrite bool_decide_eq_false_2 by (rewrite reading_data; lia).
  change (m_status (reading p k false s)) with (m_status s). unfold stack_ok in Hok. rewrite Est, Hskip in *.
  set (s1 := set_status PREFIX s). change (set_status PREFIX (reading p k false s)) with (reading p k false s1).
  eapply (scan_result_step s p s1 p [length p] [length p - k]); [| | | |apply IH]; try done.
  - rewrite (machine_of_status BEGIN Est). eapply (runs_step q _ p _ p true []); [by destruct p; [simpl in *; lia|]|].
    unfold machine_of, s1. simpl. rewrite Hskip. constructor.
  - constructor; [|constructor]. split; lia.
  - intros ms'. simpl m_data. rewrite length_drop. apply first_row_cons.
  - lia.
  - unfold stack_ok, s1. simpl. rewrite Hskip. unfold depth_prefix. lia.
  - simpl in *. lia.
Qed.

Lemma scan_prefix : m_status s = PREFIX → scan_result s p len first (scan_loop q (S fuel) len first (reading p k false s)).
Proof.
  intros Est. cbn [scan_loop]. rewrite bool_decide_eq_false_2 by (rewrite reading_data; lia).
  change (m_status (reading p k false s)) with (m_status s). unfold stack_ok in Hok. rewrite Est, Hskip in *.
  destruct (skip_line_start_spec q s Hlt Hsize p k (m_found_enclosed_char s))
    as (b & p' & k' & eob & -> & Hr & ? & ? & Hb); [lia|done|by intros ->; simpl in *; lia|].
  rewrite <- (machine_of_status PREFIX Est) in Hr. cbn [mbind option_bind]. destruct b.
  - destruct Hb as [-> ?].
    replace (set_status BEGIN_OF_FIELD (reading p' k' false s))
      with (reading p' k' false (set_state 0 BEGIN_OF_FIELD (m_found_enclosed_char s) s))
      by (by unfold set_status, reading, set_state, set_input; simpl; rewrite Hskip).
    apply scan_next; try done. simpl in *. lia.
  - destruct Hb as [-> ?]. rewrite <- (machine_of_status PREFIX Est) in Hr. apply scan_stop; [done|].
    unfold stack_ok. by rewrite Hskip, Est.
Qed.

Lemma scan_begin_of_field :
  m_status s = BEGIN_OF_FIELD → scan_result s p len first (scan_loop q (S fuel) len first (reading p k false s)).
Proof.
  intros Est. cbn [scan_loop]. rewrite bool_decide_eq_false_2 by (rewrite reading_data; lia).
  change (m_status (reading p k false s)) with (m_status s). unfold stack_ok in Hok. rewrite Est, Hskip in *.
  destruct p as [|c p0] eqn:Ep; [simpl in *; lia|]. rewrite get_reading.
  destruct (depth_size q s Hlt Hsize) as [Hds _].
  pose proof (machine_of_status BEGIN_OF_FIELD Est) as Hms.
  destruct (same (Some c) (m_enclosed_char q)) eqn:Ec.
  - change (m_skip_rows (reading p0 (k - 1) false s)) with (m_skip_rows s). rewrite Hskip.
    change (set_state 0 FIELD (Some c) (reading p0 (k - 1) false s))
      with (reading p0 (k - 1) false (set_state 0 FIELD (Some c) s)).
    rewrite <- Ep. apply scan_next; [|simpl in *; lia..| |simpl in *; lia]; [|unfold stack_ok; simpl; lia].
    rewrite Hms, Ep. eapply (runs_step _ _ _ _ _ false []); [|constructor]. unfold turn. cbn [to_skip status]. by rewrite Ec.
  - rewrite unget_reading by lia. cbn [mbind option_bind].
    change (m_skip_rows (reading (c :: p0) (S (k - 1)) false s)) with (m_skip_rows s). rewrite Hskip.
    change (set_state 0 FIELD None (reading (c :: p0) (S (k - 1)) false s))
      with (reading (c :: p0) (S (k - 1)) false (set_state 0 FIELD None s)).
    rewrite <- Ep. apply scan_next; [|rewrite Ep; simpl in *; lia|unfold stack_ok, depth in *; simpl; lia|rewrite Ep; simpl in *; lia].
    rewrite Hms, Ep. eapply (runs_step _ _ _ _ _ false []); [|constructor]. unfold turn. cbn [to_skip status]. by rewrite Ec.
Qed.

Lemma scan_in_field : m_status s = FIELD → scan_result s p len first (scan_loop q (S fuel) len first (reading p k false s)).
Proof.
  intros Est. cbn [scan_loop]. rewrite bool_decide_eq_false_2 by (rewrite reading_data; lia).
  change (m_status (reading p k false s)) with (m_status s). unfold stack_ok in Hok. rewrite Est, Hskip in *.
  rewrite turns_reading.
  destruct (scan_field_spec q s Hlt Hsize Hesc (4 * length p + 4) p k) as (f & p' & k' & eob & -> & Hr & ? & ? & ? & Hfin);
    [lia|done|lia|]. pose proof (machine_of_status FIELD Est) as Hms. cbn [mbind option_bind].
  assert (∀ st, set_status st (reading p' k' eob s) = reading p' k' eob (set_state 0 st (m_found_enclosed_char s) s)) as Hst
    by (intros st; unfold set_status, reading, set_state, set_input; simpl; by rewrite Hskip).
  destruct f; [|rewrite Hst; destruct Hfin as [-> ?]..].
  - subst k'. rewrite scan_loop_done by (by apply reading_data). apply scan_stop; [by rewrite Hms|].
    unfold stack_ok. by rewrite Hskip, Est.
  - apply scan_next; [by rewrite Hms|done..|simpl in *; lia].
  - apply scan_next; [by rewrite Hms|done|by apply H2|simpl in *; lia].
Qed.
End one_turn.

Lemma scan_loop_spec fuel : scans fuel.
Proof.
  induction fuel as [|fuel IH]; intros len first p k s Hskip Hsize Hk Hok Hf; [lia|].
  destruct (decide (length p ≤ k)).
  { rewrite scan_loop_done by (by apply reading_data). replace k with (length p) in * by lia. by apply scan_result_done. }
  destruct (m_status s) eqn:Est; [apply scan_begin|apply scan_prefix|apply scan_begin_of_field|apply scan_in_field];
    try done; try lia; by rewrite Est.
Qed.

Lemma skip_rows_spec n p k s :
  m_skip_rows s = n → m_stack_size s = stack_size q → k ≤ length p → stack_ok k s →
  ∃ (b : bool) p' k' eob s', skip_rows q n (reading p k false s) = Some (b, reading p' k' eob s') ∧
    runs q (machine_of s) p [] (machine_of s') p' ∧ m_stack_size s' = m_stack_size s ∧
    k' ≤ length p' ∧ length p' ≤ length p ∧ stack_ok k' s' ∧
    if b then m_skip_rows s' = 0 ∧ eob = false else k' = length p'.
Proof.
  revert p k s. induction n as [|n IH]; intros p k s Hn Hsize Hk Hok; cbn [skip_rows].
  { exists true, p, k, false, s. split_and!; try done. constructor. }
  unfold stack_ok in Hok. rewrite Hn in Hok. rewrite turns_reading.
  destruct (skip_row_spec q s Hlt Hsize Hesc (4 * length p + 4) p k n (m_status s) (m_found_enclosed_char s))
    as (b & p' & k' & eob & -> & Hr & ? & ? & Hb); [lia..|]. cbn [mbind option_bind].
  assert (machine_of s = Machine (S n) (m_status s) (m_found_enclosed_char s)) as Hms by (unfold machine_of; by rewrite Hn).
  destruct b.
  - destruct Hb as [-> ->]. set (s1 := set_state n (m_status s) (m_found_enclosed_char s) s).
    change (set_state n _ _ (reading p' 0 false s)) with (reading p' 0 false s1).
    destruct (IH p' 0 s1) as (b & p2 & k2 & eob & s2 & -> & Hr2 & ? & ? & ? & ? & ?); [done..|lia| |].
    { unfold stack_ok. repeat case_match; lia. }
    exists b, p2, k2, eob, s2. split_and!; try done; [|lia].
    rewrite Hms. eapply (runs_trans _ _ _ [] _ _ []); [exact Hr|exact Hr2].
  - destruct Hb as [-> ?]. exists false, p', (length p'), eob, s. rewrite Hms. split_and!; try done.
    unfold stack_ok. by rewrite Hn.
Qed.

(** A block: the scanner makes turns of the machine on what was on the stack and the
    block, and returns where the first row began, up to what was on the stack then. *)
Lemma scan_spec data s :
  m_stack_size s = stack_size q → stack_ok (length (m_stack s)) s →
  ∃ es ms s', scan q data s = Some (first_row (length data) ms k_row_not_found, s') ∧
    runs q (machine_of s) (m_stack s ++ data) es (machine_of s') (m_stack s') ∧ Forall2 near es ms ∧
    m_stack_size s' = m_stack_size s ∧ stack_ok (length (m_stack s')) s'.
Proof.
  intros Hsize Hok. unfold scan. set (p := m_stack s ++ data).
  assert (set_input (m_stack s) data false s = reading p (length (m_stack s)) false s) as ->.
  { unfold reading, p. by rewrite take_app_length, drop_app_length. }
  cbn zeta. change (m_skip_rows (reading p (length (m_stack s)) false s)) with (m_skip_rows s).
  destruct (skip_rows_spec (m_skip_rows s) p (length (m_stack s)) s)
    as (b & p' & k' & eob & s1 & -> & Hr & Hs1 & ? & ? & ? & Hb); [done|done|unfold p; rewrite length_app; lia|done|].
  cbn [mbind option_bind]. destruct b.
  - destruct Hb as [? ->]. rewrite turns_reading.
    destruct (scan_loop_spec (4 * length p' + 4) (length data) k_row_not_found p' k' s1)
      as (es & ms & p2 & eob & s2 & -> & Hr2 & ? & ? & ?); [done|congruence|done..|destruct (m_status s1); simpl; lia|].
    exists es, ms, (reading p2 (length p2) eob s2). simpl m_stack. rewrite take_ge by lia.
    split_and!; try done; [|by rewrite <- Hs1]. eapply (runs_trans _ _ _ []); eauto.
  - subst k'. exists [], [], (reading p' (length p') eob s1). simpl m_stack. rewrite take_ge by lia.
    split_and!; try done.
Qed.
End scanning.

(** ** The machine *)

(** A turn does not depend on what follows the text it needed. *)
Lemma look_term_app guard c seq p t :
  match look_term guard c seq p with
  | Yes p' => look_term guard c seq (p ++ t) = Yes (p' ++ t)
  | No => look_term guard c seq (p ++ t) = No
  | More => True
  end.
Proof. unfold look_term. destruct (_ && _); [apply look_app|done]. Qed.

(** Case analysis on a lookup of [p], which decides the one of [p ++ t]. *)
Ltac case_look g c seq p t :=
  let H := fresh in let E := fresh in
  pose proof (look_term_app g c seq p t) as H;
  destruct (look_term g c seq p) eqn:E; [rewrite H|rewrite H|]; clear H.

Section machine_facts.
Context (q : Sequences).
Context (Hlt : 0 < length (m_lines_terminated_by q)).

Lemma row_turn_app p b p' t : row_turn q p = Some (b, p') → row_turn q (p ++ t) = Some (b, p' ++ t).
Proof.
  destruct p as [|c p]; [done|]. cbn [row_turn app]. destruct (same (Some c) (m_escaped_char q)); [destruct p; intros; by simplify_eq|].
  case_look true c (m_lines_terminated_by q) p t; intros; by simplify_eq.
Qed.

Lemma prefix_turn_app p b p' t : prefix_turn q p = Some (b, p') → prefix_turn q (p ++ t) = Some (b, p' ++ t).
Proof.
  destruct p as [|c p]; [done|]. cbn [prefix_turn app]. case_look true c (m_lines_starting_by q) p t; intros; by simplify_eq.
Qed.

Lemma enclosed_turn_app c p f p' t : enclosed_turn q c p = Some (f, p') → enclosed_turn q c (p ++ t) = Some (f, p' ++ t).
Proof.
  unfold enclosed_turn. case_look true c (m_lines_terminated_by q) p t; [intros; by simplify_eq| |done].
  case_look true c (m_fields_terminated_by q) p t; intros; by simplify_eq.
Qed.

Lemma char_turn_app enc c p f p' t : char_turn q enc c p = Some (f, p') → char_turn q enc c (p ++ t) = Some (f, p' ++ t).
Proof.
  unfold char_turn. case_look (negb (used enc)) c (m_lines_terminated_by q) p t; [intros; by simplify_eq| |done].
  destruct (same (Some c) enc).
  - destruct p as [|c2 p]; [done|]. cbn [app]. destruct (same (Some c2) enc); [intros; by simplify_eq|apply enclosed_turn_app].
  - case_look (negb (used enc)) c (m_fields_terminated_by q) p t; intros; by simplify_eq.
Qed.

Lemma field_turn_app enc p f p' t : field_turn q enc p = Some (f, p') → field_turn q enc (p ++ t) = Some (f, p' ++ t).
Proof.
  destruct p as [|c p]; [done|]. cbn [field_turn app]. destruct (same (Some c) (m_escaped_char q)); [|apply char_turn_app].
  destruct p as [|c2 p]; [done|]. cbn [app]. destruct (_ || _); [intros; by simplify_eq|]. apply (char_turn_app _ _ (c2 :: p)).
Qed.

Lemma turn_app a p a' p' b t : turn q a p = Some (a', p', b) → turn q a (p ++ t) = Some (a', p' ++ t, b).
Proof.
  unfold turn. destruct p as [|c p]; [done|]. change ((c :: p) ++ t) with (c :: (p ++ t)).
  destruct (to_skip a) as [|n]; [destruct (status a)|].
  - intros; by simplify_eq.
  - case_bool_decide; [intros; by simplify_eq|]. intros ([? ?] & E & ?)%bind_Some. simplify_eq.
    apply (prefix_turn_app _ _ _ t) in E. change (c :: p ++ t) with ((c :: p) ++ t). by rewrite E.
  - destruct (same (Some c) (m_enclosed_char q)); intros; by simplify_eq.
  - intros ([? ?] & E & ?)%bind_Some. simplify_eq.
    apply (field_turn_app _ _ _ _ t) in E. change (c :: p ++ t) with ((c :: p) ++ t). by rewrite E.
  - intros ([? ?] & E & ?)%bind_Some. simplify_eq.
    apply (row_turn_app _ _ _ t) in E. change (c :: p ++ t) with ((c :: p) ++ t). by rewrite E.
Qed.

Lemma runs_app a p es a' p' t :
  runs q a p es a' p' → runs q a (p ++ t) ((λ n, n + length t) <$> es) a' (p' ++ t).
Proof.
  induction 1 as [|a p a1 p1 b es a2 p2 Ht _ IH]; [constructor|]. rewrite fmap_app.
  replace ((λ n, n + length t) <$> (if b then [length p] else [])) with (if b then [length (p ++ t)] else [])
    by (destruct b; simpl; by rewrite ?length_app). econstructor; [by apply turn_app|done].
Qed.

Definition measure (a : machine) (p : str) : nat := 4 * length p + rank (status a).

(** What is before a block when the machine is in a state: see [stack_ok]. *)
Definition machine_ok (a : machine) (k : nat) : Prop :=
  match to_skip a, status a with
  | S _, _ => k ≤ length (m_lines_terminated_by q)
  | O, BEGIN => k ≤ depth_begin q
  | O, PREFIX => k ≤ depth_prefix q
  | O, _ => k ≤ depth q
  end.

Lemma turn_ok a p a' p' b k :
  turn q a p = Some (a', p', b) →
  length p' ≤ length p ∧ measure a' p' < measure a p ∧ 0 < length p ∧
  (machine_ok a k → machine_ok a' (k - (length p - length p')) ∧ (b = true → k ≤ depth_begin q)).
Proof.
  unfold turn, machine_ok, measure. destruct p as [|c p]; [done|].
  destruct (to_skip a) as [|n] eqn:Hs; [destruct (status a) eqn:Est|].
  - intros; simplify_eq; simpl. unfold depth_prefix. split_and!; [lia..|]. intros; split; lia.
  - case_bool_decide as Hls.
    + intros; simplify_eq; simpl. unfold depth_prefix, depth_begin. rewrite Hls. cbn [length].
      split_and!; [lia..|]. intros; split; [lia|done].
    + intros ([started p2] & E & ?)%bind_Some. pose proof (prefix_turn_length q _ _ _ E). destruct started; simplify_eq; simpl; cbn [length] in *.
      * apply prefix_turn_true in E. cbn [length] in E. unfold depth_prefix, depth_begin. split_and!; [lia..|]. intros; split; [lia|done].
      * rewrite Hs, Est. simpl. split_and!; [lia..|]. intros; split; [lia|done].
  - destruct (same (Some c) (m_enclosed_char q)); intros; simplify_eq; simpl; (split_and!; [lia..|]); intros; split; (lia || done).
  - intros ([f p2] & E & ?)%bind_Some. pose proof (field_turn_length q _ _ _ _ E). destruct f; simplify_eq; simpl; cbn [length] in *.
    + rewrite Hs, Est. simpl. split_and!; [lia..|]. intros; split; [lia|done].
    + rewrite Hs. split_and!; [lia..|]. intros; split; [lia|done].
    + apply field_turn_line in E. cbn [length] in E. rewrite Hs. unfold depth_begin. split_and!; [lia..|]. intros; split; [lia|done].
  - intros ([skipped p2] & E & ?)%bind_Some. pose proof (row_turn_length q _ _ _ E). destruct skipped; simplify_eq; simpl; cbn [length] in *.
    + apply row_turn_true in E. cbn [length] in E. split_and!; [lia..|]. intros; split; [|done]. repeat case_match; lia.
    + rewrite Hs. split_and!; [lia..|]. intros; split; [lia|done].
Qed.

Lemma runs_ok a p es a' p' k :
  runs q a p es a' p' → machine_ok a k → length p' ≤ length p ∧
    machine_ok a' (k - (length p - length p')) ∧ Forall (λ n, 0 < n ≤ (length p - k) + depth_begin q) es.
Proof.
  intros Hr. revert k. induction Hr as [|a p a1 p1 b es a2 p2 Ht _ IH]; intros k Hok.
  { rewrite Nat.sub_diag, Nat.sub_0_r. done. }
  destruct (turn_ok _ _ _ _ _ k Ht) as (? & ? & ? & Hk). specialize (Hk Hok) as [Hok1 Hb].
  destruct (IH _ Hok1) as (? & Hok2 & Hall). split_and!; [lia| |].
  - by replace (k - (length p - length p2)) with (k - (length p - length p1) - (length p1 - length p2)) by lia.
  - apply Forall_app. split.
    + destruct b; [|done]. constructor; [|done]. specialize (Hb eq_refl). lia.
    + eapply Forall_impl; [exact Hall|]. simpl. intros. lia.
Qed.

Lemma runs_le a p es a' p' : runs q a p es a' p' → length p' ≤ length p ∧ Forall (λ n, n ≤ length p) es.
Proof.
  induction 1 as [|a p a1 p1 b es a2 p2 Ht _ [? Hall]]; [done|].
  destruct (turn_ok _ _ _ _ _ 0 Ht) as (? & ? & ? & _). split; [lia|].
  apply Forall_app. split; [by destruct b; repeat constructor|].
  eapply Forall_impl; [exact Hall|]. simpl. lia.
Qed.

(** The rows of a text are those of a run and those of what is left. *)
Lemma rows_from_runs a p es a' p' fuel pos :
  runs q a p es a' p' → measure a p < fuel →
  ∃ fuel', measure a' p' < fuel' ∧
    rows_from q fuel a pos p = ((λ n, pos + (length p - n)) <$> es) ++ rows_from q fuel' a' (pos + (length p - length p')) p'.
Proof.
  intros Hr. revert fuel pos. induction Hr as [|a p a1 p1 b es a2 p2 Ht Hr IH]; intros fuel pos Hf.
  { exists fuel. split; [done|]. by rewrite Nat.sub_diag, Nat.add_0_r. }
  destruct (turn_ok _ _ _ _ _ 0 Ht) as (? & ? & ? & _). destruct fuel as [|fuel]; [lia|].
  destruct (IH fuel (pos + (length p - length p1))) as (fuel' & ? & E); [lia|].
  exists fuel'. split; [done|]. cbn [rows_from]. rewrite Ht, E, fmap_app, <- (assoc_L (++)). f_equal.
  - destruct b; simpl; [|done]. do 2 f_equal. lia.
  - destruct (runs_le _ _ _ _ _ Hr) as [? Hall]. f_equal; [|f_equal; lia].
    apply list_fmap_ext. intros i n Hn. eapply Forall_lookup in Hn; [|exact Hall]. simpl in Hn. lia.
Qed.
End machine_facts.

(** ** Theorems *)

(** [scan] of the blocks of a file, one after the other. *)
Fixpoint scan_blocks (q : Sequences) (blocks : list str) (s : Scanner) : option (list Z * Scanner) :=
  match blocks with
  | [] => Some ([], s)
  | b :: blocks =>
      '(r, s) ← scan q b s;
      '(rs, s) ← scan_blocks q blocks s;
      Some (r :: rs, s)
  end.

(** For each block, the first of the [starts] that is in it, relative to the block. *)
Fixpoint first_rows (starts : list nat) (pos : nat) (blocks : list str) : list Z :=
  match blocks with
  | [] => []
  | b :: blocks =>
      match list_find (λ p, pos ≤ p ∧ p < pos + length b) starts with
      | Some (_, p) => Z.of_nat (p - pos)
      | None => k_row_not_found
      end :: first_rows starts (pos + length b) blocks
  end.

Lemma first_rows_before l starts pos blocks :
  Forall (λ p, p < pos) l → first_rows (l ++ starts) pos blocks = first_rows starts pos blocks.
Proof.
  revert pos. induction blocks as [|b blocks IH]; intros pos Hl; simpl; [done|]. f_equal.
  - destruct (list_find _ (l ++ starts)) as [[i p]|] eqn:E.
    + apply list_find_app_Some in E as [E|(? & _ & E)].
      * apply list_find_Some in E as (Hi & [? ?] & _). eapply Forall_lookup in Hi; [|done]. simpl in Hi. lia.
      * by rewrite E.
    + apply list_find_app_None in E as [_ ->]. done.
  - apply IH. eapply Forall_impl; [done|]. simpl. lia.
Qed.

Section blocks.
Context (q : Sequences).
Context (Hlt : 0 < length (m_lines_terminated_by q)).
Context (Hesc : is_first (m_escaped_char q) (m_lines_terminated_by q) = false).

(** No block makes the scanner fail. *)
Lemma scan_blocks_safe blocks s :
  m_stack_size s = stack_size q → stack_ok q (length (m_stack s)) s →
  ∃ rs s', scan_blocks q blocks s = Some (rs, s') ∧ length rs = length blocks.
Proof.
  revert s. induction blocks as [|b blocks IH]; intros s Hsize Hok; simpl; [by exists [], s|].
  destruct (scan_spec q Hlt Hesc b s Hsize Hok) as (es & ms & s1 & -> & _ & _ & ? & ?). cbn [mbind option_bind].
  destruct (IH s1) as (rs & s2 & -> & ?); [congruence|done|]. eexists _, s2. split; [done|]. simpl. by f_equal.
Qed.

Context (Hft : length (m_fields_terminated_by q) ≤ length (m_lines_terminated_by q)).

Lemma depth_begin_0 : depth_begin q = 0.
Proof. unfold depth_begin, depth. lia. Qed.

Lemma near_eq es ms : Forall2 (near q) es ms → ms = es.
Proof. induction 1 as [|n m es ms [] ? IH]; [done|]. rewrite depth_begin_0 in *. f_equal; [lia|done]. Qed.

(** All rows the machine finds begin behind what is on the stack. *)
Lemma rows_behind a p fuel base k :
  machine_ok q a k → k ≤ length p → measure a p < fuel →
  Forall (λ n, base + k ≤ n < base + length p) (rows_from q fuel a base p).
Proof.
  revert a p base k. induction fuel as [|fuel IH]; intros a p base k Hok Hk Hf; [lia|]. cbn [rows_from].
  destruct (turn q a p) as [[[a1 p1] b]|] eqn:Ht; [|constructor].
  destruct (turn_ok q Hlt _ _ _ _ _ k Ht) as (? & ? & ? & Hok1). specialize (Hok1 Hok) as [Hok1 Hb].
  apply Forall_app. split.
  - destruct b; [|constructor]. specialize (Hb eq_refl). rewrite depth_begin_0 in Hb. constructor; [lia|constructor].
  - eapply Forall_impl; [apply (IH a1 p1 _ _ Hok1); lia|]. simpl. lia.
Qed.

Lemma scan_blocks_spec blocks s base fuel :
  m_stack_size s = stack_size q → stack_ok q (length (m_stack s)) s →
  measure (machine_of s) (m_stack s ++ concat blocks) < fuel →
  ∃ s', scan_blocks q blocks s =
    Some (first_rows (rows_from q fuel (machine_of s) base (m_stack s ++ concat blocks))
            (base + length (m_stack s)) blocks, s').
Proof.
  revert s base fuel. induction blocks as [|b blocks IH]; intros s base fuel Hsize Hok Hf; [by eexists|].
  cbn [scan_blocks concat first_rows].
  destruct (scan_spec q Hlt Hesc b s Hsize Hok) as (es & ms & s1 & -> & Hr & Hn & ? & Hok1).
  apply near_eq in Hn as ->. cbn [mbind option_bind].
  set (st := m_stack s) in *. set (st1 := m_stack s1) in *. set (T := concat blocks) in *.
  destruct (runs_ok q Hlt _ _ _ _ _ (length st) Hr Hok) as (Hle & _ & Hes). rewrite depth_begin_0, length_app in Hes.
  rewrite length_app in Hle.
  pose proof (runs_app q _ _ _ _ _ T Hr) as HrT. rewrite <- (assoc_L (++)) in HrT.
  destruct (rows_from_runs q Hlt _ _ _ _ _ fuel base HrT Hf) as (fuel' & Hf' & E). rewrite E. clear E.
  rewrite <- list_fmap_compose, !length_app.
  assert (base + (length st + (length b + length T) - (length st1 + length T)) + length st1 = base + length st + length b) as Hpos by lia.
  set (base1 := base + (length st + (length b + length T) - (length st1 + length T))) in *.
  destruct (IH s1 base1 fuel') as (s2 & IHs); [congruence|done|done|].
  fold st1 T in IHs. rewrite IHs. cbn [mbind option_bind]. exists s2. do 2 f_equal. f_equal.
  - pose proof (rows_behind (machine_of s1) (st1 ++ T) fuel' base1 (length st1) Hok1 ltac:(rewrite length_app; lia) Hf') as Hbehind.
    rewrite Hpos in Hbehind.
    destruct es as [|n es]; simpl.
    + destruct (list_find _ _) as [[i x]|] eqn:El; [|done].
      apply list_find_Some in El as (Hi & ? & _). eapply Forall_lookup in Hi; [|exact Hbehind]. simpl in Hi. lia.
    + apply Forall_cons in Hes as [? _]. rewrite decide_True by lia. unfold first_row. simpl. lia.
  - rewrite Hpos. symmetry. apply first_rows_before. apply Forall_fmap. eapply Forall_impl; [exact Hes|]. simpl. lia.
Qed.
End blocks.

(** The scanner of a validated dialect. *)
Lemma make_Scanner_spec d skip q s :
  validate d = Ok tt → make_Scanner d skip = Ok (q, s) →
  q = make_Sequences d ∧ 0 < length (m_lines_terminated_by q) ∧
  is_first (m_escaped_char q) (m_lines_terminated_by q) = false ∧
  m_stack_size s = stack_size q ∧ m_stack s = [] ∧ machine_of s = Machine skip BEGIN None.
Proof.
  intros Hv Hm. unfold make_Scanner in Hm.
  destruct (bool_decide (lines_terminated_by d = [])) eqn:E1; [done|].
  destruct (bool_decide (lines_terminated_by d = fields_terminated_by d)); [done|]. simpl in Hm. simplify_eq.
  apply bool_decide_eq_false in E1. split_and!; try done; simpl.
  - destruct (lines_terminated_by d); [done|simpl; lia].
  - unfold is_first, same, first_char. destruct (fields_escaped_by d) as [|e es] eqn:Ee; [done|].
    destruct (lines_terminated_by d) as [|c l] eqn:El; [done|]. simpl.
    apply bool_decide_eq_false. intros ->. unfold validate in Hv. rewrite Ee, El in Hv.
    destruct (negb (bool_decide (length (c :: l) / 2 < BUFFER_SIZE))); [done|]. case_bool_decide; [done|].
    destruct es as [|? es]; [|simpl in *; lia].
    rewrite (bool_decide_eq_true_2 (find_sub [c] (c :: l) = Some 0)) in Hv; [done|].
    simpl. by rewrite bool_decide_eq_true_2.
Qed.

(** C10: whatever the blocks in which a file arrives, [scan] returns for each block the
    position of the first row that begins in it, if there is one: the rows are those of
    the whole text, read with unlimited lookahead.  This holds for validated dialects
    whose fields are not terminated by a longer sequence than lines. *)
Theorem scanner_finds_rows (d : Dialect) (skip : nat) (q : Sequences) (s : Scanner) (blocks : list str) :
  validate d = Ok tt → make_Scanner d skip = Ok (q, s) →
  length (fields_terminated_by d) ≤ length (lines_terminated_by d) →
  ∃ s', scan_blocks q blocks s = Some (first_rows (row_starts q skip (concat blocks)) 0 blocks, s').
Proof.
  intros Hv Hm Hft. destruct (make_Scanner_spec d skip q s Hv Hm) as (Hq & Hlt & Hesc & Hsize & Hst & Hmach).
  destruct (scan_blocks_spec q Hlt Hesc ltac:(by rewrite Hq) blocks s 0 (4 * length (concat blocks) + 4)) as (s' & E).
  - done.
  - rewrite Hst. unfold stack_ok. repeat case_match; simpl; lia.
  - rewrite Hst, Hmach. unfold measure. simpl. lia.
  - exists s'. rewrite E, Hst, Hmach. done.
Qed.

Lemma scanner_finds_rows_witness :
  ∃ q s s', make_Scanner csv 1 = Ok (q, s) ∧
    scan_blocks q [$"id" ++ [carriage_return]; [newline]; $"1,2" ++ [carriage_return; newline]; $"3"] s =
      Some ([(-1)%Z; (-1)%Z; 0%Z; 0%Z], s').
Proof.
  destruct (make_Scanner csv 1) as [[q s]|] eqn:E; [|by vm_compute in E].
  destruct (scanner_finds_rows csv 1 q s [$"id" ++ [carriage_return]; [newline]; $"1,2" ++ [carriage_return; newline]; $"3"])
    as (s' & H); [vm_compute; reflexivity|exact E|vm_compute; lia|].
  exists q, s, s'. split; [reflexivity|]. rewrite H. vm_compute in E. injection E as <- <-. reflexivity.
Defined.

(** C29: the stack of the scanner never overflows: its size, one more than a terminator, is
    enough for every validated dialect and every division of the file into blocks. *)
Theorem scanner_stack_safe (d : Dialect) (skip : nat) (q : Sequences) (s : Scanner) (blocks : list str) :
  validate d = Ok tt → make_Scanner d skip = Ok (q, s) →
  ∃ rs s', scan_blocks q blocks s = Some (rs, s') ∧ length rs = length blocks.
Proof.
  intros Hv Hm. destruct (make_Scanner_spec d skip q s Hv Hm) as (Hq & Hlt & Hesc & Hsize & Hst & Hmach).
  apply (scan_blocks_safe q Hlt Hesc); [done|]. rewrite Hst. unfold stack_ok. repeat case_match; simpl; lia.
Qed.

(** A dialect whose fields end with a sequence that contains the line terminator. *)
Definition long_terminator : Dialect :=
  {| lines_terminated_by := [newline]; fields_escaped_by := [backslash];
     fields_terminated_by := $"a" ++ [newline] ++ $"bc"; fields_enclosed_by := [];
     fields_optionally_enclosed := false; lines_starting_by := [] |}.

Lemma scanner_stack_safe_witness :
  ∃ q s rs s', make_Scanner long_terminator 0 = Ok (q, s) ∧
    scan_blocks q [$"xa" ++ [newline]; $"byzz"] s = Some (rs, s') ∧ length rs = 2.
Proof.
  destruct (make_Scanner long_terminator 0) as [[q s]|] eqn:E; [|by vm_compute in E].
  destruct (scanner_stack_safe long_terminator 0 q s [$"xa" ++ [newline]; $"byzz"]) as (rs & s' & H1 & H2);
    [vm_compute; reflexivity|exact E|]. exists q, s, rs, s'. split; [reflexivity|]. split; [exact H1|exact H2].
Defined.

(** With a longer terminator of fields, [scan] may return the position of a row too far:
    the row begins at the start of the second block, but two characters of it are on the
    stack when it is found, and [scan] returns 2. *)
Theorem scanner_misplaces_row :
  validate long_terminator = Ok tt ∧
  match make_Scanner long_terminator 0 with
  | Ok (q, s) =>
      row_starts q 0 ($"xa" ++ [newline] ++ $"byzz") = [0; 3] ∧
      fst <$> scan_blocks q [$"xa" ++ [newline]; $"byzz"] s = Some [0%Z; 2%Z]
  | Throw _ => False
  end.
Proof. split; [vm_compute; reflexivity|]. vm_compute. split; reflexivity. Qed.
