(* ===== verification/ImportTable.v ===== *)
(** * Dividing a file into chunks

    Model of [Import_table::scan_file] ([modules/util/import_table/import_table.cc]) and of
    [Scoped_data_block::new_block]: the blocks of a file are scanned for rows and handed over,
    block by block, to the in-memory file of the current chunk; when the chunk is large
    enough, it is scheduled at the next row, and a block that belongs to two chunks is
    duplicated.

    Where the blocks come from ([threaded_file]) is an instance of [Block_source].  A
    [Scoped_data_block] has one owner, so it is the block and its size; the store holds the
    allocator and memory, as in [AllocatedFile].  An undefined access is [None], an exception
    [Throw].  Whether the user interrupts is a function of the number of blocks. *)
From S2P Require Import Prelude BlockAllocator AllocatedFile Scanner.

Open Scope nat_scope.

Record Data_block := { memory : nat; size : nat }.

(** What [Threaded_file::extract] promises: a block of the allocator with the next bytes. *)
Class Block_source (A : Type) `{Block_allocator A} := {
  extract : str → store A → option (nat * store A);
  extract_ok data st live :
    ba_holds (st_allocator st) live → length data ≤ ba_block_size (st_allocator st) →
    (Z.of_nat (2 * ba_block_size (st_allocator st)) <= 2 ^ 64)%Z →
    ∃ b st', extract data st = Some (b, st') ∧ ba_holds (st_allocator st') (b :: live) ∧
      ba_block_size (st_allocator st') = ba_block_size (st_allocator st) ∧
      load (st_memory st') b (length data) = data ∧
      ∀ c r, c ∈ live → r < ba_block_size (st_allocator st) → st_memory st' (c + r) = st_memory st (c + r);
}.

(** A part of a file for a worker: the range of it to be read, and the range of the file
    that messages about it name. *)
Record File_import_info := { info_file : Allocated_file; range : nat * nat; context : nat * nat }.

Section scan_file.
Context `{Block_source A}.
Context (q : Sequences) (name : string) (bytes_per_chunk : nat).
Context (interrupted interrupted_waiting : nat → bool).

(** The variables of [scan_file]; [p_queue] is what was pushed to [m_range_queue]. *)
Record progress := {
  p_scanner : Scanner;
  p_store : store A;
  p_chunk : option Allocated_file;
  p_range_first : nat;
  p_queue : list File_import_info;
  p_extracted : nat;
}.

Definition set_chunk (chunk : option Allocated_file) (first : nat) (queue : list File_import_info)
    (p : progress) : progress :=
  {| p_scanner := p_scanner p; p_store := p_store p; p_chunk := chunk; p_range_first := first;
     p_queue := queue; p_extracted := p_extracted p |}.

Definition set_store (st : store A) (p : progress) : progress :=
  {| p_scanner := p_scanner p; p_store := st; p_chunk := p_chunk p;
     p_range_first := p_range_first p; p_queue := p_queue p; p_extracted := p_extracted p |}.

Definition set_scanner (s : Scanner) (p : progress) : progress :=
  {| p_scanner := s; p_store := p_store p; p_chunk := p_chunk p;
     p_range_first := p_range_first p; p_queue := p_queue p; p_extracted := p_extracted p + 1 |}.

(** [Scoped_data_block::new_block]: [allocate_block], which takes the front of the blocks. *)
Definition new_block (st : store A) : option (nat * store A) :=
  '(blocks, a) ← ba_allocate (1 * ba_block_size (st_allocator st)) (st_allocator st);
  b ← head blocks;
  Some (b, {| st_allocator := a; st_memory := st_memory st |}).

Definition memcpy (dst src n : nat) (st : store A) : store A :=
  {| st_allocator := st_allocator st;
     st_memory := save (st_memory st) dst (load (st_memory st) src n) |}.

(** The destructor of [Scoped_data_block]. *)
Definition free_data_block (block : Data_block) (st : store A) : option (store A) :=
  a ← ba_free (memory block) (st_allocator st);
  Some {| st_allocator := a; st_memory := st_memory st |}.

Definition make_chunk (p : progress) : Allocated_file :=
  make_Allocated_file name (ba_block_size (st_allocator (p_store p))) true.

(** Duplicates a block in which a row starts at [offset]: the last block of the previous
    chunk, and the first of the next one. *)
Definition split_block (offset : nat) (block : Data_block) (st : store A)
    : option (Data_block * Data_block * store A) :=
  '(nb, st) ← new_block st;
  if bool_decide (offset < size block / 2) then
    Some ({| memory := nb; size := offset |}, block, memcpy nb (memory block) offset st)
  else
    Some ({| memory := memory block; size := offset |}, {| memory := nb; size := size block |},
          memcpy (nb + offset) (memory block + offset) (size block - offset) st).

(** The offset in the file that [schedule_chunk] assumes for a chunk. *)
Definition file_offset (p : progress) : nat :=
  ba_block_size (st_allocator (p_store p)) * (p_extracted p - 1).

(** [schedule_chunk], which leaves the chunk alone when it is interrupted. *)
Definition schedule_chunk (chunk : Allocated_file) (p : progress) : progress :=
  if interrupted_waiting (p_extracted p) then set_chunk (Some chunk) (p_range_first p) (p_queue p) p
  else set_chunk None (p_range_first p)
         (p_queue p ++ [{| info_file := chunk; range := (p_range_first p, file_size chunk);
                           context := (file_offset p + p_range_first p, file_offset p + file_size chunk) |}]) p.

(** The chunk that is replaced is destroyed. *)
Definition drop_chunk (p : progress) : option progress :=
  match p_chunk p with
  | None => Some p
  | Some chunk => st ← destroy chunk (p_store p); Some (set_chunk None (p_range_first p) (p_queue p) (set_store st p))
  end.

(** A chunk ends at [offset] of the block: the block for the next chunk. *)
Definition end_chunk (chunk : Allocated_file) (offset : nat) (block : Data_block) (p : progress)
    : option (result (Data_block * progress)) :=
  if bool_decide (0 < offset) then
    '(last, next, st) ← split_block offset block (p_store p);
    match append (memory last) (size last) chunk with
    | (Throw e, _) => Some (Throw e)
    | (Ok _, chunk) => Some (Ok (next, schedule_chunk chunk (set_store st p)))
    end
  else Some (Ok (block, schedule_chunk chunk p)).

(** [chunk = make_chunk(); info.range.first = offset;] *)
Definition start_chunk (offset : nat) (p : progress) : option progress :=
  p ← drop_chunk p;
  Some (set_chunk (Some (make_chunk p)) offset (p_queue p) p).

(** A row starts at [offset] of the block. *)
Definition row_in_block (offset : nat) (block : Data_block) (p : progress)
    : option (result (Data_block * progress)) :=
  match p_chunk p with
  | None => p ← start_chunk offset p; Some (Ok (block, p))
  | Some chunk =>
      if bool_decide (bytes_per_chunk ≤ file_size chunk - p_range_first p + offset) then
        r ← end_chunk chunk offset block p;
        match r with
        | Throw e => Some (Throw e)
        | Ok (block, p) => p ← start_chunk offset p; Some (Ok (block, p))
        end
      else Some (Ok (block, p))
  end.

(** [if (chunk) chunk->append(std::move(block));] *)
Definition append_block (block : Data_block) (p : progress) : option (result progress) :=
  match p_chunk p with
  | None => st ← free_data_block block (p_store p); Some (Ok (set_store st p))
  | Some chunk =>
      match append (memory block) (size block) chunk with
      | (Throw e, _) => Some (Throw e)
      | (Ok _, chunk) => Some (Ok (set_chunk (Some chunk) (p_range_first p) (p_queue p) p))
      end
  end.

(** The body of the loop, after a block that is not empty has been extracted. *)
Definition scan_block (block : Data_block) (p : progress) : option (result progress) :=
  '(offset, s) ← scan q (load (st_memory (p_store p)) (memory block) (size block)) (p_scanner p);
  let p := set_scanner s p in
  r ← (if (0 <=? offset)%Z then row_in_block (Z.to_nat offset) block p else Some (Ok (block, p)));
  match r with
  | Throw e => Some (Throw e)
  | Ok (block, p) => append_block block p
  end.

(** [while (!interrupted())]; [texts] is what the blocks of the source hold. *)
Fixpoint scan_file_loop (texts : list str) (p : progress) : option (result progress) :=
  if interrupted (p_extracted p) then Some (Ok p)
  else
    match texts with
    | [] =>
        match p_chunk p with
        | Some chunk => if bool_decide (0 < file_size chunk) then Some (Ok (schedule_chunk chunk p)) else Some (Ok p)
        | None => Some (Ok p)
        end
    | text :: texts =>
        '(b, st) ← extract text (p_store p);
        r ← scan_block {| memory := b; size := length text |} (set_store st p);
        match r with
        | Throw e => Some (Throw e)
        | Ok p => scan_file_loop texts p
        end
    end.

(** The chunk that is left is destroyed when [scan_file] returns. *)
Definition scan_file (texts : list str) (s : Scanner) (st : store A) : option (result progress) :=
  r ← scan_file_loop texts {| p_scanner := s; p_store := st; p_chunk := None; p_range_first := 0;
                              p_queue := []; p_extracted := 0 |};
  match r with
  | Throw e => Some (Throw e)
  | Ok p => p ← drop_chunk p; Some (Ok p)
  end.
End scan_file.
