(* ===== verification/ImportTableFacts.v ===== *)
(** * Dividing a file into chunks: theorems

    [scan_file] is first shown to compute, in memory, what [chunks_of] computes on texts;
    then the chunks are shown to consist of whole rows. *)
From S2P Require Import Prelude UtilsString BlockAllocator Allocator AllocatorFacts AllocatedFile AllocatedFileFacts.
From S2P Require Import Dialect Scanner ScannerFacts ImportTable.
From Stdlib Require Import Sorted.

Open Scope nat_scope.

(** ** The division of a text *)

(** The chunks that are complete, and the text of the one that has begun. *)
Abbreviation division := (list str * option str)%type.

(** A block of text [t], with the position [r] of its first row, or a negative number. *)
Definition chunk_step (bytes_per_chunk : nat) (d : division) (x : str * Z) : division :=
  let '(t, r) := x in
  if (0 <=? r)%Z then
    match d.2 with
    | None => (d.1, Some (drop (Z.to_nat r) t))
    | Some c =>
        if bool_decide (bytes_per_chunk ≤ length c + Z.to_nat r)
        then (d.1 ++ [c ++ take (Z.to_nat r) t], Some (drop (Z.to_nat r) t))
        else (d.1, Some (c ++ t))
    end
  else (d.1, (λ c, c ++ t) <$> d.2).

Definition chunks_of (bytes_per_chunk : nat) (l : list (str * Z)) : list str :=
  let d := foldl (chunk_step bytes_per_chunk) ([], None) l in d.1 ++ option_list d.2.

(** ** Memory *)

Section memory.
Context `{Block_source A}.

(** The store after [b] was allocated, or written to while it belongs to nobody else. *)
Definition grown (st st' : store A) (live : list nat) : Prop :=
  ba_block_size (st_allocator st') = ba_block_size (st_allocator st) ∧
  ∀ c r, c ∈ live → r < ba_block_size (st_allocator st) → st_memory st' (c + r) = st_memory st (c + r).

Lemma new_block_spec (st : store A) live :
  ba_holds (st_allocator st) live → (Z.of_nat (2 * ba_block_size (st_allocator st)) <= 2 ^ 64)%Z →
  ∃ b st', new_block st = Some (b, st') ∧ ba_holds (st_allocator st') (b :: live) ∧ grown st st' live ∧
    st_memory st' = st_memory st.
Proof.
  intros Hh Hb. set (bs := ba_block_size (st_allocator st)) in *. pose proof (ba_size_pos _ _ Hh) as Hpos. fold bs in Hpos.
  destruct (ba_allocate_ok _ live (1 * bs) Hh) as (blocks & a & E & Hh' & Hs & Hl); [fold bs; lia|].
  fold bs in Hl. replace ((1 * bs + bs - 1) / bs) with 1 in Hl.
  2:{ apply Nat.div_unique with (bs - 1); lia. }
  destruct blocks as [|b [|]]; simpl in Hl; try lia.
  exists b, {| st_allocator := a; st_memory := st_memory st |}. unfold new_block. fold bs. rewrite E. done.
Qed.

(** Loading what was saved, in the same block and in another one. *)
Lemma load_save mem a data : load (save mem a data) a (length data) = data.
Proof.
  apply list_eq. intros i. unfold load. rewrite list_lookup_fmap. destruct (decide (i < length data)) as [Hi|Hi].
  - rewrite lookup_seq_lt by done. simpl. unfold save. rewrite decide_True by lia.
    replace (a + i - a) with i by lia. destruct (lookup_lt_is_Some_2 data i Hi) as [x ->]. done.
  - rewrite lookup_ge_None_2 by (rewrite length_seq; lia). symmetry. apply lookup_ge_None. lia.
Qed.

Lemma save_other mem a data x : x < a ∨ a + length data ≤ x → save mem a data x = mem x.
Proof. intros Hx. unfold save. case_decide; [|done]. rewrite lookup_ge_None_2; [done|lia]. Qed.

Lemma load_app mem a n m : load mem a (n + m) = load mem a n ++ load mem (a + n) m.
Proof. unfold load. by rewrite seq_app, fmap_app. Qed.

Lemma load_length mem a n : length (load mem a n) = n.
Proof. unfold load. by rewrite length_fmap, length_seq. Qed.

Lemma load_ext mem mem' a n : (∀ i, i < n → mem' (a + i) = mem (a + i)) → load mem' a n = load mem a n.
Proof.
  intros Hm. apply list_fmap_ext. intros i x Hx. apply lookup_seq in Hx as [-> ?]. by apply Hm.
Qed.

Lemma load_take mem a n k : k ≤ n → load mem a k = take k (load mem a n).
Proof. intros. replace n with (k + (n - k)) by lia. rewrite load_app, take_app_length'; [done|by rewrite load_length]. Qed.

Lemma load_drop mem a n k : k ≤ n → load mem (a + k) (n - k) = drop k (load mem a n).
Proof.
  intros. replace (load mem a n) with (load mem a k ++ load mem (a + k) (n - k)) by (rewrite <- load_app; f_equal; lia).
  by rewrite drop_app_length' by (by rewrite load_length).
Qed.

(** The store holds files with their texts, and the [blocks] of others. *)
Definition blocks_of (files : list (Allocated_file * str)) : list nat := concat (m_blocks ∘ fst <$> files).

Definition owns (st : store A) (files : list (Allocated_file * str)) (blocks : list nat) : Prop :=
  ba_holds (st_allocator st) (blocks_of files ++ blocks) ∧
  Forall (λ fc, ∃ others, file_inv fc.1 st fc.2 others) files ∧
  (Z.of_nat (2 * ba_block_size (st_allocator st)) <= 2 ^ 64)%Z.

Lemma blocks_of_app l1 l2 : blocks_of (l1 ++ l2) = blocks_of l1 ++ blocks_of l2.
Proof. unfold blocks_of. by rewrite fmap_app, concat_app. Qed.

Lemma owns_grown st st' files blocks blocks' :
  owns st files blocks → ba_holds (st_allocator st') (blocks_of files ++ blocks') → grown st st' (blocks_of files) →
  owns st' files blocks'.
Proof.
  intros (Hh & Hf & Hb) Hh' [Ebs Hmem]. split_and!; [done| |by rewrite Ebs].
  apply Forall_forall. intros fc Hfc. pose proof (proj1 (Forall_forall _ _) Hf fc Hfc) as [o Hinv].
  apply list_elem_of_split in Hfc as (l1 & l2 & ->). rewrite blocks_of_app in *.
  exists (blocks_of l1 ++ blocks_of l2 ++ blocks'). eapply file_inv_frame; [exact Hinv| |done|].
  - eapply ba_holds_perm; [|exact Hh']. unfold blocks_of at 2. simpl. fold (blocks_of l2). solve_Permutation.
  - intros b r Hb' Hr. destruct (fi_bs _ _ _ _ Hinv) as [E _]. rewrite E in Hr. apply Hmem; [|done].
    unfold blocks_of at 2. simpl. set_solver.
Qed.

Lemma owns_perm st files blocks blocks' : blocks ≡ₚ blocks' → owns st files blocks → owns st files blocks'.
Proof.
  intros Hp Ho. eapply owns_grown; [exact Ho| |by split]. destruct Ho as (Hh & _).
  eapply ba_holds_perm; [|exact Hh]. by rewrite Hp.
Qed.

(** A file, of which the others do not use the blocks. *)
Lemma owns_inv st files f c blocks :
  owns st (files ++ [(f, c)]) blocks → file_inv f st c (blocks_of files ++ blocks).
Proof.
  intros (Hh & Hf & _). apply Forall_app in Hf as [_ Hf]. apply Forall_cons in Hf as [[o Hinv] _]. simpl in Hinv.
  eapply file_inv_frame; [exact Hinv| |done|done]. rewrite blocks_of_app in Hh. unfold blocks_of at 2 in Hh. simpl in Hh.
  eapply ba_holds_perm; [|exact Hh]. solve_Permutation.
Qed.

Lemma owns_apart st files b c blocks :
  owns st files (b :: c :: blocks) → apart (ba_block_size (st_allocator st)) b c.
Proof.
  intros (Hh & _). eapply ba_apart; [exact Hh|set_solver|set_solver|].
  intros ->. pose proof (ba_nodup _ _ Hh) as (_ & _ & Hnd)%NoDup_app. apply NoDup_cons in Hnd as [Hnd _]. set_solver.
Qed.

(** Writing to a block that belongs to no file. *)
Lemma owns_memcpy st files b blocks dst src n :
  owns st files (b :: blocks) → b ≤ dst → dst + n ≤ b + ba_block_size (st_allocator st) →
  owns (memcpy dst src n st) files (b :: blocks).
Proof.
  intros Ho Hd Hn. pose proof Ho as (Hh & _). eapply owns_grown; [exact Ho|exact Hh|]. split; [done|].
  intros c r Hc Hr. simpl. apply save_other. rewrite load_length.
  assert (b ≠ c) as Hne. { intros ->. pose proof (ba_nodup _ _ Hh) as (_ & Hnd & _)%NoDup_app. eapply Hnd; [done|set_solver]. }
  destruct (ba_apart _ _ b c Hh) as [?|?]; [set_solver|set_solver|done|lia|lia].
Qed.

Lemma owns_new_block st files blocks :
  owns st files blocks → ∃ b st', new_block st = Some (b, st') ∧ owns st' files (b :: blocks) ∧
    ba_block_size (st_allocator st') = ba_block_size (st_allocator st) ∧ st_memory st' = st_memory st.
Proof.
  intros Ho. pose proof Ho as (Hh & _ & Hb).
  destruct (new_block_spec st _ Hh Hb) as (b & st' & E & Hh' & [Ebs Hmem] & Em). exists b, st'. split_and!; try done.
  eapply owns_grown; [exact Ho| |].
  - eapply ba_holds_perm; [|exact Hh']. solve_Permutation.
  - split; [done|]. intros c r Hc Hr. by rewrite Em.
Qed.

(** Both blocks are available, and hold their parts of the text. *)
Lemma split_block_spec offset b data st files blocks :
  owns st files (b :: blocks) → load (st_memory st) b (length data) = data →
  length data ≤ ba_block_size (st_allocator st) → offset ≤ length data →
  ∃ last next st', split_block offset {| memory := b; size := length data |} st = Some (last, next, st') ∧
    owns st' files (memory last :: memory next :: blocks) ∧
    ba_block_size (st_allocator st') = ba_block_size (st_allocator st) ∧
    size last = offset ∧ load (st_memory st') (memory last) offset = take offset data ∧
    size next = length data ∧ drop offset (load (st_memory st') (memory next) (length data)) = drop offset data.
Proof.
  intros Ho Hd Hl Hoff. remember (length data) as m eqn:Elen. unfold split_block.
  destruct (owns_new_block _ _ _ Ho) as (nb & st1 & -> & Ho1 & Ebs & Em). cbn [mbind option_bind memory size].
  pose proof (owns_apart _ _ _ _ _ Ho1) as Hap. rewrite Ebs in Hap.
  assert (∀ k n, k + n ≤ m → load (st_memory st1) (b + k) n = take n (drop k data)) as Hload.
  { intros k n Hn. rewrite Em, <- Hd, <- load_drop by lia. by rewrite <- load_take by lia. }
  case_bool_decide as Hc; eexists _, _, _; (split; [reflexivity|]); cbn [memory size].
  - split_and!; try done.
    + eapply owns_memcpy; [done|lia|]. rewrite Ebs. lia.
    + simpl st_memory. rewrite <- (drop_0 data), <- Hload by lia. rewrite Nat.add_0_r.
      pose proof (load_save (st_memory st1) nb (load (st_memory st1) b offset)) as E. by rewrite load_length in E.
    + simpl st_memory. f_equal. rewrite <- Hd at 1. rewrite <- Em. apply load_ext. intros i Hi.
      apply save_other. rewrite load_length. destruct Hap; lia.
  - split_and!; try done.
    + eapply owns_perm; [apply Permutation_swap|]. eapply owns_memcpy; [done|lia|]. rewrite Ebs. lia.
    + simpl st_memory. rewrite <- (drop_0 data), <- Hload by lia. rewrite Nat.add_0_r. apply load_ext. intros i Hi.
      apply save_other. rewrite load_length. destruct Hap; lia.
    + rewrite <- (load_drop _ _ _ offset) by done. simpl st_memory.
      pose proof (load_save (st_memory st1) (nb + offset) (load (st_memory st1) (b + offset) (m - offset))) as E.
      rewrite load_length in E. rewrite E, Hload by lia. apply take_ge. rewrite length_drop. lia.
Qed.

(** A chunk to which blocks are appended. *)
Definition ready (f : Allocated_file) : Prop :=
  m_accepts_append f = true ∧ m_bytes_consumed f = 0 ∧ m_is_open f = false ∧ m_offset f = 0 ∧ m_size f = m_capacity f.

Lemma owns_append st files f c b blocks data :
  owns st (files ++ [(f, c)]) (b :: blocks) → ready f → load (st_memory st) b (length data) = data →
  length data ≤ ba_block_size (st_allocator st) →
  ∃ f', append b (length data) f = (Ok tt, f') ∧ owns st (files ++ [(f', c ++ data)]) blocks ∧
    file_size f' = file_size f + length data ∧ (length data = ba_block_size (st_allocator st) → ready f').
Proof.
  intros Ho (Ha & Hz & Hop & Hoff & Hfull) Hd Hl. pose proof (owns_inv _ _ _ _ _ Ho) as Hinv.
  destruct (fi_bs _ _ _ _ Hinv) as [Ebs _].
  destruct (append_spec f st c (blocks_of files ++ blocks) b data) as (E1 & Hinv' & Hcap); try done.
  { eapply file_inv_frame; [exact Hinv| |done|done]. eapply ba_holds_perm; [|exact (fi_holds _ _ _ _ Hinv)]. solve_Permutation. }
  { by rewrite Ebs. }
  destruct (append b (length data) f) as [r f'] eqn:E. simpl in *. subst r. exists f'. split_and!; [done| | |].
  - destruct Ho as (Hh & Hf & Hb). apply Forall_app in Hf as [Hf _].
    assert (m_blocks f' = m_blocks f ++ [b]) as Eb by (unfold append in E; rewrite Ha in E; simpl in E; by simplify_eq).
    split_and!; [|apply Forall_app; split; [done|constructor; [by eexists|done]]|done].
    rewrite blocks_of_app in *. unfold blocks_of at 2. unfold blocks_of at 2 in Hh. simpl in *. rewrite Eb.
    eapply ba_holds_perm; [|exact Hh]. solve_Permutation.
  - unfold append in E. rewrite Ha in E. simpl in E. by simplify_eq.
  - intros Hlen. unfold append in E. rewrite Ha in E. simpl in E. simplify_eq. unfold ready. simpl in *.
    rewrite <- Ebs in Hlen. rewrite bool_decide_eq_true_2 in * by done. split_and!; try done. by apply Hcap.
Qed.
End memory.

(** ** The loop *)

Section loop.
Context `{Block_source A}.
Context (q : Sequences) (name : string) (bytes_per_chunk : nat).

Definition never (_ : nat) : bool := false.

(** What was scheduled, with the texts of the files. *)
Definition files_of (Q : list (File_import_info * str)) : list (Allocated_file * str) :=
  (λ x, (info_file x.1, x.2)) <$> Q.

(** The text a worker reads. *)
Definition text_of (x : File_import_info * str) : str := drop (range x.1).1 x.2.

Definition scheduled (p : progress (A:=A)) (Q : list (File_import_info * str)) (ds : list str) : Prop :=
  p_queue p = Q.*1 ∧ text_of <$> Q = ds ∧
  Forall (λ x, (range x.1).2 = length x.2 ∧ (range x.1).1 ≤ length x.2) Q.

(** The variables of [scan_file] represent a division; [more] blocks may follow. *)
Definition tracks (p : progress (A:=A)) (d : division) (more : bool) (others : list nat) : Prop :=
  ∃ Q, scheduled p Q d.1 ∧
  match p_chunk p, d.2 with
  | None, None => owns (p_store p) (files_of Q) others
  | Some f, Some c => ∃ t, owns (p_store p) (files_of Q ++ [(f, t)]) others ∧
      p_range_first p ≤ length t ∧ drop (p_range_first p) t = c ∧ (more = true → ready f)
  | _, _ => False
  end.

Definition block_size (p : progress (A:=A)) : nat := ba_block_size (st_allocator (p_store p)).

Lemma file_size_text st files f t others : owns (A:=A) st (files ++ [(f, t)]) others → file_size f = length t.
Proof. intros Ho. exact (fi_size _ _ _ _ (owns_inv _ _ _ _ _ Ho)). Qed.

Lemma append_block_spec p d b data others more :
  tracks p d true (b :: others) → load (st_memory (p_store p)) b (length data) = data →
  length data ≤ block_size p → (more = true → length data = block_size p) →
  ∃ p', append_block {| memory := b; size := length data |} p = Some (Ok p') ∧
    tracks p' (d.1, (λ c, c ++ data) <$> d.2) more others ∧
    p_scanner p' = p_scanner p ∧ block_size p' = block_size p.
Proof.
  intros (Q & HQ & Hc) Hd Hl Hm. unfold append_block. destruct (p_chunk p) as [f|] eqn:Ef, d as [ds [c|]]; simpl in Hc; try done.
  - destruct Hc as (t & Ho & Hfirst & Ht & Hr). specialize (Hr eq_refl).
    destruct (owns_append _ _ _ _ _ _ data Ho Hr Hd Hl) as (f' & E & Ho' & _ & Hr'). cbn [memory size]. rewrite E.
    eexists. split; [done|]. split_and!; try done. exists Q. split; [done|]. simpl.
    exists (t ++ data). split_and!; try done.
    + rewrite length_app. lia.
    + rewrite drop_app_le by done. by rewrite Ht.
    + intros Hmore. by apply Hr', Hm.
  - cbn [memory size]. unfold free_data_block. cbn [memory]. destruct Hc as (Hh & Hf & Hb).
    destruct (ba_free_ok (st_allocator (p_store p)) (blocks_of (files_of Q) ++ others) b) as (a & -> & Hh' & Es).
    { eapply ba_holds_perm; [|exact Hh]. solve_Permutation. }
    cbn [mbind option_bind]. eexists. split; [done|]. unfold block_size. simpl. split_and!; try done.
    exists Q. split; [done|]. simpl. rewrite Ef. eapply owns_grown; [split_and!; [exact Hh|done|done]|done|by split].
Qed.

(** A new chunk begins in a block. *)
Lemma start_append_spec p Q ds offset b data others more :
  scheduled p Q ds → p_chunk p = None → owns (p_store p) (files_of Q) (b :: others) →
  load (st_memory (p_store p)) b (length data) = data → offset ≤ length data →
  length data ≤ block_size p → (more = true → length data = block_size p) →
  ∃ p1 p', start_chunk name offset p = Some p1 ∧
    append_block {| memory := b; size := length data |} p1 = Some (Ok p') ∧
    tracks p' (ds, Some (drop offset data)) more others ∧
    p_scanner p' = p_scanner p ∧ block_size p' = block_size p.
Proof.
  intros HQ Hn Ho Hd Hoff Hl Hm. unfold start_chunk, drop_chunk. rewrite Hn. cbn [mbind option_bind].
  set (f := make_chunk name p). eexists _. 
  pose proof Ho as (Hh & Hfs & Hb).
  assert (owns (p_store p) (files_of Q ++ [(f, [])]) (b :: others)) as Ho'.
  { split_and!; [|apply Forall_app; split; [done|]|done].
    - rewrite blocks_of_app. unfold blocks_of at 2. simpl. by rewrite app_nil_r.
    - constructor; [|done]. eexists. simpl. by eapply make_file_inv. }
  assert (ready f) as Hr by done.
  destruct (owns_append _ _ _ _ _ _ data Ho' Hr Hd Hl) as (f' & E & Ho2 & _ & Hr').
  eexists _. split; [done|]. unfold append_block. simpl p_chunk. cbv iota. cbn [memory size]. rewrite E. split; [done|].
  split_and!; try done. exists Q. split; [done|]. simpl. exists data. split_and!; try done.
  intros Hmore. by apply Hr', Hm.
Qed.

Lemma schedule_spec p Q ds f t blocks :
  scheduled p Q ds → owns (p_store p) (files_of Q ++ [(f, t)]) blocks → p_range_first p ≤ length t →
  p_chunk (schedule_chunk never f p) = None ∧
  ∃ Q', scheduled (schedule_chunk never f p) Q' (ds ++ [drop (p_range_first p) t]) ∧
    owns (p_store (schedule_chunk never f p)) (files_of Q') blocks.
Proof.
  intros (HQ & <- & Hall) Ho Hf. split; [done|].
  exists (Q ++ [({| info_file := f; range := (p_range_first p, file_size f); context := (file_offset p + p_range_first p, file_offset p + file_size f) |}, t)]). unfold scheduled. split_and!.
  - unfold schedule_chunk, never, set_chunk. cbn [p_queue]. by rewrite HQ, fmap_app.
  - by rewrite fmap_app.
  - apply Forall_app. split; [done|]. constructor; [|done]. simpl. split; [|done]. by eapply file_size_text.
  - unfold files_of. by rewrite fmap_app.
Qed.

(** A chunk ends in a block and the next one begins. *)
Lemma end_start_append_spec p Q ds f t offset b data others more :
  scheduled p Q ds → p_chunk p = Some f → owns (p_store p) (files_of Q ++ [(f, t)]) (b :: others) →
  p_range_first p ≤ length t → ready f →
  load (st_memory (p_store p)) b (length data) = data → offset ≤ length data →
  length data ≤ block_size p → (more = true → length data = block_size p) →
  ∃ blk p1 p2 p', end_chunk never f offset {| memory := b; size := length data |} p = Some (Ok (blk, p1)) ∧
    start_chunk name offset p1 = Some p2 ∧ append_block blk p2 = Some (Ok p') ∧
    tracks p' (ds ++ [drop (p_range_first p) t ++ take offset data], Some (drop offset data)) more others ∧
    p_scanner p' = p_scanner p ∧ block_size p' = block_size p.
Proof.
  intros HQ Hch Ho Hfirst Hr Hd Hoff Hl Hm. unfold end_chunk. case_bool_decide as Hpos.
  - destruct (split_block_spec offset b data _ _ _ Ho Hd Hl Hoff)
      as ([last ls] & [next ns] & st & -> & Ho1 & Ebs & Els & Hlast & Ens & Hnext). simpl in Els, Ens, Hlast, Hnext, Ho1. subst ls ns.
    cbn [mbind option_bind memory size].
    assert (length (take offset data) = offset) as Hlen by (rewrite length_take; lia).
    destruct (owns_append st (files_of Q) f t last (next :: others) (take offset data)) as (f' & E & Ho2 & _ & _); try done.
    { by rewrite Hlen. } { rewrite Hlen, Ebs. unfold block_size in Hl. lia. }
    rewrite Hlen in E. rewrite E.
    destruct (schedule_spec (set_store st p) Q ds f' (t ++ take offset data) (next :: others))
      as (Hn & Q' & HQ' & Ho3); [done|done|simpl; rewrite length_app; lia|].
    set (p1 := schedule_chunk never f' (set_store st p)) in *.
    set (data2 := load (st_memory st) next (length data)) in *.
    assert (length data2 = length data) as Hlen2 by apply load_length.
    destruct (start_append_spec p1 Q' _ offset next data2 others more HQ' Hn Ho3)
      as (p2 & p' & E2 & E3 & Ht & Es & Eb'); try done.
    { unfold data2. by rewrite load_length. } { lia. }
    { unfold block_size. simpl. rewrite Ebs, Hlen2. exact Hl. } { unfold block_size. simpl. rewrite Ebs, Hlen2. exact Hm. }
    exists {| memory := next; size := length data |}, p1, p2, p'. split_and!; try done.
    + by rewrite <- Hlen2.
    + rewrite Hnext in Ht. simpl in Ht. by rewrite drop_app_le in Ht.
    + rewrite Eb'. unfold block_size. simpl. by rewrite Ebs.
  - assert (offset = 0) as -> by lia.
    destruct (schedule_spec p Q ds f t (b :: others)) as (Hn & Q' & HQ' & Ho3); [done|done|done|].
    destruct (start_append_spec (schedule_chunk never f p) Q' _ 0 b data others more HQ' Hn Ho3)
      as (p2 & p' & E2 & E3 & Ht & Es & Eb'); try done.
    eexists _, _, p2, p'. split_and!; try done. by rewrite take_0, app_nil_r.
Qed.

(** The body of the loop, on a block with a row at [offset]. *)
Lemma row_in_block_spec p d offset b data others more :
  tracks p d true (b :: others) → load (st_memory (p_store p)) b (length data) = data → offset ≤ length data →
  length data ≤ block_size p → (more = true → length data = block_size p) →
  ∃ blk p1 p', row_in_block name bytes_per_chunk never offset {| memory := b; size := length data |} p = Some (Ok (blk, p1)) ∧
    append_block blk p1 = Some (Ok p') ∧
    tracks p' (chunk_step bytes_per_chunk d (data, Z.of_nat offset)) more others ∧
    p_scanner p' = p_scanner p ∧ block_size p' = block_size p.
Proof.
  intros Ht Hd Hoff Hl Hm. pose proof Ht as (Q & HQ & Hc). unfold row_in_block, chunk_step.
  destruct (Z.leb_spec 0 (Z.of_nat offset)); [|lia]. rewrite Nat2Z.id.
  destruct (p_chunk p) as [f|] eqn:Ef, d as [ds [c|]]; simpl in Hc; try done; simpl.
  - destruct Hc as (t & Ho & Hfirst & Ec & Hr). specialize (Hr eq_refl).
    rewrite (file_size_text _ _ _ _ _ Ho). subst c. rewrite length_drop. case_bool_decide.
    + destruct (end_start_append_spec p Q ds f t offset b data others more) as (blk & p1 & p2 & p' & -> & E2 & E3 & ? & ? & ?); try done.
      cbn [mbind option_bind]. rewrite E2. cbn [mbind option_bind]. exists blk, p2, p'. done.
    + destruct (append_block_spec p (ds, Some (drop (p_range_first p) t)) b data others more) as (p' & ? & ? & ? & ?); try done.
      eexists _, p, p'. done.
  - destruct (start_append_spec p Q ds offset b data others more HQ Ef Hc) as (p2 & p' & E2 & E3 & ? & ? & ?); try done.
    rewrite E2. cbn [mbind option_bind]. eexists _, p2, p'. done.
Qed.

Lemma scan_block_spec p d b data others more r s :
  tracks p d true (b :: others) → load (st_memory (p_store p)) b (length data) = data →
  length data ≤ block_size p → (more = true → length data = block_size p) →
  scan q data (p_scanner p) = Some (r, s) → Z.to_nat r ≤ length data →
  ∃ p', scan_block q name bytes_per_chunk never {| memory := b; size := length data |} p = Some (Ok p') ∧
    tracks p' (chunk_step bytes_per_chunk d (data, r)) more others ∧ p_scanner p' = s ∧ block_size p' = block_size p.
Proof.
  intros Ht Hd Hl Hm Hs Hr. unfold scan_block. cbn [memory size]. rewrite Hd, Hs. cbn [mbind option_bind].
  destruct (0 <=? r)%Z eqn:Er.
  - destruct (row_in_block_spec (set_scanner s p) d (Z.to_nat r) b data others more)
      as (blk & p1 & p' & -> & E & ? & ? & ?); try done.
    cbn [mbind option_bind]. exists p'. split_and!; try done. by rewrite <- (Z2Nat.id r) by lia.
  - destruct (append_block_spec (set_scanner s p) d b data others more) as (p' & E & ? & ? & ?); try done.
    cbn [mbind option_bind]. exists p'. split_and!; try done. unfold chunk_step. by rewrite Er.
Qed.

(** The blocks of a source: full ones, and a last one that is not empty. *)
Fixpoint source_blocks (bs : nat) (texts : list str) : Prop :=
  match texts with
  | [] => True
  | [t] => 0 < length t ≤ bs
  | t :: texts => length t = bs ∧ source_blocks bs texts
  end.

Definition follows (texts : list str) : bool := negb (bool_decide (texts = [])).

Lemma source_blocks_cons bs t texts :
  0 < bs → source_blocks bs (t :: texts) →
  0 < length t ≤ bs ∧ (follows texts = true → length t = bs) ∧ source_blocks bs texts.
Proof. intros Hbs. destruct texts; simpl; [done|]. intros []. split_and!; try done; lia. Qed.

Lemma chunk_step_cur d t r :
  (∀ c, d.2 = Some c → c ≠ []) → 0 < length t → Z.to_nat r < length t →
  ∀ c, (chunk_step bytes_per_chunk d (t, r)).2 = Some c → c ≠ [].
Proof.
  intros Hd Ht Hr c. assert (drop (Z.to_nat r) t ≠ []) as Hdrop.
  { intros E%(f_equal length). rewrite length_drop in E. simpl in E. lia. }
  unfold chunk_step. destruct (0 <=? r)%Z, d as [ds [c0|]]; simpl; try done.
  - case_bool_decide; simpl; intros [= <-]; [done|]. intros [-> _]%app_nil. by eapply Hd.
  - by intros [= <-].
  - intros [= <-] [-> _]%app_nil. by eapply Hd.
Qed.

Lemma owns_extract st files others text :
  owns st files others → length text ≤ ba_block_size (st_allocator st) →
  ∃ b st', extract text st = Some (b, st') ∧ owns st' files (b :: others) ∧
    load (st_memory st') b (length text) = text ∧
    ba_block_size (st_allocator st') = ba_block_size (st_allocator st).
Proof.
  intros Ho Hl. pose proof Ho as (Hh & _ & Hb).
  destruct (extract_ok text st _ Hh Hl Hb) as (b & st' & ? & Hh' & Ebs & ? & Hm). exists b, st'. split_and!; try done.
  eapply owns_grown; [exact Ho| |].
  - eapply ba_holds_perm; [|exact Hh']. solve_Permutation.
  - split; [done|]. intros c r Hc Hr. apply Hm; [set_solver|done].
Qed.

Lemma tracks_extract p d more others text :
  tracks p d more others → length text ≤ block_size p →
  ∃ b st', extract text (p_store p) = Some (b, st') ∧ tracks (set_store st' p) d more (b :: others) ∧
    load (st_memory st') b (length text) = text ∧ block_size (set_store st' p) = block_size p.
Proof.
  intros (Q & HQ & Hc) Hl. unfold tracks. simpl. destruct (p_chunk p) as [f|], d as [ds [c|]]; simpl in *; try done.
  - destruct Hc as (t & Ho & Hc). destruct (owns_extract _ _ _ _ Ho Hl) as (b & st' & ? & ? & ? & ?).
    exists b, st'. split_and!; try done. exists Q. split; [done|]. by exists t.
  - destruct (owns_extract _ _ _ _ Hc Hl) as (b & st' & ? & ? & ? & ?). exists b, st'. split_and!; try done. by exists Q.
Qed.

Lemma tracks_block_size p d more others : tracks p d more others → 0 < block_size p.
Proof.
  intros (Q & _ & Hc). unfold block_size. destruct (p_chunk p), d as [ds [c|]]; simpl in *; try done.
  - destruct Hc as (t & (Hh & _) & _). by eapply ba_size_pos.
  - destruct Hc as (Hh & _). by eapply ba_size_pos.
Qed.

(** The loop computes the division of the text. *)
Lemma scan_file_loop_spec texts p d others rs s :
  tracks p d (follows texts) others → (∀ c, d.2 = Some c → c ≠ []) →
  source_blocks (block_size p) texts → scan_blocks q texts (p_scanner p) = Some (rs, s) →
  Forall2 (λ t r, Z.to_nat r < length t) texts rs →
  let d' := foldl (chunk_step bytes_per_chunk) d (zip texts rs) in
  ∃ p' Q, scan_file_loop q name bytes_per_chunk never never texts p = Some (Ok p') ∧ p_chunk p' = None ∧
    scheduled p' Q (d'.1 ++ option_list d'.2) ∧ owns (p_store p') (files_of Q) others.
Proof.
  revert p d rs. induction texts as [|t texts IH]; intros p d rs Ht Hcur Hsrc Hs Hall; simpl in Hs.
  - simplify_eq. destruct Ht as (Q & HQ & Hc). simpl. destruct (p_chunk p) as [f|] eqn:Ef, d as [ds [c|]]; simpl in *; try done.
    + destruct Hc as (t & Ho & Hfirst & Ec & _). rewrite (file_size_text _ _ _ _ _ Ho).
      specialize (Hcur c eq_refl). rewrite bool_decide_eq_true_2 by (subst c; destruct t; [by rewrite drop_nil in Hcur|simpl; lia]).
      destruct (schedule_spec p Q ds f t others) as (? & Q' & ? & ?); try done. eexists _, Q'. rewrite <- Ec. done.
    + rewrite app_nil_r. by exists p, Q.
  - apply bind_Some in Hs as ([r s1] & Hscan & Hs). apply bind_Some in Hs as ([rs' s2] & Hs & ?). simplify_eq.
    apply Forall2_cons in Hall as [Hr Hall]. cbn [zip zip_with foldl].
    assert (0 < block_size p) as Hbs by (by eapply tracks_block_size).
    destruct (source_blocks_cons _ _ _ Hbs Hsrc) as (Hlen & Hfull & Hsrc').
    change (follows (t :: texts)) with true in Ht.
    destruct (tracks_extract p d true others t Ht) as (b & st & E & Ht1 & Hload & Eb); [lia|].
    simpl. rewrite E. cbn [mbind option_bind].
    destruct (scan_block_spec (set_store st p) d b t others (follows texts) r s1) as (p1 & -> & Ht2 & Es & Eb1); try done.
    { rewrite Eb. lia. } { by rewrite Eb. } { lia. }
    cbn [mbind option_bind]. apply IH; [done| | | |done].
    + apply chunk_step_cur; [done|lia|done].
    + by rewrite Eb1, Eb.
    + by rewrite Es.
Qed.
End loop.

(** ** Chunks and rows *)

(** The rows the machine finds are in order. *)
Lemma rows_from_sorted q fuel a pos p :
  Forall (λ n, pos ≤ n) (rows_from q fuel a pos p) ∧ StronglySorted le (rows_from q fuel a pos p).
Proof.
  revert a pos p. induction fuel as [|fuel IH]; intros a pos p; simpl; [split; constructor|].
  destruct (turn q a p) as [[[a' p'] b]|]; [|split; constructor].
  destruct (IH a' (pos + (length p - length p')) p') as [Hge Hs]. split.
  - apply Forall_app. split; [destruct b; repeat constructor; lia|]. eapply Forall_impl; [exact Hge|]. simpl. lia.
  - destruct b; [|done]. simpl. constructor; [done|]. eapply Forall_impl; [exact Hge|]. simpl. lia.
Qed.

Section chunks.
Context (bytes_per_chunk : nat) (starts : list nat) (text : str).
Context (Hsorted : StronglySorted le starts) (Hin : Forall (λ n, n < length text) starts).

(** The division of the first [pos] bytes of the text. *)
Definition divides (pos : nat) (d : division) : Prop :=
  match d.2 with
  | None => d.1 = [] ∧ Forall (λ n, pos ≤ n) starts
  | Some c => ∃ p0, head starts = Some p0 ∧ p0 + length (concat d.1 ++ c) = pos ∧
      concat d.1 ++ c = drop p0 (take pos text) ∧
      (∀ i, i ≤ length d.1 → p0 + length (concat (take i d.1)) ∈ starts) ∧
      Forall (λ x, bytes_per_chunk ≤ length x) d.1
  end.

Lemma head_least x : x ∈ starts → ∃ p0, head starts = Some p0 ∧ p0 ≤ x.
Proof.
  intros Hx. destruct starts as [|p0 l]; [by apply not_elem_of_nil in Hx|]. exists p0. split; [done|].
  inversion Hsorted as [|? ? _ Hle]. subst. apply elem_of_cons in Hx as [->|Hx]; [done|].
  by apply (proj1 (Forall_forall _ _) Hle).
Qed.

Definition first_in (pos len : nat) : Z :=
  match list_find (λ p, pos ≤ p ∧ p < pos + len) starts with
  | Some (_, p) => Z.of_nat (p - pos)
  | None => k_row_not_found
  end.

Lemma first_in_cases pos len :
  first_in pos len = k_row_not_found ∧ Forall (λ p, ¬ (pos ≤ p < pos + len)) starts ∨
  ∃ n, first_in pos len = Z.of_nat n ∧ n < len ∧ pos + n ∈ starts ∧
    (Forall (λ p, pos ≤ p) starts → head starts = Some (pos + n)).
Proof.
  unfold first_in. destruct (list_find _ starts) as [[i p]|] eqn:E; [right|left].
  - apply list_find_Some in E as (Hi & [? ?] & Hfirst). exists (p - pos). split_and!; [done|lia| |].
    + replace (pos + (p - pos)) with p by lia. by eapply list_elem_of_lookup_2.
    + intros Hge. destruct (head_least p) as (p0 & Hh & Hle); [by eapply list_elem_of_lookup_2|].
      rewrite Hh. f_equal. destruct i as [|i].
      * destruct starts; simpl in *; [done|]. simplify_eq. lia.
      * destruct (Hfirst 0 p0); [by rewrite <- head_lookup|lia|]. split; [|lia].
        apply (proj1 (Forall_forall _ _) Hge). rewrite head_lookup in Hh. by eapply list_elem_of_lookup_2.
  - apply list_find_None in E. split; [done|exact E].
Qed.

Lemma chunk_step_divides pos t rest d :
  text = take pos text ++ t ++ rest → pos ≤ length text → divides pos d →
  divides (pos + length t) (chunk_step bytes_per_chunk d (t, first_in pos (length t))).
Proof.
  intros Htext Hpos Hd.
  assert (take (pos + length t) text = take pos text ++ t) as Htake.
  { rewrite Htext at 1. rewrite (assoc_L (++)), take_app_length'; [done|]. rewrite length_app, length_take. lia. }
  assert (∀ p0 ds c, p0 + length (concat ds ++ c) = pos → concat ds ++ c = drop p0 (take pos text) →
    p0 + length ((concat ds ++ c) ++ t) = pos + length t ∧
    (concat ds ++ c) ++ t = drop p0 (take (pos + length t) text)) as Hgrow.
  { intros p0 ds c Hlen E. rewrite (length_app _ t). split; [lia|]. rewrite Htake, E, drop_app_le; [done|].
    rewrite length_take. lia. }
  unfold chunk_step. destruct (first_in_cases pos (length t)) as [[-> Hnone]|(n & -> & Hn & Hstart & Hhead)].
  - simpl. destruct d as [ds [c|]]; unfold divides in *; cbn [fst snd] in *.
    + destruct Hd as (p0 & ? & Hlen & E & ? & ?). exists p0. simpl. rewrite (assoc_L (++)).
      destruct (Hgrow p0 ds c Hlen E). by split_and!.
    + destruct Hd as [-> Hge]. split; [done|]. apply Forall_forall. intros x Hx.
      pose proof (proj1 (Forall_forall _ _) Hge x Hx). pose proof (proj1 (Forall_forall _ _) Hnone x Hx). simpl in *. lia.
  - destruct (Z.leb_spec 0 (Z.of_nat n)); [|lia]. rewrite Nat2Z.id. destruct d as [ds [c|]]; unfold divides in *; cbn [fst snd] in *.
    + destruct Hd as (p0 & Hp0 & Hlen & E & Hrows & Hbig). destruct (Hgrow p0 ds c Hlen E).
      case_bool_decide; cbn [fst snd]; exists p0; [|rewrite (assoc_L (++)); by split_and!].
      assert (concat (ds ++ [c ++ take n t]) ++ drop n t = (concat ds ++ c) ++ t) as ->.
      { rewrite concat_app. simpl. by rewrite app_nil_r, <- !(assoc_L (++)), take_drop. }
      split_and!; try done; [|apply Forall_app; split; [done|]; constructor; [|done]; rewrite length_app, length_take; lia].
      intros i Hi. rewrite length_app in Hi. simpl in Hi. destruct (decide (i ≤ length ds)).
      { rewrite take_app_le by done. by apply Hrows. }
      rewrite take_ge by (rewrite length_app; simpl; lia). rewrite concat_app. simpl. rewrite app_nil_r, (assoc_L (++)), length_app.
      rewrite length_take, Nat.min_l by lia. by replace (p0 + (length (concat ds ++ c) + n)) with (pos + n) by lia.
    + destruct Hd as [-> Hge]. specialize (Hhead Hge). exists (pos + n). simpl. split_and!; try done.
      * rewrite length_drop. lia.
      * rewrite Htake, drop_app_ge by (rewrite length_take; lia). f_equal. rewrite length_take. lia.
      * intros i Hi. assert (i = 0) as -> by lia. simpl. by rewrite Nat.add_0_r.
Qed.

Lemma fold_divides texts pos d :
  text = take pos text ++ concat texts → pos ≤ length text → divides pos d →
  divides (length text) (foldl (chunk_step bytes_per_chunk) d (zip texts (first_rows starts pos texts))).
Proof.
  revert pos d. induction texts as [|t texts IH]; intros pos d Htext Hpos Hd.
  { simpl in *. rewrite app_nil_r in Htext. apply (f_equal length) in Htext. rewrite length_take in Htext.
    by replace (length text) with pos by lia. }
  simpl in Htext. cbn [first_rows zip zip_with foldl]. fold (first_in pos (length t)).
  assert (pos + length t ≤ length text).
  { apply (f_equal length) in Htext. rewrite !length_app, length_take in Htext. lia. }
  apply IH; [|done|by eapply chunk_step_divides].
  rewrite Htext at 1. rewrite (assoc_L (++)). f_equal. rewrite Htext at 2.
  rewrite (assoc_L (++)), take_app_length'; [done|]. rewrite length_app, length_take. lia.
Qed.

Lemma first_rows_bound texts pos :
  Forall (λ t, 0 < length t) texts → Forall2 (λ t r, Z.to_nat r < length t) texts (first_rows starts pos texts).
Proof.
  intros Ht. revert pos. induction Ht as [|t texts Ht _ IH]; intros pos; simpl; constructor; [|apply IH].
  fold (first_in pos (length t)). destruct (first_in_cases pos (length t)) as [[-> _]|(n & -> & ? & _)]; unfold k_row_not_found; lia.
Qed.

(** What the chunks are: the text from the first row on, each from a row to a row. *)
Definition chunks_ok (chunks : list str) : Prop :=
  concat chunks = match starts with [] => [] | p0 :: _ => drop p0 text end ∧
  (∀ i, i < length chunks → default 0 (head starts) + length (concat (take i chunks)) ∈ starts) ∧
  (∀ i c, chunks !! i = Some c → S i < length chunks → bytes_per_chunk ≤ length c).

Lemma divides_chunks d : divides (length text) d → chunks_ok (d.1 ++ option_list d.2).
Proof.
  unfold divides, chunks_ok. destruct d as [ds [c|]]; cbn [fst snd option_list].
  - intros (p0 & Hp0 & Hlen & E & Hrows & Hbig). rewrite concat_app. simpl. rewrite app_nil_r, E, Hp0, take_ge by done.
    split_and!; [by destruct starts; simplify_eq/=| |].
    + intros i Hi. rewrite length_app in Hi. simpl in *. rewrite take_app_le by lia. apply Hrows. lia.
    + intros i x Hx Hi. rewrite length_app in Hi. simpl in Hi. rewrite lookup_app_l in Hx by lia.
      eapply Forall_lookup in Hx; [|exact Hbig]. done.
  - intros [-> Hge]. simpl. split_and!; [|lia|lia].
    destruct starts as [|p0 l]; [done|]. apply Forall_cons in Hge as [? _]. apply Forall_cons in Hin as [? _]. lia.
Qed.
End chunks.

(** ** Theorems *)

Lemma source_blocks_nonempty bs texts : 0 < bs → source_blocks bs texts → Forall (λ t, 0 < length t) texts.
Proof.
  intros Hbs. induction texts as [|t texts IH]; [constructor|]. intros H.
  destruct (source_blocks_cons _ _ _ Hbs H) as (? & _ & ?). constructor; [lia|by apply IH].
Qed.

(** C21: For a dialect that validate accepts and whose field terminator is not longer than
    its line terminator, scan_file, if it is not interrupted and the blocks have at most
    2^63 bytes, schedules chunks whose concatenation is the file from the first row on:
    none is lost, repeated or reordered, each begins at a row and all but the last have at
    least bytes_per_chunk bytes; every block that is not part of a chunk has been given
    back to the allocator. *)
Theorem scan_file_chunks `{Block_source A} (d : Dialect) (skip : nat) (q : Sequences) (s : Scanner)
    (name : string) (bytes_per_chunk : nat) (texts : list str) (st : store A) (others : list nat) :
  validate d = Ok tt → make_Scanner d skip = Ok (q, s) →
  length (fields_terminated_by d) ≤ length (lines_terminated_by d) →
  source_blocks (ba_block_size (st_allocator st)) texts →
  ba_holds (st_allocator st) others → (Z.of_nat (2 * ba_block_size (st_allocator st)) <= 2 ^ 64)%Z →
  ∃ p Q chunks, scan_file q name bytes_per_chunk never never texts s st = Some (Ok p) ∧
    scheduled p Q chunks ∧ owns (p_store p) (files_of Q) others ∧
    chunks_ok bytes_per_chunk (row_starts q skip (concat texts)) (concat texts) chunks.
Proof.
  intros Hv Hm Hft Hsrc Hh Hb. set (T := concat texts). set (starts := row_starts q skip T).
  destruct (scanner_finds_rows d skip q s texts Hv Hm Hft) as (s' & Hs).
  destruct (make_Scanner_spec d skip q s Hv Hm) as (Hq & Hlt & Hesc & _ & _ & _).
  pose proof (ba_size_pos _ _ Hh) as Hbs.
  assert (StronglySorted le starts) as Hsorted by apply rows_from_sorted.
  assert (Forall (λ n, n < length T) starts) as Hin.
  { eapply Forall_impl; [apply (rows_behind q Hlt ltac:(by rewrite Hq) (Machine skip BEGIN None) T (4 * length T + 4) 0 0)|].
    - unfold machine_ok. simpl. destruct skip; lia.
    - lia.
    - unfold measure. simpl. lia.
    - simpl. lia. }
  set (p0 := {| p_scanner := s; p_store := st; p_chunk := None; p_range_first := 0; p_queue := []; p_extracted := 0 |}).
  destruct (scan_file_loop_spec q name bytes_per_chunk texts p0 ([], None) others (first_rows starts 0 texts) s')
    as (p & Q & E & Hn & HQ & Ho); try done.
  - exists []. split; [done|]. simpl. split_and!; try done.
  - eapply first_rows_bound; [done|done|]. by eapply source_blocks_nonempty.
  - eexists p, Q, _. split_and!; [|exact HQ|exact Ho|].
    + unfold scan_file. fold p0. rewrite E. cbn [mbind option_bind]. unfold drop_chunk. by rewrite Hn.
    + apply divides_chunks; [done|done|]. apply fold_divides; try done; [lia|].
      unfold divides. simpl. split; [done|]. apply Forall_forall. intros. lia.
Qed.

(** A source that allocates its blocks from the same allocator. *)
Definition extract_block `{Block_allocator A} (data : str) (st : store A) : option (nat * store A) :=
  '(b, st) ← new_block st;
  Some (b, {| st_allocator := st_allocator st; st_memory := save (st_memory st) b data |}).

Lemma extract_block_ok `{Block_allocator A} data (st : store A) live :
  ba_holds (st_allocator st) live → length data ≤ ba_block_size (st_allocator st) →
  (Z.of_nat (2 * ba_block_size (st_allocator st)) <= 2 ^ 64)%Z →
  ∃ b st', extract_block data st = Some (b, st') ∧ ba_holds (st_allocator st') (b :: live) ∧
    ba_block_size (st_allocator st') = ba_block_size (st_allocator st) ∧
    load (st_memory st') b (length data) = data ∧
    ∀ c r, c ∈ live → r < ba_block_size (st_allocator st) → st_memory st' (c + r) = st_memory st (c + r).
Proof.
  intros Hh Hl Hb. destruct (new_block_spec st live Hh Hb) as (b & st1 & E & Hh1 & [Ebs _] & Em).
  unfold extract_block. rewrite E. cbn [mbind option_bind]. eexists b, _. split; [done|]. simpl.
  split_and!; [done|done|apply load_save|]. intros c r Hc Hr. rewrite save_other; [by rewrite Em|].
  pose proof (ba_nodup _ _ Hh1) as [Hnd _]%NoDup_cons. rewrite <- Ebs in *.
  destruct (ba_apart _ _ b c Hh1) as [?|?]; [set_solver|set_solver|by intros ->|lia|lia].
Qed.

#[global] Instance allocating_source `{Block_allocator A} : Block_source A :=
  {| extract := extract_block; extract_ok := extract_block_ok |}.

#[local] Existing Instance bump_heap.

(** The header and four rows, in blocks of eight bytes. *)
Definition sample_texts : list str :=
  [$"id" ++ [newline] ++ $"11" ++ [newline] ++ $"22"; [newline] ++ $"33" ++ [newline] ++ $"4444"; $"44" ++ [newline]].

Lemma scan_file_chunks_witness :
  ∃ q s p Q chunks, make_Scanner default_ 1 = Ok (q, s) ∧
    scan_file q "t.tsv" 4 never never sample_texts s sample_store = Some (Ok p) ∧ scheduled p Q chunks ∧
    concat chunks = drop 3 (concat sample_texts).
Proof.
  destruct (make_Scanner default_ 1) as [[q s]|] eqn:E; [|by vm_compute in E].
  destruct (scan_file_chunks default_ 1 q s "t.tsv" 4 sample_texts sample_store []) as (p & Q & chunks & H1 & H2 & _ & H3 & _);
    [vm_compute; reflexivity|exact E|vm_compute; lia|vm_compute; lia|exact sample_holds|vm_compute; discriminate|].
  exists q, s, p, Q, chunks. split; [reflexivity|]. split; [exact H1|]. split; [exact H2|].
  rewrite H3. vm_compute in E. injection E as <- <-. reflexivity.
Defined.

(** The chunks of the sample: their sizes, what the workers read of them, and what messages
    call them. *)
Definition sample_infos : option (list (nat * (nat * nat) * (nat * nat))) :=
  match make_Scanner default_ 1 with
  | Ok (q, s) =>
      r ← scan_file q "t.tsv" 4 never never sample_texts s sample_store;
      match r with
      | Ok p => Some ((λ i, (m_size (info_file i), range i, context i)) <$> p_queue p)
      | Throw _ => None
      end
  | Throw _ => None
  end.

(** The ranges of the file in messages are wrong: the second chunk, the bytes from 9 on
    of a file of 19 bytes, is called the bytes from 17 to 27, because the offset is that of
    the last block that was read and not of the first block of the chunk. *)
Theorem chunk_context_misplaced :
  length (concat sample_texts) = 19 ∧
  sample_infos = Some [(9, (3, 9), (11, 17)); (11, (1, 11), (17, 27))].
Proof. vm_compute. split; reflexivity. Qed.
