(* ===== verification/DumpWriter.v ===== *)
(** * Writers of dumps

    Model of [modules/util/dump/dump_writer.{h,cc}] (class [Dump_writer::Buffer]),
    [text_dump_writer.{h,cc}] and [dialect_dump_writer.h] (namespace [mysqlsh::dump]): rows are
    formatted into a buffer that is enlarged before data of variable size is written.  A
    write behind the capacity of the buffer, and a failed assertion on its fixed part, are
    [None].  The raw data of a field is the list of its bytes, [None] when it is null; as
    in the client library a zero byte follows it.  Output files and their index are not
    part of the model. *)
From S2P Require Import Prelude UtilsString Lexing Dialect.

Open Scope nat_scope.

(** ** The buffer *)

Record Buffer := {
  m_capacity : nat;
  m_fixed_length : nat;
  m_fixed_length_remaining : nat;
  m_data : str;                    (* the first [m_length] bytes *)
}.

Definition make_Buffer : Buffer :=
  {| m_capacity := 1024; m_fixed_length := 0; m_fixed_length_remaining := 0; m_data := [] |}.

Definition set_data (data : str) (b : Buffer) : Buffer :=
  {| m_capacity := m_capacity b; m_fixed_length := m_fixed_length b;
     m_fixed_length_remaining := m_fixed_length_remaining b; m_data := data |}.

(** [append(const char *, std::size_t)], and of one character. *)
Definition append (data : str) (b : Buffer) : option Buffer :=
  if bool_decide (length (m_data b) + length data ≤ m_capacity b) then Some (set_data (m_data b ++ data) b) else None.

Definition append_fixed (s : str) (b : Buffer) : option Buffer :=
  if bool_decide (length s ≤ m_fixed_length_remaining b) then
    b ← append s b;
    Some {| m_capacity := m_capacity b; m_fixed_length := m_fixed_length b;
            m_fixed_length_remaining := m_fixed_length_remaining b - length s; m_data := m_data b |}
  else None.

Definition clear (b : Buffer) : Buffer :=
  {| m_capacity := m_capacity b; m_fixed_length := m_fixed_length b;
     m_fixed_length_remaining := m_fixed_length b; m_data := [] |}.

(** [while (new_capacity < requested_capacity) new_capacity <<= 1;] with [std::size_t]. *)
Fixpoint double_until (fuel : nat) (new_capacity requested : Z) : option Z :=
  if (new_capacity <? requested)%Z then
    match fuel with
    | O => None
    | S fuel => double_until fuel (u64 (Z.shiftl new_capacity 1)) requested
    end
  else Some new_capacity.

Definition resize (requested_capacity : nat) (b : Buffer) : option Buffer :=
  new_capacity ← double_until 64 (Z.of_nat (m_capacity b)) (Z.of_nat requested_capacity);
  Some {| m_capacity := Z.to_nat new_capacity; m_fixed_length := m_fixed_length b;
          m_fixed_length_remaining := m_fixed_length_remaining b; m_data := m_data b |}.

Definition will_write (bytes : nat) (b : Buffer) : option Buffer :=
  let requested_capacity := length (m_data b) + m_fixed_length_remaining b + bytes in
  if bool_decide (m_capacity b < requested_capacity) then resize requested_capacity b else Some b.

Definition set_fixed_length (fixed_length : nat) (b : Buffer) : option Buffer :=
  b ← will_write fixed_length b;
  Some {| m_capacity := m_capacity b; m_fixed_length := fixed_length;
          m_fixed_length_remaining := fixed_length; m_data := m_data b |}.

(** [while (p < end)]: 76 bytes of each line of 77; the rest is the last line. *)
Fixpoint base64_lines (fuel : nat) (data : str) : str :=
  match fuel with
  | O => []
  | S fuel =>
      if bool_decide (76 < length data) then take 76 data ++ base64_lines fuel (drop 77 data) else data
  end.

Definition write_base64_data (data : str) (b : Buffer) : option Buffer :=
  if bool_decide (0 < length data) then
    b ← will_write (length data) b;
    append (base64_lines (S (length data)) data) b
  else Some b.

(** ** Columns *)

Inductive Type_ :=
| Null | String_ | Integer | UInteger | Float | Double | Decimal | Bytes | Geometry | Json
| Date | Time_ | DateTime | Bit | Enum | Set_.

#[global] Instance Type_eq_dec : EqDecision Type_.
Proof. solve_decision. Defined.

Definition is_string_type (type : Type_) : bool :=
  match type with
  | Bytes | Geometry | Json | Date | Time_ | DateTime | Enum | Set_ | String_ => true
  | _ => false
  end.

Inductive Escape_type := NONE | FULL | BASE64.
Inductive Encoding_type := Encoding_NONE | Encoding_BASE64 | Encoding_HEX.

#[global] Instance Escape_type_eq_dec : EqDecision Escape_type.
Proof. solve_decision. Defined.

Record column := { is_string : bool; is_number : bool; needs_escape : Escape_type }.

(** The column of a type, when numbers, Base64 and hexadecimal data need these escapes. *)
Definition make_column (numbers base64 hex : Escape_type) (type : Type_) (encoding : option Encoding_type) : column :=
  let is_string := is_string_type type in
  let is_number := negb is_string && negb (bool_decide (Bit = type)) in
  {| is_string := is_string;
     is_number := is_number;
     needs_escape :=
       if is_number then numbers
       else match encoding with
            | Some Encoding_BASE64 => base64
            | Some Encoding_HEX => hex
            | _ => FULL
            end |}.

(** The columns; encodings count only if there is one for each column. *)
Definition make_columns (numbers base64 hex : Escape_type) (types : list Type_) (encodings : list Encoding_type)
    : list column :=
  let encoding i := if bool_decide (length encodings = length types) then encodings !! i else None in
  imap (λ i type, make_column numbers base64 hex type (encoding i)) types.

(** Strings such as inf and nan instead of numbers. *)
Definition not_a_number (data : str) : bool :=
  match data with
  | c :: rest => isalpha c || (bool_decide (c = "-"%char) && match rest with d :: _ => isalpha d | [] => false end)
  | [] => false
  end.

Definition field_is_null (col : column) (data : option str) : bool :=
  match data with
  | None => true
  | Some data => is_number col && not_a_number data
  end.

(** The escape sequences of both writers. *)
Definition escape_letter (c : ascii) : option ascii :=
  if bool_decide (c = "000"%char) then Some "0"%char
  else if bool_decide (c = "008"%char) then Some "b"%char
  else if bool_decide (c = "010"%char) then Some "n"%char
  else if bool_decide (c = "013"%char) then Some "r"%char
  else if bool_decide (c = "009"%char) then Some "t"%char
  else if bool_decide (c = "026"%char) then Some "Z"%char
  else None.

(** ** Any dialect *)

Definition k_numeric_types_alphabet : str := $"0123456789-.".
Definition k_hex_types_alphabet : str := $"0123456789abcdefABCDEF".
Definition k_base64_types_alphabet : str :=
  $"abcdefghijklmnopqrstuvwxyzABCDEFGHIJKLMNOPQRSTUVWXYZ0123456789+/=".

(** [strchr], which also finds the terminating zero. *)
Definition strchr (s : str) (c : ascii) : bool := mem_chars s c || bool_decide (c = "000"%char).

Record Text_dump_writer := {
  m_dialect : Dialect;
  m_line_terminator : str;
  m_null : str;
  m_escape : bool;
  m_escaped_characters : list ascii;   (* those that are set; the others are zero *)
  m_escape_char : ascii;
  m_double_enclosed_by : bool;
  m_numbers_need_escape : Escape_type;
  m_hex_need_escape : Escape_type;
  m_base64_need_escape : Escape_type;
}.

Definition need_escape (alphabet : str) (chars : list ascii) (otherwise : Escape_type) : Escape_type :=
  if existsb (strchr alphabet) chars then FULL else otherwise.

Definition make_Text_dump_writer (d : Dialect) : Text_dump_writer :=
  let escape := negb (bool_decide (fields_escaped_by d = [])) in
  let chars := if escape then
                 take 1 (fields_escaped_by d) ++ take 1 (fields_enclosed_by d) ++
                 take 1 (fields_terminated_by d) ++ take 1 (lines_terminated_by d)
               else [] in
  {| m_dialect := d;
     m_line_terminator := if bool_decide (lines_terminated_by d = []) then fields_terminated_by d
                          else lines_terminated_by d;
     m_null := if escape then fields_escaped_by d ++ $"N" else $"NULL";
     m_escape := escape;
     m_escaped_characters := chars;
     m_escape_char := default "000"%char (head (fields_escaped_by d));
     m_double_enclosed_by := match fields_enclosed_by d with c :: _ => mem_chars ($"0bnrtZN") c | [] => false end;
     m_numbers_need_escape := need_escape k_numeric_types_alphabet chars NONE;
     m_hex_need_escape := need_escape k_hex_types_alphabet chars NONE;
     m_base64_need_escape := need_escape k_base64_types_alphabet chars BASE64 |}.

Section text_writer.
Context (w : Text_dump_writer).

Abbreviation dialect := (m_dialect w).

Definition text_columns (types : list Type_) (encodings : list Encoding_type) : list column :=
  make_columns (m_numbers_need_escape w) (m_base64_need_escape w) (m_hex_need_escape w) types encodings.

(** Whether a field of the column is between FIELDS ENCLOSED BY characters. *)
Definition text_quotes (col : column) : bool := negb (fields_optionally_enclosed dialect) || is_string col.

(** The part of the row that does not depend on the data. *)
Definition text_fixed_length (cols : list column) : nat :=
  length (lines_starting_by dialect) + length (m_line_terminator w) +
  (if bool_decide (0 < length cols) then (length cols - 1) * length (fields_terminated_by dialect) else 0) +
  sum_list_with (λ col, if text_quotes col then 2 * length (fields_enclosed_by dialect) else 0) cols.

Definition text_read_metadata (types : list Type_) (encodings : list Encoding_type) (b : Buffer)
    : option (list column * Buffer) :=
  let cols := text_columns types encodings in
  b ← set_fixed_length (text_fixed_length cols) b;
  Some (cols, b).

(** One character of the data. *)
Definition text_escape (c : ascii) : str :=
  match escape_letter c with
  | Some l => [m_escape_char w; l]
  | None =>
      if mem_chars (m_escaped_characters w) c then
        [if m_double_enclosed_by w && bool_decide (head (fields_enclosed_by dialect) = Some c)
         then c else m_escape_char w; c]
      else [c]
  end.

(** [for (auto p = data; p != end; ++p)] *)
Fixpoint text_escape_loop (data : str) (b : Buffer) : option Buffer :=
  match data with
  | [] => Some b
  | c :: data => b ← append (text_escape c) b; text_escape_loop data b
  end.

Definition text_quote_field (col : column) (b : Buffer) : option Buffer :=
  if text_quotes col then append_fixed (fields_enclosed_by dialect) b else Some b.

Definition text_store_null (b : Buffer) : option Buffer :=
  b ← will_write (length (m_null w)) b;
  append (m_null w) b.

(** The data of a field that is not null. *)
Definition text_store_data (col : column) (data : str) (b : Buffer) : option Buffer :=
  if negb (m_escape w) || bool_decide (needs_escape col = NONE) then
    b ← will_write (length data) b;
    append data b
  else if bool_decide (needs_escape col = BASE64) &&
          (bool_decide (length data < 76) || bool_decide (default "000"%char (data !! 76) = newline)) then
    write_base64_data data b
  else
    b ← will_write (2 * length data) b;
    text_escape_loop data b.

Definition text_store_field (first : bool) (col : column) (data : option str) (b : Buffer) : option Buffer :=
  b ← (if first then Some b else append_fixed (fields_terminated_by dialect) b);
  match data with
  | Some bytes =>
      if field_is_null col data then text_store_null b
      else
        b ← text_quote_field col b;
        b ← text_store_data col bytes b;
        text_quote_field col b
  | None => text_store_null b
  end.

Fixpoint text_store_fields (first : bool) (row : list (column * option str)) (b : Buffer) : option Buffer :=
  match row with
  | [] => Some b
  | (col, data) :: row => b ← text_store_field first col data b; text_store_fields false row b
  end.

Definition text_store_row (row : list (column * option str)) (b : Buffer) : option Buffer :=
  b ← append_fixed (lines_starting_by dialect) b;
  b ← text_store_fields true row b;
  append_fixed (m_line_terminator w) b.

(** [write_row] up to the write of the buffer to the file. *)
Definition text_write_row (row : list (column * option str)) (b : Buffer) : option Buffer :=
  text_store_row row (clear b).
End text_writer.

(** ** The dialects with a name

    [Dialect_dump_writer<T>] is specialised at compile time by the traits [T]; the overloads
    chosen by the lengths of the sequences are the cases of the matches. *)

Record dialect_traits := {
  t_lines_terminated_by : str;
  t_fields_escaped_by : str;
  t_fields_terminated_by : str;
  t_fields_enclosed_by : str;
  t_fields_optionally_enclosed : bool;
}.

Definition default_traits : dialect_traits :=
  {| t_lines_terminated_by := [newline]; t_fields_escaped_by := [backslash];
     t_fields_terminated_by := [tab]; t_fields_enclosed_by := [];
     t_fields_optionally_enclosed := false |}.

Definition json_traits : dialect_traits :=
  {| t_lines_terminated_by := [newline]; t_fields_escaped_by := [];
     t_fields_terminated_by := [newline]; t_fields_enclosed_by := [];
     t_fields_optionally_enclosed := false |}.

Definition csv_traits : dialect_traits :=
  {| t_lines_terminated_by := [carriage_return; newline]; t_fields_escaped_by := [backslash];
     t_fields_terminated_by := $","; t_fields_enclosed_by := [dquote];
     t_fields_optionally_enclosed := true |}.

Definition tsv_traits : dialect_traits :=
  {| t_lines_terminated_by := [carriage_return; newline]; t_fields_escaped_by := [backslash];
     t_fields_terminated_by := [tab]; t_fields_enclosed_by := [dquote];
     t_fields_optionally_enclosed := true |}.

Definition csv_unix_traits : dialect_traits :=
  {| t_lines_terminated_by := [newline]; t_fields_escaped_by := [backslash];
     t_fields_terminated_by := $","; t_fields_enclosed_by := [dquote];
     t_fields_optionally_enclosed := false |}.

Section dialect_writer.
Context (T : dialect_traits).

Definition dialect_columns (types : list Type_) (encodings : list Encoding_type) : list column :=
  make_columns NONE BASE64 NONE types encodings.

Definition dialect_quotes (col : column) : bool := negb (t_fields_optionally_enclosed T) || is_string col.

Definition dialect_fixed_length (cols : list column) : nat :=
  length (t_lines_terminated_by T) +
  (if bool_decide (0 < length cols) then length cols - 1 else 0) +
  sum_list_with (λ col, if dialect_quotes col then 2 * length (t_fields_enclosed_by T) else 0) cols.

Definition dialect_read_metadata (types : list Type_) (encodings : list Encoding_type) (b : Buffer)
    : option (list column * Buffer) :=
  let cols := dialect_columns types encodings in
  b ← set_fixed_length (dialect_fixed_length cols) b;
  Some (cols, b).

(** [store_field<0>] *)
Definition dialect_store_raw (data : str) (b : Buffer) : option Buffer :=
  b ← will_write (length data) b;
  append data b.

(** The special characters, without those that have a letter. *)
Definition dialect_should_escape (e c : ascii) : bool :=
  bool_decide (c = e) || bool_decide (head (t_fields_terminated_by T) = Some c) ||
  bool_decide (head (t_lines_terminated_by T) = Some c) ||
  bool_decide (head (t_fields_enclosed_by T) = Some c).

Definition dialect_escape (e c : ascii) : str :=
  match escape_letter c with
  | Some l => [e; l]
  | None => if dialect_should_escape e c then [e; c] else [c]
  end.

Fixpoint dialect_escape_loop (e : ascii) (data : str) (b : Buffer) : option Buffer :=
  match data with
  | [] => Some b
  | c :: data => b ← append (dialect_escape e c) b; dialect_escape_loop e data b
  end.

(** [store_field<s_fields_escaped_by_length>] *)
Definition dialect_store_escaped (data : str) (b : Buffer) : option Buffer :=
  match t_fields_escaped_by T with
  | [] => dialect_store_raw data b
  | e :: _ => b ← will_write (2 * length data) b; dialect_escape_loop e data b
  end.

Definition dialect_quote_field (col : column) (b : Buffer) : option Buffer :=
  match t_fields_enclosed_by T with
  | [] => Some b
  | c :: _ => if dialect_quotes col then append_fixed [c] b else Some b
  end.

Definition dialect_store_null (b : Buffer) : option Buffer :=
  match t_fields_escaped_by T with
  | [] => b ← will_write 4 b; append ($"NULL") b
  | e :: _ => b ← will_write 2 b; b ← append [e] b; append ($"N") b
  end.

Definition dialect_store_data (col : column) (data : str) (b : Buffer) : option Buffer :=
  match needs_escape col with
  | FULL => dialect_store_escaped data b
  | BASE64 => write_base64_data data b
  | NONE => dialect_store_raw data b
  end.

Definition dialect_store_field (first : bool) (col : column) (data : option str) (b : Buffer) : option Buffer :=
  b ← (if first then Some b else append_fixed (take 1 (t_fields_terminated_by T)) b);
  match data with
  | Some bytes =>
      if field_is_null col data then dialect_store_null b
      else
        b ← dialect_quote_field col b;
        b ← dialect_store_data col bytes b;
        dialect_quote_field col b
  | None => dialect_store_null b
  end.

Fixpoint dialect_store_fields (first : bool) (row : list (column * option str)) (b : Buffer) : option Buffer :=
  match row with
  | [] => Some b
  | (col, data) :: row => b ← dialect_store_field first col data b; dialect_store_fields false row b
  end.

(** One character after the other. *)
Fixpoint dialect_finish_row (terminator : str) (b : Buffer) : option Buffer :=
  match terminator with
  | [] => Some b
  | c :: terminator => b ← append_fixed [c] b; dialect_finish_row terminator b
  end.

Definition dialect_store_row (row : list (column * option str)) (b : Buffer) : option Buffer :=
  b ← dialect_store_fields true row b;
  dialect_finish_row (t_lines_terminated_by T) b.

Definition dialect_write_row (row : list (column * option str)) (b : Buffer) : option Buffer :=
  dialect_store_row row (clear b).
End dialect_writer.
