(* ===== verification/DumpWriterFacts.v ===== *)
(** * Writers of dumps: theorems

    What the writers put into the buffer is described by functions on texts, [text_row] and
    [dialect_row]; [stores] says that a part of a writer appends a text within the capacity
    of the buffer, and composes like the parts do. *)
From S2P Require Import Prelude UtilsString Lexing Dialect DumpWriter.

Open Scope nat_scope.

(** ** The buffer *)

Definition buffer_ok (b : Buffer) : Prop :=
  length (m_data b) + m_fixed_length_remaining b ≤ m_capacity b ∧ 0 < m_capacity b.

(** Sizes for which [resize] ends. *)
Definition fits (n : nat) : Prop := (Z.of_nat n <= 2 ^ 63)%Z.

Lemma double_until_spec fuel c r :
  (0 < c < 2 ^ 64)%Z → (r <= 2 ^ 63)%Z → (r <= c * 2 ^ Z.of_nat fuel)%Z →
  ∃ c', double_until fuel c r = Some c' ∧ (c <= c' < 2 ^ 64)%Z ∧ (r <= c')%Z.
Proof.
  revert c. induction fuel as [|fuel IH]; intros c Hc Hr Hf; simpl; case_match eqn:E; try (eexists; split; [done|lia]).
  { simpl in Hf. lia. }
  assert (u64 (Z.shiftl c 1) = 2 * c)%Z as ->.
  { rewrite Z.shiftl_mul_pow2 by lia. rewrite u64_small; lia. }
  destruct (IH (2 * c)%Z) as (c' & -> & ? & ?); [lia|lia| |].
  - replace (2 * c * 2 ^ Z.of_nat fuel)%Z with (c * 2 ^ Z.of_nat (S fuel))%Z; [done|].
    rewrite Nat2Z.inj_succ, Z.pow_succ_r by lia. lia.
  - exists c'. split; [done|]. lia.
Qed.

Lemma will_write_spec n b :
  buffer_ok b → (Z.of_nat (m_capacity b) < 2 ^ 64)%Z → fits (length (m_data b) + m_fixed_length_remaining b + n) →
  ∃ c, will_write n b = Some {| m_capacity := c; m_fixed_length := m_fixed_length b;
      m_fixed_length_remaining := m_fixed_length_remaining b; m_data := m_data b |} ∧
    m_capacity b ≤ c ∧ (Z.of_nat c < 2 ^ 64)%Z ∧ length (m_data b) + m_fixed_length_remaining b + n ≤ c.
Proof.
  intros [Hok Hpos] Hc Hn. unfold will_write. case_bool_decide.
  - unfold resize. unfold fits in Hn.
    destruct (double_until_spec 64 (Z.of_nat (m_capacity b)) (Z.of_nat (length (m_data b) + m_fixed_length_remaining b + n)))
      as (c' & -> & ? & ?); [lia|lia|lia|].
    cbn [mbind option_bind]. exists (Z.to_nat c'). split; [done|]. lia.
  - exists (m_capacity b). split; [by destruct b|]. lia.
Qed.

(** [f] appends [text]; it uses at most [fixed] bytes of the fixed part and [cost] others. *)
Definition stores (f : Buffer → option Buffer) (text : str) (fixed cost : nat) : Prop :=
  ∀ b, buffer_ok b → (Z.of_nat (m_capacity b) < 2 ^ 64)%Z → fixed ≤ m_fixed_length_remaining b →
  fits (length (m_data b) + m_fixed_length_remaining b + cost) →
  ∃ b', f b = Some b' ∧ buffer_ok b' ∧ (Z.of_nat (m_capacity b') < 2 ^ 64)%Z ∧ m_capacity b ≤ m_capacity b' ∧
    m_data b' = m_data b ++ text ∧ m_fixed_length b' = m_fixed_length b ∧
    m_fixed_length_remaining b - fixed ≤ m_fixed_length_remaining b' ∧
    length (m_data b') + m_fixed_length_remaining b' ≤ length (m_data b) + m_fixed_length_remaining b + cost.

Lemma stores_weaken f text fixed cost fixed' cost' :
  stores f text fixed cost → fixed ≤ fixed' → cost ≤ cost' → stores f text fixed' cost'.
Proof.
  intros Hf Hx Hc b Hok Hcap Hrem Hfit.
  destruct (Hf b Hok Hcap) as (b' & ? & ? & ? & ? & ? & ? & ? & ?); [lia|unfold fits in *; lia|].
  exists b'. split_and!; try done; lia.
Qed.

Lemma stores_some : stores Some [] 0 0.
Proof. intros b ? ? ? ?. exists b. rewrite app_nil_r. split_and!; try done; lia. Qed.

Lemma stores_bind f g text1 text2 fixed1 fixed2 cost1 cost2 :
  stores f text1 fixed1 cost1 → stores g text2 fixed2 cost2 →
  stores (λ b, f b ≫= g) (text1 ++ text2) (fixed1 + fixed2) (cost1 + cost2).
Proof.
  intros Hf Hg b Hok Hcap Hrem Hfit. unfold fits in Hfit.
  destruct (Hf b Hok Hcap) as (b1 & -> & Hok1 & Hcap1 & ? & Ed1 & ? & ? & ?); [lia|unfold fits; lia|].
  destruct (Hg b1 Hok1 Hcap1) as (b2 & E2 & ? & ? & ? & Ed2 & ? & ? & ?); [lia|unfold fits; lia|].
  exists b2. cbn [mbind option_bind]. split_and!; try done; try lia; try congruence.
  by rewrite Ed2, Ed1, (assoc_L (++)).
Qed.

Lemma stores_fixed s : stores (append_fixed s) s (length s) 0.
Proof.
  intros b [Hok Hpos] Hcap Hrem Hfit. unfold append_fixed, append.
  rewrite bool_decide_eq_true_2 by done. rewrite bool_decide_eq_true_2 by lia. cbn [mbind option_bind].
  eexists. split; [done|]. unfold buffer_ok. simpl. rewrite length_app. split_and!; try done; lia.
Qed.

(** A text that was announced with [will_write]. *)
Lemma stores_announced n text (f : Buffer → option Buffer) :
  length text ≤ n →
  (∀ b, length (m_data b) + n ≤ m_capacity b → f b = Some (set_data (m_data b ++ text) b)) →
  stores (λ b, will_write n b ≫= f) text 0 n.
Proof.
  intros Hn Hf b [Hok Hpos] Hcap Hrem Hfit.
  destruct (will_write_spec n b) as (c & -> & ? & ? & ?); [done..|]. cbn [mbind option_bind].
  rewrite Hf by (simpl; lia). eexists. split; [done|]. unfold buffer_ok. simpl. rewrite length_app.
  split_and!; try done; lia.
Qed.

Lemma buffer_append_spec text n b :
  length text ≤ n → length (m_data b) + n ≤ m_capacity b → append text b = Some (set_data (m_data b ++ text) b).
Proof. intros ? ?. unfold append. by rewrite bool_decide_eq_true_2 by lia. Qed.

Lemma stores_write n text : length text ≤ n → stores (λ b, will_write n b ≫= append text) text 0 n.
Proof. intros Hn. apply stores_announced; [done|]. intros b Hb. by eapply buffer_append_spec. Qed.

(** Characters that are replaced by texts of at most two characters. *)
Lemma escape_loop_spec (f : ascii → str) (loop : str → Buffer → option Buffer) data b :
  (∀ b, loop [] b = Some b) → (∀ c data b, loop (c :: data) b = append (f c) b ≫= loop data) →
  (∀ c, length (f c) ≤ 2) → length (m_data b) + 2 * length data ≤ m_capacity b →
  loop data b = Some (set_data (m_data b ++ (data ≫= f)) b).
Proof.
  intros Hnil Hcons Hf. revert b. induction data as [|c data IH]; intros b Hb.
  - rewrite Hnil. simpl. rewrite app_nil_r. by destruct b.
  - simpl in Hb. rewrite Hcons. rewrite (buffer_append_spec _ 2) by (apply Hf || lia). cbn [mbind option_bind].
    rewrite IH by (simpl; rewrite length_app; specialize (Hf c); lia). csimpl. by rewrite (assoc_L (++)).
Qed.

Lemma escape_length (f : ascii → str) data : (∀ c, length (f c) ≤ 2) → length (data ≫= f) ≤ 2 * length data.
Proof.
  intros Hf. induction data as [|c data IH]; csimpl; [lia|]. rewrite length_app. specialize (Hf c). lia.
Qed.

Lemma base64_lines_length fuel data : length (base64_lines fuel data) ≤ length data.
Proof.
  revert data. induction fuel as [|fuel IH]; intros data; simpl; [lia|]. case_bool_decide; [|lia].
  rewrite length_app, length_take. specialize (IH (drop 77 data)). rewrite length_drop in IH. lia.
Qed.

Lemma stores_base64 data : stores (write_base64_data data) (base64_lines (S (length data)) data) 0 (length data).
Proof.
  unfold write_base64_data. case_bool_decide; [|].
  - apply (stores_write (length data)). apply base64_lines_length.
  - destruct data; [|simpl in *; lia]. apply stores_some.
Qed.

(** ** What the writers write *)

Section text.
Context (w : Text_dump_writer).
Abbreviation dialect := (m_dialect w).

Definition text_data (col : column) (data : str) : str :=
  if negb (m_escape w) || bool_decide (needs_escape col = NONE) then data
  else if bool_decide (needs_escape col = BASE64) &&
          (bool_decide (length data < 76) || bool_decide (default "000"%char (data !! 76) = newline))
  then base64_lines (S (length data)) data
  else data ≫= text_escape w.

Definition text_quote (col : column) : str := if text_quotes w col then fields_enclosed_by dialect else [].

(** A field without its terminator. *)
Definition text_field (col : column) (data : option str) : str :=
  match data with
  | Some bytes => if field_is_null col data then m_null w else text_quote col ++ text_data col bytes ++ text_quote col
  | None => m_null w
  end.

Fixpoint text_fields (first : bool) (row : list (column * option str)) : str :=
  match row with
  | [] => []
  | (col, data) :: row =>
      (if first then [] else fields_terminated_by dialect) ++ text_field col data ++ text_fields false row
  end.

Definition text_row (row : list (column * option str)) : str :=
  lines_starting_by dialect ++ text_fields true row ++ m_line_terminator w.

(** The variable part of a field, at most. *)
Definition field_cost (data : option str) : nat := length (m_null w) + 2 * length (default [] data).

Lemma text_escape_length c : length (text_escape w c) ≤ 2.
Proof. unfold text_escape. repeat case_match; simpl; lia. Qed.

Lemma stores_text_data col data : stores (text_store_data w col data) (text_data col data) 0 (2 * length data).
Proof.
  unfold text_store_data, text_data. case_match; [|case_match].
  - eapply stores_weaken; [by apply (stores_write (length data))|lia|lia].
  - eapply stores_weaken; [apply stores_base64|lia|lia].
  - apply stores_announced; [apply escape_length, text_escape_length|]. intros b Hb.
    by apply escape_loop_spec; [..|apply text_escape_length|].
Qed.

Lemma stores_text_quote col : stores (text_quote_field w col) (text_quote col) (length (text_quote col)) 0.
Proof. unfold text_quote_field, text_quote. case_match; [apply stores_fixed|apply stores_some]. Qed.

Lemma stores_text_null : stores (text_store_null w) (m_null w) 0 (length (m_null w)).
Proof. by apply (stores_write (length (m_null w))). Qed.

Lemma stores_text_field first col data :
  stores (text_store_field w first col data)
    ((if first then [] else fields_terminated_by dialect) ++ text_field col data)
    ((if first then 0 else length (fields_terminated_by dialect)) + 2 * length (text_quote col)) (field_cost data).
Proof.
  unfold text_store_field, field_cost.
  apply (stores_bind (λ b, if first then Some b else append_fixed (fields_terminated_by dialect) b) _ _ _ _ _ 0
           (length (m_null w) + 2 * length (default [] data))).
  { destruct first; [apply stores_some|apply stores_fixed]. }
  unfold text_field. destruct data as [bytes|]; [destruct (field_is_null col (Some bytes))|];
    [eapply stores_weaken; [apply stores_text_null|lia..]| |eapply stores_weaken; [apply stores_text_null|lia..]].
  eapply (stores_weaken _ _ (length (text_quote col) + (0 + length (text_quote col))) (0 + (2 * length bytes + 0)));
    [|lia|simpl; lia].
  apply stores_bind; [apply stores_text_quote|]. apply stores_bind; [apply stores_text_data|apply stores_text_quote].
Qed.

(** The fixed part of the fields from one on. *)
Definition fields_fixed (first : bool) (cols : list column) : nat :=
  (if first then length cols - 1 else length cols) * length (fields_terminated_by dialect) +
  sum_list_with (λ col, 2 * length (text_quote col)) cols.

Lemma stores_text_fields first row :
  stores (text_store_fields w first row) (text_fields first row) (fields_fixed first row.*1)
    (sum_list_with field_cost row.*2).
Proof.
  revert first. induction row as [|[col data] row IH]; intros first; csimpl.
  { eapply stores_weaken; [apply stores_some|lia..]. }
  rewrite (assoc_L (++)). eapply stores_weaken; [apply stores_bind; [apply stores_text_field|apply IH]| |done].
  unfold fields_fixed. csimpl. destruct first; simpl; lia.
Qed.

Lemma text_fixed_length_eq cols :
  text_fixed_length w cols =
    length (lines_starting_by dialect) + (fields_fixed true cols + length (m_line_terminator w)).
Proof.
  unfold text_fixed_length, fields_fixed.
  replace (sum_list_with (λ col, if text_quotes w col then 2 * length (fields_enclosed_by dialect) else 0) cols)
    with (sum_list_with (λ col, 2 * length (text_quote col)) cols).
  - case_bool_decide; [|destruct cols; simpl in *]; lia.
  - induction cols as [|col cols IH]; [done|]. cbn [sum_list_with]. rewrite IH. unfold text_quote. by destruct (text_quotes w col).
Qed.

Definition row_cost (row : list (column * option str)) : nat := sum_list_with field_cost row.*2.

Lemma stores_text_row row :
  stores (text_store_row w row) (text_row row) (text_fixed_length w row.*1) (row_cost row).
Proof.
  rewrite text_fixed_length_eq.
  eapply (stores_weaken _ _ (length (lines_starting_by dialect) + (fields_fixed true row.*1 + length (m_line_terminator w)))
            (0 + (row_cost row + 0))); [|lia..].
  apply stores_bind; [apply stores_fixed|]. apply stores_bind; [apply stores_text_fields|apply stores_fixed].
Qed.

(** A buffer between rows. *)
Definition between_rows (cols : list column) (b : Buffer) : Prop :=
  m_fixed_length b = text_fixed_length w cols ∧ text_fixed_length w cols ≤ m_capacity b ∧
  0 < m_capacity b ∧ (Z.of_nat (m_capacity b) < 2 ^ 64)%Z.

Lemma text_write_row_spec row b :
  between_rows row.*1 b → fits (text_fixed_length w row.*1 + row_cost row) →
  ∃ b', text_write_row w row b = Some b' ∧ m_data b' = text_row row ∧ between_rows row.*1 b'.
Proof.
  intros (Hx & Hc & Hpos & Hcap) Hfit.
  destruct (stores_text_row row (clear b)) as (b' & E & [Hok ?] & ? & ? & Hd & Hx' & ? & ?);
    [unfold buffer_ok; simpl; lia|done|simpl; lia|simpl; by rewrite Hx|].
  exists b'. simpl in *. unfold between_rows. split_and!; [done|done|congruence|lia|lia|done].
Qed.
End text.

Section dialect.
Context (T : dialect_traits).

Definition dialect_data (col : column) (data : str) : str :=
  match needs_escape col with
  | FULL => match t_fields_escaped_by T with [] => data | e :: _ => data ≫= dialect_escape T e end
  | BASE64 => base64_lines (S (length data)) data
  | NONE => data
  end.

Definition dialect_quote (col : column) : str :=
  if dialect_quotes T col then take 1 (t_fields_enclosed_by T) else [].

Definition dialect_null : str :=
  match t_fields_escaped_by T with [] => $"NULL" | e :: _ => e :: $"N" end.

Definition dialect_field (col : column) (data : option str) : str :=
  match data with
  | Some bytes =>
      if field_is_null col data then dialect_null else dialect_quote col ++ dialect_data col bytes ++ dialect_quote col
  | None => dialect_null
  end.

Fixpoint dialect_fields (first : bool) (row : list (column * option str)) : str :=
  match row with
  | [] => []
  | (col, data) :: row =>
      (if first then [] else take 1 (t_fields_terminated_by T)) ++ dialect_field col data ++ dialect_fields false row
  end.

Definition dialect_row (row : list (column * option str)) : str :=
  dialect_fields true row ++ t_lines_terminated_by T.

Definition dialect_field_cost (data : option str) : nat := 4 + 2 * length (default [] data).

Lemma stores_dialect_data col data : stores (dialect_store_data T col data) (dialect_data col data) 0 (2 * length data).
Proof.
  unfold dialect_store_data, dialect_data, dialect_store_escaped, dialect_store_raw.
  assert (∀ c e, length (dialect_escape T e c) ≤ 2) as He
    by (intros c e; unfold dialect_escape; repeat case_match; simpl; lia).
  destruct (needs_escape col); [|destruct (t_fields_escaped_by T) as [|e l]|].
  - eapply stores_weaken; [by apply (stores_write (length data))|lia|lia].
  - eapply stores_weaken; [by apply (stores_write (length data))|lia|lia].
  - apply stores_announced; [by apply escape_length|]. intros b Hb. by apply escape_loop_spec.
  - eapply stores_weaken; [apply stores_base64|lia|lia].
Qed.

Lemma stores_dialect_quote col : stores (dialect_quote_field T col) (dialect_quote col) (length (dialect_quote col)) 0.
Proof.
  unfold dialect_quote_field, dialect_quote. destruct (t_fields_enclosed_by T) as [|c l], (dialect_quotes T col); simpl;
    try apply stores_some. rewrite take_0. apply (stores_fixed [c]).
Qed.

Lemma stores_dialect_null : stores (dialect_store_null T) dialect_null 0 4.
Proof.
  unfold dialect_store_null, dialect_null. destruct (t_fields_escaped_by T) as [|e l]; [by apply stores_write|].
  eapply stores_weaken; [apply (stores_announced 2); [simpl; lia|]|lia|lia]. intros b Hb.
  rewrite (buffer_append_spec [e] 1) by (simpl; lia). cbn [mbind option_bind].
  rewrite (buffer_append_spec _ 1) by (simpl; rewrite ?length_app; simpl; lia). simpl. by rewrite <- (assoc_L (++)).
Qed.

Lemma stores_dialect_finish terminator : stores (dialect_finish_row terminator) terminator (length terminator) 0.
Proof.
  induction terminator as [|c l IH]; simpl; [apply stores_some|].
  change (c :: l) with ([c] ++ l). apply (stores_bind _ _ [c] l 1 (length l) 0 0); [apply (stores_fixed [c])|done].
Qed.

Lemma stores_dialect_field first col data :
  stores (dialect_store_field T first col data)
    ((if first then [] else take 1 (t_fields_terminated_by T)) ++ dialect_field col data)
    ((if first then 0 else 1) + 2 * length (dialect_quote col)) (dialect_field_cost data).
Proof.
  unfold dialect_store_field, dialect_field_cost.
  apply (stores_bind (λ b, if first then Some b else append_fixed (take 1 (t_fields_terminated_by T)) b) _ _ _ _ _ 0
           (4 + 2 * length (default [] data))).
  { destruct first; [apply stores_some|]. eapply stores_weaken; [apply stores_fixed|rewrite length_take; lia|lia]. }
  unfold dialect_field. destruct data as [bytes|]; [destruct (field_is_null col (Some bytes))|];
    [eapply stores_weaken; [apply stores_dialect_null|lia..]| |eapply stores_weaken; [apply stores_dialect_null|lia..]].
  eapply (stores_weaken _ _ (length (dialect_quote col) + (0 + length (dialect_quote col))) (0 + (2 * length bytes + 0)));
    [|lia|simpl; lia].
  apply stores_bind; [apply stores_dialect_quote|]. apply stores_bind; [apply stores_dialect_data|apply stores_dialect_quote].
Qed.

Definition dialect_fields_fixed (first : bool) (cols : list column) : nat :=
  (if first then length cols - 1 else length cols) + sum_list_with (λ col, 2 * length (dialect_quote col)) cols.

Lemma stores_dialect_fields first row :
  stores (dialect_store_fields T first row) (dialect_fields first row) (dialect_fields_fixed first row.*1)
    (sum_list_with dialect_field_cost row.*2).
Proof.
  revert first. induction row as [|[col data] row IH]; intros first; csimpl.
  { eapply stores_weaken; [apply stores_some|lia..]. }
  rewrite (assoc_L (++)). eapply stores_weaken; [apply stores_bind; [apply stores_dialect_field|apply IH]| |done].
  unfold dialect_fields_fixed. csimpl. destruct first; simpl; lia.
Qed.

Lemma dialect_fixed_length_le cols :
  dialect_fields_fixed true cols + length (t_lines_terminated_by T) ≤ dialect_fixed_length T cols.
Proof.
  unfold dialect_fixed_length, dialect_fields_fixed.
  assert (sum_list_with (λ col, 2 * length (dialect_quote col)) cols ≤
    sum_list_with (λ col, if dialect_quotes T col then 2 * length (t_fields_enclosed_by T) else 0) cols).
  { induction cols as [|col cols IH]; [done|]. cbn [sum_list_with]. unfold dialect_quote at 1.
    destruct (dialect_quotes T col); [rewrite length_take|cbn [length]]; lia. }
  case_bool_decide; [|destruct cols; simpl in *]; lia.
Qed.

Definition dialect_row_cost (row : list (column * option str)) : nat := sum_list_with dialect_field_cost row.*2.

Lemma stores_dialect_row row :
  stores (dialect_store_row T row) (dialect_row row) (dialect_fixed_length T row.*1) (dialect_row_cost row).
Proof.
  eapply stores_weaken; [|apply dialect_fixed_length_le|reflexivity].
  replace (dialect_row_cost row) with (dialect_row_cost row + 0) by lia.
  apply stores_bind; [apply stores_dialect_fields|apply stores_dialect_finish].
Qed.
End dialect.

(** ** Rows one after the other *)

(** The contents of the buffer for each of the rows. *)
Fixpoint write_rows (f : list (column * option str) → Buffer → option Buffer) (rows : list (list (column * option str)))
    (b : Buffer) : option (list str) :=
  match rows with
  | [] => Some []
  | row :: rows => b ← f row b; out ← write_rows f rows b; Some (m_data b :: out)
  end.

(** A row of a table with columns [cols], whose size does not overflow. *)
Definition row_ok (cols : list column) (fixed : nat) (row : list (column * option str)) : Prop :=
  row.*1 = cols ∧ fits (fixed + length row * 8 + sum_list_with (λ data, 2 * length (default [] data)) row.*2).

(** Writers that clear the buffer and store a row. *)
Lemma write_rows_spec (f : list (column * option str) → Buffer → option Buffer) (text : list (column * option str) → str)
    (fixed : nat) (cost : list (column * option str) → nat) rows b :
  (∀ row, row ∈ rows → stores (f row) (text row) fixed (cost row) ∧ fits (fixed + cost row)) →
  m_fixed_length b = fixed → fixed ≤ m_capacity b → 0 < m_capacity b → (Z.of_nat (m_capacity b) < 2 ^ 64)%Z →
  write_rows (λ row b, f row (clear b)) rows b = Some (text <$> rows).
Proof.
  revert b. induction rows as [|row rows IH]; intros b Hf Hx Hc Hpos Hcap; [done|]. cbn [write_rows].
  destruct (Hf row) as [Hs Hfit]; [set_solver|].
  destruct (Hs (clear b)) as (b' & -> & [Hok ?] & ? & ? & Hd & Hx' & ? & ?);
    [unfold buffer_ok; simpl; lia|done|simpl; lia|simpl; by rewrite Hx|].
  cbn [mbind option_bind]. simpl in *. rewrite IH; [|intros; apply Hf; set_solver|congruence|lia|lia|lia].
  csimpl. by rewrite Hd.
Qed.

(** [set_fixed_length] of a new buffer. *)
Lemma set_fixed_length_new n :
  fits n → ∃ b, set_fixed_length n make_Buffer = Some b ∧ m_fixed_length b = n ∧ n ≤ m_capacity b ∧
    0 < m_capacity b ∧ (Z.of_nat (m_capacity b) < 2 ^ 64)%Z.
Proof.
  intros Hn. unfold set_fixed_length.
  destruct (will_write_spec n make_Buffer) as (c & -> & ? & ? & ?); simpl in *; [split; simpl; lia|lia|done|].
  cbn [mbind option_bind]. eexists. split; [done|]. simpl. lia.
Qed.

(** *** The named dialects *)

Definition named_dialects : list (dialect_traits * Dialect) :=
  [(default_traits, default_); (json_traits, json); (csv_traits, csv); (tsv_traits, tsv); (csv_unix_traits, csv_unix)].

(** Data as TO_BASE64 returns it: one line, or a first line of 76 characters. *)
Definition base64_ok (T : dialect_traits) (data : str) : Prop :=
  match t_fields_escaped_by T with
  | [] => length data ≤ 76
  | _ => length data ≤ 76 ∧ Forall (λ c, c ∈ k_base64_types_alphabet) data ∨ data !! 76 = Some newline
  end.

Lemma base64_lines_short fuel data : 0 < fuel → length data ≤ 76 → base64_lines fuel data = data.
Proof. intros. destruct fuel; [lia|]. simpl. by rewrite bool_decide_eq_false_2 by lia. Qed.

Lemma escape_alphabet (f : ascii → str) (alphabet data : str) :
  forallb (λ c, bool_decide (f c = [c])) alphabet = true → Forall (λ c, c ∈ alphabet) data → data ≫= f = data.
Proof.
  intros Ha. induction 1 as [|c data Hc _ IH]; [done|]. csimpl. rewrite IH.
  rewrite forallb_forall in Ha. specialize (Ha c). rewrite <- list_elem_of_In in Ha.
  specialize (Ha Hc). apply bool_decide_eq_true in Ha. by rewrite Ha.
Qed.

(** What a writer of a named dialect has in common with the one of any dialect. *)
Record same_writer (T : dialect_traits) (w : Text_dump_writer) : Prop := {
  sw_escape : m_escape w = negb (bool_decide (t_fields_escaped_by T = []));
  sw_null : dialect_null T = m_null w;
  sw_chars e l : t_fields_escaped_by T = e :: l → ∀ c, dialect_escape T e c = text_escape w c;
  sw_base64 : m_escape w = true → forallb (λ c, bool_decide (text_escape w c = [c])) k_base64_types_alphabet = true;
  sw_quotes col : dialect_quotes T col = text_quotes w col;
  sw_enclosed : take 1 (t_fields_enclosed_by T) = fields_enclosed_by (m_dialect w);
  sw_terminated : take 1 (t_fields_terminated_by T) = fields_terminated_by (m_dialect w);
  sw_lines : t_lines_terminated_by T = m_line_terminator w;
  sw_starting : lines_starting_by (m_dialect w) = [];
  sw_needs : m_numbers_need_escape w = NONE ∧ m_base64_need_escape w = BASE64 ∧ m_hex_need_escape w = NONE;
  sw_null_length : length (m_null w) ≤ 4;
}.

Lemma named_same_writer T d : (T, d) ∈ named_dialects → same_writer T (make_Text_dump_writer d).
Proof.
  intros H. unfold named_dialects in H. repeat (apply elem_of_cons in H as [H|H]; [simplify_eq; clear|]);
    [..|by apply not_elem_of_nil in H]; constructor; try (vm_compute; reflexivity); try done; simpl;
    try (intros e l [= <- <-] c; by_bytes c);
    try (simpl; lia).
Qed.

Section same.
Context (T : dialect_traits) (w : Text_dump_writer) (Hw : same_writer T w).

(** Base64 fields have the format of the server. *)
Definition base64_fields_ok (row : list (column * option str)) : Prop :=
  Forall (λ x, ∀ data, x.2 = Some data → needs_escape x.1 = BASE64 → base64_ok T data) row.

Lemma same_data col data :
  (needs_escape col = BASE64 → base64_ok T data) → dialect_data T col data = text_data w col data.
Proof.
  intros Hb. unfold dialect_data, text_data. rewrite (sw_escape _ _ Hw).
  destruct (t_fields_escaped_by T) as [|e l] eqn:Ee; simpl.
  - destruct (needs_escape col); [done|done|]. specialize (Hb eq_refl). unfold base64_ok in Hb. rewrite Ee in Hb.
    by apply (base64_lines_short (S (length data))); [lia|].
  - destruct (needs_escape col); simpl; [done| |].
    + induction data as [|c data IH]; [done|]. csimpl. rewrite IH by done. by rewrite (sw_chars _ _ Hw e l Ee).
    + specialize (Hb eq_refl). unfold base64_ok in Hb. rewrite Ee in Hb.
      destruct Hb as [[Hlen Ha]|Hnl].
      * destruct (decide (length data < 76)).
        { by rewrite (bool_decide_eq_true_2 (length data < 76)). }
        rewrite (bool_decide_eq_false_2 (length data < 76)) by done.
        rewrite lookup_ge_None_2 by lia. cbn [orb default].
        rewrite (bool_decide_eq_false_2 ("000"%char = newline)) by (unfold newline; discriminate).
        change (base64_lines (S (length data)) data = data ≫= text_escape w).
        rewrite base64_lines_short by lia. symmetry.
        eapply escape_alphabet; [|exact Ha]. apply (sw_base64 _ _ Hw).
        rewrite (sw_escape _ _ Hw), Ee. done.
      * rewrite Hnl. simpl default. rewrite (bool_decide_eq_true_2 (newline = newline)) by done. by rewrite orb_true_r.
Qed.

Lemma same_row row : base64_fields_ok row → dialect_row T row = text_row w row.
Proof.
  intros Hok. unfold dialect_row, text_row. rewrite (sw_starting _ _ Hw), (sw_lines _ _ Hw). simpl. f_equal.
  generalize true as first. induction Hok as [|[col data] row Hd _ IH]; intros first; [done|]. cbn [dialect_fields text_fields].
  rewrite IH. f_equal; [by destruct first; [|apply (sw_terminated _ _ Hw)]|f_equal].
  unfold dialect_field, text_field, dialect_quote, text_quote.
  rewrite (sw_null _ _ Hw), (sw_enclosed _ _ Hw), (sw_quotes _ _ Hw).
  destruct data as [bytes|]; [|done]. rewrite same_data; [done|]. intros. by apply Hd.
Qed.

Lemma same_columns types encodings : text_columns w types encodings = dialect_columns types encodings.
Proof. unfold text_columns, dialect_columns. by destruct (sw_needs _ _ Hw) as (-> & -> & ->). Qed.
End same.

(** A row of a table, small enough for the arithmetic of the buffer not to overflow. *)
Lemma row_ok_cost cols fixed row (cost : option str → nat) :
  row_ok cols fixed row → (∀ data, cost data ≤ 8 + 2 * length (default [] data)) →
  fits (fixed + sum_list_with cost row.*2).
Proof.
  intros [_ Hfit] Hc. unfold fits in *.
  set (g := λ data : option str, 2 * length (default [] data)) in *.
  assert (∀ data, cost data ≤ 8 + g data) as Hg by done. clearbody g. clear Hc.
  assert (sum_list_with cost row.*2 ≤ length row * 8 + sum_list_with g row.*2); [|lia].
  clear Hfit. induction row as [|[col data] row IH]; [done|]. csimpl. specialize (Hg data). lia.
Qed.

(** ** Theorems *)

(** C28: Dialect_dump_writer, instantiated for a named dialect, writes the same bytes as
    the Text_dump_writer of that dialect, and both stay within their buffers, for all rows
    of at most 2^63 bytes whose Base64 data are as TO_BASE64 returns them: a single line
    of at most 76 characters of the Base64 alphabet or, in the dialects with FIELDS
    ESCAPED BY, more text whose first line has 76 characters. *)
Theorem dialect_writers_equal (T : dialect_traits) (d : Dialect) (types : list Type_) (encodings : list Encoding_type)
    (rows : list (list (column * option str))) :
  let w := make_Text_dump_writer d in
  let cols := dialect_columns types encodings in
  (T, d) ∈ named_dialects → fits (dialect_fixed_length T cols) → fits (text_fixed_length w cols) →
  Forall (λ row, row_ok cols (dialect_fixed_length T cols) row ∧ row_ok cols (text_fixed_length w cols) row ∧
                 base64_fields_ok T row) rows →
  ∃ b1 b2, dialect_read_metadata T types encodings make_Buffer = Some (cols, b1) ∧
    text_read_metadata w types encodings make_Buffer = Some (cols, b2) ∧
    write_rows (dialect_write_row T) rows b1 = Some (text_row w <$> rows) ∧
    write_rows (text_write_row w) rows b2 = Some (text_row w <$> rows).
Proof.
  intros w cols Hn Hf1 Hf2 Hrows. pose proof (named_same_writer T d Hn) as Hw. fold w in Hw.
  destruct (set_fixed_length_new _ Hf1) as (b1 & E1 & ? & ? & ? & ?).
  destruct (set_fixed_length_new _ Hf2) as (b2 & E2 & ? & ? & ? & ?).
  exists b1, b2. split_and!.
  - unfold dialect_read_metadata. fold cols. by rewrite E1.
  - unfold text_read_metadata. rewrite (same_columns T w Hw). fold cols. by rewrite E2.
  - transitivity (Some (dialect_row T <$> rows)).
    + eapply (write_rows_spec _ _ _ (dialect_row_cost)); try done. intros row Hrow.
      destruct (proj1 (Forall_forall _ _) Hrows row Hrow) as (Hr & _ & _). split.
      * destruct Hr as [<- _]. apply stores_dialect_row.
      * eapply row_ok_cost; [exact Hr|]. intros data. unfold dialect_field_cost. lia.
    + f_equal. apply list_fmap_ext. intros i row Hrow. apply same_row; [done|].
      eapply Forall_lookup in Hrow; [|exact Hrows]. by destruct Hrow as (_ & _ & ?).
  - eapply (write_rows_spec _ _ _ (row_cost w)); try done. intros row Hrow.
    destruct (proj1 (Forall_forall _ _) Hrows row Hrow) as (_ & Hr & _). split.
    + destruct Hr as [<- _]. apply stores_text_row.
    + eapply row_ok_cost; [exact Hr|]. intros data. unfold field_cost. pose proof (sw_null_length _ _ Hw). lia.
Qed.

(** An identifier, a text and a picture. *)
Definition sample_types : list Type_ := [Integer; String_; Bytes].
Definition sample_encodings : list Encoding_type := [Encoding_NONE; Encoding_NONE; Encoding_BASE64].
Definition sample_rows : list (list (column * option str)) :=
  [zip (dialect_columns sample_types sample_encodings) [Some ($"1"); Some ([dquote] ++ $"x," ++ [newline]); Some ($"AAEC")];
   zip (dialect_columns sample_types sample_encodings) [Some ($"-2"); None; None]].

Lemma dialect_writers_equal_witness :
  ∃ b1 b2, dialect_read_metadata csv_traits sample_types sample_encodings make_Buffer =
      Some (dialect_columns sample_types sample_encodings, b1) ∧
    text_read_metadata (make_Text_dump_writer csv) sample_types sample_encodings make_Buffer =
      Some (dialect_columns sample_types sample_encodings, b2) ∧
    write_rows (dialect_write_row csv_traits) sample_rows b1 = write_rows (text_write_row (make_Text_dump_writer csv)) sample_rows b2.
Proof.
  destruct (dialect_writers_equal csv_traits csv sample_types sample_encodings sample_rows) as (b1 & b2 & H1 & H2 & H3 & H4).
  - unfold named_dialects. set_solver.
  - vm_compute. discriminate.
  - vm_compute. discriminate.
  - assert (base64_ok csv_traits ($"AAEC")) as Hb.
    { left. split; [vm_compute; lia|]. unfold k_base64_types_alphabet. repeat constructor; vm_compute; set_solver. }
    apply Forall_cons_2; [|apply Forall_cons_2; [|apply Forall_nil_2]].
    all: split; [split; [reflexivity|vm_compute; discriminate]|].
    all: split; [split; [reflexivity|vm_compute; discriminate]|].
    all: apply Forall_cons_2; [|apply Forall_cons_2; [|apply Forall_cons_2; [|apply Forall_nil_2]]].
    all: intros data Hd He; try discriminate.
    injection Hd as <-. exact Hb.
  - exists b1, b2. split; [exact H1|]. split; [exact H2|]. by rewrite H3, H4.
Defined.

Example sample_csv :
  text_row (make_Text_dump_writer csv) <$> sample_rows =
    [$"1," ++ [dquote; backslash; dquote] ++ $"x\,\n" ++ [dquote] ++ $"," ++ [dquote] ++ $"AAEC" ++ [dquote; carriage_return; newline];
     $"-2,\N,\N" ++ [carriage_return; newline]].
Proof. vm_compute. reflexivity. Qed.

(** A text of two lines of Base64, and the dialect of [json] with a comma. *)
Definition two_lines : str := replicate 76 "A"%char ++ [newline] ++ $"AAAA".
Definition base64_column : column := make_column NONE BASE64 NONE Bytes (Some Encoding_BASE64).

(** Without an escape character, the specialised writer removes the line breaks of Base64
    data, but the writer for any dialect leaves them in: a row of the JSON dialect then has
    a line terminator inside a field. *)
Theorem base64_lines_kept :
  dialect_row json_traits [(base64_column, Some two_lines)] = replicate 80 "A"%char ++ [newline] ∧
  text_row (make_Text_dump_writer json) [(base64_column, Some two_lines)] = two_lines ++ [newline].
Proof. vm_compute. split; reflexivity. Qed.
