(* ===== verification/DumpIndex.v ===== *)
(** * Data files of a dump and their index

    Model of [modules/util/dump/dump_writer.{h,cc}] (classes [Dump_write_result] and
    [Dump_writer]), of the byte order of [mysqlshdk/libs/utils/utils_net.cc], and of the class
    [Index_file] of [modules/util/load/dump_reader.cc], which reads the index again.

    The writers that derive from [Dump_writer] are instances of [Row_writer], the output
    file and the index file instances of [Output_file]: what [storage::IFile] offers to a
    writer.  A write can fail or be cut short; the code looks at the result of a write to the
    output, and takes a number that is not negative for success, and ignores the result of a
    write to the index.  A failed assertion is [None], an exception [Throw]. *)
From S2P Require Import Prelude UtilsString DumpWriter.

Open Scope Z_scope.

(** ** Interfaces *)

(** The virtual functions of [Dump_writer]. *)
Class Row_writer (Row : Type) := {
  store_preamble : Buffer → option Buffer;
  store_row : Row → Buffer → option Buffer;
  store_postamble : Buffer → option Buffer;
}.

(** [IFile::open] for writing, which truncates the file, [IFile::write], and what
    [Compressed_file] adds; [file_text] is what a reader will see.  Nothing is said of what
    is in the file after a write: see [complete_write]. *)
Class Output_file (F : Type) := {
  file_open : F → F;
  file_write : str → F → Z * F;
  file_text : F → str;
  latest_io_size : F → option Z;
  file_open_ok f : file_text (file_open f) = [];
}.

(** ** Byte order: the host is little-endian *)

(** [htonl] and [ntohl] *)
Definition swap32 (v : Z) : Z :=
  Z.lor (Z.lor (Z.shiftl (Z.land v 0xFF) 24) (Z.shiftl (Z.land (Z.shiftr v 8) 0xFF) 16))
        (Z.lor (Z.shiftl (Z.land (Z.shiftr v 16) 0xFF) 8) (Z.land (Z.shiftr v 24) 0xFF)).

Definition host_to_network (v : Z) : Z :=
  Z.lor (u64 (Z.shiftl (swap32 (Z.land v 0xFFFFFFFF)) 32)) (swap32 (u32 (Z.shiftr v 32))).

Definition network_to_host (v : Z) : Z :=
  Z.lor (u64 (Z.shiftl (swap32 (Z.land v 0xFFFFFFFF)) 32)) (swap32 (u32 (Z.shiftr v 32))).

(** The object representation of a [uint64_t]. *)
Fixpoint bytes_of (n : nat) (v : Z) : str :=
  match n with
  | O => []
  | S n => byte_of (Z.land v 0xFF) :: bytes_of n (Z.shiftr v 8)
  end.

Fixpoint value_of (s : str) : Z :=
  match s with
  | [] => 0
  | c :: s => Z.lor (uch c) (Z.shiftl (value_of s) 8)
  end.

(** ** [Dump_write_result] *)

Record Dump_write_result := { m_data_bytes : Z; m_result_bytes_written : Z; m_rows_written : Z }.

Definition empty_result : Dump_write_result :=
  {| m_data_bytes := 0; m_result_bytes_written := 0; m_rows_written := 0 |}.

(** [operator+=] *)
Definition add_result (lhs rhs : Dump_write_result) : Dump_write_result :=
  {| m_data_bytes := u64 (m_data_bytes lhs + m_data_bytes rhs);
     m_result_bytes_written := u64 (m_result_bytes_written lhs + m_result_bytes_written rhs);
     m_rows_written := u64 (m_rows_written lhs + m_rows_written rhs) |}.

Definition write_data (bytes : Z) (r : Dump_write_result) : Dump_write_result :=
  {| m_data_bytes := u64 (m_data_bytes r + bytes); m_result_bytes_written := m_result_bytes_written r;
     m_rows_written := m_rows_written r |}.

Definition write_bytes (bytes : Z) (r : Dump_write_result) : Dump_write_result :=
  {| m_data_bytes := m_data_bytes r; m_result_bytes_written := u64 (m_result_bytes_written r + bytes);
     m_rows_written := m_rows_written r |}.

Definition result_write_row (r : Dump_write_result) : Dump_write_result :=
  {| m_data_bytes := m_data_bytes r; m_result_bytes_written := m_result_bytes_written r;
     m_rows_written := u64 (m_rows_written r + 1) |}.

(** ** [Dump_writer] *)

Definition k_write_idx_every : Z := 1024 * 1024.

Record index_file (G : Type) := { idx_open : bool; idx_file : G }.
Arguments idx_open {G}.
Arguments idx_file {G}.

Section dump_writer.
Context {F G Row : Type} `{Output_file F} `{Output_file G} `{Row_writer Row}.

Record Dump_writer := {
  m_output : F;
  m_index : option (index_file G);
  m_buffer : Buffer;
  m_bytes_written : Z;
  m_bytes_written_per_idx : Z;
}.

Definition make_Dump_writer (output : F) (index : option (index_file G)) : Dump_writer :=
  {| m_output := output; m_index := index; m_buffer := make_Buffer; m_bytes_written := 0;
     m_bytes_written_per_idx := 0 |}.

Definition set_buffer (b : Buffer) (w : Dump_writer) : Dump_writer :=
  {| m_output := m_output w; m_index := m_index w; m_buffer := b; m_bytes_written := m_bytes_written w;
     m_bytes_written_per_idx := m_bytes_written_per_idx w |}.

Definition set_output (f : F) (w : Dump_writer) : Dump_writer :=
  {| m_output := f; m_index := m_index w; m_buffer := m_buffer w; m_bytes_written := m_bytes_written w;
     m_bytes_written_per_idx := m_bytes_written_per_idx w |}.

Definition set_index (i : option (index_file G)) (w : Dump_writer) : Dump_writer :=
  {| m_output := m_output w; m_index := i; m_buffer := m_buffer w; m_bytes_written := m_bytes_written w;
     m_bytes_written_per_idx := m_bytes_written_per_idx w |}.

Definition set_bytes (total per_idx : Z) (w : Dump_writer) : Dump_writer :=
  {| m_output := m_output w; m_index := m_index w; m_buffer := m_buffer w; m_bytes_written := total;
     m_bytes_written_per_idx := per_idx |}.

(** The entry is the offset in the order of the network; the result of the write is
    ignored. *)
Definition index_entry (offset : Z) : str := bytes_of 8 (host_to_network offset).

Definition write_index (w : Dump_writer) : option Dump_writer :=
  i ← m_index w;
  let '(_, file) := file_write (index_entry (m_bytes_written w)) (idx_file i) in
  Some (set_index (Some {| idx_open := idx_open i; idx_file := file |}) w).

Definition open (w : Dump_writer) : Dump_writer :=
  match m_index w with
  | Some i => if idx_open i then w else set_index (Some {| idx_open := true; idx_file := file_open (idx_file i) |}) w
  | None => w
  end.

Definition close (w : Dump_writer) : option Dump_writer :=
  match m_index w with
  | Some i =>
      if idx_open i then
        w ← write_index w;
        i ← m_index w;
        Some (set_index (Some {| idx_open := false; idx_file := idx_file i |}) w)
      else Some w
  | None => Some w
  end.

Definition write_failed : exn := shcore_exception "SHERR_DUMP_DW_WRITE_FAILED".

Definition write_buffer (row : bool) (w : Dump_writer) : result (Dump_write_result * Dump_writer) :=
  let data := m_data (m_buffer w) in
  let r := write_data (Z.of_nat (length data)) empty_result in
  let r := if row then result_write_row r else r in
  if 0 <? m_data_bytes r then
    let '(bytes_written, f) := file_write data (m_output w) in
    if bytes_written <? 0 then Throw write_failed
    else Ok (write_bytes (default bytes_written (latest_io_size f)) r, set_output f w)
  else Ok (r, w).

(** [buffer()->clear(); store_...(...); return write_buffer(...);] *)
Definition write_stored (store : Buffer → option Buffer) (row : bool) (w : Dump_writer)
    : option (result (Dump_write_result * Dump_writer)) :=
  b ← store (clear (m_buffer w));
  Some (write_buffer row (set_buffer b w)).

Definition write_preamble : Dump_writer → option (result (Dump_write_result * Dump_writer)) :=
  write_stored store_preamble false.

Definition write_postamble : Dump_writer → option (result (Dump_write_result * Dump_writer)) :=
  write_stored store_postamble false.

Definition write_row (row : Row) (w : Dump_writer) : option (result (Dump_write_result * Dump_writer)) :=
  r ← write_stored (store_row row) true w;
  match r with
  | Throw e => Some (Throw e)
  | Ok (r, w) =>
      let w := set_bytes (u64 (m_bytes_written w + m_data_bytes r))
                         (u64 (m_bytes_written_per_idx w + m_data_bytes r)) w in
      if bool_decide (is_Some (m_index w)) && (k_write_idx_every <=? m_bytes_written_per_idx w) then
        w ← write_index w;
        Some (Ok (r, set_bytes (m_bytes_written w) (m_bytes_written_per_idx w mod k_write_idx_every) w))
      else Some (Ok (r, w))
  end.

(** The calls that write a whole file: [open], the preamble, the rows, the postamble and
    [close], with the sum of their results. *)
Fixpoint write_all_rows (rows : list Row) (total : Dump_write_result) (w : Dump_writer)
    : option (result (Dump_write_result * Dump_writer)) :=
  match rows with
  | [] => Some (Ok (total, w))
  | row :: rows =>
      r ← write_row row w;
      match r with
      | Throw e => Some (Throw e)
      | Ok (r, w) => write_all_rows rows (add_result total r) w
      end
  end.

Definition write_file (rows : list Row) (w : Dump_writer) : option (result (Dump_write_result * Dump_writer)) :=
  r ← write_preamble (open w);
  match r with
  | Throw e => Some (Throw e)
  | Ok (r, w) =>
      r ← write_all_rows rows r w;
      match r with
      | Throw e => Some (Throw e)
      | Ok (total, w) =>
          r ← write_postamble w;
          match r with
          | Throw e => Some (Throw e)
          | Ok (r, w) => w ← close w; Some (Ok (add_result total r, w))
          end
      end
  end.
End dump_writer.

Arguments Dump_writer F G : clear implicits.

(** ** [Index_file] *)

Definition k_entry_size : nat := 8.

Record Index_file := {
  m_idx_file : str;
  m_file_size : nat;
  m_entries : nat;
  m_data_size : Z;
  m_metadata_loaded : bool;
}.

Definition make_Index_file (file : str) : Index_file :=
  {| m_idx_file := file; m_file_size := 0; m_entries := 0; m_data_size := 0; m_metadata_loaded := false |}.

Definition load_metadata (i : Index_file) : Index_file :=
  if m_metadata_loaded i then i
  else
    let file_size := length (m_idx_file i) in
    if negb (bool_decide (file_size `mod` k_entry_size = 0)%nat) || bool_decide (file_size < k_entry_size)%nat then
      {| m_idx_file := m_idx_file i; m_file_size := file_size; m_entries := m_entries i;
         m_data_size := m_data_size i; m_metadata_loaded := false |}
    else
      {| m_idx_file := m_idx_file i; m_file_size := file_size; m_entries := (file_size / k_entry_size)%nat;
         m_data_size := network_to_host (value_of (take k_entry_size (drop (file_size - k_entry_size) (m_idx_file i))));
         m_metadata_loaded := true |}.

Definition data_size (i : Index_file) : Z * Index_file :=
  let i := load_metadata i in (m_data_size i, i).
