(* ===== verification/DumpIndexFacts.v ===== *)
(** * Data files of a dump and their index: theorems

    The output file receives the texts of the rows, and the index the offsets at which a
    multiple of [k_write_idx_every] has been passed, and the size at the end, which the loader
    reads back; provided that the output reports failed writes with negative numbers and that
    the writes to the index succeed, which the code does not look at. *)
From S2P Require Import Prelude UtilsString Lexing Dialect DumpWriter DumpWriterFacts DumpIndex.

Open Scope Z_scope.

(** ** Byte order *)

(** Powers of two as numerals, for [lia]. *)
Ltac powers :=
  repeat match goal with
  | |- context [2 ^ Zpos ?p] => let v := eval vm_compute in (2 ^ Zpos p) in change (2 ^ Zpos p) with v
  | H : context [2 ^ Zpos ?p] |- _ => let v := eval vm_compute in (2 ^ Zpos p) in change (2 ^ Zpos p) with v in H
  end; Z.div_mod_to_equations; lia.

Lemma swap32_eq v :
  swap32 v = v mod 2^8 * 2^24 + v / 2^8 mod 2^8 * 2^16 + v / 2^16 mod 2^8 * 2^8 + v / 2^24 mod 2^8.
Proof.
  unfold swap32. change 255 with (Z.ones 8). rewrite !Z.land_ones, !Z.shiftl_mul_pow2, !Z.shiftr_div_pow2 by lia.
  rewrite (lor_add (v mod 2^8 * 2^24) _ 24), (lor_add (v / 2^16 mod 2^8 * 2^8) _ 8), (lor_add (_ + _) _ 16); powers.
Qed.

Lemma swap32_bytes a b c d :
  0 <= a < 2^8 → 0 <= b < 2^8 → 0 <= c < 2^8 → 0 <= d < 2^8 →
  swap32 (a + b * 2^8 + c * 2^16 + d * 2^24) = d + c * 2^8 + b * 2^16 + a * 2^24.
Proof.
  intros. rewrite swap32_eq. set (v := a + _ + _ + _).
  assert (v mod 2^8 = a) as -> by powers. assert (v / 2^8 mod 2^8 = b) as -> by powers.
  assert (v / 2^16 mod 2^8 = c) as -> by powers. assert (v / 2^24 mod 2^8 = d) as -> by powers. lia.
Qed.

Lemma swap32_roundtrip v : 0 <= v < 2^32 → 0 <= swap32 v < 2^32 ∧ swap32 (swap32 v) = v.
Proof.
  intros Hv. assert (∃ a b c d, 0 <= a < 2^8 ∧ 0 <= b < 2^8 ∧ 0 <= c < 2^8 ∧ 0 <= d < 2^8 ∧
    v = a + b * 2^8 + c * 2^16 + d * 2^24) as (a & b & c & d & ? & ? & ? & ? & ->).
  { exists (v mod 2^8), (v / 2^8 mod 2^8), (v / 2^16 mod 2^8), (v / 2^24). split_and!; powers. }
  rewrite !swap32_bytes by done. split; [powers|done].
Qed.

Lemma host_to_network_eq v :
  0 <= v < 2^64 → host_to_network v = swap32 (v mod 2^32) * 2^32 + swap32 (v / 2^32).
Proof.
  intros Hv. unfold host_to_network. change 0xFFFFFFFF with (Z.ones 32).
  rewrite Z.land_ones, Z.shiftl_mul_pow2, Z.shiftr_div_pow2 by lia.
  destruct (swap32_roundtrip (v mod 2^32)) as [? _]; [powers|].
  destruct (swap32_roundtrip (v / 2^32)) as [? _]; [powers|].
  rewrite u32_small by powers. rewrite u64_small by powers. rewrite (lor_add _ _ 32); powers.
Qed.

Lemma network_host_roundtrip v :
  0 <= v < 2^64 → 0 <= host_to_network v < 2^64 ∧ network_to_host (host_to_network v) = v.
Proof.
  intros Hv. change network_to_host with host_to_network. rewrite (host_to_network_eq v) by done.
  destruct (swap32_roundtrip (v mod 2^32)) as [? E1]; [powers|].
  destruct (swap32_roundtrip (v / 2^32)) as [? E2]; [powers|].
  set (x := swap32 (v mod 2^32)) in *. set (y := swap32 (v / 2^32)) in *.
  assert (0 <= x * 2^32 + y < 2^64) by powers. split; [done|]. rewrite host_to_network_eq by done.
  replace ((x * 2^32 + y) mod 2^32) with y by powers. replace ((x * 2^32 + y) / 2^32) with x by powers.
  rewrite E1, E2. powers.
Qed.

Lemma length_bytes_of n v : length (bytes_of n v) = n.
Proof. revert v. induction n as [|n IH]; intros v; simpl; [done|]. by rewrite IH. Qed.

Lemma value_bytes_of n v : 0 <= v < 2 ^ (8 * Z.of_nat n) → value_of (bytes_of n v) = v.
Proof.
  revert v. induction n as [|n IH]; intros v Hv; simpl; [simpl in Hv; lia|].
  replace (8 * Z.of_nat (S n)) with (8 + 8 * Z.of_nat n) in Hv by lia. rewrite Z.pow_add_r in Hv by lia.
  rewrite IH.
  - rewrite uch_byte_of. change 0xFF with (Z.ones 8). rewrite Z.land_ones, Z.shiftr_div_pow2, Z.shiftl_mul_pow2 by lia.
    rewrite Z.lor_comm, (lor_add _ _ 8); powers.
  - rewrite Z.shiftr_div_pow2 by lia. split; [apply Z.div_pos; lia|]. apply Z.div_lt_upper_bound; lia.
Qed.

Lemma index_entry_spec v :
  0 <= v < 2^64 → length (index_entry v) = 8%nat ∧ network_to_host (value_of (index_entry v)) = v.
Proof.
  intros Hv. unfold index_entry. rewrite length_bytes_of, value_bytes_of by (by apply network_host_roundtrip).
  by destruct (network_host_roundtrip v).
Qed.

(** ** Writing a file *)

(** What a writer of rows promises: in a buffer between rows it stores the text of a row. *)
Class Row_writer_ok (Row : Type) `{Row_writer Row} := {
  row_text : Row → str;
  row_valid : Row → Prop;
  ready : Buffer → Prop;
  preamble_ok : ∃ b, store_preamble (clear make_Buffer) = Some b ∧ m_data b = [] ∧ ready b;
  row_stored row b : ready b → row_valid row →
    ∃ b', store_row row (clear b) = Some b' ∧ m_data b' = row_text row ∧ ready b';
  postamble_ok b : ready b → ∃ b', store_postamble (clear b) = Some b' ∧ m_data b' = [];
}.

(** The offsets in the index: [pos] has been reached, rows of these lengths follow. *)
Fixpoint idx_offsets (pos : Z) (rows : list str) : list Z :=
  match rows with
  | [] => [pos]
  | row :: rows =>
      let next := pos + Z.of_nat (length row) in
      (if pos / k_write_idx_every <? next / k_write_idx_every then [next] else []) ++ idx_offsets next rows
  end.

(** The data has arrived in the file. *)
Definition complete_write `{Output_file F} (data : str) (f : F) : Prop :=
  file_text (file_write data f).2 = file_text f ++ data.

(** The result of a write that did not write all of the data is negative. *)
Definition reports_failures (F : Type) `{Output_file F} : Prop :=
  ∀ data (f : F), 0 <= (file_write data f).1 → complete_write data f.

Definition never_fails (G : Type) `{Output_file G} : Prop := ∀ data (g : G), complete_write data g.

Section writing.
Context {F G Row : Type} `{Output_file F} `{Output_file G} `{Row_writer_ok Row}.
Context (f0 : F) (all : str).

(** The writer has written [text] to the file, and, if its writes succeed, [idx] to the index. *)
Record written (text idx : str) (w : Dump_writer F G) : Prop := {
  written_text : file_text (m_output w) = file_text f0 ++ text;
  written_index : ∃ g, m_index w = Some {| idx_open := true; idx_file := g |} ∧ (never_fails G → file_text g = idx);
  written_ready : ready (m_buffer w);
  written_bytes : m_bytes_written w = Z.of_nat (length text);
  written_per_idx : m_bytes_written_per_idx w = Z.of_nat (length text) mod k_write_idx_every;
}.

(** A call that either does what it should or reports that a write of a piece of the text
    has failed, behind the text before it. *)
Definition outcome {A} (P : A → Prop) (r : option (result A)) : Prop :=
  match r with
  | Some (Ok a) => P a
  | Some (Throw e) => e = write_failed ∧ ∃ data (f : F), (file_write data f).1 < 0 ∧
      file_text f ++ data `prefix_of` file_text f0 ++ all
  | None => False
  end.

Context (Hreports : reports_failures F).

Lemma write_buffer_spec row (w : Dump_writer F G) :
  (Z.of_nat (length (m_data (m_buffer w))) < 2 ^ 64) →
  file_text (m_output w) ++ m_data (m_buffer w) `prefix_of` file_text f0 ++ all →
  outcome (λ '(r, w'), m_data_bytes r = Z.of_nat (length (m_data (m_buffer w))) ∧
      m_rows_written r = (if row : bool then 1 else 0) ∧
      ∃ f, w' = set_output f w ∧ file_text f = file_text (m_output w) ++ m_data (m_buffer w))
    (Some (write_buffer row w)).
Proof.
  intros Hlen Hpre. unfold write_buffer. set (data := m_data (m_buffer w)) in *.
  set (r := if row then result_write_row _ else _).
  assert (m_data_bytes r = Z.of_nat (length data)) as Hb.
  { unfold r. destruct row; simpl; rewrite u64_small; lia. }
  assert (m_rows_written r = if row then 1 else 0) as Hr by (unfold r; by destruct row).
  destruct (Z.ltb_spec 0 (m_data_bytes r)).
  - pose proof (Hreports data (m_output w)) as Hrep. unfold complete_write in Hrep.
    destruct (file_write data (m_output w)) as [n f] eqn:E. destruct (Z.ltb_spec n 0).
    + split; [done|]. exists data, (m_output w). by rewrite E.
    + simpl. split_and!; try done. exists f. split; [done|]. by apply Hrep.
  - simpl. split_and!; try done. exists (m_output w). split; [by destruct w|].
    destruct data; [by rewrite app_nil_r|simpl in *; lia].
Qed.

(** The next row, and the entry of the index it may cause. *)
Lemma write_row_spec text idx w row :
  written text idx w → row_valid row → Z.of_nat (length (text ++ row_text row)) < 2 ^ 64 →
  text ++ row_text row `prefix_of` all →
  outcome (λ '(r, w'), m_data_bytes r = Z.of_nat (length (row_text row)) ∧ m_rows_written r = 1 ∧
      let pos := Z.of_nat (length text) in
      let next := Z.of_nat (length (text ++ row_text row)) in
      written (text ++ row_text row)
        (idx ++ if pos / k_write_idx_every <? next / k_write_idx_every then index_entry next else []) w')
    (write_row row w).
Proof.
  intros [Ht (g & Hi & Hg) Hready Hb Hp] Hrow Hlen Hpre. unfold write_row, write_stored.
  destruct (row_stored row (m_buffer w) Hready Hrow) as (b & -> & Hd & Hready'). cbn [mbind option_bind].
  pose proof (write_buffer_spec true (set_buffer b w)) as Hw. simpl in Hw. rewrite Hd in Hw.
  rewrite length_app in Hlen. specialize (Hw ltac:(lia)). rewrite Ht, <- (assoc_L (++)) in Hw. specialize (Hw (prefix_app _ _ _ Hpre)).
  destruct (write_buffer true (set_buffer b w)) as [[r w']|e]; [|done]. simpl in Hw.
  destruct Hw as (Hr & Hrows & f & -> & Hf). simpl. rewrite Hi, Hr, Hb, Hp, bool_decide_eq_true_2 by done.
  rewrite length_app, Nat2Z.inj_add. set (pos := Z.of_nat (length text)) in *.
  set (n := Z.of_nat (length (row_text row))) in *.
  assert (0 < k_write_idx_every) by done. pose proof (Z.mod_pos_bound pos k_write_idx_every ltac:(done)).
  assert (pos mod k_write_idx_every <= pos) by (apply Z.mod_le; lia).
  rewrite !u64_small by lia. cbn [andb].
  assert (k_write_idx_every <= pos mod k_write_idx_every + n ↔ pos / k_write_idx_every < (pos + n) / k_write_idx_every) as Hidx
    by (unfold k_write_idx_every; Z.div_mod_to_equations; lia).
  destruct (Z.leb_spec k_write_idx_every (pos mod k_write_idx_every + n)).
  - rewrite (proj2 (Z.ltb_lt _ _)) by tauto. unfold write_index. simpl. rewrite Hi. simpl.
    assert (never_fails G → file_text (file_write (index_entry (pos + n)) g).2 = file_text g ++ index_entry (pos + n)) as Hw' by (intros Hnf; apply Hnf).
    destruct (file_write (index_entry (pos + n)) g) as [m g']. simpl in *. split_and!; [done|done|].
    split; simpl; try done; [exists g'; split; [done|]; intros Hnf; by rewrite Hw', Hg by done|by rewrite length_app, Nat2Z.inj_add|].
    by rewrite Zplus_mod_idemp_l, length_app, Nat2Z.inj_add.
  - rewrite (proj2 (Z.ltb_ge _ _)) by lia. simpl. rewrite app_nil_r. split_and!; [done|done|].
    split; simpl; try done; [by exists g|by rewrite length_app, Nat2Z.inj_add|].
    rewrite length_app, Nat2Z.inj_add. fold pos n. unfold k_write_idx_every in *. Z.div_mod_to_equations. lia.
Qed.

Lemma outcome_bind {A B} (P : A → Prop) (Q : B → Prop) (r : option (result A)) (f : A → option (result B)) :
  outcome P r → (∀ a, P a → outcome Q (f a)) →
  outcome Q (r ≫= λ r, match r with Throw e => Some (Throw e) | Ok a => f a end).
Proof. intros Hr Hf. destruct r as [[a|e]|]; simpl in *; [by apply Hf|done|done]. Qed.

Lemma outcome_weaken {A} (P Q : A → Prop) (r : option (result A)) :
  outcome P r → (∀ a, P a → Q a) → outcome Q r.
Proof. intros Hr Hf. destruct r as [[a|e]|]; simpl in *; [by apply Hf|done|done]. Qed.

(** The entries of the index but the last, which [close] writes. *)
Fixpoint crossings (pos : Z) (rows : list str) : list Z :=
  match rows with
  | [] => []
  | row :: rows =>
      let next := pos + Z.of_nat (length row) in
      (if pos / k_write_idx_every <? next / k_write_idx_every then [next] else []) ++ crossings next rows
  end.

Lemma idx_offsets_crossings pos rows :
  idx_offsets pos rows = crossings pos rows ++ [pos + Z.of_nat (length (concat rows))].
Proof.
  revert pos. induction rows as [|row rows IH]; intros pos; simpl; [by rewrite Z.add_0_r|].
  rewrite IH, (assoc_L (++)), length_app. do 2 f_equal. lia.
Qed.

Lemma write_all_rows_spec rows total text idx w :
  written text idx w → Forall row_valid rows → text ++ concat (row_text <$> rows) `prefix_of` all →
  Z.of_nat (length text + length (concat (row_text <$> rows))) < 2 ^ 64 → Z.of_nat (length rows) < 2 ^ 64 →
  m_rows_written total + Z.of_nat (length rows) < 2 ^ 64 → 0 <= m_rows_written total →
  m_data_bytes total = Z.of_nat (length text) →
  outcome (λ '(r, w'), m_data_bytes r = Z.of_nat (length text + length (concat (row_text <$> rows))) ∧
      m_rows_written r = m_rows_written total + Z.of_nat (length rows) ∧
      written (text ++ concat (row_text <$> rows))
        (idx ++ concat (index_entry <$> crossings (Z.of_nat (length text)) (row_text <$> rows))) w')
    (write_all_rows rows total w).
Proof.
  intros Hw Hv. revert total text idx w Hw. induction Hv as [|row rows Hrow _ IH]; intros total text idx w Hw Hpre Hlen Hn Hr Hr0 Hd.
  { simpl. rewrite !app_nil_r, Nat.add_0_r, Z.add_0_r. done. }
  cbn [write_all_rows]. csimpl in *. rewrite length_app in *.
  eapply outcome_bind; [apply (write_row_spec text idx w row Hw Hrow); [rewrite length_app; lia|]|].
  { etrans; [|exact Hpre]. apply prefix_app, prefix_app_r. done. }
  intros [r w'] (Er & Ern & Hw'). cbv zeta in Hw'. eapply outcome_weaken; [apply (IH _ _ _ _ Hw')|].
  - by rewrite <- (assoc_L (++)).
  - rewrite length_app. lia.
  - lia.
  - simpl. rewrite Ern, u64_small; lia.
  - simpl. apply u64_range.
  - simpl. rewrite Er, Hd, u64_small, length_app; lia.
  - intros [r2 w2]. simpl. rewrite length_app, Ern, u64_small by lia.
    intros (-> & -> & Hw2). split_and!; [lia|lia|]. rewrite fmap_app, concat_app, !(assoc_L (++)).
    rewrite <- Nat2Z.inj_add. rewrite length_app in Hw'.
    destruct (Z.of_nat (length text) / k_write_idx_every <? _); simpl in *; rewrite ?app_nil_r in *; done.
Qed.

(** The whole file; an index that is not open yet. *)
Lemma write_file_spec i rows :
  idx_open i = false → Forall row_valid rows → all = concat (row_text <$> rows) →
  Z.of_nat (length all) < 2 ^ 64 → Z.of_nat (length rows) < 2 ^ 64 →
  outcome (λ '(r, w'), m_data_bytes r = Z.of_nat (length all) ∧
      m_rows_written r = Z.of_nat (length rows) ∧
      file_text (m_output w') = file_text f0 ++ all ∧
      ∃ g, m_index w' = Some {| idx_open := false; idx_file := g |} ∧
        (never_fails G → file_text g = concat (index_entry <$> idx_offsets 0 (row_text <$> rows))))
    (write_file rows (make_Dump_writer f0 (Some i))).
Proof.
  intros Hi Hv Hall Hlen Hn. unfold write_file, write_preamble, write_stored, open. simpl. rewrite Hi.
  destruct preamble_ok as (b & Eb & Hd & Hready). simpl. rewrite Eb. cbn [mbind option_bind]. simpl.
  set (w0 := set_buffer b _). pose proof (write_buffer_spec false w0) as HB1. simpl in HB1. rewrite Hd in HB1.
  specialize (HB1 ltac:(simpl; lia) (prefix_app _ _ _ (prefix_nil _))). destruct (write_buffer false w0) as [[r1 w1]|e]; [|done].
  destruct HB1 as (Er1 & En1 & f1 & -> & Ef1). rewrite app_nil_r in Ef1.
  assert (written [] [] (set_output f1 w0)) as Hw.
  { split; simpl; try done; [by rewrite app_nil_r|]. eexists. split; [done|]. intros _. apply file_open_ok. }
  eapply outcome_bind.
  { apply (write_all_rows_spec rows r1 [] [] _ Hw Hv); simpl; rewrite ?En1, <- ?Hall; try done; lia. }
  intros [total w2] (Ed2 & En2 & [Ht (g2 & Hidx & Hg2) Hready2 Hb Hp]). simpl in *. rewrite <- Hall in *.
  unfold write_postamble, write_stored.
  destruct (postamble_ok _ Hready2) as (b3 & -> & Hd3). cbn [mbind option_bind].
  pose proof (write_buffer_spec false (set_buffer b3 w2)) as HB3. simpl in HB3. rewrite Hd3, app_nil_r in HB3.
  specialize (HB3 ltac:(simpl; lia) ltac:(by rewrite Ht)). destruct (write_buffer false (set_buffer b3 w2)) as [[r3 w3]|e]; [|done].
  destruct HB3 as (Er3 & En3 & f3 & -> & Ef3). unfold close, write_index. simpl. rewrite Hidx. simpl.
  assert (never_fails G → file_text (file_write (index_entry (m_bytes_written w2)) g2).2 = file_text g2 ++ index_entry (m_bytes_written w2))
    as Hlast by (intros Hnf; apply Hnf).
  destruct (file_write (index_entry (m_bytes_written w2)) g2) as [m g3]. simpl in *.
  rewrite Er3, En3, Ed2, En2, En1, !Z.add_0_r, !u64_small, Ef3, Ht by lia. split_and!; try done. exists g3. split; [done|].
  intros Hnf. rewrite Hlast, Hg2, Hb, Hall, idx_offsets_crossings, fmap_app, concat_app by done. cbn [fmap list_fmap concat]. by rewrite app_nil_r.
Qed.
End writing.

(** ** Reading the index *)

Lemma data_size_last offsets last :
  Forall (λ v, 0 <= v < 2^64) (offsets ++ [last]) →
  (data_size (make_Index_file (concat (index_entry <$> offsets ++ [last])))).1 = last.
Proof.
  intros [Ho Hl]%Forall_app. apply Forall_cons in Hl as [Hl _].
  destruct (index_entry_spec last Hl) as [Hlen Hval].
  assert (length (concat (index_entry <$> offsets)) = 8 * length offsets)%nat as Hn.
  { induction Ho as [|v l Hv _ IH]; [done|]. cbn [fmap list_fmap concat]. rewrite length_app, IH. destruct (index_entry_spec v Hv). simpl length. lia. }
  unfold data_size, load_metadata, make_Index_file. cbn [m_metadata_loaded m_idx_file m_data_size fst]. rewrite fmap_app, concat_app. cbn [fmap list_fmap concat]. rewrite app_nil_r, length_app, Hn, Hlen.
  rewrite bool_decide_eq_true_2, bool_decide_eq_false_2; unfold k_entry_size; [|lia|].
  - simpl. rewrite drop_app_length' by lia. by rewrite take_ge by lia.
  - replace (8 * length offsets + 8)%nat with ((length offsets + 1) * 8)%nat by lia. apply Nat.Div0.mod_mul.
Qed.

Lemma idx_offsets_range pos rows :
  0 <= pos → pos + Z.of_nat (length (concat rows)) < 2^64 → Forall (λ v, 0 <= v < 2^64) (idx_offsets pos rows).
Proof.
  revert pos. induction rows as [|row rows IH]; intros pos Hp Hlen; simpl in *; [by constructor; [lia|constructor]|].
  rewrite length_app in Hlen. apply Forall_app. split; [|apply IH; lia].
  destruct (_ <? _); constructor; [lia|constructor].
Qed.

(** ** The writers of rows *)

Lemma set_fixed_length_data n b b' : set_fixed_length n b = Some b' → m_data b' = m_data b.
Proof.
  unfold set_fixed_length, will_write. intros E. case_bool_decide; [|by simplify_eq/=].
  unfold resize in E. destruct (double_until _ _ _); by simplify_eq/=.
Qed.

Section writers.
Context (types : list Type_) (encodings : list Encoding_type).

Section text.
Context (d : Dialect).
Let w := make_Text_dump_writer d.
Let cols := text_columns w types encodings.

#[local] Instance text_Row_writer : Row_writer (list (column * option str)) :=
  {| store_preamble b := snd <$> text_read_metadata w types encodings b;
     store_row := text_store_row w; store_postamble := Some |}.

Context (Hfits : fits (text_fixed_length w cols)).

Definition text_row_valid (row : list (column * option str)) : Prop :=
  row.*1 = cols ∧ fits (text_fixed_length w cols + row_cost w row).

Lemma text_preamble_ok :
  ∃ b, store_preamble (clear make_Buffer) = Some b ∧ m_data b = [] ∧ between_rows w cols b.
Proof.
  destruct (set_fixed_length_new _ Hfits) as (b & E & ? & ? & ? & ?). simpl. unfold text_read_metadata.
  change (clear make_Buffer) with make_Buffer. fold cols. rewrite E. simpl. exists b. split_and!; [done| |done].
  by apply set_fixed_length_data in E.
Qed.

Lemma text_row_stored row b :
  between_rows w cols b → text_row_valid row →
  ∃ b', store_row row (clear b) = Some b' ∧ m_data b' = text_row w row ∧ between_rows w cols b'.
Proof. intros Hb [<- Hfit]. by apply text_write_row_spec. Qed.

#[local] Instance text_Row_writer_ok : Row_writer_ok (list (column * option str)).
Proof.
  refine {| row_text := text_row w; row_valid := text_row_valid; ready := between_rows w cols |}.
  - exact text_preamble_ok.
  - exact text_row_stored.
  - intros b _. by exists (clear b).
Defined.
End text.
End writers.

(** ** Theorems *)

(** C20: Writing the rows of a data file, of fewer than 2^64 bytes, with its index, to an
    output that returns a negative number for every write that is not complete: either
    such a write of a piece of the text, behind the pieces before it, is reported, or the
    file holds the texts of all rows in order, the result counts their bytes and rows,
    and, if no write to the index fails, the index holds the offset of the end of every
    row that passes a multiple of a megabyte and at last the size of the data, which
    Index_file reads back. A failed write to the index is not reported, and neither is a
    write to the output that is cut short with a count that is not negative. *)
Theorem dump_index_roundtrip `{Output_file F} `{Output_file G} `{Row_writer_ok Row} (f : F) (i : index_file G) (rows : list Row) :
  let text := concat (row_text <$> rows) in
  let total := Z.of_nat (length text) in
  reports_failures F → idx_open i = false → Forall row_valid rows → total < 2 ^ 64 → Z.of_nat (length rows) < 2 ^ 64 →
  match write_file rows (make_Dump_writer f (Some i)) with
  | None => False
  | Some (Throw e) => e = write_failed ∧ ∃ data (f' : F), (file_write data f').1 < 0 ∧
      file_text f' ++ data `prefix_of` file_text f ++ text
  | Some (Ok (r, w)) =>
      file_text (m_output w) = file_text f ++ text ∧
      m_data_bytes r = total ∧ m_rows_written r = Z.of_nat (length rows) ∧
      ∃ g, m_index w = Some {| idx_open := false; idx_file := g |} ∧
        (never_fails G →
          file_text g = concat (index_entry <$> idx_offsets 0 (row_text <$> rows)) ∧
          (data_size (make_Index_file (file_text g))).1 = total)
  end.
Proof.
  intros text total HF Hi Hv Ht Hn. pose proof (write_file_spec f text HF i rows Hi Hv eq_refl Ht Hn) as Hw. unfold outcome in Hw.
  destruct (write_file _ _) as [[[r w]|e]|]; [|exact Hw|exact Hw].
  destruct Hw as (-> & -> & -> & g & Eidx & Eg). split_and!; try done. exists g. split; [exact Eidx|]. intros HG. split; [by apply Eg|].
  rewrite (Eg HG), idx_offsets_crossings. apply data_size_last. rewrite <- idx_offsets_crossings.
  apply idx_offsets_range; [done|]. by rewrite Z.add_0_l.
Qed.

(** A disk with room for some bytes; a write that does not fit writes nothing and returns a
    negative number. *)
Record disk := { disk_text : str; disk_room : nat }.

#[local] Instance disk_file : Output_file disk.
Proof.
  refine {| file_open f := {| disk_text := []; disk_room := disk_room f |};
            file_write data f :=
              if bool_decide (length data ≤ disk_room f)%nat
              then (Z.of_nat (length data), {| disk_text := disk_text f ++ data; disk_room := disk_room f - length data |})
              else (-1, f);
            file_text := disk_text; latest_io_size _ := None |}.
  done.
Defined.

Lemma disk_reports : reports_failures disk.
Proof. intros data f. unfold complete_write. simpl. by case_bool_decide. Qed.

(** A file in memory, which always has room. *)
#[local] Instance memory_file : Output_file str.
Proof.
  refine {| file_open _ := []; file_write data f := (Z.of_nat (length data), f ++ data); file_text f := f; latest_io_size _ := None |}.
  done.
Defined.

Lemma memory_never_fails : never_fails str.
Proof. by intros data f. Qed.

(** [fwrite] on a disk: as much of the data as there is room for is written, and counted. *)
Record stream := { stream_text : str; stream_room : nat }.

#[local] Instance stream_file : Output_file stream.
Proof.
  refine {| file_open f := {| stream_text := []; stream_room := stream_room f |};
            file_write data f :=
              (Z.of_nat (length (take (stream_room f) data)),
               {| stream_text := stream_text f ++ take (stream_room f) data; stream_room := stream_room f - length data |});
            file_text := stream_text; latest_io_size _ := None |}.
  done.
Defined.

(** The sample rows in CSV. *)
Definition sample_columns : list column := text_columns (make_Text_dump_writer csv) sample_types sample_encodings.

Lemma sample_fits : fits (text_fixed_length (make_Text_dump_writer csv) sample_columns).
Proof. vm_compute. discriminate. Qed.

Lemma sample_rows_valid : Forall (text_row_valid sample_types sample_encodings csv) sample_rows.
Proof.
  apply Forall_cons_2; [|apply Forall_cons_2; [|apply Forall_nil_2]].
  all: split; [vm_compute; reflexivity|vm_compute; discriminate].
Qed.

#[local] Instance sample_Row_writer : Row_writer (list (column * option str)) := text_Row_writer sample_types sample_encodings csv.

Definition write_sample {F G} `{Output_file F} `{Output_file G} (f : F) (g : G) : option (result (Dump_write_result * Dump_writer F G)) :=
  write_file sample_rows (make_Dump_writer f (Some {| idx_open := false; idx_file := g |})).

Lemma dump_index_roundtrip_witness :
  is_ok <$> write_sample {| disk_text := []; disk_room := 100 |} ([] : str) = Some true ∧
  is_ok <$> write_sample {| disk_text := []; disk_room := 20 |} ([] : str) = Some false ∧
  match write_sample {| disk_text := []; disk_room := 100 |} ([] : str) with
  | Some (Ok (r, w)) =>
      disk_text (m_output w) = concat (text_row (make_Text_dump_writer csv) <$> sample_rows) ∧
      ∃ idx, m_index w = Some {| idx_open := false; idx_file := idx |} ∧ (data_size (make_Index_file idx)).1 = 30
  | _ => True
  end.
Proof.
  split; [vm_compute; reflexivity|]. split; [vm_compute; reflexivity|].
  pose proof (@dump_index_roundtrip disk disk_file str memory_file (list (column * option str)) sample_Row_writer
    (text_Row_writer_ok sample_types sample_encodings csv sample_fits)
    {| disk_text := []; disk_room := 100 |} {| idx_open := false; idx_file := [] |} sample_rows
    disk_reports eq_refl sample_rows_valid) as Hw.
  cbv zeta in Hw. specialize (Hw ltac:(vm_compute; reflexivity) ltac:(vm_compute; reflexivity)).
  unfold write_sample. destruct (write_file _ _) as [[[r w]|e]|]; [|exact I|exact I].
  destruct Hw as (Ht & _ & _ & idx & Hidx & Hs). destruct (Hs memory_never_fails) as [_ Hsize]. split; [exact Ht|]. exists idx. split; [exact Hidx|].
  etransitivity; [exact Hsize|]. vm_compute. reflexivity.
Defined.

(** A failed write to the index is not reported: the index is empty, and the loader finds no
    size. *)
Lemma index_failure_unreported :
  match write_sample ([] : str) {| disk_text := []; disk_room := 4 |} with
  | Some (Ok (r, w)) =>
      match m_index w with
      | Some i => Some (m_data_bytes r, disk_text (idx_file i), (data_size (make_Index_file (disk_text (idx_file i)))).1)
      | None => None
      end
  | _ => None
  end = Some (30, [], 0).
Proof. vm_compute. reflexivity. Qed.

(** Neither is a write to the output that is cut short with a count that is not negative, as
    [fwrite] returns it: 20 bytes of 30 arrive. *)
Lemma short_write_unreported :
  match write_sample {| stream_text := []; stream_room := 20 |} ([] : str) with
  | Some (Ok (r, w)) => Some (m_data_bytes r, m_rows_written r, length (stream_text (m_output w)))
  | _ => None
  end = Some (30, 2, 20%nat).
Proof. vm_compute. reflexivity. Qed.
