(* ===== verification/DumpImportFacts.v ===== *)
(** * From a dump to its import

    What [Text_dump_writer] writes is read by [Scanner] as the same rows, and [scan_file] divides
    it into chunks of whole rows: the writer escapes every character that the scanner could
    take for the end of a field or of a row. *)
From S2P Require Import Prelude UtilsString Lexing Dialect DumpWriter DumpWriterFacts.
From S2P Require Import BlockAllocator Allocator AllocatorFacts AllocatedFile AllocatedFileFacts Scanner ScannerFacts ImportTable ImportTableFacts.

Open Scope nat_scope.

(** ** Dialects

    The characters with a meaning differ, and FIELDS ENCLOSED BY is not the letter of an
    escape sequence. *)
Record separable (d : Dialect) (e f l : ascii) (ft lt : str) : Prop := {
  sep_escape : fields_escaped_by d = [e];
  sep_field : fields_terminated_by d = f :: ft;
  sep_line : lines_terminated_by d = l :: lt;
  sep_ef : e ≠ f;
  sep_el : e ≠ l;
  sep_fl : f ≠ l;
  sep_enclosed : fields_enclosed_by d = [] ∨
    ∃ c, fields_enclosed_by d = [c] ∧ c ≠ e ∧ c ≠ f ∧ c ≠ l ∧ c ∉ ($"0bnrtZN" : str);
}.

Section scanned.
Context (d : Dialect) (e f l : ascii) (ft lt : str) (Hd : separable d e f l ft lt).
Let w := make_Text_dump_writer d.
Let q := make_Sequences d.

(** A character that is none of those. *)
Definition plain (c : ascii) : Prop := c ≠ e ∧ c ≠ f ∧ c ≠ l ∧ head (fields_enclosed_by d) ≠ Some c.

(** A text without the end of a field. *)
Inductive inert : str → Prop :=
| inert_nil : inert []
| inert_plain c t : plain c → inert t → inert (c :: t)
| inert_escaped c t : inert t → inert (e :: c :: t).

Lemma inert_app t1 t2 : inert t1 → inert t2 → inert (t1 ++ t2).
Proof. intros H1 H2. induction H1; simpl; [done|by constructor..]. Qed.

Lemma inert_Forall t : Forall plain t → inert t.
Proof. induction 1; by constructor. Qed.

(** ** What the scanner does with inert text *)

Lemma same_spec c o : same (Some c) o = bool_decide (o = Some c).
Proof. destruct o as [a|]; simpl; [|done]. apply bool_decide_ext. naive_solver. Qed.

Lemma q_escaped : m_escaped_char q = Some e.
Proof. unfold q. simpl. by rewrite (sep_escape _ _ _ _ _ _ Hd). Qed.

Lemma q_differ : m_escaped_char q ≠ m_enclosed_char q.
Proof.
  rewrite q_escaped. unfold q. simpl. unfold first_char.
  destruct (sep_enclosed _ _ _ _ _ _ Hd) as [->|(c & -> & ? & _)]; simpl; congruence.
Qed.

(** What the scanner may have found at the begin of a field. *)
Definition enclosing (fd : option ascii) : Prop := fd = None ∨ fd = head (fields_enclosed_by d).

Lemma look_other guard c a seq p : c ≠ a → look_term guard c (a :: seq) p = No.
Proof.
  intros Hc. unfold look_term, is_first. rewrite same_spec. simpl. rewrite bool_decide_eq_false_2 by congruence.
  by rewrite andb_false_r.
Qed.

Lemma look_self a seq p : look_term true a (a :: seq) (seq ++ p) = Yes p.
Proof.
  unfold look_term, is_first. rewrite same_spec. simpl. rewrite bool_decide_eq_true_2 by done. simpl.
  induction seq as [|c seq IH]; simpl; [done|]. by rewrite bool_decide_eq_true_2.
Qed.

Lemma field_turn_plain fd c p : plain c → enclosing fd → field_turn q fd (c :: p) = Some (CONTINUED, p).
Proof.
  intros (Ce & Cf & Cl & Cq) Hfd. unfold field_turn. rewrite same_spec, q_escaped, bool_decide_eq_false_2 by congruence.
  unfold char_turn. unfold q. simpl m_lines_terminated_by. rewrite (sep_line _ _ _ _ _ _ Hd), look_other by done.
  rewrite same_spec, bool_decide_eq_false_2 by (destruct Hfd as [->| ->]; congruence).
  simpl m_fields_terminated_by. by rewrite (sep_field _ _ _ _ _ _ Hd), look_other.
Qed.

Lemma field_turn_escaped fd c p : field_turn q fd (e :: c :: p) = Some (CONTINUED, p).
Proof.
  unfold field_turn. rewrite !same_spec, q_escaped, bool_decide_eq_true_2 by done.
  rewrite <- q_escaped, bool_decide_eq_false_2; [done|exact q_differ].
Qed.

Lemma field_step fd p fs p' :
  field_turn q fd p = Some (fs, p') → runs q (Machine 0 FIELD fd) p [] (after fs (Machine 0 FIELD fd)) p'.
Proof.
  intros E. assert (p ≠ []) as Hp by (by intros ->). eapply (runs_step _ _ _ _ _ false []); [|constructor].
  unfold turn. destruct p; [done|]. cbn [to_skip status found]. by rewrite E.
Qed.

Lemma inert_runs fd t rest :
  inert t → enclosing fd → runs q (Machine 0 FIELD fd) (t ++ rest) [] (Machine 0 FIELD fd) rest.
Proof.
  intros Ht Hfd. induction Ht as [|c t Hc _ IH|c t _ IH]; [constructor| |]; simpl.
  - eapply (runs_trans _ _ _ [] _ _ []); [apply field_step, field_turn_plain; done|exact IH].
  - eapply (runs_trans _ _ _ [] _ _ []); [apply field_step, field_turn_escaped|exact IH].
Qed.

(** ** Fields and rows *)

(** The text that ends a field in this way. *)
Definition ending (fs : Field_status) : str := match fs with END_OF_LINE => l :: lt | _ => f :: ft end.

Lemma end_plain fs rest : fs ≠ CONTINUED → field_turn q None (ending fs ++ rest) = Some (fs, rest).
Proof.
  intros Hfs. unfold field_turn, ending. pose proof (sep_ef _ _ _ _ _ _ Hd). pose proof (sep_el _ _ _ _ _ _ Hd).
  pose proof (sep_fl _ _ _ _ _ _ Hd).
  destruct fs; [done|..]; cbn [app]; rewrite same_spec, q_escaped, bool_decide_eq_false_2 by congruence; unfold char_turn, q;
    cbn [m_lines_terminated_by m_fields_terminated_by make_Sequences used negb];
    rewrite (sep_line _ _ _ _ _ _ Hd), (sep_field _ _ _ _ _ _ Hd); change (used None) with false; cbn [negb].
  - rewrite look_other by done. simpl same. cbv iota. by rewrite look_self.
  - by rewrite look_self.
Qed.

Lemma end_enclosed c fs rest :
  head (fields_enclosed_by d) = Some c → fs ≠ CONTINUED →
  field_turn q (Some c) (c :: ending fs ++ rest) = Some (fs, rest).
Proof.
  intros Hc Hfs. destruct (sep_enclosed _ _ _ _ _ _ Hd) as [E|(c' & E & Ce & Cf & Cl & _)]; rewrite E in Hc; [done|].
  injection Hc as <-. pose proof (sep_fl _ _ _ _ _ _ Hd).
  unfold field_turn. rewrite same_spec, q_escaped, bool_decide_eq_false_2 by congruence.
  unfold char_turn. change (used (Some c')) with true. cbn [negb]. unfold look_term at 1. cbn [andb].
  rewrite same_spec, bool_decide_eq_true_2 by done. unfold ending.
  destruct fs; [done|..]; cbn [app]; rewrite same_spec, bool_decide_eq_false_2 by congruence;
    unfold enclosed_turn, q; cbn [m_lines_terminated_by m_fields_terminated_by make_Sequences];
    rewrite (sep_line _ _ _ _ _ _ Hd), (sep_field _ _ _ _ _ _ Hd).
  - by rewrite look_other, look_self by done.
  - by rewrite look_self.
Qed.

Lemma begin_step c p fd :
  let fd' := if same (Some c) (m_enclosed_char q) then Some c else None in
  runs q (Machine 0 BEGIN_OF_FIELD fd) (c :: p) [] (Machine 0 FIELD fd')
    (if same (Some c) (m_enclosed_char q) then p else c :: p).
Proof.
  cbv zeta. eapply (runs_step _ _ _ _ _ false []); [|constructor]. unfold turn. cbn [to_skip status].
  by destruct (same (Some c) (m_enclosed_char q)).
Qed.

Lemma unenclosed_runs t fs rest fd :
  inert t → fs ≠ CONTINUED →
  runs q (Machine 0 BEGIN_OF_FIELD fd) (t ++ ending fs ++ rest) [] (after fs (Machine 0 FIELD None)) rest.
Proof.
  intros Ht Hfs.
  assert (∃ c p, t ++ ending fs ++ rest = c :: p ∧ head (fields_enclosed_by d) ≠ Some c) as (c & p & E & Hc).
  { assert (head (fields_enclosed_by d) ≠ Some e ∧ head (fields_enclosed_by d) ≠ Some f ∧
            head (fields_enclosed_by d) ≠ Some l) as (? & ? & ?).
    { destruct (sep_enclosed _ _ _ _ _ _ Hd) as [->|(c & -> & ? & ? & ? & _)]; simpl; [done|]. split_and!; congruence. }
    inversion Ht as [|c t' (_ & _ & _ & ?)|]; subst; unfold ending; [destruct fs|..]; simpl; eauto. }
  eapply (runs_trans _ _ _ [] _ _ []); [|eapply (runs_trans _ _ _ [] _ _ [])].
  - rewrite E. pose proof (begin_step c p fd) as Hb. cbv zeta in Hb. rewrite same_spec in Hb.
    rewrite bool_decide_eq_false_2 in Hb by exact Hc. exact Hb.
  - rewrite <- E. apply inert_runs; [done|by left].
  - by apply field_step, end_plain.
Qed.

Lemma enclosed_runs c t fs rest fd :
  head (fields_enclosed_by d) = Some c → inert t → fs ≠ CONTINUED →
  runs q (Machine 0 BEGIN_OF_FIELD fd) (c :: t ++ c :: ending fs ++ rest) [] (after fs (Machine 0 FIELD (Some c))) rest.
Proof.
  intros Hc Ht Hfs. eapply (runs_trans _ _ _ [] _ _ []); [|eapply (runs_trans _ _ _ [] _ _ [])].
  - pose proof (begin_step c (t ++ c :: ending fs ++ rest) fd) as Hb. cbv zeta in Hb. rewrite same_spec in Hb.
    rewrite bool_decide_eq_true_2 in Hb by exact Hc. exact Hb.
  - apply inert_runs; [done|by right].
  - by apply field_step, end_enclosed.
Qed.

(** Data that the writer does not escape has no character with a meaning. *)
Definition data_ok (col : column) (data : str) : Prop :=
  (needs_escape col = NONE → Forall plain data) ∧
  (needs_escape col = BASE64 → Forall plain (base64_lines (S (length data)) data)).

Lemma w_escape : m_escape w = true ∧ m_escape_char w = e ∧ m_double_enclosed_by w = false ∧ m_null w = [e; "N"%char].
Proof.
  unfold w, make_Text_dump_writer. simpl. rewrite (sep_escape _ _ _ _ _ _ Hd). simpl. split_and!; try done.
  destruct (sep_enclosed _ _ _ _ _ _ Hd) as [->|(c & -> & _ & _ & _ & Hc)]; [done|].
  unfold mem_chars. by apply bool_decide_eq_false_2.
Qed.

Lemma text_escape_inert c : inert (text_escape w c).
Proof.
  destruct w_escape as (_ & He & Hdb & _). unfold text_escape. rewrite He, Hdb. cbn [andb].
  destruct (escape_letter c); [apply inert_escaped, inert_nil|].
  destruct (mem_chars (m_escaped_characters w) c) eqn:Em; [apply inert_escaped, inert_nil|].
  constructor; [|constructor]. unfold mem_chars in Em. apply bool_decide_eq_false in Em. revert Em.
  unfold w, make_Text_dump_writer. simpl. rewrite (sep_escape _ _ _ _ _ _ Hd), (sep_field _ _ _ _ _ _ Hd), (sep_line _ _ _ _ _ _ Hd).
  simpl. intros Em. unfold plain. destruct (fields_enclosed_by d) as [|x xs]; simpl in *; set_solver.
Qed.

Lemma escaped_inert data : inert (data ≫= text_escape w).
Proof. induction data as [|c data IH]; csimpl; [constructor|]. by apply inert_app; [apply text_escape_inert|]. Qed.

Lemma text_data_inert col data : data_ok col data → inert (text_data w col data).
Proof.
  intros [Hn Hb]. unfold text_data. destruct w_escape as (-> & _). cbn [negb orb].
  case_bool_decide; [by apply inert_Forall, Hn|].
  destruct (bool_decide (needs_escape col = BASE64) && _) eqn:E.
  - apply andb_true_iff in E as [E%bool_decide_eq_true _]. by apply inert_Forall, Hb.
  - apply escaped_inert.
Qed.

(** A field that is not null can be written. *)
Definition field_ok (x : column * option str) : Prop :=
  ∀ data, x.2 = Some data → field_is_null x.1 x.2 = false → data_ok x.1 data.

Lemma field_runs x fs rest fd :
  field_ok x → fs ≠ CONTINUED →
  ∃ fd', runs q (Machine 0 BEGIN_OF_FIELD fd) (text_field w x.1 x.2 ++ ending fs ++ rest) []
           (after fs (Machine 0 FIELD fd')) rest.
Proof.
  intros Hx Hfs. destruct w_escape as (_ & _ & _ & Hnull).
  assert (inert (m_null w)) as Hin by (rewrite Hnull; apply inert_escaped, inert_nil).
  destruct x as [col [data|]]; unfold text_field; cbn [fst snd]; [|exists None; by apply unenclosed_runs].
  destruct (field_is_null col (Some data)) eqn:En; [exists None; by apply unenclosed_runs|].
  pose proof (text_data_inert col data (Hx data eq_refl En)) as Ht. unfold text_quote.
  change (m_dialect w) with d.
  destruct (text_quotes w col); [|exists None; rewrite app_nil_r; by apply unenclosed_runs].
  destruct (sep_enclosed _ _ _ _ _ _ Hd) as [E|(c & E & _)]; rewrite E; simpl.
  - exists None. rewrite app_nil_r. by apply unenclosed_runs.
  - exists (Some c). rewrite <- (assoc_L (++)). apply enclosed_runs; [by rewrite E|done|done].
Qed.

Lemma fields_runs x row rest fd :
  Forall field_ok (x :: row) →
  ∃ fd', runs q (Machine 0 BEGIN_OF_FIELD fd) (text_field w x.1 x.2 ++ text_fields w false row ++ l :: lt ++ rest) []
           (Machine 0 BEGIN fd') rest.
Proof.
  revert x fd. induction row as [|[col data] row IH]; intros x fd [Hx Hrow]%Forall_cons.
  - destruct (field_runs x END_OF_LINE rest fd Hx ltac:(done)) as (fd' & Hr). by exists fd'.
  - destruct (field_runs x END_OF_FIELD (text_field w col data ++ text_fields w false row ++ l :: lt ++ rest) fd Hx ltac:(done))
      as (fd1 & Hr). destruct (IH (col, data) fd1 Hrow) as (fd2 & Hr2). exists fd2.
    eapply (runs_trans _ _ _ [] _ _ []); [|exact Hr2]. cbn [text_fields]. change (m_dialect w) with d.
    rewrite (sep_field _ _ _ _ _ _ Hd), <- !(assoc_L (++)). exact Hr.
Qed.

Lemma line_terminator : m_line_terminator w = l :: lt.
Proof. unfold w, make_Text_dump_writer. simpl. rewrite (sep_line _ _ _ _ _ _ Hd). by rewrite bool_decide_eq_false_2. Qed.

Lemma prefix_runs p fd :
  p ≠ [] → runs q (Machine 0 PREFIX fd) (lines_starting_by d ++ p) [] (Machine 0 BEGIN_OF_FIELD fd) p.
Proof.
  intros Hp. eapply (runs_step _ _ _ _ _ false []); [|constructor]. unfold turn, q.
  cbn [to_skip status found m_lines_starting_by make_Sequences].
  destruct (lines_starting_by d) as [|a ls] eqn:E; cbn [app]; [by destruct p|].
  rewrite bool_decide_eq_false_2 by done. unfold prefix_turn. cbn [m_lines_starting_by make_Sequences].
  by rewrite E, look_self.
Qed.

Lemma row_runs row rest fd :
  Forall field_ok row →
  ∃ fd', runs q (Machine 0 BEGIN fd) (text_row w row ++ rest) [length (text_row w row ++ rest)] (Machine 0 BEGIN fd') rest.
Proof.
  intros Hrow. unfold text_row. change (m_dialect w) with d. rewrite line_terminator, <- !(assoc_L (++)). cbn [app].
  assert (∃ fd', runs q (Machine 0 BEGIN_OF_FIELD fd) (text_fields w true row ++ l :: lt ++ rest) []
    (Machine 0 BEGIN fd') rest) as (fd' & Hr).
  { destruct row as [|[col data] row].
    - exists None. apply (unenclosed_runs [] END_OF_LINE); [constructor|done].
    - destruct (fields_runs (col, data) row rest fd Hrow) as (fd' & Hr). exists fd'. cbn [text_fields app].
      by rewrite <- (assoc_L (++)). }
  exists fd'. set (p := text_fields w true row ++ l :: lt ++ rest) in *.
  assert (p ≠ []) as Hp by (unfold p; by destruct (text_fields w true row)).
  eapply (runs_step _ _ _ (Machine 0 PREFIX fd) (lines_starting_by d ++ p) true []).
  - unfold turn. cbn [to_skip status found]. destruct (lines_starting_by d ++ p) eqn:E; [|done].
    by apply app_eq_nil in E as [_ ?].
  - eapply (runs_trans _ _ _ [] _ _ []); [by apply prefix_runs|exact Hr].
Qed.

Lemma text_row_nonempty row : text_row w row ≠ [].
Proof.
  unfold text_row. rewrite line_terminator. intros E. apply app_eq_nil in E as [_ E]. by apply app_eq_nil in E as [_ ?].
Qed.

(** The positions of texts that follow each other. *)
Fixpoint offsets (pos : nat) (texts : list str) : list nat :=
  match texts with
  | [] => []
  | t :: texts => pos :: offsets (pos + length t) texts
  end.

Lemma rows_from_dump rows fuel pos fd :
  Forall (Forall field_ok) rows → measure (Machine 0 BEGIN fd) (concat (text_row w <$> rows)) < fuel →
  rows_from q fuel (Machine 0 BEGIN fd) pos (concat (text_row w <$> rows)) = offsets pos (text_row w <$> rows).
Proof.
  intros Hrows. revert fuel pos fd. induction Hrows as [|row rows Hrow _ IH]; intros fuel pos fd Hf.
  { by destruct fuel. }
  csimpl. destruct (row_runs row (concat (text_row w <$> rows)) fd Hrow) as (fd' & Hr).
  assert (0 < length (m_lines_terminated_by q)) as Hlt.
  { unfold q. cbn [m_lines_terminated_by make_Sequences]. rewrite (sep_line _ _ _ _ _ _ Hd). simpl. lia. }
  destruct (rows_from_runs q Hlt _ _ _ _ _ fuel pos Hr Hf) as (fuel' & Hf' & ->). cbn [fmap list_fmap].
  rewrite IH by done. rewrite Nat.sub_diag, Nat.add_0_r, length_app. cbn [app]. do 2 f_equal. lia.
Qed.

(** The scanner begins its rows where the writer has begun them. *)
Lemma row_starts_dump rows :
  Forall (Forall field_ok) rows →
  row_starts q 0 (concat (text_row w <$> rows)) = offsets 0 (text_row w <$> rows).
Proof. intros Hrows. apply rows_from_dump; [done|]. unfold measure. simpl. lia. Qed.

(** ** Data of a type *)

(** The characters of data that the writer may leave as it is. *)
Definition in_alphabet (type : Type_) (encoding : option Encoding_type) (data : str) : Prop :=
  if negb (is_string_type type) && negb (bool_decide (Bit = type)) then
    not_a_number data = false → Forall (λ c, c ∈ k_numeric_types_alphabet) data
  else
    match encoding with
    | Some Encoding_BASE64 => Forall (λ c, c ∈ k_base64_types_alphabet) (base64_lines (S (length data)) data)
    | Some Encoding_HEX => Forall (λ c, c ∈ k_hex_types_alphabet) data
    | _ => True
    end.

(** [need_escape] finds out whether an alphabet has a character with a meaning. *)
Lemma need_escape_plain alphabet otherwise data :
  need_escape alphabet (m_escaped_characters w) otherwise ≠ FULL → Forall (λ c, c ∈ alphabet) data → Forall plain data.
Proof.
  unfold need_escape. destruct (existsb _ _) eqn:E; [done|]. intros _ Hall. eapply Forall_impl; [exact Hall|].
  intros c Hc. assert (c ∉ m_escaped_characters w) as Hn.
  { intros Hin. enough (existsb (strchr alphabet) (m_escaped_characters w) = true) by congruence.
    apply existsb_exists. exists c. split; [by apply list_elem_of_In|]. unfold strchr, mem_chars.
    by rewrite bool_decide_eq_true_2. }
  revert Hn. unfold w, make_Text_dump_writer. simpl.
  rewrite (sep_escape _ _ _ _ _ _ Hd), (sep_field _ _ _ _ _ _ Hd), (sep_line _ _ _ _ _ _ Hd). simpl.
  intros Hn. unfold plain. destruct (fields_enclosed_by d) as [|x xs]; simpl in *; set_solver.
Qed.

Lemma need_escape_not alphabet chars otherwise e' :
  need_escape alphabet chars otherwise = e' → e' = FULL ∨ e' = otherwise.
Proof. unfold need_escape. case_match; auto. Qed.

Lemma column_ok type encoding data :
  let col := make_column (m_numbers_need_escape w) (m_base64_need_escape w) (m_hex_need_escape w) type encoding in
  in_alphabet type encoding data → field_is_null col (Some data) = false → data_ok col data.
Proof.
  intros col. unfold in_alphabet, data_ok, col. unfold make_column, field_is_null. cbn [needs_escape is_number].
  set (number := negb (is_string_type type) && _). destruct number; cbn [andb].
  - intros Ha Hn. specialize (Ha Hn). split; intros E.
    + apply (need_escape_plain k_numeric_types_alphabet NONE); [|exact Ha]. intros E'. pose proof (eq_trans (eq_sym E) E'). done.
    + apply need_escape_not in E as [?|?]; done.
  - intros Ha _. destruct encoding as [[| |]|]; try (by split); split; intros E.
    + apply need_escape_not in E as [?|?]; done.
    + apply (need_escape_plain k_base64_types_alphabet BASE64); [|exact Ha]. intros E'. pose proof (eq_trans (eq_sym E) E'). done.
    + apply (need_escape_plain k_hex_types_alphabet NONE); [|exact Ha]. intros E'. pose proof (eq_trans (eq_sym E) E'). done.
    + apply need_escape_not in E as [?|?]; done.
Qed.

(** A row whose data is of the types of the columns. *)
Definition typed_row (types : list Type_) (encodings : list Encoding_type) (row : list (option str)) : Prop :=
  ∀ i type data, types !! i = Some type → row !! i = Some (Some data) →
    in_alphabet type (if bool_decide (length encodings = length types) then encodings !! i else None) data.

Lemma typed_row_ok types encodings row :
  typed_row types encodings row → Forall field_ok (zip (text_columns w types encodings) row).
Proof.
  intros Hrow. apply Forall_lookup. intros i [col data] Hi data' Hx Hn. cbn [fst snd] in *. subst data.
  apply lookup_zip_with_Some in Hi as (col' & o & E & Hc & Ho). simplify_eq.
  unfold text_columns, make_columns in Hc. rewrite list_lookup_imap in Hc.
  destruct (types !! i) as [type|] eqn:Et; [|done]. simplify_eq/=.
  apply column_ok; [|exact Hn]. exact (Hrow i type data' Et Ho).
Qed.
End scanned.

(** ** Chunks of rows *)

Section groups.
Context {X : Type} (f : X → str) (Hf : ∀ x, f x ≠ []).

Lemma offsets_app pos texts1 texts2 :
  offsets pos (texts1 ++ texts2) = offsets pos texts1 ++ offsets (pos + length (concat texts1)) texts2.
Proof.
  revert pos. induction texts1 as [|t texts1 IH]; intros pos; simpl; [by rewrite Nat.add_0_r|].
  by rewrite IH, length_app, Nat.add_assoc.
Qed.

Lemma offsets_shift pos n texts : pos + n ∈ offsets pos texts ↔ n ∈ offsets 0 texts.
Proof.
  enough (∀ b, pos + n ∈ offsets (pos + b) texts ↔ n ∈ offsets b texts) as E by (by rewrite <- (E 0), Nat.add_0_r).
  induction texts as [|t texts IH]; intros b; simpl; [by rewrite !elem_of_nil|].
  rewrite !elem_of_cons, <- Nat.add_assoc, IH. split; intros [?|?]; (left; lia) || (by right).
Qed.

Lemma offsets_split pos n xs :
  n ∈ offsets pos (f <$> xs) → ∃ k, k < length xs ∧ n = pos + length (concat (f <$> take k xs)).
Proof.
  revert pos. induction xs as [|x xs IH]; intros pos; csimpl; [by intros ?%not_elem_of_nil|].
  intros [->|(k & ? & ->)%IH]%elem_of_cons; [exists 0; simpl; lia|].
  exists (S k). csimpl. rewrite length_app. lia.
Qed.

Lemma offsets_lt pos n xs : n ∈ offsets pos (f <$> xs) → n < pos + length (concat (f <$> xs)).
Proof.
  revert pos. induction xs as [|x xs IH]; intros pos; csimpl; [by intros ?%not_elem_of_nil|]. rewrite length_app.
  specialize (Hf x). destruct (f x); [done|]. simpl length. intros [->|?%IH]%elem_of_cons; lia.
Qed.

(** Texts that begin where rows begin are made of whole rows. *)
Lemma chunks_groups chunks xs :
  concat chunks = concat (f <$> xs) →
  (∀ i, i < length chunks → length (concat (take i chunks)) ∈ offsets 0 (f <$> xs)) →
  ∃ groups, concat groups = xs ∧ chunks = (λ g, concat (f <$> g)) <$> groups.
Proof.
  revert xs. induction chunks as [|c chunks IH]; intros xs Hc Hi.
  { exists []. destruct xs as [|x xs]; [done|]. csimpl in *. specialize (Hf x). by destruct (f x). }
  destruct (decide (chunks = [])) as [->|Hne].
  { exists [xs]. csimpl in *. rewrite !app_nil_r in *. by rewrite Hc. }
  destruct (offsets_split 0 (length c) xs) as (k & _ & Hk).
  { specialize (Hi 1). simpl in Hi. rewrite app_nil_r in Hi. apply Hi.
    destruct chunks; [done|simpl; lia]. }
  simpl in Hk. rewrite <- (take_drop k xs), fmap_app, concat_app in Hc. simpl in Hc.
  apply app_inj_1 in Hc as [Ec Hc]; [|done].
  destruct (IH (drop k xs) Hc) as (groups & Eg & Ech).
  - intros i Hl. specialize (Hi (S i)). simpl in Hi. rewrite length_app in Hi. specialize (Hi ltac:(lia)).
    rewrite <- (take_drop k xs), fmap_app, offsets_app, Nat.add_0_l, <- Hk in Hi.
    apply elem_of_app in Hi as [Hi|Hi]; [apply offsets_lt in Hi; lia|by apply offsets_shift in Hi].
  - exists (take k xs :: groups). csimpl. rewrite Eg, take_drop. split; [done|]. by rewrite <- Ech, Ec.
Qed.
End groups.

(** ** Theorems *)

(** A row that fits into the buffer, with a value for each column. *)
Definition row_fits (w : Text_dump_writer) (cols : list column) (row : list (option str)) : Prop :=
  length row = length cols ∧ fits (text_fixed_length w cols + row_cost w (zip cols row)).

(** C19: Composition of the text writer, the scanner and scan_file: rows dumped in a
    dialect are divided on import, for any block size up to 2^63, into chunks of whole
    rows, in order and each once, all but the last of at least bytes_per_chunk bytes. The
    dialect is one that validate accepts, with FIELDS ESCAPED BY, the first characters of
    the field and of the line terminator all different, and different from FIELDS ENCLOSED
    BY if there is one (which is none of 0, b, n, r, t, Z and N), and with a field
    terminator not longer than the line terminator; the data of numeric columns consists
    of digits, minus signs and points or is not a number, that of columns encoded as
    Base64 or hexadecimal of the characters of the encoding; and a row fits into 2^63
    bytes. *)
Theorem dump_import_chunks `{Block_source A} (d : Dialect) (e f l : ascii) (ft lt : str) (types : list Type_)
    (encodings : list Encoding_type) (rows : list (list (option str))) (name : string) (bytes_per_chunk : nat)
    (texts : list str) (st : store A) (others : list nat) :
  let w := make_Text_dump_writer d in
  let cols := text_columns w types encodings in
  let written row := text_row w (zip cols row) in
  separable d e f l ft lt → validate d = Ok tt → length ft ≤ length lt →
  fits (text_fixed_length w cols) → Forall (row_fits w cols) rows → Forall (typed_row types encodings) rows →
  source_blocks (ba_block_size (st_allocator st)) texts → ba_holds (st_allocator st) others →
  (Z.of_nat (2 * ba_block_size (st_allocator st)) <= 2 ^ 64)%Z →
  ∃ b, text_read_metadata w types encodings make_Buffer = Some (cols, b) ∧
    write_rows (text_write_row w) (zip cols <$> rows) b = Some (written <$> rows) ∧
    (concat texts = concat (written <$> rows) →
     ∃ q s p Q groups, make_Scanner d 0 = Ok (q, s) ∧
       scan_file q name bytes_per_chunk never never texts s st = Some (Ok p) ∧
       concat groups = rows ∧ scheduled p Q ((λ g, concat (written <$> g)) <$> groups) ∧
       ∀ i g, groups !! i = Some g → S i < length groups → bytes_per_chunk ≤ length (concat (written <$> g))).
Proof.
  intros w cols written Hd Hv Hft Hfit Hrows Htyped Hsrc Hh Hb.
  destruct (set_fixed_length_new _ Hfit) as (b & E & ? & ? & ? & ?). exists b. split_and!.
  - unfold text_read_metadata. fold cols. by rewrite E.
  - etrans; [apply (write_rows_spec (text_store_row w) (text_row w) (text_fixed_length w cols) (row_cost w)); try done|].
    2: { f_equal. by rewrite <- list_fmap_compose. }
    intros row (row' & -> & Hr)%list_elem_of_fmap. destruct (proj1 (Forall_forall _ _) Hrows row' Hr) as [Hl Hf].
    split; [|done]. pose proof (stores_text_row w (zip cols row')) as Hs. by rewrite fst_zip in Hs by lia.
  - intros Etexts.
    assert (make_Scanner d 0 = Ok (make_Sequences d, {| m_skip_rows := 0; m_stack_size := stack_size (make_Sequences d);
      m_stack := []; Scanner.m_data := []; m_end_of_block := false; m_status := BEGIN; m_found_enclosed_char := None |})) as Hm.
    { unfold make_Scanner. pose proof (sep_fl _ _ _ _ _ _ Hd). rewrite (sep_line _ _ _ _ _ _ Hd), (sep_field _ _ _ _ _ _ Hd).
      rewrite !bool_decide_eq_false_2; [done|congruence|done]. }
    destruct (scan_file_chunks d 0 _ _ name bytes_per_chunk texts st others Hv Hm) as (p & Q & chunks & Ep & HQ & _ & Hc1 & Hc2 & Hc3);
      try done; [rewrite (sep_line _ _ _ _ _ _ Hd), (sep_field _ _ _ _ _ _ Hd); simpl; lia|].
    assert (row_starts (make_Sequences d) 0 (concat texts) = offsets 0 (written <$> rows)) as Estarts.
    { rewrite Etexts. unfold written. rewrite (list_fmap_compose (zip cols) (text_row w)). eapply row_starts_dump; [exact Hd|].
      apply Forall_fmap. eapply Forall_impl; [exact Htyped|]. intros row Hr. by eapply typed_row_ok. }
    rewrite Estarts in Hc1, Hc2.
    destruct (chunks_groups written (λ row, text_row_nonempty d e f l ft lt Hd (zip cols row)) chunks rows) as (groups & Eg & Ech).
    + rewrite Hc1, Etexts. destruct rows; [done|]. csimpl. by rewrite drop_0.
    + intros i Hi. specialize (Hc2 i Hi). destruct rows; csimpl in *; [by apply not_elem_of_nil in Hc2|done].
    + exists (make_Sequences d). eexists. exists p, Q, groups. rewrite <- Ech. split_and!; try done.
      intros i g Hg Hi. apply (Hc3 i); [|by rewrite Ech, length_fmap]. by rewrite Ech, list_lookup_fmap, Hg.
Qed.

(** Three rows of an identifier, a text and a picture in CSV, read in blocks of eight bytes. *)
Definition dumped_rows : list (list (option str)) :=
  [[Some ($"1"); Some ([dquote] ++ $"x," ++ [newline]); Some ($"AAEC")]; [Some ($"-2"); None; None];
   [Some ($"nan"); Some []; Some ($"/w==")]].

Definition dumped_text : str :=
  concat ((λ row, text_row (make_Text_dump_writer csv)
                    (zip (text_columns (make_Text_dump_writer csv) sample_types sample_encodings) row)) <$> dumped_rows).

Definition dumped_blocks : list str := (λ i, take 8 (drop (8 * i) dumped_text)) <$> seq 0 6.

#[local] Existing Instance bump_heap.

Lemma csv_separable : separable csv backslash "," carriage_return [] [newline].
Proof. split; try done. right. exists dquote. split_and!; [done..|]. vm_compute. set_solver. Qed.

Lemma forallb_alphabet alphabet data : forallb (mem_chars alphabet) data = true → Forall (λ c, c ∈ alphabet) data.
Proof.
  intros E. apply Forall_forall. intros c Hc. apply list_elem_of_In in Hc. eapply forallb_forall in E; [|exact Hc].
  by apply bool_decide_eq_true in E.
Qed.

Lemma dumped_typed : Forall (typed_row sample_types sample_encodings) dumped_rows.
Proof.
  repeat apply Forall_cons_2; [..|apply Forall_nil_2]; intros [|[|[|i]]] type data Ht Hr; simplify_eq/=;
    unfold in_alphabet; simpl; try done; try (intros _); apply forallb_alphabet; vm_compute; reflexivity.
Qed.

Lemma dump_import_chunks_witness :
  concat dumped_blocks = dumped_text ∧
  ∃ q s p Q groups, make_Scanner csv 0 = Ok (q, s) ∧
    scan_file q "t.csv" 10 never never dumped_blocks s sample_store = Some (Ok p) ∧ concat groups = dumped_rows ∧
    scheduled p Q ((λ g, concat ((λ row, text_row (make_Text_dump_writer csv)
      (zip (text_columns (make_Text_dump_writer csv) sample_types sample_encodings) row)) <$> g)) <$> groups).
Proof.
  assert (concat dumped_blocks = dumped_text) as E by (vm_compute; reflexivity). split; [exact E|].
  destruct (dump_import_chunks csv backslash "," carriage_return [] [newline] sample_types sample_encodings dumped_rows
    "t.csv" 10 dumped_blocks sample_store []) as (b & _ & _ & Hc).
  - exact csv_separable.
  - vm_compute. reflexivity.
  - simpl. lia.
  - vm_compute. discriminate.
  - repeat apply Forall_cons_2; [..|apply Forall_nil_2]; (split; [reflexivity|vm_compute; discriminate]).
  - exact dumped_typed.
  - vm_compute. lia.
  - exact sample_holds.
  - vm_compute. discriminate.
  - destruct (Hc E) as (q & s & p & Q & groups & H1 & H2 & H3 & H4 & _). exists q, s, p, Q, groups.
    split; [exact H1|]. split; [exact H2|]. split; [exact H3|exact H4].
Defined.
