(* ===== verification/Decimal.v ===== *)
(** * Decimal numbers of the dumper

    Model of [mysqlshdk/libs/utils/bignum.{h,cc}] (class [shcore::Bignum]) and of
    [modules/util/dump/decimal.{h,cc}] (class [mysqlsh::dump::Decimal]), which are used to divide
    a DECIMAL column into ranges.  The numbers of OpenSSL are instances of the class [BN];
    its laws state the documented behaviour of the functions that [Bignum] calls, for
    arguments for which they do not run out of memory. *)
From S2P Require Import Prelude UtilsString.

Open Scope Z_scope.

(** ** OpenSSL *)

Class BN (B : Type) := {
  bn_value : B → Z;
  BN_set_word : Z → B;
  BN_set_negative : B → bool → B;
  BN_is_negative : B → bool;
  BN_dec2bn : str → option B;
  BN_bn2dec : B → str;
  BN_add : B → B → B;
  BN_sub : B → B → B;
  BN_add_word : B → Z → B;
  BN_sub_word : B → Z → B;
  BN_mul : B → B → B;
  BN_div : B → B → option B;          (* the quotient; an error for a zero divisor *)
  BN_exp : B → B → B;
  BN_cmp : B → B → Z;
  bn_set_word_ok n : 0 <= n < 2 ^ 64 → bn_value (BN_set_word n) = n;
  bn_set_negative_ok b (n : bool) : bn_value (BN_set_negative b n) = if n then - Z.abs (bn_value b) else Z.abs (bn_value b);
  bn_is_negative_ok b : BN_is_negative b = (bn_value b <? 0);
  bn_dec2bn_ok (negative : bool) digits :
    digits ≠ [] → Forall (λ c, isdigit c = true) digits →
    ∃ b, BN_dec2bn ((if negative then $"-" else []) ++ digits) = Some b ∧
      bn_value b = if negative then - dec_value digits 0 else dec_value digits 0;
  bn_bn2dec_ok b : BN_bn2dec b = to_string (bn_value b);
  bn_add_ok a b : bn_value (BN_add a b) = bn_value a + bn_value b;
  bn_sub_ok a b : bn_value (BN_sub a b) = bn_value a - bn_value b;
  bn_add_word_ok a w : 0 <= w < 2 ^ 64 → bn_value (BN_add_word a w) = bn_value a + w;
  bn_sub_word_ok a w : 0 <= w < 2 ^ 64 → bn_value (BN_sub_word a w) = bn_value a - w;
  bn_mul_ok a b : bn_value (BN_mul a b) = bn_value a * bn_value b;
  bn_div_ok a b :
    match BN_div a b with
    | Some c => bn_value b ≠ 0 ∧ bn_value c = Z.quot (bn_value a) (bn_value b)
    | None => bn_value b = 0
    end;
  bn_exp_ok a p : 0 <= bn_value p → bn_value (BN_exp a p) = bn_value a ^ bn_value p;
  bn_cmp_ok a b : BN_cmp a b = match bn_value a ?= bn_value b with Lt => -1 | Eq => 0 | Gt => 1 end;
}.


Section decimal.
Context {B : Type} `{BN B}.

(** ** [Bignum] *)

(** [Bignum(uint64_t)] *)
Definition bignum_of_unsigned (d : Z) : B := BN_set_word d.

(** [Bignum(int64_t)]; the negation of the least number overflows in the code, and gives
    the same word. *)
Definition bignum_of_signed (d : Z) : B :=
  if 0 <=? d then BN_set_word d else BN_set_negative (BN_set_word (u64 (- d))) true.

Definition bn_failed (context : string) : exn := runtime_error (context ++ "() failed").

Definition bignum_parse (d : str) : result B :=
  match BN_dec2bn d with Some b => Ok b | None => Throw (bn_failed "BN_dec2bn") end.

Definition bignum_to_string (b : B) : str := BN_bn2dec b.

Definition bignum_div (a b : B) : result B :=
  match BN_div a b with Some c => Ok c | None => Throw (bn_failed "BN_div") end.

Definition bignum_exp (a : B) (p : Z) : B := BN_exp a (bignum_of_unsigned p).

Definition bignum_inc (a : B) : B := BN_add_word a 1.
Definition bignum_dec (a : B) : B := BN_sub_word a 1.
Definition bignum_compare (a b : B) : Z := BN_cmp a b.

(** ** [Decimal] *)

Record Decimal := { m_decimal : B; m_decimal_scale : B; m_fractional_digits : nat }.

(** [set_decimal_scale] *)
Definition decimal_scale (digits : nat) : B := bignum_exp (bignum_of_signed 10) (Z.of_nat digits).

(** [Decimal(const std::string &)]; without a point the scale keeps its initial value. *)
Definition parse_decimal (d : str) : result Decimal :=
  match find_char d "." 0 with
  | Some pos =>
      let digits := (length d - pos - 1)%nat in
      b ← bignum_parse (take pos d ++ drop (S pos) d);
      Ok {| m_decimal := b; m_decimal_scale := decimal_scale digits; m_fractional_digits := digits |}
  | None =>
      b ← bignum_parse d;
      Ok {| m_decimal := b; m_decimal_scale := bignum_of_signed 1; m_fractional_digits := 0 |}
  end.

(** [std::string::insert] *)
Definition insert_at (pos : nat) (t s : str) : str := take pos s ++ t ++ drop pos s.

Definition decimal_to_string (d : Decimal) : str :=
  let s := bignum_to_string (m_decimal d) in
  if bool_decide (m_fractional_digits d = 0%nat) then s
  else
    let first_digit := if bool_decide (head s = Some "-"%char) then 1%nat else 0%nat in
    let digits := (length s - first_digit)%nat in
    let s := if bool_decide (digits ≤ m_fractional_digits d)%nat
             then insert_at first_digit (replicate (m_fractional_digits d - digits + 1) "0"%char) s else s in
    insert_at (length s - m_fractional_digits d) ($".") s.

Definition with_decimal (b : B) (d : Decimal) : Decimal :=
  {| m_decimal := b; m_decimal_scale := m_decimal_scale d; m_fractional_digits := m_fractional_digits d |}.

Definition decimal_inc (d : Decimal) : Decimal := with_decimal (bignum_inc (m_decimal d)) d.
Definition decimal_dec (d : Decimal) : Decimal := with_decimal (bignum_dec (m_decimal d)) d.

Definition validate_fractional_digits (d other : Decimal) : result unit :=
  if bool_decide (m_fractional_digits d = m_fractional_digits other) then Ok tt
  else Throw (logic_error "Mismatch of fractional digits").

(** [operator+=] and the others that change the object. *)
Definition decimal_add (lhs rhs : Decimal) : result Decimal :=
  _ ← validate_fractional_digits lhs rhs;
  Ok (with_decimal (BN_add (m_decimal lhs) (m_decimal rhs)) lhs).

Definition decimal_sub (lhs rhs : Decimal) : result Decimal :=
  _ ← validate_fractional_digits lhs rhs;
  Ok (with_decimal (BN_sub (m_decimal lhs) (m_decimal rhs)) lhs).

Definition decimal_mul (lhs rhs : Decimal) : result Decimal :=
  _ ← validate_fractional_digits lhs rhs;
  let product := BN_mul (m_decimal lhs) (m_decimal rhs) in
  product ← (if bool_decide (m_fractional_digits lhs = 0%nat) then Ok product
             else bignum_div product (m_decimal_scale lhs));
  Ok (with_decimal product lhs).

Definition decimal_div (lhs rhs : Decimal) : result Decimal :=
  _ ← validate_fractional_digits lhs rhs;
  let dividend := if bool_decide (m_fractional_digits lhs = 0%nat) then m_decimal lhs
                  else BN_mul (m_decimal lhs) (m_decimal_scale lhs) in
  quotient ← bignum_div dividend (m_decimal rhs);
  Ok (with_decimal quotient lhs).

Definition decimal_compare (lhs rhs : Decimal) : result Z :=
  _ ← validate_fractional_digits lhs rhs;
  Ok (bignum_compare (m_decimal lhs) (m_decimal rhs)).

Definition set_fractional_digits (digits : nat) (d : Decimal) : result Decimal :=
  if bool_decide (digits < m_fractional_digits d)%nat then
    Throw (logic_error "Cannot decrease the number of fractional digits")
  else if bool_decide (m_fractional_digits d < digits)%nat then
    Ok {| m_decimal := BN_mul (m_decimal d) (bignum_exp (bignum_of_signed 10) (Z.of_nat (digits - m_fractional_digits d)));
          m_decimal_scale := decimal_scale digits; m_fractional_digits := digits |}
  else Ok d.

(** [Decimal(Bignum &&, std::size_t)] *)
Definition make_Decimal (b : B) (fractional : nat) : result Decimal :=
  set_fractional_digits fractional
    {| m_decimal := b; m_decimal_scale := bignum_of_signed 1; m_fractional_digits := 0 |}.

(** [convert], for operands of integer type. *)
Definition convert (b : B) (d : Decimal) : result Decimal := make_Decimal b (m_fractional_digits d).
End decimal.

Arguments Decimal B : clear implicits.
