(* ===== verification/DecimalFacts.v ===== *)
(** * Decimal numbers of the dumper: theorems

    A decimal is its unscaled value [dval] and its number of fractional digits; the operators
    are described on unscaled values. *)
From S2P Require Import Prelude UtilsString UtilsStringFacts Decimal.

Open Scope Z_scope.

(** ** An implementation of the numbers *)

(** An optional sign and the digits that follow. *)
Definition dec2bn (s : str) : option Z :=
  let '(negative, s) := match s with
                        | c :: s' => if bool_decide (c = "-"%char) then (true, s') else (false, s)
                        | [] => (false, [])
                        end in
  let digits := match find_if (λ c, negb (isdigit c)) s with Some i => take i s | None => s end in
  if bool_decide (digits = []) then None
  else Some (if negative : bool then - dec_value digits 0 else dec_value digits 0).

Lemma isdigit_not_minus c : isdigit c = true → c ≠ "-"%char.
Proof. intros E ->. done. Qed.

Lemma dec2bn_ok (negative : bool) digits :
  digits ≠ [] → Forall (λ c, isdigit c = true) digits →
  ∃ b, dec2bn ((if negative then $"-" else []) ++ digits) = Some b ∧
    b = if negative then - dec_value digits 0 else dec_value digits 0.
Proof.
  intros Hne Hd. eexists. split; [|done].
  assert (find_if (λ c, negb (isdigit c)) digits = None) as Hf.
  { apply find_if_None. eapply Forall_impl; [exact Hd|]. by intros c ->. }
  unfold dec2bn. destruct negative; simpl.
  - rewrite Hf. by rewrite bool_decide_eq_false_2.
  - destruct digits as [|c digits]; [done|]. apply Forall_cons in Hd as [Hc _].
    rewrite bool_decide_eq_false_2 by (by apply isdigit_not_minus). rewrite Hf. by rewrite bool_decide_eq_false_2.
Qed.

#[global] Instance Z_BN : BN Z.
Proof.
  refine {| bn_value z := z; BN_set_word n := n; BN_set_negative b n := if n : bool then - Z.abs b else Z.abs b;
            BN_is_negative b := b <? 0; BN_dec2bn := dec2bn; BN_bn2dec := to_string; BN_add := Z.add; BN_sub := Z.sub; BN_add_word := Z.add; BN_sub_word := Z.sub;
            BN_mul := Z.mul; BN_div a b := if b =? 0 then None else Some (Z.quot a b); BN_exp := Z.pow;
            BN_cmp a b := match a ?= b with Lt => -1 | Eq => 0 | Gt => 1 end |}; try done.
  - exact dec2bn_ok.
  - intros a b. destruct (Z.eqb_spec b 0); done.
Defined.

(** ** Values *)

Section values.
Context {B : Type} `{BN B}.

Lemma bignum_of_unsigned_value n : 0 <= n < 2 ^ 64 → bn_value (bignum_of_unsigned n) = n.
Proof. apply bn_set_word_ok. Qed.

Lemma bignum_of_signed_value n : INT64_MIN <= n <= INT64_MAX → bn_value (bignum_of_signed n) = n.
Proof.
  unfold INT64_MIN, INT64_MAX, bignum_of_signed. intros Hn. destruct (Z.leb_spec 0 n).
  - apply bn_set_word_ok. lia.
  - rewrite bn_set_negative_ok, u64_small, bn_set_word_ok; lia.
Qed.

Lemma decimal_scale_value n : Z.of_nat n < 2 ^ 64 → bn_value (decimal_scale n) = 10 ^ Z.of_nat n.
Proof.
  intros Hn. unfold decimal_scale, bignum_exp. rewrite bn_exp_ok; rewrite !bignum_of_unsigned_value by lia; [|lia].
  rewrite bignum_of_signed_value; [done|]. unfold INT64_MIN, INT64_MAX. lia.
Qed.

Definition dval (d : Decimal B) : Z := bn_value (m_decimal d).

(** The scale belongs to the digits. *)
Definition decimal_ok (d : Decimal B) : Prop :=
  Z.of_nat (m_fractional_digits d) < 2 ^ 64 ∧ bn_value (m_decimal_scale d) = 10 ^ Z.of_nat (m_fractional_digits d).

(** Decimals with the same digits as [d]. *)
Definition alike (d x : Decimal B) : Prop := decimal_ok x ∧ m_fractional_digits x = m_fractional_digits d.

Lemma pow10_pos n : 0 < 10 ^ Z.of_nat n.
Proof. apply Z.pow_pos_nonneg; lia. Qed.

Lemma alike_with b d x : alike d x → alike d (with_decimal b x).
Proof. done. Qed.

Lemma validate_alike d x y : alike d x → alike d y → validate_fractional_digits x y = Ok tt.
Proof. intros [_ Hx] [_ Hy]. unfold validate_fractional_digits. by rewrite bool_decide_eq_true_2 by congruence. Qed.

Lemma decimal_add_value d x y :
  alike d x → alike d y → ∃ z, decimal_add x y = Ok z ∧ alike d z ∧ dval z = dval x + dval y.
Proof.
  intros Hx Hy. unfold decimal_add. rewrite (validate_alike d x y Hx Hy). eexists. split; [done|].
  split; [done|]. apply bn_add_ok.
Qed.

Lemma decimal_sub_value d x y :
  alike d x → alike d y → ∃ z, decimal_sub x y = Ok z ∧ alike d z ∧ dval z = dval x - dval y.
Proof.
  intros Hx Hy. unfold decimal_sub. rewrite (validate_alike d x y Hx Hy). eexists. split; [done|].
  split; [done|]. apply bn_sub_ok.
Qed.

(** The excess digits of a product are cut off. *)
Lemma decimal_mul_value d x y :
  alike d x → alike d y →
  ∃ z, decimal_mul x y = Ok z ∧ alike d z ∧ dval z = Z.quot (dval x * dval y) (10 ^ Z.of_nat (m_fractional_digits d)).
Proof.
  intros Hx Hy. unfold decimal_mul. rewrite (validate_alike d x y Hx Hy). cbn [mbind result_bind].
  destruct Hx as [[Hn Hs] Hd]. case_bool_decide as Hz.
  - eexists. split; [done|]. split; [done|]. unfold dval. simpl. rewrite bn_mul_ok, <- Hd, Hz. simpl. by rewrite Z.quot_1_r.
  - unfold bignum_div. pose proof (bn_div_ok (BN_mul (m_decimal x) (m_decimal y)) (m_decimal_scale x)) as Hdiv.
    rewrite Hs, bn_mul_ok in Hdiv. pose proof (pow10_pos (m_fractional_digits x)).
    destruct (BN_div _ _) as [c|]; [|lia]. destruct Hdiv as [_ Hc]. eexists. split; [done|]. split; [done|].
    unfold dval. simpl. by rewrite Hc, <- Hd.
Qed.

Lemma decimal_div_value d x y :
  alike d x → alike d y → dval y ≠ 0 →
  ∃ z, decimal_div x y = Ok z ∧ alike d z ∧ dval z = Z.quot (dval x * 10 ^ Z.of_nat (m_fractional_digits d)) (dval y).
Proof.
  intros Hx Hy Hnz. unfold decimal_div. rewrite (validate_alike d x y Hx Hy). cbn [mbind result_bind].
  destruct Hx as [[Hn Hs] Hd]. set (dividend := if bool_decide _ then _ else _).
  assert (bn_value dividend = dval x * 10 ^ Z.of_nat (m_fractional_digits d)) as Hv.
  { unfold dividend. rewrite <- Hd. case_bool_decide as Hz; [rewrite Hz; simpl; unfold dval; lia|].
    by rewrite bn_mul_ok, Hs. }
  unfold bignum_div. pose proof (bn_div_ok dividend (m_decimal y)) as Hdiv. rewrite Hv in Hdiv.
  destruct (BN_div _ _) as [c|]; [|done]. destruct Hdiv as [_ Hc]. eexists. split; [done|]. split; [done|]. exact Hc.
Qed.

Lemma decimal_compare_value d x y :
  alike d x → alike d y →
  decimal_compare x y = Ok (match dval x ?= dval y with Lt => -1 | Eq => 0 | Gt => 1 end).
Proof.
  intros Hx Hy. unfold decimal_compare. rewrite (validate_alike d x y Hx Hy). cbn [mbind result_bind].
  f_equal. apply bn_cmp_ok.
Qed.

Lemma decimal_inc_value d x : alike d x → alike d (decimal_inc x) ∧ dval (decimal_inc x) = dval x + 1.
Proof. intros Hx. split; [done|]. unfold dval. simpl. unfold bignum_inc. by rewrite bn_add_word_ok. Qed.

Lemma decimal_dec_value d x : alike d x → alike d (decimal_dec x) ∧ dval (decimal_dec x) = dval x - 1.
Proof. intros Hx. split; [done|]. unfold dval. simpl. unfold bignum_dec. by rewrite bn_sub_word_ok. Qed.

Lemma convert_value d x b :
  alike d x → ∃ z, convert b x = Ok z ∧ alike d z ∧ dval z = bn_value b * 10 ^ Z.of_nat (m_fractional_digits d).
Proof.
  intros [[Hn Hs] Hd]. unfold convert, make_Decimal, set_fractional_digits. cbn [m_fractional_digits m_decimal].
  rewrite bool_decide_eq_false_2 by lia. rewrite Nat.sub_0_r. case_bool_decide as Hz.
  - eexists. split; [done|]. split.
    + split; [|by rewrite <- Hd]. split; [done|]. simpl. by apply decimal_scale_value.
    + unfold dval. simpl. rewrite bn_mul_ok. change (bignum_exp _ _) with (decimal_scale (B:=B) (m_fractional_digits x)).
      rewrite decimal_scale_value by done. by rewrite Hd.
  - assert (m_fractional_digits x = 0%nat) as E by lia. rewrite E in *. eexists. split; [done|]. rewrite <- Hd. split.
    + split; [|done]. split; [done|]. simpl. apply bignum_of_signed_value. unfold INT64_MIN, INT64_MAX. lia.
    + unfold dval. simpl. lia.
Qed.
End values.

(** ** Texts *)

Section texts.
Context {B : Type} `{BN B}.

Lemma to_string_digits v :
  ∃ (negative : bool) digits, to_string v = (if negative then $"-" else []) ++ digits ∧ digits ≠ [] ∧
    Forall (λ c, isdigit c = true) digits ∧ v = if negative then - dec_value digits 0 else dec_value digits 0.
Proof.
  unfold to_string. destruct (Z.ltb_spec v 0).
  - destruct (dec_spec (- v)) as (? & ? & ?); [lia|]. exists true, (dec (- v)). split_and!; try done. lia.
  - destruct (dec_spec v) as (? & ? & ?); [lia|]. by exists false, (dec v).
Qed.

Lemma dec_value_zeros n digits : dec_value (replicate n "0"%char ++ digits) 0 = dec_value digits 0.
Proof. induction n as [|n IH]; [done|]. exact IH. Qed.

(** The text of a decimal: its sign, and its digits with the point. *)
Lemma decimal_to_string_digits (d : Decimal B) :
  (0 < m_fractional_digits d)%nat →
  ∃ (negative : bool) digits, let k := (length digits - m_fractional_digits d)%nat in
    decimal_to_string d = (if negative then $"-" else []) ++ take k digits ++ $"." ++ drop k digits ∧
    (m_fractional_digits d < length digits)%nat ∧ Forall (λ c, isdigit c = true) digits ∧
    dval d = if negative then - dec_value digits 0 else dec_value digits 0.
Proof.
  intros Hk. unfold decimal_to_string, bignum_to_string. rewrite bn_bn2dec_ok. fold (dval d).
  destruct (to_string_digits (dval d)) as (negative & ds & E & Hne & Hds & Hv). rewrite E.
  rewrite bool_decide_eq_false_2 by lia.
  set (sign := if negative then _ else _) in *.
  assert ((if bool_decide (head (sign ++ ds) = Some "-"%char) then 1%nat else 0%nat) = length sign) as ->.
  { unfold sign. destruct negative; [done|]. destruct ds as [|c ds]; [done|]. apply Forall_cons in Hds as [Hc _]. simpl.
    rewrite bool_decide_eq_false_2; [done|]. intros [= ->]. done. }
  rewrite length_app. replace (length sign + length ds - length sign)%nat with (length ds) by lia.
  set (n := if bool_decide (length ds ≤ m_fractional_digits d)%nat then (m_fractional_digits d - length ds + 1)%nat else 0%nat).
  assert ((if bool_decide (length ds ≤ m_fractional_digits d)%nat
           then insert_at (length sign) (replicate (m_fractional_digits d - length ds + 1) "0"%char) (sign ++ ds)
           else sign ++ ds) = sign ++ replicate n "0"%char ++ ds) as ->.
  { unfold n, insert_at. case_bool_decide; [|done]. by rewrite take_app_length, drop_app_length. }
  set (digits := replicate n "0"%char ++ ds). exists negative, digits.
  assert (m_fractional_digits d < length digits)%nat as Hlen.
  { unfold digits, n. rewrite length_app, length_replicate. case_bool_decide; lia. }
  cbv zeta. split_and!; [|done| |].
  - unfold insert_at. rewrite length_app, take_app, drop_app.
    rewrite take_ge by lia. rewrite (drop_ge sign) by lia. rewrite <- !(assoc_L (++)). simpl.
    by replace (length sign + length digits - m_fractional_digits d - length sign)%nat with (length digits - m_fractional_digits d)%nat by lia.
  - unfold digits. apply Forall_app. split; [|done]. apply Forall_replicate. done.
  - unfold digits. by rewrite dec_value_zeros.
Qed.

Lemma no_point (negative : bool) s :
  Forall (λ c, isdigit c = true) s → "."%char ∉ (if negative then $"-" else []) ++ s.
Proof.
  intros Hs [Hn|Hn]%elem_of_app; [destruct negative; set_solver|].
  by apply (proj1 (Forall_forall _ _) Hs) in Hn.
Qed.

Lemma parse_decimal_digits (negative : bool) ip fp :
  ip ≠ [] → Forall (λ c, isdigit c = true) ip → Forall (λ c, isdigit c = true) fp → Z.of_nat (length fp) < 2 ^ 64 →
  ∃ d : Decimal B, parse_decimal ((if negative then $"-" else []) ++ ip ++ $"." ++ fp) = Ok d ∧ decimal_ok d ∧
    m_fractional_digits d = length fp ∧ dval d = if negative then - dec_value (ip ++ fp) 0 else dec_value (ip ++ fp) 0.
Proof.
  intros Hne Hip Hfp Hlen. unfold parse_decimal. set (sign := if negative then _ else _).
  rewrite (assoc_L (++) sign). simpl. rewrite find_char_app by (by apply no_point).
  rewrite take_app_length, !length_app. replace (S (length sign + length ip)) with (length (sign ++ ip) + 1)%nat by (rewrite length_app; lia).
  rewrite <- drop_drop, drop_app_length. simpl. rewrite <- (assoc_L (++)).
  destruct (bn_dec2bn_ok negative (ip ++ fp)) as (b & Eb & Hb); [by destruct ip|by apply Forall_app|].
  unfold bignum_parse. fold sign in Eb. rewrite drop_0, Eb. simpl.
  replace (length sign + length ip + S (length fp) - (length sign + length ip) - 1)%nat with (length fp) by lia.
  eexists. split; [done|]. split_and!; [split; [done|by apply decimal_scale_value]|done|done].
Qed.

Lemma parse_integer_digits (negative : bool) ip :
  ip ≠ [] → Forall (λ c, isdigit c = true) ip →
  ∃ d : Decimal B, parse_decimal ((if negative then $"-" else []) ++ ip) = Ok d ∧ decimal_ok d ∧
    m_fractional_digits d = 0%nat ∧ dval d = if negative then - dec_value ip 0 else dec_value ip 0.
Proof.
  intros Hne Hip. unfold parse_decimal.
  assert (find_char ((if negative then $"-" else []) ++ ip) "." 0 = None) as ->.
  { by apply find_char_None, no_point. }
  destruct (bn_dec2bn_ok negative ip Hne Hip) as (b & Eb & Hb). unfold bignum_parse. rewrite Eb. simpl.
  eexists. split; [done|]. split_and!; [split; [done|]|done|done]. simpl. apply bignum_of_signed_value.
  unfold INT64_MIN, INT64_MAX. lia.
Qed.
End texts.

(** ** Theorems *)

(** The text of a decimal is read back as the same number with the same number of
    fractional digits, also when zeros have to be filled in. *)
Theorem decimal_roundtrip `{BN B} (d : Decimal B) :
  decimal_ok d →
  ∃ d', parse_decimal (decimal_to_string d) = Ok d' ∧ decimal_ok d' ∧
    m_fractional_digits d' = m_fractional_digits d ∧ dval d' = dval d.
Proof.
  intros [Hn Hs]. destruct (decide (m_fractional_digits d = 0%nat)) as [E|].
  - unfold decimal_to_string, bignum_to_string. rewrite bool_decide_eq_true_2 by done. rewrite bn_bn2dec_ok.
    destruct (to_string_digits (bn_value (m_decimal d))) as (negative & ds & -> & Hne & Hds & Hv).
    destruct (parse_integer_digits (B:=B) negative ds Hne Hds) as (d' & ? & ? & ? & Hv').
    exists d'. split_and!; try done; [congruence|]. unfold dval in *. congruence.
  - destruct (decimal_to_string_digits d) as (negative & ds & Et & Hlen & Hds & Hv); [lia|]. rewrite Et.
    set (k := (length ds - m_fractional_digits d)%nat) in *.
    destruct (parse_decimal_digits (B:=B) negative (take k ds) (drop k ds)) as (d' & Ed & ? & Hf & Hv').
    + intros E. apply (f_equal length) in E. rewrite length_take in E. simpl in E. lia.
    + by apply Forall_take.
    + by apply Forall_drop.
    + rewrite length_drop. lia.
    + exists d'. rewrite take_drop in Hv'. rewrite length_drop in Hf. split_and!; [done|done|lia|congruence].
Qed.

Lemma decimal_roundtrip_witness :
  ∃ d d' : Decimal Z, parse_decimal ($"-0.05") = Ok d ∧ decimal_to_string d = $"-0.05" ∧
    parse_decimal (decimal_to_string d) = Ok d' ∧ dval d' = -5.
Proof.
  eexists. destruct (decimal_roundtrip (B:=Z) {| m_decimal := -5; m_decimal_scale := 100; m_fractional_digits := 2 |}) as (d' & E & _ & _ & V).
  - split; [vm_compute; reflexivity|vm_compute; reflexivity].
  - exists d'. split; [vm_compute; reflexivity|]. split; [vm_compute; reflexivity|]. split; [exact E|exact V].
Defined.
