(* ===== verification/Chunking.v ===== *)
(** * Dividing a table into chunks

    Model of the chunking of tables in [modules/util/dump/dumper.cc] (class
    [Dumper::Table_worker], from [create_and_push_table_data_chunk_task] to
    [create_ranged_tasks]) and of [select_index] ([modules/util/dump/indexes.cc]): a table is
    divided into ranges of the values of an index, and each range becomes a condition of
    the query of a task.

    The session is two functions from the text of a query: the number of rows EXPLAIN
    estimates, and the rows of a SELECT.  The code for integer columns is a template; its
    type parameter is an instance of [Number].  Undefined arithmetic (an overflow of a
    signed number, a division by zero), a failed assertion and an exception are [None]. *)
From S2P Require Import Prelude UtilsString Lexing SqlString DumpWriter Decimal.

Open Scope Z_scope.

(** ** Tables *)

Record Column := { quoted_name : str; nullable : bool; type : Type_ }.

(** [Instance_cache::Index]: its columns. *)
Abbreviation Index := (list Column).

Definition columns_sql (index : Index) : str := str_join index ($",") quoted_name.

(** [Table_task], with the index that was selected. *)
Record Table_task := {
  task_name : str;
  table_name : str;                       (* [quoted_name] *)
  extra_filter : str;
  index_info : option (Index * bool);     (* the index, and whether it is like a primary key *)
}.

(** What a [Table_data_task] adds.  Its controller writes the file whose name is made of
    [chunk] and [last_chunk] ([get_table_data_filename]). *)
Record Table_data_task := { task_id : str; chunk : Z; boundary : str; last_chunk : bool }.

(** ** The choice of an index *)

(** ENUM columns are not ordered as their texts are. *)
Definition filter_indexes (indexes : list Index) : list Index :=
  filter (λ index, forallb (λ c, negb (bool_decide (type c = Enum))) index = true) indexes.

Definition is_integer (c : Column) : bool := bool_decide (type c = Integer) || bool_decide (type c = UInteger).

(** The loop over the columns of two indexes of equal length: is the candidate used? *)
Fixpoint prefer_candidate (candidate current : Index) : bool :=
  match candidate, current with
  | c :: candidate, d :: current =>
      if bool_decide (is_integer c = is_integer d) then
        if bool_decide (nullable c = nullable d) then
          if is_integer d then prefer_candidate candidate current else false
        else negb (nullable c)
      else is_integer c
  | _, _ => false
  end.

Definition choose_step (chosen candidate : Index) : Index :=
  if bool_decide (length candidate < length chosen)%nat then candidate
  else if bool_decide (length candidate = length chosen) && prefer_candidate candidate chosen then candidate
  else chosen.

Definition choose_index (indexes : list Index) : option Index :=
  match indexes with
  | [] => None
  | first :: rest => Some (foldl choose_step first rest)
  end.

Definition select_index (primary_key : option Index) (primary_key_equivalents unique_keys : list Index)
    : option (Index * bool) :=
  match filter_indexes (option_list primary_key) with
  | pk :: _ => Some (pk, true)
  | [] =>
      match choose_index (filter_indexes primary_key_equivalents) with
      | Some index => Some (index, true)
      | None => (λ index, (index, false)) <$> choose_index (filter_indexes unique_keys)
      end
  end.

(** ** Conditions *)

Definition Row := (list str).

Definition quote_value (value : str) (type : Type_) : str :=
  if is_string_type type then quote_sql_string value
  else if bool_decide (type = DumpWriter.Decimal) then [squote] ++ value ++ [squote]
  else value.

Record Chunking_info := {
  table : Table_task;
  row_count : Z;
  rows_per_chunk : Z;
  accuracy : Z;
  partition : str;
  info_boundary : str;
  order_by : str;
  order_by_desc : str;
  index_column : nat;
}.

Definition info_columns (info : Chunking_info) : Index :=
  match index_info (table info) with Some (index, _) => index | None => [] end.

(** The loop of [compare], from the last column to the first; [result] is what was built. *)
Fixpoint compare_loop (columns : Index) (value : Row) (op result : str) : str :=
  match columns, value with
  | column :: columns, v :: value =>
      let val := quote_value v (type column) in
      compare_loop columns value op
        (quoted_name column ++ op ++ val ++ $" OR(" ++ quoted_name column ++ $"=" ++ val ++ $" AND(" ++ result ++ $"))")
  | _, _ => result
  end.

Definition compare (info : Chunking_info) (value : Row) (op : str) (eq : bool) : option str :=
  let columns := reverse (drop (index_column info) (info_columns info)) in
  if bool_decide (length columns = length value) then
    match columns, reverse value with
    | column :: columns, v :: value =>
        Some ($"(" ++ compare_loop columns value op
                (quoted_name column ++ op ++ (if eq then $"=" else []) ++ quote_value v (type column)) ++ $")")
    | _, _ => None
    end
  else None.

Definition compare_ge (info : Chunking_info) (value : Row) : option str := compare info value ($">") true.
Definition compare_le (info : Chunking_info) (value : Row) : option str := compare info value ($"<") true.

Definition ge (info : Chunking_info) (value : Row) : option str :=
  c ← compare_ge info value;
  Some (info_boundary info ++ (if bool_decide (info_boundary info = []) then [] else $" AND") ++ c).

Definition between_rows (info : Chunking_info) (begin end_ : Row) : option str :=
  b ← ge info begin;
  e ← compare_le info end_;
  Some (b ++ $"AND" ++ e).

Definition where_ (task : Table_task) (boundary : str) : str :=
  if negb (bool_decide (extra_filter task = [])) || negb (bool_decide (boundary = [])) then
    $" WHERE " ++ extra_filter task ++
    (if negb (bool_decide (extra_filter task = [])) && negb (bool_decide (boundary = [])) then $" AND " else []) ++
    boundary
  else [].

(** [create_and_push_table_data_chunk_task]: rows with a NULL in the index are dumped with
    the first chunk. *)
Fixpoint add_nulls (columns : Index) (boundary : str) : str :=
  match columns with
  | [] => boundary
  | c :: columns =>
      add_nulls columns
        (if nullable c then
           boundary ++ (if bool_decide (boundary = []) then [] else $"OR") ++ $"(" ++ quoted_name c ++ $" IS NULL)"
         else boundary)
  end.

Definition chunk_task (task : Table_task) (bound id : str) (idx : nat) (last : bool) : Table_data_task :=
  let bound := if bool_decide (bound = []) then [] else $"(" ++ bound ++ $")" in
  let bound :=
    match index_info task with
    | Some (index, false) =>
        if bool_decide (idx = 0%nat) then $"(" ++ add_nulls index bound ++ $")" else bound
    | _ => bound
    end in
  {| task_id := $"chunk " ++ id; chunk := Z.of_nat idx; boundary := bound; last_chunk := last |}.

Definition whole_table_in_chunks_task : Table_data_task :=
  {| task_id := $"whole table split in chunks"; chunk := -1; boundary := []; last_chunk := true |}.

Definition whole_table_task : Table_data_task :=
  {| task_id := $"whole table"; chunk := -1; boundary := []; last_chunk := true |}.

(** ** Numbers *)

(** What the templates use of their type. *)
Class Number (T : Type) := {
  num_le : T → T → option bool;
  num_add : T → T → option T;
  num_sub : T → T → option T;
  num_times : Z → T → option T;             (* [int * T] *)
  num_half : T → option T;                  (* [T / 2] *)
  num_inc : T → option T;
  num_dec : T → option T;
  num_is_zero : T → option bool;
  num_sum : T → T → option T;
  num_quote : T → str;
  num_step : T → T → Z → option T;          (* the estimated step for a number of chunks *)
  num_close : T → T → Z → Z → option bool;  (* is the range close to the number of rows? *)
}.

(** *** [uint64_t] *)

(** [ensure_not_zero] *)
Definition ensure_not_zero64 (v : Z) : Z := if v =? 0 then 1 else v.

(** [distance], from the difference. *)
Definition distance64 (difference : Z) : Z := if difference <? 2 ^ 64 - 1 then difference + 1 else difference.

(** [(range > rows ? range - rows : rows - range) <= accuracy] *)
Definition close64 (range rows accuracy : Z) : bool :=
  (if rows <? range then range - rows else rows - range) <=? accuracy.

Definition divide64 (a b : Z) : option Z := if b =? 0 then None else Some (a / b).

Record uint64 := UInt64 { uint64_value : Z }.

#[global] Instance uint64_Number : Number uint64 :=
  {| num_le a b := Some (uint64_value a <=? uint64_value b);
     num_add a b := Some (UInt64 (u64 (uint64_value a + uint64_value b)));
     num_sub a b := Some (UInt64 (u64 (uint64_value a - uint64_value b)));
     num_times n a := Some (UInt64 (u64 (n * uint64_value a)));
     num_half a := Some (UInt64 (uint64_value a / 2));
     num_inc a := Some (UInt64 (u64 (uint64_value a + 1)));
     num_dec a := Some (UInt64 (u64 (uint64_value a - 1)));
     num_is_zero a := Some (uint64_value a =? 0);
     num_sum a b := Some (UInt64 (if u64 (2 ^ 64 - 1 - uint64_value b) <=? uint64_value a then 2 ^ 64 - 1
                                  else u64 (uint64_value a + uint64_value b)));
     num_quote a := to_string (uint64_value a);
     num_step min max chunks :=
       n ← divide64 (distance64 (u64 (uint64_value max - uint64_value min))) chunks;
       let n := ensure_not_zero64 n in
       Some (UInt64 (if n <? 2 ^ 64 - 1 then n else 2 ^ 64 - 1));
     num_close min max rows accuracy :=
       Some (close64 (distance64 (u64 (uint64_value max - uint64_value min))) rows accuracy) |}.

(** *** [int64_t] *)

Record int64 := Int64 { int64_value : Z }.

(** A result that does not overflow. *)
Definition signed (z : Z) : option int64 :=
  if (INT64_MIN <=? z) && (z <=? INT64_MAX) then Some (Int64 z) else None.

#[global] Instance int64_Number : Number int64 :=
  {| num_le a b := Some (int64_value a <=? int64_value b);
     num_add a b := signed (int64_value a + int64_value b);
     num_sub a b := signed (int64_value a - int64_value b);
     num_times n a := signed (n * int64_value a);
     num_half a := Some (Int64 (Z.quot (int64_value a) 2));
     num_inc a := signed (int64_value a + 1);
     num_dec a := signed (int64_value a - 1);
     num_is_zero a := Some (int64_value a =? 0);
     num_sum a b :=
       room ← signed (INT64_MAX - int64_value b);
       if int64_value room <=? int64_value a then Some (Int64 INT64_MAX) else signed (int64_value a + int64_value b);
     num_quote a := to_string (int64_value a);
     num_step min max chunks :=
       difference ← signed (int64_value max - int64_value min);
       n ← divide64 (distance64 (u64 (int64_value difference))) chunks;
       let n := ensure_not_zero64 n in
       Some (Int64 (if n <? INT64_MAX then n else INT64_MAX));
     num_close min max rows accuracy :=
       difference ← signed (int64_value max - int64_value min);
       Some (close64 (distance64 (u64 (int64_value difference))) rows accuracy) |}.

(** *** [Decimal] *)

Definition returned {A} (r : result A) : option A := match r with Ok a => Some a | Throw _ => None end.

Section decimal_number.
Context {B : Type} `{BN B}.

Definition decimal_le (a b : Decimal B) : option bool :=
  c ← returned (decimal_compare a b); Some (c <=? 0).

(** Operators whose other operand is an integer, which is converted. *)
Definition with_int {A} (f : Decimal B → Decimal B → result A) (d : Decimal B) (n : B) : option A :=
  n ← returned (convert n d); returned (f d n).

Definition int_with {A} (f : Decimal B → Decimal B → result A) (n : B) (d : Decimal B) : option A :=
  n ← returned (convert n d); returned (f n d).

Definition decimal_is_zero (d : Decimal B) : option bool :=
  c ← with_int decimal_compare d (bignum_of_signed 0); Some (c =? 0).

Definition decimal_distance (min max : Decimal B) : option (Decimal B) :=
  d ← returned (decimal_sub max min); with_int decimal_add d (bignum_of_signed 1).

#[global] Instance Decimal_Number : Number (Decimal B) :=
  {| num_le := decimal_le;
     num_add a b := returned (decimal_add a b);
     num_sub a b := returned (decimal_sub a b);
     num_times n a := int_with decimal_mul (bignum_of_signed n) a;
     num_half a := with_int decimal_div a (bignum_of_signed 2);
     num_inc a := Some (decimal_inc a);
     num_dec a := Some (decimal_dec a);
     num_is_zero := decimal_is_zero;
     num_sum a b := returned (decimal_add a b);
     num_quote a := [squote] ++ decimal_to_string a ++ [squote];
     num_step min max chunks :=
       range ← decimal_distance min max;
       n ← with_int decimal_div range (bignum_of_unsigned chunks);
       zero ← decimal_is_zero n;
       Some (if zero : bool then decimal_inc n else n);
     num_close min max rows accuracy :=
       range ← decimal_distance min max;
       c ← with_int decimal_compare range (bignum_of_unsigned rows);
       difference ← (if 0 <? c then with_int decimal_sub range (bignum_of_unsigned rows)
                     else int_with decimal_sub (bignum_of_unsigned rows) range);
       c ← with_int decimal_compare difference (bignum_of_unsigned accuracy);
       Some (c <=? 0) |}.
End decimal_number.

(** *** Texts of integers *)

(** The sign and the digits [std::strtoll] reads. *)
Definition strto (s : str) : option Z :=
  let s := match find_if (λ c, negb (isspace c)) s with Some i => drop i s | None => [] end in
  let '(negative, s) := match s with
                        | c :: s' => if bool_decide (c = "-"%char) then (true, s')
                                     else if bool_decide (c = "+"%char) then (false, s') else (false, s)
                        | [] => (false, [])
                        end in
  let digits := match find_if (λ c, negb (isdigit c)) s with Some i => take i s | None => s end in
  if bool_decide (digits = []) then None
  else Some (if negative : bool then - dec_value digits 0 else dec_value digits 0).

Definition to_int64_t (s : str) : option Z :=
  z ← strto s; if (INT64_MIN <=? z) && (z <=? INT64_MAX) then Some z else None.

(** A negative number is taken modulo 2^64. *)
Definition to_uint64_t (s : str) : option Z :=
  z ← strto s; if Z.abs z <? 2 ^ 64 then Some (u64 z) else None.

(** ** Chunks *)

Section chunking.
Context (member_name : str).                   (* the name of the utility *)
Context (explain_rows : str → Z).              (* the estimate of EXPLAIN *)
Context (select_rows : str → list Row).        (* the rows of SELECT *)
Context (interrupted : nat → bool).            (* is the worker interrupted at this chunk? *)

Definition get_query_comment (table : Table_task) (id : str) : str :=
  $"/* mysqlsh " ++ member_name ++ $", chunking table " ++ str_replace (task_name table) ($"*/") ($"*\/") ++
  $", ID: " ++ id ++ $" */".

Section integer.
Context {T : Type} `{Number T} (info : Chunking_info) (chunk_id : str).

Definition num_lt (a b : T) : option bool := le ← num_le b a; Some (negb le).

(** [between(column, begin, end)]; the values are equal when neither is less. *)
Definition between_column (column : str) (begin end_ : T) : option str :=
  le ← num_le begin end_;
  if (le : bool) then
    ge ← num_le end_ begin;
    Some (if (ge : bool) then column ++ $"=" ++ num_quote begin
          else column ++ $" BETWEEN " ++ num_quote begin ++ $" AND " ++ num_quote end_)
  else None.

Definition between (begin end_ : T) : option str :=
  column ← info_columns info !! index_column info;
  c ← between_column (quoted_name column) begin end_;
  Some (info_boundary info ++ (if bool_decide (info_boundary info = []) then [] else $" AND ") ++ c).

(** The lambda [row_count] of [adaptive_step]. *)
Definition explain (begin end_ : T) : option Z :=
  c ← between begin end_;
  Some (explain_rows ($"EXPLAIN SELECT COUNT(*) FROM " ++ table_name (table info) ++ partition info ++
                      where_ (table info) c ++ order_by info ++ get_query_comment (table info) chunk_id)).

Definition ensure_not_zero (v : T) : option T := zero ← num_is_zero v; if (zero : bool) then num_inc v else Some v.

(** The variables of [adaptive_step]. *)
Record search := { middle : T; rows : Z; delta : Z }.

(** [for (int i = 0; i < k_chunker_iterations; ++i)]: [fuel] iterations are left. *)
Fixpoint bisect (fuel : nat) (first : bool) (from left right : T) (s : search) : option search :=
  match fuel with
  | O => Some s
  | S fuel =>
      width ← num_sub right left;
      half ← num_half width;
      mid ← num_add left half;
      let s := {| middle := mid; rows := rows s; delta := delta s |} in
      high ← num_le right mid;
      low ← num_le mid left;
      if (high || low : bool) then Some s
      else
        n ← explain from mid;
        total ← (if first && (n <? rows_per_chunk info) then explain from right else Some (rows_per_chunk info));
        if total <? rows_per_chunk info then
          Some {| middle := right; rows := n; delta := rows_per_chunk info - total |}
        else
          let above := rows_per_chunk info <? n in
          let d := if above then n - rows_per_chunk info else rows_per_chunk info - n in
          let s := {| middle := mid; rows := n; delta := d |} in
          if d <=? accuracy info then Some s
          else if above then bisect fuel false from left mid s else bisect fuel false from mid right s
  end.

Definition k_chunker_retries : nat := 10.
Definition k_chunker_iterations : nat := 20.

(** [while (delta > info.accuracy && retry < k_chunker_retries)]: the value of [middle]. *)
Fixpoint adaptive_loop (fuel : nat) (from double_step max : T) (retry : nat) (s : search) : option T :=
  if (accuracy info <? delta s) && bool_decide (retry < k_chunker_retries)%nat then
    match fuel with
    | O => None
    | S fuel =>
        offset ← num_times (Z.of_nat retry) double_step;
        lower ← num_sub max offset;
        beyond ← num_le lower from;
        if (beyond : bool) then Some max
        else
          left ← num_add from offset;
          right ← num_sum left double_step;
          ordered ← num_lt left right;
          if (ordered : bool) then
            s ← bisect k_chunker_iterations true from left right s;
            at_end ← num_le max (middle s);
            let retry := if accuracy info <? delta s then
                           if (rows_per_chunk info <=? rows s) || at_end then k_chunker_retries else S retry
                         else retry in
            adaptive_loop fuel from double_step max retry s
          else None
    end
  else Some (middle s).

Definition adaptive_step (from step max : T) : option T :=
  double_step ← num_times 2 step;
  mid ← adaptive_loop (S k_chunker_retries) from double_step max 0
          {| middle := from; rows := rows_per_chunk info; delta := u64 (accuracy info + 1) |};
  d ← num_sub mid from;
  ensure_not_zero d.
End integer.

Arguments search T : clear implicits.

Section integer_column.
Context {T : Type} `{Number T} (info : Chunking_info).

Definition estimated_chunks : Z :=
  if 0 <? rows_per_chunk info then Z.max (row_count info / rows_per_chunk info) 1 else row_count info.

Definition use_constant_step (min max : T) : option bool :=
  if estimated_chunks <? 2 then Some true
  else num_close min max (row_count info) (Z.max (row_count info / 10) 1).

Definition next_step (constant : bool) (max from step : T) (chunk_id : str) : option T :=
  if constant then Some step else adaptive_step info chunk_id from step max.

(** [while (!last_chunk)] *)
Fixpoint integer_loop (fuel : nat) (constant : bool) (step max current : T) (ranges_count : nat)
    (tasks : list Table_data_task) : option (nat * list Table_data_task) :=
  if interrupted ranges_count then Some (ranges_count, tasks)
  else
    match fuel with
    | O => None
    | S fuel =>
        let chunk_id := to_string (Z.of_nat ranges_count) in
        let begin := current in
        new_step ← next_step constant max current step chunk_id;
        new_step ← num_dec new_step;
        limit ← num_sub max new_step;
        fits ← num_le current limit;
        current ← (if fits : bool then num_add current new_step else Some max);
        let end_ := current in
        last ← num_le max current;
        c ← between info begin end_;
        let tasks := tasks ++ [chunk_task (table info) c chunk_id ranges_count last] in
        current ← num_inc current;
        if (last : bool) then Some (S ranges_count, tasks)
        else integer_loop fuel constant step max current (S ranges_count) tasks
    end.

Definition chunk_integer_column (fuel : nat) (min max : T) : option (nat * list Table_data_task) :=
  step ← num_step min max estimated_chunks;
  constant ← use_constant_step min max;
  integer_loop fuel constant step max min 0 [].
End integer_column.

Section column.
Context {B : Type} `{BN B} (info : Chunking_info).

(** The texts of a row are read as numbers. *)
Definition chunk_integer_row (fuel : nat) (begin end_ : Row) : option (nat * list Table_data_task) :=
  column ← info_columns info !! index_column info;
  b ← begin !! index_column info;
  e ← end_ !! index_column info;
  match type column with
  | Integer => b ← to_int64_t b; e ← to_int64_t e; chunk_integer_column info fuel (Int64 b) (Int64 e)
  | UInteger => b ← to_uint64_t b; e ← to_uint64_t e; chunk_integer_column info fuel (UInt64 b) (UInt64 e)
  | DumpWriter.Decimal =>
      b ← returned (parse_decimal (B:=B) b);
      e ← returned (parse_decimal (B:=B) e);
      chunk_integer_column info fuel b e
  | _ => None
  end.

Definition select_sql : str :=
  $"SELECT SQL_NO_CACHE " ++ str_join (drop (index_column info) (info_columns info)) ($",") quoted_name ++
  $" FROM " ++ table_name (table info) ++ partition info ++ $" ".

Definition order_by_and_limit : str :=
  order_by info ++ $" LIMIT " ++ to_string (u64 (rows_per_chunk info - 1)) ++ $",2 ".

(** [do ... while (range_end != end)] *)
Fixpoint non_integer_loop (fuel : nat) (end_ range_begin : Row) (ranges_count : nat) (tasks : list Table_data_task)
    : option (nat * list Table_data_task) :=
  match fuel with
  | O => None
  | S fuel =>
      c ← ge info range_begin;
      let chunk_id := to_string (Z.of_nat ranges_count) in
      let result := select_rows (select_sql ++ where_ (table info) c ++ order_by_and_limit ++
                                 get_query_comment (table info) chunk_id) in
      if interrupted ranges_count then Some (0%nat, tasks)
      else
        let range_end := default end_ (result !! 0%nat) in
        b ← between_rows info range_begin range_end;
        let tasks := tasks ++ [chunk_task (table info) b chunk_id ranges_count (bool_decide (range_end = end_))] in
        let range_begin := default end_ (result !! 1%nat) in
        if bool_decide (range_end = end_) then Some (S ranges_count, tasks)
        else non_integer_loop fuel end_ range_begin (S ranges_count) tasks
  end.

Definition chunk_non_integer_column (fuel : nat) (begin end_ : Row) : option (nat * list Table_data_task) :=
  non_integer_loop fuel end_ begin 0 [].

(** The number of chunks and the tasks. *)
Definition chunk_column (fuel : nat) : option (Z * list Table_data_task) :=
  match index_info (table info) with
  | None =>
      n ← divide64 (row_count info) (rows_per_chunk info);
      Some (u64 (n + 1), [whole_table_in_chunks_task])
  | Some (index, _) =>
      let sql := $"SELECT SQL_NO_CACHE " ++ columns_sql index ++ $" FROM " ++ table_name (table info) ++
                 partition info ++ where_ (table info) (info_boundary info) in
      let empty_table := Some (1, [chunk_task (table info) (info_boundary info) ($"0") 0 true]) in
      match select_rows (sql ++ order_by info ++ $" LIMIT 1") with
      | [] => empty_table
      | begin :: _ =>
          match select_rows (sql ++ order_by_desc info ++ $" LIMIT 1") with
          | [] => empty_table
          | end_ :: _ =>
              column ← index !! index_column info;
              '(n, tasks) ← (match type column with
                             | Integer | UInteger | DumpWriter.Decimal => chunk_integer_row fuel begin end_
                             | _ => chunk_non_integer_column fuel begin end_
                             end);
              Some (Z.of_nat n, tasks)
          end
      end
  end.
End column.

(** [create_ranged_tasks]: the condition on the index columns that may be NULL. *)
Fixpoint not_null_boundary (columns : Index) (bound : str) : str :=
  match columns with
  | [] => bound
  | c :: columns =>
      not_null_boundary columns
        (if nullable c then
           bound ++ (if bool_decide (bound = []) then [] else $"AND") ++ $"(" ++ quoted_name c ++ $" IS NOT NULL)"
         else bound)
  end.

Definition k_default_row_size : Z := 256.

Definition make_Chunking_info (task : Table_task) (partition_name : option str) (rows average_row_length bytes_per_chunk : Z)
    : Chunking_info :=
  let average := if average_row_length =? 0 then k_default_row_size else average_row_length in
  let rows_per_chunk := bytes_per_chunk / average in
  let index := match index_info task with Some (index, _) => index | None => [] end in
  {| table := task;
     row_count := rows;
     rows_per_chunk := rows_per_chunk;
     accuracy := Z.max (rows_per_chunk / 10) 10;
     partition := match partition_name with Some p => $" PARTITION (" ++ p ++ $")" | None => [] end;
     info_boundary := match index_info task with Some (index, false) => not_null_boundary index [] | _ => [] end;
     order_by := match index_info task with Some (index, _) => $" ORDER BY " ++ columns_sql index | None => [] end;
     order_by_desc := match index_info task with
                      | Some (index, _) => $" ORDER BY " ++ str_join index ($",") (λ c, quoted_name c ++ $" DESC")
                      | None => []
                      end;
     index_column := 0 |}.

Definition create_ranged_tasks {B : Type} `{BN B} (fuel : nat) (split : bool) (task : Table_task) (partition_name : option str)
    (rows average_row_length bytes_per_chunk : Z) : option (Z * list Table_data_task) :=
  if split then chunk_column (B:=B) (make_Chunking_info task partition_name rows average_row_length bytes_per_chunk) fuel
  else Some (0, []).

(** The number of files, and the tasks. *)
Definition create_table_data_tasks {B : Type} `{BN B} (fuel : nat) (split : bool) (task : Table_task)
    (partition_name : option str) (rows average_row_length bytes_per_chunk : Z) : option (Z * list Table_data_task) :=
  '(ranges, tasks) ← create_ranged_tasks (B:=B) fuel split task partition_name rows average_row_length bytes_per_chunk;
  Some (if ranges =? 0 then (ranges + 1, tasks ++ [whole_table_task]) else (ranges, tasks)).
End chunking.
