(* ===== verification/ChunkConditions.v ===== *)
(** * Dividing a table into chunks: the meaning of the conditions

    The boundaries of the tasks are texts of SQL conditions.  This file has the grammar and the
    three-valued meaning of the conditions that occur, and shows which conditions the texts
    that [Dumper::Table_worker] builds are. *)
From S2P Require Import Prelude UtilsString Lexing SqlString DumpWriter Decimal Chunking.

(** ** Conditions *)

Inductive cond :=
  | Cmp (column op literal : str)
  | Between (column lo hi : str)
  | IsNull (column : str)
  | IsNotNull (column : str)
  | And (a b : cond)
  | Or (a b : cond).

Definition operators : list str := [$">"; $">="; $"<"; $"<="; $"="].

(** A keyword between two texts: there is a space, or a parenthesis, on each side. *)
Definition joined (s keyword t : str) (text : str) : Prop :=
  ∃ l r, text = s ++ l ++ keyword ++ r ++ t ∧
    (l = $" " ∨ (l = [] ∧ last s = Some ")"%char)) ∧ (r = $" " ∨ (r = [] ∧ head t = Some "("%char)).

(** The texts of a condition.  Level 0: operands; level 1: conjunctions; level 2: all. *)
Inductive text : nat → cond → str → Prop :=
  | text_cmp column op literal : op ∈ operators → text 0 (Cmp column op literal) (column ++ op ++ literal)
  | text_between column lo hi :
      text 0 (Between column lo hi) (column ++ $" BETWEEN " ++ lo ++ $" AND " ++ hi)
  | text_is_null column : text 0 (IsNull column) (column ++ $" IS NULL")
  | text_is_not_null column : text 0 (IsNotNull column) (column ++ $" IS NOT NULL")
  | text_paren a s : text 2 a s → text 0 a ($"(" ++ s ++ $")")
  | text_and a b s t u : text 1 a s → text 0 b t → joined s ($"AND") t u → text 1 (And a b) u
  | text_or a b s t u : text 2 a s → text 1 b t → joined s ($"OR") t u → text 2 (Or a b) u
  | text_up n a s : text n a s → text (S n) a s.

Lemma text_not_empty n a s : text n a s → s ≠ [].
Proof.
  induction 1 as [column op literal Hop| | | | |a b s t u _ _ _ _ (l & r & -> & _)|a b s t u _ _ _ _ (l & r & -> & _)|]; try done.
  - intros [_ [-> _]%app_eq_nil]%app_eq_nil. unfold operators in Hop. set_solver.
  - by intros [_ [=]]%app_eq_nil.
  - by intros [_ [=]]%app_eq_nil.
  - by intros [_ [=]]%app_eq_nil.
  - by intros [_ [_ [=]]%app_eq_nil]%app_eq_nil.
  - by intros [_ [_ [=]]%app_eq_nil]%app_eq_nil.
Qed.

(** *** Meaning *)

Definition and3 (a b : option bool) : option bool :=
  match a, b with
  | Some false, _ | _, Some false => Some false
  | Some true, Some true => Some true
  | _, _ => None
  end.

Definition or3 (a b : option bool) : option bool :=
  match a, b with
  | Some true, _ | _, Some true => Some true
  | Some false, Some false => Some false
  | _, _ => None
  end.

Definition operator (op : str) (c : comparison) : bool :=
  if bool_decide (op = $">") then match c with Gt => true | _ => false end
  else if bool_decide (op = $">=") then match c with Lt => false | _ => true end
  else if bool_decide (op = $"<") then match c with Lt => true | _ => false end
  else if bool_decide (op = $"<=") then match c with Gt => false | _ => true end
  else match c with Eq => true | _ => false end.

Section meaning.
Context {V : Type} (order : V → V → comparison) (lit : str → V).

(** A row of the table: the value of a column, by its quoted name; [None] is NULL. *)
Abbreviation row := (str → option V).

Definition cmp3 (r : row) (column op literal : str) : option bool :=
  match r column with Some v => Some (operator op (order v (lit literal))) | None => None end.

Fixpoint eval (r : row) (c : cond) : option bool :=
  match c with
  | Cmp column op literal => cmp3 r column op literal
  | Between column lo hi => and3 (cmp3 r column ($">=") lo) (cmp3 r column ($"<=") hi)
  | IsNull column => Some (match r column with None => true | Some _ => false end)
  | IsNotNull column => Some (match r column with None => false | Some _ => true end)
  | And a b => and3 (eval r a) (eval r b)
  | Or a b => or3 (eval r a) (eval r b)
  end.

(** The rows a query with this condition returns. *)
Definition holds (r : row) (c : cond) : Prop := eval r c = Some true.

#[global] Instance holds_dec r c : Decision (holds r c).
Proof. unfold holds. solve_decision. Defined.

Lemma holds_and r a b : holds r (And a b) ↔ holds r a ∧ holds r b.
Proof. unfold holds. simpl. destruct (eval r a) as [[]|], (eval r b) as [[]|]; naive_solver. Qed.

Lemma holds_or r a b : holds r (Or a b) ↔ holds r a ∨ holds r b.
Proof. unfold holds. simpl. destruct (eval r a) as [[]|], (eval r b) as [[]|]; naive_solver. Qed.

Lemma holds_between r column lo hi v :
  r column = Some v → holds r (Between column lo hi) ↔ order v (lit lo) ≠ Lt ∧ order v (lit hi) ≠ Gt.
Proof.
  intros E. unfold holds. simpl. unfold cmp3. rewrite E. unfold operator. simpl.
  destruct (order v (lit lo)), (order v (lit hi)); naive_solver.
Qed.

Lemma holds_cmp r column op literal v :
  r column = Some v → holds r (Cmp column op literal) ↔ operator op (order v (lit literal)) = true.
Proof. intros E. unfold holds. simpl. unfold cmp3. rewrite E. split; [by intros [= ?]|by intros ->]. Qed.

(** *** Columns without NULL *)

Definition not_nulls (index : Index) : list str := quoted_name <$> filter (λ c, nullable c = true) index.

(** Are the columns of the index that may be NULL all set? *)
Definition all_set (r : row) (index : Index) : Prop := Forall (λ column, is_Some (r column)) (not_nulls index).

#[global] Instance all_set_dec r index : Decision (all_set r index).
Proof. unfold all_set. apply _. Defined.

(** A text of a condition that, for rows in [D], holds when [P] does. *)
Definition means (D : row → Prop) (n : nat) (s : str) (P : row → Prop) : Prop :=
  ∃ c, text n c s ∧ ∀ r, D r → holds r c ↔ P r.

Definition closed (s : str) : Prop := last s = Some ")"%char.

Lemma text_le n m a s : text n a s → (n ≤ m)%nat → text m a s.
Proof. intros Ht. induction 1; [done|by apply text_up]. Qed.

Lemma means_le D n m s P : means D n s P → (n ≤ m)%nat → means D m s P.
Proof. intros (c & Hc & Hr) Hle. exists c. split; [by eapply text_le|done]. Qed.

Lemma means_iff D D' n s P Q : means D n s P → (∀ r, D' r → D r ∧ (P r ↔ Q r)) → means D' n s Q.
Proof.
  intros (c & Hc & Hr) Hiff. exists c. split; [done|]. intros r HD. destruct (Hiff r HD) as [? ?]. rewrite Hr; done.
Qed.

Lemma means_paren D s P : means D 2 s P → means D 0 ($"(" ++ s ++ $")") P.
Proof. intros (c & Hc & Hr). exists c. split; [by apply text_paren|done]. Qed.

Lemma means_and D s t u P Q :
  means D 1 s P → means D 0 t Q → joined s ($"AND") t u → means D 1 u (λ r, P r ∧ Q r).
Proof.
  intros (a & Ha & Hra) (b & Hb & Hrb) Hj. exists (And a b). split; [by eapply text_and|].
  intros r HD. by rewrite holds_and, Hra, Hrb.
Qed.

Lemma means_or D s t u P Q :
  means D 2 s P → means D 1 t Q → joined s ($"OR") t u → means D 2 u (λ r, P r ∨ Q r).
Proof.
  intros (a & Ha & Hra) (b & Hb & Hrb) Hj. exists (Or a b). split; [by eapply text_or|].
  intros r HD. by rewrite holds_or, Hra, Hrb.
Qed.

Lemma joined_tight s keyword t : closed s → head t = Some "("%char → joined s keyword t (s ++ keyword ++ t).
Proof. intros Hs Ht. exists [], []. split; [done|]. split; by right. Qed.

Lemma joined_left s keyword t : head t = Some "("%char → joined s keyword t (s ++ $" " ++ keyword ++ t).
Proof. intros Ht. exists ($" "), []. split; [done|]. split; [by left|by right]. Qed.

Lemma joined_loose s keyword t : joined s keyword t (s ++ $" " ++ keyword ++ $" " ++ t).
Proof. exists ($" "), ($" "). split; [done|]. split; by left. Qed.

Lemma closed_app s t : closed t → closed (s ++ t).
Proof. unfold closed. intros Ht. rewrite last_app. by rewrite Ht. Qed.

Lemma closed_paren s : closed ($"(" ++ s ++ $")").
Proof. apply closed_app, closed_app. done. Qed.

(** *** Conditions on NULL *)

Lemma means_is_not_null D column : means D 0 ($"(" ++ column ++ $" IS NOT NULL)") (λ r, is_Some (r column)).
Proof.
  exists (IsNotNull column). split.
  - replace (column ++ $" IS NOT NULL)") with ((column ++ $" IS NOT NULL") ++ $")") by (by rewrite <- (assoc_L (++))).
    apply text_paren. apply (text_le 0); [constructor|lia].
  - intros r _. unfold holds. simpl. destruct (r column); naive_solver.
Qed.

Lemma means_is_null D column : means D 0 ($"(" ++ column ++ $" IS NULL)") (λ r, r column = None).
Proof.
  exists (IsNull column). split.
  - replace (column ++ $" IS NULL)") with ((column ++ $" IS NULL") ++ $")") by (by rewrite <- (assoc_L (++))).
    apply text_paren. apply (text_le 0); [constructor|lia].
  - intros r _. unfold holds. simpl. destruct (r column); naive_solver.
Qed.

Lemma all_set_cons r c index :
  all_set r (c :: index) ↔ (nullable c = true → is_Some (r (quoted_name c))) ∧ all_set r index.
Proof.
  unfold all_set, not_nulls. rewrite filter_cons. case_decide as Hn; simpl.
  - rewrite Forall_cons. naive_solver.
  - naive_solver.
Qed.

Lemma not_null_boundary_more D columns bound P :
  means D 1 bound P → closed bound → bound ≠ [] →
  means D 1 (not_null_boundary columns bound) (λ r, P r ∧ all_set r columns) ∧ closed (not_null_boundary columns bound) ∧
    not_null_boundary columns bound ≠ [].
Proof.
  revert bound P. induction columns as [|c columns IH]; intros bound P Hm Hc Hne; cbn [not_null_boundary].
  - split; [|done]. apply (means_iff _ _ _ _ _ _ Hm). intros r HD. split; [done|]. unfold all_set. simpl. naive_solver.
  - destruct (nullable c) eqn:E.
    + rewrite bool_decide_eq_false_2 by done.
      destruct (IH (bound ++ $"AND" ++ $"(" ++ quoted_name c ++ $" IS NOT NULL)") (λ r, P r ∧ is_Some (r (quoted_name c)))) as (Hm' & ? & ?).
      * eapply means_and; [done|apply means_is_not_null|]. by apply joined_tight.
      * do 4 apply closed_app. done.
      * by destruct bound.
      * split; [|done]. apply (means_iff _ _ _ _ _ _ Hm'). intros r HD. split; [done|]. rewrite all_set_cons, E. naive_solver.
    + destruct (IH bound P) as (Hm' & ? & ?); [done..|]. split; [|done].
      apply (means_iff _ _ _ _ _ _ Hm'). intros r HD. split; [done|]. rewrite all_set_cons, E. naive_solver.
Qed.

(** The boundary of [create_ranged_tasks]: empty, or all nullable columns are set. *)
Lemma not_null_boundary_means D columns :
  (not_null_boundary columns [] = [] ∧ ∀ r, all_set r columns) ∨
  (means D 1 (not_null_boundary columns []) (λ r, all_set r columns) ∧ closed (not_null_boundary columns []) ∧
   not_null_boundary columns [] ≠ []).
Proof.
  induction columns as [|c columns IH]; cbn [not_null_boundary]; [left; split; [done|]; intros r; by apply Forall_nil_2|].
  destruct (nullable c) eqn:E.
  - right. rewrite bool_decide_eq_true_2 by done.
    destruct (not_null_boundary_more D columns ([] ++ [] ++ $"(" ++ quoted_name c ++ $" IS NOT NULL)")
                (λ r, is_Some (r (quoted_name c)))) as (Hm & ? & ?).
    + apply (means_le _ 0); [apply means_is_not_null|lia].
    + simpl. apply (closed_app ($"(")), closed_app. done.
    + done.
    + split; [|done]. apply (means_iff _ _ _ _ _ _ Hm). intros r HD. split; [done|]. rewrite all_set_cons, E. naive_solver.
  - destruct IH as [[E' Hr]|(Hm & ? & ?)]; [left|right].
    + split; [done|]. intros r. rewrite all_set_cons, E. naive_solver.
    + split; [|done]. apply (means_iff _ _ _ _ _ _ Hm). intros r HD. split; [done|]. rewrite all_set_cons, E. naive_solver.
Qed.

(** The condition of the first chunk. *)
Lemma add_nulls_means D columns bound P :
  means D 2 bound P → closed bound → bound ≠ [] →
  means D 2 (add_nulls columns bound) (λ r, P r ∨ ¬ all_set r columns) ∧ closed (add_nulls columns bound).
Proof.
  revert bound P. induction columns as [|c columns IH]; intros bound P Hm Hc Hne; cbn [add_nulls].
  - split; [|done]. apply (means_iff _ _ _ _ _ _ Hm). intros r HD. split; [done|]. unfold all_set. simpl.
    split; [by left|]. intros [?|[]]; [done|]. by apply Forall_nil_2.
  - destruct (nullable c) eqn:E.
    + rewrite bool_decide_eq_false_2 by done.
      destruct (IH (bound ++ $"OR" ++ $"(" ++ quoted_name c ++ $" IS NULL)") (λ r, P r ∨ r (quoted_name c) = None)) as (Hm' & ?).
      * eapply means_or; [done|apply (means_le _ 0); [apply means_is_null|lia]|]. by apply joined_tight.
      * do 4 apply closed_app. done.
      * by destruct bound.
      * split; [|done]. apply (means_iff _ _ _ _ _ _ Hm'). intros r HD. split; [done|]. rewrite all_set_cons, E.
        destruct (r (quoted_name c)) as [v|] eqn:Er.
        -- assert (is_Some (Some v)) by done. destruct (decide (all_set r columns)); naive_solver.
        -- assert (¬ is_Some (@None V)) by (by intros [? ?]). naive_solver.
    + destruct (IH bound P) as (Hm' & ?); [done..|]. split; [|done].
      apply (means_iff _ _ _ _ _ _ Hm'). intros r HD. split; [done|]. rewrite all_set_cons, E.
      destruct (decide (all_set r columns)); naive_solver.
Qed.

(** *** Comparison of rows *)

(** The columns of a row compared with texts of values, the first one first. *)
Fixpoint lex (r : row) (columns : Index) (values : Row) : comparison :=
  match columns, values with
  | c :: columns, v :: values =>
      match r (quoted_name c) with
      | Some x => match order x (lit (quote_value v (type c))) with Eq => lex r columns values | o => o end
      | None => Eq
      end
  | _, _ => Eq
  end.

Definition set_in (columns : Index) (r : row) : Prop := Forall (λ c, is_Some (r (quoted_name c))) columns.

Lemma strict_operator op (o : comparison) :
  op = $">" ∨ op = $"<" → operator (op ++ $"=") o = true ↔ operator op o = true ∨ o = Eq.
Proof. intros [-> | ->]; destruct o; vm_compute; naive_solver. Qed.

Lemma operator_eq (o : comparison) : operator ($"=") o = true ↔ o = Eq.
Proof. destruct o; vm_compute; naive_solver. Qed.

Lemma compare_loop_means D op columns values result scolumns svalues :
  op = $">" ∨ op = $"<" → length columns = length values → (∀ r, D r → set_in columns r) →
  means D 2 result (λ r, operator (op ++ $"=") (lex r scolumns svalues) = true) →
  means D 2 (compare_loop columns values op result)
    (λ r, operator (op ++ $"=") (lex r (reverse columns ++ scolumns) (reverse values ++ svalues)) = true).
Proof.
  intros Hop. revert values result scolumns svalues.
  induction columns as [|c columns IH]; intros [|v values] result scolumns svalues Hlen HD Hm; try done.
  cbn [compare_loop]. rewrite !reverse_cons, <- !(assoc_L (++)). simpl. apply IH; [by simplify_eq/=| |].
  { intros r Hr. specialize (HD r Hr). by apply Forall_cons in HD as [_ ?]. }
  set (val := quote_value v (type c)).
  apply (means_iff D D 2 _ (λ r, operator op (order (default (lit val) (r (quoted_name c))) (lit val)) = true ∨
                            operator ($"=") (order (default (lit val) (r (quoted_name c))) (lit val)) = true ∧
                            operator (op ++ $"=") (lex r scolumns svalues) = true)).
  - eapply (means_or _ (quoted_name c ++ op ++ val) ($"(" ++ (quoted_name c ++ $"=" ++ val ++ $" AND(" ++ result ++ $")") ++ $")")).
    + apply (means_le _ 0); [|lia]. eexists. split; [constructor; destruct Hop as [-> | ->]; set_solver|].
      intros r Hr. specialize (HD r Hr). apply Forall_cons in HD as [[x Ex] _]. rewrite (holds_cmp _ _ _ _ x) by done. by rewrite Ex.
    + apply (means_le _ 0); [|lia]. apply means_paren. apply (means_le _ 1); [|lia].
      eapply (means_and _ (quoted_name c ++ $"=" ++ val) ($"(" ++ result ++ $")")).
      * apply (means_le _ 0); [|lia]. eexists. split; [constructor; set_solver|].
        intros r Hr. specialize (HD r Hr). apply Forall_cons in HD as [[x Ex] _]. rewrite (holds_cmp _ _ _ _ x) by done. by rewrite Ex.
      * by apply means_paren.
      * exists ($" "), []. split; [by rewrite <- !(assoc_L (++))|]. split; [by left|by right].
    + exists ($" "), []. split; [by rewrite <- !(assoc_L (++))|]. split; [by left|by right].
  - intros r Hr. split; [done|]. specialize (HD r Hr). apply Forall_cons in HD as [[x Ex] _]. rewrite Ex. cbn [default].
    simpl. rewrite Ex. fold val. rewrite operator_eq. rewrite !strict_operator by done.
    assert (operator op Eq = false) by (destruct Hop as [-> | ->]; reflexivity). generalize (lex r scolumns svalues). intros o'.
    destruct (order x (lit val)); intuition congruence.
Qed.

Lemma compare_means D info value op :
  op = $">" ∨ op = $"<" → (∀ r, D r → set_in (drop (index_column info) (info_columns info)) r) →
  length (drop (index_column info) (info_columns info)) = length value → value ≠ [] →
  ∃ s, compare info value op true = Some ($"(" ++ s ++ $")") ∧
    means D 0 ($"(" ++ s ++ $")")
      (λ r, operator (op ++ $"=") (lex r (drop (index_column info) (info_columns info)) value) = true).
Proof.
  intros Hop. set (columns := drop (index_column info) (info_columns info)). intros HD Hlen Hne.
  unfold compare. fold columns. rewrite length_reverse, bool_decide_eq_true_2 by done.
  destruct value as [|v values _] using rev_ind; [done|]. destruct columns as [|c cols _] using rev_ind.
  { rewrite length_app in Hlen. simpl in Hlen. lia. }
  rewrite !length_app in Hlen. rewrite !reverse_snoc. eexists. split; [done|]. apply means_paren.
  assert (means D 2 (quoted_name c ++ op ++ $"=" ++ quote_value v (type c))
            (λ r, operator (op ++ $"=") (lex r [c] [v]) = true)) as Hlast.
  { apply (means_le _ 0); [|lia]. eexists. split.
    { rewrite (assoc_L (++) op). constructor. destruct Hop as [-> | ->]; set_solver. }
    intros r Hr. specialize (HD r Hr). apply Forall_app in HD as [_ HD]. apply Forall_cons in HD as [[x Ex] _].
    rewrite (holds_cmp _ _ _ _ x) by done. simpl. rewrite Ex. by destruct (order x _). }
  apply (compare_loop_means D op (reverse cols) (reverse values)) in Hlast; rewrite ?reverse_involutive in *; [done|done| |].
  - rewrite !length_reverse. simpl in Hlen. lia.
  - intros r Hr. specialize (HD r Hr). apply Forall_app in HD as [HD _]. by apply Forall_reverse.
Qed.

(** *** The condition of a task *)

Lemma means_and_guarded D s t u P Q :
  means D 1 s P → means (λ r, D r ∧ P r) 0 t Q → joined s ($"AND") t u → means D 1 u (λ r, P r ∧ Q r).
Proof.
  intros (a & Ha & Hra) (b & Hb & Hrb) Hj. exists (And a b). split; [by eapply text_and|].
  intros r HD. rewrite holds_and, Hra by done. split; intros [Hp Hq]; (split; [done|]); by apply (Hrb r (conj HD Hp)).
Qed.

Lemma means_not_empty D n s P : means D n s P → s ≠ [].
Proof. intros (c & Ht & _). by eapply text_not_empty. Qed.

(** A guard, which may be empty, before a condition. *)
Lemma guarded_means D guard sep t P Q :
  (guard = [] ∧ ∀ r, P r) ∨ (means D 1 guard P ∧ closed guard ∧ guard ≠ []) →
  means (λ r, D r ∧ P r) 0 t Q → sep = $" AND " ∨ (sep = $" AND" ∧ head t = Some "("%char) →
  means D 1 (guard ++ (if bool_decide (guard = []) then [] else sep) ++ t) (λ r, P r ∧ Q r).
Proof.
  intros [[-> HP]|(Hm & Hc & Hne)] Ht Hsep.
  - rewrite bool_decide_eq_true_2 by done. simpl. apply (means_le _ 0); [|lia].
    apply (means_iff _ _ _ _ _ _ Ht). intros r HD. specialize (HP r). naive_solver.
  - rewrite bool_decide_eq_false_2 by done. eapply means_and_guarded; [done..|].
    destruct Hsep as [-> | [-> Hh]]; [apply joined_loose|by apply joined_left].
Qed.

Lemma chunk_task_means D task bound id idx last P :
  means D 2 bound P → bound ≠ [] →
  means D 0 (boundary (chunk_task task bound id idx last))
    (λ r, P r ∨ idx = 0%nat ∧ ∃ index, index_info task = Some (index, false) ∧ ¬ all_set r index).
Proof.
  intros Hm Hne. unfold chunk_task. cbn [boundary]. rewrite (bool_decide_eq_false_2 (bound = [])) by done.
  destruct (index_info task) as [[index []]|] eqn:E.
  - apply means_paren in Hm. apply (means_iff _ _ _ _ _ _ Hm). intros r HD. split; [done|]. naive_solver.
  - case_bool_decide as Hi.
    + apply means_paren. apply means_paren in Hm.
      destruct (add_nulls_means D index ($"(" ++ bound ++ $")") P) as [Hm' _];
        [by apply (means_le _ 0); [|lia]|apply closed_paren|done|].
      apply (means_iff _ _ _ _ _ _ Hm'). intros r HD. split; [done|]. naive_solver.
    + apply means_paren in Hm. apply (means_iff _ _ _ _ _ _ Hm). intros r HD. split; [done|]. naive_solver.
  - apply means_paren in Hm. apply (means_iff _ _ _ _ _ _ Hm). intros r HD. split; [done|]. naive_solver.
Qed.
End meaning.
