(* ===== verification/ChunkingFacts.v ===== *)
(** * Dividing a table into chunks: the ranges of an integer column

    The templates of [Dumper::Table_worker] are proved correct against the laws
    [NumberLaws] of their type parameter, which [uint64_t], [int64_t] and [Decimal] have: for
    any answers of EXPLAIN, the ranges of the tasks follow one another from the least to the
    greatest value, and the loop ends. *)
From S2P Require Import Prelude UtilsString Lexing SqlString DumpWriter Decimal DecimalFacts Chunking.

Open Scope Z_scope.

(** ** Laws of the numbers *)

(** [fits]: the result of an operation is exact; [defined]: the behaviour of a subtraction
    is defined (it may wrap); [unit_]: the number 1, in units of the last digit. *)
Class NumberLaws (T : Type) {N : Number T} := {
  val : T → Z;
  wf : T → Prop;
  fits : Z → Prop;
  defined : Z → Prop;
  unit_ : Z;
  unit_pos : 1 <= unit_;
  fits_defined z : fits z → defined z;
  fits_0 : fits 0;
  fits_convex a b c : fits a → fits b → a <= c <= b → fits c;
  wf_fits a : wf a → fits (val a);
  num_le_ok a b : wf a → wf b → num_le a b = Some (val a <=? val b);
  num_add_ok a b : wf a → wf b → fits (val a + val b) → ∃ c, num_add a b = Some c ∧ wf c ∧ val c = val a + val b;
  num_sub_ok a b :
    wf a → wf b → defined (val a - val b) →
    ∃ c, num_sub a b = Some c ∧ wf c ∧ (fits (val a - val b) → val c = val a - val b);
  (* a difference that wraps is less than every number *)
  sub_wraps a v b : wf a → wf b → 0 <= v → defined (val a - v) → fits (val a - v) ∨ val a - v < val b;
  num_times_ok n a : wf a → 0 <= n <= 10 → fits (n * val a) → ∃ c, num_times n a = Some c ∧ wf c ∧ val c = n * val a;
  num_half_ok a : wf a → 0 <= val a → ∃ c, num_half a = Some c ∧ wf c ∧ val c = val a / 2;
  num_inc_ok a : wf a → fits (val a + 1) → ∃ c, num_inc a = Some c ∧ wf c ∧ val c = val a + 1;
  num_dec_ok a : wf a → fits (val a - 1) → ∃ c, num_dec a = Some c ∧ wf c ∧ val c = val a - 1;
  num_is_zero_ok a : wf a → num_is_zero a = Some (val a =? 0);
  num_sum_ok a b :
    wf a → wf b → 0 <= val b → fits (val a + val b) → ∃ c, num_sum a b = Some c ∧ wf c ∧ val c = val a + val b;
  num_step_ok a b chunks :
    wf a → wf b → val a <= val b → fits (val b - val a) → 0 < chunks < 2 ^ 64 →
    ∃ c, num_step a b chunks = Some c ∧ wf c ∧ 1 <= val c <= Z.max ((val b - val a + unit_) / chunks) 1;
  num_close_ok a b rows accuracy :
    wf a → wf b → val a <= val b → fits (val b - val a) → 0 <= rows < 2 ^ 64 → 0 <= accuracy < 2 ^ 64 →
    ∃ c, num_close a b rows accuracy = Some c;
}.

(** ** The types *)

(** The estimated step of the integral types: at least 1, at most the length of the range. *)
Lemma step64 d chunks cap :
  0 <= d < 2 ^ 64 → 0 < chunks → 1 <= cap →
  let n := ensure_not_zero64 (distance64 d / chunks) in
  1 <= (if n <? cap then n else cap) <= Z.max ((d + 1) / chunks) 1 ∧ (if n <? cap then n else cap) <= cap.
Proof.
  intros Hd Hc Hcap n.
  assert (0 <= distance64 d / chunks <= (d + 1) / chunks) as Hn.
  { unfold distance64. split; [apply Z.div_pos; destruct (Z.ltb_spec d (2 ^ 64 - 1)); lia|].
    apply Z.div_le_mono; [done|]. destruct (Z.ltb_spec d (2 ^ 64 - 1)); lia. }
  assert (1 <= n <= Z.max ((d + 1) / chunks) 1).
  { unfold n, ensure_not_zero64. destruct (Z.eqb_spec (distance64 d / chunks) 0); lia. }
  destruct (Z.ltb_spec n cap); lia.
Qed.

#[global] Instance uint64_laws : NumberLaws uint64.
Proof.
  refine {| val := uint64_value; wf a := 0 <= uint64_value a < 2 ^ 64; fits z := 0 <= z < 2 ^ 64; defined _ := True;
            unit_ := 1 |}; cbn -[Z.pow].
  - done.
  - done.
  - done.
  - intros. lia.
  - done.
  - done.
  - intros a b _ _ Hf. eexists. split; [done|]. cbn -[Z.pow]. rewrite u64_small by lia. lia.
  - intros a b _ _ _. eexists. split; [done|]. cbn -[Z.pow]. split; [apply u64_range|]. intros. apply u64_small. lia.
  - intros a v b Ha Hb Hv _. lia.
  - intros n a _ _ Hf. eexists. split; [done|]. cbn -[Z.pow]. rewrite u64_small by lia. lia.
  - intros a Ha Hv. eexists. split; [done|]. cbn -[Z.pow]. split; [|done]. Z.div_mod_to_equations. lia.
  - intros a _ Hf. eexists. split; [done|]. cbn -[Z.pow]. rewrite u64_small by lia. lia.
  - intros a _ Hf. eexists. split; [done|]. cbn -[Z.pow]. rewrite u64_small by lia. lia.
  - done.
  - intros a b Ha Hb Hv Hf. eexists. split; [done|]. cbn -[Z.pow]. rewrite !u64_small by lia.
    destruct (Z.leb_spec (2 ^ 64 - 1 - uint64_value b) (uint64_value a)); lia.
  - intros a b chunks Ha Hb Hle Hf Hc. unfold divide64. rewrite (proj2 (Z.eqb_neq _ _)) by lia. cbn -[Z.pow Z.div Z.max].
    rewrite u64_small by lia. eexists. split; [done|].
    destruct (step64 (uint64_value b - uint64_value a) chunks (2 ^ 64 - 1)); [lia..|]. cbn -[Z.pow Z.div Z.max]. lia.
  - intros. by eexists.
Defined.

Lemma signed_ok z : INT64_MIN <= z <= INT64_MAX → signed z = Some (Int64 z).
Proof. intros Hz. unfold signed. by rewrite !(proj2 (Z.leb_le _ _)) by lia. Qed.

#[global] Instance int64_laws : NumberLaws int64.
Proof.
  refine {| val := int64_value; wf a := INT64_MIN <= int64_value a <= INT64_MAX;
            fits z := INT64_MIN <= z <= INT64_MAX; defined z := INT64_MIN <= z <= INT64_MAX;
            unit_ := 1 |}; cbn -[Z.pow INT64_MIN INT64_MAX].
  - done.
  - done.
  - done.
  - intros. lia.
  - done.
  - done.
  - intros a b _ _ Hf. rewrite signed_ok by done. by eexists.
  - intros a b _ _ Hf. rewrite signed_ok by done. by eexists.
  - intros a v b Ha Hb Hv Hd. by left.
  - intros n a _ _ Hf. rewrite signed_ok by done. by eexists.
  - intros a Ha Hv. eexists. split; [done|]. cbn -[Z.pow INT64_MIN INT64_MAX].
    rewrite Z.quot_div_nonneg by lia. split; [|done]. unfold INT64_MIN, INT64_MAX in *. Z.div_mod_to_equations. lia.
  - intros a _ Hf. rewrite signed_ok by done. by eexists.
  - intros a _ Hf. rewrite signed_ok by done. by eexists.
  - done.
  - intros a b Ha Hb Hv Hf. rewrite (signed_ok (INT64_MAX - _)) by (unfold INT64_MIN, INT64_MAX in *; lia).
    cbn -[Z.pow INT64_MIN INT64_MAX]. destruct (Z.leb_spec (INT64_MAX - int64_value b) (int64_value a)).
    + eexists. split; [done|]. cbn -[Z.pow INT64_MIN INT64_MAX]. unfold INT64_MIN, INT64_MAX in *. lia.
    + rewrite signed_ok by done. by eexists.
  - intros a b chunks Ha Hb Hle Hf Hc. rewrite signed_ok by done. cbn -[Z.pow Z.div Z.max INT64_MIN INT64_MAX].
    unfold divide64. rewrite (proj2 (Z.eqb_neq _ _)) by lia. cbn -[Z.pow Z.div Z.max INT64_MIN INT64_MAX].
    unfold INT64_MIN, INT64_MAX in *. rewrite u64_small by lia. eexists. split; [done|].
    destruct (step64 (int64_value b - int64_value a) chunks (2 ^ 63 - 1)); [lia..|]. cbn -[Z.pow Z.div Z.max]. lia.
  - intros a b rows accuracy Ha Hb Hle Hf _ _. rewrite signed_ok by done. by eexists.
Defined.

(** The decimals with as many fractional digits as [d]. *)
Section decimal_laws.
Context {B : Type} `{BN B} (d : Decimal B) (Hd : decimal_ok d).

Let scale : Z := 10 ^ Z.of_nat (m_fractional_digits d).

Lemma scale_pos : 1 <= scale.
Proof. unfold scale. pose proof (pow10_pos (m_fractional_digits d)). lia. Qed.

Lemma returned_ok {A} (P : A → Prop) (r : result A) : (∃ a, r = Ok a ∧ P a) → ∃ a, returned r = Some a ∧ P a.
Proof. intros (a & -> & Ha). by exists a. Qed.

Lemma with_int_ok {A} (f : Decimal B → Decimal B → result A) (P : A → Prop) x n :
  alike d x → (∀ y, alike d y → dval y = bn_value n * scale → ∃ a, f x y = Ok a ∧ P a) →
  ∃ a, with_int f x n = Some a ∧ P a.
Proof.
  intros Hx Hf. unfold with_int. destruct (convert_value d x n Hx) as (y & -> & Hy & Hv).
  destruct (Hf y Hy Hv) as (a & Ea & Ha). exists a. simpl. by rewrite Ea.
Qed.

Lemma int_with_ok {A} (f : Decimal B → Decimal B → result A) (P : A → Prop) x n :
  alike d x → (∀ y, alike d y → dval y = bn_value n * scale → ∃ a, f y x = Ok a ∧ P a) →
  ∃ a, int_with f n x = Some a ∧ P a.
Proof.
  intros Hx Hf. unfold int_with. destruct (convert_value d x n Hx) as (y & -> & Hy & Hv).
  destruct (Hf y Hy Hv) as (a & Ea & Ha). exists a. simpl. by rewrite Ea.
Qed.

Lemma small_signed n : -10 <= n <= 10 → bn_value (bignum_of_signed n) = n.
Proof. intros. apply bignum_of_signed_value. unfold INT64_MIN, INT64_MAX. lia. Qed.

Lemma decimal_le_value x y : alike d x → alike d y → decimal_le x y = Some (dval x <=? dval y).
Proof.
  intros Hx Hy. unfold decimal_le. rewrite (decimal_compare_value d x y Hx Hy). simpl. f_equal.
  rewrite (Z.leb_compare (dval x)). by destruct (dval x ?= dval y).
Qed.

Lemma decimal_is_zero_value x : alike d x → decimal_is_zero x = Some (dval x =? 0).
Proof.
  intros Hx. unfold decimal_is_zero.
  destruct (with_int_ok decimal_compare (λ c, c = match dval x ?= 0 with Lt => -1 | Eq => 0 | Gt => 1 end)
              x (bignum_of_signed 0) Hx) as (c & -> & ->).
  - intros y Hy Hv. rewrite (decimal_compare_value d x y Hx Hy). rewrite small_signed in Hv by lia. rewrite Hv.
    by eexists.
  - simpl. rewrite (Z.eqb_compare (dval x)). by destruct (dval x ?= 0).
Qed.

Lemma decimal_distance_value x y :
  alike d x → alike d y → ∃ z, decimal_distance x y = Some z ∧ alike d z ∧ dval z = dval y - dval x + scale.
Proof.
  intros Hx Hy. unfold decimal_distance. destruct (decimal_sub_value d y x Hy Hx) as (z & -> & Hz & Hv). simpl.
  apply with_int_ok; [done|]. intros o Ho Ev. rewrite small_signed in Ev by lia.
  destruct (decimal_add_value d z o Hz Ho) as (r & -> & Hr & Er). exists r. split_and!; [done|done|]. lia.
Qed.

(** A quotient by an integer cuts off the digits beyond the last one. *)
Lemma decimal_div_int x n :
  alike d x → 0 <= dval x → 0 < bn_value n →
  ∃ z, with_int decimal_div x n = Some z ∧ alike d z ∧ dval z = dval x / bn_value n.
Proof.
  intros Hx Hv Hn. apply with_int_ok; [done|]. intros y Hy Ev. pose proof scale_pos.
  destruct (decimal_div_value d x y Hx Hy) as (z & -> & Hz & Ez); [nia|]. exists z. split_and!; [done|done|].
  rewrite Ez, Ev. fold scale. rewrite Z.quot_div_nonneg by nia. apply Z.div_mul_cancel_r; lia.
Qed.

Lemma decimal_compare_int x n :
  alike d x → ∃ r, with_int decimal_compare x n = Some r ∧ True.
Proof.
  intros Hx. apply with_int_ok; [done|]. intros y Hy _. rewrite (decimal_compare_value d x y Hx Hy). by eexists.
Qed.

Definition Decimal_laws : NumberLaws (Decimal B).
Proof.
  refine {| val := dval; wf := alike d; fits _ := True; defined _ := True; unit_ := scale |}; try done.
  - apply scale_pos.
  - intros a b Ha Hb. by apply decimal_le_value.
  - intros a b Ha Hb _. apply returned_ok. by apply decimal_add_value.
  - intros a b Ha Hb _. apply returned_ok. destruct (decimal_sub_value d a b Ha Hb) as (c & ? & ? & ?). by exists c.
  - intros a v b _ _ _ _. by left.
  - intros n a Ha Hn _. apply int_with_ok; [done|]. intros y Hy Ev. rewrite small_signed in Ev by lia.
    destruct (decimal_mul_value d y a Hy Ha) as (c & -> & Hc & Ec). exists c. split_and!; [done|done|]. rewrite Ec, Ev.
    fold scale. pose proof scale_pos. replace (n * scale * dval a) with (n * dval a * scale) by lia. apply Z.quot_mul. lia.
  - intros a Ha Hv. destruct (decimal_div_int a (bignum_of_signed 2) Ha Hv) as (c & Ec & Hc & Vc);
      rewrite small_signed in * by lia; [lia|]. by exists c.
  - intros a Ha _. eexists. split; [done|]. by apply decimal_inc_value.
  - intros a Ha _. eexists. split; [done|]. by apply decimal_dec_value.
  - apply decimal_is_zero_value.
  - intros a b Ha Hb _ _. apply returned_ok. by apply decimal_add_value.
  - intros a b chunks Ha Hb Hle _ Hc. simpl. destruct (decimal_distance_value a b Ha Hb) as (r & -> & Hr & Er). simpl.
    pose proof scale_pos.
    destruct (decimal_div_int r (bignum_of_unsigned chunks) Hr) as (n & -> & Hn & En);
      rewrite ?bignum_of_unsigned_value in * by lia; [lia..|]. simpl. rewrite (decimal_is_zero_value n Hn). simpl.
    assert (0 <= dval n) by (rewrite En; apply Z.div_pos; lia).
    destruct (decimal_inc_value d n Hn) as [Hi Ei]. rewrite Er in En.
    destruct (Z.eqb_spec (dval n) 0); eexists; (split; [done|]); split; [done| |done|]; lia.
  - intros a b rows accuracy Ha Hb Hle _ Hrows Hacc. simpl.
    destruct (decimal_distance_value a b Ha Hb) as (r & -> & Hr & Er). simpl.
    destruct (decimal_compare_int r (bignum_of_unsigned rows) Hr) as (c & -> & _). simpl.
    assert (∃ x, (if 0 <? c then with_int decimal_sub r (bignum_of_unsigned rows)
                  else int_with decimal_sub (bignum_of_unsigned rows) r) = Some x ∧ alike d x) as (x & -> & Hx).
    { destruct (0 <? c); [apply with_int_ok|apply int_with_ok]; try done; intros y Hy _.
      - destruct (decimal_sub_value d r y Hr Hy) as (z & ? & ? & _). by exists z.
      - destruct (decimal_sub_value d y r Hy Hr) as (z & ? & ? & _). by exists z. }
    simpl. destruct (decimal_compare_int x (bignum_of_unsigned accuracy) Hx) as (e & -> & _). by eexists.
Defined.
End decimal_laws.

(** ** Ranges *)

(** Ranges that follow one another, from [from] to [max] or beyond. *)
Fixpoint chain (from max : Z) (ranges : list (Z * Z)) : Prop :=
  match ranges with
  | [] => False
  | [(b, e)] => b = from ∧ from <= max <= e
  | (b, e) :: ranges => b = from ∧ from <= e < max ∧ chain (e + 1) max ranges
  end.

Definition inside (z : Z) (r : Z * Z) : Prop := r.1 <= z <= r.2.

Lemma chain_first from max ranges j r z :
  chain from max ranges → ranges !! j = Some r → inside z r → from <= z.
Proof.
  revert from j. induction ranges as [|[b e] ranges IH]; intros from j Hc Hj Hz; [done|].
  destruct j as [|j]; simplify_eq/=.
  - destruct ranges; unfold inside in Hz; simpl in *; lia.
  - destruct ranges as [|r' ranges]; [done|]. destruct Hc as (_ & ? & Hc). specialize (IH _ _ Hc Hj Hz). lia.
Qed.

(** Every value is in exactly one range. *)
Lemma chain_unique from max ranges z :
  chain from max ranges → from <= z <= max →
  ∃ i, (∃ r, ranges !! i = Some r ∧ inside z r) ∧ ∀ j r, ranges !! j = Some r → inside z r → j = i.
Proof.
  revert from. induction ranges as [|[b e] ranges IH]; intros from Hc Hz; [done|].
  destruct ranges as [|r' ranges].
  - destruct Hc as [? ?]. exists 0%nat. split; [exists (b, e); split; [done|unfold inside; simpl; lia]|].
    intros [|j] r Hj _; [done|]. done.
  - destruct Hc as (Hb & He & Hc). destruct (decide (z <= e)).
    + exists 0%nat. split; [exists (b, e); split; [done|unfold inside; simpl; lia]|].
      intros [|j] r Hj Hin; [done|]. pose proof (chain_first _ _ _ _ _ _ Hc Hj Hin). lia.
    + destruct (IH _ Hc) as (i & (r & Hi & Hr) & Hu); [lia|]. exists (S i). split; [by exists r|].
      intros [|j] r'' Hj Hin; [|f_equal; by eapply Hu]. simplify_eq/=. unfold inside in Hin. simpl in Hin. lia.
Qed.

(** The tasks of ranges with conditions, numbered from [n]; the last one is marked. *)
Fixpoint numbered_tasks {A} (condition : A → str → Prop) (task : Table_task) (n : nat) (ranges : list A)
    (tasks : list Table_data_task) : Prop :=
  match ranges, tasks with
  | [], [] => True
  | range :: ranges, t :: tasks =>
      (∃ c, condition range c ∧ t = chunk_task task c (to_string (Z.of_nat n)) n (bool_decide (ranges = []))) ∧
      numbered_tasks condition task (S n) ranges tasks
  | _, _ => False
  end.

Lemma numbered_tasks_length {A} (condition : A → str → Prop) task n ranges tasks :
  numbered_tasks condition task n ranges tasks → length tasks = length ranges.
Proof. revert n tasks. induction ranges as [|range ranges IH]; intros n [|t tasks]; simpl; naive_solver. Qed.

Lemma numbered_tasks_lookup {A} (condition : A → str → Prop) task n ranges tasks i t :
  numbered_tasks condition task n ranges tasks → tasks !! i = Some t →
  ∃ range c, ranges !! i = Some range ∧ condition range c ∧
    t = chunk_task task c (to_string (Z.of_nat (n + i))) (n + i) (bool_decide (S i = length ranges)).
Proof.
  revert n tasks i. induction ranges as [|range ranges IH]; intros n [|t' tasks] i Hr Hi; try done.
  destruct Hr as ((c & Hc & ->) & Hr). destruct i as [|i]; simplify_eq/=.
  - exists range, c. rewrite Nat.add_0_r. split_and!; try done. do 2 f_equal. apply bool_decide_ext. destruct ranges; naive_solver.
  - destruct (IH _ _ _ Hr Hi) as (range' & c' & ? & ? & ->). exists range', c'. split_and!; try done.
    rewrite <- Nat.add_succ_comm. do 2 f_equal. apply bool_decide_ext. lia.
Qed.

(** ** The loops *)

Section loops.
Context (member_name : str) (explain_rows : str → Z).
Context {T : Type} {N : Number T} {L : NumberLaws T} (info : Chunking_info) (column : Column).
Context (Hcolumn : info_columns info !! index_column info = Some column).

Lemma fits_between a b c : fits a → fits b → a <= c <= b → fits c.
Proof. apply fits_convex. Qed.

Lemma between_ok begin end_ :
  wf begin → wf end_ → val begin <= val end_ → ∃ c, between info begin end_ = Some c.
Proof.
  intros Hb He Hle. unfold between, between_column. rewrite Hcolumn. simpl.
  rewrite !num_le_ok by done. rewrite (proj2 (Z.leb_le (val begin) (val end_))) by done. by eexists.
Qed.

Lemma explain_ok id begin end_ :
  wf begin → wf end_ → val begin <= val end_ → ∃ n, explain member_name explain_rows info id begin end_ = Some n.
Proof.
  intros Hb He Hle. unfold explain. destruct (between_ok begin end_ Hb He Hle) as [c ->]. by eexists.
Qed.

Lemma num_sub_exact a b : wf a → wf b → fits (val a - val b) → ∃ c, num_sub a b = Some c ∧ wf c ∧ val c = val a - val b.
Proof.
  intros Ha Hb Hf. destruct (num_sub_ok a b Ha Hb (fits_defined _ Hf)) as (c & Ec & Hc & Vc). exists c. split_and!; [done|done|by apply Vc].
Qed.

(** The result of a bisection is in the interval. *)
Lemma bisect_ok id fuel first from left right s :
  wf from → wf left → wf right → val from <= val left → val left <= val right → fits (val right - val left) →
  (fuel = 0%nat → wf (middle s) ∧ val left <= val (middle s) <= val right) →
  ∃ s', bisect member_name explain_rows info id fuel first from left right s = Some s' ∧
    wf (middle s') ∧ val left <= val (middle s') <= val right.
Proof.
  revert first left right s. induction fuel as [|fuel IH]; intros first left right s Hf Hl Hr Hfl Hlr Hfit H0.
  { destruct H0 as [? ?]; [done|]. by exists s. }
  cbn [bisect]. destruct (num_sub_exact right left) as (w & -> & Hw & Vw); [done..|]. cbn [mbind option_bind].
  destruct (num_half_ok w) as (h & -> & Hh & Vh); [done|lia|]. cbn [mbind option_bind].
  assert (0 <= val h <= val w) by (rewrite Vh; Z.div_mod_to_equations; lia).
  destruct (num_add_ok left h) as (m & -> & Hm & Vm); [done..| |].
  { apply (fits_between (val left) (val right)); [by apply wf_fits..|]. lia. }
  cbn [mbind option_bind]. rewrite !num_le_ok by done. cbn [mbind option_bind].
  assert (val left <= val m <= val right) by lia.
  destruct ((val right <=? val m) || (val m <=? val left)) eqn:E; [by eexists|].
  apply orb_false_iff in E as [E1%Z.leb_gt E2%Z.leb_gt].
  destruct (explain_ok id from m) as [n ->]; [done..|lia|]. cbn [mbind option_bind].
  assert (∃ total, (if first && (n <? rows_per_chunk info) then explain member_name explain_rows info id from right
                    else Some (rows_per_chunk info)) = Some total) as [total ->].
  { destruct (_ && _); [apply explain_ok; [done..|lia]|by eexists]. }
  cbn [mbind option_bind]. destruct (total <? _); [eexists; split; [done|]; cbn; split; [done|lia]|].
  destruct (_ <=? accuracy info); [by eexists|]. set (s' := {| middle := m |}).
  assert (fits (val m - val left) ∧ fits (val right - val m)) as [? ?].
  { split; (apply (fits_between 0 (val right - val left)); [apply fits_0|done|lia]). }
  assert (∀ l r, val l <= val m <= val r → fuel = 0%nat → wf (middle s') ∧ val l <= val (middle s') <= val r) by done.
  destruct (_ <? n).
  - destruct (IH false left m s') as (s'' & -> & ? & ?); [auto with lia..|]. exists s''. split_and!; [done|done|lia|lia].
  - destruct (IH false m right s') as (s'' & -> & ? & ?); [auto with lia..|]. exists s''. split_and!; [done|done|lia|lia].
Qed.

(** Room for the arithmetic on the range: up to twenty steps beyond the greatest value. *)
Definition room (step max : Z) : Prop :=
  fits (20 * step + 1) ∧ fits (max + 20 * step + 1) ∧ ∀ k, 0 <= k <= 20 * step → defined (max - k).

Section adaptive.
Context (max step : T) (Hmax : wf max) (Hstep : wf step) (Hpos : 1 <= val step) (Hroom : room (val step) (val max)).

(** Where the search ends: at the greatest value, or within twenty steps. *)
Definition reached (from m : T) : Prop :=
  wf m ∧ val from <= val m ∧ (val m <= val max ∨ val m <= val from + 20 * val step).

Lemma fits_ahead a v : wf a → val a <= v <= val max + 20 * val step + 1 → fits v.
Proof. destruct Hroom as (_ & Hf & _). intros Ha Hv. apply (fits_between (val a) _ v (wf_fits a Ha) Hf). lia. Qed.

Lemma fits_steps v : 0 <= v <= 20 * val step + 1 → fits v.
Proof. destruct Hroom as (Hf & _ & _). intros Hv. apply (fits_between 0 _ v fits_0 Hf). lia. Qed.

Lemma adaptive_loop_ok id double_step from fuel retry s :
  wf from → val from <= val max → wf double_step → val double_step = 2 * val step →
  reached from (middle s) → (k_chunker_retries ≤ fuel + retry)%nat →
  ∃ m, adaptive_loop member_name explain_rows info id fuel from double_step max retry s = Some m ∧ reached from m.
Proof.
  revert retry s. induction fuel as [|fuel IH]; intros retry s Hf Hfm Hd Vd Hs Hfuel; cbn [adaptive_loop];
    (destruct (_ && bool_decide _) eqn:E; [|by eexists]); apply andb_true_iff in E as [_ E%bool_decide_eq_true];
    [unfold k_chunker_retries in *; lia|].
  unfold k_chunker_retries in *.
  destruct (num_times_ok (Z.of_nat retry) double_step) as (o & -> & Ho & Vo); [done|lia| |].
  { apply fits_steps. nia. }
  cbn [mbind option_bind]. assert (0 <= val o <= 18 * val step) by nia.
  destruct (num_sub_ok max o) as (l & -> & Hl & Vl); [done..| |]. { apply Hroom. lia. }
  cbn [mbind option_bind]. rewrite num_le_ok by done. cbn [mbind option_bind].
  destruct (_ <=? val from); [exists max; split; [done|]; split_and!; [done|done|by left]|].
  destruct (num_add_ok from o) as (left & -> & Hleft & Vleft); [done..| |]. { apply (fits_ahead from); [done|lia]. }
  cbn [mbind option_bind].
  destruct (num_sum_ok left double_step) as (right & -> & Hright & Vright); [done..|lia| |]. { apply (fits_ahead from); [done|lia]. }
  cbn [mbind option_bind]. unfold num_lt. rewrite num_le_ok by done. cbn [mbind option_bind].
  rewrite (proj2 (Z.leb_gt _ _)) by lia. cbn [negb].
  destruct (bisect_ok id k_chunker_iterations true from left right s) as (s' & -> & Hm & Vm); [done..|lia|lia| |done|].
  { apply fits_steps. lia. }
  cbn [mbind option_bind]. rewrite num_le_ok by done. cbn [mbind option_bind].
  destruct (accuracy info <? delta s') eqn:Ed.
  - apply IH; [done..| |destruct (_ || _); lia]. split_and!; [done|lia|right; lia].
  - destruct fuel; cbn [adaptive_loop]; rewrite Ed; eexists; (split; [done|]); (split_and!; [done|lia|right; lia]).
Qed.

Lemma adaptive_step_ok id from :
  wf from → val from <= val max → fits (val max - val from) →
  ∃ st, adaptive_step member_name explain_rows info id from step max = Some st ∧ wf st ∧ 1 <= val st ∧
    (val st <= 20 * val step ∨ val st <= val max - val from).
Proof.
  intros Hf Hfm Hfit. unfold adaptive_step.
  destruct (num_times_ok 2 step) as (ds & -> & Hds & Vds); [done|lia| |]. { apply fits_steps. lia. }
  cbn [mbind option_bind].
  destruct (adaptive_loop_ok id ds from (S k_chunker_retries) 0
              {| middle := from; rows := rows_per_chunk info; delta := u64 (accuracy info + 1) |})
    as (m & -> & Hm & Hge & Hb); [done..| |unfold k_chunker_retries; lia|].
  { split_and!; [done|done|by left]. }
  cbn [mbind option_bind].
  destruct (num_sub_exact m from) as (d & -> & Hd & Vd); [done..| |].
  { destruct Hb; [apply (fits_between 0 (val max - val from)); [apply fits_0|done|lia]|apply fits_steps; lia]. }
  cbn [mbind option_bind]. unfold ensure_not_zero. rewrite num_is_zero_ok by done. cbn [mbind option_bind].
  destruct (Z.eqb_spec (val d) 0).
  - destruct (num_inc_ok d) as (i & -> & Hi & Vi); [done|apply fits_steps; lia|]. exists i. split_and!; [done|done|lia|left; lia].
  - exists d. split_and!; [done|done|lia|destruct Hb; [right|left]; lia].
Qed.
End adaptive.

(** *** The ranges *)

Definition values (ranges : list (T * T)) : list (Z * Z) := (λ r, (val r.1, val r.2)) <$> ranges.

(** The condition of a range. *)
Definition range_condition (range : T * T) (c : str) : Prop :=
  wf range.1 ∧ wf range.2 ∧ val range.1 <= val range.2 ∧ between info range.1 range.2 = Some c.

Context (interrupted : nat → bool) (Hinterrupted : ∀ n, interrupted n = false).

Section integer_loop.
Context (min max step : T) (Hmin : wf min) (Hmax : wf max) (Hstep : wf step).
Context (Hpos : 1 <= val step) (Hroom : room (val step) (val max)) (Hspan : fits (val max - val min)).

Lemma next_step_ok constant from id :
  wf from → val min <= val from <= val max →
  ∃ st, next_step member_name explain_rows info constant max from step id = Some st ∧ wf st ∧ 1 <= val st ∧
    (val st <= 20 * val step ∨ val st <= val max - val from).
Proof.
  intros Hf Hb. unfold next_step. destruct constant; [exists step; split_and!; [done|done|lia|left; lia]|].
  apply adaptive_step_ok; try done; [lia|]. apply (fits_between 0 (val max - val min)); [apply fits_0|done|lia].
Qed.

(** The end of a range. *)
Lemma next_end_ok current st :
  wf current → val min <= val current <= val max → wf st → 1 <= val st →
  (val st <= 20 * val step ∨ val st <= val max - val current) →
  ∃ st' limit end_, num_dec st = Some st' ∧ num_sub max st' = Some limit ∧
    (le ← num_le current limit; if (le : bool) then num_add current st' else Some max) = Some end_ ∧
    wf end_ ∧ wf limit ∧ val current <= val end_ <= val max + 20 * val step.
Proof.
  intros Hc Hb Hst Hpos' Hbound.
  assert (∀ v, 0 <= v → (v <= 20 * val step ∨ v <= val max - val current) → fits v) as Hsmall.
  { intros v ? [?|?]; [by apply (fits_steps max step Hroom); lia|].
    apply (fits_between 0 (val max - val min)); [apply fits_0|done|lia]. }
  destruct (num_dec_ok st) as (st' & E1 & Hst' & V1); [done|apply Hsmall; lia|].
  assert (defined (val max - val st')) as Hdef.
  { destruct (decide (val st' <= 20 * val step)); [apply Hroom; lia|]. apply fits_defined.
    apply (fits_between (val current) (val max)); [by apply wf_fits..|]. lia. }
  destruct (num_sub_ok max st' Hmax Hst' Hdef) as (limit & E2 & Hl & V2). exists st', limit.
  rewrite E1, E2, num_le_ok by done. cbn [mbind option_bind].
  destruct (sub_wraps max (val st') current) as [Hf|Hw]; [done|done|lia|done| |].
  - rewrite (V2 Hf). destruct (Z.leb_spec (val current) (val max - val st')).
    + destruct (num_add_ok current st') as (e & -> & He & Ve); [done..| |].
      { apply (fits_ahead max step Hroom current); [done|lia]. }
      exists e. split_and!; [done..|lia|lia].
    + exists max. split_and!; [done..|lia|lia].
  - destruct (val current <=? val limit).
    + destruct (num_add_ok current st') as (e & -> & He & Ve); [done..| |].
      { apply (fits_ahead max step Hroom current); [done|lia]. }
      exists e. split_and!; [done..|lia|lia].
    + exists max. split_and!; [done..|lia|lia].
Qed.

Lemma integer_loop_ok constant fuel current n tasks :
  wf current → val min <= val current <= val max → (Z.to_nat (val max - val current + 1) ≤ fuel)%nat →
  ∃ ranges tasks', integer_loop member_name explain_rows interrupted info fuel constant step max current n tasks =
      Some ((n + length ranges)%nat, tasks ++ tasks') ∧
    chain (val current) (val max) (values ranges) ∧ numbered_tasks range_condition (table info) n ranges tasks'.
Proof.
  revert current n tasks. induction fuel as [|fuel IH]; intros current n tasks Hc Hb Hfuel; [lia|].
  cbn [integer_loop]. rewrite Hinterrupted. set (id := to_string (Z.of_nat n)).
  destruct (next_step_ok constant current id Hc Hb) as (st & -> & Hst & Hpos' & Hbound). cbn [mbind option_bind].
  destruct (next_end_ok current st Hc Hb Hst Hpos' Hbound) as (st' & limit & end_ & -> & E2 & Eend & He & Hl & Hrange).
  cbn [mbind option_bind]. rewrite E2. cbn [mbind option_bind]. rewrite num_le_ok in Eend |- * by done. cbn [mbind option_bind] in Eend |- *. rewrite Eend.
  cbn [mbind option_bind]. rewrite num_le_ok by done. cbn [mbind option_bind].
  destruct (between_ok current end_) as [c Ec]; [done..|lia|]. rewrite Ec. cbn [mbind option_bind].
  destruct (num_inc_ok end_) as (next & -> & Hn & Vn); [done| |].
  { apply (fits_ahead max step Hroom current); [done|lia]. }
  cbn [mbind option_bind]. destruct (Z.leb_spec (val max) (val end_)).
  - exists [(current, end_)], [chunk_task (table info) c id n true]. split; [|split].
    + f_equal. f_equal. simpl. lia.
    + simpl. lia.
    + simpl. split; [|done]. exists c. split; [|done]. split_and!; [done|done|simpl; lia|done].
  - destruct (IH next (S n) (tasks ++ [chunk_task (table info) c id n false])) as (ranges & tasks' & -> & Hchain & Htasks);
      [done|lia|lia|].
    exists ((current, end_) :: ranges), (chunk_task (table info) c id n false :: tasks').
    assert (ranges ≠ []) as Hne by (by intros ->). split; [|split].
    + rewrite <- (assoc_L (++)). simpl. by rewrite Nat.add_succ_r.
    + destruct ranges; [done|]. simpl in *. rewrite <- Vn. split_and!; [done|lia|done|done].
    + simpl. split; [|done]. exists c. rewrite bool_decide_eq_false_2 by done. split; [|done]. split_and!; [done|done|simpl; lia|done].
Qed.
End integer_loop.

Lemma estimated_chunks_pos :
  0 < row_count info < 2 ^ 64 ∨ 0 < rows_per_chunk info → 0 <= row_count info < 2 ^ 64 → 0 <= rows_per_chunk info →
  0 < estimated_chunks info < 2 ^ 64.
Proof.
  intros Hor Hrows Hper. unfold estimated_chunks. destruct (Z.ltb_spec 0 (rows_per_chunk info)); [|lia].
  assert (0 <= row_count info / rows_per_chunk info <= row_count info).
  { split; [apply Z.div_pos; lia|]. apply Z.div_le_upper_bound; [done|]. nia. }
  lia.
Qed.
End loops.

(** ** The chunks *)

(** Whatever EXPLAIN answers, the tasks are those of ranges that follow one another from
    [min] on, and every value from [min] to [max] is in exactly one of them; [max - min + 1]
    iterations are enough. *)
Lemma integer_chunks_ok `{L : NumberLaws T} member_name explain_rows interrupted info column (min max : T) fuel :
  info_columns info !! index_column info = Some column → (∀ n, interrupted n = false) →
  wf min → wf max → val min <= val max → fits (val max - val min) →
  0 <= row_count info < 2 ^ 64 → 0 <= rows_per_chunk info → 0 < row_count info ∨ 0 < rows_per_chunk info →
  room (Z.max ((val max - val min + unit_) / estimated_chunks info) 1) (val max) →
  (Z.to_nat (val max - val min + 1) ≤ fuel)%nat →
  ∃ ranges tasks, chunk_integer_column member_name explain_rows interrupted info fuel min max = Some (length ranges, tasks) ∧
    numbered_tasks (range_condition info) (table info) 0 ranges tasks ∧ chain (val min) (val max) (values ranges) ∧
    ∀ z, val min <= z <= val max →
      ∃ i, (∃ r, values ranges !! i = Some r ∧ inside z r) ∧ ∀ j r, values ranges !! j = Some r → inside z r → j = i.
Proof.
  intros Hcol Hint Hmin Hmax Hle Hspan Hrows Hper Hor Hroom Hfuel. unfold chunk_integer_column.
  destruct (estimated_chunks_pos info) as [? ?]; [lia..|].
  destruct (num_step_ok min max (estimated_chunks info)) as (step & -> & Hstep & Hs1 & Hs2); [done..|]. cbn [mbind option_bind].
  assert (∃ constant, use_constant_step info min max = Some constant) as [constant ->].
  { unfold use_constant_step. destruct (_ <? 2); [by eexists|]. apply num_close_ok; try done.
    assert (0 <= row_count info / 10 <= row_count info) by (Z.div_mod_to_equations; lia). lia. }
  cbn [mbind option_bind].
  assert (room (val step) (val max)) as Hroom'.
  { destruct Hroom as (Hf1 & Hf2 & Hd). split_and!.
    - apply (fits_between 0 _ _ fits_0 Hf1). lia.
    - apply (fits_between _ _ _ (wf_fits max Hmax) Hf2). lia.
    - intros k Hk. apply Hd. lia. }
  destruct (integer_loop_ok member_name explain_rows info column Hcol interrupted Hint min max step Hmax Hstep Hs1 Hroom' Hspan
              constant fuel min 0 []) as (ranges & tasks & E & Hchain & Htasks); [done|lia|done|].
  exists ranges, tasks. split_and!; [exact E|done|done|]. intros z Hz. by eapply chain_unique.
Qed.
