(* ===== verification/ChunkRowsFacts.v ===== *)
(** * Dividing a table into chunks: every row is dumped once

    The tasks of a table that is divided into chunks, for both algorithms of
    [Dumper::Table_worker]: the condition of exactly one task holds of every row of the table,
    also when columns of the index are NULL. *)
From S2P Require Import Prelude UtilsString UtilsStringFacts Lexing SqlString DumpWriter Decimal DecimalFacts Chunking.
From S2P Require Import ChunkConditions ChunkingFacts.

Open Scope Z_scope.

Section once.
Context {V : Type} (order : V → V → comparison) (lit : str → V).
Abbreviation row := (str → option V).

(** The tasks have conditions, and exactly one of them holds of each row in [D]. *)
Definition selected_once (D : row → Prop) (tasks : list Table_data_task) : Prop :=
  ∃ conds, Forall2 (λ t c, text 0 c (boundary t)) tasks conds ∧
    ∀ r, D r → ∃ i, (∃ c, conds !! i = Some c ∧ holds order lit r c) ∧
      ∀ j c, conds !! j = Some c → holds order lit r c → j = i.

(** A row of the table: a column that cannot be NULL has a value. *)
Definition valid (index : Index) (r : row) : Prop :=
  Forall (λ c, nullable c = false → is_Some (r (quoted_name c))) index.

Lemma valid_set index r : valid index r → all_set r index → set_in index r.
Proof.
  induction index as [|c index IH]; intros Hv Hs; [by apply Forall_nil_2|].
  apply Forall_cons in Hv as [Hc Hv]. apply all_set_cons in Hs as [Hn Hs].
  apply Forall_cons_2; [destruct (nullable c); auto|]. by apply IH.
Qed.

Lemma not_nullable_all_set index (r : row) : Forall (λ c, nullable c = false) index → all_set r index.
Proof.
  induction 1 as [|c index Hc _ IH]; [by apply Forall_nil_2|]. apply all_set_cons. split; [congruence|done].
Qed.

(** The boundary of the information about a table. *)
Lemma info_boundary_means D task index pke partition rows average bytes :
  let info := make_Chunking_info task partition rows average bytes in
  index_info task = Some (index, pke) → (pke = true → Forall (λ c, nullable c = false) index) →
  (info_boundary info = [] ∧ ∀ r : row, all_set r index) ∨
  (means order lit D 1 (info_boundary info) (λ r, all_set r index) ∧ closed (info_boundary info) ∧ info_boundary info ≠ []).
Proof.
  intros info E Hpke. cbn [info make_Chunking_info info_boundary]. rewrite E. destruct pke.
  - left. split; [done|]. intros r. by apply not_nullable_all_set, Hpke.
  - apply not_null_boundary_means.
Qed.

Lemma task_conditions (D : row → Prop) tasks (Q : nat → row → Prop) :
  (∀ i t, tasks !! i = Some t → means order lit D 0 (boundary t) (Q i)) →
  ∃ conds, Forall2 (λ t c, text 0 c (boundary t)) tasks conds ∧
    ∀ i c r, conds !! i = Some c → D r → holds order lit r c ↔ Q i r.
Proof.
  revert Q. induction tasks as [|t tasks IH]; intros Q Hmeans; [by exists []|].
  destruct (Hmeans 0%nat t eq_refl) as (c & Ht & Hr). destruct (IH (λ i, Q (S i))) as (conds & Hf & Hc).
  { intros i t' Hi. by apply (Hmeans (S i)). }
  exists (c :: conds). split; [by constructor|]. intros [|i] c' r Hi HD; simplify_eq/=; [by apply Hr|by apply Hc].
Qed.

(** The tasks of conditions [R i] on the rows whose index columns are set. *)
Lemma tasks_select_once (D : row → Prop) task index pke (tasks : list Table_data_task) (R : nat → row → Prop) :
  index_info task = Some (index, pke) → (pke = true → Forall (λ c, nullable c = false) index) → tasks ≠ [] →
  (∀ i t, tasks !! i = Some t → ∃ bound id last, t = chunk_task task bound id i last ∧ bound ≠ [] ∧
     means order lit D 2 bound (λ r, all_set r index ∧ R i r)) →
  (∀ r, D r → all_set r index → ∃ i, (i < length tasks)%nat ∧ R i r ∧ ∀ j, (j < length tasks)%nat → R j r → j = i) →
  selected_once D tasks.
Proof.
  intros E Hpke Hne Htasks Hone.
  assert (∀ i t, tasks !! i = Some t → means order lit D 0 (boundary t)
            (λ r, (all_set r index ∧ R i r) ∨ (i = 0%nat ∧ ¬ all_set r index))) as Hmeans.
  { intros i t Hi. destruct (Htasks i t Hi) as (bound & id & last & -> & Hb & Hm).
    pose proof (chunk_task_means order lit D task bound id i last _ Hm Hb) as Hm'.
    apply (means_iff _ _ _ _ _ _ _ _ Hm'). intros r HD. split; [done|]. rewrite E. split; [naive_solver|].
    intros [?|[? Hn]]; [by left|]. right. split; [done|]. exists index. destruct pke; [|done].
    destruct Hn. by apply not_nullable_all_set, Hpke. }
  destruct (task_conditions D tasks _ Hmeans) as (conds & Hf & Hc).
  exists conds. split; [done|]. intros r HD. assert (length tasks = length conds) as Hlen by (by eapply Forall2_length).
  destruct (decide (all_set r index)) as [Hs|Hs].
  - destruct (Hone r HD Hs) as (i & Hi & HR & Hu). rewrite Hlen in Hi. destruct (lookup_lt_is_Some_2 conds i Hi) as [c Ec].
    exists i. split; [exists c; split; [done|]; apply (Hc i c r); auto|].
    intros j c' Ej Hj. apply Hu; [rewrite Hlen; by eapply lookup_lt_Some|]. apply (Hc j c' r Ej HD) in Hj. naive_solver.
  - assert (0 < length conds)%nat as H0 by (destruct tasks; [done|]; simpl in *; lia).
    destruct (lookup_lt_is_Some_2 conds 0 H0) as [c Ec]. exists 0%nat.
    split; [exists c; split; [done|]; apply (Hc 0%nat c r); auto|].
    intros j c' Ej Hj. apply (Hc j c' r Ej HD) in Hj. naive_solver.
Qed.
End once.

(** ** Integer columns *)

Section integer.
Context {T : Type} {N : Number T} {L : NumberLaws T} (lit : str → Z).
Context (Hlit : ∀ x, wf x → lit (num_quote x) = val x).
Abbreviation row := (str → option Z).

Definition value_in (column : Column) (r : row) (range : T * T) : Prop :=
  ∃ z, r (quoted_name column) = Some z ∧ inside z (val range.1, val range.2).

Lemma between_column_means D column begin end_ :
  wf begin → wf end_ → val begin <= val end_ → (∀ r, D r → is_Some (r (quoted_name column))) →
  ∃ c, between_column (quoted_name column) begin end_ = Some c ∧
    means Z.compare lit D 0 c (λ r, value_in column r (begin, end_)).
Proof.
  intros Hb He Hle HD. unfold between_column. rewrite !num_le_ok by done. cbn [mbind option_bind].
  rewrite (proj2 (Z.leb_le (val begin) (val end_))) by done. cbn [mbind option_bind].
  eexists. split; [done|]. unfold value_in, inside. cbn [fst snd]. destruct (Z.leb_spec (val end_) (val begin)).
  - exists (Cmp (quoted_name column) ($"=") (num_quote begin)). split; [constructor; set_solver|].
    intros r Hr. destruct (HD r Hr) as [z Ez]. rewrite (holds_cmp _ _ _ _ _ _ z) by done. rewrite operator_eq, Hlit by done.
    rewrite Z.compare_eq_iff. rewrite Ez. split; [intros ->; exists (val begin); split; [done|lia]|].
    intros (? & [= <-] & ?). lia.
  - exists (Between (quoted_name column) (num_quote begin) (num_quote end_)). split; [constructor|].
    intros r Hr. destruct (HD r Hr) as [z Ez]. rewrite (holds_between _ _ _ _ _ _ z) by done. rewrite !Hlit by done.
    rewrite Z.compare_ge_iff, Z.compare_le_iff, Ez. split; [intros [? ?]; by exists z|]. by intros (? & [= <-] & ?).
Qed.

(** The condition of a range. *)
Lemma between_means (D : row → Prop) info task column columns pke partition rows average bytes (b e : T) c :
  info = make_Chunking_info task partition rows average bytes → index_info task = Some (column :: columns, pke) →
  (pke = true → Forall (λ c, nullable c = false) (column :: columns)) → (∀ r, D r → valid (column :: columns) r) →
  wf b → wf e → val b <= val e → between info b e = Some c →
  c ≠ [] ∧ means Z.compare lit D 2 c (λ r, all_set r (column :: columns) ∧ value_in column r (b, e)).
Proof.
  intros Hinfo E Hpke HD Hb He Hle. unfold between, info_columns. rewrite Hinfo. cbn [table make_Chunking_info index_column].
  rewrite E. cbn [lookup list_lookup mbind option_bind]. rewrite <- Hinfo.
  destruct (between_column_means (λ r, D r ∧ all_set r (column :: columns)) column b e) as (c' & Ec & Hm); [done..| |].
  { intros r [Hr Hs]. pose proof (valid_set _ _ (HD r Hr) Hs) as Hset. by apply Forall_cons in Hset as [? _]. }
  rewrite Ec. cbn [mbind option_bind]. intros [= <-]. split.
  - intros [_ [_ ?]%app_eq_nil]%app_eq_nil. by apply means_not_empty in Hm.
  - apply (means_le _ _ _ 1); [|lia]. apply guarded_means; [|done|by left]. rewrite Hinfo. by eapply info_boundary_means.
Qed.
End integer.

(** ** Theorems *)

(** C14: A table divided by an integer or decimal column: whatever EXPLAIN answers, the
    chunking ends and the condition of exactly one task holds of each row whose value is
    between the least and the greatest one, or is NULL. This is for a server that reads a
    quoted number as its value, an index that, if it is taken for like a primary key, has
    no nullable columns, a chunking that is not interrupted, with fewer than 2^64 rows and
    a number of rows or of rows per chunk that is not 0, for a difference between the
    greatest and the least value that the type holds, and for a greatest value that is
    more than twenty steps away from the limits of the type, where a step is the range
    divided by the estimated number of chunks; otherwise the code can overflow or divide
    by 0. *)
Theorem integer_rows_dumped_once `{L : NumberLaws T} member_name explain_rows interrupted (lit : str → Z)
    task column columns pke partition rows average bytes (min max : T) fuel :
  let index := column :: columns in
  let info := make_Chunking_info task partition rows average bytes in
  index_info task = Some (index, pke) → (pke = true → Forall (λ c, nullable c = false) index) →
  (∀ x, wf x → lit (num_quote x) = val x) → (∀ n, interrupted n = false) →
  wf min → wf max → val min <= val max → fits (val max - val min) →
  0 <= rows < 2 ^ 64 → 0 <= rows_per_chunk info → 0 < rows ∨ 0 < rows_per_chunk info →
  room (Z.max ((val max - val min + unit_) / estimated_chunks info) 1) (val max) →
  (Z.to_nat (val max - val min + 1) ≤ fuel)%nat →
  ∃ n tasks, chunk_integer_column member_name explain_rows interrupted info fuel min max = Some (n, tasks) ∧
    length tasks = n ∧
    (∀ i t, tasks !! i = Some t → chunk t = Z.of_nat i ∧ last_chunk t = bool_decide (S i = n)) ∧
    selected_once Z.compare lit
      (λ r, valid index r ∧ (all_set r index → value_in column r (min, max))) tasks.
Proof.
  intros index info E Hpke Hlit Hint Hmin Hmax Hle Hspan Hrows Hper Hor Hroom Hfuel.
  assert (info_columns info = index) as Hindex by (unfold info_columns; simpl; by rewrite E).
  destruct (integer_chunks_ok member_name explain_rows interrupted info column min max fuel)
    as (ranges & tasks & Er & Htasks & Hchain & Hunique); try done; [by rewrite Hindex|].
  pose proof (numbered_tasks_length _ _ _ _ _ Htasks) as Hlen.
  exists (length ranges), tasks. split_and!; [done|done| |].
  - intros i t Hi. destruct (numbered_tasks_lookup _ _ _ _ _ i t Htasks Hi) as (range & c & _ & _ & ->). done.
  - apply (tasks_select_once _ _ _ task index pke tasks
             (λ i r, ∃ range, ranges !! i = Some range ∧ value_in column r range)); [done|done| | |].
    + intros ->. simpl in Hlen. destruct ranges; [done|]. simpl in Hlen. lia.
    + intros i t Hi. destruct (numbered_tasks_lookup _ _ _ _ _ i t Htasks Hi) as ([b e] & c & Hr & (Hb & He & Hbe & Ec) & ->).
      destruct (between_means lit Hlit (λ r, valid index r ∧ (all_set r index → value_in column r (min, max)))
                  info task column columns pke partition rows average bytes b e c) as [Hne Hm];
        [done..|by intros r [? ?]|done|done|done|done|].
      exists c. do 2 eexists. split; [done|]. split; [done|]. apply (means_iff _ _ _ _ _ _ _ _ Hm).
      intros r HD. split; [done|]. rewrite Hr. naive_solver.
    + intros r [Hv Hin] Hs. destruct (Hin Hs) as (z & Ez & Hz). unfold inside in Hz. cbn [fst snd] in Hz.
      destruct (Hunique z Hz) as (i & (range & Hi & Hinr) & Hu). exists i. split_and!.
      * rewrite Hlen. apply list_lookup_fmap_Some in Hi as (be & _ & Hi). by eapply lookup_lt_Some.
      * apply list_lookup_fmap_Some in Hi as (be & -> & ?). exists be. split; [done|]. by exists z.
      * intros j _ (be & Hj & z' & Ez' & Hz'). simplify_eq. eapply Hu; [|exact Hz']. unfold values. by rewrite list_lookup_fmap, Hj.
Qed.

(** *** A table with a unique index of two columns that may be NULL *)

Lemma isdigit_not_space c : isdigit c = true → isspace c = false ∧ c ≠ "-"%char ∧ c ≠ "+"%char.
Proof. intros E. split_and!; [|by intros ->..]. by destruct c as [[] [] [] [] [] [] [] []]. Qed.

(** The server reads the text of an integer as the integer. *)
Lemma strto_to_string z : strto (to_string z) = Some z.
Proof.
  destruct (to_string_digits z) as (negative & digits & -> & Hne & Hd & Hz). unfold strto.
  destruct digits as [|d digits]; [done|]. pose proof Hd as Hd'. apply Forall_cons in Hd' as [Hdd _].
  destruct (isdigit_not_space d Hdd) as (Hsp & Hm & Hp).
  assert (find_if (λ c, negb (isdigit c)) (d :: digits) = None) as Hf.
  { apply find_if_None. eapply Forall_impl; [exact Hd|]. by intros c ->. }
  destruct negative.
  - change (_ ++ d :: digits) with ("-"%char :: d :: digits). cbn [find_if]. change (negb (isspace "-"%char)) with true.
    cbn [drop]. rewrite bool_decide_eq_true_2 by done. rewrite Hf. rewrite bool_decide_eq_false_2 by done. by rewrite Hz.
  - cbn [app find_if]. rewrite Hsp. cbn [negb]. rewrite drop_0, !bool_decide_eq_false_2 by done. rewrite Hf.
    rewrite bool_decide_eq_false_2 by done. by rewrite Hz.
Qed.

Definition sample_column : Column := {| quoted_name := $"`id`"; nullable := true; type := Integer |}.
Definition sample_columns : Index := [{| quoted_name := $"`k`"; nullable := true; type := String_ |}].
Definition sample_task : Table_task :=
  {| task_name := $"`s`.`t`"; table_name := $"`s`.`t`"; extra_filter := [];
     index_info := Some (sample_column :: sample_columns, false) |}.
Definition sample_lit (s : str) : Z := default 0 (strto s).

Lemma integer_rows_dumped_once_witness :
  let index := sample_column :: sample_columns in
  let info := make_Chunking_info sample_task None 50 65536 655360 in
  ∃ n tasks, chunk_integer_column ($"dumpTables") (λ _, 30) (λ _, false) info 100 (Int64 1) (Int64 100) = Some (n, tasks) ∧
    selected_once Z.compare sample_lit (λ r, valid index r ∧ (all_set r index → value_in sample_column r (Int64 1, Int64 100))) tasks.
Proof.
  destruct (integer_rows_dumped_once ($"dumpTables") (λ _, 30) (λ _, false) sample_lit sample_task sample_column sample_columns
              false None 50 65536 655360 (Int64 1) (Int64 100) 100) as (n & tasks & E & _ & _ & Hs).
  - reflexivity.
  - discriminate.
  - intros [x] _. cbn. unfold sample_lit. rewrite strto_to_string. reflexivity.
  - reflexivity.
  - cbn. unfold INT64_MIN, INT64_MAX. lia.
  - cbn. unfold INT64_MIN, INT64_MAX. lia.
  - cbn. lia.
  - cbn. unfold INT64_MIN, INT64_MAX. lia.
  - lia.
  - apply Z.leb_le. reflexivity.
  - left. lia.
  - change (Z.max _ _) with 20. unfold room. cbn. unfold INT64_MIN, INT64_MAX. split_and!; [lia..|]. intros. lia.
  - cbn. lia.
  - exact (ex_intro _ n (ex_intro _ tasks (conj E Hs))).
Defined.
