(* ===== verification/ChunkKeysFacts.v ===== *)
(** * Dividing a table into chunks: columns that are not integers

    [chunk_non_integer_column] asks the server for the last key of each chunk.  The server is a
    list of keys in the order of the index, and answers the queries of the algorithm the way
    a SELECT with that condition, order and limit does. *)
From S2P Require Import Prelude UtilsString UtilsStringFacts Lexing SqlString DumpWriter Decimal DecimalFacts Chunking.
From S2P Require Import ChunkConditions ChunkingFacts ChunkRowsFacts.

(** ** Orders *)

(** The order of the values of a column; values may be equal without being the same (in a
    collation that ignores case). *)
Class TotalOrder {A} (cmp : A → A → comparison) := {
  cmp_opp a b : cmp b a = CompOpp (cmp a b);
  cmp_trans a b c : cmp a b ≠ Gt → cmp b c ≠ Gt → cmp a c ≠ Gt;
}.

Lemma cmp_refl `{TotalOrder A cmp} a : cmp a a = Eq.
Proof. pose proof (cmp_opp a a) as E. by destruct (cmp a a). Qed.

Lemma cmp_eq_l `{TotalOrder A cmp} a b c : cmp a b = Eq → cmp a c = cmp b c.
Proof.
  intros E. pose proof (cmp_opp a b) as E'. rewrite E in E'. simpl in E'.
  pose proof (cmp_trans a b c). pose proof (cmp_trans b a c). pose proof (cmp_trans c a b). pose proof (cmp_trans c b a).
  pose proof (cmp_opp a c). pose proof (cmp_opp b c).
  destruct (cmp a c) eqn:?, (cmp b c) eqn:?; simpl in *; try done; exfalso; intuition congruence.
Qed.

Lemma cmp_eq_r `{TotalOrder A cmp} a b c : cmp a b = Eq → cmp c a = cmp c b.
Proof. intros E. by rewrite (cmp_opp a c), (cmp_opp b c), (cmp_eq_l a b c E). Qed.

Lemma cmp_lt_trans `{TotalOrder A cmp} a b c : cmp a b = Lt → cmp b c = Lt → cmp a c = Lt.
Proof.
  intros E1 E2. pose proof (cmp_trans a b c) as Ht. rewrite E1, E2 in Ht.
  destruct (cmp a c) eqn:E; [|done|by destruct Ht]. rewrite (cmp_opp b a) in E1.
  rewrite (cmp_eq_r a c b E) in E1. by rewrite E2 in E1.
Qed.

(** Lists of values, compared from the first one on. *)
Fixpoint lex_values {V} (order : V → V → comparison) (a b : list V) : comparison :=
  match a, b with
  | x :: a, y :: b => match order x y with Eq => lex_values order a b | o => o end
  | [], [] => Eq
  | [], _ :: _ => Lt
  | _ :: _, [] => Gt
  end.

#[global] Instance lex_values_order {V} (order : V → V → comparison) `{!TotalOrder order} : TotalOrder (lex_values order).
Proof.
  split.
  - intros a. induction a as [|x a IH]; intros [|y b]; try done. simpl. rewrite (cmp_opp x y).
    destruct (order x y); [apply IH|done..].
  - intros a. induction a as [|x a IH]; intros [|y b] [|z c]; try done. simpl.
    destruct (order x y) eqn:E1; [rewrite (cmp_eq_l x y z E1)| |done].
    + destruct (order y z); [apply IH|done..].
    + intros _. destruct (order y z) eqn:E2; [rewrite <- (cmp_eq_r y z x E2), E1; done| |done].
      intros _. by rewrite (cmp_lt_trans x y z E1 E2).
Qed.

(** ** The keys of the table *)

Lemma filter_all {A} (P : A → Prop) `{∀ x, Decision (P x)} l : Forall P l → filter P l = l.
Proof. induction 1 as [|x l Hx _ IH]; [done|]. by rewrite filter_cons_True, IH. Qed.

Lemma filter_none {A} (P : A → Prop) `{∀ x, Decision (P x)} l : Forall (λ x, ¬ P x) l → filter P l = [].
Proof. induction 1 as [|x l Hx _ IH]; [done|]. by rewrite filter_cons_False, IH. Qed.

Section keys.
Context {V : Type} (order : V → V → comparison) `{!TotalOrder order} (lit : str → V).
Abbreviation row := (str → option V).

Definition literals (index : Index) (key : Row) : list V := zip_with (λ c v, lit (quote_value v (type c))) index key.

Definition key_cmp (index : Index) (a b : Row) : comparison := lex_values order (literals index a) (literals index b).

(** The row has the key. *)
Definition has_key (index : Index) (r : row) (key : Row) : Prop :=
  ∃ vs, Forall2 (λ c v, r (quoted_name c) = Some v) index vs ∧ lex_values order vs (literals index key) = Eq.

Lemma lex_literals index (r : row) vs (key : Row) :
  Forall2 (λ c v, r (quoted_name c) = Some v) index vs → length index = length key →
  lex order lit r index key = lex_values order vs (literals index key).
Proof.
  intros Hf. revert key. induction Hf as [|c v index vs Hv _ IH]; intros [|k key] Hlen; try done.
  simpl. rewrite Hv. rewrite IH by (simpl in Hlen; lia). done.
Qed.

(** Rows are compared with texts as their keys are. *)
Lemma lex_has_key index (r : row) key key' :
  has_key index r key → length index = length key' → lex order lit r index key' = key_cmp index key key'.
Proof.
  intros (vs & Hf & He) Hlen. rewrite (lex_literals index r vs key' Hf Hlen). unfold key_cmp. by apply cmp_eq_l.
Qed.

Context (index : Index) (keys : list Row).

(** Keys of the right length, in strictly increasing order. *)
Definition keys_ok : Prop :=
  Forall (λ k, length index = length k) keys ∧
  ∀ i j a b, (i < j)%nat → keys !! i = Some a → keys !! j = Some b → key_cmp index a b = Lt.

Lemma key_cmp_positions i j a b :
  keys_ok → keys !! i = Some a → keys !! j = Some b → key_cmp index a b = (i ?= j)%nat.
Proof.
  intros [_ Hs] Ha Hb. destruct (Nat.compare_spec i j) as [->|Hij|Hij].
  - simplify_eq. unfold key_cmp. apply cmp_refl.
  - by apply (Hs i j).
  - unfold key_cmp. rewrite cmp_opp. change (lex_values _ _ _) with (key_cmp index b a). by rewrite (Hs j i b a).
Qed.

(** The rows that are not less than a key are those from its position on. *)
Lemma filter_from_key i b :
  keys_ok → keys !! i = Some b → filter (λ k, key_cmp index k b ≠ Lt) keys = drop i keys.
Proof.
  intros Hok Hb. rewrite <- (take_drop i keys) at 1. rewrite filter_app, filter_none, filter_all; [done| |].
  - apply Forall_lookup. intros j k Hj. rewrite lookup_drop in Hj. rewrite (key_cmp_positions _ _ _ _ Hok Hj Hb).
    destruct (Nat.compare_spec (i + j) i); [done|lia|done].
  - apply Forall_lookup. intros j k Hj. apply lookup_take_Some in Hj as [Hj Hlt].
    rewrite (key_cmp_positions _ _ _ _ Hok Hj Hb). destruct (Nat.compare_spec j i); [lia|auto|lia].
Qed.

(** A row with the key at a position, compared with the key at another one. *)
Lemma lex_positions (r : row) p key j key' :
  keys_ok → keys !! p = Some key → has_key index r key → keys !! j = Some key' → lex order lit r index key' = (p ?= j)%nat.
Proof.
  intros Hok Hp Hk Hj. rewrite (lex_has_key index r key key' Hk).
  - by apply key_cmp_positions.
  - destruct Hok as [Hl _]. by apply (proj1 (Forall_lookup _ _) Hl j).
Qed.

Lemma has_key_unique (r : row) p key q key' :
  keys_ok → keys !! p = Some key → has_key index r key → keys !! q = Some key' → has_key index r key' → p = q.
Proof.
  intros Hok Hp Hk Hq Hk'. pose proof (lex_positions r p key q key' Hok Hp Hk Hq) as E.
  rewrite (lex_positions r q key' q key' Hok Hq Hk' Hq), Nat.compare_refl in E. by apply Nat.compare_eq.
Qed.

(** ** The loop *)

Context (task : Table_task) (pke : bool) (part : option str) (rows average bytes : Z).
Context (Hinfo : index_info task = Some (index, pke)) (Hpke : pke = true → Forall (λ c, nullable c = false) index).
Context (Hindex : index ≠ []).

Abbreviation info := (make_Chunking_info task part rows average bytes).

Lemma info_columns_index : drop (index_column info) (info_columns info) = index.
Proof. unfold info_columns. simpl. by rewrite Hinfo, drop_0. Qed.

Lemma operator_ge (o : comparison) : operator ($">" ++ $"=") o = true ↔ o ≠ Lt.
Proof. destruct o; vm_compute; naive_solver. Qed.

Lemma operator_le (o : comparison) : operator ($"<" ++ $"=") o = true ↔ o ≠ Gt.
Proof. destruct o; vm_compute; naive_solver. Qed.

(** The condition on the first key of a chunk, and on both. *)
Lemma ge_means (D : row → Prop) key :
  (∀ r, D r → valid index r) → length index = length key →
  ∃ c, ge info key = Some c ∧ closed c ∧
    means order lit D 1 c (λ r, all_set r index ∧ lex order lit r index key ≠ Lt).
Proof.
  intros HD Hlen. unfold ge, compare_ge.
  destruct (compare_means order lit (λ r, D r ∧ all_set r index) info key ($">")) as (s & -> & Hm);
    rewrite ?info_columns_index in *; [by left| |done|by destruct key, index|].
  { intros r [Hr Hs]. by apply valid_set, Hs; auto. }
  cbn [mbind option_bind]. eexists. split; [done|]. split.
  - do 2 apply closed_app. apply closed_paren.
  - apply guarded_means; [by eapply info_boundary_means| |by right].
    apply (means_iff _ _ _ _ _ _ _ _ Hm). intros r Hr. split; [done|]. apply operator_ge.
Qed.

Lemma between_rows_means (D : row → Prop) first last_ :
  (∀ r, D r → valid index r) → length index = length first → length index = length last_ →
  ∃ c, between_rows info first last_ = Some c ∧
    means order lit D 1 c (λ r, all_set r index ∧ lex order lit r index first ≠ Lt ∧ lex order lit r index last_ ≠ Gt).
Proof.
  intros HD Hf Hl. unfold between_rows. destruct (ge_means D first HD Hf) as (g & -> & Hc & Hg). cbn [mbind option_bind].
  unfold compare_le.
  destruct (compare_means order lit (λ r, D r ∧ (all_set r index ∧ lex order lit r index first ≠ Lt)) info last_ ($"<"))
    as (s & -> & Hm); rewrite ?info_columns_index in *; [by right| |done|by destruct last_, index|].
  { intros r (Hr & Hs & _). by apply valid_set, Hs; auto. }
  cbn [mbind option_bind]. eexists. split; [done|].
  pose proof (means_and_guarded _ _ _ _ _ _ _ _ Hg Hm (joined_tight _ ($"AND") ($"(" ++ s ++ $")") Hc eq_refl)) as Hb.
  apply (means_iff _ _ _ _ _ _ _ _ Hb). intros r Hr. split; [done|]. rewrite operator_le. naive_solver.
Qed.

Context (member_name : str) (select_rows : str → list Row) (interrupted : nat → bool).
Context (Hok : keys_ok) (Hinterrupted : ∀ n, interrupted n = false).

(** What the server returns for the query of a chunk: of the keys that are not less than the
    first key of the chunk, in order, the one at the offset and the next one. *)
Definition server_answers : Prop :=
  ∀ i key c id, keys !! i = Some key → ge info key = Some c →
    select_rows (select_sql info ++ where_ (table info) c ++ order_by_and_limit info ++
                 get_query_comment member_name (table info) id) =
    take 2 (drop (Z.to_nat (u64 (rows_per_chunk info - 1))) (filter (λ k, key_cmp index k key ≠ Lt) keys)).

Context (Hserver : server_answers).

(** The condition of a chunk, by the positions of its keys. *)
Definition keys_condition (range : Z * Z) (c : str) : Prop :=
  ∃ i j first last_, range = (Z.of_nat i, Z.of_nat j) ∧ keys !! i = Some first ∧ keys !! j = Some last_ ∧
    between_rows info first last_ = Some c.

Lemma key_length i key : keys !! i = Some key → length index = length key.
Proof. intros Hi. destruct Hok as [Hl _]. by apply (proj1 (Forall_lookup _ _) Hl i). Qed.

Lemma keys_inj i j key : keys !! i = Some key → keys !! j = Some key → i = j.
Proof.
  intros Hi Hj. pose proof (key_cmp_positions i j key key Hok Hi Hj) as E. unfold key_cmp in E. rewrite cmp_refl in E.
  by destruct (Nat.compare_spec i j).
Qed.

Lemma non_integer_loop_ok fuel end_ i begin n tasks :
  keys !! i = Some begin → keys !! pred (length keys) = Some end_ → (length keys - i ≤ fuel)%nat →
  ∃ ranges tasks', non_integer_loop member_name select_rows interrupted info fuel end_ begin n tasks =
      Some ((n + length ranges)%nat, tasks ++ tasks') ∧
    chain (Z.of_nat i) (Z.of_nat (pred (length keys))) ranges ∧ numbered_tasks keys_condition task n ranges tasks'.
Proof.
  revert i begin n tasks. induction fuel as [|fuel IH]; intros i begin n tasks Hb He Hfuel.
  { apply lookup_lt_Some in Hb. lia. }
  pose proof (lookup_lt_Some _ _ _ Hb) as Hi. cbn [non_integer_loop].
  destruct (ge_means (valid index) begin) as (g & Eg & _); [done|by eapply key_length|]. rewrite Eg. cbn [mbind option_bind].
  rewrite (Hserver i begin g _ Hb Eg), (filter_from_key i begin Hok Hb), Hinterrupted.
  set (m := Z.to_nat (u64 (rows_per_chunk info - 1))). rewrite drop_drop, !lookup_take_lt by lia. rewrite !lookup_drop.
  set (id := to_string (Z.of_nat n)).
  destruct (decide (i + m < pred (length keys))%nat) as [Hm|Hm].
  - destruct (lookup_lt_is_Some_2 keys (i + m + 0)) as [last_ El]; [lia|].
    destruct (lookup_lt_is_Some_2 keys (i + m + 1)) as [next En]; [lia|]. rewrite El, En.
    change (default end_ (Some last_)) with last_. change (default end_ (Some next)) with next.
    rewrite Nat.add_0_r in El.
    destruct (between_rows_means (valid index) begin last_) as (c & Ec & _); [done|by eapply key_length..|].
    rewrite Ec. cbn [mbind option_bind]. 
    assert (last_ ≠ end_) as Hlast by (intros ->; pose proof (keys_inj _ _ _ El He); lia).
    rewrite !(bool_decide_eq_false_2 (last_ = end_)) by done.
    destruct (IH (i + m + 1)%nat next (S n) (tasks ++ [chunk_task (table info) c id n false]))
      as (ranges & tasks' & -> & Hchain & Htasks); [done|done|lia|].
    exists ((Z.of_nat i, Z.of_nat (i + m)) :: ranges), (chunk_task (table info) c id n false :: tasks').
    assert (ranges ≠ []) as Hne by (by intros ->). split_and!.
    + rewrite <- (assoc_L (++)). simpl. by rewrite Nat.add_succ_r.
    + destruct ranges; [done|]. cbn [chain]. split_and!; [done|lia|lia|].
      by replace (Z.of_nat (i + m) + 1)%Z with (Z.of_nat (i + m + 1)) by lia.
    + cbn [numbered_tasks]. split; [|done]. exists c. rewrite bool_decide_eq_false_2 by done. split; [|done].
      by exists i, (i + m)%nat, begin, last_.
  - assert (default end_ (keys !! (i + m + 0)%nat) = end_) as ->.
    { destruct (decide (i + m < length keys)%nat); [|by rewrite lookup_ge_None_2 by lia].
      replace (i + m + 0)%nat with (pred (length keys)) by lia. by rewrite He. }
    destruct (between_rows_means (valid index) begin end_) as (c & Ec & _); [done|by eapply key_length..|].
    rewrite Ec. cbn [mbind option_bind]. rewrite !bool_decide_eq_true_2 by done.
    exists [(Z.of_nat i, Z.of_nat (pred (length keys)))], [chunk_task (table info) c id n true]. split_and!.
    + f_equal. f_equal. simpl. lia.
    + cbn [chain]. lia.
    + cbn [numbered_tasks]. split; [|done]. exists c. split; [|done]. by exists i, (pred (length keys)), begin, end_.
Qed.
End keys.

(** ** Theorems *)

(** The first and the last key, as the server returns them. *)
Definition server_bounds (select_rows : str → list Row) (info : Chunking_info) (keys : list Row) : Prop :=
  let sql := $"SELECT SQL_NO_CACHE " ++ columns_sql (info_columns info) ++ $" FROM " ++ table_name (table info) ++
             partition info ++ where_ (table info) (info_boundary info) in
  select_rows (sql ++ order_by info ++ $" LIMIT 1") = take 1 keys ∧
  select_rows (sql ++ order_by_desc info ++ $" LIMIT 1") = take 1 (reverse keys).

Definition integer_type (t : Type_) : bool :=
  bool_decide (t = Integer) || bool_decide (t = UInteger) || bool_decide (t = DumpWriter.Decimal).

Lemma chunk_column_non_integer `{BN B} member_name explain_rows select_rows interrupted info fuel column columns pke keys begin end_ :
  index_info (table info) = Some (column :: columns, pke) → index_column info = 0%nat → integer_type (type column) = false →
  server_bounds select_rows info keys → keys !! 0%nat = Some begin → keys !! pred (length keys) = Some end_ →
  chunk_column (B:=B) member_name explain_rows select_rows interrupted info fuel =
    ('(n, tasks) ← chunk_non_integer_column member_name select_rows interrupted info fuel begin end_; Some (Z.of_nat n, tasks)).
Proof.
  intros Hinfo Hcol Htype [Hfirst Hlast] Hb He. unfold chunk_column.
  assert (info_columns info = column :: columns) as Hindex by (unfold info_columns; by rewrite Hinfo).
  rewrite Hindex in *. rewrite Hinfo. rewrite Hfirst. destruct keys as [|k keys]; [done|]. simplify_eq/=.
  rewrite Hlast. destruct (reverse (begin :: keys)) as [|l rest] eqn:Er.
  { apply (f_equal length) in Er. rewrite length_reverse in Er. done. }
  assert (l = end_) as ->.
  { assert (reverse (begin :: keys) !! 0%nat = Some l) as E by (by rewrite Er). rewrite reverse_lookup in E by (simpl; lia).
    simpl in E. rewrite Nat.sub_0_r in E. congruence. }
  simpl. rewrite Hcol. simpl. destruct (type column); done.
Qed.

(** C15: a table that is divided by a column of another type is dumped whole, and each row
    once.  The server has the keys [keys] of the rows without NULLs in the index, in their
    order, and answers with the rows a SELECT with the condition, order and limit of the
    query returns.  Then the algorithm ends (an iteration for each key is enough) with tasks
    numbered from 0, of which only the last one is marked as last, and of each row of the
    table the condition of exactly one task holds, also when columns of the index are NULL. *)
Theorem key_rows_dumped_once {V} (order : V → V → comparison) `{!TotalOrder order} (lit : str → V) `{BN B}
    member_name explain_rows select_rows interrupted task column columns pke part rows average bytes keys fuel :
  let index := column :: columns in
  let info := make_Chunking_info task part rows average bytes in
  index_info task = Some (index, pke) → (pke = true → Forall (λ c, nullable c = false) index) →
  integer_type (type column) = false → (∀ n, interrupted n = false) →
  keys_ok order lit index keys → keys ≠ [] →
  server_bounds select_rows info keys →
  server_answers order lit index keys task part rows average bytes member_name select_rows →
  (length keys ≤ fuel)%nat →
  ∃ n tasks, create_table_data_tasks (B:=B) member_name explain_rows select_rows interrupted fuel true task part rows
               average bytes = Some (Z.of_nat n, tasks) ∧
    length tasks = n ∧
    (∀ i t, tasks !! i = Some t → chunk t = Z.of_nat i ∧ last_chunk t = bool_decide (S i = n)) ∧
    selected_once order lit
      (λ r, valid index r ∧ (all_set r index → ∃ key, key ∈ keys ∧ has_key order lit index r key)) tasks.
Proof.
  intros index info Hinfo Hpke Htype Hint Hok Hne Hbounds Hserver Hfuel. subst info.
  assert (0 < length keys)%nat as Hpos by (destruct keys; [done|simpl; lia]).
  destruct (lookup_lt_is_Some_2 keys 0) as [begin Hb]; [lia|].
  destruct (lookup_lt_is_Some_2 keys (pred (length keys))) as [end_ He]; [lia|].
  unfold create_table_data_tasks, create_ranged_tasks. erewrite chunk_column_non_integer by done.
  unfold chunk_non_integer_column.
  destruct (non_integer_loop_ok order lit index keys task pke part rows average bytes Hinfo Hpke ltac:(done)
              member_name select_rows interrupted Hok Hint Hserver fuel end_ 0 begin 0 [])
    as (ranges & tasks & -> & Hchain & Htasks); [done|done|lia|].
  pose proof (numbered_tasks_length _ _ _ _ _ Htasks) as Hlen. cbn [mbind option_bind].
  assert (length ranges ≠ 0%nat) as Hnz by (by destruct ranges).
  rewrite (proj2 (Z.eqb_neq _ 0)) by (simpl; lia).
  exists (length ranges), tasks. split_and!; [done|done| |].
  { intros i t Hi. destruct (numbered_tasks_lookup _ _ _ _ _ i t Htasks Hi) as (range & c & _ & _ & ->). done. }
  apply (tasks_select_once _ _ _ task index pke tasks (λ i r, ∃ range p key, ranges !! i = Some range ∧
           keys !! p = Some key ∧ has_key order lit index r key ∧ inside (Z.of_nat p) range)); [done|done| | |].
  - intros ->. simpl in Hlen. lia.
  - intros i t Hi.
    destruct (numbered_tasks_lookup _ _ _ _ _ i t Htasks Hi) as (range & c & Hr & (s & e & first & last_ & -> & Hs & Hl & Ec) & ->).
    destruct (between_rows_means order lit index task pke part rows average bytes Hinfo Hpke ltac:(done)
                (λ r, valid index r ∧ (all_set r index → ∃ key, key ∈ keys ∧ has_key order lit index r key)) first last_)
      as (c' & Ec' & Hm); [by intros r [? _]|by eapply key_length..|].
    assert (c' = c) as -> by congruence. exists c. do 2 eexists. split; [done|].
    split; [by eapply means_not_empty|]. apply (means_le _ _ _ 1); [|lia].
    apply (means_iff _ _ _ _ _ _ _ _ Hm). intros r HD. split; [done|]. destruct HD as [Hv Hk].
    split; intros [Hset Hr']; (split; [done|]).
    + destruct (Hk Hset) as (key & Hin & Hkey). apply list_elem_of_lookup in Hin as [p Hp].
      rewrite (lex_positions _ _ _ _ r p key s first), (lex_positions _ _ _ _ r p key e last_) in Hr' by done.
      rewrite Nat.compare_ge_iff, Nat.compare_le_iff in Hr'. exists (Z.of_nat s, Z.of_nat e), p, key.
      split_and!; [done..|]. unfold inside. simpl. lia.
    + destruct Hr' as (range & p & key & Hr' & Hp & Hkey & Hin). simplify_eq. unfold inside in Hin. simpl in Hin.
      rewrite (lex_positions _ _ _ _ r p key s first), (lex_positions _ _ _ _ r p key e last_) by done.
      rewrite Nat.compare_ge_iff, Nat.compare_le_iff. lia.
  - intros r [Hv Hk] Hset. destruct (Hk Hset) as (key & Hin & Hkey). apply list_elem_of_lookup in Hin as [p Hp].
    pose proof (lookup_lt_Some _ _ _ Hp) as Hlt.
    destruct (chain_unique _ _ _ (Z.of_nat p) Hchain) as (i & (range & Hi & Hr) & Hu); [lia|]. exists i. split_and!.
    + rewrite Hlen. by eapply lookup_lt_Some.
    + by exists range, p, key.
    + intros j _ (range' & q & key' & Hj & Hq & Hkey' & Hin).
      assert (q = p) as -> by (by eapply has_key_unique). by eapply Hu.
Qed.

(** *** A table of three rows, in chunks of two *)

#[global] Instance nat_order : TotalOrder Nat.compare.
Proof.
  split.
  - intros a b. apply Nat.compare_antisym.
  - intros a b c. rewrite !Nat.compare_le_iff. lia.
Qed.

Definition key_column : Column := {| quoted_name := $"`k`"; nullable := true; type := String_ |}.
Definition key_task : Table_task :=
  {| task_name := $"`s`.`t`"; table_name := $"`s`.`t`"; extra_filter := []; index_info := Some ([key_column], false) |}.
Definition key_info : Chunking_info := make_Chunking_info key_task None 3 327680 655360.
Definition key_rows : list Row := [[$"a"]; [$"b"]; [$"c"]].

(** The first letter of a quoted text. *)
Definition key_lit (s : str) : nat := match s with _ :: c :: _ => nat_of_ascii c | _ => 0 end.

Definition key_query (key : Row) : str :=
  select_sql key_info ++ where_ key_task (default [] (ge key_info key)) ++ order_by_and_limit key_info.

Definition key_bounds_query : str :=
  $"SELECT SQL_NO_CACHE `k` FROM `s`.`t`" ++ where_ key_task (info_boundary key_info).

Fixpoint starts (s prefix : str) : bool :=
  match prefix, s with
  | [], _ => true
  | c :: prefix, d :: s => Ascii.eqb c d && starts s prefix
  | _ :: _, [] => false
  end.

Definition key_server (q : str) : list Row :=
  if starts q (key_query [$"a"]) then [[$"b"]; [$"c"]]
  else if starts q (key_query [$"b"]) then [[$"c"]]
  else if starts q (key_query [$"c"]) then []
  else if starts q (key_bounds_query ++ order_by key_info ++ $" LIMIT 1") then [[$"a"]]
  else [[$"c"]].

Lemma key_rows_dumped_once_witness :
  ∃ n tasks, create_table_data_tasks (B:=Z) ($"dumpTables") (λ _, 0%Z) key_server (λ _, false) 3 true key_task None 3 327680 655360 =
      Some (Z.of_nat n, tasks) ∧
    selected_once Nat.compare key_lit
      (λ r, valid [key_column] r ∧
        (all_set r [key_column] → ∃ key, key ∈ key_rows ∧ has_key Nat.compare key_lit [key_column] r key)) tasks.
Proof.
  destruct (key_rows_dumped_once Nat.compare key_lit (B:=Z) ($"dumpTables") (λ _, 0%Z) key_server (λ _, false) key_task key_column []
              false None 3 327680 655360 key_rows 3) as (n & tasks & E & _ & _ & Hs).
  - reflexivity.
  - discriminate.
  - reflexivity.
  - reflexivity.
  - split; [repeat constructor|].
    intros [|[|[|i]]] [|[|[|j]]] a b Hij Ha Hb; simpl in Ha, Hb; simplify_eq; try reflexivity; lia.
  - discriminate.
  - split; vm_compute; reflexivity.
  - intros [|[|[|i]]] key c id Hi Hc; simpl in Hi; simplify_eq; vm_compute in Hc; simplify_eq; vm_compute; reflexivity.
  - simpl. lia.
  - exact (ex_intro _ n (ex_intro _ tasks (conj E Hs))).
Defined.
