(* ===== verification/ChunkIndexFacts.v ===== *)
(** * Dividing a table into chunks: the index, and what goes wrong

    [select_index] compared with a total order of indexes, and the numbers for which the
    chunking divides by zero. *)
From S2P Require Import Prelude UtilsString Lexing SqlString DumpWriter Decimal DecimalFacts Chunking ChunkKeysFacts.

(** ** The order of indexes *)

(** How good a column is: integers come first, and columns that cannot be NULL. *)
Definition column_rank (c : Column) : nat :=
  (if is_integer c then 0 else 2) + (if nullable c then 1 else 0).

(** The columns that count: the integers, up to the first column that is not one. *)
Fixpoint index_rank (index : Index) : list nat :=
  match index with
  | [] => []
  | c :: index => column_rank c :: (if is_integer c then index_rank index else [])
  end.

(** Shorter indexes are better; then the ranks of the columns decide. *)
Definition index_cmp (a b : Index) : comparison :=
  lex_values Nat.compare (length a :: index_rank a) (length b :: index_rank b).

#[global] Instance index_cmp_order : TotalOrder index_cmp.
Proof. split; intros; unfold index_cmp in *; [apply cmp_opp|by eapply cmp_trans]. Qed.

(** The first of the best indexes. *)
Definition best (indexes : list Index) (index : Index) : Prop :=
  ∃ n, indexes !! n = Some index ∧
    ∀ j other, indexes !! j = Some other → index_cmp index other ≠ Gt ∧ ((j < n)%nat → index_cmp index other = Lt).

Lemma prefer_candidate_rank candidate current :
  length candidate = length current →
  prefer_candidate candidate current = true ↔ lex_values Nat.compare (index_rank candidate) (index_rank current) = Lt.
Proof.
  revert current. induction candidate as [|c candidate IH]; intros [|d current] Hlen; try done. simpl in Hlen.
  cbn [prefer_candidate index_rank lex_values]. unfold column_rank.
  destruct (is_integer c), (is_integer d), (nullable c), (nullable d); simpl; try naive_solver; apply IH; lia.
Qed.

Lemma choose_step_better chosen candidate :
  (index_cmp candidate chosen = Lt ∧ choose_step chosen candidate = candidate) ∨
  (index_cmp chosen candidate ≠ Gt ∧ choose_step chosen candidate = chosen).
Proof.
  unfold choose_step, index_cmp. rewrite (cmp_opp (cmp:=lex_values Nat.compare) (length candidate :: _)).
  cbn [lex_values]. destruct (Nat.compare_spec (length candidate) (length chosen)) as [E|E|E]; cbn [CompOpp].
  - rewrite bool_decide_eq_false_2 by lia. rewrite bool_decide_eq_true_2 by lia. cbn [andb].
    pose proof (prefer_candidate_rank candidate chosen E) as Hp.
    destruct (prefer_candidate candidate chosen); [left|right]; (split; [|done]).
    + by apply Hp.
    + intros Hgt. destruct Hp as [_ Hp]. destruct (lex_values _ _ _); try done. by specialize (Hp eq_refl).
  - rewrite bool_decide_eq_true_2 by lia. by left.
  - rewrite !bool_decide_eq_false_2 by lia. by right.
Qed.

Lemma foldl_choose_best indexes rest index :
  best indexes index → best (indexes ++ rest) (foldl choose_step index rest).
Proof.
  revert indexes index. induction rest as [|candidate rest IH]; intros indexes index Hb; [by rewrite app_nil_r|].
  rewrite cons_middle, (assoc_L (++)). cbn [foldl]. apply IH. destruct Hb as (n & Hn & Hbest).
  pose proof (lookup_lt_Some _ _ _ Hn) as Hlt.
  destruct (choose_step_better index candidate) as [[Hc ->]|[Hc ->]].
  - exists (length indexes). split; [by rewrite lookup_app_r, Nat.sub_diag by lia|]. intros j other Hj.
    apply lookup_app_Some in Hj as [Hj|[Hj E]].
    + destruct (Hbest j other Hj) as [Hle _].
      assert (index_cmp candidate other = Lt) as ->; [|done].
      destruct (index_cmp index other) eqn:Eo; [|by eapply cmp_lt_trans|done].
      by rewrite <- (cmp_eq_r (cmp:=index_cmp) _ _ candidate Eo).
    + destruct (j - length indexes)%nat eqn:Ej; [|done]. simplify_eq/=. rewrite cmp_refl. split; [done|lia].
  - exists n. split; [by rewrite lookup_app_l|]. intros j other Hj. apply lookup_app_Some in Hj as [Hj|[Hj E]]; [by apply Hbest|].
    destruct (j - length indexes)%nat eqn:Ej; [|done]. simplify_eq/=. split; [done|lia].
Qed.

Lemma choose_index_best indexes :
  match choose_index indexes with Some index => best indexes index | None => indexes = [] end.
Proof.
  destruct indexes as [|first rest]; [done|]. simpl. apply (foldl_choose_best [first]). exists 0%nat. split; [done|].
  intros [|j] other Hj; simplify_eq/=. rewrite cmp_refl. split; [done|lia].
Qed.

(** ** Theorems *)

(** The choice of an index.  Indexes with ENUM columns are not used.  A primary key is
    used when there is one; otherwise the first of the best primary key equivalents and,
    when there is none, the first of the best unique keys, which is the only case in which the
    index is not marked as being like a primary key.  Better is: shorter, and then, column by
    column up to the first one that is not an integer, an integer, and not nullable.
    There is no index only when no list has one. *)
Theorem select_index_best primary_key primary_key_equivalents unique_keys :
  let usable index := Forall (λ c, type c ≠ Enum) index in
  match select_index primary_key primary_key_equivalents unique_keys with
  | Some (index, is_pke) =>
      usable index ∧
      ((primary_key = Some index ∧ is_pke = true) ∨
       ((∀ pk, primary_key = Some pk → ¬ usable pk) ∧
        ((best (filter usable primary_key_equivalents) index ∧ is_pke = true) ∨
         (filter usable primary_key_equivalents = [] ∧ best (filter usable unique_keys) index ∧ is_pke = false))))
  | None =>
      (∀ pk, primary_key = Some pk → ¬ usable pk) ∧
      filter usable primary_key_equivalents = [] ∧ filter usable unique_keys = []
  end.
Proof.
  intros usable.
  assert (∀ l, filter_indexes l = filter usable l) as Hfilter.
  { intros l. apply list_filter_iff. intros index. unfold usable. rewrite forallb_forall, Forall_forall.
    apply forall_proper. intros c. rewrite list_elem_of_In, negb_true_iff, bool_decide_eq_false. done. }
  assert (∀ l index, best (filter usable l) index → usable index) as Hbest.
  { intros l index (n & Hn & _). apply list_elem_of_lookup_2, list_elem_of_filter in Hn as [? _]. done. }
  unfold select_index. rewrite !Hfilter.
  assert (∀ pk, primary_key = Some pk → filter usable (option_list primary_key) = [] → ¬ usable pk) as Hpk.
  { intros pk ->. change (option_list (Some pk)) with [pk]. rewrite filter_cons. case_decide; done. }
  destruct (filter usable (option_list primary_key)) as [|pk rest] eqn:E.
  - pose proof (choose_index_best (filter usable primary_key_equivalents)) as H1.
    destruct (choose_index (filter usable primary_key_equivalents)) as [index|]; [naive_solver|].
    pose proof (choose_index_best (filter usable unique_keys)) as H2.
    destruct (choose_index (filter usable unique_keys)) as [index|]; simpl; naive_solver.
  - destruct primary_key as [pk'|]; [|done]. change (option_list (Some pk')) with [pk'] in E. rewrite filter_cons in E.
    case_decide; naive_solver.
Qed.

(** Dumping a table without an index whose rows are, on average, longer than
    [bytesPerChunk] divides by zero: no number of chunks is returned. *)
Theorem long_rows_divide_by_zero `{BN B} member_name explain_rows select_rows interrupted
    task part rows average_row_length bytes_per_chunk fuel :
  index_info task = None → (0 <= bytes_per_chunk < average_row_length)%Z →
  chunk_column (B:=B) member_name explain_rows select_rows interrupted
    (make_Chunking_info task part rows average_row_length bytes_per_chunk) fuel = None.
Proof.
  intros Hindex Hlen. unfold chunk_column. cbn [table make_Chunking_info row_count rows_per_chunk]. rewrite Hindex.
  rewrite (proj2 (Z.eqb_neq average_row_length 0)) by lia. by rewrite Z.div_small.
Qed.

Lemma long_rows_divide_by_zero_witness :
  let task := {| task_name := $"`s`.`t`"; table_name := $"`s`.`t`"; extra_filter := []; index_info := None |} in
  index_info task = None ∧
  chunk_column (B:=Z) ($"dumpTables") (λ _, 0%Z) (λ _, []) (λ _, false) (make_Chunking_info task None 10 200000 131072) 1 = None.
Proof.
  split; [reflexivity|]. apply (long_rows_divide_by_zero (B:=Z)); [reflexivity|lia].
Defined.
