(* ===== verification/DumpFiles.v ===== *)
(** * Names of the files of a dump

    Model of the file names of [modules/util/common/dump/utils.cc], of
    [Dumper::get_basename] ([modules/util/dump/dumper.cc]) with the map of truncated names it
    keeps, and of the conversions between UTF-8 and wide characters it calls
    ([mysqlshdk/libs/utils/utils_string.cc], the branch for systems other than Windows).  The
    conversions of single characters, which depend on the locale, are the class [Locale]. *)
From S2P Require Import Prelude UtilsString.

(** ** Encoded names *)

Definition k_sql_ext : str := $".sql".
Definition k_separator : str := $"@".

(** The table of reserved characters is the one of [pctencode], but only characters of
    US-ASCII are encoded. *)
Definition hexencode (s : str) : str :=
  concat ((λ c, if (uch c <? 128)%Z && reserved_char c
                then ["%"%char; hex_char (uch c / 16); hex_char (uch c mod 16)]
                else [c]) <$> s).

Definition encode_schema_basename (schema : str) : str := hexencode schema.

Definition encode_table_basename (schema table : str) : str :=
  encode_schema_basename schema ++ k_separator ++ hexencode table.

Definition encode_partition_basename (schema table partition : str) : str :=
  encode_table_basename schema table ++ k_separator ++ hexencode partition.

Definition get_schema_filename (basename : str) : str := basename ++ k_sql_ext.
Definition get_schema_filename_ext (basename ext : str) : str := basename ++ $"." ++ ext.
Definition get_table_filename (basename : str) : str := basename ++ k_sql_ext.
Definition get_table_data_filename (basename ext : str) : str := basename ++ $"." ++ ext.

(** The name of a chunk. *)
Definition get_table_chunk_filename (basename ext : str) (index : nat) (last_chunk : bool) : str :=
  basename ++ k_separator ++ (if last_chunk then k_separator else []) ++ to_string (Z.of_nat index) ++ $"." ++ ext.

(** ** Names that are too long *)

(** [std::wcrtomb] and [std::mbrtowc] (the number of bytes that were read, if it is positive). *)
Class Locale (wchar : Type) := {
  wcrtomb : wchar → str;
  mbrtowc : str → option (wchar * nat);
  wcrtomb_not_empty w : wcrtomb w ≠ [];
  mbrtowc_empty : mbrtowc [] = None;
  mbrtowc_wcrtomb w rest : mbrtowc (wcrtomb w ++ rest) = Some (w, length (wcrtomb w));
  wcrtomb_digit c : isdigit c = true → ∃ w, wcrtomb w = [c];
}.

Section names.
Context {wchar : Type} `{Locale wchar}.

(** [while ((len = std::mbrtowc(...)) > 0)]: each iteration consumes a byte at least. *)
Fixpoint utf8_to_wide_loop (fuel : nat) (utf8 : str) (result : list wchar) : list wchar :=
  match fuel with
  | O => result
  | S fuel =>
      match mbrtowc utf8 with
      | Some (wc, len) => utf8_to_wide_loop fuel (drop len utf8) (result ++ [wc])
      | None => result
      end
  end.

Definition utf8_to_wide (utf8 : str) : list wchar := utf8_to_wide_loop (S (length utf8)) utf8 [].

Definition wide_to_utf8 (wide : list wchar) : str := concat (wcrtomb <$> wide).

(** [m_truncated_basenames] *)
Abbreviation truncated_basenames := (gmap str nat).

Definition max_length : nat := 225.

Definition get_basename (basename : str) (m_truncated_basenames : truncated_basenames) : str * truncated_basenames :=
  let wbasename := utf8_to_wide basename in
  let wtruncated := truncate wbasename max_length in
  if bool_decide (length wbasename = length wtruncated) then (basename, m_truncated_basenames)
  else
    let truncated := wide_to_utf8 wtruncated in
    let ordinal := default 0 (m_truncated_basenames !! truncated) in
    (truncated ++ to_string (Z.of_nat ordinal), <[truncated := S ordinal]> m_truncated_basenames).
End names.
