(* ===== verification/DumpFilesFacts.v ===== *)
(** * Names of the files of a dump: theorems

    The names of the files of different objects are different, as far as they are. *)
From S2P Require Import Prelude UtilsString UtilsStringFacts DecimalFacts DumpFiles.

Open Scope Z_scope.

(** ** Encoded names *)

Definition encode_char (c : ascii) : str :=
  if (uch c <? 128) && reserved_char c then ["%"%char; hex_char (uch c / 16); hex_char (uch c mod 16)] else [c].

Lemma hexencode_cons c s : hexencode (c :: s) = encode_char c ++ hexencode s.
Proof. done. Qed.

Lemma hexencode_app s t : hexencode (s ++ t) = hexencode s ++ hexencode t.
Proof. unfold hexencode. by rewrite fmap_app, concat_app. Qed.

Lemma hex_value_char z : 0 <= z < 16 → hex_value (hex_char z) = z.
Proof.
  intros Hz. assert (∃ n, z = Z.of_nat n ∧ (n < 16)%nat) as (n & -> & Hn) by (exists (Z.to_nat z); lia).
  do 16 (destruct n as [|n]; [done|]). lia.
Qed.

Lemma hex_char_inj a b : 0 <= a < 16 → 0 <= b < 16 → hex_char a = hex_char b → a = b.
Proof. intros Ha Hb E. rewrite <- (hex_value_char a Ha), <- (hex_value_char b Hb). by rewrite E. Qed.

(** No encoding is the beginning of another one. *)
Lemma encode_char_inj c d s t : encode_char c ++ s = encode_char d ++ t → c = d ∧ s = t.
Proof.
  unfold encode_char. pose proof (uch_range c). pose proof (uch_range d).
  destruct ((uch c <? 128) && reserved_char c) eqn:Ec, ((uch d <? 128) && reserved_char d) eqn:Ed; simpl; intros E; simplify_eq; [|done..].
  - apply andb_true_iff in Ec as [Ec%Z.ltb_lt _]. apply andb_true_iff in Ed as [Ed%Z.ltb_lt _].
    rename select (hex_char (_ / _) = _) into E1. rename select (hex_char (_ mod _) = _) into E2.
    apply hex_char_inj in E1; [|Z.div_mod_to_equations; lia..]. apply hex_char_inj in E2; [|Z.div_mod_to_equations; lia..].
    split; [|done]. apply uch_inj. Z.div_mod_to_equations. lia.
Qed.

Lemma hexencode_inj s t : hexencode s = hexencode t → s = t.
Proof.
  revert t. induction s as [|c s IH]; intros [|d t] E; [done| | |].
  - rewrite hexencode_cons in E. unfold encode_char in E. by destruct (_ && _).
  - rewrite hexencode_cons in E. unfold encode_char in E. by destruct (_ && _).
  - rewrite !hexencode_cons in E. apply encode_char_inj in E as [-> E]. f_equal. by apply IH.
Qed.

Lemma hex_char_not_at z : 0 <= z < 16 → hex_char z ≠ "@"%char.
Proof. intros Hz E. pose proof (hex_value_char z Hz) as Hv. rewrite E in Hv. vm_compute in Hv. subst z. done. Qed.

Lemma hexencode_no_at s : "@"%char ∉ hexencode s.
Proof.
  induction s as [|c s IH]; [set_solver|]. rewrite hexencode_cons, not_elem_of_app. split; [|done].
  unfold encode_char. pose proof (uch_range c). destruct ((uch c <? 128) && reserved_char c) eqn:E.
  - apply andb_true_iff in E as [E%Z.ltb_lt _].
    pose proof (hex_char_not_at (uch c / 16)). pose proof (hex_char_not_at (uch c mod 16)).
    assert (0 <= uch c / 16 < 16) by (Z.div_mod_to_equations; lia).
    assert (0 <= uch c mod 16 < 16) by (Z.div_mod_to_equations; lia). set_solver.
  - intros <-%list_elem_of_singleton. by vm_compute in E.
Qed.

(** Texts around the first separator. *)
Lemma separator_inj (a a' b b' : str) :
  "@"%char ∉ a → "@"%char ∉ a' → a ++ k_separator ++ b = a' ++ k_separator ++ b' → a = a' ∧ b = b'.
Proof.
  revert a'. induction a as [|c a IH]; intros [|c' a'] Ha Ha' E; simplify_eq/=; [done|set_solver|set_solver|].
  destruct (IH a') as [-> ->]; [set_solver|set_solver|done|done].
Qed.

Lemma no_separator (a b c : str) : "@"%char ∉ c → a ++ k_separator ++ b ≠ c.
Proof. intros Hc E. subst c. set_solver. Qed.

Lemma encode_table_basename_inj s t s' t' :
  encode_table_basename s t = encode_table_basename s' t' → s = s' ∧ t = t'.
Proof.
  intros E. apply separator_inj in E as [Es Et]; [|by apply hexencode_no_at..].
  split; by apply hexencode_inj.
Qed.

Lemma to_string_nat_inj n m : to_string (Z.of_nat n) = to_string (Z.of_nat m) → n = m.
Proof.
  unfold to_string. rewrite !(proj2 (Z.ltb_ge _ _)) by lia. intros E.
  destruct (dec_spec (Z.of_nat n)) as (_ & _ & Hn); [lia|]. destruct (dec_spec (Z.of_nat m)) as (_ & _ & Hm); [lia|].
  rewrite E in Hn. lia.
Qed.

Lemma to_string_nat_digits n :
  to_string (Z.of_nat n) ≠ [] ∧ Forall (λ c, isdigit c = true) (to_string (Z.of_nat n)).
Proof.
  unfold to_string. rewrite (proj2 (Z.ltb_ge _ _)) by lia. destruct (dec_spec (Z.of_nat n)) as (? & ? & _); [lia|]. done.
Qed.

(** What follows the base name of a chunk determines its number. *)
Lemma chunk_suffix_inj ext n n' (last last' : bool) :
  (if last then k_separator else []) ++ to_string (Z.of_nat n) ++ $"." ++ ext =
  (if last' then k_separator else []) ++ to_string (Z.of_nat n') ++ $"." ++ ext → n = n' ∧ last = last'.
Proof.
  destruct (to_string_nat_digits n) as [Hn Hd]. destruct (to_string_nat_digits n') as [Hn' Hd'].
  assert (last = last' → (if last then k_separator else []) ++ to_string (Z.of_nat n) ++ $"." ++ ext =
            (if last' then k_separator else []) ++ to_string (Z.of_nat n') ++ $"." ++ ext → n = n') as Hsame.
  { intros <- E. apply app_inv_head, app_inv_tail in E. by apply to_string_nat_inj. }
  intros E. destruct last, last'; [auto| | |auto]; exfalso.
  - destruct (to_string (Z.of_nat n')) as [|c l]; [done|]. simplify_eq/=. by apply Forall_cons in Hd' as [? _].
  - destruct (to_string (Z.of_nat n)) as [|c l]; [done|]. simplify_eq/=. by apply Forall_cons in Hd as [? _].
Qed.

(** ** Truncated names *)

Section names.
Context {wchar : Type} `{Locale wchar}.
Implicit Types (w : list wchar) (m : gmap str nat).

(** The names of several objects, in the order in which they are requested. *)
Fixpoint get_basenames (basenames : list str) (m_truncated_basenames : gmap str nat) : list str :=
  match basenames with
  | [] => []
  | basename :: basenames =>
      let '(name, m) := get_basename basename m_truncated_basenames in
      name :: get_basenames basenames m
  end.

Lemma utf8_to_wide_loop_ok fuel w result :
  (length (wide_to_utf8 w) < fuel)%nat → utf8_to_wide_loop fuel (wide_to_utf8 w) result = result ++ w.
Proof.
  revert w result. induction fuel as [|fuel IH]; intros [|c w] result Hf; try lia.
  - cbn. by rewrite mbrtowc_empty, app_nil_r.
  - change (wide_to_utf8 (c :: w)) with (wcrtomb c ++ wide_to_utf8 w) in *. cbn [utf8_to_wide_loop].
    rewrite mbrtowc_wcrtomb, drop_app_length, IH; [by rewrite <- (assoc_L (++))|].
    rewrite length_app in Hf. pose proof (wcrtomb_not_empty c). destruct (wcrtomb c); [done|]. simpl in Hf. lia.
Qed.

Lemma utf8_to_wide_to_utf8 w : utf8_to_wide (wide_to_utf8 w) = w.
Proof. unfold utf8_to_wide. rewrite utf8_to_wide_loop_ok by lia. done. Qed.

Lemma wide_to_utf8_inj w w' : wide_to_utf8 w = wide_to_utf8 w' → w = w'.
Proof. intros E. by rewrite <- (utf8_to_wide_to_utf8 w), <- (utf8_to_wide_to_utf8 w'), E. Qed.

Lemma wide_to_utf8_app w w' : wide_to_utf8 (w ++ w') = wide_to_utf8 w ++ wide_to_utf8 w'.
Proof. unfold wide_to_utf8. by rewrite fmap_app, concat_app. Qed.

Lemma wide_digits s : Forall (λ c, isdigit c = true) s → ∃ w, wide_to_utf8 w = s.
Proof.
  induction 1 as [|c s Hc _ (w & IH)]; [by exists []|]. destruct (wcrtomb_digit c Hc) as [wc Ew].
  exists (wc :: w). change (wide_to_utf8 (wc :: w)) with (wcrtomb wc ++ wide_to_utf8 w). by rewrite Ew, IH.
Qed.

(** A name that was returned: a short one, or a truncated one with an ordinal that was not
    used before. *)
Definition returned_name (basenames : list str) m (name : str) : Prop :=
  (name ∈ basenames ∧ ∃ w, name = wide_to_utf8 w ∧ (length w ≤ max_length)%nat) ∨
  (∃ w n, name = wide_to_utf8 w ++ to_string (Z.of_nat n) ∧ length w = max_length ∧
     (default 0 (m !! wide_to_utf8 w) ≤ n)%nat).

Lemma truncated_inj w w' n n' :
  length w = length w' → wide_to_utf8 w ++ to_string (Z.of_nat n) = wide_to_utf8 w' ++ to_string (Z.of_nat n') →
  w = w' ∧ n = n'.
Proof.
  intros Hlen E. destruct (wide_digits (to_string (Z.of_nat n))) as [d Ed]; [apply to_string_nat_digits|].
  destruct (wide_digits (to_string (Z.of_nat n'))) as [d' Ed']; [apply to_string_nat_digits|].
  rewrite <- Ed, <- Ed', <- !wide_to_utf8_app in E. apply wide_to_utf8_inj in E. apply app_inj_1 in E as [-> ->]; [|done].
  split; [done|]. apply to_string_nat_inj. congruence.
Qed.

(** A short name is not a truncated one with its ordinal. *)
Lemma short_not_truncated w w' n :
  (length w ≤ max_length)%nat → length w' = max_length → wide_to_utf8 w ≠ wide_to_utf8 w' ++ to_string (Z.of_nat n).
Proof.
  intros Hw Hw' E. destruct (to_string_nat_digits n) as [Hne Hd]. destruct (wide_digits _ Hd) as [d Ed].
  rewrite <- Ed, <- wide_to_utf8_app in E. apply wide_to_utf8_inj in E. subst w. rewrite length_app in Hw.
  destruct d; [by rewrite <- Ed in Hne|]. simpl in Hw. lia.
Qed.

Lemma get_basename_ok w m :
  let '(name, m') := get_basename (wide_to_utf8 w) m in
  (name = wide_to_utf8 w ∧ (length w ≤ max_length)%nat ∧ m' = m) ∨
  (∃ w' n, name = wide_to_utf8 w' ++ to_string (Z.of_nat n) ∧ length w' = max_length ∧
     n = default 0%nat (m !! wide_to_utf8 w') ∧ m' = <[wide_to_utf8 w' := S n]> m).
Proof.
  unfold get_basename. rewrite utf8_to_wide_to_utf8. unfold truncate. rewrite length_take.
  destruct (decide (length w ≤ max_length)%nat).
  - rewrite bool_decide_eq_true_2 by lia. by left.
  - rewrite bool_decide_eq_false_2 by lia. right. eexists _, _. split; [done|]. rewrite length_take.
    split_and!; [lia|done|done].
Qed.

Lemma get_basenames_returned basenames m name :
  Forall (λ b, ∃ w, b = wide_to_utf8 w) basenames →
  name ∈ get_basenames basenames m → returned_name basenames m name.
Proof.
  intros Hb. revert m. induction Hb as [|b basenames [w ->] _ IH]; intros m; [set_solver|].
  cbn [get_basenames]. pose proof (get_basename_ok w m) as Hok. destruct (get_basename _ m) as [first m'].
  intros [->|Hin]%elem_of_cons.
  - destruct Hok as [(-> & Hw & _)|(w' & n & -> & Hw & -> & _)]; [left|right].
    + split; [set_solver|by exists w].
    + by eexists _, _.
  - destruct (IH m' Hin) as [(? & ?)|(w'' & n'' & -> & Hw & Hn)]; [left; set_solver|right].
    eexists _, _. split; [done|]. split; [done|]. destruct Hok as [(_ & _ & ->)|(w' & n & _ & _ & -> & ->)]; [done|].
    destruct (decide (wide_to_utf8 w' = wide_to_utf8 w'')) as [E|E].
    + rewrite E in *. rewrite lookup_insert_eq in Hn. simpl in Hn. lia.
    + by rewrite lookup_insert_ne in Hn.
Qed.

Lemma get_basenames_distinct basenames m :
  Forall (λ b, ∃ w, b = wide_to_utf8 w) basenames → NoDup basenames → NoDup (get_basenames basenames m).
Proof.
  intros Hb. revert m. induction Hb as [|b basenames [w ->] Hbs IH]; intros m Hd; [apply NoDup_nil_2|].
  apply NoDup_cons in Hd as [Hnin Hd]. cbn [get_basenames]. pose proof (get_basename_ok w m) as Hok.
  destruct (get_basename _ m) as [first m']. apply NoDup_cons. split; [|by apply IH].
  intros Hin%get_basenames_returned; [|done].
  destruct Hok as [(-> & Hw & ->)|(w' & n & -> & Hw & _ & ->)], Hin as [(Hin & w'' & E & Hw'')|(w'' & n'' & E & Hw'' & Hn)].
  - done.
  - by apply short_not_truncated in E.
  - symmetry in E. by apply short_not_truncated in E.
  - apply truncated_inj in E as [-> ->]; [|congruence]. rewrite lookup_insert_eq in Hn. simpl in Hn. lia.
Qed.
End names.

(** ** Data files *)

(** Texts around the last separator. *)
Lemma last_separator_inj (a a' b b' : str) :
  "@"%char ∉ b → "@"%char ∉ b' → a ++ k_separator ++ b = a' ++ k_separator ++ b' → a = a' ∧ b = b'.
Proof.
  intros Hb Hb' E. apply (f_equal reverse) in E. rewrite !reverse_app in E. change (reverse k_separator) with k_separator in E.
  rewrite <- !(assoc_L (++)) in E. apply separator_inj in E as [E1 E2]; [|by rewrite elem_of_reverse..].
  split; by apply (inj reverse).
Qed.

(** A base name that does not end with the separator. *)
Definition open_ended (b : str) : Prop := last b ≠ Some "@"%char.

Lemma chunk_name_split b ext n (last_chunk : bool) :
  get_table_chunk_filename b ext n last_chunk =
  (b ++ (if last_chunk then k_separator else [])) ++ k_separator ++ (to_string (Z.of_nat n) ++ $"." ++ ext).
Proof. unfold get_table_chunk_filename. destruct last_chunk; by rewrite <- !(assoc_L (++)). Qed.

Lemma chunk_tail_no_at n ext : "@"%char ∉ ext → "@"%char ∉ to_string (Z.of_nat n) ++ $"." ++ ext.
Proof.
  intros He. destruct (to_string_nat_digits n) as [_ Hd]. rewrite !not_elem_of_app. split_and!; [|set_solver|done].
  intros Hin. by apply (proj1 (Forall_forall _ _) Hd) in Hin.
Qed.

Lemma chunk_name_inj b b' ext n n' (last_chunk last_chunk' : bool) :
  open_ended b → open_ended b' → "@"%char ∉ ext →
  get_table_chunk_filename b ext n last_chunk = get_table_chunk_filename b' ext n' last_chunk' →
  b = b' ∧ n = n' ∧ last_chunk = last_chunk'.
Proof.
  intros Hb Hb' He E. rewrite !chunk_name_split in E.
  apply last_separator_inj in E as [E1 E2]; [|by apply chunk_tail_no_at..].
  apply app_inv_tail in E2. apply to_string_nat_inj in E2 as ->.
  destruct last_chunk, last_chunk'; rewrite ?app_nil_r in E1; [by apply app_inv_tail in E1| | |done]; exfalso; subst.
  - apply Hb'. apply last_snoc.
  - apply Hb. apply last_snoc.
Qed.

Lemma encode_open_ended s t : t ≠ [] → open_ended (encode_table_basename s t).
Proof.
  intros Ht Hl. unfold encode_table_basename in Hl. rewrite (assoc_L (++)), last_app in Hl.
  destruct (last (hexencode t)) as [c|] eqn:E.
  - simplify_eq. apply last_Some_elem_of in E. by apply hexencode_no_at in E.
  - apply last_None in E. destruct t; [done|]. rewrite hexencode_cons in E. unfold encode_char in E. by destruct (_ && _).
Qed.

Lemma digits_open_ended s n : open_ended (s ++ to_string (Z.of_nat n)).
Proof.
  destruct (to_string_nat_digits n) as [Hne Hd]. unfold open_ended. rewrite last_app.
  destruct (last (to_string (Z.of_nat n))) as [c|] eqn:E; [|by apply last_None in E].
  apply last_Some_elem_of, (proj1 (Forall_forall _ _) Hd) in E. by intros [= ->].
Qed.

(** ** Theorems *)

(** C18: the names of the data files of a dump are distinct.  The base names of the tables
    are requested one after the other; however long the names of schemas and tables are,
    two chunks have the same file name only if they are the same chunk of the same
    table. *)
Theorem data_file_names_distinct `{Locale wchar} (tables : list (str * str)) ext i j b b' n n' (last_chunk last_chunk' : bool) :
  let basenames := (λ t, encode_table_basename t.1 t.2) <$> tables in
  NoDup tables → Forall (λ t, t.2 ≠ []) tables → Forall (λ b, ∃ w, b = wide_to_utf8 w) basenames → "@"%char ∉ ext →
  get_basenames basenames ∅ !! i = Some b → get_basenames basenames ∅ !! j = Some b' →
  get_table_chunk_filename b ext n last_chunk = get_table_chunk_filename b' ext n' last_chunk' →
  i = j ∧ n = n' ∧ last_chunk = last_chunk'.
Proof.
  intros basenames Hdup Hne Hwide He Hi Hj E.
  assert (NoDup basenames) as Hb.
  { apply NoDup_fmap_2; [|done]. intros [s t] [s' t'] Et. simpl in Et. apply encode_table_basename_inj in Et as [? ?]. by subst. }
  assert (∀ k c, get_basenames basenames ∅ !! k = Some c → open_ended c) as Hopen.
  { intros k c Hk. apply list_elem_of_lookup_2, get_basenames_returned in Hk; [|done].
    destruct Hk as [[Hin _]|(w & o & -> & _)]; [|apply digits_open_ended].
    apply list_elem_of_fmap in Hin as ([s t] & -> & Hin). apply encode_open_ended.
    by apply (proj1 (Forall_forall _ _) Hne (s, t)). }
  apply chunk_name_inj in E as (-> & -> & ->); [|by eapply Hopen..|done].
  split; [|done]. eapply NoDup_lookup; [|done..]. by apply get_basenames_distinct.
Qed.

(** Characters of one byte, which are all the characters of the "C" locale. *)
#[global] Instance byte_locale : Locale ascii.
Proof.
  refine {| wcrtomb c := [c]; mbrtowc s := match s with c :: _ => Some (c, 1%nat) | [] => None end |}; try done.
  intros c _. by exists c.
Defined.

Lemma data_file_names_distinct_witness :
  let tables := [($"s", replicate 300 "t"%char); ($"s", replicate 301 "t"%char); ($"a@b", $"c")] in
  let names := get_basenames ((λ t, encode_table_basename t.1 t.2) <$> tables) ∅ in
  names !! 2%nat = Some ($"a%40b@c") ∧
  ∀ b b', names !! 0%nat = Some b → names !! 1%nat = Some b' →
    get_table_chunk_filename b ($"tsv.zst") 0 true ≠ get_table_chunk_filename b' ($"tsv.zst") 0 true.
Proof.
  split; [vm_compute; reflexivity|]. intros b b' Hb Hb' E.
  destruct (data_file_names_distinct [($"s", replicate 300 "t"%char); ($"s", replicate 301 "t"%char); ($"a@b", $"c")]
              ($"tsv.zst") 0 1 b b' 0 0 true true) as [[=] _]; try assumption.
  - apply (bool_decide_unpack _). vm_compute. reflexivity.
  - apply (bool_decide_unpack _). vm_compute. reflexivity.
  - apply Forall_forall. intros s _. exists s. clear. induction s as [|c s IH]; [reflexivity|]. cbn. f_equal. exact IH.
  - apply (bool_decide_unpack _). vm_compute. reflexivity.
Defined.

(** The file of the triggers of a table is the file of the DDL of another one.  The dot is
    not encoded: for any table [t], the triggers of [t] and the table [t.triggers] of the
    same schema are written to the same file, and likewise the temporary table of a view [v]
    and the view [v.pre]. *)
Theorem ddl_file_names_collide schema name :
  get_table_data_filename (encode_table_basename schema name) ($"triggers.sql") =
    get_table_filename (encode_table_basename schema (name ++ $".triggers")) ∧
  get_table_data_filename (encode_table_basename schema name) ($"pre.sql") =
    get_table_filename (encode_table_basename schema (name ++ $".pre")).
Proof.
  unfold get_table_data_filename, get_table_filename, encode_table_basename. rewrite !hexencode_app, <- !(assoc_L (++)).
  split; do 3 f_equal.
Qed.
