(* ===== verification/DumpReader.v ===== *)
(** * Reading the data files of a dump

    Model of the part of [modules/util/load/dump_reader.{h,cc}] that finds the data files of the
    tables of a dump, which may still be in progress, and hands them out to be loaded: the
    state [Table_data_info] of a table (or partition) with its operations, and of
    [Dump_reader] the set of tables with data and the operations on it.

    A directory is the map of its file names to their sizes.  The order in which tables are
    scheduled ([schedule_chunk_proportionally], which compares ratios in floating point) is an
    argument: any member of the set of tables with data. *)
From S2P Require Import Prelude UtilsString DumpFiles.

(** ** Tables *)

Record File_info := { file_name : str; file_size : Z }.

Abbreviation Files := (gmap str Z).

Record Table_data_info := {
  basename : str;
  extension : str;
  has_data : bool;
  chunked : bool;
  last_chunk_seen : bool;
  chunks_seen : nat;
  available_chunks : list (option File_info);
  chunks_consumed : nat;                       (* scheduled to be loaded *)
  chunks_loaded : nat;
}.

(** A table whose metadata was read. *)
Definition new_Table_data_info (basename extension : str) (has_data chunked : bool) : Table_data_info :=
  {| basename := basename; extension := extension; has_data := has_data; chunked := chunked;
     last_chunk_seen := false; chunks_seen := 0; available_chunks := []; chunks_consumed := 0; chunks_loaded := 0 |}.

Definition set_consumed (n : nat) (di : Table_data_info) : Table_data_info :=
  {| basename := basename di; extension := extension di; has_data := has_data di; chunked := chunked di;
     last_chunk_seen := last_chunk_seen di; chunks_seen := chunks_seen di; available_chunks := available_chunks di;
     chunks_consumed := n; chunks_loaded := chunks_loaded di |}.

Definition set_loaded (n : nat) (di : Table_data_info) : Table_data_info :=
  {| basename := basename di; extension := extension di; has_data := has_data di; chunked := chunked di;
     last_chunk_seen := last_chunk_seen di; chunks_seen := chunks_seen di; available_chunks := available_chunks di;
     chunks_consumed := chunks_consumed di; chunks_loaded := n |}.

Definition all_chunks_are (di : Table_data_info) (what : nat) : bool :=
  negb (has_data di) || (last_chunk_seen di && bool_decide (what = length (available_chunks di))).

Definition data_dumped (di : Table_data_info) : bool := all_chunks_are di (chunks_seen di).
Definition data_scheduled (di : Table_data_info) : bool := all_chunks_are di (chunks_consumed di).
Definition data_loaded (di : Table_data_info) : bool := all_chunks_are di (chunks_loaded di).

Definition consume_chunk (di : Table_data_info) : Table_data_info := set_consumed (S (chunks_consumed di)) di.

Definition has_data_available (di : Table_data_info) : bool :=
  match available_chunks di !! chunks_consumed di with Some (Some _) => true | _ => false end.

(** The sum over the chunks up to the first one that is missing. *)
Fixpoint available_bytes (chunks : list (option File_info)) : Z :=
  match chunks with
  | Some f :: chunks => file_size f + available_bytes chunks
  | _ => 0
  end.

Definition bytes_available (di : Table_data_info) : Z := available_bytes (drop (chunks_consumed di) (available_chunks di)).

(** ** Looking for files *)

(** What [rescan_data] changes: the table, [found_data] and [total_file_size]. *)
Record scan := { table : Table_data_info; found_data : bool; total_file_size : Z }.

(** [std::vector::resize] with empty elements, when it grows. *)
Definition grow (n : nat) (l : list (option File_info)) : list (option File_info) := l ++ replicate (n - length l) None.

Definition add_chunk (f : File_info) (idx : nat) (last_chunk : bool) (di : Table_data_info) : Table_data_info :=
  {| basename := basename di; extension := extension di; has_data := has_data di; chunked := chunked di;
     last_chunk_seen := last_chunk_seen di || last_chunk; chunks_seen := S (chunks_seen di);
     available_chunks := <[idx := Some f]> (grow (S idx) (available_chunks di));
     chunks_consumed := chunks_consumed di; chunks_loaded := chunks_loaded di |}.

(** [try_to_add_chunk]; without parameters, the file of a table that is not chunked. *)
Definition try_to_add_chunk (files : Files) (params : option (nat * bool)) (s : scan) : bool * scan :=
  let di := table s in
  let '(idx, last_chunk, name) :=
    match params with
    | Some (idx, last_chunk) => (idx, last_chunk, get_table_chunk_filename (basename di) (extension di) idx last_chunk)
    | None => (0, true, get_table_data_filename (basename di) (extension di))
    end in
  match files !! name with
  | None => (false, s)
  | Some size =>
      (true, {| table := add_chunk {| file_name := name; file_size := size |} idx last_chunk di;
                found_data := true; total_file_size := total_file_size s + size |})
  end.

(** [for (size_t i = 0, s = available_chunks.size(); i < s; ++i)] *)
Fixpoint find_missing (files : Files) (indexes : list nat) (s : scan) : scan :=
  match indexes with
  | [] => s
  | i :: indexes =>
      match available_chunks (table s) !! i with
      | Some None => find_missing files indexes (try_to_add_chunk files (Some (i, false)) s).2
      | _ => find_missing files indexes s
      end
  end.

(** [for (size_t i = available_chunks.size(); i < files.size(); ++i)]: [n] iterations are
    left. *)
Fixpoint find_next (files : Files) (n i : nat) (s : scan) : scan :=
  match n with
  | O => s
  | S n =>
      match try_to_add_chunk files (Some (i, false)) s with
      | (true, s) => find_next files n (S i) s
      | (false, s) => (try_to_add_chunk files (Some (i, true)) s).2
      end
  end.

Definition rescan_data (files : Files) (s : scan) : scan :=
  let s := (try_to_add_chunk files None s).2 in
  if chunked (table s) then
    let s := if bool_decide (chunks_seen (table s) < length (available_chunks (table s)))
             then find_missing files (seq 0 (length (available_chunks (table s)))) s else s in
    if last_chunk_seen (table s) then s
    else
      let i := length (available_chunks (table s)) in
      find_next files (size files - i) i s
  else s.

(** ** The reader *)

(** The tables of the schemas that are ready; tables are known by their position. *)
Record Dump_reader := {
  tables : list Table_data_info;
  m_tables_with_data : gset nat;
  m_total_file_size : Z;
}.

Definition update_table (t : nat) (di : Table_data_info) (r : Dump_reader) : Dump_reader :=
  {| tables := <[t := di]> (tables r); m_tables_with_data := m_tables_with_data r; m_total_file_size := m_total_file_size r |}.

Definition rescan_table (files : Files) (t : nat) (r : Dump_reader) : Dump_reader :=
  match tables r !! t with
  | None => r
  | Some di =>
      if data_dumped di then r
      else
        let s := rescan_data files {| table := di; found_data := false; total_file_size := m_total_file_size r |} in
        {| tables := <[t := table s]> (tables r);
           m_tables_with_data := if found_data s then {[ t ]} ∪ m_tables_with_data r else m_tables_with_data r;
           m_total_file_size := total_file_size s |}
  end.

(** [Schema_info::rescan_data] *)
Definition rescan (files : Files) (r : Dump_reader) : Dump_reader :=
  foldl (λ r t, rescan_table files t r) r (seq 0 (length (tables r))).

Record Table_chunk := {
  chunk_index : nat;
  chunk_file : str;
  chunk_file_size : Z;
  chunks_total : nat;
  dump_complete : bool;
}.

(** [next_table_chunk], for the table the scheduler chose. *)
Definition next_table_chunk (t : nat) (r : Dump_reader) : result (Table_chunk * Dump_reader) :=
  match tables r !! t with
  | None => Throw (logic_error "no such table")
  | Some di =>
      let index := chunks_consumed di in
      match available_chunks di !! index with
      | Some (Some info) =>
          let chunk := {| chunk_index := index; chunk_file := file_name info; chunk_file_size := file_size info;
                          chunks_total := if last_chunk_seen di then length (available_chunks di) else 0;
                          dump_complete := data_dumped di |} in
          let di := consume_chunk di in
          let r := update_table t di r in
          Ok (chunk, if has_data_available di then r
                     else {| tables := tables r; m_tables_with_data := m_tables_with_data r ∖ {[ t ]};
                             m_total_file_size := m_total_file_size r |})
      | _ => Throw (logic_error "Trying to use chunk which is not yet available")
      end
  end.

(** Are all chunks of the table loaded? *)
Definition on_chunk_loaded (t : nat) (r : Dump_reader) : option (bool * Dump_reader) :=
  di ← tables r !! t;
  let di := set_loaded (S (chunks_loaded di)) di in
  Some (data_loaded di, update_table t di r).

Definition on_table_loaded (t : nat) (r : Dump_reader) : option Dump_reader :=
  di ← tables r !! t;
  if data_dumped di then Some (update_table t (set_loaded (length (available_chunks di)) di) r) else None.

Definition consume_table (t : nat) (r : Dump_reader) : option Dump_reader :=
  di ← tables r !! t;
  if data_dumped di then
    let r := update_table t (set_consumed (length (available_chunks di)) di) r in
    Some {| tables := tables r; m_tables_with_data := m_tables_with_data r ∖ {[ t ]}; m_total_file_size := m_total_file_size r |}
  else None.

Definition data_available (r : Dump_reader) : bool := bool_decide (m_tables_with_data r ≠ ∅).
Definition data_pending (load_data : bool) (r : Dump_reader) : bool :=
  load_data && existsb (λ di, negb (data_scheduled di)) (tables r).
