(* ===== verification/DumpReaderFacts.v ===== *)
(** * Reading the data files of a dump: theorems

    A dump in progress and a reader as a step relation: files appear in any order, the reader
    looks for them at any time, and hands out chunks of any table that has data. *)
From S2P Require Import Prelude UtilsString DumpFiles DumpFilesFacts DumpReader.

(** ** The files of the dump *)

(** A table: its schema and name, and the number of its chunks, if it is chunked. *)
Record planned := { p_schema : str; p_table : str; p_chunks : option nat }.

Definition p_basename (p : planned) : str := encode_table_basename (p_schema p) (p_table p).
Definition p_files (p : planned) : nat := default 1%nat (p_chunks p).

Section dump.
Context (ext : str) (plan : list planned).

(** A name the reader may look for: of a whole table, or of a chunk. *)
Definition candidate (p : planned) (key : option (nat * bool)) : str :=
  match key with
  | Some (idx, last_chunk) => get_table_chunk_filename (p_basename p) ext idx last_chunk
  | None => get_table_data_filename (p_basename p) ext
  end.

(** The file of the chunk at a position. *)
Definition key_of (p : planned) (k : nat) : option (nat * bool) :=
  match p_chunks p with Some n => Some (k, bool_decide (S k = n)) | None => None end.

Definition planned_file (p : planned) (k : nat) : str := candidate p (key_of p k).

(** Different tables, which have names, and at least one chunk each. *)
Definition plan_ok : Prop :=
  ("@"%char ∉ ext) ∧ NoDup ((λ p, (p_schema p, p_table p)) <$> plan) ∧
  Forall (λ p, p_table p ≠ [] ∧ p_chunks p ≠ Some 0%nat) plan.


Lemma candidate_inj t t' p p' key key' :
  plan_ok → plan !! t = Some p → plan !! t' = Some p' → candidate p key = candidate p' key' → t = t' ∧ key = key'.
Proof.
  intros (Hext & Hdup & Hall) Hp Hp' E.
  assert (p_basename p = p_basename p' → t = t') as Hsame.
  { intros [Es Et]%encode_table_basename_inj. eapply NoDup_lookup; [exact Hdup| |];
      rewrite list_lookup_fmap; [rewrite Hp|rewrite Hp']; simpl; [done|]. by rewrite Es, Et. }
  assert (∀ q q' n l, candidate q None ≠ candidate q' (Some (n, l))) as Hkind.
  { intros q q' n l Eq. unfold candidate, p_basename, encode_table_basename, encode_schema_basename in Eq.
    unfold get_table_data_filename, get_table_chunk_filename in Eq. rewrite <- !(assoc_L (++)) in Eq.
    apply separator_inj in Eq as [_ Eq]; [|apply hexencode_no_at..]. symmetry in Eq. revert Eq. apply no_separator.
    rewrite !not_elem_of_app. pose proof (hexencode_no_at (p_table q)). set_solver. }
  assert (open_ended (p_basename p) ∧ open_ended (p_basename p')) as [Ho Ho'].
  { split; apply encode_open_ended; [by apply (proj1 (Forall_lookup _ _) Hall t)|by apply (proj1 (Forall_lookup _ _) Hall t')]. }
  destruct key as [[n l]|], key' as [[n' l']|].
  - apply chunk_name_inj in E as (Eb & -> & ->); [|done..]. auto.
  - symmetry in E. by apply Hkind in E.
  - by apply Hkind in E.
  - apply app_inv_tail in E. auto.
Qed.

Context (Hplan : plan_ok).

(** The files of a directory are files of the plan. *)
Definition disk_ok (disk : Files) : Prop :=
  ∀ t p key, plan !! t = Some p → is_Some (disk !! candidate p key) → ∃ k, (k < p_files p)%nat ∧ key = key_of p k.

Lemma plan_key_inj p j k : (j < p_files p)%nat → (k < p_files p)%nat → key_of p j = key_of p k → j = k.
Proof. unfold key_of, p_files. destruct (p_chunks p); simpl; intros; simplify_eq; lia. Qed.

(** There are at least as many files as chunks that were found. *)
Lemma count_files (disk : Files) t p m :
  plan !! t = Some p → (m ≤ p_files p)%nat → (∀ j, (j < m)%nat → is_Some (disk !! planned_file p j)) → (m ≤ size disk)%nat.
Proof.
  intros Hp Hm Hall. set (names := planned_file p <$> seq 0 m).
  assert (NoDup names) as Hdup.
  { apply NoDup_alt. intros i j x Hi Hj. unfold names in Hi, Hj.
    apply list_lookup_fmap_Some in Hi as (i' & -> & Hi). apply list_lookup_fmap_Some in Hj as (j' & E & Hj).
    apply lookup_seq in Hi as [-> Hi]. apply lookup_seq in Hj as [-> Hj]. simpl in *.
    destruct (candidate_inj t t p p _ _ Hplan Hp Hp E) as [_ Ek]. apply plan_key_inj in Ek; [done|lia|lia]. }
  assert (list_to_set names ⊆ dom disk) as Hsub.
  { intros x Hx. apply elem_of_list_to_set, list_elem_of_fmap in Hx as (j & -> & Hj). apply elem_of_seq in Hj.
    apply elem_of_dom, Hall. lia. }
  apply subseteq_size in Hsub. rewrite size_list_to_set, size_dom in Hsub by done.
  unfold names in Hsub. rewrite length_fmap, length_seq in Hsub. done.
Qed.

(** ** The state of a table *)

Section table.
Context (disk : Files) (Hdisk : disk_ok disk) (t : nat) (p : planned) (Hp : plan !! t = Some p).

(** The chunks that were found are the first ones. *)
Record table_ok (di : Table_data_info) : Prop := {
  ok_basename : basename di = p_basename p;
  ok_extension : extension di = ext;
  ok_has_data : has_data di = true;
  ok_chunked : chunked di = bool_decide (is_Some (p_chunks p));
  ok_available : (length (available_chunks di) ≤ p_files p)%nat;
  ok_chunks j : (j < length (available_chunks di))%nat →
    ∃ size, disk !! planned_file p j = Some size ∧
      available_chunks di !! j = Some (Some {| file_name := planned_file p j; file_size := size |});
  ok_seen : chunks_seen di = length (available_chunks di);
  ok_last : last_chunk_seen di = bool_decide (length (available_chunks di) = p_files p);
  ok_consumed : (chunks_consumed di ≤ length (available_chunks di))%nat;
}.

Lemma data_dumped_ok di : table_ok di → data_dumped di = bool_decide (length (available_chunks di) = p_files p).
Proof.
  intros Hok. unfold data_dumped, all_chunks_are. rewrite (ok_has_data _ Hok), (ok_last _ Hok), (ok_seen _ Hok).
  rewrite (bool_decide_eq_true_2 (length _ = length _)) by done. by rewrite andb_true_r.
Qed.

Lemma data_scheduled_ok di :
  table_ok di → data_scheduled di = true ↔ chunks_consumed di = p_files p.
Proof.
  intros Hok. unfold data_scheduled, all_chunks_are. rewrite (ok_has_data _ Hok), (ok_last _ Hok). simpl.
  rewrite andb_true_iff, !bool_decide_eq_true. pose proof (ok_consumed _ Hok). pose proof (ok_available _ Hok). lia.
Qed.

Lemma has_data_available_ok di :
  table_ok di → has_data_available di = bool_decide (chunks_consumed di < length (available_chunks di))%nat.
Proof.
  intros Hok. unfold has_data_available. case_bool_decide as Hlt.
  - by destruct (ok_chunks _ Hok _ Hlt) as (size & _ & ->).
  - by rewrite lookup_ge_None_2 by lia.
Qed.

(** The name of a file that is looked for. *)
Definition params_name (key : option (nat * bool)) : nat * bool :=
  match key with Some (idx, last_chunk) => (idx, last_chunk) | None => (0%nat, true) end.

Lemma try_to_add_chunk_ok key s :
  table_ok (table s) →
  try_to_add_chunk disk key s =
    match disk !! candidate p key with
    | None => (false, s)
    | Some size =>
        (true, {| table := add_chunk {| file_name := candidate p key; file_size := size |}
                             (params_name key).1 (params_name key).2 (table s);
                  found_data := true; total_file_size := total_file_size s + size |})
    end.
Proof.
  intros Hok. unfold try_to_add_chunk. rewrite (ok_basename _ Hok), (ok_extension _ Hok). by destruct key as [[idx l]|].
Qed.

Lemma insert_grow (f : File_info) l : <[length l := Some f]> (grow (S (length l)) l) = l ++ [Some f].
Proof.
  unfold grow. replace (S (length l) - length l)%nat with 1%nat by lia.
  rewrite insert_app_r_alt by lia. by rewrite Nat.sub_diag.
Qed.

(** Adding the next chunk. *)
Lemma add_chunk_ok di size :
  table_ok di → (length (available_chunks di) < p_files p)%nat →
  disk !! planned_file p (length (available_chunks di)) = Some size →
  let k := length (available_chunks di) in
  let di' := add_chunk {| file_name := planned_file p k; file_size := size |} k (bool_decide (S k = p_files p)) di in
  table_ok di' ∧ length (available_chunks di') = S k ∧ chunks_consumed di' = chunks_consumed di.
Proof.
  intros Hok Hlt Hsize k di'. set (f := {| file_name := planned_file p k; file_size := size |}).
  assert (available_chunks di' = available_chunks di ++ [Some f]) as Ea by apply insert_grow.
  assert (length (available_chunks di') = S k) as El by (rewrite Ea, length_app; simpl; lia).
  split; [|done]. pose proof (ok_consumed _ Hok). pose proof (ok_seen _ Hok). pose proof (ok_last _ Hok) as Hlast.
  rewrite (bool_decide_eq_false_2 (_ = p_files p)) in Hlast by lia. split.
  - apply Hok.
  - apply Hok.
  - apply Hok.
  - apply Hok.
  - rewrite El. lia.
  - intros j Hj. rewrite Ea. destruct (decide (j < k)%nat) as [Hjk|].
    + rewrite lookup_app_l by done. by apply Hok.
    + assert (j = k) as -> by lia. exists size. split; [done|]. by rewrite lookup_app_r, Nat.sub_diag by lia.
  - rewrite El. simpl. lia.
  - rewrite El. simpl. by rewrite Hlast.
  - rewrite El. simpl. lia.
Qed.

(** A search from the chunks that are known: it stops at the first file that is missing. *)
Definition scanned (s s' : scan) : Prop :=
  table_ok (table s') ∧ chunks_consumed (table s') = chunks_consumed (table s) ∧
  (length (available_chunks (table s)) ≤ length (available_chunks (table s')))%nat ∧
  found_data s' = found_data s || bool_decide (length (available_chunks (table s)) < length (available_chunks (table s')))%nat ∧
  (length (available_chunks (table s')) = p_files p ∨ disk !! planned_file p (length (available_chunks (table s'))) = None).

Lemma scanned_stop s :
  table_ok (table s) →
  length (available_chunks (table s)) = p_files p ∨ disk !! planned_file p (length (available_chunks (table s))) = None →
  scanned s s.
Proof.
  intros Hok Hstop. split_and!; [done|done|done| |done]. rewrite bool_decide_eq_false_2 by lia. by rewrite orb_false_r.
Qed.

Lemma scanned_trans s s' s'' :
  (length (available_chunks (table s)) < length (available_chunks (table s')))%nat → found_data s' = true →
  chunks_consumed (table s') = chunks_consumed (table s) → scanned s' s'' → scanned s s''.
Proof.
  intros Hlt Hf Hc (Hok & Hc' & Hle & Hf' & Hstop). split_and!; [done|congruence|lia| |done].
  rewrite Hf', Hf. rewrite (bool_decide_eq_true_2 (length (available_chunks (table s)) < length (available_chunks (table s'')))%nat) by lia.
  by destruct (found_data s).
Qed.

(** A candidate that is not the next planned file is not there. *)
Lemma not_planned k last_chunk :
  p_chunks p = Some (p_files p) → (bool_decide (S k = p_files p) ≠ last_chunk) → disk !! candidate p (Some (k, last_chunk)) = None.
Proof.
  intros Hc Hl. destruct (disk !! _) eqn:E; [|done]. destruct (Hdisk t p (Some (k, last_chunk)) Hp) as (j & Hj & Ek); [by rewrite E|].
  unfold key_of in Ek. rewrite Hc in Ek. simplify_eq.
Qed.

Lemma find_next_ok n s :
  p_chunks p = Some (p_files p) → table_ok (table s) → (length (available_chunks (table s)) < p_files p)%nat →
  (size disk ≤ n + length (available_chunks (table s)))%nat →
  scanned s (find_next disk n (length (available_chunks (table s))) s).
Proof.
  intros Hc. revert s. induction n as [|n IH]; intros s Hok Hlt Hn; cbn [find_next].
  - apply scanned_stop; [done|]. right. destruct (disk !! planned_file p _) eqn:E; [|done]. exfalso.
    enough (S (length (available_chunks (table s))) ≤ size disk)%nat by lia.
    apply (count_files disk t p); [done|lia|]. intros j Hj.
    destruct (decide (j = length (available_chunks (table s)))) as [->|]; [by rewrite E|].
    destruct (ok_chunks _ Hok j) as (size & -> & _); [lia|done].
  - set (k := length (available_chunks (table s))) in *. rewrite try_to_add_chunk_ok by done.
    assert (∀ l, bool_decide (S k = p_files p) = l → candidate p (Some (k, l)) = planned_file p k) as Hname.
    { intros l <-. unfold planned_file, key_of. by rewrite Hc. }
    destruct (decide (S k = p_files p)) as [Hlast|Hlast].
    + rewrite (not_planned k false) by (done || by rewrite bool_decide_eq_true_2). rewrite try_to_add_chunk_ok by done.
      rewrite (Hname true) by (by rewrite bool_decide_eq_true_2).
      destruct (disk !! planned_file p k) as [size|] eqn:E; [|apply scanned_stop; [done|by right]].
      pose proof (add_chunk_ok (table s) size Hok Hlt E) as Hadd. cbv zeta in Hadd. fold k in Hadd. rewrite bool_decide_eq_true_2 in Hadd by done.
      destruct Hadd as (Hok' & El & Ec). cbn [snd params_name fst]. eapply scanned_trans; [| | |apply scanned_stop];
        cbn [table found_data]; try done; [rewrite El; unfold k; lia|]. left. rewrite El. done.
    + rewrite (Hname false) by (by rewrite bool_decide_eq_false_2).
      destruct (disk !! planned_file p k) as [size|] eqn:E.
      * pose proof (add_chunk_ok (table s) size Hok Hlt E) as Hadd. cbv zeta in Hadd. fold k in Hadd. rewrite bool_decide_eq_false_2 in Hadd by done.
        destruct Hadd as (Hok' & El & Ec). cbn [params_name fst snd]. set (s' := {| table := _ |}).
        assert (length (available_chunks (table s')) = S k) as El' by done. rewrite <- El'.
        apply (scanned_trans s s'); [rewrite El'; unfold k; lia|done|done|]. apply IH; [done|rewrite El'; lia|rewrite El'; lia].
      * rewrite try_to_add_chunk_ok by done. rewrite (not_planned k true) by (done || by rewrite bool_decide_eq_false_2).
        apply scanned_stop; [done|by right].
Qed.

Lemma rescan_data_ok s :
  p_chunks p ≠ Some 0%nat → table_ok (table s) → data_dumped (table s) = false → scanned s (rescan_data disk s).
Proof.
  intros Hnz Hok Hdd. rewrite data_dumped_ok in Hdd by done. apply bool_decide_eq_false in Hdd.
  assert (length (available_chunks (table s)) < p_files p)%nat as Hlt by (pose proof (ok_available _ Hok); lia).
  unfold rescan_data. rewrite try_to_add_chunk_ok by done.
  destruct (p_chunks p) as [n|] eqn:Hc.
  - assert (p_files p = n) as Hn by (unfold p_files; by rewrite Hc).
    assert (disk !! candidate p None = None) as ->.
    { destruct (disk !! _) eqn:E; [|done]. destruct (Hdisk t p None Hp) as (j & _ & Ek); [by rewrite E|].
      unfold key_of in Ek. by rewrite Hc in Ek. }
    cbn [snd]. rewrite (ok_chunked _ Hok), Hc. rewrite (bool_decide_eq_true_2 (is_Some _)) by done.
    rewrite (bool_decide_eq_false_2 (_ < _)%nat) by (rewrite (ok_seen _ Hok); lia).
    rewrite (ok_last _ Hok), bool_decide_eq_false_2 by lia. apply find_next_ok; [by rewrite Hn|done|done|lia].
  - assert (p_files p = 1%nat) as Hn by (unfold p_files; by rewrite Hc).
    assert (length (available_chunks (table s)) = 0%nat) as Hk by lia.
    assert (candidate p None = planned_file p 0) as Hname by (unfold planned_file, key_of; by rewrite Hc).
    rewrite Hname. destruct (disk !! planned_file p 0) as [size|] eqn:E.
    + pose proof (add_chunk_ok (table s) size Hok Hlt) as Hadd. cbv zeta in Hadd. rewrite Hk in Hadd. specialize (Hadd E).
      rewrite bool_decide_eq_true_2 in Hadd by lia. destruct Hadd as (Hok' & El & Ec). cbn [snd params_name fst].
      cbn [table]. rewrite (ok_chunked _ Hok'), Hc. rewrite bool_decide_eq_false_2 by (by intros [? ?]).
      eapply scanned_trans; [| | |apply scanned_stop]; cbn [table found_data]; try done; [rewrite El; lia|]. left. lia.
    + cbn [snd]. rewrite (ok_chunked _ Hok), Hc. rewrite bool_decide_eq_false_2 by (by intros [? ?]).
      apply scanned_stop; [done|]. right. by rewrite Hk.
Qed.
End table.

(** ** The dump and the reader *)

Record sys := { disk : Files; reader : Dump_reader }.

Inductive event :=
  | Written (name : str)
  | Rescanned
  | Scheduled (t : nat) (c : Table_chunk)
  | Loaded (t : nat).

(** The dumper writes the data files of the plan, and other files, in any order; the reader
    looks at the directory, hands out a chunk of a table with data, and is told that one was
    loaded. *)
Inductive step : sys → event → sys → Prop :=
  | step_data t p k size s :
      plan !! t = Some p → (k < p_files p)%nat → disk s !! planned_file p k = None →
      step s (Written (planned_file p k)) {| disk := <[planned_file p k := size]> (disk s); reader := reader s |}
  | step_other name size s :
      (∀ t p key, plan !! t = Some p → candidate p key ≠ name) → disk s !! name = None →
      step s (Written name) {| disk := <[name := size]> (disk s); reader := reader s |}
  | step_rescan s : step s Rescanned {| disk := disk s; reader := rescan (disk s) (reader s) |}
  | step_schedule t c r s :
      t ∈ m_tables_with_data (reader s) → next_table_chunk t (reader s) = Ok (c, r) →
      step s (Scheduled t c) {| disk := disk s; reader := r |}
  | step_loaded t b r s :
      on_chunk_loaded t (reader s) = Some (b, r) → step s (Loaded t) {| disk := disk s; reader := r |}.

Inductive run (s0 : sys) : list event → sys → Prop :=
  | run_nil : run s0 [] s0
  | run_snoc events s e s' : run s0 events s → step s e s' → run s0 (events ++ [e]) s'.

(** The metadata of the tables was read, and no data files were seen. *)
Definition initial : sys :=
  {| disk := ∅;
     reader := {| tables := (λ p, new_Table_data_info (p_basename p) ext true (bool_decide (is_Some (p_chunks p)))) <$> plan;
                  m_tables_with_data := ∅; m_total_file_size := 0 |} |}.

(** *** The invariant *)

Definition tables_ok (d : Files) (r : Dump_reader) : Prop :=
  length (tables r) = length plan ∧
  (∀ t p di, plan !! t = Some p → tables r !! t = Some di → table_ok d p di) ∧
  (∀ t, t ∈ m_tables_with_data r ↔
     ∃ di, tables r !! t = Some di ∧ (chunks_consumed di < length (available_chunks di))%nat).

Definition inv (s : sys) : Prop := disk_ok (disk s) ∧ tables_ok (disk s) (reader s).

Lemma table_ok_grow d p di name size : d !! name = None → table_ok d p di → table_ok (<[name := size]> d) p di.
Proof.
  intros Hn Hok. split; try apply Hok. intros j Hj. destruct (ok_chunks _ _ _ Hok j Hj) as (sz & Hsz & Ha).
  exists sz. split; [|done]. rewrite lookup_insert_ne; [done|]. intros ->. congruence.
Qed.

Lemma tables_ok_grow d r name size : d !! name = None → tables_ok d r → tables_ok (<[name := size]> d) r.
Proof. intros Hn (Hl & Ht & Hw). split_and!; [done| |done]. intros t p di Hp Hdi. apply table_ok_grow; [done|by eapply Ht]. Qed.

Lemma initial_inv : inv initial.
Proof.
  split; [|split_and!].
  - intros t p key _ [x Hx]. simpl in Hx. by rewrite lookup_empty in Hx.
  - simpl. by rewrite length_fmap.
  - intros t p di Hp Hdi. simpl in Hdi. rewrite list_lookup_fmap, Hp in Hdi. simplify_eq/=.
    destruct Hplan as (_ & _ & Hall). destruct (proj1 (Forall_lookup _ _) Hall t p Hp) as [_ Hnz].
    split; simpl; try done; try lia. rewrite bool_decide_eq_false_2; [done|].
    unfold p_files. destruct (p_chunks p) as [[|n]|]; simpl; congruence.
  - intros t. simpl. split; [set_solver|]. intros (di & Hdi & Hlt). rewrite list_lookup_fmap in Hdi.
    destruct (plan !! t); simplify_eq/=. lia.
Qed.

(** A table of the plan is a table of the reader. *)
Lemma table_planned d r t di : tables_ok d r → tables r !! t = Some di → ∃ p, plan !! t = Some p ∧ table_ok d p di.
Proof.
  intros (Hl & Ht & _) Hdi. destruct (lookup_lt_is_Some_2 plan t) as [p Hp].
  { rewrite <- Hl. by eapply lookup_lt_Some. }
  exists p. split; [done|]. by eapply Ht.
Qed.

(** Replacing a table keeps the invariant. *)
Lemma tables_ok_update d r t p di di' (with_data : gset nat) (total : Z) :
  tables_ok d r → plan !! t = Some p → tables r !! t = Some di → table_ok d p di' →
  (∀ t', t' ≠ t → t' ∈ with_data ↔ t' ∈ m_tables_with_data r) →
  (t ∈ with_data ↔ (chunks_consumed di' < length (available_chunks di'))%nat) →
  tables_ok d {| tables := <[t := di']> (tables r); m_tables_with_data := with_data; m_total_file_size := total |}.
Proof.
  intros (Hl & Ht & Hw) Hp Hdi Hok Hother Hthis. pose proof (lookup_lt_Some _ _ _ Hdi) as Hlt. split_and!; simpl.
  - by rewrite length_insert.
  - intros t' p' di'' Hp' Hdi''. destruct (decide (t' = t)) as [->|].
    + rewrite list_lookup_insert_eq in Hdi'' by done. by simplify_eq.
    + rewrite list_lookup_insert_ne in Hdi'' by done. by eapply Ht.
  - intros t'. destruct (decide (t' = t)) as [->|].
    + rewrite list_lookup_insert_eq by done. rewrite Hthis. naive_solver.
    + rewrite list_lookup_insert_ne by done. by rewrite Hother, Hw.
Qed.

(** All files of the table that follow those that are known in order were found. *)
Definition maximal (d : Files) (r : Dump_reader) (t : nat) : Prop :=
  ∀ p di, plan !! t = Some p → tables r !! t = Some di →
    length (available_chunks di) = p_files p ∨ d !! planned_file p (length (available_chunks di)) = None.

Lemma rescan_table_ok d r t :
  disk_ok d → tables_ok d r →
  tables_ok d (rescan_table d t r) ∧ maximal d (rescan_table d t r) t ∧
  (∀ t', t' ≠ t → tables (rescan_table d t r) !! t' = tables r !! t') ∧
  ∀ t' di, tables r !! t' = Some di →
    ∃ di', tables (rescan_table d t r) !! t' = Some di' ∧ chunks_consumed di' = chunks_consumed di.
Proof.
  intros Hdisk Hok. unfold rescan_table. destruct (tables r !! t) as [di|] eqn:Hdi.
  2: { split_and!; [done|intros p di ? ?; congruence|done|]. intros t' di Hdi'. by exists di. }
  destruct (table_planned d r t di Hok Hdi) as (p & Hp & Htable). destruct (data_dumped di) eqn:Hdd.
  { rewrite (data_dumped_ok d p di) in Hdd by done. apply bool_decide_eq_true in Hdd.
    split_and!; [done| |done|by eauto]. intros p' di' Hp' Hdi'. simplify_eq. by left. }
  set (s := {| table := di |}). destruct Hplan as (_ & _ & Hall).
  destruct (rescan_data_ok d Hdisk t p Hp s) as (Hok' & Hc & Hle & Hf & Hmax); [|done|done|].
  { by apply (proj1 (Forall_lookup _ _) Hall t p Hp). }
  set (s' := rescan_data d s) in *. cbn [table found_data s] in *. pose proof (lookup_lt_Some _ _ _ Hdi) as Hlt.
  split_and!.
  - eapply tables_ok_update; [done..| |].
    + intros t' Ht'. destruct (found_data s'); set_solver.
    + destruct Hok as (_ & _ & Hw). specialize (Hw t). rewrite Hdi in Hw. pose proof (ok_consumed _ _ _ Htable).
      rewrite Hf. rewrite orb_false_l. case_bool_decide; [set_solver by lia|]. rewrite Hw, Hc.
      replace (length (available_chunks (table s'))) with (length (available_chunks di)) by lia. naive_solver.
  - intros p' di' Hp' Hdi'. simpl in Hdi'. rewrite list_lookup_insert_eq in Hdi' by done. by simplify_eq.
  - intros t' Ht'. simpl. by rewrite list_lookup_insert_ne.
  - intros t' di' Hdi'. simpl. destruct (decide (t' = t)) as [->|].
    + rewrite list_lookup_insert_eq by done. simplify_eq. by eexists.
    + rewrite list_lookup_insert_ne by done. by eexists.
Qed.

Lemma rescan_tables_ok d ts r :
  disk_ok d → tables_ok d r →
  let r' := foldl (λ r t, rescan_table d t r) r ts in
  tables_ok d r' ∧ (∀ t, t ∈ ts ∨ maximal d r t → maximal d r' t) ∧
  ∀ t di, tables r !! t = Some di → ∃ di', tables r' !! t = Some di' ∧ chunks_consumed di' = chunks_consumed di.
Proof.
  intros Hdisk. revert r. induction ts as [|t ts IH]; intros r Hok; cbn [foldl].
  - split_and!; [done| |by eauto]. intros t [?|?]; [set_solver|done].
  - destruct (rescan_table_ok d r t Hdisk Hok) as (Hok' & Hmax & Hother & Hc).
    destruct (IH _ Hok') as (Hok'' & Hmax' & Hc'). split_and!; [done| |].
    + intros t' Ht'. apply Hmax'. destruct (decide (t' = t)) as [->|Hne]; [by right|].
      destruct Ht' as [Hin|Hm]; [left; set_solver|right]. intros p di Hp Hdi. rewrite Hother in Hdi by done. by apply (Hm p di).
    + intros t' di Hdi. destruct (Hc t' di Hdi) as (di' & Hdi' & E). destruct (Hc' t' di' Hdi') as (di'' & ? & ?).
      exists di''. split; [done|congruence].
Qed.

Lemma rescan_ok d r :
  disk_ok d → tables_ok d r →
  tables_ok d (rescan d r) ∧ (∀ t, maximal d (rescan d r) t) ∧
  ∀ t di, tables r !! t = Some di → ∃ di', tables (rescan d r) !! t = Some di' ∧ chunks_consumed di' = chunks_consumed di.
Proof.
  intros Hdisk Hok. destruct (rescan_tables_ok d (seq 0 (length (tables r))) r Hdisk Hok) as (? & Hmax & ?).
  split_and!; [done| |done]. intros t. apply Hmax. destruct (tables r !! t) eqn:E.
  - left. apply elem_of_seq. apply lookup_lt_Some in E. lia.
  - right. intros p di Hp Hdi. congruence.
Qed.

(** Handing out a chunk. *)
Lemma next_table_chunk_ok d r t :
  tables_ok d r → t ∈ m_tables_with_data r →
  ∃ p di c r', plan !! t = Some p ∧ tables r !! t = Some di ∧ next_table_chunk t r = Ok (c, r') ∧ tables_ok d r' ∧
    chunk_index c = chunks_consumed di ∧ chunk_file c = planned_file p (chunks_consumed di) ∧
    tables r' !! t = Some (consume_chunk di) ∧ (∀ t', t' ≠ t → tables r' !! t' = tables r !! t').
Proof.
  intros Hok Hin. pose proof Hok as (_ & _ & Hw). apply Hw in Hin as (di & Hdi & Hlt).
  destruct (table_planned d r t di Hok Hdi) as (p & Hp & Htable). destruct (ok_chunks _ _ _ Htable _ Hlt) as (size & _ & Ha).
  unfold next_table_chunk. rewrite Hdi, Ha.
  assert (table_ok d p (consume_chunk di)) as Htable'.
  { split; try apply Htable. simpl. lia. }
  rewrite (has_data_available_ok d p _ Htable'). pose proof (lookup_lt_Some _ _ _ Hdi) as Hl.
  exists p, di. eexists _, _. split; [done|]. split; [done|]. split; [done|]. split; [|split_and!; [done|done|..]].
  - case_bool_decide as Hmore; (eapply tables_ok_update; [done..| |]).
    + done.
    + split; [done|]. intros _. apply Hw. by exists di.
    + set_solver.
    + set_solver.
  - case_bool_decide; simpl; by rewrite list_lookup_insert_eq.
  - intros t' Ht'. case_bool_decide; simpl; by rewrite list_lookup_insert_ne.
Qed.

Lemma on_chunk_loaded_ok d r t b r' :
  tables_ok d r → on_chunk_loaded t r = Some (b, r') →
  tables_ok d r' ∧ ∀ t' di, tables r !! t' = Some di →
    ∃ di', tables r' !! t' = Some di' ∧ chunks_consumed di' = chunks_consumed di.
Proof.
  intros Hok. unfold on_chunk_loaded. destruct (tables r !! t) as [di|] eqn:Hdi; [|done]. intros [= <- <-].
  destruct (table_planned d r t di Hok Hdi) as (p & Hp & Htable). pose proof (lookup_lt_Some _ _ _ Hdi) as Hl. split.
  - eapply tables_ok_update; [done| | | | |]; [done..| |done|].
    + by split; apply Htable.
    + destruct Hok as (_ & _ & Hw). rewrite Hw, Hdi. naive_solver.
  - intros t' di' Hdi'. simpl. destruct (decide (t' = t)) as [->|].
    + rewrite list_lookup_insert_eq by done. simplify_eq. by eexists.
    + rewrite list_lookup_insert_ne by done. by eexists.
Qed.

(** *** Runs *)

(** The chunks of a table that were handed out. *)
Fixpoint scheduled (t : nat) (events : list event) : list Table_chunk :=
  match events with
  | [] => []
  | Scheduled t' c :: events => if bool_decide (t' = t) then c :: scheduled t events else scheduled t events
  | _ :: events => scheduled t events
  end.

Lemma scheduled_app t events events' : scheduled t (events ++ events') = scheduled t events ++ scheduled t events'.
Proof.
  induction events as [|e events IH]; [done|]. destruct e as [| |t' c|]; simpl; try done. case_bool_decide; [|done].
  by rewrite IH.
Qed.

(** The chunks were handed out in order. *)
Definition in_order (events : list event) (r : Dump_reader) : Prop :=
  ∀ t p di, plan !! t = Some p → tables r !! t = Some di →
    chunk_index <$> scheduled t events = seq 0 (chunks_consumed di) ∧
    chunk_file <$> scheduled t events = planned_file p <$> seq 0 (chunks_consumed di).

(** An event that does not hand out a chunk. *)
Lemma in_order_same events e r r' :
  (∀ t, scheduled t [e] = []) → length (tables r) = length (tables r') →
  (∀ t di, tables r !! t = Some di → ∃ di', tables r' !! t = Some di' ∧ chunks_consumed di' = chunks_consumed di) →
  in_order events r → in_order (events ++ [e]) r'.
Proof.
  intros He Hl Hsame Hord t p di' Hp Hdi'. rewrite scheduled_app, He, app_nil_r.
  destruct (lookup_lt_is_Some_2 (tables r) t) as [di Hdi]; [rewrite Hl; by eapply lookup_lt_Some|].
  destruct (Hsame t di Hdi) as (di'' & Hdi'' & E). simplify_eq. rewrite E. by apply Hord.
Qed.

Lemma disk_ok_grow d t p k size : plan !! t = Some p → (k < p_files p)%nat → disk_ok d → disk_ok (<[planned_file p k := size]> d).
Proof.
  intros Hp Hk Hdisk t' p' key Hp' Hs. destruct (decide (candidate p' key = planned_file p k)) as [E|E].
  - destruct (candidate_inj t' t p' p key (key_of p k) Hplan Hp' Hp E) as [-> ->]. simplify_eq. by exists k.
  - rewrite lookup_insert_ne in Hs by done. by eapply Hdisk.
Qed.

Lemma run_ok events s : run initial events s → inv s ∧ in_order events (reader s).
Proof.
  induction 1 as [|events s e s' _ [[Hdisk Hok] Hord] Hstep].
  { split; [apply initial_inv|]. intros t p di Hp Hdi. simpl in Hdi. rewrite list_lookup_fmap, Hp in Hdi. by simplify_eq/=. }
  destruct Hstep as [t p k size s Hp Hk Hnone|name size s Hother Hnone|s|t c r s Hin Hnext|t b r s Hload]; simpl in *.
  - split; [|apply (in_order_same _ _ (reader s)); eauto]. split; [by eapply disk_ok_grow|by apply tables_ok_grow].
  - split; [|apply (in_order_same _ _ (reader s)); eauto]. split; [|by apply tables_ok_grow].
    intros t p key Hp Hs. cbn [disk] in Hs. rewrite lookup_insert_ne in Hs by (intros E; by apply (Hother t p key)). by eapply Hdisk.
  - destruct (rescan_ok (disk s) (reader s) Hdisk Hok) as (Hok' & _ & Hc). split; [done|].
    apply (in_order_same _ _ (reader s)); [done| |done|done]. destruct Hok as (-> & _), Hok' as (-> & _). done.
  - destruct (next_table_chunk_ok (disk s) (reader s) t Hok Hin) as (p & di & c' & r' & Hp & Hdi & E & Hok' & Hi & Hfile & Hdi' & Hother).
    assert (c' = c ∧ r' = r) as [-> ->] by (split; congruence). split; [done|].
    intros t' p' di' Hp' Hdi''. rewrite scheduled_app, !fmap_app. cbn [scheduled].
    destruct (decide (t' = t)) as [->|Hne].
    + rewrite bool_decide_eq_true_2 by done. assert (di' = consume_chunk di) as -> by congruence. assert (p' = p) as -> by congruence.
      destruct (Hord t p di Hp Hdi) as [-> ->]. cbn [fmap list_fmap consume_chunk set_consumed chunks_consumed].
      rewrite seq_S, fmap_app, Hi, Hfile. done.
    + rewrite bool_decide_eq_false_2 by done. rewrite Hother in Hdi'' by done. simpl. rewrite !app_nil_r. by apply Hord.
  - destruct (on_chunk_loaded_ok (disk s) (reader s) t b r Hok Hload) as (Hok' & Hc). split; [done|].
    apply (in_order_same _ _ (reader s)); [done| |done|done]. destruct Hok as (-> & _), Hok' as (-> & _). done.
Qed.
End dump.

(** ** Theorems *)

(** C16: loading a dump, also one that is still in progress.  Data files appear in any
    order, the reader looks at the directory at any time, and chunks are requested of any
    table that has data and reported as loaded at any time.  Then the chunks of each
    table are handed out in the order of their numbers, each one once, with the file the dumper
    wrote for that chunk, and a table counts as scheduled exactly when all of its files were
    handed out; a request for a chunk of a table with data never fails; and when all
    files of the dump are there and no table has data after another look at the directory,
    all data of all tables was scheduled. *)
Theorem reader_schedules_dump ext plan events s :
  plan_ok ext plan → run ext plan (initial ext plan) events s →
  (∀ t p, plan !! t = Some p → ∃ di, tables (reader s) !! t = Some di ∧
     let chunks := scheduled t events in
     chunk_index <$> chunks = seq 0 (length chunks) ∧ chunk_file <$> chunks = planned_file ext p <$> seq 0 (length chunks) ∧
     (length chunks ≤ p_files p)%nat ∧ (data_scheduled di = true ↔ length chunks = p_files p)) ∧
  (∀ t, t ∈ m_tables_with_data (reader s) → ∃ c r, next_table_chunk t (reader s) = Ok (c, r)) ∧
  let r := rescan (disk s) (reader s) in
  (∀ t p k, plan !! t = Some p → (k < p_files p)%nat → is_Some (disk s !! planned_file ext p k)) →
  m_tables_with_data r = ∅ → ∀ t di, tables r !! t = Some di → data_scheduled di = true.
Proof.
  intros Hplan Hrun. destruct (run_ok ext plan Hplan events s Hrun) as [[Hdisk Hok] Hord]. split_and!.
  - intros t p Hp. destruct (lookup_lt_is_Some_2 (tables (reader s)) t) as [di Hdi].
    { destruct Hok as (-> & _). by eapply lookup_lt_Some. }
    exists di. split; [done|]. destruct (Hord t p di Hp Hdi) as [Hi Hf].
    assert (length (scheduled t events) = chunks_consumed di) as Hlen.
    { apply (f_equal length) in Hi. by rewrite length_fmap, length_seq in Hi. }
    cbv zeta. rewrite Hlen. destruct Hok as (_ & Ht & _). pose proof (Ht t p di Hp Hdi) as Htable.
    pose proof (ok_consumed _ _ _ _ Htable). pose proof (ok_available _ _ _ _ Htable).
    split_and!; [done|done|lia|]. by eapply data_scheduled_ok.
  - intros t Hin. destruct (next_table_chunk_ok ext plan Hplan (disk s) (reader s) t Hok Hin) as (p & di & c & r & _ & _ & E & _). by eauto.
  - intros r Hall Hempty t di Hdi. subst r. destruct (rescan_ok ext plan Hplan (disk s) (reader s) Hdisk Hok) as (Hok' & Hmax & _).
    destruct (table_planned ext plan (disk s) _ t di Hok' Hdi) as (p & Hp & Htable).
    eapply data_scheduled_ok; [done|]. pose proof (ok_consumed _ _ _ _ Htable). pose proof (ok_available _ _ _ _ Htable).
    assert (length (available_chunks di) = p_files p) as Hlen.
    { destruct (Hmax t p di Hp Hdi) as [|Hnone]; [done|]. destruct (decide (length (available_chunks di) = p_files p)); [done|].
      destruct (Hall t p (length (available_chunks di)) Hp) as [? ?]; [lia|congruence]. }
    destruct Hok' as (_ & _ & Hw). specialize (Hw t). rewrite Hempty in Hw.
    destruct (decide (chunks_consumed di < length (available_chunks di))%nat); [|lia]. exfalso.
    apply (not_elem_of_empty (C:=gset nat) t). apply Hw. by exists di.
Qed.

(** A table in three chunks, of which the second file appears first, and a table in one file. *)
Definition sample_plan : list planned :=
  [{| p_schema := $"s"; p_table := $"t"; p_chunks := Some 3%nat |}; {| p_schema := $"s"; p_table := $"u"; p_chunks := None |}].

Lemma reader_schedules_dump_witness :
  let ext := $"tsv.zst" in
  let chunk k := get_table_chunk_filename ($"s@t") ext k (bool_decide (S k = 3%nat)) in
  ∃ events s, run ext sample_plan (initial ext sample_plan) events s ∧
    events !! 1%nat = Some (Written (chunk 0%nat)) ∧
    chunk_file <$> scheduled 0 events = [chunk 0%nat] ∧
    ∃ c r, next_table_chunk 0 (reader s) = Ok (c, r).
Proof.
  set (ext := $"tsv.zst"). set (chunk := λ k, get_table_chunk_filename ($"s@t") ext k (bool_decide (S k = 3%nat))).
  set (d := <[chunk 0%nat := 10%Z]> (<[chunk 1%nat := 20%Z]> (∅ : Files))).
  set (r1 := rescan d (reader (initial ext sample_plan))).
  destruct (next_table_chunk 0 r1) as [[c r2]|e] eqn:E; [|vm_compute in E; discriminate].
  assert (run ext sample_plan (initial ext sample_plan)
            ([] ++ [Written (chunk 1%nat)] ++ [Written (chunk 0%nat)] ++ [Rescanned] ++ [Scheduled 0 c]) {| disk := d; reader := r2 |}) as Hrun.
  { rewrite !(assoc_L (++)). eapply run_snoc; [eapply run_snoc; [eapply run_snoc; [eapply run_snoc; [apply run_nil|]|]|]|].
    - apply (step_data ext sample_plan 0 {| p_schema := $"s"; p_table := $"t"; p_chunks := Some 3%nat |} 1 20); [reflexivity|apply Nat.ltb_lt; reflexivity|reflexivity].
    - apply (step_data ext sample_plan 0 {| p_schema := $"s"; p_table := $"t"; p_chunks := Some 3%nat |} 0 10); [reflexivity|apply Nat.ltb_lt; reflexivity|vm_compute; reflexivity].
    - apply step_rescan.
    - apply step_schedule; [|exact E]. apply (bool_decide_unpack _). vm_compute. reflexivity. }
  assert (plan_ok ext sample_plan) as Hplan.
  { split_and!.
    - apply (bool_decide_unpack _). vm_compute. reflexivity.
    - apply (bool_decide_unpack _). vm_compute. reflexivity.
    - repeat constructor; discriminate. }
  destruct (reader_schedules_dump ext sample_plan _ _ Hplan Hrun) as (Hchunks & Hnext & _).
  eexists _, _. split; [exact Hrun|]. split; [reflexivity|]. split.
  - destruct (Hchunks 0%nat _ eq_refl) as (di & _ & _ & Hf & _). rewrite Hf. reflexivity.
  - apply Hnext. vm_compute in E. injection E as _ <-. apply (bool_decide_unpack _). vm_compute. reflexivity.
Defined.
