(* ===== verification/BaseTokenizer.v ===== *)
(** * The tokenizer of URIs

    Model of [mysqlshdk/libs/utils/base_tokenizer.{h,cc}] (class [shcore::BaseTokenizer]): the
    rules, the tokens of the last run with the position of the next one, and the loop that
    finds the tokens of a range of the input.  Positions are numbers of 64 bits.  Rules by
    callback are not modelled: only the command line of the shell uses them. *)
From S2P Require Import Prelude.

Open Scope Z_scope.

(** The position of a token is an [int]. *)
Definition as_int (n : Z) : Z := let m := n mod 2 ^ 32 in if m <? 2 ^ 31 then m else m - 2 ^ 32.

Record BaseToken := { get_type : str; get_text : str; get_pos : Z }.

(** A rule for a token of several characters: a run of characters of a group, or a fixed number
    of characters, each one of its group. *)
Inductive complex_token :=
  | Sequence (group : str)
  | Vector (groups : list str).

Record BaseTokenizer := {
  t_input : str;
  t_tokens : list BaseToken;
  t_pos : nat;
  t_allow_spaces : bool;
  t_allow_unknown_tokens : bool;
  t_unknown_token : str;
  t_final_type : str;
  t_final_group : str;
  t_simple_tokens : str;                          (* [_base_tokens] *)
  t_custom_tokens : list (str * complex_token);   (* in the order of the rules *)
}.

Definition new_BaseTokenizer : BaseTokenizer :=
  {| t_input := []; t_tokens := []; t_pos := 0; t_allow_spaces := true; t_allow_unknown_tokens := false;
     t_unknown_token := []; t_final_type := []; t_final_group := []; t_simple_tokens := []; t_custom_tokens := [] |}.

(** ** Rules *)

Definition set_input (input : str) (t : BaseTokenizer) : BaseTokenizer :=
  {| t_input := input; t_tokens := t_tokens t; t_pos := t_pos t; t_allow_spaces := t_allow_spaces t;
     t_allow_unknown_tokens := t_allow_unknown_tokens t; t_unknown_token := t_unknown_token t;
     t_final_type := t_final_type t; t_final_group := t_final_group t; t_simple_tokens := t_simple_tokens t;
     t_custom_tokens := t_custom_tokens t |}.

Definition reset (t : BaseTokenizer) : BaseTokenizer :=
  {| t_input := t_input t; t_tokens := t_tokens t; t_pos := t_pos t; t_allow_spaces := t_allow_spaces t;
     t_allow_unknown_tokens := t_allow_unknown_tokens t; t_unknown_token := t_unknown_token t;
     t_final_type := []; t_final_group := []; t_simple_tokens := []; t_custom_tokens := [] |}.

Definition set_allow_spaces (allow : bool) (t : BaseTokenizer) : BaseTokenizer :=
  {| t_input := t_input t; t_tokens := t_tokens t; t_pos := t_pos t; t_allow_spaces := allow;
     t_allow_unknown_tokens := t_allow_unknown_tokens t; t_unknown_token := t_unknown_token t;
     t_final_type := t_final_type t; t_final_group := t_final_group t; t_simple_tokens := t_simple_tokens t;
     t_custom_tokens := t_custom_tokens t |}.

Definition set_allow_unknown_tokens (allow : bool) (t : BaseTokenizer) : BaseTokenizer :=
  {| t_input := t_input t; t_tokens := t_tokens t; t_pos := t_pos t; t_allow_spaces := t_allow_spaces t;
     t_allow_unknown_tokens := allow; t_unknown_token := t_unknown_token t;
     t_final_type := t_final_type t; t_final_group := t_final_group t; t_simple_tokens := t_simple_tokens t;
     t_custom_tokens := t_custom_tokens t |}.

Definition set_simple_tokens (tokens : str) (t : BaseTokenizer) : BaseTokenizer :=
  {| t_input := t_input t; t_tokens := t_tokens t; t_pos := t_pos t; t_allow_spaces := t_allow_spaces t;
     t_allow_unknown_tokens := t_allow_unknown_tokens t; t_unknown_token := t_unknown_token t;
     t_final_type := t_final_type t; t_final_group := t_final_group t; t_simple_tokens := t_simple_tokens t ++ tokens;
     t_custom_tokens := t_custom_tokens t |}.

(** A second rule for a type is ignored. *)
Definition set_complex_token (type : str) (rule : complex_token) (t : BaseTokenizer) : BaseTokenizer :=
  if bool_decide (type ∈ (t_custom_tokens t).*1) then t
  else
    {| t_input := t_input t; t_tokens := t_tokens t; t_pos := t_pos t; t_allow_spaces := t_allow_spaces t;
       t_allow_unknown_tokens := t_allow_unknown_tokens t; t_unknown_token := t_unknown_token t;
       t_final_type := t_final_type t; t_final_group := t_final_group t; t_simple_tokens := t_simple_tokens t;
       t_custom_tokens := t_custom_tokens t ++ [(type, rule)] |}.

Definition set_final_token_group (type group : str) (t : BaseTokenizer) : BaseTokenizer :=
  {| t_input := t_input t; t_tokens := t_tokens t; t_pos := t_pos t; t_allow_spaces := t_allow_spaces t;
     t_allow_unknown_tokens := t_allow_unknown_tokens t; t_unknown_token := t_unknown_token t;
     t_final_type := type; t_final_group := group; t_simple_tokens := t_simple_tokens t;
     t_custom_tokens := t_custom_tokens t |}.

Definition remove_simple_tokens (tokens : str) (t : BaseTokenizer) : BaseTokenizer :=
  {| t_input := t_input t; t_tokens := t_tokens t; t_pos := t_pos t; t_allow_spaces := t_allow_spaces t;
     t_allow_unknown_tokens := t_allow_unknown_tokens t; t_unknown_token := t_unknown_token t;
     t_final_type := t_final_type t; t_final_group := t_final_group t;
     t_simple_tokens := filter (λ c, c ∉ tokens) (t_simple_tokens t); t_custom_tokens := t_custom_tokens t |}.

Definition is_vector (rule : complex_token) : bool := match rule with Vector _ => true | Sequence _ => false end.

(** Only a rule with groups is removed: one for a run of characters stays. *)
Definition remove_complex_token (name : str) (t : BaseTokenizer) : BaseTokenizer :=
  {| t_input := t_input t; t_tokens := t_tokens t; t_pos := t_pos t; t_allow_spaces := t_allow_spaces t;
     t_allow_unknown_tokens := t_allow_unknown_tokens t; t_unknown_token := t_unknown_token t;
     t_final_type := t_final_type t; t_final_group := t_final_group t; t_simple_tokens := t_simple_tokens t;
     t_custom_tokens := filter (λ rule, bool_decide (rule.1 = name) && is_vector rule.2 = false) (t_custom_tokens t) |}.

(** ** Tokens *)

Definition with_tokens (tokens : list BaseToken) (unknown : str) (pos : nat) (t : BaseTokenizer) : BaseTokenizer :=
  {| t_input := t_input t; t_tokens := tokens; t_pos := pos; t_allow_spaces := t_allow_spaces t;
     t_allow_unknown_tokens := t_allow_unknown_tokens t; t_unknown_token := unknown;
     t_final_type := t_final_type t; t_final_group := t_final_group t; t_simple_tokens := t_simple_tokens t;
     t_custom_tokens := t_custom_tokens t |}.

(** Unknown characters before a token become a token of their own. *)
Definition add_token (token : BaseToken) (t : BaseTokenizer) : BaseTokenizer :=
  if t_allow_unknown_tokens t && negb (bool_decide (t_unknown_token t = [])) then
    with_tokens (t_tokens t ++ [{| get_type := $"unknown"; get_text := t_unknown_token t;
                                   get_pos := as_int (get_pos token - Z.of_nat (length (t_unknown_token t))) |}; token])
      [] (t_pos t) t
  else with_tokens (t_tokens t ++ [token]) (t_unknown_token t) (t_pos t) t.

(** The characters a rule takes from the rest of the input: as many as possible, also beyond
    the end of the range, or the number of the groups. *)
Fixpoint take_sequence (group rest : str) : str :=
  match rest with
  | c :: rest => if mem_chars group c then c :: take_sequence group rest else []
  | [] => []
  end.

Fixpoint take_vector (groups : list str) (rest : str) : option str :=
  match groups, rest with
  | [], _ => Some []
  | group :: groups, c :: rest => if mem_chars group c then cons c <$> take_vector groups rest else None
  | _ :: _, [] => None
  end.

Definition match_rule (rule : complex_token) (rest : str) : option str :=
  match rule with
  | Sequence group => match take_sequence group rest with [] => None | text => Some text end
  | Vector groups => take_vector groups rest
  end.

(** The first rule that takes characters. *)
Fixpoint match_rules (rules : list (str * complex_token)) (rest : str) : option (str * str) :=
  match rules with
  | [] => None
  | (type, rule) :: rules =>
      match match_rule rule rest with
      | Some text => Some (type, text)
      | None => match_rules rules rest
      end
  end.

(** [for (size_t i = start; i <= end; ++i)]; [rest] is the input from [i] on. *)
Fixpoint get_tokens_loop (fuel : nat) (i last : Z) (rest : str) (t : BaseTokenizer) : result BaseTokenizer :=
  match fuel, rest with
  | O, _ | _, [] => Ok t
  | S fuel, c :: rest' =>
      if last <? i then Ok t
      else if isspace c && negb (t_allow_spaces t) then Throw (invalid_argument "Illegal space found")
      else if mem_chars (t_simple_tokens t) c then
        get_tokens_loop fuel (i + 1) last rest' (add_token {| get_type := [c]; get_text := [c]; get_pos := as_int i |} t)
      else
        match match_rules (t_custom_tokens t) rest with
        | Some (type, text) =>
            let t := add_token {| get_type := type; get_text := text; get_pos := as_int i |} t in
            let n := length text in
            (* [i] is at the last character of the token, [c] is its first one *)
            if mem_chars (t_final_group t) c then
              let i := i + Z.of_nat n - 1 in
              Ok (add_token {| get_type := t_final_type t; get_text := drop (n - 1) rest; get_pos := as_int i |} t)
            else get_tokens_loop fuel (i + Z.of_nat n) last (drop n rest) t
        | None =>
            if mem_chars (t_final_group t) c then
              Ok (add_token {| get_type := t_final_type t; get_text := rest; get_pos := as_int i |} t)
            else if t_allow_unknown_tokens t then
              get_tokens_loop fuel (i + 1) last rest' (with_tokens (t_tokens t) (t_unknown_token t ++ [c]) (t_pos t) t)
            else Throw (invalid_argument "Illegal character found")
        end
  end.

(** The unknown characters that are left. *)
Definition add_unknown (t : BaseTokenizer) : BaseTokenizer :=
  if t_allow_unknown_tokens t && negb (bool_decide (t_unknown_token t = [])) then
    let position := match last (t_tokens t) with
                    | Some token => get_pos token + Z.of_nat (length (get_text token))
                    | None => 0
                    end in
    with_tokens (t_tokens t ++ [{| get_type := $"unknown"; get_text := t_unknown_token t; get_pos := as_int position |}])
      (t_unknown_token t) (t_pos t) t
  else t.

Definition get_tokens (start last : Z) (t : BaseTokenizer) : result BaseTokenizer :=
  t ← (if start <? Z.of_nat (length (t_input t)) then
         get_tokens_loop (length (t_input t)) start last (drop (Z.to_nat start) (t_input t)) t
       else Ok t);
  Ok (add_unknown t).

Definition process (range : Z * Z) (t : BaseTokenizer) : result BaseTokenizer :=
  get_tokens range.1 range.2 (with_tokens [] [] 0 t).

(** ** Reading tokens *)

Definition tokens_available (t : BaseTokenizer) : bool := bool_decide (t_pos t < length (t_tokens t))%nat.

Definition pos_token_type_is (pos : nat) (type : str) (t : BaseTokenizer) : bool :=
  match t_tokens t !! pos with Some token => bool_decide (get_type token = type) | None => false end.

Definition cur_token_type_is (type : str) (t : BaseTokenizer) : bool := pos_token_type_is (t_pos t) type t.
Definition next_token_type (type : str) (pos : nat) (t : BaseTokenizer) : bool := pos_token_type_is (t_pos t + pos) type t.

Definition peek_token (t : BaseTokenizer) : result BaseToken :=
  match t_tokens t !! t_pos t with
  | Some token => Ok token
  | None => Throw (invalid_argument "Expected token but no tokens left.")
  end.

Definition consume_any_token (t : BaseTokenizer) : result (BaseToken * BaseTokenizer) :=
  token ← peek_token t;
  Ok (token, with_tokens (t_tokens t) (t_unknown_token t) (S (t_pos t)) t).

Definition consume_token (type : str) (t : BaseTokenizer) : result (str * BaseTokenizer) :=
  '(token, t) ← consume_any_token t;
  if bool_decide (get_type token = type) then Ok (get_text token, t)
  else Throw (invalid_argument "Expected token type").

Definition peek_last_token (t : BaseTokenizer) : option BaseToken := last (t_tokens t).

Definition unget_token (t : BaseTokenizer) : result BaseTokenizer :=
  match t_pos t with
  | O => Throw (invalid_argument "Attempt to get back a token when already at first token (position 0).")
  | S pos => Ok (with_tokens (t_tokens t) (t_unknown_token t) pos t)
  end.

Definition inc_pos_token (t : BaseTokenizer) : BaseTokenizer :=
  with_tokens (t_tokens t) (t_unknown_token t) (S (t_pos t)) t.

Definition next_char_is (i : Z) (c : ascii) (t : BaseTokenizer) : bool :=
  (i + 1 <? Z.of_nat (length (t_input t))) && bool_decide (t_input t !! Z.to_nat (i + 1) = Some c).
