(* ===== verification/Uri.v ===== *)
(** * Connection URIs

    Model of [mysqlshdk/libs/db/uri_encoder.cc] (class [Uri_encoder]), [uri_parser.cc] (class
    [Uri_parser]) and [generic_uri.{h,cc}] (class [Generic_uri]), for systems other than Windows.
    The data of a connection is an interface in the code, which the encoder reads
    ([IUri_encodable]) and the parser writes ([IUri_parsable]); [Generic_uri] is an instance.
    Positions in the input are numbers of 64 bits that wrap. *)
From S2P Require Import Prelude UtilsString BaseTokenizer.

Open Scope Z_scope.

(** ** Characters ([uri_common.h]) *)

Definition DELIMITERS : str := $":/?#[]@".
Definition SUBDELIMITERS : str := $"!$&'()*+,;=".
Definition DIGIT : str := $"0123456789".
Definition HEXDIG : str := $"ABCDEFabcdef0123456789".
Definition ALPHANUMERIC : str := $"ABCDEFGHIJKLMNOPQRSTUVWXYZabcdefghijklmnopqrstuvwxyz0123456789".
Definition UNRESERVED : str := ALPHANUMERIC ++ $"-._~".

Inductive Type_ := DevApi | Ssh | File | Generic.

#[global] Instance Type_eq_dec : EqDecision Type_.
Proof. solve_decision. Defined.

(** The parts of a URI ([Tokens_mask]). *)
Record Tokens_mask := { f_scheme : bool; f_user : bool; f_password : bool; f_transport : bool; f_path : bool; f_query : bool }.

Definition full : Tokens_mask :=
  {| f_scheme := true; f_user := true; f_password := true; f_transport := true; f_path := true; f_query := true |}.
Definition full_no_password : Tokens_mask :=
  {| f_scheme := true; f_user := true; f_password := false; f_transport := true; f_path := true; f_query := true |}.

Definition kHost : str := $"host".
Definition kPort : str := $"port".
Definition kSocket : str := $"socket".
Definition kPipe : str := $"pipe".
Definition kScheme : str := $"scheme".
Definition kPath : str := $"schema".
Definition kSchema : str := $"schema".
Definition kUser : str := $"user".
Definition kPassword : str := $"password".

(** ** Interfaces *)

Class IUri_parsable (D : Type) := {
  set_string : str → str → D → result D;
  set_int : str → Z → D → result D;
  set_strings : str → list str → D → result D;
}.

Class IUri_encodable (D : Type) := {
  uri_type : D → Type_;
  has_value : D → str → bool;
  get : D → str → result str;
  get_numeric : D → str → result Z;
  query_attributes : D → list (str * option str);
}.

(** *** [Generic_uri] *)

Record Generic_uri := {
  scheme : str;
  user : str;
  password : option str;
  host : str;
  port : option Z;
  path : str;
  query : list (str * option str);
}.

Definition new_Generic_uri : Generic_uri :=
  {| scheme := []; user := []; password := None; host := []; port := None; path := []; query := [] |}.

Definition generic_set_string (name value : str) (u : Generic_uri) : Generic_uri :=
  if bool_decide (name = kScheme) then
    {| scheme := value; user := user u; password := password u; host := host u; port := port u; path := path u; query := query u |}
  else if bool_decide (name = kUser) then
    {| scheme := scheme u; user := value; password := password u; host := host u; port := port u; path := path u; query := query u |}
  else if bool_decide (name = kPassword) then
    {| scheme := scheme u; user := user u; password := Some value; host := host u; port := port u; path := path u; query := query u |}
  else if bool_decide (name = kHost) then
    {| scheme := scheme u; user := user u; password := password u; host := value; port := port u; path := path u; query := query u |}
  else if bool_decide (name = kPath) then
    {| scheme := scheme u; user := user u; password := password u; host := host u; port := port u; path := value; query := query u |}
  else
    {| scheme := scheme u; user := user u; password := password u; host := host u; port := port u; path := path u;
       query := query u ++ [(name, Some value)] |}.

Definition generic_set_int (name : str) (value : Z) (u : Generic_uri) : Generic_uri :=
  if bool_decide (name = kPort) then
    {| scheme := scheme u; user := user u; password := password u; host := host u; port := Some value; path := path u; query := query u |}
  else generic_set_string name (to_string value) u.

Definition generic_set_strings (name : str) (values : list str) (u : Generic_uri) : Generic_uri :=
  {| scheme := scheme u; user := user u; password := password u; host := host u; port := port u; path := path u;
     query := query u ++ [(name, Some (str_join values ($",") id))] |}.

#[global] Instance Generic_uri_parsable : IUri_parsable Generic_uri :=
  {| set_string name value u := Ok (generic_set_string name value u);
     set_int name value u := Ok (generic_set_int name value u);
     set_strings name values u := Ok (generic_set_strings name values u) |}.

Definition find_attribute (u : Generic_uri) (name : str) : option (option str) :=
  snd <$> find (λ member, bool_decide (member.1 = name)) (query u).

Definition generic_has_value (u : Generic_uri) (name : str) : bool :=
  if bool_decide (name = kScheme) then negb (bool_decide (scheme u = []))
  else if bool_decide (name = kUser) then negb (bool_decide (user u = []))
  else if bool_decide (name = kPassword) then bool_decide (is_Some (password u))
  else if bool_decide (name = kHost) then negb (bool_decide (host u = []))
  else if bool_decide (name = kPort) then bool_decide (is_Some (port u))
  else if bool_decide (name = kPath) then negb (bool_decide (path u = []))
  else bool_decide (is_Some (find_attribute u name)).

(** An optional value that is not there may not be read. *)
Definition deref (o : option str) : result str :=
  match o with Some s => Ok s | None => Throw (logic_error "no value") end.

Definition generic_get (u : Generic_uri) (name : str) : result str :=
  if bool_decide (name = kScheme) then Ok (scheme u)
  else if bool_decide (name = kUser) then Ok (user u)
  else if bool_decide (name = kPassword) then deref (password u)
  else if bool_decide (name = kHost) then Ok (host u)
  else if bool_decide (name = kPath) then Ok (path u)
  else match find_attribute u name with
       | Some value => deref value
       | None => Throw (invalid_argument "Invalid URI property")
       end.

Definition generic_get_numeric (u : Generic_uri) (name : str) : result Z :=
  if bool_decide (name = kPort) then
    match port u with Some p => Ok p | None => Throw (runtime_error "Port is not defined.") end
  else Throw (invalid_argument "Invalid URI property").

#[global] Instance Generic_uri_encodable : IUri_encodable Generic_uri :=
  {| uri_type _ := Generic;
     has_value := generic_has_value;
     get := generic_get;
     get_numeric := generic_get_numeric;
     query_attributes u := filter (λ att, att.1 ≠ kSocket) (query u) |}.

(** ** The encoder *)

Section encoder.
Context (is_ipv6 : str → bool).          (* [Net::is_ipv6], which asks the system *)

(** Rules for the tokens that stay as they are; the rest is encoded. *)
Definition lenient (t : BaseTokenizer) : BaseTokenizer := set_allow_unknown_tokens true (set_allow_spaces true (reset t)).

Definition pct_encoded : complex_token := Vector [$"%"; HEXDIG; HEXDIG].

(** The tokens of a text, one after the other. *)
Definition process_token (ret_val : str) (token : BaseToken) : str :=
  ret_val ++ (if bool_decide (get_type token = $"unknown") then pctencode (get_text token) else get_text token).

Definition encode_process (data : str) (t : BaseTokenizer) : result str :=
  t ← process (0, u64 (Z.of_nat (length data) - 1)) (set_input data t);
  Ok (foldl process_token [] (t_tokens t)).

Definition encode_scheme (data : str) (t : BaseTokenizer) : result str :=
  let t := set_allow_unknown_tokens false (set_allow_spaces false (reset t)) in
  let t := set_complex_token ($"alphanumeric") (Sequence ALPHANUMERIC) (set_simple_tokens ($"+") t) in
  t ← process (0, u64 (Z.of_nat (length data) - 1)) (set_input data t);
  '(ret_val, t) ← consume_token ($"alphanumeric") t;
  if tokens_available t then
    '(_, t) ← consume_token ($"+") t;
    '(ext, t) ← consume_token ($"alphanumeric") t;
    if tokens_available t then Throw (invalid_argument "Invalid scheme format, only one extension is supported")
    else Throw (invalid_argument "Scheme extension is not supported")
  else Ok ret_val.

Definition encode_userinfo (data : str) (t : BaseTokenizer) : result str :=
  encode_process data
    (set_complex_token ($"sub-delims") (Sequence SUBDELIMITERS)
      (set_complex_token ($"unreserved") (Sequence UNRESERVED)
        (set_complex_token ($"pct-encoded") pct_encoded (lenient t)))).

Definition encode_host (data : str) (t : BaseTokenizer) : result str :=
  host ← encode_process data
    (set_complex_token ($"unreserved") (Sequence UNRESERVED)
      (set_complex_token ($"sub-delims") (Sequence SUBDELIMITERS)
        (set_complex_token ($"hex-digits") (Sequence HEXDIG)
          (set_complex_token ($"digits") (Sequence DIGIT)
            (set_complex_token ($"pct-encoded") pct_encoded (set_simple_tokens ($".:") (lenient t)))))));
  Ok (if is_ipv6 data then $"[" ++ host ++ $"]" else host).

Definition encode_port (port : Z) : result str :=
  if (port <? 0) || (65535 <? port) then Throw (invalid_argument "Port is out of the valid range: 0 - 65535")
  else Ok (to_string port).

(** [encode_port(const std::string &)]; [std::stoi] throws for a number that is too great. *)
Definition encode_port_text (data : str) (t : BaseTokenizer) : result str :=
  let t := set_allow_unknown_tokens true (set_allow_spaces false (reset t)) in
  let t := set_complex_token ($"digits") (Sequence DIGIT) t in
  t ← process (0, u64 (Z.of_nat (length data) - 1)) (set_input data t);
  '(port_token, t) ← consume_any_token t;
  if negb (bool_decide (get_type port_token = $"digits")) then
    Throw (invalid_argument "Unexpected data found in port definition")
  else
    let extra_data := concat (get_text <$> drop (t_pos t) (t_tokens t)) in
    if negb (bool_decide (extra_data = [])) then Throw (invalid_argument "Unexpected data found in port definition")
    else
      let n := dec_value (get_text port_token) 0 in
      if 2 ^ 31 - 1 <? n then Throw (out_of_range "stoi") else encode_port n.

Definition value_rules (t : BaseTokenizer) : BaseTokenizer :=
  set_complex_token ($"delims") (Sequence ($"!$'()*+;="))
    (set_complex_token ($"unreserved") (Sequence UNRESERVED)
      (set_complex_token ($"pct-encoded") pct_encoded (lenient t))).

Definition encode_value (data : str) (t : BaseTokenizer) : result str := encode_process data (value_rules t).

Definition encode_socket (data : str) (t : BaseTokenizer) : result str :=
  ret_val ← encode_process data (value_rules t);
  Ok (if str_ibeginswith_pair ret_val ($"%2F") then $"/" ++ drop 3 ret_val else ret_val).

Definition encode_path_segment (data : str) (skip_already_encoded : bool) (t : BaseTokenizer) : result str :=
  let t := set_simple_tokens ($":@") (lenient t) in
  let t := if skip_already_encoded then set_complex_token ($"pct-encoded") pct_encoded t else t in
  encode_process data
    (set_complex_token ($"sub-delims") (Sequence SUBDELIMITERS) (set_complex_token ($"unreserved") (Sequence UNRESERVED) t)).

Definition encode_attribute (data : str) (t : BaseTokenizer) : result str :=
  encode_process data
    (set_complex_token ($"sub-delims") (Sequence ($"!$'()*+,;"))
      (set_complex_token ($"unreserved") (Sequence UNRESERVED)
        (set_complex_token ($"pct-encoded") pct_encoded (lenient t)))).

(** [encode_values]: an array in brackets, unless it is one value and none is asked for. *)
Fixpoint encode_each (values : list str) (t : BaseTokenizer) : result (list str) :=
  match values with
  | [] => Ok []
  | value :: values =>
      value ← encode_value value t;
      rest ← encode_each values t;
      Ok (value :: rest)
  end.

Definition encode_values (values : list str) (force_array : bool) (t : BaseTokenizer) : result str :=
  let is_array := force_array || bool_decide (1 < length values)%nat in
  encoded_values ← encode_each values t;
  Ok ((if is_array then $"[" else []) ++ str_join encoded_values ($",") id ++ (if is_array then $"]" else [])).

Definition encode_query (data : str) (t : BaseTokenizer) : result str :=
  encode_process data
    (set_simple_tokens ($":@/?")
      (set_complex_token ($"sub-delims") (Sequence SUBDELIMITERS)
        (set_complex_token ($"unreserved") (Sequence UNRESERVED)
          (set_complex_token ($"pct-encoded") pct_encoded (lenient t))))).

Definition pctencode_query_value (s : str) : result str := encode_value s new_BaseTokenizer.

(** [pctencode_path]: the segments between slashes; [fuel] segments at most. *)
Fixpoint pctencode_path_loop (fuel : nat) (s : str) : result str :=
  match fuel with
  | O => Ok []
  | S fuel =>
      match find_if (λ c, bool_decide (c = "/"%char)) s with
      | Some pos =>
          segment ← encode_path_segment (take pos s) false new_BaseTokenizer;
          rest ← pctencode_path_loop fuel (drop (S pos) s);
          Ok (segment ++ $"/" ++ rest)
      | None => encode_path_segment s false new_BaseTokenizer
      end
  end.

Definition pctencode_path (s : str) : result str := pctencode_path_loop (S (length s)) s.

Section encode_uri.
Context {D : Type} `{IUri_encodable D} (info : D) (format : Tokens_mask) (t : BaseTokenizer).

Definition value_or_empty (name : str) : result str := if has_value info name then get info name else Ok [].

Definition encode_user_data : result str :=
  if f_user format && has_value info kUser then
    u ← get info kUser;
    u ← encode_userinfo u t;
    if f_password format && has_value info kPassword then
      p ← get info kPassword;
      p ← encode_userinfo p t;
      Ok (u ++ $":" ++ p)
    else Ok u
  else Ok [].

Definition encode_transport (scheme host : str) : result str :=
  if has_value info kPipe then
    p ← get info kPipe;
    p ← encode_value p t;
    Ok ($"\\.\" ++ p)
  else if has_value info kSocket then
    s ← get info kSocket;
    encode_socket s t
  else
    h ← (if negb (bool_decide (host = [])) then encode_host host t
         else Ok (if negb (bool_decide (scheme = $"file")) then $"localhost" else []));
    if has_value info kPort then
      n ← get_numeric info kPort;
      p ← encode_port_text (to_string n) t;
      Ok (h ++ $":" ++ p)
    else Ok h.

Definition encode_uri_path : result str :=
  if bool_decide (uri_type info = DevApi) then
    if has_value info kSchema then
      s ← get info kSchema;
      s ← encode_path_segment s true t;
      Ok ($"/" ++ s)
    else Ok []
  else if has_value info kPath then
    p ← get info kPath;
    pctencode_path p
  else Ok [].

Definition encode_query_attribute (attribute : str * option str) : result str :=
  name ← encode_attribute attribute.1 t;
  match attribute.2 with
  | None => Ok name
  | Some value => value ← encode_value value t; Ok (name ++ $"=" ++ value)
  end.

Fixpoint encode_attributes (attributes : list (str * option str)) : result (list str) :=
  match attributes with
  | [] => Ok []
  | attribute :: attributes =>
      a ← encode_query_attribute attribute;
      rest ← encode_attributes attributes;
      Ok (a :: rest)
  end.

Definition encode_uri : result str :=
  scheme ← value_or_empty kScheme;
  host ← value_or_empty kHost;
  s ← (if f_scheme format && negb (bool_decide (scheme = [])) then encode_scheme scheme t else Ok []);
  if bool_decide (uri_type info = File) || (bool_decide (uri_type info = Generic) && bool_decide (scheme = $"file")) then
    let s := if bool_decide (s = []) then s else s ++ $":" in
    if f_transport format then
      h ← (if negb (bool_decide (host = [])) then h ← encode_host host t; Ok ($"//" ++ h) else Ok []);
      p ← value_or_empty kPath;
      Ok (s ++ h ++ p)
    else Ok s
  else
    let s := if bool_decide (s = []) then s else s ++ $"://" in
    user_data ← encode_user_data;
    transport ← (if f_transport format then encode_transport scheme host else Ok []);
    path ← (if f_path format then encode_uri_path else Ok []);
    attributes ← (if f_query format then encode_attributes (query_attributes info) else Ok []);
    Ok (s ++ (if bool_decide (user_data = []) then [] else user_data ++ $"@") ++ transport ++ path ++
        (if bool_decide (attributes = []) then [] else $"?" ++ str_join attributes ($"&") id)).
End encode_uri.
End encoder.

(** ** The parser *)

(** [_input[i]]: the terminating NUL is at the length. *)
Definition char_at (s : str) (i : Z) : result ascii :=
  if i <? Z.of_nat (length s) then
    match s !! Z.to_nat i with Some c => Ok c | None => Throw (logic_error "out of range") end
  else if i =? Z.of_nat (length s) then Ok "000"%char
  else Throw (logic_error "out of range").

(** [_input.find(what, index)] *)
Definition find_at (s what : str) (index : Z) : option Z :=
  if index <=? Z.of_nat (length s) then Z.of_nat <$> find_str s what (Z.to_nat index) else None.

(** [_input.rfind("/", last)] *)
Definition rfind_slash (s : str) (last : Z) : option Z :=
  let s := if last <? Z.of_nat (length s) then take (Z.to_nat (last + 1)) s else s in
  Z.of_nat <$> find_last_if (λ c, bool_decide (c = "/"%char)) s.

(** [input_contains], with an index. *)
Definition input_contains (s what : str) (index : Z) : bool := bool_decide (find_at s what index = Some index).

(** The ranges of the parts ([_chunks]). *)
Record Chunks := {
  URI_SCHEME : option (Z * Z);
  URI_USER_INFO : option (Z * Z);
  URI_TARGET : option (Z * Z);
  URI_PATH : option (Z * Z);
  URI_QUERY : option (Z * Z);
}.

(** [std::stoi] of digits; a number that is too great is caught by the callers. *)
Definition stoi (digits : str) : Z := let n := dec_value digits 0 in if 2 ^ 31 - 1 <? n then -1 else n.

Section parser.
Context {D : Type} `{IUri_parsable D} (m_type : Type_) (input : str).

(** What the parser changes: the data, its tokenizer and [m_scheme]. *)
Record Uri_parser := { p_data : D; p_tokenizer : BaseTokenizer; p_scheme : str }.

Definition with_tokenizer (t : BaseTokenizer) (p : Uri_parser) : Uri_parser :=
  {| p_data := p_data p; p_tokenizer := t; p_scheme := p_scheme p |}.

Definition set (name value : str) (p : Uri_parser) : result Uri_parser :=
  d ← set_string name value (p_data p); Ok {| p_data := d; p_tokenizer := p_tokenizer p; p_scheme := p_scheme p |}.

Definition set_number (name : str) (value : Z) (p : Uri_parser) : result Uri_parser :=
  d ← set_int name value (p_data p); Ok {| p_data := d; p_tokenizer := p_tokenizer p; p_scheme := p_scheme p |}.

Definition set_values (name : str) (values : list str) (p : Uri_parser) : result Uri_parser :=
  d ← set_strings name values (p_data p); Ok {| p_data := d; p_tokenizer := p_tokenizer p; p_scheme := p_scheme p |}.

Definition strict (t : BaseTokenizer) : BaseTokenizer := set_allow_spaces false (reset t).

(** The text of a token; reads of [pctdecode] beyond it do not occur for these tokens. *)
Definition decoded (token : BaseToken) : str :=
  if bool_decide (get_type token = $"pct-encoded") then pctdecode (get_text token) (λ _, "000"%char) else get_text token.

Definition unexpected_data : exn := invalid_argument "Unexpected data".

(** *** Scheme and user *)

Definition parse_scheme (range : Z * Z) (p : Uri_parser) : result Uri_parser :=
  let t := set_complex_token ($"alphanumeric") (Sequence ALPHANUMERIC) (set_simple_tokens ($"+") (strict (p_tokenizer p))) in
  t ← process range t;
  '(scheme, t) ← consume_token ($"alphanumeric") t;
  if tokens_available t then
    '(_, t) ← consume_token ($"+") t;
    '(ext, t) ← consume_token ($"alphanumeric") t;
    if tokens_available t then Throw (invalid_argument "Invalid scheme format, only one extension is supported")
    else Throw (invalid_argument "Scheme extension is not supported")
  else
    let p := {| p_data := p_data p; p_tokenizer := t; p_scheme := scheme |} in
    if bool_decide (scheme = []) then Ok p else set kScheme scheme p.

(** The loop of [parse_userinfo]: user, password, [has_password]. *)
Fixpoint userinfo_loop (tokens : list BaseToken) (acc : str * str * bool) : str * str * bool :=
  match tokens with
  | [] => acc
  | token :: tokens =>
      let '(user, password, has_password) := acc in
      if bool_decide (get_type token = $":") then userinfo_loop tokens (user, password, true)
      else if has_password : bool then userinfo_loop tokens (user, password ++ decoded token, true)
      else userinfo_loop tokens (user ++ decoded token, password, false)
  end.

Definition userinfo_rules (t : BaseTokenizer) : BaseTokenizer :=
  set_final_token_group ($"password") ($":")
    (set_simple_tokens ($":")
      (set_complex_token ($"sub-delims") (Sequence SUBDELIMITERS)
        (set_complex_token ($"unreserved") (Sequence UNRESERVED)
          (set_complex_token ($"pct-encoded") pct_encoded (strict t))))).

Definition parse_userinfo (chunks : Chunks) (p : Uri_parser) : result Uri_parser :=
  match URI_USER_INFO chunks with
  | None => Ok p
  | Some range =>
      t ← process range (userinfo_rules (p_tokenizer p));
      let '(user, password, has_password) := userinfo_loop (t_tokens t) ([], [], false) in
      let p := with_tokenizer t p in
      if bool_decide (user = []) then Throw (invalid_argument "Missing user name")
      else
        p ← set kUser user p;
        if has_password : bool then set kPassword password p else Ok p
  end.

(** *** Values *)

(** The tokens up to the final one: the value, and the offset behind it. *)
Fixpoint value_loop (tokens : list BaseToken) (value : str) (offset : Z) : str * Z :=
  match tokens with
  | [] => (value, offset)
  | token :: tokens =>
      if bool_decide (get_type token = $"end") then (value, offset)
      else value_loop tokens (value ++ decoded token) (offset + Z.of_nat (length (get_text token)))
  end.

(** [parse_unencoded_value], which is called without finalizers. *)
Definition parse_unencoded_value (range : Z * Z) (offset : Z) (p : Uri_parser) : result (str * Z * Uri_parser) :=
  let t := set_complex_token ($"delims") (Sequence DELIMITERS)
             (set_complex_token ($"unreserved") (Sequence (UNRESERVED ++ $"\"))
               (set_complex_token ($"pct-encoded") pct_encoded (reset (p_tokenizer p)))) in
  t ← process range t;
  Ok (value_loop (t_tokens t) [] offset, with_tokenizer t p).

Definition encoded_delims (forbidden : str) : str := filter (λ c, c ∉ forbidden) ($"!$'()*+;=:,").

Definition parse_encoded_value (range : Z * Z) (offset : Z) (finalizers forbidden_delimiters : str) (p : Uri_parser)
    : result (str * Z * Uri_parser) :=
  let t := set_complex_token ($"delims") (Sequence (encoded_delims (finalizers ++ forbidden_delimiters)))
             (set_complex_token ($"unreserved") (Sequence UNRESERVED)
               (set_complex_token ($"pct-encoded") pct_encoded (reset (p_tokenizer p)))) in
  let t := if bool_decide (finalizers = []) then t else set_final_token_group ($"end") finalizers t in
  t ← process range t;
  Ok (value_loop (t_tokens t) [] offset, with_tokenizer t p).

Definition parse_value (range : Z * Z) (offset : Z) (finalizers forbidden_delimiters : str) (p : Uri_parser)
    : result (str * Z * Uri_parser) :=
  c ← char_at input range.1;
  match find_at input ($")") range.1 with
  | Some closing =>
      if bool_decide (c = "("%char) && (closing <=? range.2) then
        '(value, offset, p) ← parse_unencoded_value (range.1 + 1, u64 (closing - 1)) (offset + 1) p;
        Ok (value, offset + 1, p)
      else parse_encoded_value range offset finalizers forbidden_delimiters p
  | None => parse_encoded_value range offset finalizers forbidden_delimiters p
  end.

(** *** Hosts *)

Definition ipv4_ahead (t : BaseTokenizer) : bool :=
  cur_token_type_is ($"digits") t && next_token_type ($".") 1 t && next_token_type ($"digits") 2 t &&
  next_token_type ($".") 3 t && next_token_type ($"digits") 4 t && next_token_type ($".") 5 t &&
  next_token_type ($"digits") 6 t.

(** [for (size_t index = 0; index < 4; index++)]: [n] octets are left. *)
Fixpoint ipv4_loop (n : nat) (host : str) (offset : Z) (t : BaseTokenizer) : result (str * Z * BaseTokenizer) :=
  match n with
  | O => Ok (host, offset, t)
  | S n =>
      '(octet, t) ← consume_token ($"digits") t;
      let value := stoi octet in
      if (value <? 0) || (255 <? value) then Throw (invalid_argument "Error parsing IPV4 address: Octet value out of bounds")
      else
        let host := host ++ octet in
        let offset := offset + Z.of_nat (length octet) in
        match n with
        | O => Ok (host, offset, t)
        | S _ =>
            '(dot, t) ← consume_token ($".") t;
            ipv4_loop n (host ++ dot) (offset + 1) t
        end
  end.

(** The address, or an empty text. *)
Definition parse_ipv4 (offset : Z) (t : BaseTokenizer) : result (str * Z * BaseTokenizer) :=
  if ipv4_ahead t then ipv4_loop 4 [] offset t else Ok ([], offset, t).

(** The digits of a segment of an IPv6 address; there must be a token behind them. *)
Fixpoint hex_loop (fuel : nat) (value : str) (t : BaseTokenizer) : result (str * BaseTokenizer) :=
  match fuel with
  | O => Ok (value, t)
  | S fuel =>
      token ← peek_token t;
      if bool_decide (get_type token = $"hex-digits") || bool_decide (get_type token = $"digits") then
        '(token, t) ← consume_any_token t;
        hex_loop fuel (value ++ get_text token) t
      else Ok (value, t)
  end.

Definition hex_segment (t : BaseTokenizer) : result (str * BaseTokenizer) := hex_loop (S (length (t_tokens t))) [] t.

(** The zone: the tokens up to the closing bracket. *)
Fixpoint zone_loop (fuel : nat) (zone_id : str) (offset : Z) (t : BaseTokenizer) : result (str * Z * BaseTokenizer) :=
  match fuel with
  | O => Ok (zone_id, offset, t)
  | S fuel =>
      if cur_token_type_is ($"]") t then Ok (zone_id, offset, t)
      else
        token ← peek_token t;
        if bool_decide (get_type token ∈ [$":"; $"["; $"]"]) then Throw unexpected_data
        else
          let text := if bool_decide (get_type token ∈ [$"zone-delimiter"; $"pct-encoded"])
                      then pctdecode (get_text token) (λ _, "000"%char) else get_text token in
          '(_, t) ← consume_any_token t;
          zone_loop fuel (zone_id ++ text) (offset + Z.of_nat (length (get_text token))) t
  end.

(** The variables of [parse_ipv6]. *)
Record ipv6 := {
  v6_host : str;
  v6_offset : Z;
  v6_ipv4_found : bool;
  v6_ipv4_allowed : bool;
  v6_colon_allowed : bool;
  v6_double_colon_allowed : bool;
  v6_last_was_colon : bool;
  v6_segment_count : Z;
}.

Definition ipv6_first (v : ipv6) (t : BaseTokenizer) : result (ipv6 * BaseTokenizer) :=
  if cur_token_type_is ($":") t then
    '(a, t) ← consume_token ($":") t;
    '(b, t) ← consume_token ($":") t;
    Ok ({| v6_host := a ++ b; v6_offset := v6_offset v + 2; v6_ipv4_found := v6_ipv4_found v; v6_ipv4_allowed := true;
           v6_colon_allowed := false; v6_double_colon_allowed := false; v6_last_was_colon := true;
           v6_segment_count := v6_segment_count v |}, t)
  else if cur_token_type_is ($"unreserved") t || cur_token_type_is ($"pct-encoded") t ||
          cur_token_type_is ($"zone-delimiter") t || cur_token_type_is ($"[") t || cur_token_type_is ($".") t then
    Throw unexpected_data
  else
    '(value, t) ← hex_segment t;
    if bool_decide (4 < length value)%nat then Throw (invalid_argument "Invalid IPv6 value")
    else
      Ok ({| v6_host := value; v6_offset := v6_offset v + Z.of_nat (length value); v6_ipv4_found := v6_ipv4_found v;
             v6_ipv4_allowed := v6_ipv4_allowed v; v6_colon_allowed := true; v6_double_colon_allowed := true;
             v6_last_was_colon := v6_last_was_colon v; v6_segment_count := v6_segment_count v + 1 |}, t).

Definition ipv6_next (v : ipv6) (t : BaseTokenizer) : result (ipv6 * BaseTokenizer) :=
  '(ipv4_host, offset, t) ← (if v6_ipv4_allowed v then parse_ipv4 (v6_offset v) t else Ok ([], v6_offset v, t));
  if v6_ipv4_allowed v && negb (bool_decide (ipv4_host = [])) then
    Ok ({| v6_host := v6_host v ++ ipv4_host; v6_offset := offset; v6_ipv4_found := true;
           v6_ipv4_allowed := v6_ipv4_allowed v; v6_colon_allowed := v6_colon_allowed v;
           v6_double_colon_allowed := v6_double_colon_allowed v; v6_last_was_colon := v6_last_was_colon v;
           v6_segment_count := v6_segment_count v |}, t)
  else if cur_token_type_is ($"unreserved") t || cur_token_type_is ($"pct-encoded") t then Throw unexpected_data
  else if cur_token_type_is ($"zone-delimiter") t then
    '(zone_id, offset, t) ← zone_loop (S (length (t_tokens t))) [] offset t;
    if bool_decide (length zone_id ≤ 1)%nat then Throw (invalid_argument "Zone ID cannot be empty")
    else
      Ok ({| v6_host := v6_host v ++ zone_id; v6_offset := offset; v6_ipv4_found := v6_ipv4_found v;
             v6_ipv4_allowed := v6_ipv4_allowed v; v6_colon_allowed := v6_colon_allowed v;
             v6_double_colon_allowed := v6_double_colon_allowed v; v6_last_was_colon := v6_last_was_colon v;
             v6_segment_count := v6_segment_count v |}, t)
  else if v6_colon_allowed v && cur_token_type_is ($":") t then
    '(colon, t) ← consume_token ($":") t;
    let double_colon_allowed := if v6_last_was_colon v then false else v6_double_colon_allowed v in
    Ok ({| v6_host := v6_host v ++ colon; v6_offset := offset + 1; v6_ipv4_found := v6_ipv4_found v;
           v6_ipv4_allowed := true; v6_colon_allowed := double_colon_allowed;
           v6_double_colon_allowed := double_colon_allowed; v6_last_was_colon := true;
           v6_segment_count := v6_segment_count v |}, t)
  else
    '(text, count, t) ← (if v6_last_was_colon v then
                           '(value, t) ← hex_segment t;
                           if bool_decide (value = []) then Throw unexpected_data
                           else if bool_decide (4 < length value)%nat then Throw (invalid_argument "Invalid IPv6 value")
                           else Ok (value, v6_segment_count v + 1, t)
                         else
                           '(colon, t) ← consume_token ($":") t;
                           Ok (colon, v6_segment_count v, t));
    let last_was_colon := negb (v6_last_was_colon v) in
    Ok ({| v6_host := v6_host v ++ text; v6_offset := offset + Z.of_nat (length text); v6_ipv4_found := v6_ipv4_found v;
           v6_ipv4_allowed := last_was_colon;
           v6_colon_allowed := negb last_was_colon || v6_double_colon_allowed v;
           v6_double_colon_allowed := v6_double_colon_allowed v; v6_last_was_colon := last_was_colon;
           v6_segment_count := count |}, t).

(** [while (!_tokenizer.cur_token_type_is("]"))]: each iteration takes a token. *)
Fixpoint ipv6_loop (fuel : nat) (v : ipv6) (t : BaseTokenizer) : result (ipv6 * BaseTokenizer) :=
  match fuel with
  | O => Ok (v, t)
  | S fuel =>
      if cur_token_type_is ($"]") t then Ok (v, t)
      else
        '(v, t) ← (if bool_decide (v6_host v = []) then ipv6_first v t else ipv6_next v t);
        ipv6_loop fuel v t
  end.

Definition parse_ipv6 (range : Z * Z) (offset : Z) (p : Uri_parser) : result (Z * Uri_parser) :=
  let t := set_complex_token ($"pct-encoded") pct_encoded
             (set_complex_token ($"unreserved") (Sequence UNRESERVED)
               (set_complex_token ($"zone-delimiter") (Vector [$"%"; $"2"; $"5"])
                 (set_complex_token ($"hex-digits") (Sequence HEXDIG)
                   (set_complex_token ($"digits") (Sequence DIGIT)
                     (set_simple_tokens ($":.[]") (strict (p_tokenizer p))))))) in
  t ← process range t;
  '(_, t) ← consume_token ($"[") t;
  '(v, t) ← ipv6_loop (S (length (t_tokens t)))
              {| v6_host := []; v6_offset := offset + 1; v6_ipv4_found := false; v6_ipv4_allowed := false;
                 v6_colon_allowed := false; v6_double_colon_allowed := true; v6_last_was_colon := false;
                 v6_segment_count := 0 |} t;
  '(_, t) ← consume_token ($"]") t;
  let n := v6_segment_count v in
  let bad := if v6_double_colon_allowed v then
               (v6_ipv4_found v && negb (n =? 6)) || (negb (v6_ipv4_found v) && negb (n =? 8))
             else (v6_ipv4_found v && (6 <=? n)) || (negb (v6_ipv4_found v) && (8 <=? n)) in
  if bad : bool then Throw (invalid_argument "Invalid IPv6: the number of segments does not match the specification")
  else
    p ← set kHost (v6_host v) (with_tokenizer t p);
    Ok (v6_offset v + 1, p).

Definition parse_port (range : Z * Z) (p : Uri_parser) : result Uri_parser :=
  let t := set_complex_token ($"digits") (Sequence DIGIT) (set_simple_tokens ($":") (strict (p_tokenizer p))) in
  t ← process range t;
  '(_, t) ← consume_token ($":") t;
  if tokens_available t then
    '(str_port, t) ← consume_token ($"digits") t;
    let port := stoi str_port in
    if (port <? 0) || (65535 <? port) then Throw (invalid_argument "Port is out of the valid range: 0 - 65535")
    else
      p ← set_number kPort port (with_tokenizer t p);
      if tokens_available t then Throw unexpected_data else Ok p
  else Throw (invalid_argument "Missing port number").

(** The tokens of a host name, up to a colon. *)
Fixpoint host_loop (tokens : list BaseToken) (host : str) (offset : Z) : str * Z :=
  match tokens with
  | [] => (host, offset)
  | token :: tokens =>
      if bool_decide (get_type token = $":") then (host, offset)
      else host_loop tokens (host ++ decoded token) (offset + Z.of_nat (length (get_text token)))
  end.

Definition host_rules (t : BaseTokenizer) : BaseTokenizer :=
  set_complex_token ($"unreserved") (Sequence UNRESERVED)
    (set_complex_token ($"sub-delims") (Sequence SUBDELIMITERS)
      (set_complex_token ($"hex-digits") (Sequence HEXDIG)
        (set_complex_token ($"digits") (Sequence DIGIT)
          (set_complex_token ($"pct-encoded") pct_encoded (set_simple_tokens ($".:") (strict t)))))).

Definition parse_host (target : Z * Z) (p : Uri_parser) : result Uri_parser :=
  c ← char_at input target.1;
  '(offset, p) ←
    (if bool_decide (c = "["%char) then parse_ipv6 target target.1 p
     else
       t ← process target (host_rules (p_tokenizer p));
       '(host, offset, t) ← parse_ipv4 target.1 t;
       let '(host, offset) := if bool_decide (host = []) then host_loop (drop (t_pos t) (t_tokens t)) [] offset
                              else (host, offset) in
       p ← set kHost host (with_tokenizer t p);
       Ok (offset, p));
  if offset <=? target.2 then parse_port (offset, target.2) p else Ok p.

Definition parse_target (chunks : Chunks) (p : Uri_parser) : result Uri_parser :=
  match URI_TARGET chunks with
  | None => Ok p
  | Some (start, last) =>
      if input_contains input ($".") start && (start =? last) then set kHost ($".") p
      else if input_contains input ($".") start || input_contains input ($"/") start ||
              input_contains input ($"(.") start || input_contains input ($"(/") start then
        c ← char_at input start;
        if bool_decide (c = "/"%char) && bool_decide (p_scheme p = $"file") then set kHost ($"localhost") p
        else
          let '(socket, start) := if bool_decide (c = "/"%char) then ($"/", start + 1) else ([], start) in
          '(offset, p) ←
            (if bool_decide (p_scheme p = $"file") then Ok (start, p)
             else
               '(value, offset, p) ← parse_value (start, last) start [] [] p;
               p ← set kSocket (socket ++ value) p;
               Ok (offset, p));
          if offset <=? last then Throw unexpected_data else Ok p
      else if input_contains input ($"\\.\") start || input_contains input ($"(\\.\") start then
        c ← char_at input start;
        let unencoded_pipe := negb (bool_decide (c = "\"%char)) in
        let start := if unencoded_pipe then start else start + 4 in
        '(pipe, offset, p) ← parse_value (start, last) start [] ($":") p;
        let pipe := if unencoded_pipe then drop 4 pipe else pipe in
        if bool_decide (pipe = []) then Throw (invalid_argument "Named pipe cannot be empty.")
        else
          p ← set kPipe pipe p;
          if offset <=? last then Throw unexpected_data else Ok p
      else parse_host (start, last) p
  end.

(** *** Paths and attributes *)

Definition parse_path (chunks : Chunks) (p : Uri_parser) : result Uri_parser :=
  match URI_PATH chunks with
  | None => Ok p
  | Some range =>
      match m_type with
      | Ssh => Throw (invalid_argument "Invalid SSH URI given, only user, host, port can be used")
      | Generic | File =>
          let path := substr input (Z.to_nat range.1) (Z.to_nat (range.2 - range.1 + 1)) in
          let path := if bool_decide (m_type = Generic) && negb (bool_decide (p_scheme p = $"file"))
                      then pctdecode path (λ _, "000"%char) else path in
          set kPath path p
      | DevApi =>
          let t := set_complex_token ($"sub-delims") (Sequence SUBDELIMITERS)
                     (set_complex_token ($"unreserved") (Sequence UNRESERVED)
                       (set_complex_token ($"pct-encoded") pct_encoded (set_simple_tokens ($":@/") (strict (p_tokenizer p))))) in
          t ← process range t;
          let schema := concat (decoded <$> t_tokens t) in
          let p := with_tokenizer t p in
          if bool_decide (schema = []) then Ok p else set kSchema schema p
      end
  end.

Definition is_value_array (range : Z * Z) : result bool :=
  c ← char_at input range.1;
  Ok (match find_at input ($"]") range.1 with
      | Some closing => bool_decide (c = "["%char) && (closing <=? range.2)
      | None => false
      end).

(** [while (_input[*offset] != ']')]: each iteration skips a delimiter. *)
Fixpoint parse_values_loop (fuel : nat) (closing offset : Z) (values : list str) (p : Uri_parser)
    : result (list str * Z * Uri_parser) :=
  match fuel with
  | O => Throw (logic_error "fuel")
  | S fuel =>
      c ← char_at input offset;
      if bool_decide (c = "]"%char) then Ok (values, offset + 1, p)
      else
        '(value, offset, p) ← parse_value (offset + 1, u64 (closing - 1)) (offset + 1) ($",]") [] p;
        parse_values_loop fuel closing offset (values ++ [value]) p
  end.

Definition parse_values (offset : Z) (p : Uri_parser) : result (list str * Z * Uri_parser) :=
  match find_at input ($"]") offset with
  | Some closing => parse_values_loop (S (length input)) closing offset [] p
  | None => parse_values_loop (S (length input)) (2 ^ 64 - 1) offset [] p
  end.

(** The name of an attribute: the tokens up to the final one, and whether that is [=]. *)
Fixpoint attribute_loop (tokens : list BaseToken) (attribute : str) : str * bool :=
  match tokens with
  | [] => (attribute, false)
  | token :: tokens =>
      if bool_decide (get_type token = $"pause") then (attribute, bool_decide (head (get_text token) = Some "="%char))
      else attribute_loop tokens (attribute ++ decoded token)
  end.

Definition attribute_rules (t : BaseTokenizer) : BaseTokenizer :=
  set_final_token_group ($"pause") ($"=&")
    (set_complex_token ($"sub-delims") (Sequence ($"!$'()*+,;"))
      (set_complex_token ($"unreserved") (Sequence UNRESERVED)
        (set_complex_token ($"pct-encoded") pct_encoded (strict t)))).

(** The offset moves by the length of the decoded name. *)
Definition parse_attribute (last offset : Z) (p : Uri_parser) : result (Z * Uri_parser) :=
  let offset := offset + 1 in
  t ← process (offset, last) (attribute_rules (p_tokenizer p));
  let '(attribute, has_value) := attribute_loop (t_tokens t) [] in
  let p := with_tokenizer t p in
  let offset := offset + Z.of_nat (length attribute) + (if has_value : bool then 1 else 0) in
  if has_value : bool then
    array ← is_value_array (offset, last);
    if (array : bool) then
      '(values, offset, p) ← parse_values offset p;
      p ← set_values attribute values p;
      Ok (offset, p)
    else
      '(value, offset, p) ← parse_value (offset, last) offset ($"&") [] p;
      p ← set attribute value p;
      Ok (offset, p)
  else
    p ← set attribute [] p;
    Ok (offset, p).

Fixpoint parse_query_loop (fuel : nat) (last offset : Z) (p : Uri_parser) : result Uri_parser :=
  if offset <? last then
    match fuel with
    | O => Throw (logic_error "fuel")
    | S fuel => '(offset, p) ← parse_attribute last offset p; parse_query_loop fuel last offset p
    end
  else Ok p.

Definition parse_query (chunks : Chunks) (p : Uri_parser) : result Uri_parser :=
  match URI_QUERY chunks with
  | None => Ok p
  | Some (first, last) => parse_query_loop (S (length input)) last first p
  end.

(** *** The parts *)

(** The scheme, and the first character behind it; a local file is complete with it. *)
Definition preprocess_scheme (p : Uri_parser) : result (option (Z * Z) * option (Z * Z) * Z * Uri_parser) :=
  let last_char := u64 (Z.of_nat (length input) - 1) in
  match find_at input ($":/") 0 with
  | None => Ok (None, None, 0, p)
  | Some position =>
      if position =? 0 then Throw (invalid_argument "Scheme is missing")
      else
        let range := (0, position - 1) in
        p ← parse_scheme range p;
        p ← (if bool_decide (p_scheme p = []) then Ok p else set kScheme (p_scheme p) p);
        if position + 3 <=? Z.of_nat (length input) then
          c ← char_at input (position + 2);
          if bool_decide (c = "/"%char) then Ok (Some range, None, position + 3, p)
          else if bool_decide (p_scheme p = $"file") then Ok (Some range, Some (position + 1, last_char), 0, p)
          else Ok (Some range, None, position + 2, p)
        else Ok (Some range, None, 0, p)
  end.

(** Is the slash at [position] the start of the path? *)
Definition has_path (first_char position : Z) : bool :=
  if input_contains input ($"(/") first_char || input_contains input ($"(.") first_char ||
     input_contains input ($"(\\.\") first_char then
    match find_at input ($")") first_char with Some closing => closing <? position | None => false end
  else true.

Definition preprocess_path (first_char last_char : Z) : option (Z * Z) * Z :=
  let '(found, path_offset) :=
    if bool_decide (m_type = Generic) then (find_at input ($"/") first_char, 0)
    else (rfind_slash input last_char, 1) in
  match found with
  | Some position =>
      if (first_char <? position) && has_path first_char position then
        if position <? last_char then (Some (position + path_offset, last_char), position - 1)
        else (None, u64 (last_char - 1))
      else (None, last_char)
  | None => (None, last_char)
  end.

Definition preprocess (p : Uri_parser) : result (Chunks * Uri_parser) :=
  let last_char := u64 (Z.of_nat (length input) - 1) in
  '(scheme, file_path, first_char, p) ← preprocess_scheme p;
  match file_path with
  | Some range =>
      Ok ({| URI_SCHEME := scheme; URI_USER_INFO := None; URI_TARGET := None; URI_PATH := Some range; URI_QUERY := None |}, p)
  | None =>
      let slash := default (2 ^ 64 - 1) (find_at input ($"/") first_char) in
      '(user_info, first_char) ←
        (match find_at input ($"@") first_char with
         | Some position =>
             if position <? slash then
               if first_char <? position then Ok (Some (first_char, position - 1), position + 1)
               else Throw (invalid_argument "Missing user information")
             else Ok (None, first_char)
         | None => Ok (None, first_char)
         end);
      let '(query, last_char) := match find_at input ($"?") first_char with
                                 | Some position => (Some (position, last_char), u64 (position - 1))
                                 | None => (None, last_char)
                                 end in
      let '(path, last_char) := preprocess_path first_char last_char in
      if first_char <=? last_char then
        Ok ({| URI_SCHEME := scheme; URI_USER_INFO := user_info; URI_TARGET := Some (first_char, last_char);
               URI_PATH := path; URI_QUERY := query |}, p)
      else Throw (invalid_argument "Invalid address")
  end.

Definition parse (data : D) : result D :=
  let p := {| p_data := data; p_tokenizer := set_input input new_BaseTokenizer; p_scheme := [] |} in
  '(chunks, p) ← preprocess p;
  p ← parse_userinfo chunks p;
  p ← parse_target chunks p;
  p ← parse_path chunks p;
  p ← parse_query chunks p;
  Ok (p_data p).
End parser.

Arguments Uri_parser D : clear implicits.

(** [Generic_uri(uri)] *)
Definition make_Generic_uri (uri : str) : result Generic_uri :=
  if bool_decide (uri = []) then Ok new_Generic_uri else parse Generic uri new_Generic_uri.

(** The user information is replaced by the name of the user, which is decoded. *)
Definition hide_password_in_uri (uri : str) : result str :=
  let p := {| p_data := new_Generic_uri; p_tokenizer := set_input uri new_BaseTokenizer; p_scheme := [] |} in
  '(chunks, p) ← preprocess Generic uri p;
  match URI_USER_INFO chunks with
  | None => Ok uri
  | Some (first, last) =>
      p ← parse_userinfo chunks p;
      Ok (take (Z.to_nat first) uri ++ user (p_data p) ++ drop (Z.to_nat (last + 1)) uri)
  end.
