(* ===== verification/UriTokensFacts.v ===== *)
(** * The tokens of URIs: theorems

    The tokens of texts in which some characters are kept and the others are percent-encoded,
    for rules of the form the encoder and the parser of URIs use: single characters, percent
    encodings, and runs of the characters of a group. *)
From S2P Require Import Prelude UtilsString UtilsStringFacts BaseTokenizer Uri.

Open Scope Z_scope.

(** The rules: percent encodings, if they are tokens, and then the groups. *)
Definition custom_rules (pct : bool) (groups : list (str * str)) : list (str * complex_token) :=
  (if pct then [($"pct-encoded", pct_encoded)] else []) ++ ((λ g, (g.1, Sequence g.2)) <$> groups).

(** The group that takes a character. *)
Definition group_of (groups : list (str * str)) (c : ascii) : option (str * str) :=
  find (λ g, mem_chars g.2 c) groups.

Lemma match_groups groups c rest :
  match_rules ((λ g, (g.1, Sequence g.2)) <$> groups) (c :: rest) =
  (λ g, (g.1, take_sequence g.2 (c :: rest))) <$> group_of groups c.
Proof.
  induction groups as [|[name g] groups IH]; [done|]. cbn [fmap list_fmap match_rules match_rule fst snd].
  rewrite IH. unfold group_of. cbn -[mem_chars].
  destruct (mem_chars g c) eqn:E; [|done]. cbn -[mem_chars]. by rewrite E.
Qed.

(** A text in which no percent encoding starts. *)
Fixpoint pct_free (s : str) : Prop :=
  match s with
  | [] => True
  | c :: s' => take_vector [$"%"; HEXDIG; HEXDIG] s = None ∧ pct_free s'
  end.

Lemma pct_free_drop n s : pct_free s → pct_free (drop n s).
Proof. revert n. induction s as [|c s IH]; intros [|n] Hs; try done. simpl. apply IH, Hs. Qed.

Lemma take_vector_not_pct c rest : c ≠ "%"%char → take_vector [$"%"; HEXDIG; HEXDIG] (c :: rest) = None.
Proof.
  intros Hc. cbn [take_vector]. unfold mem_chars. rewrite bool_decide_eq_false_2; [done|].
  intros Hin. apply list_elem_of_singleton in Hin. done.
Qed.

(** The run of a group at the beginning of a text. *)
Lemma take_sequence_spec g s :
  ∃ rest, s = take_sequence g s ++ rest ∧ Forall (λ c, mem_chars g c = true) (take_sequence g s) ∧
    match rest with [] => True | c :: _ => mem_chars g c = false end.
Proof.
  induction s as [|c s (rest & E & Hf & Hr)]; [by exists []|]. simpl. destruct (mem_chars g c) eqn:Em.
  - exists rest. split_and!; [simpl; congruence|by constructor|done].
  - exists (c :: s). split_and!; [done|by constructor|done].
Qed.

(** ** The encoder's direction: what is kept, and what is encoded *)

Section lenient.
Context (simple : str) (pct : bool) (groups : list (str * str)).
Context (Hnames : Forall (λ g, g.1 ≠ $"unknown") groups) (Hsimple : "%"%char ∉ simple).

Definition kept (c : ascii) : bool := mem_chars simple c || bool_decide (is_Some (group_of groups c)).

(** The output for the tokens so far. *)
Definition output (t : BaseTokenizer) : str :=
  foldl process_token [] (t_tokens t) ++ pctencode (t_unknown_token t).

Definition lenient_rules (t : BaseTokenizer) : Prop :=
  t_allow_spaces t = true ∧ t_allow_unknown_tokens t = true ∧ t_final_group t = [] ∧ t_simple_tokens t = simple ∧
  t_custom_tokens t = custom_rules pct groups.

Lemma pctencode_app a b : pctencode (a ++ b) = pctencode a ++ pctencode b.
Proof. rewrite !pctencode_keep. apply pct_keep_app. Qed.

Lemma add_token_output token t :
  lenient_rules t → get_type token ≠ $"unknown" →
  lenient_rules (add_token token t) ∧ output (add_token token t) = output t ++ get_text token.
Proof.
  intros (Hs & Hu & Hf & Hsi & Hc) Hty. unfold add_token. rewrite Hu. cbn [andb].
  case_bool_decide as Ht; cbn [negb].
  - split; [done|]. unfold output. cbn [t_tokens t_unknown_token with_tokens]. rewrite Ht, foldl_app. cbn [foldl].
    unfold process_token at 1. rewrite bool_decide_eq_false_2 by done. change (pctencode []) with (@nil ascii). by rewrite !app_nil_r.
  - split; [done|]. unfold output. cbn [t_tokens t_unknown_token with_tokens]. rewrite foldl_app. cbn [foldl].
    unfold process_token at 1 2. cbn [get_type get_text]. rewrite (bool_decide_eq_true_2 ($"unknown" = _)), (bool_decide_eq_false_2 (get_type token = _)) by done.
    change (pctencode []) with (@nil ascii). by rewrite app_nil_r.
Qed.

(** Characters of a group are kept as they are. *)
Lemma pct_keep_kept s : Forall (λ c, kept c = true) s → pct_keep kept s = s.
Proof. induction 1 as [|c s Hc _ IH]; [done|]. by rewrite pct_keep_cons, Hc, IH. Qed.

Lemma group_of_kept name g c : (name, g) ∈ groups → mem_chars g c = true → kept c = true.
Proof.
  intros Hin Hm. unfold kept, group_of. rewrite (bool_decide_eq_true_2 (is_Some _)), orb_true_r; [done|].
  destruct (find _ groups) eqn:E; [done|]. eapply find_none in E; [|by apply list_elem_of_In]. simpl in E. congruence.
Qed.

Lemma group_of_In c name g : group_of groups c = Some (name, g) → (name, g) ∈ groups ∧ mem_chars g c = true.
Proof. intros E. apply find_some in E as [Hin Hm]. split; [by apply list_elem_of_In|done]. Qed.

Lemma lenient_loop fuel i last rest t :
  lenient_rules t → (pct = true → pct_free rest) → (length rest ≤ fuel)%nat → i + Z.of_nat (length rest) <= last + 1 →
  ∃ t', get_tokens_loop fuel i last rest t = Ok t' ∧ lenient_rules t' ∧ output t' = output t ++ pct_keep kept rest.
Proof.
  revert i rest t. induction fuel as [|fuel IH]; intros i [|c rest] t Ht Hfree Hf Hl; simpl in Hf; try lia.
  { exists t. cbn. by rewrite app_nil_r. }
  { exists t. cbn. by rewrite app_nil_r. }
  pose proof Ht as (Hs & Hu & Hfg & Hsi & Hc). cbn [get_tokens_loop]. simpl length in Hl.
  rewrite (proj2 (Z.ltb_ge last i)) by lia. rewrite Hs, andb_false_r, Hsi. rewrite pct_keep_cons.
  destruct (mem_chars simple c) eqn:Em.
  - destruct (add_token_output {| get_type := [c]; get_text := [c]; get_pos := as_int i |} t Ht) as [Ht' Ho].
    { cbn. intros E. apply (f_equal length) in E. done. }
    destruct (IH (i + 1) rest _ Ht') as (t' & -> & Ht'' & Ho'); [intros Hp; by apply Hfree in Hp as [_ ?]|lia|lia|].
    exists t'. split; [done|]. split; [done|]. rewrite Ho', Ho. unfold kept at 2. rewrite Em. simpl. by rewrite <- (assoc_L (++)).
  - rewrite Hc. unfold custom_rules.
    assert (match_rules ((if pct then [($"pct-encoded", pct_encoded)] else []) ++ ((λ g, (g.1, Sequence g.2)) <$> groups)) (c :: rest) =
            match_rules ((λ g, (g.1, Sequence g.2)) <$> groups) (c :: rest)) as ->.
    { destruct pct; [|done]. destruct (Hfree eq_refl) as [Hv _]. cbn [app match_rules]. unfold pct_encoded, match_rule. by rewrite Hv. }
    rewrite match_groups. destruct (group_of groups c) as [[name g]|] eqn:Eg; cbn [fmap option_fmap option_map fst snd].
    + destruct (group_of_In c name g Eg) as [Hin Hm].
      destruct (take_sequence_spec g (c :: rest)) as (rest' & E & Hall & _). set (text := take_sequence g (c :: rest)) in *.
      assert (0 < length text)%nat as Hpos by (unfold text; simpl; rewrite Hm; simpl; lia).
      destruct (add_token_output {| get_type := name; get_text := text; get_pos := as_int i |} t Ht) as [Ht' Ho].
      { by apply (proj1 (Forall_forall _ _) Hnames (name, g)). }
      assert (t_final_group (add_token {| get_type := name; get_text := text; get_pos := as_int i |} t) = []) as -> by apply Ht'.
      change (mem_chars [] c) with false. cbv iota. rewrite E, drop_app_length.
      assert (length (c :: rest) = length text + length rest')%nat as Hlen by (rewrite E at 1; by rewrite length_app).
      simpl in Hlen.
      destruct (IH (i + Z.of_nat (length text)) rest' _ Ht') as (t' & -> & Ht'' & Ho');
        [intros Hp; apply Hfree in Hp; rewrite E in Hp; apply (pct_free_drop (length text)) in Hp; by rewrite drop_app_length in Hp|lia|lia|].
      exists t'. split; [done|]. split; [done|]. rewrite Ho', Ho. cbn [get_text]. rewrite <- pct_keep_cons, E, pct_keep_app.
      rewrite (pct_keep_kept text); [by rewrite <- (assoc_L (++))|].
      eapply Forall_impl; [exact Hall|]. intros d Hd. by eapply group_of_kept.
    + rewrite Hfg. change (mem_chars [] c) with false. cbv iota. rewrite Hu.
      set (t1 := with_tokens (t_tokens t) (t_unknown_token t ++ [c]) (t_pos t) t).
      destruct (IH (i + 1) rest t1) as (t' & -> & Ht'' & Ho'); [done|intros Hp; by apply Hfree in Hp as [_ ?]|lia|lia|].
      exists t'. split; [done|]. split; [done|]. rewrite Ho'. unfold output at 1. cbn [t_tokens t_unknown_token with_tokens t1].
      rewrite pctencode_app. unfold kept at 2. rewrite Em, Eg. rewrite bool_decide_eq_false_2 by (by intros [? ?]).
      cbn [orb]. unfold output. rewrite <- !(assoc_L (++)). do 2 f_equal. cbn. by rewrite app_nil_r.
Qed.

(** The whole text. *)
Lemma lenient_process data t :
  lenient_rules t → (pct = true → pct_free data) → Z.of_nat (length data) < 2 ^ 64 →
  ∃ t', process (0, u64 (Z.of_nat (length data) - 1)) (set_input data t) = Ok t' ∧
    foldl process_token [] (t_tokens t') = pct_keep kept data.
Proof.
  intros Ht Hfree Hlen. unfold process, get_tokens. cbn [fst snd]. set (t1 := with_tokens [] [] 0 (set_input data t)).
  assert (lenient_rules t1) as Ht1 by done.
  assert (∃ t', (if 0 <? Z.of_nat (length (t_input t1))
                 then get_tokens_loop (length (t_input t1)) 0 (u64 (Z.of_nat (length data) - 1)) (drop (Z.to_nat 0) (t_input t1)) t1
                 else Ok t1) = Ok t' ∧ lenient_rules t' ∧ output t' = pct_keep kept data) as (t' & -> & Ht' & Ho).
  { change (t_input t1) with data. destruct (Z.ltb_spec 0 (Z.of_nat (length data))).
    - rewrite u64_small by lia. destruct (lenient_loop (length data) 0 (Z.of_nat (length data) - 1) data t1) as (t' & E & Ht' & Ho);
        [done|done|done|lia|]. exists t'. rewrite Ho. done.
    - exists t1. split; [done|]. split; [done|]. destruct data; [done|]. simpl in *. lia. }
  cbn [mbind result_bind]. eexists. split; [done|]. unfold add_unknown. destruct Ht' as (_ & Hu & _). rewrite Hu. cbn [andb].
  rewrite <- Ho. unfold output. case_bool_decide as E; cbn [negb].
  - rewrite E. change (pctencode []) with (@nil ascii). by rewrite app_nil_r.
  - cbn [t_tokens with_tokens]. rewrite foldl_app. cbn [foldl]. unfold process_token at 1. cbn [get_type get_text].
    by rewrite bool_decide_eq_true_2.
Qed.
End lenient.

(** ** The parser's direction: the tokens of an encoded text *)

Section strict.
Context (simple final : str) (groups : list (str * str)) (keep : ascii → bool).

(** The characters that are not encoded. *)
Definition plain (c : ascii) : bool := keep c || negb (reserved_char c).

Context (Hplain : ∀ c, plain c = true → kept simple groups c = true).
Context (Hkept : ∀ c, kept simple groups c = true → c ≠ "%"%char ∧ isspace c = false).
Context (Hfinal : ∀ c, mem_chars final c = true → c ≠ "%"%char ∧ group_of groups c = None).
Context (Hnames : Forall (λ g, g.1 ≠ $"pct-encoded") groups).

Definition strict_rules (t : BaseTokenizer) : Prop :=
  t_allow_spaces t = false ∧ t_allow_unknown_tokens t = false ∧ t_final_group t = final ∧ t_simple_tokens t = simple ∧
  t_custom_tokens t = custom_rules true groups.

(** No run of a group goes on in the text. *)
Definition stops (tail : str) : Prop :=
  match tail with [] => True | c :: _ => group_of groups c = None end.

Lemma encoding_char c :
  (plain c = true ∧ (if keep c then [c] else pct1 c) = [c]) ∨
  (plain c = false ∧ (if keep c then [c] else pct1 c) = pct1 c ∧
   pct1 c = ["%"%char; hex_char (Z.shiftr (Z.land (uch c) 0xF0) 4); hex_char (Z.land (uch c) 0x0F)]).
Proof. unfold plain, pct1. destruct (keep c), (reserved_char c); auto. Qed.

Lemma pct1_token c rest :
  plain c = false → take_vector [$"%"; HEXDIG; HEXDIG] (pct1 c ++ rest) = Some (pct1 c) ∧ pctdecode (pct1 c) (λ _, "000"%char) = [c].
Proof.
  intros Hp. split.
  - destruct (encoding_char c) as [[? _]|(_ & _ & ->)]; [congruence|]. cbn [app take_vector].
    assert (mem_chars HEXDIG (hex_char (Z.shiftr (Z.land (uch c) 0xF0) 4)) = true ∧
            mem_chars HEXDIG (hex_char (Z.land (uch c) 0x0F)) = true) as [-> ->] by (clear; by_bytes c).
    done.
  - pose proof (pctdecode_keep (λ _, false) [c] (λ _, "000"%char)) as E. cbn [pct_keep fmap list_fmap concat] in E.
    unfold pct_keep in E. cbn in E. rewrite app_nil_r in E. apply E; [done|].
    unfold pct1. destruct (reserved_char c); done.
Qed.

Lemma group_of_None c name g : group_of groups c = None → (name, g) ∈ groups → mem_chars g c = false.
Proof. intros E Hin. eapply find_none in E; [|by apply list_elem_of_In]. done. Qed.

Lemma group_pct name g : (name, g) ∈ groups → mem_chars g "%" = false.
Proof.
  intros Hin. destruct (mem_chars g "%") eqn:E; [|done]. destruct (Hkept "%"); [|done].
  by eapply group_of_kept.
Qed.

(** A run of a group in an encoded text is a run of characters of the text. *)
Lemma encoded_run name g data tail :
  (name, g) ∈ groups → stops tail →
  ∃ d1 d2, data = d1 ++ d2 ∧ take_sequence g (pct_keep keep data ++ tail) = d1 ∧ pct_keep keep d1 = d1.
Proof.
  intros Hin Ht. induction data as [|c data (d1 & d2 & -> & E & Hd)].
  { exists [], []. split; [done|]. split; [|done]. destruct tail as [|d tail]; [done|]. cbn.
    by rewrite (group_of_None d name g). }
  rewrite pct_keep_cons. destruct (encoding_char c) as [[Hp ->]|(Hp & -> & Hc)].
  - cbn [app take_sequence]. destruct (mem_chars g c) eqn:Em; [|by exists [], (c :: d1 ++ d2)].
    exists (c :: d1), d2. rewrite E. split_and!; [done|done|]. rewrite pct_keep_cons, Hd.
    destruct (encoding_char c) as [[_ ->]|(? & _)]; [done|congruence].
  - exists [], (c :: d1 ++ d2). split_and!; [done| |done]. rewrite Hc. cbn [app take_sequence].
    by rewrite (group_pct name g).
Qed.

(** The tokens of the data of a region: their texts are the region, decoded they are the data,
    and no token has the type [stop]. *)
Definition tokens_of (stop data : str) (tokens : list BaseToken) : Prop :=
  concat (get_text <$> tokens) = pct_keep keep data ∧ concat (decoded <$> tokens) = data ∧
  Forall (λ token, get_type token ≠ stop) tokens.

Lemma tokens_of_cons stop d1 d2 token tokens :
  get_text token = pct_keep keep d1 → decoded token = d1 → get_type token ≠ stop → tokens_of stop d2 tokens →
  tokens_of stop (d1 ++ d2) (token :: tokens).
Proof.
  intros Ht Hd Hs (E1 & E2 & Hf). unfold tokens_of. cbn [fmap list_fmap concat]. rewrite Ht, Hd, E1, E2, pct_keep_app.
  split_and!; [done|done|by constructor].
Qed.

(** The type of the token that starts with the encoding of a character. *)
Definition first_type (c : ascii) : str :=
  if plain c then if mem_chars simple c then [c] else default [] (fst <$> group_of groups c)
  else $"pct-encoded".

Lemma plain_no_pct c : plain c = true → c ≠ "%"%char ∧ isspace c = false.
Proof. intros Hp. by apply Hkept, Hplain. Qed.

Definition push (tokens : list BaseToken) (t : BaseTokenizer) : BaseTokenizer :=
  with_tokens (t_tokens t ++ tokens) (t_unknown_token t) (t_pos t) t.

Lemma push_push tokens tokens' t : push tokens' (push tokens t) = push (tokens ++ tokens') t.
Proof. unfold push. cbn. by rewrite <- (assoc_L (++)). Qed.

Lemma push_nil t : push [] t = t.
Proof. unfold push, with_tokens. rewrite app_nil_r. by destruct t. Qed.

Lemma add_token_push token t : t_allow_unknown_tokens t = false → add_token token t = push [token] t.
Proof. intros E. unfold add_token. by rewrite E. Qed.

Lemma simple_step fuel i last c rest t :
  mem_chars (t_simple_tokens t) c = true → isspace c = false → t_allow_unknown_tokens t = false → i <= last →
  get_tokens_loop (S fuel) i last (c :: rest) t =
  get_tokens_loop fuel (i + 1) last rest (push [{| get_type := [c]; get_text := [c]; get_pos := as_int i |}] t).
Proof.
  intros Hs Hsp Hu Hi. cbn [get_tokens_loop]. rewrite (proj2 (Z.ltb_ge last i)), Hsp, Hs by lia. cbn [andb].
  by rewrite add_token_push.
Qed.

Lemma plain_encoding c d1 : (if keep c then [c] else pct1 c) = [c] → pct_keep keep d1 = d1 → pct_keep keep (c :: d1) = c :: d1.
Proof. intros E Hd. by rewrite pct_keep_cons, E, Hd. Qed.

(** One token. *)
Lemma strict_step fuel i last c data tail t :
  strict_rules t → stops tail → i <= last →
  ∃ d1 d2 token,
    c :: data = (c :: d1) ++ d2 ∧ get_text token = pct_keep keep (c :: d1) ∧ decoded token = c :: d1 ∧
    get_type token = first_type c ∧
    get_tokens_loop (S fuel) i last (pct_keep keep (c :: data) ++ tail) t =
    get_tokens_loop fuel (i + Z.of_nat (length (pct_keep keep (c :: d1)))) last (pct_keep keep d2 ++ tail) (push [token] t).
Proof.
  intros (Hs & Hu & Hf & Hsi & Hc) Ht Hi. rewrite pct_keep_cons. unfold first_type.
  destruct (encoding_char c) as [[Hp Ec]|(Hp & Ec & Hpc)]; rewrite Ec, Hp.
  - destruct (plain_no_pct c Hp) as [Hnp Hsp]. cbn [app get_tokens_loop]. rewrite Hsp, Hsi, (proj2 (Z.ltb_ge last i)) by lia. cbn [andb].
    destruct (mem_chars simple c) eqn:Em.
    { exists [], data, {| get_type := [c]; get_text := [c]; get_pos := as_int i |}. rewrite (plain_encoding c []) by done.
      split_and!; [done|done| |done|by rewrite add_token_push]. unfold decoded. cbn [get_type get_text].
      rewrite bool_decide_eq_false_2; [done|]. intros E. by apply (f_equal length) in E. }
    rewrite Hc. unfold custom_rules. cbn [app match_rules match_rule pct_encoded]. rewrite take_vector_not_pct, match_groups by done.
    destruct (group_of groups c) as [[name g]|] eqn:Eg.
    2: { pose proof (Hplain c Hp) as Hk. unfold kept in Hk. rewrite Em, Eg in Hk. done. }
    cbn [fmap option_fmap option_map fst snd default]. destruct (group_of_In groups c name g Eg) as [Hin Hm].
    destruct (encoded_run name g data tail Hin Ht) as (d1 & d2 & -> & Er & Hd). cbn [take_sequence]. rewrite Hm, Er.
    rewrite add_token_push by done. cbn [push t_final_group with_tokens]. rewrite Hf.
    destruct (mem_chars final c) eqn:Ef; [apply Hfinal in Ef as [_ Ef]; congruence|].
    exists d1, d2, {| get_type := name; get_text := c :: d1; get_pos := as_int i |}. rewrite (plain_encoding c d1) by done.
    split_and!; [done|done| |done|].
    + unfold decoded. cbn [get_type get_text]. rewrite bool_decide_eq_false_2; [done|].
      by apply (proj1 (Forall_forall _ _) Hnames (name, g)).
    + rewrite pct_keep_app, Hd. f_equal. cbn [length drop]. by rewrite <- (assoc_L (++)), drop_app_length.
  - destruct (pct1_token c (pct_keep keep data ++ tail) Hp) as [Hv Hd]. rewrite Hpc. cbn [app get_tokens_loop].
    change (isspace "%") with false. rewrite Hsi, (proj2 (Z.ltb_ge last i)) by lia. cbn [andb].
    assert (mem_chars simple "%" = false) as ->.
    { destruct (mem_chars simple "%") eqn:E; [|done]. destruct (Hkept "%"); [|done]. unfold kept. by rewrite E. }
    rewrite Hc. unfold custom_rules. rewrite Hpc in Hv. cbn [app] in Hv. cbn [app match_rules match_rule pct_encoded].
    rewrite Hv. rewrite add_token_push by done. cbn [push t_final_group with_tokens]. rewrite Hf.
    assert (mem_chars final "%" = false) as ->.
    { destruct (mem_chars final "%") eqn:E; [|done]. by apply Hfinal in E as [? _]. }
    exists [], data, {| get_type := $"pct-encoded"; get_text := pct1 c; get_pos := as_int i |}.
    rewrite pct_keep_cons, Ec. change (pct_keep keep []) with (@nil ascii). rewrite app_nil_r.
    split_and!; [done|done| |done|].
    + unfold decoded. cbn [get_type get_text]. by rewrite bool_decide_eq_true_2.
    + by rewrite Hpc.
Qed.

(** The tokens of a region start with the one of its first character. *)
Definition starts_as (data : str) (tokens : list BaseToken) : Prop := get_type <$> head tokens = first_type <$> head data.

Lemma push_rules tokens t : strict_rules t → strict_rules (push tokens t).
Proof. done. Qed.

(** A type that no token of the data has. *)
Definition never (stop data : str) : Prop := Forall (λ c, first_type c ≠ stop) data.

(** A region in front of a text that no run continues in. *)
Lemma strict_loop stop fuel i last data tail t :
  strict_rules t → stops tail → never stop data → (length (pct_keep keep data) ≤ fuel)%nat →
  i + Z.of_nat (length (pct_keep keep data)) <= last + 1 →
  ∃ tokens fuel', tokens_of stop data tokens ∧ starts_as data tokens ∧ (fuel - length (pct_keep keep data) ≤ fuel')%nat ∧
    get_tokens_loop fuel i last (pct_keep keep data ++ tail) t =
    get_tokens_loop fuel' (i + Z.of_nat (length (pct_keep keep data))) last tail (push tokens t).
Proof.
  intros Ht Hstop. revert i data t Ht. induction fuel as [fuel IH] using lt_wf_ind.
  intros i [|c data] t Ht Hn Hf Hl.
  { exists [], fuel. rewrite push_nil. cbn. split_and!; [by unfold tokens_of; split_and!; constructor|done|lia|f_equal; lia]. }
  assert (0 < length (pct_keep keep (c :: data)))%nat by (pose proof (pct_keep_length keep (c :: data)); cbn [length] in *; lia).
  destruct fuel as [|fuel]; [lia|].
  destruct (strict_step fuel i last c data tail t Ht Hstop) as (d1 & d2 & token & E & Etext & Edec & Ety & ->); [lia|].
  rewrite E in *. rewrite pct_keep_app, length_app in *.
  assert (0 < length (pct_keep keep (c :: d1)))%nat by (pose proof (pct_keep_length keep (c :: d1)); cbn [length] in *; lia).
  destruct (IH fuel ltac:(lia) (i + Z.of_nat (length (pct_keep keep (c :: d1)))) d2 (push [token] t))
    as (tokens & fuel' & Htok & _ & Hf' & ->); [done|apply Forall_app in Hn; apply Hn|lia|lia|].
  exists (token :: tokens), fuel'. rewrite push_push. split_and!.
  - apply tokens_of_cons; try done. rewrite Ety. by apply Forall_cons in Hn as [? _].
  - unfold starts_as. cbn. by rewrite Ety.
  - lia.
  - f_equal. lia.
Qed.

Lemma loop_end fuel i last rest t : last < i → get_tokens_loop fuel i last rest t = Ok t.
Proof.
  intros Hi. destruct fuel, rest; cbn [get_tokens_loop]; try done. by rewrite (proj2 (Z.ltb_lt last i)).
Qed.

Lemma add_unknown_strict t : t_allow_unknown_tokens t = false → add_unknown t = t.
Proof. intros E. unfold add_unknown. by rewrite E. Qed.

(** A range of the input: the loop, with the input from its start on. *)
Lemma process_loop pre rest last t :
  t_allow_unknown_tokens t = false → t_input t = pre ++ rest → rest ≠ [] →
  process (Z.of_nat (length pre), last) t =
  (t' ← get_tokens_loop (length (t_input t)) (Z.of_nat (length pre)) last rest (with_tokens [] [] 0 t); Ok (add_unknown t')).
Proof.
  intros Hu Hi Hr. unfold process, get_tokens. cbn [fst snd t_input with_tokens]. rewrite Hi.
  rewrite (proj2 (Z.ltb_lt _ _)) by (rewrite length_app; destruct rest; [done|]; cbn; lia).
  by rewrite Nat2Z.id, drop_app_length.
Qed.

(** A range that is a region. *)
Lemma strict_process stop pre data tail t :
  strict_rules t → stops tail → never stop data → data ≠ [] → t_input t = pre ++ pct_keep keep data ++ tail →
  ∃ tokens, tokens_of stop data tokens ∧ starts_as data tokens ∧
    process (Z.of_nat (length pre), Z.of_nat (length pre) + Z.of_nat (length (pct_keep keep data)) - 1) t =
    Ok (with_tokens tokens [] 0 t).
Proof.
  intros Ht Hstop Hn Hd Hi. pose proof Ht as (_ & Hu & _).
  pose proof (pct_keep_length keep data) as Hk. assert (0 < length data)%nat by (destruct data; [done|cbn; lia]).
  rewrite (process_loop pre (pct_keep keep data ++ tail)) by (done || (destruct (pct_keep keep data); [cbn in Hk; lia|done])).
  destruct (strict_loop stop (length (t_input t)) (Z.of_nat (length pre))
    (Z.of_nat (length pre) + Z.of_nat (length (pct_keep keep data)) - 1) data tail (with_tokens [] [] 0 t))
    as (tokens & fuel' & Htok & Hfirst & _ & ->); [done|done|done|rewrite Hi, !length_app; lia|lia|].
  exists tokens. split; [done|]. split; [done|]. rewrite loop_end by lia. cbn [mbind result_bind].
  by rewrite add_unknown_strict.
Qed.

(** Two regions with a character of its own between them. *)
Lemma strict_process_pair stop pre data1 sep data2 tail t :
  strict_rules t → stops tail → mem_chars simple sep = true → isspace sep = false → group_of groups sep = None →
  never stop data1 → never stop data2 →
  t_input t = pre ++ pct_keep keep data1 ++ [sep] ++ pct_keep keep data2 ++ tail →
  ∃ tokens1 pos tokens2, tokens_of stop data1 tokens1 ∧ starts_as data1 tokens1 ∧ tokens_of stop data2 tokens2 ∧
    process (Z.of_nat (length pre),
             Z.of_nat (length pre) + Z.of_nat (length (pct_keep keep data1 ++ [sep] ++ pct_keep keep data2)) - 1) t =
    Ok (with_tokens (tokens1 ++ {| get_type := [sep]; get_text := [sep]; get_pos := pos |} :: tokens2) [] 0 t).
Proof.
  intros Ht Hstop Hsep Hsp Hg Hn1 Hn2 Hi. pose proof Ht as (_ & Hu & _ & Hsi & _).
  rewrite (process_loop pre (pct_keep keep data1 ++ [sep] ++ pct_keep keep data2 ++ tail)) by (done || by destruct (pct_keep keep data1)).
  rewrite !length_app. cbn [length]. set (last := (Z.of_nat (length pre) + _ - 1)). 
  destruct (strict_loop stop (length (t_input t)) (Z.of_nat (length pre)) last data1 ([sep] ++ pct_keep keep data2 ++ tail) (with_tokens [] [] 0 t))
    as (tokens1 & fuel' & Htok & Hfirst & Hf & ->); [done|done|done|rewrite Hi, !length_app; lia|lia|].
  rewrite Hi, !length_app in Hf. cbn [length] in Hf. destruct fuel' as [|fuel']; [lia|].
  cbn [app]. rewrite simple_step by (done || lia || (cbn; by rewrite Hsi)). set (token := {| get_type := [sep]; get_text := [sep]; get_pos := _ |}).
  destruct (strict_loop stop fuel' (Z.of_nat (length pre) + Z.of_nat (length (pct_keep keep data1)) + 1) last data2 tail
    (push [token] (push tokens1 (with_tokens [] [] 0 t)))) as (tokens2 & fuel2 & Htok2 & _ & _ & ->); [done|done|done|lia|lia|].
  eexists tokens1, _, tokens2. split_and!; [done|done|done|]. rewrite loop_end by lia. cbn [mbind result_bind].
  rewrite add_unknown_strict, !push_push by done. done.
Qed.
End strict.
