(* ===== verification/UriEncodeFacts.v ===== *)
(** * Encoding of URIs: theorems

    The text that [encode_uri] writes for a [Generic_uri], in closed form: each part is the
    data with some characters kept and the others percent-encoded. *)
From S2P Require Import Prelude UtilsString UtilsStringFacts BaseTokenizer Uri UriTokensFacts.

Open Scope Z_scope.

(** ** Parts *)

Definition user_groups : list (str * str) := [($"unreserved", UNRESERVED); ($"sub-delims", SUBDELIMITERS)].
Definition host_groups : list (str * str) :=
  [($"digits", DIGIT); ($"hex-digits", HEXDIG); ($"sub-delims", SUBDELIMITERS); ($"unreserved", UNRESERVED)].
Definition attribute_groups : list (str * str) := [($"unreserved", UNRESERVED); ($"sub-delims", $"!$'()*+,;")].
Definition value_groups : list (str * str) := [($"unreserved", UNRESERVED); ($"delims", $"!$'()*+;=")].

Definition keep_user : ascii → bool := kept [] user_groups.
Definition keep_host : ascii → bool := kept ($".:") host_groups.
Definition keep_segment : ascii → bool := kept ($":@") user_groups.
Definition keep_attribute : ascii → bool := kept [] attribute_groups.
Definition keep_value : ascii → bool := kept [] value_groups.
Definition keep_path (c : ascii) : bool := bool_decide (c = "/"%char) || keep_segment c.

Lemma names_not_unknown groups :
  bool_decide (Forall (λ g : str * str, g.1 ≠ $"unknown") groups) = true → Forall (λ g, g.1 ≠ $"unknown") groups.
Proof. apply bool_decide_eq_true_1. Qed.

Lemma encode_process_keep simple pct groups data t :
  bool_decide (Forall (λ g : str * str, g.1 ≠ $"unknown") groups) = true → lenient_rules simple pct groups t →
  (pct = true → pct_free data) → Z.of_nat (length data) < 2 ^ 64 →
  encode_process data t = Ok (pct_keep (kept simple groups) data).
Proof.
  intros Hn%names_not_unknown Ht Hfree Hlen.
  destruct (lenient_process simple pct groups Hn data t Ht Hfree Hlen) as (t' & E & Ho).
  unfold encode_process. rewrite E. cbn [mbind result_bind]. by rewrite Ho.
Qed.

Lemma encode_userinfo_keep data t :
  pct_free data → Z.of_nat (length data) < 2 ^ 64 → encode_userinfo data t = Ok (pct_keep keep_user data).
Proof. intros. by apply (encode_process_keep [] true user_groups). Qed.

Lemma encode_host_keep is_ipv6 data t :
  pct_free data → is_ipv6 data = false → Z.of_nat (length data) < 2 ^ 64 →
  encode_host is_ipv6 data t = Ok (pct_keep keep_host data).
Proof.
  intros ? H6 ?. unfold encode_host. rewrite (encode_process_keep ($".:") true host_groups) by done.
  cbn [mbind result_bind]. by rewrite H6.
Qed.

Lemma encode_attribute_keep data t :
  pct_free data → Z.of_nat (length data) < 2 ^ 64 → encode_attribute data t = Ok (pct_keep keep_attribute data).
Proof. intros. by apply (encode_process_keep [] true attribute_groups). Qed.

Lemma encode_value_keep data t :
  pct_free data → Z.of_nat (length data) < 2 ^ 64 → encode_value data t = Ok (pct_keep keep_value data).
Proof. intros. by apply (encode_process_keep [] true value_groups). Qed.

Lemma encode_segment_keep data t :
  Z.of_nat (length data) < 2 ^ 64 → encode_path_segment data false t = Ok (pct_keep keep_segment data).
Proof. intros. by apply (encode_process_keep ($":@") false user_groups). Qed.

Lemma pct_keep_ext (keep keep' : ascii → bool) s : Forall (λ c, keep c = keep' c) s → pct_keep keep s = pct_keep keep' s.
Proof. induction 1 as [|c s Hc _ IH]; [done|]. by rewrite !pct_keep_cons, Hc, IH. Qed.

Lemma keep_path_segment s : Forall (λ c, bool_decide (c = "/"%char) = false) s → pct_keep keep_segment s = pct_keep keep_path s.
Proof. intros Hs. apply pct_keep_ext. eapply Forall_impl; [exact Hs|]. intros c Hc. unfold keep_path. by rewrite Hc. Qed.

Lemma pctencode_path_keep s : Z.of_nat (length s) < 2 ^ 64 → pctencode_path s = Ok (pct_keep keep_path s).
Proof.
  unfold pctencode_path. assert (length s < S (length s))%nat as Hf by lia. revert Hf. generalize (S (length s)) as fuel.
  intros fuel. revert s. induction fuel as [|fuel IH]; intros s Hf Hlen; [lia|]. cbn [pctencode_path_loop].
  destruct (find_if _ s) as [pos|] eqn:E.
  - apply find_if_Some in E as (c & Hc & Ec & Hall). apply bool_decide_eq_true_1 in Ec as ->.
    pose proof (take_drop_middle s pos _ Hc) as Es. apply lookup_lt_Some in Hc.
    rewrite encode_segment_keep by (rewrite length_take; lia). cbn [mbind result_bind].
    rewrite IH by (rewrite length_drop; lia). cbn [mbind result_bind]. rewrite (keep_path_segment _ Hall). f_equal.
    rewrite <- Es at 3. rewrite pct_keep_app, pct_keep_cons. done.
  - apply find_if_None in E. rewrite encode_segment_keep by done. by rewrite (keep_path_segment _ E).
Qed.

(** ** Runs of one group *)

(** A run of characters that are of one group, and of no rule before it. *)
Lemma run_loop name g before after fuel i last text c tail t :
  t_custom_tokens t = before ++ (name, Sequence g) :: after →
  Forall (λ rule, match_rule rule.2 (text ++ tail) = None) before →
  t_allow_unknown_tokens t = false → head text = Some c → isspace c = false → mem_chars (t_simple_tokens t) c = false →
  mem_chars (t_final_group t) c = false → Forall (λ c, mem_chars g c = true) text →
  match tail with [] => True | d :: _ => mem_chars g d = false end → i <= last →
  get_tokens_loop (S fuel) i last (text ++ tail) t =
  get_tokens_loop fuel (i + Z.of_nat (length text)) last tail (push [{| get_type := name; get_text := text; get_pos := as_int i |}] t).
Proof.
  intros Hr Hb Hu Hh Hsp Hsi Hfi Hall Ht Hi. destruct text as [|c' text]; [done|]. injection Hh as ->.
  cbn [app get_tokens_loop]. rewrite Hsp, Hsi, (proj2 (Z.ltb_ge last i)) by lia. cbn [andb]. rewrite Hr.
  assert (take_sequence g ((c :: text) ++ tail) = c :: text) as Es.
  { clear -Hall Ht. induction Hall as [|d l Hd _ IH]; cbn [app take_sequence].
    - destruct tail; [done|]. cbn. by rewrite Ht.
    - by rewrite Hd, IH. }
  assert (match_rules (before ++ (name, Sequence g) :: after) ((c :: text) ++ tail) = Some (name, c :: text)) as Em.
  { clear -Hb Es. induction Hb as [|[n r] l Hx _ IH]; cbn [app match_rules].
    - cbn [match_rule]. cbn [app] in Es. by rewrite Es.
    - cbn [snd app] in Hx. rewrite Hx. exact IH. }
  cbn [app] in Em. rewrite Em, add_token_push by done. cbn [push t_final_group with_tokens]. rewrite Hfi.
  f_equal. change (c :: text ++ tail) with ((c :: text) ++ tail). by rewrite drop_app_length.
Qed.

(** ** The scheme and the port *)

Definition alphanumeric (s : str) : Prop := Forall (λ c, mem_chars ALPHANUMERIC c = true) s.

Lemma alphanumeric_char c : mem_chars ALPHANUMERIC c = true → isspace c = false ∧ mem_chars ($"+") c = false ∧ mem_chars ($":/") c = false.
Proof. by_bytes c. Qed.

Lemma isdigit_char c : isdigit c = true → isspace c = false ∧ mem_chars ($":") c = false ∧ mem_chars DIGIT c = true.
Proof. by_bytes c. Qed.

(** The tokens of a scheme. *)
Lemma scheme_process s tail t :
  s ≠ [] → alphanumeric s → match tail with [] => True | d :: _ => mem_chars ALPHANUMERIC d = false end →
  t_input t = s ++ tail → t_allow_unknown_tokens t = false → t_simple_tokens t = $"+" → t_final_group t = [] →
  t_custom_tokens t = [($"alphanumeric", Sequence ALPHANUMERIC)] →
  process (0, Z.of_nat (length s) - 1) t =
  Ok (with_tokens [{| get_type := $"alphanumeric"; get_text := s; get_pos := 0 |}] [] 0 t).
Proof.
  intros Hs Ha Ht Hi Hu Hsi Hf Hc. destruct s as [|c s]; [done|].
  pose proof Ha as [Hca _]%Forall_cons. destruct (alphanumeric_char c Hca) as (? & ? & _).
  rewrite (process_loop [] ((c :: s) ++ tail)) by done. rewrite Hi. rewrite length_app. cbn [length plus].
  rewrite (run_loop ($"alphanumeric") ALPHANUMERIC [] [] _ _ _ _ c); try done.
  - rewrite loop_end by (cbn; lia). cbn [mbind result_bind]. by rewrite add_unknown_strict.
  - by rewrite <- Hsi in *.
  - cbn. by rewrite Hf.
  - cbn. lia.
Qed.

Lemma encode_scheme_ok s t : s ≠ [] → alphanumeric s → Z.of_nat (length s) < 2 ^ 64 → encode_scheme s t = Ok s.
Proof.
  intros Hs Ha Hlen. unfold encode_scheme. assert (0 < length s)%nat by (destruct s; [done|cbn; lia]).
  rewrite u64_small by lia. rewrite (scheme_process s []); [|done|done|done|cbn; by rewrite app_nil_r|done|done|done|done]. done.
Qed.

(** The digits of a port. *)
Definition port_ok (n : Z) : Prop := 0 <= n <= 65535.

Lemma port_digits n :
  0 <= n → ∃ d ds, to_string n = d :: ds ∧ Forall (λ c, isdigit c = true) (d :: ds) ∧ dec_value (d :: ds) 0 = n.
Proof.
  intros Hn. unfold to_string. rewrite (proj2 (Z.ltb_ge n 0)) by lia. destruct (dec_spec n Hn) as (Hne & Hall & Hv).
  destruct (dec n) as [|d ds]; [done|]. eauto.
Qed.

Lemma digits_group s : Forall (λ c, isdigit c = true) s → Forall (λ c, mem_chars DIGIT c = true) s.
Proof. intros Hs. eapply Forall_impl; [exact Hs|]. intros c Hc. apply (isdigit_char c Hc). Qed.

Lemma encode_port_ok n t : port_ok n → Z.of_nat (length (to_string n)) < 2 ^ 64 → encode_port_text (to_string n) t = Ok (to_string n).
Proof.
  intros [Hn Hmax]. destruct (port_digits n Hn) as (d & ds & E & Hall & Hv). rewrite E. intros Hlen. unfold encode_port_text.
  pose proof Hall as [Hd _]%Forall_cons. destruct (isdigit_char d Hd) as (Hsp & _ & Hg).
  rewrite u64_small by (cbn [length] in *; lia). set (rules := set_complex_token _ _ _).
  assert (process (0, Z.of_nat (length (d :: ds)) - 1) (set_input (d :: ds) rules) =
          Ok (with_tokens [{| get_type := $"digits"; get_text := d :: ds; get_pos := 0 |}] [] 0 (set_input (d :: ds) rules))) as ->.
  { unfold process, get_tokens. cbn [fst snd]. change (t_input _) with (d :: ds).
    rewrite (proj2 (Z.ltb_lt 0 _)) by (cbn [length]; lia). change (drop (Z.to_nat 0) (d :: ds)) with (d :: ds).
    cbn [length get_tokens_loop]. rewrite (proj2 (Z.ltb_ge _ 0)) by lia. rewrite Hsp.
    cbn [andb]. change (mem_chars (t_simple_tokens _) d) with false. cbv iota.
    change (t_custom_tokens _) with [($"digits", Sequence DIGIT)]. cbn [match_rules match_rule].
    assert (take_sequence DIGIT (d :: ds) = d :: ds) as ->.
    { clear -Hall. apply digits_group in Hall. induction Hall as [|c l Hc _ IH]; [done|]. cbn [take_sequence]. by rewrite Hc, IH. }
    change (mem_chars (t_final_group _) d) with false. cbv iota.
    rewrite loop_end by (cbn [length]; lia). done. }
  cbn [mbind result_bind]. unfold consume_any_token, peek_token. cbn [t_tokens t_pos with_tokens lookup list_lookup mbind result_bind].
  cbn [get_type get_text drop fmap list_fmap concat]. rewrite !bool_decide_eq_true_2 by done. cbn [negb]. cbv zeta. rewrite Hv.
  rewrite (proj2 (Z.ltb_ge _ n)) by lia. unfold encode_port. rewrite (proj2 (Z.ltb_ge n 0)), (proj2 (Z.ltb_ge _ n)) by lia.
  cbn [orb]. by rewrite E.
Qed.

(** ** The whole text *)

(** The addresses that a text can stand for: names with the characters that the parser gives
    back, a path that is more than a slash, and attributes with values. *)
Record uri_attribute_ok (attribute : str * option str) : Prop := {
  attribute_name : attribute.1 ∉ [kScheme; kUser; kPassword; kHost; kPath; kSocket; kPipe];
  attribute_plain : Forall (λ c, keep_attribute c = true) attribute.1;
  attribute_value : ∃ value, attribute.2 = Some value ∧ pct_free value ∧ head value ≠ Some "("%char;
}.

Record uri_ok (u : Generic_uri) : Prop := {
  uri_scheme : scheme u ≠ [] ∧ alphanumeric (scheme u) ∧ scheme u ≠ $"file";
  uri_user : pct_free (user u);
  uri_password : match password u with Some p => pct_free p ∧ user u ≠ [] | None => True end;
  uri_host : (∃ c, head (host u) = Some c ∧ isalpha c = true) ∧ pct_free (host u) ∧ ":"%char ∉ host u;
  uri_port : match port u with Some n => port_ok n | None => True end;
  uri_path : path u = [] ∨ ∃ c rest, path u = "/"%char :: c :: rest;
  uri_query : Forall uri_attribute_ok (query u);
}.

Definition userinfo_text (u : Generic_uri) : str :=
  pct_keep keep_user (user u) ++ match password u with Some p => $":" ++ pct_keep keep_user p | None => [] end.

Definition attribute_text (attribute : str * option str) : str :=
  attribute.1 ++ $"=" ++ pct_keep keep_value (default [] attribute.2).

Definition query_text (attributes : list (str * option str)) : str :=
  concat ((λ attribute, $"&" ++ attribute_text attribute) <$> attributes).

Definition uri_text (u : Generic_uri) : str :=
  scheme u ++ $"://" ++
  (if bool_decide (user u = []) then [] else userinfo_text u ++ $"@") ++
  pct_keep keep_host (host u) ++ match port u with Some n => $":" ++ to_string n | None => [] end ++
  pct_keep keep_path (path u) ++
  match query u with [] => [] | attribute :: rest => $"?" ++ attribute_text attribute ++ query_text rest end.

Lemma pct_keep_all keep s : Forall (λ c, keep c = true) s → pct_keep keep s = s.
Proof. induction 1 as [|c s Hc _ IH]; [done|]. by rewrite pct_keep_cons, Hc, IH. Qed.

(** No percent encoding starts in a text without percent signs. *)
Lemma pct_free_plain s : "%"%char ∉ s → pct_free s.
Proof.
  induction s as [|c s IH]; [done|]. rewrite not_elem_of_cons. intros [Hc Hs]. split; [|by apply IH].
  by apply take_vector_not_pct.
Qed.

Lemma keep_attribute_pct c : keep_attribute c = true → c ≠ "%"%char.
Proof. by_bytes c. Qed.

Lemma encode_query_attribute_ok a t :
  uri_attribute_ok a → Z.of_nat (length (attribute_text a)) < 2 ^ 64 → encode_query_attribute t a = Ok (attribute_text a).
Proof.
  intros [_ Hp (v & Ev & Hv & _)]. destruct a as [name value]. cbn [fst snd] in *. subst value. unfold attribute_text, encode_query_attribute.
  cbn [fst snd default id]. rewrite !length_app. intros Hlen. pose proof (pct_keep_length keep_value v).
  rewrite encode_attribute_keep; [|apply pct_free_plain|lia].
  - cbn [mbind result_bind]. rewrite encode_value_keep by (done || lia). cbn [mbind result_bind]. by rewrite (pct_keep_all keep_attribute).
  - intros Hin. apply (proj1 (Forall_forall _ _) Hp) in Hin. by apply keep_attribute_pct in Hin.
Qed.

Lemma query_text_cons a l : query_text (a :: l) = $"&" ++ attribute_text a ++ query_text l.
Proof. done. Qed.

Lemma join_attributes a l : str_join (attribute_text <$> a :: l) ($"&") id = attribute_text a ++ query_text l.
Proof.
  revert a. induction l as [|b l IH]; intros a; [cbn; by rewrite app_nil_r|].
  cbn [fmap list_fmap]. rewrite str_join_cons2. cbn [fmap list_fmap] in IH. by rewrite IH.
Qed.

Lemma encode_attributes_ok l t :
  Forall uri_attribute_ok l → Z.of_nat (length (query_text l)) < 2 ^ 64 → encode_attributes t l = Ok (attribute_text <$> l).
Proof.
  induction 1 as [|a l Ha _ IH]; [done|]. rewrite query_text_cons, !length_app. intros Hlen. cbn [encode_attributes].
  rewrite encode_query_attribute_ok by (done || lia). cbn [mbind result_bind]. rewrite IH by lia. done.
Qed.

Lemma filter_query u : Forall uri_attribute_ok (query u) → query_attributes u = query u.
Proof.
  cbn. generalize (query u) as l. induction 1 as [|a l [Hn _ _] _ IH]; [done|].
  rewrite filter_cons_True; [by rewrite IH|]. set_solver.
Qed.

Lemma find_attribute_None u name :
  name ∈ [kSocket; kPipe] → Forall uri_attribute_ok (query u) → generic_has_value u name = false.
Proof.
  intros Hin Hq. unfold generic_has_value.
  rewrite !elem_of_cons, elem_of_nil in Hin. assert (find_attribute u name = None) as ->.
  { unfold find_attribute. induction Hq as [|a l [Hn _ _] _ IH]; [done|]. cbn [find].
    rewrite bool_decide_eq_false_2; [done|]. rewrite !elem_of_cons in Hn. naive_solver. }
  destruct Hin as [->|[->|[]]]; done.
Qed.

Section encode_uri.
Context (is_ipv6 : str → bool) (u : Generic_uri) (t : BaseTokenizer).
Context (Hu : uri_ok u) (H6 : is_ipv6 (host u) = false) (Hlen : Z.of_nat (length (uri_text u)) < 2 ^ 64).

Lemma encode_user_data_ok :
  encode_user_data u full t = Ok (if bool_decide (user u = []) then [] else userinfo_text u).
Proof.
  revert Hlen. unfold uri_text. rewrite !length_app. intros Hlen'.
  unfold encode_user_data. cbn [f_user f_password full andb has_value Generic_uri_encodable get].
  change (generic_has_value u kUser) with (negb (bool_decide (user u = []))).
  case_bool_decide as E; [done|]. cbn [negb]. change (generic_get u kUser) with (@Ok str (user u)). cbn [mbind result_bind].
  pose proof (pct_keep_length keep_user (user u)). revert Hlen'. rewrite length_app. unfold userinfo_text. rewrite length_app. intros Hlen'.
  rewrite encode_userinfo_keep; [|apply Hu|lia]. cbn [mbind result_bind].
  change (generic_has_value u kPassword) with (bool_decide (is_Some (password u))).
  change (generic_get u kPassword) with (deref (password u)). pose proof (uri_password _ Hu) as Hp.
  destruct (password u) as [p|]; [|by rewrite app_nil_r].
  revert Hlen'. rewrite length_app. intros Hlen'. pose proof (pct_keep_length keep_user p).
  rewrite bool_decide_eq_true_2 by done. cbn [deref mbind result_bind]. rewrite encode_userinfo_keep; [done|apply Hp|lia].
Qed.

Lemma encode_transport_ok :
  encode_transport is_ipv6 u t (scheme u) (host u) =
  Ok (pct_keep keep_host (host u) ++ match port u with Some n => $":" ++ to_string n | None => [] end).
Proof.
  revert Hlen. unfold uri_text. rewrite !length_app. intros Hlen'. unfold encode_transport.
  cbn [has_value Generic_uri_encodable]. rewrite (find_attribute_None u kPipe), (find_attribute_None u kSocket) by (apply Hu || by repeat constructor).
  destruct (uri_host _ Hu) as ((c & Hc & _) & Hf & _). rewrite (bool_decide_eq_false_2 (host u = [])) by (by intros E; rewrite E in Hc).
  cbn [negb]. pose proof (pct_keep_length keep_host (host u)). rewrite encode_host_keep by (done || lia). cbn [mbind result_bind].
  change (generic_has_value u kPort) with (bool_decide (is_Some (port u))). 
  change (get_numeric u kPort) with (match port u with Some p => Ok p | None => Throw (runtime_error "Port is not defined.") end).
  pose proof (uri_port _ Hu) as Hp.
  destruct (port u) as [n|]; [|by rewrite bool_decide_eq_false_2, app_nil_r by (by intros [? ?])].
  rewrite bool_decide_eq_true_2 by done. cbn [mbind result_bind]. revert Hlen'. rewrite length_app. intros Hlen'.
  rewrite encode_port_ok by (done || lia). done.
Qed.

Lemma encode_uri_ok : encode_uri is_ipv6 u full t = Ok (uri_text u).
Proof.
  pose proof Hlen as Hlen'. unfold uri_text in Hlen'. rewrite !length_app in Hlen'.
  unfold encode_uri, value_or_empty. cbn [has_value Generic_uri_encodable get uri_type f_scheme f_transport f_path f_query full andb].
  destruct (uri_scheme _ Hu) as (Hs & Ha & Hfile). destruct (uri_host _ Hu) as ((c & Hc & _) & Hf & _).
  change (generic_has_value u kScheme) with (negb (bool_decide (scheme u = []))).
  change (generic_has_value u kHost) with (negb (bool_decide (host u = []))).
  rewrite (bool_decide_eq_false_2 (host u = [])) by (by intros E; rewrite E in Hc).
  rewrite (bool_decide_eq_false_2 (scheme u = [])) by done. cbn [negb].
  change (generic_get u kScheme) with (@Ok str (scheme u)). change (generic_get u kHost) with (@Ok str (host u)).
  cbn [mbind result_bind]. rewrite (bool_decide_eq_false_2 (scheme u = [])) by done. cbn [negb].
  rewrite encode_scheme_ok by (done || lia). cbn [mbind result_bind].
  rewrite (bool_decide_eq_false_2 (scheme u = $"file")) by done. rewrite (bool_decide_eq_false_2 (scheme u = [])) by done.
  rewrite andb_false_r, (bool_decide_eq_false_2 (Generic = File)) by done. cbn [orb]. cbv zeta.
  rewrite encode_user_data_ok, encode_transport_ok. cbn [mbind result_bind].
  unfold encode_uri_path. cbn [uri_type Generic_uri_encodable has_value get]. rewrite (bool_decide_eq_false_2 (Generic = DevApi)) by done.
  change (generic_has_value u kPath) with (negb (bool_decide (path u = []))). change (generic_get u kPath) with (@Ok str (path u)).
  assert ((if negb (bool_decide (path u = [])) then p ← Ok (path u); pctencode_path p else Ok []) = Ok (pct_keep keep_path (path u))) as ->.
  { pose proof (pct_keep_length keep_path (path u)). destruct (decide (path u = [])) as [E|E]; [by rewrite E|].
    rewrite bool_decide_eq_false_2 by done. cbn [negb mbind result_bind]. rewrite pctencode_path_keep; [done|lia]. }
  cbn [mbind result_bind]. change (filter _ (query u)) with (query_attributes u).
  rewrite filter_query by apply Hu.
  rewrite encode_attributes_ok; [|apply Hu|].
  2: { destruct (query u) as [|a l]; [done|]. rewrite query_text_cons, !length_app in *. cbn in *. lia. }
  cbn [mbind result_bind]. unfold uri_text. f_equal. rewrite <- !(assoc_L (++)). do 2 f_equal. f_equal.
  - clear Hlen'. destruct (decide (user u = [])) as [E|E]; [by rewrite E|].
    rewrite (bool_decide_eq_false_2 (user u = [])) by done. rewrite bool_decide_eq_false_2; [done|].
    unfold userinfo_text. intros E'. apply app_eq_nil in E' as [E' _]. pose proof (pct_keep_length keep_user (user u)) as Hk.
    rewrite E' in Hk. destruct (user u); [done|cbn in Hk; lia].
  - do 3 f_equal. destruct (query u) as [|a l]; [done|]. rewrite bool_decide_eq_false_2 by done. by rewrite join_attributes.
Qed.
End encode_uri.
