(* ===== verification/UriFacts.v ===== *)
(** * Connection URIs: theorems

    The parser gives back what the encoder wrote: for a [Generic_uri] that a text can stand for,
    parsing its encoding yields it again.  Then, what the parser does with texts that the
    encoder does not write. *)
From S2P Require Import Prelude UtilsString UtilsStringFacts BaseTokenizer Uri UriTokensFacts UriEncodeFacts.

Open Scope Z_scope.

(** ** Positions *)

Lemma find_at_app pre rest what :
  find_at (pre ++ rest) what (Z.of_nat (length pre)) = (λ i, Z.of_nat (length pre) + Z.of_nat i) <$> find_sub what rest.
Proof.
  unfold find_at, find_str, from. rewrite (proj2 (Z.leb_le _ _)) by (rewrite length_app; lia).
  rewrite Nat2Z.id, decide_True by (rewrite length_app; lia). rewrite drop_app_length.
  destruct (find_sub what rest) as [i|]; [|done]. cbn. f_equal. lia.
Qed.

Lemma find_sub_None_char c what s : c ∉ s → find_sub (c :: what) s = None.
Proof.
  induction s as [|d s IH]; [done|]. intros [Hd Hs]%not_elem_of_cons. cbn [find_sub prefixb].
  rewrite (bool_decide_eq_false_2 (c = d)) by done. cbn [andb]. by rewrite IH.
Qed.

(** Behind a text without a character, it is looked for in the rest. *)
Lemma find_sub_skip c what a b :
  c ∉ a → find_sub (c :: what) (a ++ b) = (λ i, (length a + i)%nat) <$> find_sub (c :: what) b.
Proof.
  induction a as [|d a IH]; intros Hc; [cbn [app]; by destruct (find_sub _ b)|].
  apply not_elem_of_cons in Hc as [Hd Hc]. cbn [app find_sub prefixb].
  rewrite (bool_decide_eq_false_2 (c = d)) by done. cbn [andb]. rewrite IH by done. by destruct (find_sub _ b).
Qed.

Lemma find_sub_head c rest : find_sub [c] (c :: rest) = Some 0%nat.
Proof. cbn [find_sub prefixb]. by rewrite (bool_decide_eq_true_2 (c = c)). Qed.

Lemma input_contains_first pre d rest e what :
  e ≠ d → input_contains (pre ++ d :: rest) (e :: what) (Z.of_nat (length pre)) = false.
Proof.
  intros Hne. unfold input_contains. rewrite find_at_app. cbn [find_sub prefixb].
  rewrite (bool_decide_eq_false_2 (e = d)) by done. cbn [andb]. apply bool_decide_eq_false_2.
  destruct (find_sub _ rest); cbn; [|done]. intros [= E]. lia.
Qed.

Lemma char_at_app pre c rest : char_at (pre ++ c :: rest) (Z.of_nat (length pre)) = Ok c.
Proof.
  unfold char_at. rewrite (proj2 (Z.ltb_lt _ _)) by (rewrite length_app; cbn; lia).
  rewrite Nat2Z.id, list_lookup_middle by done. done.
Qed.

(** Characters that do not occur in an encoding. *)
Lemma not_in_keep c keep data :
  plain keep c || bool_decide (c = "%"%char) || mem_chars HEXDIG c = false → c ∉ pct_keep keep data.
Proof.
  intros H. rewrite !orb_false_iff in H. destruct H as [[Hp Hpc] Hx]. apply bool_decide_eq_false_1 in Hpc.
  induction data as [|d data IH]; [apply not_elem_of_nil|]. rewrite pct_keep_cons, not_elem_of_app. split; [|done].
  destruct (encoding_char keep d) as [[Hd ->]|(_ & -> & ->)].
  - intros ->%list_elem_of_singleton. congruence.
  - rewrite !not_elem_of_cons.
    assert (mem_chars HEXDIG (hex_char (Z.shiftr (Z.land (uch d) 0xF0) 4)) = true ∧
            mem_chars HEXDIG (hex_char (Z.land (uch d) 0x0F)) = true) as [H1 H2] by (clear; by_bytes d).
    split_and!; [done| | |apply not_elem_of_nil]; intros ->; congruence.
Qed.

(** ** Parts *)

Section parts.
Context (input : str).

(** The tokenizer between the parts. *)
Definition ready (p : Uri_parser Generic_uri) : Prop := t_input (p_tokenizer p) = input ∧ t_allow_unknown_tokens (p_tokenizer p) = false.

(** A step that leaves the scheme and the data. *)
Definition leads_to (r : result (Uri_parser Generic_uri)) (scheme : str) (d : Generic_uri) : Prop :=
  ∃ p', r = Ok p' ∧ ready p' ∧ p_data p' = d ∧ p_scheme p' = scheme.

Lemma set_leads_to name value p :
  ready p → leads_to (set name value p) (p_scheme p) (generic_set_string name value (p_data p)).
Proof. intros Hp. by eexists. Qed.

Lemma parse_scheme_ok s rest p :
  ready p → input = s ++ $"://" ++ rest → s ≠ [] → alphanumeric s →
  ∃ p', parse_scheme (0, Z.of_nat (length s) - 1) p = Ok p' ∧ ready p' ∧ p_scheme p' = s ∧
    p_data p' = generic_set_string kScheme s (p_data p).
Proof.
  intros [Hi Hu] E Hs Ha. unfold parse_scheme.
  rewrite (scheme_process s ($"://" ++ rest)); [|done|done|done|exact (eq_trans Hi E)|done|done|done|done].
  cbn [mbind result_bind]. unfold consume_token, consume_any_token, peek_token.
  cbn [t_tokens t_pos with_tokens lookup list_lookup mbind result_bind get_type get_text]. rewrite (bool_decide_eq_true_2 (_ = _)) by done.
  cbn [mbind result_bind]. unfold tokens_available. cbn [t_tokens t_pos with_tokens length]. rewrite bool_decide_eq_false_2 by lia.
  cbv zeta. rewrite bool_decide_eq_false_2 by done. by eexists.
Qed.

(** *** User and password *)

Lemma userinfo_loop_tokens keep data tokens user password (has_password : bool) rest :
  tokens_of keep ($":") data tokens →
  userinfo_loop (tokens ++ rest) (user, password, has_password) =
  userinfo_loop rest (if has_password then (user, password ++ data, true) else (user ++ data, password, false)).
Proof.
  intros (_ & <- & Hf). revert user password. induction Hf as [|token tokens Ht Hf IH]; intros user password.
  { cbn. rewrite !app_nil_r. by destruct has_password. }
  cbn [app userinfo_loop fmap list_fmap concat]. rewrite (bool_decide_eq_false_2 (_ = $":")) by done.
  destruct has_password; rewrite IH; by rewrite <- (assoc_L (++)).
Qed.

Lemma user_chars c :
  (plain keep_user c = true → kept ($":") user_groups c = true) ∧
  (kept ($":") user_groups c = true → c ≠ "%"%char ∧ isspace c = false) ∧
  (mem_chars ($":") c = true → c ≠ "%"%char ∧ group_of user_groups c = None) ∧
  first_type ($":") user_groups keep_user c ≠ $":".
Proof. by_bytes c. Qed.

(** The name of the user and, if there is one, the password. *)
Definition with_user (u d : Generic_uri) : Generic_uri :=
  let d := generic_set_string kUser (user u) d in
  match password u with Some p => generic_set_string kPassword p d | None => d end.

Lemma user_never data : never ($":") user_groups keep_user ($":") data.
Proof. apply Forall_forall. intros c _. apply user_chars. Qed.

Lemma userinfo_tokens pre u tail p :
  ready p → input = pre ++ userinfo_text u ++ tail → stops user_groups tail → user u ≠ [] →
  ∃ tokens, process (Z.of_nat (length pre), Z.of_nat (length pre) + Z.of_nat (length (userinfo_text u)) - 1)
      (userinfo_rules (p_tokenizer p)) = Ok (with_tokens tokens [] 0 (userinfo_rules (p_tokenizer p))) ∧
    userinfo_loop tokens ([], [], false) = (user u, default [] (password u), bool_decide (is_Some (password u))).
Proof.
  intros [Hi Hu] E Ht Hne. set (t := userinfo_rules (p_tokenizer p)).
  assert (strict_rules ($":") ($":") user_groups t) as Hr by done.
  assert (t_input t = input) as Hin by done. rewrite E in Hin. unfold userinfo_text in *.
  destruct (password u) as [pw|].
  - rewrite <- !(assoc_L (++)) in Hin.
    destruct (strict_process_pair ($":") ($":") user_groups keep_user (λ c, proj1 (user_chars c)) (λ c, proj1 (proj2 (user_chars c)))
      (λ c, proj1 (proj2 (proj2 (user_chars c)))) ltac:(by apply (bool_decide_unpack _)) ($":") pre (user u) ":" pw tail t)
      as (tokens1 & pos & tokens2 & Ht1 & _ & Ht2 & Ep); try done; try apply user_never.
    eexists. split; [exact Ep|]. rewrite (userinfo_loop_tokens _ _ _ _ _ false _ Ht1). cbn [app userinfo_loop get_type].
    rewrite (bool_decide_eq_true_2 (_ = $":")) by done. rewrite <- (app_nil_r tokens2).
    by rewrite (userinfo_loop_tokens _ _ _ _ _ true _ Ht2).
  - rewrite app_nil_r in *.
    destruct (strict_process ($":") ($":") user_groups keep_user (λ c, proj1 (user_chars c)) (λ c, proj1 (proj2 (user_chars c)))
      (λ c, proj1 (proj2 (proj2 (user_chars c)))) ltac:(by apply (bool_decide_unpack _)) ($":") pre (user u) tail t)
      as (tokens & Htok & _ & Ep); try done; try apply user_never.
    eexists. split; [exact Ep|]. rewrite <- (app_nil_r tokens). by rewrite (userinfo_loop_tokens _ _ _ _ _ false _ Htok).
Qed.

Lemma parse_userinfo_ok pre u tail chunks p :
  ready p → input = pre ++ userinfo_text u ++ tail → stops user_groups tail → user u ≠ [] →
  URI_USER_INFO chunks = Some (Z.of_nat (length pre), Z.of_nat (length pre) + Z.of_nat (length (userinfo_text u)) - 1) →
  leads_to (parse_userinfo chunks p) (p_scheme p) (with_user u (p_data p)).
Proof.
  intros Hp E Ht Hne Hc. destruct (userinfo_tokens pre u tail p Hp E Ht Hne) as (tokens & Ep & El).
  unfold parse_userinfo. rewrite Hc, Ep. cbn [mbind result_bind t_tokens with_tokens]. rewrite El. cbv zeta.
  rewrite (bool_decide_eq_false_2 (user u = [])) by done. unfold with_user.
  destruct (password u) as [pw|]; cbn [default is_Some].
  - rewrite bool_decide_eq_true_2 by done. by eexists.
  - rewrite bool_decide_eq_false_2 by (by intros [? ?]). by eexists.
Qed.

(** *** Host and port *)

(** The end of the host and the port. *)
Definition ends_target (tail : str) : Prop := match tail with [] => True | c :: _ => c = "/"%char ∨ c = "?"%char end.

Lemma ends_target_stops tail : ends_target tail → stops host_groups tail.
Proof. destruct tail as [|c tail]; [done|]. by intros [-> | ->]. Qed.

Lemma ends_target_digit tail : ends_target tail → match tail with [] => True | d :: _ => mem_chars DIGIT d = false end.
Proof. destruct tail as [|c tail]; [done|]. by intros [-> | ->]. Qed.

Lemma port_tokens pre n tail t :
  0 <= n → t_input t = pre ++ ":"%char :: to_string n ++ tail → ends_target tail → t_allow_spaces t = false →
  t_allow_unknown_tokens t = false → t_simple_tokens t = $":" → t_final_group t = [] →
  t_custom_tokens t = [($"digits", Sequence DIGIT)] →
  ∃ pos pos', process (Z.of_nat (length pre), Z.of_nat (length pre) + Z.of_nat (length (to_string n))) t =
    Ok (with_tokens [{| get_type := $":"; get_text := $":"; get_pos := pos |};
                     {| get_type := $"digits"; get_text := to_string n; get_pos := pos' |}] [] 0 t).
Proof.
  intros Hn Hi Ht Hsp Hu Hs Hf Hc. destruct (port_digits n Hn) as (d & ds & E & Hall & _). rewrite E in *.
  pose proof Hall as [Hd _]%Forall_cons. destruct (isdigit_char d Hd) as (Hds & Hdc & Hdg).
  rewrite (process_loop pre (":"%char :: (d :: ds) ++ tail)) by done. rewrite Hi, length_app.
  replace (length pre + length (":"%char :: (d :: ds) ++ tail))%nat with (S (S (length pre + length (ds ++ tail))))
    by (cbn; lia). do 2 eexists. rewrite simple_step by (done || lia || (cbn; by rewrite Hs)).
  rewrite (run_loop ($"digits") DIGIT [] [] _ _ _ (d :: ds) d tail); [|done|done|done|done|done|cbn; by rewrite Hs| cbn; by rewrite Hf
    |by apply digits_group|by apply ends_target_digit|cbn [length]; lia].
  rewrite loop_end by (cbn [length]; lia). cbn [mbind result_bind]. rewrite add_unknown_strict by done. done.
Qed.

Lemma parse_port_ok pre n tail p :
  ready p → input = pre ++ ":"%char :: to_string n ++ tail → ends_target tail → port_ok n →
  leads_to (parse_port (Z.of_nat (length pre), Z.of_nat (length pre) + Z.of_nat (length (to_string n))) p) (p_scheme p)
    (generic_set_int kPort n (p_data p)).
Proof.
  intros [Hi Hu] E Ht [Hn Hmax]. unfold parse_port. set (t := set_complex_token _ _ _).
  destruct (port_tokens pre n tail t) as (pos & pos' & ->); [lia|exact (eq_trans Hi E)|done|done|done|done|done|done|].
  cbn [mbind result_bind]. unfold consume_token, consume_any_token, peek_token.
  cbn [t_tokens t_pos with_tokens lookup list_lookup mbind result_bind get_type get_text]. rewrite !(bool_decide_eq_true_2 (_ = _)) by done.
  cbn [mbind result_bind]. unfold tokens_available. cbn [t_tokens t_pos with_tokens length].
  rewrite (bool_decide_eq_true_2 (1 < 2)%nat) by lia. cbn [mbind result_bind lookup list_lookup t_tokens t_pos with_tokens get_type get_text].
  rewrite !(bool_decide_eq_true_2 (_ = _)) by done. cbn [mbind result_bind].
  assert (stoi (to_string n) = n) as ->.
  { destruct (port_digits n Hn) as (d & ds & -> & _ & Hv). unfold stoi. rewrite Hv. cbv zeta. by rewrite (proj2 (Z.ltb_ge _ n)) by lia. }
  cbv zeta. rewrite (proj2 (Z.ltb_ge n 0)), (proj2 (Z.ltb_ge _ n)) by lia. cbn [orb]. by eexists.
Qed.

Lemma host_chars c :
  (plain keep_host c = true → kept ($".:") host_groups c = true) ∧
  (kept ($".:") host_groups c = true → c ≠ "%"%char ∧ isspace c = false) ∧
  (mem_chars [] c = true → c ≠ "%"%char ∧ group_of host_groups c = None) ∧
  (c ≠ ":"%char → first_type ($".:") host_groups keep_host c ≠ $":") ∧
  (isalpha c = true → first_type ($".:") host_groups keep_host c ≠ $"digits") ∧
  (isdigit c = true → keep_host c = true ∧ c ≠ ":"%char).
Proof. by_bytes c. Qed.

Lemma host_never data : ":"%char ∉ data → never ($".:") host_groups keep_host ($":") data.
Proof. intros Hd. apply Forall_forall. intros c Hc. apply host_chars. by intros ->. Qed.

Lemma host_loop_tokens keep data tokens host offset rest :
  tokens_of keep ($":") data tokens →
  host_loop (tokens ++ rest) host offset = host_loop rest (host ++ data) (offset + Z.of_nat (length (pct_keep keep data))).
Proof.
  intros (<- & <- & Hf). revert host offset. induction Hf as [|token tokens Ht Hf IH]; intros host offset.
  { cbn. rewrite app_nil_r. f_equal. lia. }
  cbn [app host_loop fmap list_fmap concat]. rewrite (bool_decide_eq_false_2 (_ = $":")) by done. rewrite IH.
  rewrite <- (assoc_L (++)), length_app. f_equal. lia.
Qed.

Definition port_text (u : Generic_uri) : str := match port u with Some n => $":" ++ to_string n | None => [] end.

Lemma digits_keep n : 0 <= n → pct_keep keep_host (to_string n) = to_string n ∧ ":"%char ∉ to_string n.
Proof.
  intros Hn. destruct (port_digits n Hn) as (d & ds & -> & Hall & _). split.
  - apply pct_keep_all. eapply Forall_impl; [exact Hall|]. intros c Hc. by apply host_chars.
  - intros Hin. by apply (proj1 (Forall_forall _ _) Hall) in Hin.
Qed.

(** The tokens of the host, up to the end or to the colon of the port. *)
Lemma host_tokens pre u tail p :
  uri_ok u → ready p → input = pre ++ (pct_keep keep_host (host u) ++ port_text u) ++ tail → ends_target tail →
  ∃ tokens, process (Z.of_nat (length pre), Z.of_nat (length pre) + Z.of_nat (length (pct_keep keep_host (host u) ++ port_text u)) - 1)
      (host_rules (p_tokenizer p)) = Ok (with_tokens tokens [] 0 (host_rules (p_tokenizer p))) ∧
    ipv4_ahead (with_tokens tokens [] 0 (host_rules (p_tokenizer p))) = false ∧
    host_loop tokens [] (Z.of_nat (length pre)) =
      (host u, Z.of_nat (length pre) + Z.of_nat (length (pct_keep keep_host (host u)))).
Proof.
  intros Hok [Hi Hu] E Ht. destruct (uri_host _ Hok) as ((c & Hc & Halpha) & _ & Hcolon).
  set (t := host_rules (p_tokenizer p)). assert (strict_rules ($".:") [] host_groups t) as Hr by done.
  assert (t_input t = input) as Hin by done. rewrite E in Hin.
  assert (∀ tokens rest, starts_as ($".:") host_groups keep_host (host u) tokens → ipv4_ahead (with_tokens (tokens ++ rest) [] 0 t) = false) as Hv4.
  { intros [|token tokens] rest Hst; unfold starts_as in Hst; rewrite Hc in Hst; [done|]. injection Hst as Hst.
    unfold ipv4_ahead, cur_token_type_is, pos_token_type_is. cbn [t_tokens t_pos with_tokens lookup list_lookup app]. rewrite Hst.
    rewrite bool_decide_eq_false_2; [done|]. by apply host_chars. }
  pose proof (uri_port _ Hok) as Hport. unfold port_text in *. destruct (port u) as [n|].
  - destruct (digits_keep n) as [Ek Hn]; [apply Hport|]. rewrite <- Ek in E, Hin |- *. rewrite <- !(assoc_L (++)) in Hin.
    destruct (strict_process_pair ($".:") [] host_groups keep_host (λ c, proj1 (host_chars c)) (λ c, proj1 (proj2 (host_chars c)))
      (λ c, proj1 (proj2 (proj2 (host_chars c)))) ltac:(by apply (bool_decide_unpack _)) ($":") pre (host u) ":" (to_string n) tail t)
      as (tokens1 & pos & tokens2 & Ht1 & Hst & Ht2 & Ep); try done; try by apply host_never. { by apply ends_target_stops. }
    eexists. split; [exact Ep|]. split; [by apply Hv4|]. by rewrite (host_loop_tokens _ _ _ _ _ _ Ht1).
  - rewrite app_nil_r in *.
    destruct (strict_process ($".:") [] host_groups keep_host (λ c, proj1 (host_chars c)) (λ c, proj1 (proj2 (host_chars c)))
      (λ c, proj1 (proj2 (proj2 (host_chars c)))) ltac:(by apply (bool_decide_unpack _)) ($":") pre (host u) tail t)
      as (tokens & Htok & Hst & Ep); try done; try by apply host_never. { by apply ends_target_stops. } { by destruct (host u). }
    eexists. split; [exact Ep|]. rewrite <- (app_nil_r tokens). split; [by apply Hv4|]. by rewrite (host_loop_tokens _ _ _ _ _ _ Htok).
Qed.

Definition with_target (u d : Generic_uri) : Generic_uri :=
  let d := generic_set_string kHost (host u) d in
  match port u with Some n => generic_set_int kPort n d | None => d end.

(** The host starts with a letter, so does its encoding. *)
Lemma host_first u c : uri_ok u → head (host u) = Some c → isalpha c = true → ∃ rest, pct_keep keep_host (host u) = c :: rest.
Proof.
  intros _ Hc Ha. destruct (host u) as [|d l]; [done|]. injection Hc as ->. rewrite pct_keep_cons.
  assert (isalpha c = true → keep_host c = true) as Hk by (clear; by_bytes c). rewrite Hk by done. by eexists.
Qed.

Lemma alpha_char c : isalpha c = true → c ∉ $"[./(\".
Proof. by_bytes c. Qed.

Lemma parse_host_ok pre u tail p :
  uri_ok u → ready p → input = pre ++ (pct_keep keep_host (host u) ++ port_text u) ++ tail → ends_target tail →
  leads_to (parse_host input (Z.of_nat (length pre), Z.of_nat (length pre) + Z.of_nat (length (pct_keep keep_host (host u) ++ port_text u)) - 1) p)
    (p_scheme p) (with_target u (p_data p)).
Proof.
  intros Hok Hp E Ht. destruct (uri_host _ Hok) as ((c & Hc & Halpha) & _ & _).
  destruct (host_tokens pre u tail p Hok Hp E Ht) as (tokens & Ep & Hv4 & El).
  destruct (host_first u c Hok Hc Halpha) as [rest Er]. unfold parse_host. cbn [fst snd].
  assert (char_at input (Z.of_nat (length pre)) = Ok c) as ->.
  { rewrite E, Er. cbn [app]. apply char_at_app. }
  cbn [mbind result_bind]. rewrite (bool_decide_eq_false_2 (c = "["%char)) by (pose proof (alpha_char c Halpha); set_solver).
  rewrite Ep. cbn [mbind result_bind]. unfold parse_ipv4. rewrite Hv4. cbn [mbind result_bind].
  rewrite (bool_decide_eq_true_2 ([] = [])) by done. cbn [t_pos t_tokens with_tokens drop]. rewrite drop_0, El.
  unfold with_target. cbn [set set_string Generic_uri_parsable mbind result_bind].
  pose proof (uri_port _ Hok) as Hport. unfold port_text in *. destruct (port u) as [n|].
  - rewrite (proj2 (Z.leb_le _ _)) by (rewrite !length_app; cbn; lia).
    replace (Z.of_nat (length pre) + Z.of_nat (length (pct_keep keep_host (host u) ++ $":" ++ to_string n)) - 1)
      with (Z.of_nat (length (pre ++ pct_keep keep_host (host u))) + Z.of_nat (length (to_string n)))
      by (rewrite !length_app; cbn; lia).
    replace (Z.of_nat (length pre) + Z.of_nat (length (pct_keep keep_host (host u))))
      with (Z.of_nat (length (pre ++ pct_keep keep_host (host u)))) by (rewrite length_app; lia).
    match goal with |- leads_to (parse_port _ ?q) _ _ => apply (parse_port_ok (pre ++ pct_keep keep_host (host u)) n tail q) end;
      [done| |done|done].
    rewrite E, <- !(assoc_L (++)). done.
  - rewrite (proj2 (Z.leb_gt _ _)) by (rewrite !length_app; cbn; lia). by eexists.
Qed.

Lemma parse_target_ok pre u tail chunks p :
  uri_ok u → ready p → input = pre ++ (pct_keep keep_host (host u) ++ port_text u) ++ tail → ends_target tail →
  URI_TARGET chunks = Some (Z.of_nat (length pre),
    Z.of_nat (length pre) + Z.of_nat (length (pct_keep keep_host (host u) ++ port_text u)) - 1) →
  leads_to (parse_target input chunks p) (p_scheme p) (with_target u (p_data p)).
Proof.
  intros Hok Hp E Ht Hc. destruct (uri_host _ Hok) as ((c & Hh & Halpha) & _ & _).
  destruct (host_first u c Hok Hh Halpha) as [rest Er]. unfold parse_target. rewrite Hc.
  assert (∀ e what, e ∈ $"./(\" → input_contains input (e :: what) (Z.of_nat (length pre)) = false) as Hno.
  { intros e what He. rewrite E, Er. cbn [app]. apply input_contains_first. intros ->.
    pose proof (alpha_char c Halpha). set_solver. }
  assert (∀ e, e ∈ [$"."; $"/"; $"(."; $"(/"; $"\\.\"; $"(\\.\"] → input_contains input e (Z.of_nat (length pre)) = false) as Hno'.
  { intros e He. rewrite !elem_of_cons, elem_of_nil in He. destruct_or! He; subst; try done; apply Hno; by repeat constructor. }
  rewrite !Hno' by (by repeat constructor). cbn [andb orb]. by apply (parse_host_ok pre u tail).
Qed.

(** *** The path *)

Lemma parse_path_ok pre u tail chunks p :
  ready p → input = pre ++ pct_keep keep_path (path u) ++ tail → p_scheme p ≠ $"file" → Z.of_nat (length input) < 2 ^ 64 →
  URI_PATH chunks = Some (Z.of_nat (length pre), Z.of_nat (length pre) + Z.of_nat (length (pct_keep keep_path (path u))) - 1) →
  leads_to (parse_path Generic input chunks p) (p_scheme p) (generic_set_string kPath (path u) (p_data p)).
Proof.
  intros Hp E Hs Hlen Hc. unfold parse_path. rewrite Hc. cbn [fst snd].
  rewrite (bool_decide_eq_true_2 (Generic = Generic)), (bool_decide_eq_false_2 (p_scheme p = _)) by done. cbn [andb negb]. cbv zeta.
  assert (substr input (Z.to_nat (Z.of_nat (length pre)))
    (Z.to_nat (Z.of_nat (length pre) + Z.of_nat (length (pct_keep keep_path (path u))) - 1 - Z.of_nat (length pre) + 1)) =
    pct_keep keep_path (path u)) as ->.
  { unfold substr. rewrite Nat2Z.id, E, drop_app_length.
    replace (Z.to_nat _) with (length (pct_keep keep_path (path u))) by lia. by rewrite take_app_length. }
  rewrite pctdecode_keep.
  - by apply set_leads_to.
  - intros c. clear. by_bytes c.
  - rewrite E, !length_app in Hlen. lia.
Qed.

(** *** Attributes *)

Definition encoded_groups : list (str * str) := [($"unreserved", UNRESERVED); ($"delims", encoded_delims ($"&"))].

Lemma attribute_chars c :
  (plain keep_attribute c = true → kept [] attribute_groups c = true) ∧
  (kept [] attribute_groups c = true → c ≠ "%"%char ∧ isspace c = false) ∧
  (mem_chars ($"=&") c = true → c ≠ "%"%char ∧ group_of attribute_groups c = None) ∧
  first_type [] attribute_groups keep_attribute c ≠ $"pause".
Proof. by_bytes c. Qed.

Lemma value_chars c :
  (plain keep_value c = true → kept [] encoded_groups c = true) ∧
  (kept [] encoded_groups c = true → c ≠ "%"%char ∧ isspace c = false) ∧
  (mem_chars ($"&") c = true → c ≠ "%"%char ∧ group_of encoded_groups c = None) ∧
  first_type [] encoded_groups keep_value c ≠ $"end".
Proof. by_bytes c. Qed.

(** A final character takes the rest of the input. *)
Lemma final_step simple final groups fuel i last c rest t :
  strict_rules simple final groups t → mem_chars final c = true → mem_chars simple c = false → isspace c = false →
  c ≠ "%"%char → group_of groups c = None → i <= last →
  get_tokens_loop (S fuel) i last (c :: rest) t =
  Ok (push [{| get_type := t_final_type t; get_text := c :: rest; get_pos := as_int i |}] t).
Proof.
  intros (Hs & Hu & Hf & Hsi & Hc) Hfi Hsim Hsp Hpct Hg Hi. cbn [get_tokens_loop].
  rewrite (proj2 (Z.ltb_ge last i)), Hsp, Hsi, Hsim, Hc by lia. cbn [andb]. unfold custom_rules.
  cbn [app match_rules match_rule pct_encoded]. rewrite take_vector_not_pct, match_groups, Hg by done. cbn [fmap option_fmap option_map].
  by rewrite Hf, Hfi, add_token_push.
Qed.

Lemma attribute_loop_tokens keep data tokens attribute rest :
  tokens_of keep ($"pause") data tokens → attribute_loop (tokens ++ rest) attribute = attribute_loop rest (attribute ++ data).
Proof.
  intros (_ & <- & Hf). revert attribute. induction Hf as [|token tokens Ht Hf IH]; intros attribute; [cbn; by rewrite app_nil_r|].
  cbn [app attribute_loop fmap list_fmap concat]. rewrite (bool_decide_eq_false_2 (_ = $"pause")) by done.
  by rewrite IH, <- (assoc_L (++)).
Qed.

Lemma value_loop_tokens keep data tokens value offset rest :
  tokens_of keep ($"end") data tokens →
  value_loop (tokens ++ rest) value offset = value_loop rest (value ++ data) (offset + Z.of_nat (length (pct_keep keep data))).
Proof.
  intros (<- & <- & Hf). revert value offset. induction Hf as [|token tokens Ht Hf IH]; intros value offset.
  { cbn. rewrite app_nil_r. f_equal. lia. }
  cbn [app value_loop fmap list_fmap concat]. rewrite (bool_decide_eq_false_2 (_ = $"end")) by done. rewrite IH.
  rewrite <- (assoc_L (++)), length_app. f_equal. lia.
Qed.

Lemma attribute_tokens pre name rest last t :
  t_input t = input → t_allow_unknown_tokens t = false → input = pre ++ name ++ "="%char :: rest →
  Forall (λ c, keep_attribute c = true) name → Z.of_nat (length pre) + Z.of_nat (length name) <= last →
  ∃ tokens, process (Z.of_nat (length pre), last) (attribute_rules t) = Ok (with_tokens tokens [] 0 (attribute_rules t)) ∧
    attribute_loop tokens [] = (name, true).
Proof.
  intros Hi Hu E Hk Hl. set (t' := attribute_rules t). assert (strict_rules [] ($"=&") attribute_groups t') as Hr by done.
  assert (t_input t' = pre ++ pct_keep keep_attribute name ++ "="%char :: rest) as Hin
    by (rewrite pct_keep_all by done; by rewrite <- E).
  rewrite (process_loop pre (pct_keep keep_attribute name ++ "="%char :: rest)) by (done || by destruct (pct_keep keep_attribute name)).
  destruct (strict_loop [] ($"=&") attribute_groups keep_attribute (λ c, proj1 (attribute_chars c)) (λ c, proj1 (proj2 (attribute_chars c)))
    (λ c, proj1 (proj2 (proj2 (attribute_chars c)))) ltac:(by apply (bool_decide_unpack _)) ($"pause")
    (length (t_input t')) (Z.of_nat (length pre)) last name ("="%char :: rest) (with_tokens [] [] 0 t'))
    as (tokens & fuel & Htok & _ & Hf & Eq); [done|done| | | |].
  { apply Forall_forall. intros c _. apply attribute_chars. }
  { rewrite Hin, !length_app. lia. }
  { rewrite pct_keep_all by done. lia. }
  rewrite Hin, !length_app in Hf. cbn [length] in Hf. destruct fuel as [|fuel]; [lia|].
  rewrite Eq, (final_step [] ($"=&") attribute_groups); [|done|done|done|done|done|done|rewrite pct_keep_all by done; lia].
  cbn [mbind result_bind]. rewrite add_unknown_strict, push_push by done. eexists. split; [done|].
  cbn [t_tokens with_tokens app]. by rewrite (attribute_loop_tokens keep_attribute name).
Qed.

(** The end of a value: the end of the input or the next attribute. *)
Definition ends_value (tail : str) : Prop := match tail with [] => True | c :: _ => c = "&"%char end.

Lemma value_tokens pre v tail t :
  strict_rules [] ($"&") encoded_groups t → t_final_type t = $"end" → t_input t = pre ++ pct_keep keep_value v ++ tail → ends_value tail →
  ∃ tokens, process (Z.of_nat (length pre), Z.of_nat (length (t_input t)) - 1) t = Ok (with_tokens tokens [] 0 t) ∧
    value_loop tokens [] (Z.of_nat (length pre)) = (v, Z.of_nat (length pre) + Z.of_nat (length (pct_keep keep_value v))).
Proof.
  intros Hr Hty Hin Ht. pose proof Hr as (_ & Hu & _).
  destruct (decide (pct_keep keep_value v ++ tail = [])) as [E|E].
  { apply app_eq_nil in E as [E ->]. pose proof (pct_keep_length keep_value v) as Hk. rewrite E in Hk, Hin |- *.
    rewrite !app_nil_r in Hin. exists []. unfold process, get_tokens. cbn [fst snd t_input with_tokens]. rewrite Hin, Z.ltb_irrefl.
    cbn [mbind result_bind]. rewrite add_unknown_strict by done. destruct v; [|cbn in Hk; lia]. cbn. split; [done|]. f_equal. lia. }
  rewrite (process_loop pre (pct_keep keep_value v ++ tail)) by done.
  destruct (strict_loop [] ($"&") encoded_groups keep_value (λ c, proj1 (value_chars c)) (λ c, proj1 (proj2 (value_chars c)))
    (λ c, proj1 (proj2 (proj2 (value_chars c)))) ltac:(by apply (bool_decide_unpack _)) ($"end")
    (length (t_input t)) (Z.of_nat (length pre)) (Z.of_nat (length (t_input t)) - 1) v tail (with_tokens [] [] 0 t))
    as (tokens & fuel & Htok & _ & Hf & ->); [done| | | | |].
  { destruct tail; [done|]. by rewrite Ht. }
  { apply Forall_forall. intros c _. apply value_chars. }
  { rewrite Hin, !length_app. lia. }
  { rewrite Hin, !length_app. lia. }
  rewrite Hin, !length_app in Hf. destruct tail as [|c tail].
  - rewrite Hin, app_nil_r, length_app, loop_end by lia. cbn [mbind result_bind]. rewrite add_unknown_strict by done.
    exists tokens. split; [done|]. rewrite <- (app_nil_r tokens). by rewrite (value_loop_tokens keep_value v).
  - cbn in Ht. subst c. cbn [length] in Hf. destruct fuel as [|fuel]; [lia|].
    rewrite (final_step [] ($"&") encoded_groups); [|done|done|done|done|done|done|rewrite Hin, !length_app; cbn [length]; lia].
    cbn [mbind result_bind]. rewrite add_unknown_strict, push_push by done. eexists. split; [done|].
    cbn [t_tokens with_tokens app]. rewrite (value_loop_tokens keep_value v) by done. cbn [value_loop get_type push t_final_type with_tokens].
    by rewrite Hty, bool_decide_eq_true_2.
Qed.

(** The first character of a value is no bracket. *)
Lemma value_first pre v tail :
  input = pre ++ pct_keep keep_value v ++ tail → ends_value tail → head v ≠ Some "("%char →
  ∃ c, char_at input (Z.of_nat (length pre)) = Ok c ∧ c ≠ "("%char ∧ c ≠ "["%char.
Proof.
  intros -> Ht Hv. destruct v as [|c v]; [destruct tail as [|c tail]|].
  - exists "000"%char. rewrite !app_nil_r. unfold char_at. by rewrite Z.ltb_irrefl, Z.eqb_refl.
  - exists c. cbn [pct_keep fmap list_fmap concat app]. rewrite char_at_app. cbn in Ht. by subst c.
  - rewrite pct_keep_cons. assert (plain keep_value c = true → c ≠ "["%char) as Hb by (clear; by_bytes c).
    destruct (encoding_char keep_value c) as [[Hp ->]|(_ & -> & ->)]; cbn [app]; rewrite char_at_app; eexists; (split; [done|]); [|done].
    split; [by intros ->|auto].
Qed.

Lemma parse_value_ok pre v tail p :
  ready p → t_allow_spaces (p_tokenizer p) = false → input = pre ++ pct_keep keep_value v ++ tail → ends_value tail → head v ≠ Some "("%char →
  ∃ t, parse_value input (Z.of_nat (length pre), Z.of_nat (length input) - 1) (Z.of_nat (length pre)) ($"&") [] p =
    Ok (v, Z.of_nat (length pre) + Z.of_nat (length (pct_keep keep_value v)), with_tokenizer t p) ∧ ready (with_tokenizer t p).
Proof.
  intros [Hi Hu] Hsp E Ht Hv. destruct (value_first pre v tail E Ht Hv) as (c & Hc & Hpar & _).
  assert (∃ t, parse_encoded_value (Z.of_nat (length pre), Z.of_nat (length input) - 1) (Z.of_nat (length pre)) ($"&") [] p =
    Ok (v, Z.of_nat (length pre) + Z.of_nat (length (pct_keep keep_value v)), with_tokenizer t p) ∧ ready (with_tokenizer t p)) as Hpe.
  { unfold parse_encoded_value. rewrite app_nil_r, (bool_decide_eq_false_2 (_ = [])) by done. cbv zeta.
    set (t := set_final_token_group _ _ _). assert (t_input t = input) as Hin by exact Hi.
    destruct (value_tokens pre v tail t) as (tokens & Ep & El); [done|done|congruence|done|].
    rewrite Hin in Ep. rewrite Ep. cbn [mbind result_bind t_tokens with_tokens]. rewrite El. by eexists. }
  unfold parse_value. cbn [fst snd]. rewrite Hc. cbn [mbind result_bind]. rewrite (bool_decide_eq_false_2 (c = _)) by done.
  by destruct (find_at input _ _).
Qed.

Definition with_attribute (d : Generic_uri) (a : str * option str) : Generic_uri :=
  {| scheme := scheme d; user := user d; password := password d; host := host d; port := port d; path := path d;
     query := query d ++ [a] |}.

Lemma set_attribute name value d :
  name ∉ [kScheme; kUser; kPassword; kHost; kPath; kSocket; kPipe] →
  generic_set_string name value d = with_attribute d (name, Some value).
Proof.
  rewrite !not_elem_of_cons. intros (? & ? & ? & ? & ? & _). unfold generic_set_string.
  by rewrite !bool_decide_eq_false_2 by done.
Qed.

Lemma parse_attribute_ok pre sep a tail p :
  uri_attribute_ok a → ready p → input = pre ++ sep :: attribute_text a ++ tail → ends_value tail →
  ∃ p', parse_attribute input (Z.of_nat (length input) - 1) (Z.of_nat (length pre)) p =
      Ok (Z.of_nat (length (pre ++ sep :: attribute_text a)), p') ∧
    ready p' ∧ p_data p' = with_attribute (p_data p) a ∧ p_scheme p' = p_scheme p.
Proof.
  intros [Hn Hk (v & Ev & _ & Hv)] [Hi Hu] E Ht. destruct a as [name value]. cbn [fst snd] in *. subst value.
  unfold attribute_text in *. cbn [fst snd default id] in *. set (ev := pct_keep keep_value v) in *.
  assert (input = (pre ++ [sep]) ++ name ++ "="%char :: ev ++ tail) as E1 by (rewrite E, <- !(assoc_L (++)); done).
  assert (input = (pre ++ [sep] ++ name ++ $"=") ++ ev ++ tail) as E2 by (rewrite E, <- !(assoc_L (++)); done).
  unfold parse_attribute. cbv zeta.
  replace (Z.of_nat (length pre) + 1) with (Z.of_nat (length (pre ++ [sep]))) by (rewrite length_app; cbn; lia).
  destruct (attribute_tokens (pre ++ [sep]) name (ev ++ tail) (Z.of_nat (length input) - 1) (p_tokenizer p) Hi Hu E1 Hk)
    as (tokens & -> & El); [rewrite E1, !length_app; cbn [length]; lia|].
  cbn [mbind result_bind t_tokens with_tokens]. rewrite El.
  replace (Z.of_nat (length (pre ++ [sep])) + Z.of_nat (length name) + 1) with (Z.of_nat (length (pre ++ [sep] ++ name ++ $"=")))
    by (rewrite !length_app; cbn; lia).
  destruct (value_first _ _ _ E2 Ht Hv) as (c & Hc & _ & Hb).
  assert (is_value_array input (Z.of_nat (length (pre ++ [sep] ++ name ++ $"=")), Z.of_nat (length input) - 1) = Ok false) as ->.
  { unfold is_value_array. cbn [fst snd]. rewrite Hc. cbn [mbind result_bind]. rewrite (bool_decide_eq_false_2 (c = _)) by done.
    by destruct (find_at input _ _). }
  cbn [mbind result_bind]. set (q := with_tokenizer _ p).
  destruct (parse_value_ok _ v tail q (conj Hi Hu) eq_refl E2 Ht Hv) as (t & -> & Hr). cbn [mbind result_bind].
  cbn [set set_string Generic_uri_parsable mbind result_bind]. eexists. split; [do 2 f_equal|].
  - fold ev. rewrite !length_app. cbn. rewrite !length_app. cbn. lia.
  - split; [done|]. split; [|done]. cbn [p_data]. by rewrite set_attribute.
Qed.

(** The rest of the attributes. *)
Lemma parse_query_loop_ok l pre fuel p :
  Forall uri_attribute_ok l → ready p → input = pre ++ query_text l → (length l ≤ fuel)%nat →
  leads_to (parse_query_loop input fuel (Z.of_nat (length input) - 1) (Z.of_nat (length pre)) p) (p_scheme p)
    (foldl with_attribute (p_data p) l).
Proof.
  intros Hl. revert pre fuel p. induction Hl as [|a l Ha Hl IH]; intros pre fuel p Hp E Hf.
  { cbn in E. rewrite app_nil_r in E. rewrite <- E. destruct fuel; cbn [parse_query_loop]; rewrite (proj2 (Z.ltb_ge _ _)) by lia; by eexists. }
  destruct fuel as [|fuel]; [cbn in Hf; lia|]. cbn [parse_query_loop].
  rewrite query_text_cons in E. assert (0 < length (attribute_text a))%nat by (unfold attribute_text; rewrite !length_app; cbn; lia).
  rewrite (proj2 (Z.ltb_lt _ _)) by (rewrite E, !length_app; cbn; lia).
  destruct (parse_attribute_ok pre "&" a (query_text l) p Ha Hp E) as (p' & -> & Hp' & Hd & Hs); [by destruct l|].
  cbn [mbind result_bind foldl]. rewrite <- Hd, <- Hs. apply IH; [done| |cbn in Hf; lia].
  rewrite E, <- !(assoc_L (++)). done.
Qed.

Lemma parse_query_ok pre a l chunks p :
  Forall uri_attribute_ok (a :: l) → ready p → input = pre ++ $"?" ++ attribute_text a ++ query_text l →
  URI_QUERY chunks = Some (Z.of_nat (length pre), Z.of_nat (length input) - 1) →
  leads_to (parse_query input chunks p) (p_scheme p) (foldl with_attribute (p_data p) (a :: l)).
Proof.
  intros [Ha Hl]%Forall_cons Hp E Hc. unfold parse_query. rewrite Hc. cbn [parse_query_loop].
  assert (0 < length (attribute_text a))%nat by (unfold attribute_text; rewrite !length_app; cbn; lia).
  rewrite (proj2 (Z.ltb_lt _ _)) by (rewrite E, !length_app; cbn; lia).
  destruct (parse_attribute_ok pre "?" a (query_text l) p Ha Hp E) as (p' & -> & Hp' & Hd & Hs); [by destruct l|].
  cbn [mbind result_bind foldl]. rewrite <- Hd, <- Hs. apply parse_query_loop_ok; [done|done| |].
  - rewrite E, <- !(assoc_L (++)). done.
  - assert (length l ≤ length (query_text l))%nat; [|rewrite E, !length_app; lia].
    clear. induction l as [|b l IH]; [done|]. rewrite query_text_cons, !length_app. cbn. lia.
Qed.
End parts.

(** ** The whole text *)

Section whole.
Context (u : Generic_uri) (Hu : uri_ok u) (Hlen : Z.of_nat (length (uri_text u)) < 2 ^ 64).

Definition user_part : str := if bool_decide (user u = []) then [] else userinfo_text u ++ $"@".
Definition target_part : str := pct_keep keep_host (host u) ++ port_text u.
Definition path_part : str := pct_keep keep_path (path u).
Definition query_part : str :=
  match query u with [] => [] | attribute :: rest => $"?" ++ attribute_text attribute ++ query_text rest end.

Lemma uri_parts : uri_text u = (scheme u ++ $"://") ++ user_part ++ target_part ++ path_part ++ query_part.
Proof. unfold uri_text, target_part. by rewrite <- !(assoc_L (++)). Qed.

(** Where delimiters do not occur. *)
Lemma userinfo_no_delimiter c : c ∈ $"/@?" → c ∉ userinfo_text u.
Proof.
  intros Hc. unfold userinfo_text. rewrite not_elem_of_app.
  assert (∀ data, c ∉ pct_keep keep_user data) as Hk.
  { intros data. apply not_in_keep. revert Hc. clear. by_bytes c. }
  split; [apply Hk|]. destruct (password u); [|apply not_elem_of_nil]. rewrite not_elem_of_app. split; [|apply Hk].
  revert Hc. clear. by_bytes c.
Qed.

Lemma target_no_delimiter c : c ∈ $"/@?" → c ∉ target_part.
Proof.
  intros Hc. unfold target_part. rewrite not_elem_of_app. split.
  { apply not_in_keep. revert Hc. clear. by_bytes c. }
  unfold port_text. pose proof (uri_port _ Hu) as Hp. destruct (port u) as [n|]; [|apply not_elem_of_nil]. rewrite not_elem_of_app.
  split; [revert Hc; clear; by_bytes c|]. destruct (port_digits n) as (d & ds & -> & Hall & _); [apply Hp|].
  intros Hin. apply (proj1 (Forall_forall _ _) Hall) in Hin. revert Hin Hc. clear. by_bytes c.
Qed.

Lemma path_no_delimiter : "?"%char ∉ path_part.
Proof. apply not_in_keep. done. Qed.

Lemma query_no_delimiter c : c ∈ $"/@" → c ∉ query_part.
Proof.
  intros Hc. unfold query_part. pose proof (uri_query _ Hu) as Hq. destruct (query u) as [|a l]; [apply not_elem_of_nil|].
  assert (∀ b, uri_attribute_ok b → c ∉ attribute_text b) as Hb.
  { intros b [_ Hk _]. unfold attribute_text. rewrite !not_elem_of_app. split_and!.
    - intros Hin. apply (proj1 (Forall_forall _ _) Hk) in Hin. revert Hin Hc. clear. by_bytes c.
    - revert Hc. clear. by_bytes c.
    - apply not_in_keep. revert Hc. clear. by_bytes c. }
  apply Forall_cons in Hq as [Ha Hl]. rewrite !not_elem_of_app. split_and!; [revert Hc; clear; by_bytes c|by apply Hb|].
  induction Hl as [|b l Hbo _ IH]; [apply not_elem_of_nil|]. rewrite query_text_cons, !not_elem_of_app.
  split_and!; [revert Hc; clear; by_bytes c|by apply Hb|done].
Qed.

Lemma path_part_cases : (path u = [] ∧ path_part = []) ∨ (path u ≠ [] ∧ ∃ d rest, path_part = "/"%char :: d :: rest).
Proof.
  unfold path_part. destruct (uri_path _ Hu) as [-> | (c & rest & ->)]; [by left|right]. split; [done|].
  rewrite !pct_keep_cons. change (keep_path "/") with true. cbn [app].
  destruct (encoding_char keep_path c) as [[_ ->]|(_ & -> & ->)]; by do 2 eexists.
Qed.

Lemma target_first : ∃ c rest, target_part = c :: rest ∧ isalpha c = true.
Proof.
  destruct (uri_host _ Hu) as ((c & Hh & Halpha) & _ & _). destruct (host_first u c Hu Hh Halpha) as [rest Er].
  unfold target_part. rewrite Er. by do 2 eexists.
Qed.

(** The ranges of the parts. *)
Definition first_char : Z := Z.of_nat (length ((scheme u ++ $"://") ++ user_part)).

Definition uri_chunks : Chunks :=
  {| URI_SCHEME := Some (0, Z.of_nat (length (scheme u)) - 1);
     URI_USER_INFO := if bool_decide (user u = []) then None
                      else Some (Z.of_nat (length (scheme u ++ $"://")),
                                 Z.of_nat (length (scheme u ++ $"://")) + Z.of_nat (length (userinfo_text u)) - 1);
     URI_TARGET := Some (first_char, first_char + Z.of_nat (length target_part) - 1);
     URI_PATH := if bool_decide (path u = []) then None
                 else Some (first_char + Z.of_nat (length target_part),
                            first_char + Z.of_nat (length target_part) + Z.of_nat (length path_part) - 1);
     URI_QUERY := if bool_decide (query u = []) then None
                  else Some (first_char + Z.of_nat (length target_part) + Z.of_nat (length path_part),
                             Z.of_nat (length (uri_text u)) - 1) |}.

Lemma preprocess_scheme_ok p :
  ready (uri_text u) p →
  ∃ p', preprocess_scheme (uri_text u) p =
      Ok (Some (0, Z.of_nat (length (scheme u)) - 1), None, Z.of_nat (length (scheme u ++ $"://")), p') ∧
    ready (uri_text u) p' ∧ p_data p' = generic_set_string kScheme (scheme u) (p_data p) ∧ p_scheme p' = scheme u.
Proof.
  intros Hp. destruct (uri_scheme _ Hu) as (Hs & Ha & _). unfold preprocess_scheme.
  assert (uri_text u = scheme u ++ $"://" ++ (user_part ++ target_part ++ path_part ++ query_part)) as E
    by (rewrite uri_parts, <- (assoc_L (++)); done).
  assert (":"%char ∉ scheme u) as Hc.
  { intros Hin. apply (proj1 (Forall_forall _ _) Ha) in Hin. done. }
  assert (find_at (uri_text u) ($":/") 0 = Some (Z.of_nat (length (scheme u)))) as ->.
  { rewrite E. etrans; [apply (find_at_app [])|].
    change ($":/") with (":"%char :: $"/"). rewrite find_sub_skip by done.
    assert (∀ x, find_sub (":"%char :: $"/") ($"://" ++ x) = Some 0%nat) as -> by done. cbn. f_equal. lia. }
  assert (0 < length (scheme u))%nat by (destruct (scheme u); [done|cbn; lia]).
  rewrite (proj2 (Z.eqb_neq _ 0)) by lia. cbv zeta.
  destruct (parse_scheme_ok (uri_text u) (scheme u) _ p Hp E Hs Ha) as (p1 & -> & Hp1 & Hs1 & Hd1). cbn [mbind result_bind].
  rewrite Hs1, (bool_decide_eq_false_2 (scheme u = [])) by done. cbn [set set_string Generic_uri_parsable mbind result_bind].
  rewrite (proj2 (Z.leb_le _ _)) by (rewrite E, !length_app; cbn; lia).
  replace (Z.of_nat (length (scheme u)) + 2) with (Z.of_nat (length (scheme u ++ $":/"))) by (rewrite length_app; cbn; lia).
  assert (char_at (uri_text u) (Z.of_nat (length (scheme u ++ $":/"))) = Ok "/"%char) as ->.
  { assert (uri_text u = (scheme u ++ $":/") ++ "/"%char :: user_part ++ target_part ++ path_part ++ query_part) as ->
      by (rewrite E, <- (assoc_L (++)); done). apply char_at_app. }
  cbn [mbind result_bind]. rewrite (bool_decide_eq_true_2 ("/"%char = _)) by done.
  eexists. split; [do 3 f_equal; rewrite length_app; cbn; lia|]. split; [done|]. cbn [p_data p_scheme]. rewrite Hd1, Hs1. done.
Qed.

(** The first slash behind the scheme starts the path. *)
Lemma slash_position pre mid :
  uri_text u = pre ++ mid ++ path_part ++ query_part → "/"%char ∉ mid →
  find_at (uri_text u) ($"/") (Z.of_nat (length pre)) =
  if bool_decide (path u = []) then None else Some (Z.of_nat (length pre) + Z.of_nat (length mid)).
Proof.
  intros E Hm. rewrite E. change ($"/") with ["/"%char]. rewrite find_at_app, find_sub_skip by done.
  destruct path_part_cases as [(-> & ->)|(Hne & d & rest & ->)].
  - cbn [app]. rewrite find_sub_None_char by (apply query_no_delimiter; by apply (bool_decide_unpack _)). done.
  - rewrite bool_decide_eq_false_2 by done. cbn [app]. rewrite find_sub_head. cbn. f_equal. lia.
Qed.

Lemma preprocess_user :
  let first := Z.of_nat (length (scheme u ++ $"://")) in
  (match find_at (uri_text u) ($"@") first with
   | Some position =>
       if position <? default (2 ^ 64 - 1) (find_at (uri_text u) ($"/") first) then
         if first <? position then Ok (Some (first, position - 1), position + 1)
         else Throw (invalid_argument "Missing user information")
       else Ok (None, first)
   | None => Ok (None, first)
   end) = (Ok (URI_USER_INFO uri_chunks, first_char) : result (option (Z * Z) * Z)).
Proof.
  cbv zeta. cbn [URI_USER_INFO uri_chunks].
  assert ("/"%char ∉ user_part ++ target_part) as Hslash.
  { rewrite not_elem_of_app. split; [|apply target_no_delimiter; by apply (bool_decide_unpack _)]. unfold user_part.
    case_bool_decide; [apply not_elem_of_nil|]. rewrite not_elem_of_app. split; [apply userinfo_no_delimiter; by apply (bool_decide_unpack _)|by apply (bool_decide_unpack _)]. }
  rewrite (slash_position (scheme u ++ $"://") (user_part ++ target_part));
    [|rewrite uri_parts, <- !(assoc_L (++)); done|done].
  rewrite uri_parts in Hlen. rewrite !length_app in Hlen.
  assert ("@"%char ∉ target_part) as Ht by (apply target_no_delimiter; by apply (bool_decide_unpack _)).
  assert ("@"%char ∉ query_part) as Hq by (apply query_no_delimiter; by apply (bool_decide_unpack _)).
  rewrite uri_parts at 1. change ($"@") with ["@"%char]. rewrite find_at_app. unfold first_char. unfold user_part in *.
  destruct (decide (user u = [])) as [Hn|Hn].
  - rewrite (bool_decide_eq_true_2 (user u = [])) in * by done. cbn [app]. rewrite app_nil_r. rewrite find_sub_skip by done.
    destruct path_part_cases as [(Ep & ->)|(Hne & d & rest & Ep)].
    + cbn [app]. by rewrite find_sub_None_char.
    + rewrite (bool_decide_eq_false_2 (path u = [])) by done. destruct (find_sub _ (path_part ++ query_part)); [|done].
      cbn [fmap option_fmap option_map default id]. by rewrite (proj2 (Z.ltb_ge _ _)) by lia.
  - rewrite (bool_decide_eq_false_2 (user u = [])) in * by done. rewrite <- (assoc_L (++)), find_sub_skip
      by (apply userinfo_no_delimiter; by apply (bool_decide_unpack _)).
    change (($"@") ++ ?x) with ("@"%char :: x). cbn [app]. rewrite find_sub_head. cbn [fmap option_fmap option_map].
    assert (0 < length (userinfo_text u))%nat as Hpos.
    { unfold userinfo_text. rewrite length_app. pose proof (pct_keep_length keep_user (user u)). destruct (user u); [done|cbn in *; lia]. }
    rewrite !length_app in *. change (length ($"@")) with 1%nat in *.
    rewrite (proj2 (Z.ltb_lt _ (default _ _))).
    + rewrite (proj2 (Z.ltb_lt _ _)) by lia. do 3 f_equal; [f_equal|]; lia.
    + case_bool_decide; cbn [default]; unfold id; lia.
Qed.

(** The query, and the last character in front of it. *)
Lemma preprocess_query :
  (match find_at (uri_text u) ($"?") first_char with
   | Some position => (Some (position, Z.of_nat (length (uri_text u)) - 1), u64 (position - 1))
   | None => (None, Z.of_nat (length (uri_text u)) - 1)
   end) = (URI_QUERY uri_chunks, first_char + Z.of_nat (length target_part) + Z.of_nat (length path_part) - 1).
Proof.
  destruct target_first as (c & rest & Et & _). unfold first_char.
  assert (uri_text u = ((scheme u ++ $"://") ++ user_part) ++ (target_part ++ path_part) ++ query_part) as E
    by (rewrite uri_parts, <- !(assoc_L (++)); done).
  rewrite E in Hlen. rewrite !length_app in Hlen. cbn [URI_QUERY uri_chunks]. unfold first_char.
  rewrite E at 1. change ($"?") with ["?"%char]. rewrite find_at_app, find_sub_skip.
  2: { rewrite not_elem_of_app. split; [apply target_no_delimiter; by apply (bool_decide_unpack _)|apply path_no_delimiter]. }
  destruct (decide (query u = [])) as [Hq|Hq].
  - rewrite (bool_decide_eq_true_2 (query u = [])) by done. unfold query_part in *. rewrite Hq in *. cbn [find_sub prefixb fmap option_fmap option_map].
    f_equal. rewrite E, !length_app. cbn. lia.
  - rewrite (bool_decide_eq_false_2 (query u = [])) by done.
    assert (∃ x, query_part = "?"%char :: x) as [x Ex] by (unfold query_part; destruct (query u); [done|by eexists]).
    rewrite Ex at 1. rewrite find_sub_head. cbn [fmap option_fmap option_map]. rewrite u64_small.
    + rewrite !length_app. f_equal; [do 2 f_equal|]; lia.
    + rewrite !length_app in *. rewrite Et in *. cbn [length] in *. lia.
Qed.

Lemma preprocess_path_ok :
  preprocess_path Generic (uri_text u) first_char
    (first_char + Z.of_nat (length target_part) + Z.of_nat (length path_part) - 1) =
  (URI_PATH uri_chunks, first_char + Z.of_nat (length target_part) - 1).
Proof.
  destruct target_first as (c & rest & Et & Halpha).
  assert (uri_text u = ((scheme u ++ $"://") ++ user_part) ++ target_part ++ path_part ++ query_part) as E
    by (rewrite uri_parts, <- !(assoc_L (++)); done).
  unfold preprocess_path. rewrite (bool_decide_eq_true_2 (Generic = Generic)) by done. cbn [URI_PATH uri_chunks].
  assert (find_at (uri_text u) ($"/") first_char =
          if bool_decide (path u = []) then None else Some (first_char + Z.of_nat (length target_part))) as ->.
  { unfold first_char. apply slash_position; [done|]. apply target_no_delimiter. by apply (bool_decide_unpack _). }
  destruct path_part_cases as [(Hp & Epp)|(Hne & d & prest & Epp)].
  { rewrite (bool_decide_eq_true_2 (path u = [])) by done. rewrite Epp. cbn [length]. f_equal. lia. }
  rewrite (bool_decide_eq_false_2 (path u = [])) by done.
  assert (has_path (uri_text u) first_char (first_char + Z.of_nat (length target_part)) = true) as ->.
  { unfold has_path. assert (∀ what, input_contains (uri_text u) ("("%char :: what) first_char = false) as Hno.
    { intros what. rewrite E, Et. cbn [app]. apply input_contains_first. intros <-. done. }
    by rewrite !(Hno _ : input_contains (uri_text u) ($"(/") first_char = false),
       (Hno _ : input_contains (uri_text u) ($"(.") first_char = false),
       (Hno _ : input_contains (uri_text u) ($"(\\.\") first_char = false). }
  rewrite (proj2 (Z.ltb_lt first_char _)) by (rewrite Et; cbn [length]; lia). cbn [andb].
  rewrite (proj2 (Z.ltb_lt _ _)) by (rewrite Epp; cbn [length]; lia). do 3 f_equal; lia.
Qed.

Lemma preprocess_ok p :
  ready (uri_text u) p →
  ∃ p', preprocess Generic (uri_text u) p = Ok (uri_chunks, p') ∧ ready (uri_text u) p' ∧
    p_data p' = generic_set_string kScheme (scheme u) (p_data p) ∧ p_scheme p' = scheme u.
Proof.
  intros Hp. destruct (preprocess_scheme_ok p Hp) as (p' & E & Hp' & Hd & Hs). exists p'. split; [|done].
  destruct target_first as (c & rest & Et & _).
  assert (0 < length (uri_text u))%nat by (rewrite uri_parts, !length_app, Et; cbn; lia).
  unfold preprocess. rewrite u64_small by lia. cbv zeta. rewrite E. cbn [mbind result_bind].
  pose proof preprocess_user as Hpu. cbv zeta in Hpu. rewrite Hpu. cbn [mbind result_bind].
  rewrite preprocess_query, preprocess_path_ok. rewrite (proj2 (Z.leb_le _ _)) by (rewrite Et; cbn [length]; lia). done.
Qed.

Lemma uri_before_target : uri_text u = ((scheme u ++ $"://") ++ user_part) ++ target_part ++ path_part ++ query_part.
Proof. by rewrite uri_parts, <- !(assoc_L (++)). Qed.

Lemma parse_userinfo_part p :
  ready (uri_text u) p →
  leads_to (uri_text u) (parse_userinfo uri_chunks p) (p_scheme p) (if bool_decide (user u = []) then p_data p else with_user u (p_data p)).
Proof.
  intros Hp. destruct (decide (user u = [])) as [Hn|Hn].
  - unfold parse_userinfo. cbn [URI_USER_INFO uri_chunks]. rewrite (bool_decide_eq_true_2 (user u = [])) by done. by eexists.
  - rewrite (bool_decide_eq_false_2 (user u = [])) by done.
    apply (parse_userinfo_ok (uri_text u) (scheme u ++ $"://") u ($"@" ++ target_part ++ path_part ++ query_part)); [done| |done|done|].
    + rewrite uri_before_target. unfold user_part. rewrite bool_decide_eq_false_2 by done. by rewrite <- !(assoc_L (++)).
    + cbn [URI_USER_INFO uri_chunks]. by rewrite bool_decide_eq_false_2.
Qed.

Lemma parse_target_part p :
  ready (uri_text u) p → leads_to (uri_text u) (parse_target (uri_text u) uri_chunks p) (p_scheme p) (with_target u (p_data p)).
Proof.
  intros Hp. apply (parse_target_ok (uri_text u) _ u _ uri_chunks p Hu Hp uri_before_target); [|done].
  destruct path_part_cases as [(_ & ->)|(_ & d & rest & ->)]; [|by left]. unfold query_part. destruct (query u); [done|by right].
Qed.

Lemma parse_path_part p :
  ready (uri_text u) p → p_scheme p = scheme u →
  leads_to (uri_text u) (parse_path Generic (uri_text u) uri_chunks p) (p_scheme p)
    (if bool_decide (path u = []) then p_data p else generic_set_string kPath (path u) (p_data p)).
Proof.
  intros Hp Hs. destruct (decide (path u = [])) as [Hn|Hn].
  - unfold parse_path. cbn [URI_PATH uri_chunks]. rewrite (bool_decide_eq_true_2 (path u = [])) by done. by eexists.
  - rewrite (bool_decide_eq_false_2 (path u = [])) by done.
    apply (parse_path_ok (uri_text u) (((scheme u ++ $"://") ++ user_part) ++ target_part) u query_part); [done| | |done|].
    + rewrite uri_before_target. by rewrite <- !(assoc_L (++)).
    + rewrite Hs. apply (uri_scheme _ Hu).
    + cbn [URI_PATH uri_chunks]. rewrite bool_decide_eq_false_2 by done. unfold first_char, path_part. rewrite !length_app.
      do 2 f_equal; lia.
Qed.

Lemma parse_query_part p :
  ready (uri_text u) p →
  leads_to (uri_text u) (parse_query (uri_text u) uri_chunks p) (p_scheme p) (foldl with_attribute (p_data p) (query u)).
Proof.
  intros Hp. pose proof (uri_query _ Hu) as Hq. pose proof uri_before_target as E. unfold query_part in E.
  destruct (query u) as [|a l] eqn:Eq.
  - unfold parse_query. cbn [URI_QUERY uri_chunks]. rewrite Eq. by eexists.
  - apply (parse_query_ok (uri_text u) (((scheme u ++ $"://") ++ user_part) ++ target_part ++ path_part) a l); [done|done| |].
    + rewrite E at 1. by rewrite <- !(assoc_L (++)).
    + cbn [URI_QUERY uri_chunks]. rewrite Eq. unfold first_char. rewrite !length_app. cbn. do 2 f_equal; lia.
Qed.

Lemma foldl_with_attribute l d :
  foldl with_attribute d l =
  {| scheme := scheme d; user := user d; password := password d; host := host d; port := port d; path := path d;
     query := query d ++ l |}.
Proof.
  revert d. induction l as [|a l IH]; intros d; cbn [foldl]; [by destruct d; rewrite app_nil_r|].
  rewrite IH. cbn. by rewrite <- (assoc_L (++)).
Qed.

(** What the parts leave is the address. *)
Lemma parts_complete :
  foldl with_attribute
    (let d := with_target u (let d := generic_set_string kScheme (scheme u) new_Generic_uri in
                             if bool_decide (user u = []) then d else with_user u d) in
     if bool_decide (path u = []) then d else generic_set_string kPath (path u) d) (query u) = u.
Proof.
  rewrite foldl_with_attribute. pose proof (uri_password _ Hu) as Hp. unfold with_target, with_user.
  destruct u as [sch us pw ho po pa qu]. cbn [scheme user password host port path query] in *.
  repeat case_bool_decide; subst; destruct pw as [pw|], po as [po|]; try done; by destruct Hp.
Qed.

(** Parsing the text gives the address back. *)
Lemma parse_uri_text : make_Generic_uri (uri_text u) = Ok u.
Proof.
  unfold make_Generic_uri. rewrite bool_decide_eq_false_2.
  2: { destruct target_first as (c & rest & Et & _). rewrite uri_before_target, Et. by destruct (scheme u). }
  unfold parse. set (p0 := {| p_data := new_Generic_uri; p_tokenizer := _; p_scheme := [] |}).
  destruct (preprocess_ok p0) as (p1 & -> & Hp1 & Hd1 & Hs1); [done|]. cbn [mbind result_bind].
  destruct (parse_userinfo_part p1 Hp1) as (p2 & -> & Hp2 & Hd2 & Hs2). cbn [mbind result_bind].
  destruct (parse_target_part p2 Hp2) as (p3 & -> & Hp3 & Hd3 & Hs3). cbn [mbind result_bind].
  destruct (parse_path_part p3 Hp3) as (p4 & -> & Hp4 & Hd4 & Hs4); [congruence|]. cbn [mbind result_bind].
  destruct (parse_query_part p4 Hp4) as (p5 & -> & Hp5 & Hd5 & Hs5). cbn [mbind result_bind].
  rewrite Hd5, Hd4, Hd3, Hd2, Hd1. f_equal. exact parts_complete.
Qed.

End whole.

(** C11: Encoding a Generic_uri, with all its parts, succeeds, and parsing the text gives
    the same Generic_uri: scheme, user, password, host, port, path and attributes. This is
    for addresses of fewer than 2^64 characters with an alphanumeric scheme other than
    file, a host name that starts with a letter and has no colon (no IPv4 or IPv6
    address), no password without a user, a path that is empty or a slash with something
    behind it, and attributes that have values, which do not start with a parenthesis, and
    names that need no encoding and are not those of other parts; user, password, host and
    values may hold any characters, except that no percent sign in them is followed by two
    hexadecimal digits, which the encoder would take for an encoded character. *)
Theorem uri_roundtrip (is_ipv6 : str → bool) (u : Generic_uri) (t : BaseTokenizer) :
  uri_ok u → is_ipv6 (host u) = false → Z.of_nat (length (uri_text u)) < 2 ^ 64 →
  ∃ text, encode_uri is_ipv6 u full t = Ok text ∧ make_Generic_uri text = Ok u.
Proof.
  intros Hu H6 Hlen. exists (uri_text u). split; [by apply encode_uri_ok|by apply parse_uri_text].
Qed.


Definition sample_uri : Generic_uri :=
  {| scheme := $"https"; user := $"john doe"; password := Some ($"p@ss:w/rd"); host := $"db-1.example.com"; port := Some 33060;
     path := $"/a dir/x:y"; query := [($"mode", Some ($"a,b&c")); ($"empty", Some [])] |}.

Lemma sample_uri_ok : uri_ok sample_uri.
Proof.
  split; cbn [scheme user password host port path query sample_uri].
  - split_and!; [done|by apply (bool_decide_unpack _)|done].
  - by apply pct_free_plain, (bool_decide_unpack _).
  - split; [by apply pct_free_plain, (bool_decide_unpack _)|done].
  - split_and!; [by eexists|by apply pct_free_plain, (bool_decide_unpack _)|by apply (bool_decide_unpack _)].
  - by split.
  - right. by do 2 eexists.
  - repeat constructor; try by apply (bool_decide_unpack _).
    + eexists. split; [done|]. split; [by apply pct_free_plain, (bool_decide_unpack _)|done].
    + eexists. split; [done|]. split; [by apply pct_free_plain, (bool_decide_unpack _)|done].
Qed.

Lemma uri_roundtrip_witness :
  ∃ text, encode_uri (λ _, false) sample_uri full new_BaseTokenizer = Ok text ∧ make_Generic_uri text = Ok sample_uri.
Proof. apply uri_roundtrip; [exact sample_uri_ok|reflexivity|apply Z.ltb_lt; vm_compute; reflexivity]. Defined.


(** ** Texts that are read differently *)

(** The parser skips an attribute name by the length of its decoded form, so a name with a
    percent encoding is followed by a value that starts in the name. *)
Theorem encoded_name_misread :
  make_Generic_uri ($"http://h?a%62c=1") =
  Ok {| scheme := $"http"; user := []; password := None; host := $"h"; port := None; path := [];
        query := [($"abc", Some ($"c=1"))] |}.
Proof. vm_compute. reflexivity. Qed.

(** A host name that begins like an IPv4 address is taken for the address, and the rest of the
    name for a port. *)
Theorem ipv4_like_host_rejected :
  make_Generic_uri ($"http://10.0.0.1.nip.io") = Throw (invalid_argument "Illegal character found").
Proof. vm_compute. reflexivity. Qed.

(** A slash that is in the query only is taken for the start of the path: the address ends one
    character too early, and an address of one character or in brackets is rejected. *)
Theorem slash_in_query_rejected :
  make_Generic_uri ($"http://h?x=(/a)") = Throw (invalid_argument "Invalid address") ∧
  make_Generic_uri ($"http://[::1]?x=(/a)") = Throw (invalid_argument "Expected token but no tokens left.") ∧
  is_Some (match make_Generic_uri ($"http://[::1]?x=(a)") with Ok u => Some u | Throw _ => None end).
Proof. split_and!; [vm_compute; reflexivity|vm_compute; reflexivity|vm_compute; by eexists]. Qed.

(** User names that hold a percent encoding are written as they are, and read decoded. *)
Theorem percent_user_changed :
  let u := {| scheme := $"http"; user := $"a%41"; password := None; host := $"h"; port := None; path := []; query := [] |} in
  ∃ text u', encode_uri (λ _, false) u full new_BaseTokenizer = Ok text ∧ make_Generic_uri text = Ok u' ∧ user u' = $"aA".
Proof. do 2 eexists. split; [vm_compute; reflexivity|]. split; [vm_compute; reflexivity|done]. Qed.
