(* ===== verification/Paths.v ===== *)
(** * Paths

    Model of [mysqlshdk/libs/utils/utils_path.cc], [utils_path_unix.cc] (namespace
    [shcore::path]) and of [get_absolute_path] of [utils_file.cc], for systems other than
    Windows.  The home directories and the current directory come from the system. *)
From S2P Require Import Prelude UtilsString.

Open Scope nat_scope.

Definition k_valid_path_separators : str := $"/".

Definition is_path_separator (c : ascii) : bool := bool_decide (c ∈ "000"%char :: k_valid_path_separators).

(** *** [join_path] *)

(** One component behind the path so far. *)
Definition join_component (path s : str) : str :=
  if bool_decide (head s = Some "/"%char) then s
  else if bool_decide (path = []) || bool_decide (last path = Some "/"%char) then path ++ s
  else path ++ $"/" ++ s.

Definition join_path (components : list str) : str :=
  match components with
  | [] => []
  | path :: components => foldl join_component path components
  end.

(** *** [normalize] *)

(** The components kept so far, [p], for a path that starts with [norm]. *)
Definition normalize_chunk (norm : str) (p : list str) (chunk : str) : list str :=
  if bool_decide (chunk = []) || bool_decide (chunk = $".") then p
  else if negb (bool_decide (chunk = $"..")) || (bool_decide (norm = []) && bool_decide (p = [])) ||
          (negb (bool_decide (p = [])) && bool_decide (last p = Some ($".."))) then p ++ [chunk]
  else if negb (bool_decide (p = [])) then removelast p
  else p.

Definition initial_slashes (path : str) : str :=
  if str_beginswith_pair path ($"//") && negb (str_beginswith_pair path ($"///")) then $"//"
  else if str_beginswith_pair path ($"/") then $"/"
  else [].

Definition normalize (path : str) : str :=
  if bool_decide (length path = 0) then $"."
  else
    let norm := initial_slashes path in
    let p := foldl (normalize_chunk norm) [] (str_split path ($"/") (-1) false) in
    let norm := norm ++ join_path p in
    if bool_decide (norm = []) then $"." else norm.

(** *** [dirname], [basename], [split_extension] *)

(** [path.find_last_of(k_valid_path_separators, pos)] and its complement. *)
Definition find_last_separator (path : str) (pos : nat) : option nat :=
  find_last_if (mem_chars k_valid_path_separators) (take (S pos) path).
Definition find_last_other (path : str) (pos : nat) : option nat :=
  find_last_if (λ c, negb (mem_chars k_valid_path_separators c)) (take (S pos) path).

(** [None] is [npos].  [start - 1] does not wrap: an absolute path starts with a separator. *)
Definition span_dirname (path : str) : option nat :=
  match path with
  | [] => None
  | _ =>
      match find_last_not_of path k_valid_path_separators with
      | None | Some 0 => Some 1
      | Some last =>
          let search := take (length path - last) path in
          let start := default (length search) (find_if (mem_chars k_valid_path_separators) search) in
          if bool_decide (start = 0) then
            let start := default 0 (find_first_not_of path k_valid_path_separators 0) - 1 in
            match find_last_separator path last with
            | None => None   (* not reached: the first character is a separator *)
            | Some p =>
                if bool_decide (p = start) then Some 1
                else
                  match find_last_other path p with
                  | None => Some 0
                  | Some p => if bool_decide (p = start) then Some 1 else Some (S p)
                  end
            end
          else find_last_separator path last
      end
  end.

Definition dirname (path : str) : str :=
  match span_dirname path with None => $"." | Some n => take n path end.

Definition basename (path : str) : str :=
  match find_last_not_of path k_valid_path_separators with
  | None => take 1 path
  | Some last =>
      let last := S last in
      match span_dirname path with
      | None => take last path
      | Some p =>
          if bool_decide (p = length path) || bool_decide (p = 0) || bool_decide (p = last) then take last path
          else
            let p := default p (find_first_not_of path k_valid_path_separators p) in
            substr path p (last - p)
      end
  end.

Definition split_extension (path : str) : str * str :=
  match path with
  | [] => ([], [])
  | _ =>
      let basename := match find_last_if (mem_chars k_valid_path_separators) path with Some i => S i | None => 0 end in
      let rest := drop basename path in
      let barrier := basename + default (length rest) (find_if (λ c, negb (bool_decide (c = "."%char))) rest) in
      match find_last_if (λ c, bool_decide (c = "."%char)) path with
      | Some last_dot => if bool_decide (barrier ≤ last_dot) then (take last_dot path, drop last_dot path) else (path, [])
      | None => (path, [])
      end
  end.

(** *** Absolute paths *)

Section absolute.
Context (home : option str → str)   (* [home()], and [home(username)] *)
        (getcwd : str).

Definition expand_user (path : str) : str :=
  match path with
  | "~"%char :: _ =>
      let tilde_prefix_length := default (length path) (find_if (mem_chars ($"/")) path) in
      let user_home := if bool_decide (tilde_prefix_length = 1) then home None
                       else home (Some (substr path 1 (tilde_prefix_length - 1))) in
      if bool_decide (user_home = []) then path else user_home ++ drop tilde_prefix_length path
  | _ => path
  end.

(** The expansion of a path that is not empty is not empty. *)
Definition is_absolute (path : str) : bool :=
  bool_decide (0 < length path) && is_path_separator (default "000"%char (head (expand_user path))).

Definition get_absolute_path (file_path base_dir : str) : str :=
  if is_absolute file_path then normalize (expand_user file_path)
  else normalize (join_path [if bool_decide (base_dir = []) then getcwd else base_dir; file_path]).
End absolute.
