(* ===== verification/PathsFacts.v ===== *)
(** * Paths: theorems

    A normalized path leads to the same place as the path, from every directory, and is left
    as it is by another normalization.  Then, what [dirname] does with short names. *)
From S2P Require Import Prelude UtilsString UtilsStringFacts GtidUtilsFacts Paths.

Open Scope nat_scope.

(** ** Where a path leads *)

(** A directory is the list of the names from the root, without symbolic links. *)
Definition walk (directory : list str) (chunk : str) : list str :=
  if bool_decide (chunk = []) || bool_decide (chunk = $".") then directory
  else if bool_decide (chunk = $"..") then removelast directory
  else directory ++ [chunk].

Definition resolve (cwd : list str) (path : str) : list str :=
  foldl walk (if bool_decide (head path = Some "/"%char) then [] else cwd) (split_on "/" path).

(** ** Normal forms *)

Definition ordinary (name : str) : Prop := name ≠ [] ∧ name ≠ $"." ∧ name ≠ $".." ∧ "/"%char ∉ name.

(** The components of a normalized path: leading [..], of a relative path only, and names. *)
Definition normal (norm : str) (p : list str) : Prop :=
  ∃ k names, p = replicate k ($"..") ++ names ∧ Forall ordinary names ∧ (norm ≠ [] → k = 0).

Lemma removelast_snoc {A} (l : list A) x : removelast (l ++ [x]) = l.
Proof. rewrite removelast_app by done. by rewrite app_nil_r. Qed.

Lemma walk_name directory name : ordinary name → walk directory name = directory ++ [name].
Proof. intros (? & ? & ? & _). unfold walk. by rewrite !bool_decide_eq_false_2. Qed.

Lemma normal_snoc norm p :
  normal norm p → p = [] ∨ (∃ k, p = replicate (S k) ($"..") ∧ norm = []) ∨ (∃ q name, p = q ++ [name] ∧ ordinary name ∧ normal norm q).
Proof.
  intros (k & names & -> & Hn & Hk). destruct names as [|name names _] using rev_ind.
  - rewrite app_nil_r. destruct k as [|k]; [by left|right; left]. exists k. split; [done|].
    destruct (decide (norm = [])); [done|]. by specialize (Hk n).
  - apply Forall_app in Hn as [Hn [Hname _]%Forall_cons]. right. right. exists (replicate k ($"..") ++ names), name.
    split; [by rewrite <- (assoc_L (++))|]. split; [done|]. by exists k, names.
Qed.

Lemma replicate_snoc {A} k (x : A) : replicate k x ++ [x] = replicate (S k) x.
Proof. rewrite replicate_S_end. done. Qed.

(** One component: where the path leads, and the form of what is kept. *)
Lemma normalize_chunk_ok norm root p chunk :
  normal norm p → "/"%char ∉ chunk → (norm ≠ [] → root = []) →
  normal norm (normalize_chunk norm p chunk) ∧
  foldl walk root (normalize_chunk norm p chunk) = walk (foldl walk root p) chunk.
Proof.
  intros Hp Hslash Hroot. unfold normalize_chunk.
  destruct (decide (chunk = [] ∨ chunk = $".")) as [Hc|Hc].
  { assert (bool_decide (chunk = []) || bool_decide (chunk = $".") = true) as E by (destruct Hc as [-> | ->]; done).
    rewrite E. split; [done|]. unfold walk. by rewrite E. }
  assert (chunk ≠ [] ∧ chunk ≠ $".") as [H1 H2] by tauto. rewrite (bool_decide_eq_false_2 (chunk = [])), (bool_decide_eq_false_2 (chunk = $".")) by done. cbn [orb].
  destruct (decide (chunk = $"..")) as [->|H3].
  - rewrite (bool_decide_eq_true_2 ($".." = $"..")) by done. cbn [negb orb].
    destruct (normal_snoc norm p Hp) as [-> |[(k & -> & ->)|(q & name & -> & Hname & Hq)]].
    + rewrite (bool_decide_eq_true_2 ([] = [])) by done. cbn [negb andb]. rewrite andb_true_r, orb_false_r.
      destruct (decide (norm = [])) as [-> |Hn].
      * split; [by exists 1, []|]. done.
      * rewrite bool_decide_eq_false_2 by done. split; [done|]. cbn. by rewrite (Hroot Hn).
    + rewrite (bool_decide_eq_false_2 (replicate (S k) _ = [])) by done. rewrite andb_false_r. cbn [negb orb andb].
      rewrite <- replicate_snoc, last_snoc, bool_decide_eq_true_2 by done. split; [|by rewrite !foldl_app].
      rewrite replicate_snoc, <- replicate_S_end. exists (S (S k)), []. rewrite app_nil_r. done.
    + rewrite (bool_decide_eq_false_2 (q ++ [name] = [])) by (by destruct q). rewrite andb_false_r. cbn [negb orb andb].
      rewrite last_snoc, bool_decide_eq_false_2 by (destruct Hname; naive_solver). rewrite removelast_snoc. split; [done|].
      rewrite foldl_app. cbn [foldl]. rewrite (walk_name _ name) by done.
      change (walk ?d ($"..")) with (removelast d). by rewrite removelast_snoc.
  - rewrite (bool_decide_eq_false_2 (chunk = $"..")) by done. cbn [negb orb]. split; [|by rewrite foldl_app].
    destruct Hp as (k & names & -> & Hn & Hk). exists k, (names ++ [chunk]). split; [by rewrite (assoc_L (++))|].
    split; [|done]. apply Forall_app. split; [done|]. by repeat constructor.
Qed.

Lemma normalize_chunks_ok norm root chunks p :
  normal norm p → Forall (λ chunk, "/"%char ∉ chunk) chunks → (norm ≠ [] → root = []) →
  normal norm (foldl (normalize_chunk norm) p chunks) ∧
  foldl walk root (foldl (normalize_chunk norm) p chunks) = foldl walk (foldl walk root p) chunks.
Proof.
  intros Hp Hc Hr. revert p Hp. induction Hc as [|chunk chunks Hs _ IH]; intros p Hp; [done|]. cbn [foldl].
  destruct (normalize_chunk_ok norm root p chunk Hp Hs Hr) as [Hn <-]. by apply IH.
Qed.

(** A list in normal form is kept. *)
Lemma normalize_normal norm p : normal norm p → foldl (normalize_chunk norm) [] p = p.
Proof.
  intros (k & names & -> & Hn & Hk). rewrite foldl_app.
  assert (foldl (normalize_chunk norm) [] (replicate k ($"..")) = replicate k ($"..")) as ->.
  { clear Hn. destruct k as [|k]; [done|]. assert (norm = []) as -> by (destruct (decide (norm = [])); [done|by specialize (Hk n)]). clear Hk.
    induction k as [|k IH]; [done|]. rewrite replicate_S_end, foldl_app, IH. cbn [foldl]. rewrite <- (replicate_snoc k).
    unfold normalize_chunk. rewrite (bool_decide_eq_true_2 (last _ = _)) by apply last_snoc.
    rewrite (bool_decide_eq_false_2 (_ ++ [_] = [])) by (by destruct k). done. }
  induction names as [|name names IH] using rev_ind; [by rewrite app_nil_r|]. apply Forall_app in Hn as [Hn [Hname _]%Forall_cons].
  rewrite foldl_app, IH by done. cbn [foldl]. rewrite (assoc_L (++)). unfold normalize_chunk. destruct Hname as (? & ? & ? & _).
  rewrite !(bool_decide_eq_false_2 (name = _)) by done. done.
Qed.

(** ** Printing and splitting *)

Lemma join_names p : Forall (λ name, name ≠ [] ∧ "/"%char ∉ name) p → p ≠ [] →
  split_on "/" (join_path p) = p ∧ ∃ c rest, join_path p = c :: rest ∧ c ≠ "/"%char.
Proof.
  intros Hp Hne. induction p as [|name p IH] using rev_ind; [done|]. apply Forall_app in Hp as [Hp [[Hn Hs] _]%Forall_cons].
  assert (head name ≠ Some "/"%char) as Hh by (destruct name as [|c l]; [done|]; set_solver).
  destruct p as [|x p].
  { change (join_path ([] ++ [name])) with name. rewrite split_on_none by done. split; [done|]. destruct name as [|c l]; [done|]. exists c, l. set_solver. }
  destruct IH as (E & c & rest & Ej & Hc); [done|done|].
  assert (join_path ((x :: p) ++ [name]) = join_path (x :: p) ++ $"/" ++ name) as ->.
  { cbn [app join_path]. rewrite foldl_app. cbn [foldl]. change (foldl join_component x p) with (join_path (x :: p)).
    unfold join_component. rewrite (bool_decide_eq_false_2 (head name = _)) by done.
    rewrite (bool_decide_eq_false_2 (join_path _ = [])) by (by rewrite Ej). cbn [orb].
    rewrite bool_decide_eq_false_2; [done|]. intros Hl. apply last_Some in Hl as [l El].
    rewrite El in E. rewrite split_on_app in E. change (split_on "/" []) with [@nil ascii] in E.
    assert ([] ∈ x :: p) as Hin by (rewrite <- E; set_solver). rewrite Forall_forall in Hp. by apply Hp in Hin as [? _]. }
  split.
  - change ($"/" ++ name) with ("/"%char :: name). by rewrite split_on_app, E, (split_on_none "/" name).
  - rewrite Ej. cbn [app]. by do 2 eexists.
Qed.

Lemma normal_names norm p : normal norm p → Forall (λ name, name ≠ [] ∧ "/"%char ∉ name) p.
Proof.
  intros (k & names & -> & Hn & _). apply Forall_app. split.
  - apply Forall_replicate. split; [done|]. by apply (bool_decide_unpack _).
  - eapply Forall_impl; [exact Hn|]. intros name (? & _ & _ & ?). done.
Qed.

(** The slashes in front. *)
Definition slashes (norm : str) : Prop := norm = [] ∨ norm = $"/" ∨ norm = $"//".

Lemma beginswith_cons c l d rest : str_beginswith_pair (c :: l) (d :: rest) = bool_decide (c = d) && str_beginswith_pair l rest.
Proof.
  unfold str_beginswith_pair, substr. cbn [length drop take str_compare].
  destruct (Z.compare_spec (uch c) (uch d)) as [E|E|E].
  - apply uch_inj in E as ->. by rewrite (bool_decide_eq_true_2 (d = d)).
  - rewrite (bool_decide_eq_false_2 (c = d)) by (intros ->; lia). done.
  - rewrite (bool_decide_eq_false_2 (c = d)) by (intros ->; lia). done.
Qed.

Lemma beginswith_nil l : str_beginswith_pair l [] = true.
Proof. unfold str_beginswith_pair, substr. cbn. by rewrite take_0. Qed.

Lemma beginswith_nil_l d rest : str_beginswith_pair [] (d :: rest) = false.
Proof. done. Qed.

Lemma initial_slashes_spec path :
  slashes (initial_slashes path) ∧ (initial_slashes path = [] ↔ head path ≠ Some "/"%char).
Proof.
  unfold initial_slashes, slashes.
  change ($"//") with ["/"%char; "/"%char]. change ($"///") with ["/"%char; "/"%char; "/"%char]. change ($"/") with ["/"%char].
  destruct path as [|c l]; [split; [by left|done]|]. rewrite !beginswith_cons, beginswith_nil. cbn [head].
  destruct (decide (c = "/"%char)) as [-> |Hc].
  - rewrite bool_decide_eq_true_2 by done. cbn [andb]. destruct (_ && _); (split; [auto|split; [done|naive_solver]]).
  - rewrite bool_decide_eq_false_2 by done. cbn [andb]. split; [by left|]. naive_solver.
Qed.

(** They are the same in a text with the same slashes in front. *)
Lemma initial_slashes_app norm rest :
  slashes norm → head rest ≠ Some "/"%char → initial_slashes (norm ++ rest) = norm.
Proof.
  intros Hn Hr. unfold initial_slashes, slashes in *.
  change ($"//") with ["/"%char; "/"%char] in *. change ($"///") with ["/"%char; "/"%char; "/"%char]. change ($"/") with ["/"%char] in *.
  destruct Hn as [-> |[-> | ->]]; destruct rest as [|c l]; try done;
    cbn [app]; rewrite ?beginswith_cons, ?beginswith_nil, ?beginswith_nil_l; cbn [head] in Hr;
    rewrite ?(bool_decide_eq_false_2 (c = _)) by congruence; done.
Qed.

Lemma split_slashes norm rest :
  slashes norm → ∃ blanks, split_on "/" (norm ++ rest) = blanks ++ split_on "/" rest ∧ Forall (λ chunk, chunk = []) blanks.
Proof.
  intros [-> |[-> | ->]].
  - by exists [].
  - exists [[]]. split; [|by repeat constructor]. apply (split_on_app "/" [] rest).
  - exists [[]; []]. split; [|by repeat constructor]. change ($"//" ++ rest) with ([] ++ "/"%char :: [] ++ "/"%char :: rest).
    by rewrite !split_on_app.
Qed.

Lemma blanks_skipped {A} (f : list A → str → list A) blanks p :
  (∀ p, f p [] = p) → Forall (λ chunk, chunk = []) blanks → foldl f p blanks = p.
Proof. intros Hf. induction 1 as [|chunk blanks -> _ IH]; [done|]. cbn [foldl]. by rewrite Hf. Qed.

(** A path that is made of slashes and names. *)
Definition print (norm : str) (p : list str) : str := norm ++ join_path p.

Lemma print_parts norm p :
  slashes norm → normal norm p → print norm p ≠ [] →
  initial_slashes (print norm p) = norm ∧ (head (print norm p) = Some "/"%char ↔ norm ≠ []) ∧
  ∀ A (f : list A → str → list A) q, (∀ q, f q [] = q) → foldl f q (split_on "/" (print norm p)) = foldl f q p.
Proof.
  intros Hs Hp Hne. assert (head (join_path p) ≠ Some "/"%char) as Hh.
  { destruct (decide (p = [])) as [-> |Hn]; [done|]. destruct (join_names p) as (_ & c & rest & -> & Hc); [by eapply normal_names|done|].
    cbn. congruence. }
  split; [by apply initial_slashes_app|]. split.
  { unfold print. destruct Hs as [-> |[-> | ->]]; cbn [app]; [|done|done]. split; [by intros|done]. }
  intros A f q Hf. destruct (split_slashes norm (join_path p) Hs) as (blanks & Hsp & Hb). unfold print. rewrite Hsp, foldl_app.
  rewrite (blanks_skipped f blanks) by done.
  destruct (decide (p = [])) as [-> |Hn]; [cbn; apply Hf|].
  destruct (join_names p) as (-> & _); [by eapply normal_names|done|done].
Qed.

Lemma normalize_path_spec path :
  path ≠ [] → ∃ p, normal (initial_slashes path) p ∧
    (∀ cwd, foldl walk (if bool_decide (head path = Some "/"%char) then [] else cwd) p = resolve cwd path) ∧
    normalize path = if bool_decide (print (initial_slashes path) p = []) then $"." else print (initial_slashes path) p.
Proof.
  intros Hne. destruct (initial_slashes_spec path) as [Hs Habs].
  exists (foldl (normalize_chunk (initial_slashes path)) [] (split_on "/" path)).
  assert (Forall (λ chunk, "/"%char ∉ chunk) (split_on "/" path)) as Hc.
  { apply Forall_forall. intros chunk Hin Hslash. by destruct (split_on_sub "/" path chunk "/" Hin Hslash). }
  assert (normal (initial_slashes path) []) as Hnil by (by exists 0, []).
  split; [apply (normalize_chunks_ok (initial_slashes path) [] (split_on "/" path) [] Hnil Hc); done|]. split.
  - intros cwd. apply (normalize_chunks_ok (initial_slashes path) _ (split_on "/" path) [] Hnil Hc).
    intros Hn. rewrite bool_decide_eq_true_2; [done|]. destruct (decide (head path = Some "/"%char)); [done|]. tauto.
  - unfold normalize. rewrite bool_decide_eq_false_2 by (by destruct path). rewrite (str_split_on "/") by done. done.
Qed.

(** C27: As a text, without regard to symbolic links: the names of directories a
    normalized path goes through, from any current directory, with ., .. and repeated
    slashes taken into account, lead to the same place as those of the path, and normalize
    leaves its own result unchanged. *)
Theorem normalize_resolves (cwd : list str) (path : str) :
  resolve cwd (normalize path) = resolve cwd path ∧ normalize (normalize path) = normalize path.
Proof.
  destruct (decide (path = [])) as [-> |Hne]; [done|].
  destruct (normalize_path_spec path Hne) as (p & Hp & Hr & E). destruct (initial_slashes_spec path) as [Hs Habs]. rewrite E.
  case_bool_decide as Hprint.
  { split; [|done]. rewrite <- Hr. apply app_eq_nil in Hprint as [Hn Hj].
    assert (p = []) as ->.
    { destruct (decide (p = [])); [done|]. destruct (join_names p) as (_ & c & rest & Ej & _); [by eapply normal_names|done|congruence]. }
    rewrite bool_decide_eq_false_2 by tauto. done. }
  destruct (print_parts _ _ Hs Hp Hprint) as (Hi & Hh & Hf). split.
  - unfold resolve at 1. rewrite Hf by done. rewrite <- Hr. f_equal.
    rewrite (bool_decide_ext (head (print _ _) = _) (head path = Some "/"%char)); [done|].
    rewrite Hh. destruct (decide (head path = Some "/"%char)); tauto.
  - unfold normalize at 1. rewrite bool_decide_eq_false_2 by (by destruct (print _ _)).
    rewrite (str_split_on "/") by done. rewrite Hi, Hf by done. rewrite (normalize_normal _ _ Hp).
    fold (print (initial_slashes path) p). by rewrite bool_decide_eq_false_2.
Qed.

(** A name of one character is its own directory. *)
Theorem dirname_of_short_name : dirname ($"a") = $"a" ∧ dirname ($"ab") = $".".
Proof. done. Qed.
