(* ===== verification/StdMap.v ===== *)
(** * Ordered maps

    [std::map] as the code uses it: an association list in the order of its keys, which are
    compared by the text [norm] gives for them.  Keys with the same text are the same key, and
    the key that is in the map first stays. *)
From S2P Require Import Prelude.

Section map.
Context {K V : Type} (norm : K → str).

(** [find]: the element, with the key that is in the map. *)
Fixpoint map_find (k : K) (m : list (K * V)) : option (K * V) :=
  match m with
  | [] => None
  | (k', v) :: m =>
      match str_compare (norm k) (norm k') with
      | Lt => None
      | Eq => Some (k', v)
      | Gt => map_find k m
      end
  end.

Definition map_at (k : K) (m : list (K * V)) : option V := snd <$> map_find k m.
Definition map_has (k : K) (m : list (K * V)) : bool := bool_decide (is_Some (map_at k m)).

(** [m[k] = v] *)
Fixpoint map_insert (k : K) (v : V) (m : list (K * V)) : list (K * V) :=
  match m with
  | [] => [(k, v)]
  | (k', v') :: m' =>
      match str_compare (norm k) (norm k') with
      | Lt => (k, v) :: m
      | Eq => (k', v) :: m'
      | Gt => (k', v') :: map_insert k v m'
      end
  end.

(** [m.emplace(k, v)] *)
Definition map_emplace (k : K) (v : V) (m : list (K * V)) : list (K * V) :=
  if map_has k m then m else map_insert k v m.

Fixpoint map_erase (k : K) (m : list (K * V)) : list (K * V) :=
  match m with
  | [] => []
  | (k', v') :: m' =>
      match str_compare (norm k) (norm k') with
      | Lt => m
      | Eq => m'
      | Gt => (k', v') :: map_erase k m'
      end
  end.

(** The order of the keys. *)
Definition before (a b : K) : Prop := str_compare (norm a) (norm b) = Lt.

Fixpoint map_sorted (m : list (K * V)) : Prop :=
  match m with
  | [] => True
  | (k, _) :: m => Forall (λ kv, before k kv.1) m ∧ map_sorted m
  end.
End map.

(** [std::set<std::string>]: its elements in order. *)
Definition set_insert (x : str) (l : list str) : list str := (map_insert id x tt ((λ y, (y, tt)) <$> l)).*1.

(** ** Laws *)

Lemma str_compare_eq a b : str_compare a b = Eq ↔ a = b.
Proof.
  revert b. induction a as [|c a IH]; intros [|d b]; cbn [str_compare]; try done.
  destruct (Z.compare_spec (uch c) (uch d)) as [E|E|E].
  - apply uch_inj in E as ->. rewrite IH. naive_solver.
  - split; [done|]. intros [= -> _]. lia.
  - split; [done|]. intros [= -> _]. lia.
Qed.

Lemma str_compare_refl a : str_compare a a = Eq.
Proof. by apply str_compare_eq. Qed.

Lemma str_compare_antisym a b : str_compare b a = CompOpp (str_compare a b).
Proof.
  revert b. induction a as [|c a IH]; intros [|d b]; cbn [str_compare]; try done.
  rewrite (Z.compare_antisym (uch c) (uch d)). destruct (uch c ?= uch d)%Z; cbn; auto.
Qed.

Lemma str_compare_trans a b c : str_compare a b = Lt → str_compare b c = Lt → str_compare a c = Lt.
Proof.
  revert b c. induction a as [|x a IH]; intros [|y b] [|z c]; cbn [str_compare]; try done.
  destruct (Z.compare_spec (uch x) (uch y)) as [E1|E1|E1], (Z.compare_spec (uch y) (uch z)) as [E2|E2|E2]; try done;
    rewrite ?E1, ?E2, ?Z.compare_refl; try (intros; rewrite (proj2 (Z.compare_lt_iff _ _)) by lia; done); eauto.
Qed.

Section laws.
Context {K V : Type} (norm : K → str).
Implicit Types m : list (K * V).

Lemma map_find_norm k k' m : norm k = norm k' → map_find norm k m = map_find norm k' m.
Proof. intros E. induction m as [|[k1 v1] m IH]; [done|]. cbn. by rewrite E, IH. Qed.

Lemma map_at_norm k k' m : norm k = norm k' → map_at norm k m = map_at norm k' m.
Proof. intros E. unfold map_at. by rewrite (map_find_norm k k'). Qed.

Lemma map_find_key k m kv : map_find norm k m = Some kv → norm kv.1 = norm k ∧ kv ∈ m.
Proof.
  induction m as [|[k1 v1] m IH]; [done|]. cbn. destruct (str_compare _ _) eqn:E; [|done|].
  - intros [= <-]. apply str_compare_eq in E. split; [done|]. left.
  - intros [? ?]%IH. split; [done|]. by right.
Qed.

Lemma map_at_insert k v m : map_at norm k (map_insert norm k v m) = Some v.
Proof.
  unfold map_at. induction m as [|[k1 v1] m IH]; cbn; [by rewrite str_compare_refl|].
  destruct (str_compare (norm k) (norm k1)) eqn:E; cbn; rewrite ?str_compare_refl, ?E; done.
Qed.

Lemma map_find_insert_ne k k' v m : norm k ≠ norm k' → map_find norm k' (map_insert norm k v m) = map_find norm k' m.
Proof.
  intros Hne. assert (str_compare (norm k') (norm k) ≠ Eq) as Hk by (by rewrite str_compare_eq).
  induction m as [|[k1 v1] m IH]; cbn [map_insert map_find].
  { by destruct (str_compare (norm k') (norm k)). }
  destruct (str_compare (norm k) (norm k1)) eqn:E; cbn [map_find].
  - apply str_compare_eq in E. rewrite <- E. destruct (str_compare (norm k') (norm k)); done.
  - destruct (str_compare (norm k') (norm k)) eqn:E'; [done| |done]. by rewrite (str_compare_trans _ _ _ E' E).
  - by rewrite IH.
Qed.

Lemma map_at_insert_ne k k' v m : norm k ≠ norm k' → map_at norm k' (map_insert norm k v m) = map_at norm k' m.
Proof. intros H. unfold map_at. by rewrite map_find_insert_ne. Qed.

Lemma map_find_below k m : Forall (λ kv, before norm k kv.1) m → map_find norm k m = None.
Proof. intros H. destruct m as [|[k1 v1] m]; [done|]. apply Forall_cons in H as [H _]. cbn. unfold before in H. cbn in H. by rewrite H. Qed.

Lemma map_find_erase k m : map_sorted norm m → map_find norm k (map_erase norm k m) = None.
Proof.
  induction m as [|[k1 v1] m IH]; [done|]. cbn [map_sorted map_erase]. intros [Hb Hs].
  destruct (str_compare (norm k) (norm k1)) eqn:E; cbn [map_find]; rewrite ?E; auto.
  apply str_compare_eq in E. rewrite (map_find_norm k k1) by done. by apply map_find_below.
Qed.

Lemma map_find_erase_ne k k' m : map_sorted norm m → norm k ≠ norm k' → map_find norm k' (map_erase norm k m) = map_find norm k' m.
Proof.
  intros Hs Hne. induction m as [|[k1 v1] m IH]; [done|]. cbn [map_sorted] in Hs. destruct Hs as [Hb Hs]. cbn [map_erase].
  destruct (str_compare (norm k) (norm k1)) eqn:E; cbn [map_find]; [|done|by rewrite IH].
  apply str_compare_eq in E. rewrite <- E. destruct (str_compare (norm k') (norm k)) eqn:E'; [|apply map_find_below|done].
  - by apply str_compare_eq in E'.
  - eapply Forall_impl; [exact Hb|]. intros kv Hkv. unfold before in *. rewrite <- E in Hkv. by eapply str_compare_trans.
Qed.

(** The new element, or the value under a key that is in the map. *)
Lemma map_insert_Forall (P : K * V → Prop) k v m :
  P (k, v) → (∀ k' v', P (k', v') → norm k' = norm k → P (k', v)) → Forall P m → Forall P (map_insert norm k v m).
Proof.
  intros Hk Hp. induction 1 as [|[k1 v1] m Hk1 Hm IH]; cbn [map_insert]; [by constructor|].
  destruct (str_compare (norm k) (norm k1)) eqn:E.
  - constructor; [|done]. apply (Hp k1 v1); [done|]. by apply str_compare_eq in E.
  - by repeat constructor.
  - by constructor.
Qed.

Lemma map_insert_sorted k v m : map_sorted norm m → map_sorted norm (map_insert norm k v m).
Proof.
  induction m as [|[k1 v1] m IH]; [done|]. cbn [map_sorted map_insert]. intros [Hb Hs].
  destruct (str_compare (norm k) (norm k1)) eqn:E; cbn [map_sorted].
  - done.
  - split; [|done]. constructor; [done|]. eapply Forall_impl; [exact Hb|]. intros kv Hkv. unfold before in *. by eapply str_compare_trans.
  - split; [|by apply IH]. apply map_insert_Forall; [|done|done]. unfold before. cbn. by rewrite str_compare_antisym, E.
Qed.

Lemma map_erase_Forall (P : K * V → Prop) k m : Forall P m → Forall P (map_erase norm k m).
Proof.
  induction 1 as [|[k1 v1] m Hk Hm IH]; cbn [map_erase]; [done|]. destruct (str_compare _ _); [done|by constructor|by constructor].
Qed.

Lemma map_erase_sorted k m : map_sorted norm m → map_sorted norm (map_erase norm k m).
Proof.
  induction m as [|[k1 v1] m IH]; [done|]. cbn [map_sorted map_erase]. intros [Hb Hs].
  destruct (str_compare _ _); cbn [map_sorted]; [done|done|]. split; [by apply map_erase_Forall|by apply IH].
Qed.

(** Keys greater than all in the map go to its end. *)
Lemma map_insert_last k v m : Forall (λ kv, before norm kv.1 k) m → map_insert norm k v m = m ++ [(k, v)].
Proof.
  induction 1 as [|[k1 v1] m Hb _ IH]; [done|]. cbn. unfold before in Hb. cbn in Hb. rewrite str_compare_antisym, Hb. cbn. by rewrite IH.
Qed.

Lemma map_sorted_find m k v : map_sorted norm m → (k, v) ∈ m → map_find norm k m = Some (k, v).
Proof.
  induction m as [|[k1 v1] m IH]; cbn [map_sorted]; intros Hs; [by intros ?%elem_of_nil|]. destruct Hs as [Hb Hs].
  intros [[= -> ->]|Hin]%elem_of_cons; cbn [map_find]; [by rewrite str_compare_refl|].
  rewrite Forall_forall in Hb. pose proof (Hb _ Hin) as E. unfold before in E. cbn in E. rewrite str_compare_antisym, E. cbn. by apply IH.
Qed.

(** A sorted map by its first element. *)
Lemma map_sorted_rest kv m k : map_sorted norm (kv :: m) → norm kv.1 = norm k → map_at norm k m = None.
Proof.
  destruct kv as [k1 v1]. cbn [map_sorted fst]. intros [Hb _] E. unfold map_at. rewrite (map_find_norm k k1) by done.
  by rewrite map_find_below.
Qed.

Lemma map_at_cons kv m k :
  map_sorted norm (kv :: m) → map_at norm k (kv :: m) = if decide (norm kv.1 = norm k) then Some kv.2 else map_at norm k m.
Proof.
  destruct kv as [k1 v1]. cbn [map_sorted]. intros [Hb _]. unfold map_at. cbn [map_find fst snd].
  destruct (str_compare (norm k) (norm k1)) eqn:E.
  - apply str_compare_eq in E. by rewrite decide_True.
  - rewrite decide_False by (intros Ek; rewrite Ek, str_compare_refl in E; done).
    rewrite map_find_below; [done|]. eapply Forall_impl; [exact Hb|]. intros [k2 v2] H. cbn in *. by eapply str_compare_trans.
  - rewrite decide_False; [done|]. intros Ek. by rewrite Ek, str_compare_refl in E.
Qed.
End laws.
