(* ===== verification/ConfigFile.v ===== *)
(** * Option files

    Model of [mysqlshdk/libs/config/config_file.{h,cc}] (class [Config_file]): the groups and
    options of option files (my.cnf), reading them with the files they include, and writing
    them back into existing files.

    The files are a map from paths to texts; the names in a directory, which paths can be
    written, the home directories and the current directory come from the system.  A file is
    written next to its target and copied over it at the end, so that nothing changes when an
    error occurs: the model keeps the texts until then, and these files can always be
    created. *)
From S2P Require Import Prelude UtilsString Lexing StdMap Paths.

Open Scope nat_scope.

Inductive Case := SENSITIVE | INSENSITIVE.
Inductive Escape := YES | NO.

#[global] Instance Case_eq_dec : EqDecision Case.
Proof. solve_decision. Defined.
#[global] Instance Escape_eq_dec : EqDecision Escape.
Proof. solve_decision. Defined.

Record Option_key := { key : str; original_option : str }.

#[global] Instance Option_key_eq_dec : EqDecision Option_key.
Proof. solve_decision. Defined.

Abbreviation Option_map := (list (Option_key * option str)).
Abbreviation container := (list (str * list (Option_key * option str))).

Record Config_file := {
  m_group_case : Case;
  m_escape_characters : Escape;
  m_configmap : container;
}.

Definition make_Config_file (group_case : Case) (escape : Escape) : Config_file :=
  {| m_group_case := group_case; m_escape_characters := escape; m_configmap := [] |}.

Definition with_configmap (m : container) (c : Config_file) : Config_file :=
  {| m_group_case := m_group_case c; m_escape_characters := m_escape_characters c; m_configmap := m |}.

(** [Case_comparator]: groups are compared by this text. *)
Definition group_norm (c : Case) (group : str) : str :=
  match c with SENSITIVE => group | INSENSITIVE => str_lower (c_str group) end.

Definition strip (s : str) : str := str_strip s k_blanks.

(** ** Lines *)

(** [std::getline] until the end of the file. *)
Fixpoint getlines_from (line s : str) : list str :=
  match s with
  | [] => match line with [] => [] | _ => [line] end
  | c :: s => if bool_decide (c = "010"%char) then line :: getlines_from [] s else getlines_from (line ++ [c]) s
  end.

Definition getlines (s : str) : list str := getlines_from [] s.

Definition parse_group_line (line : str) : result str :=
  if negb (bool_decide (head line = Some "["%char)) then Throw (runtime_error "Invalid group, not starting with '['")
  else
    match find_char line "]" 0 with
    | None => Throw (runtime_error "Invalid group, not ending with ']'")
    | Some pos =>
        let section_rest := strip (drop (pos + 1) line) in
        if negb (bool_decide (section_rest = [])) && negb (bool_decide (head section_rest = Some "#"%char))
        then Throw (runtime_error "Invalid group")
        else Ok (substr line 1 (pos - 1))
    end.

(** ** Options *)

Definition convert_option_to_key (option : str) : Option_key :=
  let k := (λ c, if bool_decide (c = "-"%char) then "_"%char else c) <$> option in
  if str_ibeginswith_pair k ($"loose_") then {| key := drop 6 k; original_option := option |}
  else if str_ibeginswith_pair k ($"group_replication_") then {| key := k; original_option := $"loose_" ++ option |}
  else {| key := k; original_option := option |}.

Section escape.
Context (escape : Escape).

(** [escape] of the code is a backslash exactly when [escaped] holds. *)
Fixpoint unescape_loop (quote : ascii) (input : str) (escaped : bool) : str :=
  match input with
  | [] => []
  | c :: input =>
      if escaped then
        (if bool_decide (c = quote) then [quote]
         else if bool_decide (c = backslash) then [backslash]
         else if bool_decide (c = "n"%char) then ["010"%char]
         else if bool_decide (c = "t"%char) then ["009"%char]
         else if bool_decide (c = "b"%char) then ["008"%char]
         else if bool_decide (c = "r"%char) then ["013"%char]
         else if bool_decide (c = "s"%char) then [" "%char]
         else [backslash; c]) ++ unescape_loop quote input false
      else if bool_decide (c = backslash) then unescape_loop quote input true
      else c :: unescape_loop quote input false
  end.

Definition parse_escape_sequence_from_file (input : str) (quote : ascii) : str :=
  if bool_decide (escape = NO) then input else unescape_loop quote input false.

Definition escape_char (quote c : ascii) : str :=
  if bool_decide (c = quote) then [backslash; quote]
  else if bool_decide (c = backslash) then [backslash; backslash]
  else if bool_decide (c = "010"%char) then [backslash; "n"%char]
  else if bool_decide (c = "009"%char) then [backslash; "t"%char]
  else if bool_decide (c = "008"%char) then [backslash; "b"%char]
  else if bool_decide (c = "013"%char) then [backslash; "r"%char]
  else [c].

Definition parse_escape_sequence_to_file (input : str) (quote : ascii) : str :=
  if bool_decide (escape = NO) then input else concat (escape_char quote <$> input).

Definition convert_value_for_file (value : str) : str :=
  if bool_decide (find_first_of value ($"# '" ++ ["034"%char]) 0 = None) then parse_escape_sequence_to_file value "000"
  else if bool_decide (find_char value "'" 0 = None) then $"'" ++ parse_escape_sequence_to_file value "000" ++ $"'"
  else ["034"%char] ++ parse_escape_sequence_to_file value "034" ++ ["034"%char].

Record Parse_result := { name : str; value : option str; remaining_text : str }.

Definition parse_quoted (option : str) (quote : ascii) (raw_value : str) : result Parse_result :=
  match get_quote_span quote raw_value with
  | (Some first, Some second) =>
      let value_rest := strip (drop (second + 1) raw_value) in
      if negb (bool_decide (value_rest = [])) && negb (bool_decide (head value_rest = Some "#"%char)) then
        Throw (runtime_error "Invalid option, only comments (started with #) are allowed after a quoted value")
      else
        Ok {| name := option;
              value := Some (parse_escape_sequence_from_file (substr raw_value (first + 1) (second - first - 1)) quote);
              remaining_text := drop (second + 1) raw_value |}
  | _ => Throw (runtime_error "Invalid option, missing closing quote for option value")
  end.

(** The text up to a comment, and the comment. *)
Definition split_comment (s : str) : str * str :=
  match find_char s "#" 0 with
  | Some pos => (take pos s, $" " ++ drop pos s)
  | None => (s, [])
  end.

Definition parse_option_line (line : str) : result Parse_result :=
  match find_char line "=" 0 with
  | None =>
      let '(option, after_value) := split_comment line in
      Ok {| name := strip option; value := None; remaining_text := after_value |}
  | Some pos_equal =>
      let option := strip (take pos_equal line) in
      let raw_value := strip (drop (pos_equal + 1) line) in
      match raw_value with
      | [] => Ok {| name := option; value := Some []; remaining_text := [] |}
      | quote :: _ =>
          if bool_decide (quote = "'"%char) || bool_decide (quote = "034"%char) then parse_quoted option quote raw_value
          else
            let '(v, after_value) := split_comment raw_value in
            Ok {| name := option; value := Some (parse_escape_sequence_from_file (strip v) "000"); remaining_text := after_value |}
      end
  end.
End escape.

(** ** Groups and options in memory *)

Section operations.
Context (c : Config_file).

Definition gnorm : str → str := group_norm (m_group_case c).

Definition groups : list str := (m_configmap c).*1.

Definition has_group (group : str) : bool := map_has gnorm group (m_configmap c).

Definition add_group (group : str) : bool * Config_file :=
  (negb (has_group group), with_configmap (map_emplace gnorm group [] (m_configmap c)) c).

Definition remove_group (group : str) : bool * Config_file :=
  if has_group group then (true, with_configmap (map_erase gnorm group (m_configmap c)) c) else (false, c).

Definition group_options (group : str) : Option_map := default [] (map_at gnorm group (m_configmap c)).

Definition options (group : str) : result (list str) :=
  if has_group group then Ok ((λ element, original_option element.1) <$> group_options group)
  else Throw (out_of_range "Group does not exist.").

Definition has_option (group opt : str) : bool :=
  has_group group && map_has key (convert_option_to_key opt) (group_options group).

Definition get (group opt : str) : result (option str) :=
  match (if has_option group opt then map_at key (convert_option_to_key opt) (group_options group) else None) with
  | Some value => Ok value
  | None => Throw (out_of_range "Option does not exist in group.")
  end.

Definition set (group opt : str) (value : option str) : result Config_file :=
  if has_group group then
    let opt_key := convert_option_to_key opt in
    Ok (with_configmap (map_insert gnorm group (map_insert key opt_key value (group_options group)) (m_configmap c)) c)
  else Throw (out_of_range "Group does not exist.").

Definition remove_option (group opt : str) : result (bool * Config_file) :=
  if has_group group then
    if has_option group opt then
      let opt_key := convert_option_to_key opt in
      Ok (true, with_configmap (map_insert gnorm group (map_erase key opt_key (group_options group)) (m_configmap c)) c)
    else Ok (false, c)
  else Throw (out_of_range "Group does not exist.").

Definition clear : Config_file := with_configmap [] c.
End operations.

(** ** Files *)

Section files.
Context (home : option str → str) (getcwd : str)
        (listdir : str → result (list str))   (* [shcore::listdir] *)
        (writable : str → bool).              (* [check_file_writable_or_throw] *)

Definition fs : Type := gmap str str.

Fixpoint foldM {A B} (f : A → B → result A) (a : A) (l : list B) : result A :=
  match l with
  | [] => Ok a
  | b :: l => a ← f a b; foldM f a l
  end.

Definition parse_include_path (line base_path : str) : result str :=
  if str_beginswith_pair line ($"!include ") then
    Ok (get_absolute_path home getcwd (strip (drop 9 line)) (dirname base_path))
  else if str_beginswith_pair line ($"!includedir ") then
    Ok (get_absolute_path home getcwd (strip (drop 12 line)) (dirname base_path))
  else Throw (runtime_error "No !include or !includedir directive found on line").

Definition is_config_file (filename : str) : bool :=
  match find_last_if (λ c, bool_decide (c = "."%char)) filename with
  | None => false
  | Some last_dot => bool_decide (last_dot + 2 ≤ length filename) && bool_decide (drop (last_dot + 1) filename = $"cnf")
  end.

Definition get_config_files_in_dir (dir_path : str) : result (list str) :=
  names ← listdir dir_path;
  Ok ((λ filename, join_path [dir_path; filename]) <$> filter (λ filename, is_config_file filename = true) (names : list str)).

(** [depth] more levels of inclusion are read; the code starts with 10. *)
Fixpoint get_include_files (files : fs) (depth : nat) (cnf_path : str) (out_files : list str) : result (list str) :=
  match depth with
  | O => Ok out_files
  | S depth =>
      match files !! cnf_path with
      | None => Throw (runtime_error "Cannot open file")
      | Some text =>
          let include out_files include_file_path :=
            if bool_decide (include_file_path ∈ out_files) then Ok out_files
            else get_include_files files depth include_file_path out_files in
          foldM (λ out_files line,
            let trimmed_line := strip line in
            if bool_decide (trimmed_line = []) then Ok out_files
            else if negb (bool_decide (head trimmed_line = Some "!"%char)) then Ok out_files
            else if str_beginswith_pair trimmed_line ($"!include ") then
              path ← parse_include_path trimmed_line cnf_path;
              include out_files path
            else if str_beginswith_pair trimmed_line ($"!includedir ") then
              dir ← parse_include_path trimmed_line cnf_path;
              files_to_include ← get_config_files_in_dir dir;
              foldM include out_files files_to_include
            else Throw (runtime_error "Invalid directive")) (set_insert cnf_path out_files) (getlines text)
      end
  end.

Section config.
Context (c : Config_file).

(** *** Reading *)

Definition prefix_matches (group_prefix in_group : str) : bool :=
  bool_decide (group_prefix = []) ||
  match m_group_case c with
  | INSENSITIVE => str_ibeginswith_pair in_group group_prefix
  | SENSITIVE => str_beginswith_pair in_group group_prefix
  end.

(** A line that is not a directive: a comment, a group or an option. *)
Definition read_line (group_prefix : str) (state : container * str) (trimmed_line : str) : result (container * str) :=
  let '(out_map, in_group) := state in
  match trimmed_line with
  | [] => Ok state
  | first :: _ =>
      if bool_decide (first ∈ $"#;") then Ok state
      else if bool_decide (first ∈ $",=") then Throw (runtime_error "Line starts with invalid character")
      else if bool_decide (first = "["%char) then
        in_group ← parse_group_line trimmed_line;
        if negb (map_has (gnorm c) in_group out_map) && prefix_matches group_prefix in_group
        then Ok (map_emplace (gnorm c) in_group [] out_map, in_group)
        else Ok (out_map, in_group)
      else
        res ← parse_option_line (m_escape_characters c) trimmed_line;
        if bool_decide (in_group = []) then Throw (runtime_error "Group missing before option")
        else if prefix_matches group_prefix in_group then
          let opts := default [] (map_at (gnorm c) in_group out_map) in
          Ok (map_insert (gnorm c) in_group (map_insert key (convert_option_to_key (name res)) (value res) opts) out_map, in_group)
        else Ok (out_map, in_group)
  end.

Fixpoint read_recursive_aux (files : fs) (depth : nat) (cnf_path group_prefix : str) (out_map : container) : result container :=
  match depth with
  | O => Ok out_map
  | S depth =>
      match files !! cnf_path with
      | None => Throw (runtime_error "Cannot open file")
      | Some text =>
          let include out_map include_file_path := read_recursive_aux files depth include_file_path group_prefix out_map in
          '(out_map, _) ←
            foldM (λ state line,
              let trimmed_line := strip line in
              if bool_decide (head trimmed_line = Some "!"%char) then
                let '(out_map, in_group) := state in
                if str_beginswith_pair trimmed_line ($"!include ") then
                  path ← parse_include_path trimmed_line cnf_path;
                  out_map ← include out_map path;
                  Ok (out_map, in_group)
                else if str_beginswith_pair trimmed_line ($"!includedir ") then
                  dir ← parse_include_path trimmed_line cnf_path;
                  files_to_include ← get_config_files_in_dir dir;
                  out_map ← foldM include out_map files_to_include;
                  Ok (out_map, in_group)
                else Throw (runtime_error "Invalid directive")
              else read_line group_prefix state trimmed_line) (out_map, []) (getlines text);
          Ok out_map
      end
  end.

Definition read (files : fs) (cnf_path group_prefix : str) : result Config_file :=
  m ← read_recursive_aux files 10 cnf_path group_prefix [];
  Ok (with_configmap m c).

(** *** Writing *)

(** Lines are written with their end. *)
Definition option_line (opt_pair : Option_key * option str) : str :=
  match opt_pair.2 with
  | None => c_str (original_option opt_pair.1)
  | Some value => c_str (original_option opt_pair.1) ++ $" = " ++ c_str (convert_value_for_file (m_escape_characters c) value)
  end.

(** The new options of a group, and an empty line. *)
Definition new_options (track : container) (in_group : str) : list str * container :=
  match map_at (gnorm c) in_group track with
  | None => ([], track)
  | Some opts => (match opts with [] => [] | _ => (option_line <$> opts) ++ [[]] end, map_erase (gnorm c) in_group track)
  end.

(** The state of the loop over the lines of a file. *)
Record Update := { u_out : list str; u_track : container; u_group : str; u_delete : bool }.

Definition emit (lines : list str) (u : Update) : Update :=
  {| u_out := u_out u ++ lines; u_track := u_track u; u_group := u_group u; u_delete := u_delete u |}.

Definition update_group (in_include_file : bool) (u : Update) (line new_group : str) : Update :=
  let '(lines, track) := if in_include_file then ([], u_track u) else new_options (u_track u) (u_group u) in
  let delete_group := negb (has_group c new_group) in
  {| u_out := u_out u ++ lines ++ (if delete_group then [] else [line]); u_track := track; u_group := new_group;
     u_delete := delete_group |}.

Definition update_option (u : Update) (line : str) (parse_res : Parse_result) : Update :=
  let opt_key := convert_option_to_key (name parse_res) in
  match map_find key opt_key (group_options c (u_group u)) with
  | None => u
  | Some (k, v) =>
      let text := if bool_decide (v = value parse_res) then line
                  else match v with
                       | None => c_str (original_option k) ++ remaining_text parse_res
                       | Some w => c_str (original_option k) ++ $" = " ++ c_str (convert_value_for_file (m_escape_characters c) w) ++
                                   remaining_text parse_res
                       end in
      let track := match map_at (gnorm c) (u_group u) (u_track u) with
                   | Some opts => map_insert (gnorm c) (u_group u) (map_erase key opt_key opts) (u_track u)
                   | None => u_track u
                   end in
      {| u_out := u_out u ++ [text]; u_track := track; u_group := u_group u; u_delete := u_delete u |}
  end.

Definition update_line (in_include_file : bool) (u : Update) (line : str) : result Update :=
  let trimmed_line := strip line in
  match trimmed_line with
  | [] => Ok (if u_delete u then u else emit [line] u)
  | first :: _ =>
      if bool_decide (first ∈ $"#;") then Ok (if u_delete u then u else emit [line] u)
      else if bool_decide (first = "!"%char) then Ok (emit [line] u)
      else if bool_decide (first = "["%char) then
        new_group ← parse_group_line trimmed_line;
        Ok (update_group in_include_file u line new_group)
      else
        parse_res ← parse_option_line (m_escape_characters c) trimmed_line;
        if bool_decide (u_group u = []) then Throw (runtime_error "Group missing before option")
        else Ok (if u_delete u then u else update_option u line parse_res)
  end.

(** The lines of an existing file. *)
Definition update_file (in_include_file : bool) (text : str) (track : container) : result (list str * container) :=
  u ← foldM (update_line in_include_file) {| u_out := []; u_track := track; u_group := []; u_delete := false |} (getlines text);
  if in_include_file then Ok (u_out u, u_track u)
  else let '(lines, track) := new_options (u_track u) (u_group u) in Ok (u_out u ++ lines, track).

(** New groups at the end of the main file. *)
Definition group_lines (grp_pair : str * Option_map) : list str :=
  ($"[" ++ c_str grp_pair.1 ++ $"]") :: (option_line <$> grp_pair.2) ++ [[]].

Definition new_groups (track : container) : list str :=
  match track with [] => [] | _ => [] :: concat (group_lines <$> track) end.

Definition unlines (lines : list str) : str := concat ((λ line, line ++ ["010"%char]) <$> lines).

(** One of the files, with those written before it. *)
Definition write_file (files : fs) (update : bool) (state : bool * container * list (str * str)) (file_path : str)
    : result (bool * container * list (str * str)) :=
  let '(in_include_file, track, files_to_copy) := state in
  '(lines, track) ← (if update then
                       match files !! file_path with
                       | None => Throw (runtime_error "Cannot open file")
                       | Some text => update_file in_include_file text track
                       end
                     else Ok ([], track));
  let '(lines, track) := if in_include_file then (lines, track) else (lines ++ new_groups track, []) in
  Ok (true, track, files_to_copy ++ [(file_path, unlines lines)]).

Definition write (files : fs) (cnf_path : str) : result fs :=
  if negb (writable cnf_path) then Throw (runtime_error "File is not writable")
  else
    let update := bool_decide (is_Some (files !! cnf_path)) in
    cnf_files_to_write ← (if update then get_include_files files 10 cnf_path [] else Ok (set_insert cnf_path []));
    '(_, files_to_copy) ← foldM (write_file files update) (false, m_configmap c, []) cnf_files_to_write;
    Ok (foldl (λ files copy_pair, <[copy_pair.1 := copy_pair.2]> files) files files_to_copy).
End config.
End files.
