(* ===== verification/OptionLinesFacts.v ===== *)
(** * Option files: lines

    Values survive being escaped, quoted and read; a line that is written for an option is
    read as that option. *)
From S2P Require Import Prelude UtilsString UtilsStringFacts Lexing GtidUtilsFacts StdMap ConfigFile.

Open Scope nat_scope.

(** ** Stripping *)

Definition blank (c : ascii) : bool := mem_chars k_blanks c.

Lemma find_last_if_app_r P a b i : find_last_if P b = Some i → find_last_if P (a ++ b) = Some (length a + i).
Proof. intros E. induction a as [|c a IH]; [done|]. cbn [app find_last_if length plus]. by rewrite IH. Qed.

Lemma find_last_if_app_l P a b : find_last_if P b = None → find_last_if P (a ++ b) = find_last_if P a.
Proof. intros E. induction a as [|c a IH]; [done|]. cbn [app find_last_if]. by rewrite IH. Qed.

Lemma strip_unique l m r :
  Forall (λ c, blank c = true) l → Forall (λ c, blank c = true) r →
  (∀ c, head m = Some c → blank c = false) → (∀ c, last m = Some c → blank c = false) → strip (l ++ m ++ r) = m.
Proof.
  intros Hl Hr Hh Hlast. unfold strip, str_strip, str_strip_view, find_first_not_of, find_last_not_of. rewrite from_0.
  assert (∀ s, Forall (λ c, blank c = true) s → Forall (λ c, negb (mem_chars k_blanks c) = false) s) as Hb.
  { intros s Hs. eapply Forall_impl; [exact Hs|]. intros c Hc. by apply negb_false_iff. }
  destruct m as [|d m _] using rev_ind.
  - cbn [app]. rewrite (proj2 (find_if_None _ _)); [done|]. apply Forall_app; auto.
  - assert (mem_chars k_blanks d = false) as Hd by (apply Hlast; apply last_snoc).
    rewrite (find_if_app_r _ l) by (apply find_if_None; auto).
    assert (find_if (λ c, negb (mem_chars k_blanks c)) ((m ++ [d]) ++ r) = Some 0) as ->.
    { destruct m as [|c m]; cbn [app find_if]; [by rewrite Hd|].
      by rewrite (Hh c eq_refl : mem_chars k_blanks c = false). }
    assert (find_last_if (λ c, negb (mem_chars k_blanks c)) (l ++ (m ++ [d]) ++ r) = Some (length l + (length m + 0))) as ->.
    { apply find_last_if_app_r. rewrite find_last_if_app_l by (apply find_last_if_None; auto).
      apply find_last_if_app_r. cbn [find_last_if]. by rewrite Hd. }
    cbn [fmap option_fmap option_map]. unfold substr. rewrite !Nat.add_0_r, drop_app_length.
    replace (length l + length m - length l + 1) with (length (m ++ [d])) by (rewrite length_app; cbn; lia).
    by rewrite take_app_length.
Qed.

(** What stripping leaves. *)
Definition stripped (s : str) : Prop := (∀ c, head s = Some c → blank c = false) ∧ (∀ c, last s = Some c → blank c = false).

Lemma strip_stripped s : stripped s → strip s = s.
Proof. intros [Hh Hl]. rewrite <- (app_nil_r s) at 1. by apply (strip_unique [] s []). Qed.

Lemma strip_decompose s :
  ∃ l r, s = l ++ strip s ++ r ∧ Forall (λ c, blank c = true) l ∧ Forall (λ c, blank c = true) r ∧ stripped (strip s).
Proof. destruct (str_strip_decompose s k_blanks) as (l & r & E & Hl & Hr & Hh & Ht). by exists l, r. Qed.

Lemma strip_strip s : strip (strip s) = strip s.
Proof. apply strip_stripped. by destruct (strip_decompose s) as (_ & _ & _ & _ & _ & ?). Qed.

Lemma strip_blanks l s r :
  Forall (λ c, blank c = true) l → Forall (λ c, blank c = true) r → strip (l ++ s ++ r) = strip s.
Proof.
  intros Hl Hr. destruct (strip_decompose s) as (a & b & E & Ha & Hb & Hs). rewrite E at 1.
  replace (l ++ (a ++ strip s ++ b) ++ r) with ((l ++ a) ++ strip s ++ (b ++ r)) by (by rewrite <- !(assoc_L (++))).
  apply strip_unique; [by apply Forall_app|by apply Forall_app|apply Hs|apply Hs].
Qed.

Lemma strip_head bl d z : Forall (λ c, blank c = true) bl → blank d = false → head (strip (bl ++ d :: z)) = Some d.
Proof.
  intros Hbl Hd. rewrite <- (app_nil_r (d :: z)), strip_blanks by done.
  destruct (strip_decompose (d :: z)) as (l & r & E & Hl & Hr & _). destruct l as [|c l].
  - destruct (strip (d :: z)) as [|c s]; [|injection E as <- _; done]. cbn in E. subst r. apply Forall_cons in Hr as [? _]. congruence.
  - injection E as <- _. apply Forall_cons in Hl as [? _]. congruence.
Qed.

(** ** Escapes *)

Lemma unescape_escape quote quote' value :
  (quote = quote' ∨ quote ∉ value) → quote' ∉ [backslash; "n"%char; "t"%char; "b"%char; "r"%char] →
  unescape_loop quote' (concat (escape_char quote <$> value)) false = value.
Proof.
  intros Hq Hq'. induction value as [|c value IH]; [done|]. cbn [fmap list_fmap concat].
  assert (quote = quote' ∨ quote ∉ value) as IHq by (destruct Hq as [|Hq]; [by left|]; apply not_elem_of_cons in Hq as [_ ?]; by right).
  specialize (IH IHq). unfold escape_char at 1.
  rewrite !not_elem_of_cons in Hq'. destruct Hq' as (? & ? & ? & ? & ? & _).
  case_bool_decide as Hcq.
  { subst c. destruct Hq as [-> |Hq]; [|by apply not_elem_of_cons in Hq as [? _]].
    cbn [app unescape_loop]. rewrite (bool_decide_eq_true_2 (backslash = backslash)), (bool_decide_eq_true_2 (quote' = quote')) by done. by rewrite IH. }
  repeat (case_bool_decide; [subst c; cbn [app unescape_loop]; rewrite (bool_decide_eq_true_2 (backslash = backslash)) by done;
    rewrite (bool_decide_eq_false_2 (_ = quote')) by congruence; cbn; by rewrite IH|]).
  cbn [app unescape_loop]. rewrite (bool_decide_eq_false_2 (c = backslash)) by done. by rewrite IH.
Qed.

(** The escaped text has no end of the quoted value in it. *)
Lemma scan_escaped_value quote quote' value rest i :
  (quote = quote' ∨ quote' ∉ value) → quote' ∉ [backslash; "n"%char; "t"%char; "b"%char; "r"%char] →
  scan_quote quote' (concat (escape_char quote <$> value) ++ quote' :: rest) i false =
  (i + length (concat (escape_char quote <$> value)), false).
Proof.
  intros Hq Hq'. revert i. induction value as [|c value IH]; intros i.
  { cbn. rewrite (bool_decide_eq_false_2 (quote' ≠ quote')) by tauto. cbn. by rewrite Nat.add_0_r. }
  cbn [fmap list_fmap concat].
  assert (quote = quote' ∨ quote' ∉ value) as IHq by (destruct Hq as [|Hq]; [by left|]; apply not_elem_of_cons in Hq as [_ ?]; by right).
  specialize (IH IHq). rewrite <- (assoc_L (++)), length_app.
  rewrite !not_elem_of_cons in Hq'. destruct Hq' as (Hb & _).
  assert ((∃ x, escape_char quote c = [backslash; x]) ∨ (escape_char quote c = [c] ∧ c ≠ quote ∧ c ≠ backslash)) as [[x ->]|(-> & Hc & Hcb)].
  { unfold escape_char. repeat (case_bool_decide; [left; by eexists|]). by right. }
  - cbn [app scan_quote]. rewrite (bool_decide_eq_true_2 (backslash ≠ quote')) by done. cbn [orb negb andb].
    rewrite (bool_decide_eq_true_2 (backslash = backslash)) by done. cbn [andb]. rewrite orb_true_r, andb_false_r, IH.
    f_equal. cbn. lia.
  - cbn [app scan_quote]. rewrite (bool_decide_eq_true_2 (c ≠ quote')).
    2: { destruct Hq as [-> |Hq]; [done|]. apply not_elem_of_cons in Hq as [? _]. done. }
    cbn [orb]. rewrite (bool_decide_eq_false_2 (c = backslash)) by done. cbn [andb]. rewrite IH. f_equal. cbn. lia.
Qed.

(** ** Lines *)

(** Names that are written as they are. *)
Record name_ok (n : str) : Prop := {
  name_stripped : stripped n;
  name_chars : ∀ c, c ∈ n → c ∉ ["="%char; "#"%char; "010"%char; nul];
  name_first : ∃ c, head n = Some c ∧ c ∉ $"[!;,#=";
}.

(** Text behind a value: blanks, or a comment. *)
Definition comment_ok (rem : str) : Prop := strip rem = [] ∨ head (strip rem) = Some "#"%char.

Lemma strip_nil s : strip s = [] → Forall (λ c, blank c = true) s.
Proof.
  intros E. destruct (strip_decompose s) as (l & r & Es & Hl & Hr & _). rewrite Es, E. by apply Forall_app.
Qed.

(** Behind a text that starts and ends with other characters than blanks. *)
Lemma strip_comment text rem :
  text ≠ [] → stripped text → comment_ok rem →
  ∃ w, strip (text ++ rem) = text ++ w ∧ (w = [] ∨ ∃ bl z, w = bl ++ "#"%char :: z ∧ Forall (λ c, blank c = true) bl) ∧ w `prefix_of` rem.
Proof.
  intros Hne [Hh Hl] [E|E].
  - exists []. rewrite app_nil_r. split; [|split; [by left|apply prefix_nil]]. apply strip_nil in E. by apply (strip_unique [] text rem).
  - destruct (strip_decompose rem) as (l & r & Er & Hbl & Hbr & [Hsh Hsl]). destruct (strip rem) as [|d z] eqn:Es; [done|]. injection E as ->.
    exists (l ++ "#"%char :: z). split; [|split; [right; by exists l, z|exists r; by rewrite Er, <- (assoc_L (++))]].
    rewrite Er. replace (text ++ l ++ ("#"%char :: z) ++ r) with ([] ++ (text ++ l ++ "#"%char :: z) ++ r) by (by rewrite <- !(assoc_L (++))).
    apply strip_unique; [done|done| |].
    + intros c. destruct text; [done|]. apply Hh.
    + intros c. rewrite last_app. destruct (last (l ++ _)) eqn:El; [|by apply last_None in El; destruct l].
      intros [= ->]. rewrite last_app in El. apply Hsl. by destruct (last ("#"%char :: z)) eqn:Ez; [|by apply last_None in Ez].
Qed.

Lemma blank_chars c : blank c = true → c ≠ "#"%char ∧ c ≠ "="%char ∧ c ≠ nul ∧ c ≠ "'"%char ∧ c ≠ "034"%char.
Proof. by_bytes c. Qed.

(** The comment is split off again. *)
Lemma split_comment_app text w :
  "#"%char ∉ text → stripped text → (w = [] ∨ ∃ bl z, w = bl ++ "#"%char :: z ∧ Forall (λ c, blank c = true) bl) →
  strip (split_comment (text ++ w)).1 = text.
Proof.
  intros Ht Hs [-> |(bl & z & -> & Hb)]; unfold split_comment.
  - rewrite app_nil_r, find_char_None by done. by apply strip_stripped.
  - rewrite (assoc_L (++)), find_char_app.
    + cbn [fst]. rewrite take_app_length. rewrite <- (app_nil_l (text ++ bl)). apply strip_unique; [done|done|apply Hs|apply Hs].
    + rewrite not_elem_of_app. split; [done|]. intros Hin. rewrite Forall_forall in Hb. apply Hb in Hin. by apply blank_chars in Hin as [? _].
Qed.

(** A line without a value. *)
Lemma name_line n rem :
  name_ok n → comment_ok rem → "="%char ∉ rem →
  ∃ r, parse_option_line YES (strip (n ++ rem)) = Ok r ∧ name r = n ∧ value r = None.
Proof.
  intros [Hs Hc (c & Hh & _)] Hrem Heq. destruct (strip_comment n rem) as (w & -> & Hw & Hp); [by destruct n|done|done|].
  unfold parse_option_line. rewrite find_char_None.
  - pose proof (split_comment_app n w ltac:(intros Hin; apply Hc in Hin; set_solver) Hs Hw) as E.
    destruct (split_comment (n ++ w)) as [option after]. cbn [fst] in E. by eexists.
  - rewrite not_elem_of_app. split; [intros Hin; apply Hc in Hin; set_solver|]. destruct Hp as [k Hp].
    rewrite Hp, not_elem_of_app in Heq. tauto.
Qed.

(** What is read of the text behind the equals sign. *)
Definition read_value (option raw_value : str) : result Parse_result :=
  match raw_value with
  | [] => Ok {| name := option; value := Some []; remaining_text := [] |}
  | quote :: _ =>
      if bool_decide (quote = "'"%char) || bool_decide (quote = "034"%char) then parse_quoted YES option quote raw_value
      else
        let '(v, after_value) := split_comment raw_value in
        Ok {| name := option; value := Some (parse_escape_sequence_from_file YES (strip v) "000"); remaining_text := after_value |}
  end.

Lemma equals_line n text :
  name_ok n → parse_option_line YES (strip (n ++ $" = " ++ text)) = read_value n (strip text).
Proof.
  intros [Hs Hc (c & Hh & _)].
  assert (∃ a, strip (n ++ $" = " ++ text) = n ++ $" =" ++ a ∧ strip a = strip text) as (a & -> & Ha).
  { assert (stripped (n ++ $" =")) as [Hh' Hl'].
    { split; [intros d; destruct n; [done|]; apply Hs|]. intros d. rewrite last_app. intros [= <-]. done. }
    replace (n ++ $" = " ++ text) with ((n ++ $" =") ++ $" " ++ text) by (by rewrite <- (assoc_L (++))).
    destruct (strip_decompose text) as (l & r & Et & Hbl & Hbr & [Hsh Hsl]).
    assert (Forall (λ c, blank c = true) ($" " ++ l)) as Hbl' by (by constructor).
    destruct (decide (strip text = [])) as [E|E].
    - exists []. rewrite E. split; [|done]. rewrite app_nil_r.
      apply (strip_unique [] (n ++ $" =") ($" " ++ text)); [done| |done|done]. constructor; [done|]. by apply strip_nil.
    - exists ($" " ++ l ++ strip text). split.
      + rewrite Et at 1. replace ((n ++ $" =") ++ $" " ++ l ++ strip text ++ r) with ([] ++ ((n ++ $" =") ++ ($" " ++ l) ++ strip text) ++ r)
          by (by rewrite <- !(assoc_L (++))).
        rewrite strip_unique; [by rewrite <- !(assoc_L (++))|done|done| |].
        * intros d. destruct n; [done|]. apply Hs.
        * intros d. rewrite !last_app. destruct (last (strip text)) eqn:El; [|by apply last_None in El]. intros [= <-]. by apply Hsl.
      + replace ($" " ++ l ++ strip text) with (($" " ++ l) ++ strip text ++ []) by (by rewrite app_nil_r).
        by apply strip_unique. }
  unfold parse_option_line. replace (n ++ $" =" ++ a) with ((n ++ $" ") ++ "="%char :: a) by (by rewrite <- (assoc_L (++))).
  rewrite find_char_app by (rewrite not_elem_of_app; split; [intros Hin; apply Hc in Hin; set_solver|by apply (bool_decide_unpack _)]).
  rewrite take_app_length. replace (drop _ ((n ++ $" ") ++ "="%char :: a)) with a.
  2: { rewrite <- drop_drop, drop_app_length. done. }
  rewrite Ha. assert (strip (n ++ $" ") = n) as ->; [|done].
  rewrite <- (app_nil_l (n ++ _)). apply strip_unique; [done|by constructor|apply Hs|apply Hs].
Qed.


(** The characters for which a value is quoted. *)
Definition special : str := $"# '" ++ ["034"%char].

(** Values written without quotes: no blanks, no quotes and no comment are in the text. *)
Lemma unquoted_chars c d :
  c ∉ special → c ≠ nul → d ∈ escape_char nul c → blank d = false ∧ d ≠ "#"%char ∧ d ≠ "'"%char ∧ d ≠ "034"%char ∧ d ≠ nul.
Proof.
  intros H1 H2 H3. assert (Forall (λ d, blank d = false ∧ d ≠ "#"%char ∧ d ≠ "'"%char ∧ d ≠ "034"%char ∧ d ≠ nul) (escape_char nul c)) as Hf.
  { revert H1 H2. clear. by_bytes c. }
  rewrite Forall_forall in Hf. by apply Hf.
Qed.

(** A text with the escaped characters of a value. *)
Definition escaped (quote : ascii) (v : str) : str := concat (escape_char quote <$> v).

Lemma unquoted_text v :
  (∀ c, c ∈ v → (c ∉ special) ∧ c ≠ nul) →
  Forall (λ d, blank d = false ∧ d ≠ "#"%char ∧ d ≠ "'"%char ∧ d ≠ "034"%char ∧ d ≠ nul) (escaped nul v).
Proof.
  intros Hv. unfold escaped. induction v as [|c v IH]; [done|]. cbn [fmap list_fmap concat]. apply Forall_app. split.
  - apply Forall_forall. intros d Hd. destruct (Hv c); [by left|]. by eapply unquoted_chars.
  - apply IH. intros d Hd. apply Hv. by right.
Qed.

Lemma Forall_stripped s : Forall (λ d, blank d = false) s → stripped s.
Proof.
  intros Hs. rewrite Forall_forall in Hs. split; intros c Hc; apply Hs.
  - destruct s; [done|]. injection Hc as ->. by left.
  - apply last_Some in Hc as [l ->]. set_solver.
Qed.

Lemma escaped_nil quote v : escaped quote v = [] → v = [].
Proof.
  destruct v as [|c v]; [done|]. unfold escaped. cbn [fmap list_fmap concat]. intros [E _]%app_eq_nil. revert E. unfold escape_char.
  by repeat case_bool_decide.
Qed.

(** A value behind no quote. *)
Lemma read_unquoted n v rem :
  (∀ c, c ∈ v → (c ∉ special) ∧ c ≠ nul) → comment_ok rem →
  ∃ r, read_value n (strip (escaped nul v ++ rem)) = Ok r ∧ name r = n ∧ value r = Some v.
Proof.
  intros Hv Hrem. pose proof (unquoted_text v Hv) as Hf. destruct (decide (v = [])) as [-> |Hne].
  { cbn [escaped fmap list_fmap concat app]. destruct Hrem as [E|E]; [rewrite E; by eexists|].
    destruct (strip rem) as [|d z] eqn:Es; [done|]. injection E as ->. cbn [read_value].
    rewrite (bool_decide_eq_false_2 ("#"%char = _)), (bool_decide_eq_false_2 ("#"%char = "034"%char)) by done. cbn [orb].
    pose proof (split_comment_app [] ("#"%char :: z)) as E2. cbn [app] in E2.
    destruct (split_comment ("#"%char :: z)) as [x y]. cbn [fst] in E2. rewrite E2; [by eexists|by apply not_elem_of_nil|done|].
    right. exists [], z. done. }
  assert (escaped nul v ≠ []) as Hne' by (intros E; by apply escaped_nil in E).
  assert (stripped (escaped nul v)) as Hs by (apply Forall_stripped; eapply Forall_impl; [exact Hf|]; by intros ? [? _]).
  destruct (strip_comment (escaped nul v) rem Hne' Hs Hrem) as (w & -> & Hw & _). unfold read_value.
  destruct (escaped nul v ++ w) as [|d l] eqn:E; [by apply app_eq_nil in E as [? _]|]. rewrite <- E.
  assert (d ∈ escaped nul v) as Hd by (destruct (escaped nul v); [done|]; injection E as -> _; by left).
  rewrite Forall_forall in Hf. destruct (Hf d Hd) as (_ & _ & ? & ? & _). rewrite !bool_decide_eq_false_2 by done. cbn [orb].
  pose proof (split_comment_app (escaped nul v) w) as E2. destruct (split_comment _) as [x y]. cbn [fst] in E2.
  rewrite E2; [|intros Hin; by apply Hf in Hin as (_ & ? & _)|done|done]. eexists. split; [done|]. split; [done|].
  cbn [value]. f_equal. unfold parse_escape_sequence_from_file, escaped. rewrite bool_decide_eq_false_2 by done.
  apply unescape_escape; [by left|by apply (bool_decide_unpack _)].
Qed.

(** A value between quotes. *)
Lemma read_quoted n v rem quote quote' :
  quote' ∈ ["'"%char; "034"%char] → (quote = quote' ∨ ((quote' ∉ v) ∧ (quote ∉ v))) → comment_ok rem →
  ∃ r, read_value n (strip (([quote'] ++ escaped quote v ++ [quote']) ++ rem)) = Ok r ∧ name r = n ∧ value r = Some v.
Proof.
  intros Hq Hv Hrem. assert (blank quote' = false ∧ (quote' ∉ [backslash; "n"%char; "t"%char; "b"%char; "r"%char]) ∧
    bool_decide (quote' = "'"%char) || bool_decide (quote' = "034"%char) = true) as (Hb & Hq' & Hdec).
  { rewrite !elem_of_cons, elem_of_nil in Hq. destruct Hq as [-> |[-> |[]]]; (split; [done|]; split; [by apply (bool_decide_unpack _)|done]). }
  destruct (strip_comment ([quote'] ++ escaped quote v ++ [quote']) rem) as (w & -> & Hw & _); [done| |done|].
  { split; [by intros c [= <-]|]. rewrite (assoc_L (++)). intros c. rewrite last_snoc. by intros [= <-]. }
  rewrite <- !(assoc_L (++)). cbn [app read_value]. rewrite Hdec. unfold parse_quoted, get_quote_span.
  rewrite bool_decide_eq_false_2 by (cbn; rewrite length_app; cbn; lia). cbn [scan_quote].
  rewrite (bool_decide_eq_false_2 (quote' ≠ quote')) by tauto. cbn [orb]. rewrite bool_decide_eq_false_2 by done.
  cbn [plus drop]. rewrite drop_0. unfold escaped at 1. rewrite scan_escaped_value; [|tauto|done].
  fold (escaped quote v). rewrite bool_decide_eq_false_2 by (cbn; rewrite length_app; cbn; lia).
  replace (drop (1 + length (escaped quote v) + 1) (quote' :: escaped quote v ++ quote' :: w)) with w.
  2: { cbn [plus drop]. rewrite <- drop_drop, drop_app_length. done. }
  assert (negb (bool_decide (strip w = [])) && negb (bool_decide (head (strip w) = Some "#"%char)) = false) as ->.
  { destruct Hw as [-> |(bl & z & -> & Hbl)]; [done|].
    apply andb_false_iff. right. apply negb_false_iff, bool_decide_eq_true_2. by apply strip_head. }
  eexists. split; [done|]. split; [done|]. cbn [value]. f_equal. unfold parse_escape_sequence_from_file.
  rewrite bool_decide_eq_false_2 by done. unfold substr. cbn [plus drop].
  rewrite drop_0. replace (S (length (escaped quote v)) - 0 - 1) with (length (escaped quote v)) by lia. rewrite take_app_length.
  apply unescape_escape; [tauto|done].
Qed.

(** The text written for a value, read behind the name. *)
Lemma value_line n v rem :
  name_ok n → nul ∉ v → comment_ok rem →
  ∃ r, parse_option_line YES (strip (n ++ $" = " ++ convert_value_for_file YES v ++ rem)) = Ok r ∧ name r = n ∧ value r = Some v.
Proof.
  intros Hn Hv Hrem. rewrite equals_line by done. unfold convert_value_for_file, parse_escape_sequence_to_file.
  rewrite !(bool_decide_eq_false_2 (YES = NO)) by done. fold special. fold (escaped nul v). fold (escaped "034" v).
  unfold find_first_of, find_char. rewrite !from_0.
  case_bool_decide as E1.
  { apply (read_unquoted n v rem); [|done]. apply find_if_None in E1. rewrite Forall_forall in E1. intros c Hc.
    split; [|by intros ->]. apply E1 in Hc. by apply bool_decide_eq_false_1 in Hc. }
  case_bool_decide as E2.
  - apply (read_quoted n v rem nul "'"); [by repeat constructor| |done]. right. split; [|done].
    intros Hin. apply find_if_None in E2. rewrite Forall_forall in E2. apply E2 in Hin. by apply bool_decide_eq_false_1 in Hin.
  - apply (read_quoted n v rem "034" "034"); [by repeat constructor|by left|done].
Qed.

(** No NUL and no end of line is written for a value. *)
Lemma convert_chars v c : nul ∉ v → c ∈ convert_value_for_file YES v → c ≠ nul ∧ c ≠ "010"%char.
Proof.
  intros Hv. assert (∀ quote, quote ∈ [nul; "034"%char] → c ∈ escaped quote v → c ≠ nul ∧ c ≠ "010"%char) as He.
  { intros quote Hq Hin. unfold escaped in Hin. apply list_elem_of_In, in_concat in Hin as (l & Hl & Hc).
    apply list_elem_of_In, list_elem_of_fmap in Hl as (d & -> & Hd). apply list_elem_of_In in Hc.
    assert (d ≠ nul) as Hdn by (by intros ->). assert (Forall (λ c, c ≠ nul ∧ c ≠ "010"%char) (escape_char quote d)) as Hf.
    { rewrite !elem_of_cons, elem_of_nil in Hq. revert Hdn. destruct Hq as [-> |[-> |[]]]; clear; by_bytes d. }
    rewrite Forall_forall in Hf. by apply Hf. }
  unfold convert_value_for_file, parse_escape_sequence_to_file. rewrite !(bool_decide_eq_false_2 (YES = NO)) by done.
  fold (escaped nul v). fold (escaped "034" v).
  change ($"'") with ["'"%char].
  repeat case_bool_decide; [apply (He nul); by repeat constructor| |]; rewrite !elem_of_app, !list_elem_of_singleton.
  - intros [-> |[Hin| ->]]; [done|apply (He nul); [by repeat constructor|done]|done].
  - intros [-> |[Hin| ->]]; [done|apply (He "034"%char); [by repeat constructor|done]|done].
Qed.
