(* ===== verification/ConfigFileFacts.v ===== *)
(** * Option files: theorems

    The operations in memory as updates of a finite map; reading back what was written: after
    [write], whatever was in the file before, [read] gives the groups and options of the
    configuration. *)
From S2P Require Import Prelude UtilsString UtilsStringFacts Lexing GtidUtilsFacts StdMap Paths ConfigFile OptionLinesFacts.

Open Scope nat_scope.

(** ** The configuration as a map *)

Section lookup.
Context (gn : str → str).

(** Groups and the values of options, for spellings of a group and of an option. *)
Definition has (m : container) (g : str) : Prop := is_Some (map_at gn g m).
Definition look (m : container) (g : str) (k : Option_key) : option (option str) := map_at gn g m ≫= map_at key k.

(** The values of one group replaced. *)
Lemma look_insert m g g' opts k :
  look (map_insert gn g opts m) g' k = if decide (gn g = gn g') then map_at key k opts else look m g' k.
Proof.
  unfold look. case_decide as E.
  - by rewrite (map_at_norm gn g' g), map_at_insert.
  - by rewrite map_at_insert_ne.
Qed.

Lemma has_insert m g g' opts : has (map_insert gn g opts m) g' ↔ gn g = gn g' ∨ has m g'.
Proof.
  unfold has. destruct (decide (gn g = gn g')) as [E|E].
  - rewrite (map_at_norm gn g' g), map_at_insert by done. split; [by left|by eexists].
  - rewrite map_at_insert_ne by done. tauto.
Qed.

(** One option set. *)
Definition put (m : container) (g : str) (k : Option_key) (v : option str) : container :=
  map_insert gn g (map_insert key k v (default [] (map_at gn g m))) m.

Lemma look_put m g k v g' k' :
  look (put m g k v) g' k' = if decide (gn g = gn g' ∧ key k = key k') then Some v else look m g' k'.
Proof.
  unfold put. rewrite look_insert. destruct (decide (gn g = gn g')) as [Eg|Eg]; destruct (decide (key k = key k')) as [Ek|Ek].
  - rewrite decide_True by done. by rewrite (map_at_norm key k' k), map_at_insert.
  - rewrite decide_False by tauto. rewrite map_at_insert_ne by done. unfold look. rewrite (map_at_norm gn g' g) by done.
    by destruct (map_at gn g m).
  - by rewrite decide_False by tauto.
  - by rewrite decide_False by tauto.
Qed.

Lemma has_put m g k v g' : has (put m g k v) g' ↔ gn g = gn g' ∨ has m g'.
Proof. apply has_insert. Qed.

Lemma look_has m g k v : look m g k = Some v → has m g.
Proof. unfold look, has. by destruct (map_at gn g m). Qed.

Lemma look_erase m g g' k :
  map_sorted gn m → look (map_erase gn g m) g' k = if decide (gn g = gn g') then None else look m g' k.
Proof.
  intros Hs. unfold look, map_at. case_decide as E.
  - by rewrite (map_find_norm gn g' g), map_find_erase.
  - by rewrite map_find_erase_ne.
Qed.

Lemma has_erase m g g' : map_sorted gn m → has (map_erase gn g m) g' ↔ gn g ≠ gn g' ∧ has m g'.
Proof.
  intros Hs. unfold has, map_at. destruct (decide (gn g = gn g')) as [E|E].
  - rewrite (map_find_norm gn g' g), map_find_erase by done. split; [by intros [? ?]|tauto].
  - rewrite map_find_erase_ne by done. tauto.
Qed.

Lemma has_emplace m g opts g' : has (map_emplace gn g opts m) g' ↔ gn g = gn g' ∨ has m g'.
Proof.
  unfold map_emplace, map_has. case_bool_decide as E; [|apply has_insert].
  split; [by right|]. intros [Eg|H]; [|done]. unfold has. by rewrite (map_at_norm gn g' g).
Qed.

Lemma look_emplace m g g' k : look (map_emplace gn g [] m) g' k = look m g' k.
Proof.
  unfold map_emplace, map_has. case_bool_decide as E; [done|]. rewrite look_insert. case_decide as Eg; [|done].
  unfold look. rewrite (map_at_norm gn g' g) by done. destruct (map_at gn g m) eqn:Em; [by destruct E|done].
Qed.
End lookup.

(** ** Well-formed configurations *)

Definition option_typed (kv : Option_key * option str) : Prop := convert_option_to_key (original_option kv.1) = kv.1.

(** The type of [m_configmap]: groups and options in order, and keys made from names. *)
Definition container_typed (gn : str → str) (m : container) : Prop :=
  map_sorted gn m ∧ Forall (λ gp, map_sorted key gp.2 ∧ Forall option_typed gp.2) m.

Definition typed (c : Config_file) : Prop := container_typed (gnorm c) (m_configmap c).

Lemma map_at_Forall {K V} (norm : K → str) (P : K * V → Prop) k m v :
  Forall P m → map_at norm k m = Some v → ∃ k', P (k', v) ∧ norm k' = norm k.
Proof.
  intros Hm E. unfold map_at in E. apply fmap_Some in E as ([k' v'] & E & ->). apply map_find_key in E as [Hk Hin].
  rewrite Forall_forall in Hm. exists k'. split; [by apply Hm|done].
Qed.

(** Names keep their key when they are read again. *)
Lemma convert_idempotent n : convert_option_to_key (original_option (convert_option_to_key n)) = convert_option_to_key n.
Proof.
  unfold convert_option_to_key at 2 3. set (k := _ <$> n).
  destruct (str_ibeginswith_pair k ($"loose_")) eqn:E1; cbn [original_option].
  { unfold convert_option_to_key. fold k. by rewrite E1. }
  destruct (str_ibeginswith_pair k ($"group_replication_")) eqn:E2; cbn [original_option].
  - unfold convert_option_to_key. rewrite fmap_app. fold k.
    change ((λ c, if bool_decide (c = "-"%char) then "_"%char else c) <$> $"loose_") with ($"loose_").
    by rewrite ibeginswith_app.
  - unfold convert_option_to_key. fold k. by rewrite E1, E2.
Qed.

Lemma put_typed gn m g n v : container_typed gn m → container_typed gn (put gn m g (convert_option_to_key n) v).
Proof.
  intros [Hs Hm]. split; [by apply map_insert_sorted|]. 
  assert (map_sorted key (default [] (map_at gn g m)) ∧ Forall option_typed (default [] (map_at gn g m))) as [Ho Hk].
  { destruct (map_at gn g m) as [opts|] eqn:E; [|done]. destruct (map_at_Forall _ _ _ _ _ Hm E) as (g1 & ? & _). done. }
  assert (map_sorted key (map_insert key (convert_option_to_key n) v (default [] (map_at gn g m))) ∧
          Forall option_typed (map_insert key (convert_option_to_key n) v (default [] (map_at gn g m)))) as Hnew.
  { split; [by apply map_insert_sorted|]. apply map_insert_Forall; [apply convert_idempotent|done|done]. }
  by apply map_insert_Forall.
Qed.

(** ** The operations in memory *)

(** Letters that differ at most in their case. *)
Definition letter_pairs : list (ascii * ascii) := zip ($"abcdefghijklmnopqrstuvwxyz") ($"ABCDEFGHIJKLMNOPQRSTUVWXYZ").
Definition same_letter (a b : ascii) : Prop := a = b ∨ (a, b) ∈ letter_pairs ∨ (b, a) ∈ letter_pairs.

(** Groups that are the same; without regard to case, texts end at a null character. *)
Definition same_group (c : Config_file) (g g' : str) : Prop :=
  match m_group_case c with
  | SENSITIVE => g = g'
  | INSENSITIVE => Forall2 same_letter (c_str g) (c_str g')
  end.

(** The prefix loose, in any case, with a dash or an underscore. *)
Definition is_loose (p : str) : Prop := Forall2 (λ c d, same_letter c d ∨ (c = "-"%char ∧ d = "_"%char)) p ($"loose_").

(** The name of an option without the prefix, which is taken off once. *)
Definition bare (o r : str) : Prop :=
  (∃ p, is_loose p ∧ o = p ++ r) ∨ ((∀ p r', is_loose p → o ≠ p ++ r') ∧ r = o).

(** Names of the same option: dashes and underscores do not matter, and neither does the
    prefix. *)
Definition same_option (o o' : str) : Prop :=
  ∃ r r', bare o r ∧ bare o' r' ∧ Forall2 (λ a b, a = b ∨ (a ∈ $"-_" ∧ b ∈ $"-_")) r r'.

Lemma tolower_same a b : tolower a = tolower b ↔ same_letter a b.
Proof.
  assert (∀ a, forallb (λ b, bool_decide (tolower a = tolower b ↔ same_letter a b)) all_bytes = true) as H.
  { apply bytes_forall. vm_compute. reflexivity. }
  specialize (H a). rewrite forallb_forall in H. apply (bool_decide_eq_true_1 _), H, list_elem_of_In, elem_of_all_bytes.
Qed.

Lemma str_lower_same s s' : str_lower s = str_lower s' ↔ Forall2 same_letter s s'.
Proof.
  unfold str_lower. revert s'. induction s as [|a s IH]; intros [|b s']; csimpl.
  - split; [constructor|done].
  - split; [done|by inversion 1].
  - split; [done|by inversion 1].
  - rewrite Forall2_cons, <- IH, <- tolower_same. split; [by intros [= -> ->]|by intros [-> ->]].
Qed.

Lemma same_group_norm c g g' : gnorm c g = gnorm c g' ↔ same_group c g g'.
Proof. unfold gnorm, same_group, group_norm. destruct (m_group_case c); [done|apply str_lower_same]. Qed.

(** The replacement of dashes. *)
Definition undash (c : ascii) : ascii := if bool_decide (c = "-"%char) then "_"%char else c.

Lemma undash_same r r' :
  undash <$> r = undash <$> r' ↔ Forall2 (λ a b, a = b ∨ (a ∈ $"-_" ∧ b ∈ $"-_")) r r'.
Proof.
  assert (∀ a b, undash a = undash b ↔ a = b ∨ (a ∈ $"-_" ∧ b ∈ $"-_")) as Hc.
  { intros a b. assert (∀ c, c ∈ $"-_" ↔ c = "-"%char ∨ c = "_"%char) as He by (intros c; cbn; rewrite !elem_of_cons, elem_of_nil; tauto).
    rewrite !He. unfold undash. repeat case_bool_decide; subst; split; intuition congruence. }
  revert r'. induction r as [|a r IH]; intros [|b r']; csimpl.
  - split; [constructor|done].
  - split; [done|by inversion 1].
  - split; [done|by inversion 1].
  - rewrite Forall2_cons, <- IH, <- Hc. split; [by intros [= -> ->]|by intros [-> ->]].
Qed.

Lemma strncasecmp_take k prefix :
  length prefix ≤ length k → nul ∉ prefix →
  strncasecmp_eq k prefix (length prefix) = true ↔ Forall2 same_letter (take (length prefix) k) prefix.
Proof.
  revert k. induction prefix as [|d prefix IH]; intros k Hl Hn; [split; [constructor|by destruct k]|].
  destruct k as [|c k]; [cbn in Hl; lia|]. cbn [length strncasecmp_eq take]. apply not_elem_of_cons in Hn as [Hd Hn].
  rewrite Forall2_cons, <- IH, <- tolower_same by (done || cbn in Hl; lia). case_bool_decide as E; [|by split; [|intros [? _]]].
  rewrite bool_decide_eq_false_2; [tauto|]. intros ->. apply Hd. revert E. clear. unfold nul. by_bytes d.
Qed.

(** A prefix without dashes, where dashes are replaced. *)
Lemma undash_prefix p w :
  "-"%char ∉ w →
  Forall2 (λ c d, same_letter c d ∨ (c = "-"%char ∧ d = "_"%char)) p w ↔ Forall2 same_letter (undash <$> p) w.
Proof.
  assert (∀ d, d ≠ "-"%char → (tolower "-" = tolower d ∨ d = "_"%char) ↔ tolower "_" = tolower d) as Hdash by (intros d; by_bytes d).
  revert w. induction p as [|c p IH]; intros [|d w] Hw; csimpl.
  - by split.
  - split; by inversion 1.
  - split; by inversion 1.
  - apply not_elem_of_cons in Hw as [Hd Hw]. rewrite !Forall2_cons, IH, <- !tolower_same by done. unfold undash.
    case_bool_decide as E; [|tauto]. subst c. rewrite <- (Hdash d) by done. tauto.
Qed.

Lemma is_loose_length p : is_loose p → length p = 6.
Proof. intros H. by apply Forall2_length in H. Qed.

(** The prefix is found exactly where there is one. *)
Lemma loose_found o : str_ibeginswith_pair (undash <$> o) ($"loose_") = true ↔ ∃ p r, is_loose p ∧ o = p ++ r.
Proof.
  assert (∀ p, is_loose p ↔ Forall2 same_letter (undash <$> p) ($"loose_")) as Hp
    by (intros p; apply undash_prefix; by apply (bool_decide_unpack _)).
  unfold str_ibeginswith_pair. rewrite length_fmap. destruct (decide (length o < 6)) as [Hl|Hl].
  - rewrite bool_decide_eq_true_2 by done. split; [done|]. intros (p & r & Hpl%is_loose_length & ->). rewrite length_app in Hl. lia.
  - rewrite bool_decide_eq_false_2 by done.
    rewrite strncasecmp_take; [|rewrite length_fmap; cbn in *; lia|by apply (bool_decide_unpack _)].
    rewrite <- fmap_take, <- Hp. split.
    + intros Hx. exists (take 6 o), (drop 6 o). split; [done|]. by rewrite take_drop.
    + intros (p & r & Hpl & ->). pose proof (is_loose_length p Hpl). cbn [length]. by rewrite take_app_length'.
Qed.

Lemma key_of o : key (convert_option_to_key o) = if str_ibeginswith_pair (undash <$> o) ($"loose_") then undash <$> drop 6 o else undash <$> o.
Proof.
  unfold convert_option_to_key. change (λ c, if bool_decide (c = "-"%char) then "_"%char else c) with undash.
  destruct (str_ibeginswith_pair (undash <$> o) ($"loose_")); [cbn [key]; by rewrite fmap_drop|]. by destruct (str_ibeginswith_pair _ _).
Qed.

Lemma key_bare o r : bare o r → key (convert_option_to_key o) = undash <$> r.
Proof.
  rewrite key_of. intros [(p & Hp & ->)|[Hno ->]].
  - rewrite (proj2 (loose_found (p ++ r))) by (by exists p, r). pose proof (is_loose_length p Hp). by rewrite drop_app_length'.
  - assert (str_ibeginswith_pair (undash <$> o) ($"loose_") = false) as ->; [|done]. apply not_true_iff_false.
    intros (p & r & Hp & E)%loose_found. by apply (Hno p r).
Qed.

Lemma bare_exists o : ∃ r, bare o r.
Proof.
  destruct (str_ibeginswith_pair (undash <$> o) ($"loose_")) eqn:E.
  - apply loose_found in E as (p & r & Hp & ->). exists r. left. by exists p.
  - exists o. right. split; [|done]. intros p r Hp ->. apply not_true_iff_false in E. apply E, loose_found. by exists p, r.
Qed.

Lemma same_option_key o o' : key (convert_option_to_key o) = key (convert_option_to_key o') ↔ same_option o o'.
Proof.
  split.
  - intros E. destruct (bare_exists o) as [r Hr], (bare_exists o') as [r' Hr']. exists r, r'. split_and!; [done|done|].
    apply undash_same. by rewrite <- (key_bare o r), <- (key_bare o' r').
  - intros (r & r' & Hr & Hr' & E%undash_same). by rewrite (key_bare o r), (key_bare o' r').
Qed.

Section operations.
Context (c : Config_file).

Definition value_of (g o : str) : option (option str) := look (gnorm c) (m_configmap c) g (convert_option_to_key o).

Lemma has_group_spec g : has_group c g = true ↔ has (gnorm c) (m_configmap c) g.
Proof. unfold has_group, map_has, has. by rewrite bool_decide_eq_true. Qed.

Lemma group_options_at g : map_at (gnorm c) g (m_configmap c) = Some (group_options c g) ∨ map_at (gnorm c) g (m_configmap c) = None ∧ group_options c g = [].
Proof. unfold group_options. destruct (map_at (gnorm c) g (m_configmap c)); [by left|by right]. Qed.

Lemma get_spec g o : get c g o = match value_of g o with Some v => Ok v | None => Throw (out_of_range "Option does not exist in group.") end.
Proof.
  unfold get, has_option, has_group, map_has, value_of, look.
  destruct (group_options_at g) as [E|[E _]]; rewrite E; [|done]. cbn [mbind option_bind].
  rewrite bool_decide_eq_true_2 by done. cbn [andb]. by destruct (map_at key _ _).
Qed.

Lemma has_option_spec g o : has_option c g o = bool_decide (is_Some (value_of g o)).
Proof.
  unfold has_option, has_group, map_has, value_of, look. destruct (group_options_at g) as [E|[E _]]; rewrite E; [|done].
  by rewrite (bool_decide_eq_true_2 (is_Some (Some _))).
Qed.
End operations.

Lemma emplace_typed gn m g : container_typed gn m → container_typed gn (map_emplace gn g [] m).
Proof.
  intros [Hs Hm]. unfold map_emplace. destruct (map_has gn g m); [by split|]. split; [by apply map_insert_sorted|].
  by apply map_insert_Forall.
Qed.

Lemma erase_typed gn m g : container_typed gn m → container_typed gn (map_erase gn g m).
Proof. intros [Hs Hm]. split; [by apply map_erase_sorted|by apply map_erase_Forall]. Qed.

Lemma options_typed c g : typed c → map_sorted key (group_options c g) ∧ Forall option_typed (group_options c g).
Proof.
  intros [_ Hm]. unfold group_options. destruct (map_at (gnorm c) g (m_configmap c)) as [opts|] eqn:E; [|done].
  by destruct (map_at_Forall _ _ _ _ _ Hm E) as (g' & ? & _).
Qed.

(** The lookups of a configuration with another map. *)
Lemma get_with m c g o :
  get (with_configmap m c) g o = match look (gnorm c) m g (convert_option_to_key o) with
                                 | Some v => Ok v | None => Throw (out_of_range "Option does not exist in group.") end.
Proof. apply get_spec. Qed.

Lemma has_group_with m c g : has_group (with_configmap m c) g = true ↔ has (gnorm c) m g.
Proof. apply has_group_spec. Qed.

Lemma add_group_spec c g :
  typed c →
  let '(added, c') := add_group c g in
  typed c' ∧ added = negb (has_group c g) ∧
  ∀ g' o', (has_group c' g' = true ↔ same_group c g g' ∨ has_group c g' = true) ∧ get c' g' o' = get c g' o'.
Proof.
  intros Hc. unfold add_group. split; [by apply emplace_typed|]. split; [done|]. intros g' o'. split.
  - by rewrite has_group_with, has_emplace, has_group_spec, same_group_norm.
  - by rewrite get_with, look_emplace, get_spec.
Qed.

(** Groups and options that are the same are looked up alike. *)
Lemma value_of_same c g g' o o' : same_group c g g' → same_option o o' → value_of c g o = value_of c g' o'.
Proof.
  intros Hg%same_group_norm Ho%same_option_key. unfold value_of, look. rewrite (map_at_norm _ g' g) by done.
  destruct (map_at (gnorm c) g (m_configmap c)) as [opts|]; [|done]. cbn [mbind option_bind]. by apply map_at_norm.
Qed.

Lemma has_group_same c g g' : same_group c g g' → has_group c g = has_group c g'.
Proof.
  intros Hg%same_group_norm. unfold has_group, map_has. by rewrite (map_at_norm _ g' g).
Qed.

Lemma remove_group_spec c g :
  typed c →
  let '(removed, c') := remove_group c g in
  typed c' ∧ removed = has_group c g ∧
  ∀ g' o', (has_group c' g' = true ↔ ¬ same_group c g g' ∧ has_group c g' = true) ∧ (¬ same_group c g g' → get c' g' o' = get c g' o').
Proof.
  intros Hc. unfold remove_group. destruct (has_group c g) eqn:E.
  - split; [by apply erase_typed|]. split; [done|]. intros g' o'. split.
    + rewrite has_group_with, has_erase, has_group_spec by apply Hc. unfold not. by rewrite same_group_norm.
    + intros Hs. rewrite get_with, look_erase, get_spec by apply Hc. rewrite decide_False; [done|]. by rewrite same_group_norm.
  - split; [done|]. split; [done|]. intros g' o'. split; [|done]. split; [|tauto]. intros H. split; [|done].
    intros Hs%has_group_same. congruence.
Qed.

Lemma set_spec c g o v :
  typed c → has_group c g = true →
  ∃ c', set c g o v = Ok c' ∧ typed c' ∧
    ∀ g' o', has_group c' g' = has_group c g' ∧
      (same_group c g g' ∧ same_option o o' → get c' g' o' = Ok v) ∧ (¬ (same_group c g g' ∧ same_option o o') → get c' g' o' = get c g' o').
Proof.
  intros Hc Hg. unfold set. rewrite Hg. eexists. split; [done|]. split; [by apply (put_typed _ _ g o v)|]. intros g' o'.
  change (map_insert (gnorm c) g _ (m_configmap c)) with (put (gnorm c) (m_configmap c) g (convert_option_to_key o) v). split.
  - apply eq_true_iff_eq. rewrite has_group_with, has_put, has_group_spec. split; [|by right]. intros [Eg|?]; [|done].
    apply has_group_spec in Hg. unfold has in *. by rewrite (map_at_norm _ g' g).
  - rewrite get_with, look_put, get_spec, <- same_group_norm, <- same_option_key. by split; intros Hx; case_decide.
Qed.

Lemma has_option_with m c g o : has_option (with_configmap m c) g o = bool_decide (is_Some (look (gnorm c) m g (convert_option_to_key o))).
Proof. apply has_option_spec. Qed.

Lemma remove_option_spec c g o :
  typed c → has_group c g = true →
  ∃ c', remove_option c g o = Ok (has_option c g o, c') ∧ typed c' ∧
    ∀ g' o', has_group c' g' = has_group c g' ∧
      (same_group c g g' ∧ same_option o o' → has_option c' g' o' = false) ∧
      (¬ (same_group c g g' ∧ same_option o o') → get c' g' o' = get c g' o').
Proof.
  intros Hc Hg. unfold remove_option. rewrite Hg. destruct (options_typed c g Hc) as [Hs Ho].
  apply has_group_spec in Hg. destruct (group_options_at c g) as [Eat|[Eat _]]; [|unfold has in Hg; rewrite Eat in Hg; by destruct Hg].
  destruct (has_option c g o) eqn:E.
  - eexists. split; [done|]. split.
    { destruct Hc as [Hsorted Hm]. split; [by apply map_insert_sorted|]. apply map_insert_Forall; [|intros ? ? _ _|done];
        (split; [by apply map_erase_sorted|by apply map_erase_Forall]). }
    intros g' o'. split.
    { apply eq_true_iff_eq. rewrite has_group_with, has_insert, has_group_spec. split; [|by right]. intros [Eg|?]; [|done].
      unfold has in *. by rewrite (map_at_norm _ g' g). }
    rewrite <- same_group_norm, <- same_option_key, has_option_with, get_with, get_spec, look_insert.
    destruct (decide (gnorm c g = gnorm c g')) as [Eg|Eg]; [|by split; [intros [? _]|]].
    split.
    + intros [_ Ek]. unfold map_at. by rewrite (map_find_norm key _ (convert_option_to_key o)), map_find_erase.
    + intros Hne. unfold value_of, look. rewrite (map_at_norm _ g' g), Eat by done. cbn [mbind option_bind]. unfold map_at.
      rewrite map_find_erase_ne by (done || intros Ek; by apply Hne). done.
  - eexists. split; [done|]. split; [done|]. intros g' o'. split; [done|]. split; [|done].
    intros [Hsg Hso]. rewrite has_option_spec in E |- *. by rewrite <- (value_of_same c g g' o o').
Qed.

(** C24: A Config_file is a map from groups and options to values, where groups are the
    same if their texts are equal or, unless the class is case sensitive, differ at most
    in the case of letters up to the first null character, and options are the same if,
    without a prefix loose_ or loose- in any case, they differ at most in dashes for
    underscores. Groups and options that are the same are looked up alike; add_group,
    remove_group, set, remove_option and clear keep the maps of the class in order with
    normalized keys, report what they found, change the group or the option they name and
    no other, and set and remove_option throw for a group that is not there. *)
Theorem config_file_refines_map (c : Config_file) (g o : str) (v : option str) :
  typed c →
  (∀ g' o', same_group c g g' → same_option o o' → has_group c g = has_group c g' ∧ get c g o = get c g' o') ∧
  (let '(added, c') := add_group c g in
   typed c' ∧ added = negb (has_group c g) ∧
   ∀ g' o', (has_group c' g' = true ↔ same_group c g g' ∨ has_group c g' = true) ∧ get c' g' o' = get c g' o') ∧
  (let '(removed, c') := remove_group c g in
   typed c' ∧ removed = has_group c g ∧
   ∀ g' o', (has_group c' g' = true ↔ ¬ same_group c g g' ∧ has_group c g' = true) ∧
     (¬ same_group c g g' → get c' g' o' = get c g' o')) ∧
  (if has_group c g then
     ∃ c', set c g o v = Ok c' ∧ typed c' ∧
       ∀ g' o', has_group c' g' = has_group c g' ∧
         (same_group c g g' ∧ same_option o o' → get c' g' o' = Ok v) ∧
         (¬ (same_group c g g' ∧ same_option o o') → get c' g' o' = get c g' o')
   else ∃ e, set c g o v = Throw (out_of_range e)) ∧
  (if has_group c g then
     ∃ c', remove_option c g o = Ok (has_option c g o, c') ∧ typed c' ∧
       ∀ g' o', has_group c' g' = has_group c g' ∧
         (same_group c g g' ∧ same_option o o' → has_option c' g' o' = false) ∧
         (¬ (same_group c g g' ∧ same_option o o') → get c' g' o' = get c g' o')
   else ∃ e, remove_option c g o = Throw (out_of_range e)) ∧
  typed (clear c) ∧ has_group (clear c) g = false.
Proof.
  intros Hc. split_and!.
  - intros g' o' Hg Ho. split; [by apply has_group_same|]. rewrite !get_spec. by rewrite (value_of_same c g g' o o').
  - by apply add_group_spec.
  - by apply remove_group_spec.
  - destruct (has_group c g) eqn:E; [by apply set_spec|]. unfold set. rewrite E. by eexists.
  - destruct (has_group c g) eqn:E; [by apply remove_option_spec|]. unfold remove_option. rewrite E. by eexists.
  - split; constructor.
  - done.
Qed.

Lemma config_file_refines_map_witness :
  let c := (add_group (make_Config_file INSENSITIVE YES) ($"mysqld")).2 in
  ∃ c', set c ($"MYSQLD") ($"loose-Port") (Some ($"3306")) = Ok c' ∧ typed c' ∧
    ∀ g' o', has_group c' g' = has_group c g' ∧
      (same_group c ($"MYSQLD") g' ∧ same_option ($"loose-Port") o' → get c' g' o' = Ok (Some ($"3306"))) ∧
      (¬ (same_group c ($"MYSQLD") g' ∧ same_option ($"loose-Port") o') → get c' g' o' = get c g' o').
Proof.
  assert (typed (add_group (make_Config_file INSENSITIVE YES) ($"mysqld")).2) as Hc.
  { split; [split; [constructor|exact I]|]. constructor; [split; [exact I|constructor]|constructor]. }
  exact (proj1 (proj2 (proj2 (proj2 (config_file_refines_map _ ($"MYSQLD") ($"loose-Port") (Some ($"3306")) Hc))))).
Defined.
