(* ===== verification/ConfigWriteFacts.v ===== *)
(** * Option files: writing and reading

    After [write], whatever was in the file before, [read] gives the groups and options of the
    configuration back. *)
From S2P Require Import Prelude UtilsString UtilsStringFacts Lexing GtidUtilsFacts StdMap Paths ConfigFile OptionLinesFacts ConfigFileFacts.

Open Scope nat_scope.

(** ** Lines and texts *)

Lemma foldM_app {A B} (f : A → B → result A) a l1 l2 : foldM f a (l1 ++ l2) = (b ← foldM f a l1; foldM f b l2).
Proof.
  revert a. induction l1 as [|x l1 IH]; intros a; [done|]. cbn [app foldM]. destruct (f a x) as [b|e]; [apply IH|done].
Qed.

Lemma foldM_ext {A B} (f g : A → B → result A) a l : (∀ a x, x ∈ l → f a x = g a x) → foldM f a l = foldM g a l.
Proof.
  revert a. induction l as [|x l IH]; intros a H; [done|]. cbn [foldM]. rewrite (H a x) by left.
  destruct (g a x) as [b|e]; [|done]. apply IH. intros b' y Hy. apply H. by right.
Qed.

Definition one_line (line : str) : Prop := "010"%char ∉ line.

Lemma getlines_from_line acc line s :
  one_line line → getlines_from acc (line ++ "010"%char :: s) = (acc ++ line) :: getlines_from [] s.
Proof.
  revert acc. induction line as [|c line IH]; intros acc H; cbn [app getlines_from].
  - by rewrite bool_decide_eq_true_2, app_nil_r.
  - apply not_elem_of_cons in H as [Hc H]. rewrite bool_decide_eq_false_2 by congruence. rewrite IH by done. by rewrite <- (assoc_L (++)).
Qed.

(** Lines that were written are read. *)
Lemma getlines_unlines lines : Forall one_line lines → getlines (unlines lines) = lines.
Proof.
  unfold getlines, unlines. induction 1 as [|line lines Hl _ IH]; [done|]. cbn [fmap list_fmap concat].
  rewrite <- (assoc_L (++)). cbn [app]. rewrite getlines_from_line by done. cbn [app]. f_equal. exact IH.
Qed.

Lemma getlines_one_line s : Forall one_line (getlines s).
Proof.
  unfold getlines. assert (∀ acc, one_line acc → Forall one_line (getlines_from acc s)) as H; [|apply H; apply not_elem_of_nil].
  induction s as [|c s IH]; intros acc Ha; cbn [getlines_from]; [destruct acc; by repeat constructor|].
  case_bool_decide as E.
  - constructor; [done|]. apply IH, not_elem_of_nil.
  - apply IH. unfold one_line. rewrite not_elem_of_app, list_elem_of_singleton. naive_solver.
Qed.

Lemma strip_elem c s : c ∈ strip s → c ∈ s.
Proof. intros H. destruct (strip_decompose s) as (l & r & E & _). rewrite E. set_solver. Qed.

Lemma take_elem {A} (x : A) n l : x ∈ take n l → x ∈ l.
Proof. intros H. rewrite <- (take_drop n l). apply elem_of_app. by left. Qed.

Lemma drop_elem {A} (x : A) n l : x ∈ drop n l → x ∈ l.
Proof. intros H. rewrite <- (take_drop n l). apply elem_of_app. by right. Qed.

Definition no_directive (line : str) : Prop := head (strip line) ≠ Some "!"%char.

(** A line of text that is no directive. *)
Definition plain (line : str) : Prop := one_line line ∧ no_directive line.

Lemma plain_nil : plain [].
Proof. split; [apply not_elem_of_nil|done]. Qed.

Lemma plain_lines lines : Forall plain lines → Forall one_line lines.
Proof. intros H. eapply Forall_impl; [exact H|]. by intros line [? _]. Qed.

(** ** What is left of a line behind the value *)

Lemma find_char_at s c i : find_char s c 0 = Some i → ∃ rest, drop i s = c :: rest.
Proof.
  unfold find_char. rewrite from_0. revert i. induction s as [|d s IH]; intros i; cbn [find_if]; [done|].
  case_bool_decide as E.
  - intros [= <-]. exists s. by subst.
  - destruct (find_if _ s) as [j|] eqn:Ej; [|done]. intros [= <-]. cbn [drop]. by apply IH.
Qed.

Lemma split_comment_rest s : comment_ok (split_comment s).2 ∧ ∀ c, c ∈ (split_comment s).2 → c ∈ s ∨ c = " "%char.
Proof.
  unfold split_comment. destruct (find_char s "#" 0) as [i|] eqn:E; cbn [snd].
  - destruct (find_char_at _ _ _ E) as [rest Er]. split.
    + right. rewrite Er. by apply (strip_head [" "%char]); [repeat constructor|].
    + intros c. rewrite elem_of_app. intros [H|H]; [|left; by eapply drop_elem]. right. by apply list_elem_of_singleton in H.
  - split; [by left|]. by intros c ?%elem_of_nil.
Qed.

Lemma remaining_comment esc line r :
  parse_option_line esc line = Ok r → comment_ok (remaining_text r) ∧ ∀ c, c ∈ remaining_text r → c ∈ line ∨ c = " "%char.
Proof.
  unfold parse_option_line. destruct (find_char line "=" 0) as [i|].
  - assert (∀ c, c ∈ strip (drop (i + 1) line) → c ∈ line) as Hin by (intros c H%strip_elem; by eapply drop_elem).
    destruct (strip (drop (i + 1) line)) as [|q raw] eqn:Eraw.
    { intros [= <-]. split; [by left|]. by intros c ?%elem_of_nil. }
    rewrite <- Eraw in *. destruct (_ || _).
    + unfold parse_quoted. destruct (get_quote_span _ _) as [[first|] [second|]]; try done.
      destruct (_ && _) eqn:E; [done|]. intros [= <-]. cbn [remaining_text]. split.
      * apply andb_false_iff in E as [E%negb_false_iff|E%negb_false_iff]; apply bool_decide_eq_true_1 in E; [by left|by right].
      * intros c H. left. apply Hin. by eapply drop_elem.
    + pose proof (split_comment_rest (strip (drop (i + 1) line))) as [H1 H2]. destruct (split_comment _) as [v after].
      intros [= <-]. cbn [snd remaining_text] in *. split; [done|]. intros c [H|H]%H2; [left; by apply Hin|by right].
  - pose proof (split_comment_rest line) as [H1 H2]. destruct (split_comment _) as [v after]. intros [= <-]. done.
Qed.

(** ** Configurations that can be written *)

Definition option_ok (kv : Option_key * option str) : Prop :=
  option_typed kv ∧ name_ok (original_option kv.1) ∧ (∀ v, kv.2 = Some v → nul ∉ v).

Definition group_ok (g : str) : Prop := g ≠ [] ∧ ∀ ch, ch ∈ g → ch ∉ ["]"%char; "010"%char; nul].

(** Groups with a name that fits a line, options in order and with names that fit a line. *)
Definition container_ok (gn : str → str) (m : container) : Prop :=
  map_sorted gn m ∧ Forall (λ gp, group_ok gp.1 ∧ map_sorted key gp.2 ∧ Forall option_ok gp.2) m.

Section reader.
Context (c : Config_file) (Hesc : m_escape_characters c = YES).
Abbreviation gn := (gnorm c).

(** A line of a file without directives. *)
Definition read_step (st : container * str) (line : str) : result (container * str) := read_line c [] st (strip line).

(** The state after lines, from a state. *)
Definition reads (st : container * str) (lines : list str) (st' : container * str) : Prop := foldM read_step st lines = Ok st'.

Lemma reads_app st l1 st1 l2 st2 : reads st l1 st1 → reads st1 l2 st2 → reads st (l1 ++ l2) st2.
Proof. unfold reads. intros H1 H2. by rewrite foldM_app, H1. Qed.

Lemma reads_nil st : reads st [] st.
Proof. done. Qed.

Lemma reads_one st line st' : read_step st line = Ok st' → reads st [line] st'.
Proof. unfold reads. intros H. cbn [foldM]. by rewrite H. Qed.

Lemma reads_cons st line st1 lines st' : read_step st line = Ok st1 → reads st1 lines st' → reads st (line :: lines) st'.
Proof. unfold reads. intros H1 H2. cbn [foldM]. by rewrite H1. Qed.

Lemma read_skip st line : (strip line = [] ∨ ∃ ch, head (strip line) = Some ch ∧ ch ∈ $"#;") → read_step st line = Ok st.
Proof.
  unfold read_step, read_line. destruct st as [m rg]. destruct (strip line) as [|d z]; [done|].
  intros [?|(ch & [= <-] & Hch)]; [done|]. by rewrite bool_decide_eq_true_2.
Qed.

Lemma prefix_empty g : prefix_matches c [] g = true.
Proof. unfold prefix_matches. by rewrite bool_decide_eq_true_2. Qed.

Lemma read_group m rg line :
  head (strip line) = Some "["%char →
  read_step (m, rg) line = (g ← parse_group_line (strip line); Ok (map_emplace gn g [] m, g)).
Proof.
  intros H. unfold read_step, read_line. destruct (strip line) as [|d z]; [done|]. injection H as ->.
  rewrite (bool_decide_eq_false_2 (_ ∈ $"#;")), (bool_decide_eq_false_2 (_ ∈ $",=")) by (by apply (bool_decide_unpack _)).
  rewrite (bool_decide_eq_true_2 (_ = _)) by done. destruct (parse_group_line _) as [g|e]; [|done]. cbn [mbind result_bind].
  unfold map_emplace. rewrite prefix_empty, andb_true_r. by destruct (map_has gn g m).
Qed.

Lemma read_option m rg line ch :
  head (strip line) = Some ch → ch ∉ $"#;,=[" →
  read_step (m, rg) line =
  (r ← parse_option_line YES (strip line);
   if bool_decide (rg = []) then Throw (runtime_error "Group missing before option")
   else Ok (put gn m rg (convert_option_to_key (name r)) (value r), rg)).
Proof.
  intros H Hch. unfold read_step, read_line. destruct (strip line) as [|d z]; [done|]. injection H as ->.
  rewrite (bool_decide_eq_false_2 (_ ∈ $"#;")) by set_solver.
  rewrite (bool_decide_eq_false_2 (_ ∈ $",=")) by set_solver.
  rewrite (bool_decide_eq_false_2 (ch = _)) by set_solver. rewrite Hesc.
  destruct (parse_option_line YES (ch :: z)) as [r|e]; [|done]. cbn [mbind result_bind]. case_bool_decide; [done|].
  by rewrite prefix_empty.
Qed.

(** ** Lines for options *)

Lemma name_head n rest : name_ok n → ∃ ch, head (strip (n ++ rest)) = Some ch ∧ ch ∉ $"#;,=[!".
Proof.
  intros [[Hh _] _ (ch & Hn & Hch)]. exists ch. split; [|set_solver]. destruct n as [|d n]; [done|]. injection Hn as ->.
  apply (strip_head []); [done|]. by apply Hh.
Qed.

Lemma name_nul n : name_ok n → (nul ∉ n) ∧ one_line n.
Proof. intros [_ Hc _]. split; intros H; apply Hc in H; set_solver. Qed.

(** The text of an option with a comment behind it. *)
Definition option_text (kv : Option_key * option str) (rem : str) : str := option_line c kv ++ rem.

Lemma option_text_cases kv rem :
  option_ok kv →
  option_text kv rem =
  original_option kv.1 ++ match kv.2 with None => rem | Some v => $" = " ++ convert_value_for_file YES v ++ rem end.
Proof.
  intros (_ & Hn & Hv). unfold option_text, option_line. rewrite Hesc. destruct (name_nul _ Hn) as [Hnul _].
  rewrite (c_str_id (original_option _)) by done. destruct kv.2 as [v|]; [|done].
  rewrite (c_str_id (convert_value_for_file _ _)); [by rewrite <- !(assoc_L (++))|].
  intros H. by apply convert_chars in H as [? _]; [|by apply Hv].
Qed.

Lemma read_option_text m rg kv rem :
  option_ok kv → comment_ok rem → (kv.2 = None → "="%char ∉ rem) → rg ≠ [] →
  read_step (m, rg) (option_text kv rem) = Ok (put gn m rg kv.1 kv.2, rg).
Proof.
  intros Hkv Hrem Heq Hrg. rewrite option_text_cases by done. destruct Hkv as (Ht & Hn & Hv).
  match goal with |- read_step _ (_ ++ ?rest) = _ => destruct (name_head _ rest Hn) as (ch & Hh & Hch) end.
  rewrite (read_option _ _ _ ch) by (done || set_solver).
  assert (∃ r, parse_option_line YES (strip (original_option kv.1 ++ match kv.2 with None => rem | Some v => $" = " ++ convert_value_for_file YES v ++ rem end)) = Ok r
    ∧ name r = original_option kv.1 ∧ value r = kv.2) as (r & -> & En & Ev).
  { destruct kv.2 as [v|]; [apply value_line; auto|apply name_line; auto]. }
  cbn [mbind result_bind]. rewrite bool_decide_eq_false_2 by done. by rewrite En, Ev, Ht.
Qed.

Lemma option_text_plain kv rem : option_ok kv → one_line rem → plain (option_text kv rem).
Proof.
  intros Hkv Hrem. rewrite option_text_cases by done. destruct Hkv as (_ & Hn & Hv). destruct (name_nul _ Hn) as [_ Hl].
  split; [|destruct (name_head _ (match kv.2 with None => rem | Some v => $" = " ++ convert_value_for_file YES v ++ rem end) Hn) as (ch & Hh & Hch);
           unfold no_directive; rewrite Hh; set_solver].
  unfold one_line in *. rewrite not_elem_of_app. split; [done|]. destruct kv.2 as [v|]; [|done].
  rewrite !not_elem_of_app. split; [by apply (bool_decide_unpack _)|]. split; [|done].
  intros H. by apply convert_chars in H as [_ ?]; [|by apply Hv].
Qed.

Lemma comment_nil : comment_ok [].
Proof. by left. Qed.

(** Options of a group, one after the other. *)
Definition puts (m : container) (rg : str) (opts : Option_map) : container :=
  foldl (λ m kv, put gn m rg kv.1 kv.2) m opts.

Lemma read_options m rg opts : Forall option_ok opts → rg ≠ [] → reads (m, rg) (option_line c <$> opts) (puts m rg opts, rg).
Proof.
  intros Ho Hrg. revert m. induction Ho as [|kv opts Hkv _ IH]; intros m; [apply reads_nil|]. cbn [fmap list_fmap puts foldl].
  eapply reads_cons; [|apply IH]. rewrite <- (app_nil_r (option_line c kv)).
  apply read_option_text; [done|apply comment_nil|by intros _ ?%elem_of_nil|done].
Qed.

Lemma has_puts m rg opts g : has gn m rg → has gn (puts m rg opts) g ↔ has gn m g.
Proof.
  revert m. induction opts as [|kv opts IH]; intros m Hm; [done|]. cbn [puts foldl]. fold (puts (put gn m rg kv.1 kv.2) rg opts).
  rewrite IH by (apply has_put; by right). rewrite has_put. split; [|by right]. intros [E|?]; [|done].
  unfold has in *. by rewrite (map_at_norm gn g rg).
Qed.

Lemma look_puts m rg opts g k :
  map_sorted key opts →
  look gn (puts m rg opts) g k = if decide (gn rg = gn g) then from_option Some (look gn m g k) (map_at key k opts) else look gn m g k.
Proof.
  revert m. induction opts as [|kv opts IH]; intros m Hs; [cbn; by case_decide|]. cbn [puts foldl]. fold (puts (put gn m rg kv.1 kv.2) rg opts).
  assert (map_sorted key opts) as Hs' by (destruct kv; apply Hs). rewrite IH, look_put, map_at_cons by done.
  destruct (decide (gn rg = gn g)) as [Eg|Eg]; [|by rewrite decide_False by tauto].
  destruct (decide (key kv.1 = key k)) as [Ek|Ek]; [|by rewrite decide_False by tauto].
  rewrite decide_True by done. destruct (map_at key k opts) as [v|] eqn:E; [|done]. exfalso.
  by rewrite (map_sorted_rest key kv opts k) in E.
Qed.

(** ** Lines for groups *)

Definition group_line (g : str) : str := $"[" ++ c_str g ++ $"]".

Lemma group_nul g : group_ok g → c_str g = g.
Proof. intros [_ H]. apply c_str_id. intros Hin. apply H in Hin. set_solver. Qed.

Lemma strip_group_line g : group_ok g → strip (group_line g) = "["%char :: g ++ $"]".
Proof.
  intros Hg. unfold group_line. rewrite group_nul by done. 
  refine (strip_stripped (("["%char :: g) ++ ["]"%char]) _). split; [by intros ? [= <-]|].
  intros d. rewrite last_snoc. by intros [= <-].
Qed.

Lemma parse_group g : group_ok g → parse_group_line (strip (group_line g)) = Ok g.
Proof.
  intros Hg. rewrite strip_group_line by done. unfold parse_group_line. cbn [head hd_error].
  rewrite bool_decide_eq_true_2 by done. cbn [negb].
  change ("["%char :: g ++ $"]") with (("["%char :: g) ++ "]"%char :: []). rewrite find_char_app.
  2: { rewrite not_elem_of_cons. split; [done|]. intros Hin. destruct Hg as [_ Hg]. apply Hg in Hin. set_solver. }
  rewrite <- drop_drop, drop_app_length. cbn [drop]. rewrite (bool_decide_eq_true_2 (strip [] = [])) by done. cbn [negb andb].
  unfold substr. cbn [app drop length]. rewrite Nat.sub_succ, Nat.sub_0_r.
  by rewrite drop_0, take_app_length.
Qed.

Lemma read_group_line m rg g : group_ok g → read_step (m, rg) (group_line g) = Ok (map_emplace gn g [] m, g).
Proof.
  intros Hg. rewrite read_group; [by rewrite parse_group|]. by rewrite strip_group_line.
Qed.

Lemma read_empty st : read_step st [] = Ok st.
Proof. apply read_skip. by left. Qed.

Lemma container_ok_cons gp m : container_ok gn (gp :: m) → container_ok gn m.
Proof. intros [Hs Hf]. apply Forall_cons in Hf as [_ Hf]. split; [|done]. destruct gp. apply Hs. Qed.

Lemma look_cons gp track g k :
  map_sorted gn (gp :: track) → look gn (gp :: track) g k = if decide (gn gp.1 = gn g) then map_at key k gp.2 else look gn track g k.
Proof. intros Hs. unfold look. rewrite map_at_cons by done. by case_decide. Qed.

Lemma look_rest gp track g k : map_sorted gn (gp :: track) → gn gp.1 = gn g → look gn track g k = None.
Proof. intros Hs E. unfold look. by rewrite (map_sorted_rest gn gp track g). Qed.

Lemma has_cons gp track g : map_sorted gn (gp :: track) → has gn (gp :: track) g ↔ gn gp.1 = gn g ∨ has gn track g.
Proof. intros Hs. unfold has. rewrite map_at_cons by done. case_decide; [|naive_solver]. split; [by left|by eexists]. Qed.

Lemma read_groups m rg track :
  container_ok gn track →
  ∃ m' rg', reads (m, rg) (concat (group_lines c <$> track)) (m', rg') ∧
    (∀ g, has gn m' g ↔ has gn track g ∨ has gn m g) ∧
    (∀ g k, look gn m' g k = from_option Some (look gn m g k) (look gn track g k)).
Proof.
  revert m rg. induction track as [|[g1 opts] track IH]; intros m rg Hok.
  { exists m, rg. split; [done|]. split; [|done]. intros g. split; [by right|]. by intros [[? ?]|?]. }
  pose proof Hok as [Hs Hf]. apply Forall_cons in Hf as [(Hg1 & Hso & Ho) _].
  destruct (IH (puts (map_emplace gn g1 [] m) g1 opts) g1 (container_ok_cons _ _ Hok)) as (m' & rg' & Hr & Hh & Hl).
  assert (has gn (map_emplace gn g1 [] m) g1) as Hm1 by (apply has_emplace; by left).
  exists m', rg'. split; [|split].
  - cbn [fmap list_fmap concat]. eapply reads_app; [|exact Hr]. unfold group_lines. cbn [fst snd].
    eapply reads_cons; [by apply read_group_line|]. eapply reads_app; [apply read_options; [done|apply Hg1]|].
    apply reads_one, read_empty.
  - intros g. rewrite Hh, has_puts, has_emplace, has_cons by done. cbn [fst]. tauto.
  - intros g k. rewrite Hl, look_puts, look_emplace, look_cons by done. cbn [fst snd]. case_decide as E; [|done].
    by rewrite (look_rest (g1, opts) track g k).
Qed.

Lemma option_lines_plain opts : Forall option_ok opts → Forall plain (option_line c <$> opts).
Proof.
  intros Ho. apply Forall_fmap. eapply Forall_impl; [exact Ho|]. intros kv Hkv. cbn. rewrite <- (app_nil_r (option_line c kv)).
  by apply option_text_plain; [|apply not_elem_of_nil].
Qed.

Lemma new_groups_plain track : container_ok gn track → Forall plain (new_groups c track).
Proof.
  intros [_ Hf]. unfold new_groups. destruct track as [|gp0 track0]; [done|]. constructor; [apply plain_nil|].
  induction Hf as [|gp track (Hg & _ & Ho) _ IH]; [done|]. cbn [fmap list_fmap concat]. apply Forall_app. split; [|exact IH].
  unfold group_lines. constructor.
  - fold (group_line gp.1). split; [|unfold no_directive; by rewrite strip_group_line].
    unfold group_line. rewrite group_nul by done. unfold one_line. rewrite !not_elem_of_app. split; [by apply (bool_decide_unpack _)|].
    split; [|by apply (bool_decide_unpack _)]. intros Hin. apply (proj2 Hg) in Hin. set_solver.
  - apply Forall_app. split; [by apply option_lines_plain|]. constructor; [apply plain_nil|done].
Qed.

(** ** The file while it is written *)

Abbreviation cfg := (m_configmap c).
Context (Hcfg : container_ok gn cfg).

(** The configuration is what was written, [m], and what is still to be written, [track]. *)
Record parts (m track : container) : Prop := {
  parts_ok : container_ok gn track;
  parts_has : ∀ g, has gn cfg g ↔ has gn m g ∨ has gn track g;
  parts_written : ∀ g k v, look gn m g k = Some v → look gn cfg g k = Some v;
  parts_rest : ∀ g k v, look gn track g k = Some v → look gn cfg g k = Some v;
  parts_all : ∀ g k v, look gn cfg g k = Some v → look gn m g k = Some v ∨ look gn track g k = Some v;
}.

Lemma has_nonempty m g : container_ok gn m → has gn m g → g ≠ [].
Proof.
  intros [_ Hf] [opts E] ->. destruct (map_at_Forall _ _ _ _ _ Hf E) as (g' & (Hg' & _) & En). cbn [fst] in Hg'.
  pose proof (group_nul g' Hg') as Ec. destruct Hg' as [Hne _]. apply Hne. revert En. unfold gnorm, group_norm. destruct (m_group_case c); [done|].
  rewrite Ec. unfold str_lower. cbn. intros En. by apply fmap_nil_inv in En.
Qed.

Lemma map_at_ok m g opts : container_ok gn m → map_at gn g m = Some opts → map_sorted key opts ∧ Forall option_ok opts.
Proof. intros [_ Hf] E. by destruct (map_at_Forall _ _ _ _ _ Hf E) as (g' & (_ & ? & ?) & _). Qed.

(** The new options of a group. *)
Lemma new_options_parts m rg track g lines track' :
  parts m track → (has gn track g → rg = g ∧ has gn m g) → new_options c track g = (lines, track') →
  ∃ m', reads (m, rg) lines (m', rg) ∧ parts m' track' ∧ Forall plain lines ∧ (∀ g', has gn m' g' ↔ has gn m g').
Proof.
  intros Hp Hg. unfold new_options. destruct (map_at gn g track) as [opts|] eqn:E; intros [= <- <-]; [|by exists m].
  destruct (map_at_ok _ _ _ (parts_ok _ _ Hp) E) as [Hs Ho]. destruct Hg as [-> Hm]; [by eexists|].
  assert (g ≠ []) as Hne by (apply (has_nonempty track); [apply Hp|by eexists]).
  exists (puts m g opts). split_and!.
  - destruct opts as [|kv opts]; [apply reads_nil|]. eapply reads_app; [by apply read_options|]. apply reads_one, read_empty.
  - destruct Hp as [[Hso Hf] Hh Hw Hr Ha]. constructor.
    + split; [by apply map_erase_sorted|by apply map_erase_Forall].
    + intros g'. rewrite has_puts, has_erase, Hh by done. destruct (decide (gn g = gn g')) as [Eg|]; [|tauto].
      split; [|tauto]. intros _. left. unfold has in *. by rewrite (map_at_norm gn g' g).
    + intros g' k v. rewrite look_puts by done. case_decide as Eg; [|by apply Hw].
      destruct (map_at key k opts) as [w|] eqn:Ek; cbn [from_option]; [|by apply Hw]. intros [= ->]. apply Hr. unfold look.
      by rewrite (map_at_norm gn g' g), E.
    + intros g' k v. rewrite look_erase by done. case_decide; [done|]. apply Hr.
    + intros g' k v Hv. rewrite look_puts, look_erase by done. destruct (Ha _ _ _ Hv) as [Hl|Hl].
      * left. case_decide as Eg; [|done]. destruct (map_at key k opts) as [w|] eqn:Ek; cbn [from_option]; [|done].
        rewrite <- Hv. symmetry. apply Hr. unfold look. by rewrite (map_at_norm gn g' g), E.
      * case_decide as Eg; [|by right]. left. unfold look in Hl. rewrite (map_at_norm gn g' g), E in Hl by done. cbn in Hl. by rewrite Hl.
  - destruct opts as [|kv opts]; [done|]. apply Forall_app. split; [by apply option_lines_plain|]. constructor; [apply plain_nil|done].
  - intros g'. by apply has_puts.
Qed.

(** An option that was in the file. *)
Definition untrack (g : str) (k : Option_key) (track : container) : container :=
  match map_at gn g track with Some opts => map_insert gn g (map_erase key k opts) track | None => track end.

Lemma look_untrack g k track g' k' :
  container_ok gn track →
  look gn (untrack g k track) g' k' = if decide (gn g = gn g' ∧ key k = key k') then None else look gn track g' k'.
Proof.
  intros Hok. unfold untrack. destruct (map_at gn g track) as [opts|] eqn:E.
  - destruct (map_at_ok _ _ _ Hok E) as [Hs _]. rewrite look_insert. destruct (decide (gn g = gn g')) as [Eg|Eg].
    + unfold look. rewrite (map_at_norm gn g' g), E by done. cbn [mbind option_bind]. unfold map_at.
      destruct (decide (key k = key k')) as [Ek|Ek].
      * rewrite decide_True by done. by rewrite (map_find_norm key k' k), map_find_erase.
      * rewrite decide_False by tauto. by rewrite map_find_erase_ne.
    + by rewrite decide_False by tauto.
  - case_decide as Hc; [|done]. destruct Hc as [Eg _]. unfold look. by rewrite (map_at_norm gn g' g), E.
Qed.

Lemma has_untrack g k track g' : has gn (untrack g k track) g' ↔ has gn track g'.
Proof.
  unfold untrack. destruct (map_at gn g track) as [opts|] eqn:E; [|done]. rewrite has_insert. split; [|by right].
  intros [Eg|?]; [|done]. unfold has. rewrite (map_at_norm gn g' g), E by done. by eexists.
Qed.

Lemma untrack_ok g k track : container_ok gn track → container_ok gn (untrack g k track).
Proof.
  intros Hok. unfold untrack. destruct (map_at gn g track) as [opts|] eqn:E; [|done]. destruct (map_at_ok _ _ _ Hok E) as [Hs Ho].
  pose proof Hok as [Hso Hf]. split; [by apply map_insert_sorted|].
  assert (map_sorted key (map_erase key k opts) ∧ Forall option_ok (map_erase key k opts)) as Hnew
    by (split; [by apply map_erase_sorted|by apply map_erase_Forall]).
  unfold map_at in E. apply fmap_Some in E as ([g1 o1] & E & ->). cbn [snd] in Hnew.
  assert (∀ m, map_find gn g m = Some (g1, o1) → Forall (λ gp, group_ok gp.1 ∧ map_sorted key gp.2 ∧ Forall option_ok gp.2) m →
          Forall (λ gp, group_ok gp.1 ∧ map_sorted key gp.2 ∧ Forall option_ok gp.2) (map_insert gn g (map_erase key k o1) m)) as H; [|by apply H].
  clear -Hnew. induction m as [|[g2 o2] m IH]; [done|]. cbn [map_find map_insert]. intros E Hf. apply Forall_cons in Hf as [[Hg2 H2] Hf].
  cbn [fst] in Hg2. destruct (str_compare (gn g) (gn g2)); [|done|].
  - by constructor.
  - constructor; [done|]. by apply IH.
Qed.

Lemma put_parts m track g k v :
  parts m track → look gn cfg g k = Some v → has gn m g → parts (put gn m g k v) (untrack g k track).
Proof.
  intros [Hok Hh Hw Hr Ha] Hv Hm. constructor.
  - by apply untrack_ok.
  - intros g'. rewrite has_put, has_untrack, Hh. split; [tauto|]. intros [[Eg|?]|?]; [|tauto..]. left. unfold has in *.
    by rewrite (map_at_norm gn g' g).
  - intros g' k' v'. rewrite look_put. case_decide as E; [|apply Hw]. intros [= ->]. destruct E as [Eg Ek]. rewrite <- Hv.
    unfold look. rewrite (map_at_norm gn g' g) by done. destruct (map_at gn g cfg); [|done]. cbn. by apply map_at_norm.
  - intros g' k' v'. rewrite look_untrack by done. case_decide; [done|]. apply Hr.
  - intros g' k' v' Hv'. rewrite look_put, look_untrack by done. case_decide as E; [|by apply Ha]. left.
    destruct E as [Eg Ek]. rewrite <- Hv, <- Hv'. unfold look. rewrite (map_at_norm gn g' g) by done.
    destruct (map_at gn g cfg); [|done]. cbn. by apply map_at_norm.
Qed.

(** The state of the loop: what was written reads as [m], and goes on in the group [rg]. *)
Record inv (u : Update) (m : container) (rg : str) : Prop := {
  inv_reads : reads ([], []) (u_out u) (m, rg);
  inv_lines : Forall plain (u_out u);
  inv_parts : parts m (u_track u);
  inv_group : u_delete u = false → rg = u_group u ∧ (u_group u ≠ [] → has gn m (u_group u));
  inv_deleted : u_delete u = true → ¬ has gn cfg (u_group u);
}.

Lemma inv_rest u m rg : inv u m rg → has gn (u_track u) (u_group u) → rg = u_group u ∧ has gn m (u_group u).
Proof.
  intros [_ _ Hp Hg Hd] Ht. assert (has gn cfg (u_group u)) as Hc by (apply (parts_has _ _ Hp); by right).
  destruct (u_delete u); [by destruct (Hd eq_refl)|]. destruct (Hg eq_refl) as [? Hm]. split; [done|]. apply Hm. by eapply has_nonempty.
Qed.

(** One more line, which is read without an effect. *)
Lemma inv_emit u m rg line : inv u m rg → read_step (m, rg) line = Ok (m, rg) → plain line → inv (emit [line] u) m rg.
Proof.
  intros [Hr Hl Hp Hg Hd] H1 H2. constructor; try done; cbn [emit u_out].
  - eapply reads_app; [done|]. by apply reads_one.
  - apply Forall_app. split; [done|]. by constructor.
Qed.

Lemma inv_update_group u m rg line g :
  inv u m rg → plain line → head (strip line) = Some "["%char → parse_group_line (strip line) = Ok g →
  ∃ m' rg', inv (update_group c false u line g) m' rg'.
Proof.
  intros Hi H1 Hh Eg. unfold update_group. destruct (new_options c (u_track u) (u_group u)) as [lines track] eqn:E.
  destruct (new_options_parts m rg _ _ _ _ (inv_parts _ _ _ Hi) (inv_rest _ _ _ Hi) E) as (m1 & Hr1 & Hp1 & Hl1 & _).
  destruct Hi as [Hr Hl _ _ _]. destruct (has_group c g) eqn:Hgroup; cbn [negb].
  - apply has_group_spec in Hgroup. exists (map_emplace gn g [] m1), g. constructor; cbn [u_out u_track u_group u_delete]; [| | | |done].
    + eapply reads_app; [done|]. eapply reads_app; [done|]. apply reads_one. by rewrite read_group, Eg.
    + rewrite !Forall_app. split; [done|]. split; [done|]. by constructor.
    + destruct Hp1 as [Hok Hhas Hw Hrest Ha]. constructor; [done| | |done|].
      * intros g'. rewrite has_emplace, Hhas. split; [tauto|]. intros [[E'|?]|?]; [|tauto..]. apply Hhas. unfold has in *.
        by rewrite (map_at_norm gn g' g).
      * intros g' k v. rewrite look_emplace. apply Hw.
      * intros g' k v. rewrite look_emplace. apply Ha.
    + intros _. split; [done|]. intros _. apply has_emplace. by left.
  - exists m1, rg. rewrite app_nil_r. constructor; cbn [u_out u_track u_group u_delete]; [| |done|done|].
    + by eapply reads_app.
    + by apply Forall_app.
    + intros _ H%has_group_spec. by rewrite H in Hgroup.
Qed.

(** What is asked of the comments that are kept. *)
Definition comments_ok (line : str) : Prop :=
  ∀ r g, parse_option_line YES (strip line) = Ok r → get c g (name r) = Ok None → "="%char ∉ remaining_text r.

Lemma group_options_find g k k' v :
  map_find key k (group_options c g) = Some (k', v) → look gn cfg g k = Some v ∧ option_ok (k', v) ∧ key k' = key k.
Proof.
  intros E. unfold group_options in E. unfold look. destruct (map_at gn g cfg) as [opts|] eqn:Eat; [|done]. change (map_find key k opts = Some (k', v)) in E. cbn [mbind option_bind].
  destruct (map_at_ok _ _ _ Hcfg Eat) as [_ Ho]. unfold map_at. rewrite E. apply map_find_key in E as [Ek Hin].
  rewrite Forall_forall in Ho. split; [done|]. split; [by apply Ho|done].
Qed.

Lemma put_norm m g k k' v track : key k = key k' → parts (put gn m g k' v) track → parts (put gn m g k v) track.
Proof.
  intros E [Hok Hh Hw Hr Ha]. constructor; [done| | |done|].
  - intros g'. by rewrite Hh, !has_put.
  - intros g' k1 v1. rewrite look_put, E, <- look_put. apply Hw.
  - intros g' k1 v1 Hv. rewrite look_put, E, <- look_put. by apply Ha.
Qed.

Lemma inv_update_option u m rg line r ch :
  inv u m rg → plain line → comments_ok line → u_delete u = false → u_group u ≠ [] →
  head (strip line) = Some ch → ch ∉ $"#;,=[" → parse_option_line YES (strip line) = Ok r →
  ∃ m' rg', inv (update_option c u line r) m' rg'.
Proof.
  intros Hi H1 Hc Hd Hne Hh Hch Er. unfold update_option.
  destruct (map_find key _ (group_options c (u_group u))) as [[k v]|] eqn:E; [|by exists m, rg].
  destruct (group_options_find _ _ _ _ E) as (Hv & Hok & Hk). destruct Hi as [Hr Hl Hp Hg _]. destruct (Hg Hd) as [-> Hm]. specialize (Hm Hne).
  fold (untrack (u_group u) (convert_option_to_key (name r)) (u_track u)).
  pose proof (put_parts _ _ _ _ _ Hp Hv Hm) as Hput.
  assert (∃ text k', (if bool_decide (v = value r) then line
                  else match v with
                       | None => c_str (original_option k) ++ remaining_text r
                       | Some w => c_str (original_option k) ++ $" = " ++ c_str (convert_value_for_file (m_escape_characters c) w) ++
                                   remaining_text r
                       end) = text ∧ plain text ∧ key k' = key (convert_option_to_key (name r)) ∧
                       read_step (m, u_group u) text = Ok (put gn m (u_group u) k' v, u_group u)) as (text & k' & -> & Htext & Hk' & Hread).
  { destruct (remaining_comment _ _ _ Er) as [Hrem Hin]. case_bool_decide as Ev.
    - exists line, (convert_option_to_key (name r)). split_and!; [done|done|done|].
      rewrite (read_option _ _ _ ch), Er by done. cbn [mbind result_bind]. by rewrite bool_decide_eq_false_2, Ev.
    - exists (option_text (k, v) (remaining_text r)), k. split_and!; [|apply option_text_plain; [done|]|done|apply (read_option_text _ _ (k, v)); auto].
      + unfold option_text, option_line. cbn [fst snd]. destruct v; [by rewrite <- !(assoc_L (++))|done].
      + intros [Hx|?]%Hin; [|done]. by apply strip_elem, H1 in Hx.
      + cbn [snd]. intros ->. apply (Hc r (u_group u) Er). rewrite get_spec. unfold value_of. by rewrite Hv. }
  exists (put gn m (u_group u) k' v), (u_group u). constructor; cbn [u_out u_track u_group u_delete].
  - eapply reads_app; [done|]. by apply reads_one.
  - apply Forall_app. split; [done|]. by constructor.
  - by eapply put_norm.
  - intros _. split; [done|]. intros _. apply has_put. by left.
  - by rewrite Hd.
Qed.

Lemma inv_skip u m rg line :
  inv u m rg → plain line → (strip line = [] ∨ ∃ ch, head (strip line) = Some ch ∧ ch ∈ $"#;") →
  inv (if u_delete u then u else emit [line] u) m rg.
Proof. intros Hi H1 H. destruct (u_delete u); [done|]. apply inv_emit; [done|by apply read_skip|done]. Qed.

(** A line that was read before. *)
Lemma inv_line u m rg line mo mo' g' :
  inv u m rg → plain line → comments_ok line → read_step (mo, u_group u) line = Ok (mo', g') →
  ∃ u' m' rg', update_line c false u line = Ok u' ∧ inv u' m' rg' ∧ u_group u' = g'.
Proof.
  intros Hi H1 Hc Hread. pose proof (proj2 H1) as Hd. unfold update_line. destruct (strip line) as [|first rest] eqn:Es.
  { rewrite read_skip in Hread by (by left). injection Hread as <- <-. eexists _, m, rg. split; [done|].
    split; [by apply inv_skip; [| |left]|]. by destruct (u_delete u). }
  assert (head (strip line) = Some first) as Hh by (by rewrite Es). rewrite <- Es. case_bool_decide as E1.
  { rewrite read_skip in Hread by (right; by eexists). injection Hread as <- <-. eexists _, m, rg. split; [done|].
    split; [apply inv_skip; [done|done|right; by eexists]|]. by destruct (u_delete u). }
  rewrite bool_decide_eq_false_2 by (intros ->; by apply Hd). case_bool_decide as E3.
  { subst first. rewrite read_group in Hread by done. destruct (parse_group_line (strip line)) as [g|e] eqn:Eg; [|done].
    cbn [mbind result_bind] in *. injection Hread as <- <-. destruct (inv_update_group _ _ _ _ _ Hi H1 Hh Eg) as (m' & rg' & Hi').
    eexists _, m', rg'. split; [done|]. split; [exact Hi'|]. unfold update_group. by destruct (new_options c _ _). }
  destruct (decide (first ∈ $",=")) as [E4|E4].
  { unfold read_step, read_line in Hread. rewrite Es, bool_decide_eq_false_2, bool_decide_eq_true_2 in Hread by done. done. }
  assert (first ∉ $"#;,=[") as Hch by set_solver. rewrite Hesc.
  rewrite (read_option _ _ _ first Hh Hch) in Hread. destruct (parse_option_line YES (strip line)) as [r|e] eqn:Er; [|done].
  cbn [mbind result_bind] in *. case_bool_decide as Eg; [done|]. injection Hread as <- <-. destruct (u_delete u) eqn:Edel.
  - by exists u, m, rg.
  - destruct (inv_update_option _ _ _ _ _ _ Hi H1 Hc Edel Eg Hh Hch Er) as (m' & rg' & Hi'). eexists _, m', rg'. split; [done|].
    split; [exact Hi'|]. unfold update_option. by destruct (map_find key _ _) as [[? ?]|].
Qed.

Definition line_ok (line : str) : Prop := plain line ∧ comments_ok line.

Lemma inv_loop lines u m rg mo st' :
  inv u m rg → Forall line_ok lines → reads (mo, u_group u) lines st' →
  ∃ u' m' rg', foldM (update_line c false) u lines = Ok u' ∧ inv u' m' rg'.
Proof.
  intros Hi Hl. revert u m rg mo Hi. induction Hl as [|line lines [H1 H2] _ IH]; intros u m rg mo Hi Hr; [by exists u, m, rg|].
  unfold reads in Hr. cbn [foldM] in *. destruct (read_step (mo, u_group u) line) as [[mo' g']|e] eqn:E; [|done].
  destruct (inv_line _ _ _ _ _ _ _ Hi H1 H2 E) as (u1 & m1 & rg1 & -> & Hi1 & <-). cbn [mbind result_bind]. by eapply IH.
Qed.

Lemma parts_start : parts [] cfg.
Proof. constructor; [done| | |done|by right]; [|by intros ???]. intros g. split; [by right|]. by intros [[? ?]|?]. Qed.

Lemma inv_start : inv {| u_out := []; u_track := cfg; u_group := []; u_delete := false |} [] [].
Proof. constructor; cbn; [done|done|apply parts_start|by intros _|done]. Qed.

(** The lines of a file. *)
Lemma update_file_reads text st' :
  Forall line_ok (getlines text) → reads ([], []) (getlines text) st' →
  ∃ lines track m rg, update_file c false text cfg = Ok (lines, track) ∧ reads ([], []) lines (m, rg) ∧ Forall plain lines ∧ parts m track.
Proof.
  intros Hl Hr. destruct (inv_loop _ _ _ _ _ _ inv_start Hl Hr) as (u & m & rg & E & Hi). unfold update_file. rewrite E. cbn [mbind result_bind].
  destruct (new_options c (u_track u) (u_group u)) as [lines track] eqn:En.
  destruct (new_options_parts m rg _ _ _ _ (inv_parts _ _ _ Hi) (inv_rest _ _ _ Hi) En) as (m1 & Hr1 & Hp1 & Hl1 & _).
  exists (u_out u ++ lines), track, m1, rg. destruct Hi as [Hru Hlu _ _ _]. split_and!; [done|by eapply reads_app|by apply Forall_app|done].
Qed.

(** What is left goes to the end. *)
Lemma new_groups_reads m rg track :
  parts m track → ∃ m' rg', reads (m, rg) (new_groups c track) (m', rg') ∧
    (∀ g, has gn m' g ↔ has gn cfg g) ∧ ∀ g k, look gn m' g k = look gn cfg g k.
Proof.
  intros [Hok Hh Hw Hr Ha]. destruct (read_groups m rg track Hok) as (m' & rg' & Hread & Hh' & Hl'). exists m', rg'. split_and!.
  - unfold new_groups. destruct track as [|gp track]; [exact Hread|]. eapply reads_cons; [apply read_empty|exact Hread].
  - intros g. rewrite Hh', Hh. tauto.
  - intros g k. rewrite Hl'. destruct (look gn track g k) as [v|] eqn:Et; cbn [from_option]; [symmetry; by apply Hr|].
    destruct (look gn m g k) as [v|] eqn:Em; [symmetry; by apply Hw|].
    destruct (look gn cfg g k) as [v|] eqn:Ec; [|done]. destruct (Ha _ _ _ Ec); congruence.
Qed.
End reader.

(** ** Files without directives *)

Section files.
Context (home : option str → str) (getcwd : str) (listdir : str → result (list str)) (writable : str → bool).

Lemma read_aux_plain c files d path text :
  files !! path = Some text → Forall no_directive (getlines text) →
  read_recursive_aux home getcwd listdir c files (S d) path [] [] =
  ('(m, _) ← foldM (read_step c) ([], []) (getlines text); Ok m).
Proof.
  intros Hf Hd. cbn [read_recursive_aux]. rewrite Hf. rewrite (foldM_ext _ (read_step c)); [done|].
  intros st line Hin. rewrite Forall_forall in Hd. cbv zeta. rewrite bool_decide_eq_false_2; [done|]. by apply Hd.
Qed.

Lemma read_plain c files path text :
  files !! path = Some text → Forall no_directive (getlines text) →
  read home getcwd listdir c files path [] =
  ('(m, _) ← foldM (read_step c) ([], []) (getlines text); Ok (with_configmap m c)).
Proof.
  intros Hf Hd. unfold read. rewrite (read_aux_plain _ _ _ _ _ Hf Hd). by destruct (foldM _ _ _) as [[m rg]|e].
Qed.

Lemma get_include_plain files d path text :
  files !! path = Some text → Forall no_directive (getlines text) → get_include_files home getcwd listdir files (S d) path [] = Ok [path].
Proof.
  intros Hf Hd. cbn [get_include_files]. rewrite Hf. change (set_insert path []) with [path].
  rewrite (foldM_ext _ (λ out _, Ok out)).
  - clear. by induction (getlines text).
  - intros st line Hin. rewrite Forall_forall in Hd. cbv zeta. case_bool_decide; [done|]. rewrite bool_decide_eq_false_2; [done|]. by apply Hd.
Qed.

(** The configurations that can be written to a file, and the files that can be updated. *)
Definition config_ok (c : Config_file) : Prop := m_escape_characters c = YES ∧ container_ok (gnorm c) (m_configmap c).

Definition file_ok (c : Config_file) (files : fs) (path text : str) : Prop :=
  Forall no_directive (getlines text) ∧ Forall (comments_ok c) (getlines text) ∧ is_ok (read home getcwd listdir c files path []).

(** The lines for the main file read as the configuration. *)
Lemma written_text c lines track m rg :
  config_ok c → reads c ([], []) lines (m, rg) → Forall plain lines → parts c m track →
  let text := unlines (lines ++ new_groups c track) in
  ∀ files path, files !! path = Some text →
  ∃ c', read home getcwd listdir c files path [] = Ok c' ∧
    ∀ g o, has_group c' g = has_group c g ∧ get c' g o = get c g o.
Proof.
  intros [Hesc Hok] Hr Hl Hp text files path Hf. destruct (new_groups_reads c Hesc m rg track Hp) as (m' & rg' & Hr' & Hh & Hk).
  assert (Forall plain (lines ++ new_groups c track)) as Hplain
    by (apply Forall_app; split; [done|apply new_groups_plain; [done|apply Hp]]).
  assert (getlines text = lines ++ new_groups c track) as Et by (by apply getlines_unlines, plain_lines).
  exists (with_configmap m' c). split.
  - rewrite (read_plain _ _ _ text) by (done || (rewrite Et; eapply Forall_impl; [exact Hplain|]; by intros ? [_ ?])).
    rewrite Et, (reads_app c _ _ _ _ _ Hr Hr' : foldM _ _ _ = _). done.
  - intros g o. split.
    + apply eq_true_iff_eq. by rewrite has_group_with, has_group_spec.
    + by rewrite get_with, get_spec, Hk.
Qed.

(** C23: Writing a configuration to an option file, new or with other groups, options and
    comments in it, and reading the file gives the same groups and the same value, or no
    value, for every option; no other file changes. The configuration escapes special
    characters, its group names have no closing bracket, newline or null character, its
    option names can be told from the rest of a line, and its values have no null
    character. A file that is there has no line that starts with an exclamation mark (no
    !include), can be read, and has no equals sign in the comment behind an option to
    which the configuration gives no value. *)
Theorem write_then_read (c : Config_file) (files : fs) (path : str) :
  config_ok c → writable path = true → (∀ text, files !! path = Some text → file_ok c files path text) →
  ∃ text c', write home getcwd listdir writable c files path = Ok (<[path := text]> files) ∧
    read home getcwd listdir c (<[path := text]> files) path [] = Ok c' ∧
    ∀ g o, has_group c' g = has_group c g ∧ get c' g o = get c g o.
Proof.
  intros Hc Hw Hfile. pose proof Hc as [Hesc Hok]. unfold write. rewrite Hw. cbn [negb].
  destruct (files !! path) as [text|] eqn:Ef.
  - rewrite bool_decide_eq_true_2 by done. destruct (Hfile text eq_refl) as (Hd & Hco & Hread).
    rewrite (get_include_plain _ _ _ text) by done. cbn [mbind result_bind foldM write_file]. rewrite Ef.
    rewrite (read_plain _ _ _ text) in Hread by done.
    destruct (foldM (read_step c) ([], []) (getlines text)) as [st|e] eqn:Er; [|by destruct Hread].
    destruct (update_file_reads c Hesc Hok text st) as (lines & track & m & rg & -> & Hr & Hl & Hp); [|done|].
    { pose proof (getlines_one_line text) as H1. rewrite Forall_forall in *. intros line Hin. unfold line_ok, plain. auto. }
    cbn [mbind result_bind foldl fst snd app].
    destruct (written_text c lines track m rg Hc Hr Hl Hp (<[path := unlines (lines ++ new_groups c track)]> files) path) as (c' & Hc' & Hall);
      [apply lookup_insert_eq|]. by eexists _, c'.
  - rewrite bool_decide_eq_false_2 by (by intros [? ?]). change (set_insert path []) with [path].
    cbn [mbind result_bind foldM write_file foldl fst snd app].
    destruct (written_text c [] (m_configmap c) [] [] Hc (reads_nil c _) (Forall_nil_2 _) (parts_start c Hok)
      (<[path := unlines (new_groups c (m_configmap c))]> files) path) as (c' & Hc' & Hall);
      [apply lookup_insert_eq|]. by eexists _, c'.
Qed.
End files.

(** ** An example *)

(** The conditions on names as functions. *)
Definition stripped_b (s : str) : bool := from_option (negb ∘ blank) true (head s) && from_option (negb ∘ blank) true (last s).

Definition name_ok_b (n : str) : bool :=
  stripped_b n && forallb (λ ch, bool_decide (ch ∉ ["="%char; "#"%char; "010"%char; nul])) n &&
  match head n with Some ch => bool_decide (ch ∉ $"[!;,#=") | None => false end.

Lemma name_ok_true n : name_ok_b n = true → name_ok n.
Proof.
  unfold name_ok_b, stripped_b. rewrite !andb_true_iff, forallb_forall. intros [[[H1 H2] H3] H4]. constructor.
  - split; intros ch E; rewrite E in *; by apply negb_true_iff.
  - intros ch Hin. apply list_elem_of_In, H3 in Hin. by apply bool_decide_eq_true_1 in Hin.
  - destruct (head n) as [ch|]; [|done]. exists ch. split; [done|]. by apply bool_decide_eq_true_1 in H4.
Qed.

Definition comments_ok_b (line : str) : bool :=
  match parse_option_line YES (strip line) with Ok r => bool_decide ("="%char ∉ remaining_text r) | Throw _ => true end.

Lemma comments_ok_true c line : comments_ok_b line = true → comments_ok c line.
Proof. unfold comments_ok_b, comments_ok. intros H r g E _. rewrite E in H. by apply bool_decide_eq_true_1 in H. Qed.

Definition sample_config : Config_file :=
  {| m_group_case := INSENSITIVE; m_escape_characters := YES;
     m_configmap := [($"client", []);
                     ($"mysqld", [(convert_option_to_key ($"log_bin"), Some ($"a 'b' # c"));
                                  (convert_option_to_key ($"port"), Some ($"3307"));
                                  (convert_option_to_key ($"skip-networking"), None)])] |}.

Definition sample_text : str :=
  unlines [$"# main"; $"[MySQLd]"; $"port = 3306 # default"; $"old=1"; $"[mysqldump]"; $"quick"].

Definition sample_path : str := $"/etc/my.cnf".
Definition sample_fs : fs := {[sample_path := sample_text]}.

Ltac sorted :=
  unfold m_configmap, sample_config; cbn [map_sorted];
  repeat match goal with
  | |- _ ∧ _ => split
  | |- Forall _ (_ :: _) => apply Forall_cons_2
  | |- Forall _ [] => apply Forall_nil_2
  | |- True => exact I
  | |- before _ _ _ => vm_compute; reflexivity
  end.

Lemma sample_config_ok : config_ok sample_config.
Proof.
  split; [done|]. split; [sorted|].
  assert (∀ ch, ch ∈ $"client" ++ $"mysqld" → ch ∉ ["]"%char; "010"%char; nul]) as Hg.
  { apply Forall_forall. by apply (bool_decide_unpack _). }
  repeat apply Forall_cons_2; [| |done]; (split; [split; [done|]; intros ch Hin; apply Hg, elem_of_app; tauto|]); cbn [snd].
  - by split.
  - split; [sorted|].
    repeat apply Forall_cons_2; [| | |done]; (split; [reflexivity|]; split; [by apply name_ok_true|]); intros v [= <-];
      by apply (bool_decide_unpack _).
Qed.

Lemma write_then_read_witness :
  ∃ text c', write (λ _, $"/root") ($"/") (λ _, Ok []) (λ _, true) sample_config sample_fs sample_path = Ok (<[sample_path := text]> sample_fs) ∧
    read (λ _, $"/root") ($"/") (λ _, Ok []) sample_config (<[sample_path := text]> sample_fs) sample_path [] = Ok c' ∧
    ∀ g o, has_group c' g = has_group sample_config g ∧ get c' g o = get sample_config g o.
Proof.
  apply (write_then_read (λ _, $"/root") ($"/") (λ _, Ok []) (λ _, true)); [exact sample_config_ok|reflexivity|].
  intros text [= <-]. split; [|split].
  - apply (bool_decide_unpack _). vm_compute. exact I.
  - repeat apply Forall_cons_2; [apply comments_ok_true; vm_compute; reflexivity..|apply Forall_nil_2].
  - vm_compute. exact I.
Defined.

(** What is written into the sample file. *)
Lemma sample_written :
  (λ files, getlines (default [] (files !! sample_path))) <$>
    (match write (λ _, $"/root") ($"/") (λ _, Ok []) (λ _, true) sample_config sample_fs sample_path with Ok f => Some f | _ => None end) =
  Some [$"# main"; $"[MySQLd]"; $"port = 3307 # default";
        $"log_bin = " ++ ["034"%char] ++ $"a 'b' # c" ++ ["034"%char]; $"skip-networking"; [];
        []; $"[client]"; []].
Proof. vm_compute. reflexivity. Qed.

(** ** Behaviours that differ from the comments *)

(** The files are ordered by their path: with an included file that is ordered before the main
    file, what is new is written into the included file. *)
Lemma new_group_in_included_file :
  let files : fs := {[$"/z.cnf" := unlines [$"!include /a.cnf"; $"[client]"; $"user=x"]; $"/a.cnf" := unlines [$"[mysqld]"; $"port=1"]]} in
  let c := (add_group (with_configmap [($"client", [(convert_option_to_key ($"user"), Some ($"x"))]);
                                       ($"mysqld", [(convert_option_to_key ($"port"), Some ($"1"))])]
                         (make_Config_file SENSITIVE YES)) ($"new")).2 in
  match write (λ _, $"/root") ($"/") (λ _, Ok []) (λ _, true) c files ($"/z.cnf") with
  | Ok files' => getlines <$> files' !! $"/a.cnf" = Some [$"[mysqld]"; $"port=1"; []; $"[client]"; $"user = x"; []; $"[new]"; []]
                 ∧ files' !! $"/z.cnf" = files !! $"/z.cnf"
  | Throw _ => False
  end.
Proof. vm_compute. done. Qed.

(** The equals sign of a comment is taken for that of the option. *)
Lemma equals_in_comment :
  parse_option_line YES ($"quick # a=b") = Ok {| name := $"quick # a"; value := Some ($"b"); remaining_text := [] |}.
Proof. vm_compute. done. Qed.
