(* ===== verification/ObjectStorage.v ===== *)
(** * Object storage

    Model of [mysqlshdk/libs/storage/backend/object_storage.{h,cc}] ([Directory], [Object] with
    its [Writer] and [Reader]) and of [Container::list_objects] of [object_storage_bucket.cc].

    The service is reached through the class [Container], whose requests are an interface: a
    state, and for each request its answer or an error.  Sizes are natural numbers, offsets of
    the reader are 64-bit integers. *)
From S2P Require Import Prelude UtilsString UtilsGeneral.

Open Scope nat_scope.

Inductive Mode := READ | WRITE | APPEND.

Record Multipart_object := { mo_name : str; upload_id : str }.
Record Multipart_object_part := { part_num : nat; etag : str; part_size : nat }.
Record Object_details := { od_name : str; od_size : nat }.

(** Errors: those of a request ([rest::Response_error] with its status, and
    [rest::Connection_error]), and those the files throw. *)
Inductive error :=
| Response_error (status : Z)
| Connection_error
| Shcore_exception (code : Z)
| Runtime_error
| Invalid_argument
| Logic_error
| Out_of_fuel.   (* of the model, for loops that do not end *)

Definition NOT_FOUND : Z := 404.

(** [rest::to_exception] *)
Definition to_exception (status : Z) : error := Shcore_exception (54000 + status)%Z.

(** The requests of a container. *)
Class Container (S : Type) := {
  head_object : str → S → S * (error + nat);
  delete_object : str → S → S * (error + unit);
  rename_object : str → str → S → S * (error + unit);
  put_object : str → str → S → S * (error + unit);
  get_object : str → Z → Z → S → S * (error + str);
  list_page : str → nat → bool → str → S → S * (error + (list Object_details * str));
  all_multipart_uploads : S → S * (error + list Multipart_object);
  list_multipart_uploaded_parts : Multipart_object → S → S * (error + list Multipart_object_part);
  create_multipart_upload : str → S → S * (error + Multipart_object);
  upload_part : Multipart_object → nat → str → S → S * (error + Multipart_object_part);
  commit_multipart_upload : Multipart_object → list Multipart_object_part → S → S * (error + unit);
  abort_multipart_upload : Multipart_object → S → S * (error + unit);
}.

Section storage.
Context {S : Type} `{Container S}.

(** Response errors become exceptions. *)
Definition translate {A} (r : S * (error + A)) : S * (error + A) :=
  match r with
  | (s, inl (Response_error status)) => (s, inl (to_exception status))
  | _ => r
  end.

(** ** [Container::list_objects] *)

Definition MAX_LIST_OBJECTS_LIMIT : Z := 1000.

(** One iteration per page; [fuel] bounds the number of pages. *)
Fixpoint list_objects_loop (fuel : nat) (prefix : str) (limit : nat) (recursive : bool) (remaining : Z) (next_start : str)
    (result : list Object_details) (s : S) : S * (error + list Object_details) :=
  match fuel with
  | O => (s, inl Out_of_fuel)
  | Datatypes.S fuel =>
      match list_page prefix (if bool_decide (remaining < MAX_LIST_OBJECTS_LIMIT)%Z then Z.to_nat remaining else 0) recursive next_start s with
      | (s, inl e) => (s, inl e)
      | (s, inr (page, next_start)) =>
          let remaining := if bool_decide (remaining = 0)%Z then remaining else u64 (remaining - Z.of_nat (length result)) in
          let result := result ++ page in
          if bool_decide (next_start = []) || bool_decide (length result = limit) then (s, inr result)
          else list_objects_loop fuel prefix limit recursive remaining next_start result s
      end
  end.

Definition list_objects (fuel : nat) (prefix : str) (limit : nat) (recursive : bool) (s : S) : S * (error + list Object_details) :=
  list_objects_loop fuel prefix limit recursive (Z.of_nat limit) [] [] s.

(** ** Writing *)

Record Writer := {
  w_size : nat;
  m_buffer : str;
  m_is_multipart : bool;
  m_multipart : Multipart_object;
  m_parts : list Multipart_object_part;
}.

Definition with_buffer (b : str) (w : Writer) : Writer :=
  {| w_size := w_size w; m_buffer := b; m_is_multipart := m_is_multipart w; m_multipart := m_multipart w; m_parts := m_parts w |}.

Definition with_upload (m : Multipart_object) (w : Writer) : Writer :=
  {| w_size := w_size w; m_buffer := m_buffer w; m_is_multipart := true; m_multipart := m; m_parts := m_parts w |}.

(** A part was sent, and the buffer is empty. *)
Definition with_part (p : Multipart_object_part) (w : Writer) : Writer :=
  {| w_size := w_size w; m_buffer := []; m_is_multipart := m_is_multipart w; m_multipart := m_multipart w; m_parts := m_parts w ++ [p] |}.

Definition new_Writer : Writer :=
  {| w_size := 0; m_buffer := []; m_is_multipart := false; m_multipart := {| mo_name := []; upload_id := [] |}; m_parts := [] |}.

(** The constructor, for an upload that was started before. *)
Definition make_Writer (object : option Multipart_object) (s : S) : S * (error + Writer) :=
  match object with
  | None => (s, inr new_Writer)
  | Some object =>
      match translate (list_multipart_uploaded_parts object s) with
      | (s, inl e) => (s, inl e)
      | (s, inr parts) =>
          (s, inr {| w_size := sum_list (part_size <$> parts); m_buffer := []; m_is_multipart := true; m_multipart := object; m_parts := parts |})
      end
  end.

Definition reset (w : Writer) : Writer :=
  {| w_size := w_size w; m_buffer := []; m_is_multipart := false; m_multipart := m_multipart w; m_parts := [] |}.

(** [Writer::abort_multipart_upload]: response errors are logged. *)
Definition abort (w : Writer) (s : S) : Writer * S * (error + unit) :=
  if m_is_multipart w then
    match abort_multipart_upload (m_multipart w) s with
    | (s, inl (Response_error _)) => (reset w, s, inr tt)
    | (s, r) => (reset w, s, r)
    end
  else (w, s, inr tt).

(** A part that could not be sent: the upload is cancelled. *)
Definition upload_failed (w : Writer) (e : error) (s : S) : Writer * S * error :=
  match e with
  | Response_error status =>
      match abort w s with
      | (w, s, inl e) => (w, s, e)
      | (w, s, inr _) => (w, s, to_exception status)
      end
  | _ => (w, s, e)
  end.

(** The loop of [write]: parts of [max] bytes, from the buffer and from what is left of
    [incoming]. *)
Fixpoint send_parts (fuel max : nat) (incoming : str) (to_send : nat) (w : Writer) (s : S) : Writer * S * (error + str) :=
  if bool_decide (max < to_send) then
    match fuel with
    | O => (w, s, inl Out_of_fuel)
    | Datatypes.S fuel =>
        let '(w, part, incoming) :=
          if bool_decide (m_buffer w = []) then (w, take max incoming, drop max incoming)
          else
            let buffer_space := max - length (m_buffer w) in
            let buffer := m_buffer w ++ take buffer_space incoming in
            (with_buffer buffer w, take max buffer, drop buffer_space incoming) in
        match upload_part (m_multipart w) (length (m_parts w) + 1) part s with
        | (s, inl e) => let '(w, s, e) := upload_failed w e s in (w, s, inl e)
        | (s, inr p) => send_parts fuel max incoming (to_send - max) (with_part p w) s
        end
    end
  else (w, s, inr incoming).

(** [Writer::write], for an object with this path and part size. *)
Definition writer_write (path : str) (max : nat) (buffer : str) (w : Writer) (s : S) : Writer * S * (error + nat) :=
  let to_send := length (m_buffer w) + length buffer in
  let '(w, s, started) :=
    if negb (m_is_multipart w) && bool_decide (max < to_send) then
      match translate (create_multipart_upload path s) with
      | (s, inl e) => (w, s, inl e)
      | (s, inr m) => (with_upload m w, s, inr tt)
      end
    else (w, s, inr tt) in
  match started with
  | inl e => (w, s, inl e)
  | inr _ =>
      match send_parts to_send max buffer to_send w s with
      | (w, s, inl e) => (w, s, inl e)
      | (w, s, inr remaining_input) =>
          ({| w_size := w_size w + length buffer; m_buffer := m_buffer w ++ remaining_input; m_is_multipart := m_is_multipart w;
              m_multipart := m_multipart w; m_parts := m_parts w |}, s, inr (length buffer))
      end
  end.

(** Errors of the connection in [close] are errors of the caller. *)
Definition close_failed (w : Writer) (e : error) (s : S) : Writer * S * (error + unit) :=
  match e with
  | Connection_error => (w, s, inl Runtime_error)
  | _ => let '(w, s, e) := upload_failed w e s in (w, s, inl e)
  end.

Definition writer_close (path : str) (w : Writer) (s : S) : Writer * S * (error + unit) :=
  if m_is_multipart w then
    let '(w, s, sent) :=
      if bool_decide (m_buffer w = []) then (w, s, inr tt)
      else match upload_part (m_multipart w) (length (m_parts w) + 1) (m_buffer w) s with
           | (s, inl e) => (w, s, inl e)
           | (s, inr p) => ({| w_size := w_size w; m_buffer := m_buffer w; m_is_multipart := m_is_multipart w; m_multipart := m_multipart w;
                               m_parts := m_parts w ++ [p] |}, s, inr tt)
           end in
    match sent with
    | inl e => close_failed w e s
    | inr _ =>
        match commit_multipart_upload (m_multipart w) (m_parts w) s with
        | (s, inl e) => close_failed w e s
        | (s, inr _) => (reset w, s, inr tt)
        end
    end
  else if bool_decide (m_buffer w = []) then (reset w, s, inr tt)
  else
    match put_object path (m_buffer w) s with
    | (s, inl (Response_error status)) => (w, s, inl (to_exception status))
    | (s, inl Connection_error) => (w, s, inl Runtime_error)
    | (s, inl e) => (w, s, inl e)
    | (s, inr _) => (reset w, s, inr tt)
    end.

(** ** Reading *)

Record Reader := { r_size : nat; m_offset : Z }.

Definition make_Reader (path : str) (s : S) : S * (error + Reader) :=
  match head_object path s with
  | (s, inl (Response_error status)) => (s, inl (to_exception status))
  | (s, inl Connection_error) => (s, inl Runtime_error)
  | (s, inl e) => (s, inl e)
  | (s, inr size) => (s, inr {| r_size := size; m_offset := 0 |})
  end.

Definition reader_seek (offset : Z) (r : Reader) : Reader * Z :=
  let offset := Z.min offset (Z.of_nat (r_size r)) in ({| r_size := r_size r; m_offset := offset |}, offset).

(** The bytes that were read. *)
Definition reader_read (path : str) (length : nat) (r : Reader) (s : S) : Reader * S * (error + str) :=
  let first := u64 (m_offset r) in
  let last_unbounded := u64 (m_offset r + Z.of_nat length - 1) in
  if bool_decide (Z.of_nat (r_size r) <= m_offset r)%Z then (r, s, inr [])
  else
    let last := Z.min (u64 (Z.of_nat (r_size r) - 1)) last_unbounded in
    match translate (get_object path first last s) with
    | (s, inl e) => (r, s, inl e)
    | (s, inr data) => ({| r_size := r_size r; m_offset := m_offset r + Z.of_nat (List.length data) |}, s, inr data)
    end.

(** ** Objects *)

Record Object := {
  m_name : str;
  m_prefix : str;
  m_max_part_size : nat;
  m_open_mode : option Mode;
  m_writer : option Writer;
  m_reader : option Reader;
}.

Definition make_Object (part_size : nat) (name prefix : str) : Object :=
  {| m_name := name; m_prefix := prefix; m_max_part_size := part_size; m_open_mode := None; m_writer := None; m_reader := None |}.

Definition full_path (o : Object) : str := m_prefix o ++ m_name o.

Definition set_max_part_size (new_size : nat) (o : Object) : Object :=
  {| m_name := m_name o; m_prefix := m_prefix o; m_max_part_size := new_size; m_open_mode := m_open_mode o; m_writer := m_writer o;
     m_reader := m_reader o |}.

Definition with_handlers (mode : option Mode) (w : option Writer) (r : option Reader) (o : Object) : Object :=
  {| m_name := m_name o; m_prefix := m_prefix o; m_max_part_size := m_max_part_size o; m_open_mode := mode; m_writer := w; m_reader := r |}.

(** The destructor of a writer cancels an upload that was not finished. *)
Definition drop_writer (w : option Writer) (s : S) : S :=
  match w with None => s | Some w => (abort w s).1.2 end.

(** Opening; the previous writer or reader is replaced. *)
Definition open (mode : Mode) (o : Object) (s : S) : Object * S * (error + unit) :=
  let open_writer mode object s :=
    match make_Writer object s with
    | (s, inl e) => (o, s, inl e)
    | (s, inr w) => (with_handlers (Some mode) (Some w) (m_reader o) o, drop_writer (m_writer o) s, inr tt)
    end in
  match mode with
  | READ =>
      match make_Reader (full_path o) s with
      | (s, inl e) => (o, s, inl e)
      | (s, inr r) => (with_handlers (Some READ) (m_writer o) (Some r) o, s, inr tt)
      end
  | APPEND =>
      match translate (all_multipart_uploads s) with
      | (s, inl e) => (o, s, inl e)
      | (s, inr uploads) =>
          match List.find (λ u, bool_decide (mo_name u = full_path o)) uploads with
          | Some object => open_writer APPEND (Some object) s
          | None =>
              match head_object (full_path o) s with
              | (s, inr _) => (o, s, inl Invalid_argument)
              | (s, inl (Response_error _)) => open_writer WRITE None s
              | (s, inl e) => (o, s, inl e)
              end
          end
      end
  | WRITE => open_writer WRITE None s
  end.

Definition is_open (o : Object) : bool := bool_decide (is_Some (m_open_mode o)).

Definition close (o : Object) (s : S) : Object * S * (error + unit) :=
  match m_writer o with
  | None => (with_handlers None None None o, s, inr tt)
  | Some w =>
      match writer_close (full_path o) w s with
      | (w, s, inl e) => (with_handlers (m_open_mode o) (Some w) (m_reader o) o, s, inl e)
      | (w, s, inr _) => (with_handlers None None None o, drop_writer (Some w) s, inr tt)
      end
  end.

Definition file_size (o : Object) (s : S) : S * (error + nat) :=
  match m_reader o, m_writer o with
  | Some r, _ => (s, inr (r_size r))
  | None, Some w => (s, inr (w_size w))
  | None, None => head_object (full_path o) s
  end.

Definition exists_ (o : Object) (s : S) : S * (error + bool) :=
  match file_size o s with
  | (s, inr _) => (s, inr true)
  | (s, inl (Response_error status)) => (s, if bool_decide (status = NOT_FOUND) then inr false else inl (to_exception status))
  | (s, inl e) => (s, inl e)
  end.

Definition seek (offset : Z) (o : Object) : Object * Z :=
  match m_reader o, m_writer o with
  | Some r, _ => let '(r, offset) := reader_seek offset r in (with_handlers (m_open_mode o) (m_writer o) (Some r) o, offset)
  | None, _ => (o, 0%Z)
  end.

Definition tell (o : Object) : error + Z :=
  match m_reader o, m_writer o with
  | Some _, _ => inl Logic_error
  | None, Some w => inr (Z.of_nat (w_size w))
  | None, None => inr 0%Z
  end.

(** [read] and [write] are called on an object that is open for them. *)
Definition read (length : nat) (o : Object) (s : S) : Object * S * (error + str) :=
  match length, m_reader o with
  | O, _ | _, None => (o, s, inr [])
  | _, Some r =>
      let '(r, s, data) := reader_read (full_path o) length r s in (with_handlers (m_open_mode o) (m_writer o) (Some r) o, s, data)
  end.

Definition write (buffer : str) (o : Object) (s : S) : Object * S * (error + nat) :=
  match m_writer o with
  | None => (o, s, inr 0)
  | Some w =>
      let '(w, s, r) := writer_write (full_path o) (m_max_part_size o) buffer w s in
      (with_handlers (m_open_mode o) (Some w) (m_reader o) o, s, r)
  end.

Definition rename (new_name : str) (o : Object) (s : S) : Object * S * (error + unit) :=
  match translate (rename_object (m_prefix o ++ m_name o) (m_prefix o ++ new_name) s) with
  | (s, inl e) => (o, s, inl e)
  | (s, inr _) => ({| m_name := new_name; m_prefix := m_prefix o; m_max_part_size := m_max_part_size o; m_open_mode := m_open_mode o;
                      m_writer := m_writer o; m_reader := m_reader o |}, s, inr tt)
  end.

Definition remove (o : Object) (s : S) : S * (error + unit) := delete_object (full_path o) s.

(** ** Directories *)

Record Directory := { d_name : str; d_prefix : str; d_created : bool }.

Definition make_Directory (name : str) : Directory :=
  {| d_name := name; d_prefix := if bool_decide (name = []) then [] else name ++ $"/"; d_created := false |}.

(** The directory of an object. *)
Definition parent (o : Object) : Directory :=
  make_Directory (match find_last_if (λ c, bool_decide (c = "/"%char)) (full_path o) with None => [] | Some pos => take pos (full_path o) end).

Definition create (d : Directory) : Directory := {| d_name := d_name d; d_prefix := d_prefix d; d_created := true |}.

(** Files of a directory are different by name, the first of a name is kept. *)
Definition emplace (files : list (str * nat)) (file : str * nat) : list (str * nat) :=
  if bool_decide (file.1 ∈ files.*1) then files else files ++ [file].

Definition list_multipart_uploads (d : Directory) (s : S) : S * (error + list (str * nat)) :=
  match translate (all_multipart_uploads s) with
  | (s, inl e) => (s, inl e)
  | (s, inr uploads) =>
      (s, inr (foldl (λ files upload,
                 if bool_decide (d_prefix d = []) then
                   if bool_decide (find_char (mo_name upload) "/" 0 = None) then emplace files (mo_name upload, 0) else files
                 else if str_beginswith_pair (mo_name upload) (d_prefix d) then emplace files (drop (length (d_prefix d)) (mo_name upload), 0)
                 else files) [] uploads))
  end.

Definition dir_exists (fuel : nat) (d : Directory) (s : S) : S * (error + bool) :=
  match translate (list_objects fuel (d_prefix d) 1 false s) with
  | (s, inl e) => (s, inl e)
  | (s, inr objects) =>
      if negb (bool_decide (length objects = 0)) || bool_decide (d_prefix d = []) || d_created d then (s, inr true)
      else match list_multipart_uploads d s with
           | (s, inl e) => (s, inl e)
           | (s, inr files) => (s, inr (negb (bool_decide (files = []))))
           end
  end.

Definition list_files (fuel : nat) (hidden_files : bool) (d : Directory) (s : S) : S * (error + list (str * nat)) :=
  match translate (list_objects fuel (d_prefix d) 0 false s) with
  | (s, inl e) => (s, inl e)
  | (s, inr objects) =>
      let files := foldl (λ files object, emplace files (drop (length (d_prefix d)) (od_name object), od_size object)) [] objects in
      if hidden_files then
        match list_multipart_uploads d s with
        | (s, inl e) => (s, inl e)
        | (s, inr uploads) => (s, inr (foldl emplace files uploads))
        end
      else (s, inr files)
  end.

Definition filter_files (fuel : nat) (pattern : str) (d : Directory) (s : S) : S * (error + list (str * nat)) :=
  match translate (list_objects fuel (d_prefix d) 0 false s) with
  | (s, inl e) => (s, inl e)
  | (s, inr objects) =>
      (s, inr (foldl (λ files object,
                 let file_name := drop (length (d_prefix d)) (od_name object) in
                 if (bool_decide (d_prefix d = []) || negb (bool_decide (file_name = []))) && match_glob pattern file_name false
                 then emplace files (file_name, od_size object) else files) [] objects))
  end.

Definition join_path (a b : str) : str := if bool_decide (a = []) then b else a ++ $"/" ++ b.

Definition file (part_size : nat) (name : str) (d : Directory) : Object := make_Object part_size name (join_path (d_name d) []).
End storage.
