(* ===== verification/ObjectStorageFacts.v ===== *)
(** * Object storage: theorems

    What a file in object storage holds after it was written and closed, which parts are sent,
    what an error leaves behind, and what is read. *)
From Stdlib Require Import Sorting.Sorted.
From stdpp Require Import infinite fin_sets.
From S2P Require Import Prelude UtilsString UtilsStringFacts UtilsGeneral ObjectStorage.

Open Scope nat_scope.

(** ** The service

    A bucket has objects and uploads; an upload has a name and numbered parts, which become
    the object, in the order of their numbers, when the upload is committed.  A request that
    creates an upload and is reported as failed is taken to have started none; if the service
    starts one and its answer is lost, the program cannot know the upload, and nothing is said
    about it. *)

Definition assemble (ps : gmap nat str) (nums : list nat) : str := concat ((λ i, default [] (ps !! i)) <$> nums).

Class Bucket (S : Type) `{Container S} := {
  objects : S → gmap str str;
  uploads : S → gmap str (str * gmap nat str);
  head_spec n s s' r : head_object n s = (s', r) →
    objects s' = objects s ∧ uploads s' = uploads s ∧
    match r with inr k => ∃ d, objects s !! n = Some d ∧ k = length d | inl _ => True end;
  get_spec n first last d s s' r : objects s !! n = Some d → (0 <= first <= last)%Z → (last < Z.of_nat (length d))%Z →
    get_object n first last s = (s', r) →
    objects s' = objects s ∧ uploads s' = uploads s ∧
    match r with inr got => got = substr d (Z.to_nat first) (Z.to_nat (last - first + 1)) | inl _ => True end;
  put_spec n d s s' : put_object n d s = (s', inr tt) → objects s' = <[n := d]> (objects s) ∧ uploads s' = uploads s;
  create_spec n s s' r : create_multipart_upload n s = (s', r) →
    objects s' = objects s ∧
    match r with
    | inr m => uploads s !! upload_id m = None ∧ uploads s' = <[upload_id m := (n, ∅)]> (uploads s)
    | inl _ => uploads s' = uploads s
    end;
  upload_spec m i d n ps s s' r : uploads s !! upload_id m = Some (n, ps) → upload_part m i d s = (s', r) →
    objects s' = objects s ∧
    match r with
    | inr p => part_num p = i ∧ part_size p = length d ∧ uploads s' = <[upload_id m := (n, <[i := d]> ps)]> (uploads s)
    | inl _ => uploads s' = uploads s
    end;
  commit_spec m parts n ps s s' : uploads s !! upload_id m = Some (n, ps) → StronglySorted lt (part_num <$> parts) →
    commit_multipart_upload m parts s = (s', inr tt) →
    objects s' = <[n := assemble ps (part_num <$> parts)]> (objects s) ∧ uploads s' = delete (upload_id m) (uploads s);
  abort_spec m s s' r : abort_multipart_upload m s = (s', r) →
    objects s' = objects s ∧ match r with inr _ => uploads s' = delete (upload_id m) (uploads s) | inl _ => uploads s' = uploads s end;
}.

(** ** Blocks of a text *)

(** The [i]-th block of [max] bytes, from 0. *)
Definition block (max : nat) (data : str) (i : nat) : str := take max (drop (i * max) data).

(** The parts [1..n] of an upload hold the first [n] blocks of the data. *)
Definition parts_hold (max : nat) (data : str) (n : nat) (ps : gmap nat str) : Prop :=
  ∀ i, ps !! S i = if decide (i < n) then Some (block max data i) else None.

Lemma blocks_concat max data n : n * max ≤ length data → concat (block max data <$> seq 0 n) = take (n * max) data.
Proof.
  induction n as [|n IH]; intros Hn; [done|]. rewrite seq_S, fmap_app, concat_app, IH by lia. cbn [fmap list_fmap concat plus]. rewrite app_nil_r.
  unfold block. replace (S n * max) with (n * max + max) by lia.
  rewrite <- (take_drop (n * max) (take (n * max + max) data)) at 1. rewrite take_take, skipn_firstn_comm.
  f_equal; [|f_equal]; f_equal; lia.
Qed.

Lemma block_app max data more i : (S i) * max ≤ length data → block max (data ++ more) i = block max data i.
Proof. intros H. unfold block. rewrite drop_app_le, take_app_le by (rewrite ?length_drop; lia). done. Qed.

(** ** The writer *)

Section writer.
Context {S : Type} `{Bucket S}.

(** Services that answer every request of a writer, and services that cancel every upload. *)
Definition reliable : Prop :=
  (∀ n s, ∃ s' m, create_multipart_upload n s = (s', inr m)) ∧
  (∀ m i d s, ∃ s' p, upload_part m i d s = (s', inr p)) ∧
  (∀ m parts s, ∃ s', commit_multipart_upload m parts s = (s', inr tt)) ∧
  (∀ n d (s : S), ∃ s', put_object n d s = (s', inr tt)).

Definition cancels : Prop := ∀ m (s : S), ∃ s', abort_multipart_upload m s = (s', inr tt).

Context (path : str) (max : nat) (Hmax : 0 < max) (O0 : gmap str str) (U0 : gmap str (str * gmap nat str)).

(** The first [n] blocks of [data] were sent for an upload of the writer. *)
Definition sent (w : Writer) (s : S) (data : str) (n : nat) : Prop :=
  objects s = O0 ∧ m_is_multipart w = true ∧ part_num <$> m_parts w = seq 1 n ∧
  ∃ ps, uploads s = <[upload_id (m_multipart w) := (path, ps)]> U0 ∧ U0 !! upload_id (m_multipart w) = None ∧ parts_hold max data n ps.

(** No object was changed, and the only upload is that of the writer. *)
Definition pending (w : Writer) (s : S) : Prop :=
  objects s = O0 ∧
  if m_is_multipart w then ∃ ps, uploads s = <[upload_id (m_multipart w) := (path, ps)]> U0 ∧ U0 !! upload_id (m_multipart w) = None
  else uploads s = U0.

Lemma sent_pending w s data n : sent w s data n → pending w s.
Proof. intros (Ho & Hm & _ & ps & Hu & Hn & _). split; [done|]. rewrite Hm. by exists ps. Qed.

Lemma abort_pending w s w' s' r :
  pending w s → abort w s = (w', s', r) → objects s' = O0 ∧ (cancels → m_is_multipart w' = false ∧ uploads s' = U0).
Proof.
  intros [Ho Hp]. unfold abort. destruct (m_is_multipart w) eqn:Em; [|by intros [= <- <- <-]].
  destruct (abort_multipart_upload (m_multipart w) s) as [s1 a] eqn:E. destruct (abort_spec _ _ _ _ E) as [Ho1 Hu1].
  destruct Hp as (ps & Hu & Hn). assert (cancels → uploads s1 = U0) as Hc.
  { intros Hc. destruct (Hc (m_multipart w) s) as [s2 E2]. rewrite E in E2. injection E2 as <- ->. rewrite Hu1, Hu. by apply delete_insert_id. }
  intros Heq. assert (w' = reset w ∧ s' = s1) as [-> ->] by (destruct a as [[]|]; by injection Heq).
  split; [by rewrite Ho1|]. intros Hcan. split; [done|by apply Hc].
Qed.

Lemma upload_failed_pending w e s w' s' e' :
  pending w s → upload_failed w e s = (w', s', e') → objects s' = O0 ∧ (cancels → pending w' s').
Proof.
  intros Hp. unfold upload_failed. destruct e; try by (intros [= <- <- <-]; split; [apply Hp|done]).
  destruct (abort w s) as [[w1 s1] r] eqn:E. destruct (abort_pending _ _ _ _ _ Hp E) as [Ho Hc].
  destruct r; intros [= <- <- <-]; (split; [done|]; intros Hcan; destruct (Hc Hcan) as [Hm Hu]; split; [done|]; by rewrite Hm).
Qed.

(** One part more. *)
Lemma sent_part w s data n b s1 p :
  sent w s data n → upload_part (m_multipart w) (length (m_parts w) + 1) (block max data n) s = (s1, inr p) →
  sent {| w_size := w_size w; m_buffer := b; m_is_multipart := m_is_multipart w; m_multipart := m_multipart w; m_parts := m_parts w ++ [p] |} s1 data (Datatypes.S n).
Proof.
  intros (Ho & Hm & Hnum & ps & Hu & Hn & Hps) E.
  assert (length (m_parts w) = n) as Hl by (rewrite <- (length_fmap part_num), Hnum; apply length_seq).
  destruct (upload_spec _ _ _ path ps _ _ _ ltac:(by rewrite Hu, lookup_insert_eq) E) as (Ho1 & Hi & _ & Hu1).
  split; [by rewrite Ho1|]. split; [done|]. cbn [m_parts m_multipart]. split.
  { rewrite fmap_app, Hnum, seq_S. cbn. rewrite Hi, Hl. repeat f_equal. lia. }
  exists (<[length (m_parts w) + 1 := block max data n]> ps). split; [by rewrite Hu1, Hu, insert_insert_eq|]. split; [done|].
  intros i. rewrite Hl. destruct (decide (i = n)) as [-> |Hne].
  - replace (n + 1) with (Datatypes.S n) by lia. by rewrite lookup_insert_eq, decide_True by lia.
  - rewrite lookup_insert_ne by lia. rewrite Hps. destruct (decide (i < n)); [by rewrite decide_True by lia|by rewrite decide_False by lia].
Qed.

(** What the loop takes for the next part, and leaves. *)
Lemma next_part (w : Writer) incoming :
  length (m_buffer w) ≤ max → max < length (m_buffer w ++ incoming) →
  ∃ b, (if bool_decide (m_buffer w = []) then (w, take max incoming, drop max incoming)
        else (with_buffer (m_buffer w ++ take (max - length (m_buffer w)) incoming) w,
              take max (m_buffer w ++ take (max - length (m_buffer w)) incoming), drop (max - length (m_buffer w)) incoming)) =
       (with_buffer b w, take max (m_buffer w ++ incoming), drop max (m_buffer w ++ incoming)).
Proof.
  intros Hb Hl. case_bool_decide as E.
  - exists (m_buffer w). rewrite E. cbn [app]. rewrite <- E. by destruct w.
  - exists (m_buffer w ++ take (max - length (m_buffer w)) incoming). rewrite length_app in Hl.
    rewrite (take_ge (m_buffer w ++ take _ _)) by (rewrite length_app, length_take; lia).
    rewrite drop_app_ge, take_app_ge by lia. done.
Qed.

Lemma upload_error w s data n i d s1 e :
  sent w s data n → upload_part (m_multipart w) i d s = (s1, inl e) → pending w s1.
Proof.
  intros (Ho & Hm & _ & ps & Hu & Hn & _) E. destruct (upload_spec _ _ _ path ps _ _ _ ltac:(by rewrite Hu, lookup_insert_eq) E) as [Ho1 Hu1].
  split; [by rewrite Ho1|]. rewrite Hm. exists ps. by rewrite Hu1.
Qed.

(** What a failed operation leaves. *)
Definition failed (w : Writer) (s : S) : Prop := objects s = O0 ∧ (cancels → pending w s) ∧ ¬ reliable.

Lemma send_parts_spec fuel incoming w s data n w' s' r :
  sent w s data n → n * max ≤ length data → length (m_buffer w) ≤ max → m_buffer w ++ incoming = drop (n * max) data →
  length (m_buffer w ++ incoming) ≤ fuel →
  send_parts fuel max incoming (length (m_buffer w ++ incoming)) w s = (w', s', r) →
  match r with
  | inr rest => ∃ n', sent w' s' data n' ∧ n' * max ≤ length data ∧ m_buffer w' ++ rest = drop (n' * max) data ∧
      length (m_buffer w' ++ rest) ≤ max ∧ w_size w' = w_size w ∧ (m_buffer w ++ incoming ≠ [] → m_buffer w' ++ rest ≠ [])
  | inl _ => failed w' s'
  end.
Proof.
  revert incoming w s n. induction fuel as [|fuel IH]; intros incoming w s n Hsent Hn Hb Heq Hfuel; cbn [send_parts].
  { case_bool_decide; [lia|]. intros [= <- <- <-]. exists n. repeat (split; [done|]). split; [lia|done]. }
  case_bool_decide as Hmore; [|intros [= <- <- <-]; exists n; repeat (split; [done|]); split; [lia|done]].
  destruct (next_part w incoming Hb Hmore) as [b ->].
  change (m_multipart (with_buffer b w)) with (m_multipart w). change (m_parts (with_buffer b w)) with (m_parts w).
  rewrite Heq. fold (block max data n).
  destruct (upload_part (m_multipart w) (length (m_parts w) + 1) (block max data n) s) as [s1 [e|p]] eqn:E.
  - destruct (upload_failed (with_buffer b w) e s1) as [[w2 s2] e2] eqn:Ef. intros [= <- <- <-].
    destruct (upload_failed_pending _ _ _ _ _ _ (upload_error _ _ _ _ _ _ _ _ Hsent E : pending (with_buffer b w) s1) Ef) as [Ho Hc].
    split; [done|]. split; [done|]. intros (_ & Hr & _). destruct (Hr (m_multipart w) (length (m_parts w) + 1) (block max data n) s) as (? & ? & E2). congruence.
  - rewrite <- length_drop, drop_drop. replace (n * max + max) with (Datatypes.S n * max) by lia.
    assert (length (m_buffer w ++ incoming) = length data - n * max) as Hlen by (by rewrite Heq, length_drop).
    pose proof (sent_part w s data n [] s1 p Hsent E) as Hsent'.
    intros Hloop. apply (IH _ (with_part p w) _ (Datatypes.S n)) in Hloop; [|exact Hsent'|lia|cbn; lia|done|cbn; rewrite length_drop; lia].
    destruct r as [e|rest]; [done|]. destruct Hloop as (n' & ? & ? & ? & ? & ? & Hne). exists n'. repeat (split; [done|]).
    intros _. apply Hne. cbn. intros E0. apply (f_equal length) in E0. rewrite length_drop in E0. cbn in E0. lia.
Qed.

(** The writer after [data]: blocks that were sent and the rest in the buffer, or all in the
    buffer. *)
Definition wrote (w : Writer) (s : S) (data : str) : Prop :=
  w_size w = length data ∧ length (m_buffer w) ≤ max ∧
  if m_is_multipart w then ∃ n, sent w s data n ∧ n * max ≤ length data ∧ m_buffer w = drop (n * max) data ∧ m_buffer w ≠ [] ∧ max < length data
  else objects s = O0 ∧ uploads s = U0 ∧ m_parts w = [] ∧ m_buffer w = data.

Lemma wrote_pending w s data : wrote w s data → pending w s.
Proof.
  intros (_ & _ & H'). destruct (m_is_multipart w) eqn:E.
  - destruct H' as (n & Hs & _). by eapply sent_pending.
  - destruct H' as (Ho & Hu & _). split; [done|]. by rewrite E.
Qed.

Lemma sent_app w s data b n : sent w s data n → n * max ≤ length data → sent w s (data ++ b) n.
Proof.
  intros (Ho & Hm & Hnum & ps & Hu & Hn & Hps) Hl. repeat (split; [done|]). exists ps. repeat (split; [done|]).
  intros i. rewrite Hps. case_decide; [|done]. rewrite block_app; [done|]. nia.
Qed.

Lemma translate_spec {A} (r : S * (error + A)) s (e : error + A) :
  translate r = (s, e) → match e with inr a => r = (s, inr a) | inl _ => ∃ e', r = (s, inl e') end.
Proof. destruct r as [s1 [e1|a]]; cbn; [|by intros [= <- <-]]. destruct e1; intros [= <- <-]; by eexists. Qed.

(** The loop, from a writer that sends parts. *)
Lemma write_loop w s data b n w' s' r :
  sent w s (data ++ b) n → n * max ≤ length data → m_buffer w = drop (n * max) data → length (m_buffer w) ≤ max → w_size w = length data →
  m_buffer w ++ b ≠ [] → max < length (data ++ b) →
  match send_parts (length (m_buffer w) + length b) max b (length (m_buffer w) + length b) w s with
  | (w, s, inl e) => (w, s, inl e)
  | (w, s, inr remaining_input) =>
      ({| w_size := w_size w + length b; m_buffer := m_buffer w ++ remaining_input; m_is_multipart := m_is_multipart w;
          m_multipart := m_multipart w; m_parts := m_parts w |}, s, inr (length b))
  end = (w', s', r) →
  match r with inr k => k = length b ∧ wrote w' s' (data ++ b) | inl _ => failed w' s' end.
Proof.
  intros Hsent Hn Hbuf Hb Hsize Hne Hlong. rewrite <- length_app.
  destruct (send_parts (length (m_buffer w ++ b)) max b (length (m_buffer w ++ b)) w s) as [[w1 s1] r1] eqn:E.
  apply (send_parts_spec _ _ _ _ (data ++ b) n) in E; [|done|rewrite length_app; lia|done|rewrite drop_app_le by lia; by rewrite Hbuf|lia].
  destruct r1 as [e|rest]; intros [= <- <- <-]; [done|]. destruct E as (n' & Hs & Hn' & Hrest & Hlen & Hsz & Hnil).
  split; [done|]. split; [cbn [w_size]; rewrite length_app; lia|]. split; [done|]. cbn [m_is_multipart].
  rewrite (proj1 (proj2 Hs)). exists n'. split; [destruct Hs as (Hs1 & _ & Hs2); by split|]. split; [done|]. split; [done|]. split; [by apply Hnil|done].
Qed.

Lemma writer_write_spec w s data b w' s' r :
  wrote w s data → writer_write path max b w s = (w', s', r) →
  match r with inr k => k = length b ∧ wrote w' s' (data ++ b) | inl _ => failed w' s' end.
Proof.
  intros Hw. pose proof (wrote_pending _ _ _ Hw) as Hpend. destruct Hw as (Hsize & Hb & Hw). unfold writer_write.
  destruct (m_is_multipart w) eqn:Em; cbn [negb andb].
  - destruct Hw as (n & Hsent & Hn & Hbuf & Hne & Hlong).
    apply (write_loop _ _ data _ n); [by apply sent_app|done|done|done|done|by intros [? _]%app_eq_nil|rewrite length_app; lia].
  - destruct Hw as (Ho & Hu & Hparts & Hbuf). case_bool_decide as Hmore.
    + destruct (translate (create_multipart_upload path s)) as [s1 [e|m]] eqn:E.
      * intros [= <- <- <-]. apply translate_spec in E as [e' E]. destruct (create_spec _ _ _ _ E) as [Ho1 Hu1].
        split; [by rewrite Ho1|]. split; [intros _; split; [by rewrite Ho1|]; by rewrite Em, Hu1|].
        intros (Hr & _). destruct (Hr path s) as (? & ? & E2). congruence.
      * apply translate_spec in E. destruct (create_spec _ _ _ _ E) as (Ho1 & Hn1 & Hu1).
        apply (write_loop (with_upload m w) _ data _ 0); [|cbn; lia|done|done|done| |cbn [m_buffer with_upload]; rewrite length_app, <- Hbuf; lia].
        2: { intros [E1 E2]%app_eq_nil. cbn [m_buffer with_upload] in E1. rewrite E1, E2 in Hmore. cbn in Hmore. lia. }
        split; [by rewrite Ho1|]. split; [done|]. cbn [m_parts with_upload m_multipart]. rewrite Hparts. split; [done|].
        exists ∅. rewrite Hu in *. split; [done|]. split; [done|]. intros i. by rewrite lookup_empty, decide_False by lia.
    + assert (∀ fuel, send_parts fuel max b (length (m_buffer w) + length b) w s = (w, s, inr b)) as ->
        by (intros [|?]; cbn [send_parts]; by rewrite bool_decide_eq_false_2).
      intros [= <- <- <-]. split; [done|]. split; [cbn [w_size]; rewrite length_app; lia|].
      split; [cbn [m_buffer]; rewrite length_app; lia|]. cbn [m_is_multipart m_buffer m_parts]. rewrite Em, Hbuf. done.
Qed.

(** Closing the writer. *)
Lemma seq_sorted k n : StronglySorted lt (seq k n).
Proof.
  revert k. induction n as [|n IH]; intros k; cbn [seq]; constructor; [apply IH|].
  apply Forall_forall. intros x Hx. apply elem_of_seq in Hx. lia.
Qed.

Lemma assemble_blocks data n ps : parts_hold max data n ps → assemble ps (seq 1 n) = concat (block max data <$> seq 0 n).
Proof.
  intros Hps. unfold assemble. f_equal. rewrite <- fmap_S_seq, <- list_fmap_compose. apply list_fmap_ext.
  intros i x Hx. apply lookup_seq in Hx as [-> Hlt]. cbn. by rewrite Hps, decide_True by lia.
Qed.

Lemma commit_all w s data n s1 :
  sent w s data n → length data ≤ n * max → (n - 1) * max ≤ length data →
  commit_multipart_upload (m_multipart w) (m_parts w) s = (s1, inr tt) →
  objects s1 = <[path := data]> O0 ∧ uploads s1 = U0.
Proof.
  intros (Ho & Hm & Hnum & ps & Hu & Hn & Hps) Hl Hl' E.
  destruct (commit_spec _ _ path ps _ _ ltac:(by rewrite Hu, lookup_insert_eq) ltac:(rewrite Hnum; apply seq_sorted) E) as [Ho1 Hu1].
  rewrite Ho1, Ho, Hu1, Hu, delete_insert_id, Hnum, (assemble_blocks data n) by done. split; [|done]. f_equal.
  destruct n as [|n]; [destruct data; [done|cbn in Hl; lia]|]. replace (Datatypes.S n - 1) with n in Hl' by lia.
  rewrite seq_S, fmap_app, concat_app, blocks_concat by lia. cbn [fmap list_fmap concat plus]. rewrite app_nil_r. unfold block.
  rewrite (take_ge (drop _ _)) by (rewrite length_drop; lia). apply take_drop.
Qed.

Lemma writer_close_spec w s data w' s' r :
  wrote w s data → writer_close path w s = (w', s', r) →
  match r with
  | inr _ => m_is_multipart w' = false ∧ uploads s' = U0 ∧ objects s' = if decide (data = []) then O0 else <[path := data]> O0
  | inl _ => ¬ reliable
  end.
Proof.
  intros (Hsize & Hb & Hw). unfold writer_close. destruct (m_is_multipart w) eqn:Em.
  - destruct Hw as (n & Hsent & Hn & Hbuf & Hne & _). rewrite bool_decide_eq_false_2 by done.
    assert (m_buffer w = block max data n) as Hblock by (unfold block; rewrite <- Hbuf; symmetry; by apply take_ge).
    assert (data ≠ []) as Hdata by (intros ->; by rewrite drop_nil in Hbuf).
    assert (∀ w e s, (close_failed w e s = (w', s', r)) → ∃ e, r = inl e) as Hf.
    { intros w1 e s1. unfold close_failed. destruct e; [|by intros [= <- <- <-]; eexists|..];
        (destruct (upload_failed _ _ _) as [[? ?] ?]; intros [= <- <- <-]; by eexists). }
    destruct (upload_part (m_multipart w) (length (m_parts w) + 1) (m_buffer w) s) as [s1 [e|p]] eqn:E.
    { intros Hc. destruct (Hf _ _ _ Hc) as [e' ->]. intros (_ & Hr & _). destruct (Hr (m_multipart w) (length (m_parts w) + 1) (m_buffer w) s) as (? & ? & E2). congruence. }
    cbn [m_multipart m_parts].
    destruct (commit_multipart_upload (m_multipart w) (m_parts w ++ [p]) s1) as [s2 [e|[]]] eqn:Ec.
    { intros Hc. destruct (Hf _ _ _ Hc) as [e' ->]. intros (_ & _ & Hr & _). destruct (Hr (m_multipart w) (m_parts w ++ [p]) s1) as (? & E2). congruence. }
    intros [= <- <- <-]. rewrite Hblock in E. pose proof (sent_part _ _ _ _ (m_buffer w) _ _ Hsent E) as Hsent'.
    assert (length data = n * max + length (m_buffer w)) as Hlen by (rewrite Hbuf, length_drop; lia).
    destruct (commit_all _ _ data (Datatypes.S n) s2 Hsent') as [Ho Hu]; [lia|lia|exact Ec|].
    rewrite decide_False by done. done.
  - destruct Hw as (Ho & Hu & Hparts & ->). case_bool_decide as E.
    + intros [= <- <- <-]. by rewrite decide_True.
    + destruct (put_object path data s) as [s1 [e|[]]] eqn:Ep.
      * intros Heq. assert (∃ e', r = inl e') as [e' ->] by (destruct e; injection Heq as <- <- <-; by eexists).
        intros (_ & _ & _ & Hr). destruct (Hr path data s) as (? & E2). congruence.
      * intros [= <- <- <-]. destruct (put_spec _ _ _ _ Ep) as [Ho1 Hu1]. rewrite decide_False by done. by rewrite Ho1, Hu1, Ho, Hu.
Qed.
End writer.

(** ** Files *)

Section files.
Context {S : Type} `{Bucket S}.

Fixpoint write_all (ds : list str) (o : Object) (s : S) : Object * S * (error + unit) :=
  match ds with
  | [] => (o, s, inr tt)
  | d :: ds =>
      match write d o s with
      | (o, s, inl e) => (o, s, inl e)
      | (o, s, inr _) => write_all ds o s
      end
  end.

(** A new file: open it, write to it and close it. *)
Definition save (ds : list str) (o : Object) (s : S) : Object * S * (error + unit) :=
  match open WRITE o s with
  | (o, s, inl e) => (o, s, inl e)
  | (o, s, inr _) =>
      match write_all ds o s with
      | (o, s, inl e) => (o, s, inl e)
      | (o, s, inr _) => close o s
      end
  end.

Context (max : nat) (Hmax : 0 < max) (name prefix : str).
Abbreviation path := (prefix ++ name).
Abbreviation writes w := (with_handlers (Some WRITE) (Some w) None (make_Object max name prefix)).

Lemma object_write_all_spec O0 U0 ds w s data o' s' r :
  wrote path max O0 U0 w s data → write_all ds (writes w) s = (o', s', r) →
  ∃ w', o' = writes w' ∧ match r with inr _ => wrote path max O0 U0 w' s' (data ++ concat ds) | inl _ => failed path O0 U0 w' s' end.
Proof.
  revert w s data. induction ds as [|d ds IH]; intros w s data Hw; cbn [write_all concat].
  { intros [= <- <- <-]. exists w. by rewrite app_nil_r. }
  unfold write. cbn [m_writer with_handlers]. change (full_path (writes w)) with path. change (m_max_part_size (writes w)) with max.
  destruct (writer_write path max d w s) as [[w1 s1] r1] eqn:E. apply (writer_write_spec path max Hmax O0 U0 _ _ data) in E; [|done].
  destruct r1 as [e|k].
  - intros [= <- <- <-]. by exists w1.
  - destruct E as [_ Hw1]. intros Hall. destruct (IH w1 s1 (data ++ d) Hw1 Hall) as (w' & -> & Hr). exists w'. split; [done|].
    by rewrite <- (assoc_L (++)) in Hr.
Qed.

Lemma wrote_start (s : S) : wrote path max (objects s) (uploads s) new_Writer s [].
Proof. split; [done|]. split; [cbn; lia|done]. Qed.

(** A file that is written in any pieces and closed is the object with the text of all
    the pieces, whatever part size is set; no other object changes and no unfinished upload is
    left.  A file to which nothing was written does not become an object. *)
Theorem saved_object (ds : list str) (s : S) :
  reliable (S := S) →
  ∃ o' s', save ds (make_Object max name prefix) s = (o', s', inr tt) ∧ is_open o' = false ∧ uploads s' = uploads s ∧
    objects s' = if decide (concat ds = []) then objects s else <[path := concat ds]> (objects s).
Proof.
  intros Hr. unfold save. cbn [open make_Writer m_writer make_Object drop_writer m_reader].
  destruct (write_all ds (writes new_Writer) s) as [[o1 s1] r1] eqn:E.
  destruct (object_write_all_spec _ _ _ _ _ _ _ _ _ (wrote_start s) E) as (w1 & -> & Hw).
  destruct r1 as [e|[]]; [by destruct Hw as (_ & _ & ?)|]. unfold close. cbn [m_writer with_handlers].
  change (full_path (writes w1)) with path.
  destruct (writer_close path w1 s1) as [[w2 s2] r2] eqn:Ec. pose proof (writer_close_spec _ _ Hmax _ _ _ _ _ _ _ _ Hw Ec) as Hc.
  destruct r2 as [e|[]]; [done|]. destruct Hc as (Hm & Hu & Ho). eexists _, _. split; [done|]. split; [done|].
  unfold drop_writer, abort. rewrite Hm. done.
Qed.

(** C36: Whatever write to a file of object storage fails, no object changes, and when the
    file is destroyed and the service cancels uploads no unfinished upload is left; a
    request to create an upload that is reported as failed is taken to have started none.
    *)
Theorem failed_write_leaves_nothing (ds : list str) (s : S) (o' : Object) (s' : S) (e : error) :
  cancels (S := S) → write_all ds (writes new_Writer) s = (o', s', inl e) →
  let s'' := drop_writer (m_writer o') s' in
  objects s' = objects s ∧ objects s'' = objects s ∧ uploads s'' = uploads s.
Proof.
  intros Hc E. destruct (object_write_all_spec _ _ _ _ _ _ _ _ _ (wrote_start s) E) as (w1 & -> & Ho & Hp & _). specialize (Hp Hc).
  cbn [m_writer with_handlers drop_writer]. destruct (abort w1 s') as [[w2 s2] r2] eqn:Ea. cbn [fst snd].
  destruct (abort_pending path _ _ _ _ _ _ _ Hp Ea) as [Ho2 Hu]. split; [done|]. split; [done|]. by apply Hu.
Qed.

(** C26: What was sent and what is kept, after any writes that succeed: up to the part size,
    everything is in the buffer and no upload was started; above it, there is an upload whose
    parts, numbered from 1, are the blocks of the part size, and the buffer holds the rest,
    which is not empty and not longer than a part. *)
Theorem parts_are_blocks (ds : list str) (s s' : S) (o' : Object) :
  write_all ds (writes new_Writer) s = (o', s', inr tt) →
  let data := concat ds in
  ∃ w, o' = writes w ∧ w_size w = length data ∧ objects s' = objects s ∧
  if decide (length data ≤ max) then uploads s' = uploads s ∧ m_buffer w = data
  else let n := (length data - 1) / max in
       (∃ ps, uploads s' !! upload_id (m_multipart w) = Some (path, ps) ∧
         ∀ i, ps !! Datatypes.S i = if decide (i < n) then Some (block max data i) else None) ∧
       (∀ i, i < n → length (block max data i) = max) ∧
       m_buffer w = drop (n * max) data ∧ 0 < length (m_buffer w) ≤ max.
Proof.
  intros E. destruct (object_write_all_spec _ _ _ _ _ _ _ _ _ (wrote_start s) E) as (w & -> & Hw). cbn [app] in Hw. exists w. split; [done|].
  set (data := concat ds) in *. destruct Hw as (Hsize & Hb & Hw). split; [done|]. destruct (m_is_multipart w) eqn:Em.
  - destruct Hw as (n & (Ho & _ & Hnum & ps & Hu & Hn & Hps) & Hl & Hbuf & Hne & Hlong). split; [done|].
    assert (length (m_buffer w) = length data - n * max) as Hlb by (rewrite Hbuf; apply length_drop).
    assert (0 < length (m_buffer w)) as Hpos by (destruct (m_buffer w); [done|cbn; lia]).
    assert ((length data - 1) / max = n) as En by (symmetry; apply (Nat.div_unique _ _ _ (length data - 1 - n * max)); nia).
    rewrite decide_False by lia. rewrite En. split; [exists ps; by rewrite Hu, lookup_insert_eq|]. split; [|done].
    intros i Hi. unfold block. rewrite length_take, length_drop. nia.
  - destruct Hw as (Ho & Hu & Hparts & Hbuf). split; [done|]. rewrite Hbuf in Hb. by rewrite decide_True by done.
Qed.

(** *** Reading *)

(** Services that answer every request of a reader. *)
Definition readable : Prop :=
  (∀ n d s, objects s !! n = Some d → ∃ s' k, head_object n s = (s', inr k)) ∧
  (∀ n d f l (s : S), objects s !! n = Some d → ∃ s' got, get_object n f l s = (s', inr got)).

(** Reads of [n] bytes until nothing is read. *)
Fixpoint read_all (fuel n : nat) (o : Object) (s : S) : S * (error + str) :=
  match fuel with
  | O => (s, inl Out_of_fuel)
  | Datatypes.S fuel =>
      match read n o s with
      | (o, s, inl e) => (s, inl e)
      | (o, s, inr []) => (s, inr [])
      | (o, s, inr data) =>
          match read_all fuel n o s with
          | (s, inr rest) => (s, inr (data ++ rest))
          | r => r
          end
      end
  end.

Abbreviation reads r := (with_handlers (Some READ) None (Some r) (make_Object max name prefix)).

Lemma object_read_spec n d off (s : S) :
  readable → objects s !! path = Some d → off ≤ length d → 0 < n → (Z.of_nat (n + length d) <= 2 ^ 64)%Z →
  ∃ s', read n (reads {| r_size := length d; m_offset := Z.of_nat off |}) s =
        (reads {| r_size := length d; m_offset := Z.of_nat (off + length (take n (drop off d))) |}, s', inr (take n (drop off d))) ∧
        objects s' = objects s.
Proof.
  intros [_ Hget] Hd Hoff Hn Hsize. unfold read. cbn [m_reader with_handlers]. destruct n as [|n]; [lia|].
  change (full_path _) with path. unfold reader_read. cbn [r_size m_offset]. case_bool_decide as E.
  - exists s. assert (drop off d = []) as -> by (apply drop_ge; lia). rewrite take_nil. cbn [length]. by rewrite Nat.add_0_r.
  - rewrite !u64_small by lia. set (last := Z.min _ _).
    assert (Z.of_nat off <= last < Z.of_nat (length d))%Z as Hlast by (unfold last; lia).
    destruct (Hget path d (Z.of_nat off) last s Hd) as (s' & got & Eg).
    destruct (get_spec path (Z.of_nat off) last d s s' (inr got) Hd ltac:(lia) ltac:(lia) Eg) as (Ho & _ & ->). rewrite Eg. cbn [translate].
    assert (substr d (Z.to_nat (Z.of_nat off)) (Z.to_nat (last - Z.of_nat off + 1)) = take (Datatypes.S n) (drop off d)) as ->.
    { unfold substr. rewrite Nat2Z.id. destruct (Z.min_spec (Z.of_nat (length d) - 1) (Z.of_nat off + Z.of_nat (Datatypes.S n) - 1)) as [[? El]|[? El]];
        fold last in El; rewrite El.
      - rewrite !take_ge by (rewrite length_drop; lia). done.
      - f_equal. lia. }
    exists s'. split; [|done]. by rewrite Nat2Z.inj_add.
Qed.

Lemma take_drop_length {A} n (l : list A) : take n l ++ drop (length (take n l)) l = l.
Proof.
  destruct (decide (n ≤ length l)).
  - rewrite length_take_le by done. apply take_drop.
  - rewrite take_ge, drop_all by lia. apply app_nil_r.
Qed.

Lemma object_read_all_spec fuel n d off (s : S) :
  readable → objects s !! path = Some d → off ≤ length d → 0 < n → (Z.of_nat (n + length d) <= 2 ^ 64)%Z → length d - off < fuel →
  ∃ s', read_all fuel n (reads {| r_size := length d; m_offset := Z.of_nat off |}) s = (s', inr (drop off d)) ∧ objects s' = objects s.
Proof.
  intros Hr. revert off s. induction fuel as [|fuel IH]; intros off s Hd Hoff Hn Hsize Hfuel; [lia|]. cbn [read_all].
  destruct (object_read_spec n d off s Hr Hd Hoff Hn Hsize) as (s1 & -> & Ho). destruct (take n (drop off d)) as [|c l] eqn:Et.
  - exists s1. split; [|done]. destruct (drop off d) as [|x rest]; [done|]. by destruct n; [lia|].
  - assert (length (c :: l) = n `min` (length d - off)) as Hl by (by rewrite <- Et, length_take, length_drop).
    destruct (IH (off + length (c :: l)) s1) as (s2 & -> & Ho2); [by rewrite Ho|cbn in Hl |- *; lia|done|done|cbn in Hl |- *; lia|].
    exists s2. rewrite Ho2. split; [|done]. rewrite <- Et, <- drop_drop, take_drop_length. done.
Qed.

(** C25: For a service that answers every request, a file of object storage that is
    written in any pieces, not all of them empty and with fewer than 2^64 bytes together
    with those read at a time, with any part size greater than 0, closed, and read any
    positive number of bytes at a time gives the text that was written. A file with no
    text at all is never created. *)
Theorem object_roundtrip (ds : list str) (n : nat) (s : S) :
  reliable (S := S) → readable → concat ds ≠ [] → 0 < n → (Z.of_nat (n + length (concat ds)) <= 2 ^ 64)%Z →
  ∃ o1 s1 o2 s2 s3,
    save ds (make_Object max name prefix) s = (o1, s1, inr tt) ∧
    open READ o1 s1 = (o2, s2, inr tt) ∧
    read_all (Datatypes.S (length (concat ds))) n o2 s2 = (s3, inr (concat ds)).
Proof.
  intros Hrel Hread Hne Hn Hsize. unfold save. cbn [open make_Writer m_writer make_Object drop_writer m_reader].
  destruct (write_all ds (writes new_Writer) s) as [[o1 s1] r1] eqn:E.
  destruct (object_write_all_spec _ _ _ _ _ _ _ _ _ (wrote_start s) E) as (w1 & -> & Hw).
  destruct r1 as [e|[]]; [by destruct Hw as (_ & _ & ?)|]. unfold close. cbn [m_writer with_handlers].
  change (full_path (writes w1)) with path.
  destruct (writer_close path w1 s1) as [[w2 s2] r2] eqn:Ec. pose proof (writer_close_spec _ _ Hmax _ _ _ _ _ _ _ _ Hw Ec) as Hc.
  destruct r2 as [e|[]]; [done|]. destruct Hc as (Hm & _ & Ho). cbn [app] in Ho. rewrite decide_False in Ho by done.
  unfold drop_writer, abort. rewrite Hm. cbn [fst snd]. exists (make_Object max name prefix), s2.
  assert (objects s2 !! path = Some (concat ds)) as Hobj by (rewrite Ho; apply lookup_insert_eq).
  unfold open, make_Reader. change (full_path _) with path.
  destruct (proj1 Hread path _ s2 Hobj) as (s3 & k & Eh). destruct (head_spec _ _ _ _ Eh) as (Ho3 & _ & d & Hd & ->).
  assert (d = concat ds) as -> by congruence. rewrite Eh.
  destruct (object_read_all_spec (Datatypes.S (length (concat ds))) n (concat ds) 0 s3 Hread) as (s4 & E4 & _); [by rewrite Ho3|lia|done|done|lia|].
  eexists _, s3, s4. split; [done|]. split; [done|]. exact E4.
Qed.
End files.

(** ** A service in memory

    It refuses the parts above a number, if there is one. *)

Record Memory := { mem_objects : gmap str str; mem_uploads : gmap str (str * gmap nat str) }.

Section memory.
Context (limit : option nat).

Definition refused (i : nat) : bool := match limit with Some k => bool_decide (k < i) | None => false end.

Definition with_objects (f : gmap str str → gmap str str) (s : Memory) : Memory :=
  {| mem_objects := f (mem_objects s); mem_uploads := mem_uploads s |}.
Definition with_uploads (f : gmap str (str * gmap nat str) → gmap str (str * gmap nat str)) (s : Memory) : Memory :=
  {| mem_objects := mem_objects s; mem_uploads := f (mem_uploads s) |}.

Definition not_found {A} (s : Memory) : Memory * (error + A) := (s, inl (Response_error NOT_FOUND)).

#[local] Instance ascii_inhabited : Inhabited ascii := populate "a"%char.

#[local] Instance memory_container : Container Memory := {
  head_object n s := match mem_objects s !! n with Some d => (s, inr (length d)) | None => not_found s end;
  delete_object n s := (with_objects (delete n) s, inr tt);
  rename_object n n' s := match mem_objects s !! n with Some d => (with_objects (λ o, <[n' := d]> (delete n o)) s, inr tt) | None => not_found s end;
  put_object n d s := (with_objects (insert n d) s, inr tt);
  get_object n first last s :=
    match mem_objects s !! n with
    | Some d => (s, inr (substr d (Z.to_nat first) (Z.to_nat (last - first + 1))))
    | None => not_found s
    end;
  list_page prefix _ _ _ s :=
    (s, inr ((λ nd, {| od_name := nd.1; od_size := length nd.2 |}) <$> filter (λ nd, str_beginswith_pair nd.1 prefix = true) (map_to_list (mem_objects s)), []));
  all_multipart_uploads s := (s, inr ((λ u, {| mo_name := u.2.1; upload_id := u.1 |}) <$> map_to_list (mem_uploads s)));
  list_multipart_uploaded_parts m s :=
    match mem_uploads s !! upload_id m with
    | Some (_, ps) => (s, inr ((λ p, {| part_num := p.1; etag := []; part_size := length p.2 |}) <$> map_to_list ps))
    | None => not_found s
    end;
  create_multipart_upload n s :=
    let id := fresh (dom (mem_uploads s)) in
    (with_uploads (insert id (n, ∅)) s, inr {| mo_name := n; upload_id := id |});
  upload_part m i d s :=
    if refused i then (s, inl (Response_error 503))
    else (with_uploads (λ u, match u !! upload_id m with Some (n, ps) => <[upload_id m := (n, <[i := d]> ps)]> u | None => u end) s,
          inr {| part_num := i; etag := []; part_size := length d |});
  commit_multipart_upload m parts s :=
    match mem_uploads s !! upload_id m with
    | Some (n, ps) => (with_uploads (delete (upload_id m)) (with_objects (insert n (assemble ps (part_num <$> parts))) s), inr tt)
    | None => (s, inr tt)
    end;
  abort_multipart_upload m s := (with_uploads (delete (upload_id m)) s, inr tt);
}.

#[local] Instance memory_bucket : Bucket Memory.
Proof.
  refine {| objects := mem_objects; uploads := mem_uploads |}.
  - intros n s s' r. cbn. destruct (mem_objects s !! n) as [d|]; intros [= <- <-]; [|done]. repeat (split; [done|]). by exists d.
  - intros n first last d s s' r Hd _ _. cbn. rewrite Hd. by intros [= <- <-].
  - intros n d s s'. cbn. by intros [= <-].
  - intros n s s' r. cbn. intros [= <- <-]. split; [done|]. split; [|done]. apply not_elem_of_dom, is_fresh.
  - intros m i d n ps s s' r Hu. cbn. destruct (refused i); intros [= <- <-]; [done|]. cbn. by rewrite Hu.
  - intros m parts n ps s s' Hu _. cbn. rewrite Hu. by intros [= <-].
  - intros m s s' r. cbn. by intros [= <- <-].
Defined.

Lemma memory_cancels : cancels (S := Memory).
Proof. intros m s. by eexists. Qed.

Lemma memory_readable : readable (S := Memory).
Proof. split; intros *; cbn; intros ->; by eexists _, _. Qed.

Lemma memory_reliable : limit = None → reliable (S := Memory).
Proof.
  intros E. split_and!; intros *; cbn; [by eexists _, _| | |by eexists].
  - unfold refused. rewrite E. by eexists _, _.
  - destruct (mem_uploads s !! upload_id m) as [[n ps]|]; by eexists.
Qed.
End memory.

Definition empty_memory : Memory := {| mem_objects := ∅; mem_uploads := ∅ |}.

(** Three pieces, with parts of four bytes. *)
Definition sample_pieces : list str := [$"abc"; $"defghijkl"; $"m"].

Lemma saved_object_witness :
  ∃ o' s', save (H := memory_container None) sample_pieces (make_Object 4 ($"f") ($"dir/")) empty_memory = (o', s', inr tt) ∧ is_open o' = false ∧
    mem_uploads s' = ∅ ∧ mem_objects s' = {[$"dir/f" := $"abcdefghijklm"]}.
Proof.
  destruct (saved_object (H0 := memory_bucket None) 4 ltac:(apply Nat.lt_0_succ) ($"f") ($"dir/") sample_pieces empty_memory (memory_reliable None eq_refl)) as (o' & s' & H1 & H2 & H3 & H4).
  exists o', s'. split; [exact H1|]. split; [exact H2|]. split; [exact H3|]. rewrite decide_False in H4 by discriminate. exact H4.
Defined.

Lemma object_roundtrip_witness :
  ∃ o1 s1 o2 s2 s3,
    save (H := memory_container None) sample_pieces (make_Object 4 ($"f") ($"dir/")) empty_memory = (o1, s1, inr tt) ∧
    open (H := memory_container None) READ o1 s1 = (o2, s2, inr tt) ∧
    read_all (H := memory_container None) 14 5 o2 s2 = (s3, inr ($"abcdefghijklm")).
Proof.
  apply (object_roundtrip (H0 := memory_bucket None) 4 ltac:(apply Nat.lt_0_succ) ($"f") ($"dir/") sample_pieces 5 empty_memory
           (memory_reliable None eq_refl) (memory_readable None)); [discriminate|apply Nat.lt_0_succ|apply Z.leb_le; reflexivity].
Defined.

(** The second part is refused. *)
Lemma failed_write_leaves_nothing_witness :
  match write_all (H := memory_container (Some 1)) sample_pieces (with_handlers (Some WRITE) (Some new_Writer) None (make_Object 4 ($"f") ($"dir/"))) empty_memory with
  | (o', s', inl e) =>
      e = Shcore_exception 54503 ∧ mem_objects s' = ∅ ∧ mem_objects (drop_writer (H := memory_container (Some 1)) (m_writer o') s') = ∅ ∧
      mem_uploads (drop_writer (H := memory_container (Some 1)) (m_writer o') s') = ∅
  | _ => False
  end.
Proof.
  destruct (write_all _ _ _) as [[o' s'] [e|[]]] eqn:E; [|vm_compute in E; discriminate E].
  split; [vm_compute in E; injection E as _ _ <-; reflexivity|].
  exact (failed_write_leaves_nothing (H0 := memory_bucket (Some 1)) 4 ltac:(apply Nat.lt_0_succ) ($"f") ($"dir/") sample_pieces empty_memory o' s' e
    (memory_cancels (Some 1)) E).
Defined.

Lemma parts_are_blocks_witness :
  match write_all (H := memory_container None) sample_pieces (with_handlers (Some WRITE) (Some new_Writer) None (make_Object 4 ($"f") ($"dir/"))) empty_memory with
  | (o', s', inr tt) =>
      ∃ w, m_writer o' = Some w ∧ m_buffer w = $"m" ∧
        ∃ ps, mem_uploads s' !! upload_id (m_multipart w) = Some ($"dir/f", ps) ∧ ps !! 2 = Some ($"efgh")
  | _ => False
  end.
Proof.
  destruct (write_all _ _ _) as [[o' s'] [e|[]]] eqn:E; [vm_compute in E; discriminate E|].
  destruct (parts_are_blocks (H0 := memory_bucket None) 4 ltac:(apply Nat.lt_0_succ) ($"f") ($"dir/") sample_pieces empty_memory s' o' E)
    as (w & -> & _ & _ & (ps & H1 & H2) & _ & H3 & _).
  exists w. split; [reflexivity|]. split; [exact H3|]. exists ps. split; [exact H1|]. exact (H2 1).
Defined.

(** ** Listing *)

Section listing.
Context {S : Type} `{Container S}.

(** The pages the service gives, from a start. *)
Inductive paged (prefix : str) (recursive : bool) : str → list (list Object_details) → S → S → Prop :=
| paged_last start page s s' : list_page prefix 0 recursive start s = (s', inr (page, [])) → paged prefix recursive start [page] s s'
| paged_more start page next pages s s1 s' :
    list_page prefix 0 recursive start s = (s1, inr (page, next)) → next ≠ [] → paged prefix recursive next pages s1 s' →
    paged prefix recursive start (page :: pages) s s'.

Lemma list_loop_pages fuel prefix recursive start pages result s s' :
  paged prefix recursive start pages s s' → result ≠ [] → length pages ≤ fuel →
  list_objects_loop fuel prefix 0 recursive 0 start result s = (s', inr (result ++ concat pages)).
Proof.
  intros Hp. revert fuel result. induction Hp as [start page s s' E|start page next pages s s1 s' E Hnext _ IH]; intros fuel result Hr Hf;
    destruct fuel as [|fuel]; cbn [length] in Hf; try lia; cbn [list_objects_loop];
    rewrite (bool_decide_eq_true_2 (0 < MAX_LIST_OBJECTS_LIMIT)%Z) by done; change (Z.to_nat 0) with 0; rewrite E;
    rewrite (bool_decide_eq_true_2 (0 = 0)%Z) by done.
  - rewrite bool_decide_eq_true_2 by done. cbn [orb concat]. by rewrite app_nil_r.
  - rewrite (bool_decide_eq_false_2 (next = [])), (bool_decide_eq_false_2 (length _ = 0)) by (done || (destruct result; [done|cbn; lia])).
    cbn [orb]. rewrite IH by (lia || by intros [? _]%app_eq_nil). cbn [concat]. by rewrite (assoc_L (++)).
Qed.

Lemma list_objects_pages fuel prefix recursive pages s s' :
  paged prefix recursive [] pages s s' → head pages ≠ Some [] ∨ length pages = 1 → length pages ≤ fuel →
  list_objects fuel prefix 0 recursive s = (s', inr (concat pages)).
Proof.
  intros Hp Hfirst Hf. unfold list_objects. destruct fuel as [|fuel]; [by inversion Hp; subst; cbn in Hf; lia|]. cbn [list_objects_loop].
  rewrite (bool_decide_eq_true_2 (Z.of_nat 0 < MAX_LIST_OBJECTS_LIMIT)%Z) by done. change (Z.to_nat (Z.of_nat 0)) with 0.
  rewrite (bool_decide_eq_true_2 (Z.of_nat 0 = 0)%Z) by done. inversion Hp as [? page ? ? E|? page next pages' ? s1 ? E Hnext Hrest]; subst; rewrite E.
  - rewrite bool_decide_eq_true_2 by done. cbn [orb concat app]. by rewrite app_nil_r.
  - assert (page ≠ []) as Hpage.
    { destruct Hfirst as [Hh|Hl]; [by intros ->|]. cbn in Hl. destruct pages'; [|done]. by inversion Hrest. }
    rewrite (bool_decide_eq_false_2 (next = [])), (bool_decide_eq_false_2 (length _ = 0)) by (done || (destruct page; [done|cbn; lia])).
    cbn [orb app concat]. cbn in Hf. by apply list_loop_pages; [|done|lia].
Qed.

Lemma emplace_all {B} (f : B → str * nat) l files :
  NoDup (files.*1 ++ (f <$> l).*1) → foldl (λ files x, emplace files (f x)) files l = files ++ (f <$> l).
Proof.
  revert files. induction l as [|x l IH]; intros files Hnd; cbn [foldl fmap list_fmap]; [by rewrite app_nil_r|].
  cbn [fmap list_fmap] in Hnd. unfold emplace at 2. rewrite bool_decide_eq_false_2.
  - rewrite IH; [by rewrite <- (assoc_L (++))|]. rewrite fmap_app, <- (assoc_L (++)). done.
  - apply NoDup_app in Hnd as (_ & Hd & _). intros Hin. apply (Hd _ Hin). left.
Qed.

(** A directory lists every object under its prefix, with the name that is left of it and
    its size, however many pages the service needs; and when the pages say so no object is
    listed twice. *)
Theorem directory_lists_objects (fuel : nat) (d : Directory) (pages : list (list Object_details)) (s s' : S) :
  paged (d_prefix d) false [] pages s s' → head pages ≠ Some [] ∨ length pages = 1 → length pages ≤ fuel →
  NoDup (od_name <$> concat pages) → Forall (λ o, d_prefix d `prefix_of` od_name o) (concat pages) →
  list_files fuel false d s = (s', inr ((λ o, (drop (length (d_prefix d)) (od_name o), od_size o)) <$> concat pages)) ∧
  NoDup ((λ o, drop (length (d_prefix d)) (od_name o)) <$> concat pages).
Proof.
  intros Hp Hfirst Hf Hnd Hpre.
  assert (NoDup ((λ o, drop (length (d_prefix d)) (od_name o)) <$> concat pages)) as Hnd'.
  { apply NoDup_fmap_2_strong; [|by apply (NoDup_fmap_1 od_name)]. intros o1 o2 H1 H2 E. rewrite Forall_forall in Hpre.
    destruct (Hpre o1 H1) as [k1 E1], (Hpre o2 H2) as [k2 E2]. rewrite E1, E2, !drop_app_length in E. subst k2.
    assert (od_name o1 = od_name o2) as En by congruence.
    apply list_elem_of_lookup in H1 as [i1 L1], H2 as [i2 L2].
    assert (i1 = i2) as -> by (eapply NoDup_lookup; [exact Hnd|rewrite list_lookup_fmap, L1; done|rewrite list_lookup_fmap, L2; cbn; by rewrite En]). congruence. }
  split; [|done]. unfold list_files. rewrite (list_objects_pages _ _ _ _ _ _ Hp Hfirst Hf). cbn [translate].
  rewrite (emplace_all (λ o, (drop (length (d_prefix d)) (od_name o), od_size o))); [done|]. cbn [app fmap list_fmap].
  rewrite <- list_fmap_compose. exact Hnd'.
Qed.
End listing.

(** A service with these objects, which gives at most [page_max] of them at a time; starts are
    positions in unary. *)
Definition no_answer {A} (s : unit) : unit * (error + A) := (s, inl Connection_error).

Definition paging (page_max : nat) (objs : list Object_details) : Container unit := {|
  head_object _ s := no_answer s; delete_object _ s := no_answer s; rename_object _ _ s := no_answer s; put_object _ _ s := no_answer s;
  get_object _ _ _ s := no_answer s; all_multipart_uploads s := no_answer s; list_multipart_uploaded_parts _ s := no_answer s;
  create_multipart_upload _ s := no_answer s; upload_part _ _ _ s := no_answer s; commit_multipart_upload _ _ s := no_answer s;
  abort_multipart_upload _ s := no_answer s;
  list_page _ limit _ start s :=
    let k := length start in
    let n := if bool_decide (limit = 0) then page_max else limit `min` page_max in
    (s, inr (take n (drop k objs), if bool_decide (k + n < length objs) then replicate (k + n) "a"%char else [])) |}.

Definition sample_objects : list Object_details :=
  [{| od_name := $"d/x"; od_size := 1 |}; {| od_name := $"d/y"; od_size := 2 |}; {| od_name := $"d/z"; od_size := 3 |}].

Lemma directory_lists_objects_witness :
  list_files (H := paging 2 sample_objects) 2 false (make_Directory ($"d")) tt = (tt, inr [($"x", 1); ($"y", 2); ($"z", 3)]).
Proof.
  refine (proj1 (directory_lists_objects (H := paging 2 sample_objects) 2 (make_Directory ($"d")) [take 2 sample_objects; drop 2 sample_objects] tt tt _ _ _ _ _)).
  - eapply paged_more; [reflexivity|discriminate|]. apply paged_last. reflexivity.
  - left. discriminate.
  - apply le_n.
  - apply (bool_decide_unpack _). vm_compute. exact I.
  - apply (bool_decide_unpack _). vm_compute. exact I.
Defined.

(** The number of objects that remain is reduced by all objects so far for each page, and the
    limit is only met exactly: more objects than the limit are returned. *)
Lemma list_limit_exceeded :
  let objs := replicate 2500 {| od_name := $"x"; od_size := 0 |} in
  match list_objects (H := paging 1000 objs) 10 [] 1500 true tt with
  | (_, inr result) => bool_decide (length result = 2500) = true
  | _ => False
  end.
Proof. vm_compute. reflexivity. Qed.

(** Without a limit, a first page without objects ends the list, even if there is a next
    page. *)
Lemma empty_page_ends_list {S} `{Container S} (fuel : nat) prefix recursive next (s s' : S) :
  list_page prefix 0 recursive [] s = (s', inr ([], next)) → list_objects (Datatypes.S fuel) prefix 0 recursive s = (s', inr []).
Proof.
  intros E. unfold list_objects. cbn [list_objects_loop]. 
  rewrite (bool_decide_eq_true_2 (Z.of_nat 0 < MAX_LIST_OBJECTS_LIMIT)%Z) by done. change (Z.to_nat (Z.of_nat 0)) with 0. rewrite E.
  rewrite (bool_decide_eq_true_2 (length _ = 0)) by done. by rewrite orb_true_r.
Qed.
