(* ===== verification/SqlTokensFacts.v ===== *)
(** * Tokens of statements

    What [SQL_iterator::next_token] returns in a text of words, separators and quoted
    identifiers. *)
From S2P Require Import Prelude UtilsString UtilsStringFacts Lexing LexingFacts SqlString SqlStringFacts.

Open Scope nat_scope.

#[local] Arguments increment_loop !fuel it.

(** An iterator over [s] which does not skip quoted parts. *)
Definition at_pos (s : str) (o : nat) : SQL_iterator :=
  {| m_s := s; m_offset := Some o; m_skip_quoted := false; m_dollar_quotes := true; m_comment_hint := false |}.

(** Characters at which [operator++] stops whatever follows. *)
Definition stops (c : ascii) : Prop := c ∉ ["/"%char; "#"%char; "-"%char; dollar].

Definition rest_stops (rest : str) : Prop := ∀ c, head rest = Some c → stops c.

Lemma text_at s o : m_s (at_pos s o) = s.
Proof. done. Qed.

Lemma offset_at s o : m_offset (at_pos s o) = Some o.
Proof. done. Qed.

Lemma lookup_rest (pre : str) c rest : (pre ++ c :: rest) !! length pre = Some c.
Proof. rewrite lookup_app_r by lia. by rewrite Nat.sub_diag. Qed.

Lemma step_stops s o c : stops c → increment_step (at_pos s o) o c = Ok (at_pos s o, true).
Proof.
  unfold stops. rewrite !not_elem_of_cons. intros (H1 & H2 & H3 & H4 & _). unfold increment_step. cbn [m_skip_quoted m_comment_hint m_s at_pos].
  rewrite (bool_decide_eq_false_2 (c = "/"%char)), (bool_decide_eq_false_2 (c = "#"%char)), (bool_decide_eq_false_2 (c = "-"%char)),
    (bool_decide_eq_false_2 (c = dollar)) by done. cbn [andb]. by repeat case_bool_decide.
Qed.

Lemma loop_stops fuel s o : (∀ c, s !! o = Some c → stops c) → increment_loop (S fuel) (at_pos s o) = Ok (at_pos s o).
Proof.
  intros H. unfold at_pos. cbn [increment_loop m_offset m_s].
  destruct (s !! o) as [c|] eqn:E; [|done].
  fold (at_pos s o). rewrite step_stops by (by apply H). done.
Qed.

(** Over one character. *)
Lemma increment_over pre c rest : rest_stops rest → increment (at_pos (pre ++ c :: rest) (length pre)) = Ok (at_pos (pre ++ c :: rest) (S (length pre))).
Proof.
  intros H. unfold increment. cbn [m_offset at_pos m_s]. rewrite bool_decide_eq_false_2 by (rewrite length_app; cbn; lia).
  replace (length pre + 1) with (S (length pre)) by lia. unfold set_offset. cbn [m_s m_skip_quoted m_dollar_quotes m_comment_hint].
  apply (loop_stops _ (pre ++ c :: rest)). intros d Hd. apply H. rewrite lookup_app_r in Hd by lia.
  replace (S (length pre) - length pre) with 1 in Hd by lia. cbn in Hd. by destruct rest.
Qed.

Lemma start_stops s : rest_stops s → make_SQL_iterator s 0 false true = Ok (at_pos s 0).
Proof.
  intros H. unfold make_SQL_iterator, increment. cbn [m_offset m_s]. rewrite bool_decide_eq_false_2 by lia.
  unfold set_offset. cbn [m_s m_skip_quoted m_dollar_quotes m_comment_hint]. apply (loop_stops _ s 0). intros c Hc. apply H. by destruct s.
Qed.

Lemma valid_rest pre c rest : valid (at_pos (pre ++ c :: rest) (length pre)) = true.
Proof. unfold valid. cbn. apply bool_decide_eq_true_2. rewrite length_app. cbn. lia. Qed.

Lemma char_rest pre c rest : char_at (pre ++ c :: rest) (length pre) = c.
Proof. unfold char_at. by rewrite lookup_rest. Qed.

Lemma get_char_rest pre c rest : get_char (at_pos (pre ++ c :: rest) (length pre)) = c.
Proof. unfold get_char. cbn. apply char_rest. Qed.

(** *** Words *)

(** Characters of words: neither blanks, separators nor quotes, and no start of a comment. *)
Definition word_char (c : ascii) : bool :=
  negb (is_token_break c) && negb (bool_decide (c ∈ [squote; dquote; backtick; ":"%char; "/"%char; "#"%char; "-"%char; dollar])) && negb (isspace c).

Definition word (w : str) : Prop := w ≠ [] ∧ Forall (λ c, word_char c = true) w.

(** What can follow a word: the end, a blank or a separator. *)
Definition delimited (rest : str) : Prop := ∀ c, head rest = Some c → is_token_break c || isspace c = true.

Lemma token_char_facts c :
  word_char c = true →
  is_token_break c = false ∧ bool_decide (c = squote) = false ∧ bool_decide (c = dquote) = false ∧ bool_decide (c = backtick) = false ∧
  bool_decide (c = ":"%char) = false ∧ bool_decide (c = dollar) = false ∧ isspace c = false ∧ stops c.
Proof. by_bytes c. Qed.

Lemma delimiter_stops c : is_token_break c || isspace c = true → stops c.
Proof. by_bytes c. Qed.

Lemma delimited_stops rest : delimited rest → rest_stops rest.
Proof. intros H c Hc. by apply delimiter_stops, H. Qed.

Lemma valid_end s : valid (at_pos s (length s)) = false.
Proof. unfold valid. cbn. apply bool_decide_eq_false_2. lia. Qed.

Lemma token_loop_delimited fuel pre rest start previous :
  delimited rest → rest ≠ [] →
  token_loop (S fuel) (at_pos (pre ++ rest) (length pre)) start previous = Ok (at_pos (pre ++ rest) (length pre), inr previous).
Proof.
  intros Hd Hne. destruct rest as [|c rest]; [done|]. specialize (Hd c eq_refl). unfold at_pos at 1. cbn [token_loop m_offset m_s m_skip_quoted].
  fold (at_pos (pre ++ c :: rest) (length pre)). rewrite get_char_rest. destruct (is_token_break c) eqn:Eb; [done|]. cbn [orb] in Hd.
  assert (bool_decide (c = squote) = false ∧ bool_decide (c = dquote) = false ∧ bool_decide (c = backtick) = false) as (-> & -> & ->).
  { revert Hd. clear. by_bytes c. }
  by rewrite Hd.
Qed.

Lemma token_loop_word fuel pre w rest start previous :
  word w → delimited rest → length w < fuel → length pre - previous ≤ 1 →
  token_loop fuel (at_pos (pre ++ w ++ rest) (length pre)) start previous =
  Ok (at_pos (pre ++ w ++ rest) (length pre + length w), inr (length pre + length w - 1)).
Proof.
  intros [Hne Hw] Hd. revert fuel pre previous. induction Hw as [|c w Hc Hw IH]; [done|]. intros fuel pre previous Hf Hp.
  destruct fuel as [|fuel]; [lia|]. unfold at_pos at 1. cbn [token_loop m_offset m_s m_skip_quoted app].
  fold (at_pos (pre ++ c :: w ++ rest) (length pre)). rewrite get_char_rest.
  destruct (token_char_facts c Hc) as (-> & -> & -> & -> & -> & _ & -> & _). cbn [orb]. rewrite bool_decide_eq_false_2 by lia.
  change (default 0 (Some (length pre))) with (length pre).
  assert (rest_stops (w ++ rest)) as Hs.
  { destruct w as [|d w]; [by apply delimited_stops|]. intros e [= <-]. apply Forall_cons in Hw as [Hd' _]. by apply token_char_facts. }
  rewrite increment_over by done. cbn [mbind result_bind].
  replace (pre ++ c :: w ++ rest) with ((pre ++ [c]) ++ w ++ rest) by (by rewrite <- (assoc_L (++))).
  replace (S (length pre)) with (length (pre ++ [c])) by (rewrite length_app; cbn; lia).
  destruct w as [|d w].
  - cbn [app]. destruct rest as [|e rest].
    + rewrite app_nil_r, valid_end. rewrite length_app. cbn [length]. by rewrite Nat.add_sub.
    + rewrite valid_rest. cbn [length] in Hf. destruct fuel as [|fuel]; [lia|]. rewrite token_loop_delimited by done.
      rewrite length_app. cbn [length]. by rewrite Nat.add_sub.
  - rewrite (IH ltac:(done) fuel (pre ++ [c]) (length pre)); [|cbn in Hf |- *; lia|rewrite length_app; cbn; lia].
    replace (valid _) with true.
    + rewrite !length_app. cbn [length]. replace (length pre + S (S (length w))) with (length pre + 1 + S (length w)) by lia. done.
    + symmetry. apply (valid_rest (pre ++ [c]) d (w ++ rest)).
Qed.

(** *** Tokens behind blanks *)

Definition blanks (sp : str) : Prop := Forall (λ c, isspace c = true) sp.

(** Text that starts a token. *)
Definition starts (rest : str) : Prop := ∃ c, head rest = Some c ∧ isspace c = false ∧ stops c.

Lemma space_stops c : isspace c = true → stops c.
Proof. by_bytes c. Qed.

Lemma skip_blanks fuel pre sp rest :
  blanks sp → starts rest → length sp < fuel →
  skip_space_loop fuel (at_pos (pre ++ sp ++ rest) (length pre)) = Ok (at_pos (pre ++ sp ++ rest) (length pre + length sp)).
Proof.
  intros Hsp (c & Hc & Hns & Hst). destruct rest as [|c' rest]; [done|]. injection Hc as ->. revert fuel pre.
  induction Hsp as [|b sp Hb Hsp IH]; intros fuel pre Hf; (destruct fuel as [|fuel]; [lia|]); cbn [skip_space_loop app length].
  - rewrite get_char_rest, Hns, andb_false_r. by rewrite Nat.add_0_r.
  - rewrite valid_rest, get_char_rest, Hb. cbn [andb].
    rewrite increment_over.
    2: { intros d Hd. destruct sp as [|e sp]; [injection Hd as <-; done|]. injection Hd as <-. apply Forall_cons in Hsp as [? _]. by apply space_stops. }
    cbn [mbind result_bind]. replace (pre ++ b :: sp ++ c :: rest) with ((pre ++ [b]) ++ sp ++ c :: rest) by (by rewrite <- (assoc_L (++))).
    replace (S (length pre)) with (length (pre ++ [b])) by (rewrite length_app; cbn; lia). cbn [length] in Hf. rewrite IH by lia.
    rewrite length_app. cbn [length]. replace (length pre + S (length sp)) with (length pre + 1 + length sp) by lia. done.
Qed.

(** The token that starts at a position. *)
Lemma next_token_start pre sp rest c :
  blanks sp → head rest = Some c → isspace c = false → stops c → c ≠ squote → c ≠ dquote →
  next_token (at_pos (pre ++ sp ++ rest) (length pre)) =
  (r ← token_loop (S (length (pre ++ sp ++ rest))) (at_pos ((pre ++ sp) ++ rest) (length (pre ++ sp))) (length (pre ++ sp)) (length (pre ++ sp));
   match r with
   | (it, inl tok) => Ok (it, tok)
   | (it, inr previous) =>
       it ← (if bool_decide (m_offset it = Some (length (pre ++ sp))) then increment it else Ok it);
       Ok (it, substr (m_s it) (length (pre ++ sp)) (previous + 1 - length (pre ++ sp)))
   end).
Proof.
  intros Hsp Hc Hns Hst Hq1 Hq2. unfold next_token, next_token_and_offset. cbn [m_s at_pos].
  rewrite skip_blanks by (done || (rewrite !length_app; lia) || by exists c). cbn [mbind result_bind]. rewrite <- length_app, (assoc_L (++)).
  destruct rest as [|c' rest]; [done|]. injection Hc as ->. rewrite valid_rest. cbn [negb].
  unfold quoted_token. rewrite get_char_rest. cbn [m_skip_quoted m_dollar_quotes m_s m_offset at_pos].
  change (default 0 (Some (length (pre ++ sp)))) with (length (pre ++ sp)).
  rewrite (bool_decide_eq_false_2 (c = squote)), (bool_decide_eq_false_2 (c = dquote)) by done.
  rewrite (bool_decide_eq_false_2 (c = dollar)) by (intros ->; apply Hst; by repeat constructor). cbn [andb mbind result_bind].
  fold (at_pos ((pre ++ sp) ++ c :: rest) (length (pre ++ sp))).
  destruct (token_loop _ _ _ _) as [[it [tok|previous]]|e]; [done| |done]. cbn [mbind result_bind].
  by destruct (if bool_decide _ then increment it else Ok it).
Qed.

(** A word. *)
Lemma next_word pre sp w rest :
  blanks sp → word w → delimited rest →
  next_token (at_pos (pre ++ sp ++ w ++ rest) (length pre)) = Ok (at_pos (pre ++ sp ++ w ++ rest) (length (pre ++ sp ++ w)), w).
Proof.
  intros Hsp Hw Hd. destruct w as [|c w]; [by destruct Hw|]. destruct (token_char_facts c) as (_ & H1 & H2 & _ & _ & _ & Hns & Hst);
    [by destruct Hw as [_ [? _]%Forall_cons]|]. apply bool_decide_eq_false_1 in H1, H2.
  rewrite (next_token_start pre sp ((c :: w) ++ rest) c) by done. rewrite token_loop_word by (done || (rewrite !length_app; lia) || lia).
  cbn [mbind result_bind]. rewrite offset_at, bool_decide_eq_false_2 by (cbn [length]; intros [=]; lia). cbn [mbind result_bind]. rewrite text_at.
  rewrite (assoc_L (++) pre sp ((c :: w) ++ rest)), (assoc_L (++) pre sp (c :: w)), (length_app (pre ++ sp) (c :: w)). unfold substr.
  rewrite drop_app_length.
  replace (length (pre ++ sp) + length (c :: w) - 1 + 1 - length (pre ++ sp)) with (length (c :: w)) by (cbn [length]; lia).
  rewrite take_app_length. done.
Qed.

(** A separator. *)
Lemma next_separator pre sp c rest :
  blanks sp → is_token_break c = true → rest_stops rest →
  next_token (at_pos (pre ++ sp ++ c :: rest) (length pre)) = Ok (at_pos (pre ++ sp ++ c :: rest) (length (pre ++ sp ++ [c])), [c]).
Proof.
  intros Hsp Hb Hr. assert (isspace c = false ∧ stops c ∧ c ≠ squote ∧ c ≠ dquote) as (Hns & Hst & H1 & H2) by (revert Hb; clear; by_bytes c).
  rewrite (next_token_start pre sp (c :: rest) c) by done. rewrite token_loop_delimited; [|intros d [= <-]; by rewrite Hb|done].
  cbn [mbind result_bind]. rewrite offset_at, bool_decide_eq_true_2 by done.
  rewrite increment_over by done. cbn [mbind result_bind]. rewrite text_at, (assoc_L (++) pre sp (c :: rest)), (assoc_L (++) pre sp [c]), (length_app (pre ++ sp) [c]).
  unfold substr. rewrite drop_app_length. replace (length (pre ++ sp) + 1 - length (pre ++ sp)) with 1 by lia.
  cbn [length take]. replace (length (pre ++ sp) + 1) with (S (length (pre ++ sp))) by lia. done.
Qed.

(** A quoted identifier in the loop, at the beginning or behind a point. *)
Lemma quoted_head name rest : ∃ q, quote_identifier name backtick ++ rest = backtick :: q.
Proof. unfold quote_identifier. by eexists. Qed.

Lemma token_loop_quoted fuel pre name rest start previous :
  head rest ≠ Some backtick → head rest ≠ Some "."%char → length pre = start ∨ last pre = Some "."%char →
  token_loop (S fuel) (at_pos (pre ++ quote_identifier name backtick ++ rest) (length pre)) start previous =
  Ok (at_pos (pre ++ quote_identifier name backtick ++ rest) (length pre + length (quote_identifier name backtick)),
      inl (sub_to (pre ++ quote_identifier name backtick ++ rest) start (Some (length pre + length (quote_identifier name backtick))))).
Proof.
  intros Hr Hdot Hpos. unfold at_pos at 1. cbn [token_loop m_offset m_s m_skip_quoted].
  fold (at_pos (pre ++ quote_identifier name backtick ++ rest) (length pre)).
  assert (get_char (at_pos (pre ++ quote_identifier name backtick ++ rest) (length pre)) = backtick) as ->.
  { destruct (quoted_head name rest) as [q ->]. apply get_char_rest. }
  change (is_token_break backtick) with false. cbn [orb].
  rewrite (bool_decide_eq_false_2 (backtick = squote)), (bool_decide_eq_false_2 (backtick = dquote)), (bool_decide_eq_true_2 (backtick = backtick)) by done.
  cbn [orb]. assert (bool_decide (length pre = start) || bool_decide (char_at (pre ++ quote_identifier name backtick ++ rest) (length pre - 1) = "."%char) = true) as ->.
  { destruct Hpos as [->|Hl]; [by rewrite bool_decide_eq_true_2|]. apply orb_true_iff. right. apply bool_decide_eq_true_2.
    apply last_Some in Hl as [p ->]. rewrite length_app. cbn [length]. rewrite Nat.add_sub, <- (assoc_L (++)). apply char_rest. }
  rewrite (proj1 (quote_identifier_safe pre name rest Hr)). unfold set_offset. cbn [m_s m_skip_quoted m_dollar_quotes m_comment_hint at_pos].
  match goal with |- context [negb (valid ?x)] => change x with (at_pos (pre ++ quote_identifier name backtick ++ rest) (length pre + length (quote_identifier name backtick))) end.
  rewrite (assoc_L (++)), <- length_app. destruct rest as [|c rest].
  - rewrite app_nil_r, valid_end. done.
  - rewrite valid_rest, get_char_rest. rewrite bool_decide_eq_true_2 by (intros ->; done). done.
Qed.

(** A quoted identifier alone. *)
Lemma next_quoted pre sp name rest :
  blanks sp → head rest ≠ Some backtick → head rest ≠ Some "."%char →
  next_token (at_pos (pre ++ sp ++ quote_identifier name backtick ++ rest) (length pre)) =
  Ok (at_pos (pre ++ sp ++ quote_identifier name backtick ++ rest) (length (pre ++ sp ++ quote_identifier name backtick)), quote_identifier name backtick).
Proof.
  intros Hsp Hr Hdot. rewrite (next_token_start pre sp (quote_identifier name backtick ++ rest) backtick); [|done|by destruct (quoted_head name rest) as [q ->]|done| |done|done].
  2: { by apply (bool_decide_unpack _). }
  rewrite token_loop_quoted by (done || by left). cbn [mbind result_bind sub_to].
  rewrite (assoc_L (++) pre sp (quote_identifier name backtick ++ rest)), (assoc_L (++) pre sp (quote_identifier name backtick)), (length_app (pre ++ sp)).
  unfold substr. rewrite drop_app_length, Nat.add_sub', take_app_length. done.
Qed.

(** A quoted identifier and a point at the beginning of a token: the loop goes on behind the
    point. *)
Lemma token_loop_point fuel pre name rest :
  rest_stops rest → rest ≠ [] →
  let s := pre ++ quote_identifier name backtick ++ "."%char :: rest in
  token_loop (S fuel) (at_pos s (length pre)) (length pre) (length pre) =
  token_loop fuel (at_pos s (length (pre ++ quote_identifier name backtick ++ ["."%char]))) (length pre) (length (pre ++ quote_identifier name backtick)).
Proof.
  intros Hr Hne s. unfold at_pos at 1. cbn [token_loop m_offset m_s m_skip_quoted]. fold (at_pos s (length pre)).
  assert (get_char (at_pos s (length pre)) = backtick) as ->.
  { unfold s. destruct (quoted_head name ("."%char :: rest)) as [q ->]. apply get_char_rest. }
  change (is_token_break backtick) with false. cbn [orb].
  rewrite (bool_decide_eq_false_2 (backtick = squote)), (bool_decide_eq_false_2 (backtick = dquote)), (bool_decide_eq_true_2 (backtick = backtick)) by done.
  rewrite (bool_decide_eq_true_2 (length pre = length pre)) by done. cbn [orb].
  assert (span_quoted_sql_identifier_bt s (length pre) = Some (length pre + length (quote_identifier name backtick))) as Hspan
    by (by apply quote_identifier_safe).
  rewrite !Hspan. unfold set_offset.
  cbn [m_s m_skip_quoted m_dollar_quotes m_comment_hint at_pos m_offset].
  change {| m_s := s; m_offset := Some (length pre + length (quote_identifier name backtick)); m_skip_quoted := false; m_dollar_quotes := true;
            m_comment_hint := false |} with (at_pos s (length pre + length (quote_identifier name backtick))).
  assert (s = (pre ++ quote_identifier name backtick) ++ "."%char :: rest) as Es by (unfold s; by rewrite (assoc_L (++))).
  rewrite <- length_app, Es, valid_rest.
  rewrite get_char_rest. rewrite bool_decide_eq_false_2 by (intros H; by apply H). cbn [negb orb].
  rewrite (bool_decide_eq_false_2 (backtick = ":"%char)) by done. rewrite increment_over by done. cbn [mbind result_bind].
  change (default 0 (Some ?n)) with n.
  replace (S (length (pre ++ quote_identifier name backtick))) with (length (pre ++ quote_identifier name backtick ++ ["."%char]))
    by (rewrite !length_app; cbn; lia).
  destruct rest as [|c rest]; [done|].
  replace ((pre ++ quote_identifier name backtick) ++ "."%char :: c :: rest) with ((pre ++ quote_identifier name backtick ++ ["."%char]) ++ c :: rest)
    by (by rewrite <- !(assoc_L (++))).
  by rewrite valid_rest.
Qed.

(** All tables of a schema. *)
Lemma next_schema_level pre sp name rest :
  blanks sp → delimited rest →
  let tok := quote_identifier name backtick ++ $".*" in
  next_token (at_pos (pre ++ sp ++ tok ++ rest) (length pre)) = Ok (at_pos (pre ++ sp ++ tok ++ rest) (length (pre ++ sp ++ tok)), tok).
Proof.
  intros Hsp Hd tok. rewrite (next_token_start pre sp (tok ++ rest) backtick);
    [|done|unfold tok; by rewrite <- (assoc_L (++)); destruct (quoted_head name ($".*" ++ rest)) as [q ->]|done|by apply (bool_decide_unpack _)|done|done].
  unfold tok at 2. rewrite <- (assoc_L (++) (quote_identifier name backtick)). cbn [app].
  change ($".*" ++ rest) with ("."%char :: ("*"%char :: rest)).
  rewrite (token_loop_point _ (pre ++ sp) name ("*"%char :: rest)) by (done || (intros c [= <-]; by apply (bool_decide_unpack _))).
  set (p2 := (pre ++ sp) ++ quote_identifier name backtick ++ ["."%char]).
  replace ((pre ++ sp) ++ quote_identifier name backtick ++ "."%char :: "*"%char :: rest) with (p2 ++ $"*" ++ rest) by (unfold p2; by rewrite <- !(assoc_L (++))).
  rewrite token_loop_word; [|by split; [|repeat constructor]|done|rewrite !length_app; unfold tok; rewrite length_app; cbn; lia|unfold p2; rewrite !length_app; cbn; lia].
  cbn [mbind result_bind]. rewrite offset_at, bool_decide_eq_false_2 by (unfold p2; rewrite !length_app; cbn; intros [=]; lia).
  cbn [mbind result_bind]. rewrite text_at. assert (p2 ++ $"*" ++ rest = (pre ++ sp) ++ tok ++ rest) as -> by (unfold p2, tok; by rewrite <- !(assoc_L (++))).
  assert (length p2 + length ($"*") = length (pre ++ sp ++ tok)) as -> by (unfold p2, tok; rewrite !length_app; cbn; lia).
  unfold substr. rewrite drop_app_length. replace (length (pre ++ sp ++ tok) - 1 + 1 - length (pre ++ sp)) with (length tok)
    by (unfold tok; rewrite !length_app; cbn; lia).
  by rewrite take_app_length, (assoc_L (++) pre sp (tok ++ rest)).
Qed.

(** A table. *)
Lemma next_table_level pre sp schema table rest :
  blanks sp → head rest ≠ Some backtick → head rest ≠ Some "."%char →
  let tok := quote_identifier schema backtick ++ $"." ++ quote_identifier table backtick in
  next_token (at_pos (pre ++ sp ++ tok ++ rest) (length pre)) = Ok (at_pos (pre ++ sp ++ tok ++ rest) (length (pre ++ sp ++ tok)), tok).
Proof.
  intros Hsp Hr Hdot tok. rewrite (next_token_start pre sp (tok ++ rest) backtick);
    [|done|unfold tok; by rewrite <- (assoc_L (++)); destruct (quoted_head schema (($"." ++ quote_identifier table backtick) ++ rest)) as [q ->]|done
     |by apply (bool_decide_unpack _)|done|done].
  unfold tok at 2. rewrite <- !(assoc_L (++) (quote_identifier schema backtick)). rewrite <- (assoc_L (++) ($".")).
  change ($"." ++ quote_identifier table backtick ++ rest) with ("."%char :: (quote_identifier table backtick ++ rest)).
  destruct (quoted_head table rest) as [q Eq].
  rewrite (token_loop_point _ (pre ++ sp) schema (quote_identifier table backtick ++ rest))
    by (rewrite Eq; (done || (intros c [= <-]; by apply (bool_decide_unpack _)))).
  set (p2 := (pre ++ sp) ++ quote_identifier schema backtick ++ ["."%char]).
  replace ((pre ++ sp) ++ quote_identifier schema backtick ++ "."%char :: quote_identifier table backtick ++ rest) with (p2 ++ quote_identifier table backtick ++ rest)
    by (unfold p2; by rewrite <- !(assoc_L (++))).
  assert (∃ n, length (pre ++ sp ++ tok ++ rest) = S n) as [n ->].
  { exists (length (pre ++ sp ++ tok ++ rest) - 1). unfold tok. rewrite !length_app. cbn. lia. }
  rewrite token_loop_quoted; [|done|done|right; unfold p2; by rewrite (assoc_L (++)), last_snoc].
  cbn [mbind result_bind sub_to]. assert (p2 ++ quote_identifier table backtick ++ rest = (pre ++ sp) ++ tok ++ rest) as -> by (unfold p2, tok; by rewrite <- !(assoc_L (++))).
  assert (length p2 + length (quote_identifier table backtick) = length (pre ++ sp ++ tok)) as -> by (unfold p2, tok; rewrite !length_app; cbn; lia).
  unfold substr. rewrite drop_app_length. replace (length (pre ++ sp ++ tok) - length (pre ++ sp)) with (length tok) by (rewrite !length_app; lia).
  by rewrite take_app_length, (assoc_L (++) pre sp (tok ++ rest)).
Qed.
