(* ===== verification/UserPrivileges.v ===== *)
(** * Privileges of users

    Model of [mysqlshdk/libs/mysql/user_privileges.{h,cc}]: the statements of SHOW GRANTS are
    parsed into the privileges of an account at the levels of the server, of a schema and of a
    table, and required privileges are looked up in them.

    The server is an interface: the answers to the queries of the class. *)
From S2P Require Import Prelude UtilsString Lexing SqlString SqlWild Version UtilsGeneral StdMap.

Open Scope nat_scope.

Definition k_all_schema_privileges : gset str :=
  list_to_set [$"ALTER"; $"ALTER ROUTINE"; $"CREATE"; $"CREATE ROUTINE"; $"CREATE TEMPORARY TABLES"; $"CREATE VIEW"; $"DELETE"; $"DROP"; $"EVENT";
               $"EXECUTE"; $"INDEX"; $"INSERT"; $"LOCK TABLES"; $"REFERENCES"; $"SELECT"; $"SHOW VIEW"; $"TRIGGER"; $"UPDATE"].

Definition k_all_table_privileges : gset str :=
  list_to_set [$"ALTER"; $"CREATE"; $"CREATE VIEW"; $"DELETE"; $"DROP"; $"INDEX"; $"INSERT"; $"REFERENCES"; $"SELECT"; $"SHOW VIEW"; $"TRIGGER"; $"UPDATE"].

Definition k_grant_all : str := $"GRANT ALL PRIVILEGES ON ".

Definition k_wildcard : str := $"*".

Definition validate_privileges (privileges all_privileges : gset str) : result (gset str) :=
  let result : gset str := set_map str_upper privileges in
  if bool_decide (result ∖ all_privileges = ∅) then Ok result
  else Throw (runtime_error "Invalid privilege in the privileges list: ").

Definition privilege_level (schema table : str) : str :=
  let quote name := if bool_decide (k_wildcard = name) then name else quote_identifier name backtick in
  quote schema ++ $"." ++ quote table.

Definition is_database_privilege_level (schema table : str) : bool :=
  negb (bool_decide (k_wildcard = schema)) && bool_decide (k_wildcard = table).

(** ** The class *)

Record All_privileges := {
  wildcard : list (str * gset str);     (* a multimap in the order of [SQL_wild_compare] *)
  regular : gmap str (gset str);
}.

Record User_privileges := {
  m_user : str;
  m_host : str;
  m_account : str;
  m_user_exists : bool;
  m_grantable_privileges : All_privileges;
  m_privileges : All_privileges;
  m_revoked_privileges : gmap str (gset str);
  m_roles : list str;
  m_all_privileges : gset str;
  m_partial_revokes : bool;
}.

(** Where the privileges of a statement go. *)
Inductive Target := Granted | Granted_wildcard | Grantable | Grantable_wildcard | Revoked.

(** The element of the map at [level], which is created if needed, with the privileges inserted. *)
Definition add_regular (level : str) (privileges : gset str) (m : gmap str (gset str)) : gmap str (gset str) :=
  <[level := default ∅ (m !! level) ∪ privileges]> m.

(** The element of [equal_range(level)] with this key. *)
Fixpoint add_to_level (level : str) (privileges : gset str) (m : list (str * gset str)) : option (list (str * gset str)) :=
  match m with
  | [] => None
  | (k, ps) :: m =>
      if negb (SQL_wild_compare k level) && negb (SQL_wild_compare level k) && bool_decide (level = k)
      then Some ((k, ps ∪ privileges) :: m)
      else cons (k, ps) <$> add_to_level level privileges m
  end.

(** [emplace] of a multimap: behind the elements that are not greater. *)
Fixpoint wildcard_emplace (level : str) (privileges : gset str) (m : list (str * gset str)) : list (str * gset str) :=
  match m with
  | [] => [(level, privileges)]
  | (k, ps) :: m' => if SQL_wild_compare level k then (level, privileges) :: m else (k, ps) :: wildcard_emplace level privileges m'
  end.

Definition add_wildcard (level : str) (privileges : gset str) (m : list (str * gset str)) : list (str * gset str) :=
  match add_to_level level privileges m with Some m => m | None => wildcard_emplace level privileges m end.

Definition add_regular_to (level : str) (privileges : gset str) (a : All_privileges) : All_privileges :=
  {| wildcard := wildcard a; regular := add_regular level privileges (regular a) |}.
Definition add_wildcard_to (level : str) (privileges : gset str) (a : All_privileges) : All_privileges :=
  {| wildcard := add_wildcard level privileges (wildcard a); regular := regular a |}.

Definition with_privileges (grantable privileges : All_privileges) (revoked : gmap str (gset str)) (u : User_privileges) : User_privileges :=
  {| m_user := m_user u; m_host := m_host u; m_account := m_account u; m_user_exists := m_user_exists u;
     m_grantable_privileges := grantable; m_privileges := privileges; m_revoked_privileges := revoked;
     m_roles := m_roles u; m_all_privileges := m_all_privileges u; m_partial_revokes := m_partial_revokes u |}.

Definition add_privileges (target : Target) (level : str) (privileges : gset str) (u : User_privileges) : User_privileges :=
  let g := m_grantable_privileges u in
  let p := m_privileges u in
  let r := m_revoked_privileges u in
  match target with
  | Granted => with_privileges g (add_regular_to level privileges p) r u
  | Granted_wildcard => with_privileges g (add_wildcard_to level privileges p) r u
  | Grantable => with_privileges (add_regular_to level privileges g) p r u
  | Grantable_wildcard => with_privileges (add_wildcard_to level privileges g) p r u
  | Revoked => with_privileges g p (add_regular level privileges r) u
  end.

Definition is_wildcard_privilege_level (u : User_privileges) (schema table : str) : bool :=
  negb (m_partial_revokes u) && is_database_privilege_level schema table && has_sql_wildcard schema.

(** ** [parse_grant]

    The loops read one token or more in each iteration; for a statement that ends before the
    token they look for they do not end. *)

Definition endless : exn := logic_error "endless loop".

(** The list of columns, up to its closing parenthesis. *)
Fixpoint skip_column_list (fuel : nat) (it : SQL_iterator) : result SQL_iterator :=
  match fuel with
  | O => Throw endless
  | S fuel =>
      '(it, token) ← next_token it;
      if str_caseeq token [$")"] then Ok it else skip_column_list fuel it
  end.

(** The inner loop: the rest of a privilege.  [None] is the return for a role; otherwise the
    privilege, whether it is added, and whether it is the last. *)
Fixpoint read_privilege (fuel : nat) (grant : bool) (it : SQL_iterator) (privilege : str) (add_privilege : bool)
    : result (option (SQL_iterator * str * bool * bool)) :=
  match fuel with
  | O => Throw endless
  | S fuel' =>
      '(it, token) ← next_token it;
      if str_caseeq token [if grant then $"TO" else $"FROM"] then Ok None
      else
        '(it, token, add_privilege) ←
          (if str_caseeq token [$"("] then
             it ← skip_column_list fuel it;
             '(it, token) ← next_token it;
             Ok (it, token, false)
           else Ok (it, token, add_privilege));
        let privilege_done := str_caseeq token [$","] in
        let all_privileges_done := str_caseeq token [$"ON"] in
        if negb privilege_done && negb all_privileges_done
        then read_privilege fuel' grant it (privilege ++ $" " ++ token) add_privilege
        else Ok (Some (it, privilege, add_privilege, all_privileges_done))
  end.

Fixpoint read_privileges (fuel : nat) (grant : bool) (it : SQL_iterator) (privileges : gset str)
    : result (option (SQL_iterator * gset str)) :=
  match fuel with
  | O => Throw endless
  | S fuel' =>
      '(it, privilege) ← next_token it;
      r ← read_privilege fuel grant it privilege true;
      match r with
      | None => Ok None
      | Some (it, privilege, add_privilege, all_privileges_done) =>
          let privileges := if add_privilege : bool then privileges ∪ {[privilege]} else privileges in
          if all_privileges_done : bool then Ok (Some (it, privileges)) else read_privileges fuel' grant it privileges
      end
  end.

Fixpoint has_grant_option_loop (fuel : nat) (it : SQL_iterator) : result bool :=
  match fuel with
  | O => Throw endless
  | S fuel =>
      if valid it then
        '(it, token) ← next_token it;
        if str_caseeq token [$"GRANT"] then
          '(it, token) ← next_token it;
          if str_caseeq token [$"OPTION"] then Ok true else has_grant_option_loop fuel it
        else has_grant_option_loop fuel it
      else Ok false
  end.

(** [PROXY] is the only privilege. *)
Definition is_proxy (privileges : gset str) : bool :=
  match elements privileges with [p] => str_caseeq p [$"PROXY"] | _ => false end.

Definition all_privileges_at (u : User_privileges) (schema table : str) : gset str :=
  if bool_decide (k_wildcard = schema) then m_all_privileges u
  else if bool_decide (k_wildcard = table) then k_all_schema_privileges
  else k_all_table_privileges.

(** The statement from the privilege level on. *)
Definition parse_level (fuel : nat) (u : User_privileges) (it : SQL_iterator) (target : Target) (grant_all : bool) (privileges : gset str)
    : result User_privileges :=
  '(it, level) ← next_token it;
  if str_caseeq level [$"FUNCTION"; $"PROCEDURE"] then Ok u
  else
    '(it, level) ← (if str_caseeq level [$"TABLE"] then next_token it else Ok (it, level));
    '(schema, table, _) ← split_priv_level level false;
    let uses_wildcards := is_wildcard_privilege_level u schema table in
    let privileges := if grant_all then all_privileges_at u schema table else privileges in
    grant_option ← has_grant_option_loop fuel it;
    let target := if grant_option : bool then (if uses_wildcards then Grantable_wildcard else Grantable)
                  else if uses_wildcards then Granted_wildcard else target in
    let level := if uses_wildcards then schema else level in
    if bool_decide (privileges = ∅) then Ok u else Ok (add_privileges target level privileges u).

Definition parse_grant (statement : str) (u : User_privileges) : result User_privileges :=
  let fuel := S (S (length statement)) in
  it ← make_SQL_iterator statement 0 false true;
  '(it, type) ← next_token it;
  let read grant target :=
    r ← read_privileges fuel grant it ∅;
    match r with
    | None => Ok u
    | Some (it, privileges) => if is_proxy privileges then Ok u else parse_level fuel u it target false privileges
    end in
  if str_caseeq type [$"GRANT"] then
    if str_ibeginswith_pair statement k_grant_all
    then parse_level fuel u (set_offset it (Some (length k_grant_all))) Granted true ∅
    else read true Granted
  else if str_caseeq type [$"REVOKE"] then read false Revoked
  else Throw (logic_error "Unsupported grant statement: ").

(** ** Required privileges *)

Definition privileges_of_copy (privileges : All_privileges) (s t : str) : gset str :=
  match regular privileges !! privilege_level s t with
  | Some ps => ps
  | None =>
      if is_database_privilege_level s t then
        match List.find (λ wild, match_sql_wild s wild.1) (wildcard privileges) with
        | Some wild => wild.2
        | None => ∅
        end
      else ∅
  end.

Definition get_privileges_at_level (privileges : All_privileges) (schema table : str) : gset str :=
  privileges_of_copy privileges k_wildcard k_wildcard ∪
  (if bool_decide (k_wildcard = schema) then ∅
   else privileges_of_copy privileges schema k_wildcard ∪
        (if bool_decide (k_wildcard = table) then ∅ else privileges_of_copy privileges schema table)).

(** The missing privileges, and [*are_grantable]. *)
Definition get_missing_privileges (u : User_privileges) (required_privileges : gset str) (schema table : str) : gset str * bool :=
  let grantable_privileges := get_privileges_at_level (m_grantable_privileges u) schema table in
  let privileges := get_privileges_at_level (m_privileges u) schema table in
  let revoked := if bool_decide (k_wildcard = schema) then ∅
                 else default ∅ (m_revoked_privileges u !! privilege_level schema k_wildcard) in
  let grantable_privileges := grantable_privileges ∖ revoked in
  let privileges := privileges ∖ revoked in
  (required_privileges ∖ (privileges ∪ grantable_privileges), bool_decide (required_privileges ∖ grantable_privileges = ∅)).

Record User_privileges_result := { r_user_exists : bool; m_has_grant_option : bool; m_missing_privileges : gset str }.

Definition validate (u : User_privileges) (required_privileges : gset str) (schema table : str) : result User_privileges_result :=
  uppercase_privileges ← validate_privileges required_privileges (m_all_privileges u);
  if m_user_exists u then
    let '(missing, grantable) := get_missing_privileges u uppercase_privileges schema table in
    Ok {| r_user_exists := true; m_has_grant_option := grantable; m_missing_privileges := missing |}
  else Ok {| r_user_exists := false; m_has_grant_option := false; m_missing_privileges := uppercase_privileges |}.

Definition has_missing_privileges (r : User_privileges_result) : bool :=
  if r_user_exists r then negb (bool_decide (m_missing_privileges r = ∅)) else true.

(** ** Reading the account from the server *)

(** The answers of the server. *)
Record Instance := {
  i_version : Version;
  i_has_privileges : str → result bool;                  (* rows of USER_PRIVILEGES for a grantee *)
  i_privileges : result (list str);                      (* SHOW PRIVILEGES *)
  i_grants : str → result (list str);                    (* SHOW GRANTS: the query, and its rows *)
  i_activate_all_roles : option bool;
  i_mandatory_roles : str;
  i_role_edges : str → str → result (list (str * str));
  i_default_roles : str → str → result (list (str * str));
  i_partial_revokes : option bool;
}.

(** The list of roles: one account in each iteration. *)
Fixpoint mandatory_roles_loop (fuel : nat) (it : SQL_iterator) (roles : list str) : result (list str) :=
  match fuel with
  | O => Throw endless
  | S fuel =>
      if valid it then
        '(it, account) ← next_token it;
        '(it, token) ← next_token it;
        '(it, account) ←
          (if str_caseeq token [$"@"] then
             '(it, host) ← next_token it;
             '(it, _) ← next_token it;
             Ok (it, account ++ token ++ host)
           else Ok (it, account));
        '(user, host) ← split_account account NO;
        role ← make_account user (if bool_decide (host = []) then $"%" else host);
        mandatory_roles_loop fuel it (set_insert role roles)
      else Ok roles
  end.

Definition get_mandatory_roles (i : Instance) : result (list str) :=
  let str_roles := str_strip (i_mandatory_roles i) k_blanks in
  if bool_decide (str_roles = []) then Ok []
  else
    it ← make_SQL_iterator str_roles 0 false true;
    mandatory_roles_loop (S (length str_roles)) it [].

Fixpoint insert_accounts (rows : list (str * str)) (roles : list str) : result (list str) :=
  match rows with
  | [] => Ok roles
  | (user, host) :: rows => role ← make_account user host; insert_accounts rows (set_insert role roles)
  end.

Definition read_user_roles (i : Instance) (user host : str) : result (list str) :=
  if version_lt (i_version i) (version3 8 0 0) then Ok []
  else
    match i_activate_all_roles i with
    | None => Ok []
    | Some true =>
        mandatory_roles ← get_mandatory_roles i;
        rows ← i_role_edges i user host;
        insert_accounts rows mandatory_roles
    | Some false =>
        rows ← i_default_roles i user host;
        insert_accounts rows []
    end.

Definition read_partial_revokes (i : Instance) : bool :=
  if version_lt (i_version i) (version3 8 0 16) then false else default false (i_partial_revokes i).

Definition set_all_privileges (i : Instance) : result (gset str) :=
  rows ← i_privileges i;
  Ok (list_to_set (str_upper <$> rows) ∖ {[$"GRANT OPTION"; $"PROXY"]}).

Fixpoint parse_grants (statements : list str) (u : User_privileges) : result User_privileges :=
  match statements with
  | [] => Ok u
  | statement :: statements => u ← parse_grant statement u; parse_grants statements u
  end.

Definition parse_user_grants (i : Instance) (u : User_privileges) : result User_privileges :=
  rows ← i_grants i ($"SHOW GRANTS FOR " ++ m_account u ++
                     (if bool_decide (m_roles u = []) then [] else $" USING " ++ str_join (m_roles u) ($",") id));
  parse_grants rows u.

Definition no_privileges : All_privileges := {| wildcard := []; regular := ∅ |}.

Definition skip_grants_account : str := $"'skip-grants user'@'skip-grants host'".

(** ER_TABLEACCESS_DENIED_ERROR *)
Definition access_denied : exn := shcore_exception "1142".

Definition make_User_privileges (i : Instance) (user host : str) (allow_skip_grants_user : bool) : result User_privileges :=
  account ← make_account user host;
  let is_skip_grants_user := bool_decide (skip_grants_account = account) && allow_skip_grants_user in
  user_exists ← (if is_skip_grants_user then Ok true else i_has_privileges i account);
  all_privileges ← set_all_privileges i;
  let u roles partial_revokes :=
    {| m_user := user; m_host := host; m_account := account; m_user_exists := user_exists;
       m_grantable_privileges := no_privileges; m_privileges := no_privileges; m_revoked_privileges := ∅;
       m_roles := roles; m_all_privileges := all_privileges; m_partial_revokes := partial_revokes |} in
  if negb user_exists then Ok (u [] false)
  else if is_skip_grants_user then parse_grant ($"GRANT ALL PRIVILEGES ON *.* TO 'skip-grants user'@'skip-grants host'") (u [] false)
  else
    match read_user_roles i user host with
    | Throw e => Throw (if bool_decide (e = access_denied) then runtime_error "Unable to get roles information." else e)
    | Ok roles => parse_user_grants i (u roles (read_partial_revokes i))
    end.
