(* ===== verification/UserPrivilegesFacts.v ===== *)
(** * Privileges of users: theorems

    The rows of SHOW GRANTS are parsed as what they grant, and the privileges that are found
    missing are those that no row covers. *)
From S2P Require Import Prelude UtilsString UtilsStringFacts Lexing LexingFacts SqlString SqlStringFacts SqlTokensFacts GtidUtilsFacts SqlWild UtilsGeneral UtilsGeneralFacts UserPrivileges.

Open Scope nat_scope.

(** ** Rows of SHOW GRANTS *)

Inductive Level := Server | Schema (s : str) | Table (s t : str).

#[global] Instance Level_eq_dec : EqDecision Level.
Proof. solve_decision. Defined.

Definition level_schema (l : Level) : str := match l with Server => k_wildcard | Schema s | Table s _ => s end.
Definition level_table (l : Level) : str := match l with Server | Schema _ => k_wildcard | Table _ t => t end.

(** A privilege: the first of its words, the others, and the columns it is limited to; no
    columns is no limit. *)
Record Privilege := { p_word : str; p_words : list str; p_columns : list str }.

(** A row with privileges ([None] is ALL PRIVILEGES) at a level, granted or partially
    revoked. *)
Record Grant := {
  g_revoke : bool;
  g_privileges : option (list Privilege);
  g_dynamic : bool;   (* a list of dynamic privileges, which has no blanks behind its commas *)
  g_level : Level;
  g_user : str;
  g_host : str;
  g_option : bool;
}.

Definition more (ws : list str) : str := concat ((λ w, $" " ++ w) <$> ws).
Definition privilege_text (p : Privilege) : str := p_word p ++ more (p_words p).

Definition columns_text (cs : list str) : str :=
  match cs with
  | [] => []
  | c :: cs => $" (" ++ quote_identifier c backtick ++ concat ((λ c, $", " ++ quote_identifier c backtick) <$> cs) ++ $")"
  end.

Definition gap (dynamic : bool) : str := if dynamic then [] else $" ".

Fixpoint privileges_text (dynamic : bool) (ps : list Privilege) : str :=
  match ps with
  | [] => []
  | [p] => privilege_text p ++ columns_text (p_columns p)
  | p :: ps => privilege_text p ++ columns_text (p_columns p) ++ $"," ++ gap dynamic ++ privileges_text dynamic ps
  end.

(** The privileges that are not limited to columns, which are the ones that are kept. *)
Definition whole (ps : list Privilege) : gset str :=
  list_to_set (privilege_text <$> filter (λ p, p_columns p = []) ps).

Definition level_text (l : Level) : str :=
  match l with
  | Server => $"*.*"
  | Schema s => quote_identifier s backtick ++ $".*"
  | Table s t => quote_identifier s backtick ++ $"." ++ quote_identifier t backtick
  end.

Definition account_text (g : Grant) : str :=
  quote_identifier (g_user g) backtick ++ $"@" ++ quote_identifier (g_host g) backtick ++ (if g_option g then $" WITH GRANT OPTION" else []).

Definition show_grant (g : Grant) : str :=
  (if g_revoke g then $"REVOKE" else $"GRANT") ++ $" " ++
  match g_privileges g with None => $"ALL PRIVILEGES" | Some ps => privileges_text (g_dynamic g) ps end ++ $" ON " ++
  level_text (g_level g) ++ (if g_revoke g then $" FROM " else $" TO ") ++ account_text g.

(** ** Reading the privileges *)

(** Words of privileges: not one of the words and separators that end them. *)
Definition privilege_word (w : str) : Prop :=
  word w ∧ str_caseeq w [$"TO"] = false ∧ str_caseeq w [$"FROM"] = false ∧ str_caseeq w [$"ON"] = false.

Definition privilege_ok (p : Privilege) : Prop := word (p_word p) ∧ Forall privilege_word (p_words p).

(** The text behind a privilege: a comma, or ON. *)
Definition ends (final : bool) (tail rest : str) : Prop :=
  if final then tail = $" ON" ∧ delimited rest else tail = $"," ∧ rest_stops rest.

Lemma caseeq_separator w sep : word w → sep = $"(" ∨ sep = $"," → str_caseeq w [sep] = false.
Proof.
  intros [_ Hw] Hc. unfold str_caseeq, existsb, str_caseeq_pair. rewrite orb_false_r. case_bool_decide as E; [done|].
  assert (length sep = 1) as El by (by destruct Hc as [->| ->]). rewrite El in E.
  destruct w as [|d [|? ?]]; [cbn in E; lia| |cbn in E; lia]. apply Forall_cons in Hw as [Hd _].
  revert Hd. destruct Hc as [->| ->]; clear; by_bytes d.
Qed.

Lemma blank_space : blanks ($" ").
Proof. by repeat constructor. Qed.

Lemma caseeq_head c w d t : tolower c ≠ tolower d → str_caseeq (c :: w) [d :: t] = false.
Proof.
  intros H. unfold str_caseeq, existsb, str_caseeq_pair. rewrite orb_false_r. case_bool_decide; [done|]. cbn [length strncasecmp_eq].
  by rewrite bool_decide_eq_false_2.
Qed.

Lemma quoted_caseeq name d t : tolower backtick ≠ tolower d → str_caseeq (quote_identifier name backtick) [d :: t] = false.
Proof. unfold quote_identifier. apply caseeq_head. Qed.

Lemma quoted_not_close name : str_caseeq (quote_identifier name backtick) [$")"] = false.
Proof. by apply (quoted_caseeq name ")"%char []). Qed.

(** The token behind a privilege. *)
Lemma next_end pre tail rest final :
  ends final tail rest →
  next_token (at_pos (pre ++ tail ++ rest) (length pre)) =
  Ok (at_pos (pre ++ tail ++ rest) (length (pre ++ tail)), if final then $"ON" else $",").
Proof.
  destruct final; intros [-> Hr].
  - change ($" ON") with ($" " ++ $"ON"). rewrite <- (assoc_L (++)).
    rewrite (next_word pre ($" ") ($"ON") rest); [done|apply blank_space|by split; [|repeat constructor]|done].
  - change ($"," ++ rest) with ([] ++ ","%char :: rest). by rewrite (next_separator pre [] ","%char rest) by (done || constructor).
Qed.

Lemma delimited_more ws cs tail rest final : ends final tail rest → delimited (more ws ++ columns_text cs ++ tail ++ rest).
Proof.
  intros Hend. destruct ws; [|by intros ? [= <-]]. destruct cs; [|by intros ? [= <-]].
  destruct final; destruct Hend as [-> _]; by intros ? [= <-].
Qed.

(** A separator with nothing before it. *)
Lemma next_comma pre c rest :
  is_token_break c = true → rest_stops rest →
  next_token (at_pos (pre ++ c :: rest) (length pre)) = Ok (at_pos (pre ++ c :: rest) (length (pre ++ [c])), [c]).
Proof. intros Hc Hr. apply (next_separator pre [] c rest); [constructor|done..]. Qed.

(** The columns behind the opening parenthesis. *)
Lemma skip_columns fuel pre sp c cs rest :
  blanks sp → rest_stops rest → 2 * length cs + 1 < fuel →
  let list := quote_identifier c backtick ++ concat ((λ c, $", " ++ quote_identifier c backtick) <$> cs) ++ $")" in
  skip_column_list fuel (at_pos (pre ++ sp ++ list ++ rest) (length pre)) = Ok (at_pos (pre ++ sp ++ list ++ rest) (length (pre ++ sp ++ list))).
Proof.
  intros Hsp Hr. revert fuel pre sp c Hsp. induction cs as [|c' cs IH]; intros fuel pre sp c Hsp Hf list; unfold list; clear list;
    (do 2 (destruct fuel as [|fuel]; [cbn in Hf; lia|])); cbn [fmap list_fmap concat app skip_column_list].
  - rewrite <- !(assoc_L (++) (quote_identifier c backtick)).
    rewrite (next_quoted pre sp c ($")" ++ rest)) by done. cbn [mbind result_bind].
    rewrite quoted_not_close. rewrite !(assoc_L (++) sp), !(assoc_L (++) pre).
    rewrite (next_comma _ ")"%char rest eq_refl Hr : next_token (at_pos (((pre ++ sp) ++ quote_identifier c backtick) ++ $")" ++ rest) _) = _).
    cbn [mbind result_bind]. by rewrite <- !(assoc_L (++)).
  - set (list' := quote_identifier c' backtick ++ concat ((λ c, $", " ++ quote_identifier c backtick) <$> cs) ++ $")").
    assert (∀ X : str, (quote_identifier c backtick ++ ((($", " ++ quote_identifier c' backtick) ++ concat ((λ c, $", " ++ quote_identifier c backtick) <$> cs)) ++ $")")) ++ X
      = quote_identifier c backtick ++ $"," ++ $" " ++ list' ++ X) as E by (intros X; unfold list'; by rewrite <- !(assoc_L (++))).
    rewrite !E. rewrite (next_quoted pre sp c ($"," ++ $" " ++ list' ++ rest)) by done. cbn [mbind result_bind].
    rewrite quoted_not_close. rewrite !(assoc_L (++) sp), !(assoc_L (++) pre).
    assert (rest_stops ($" " ++ list' ++ rest)) as Hr' by (intros ? [= <-]; by apply space_stops).
    rewrite (next_comma _ ","%char ($" " ++ list' ++ rest) eq_refl Hr' : next_token (at_pos (((pre ++ sp) ++ quote_identifier c backtick) ++ $"," ++ $" " ++ list' ++ rest) _) = _).
    cbn [mbind result_bind]. assert (str_caseeq [","%char] [$")"] = false) as -> by done. cbn [app].
    set (p2 := ((pre ++ sp) ++ quote_identifier c backtick) ++ $",").
    replace (((pre ++ sp) ++ quote_identifier c backtick) ++ ","%char :: $" " ++ list' ++ rest) with (p2 ++ $" " ++ list' ++ rest)
      by (unfold p2; by rewrite <- !(assoc_L (++))).
    change (length (((pre ++ sp) ++ quote_identifier c backtick) ++ [","%char])) with (length p2).
    pose proof (IH fuel p2 ($" ") c' blank_space ltac:(cbn in Hf; lia)) as H. cbn zeta in H. fold list' in H. rewrite H. unfold p2, list'. cbn [fmap list_fmap concat]. do 2 f_equal; rewrite <- !(assoc_L (++)); [done|]. f_equal.
Qed.

Lemma length_columns c cs : 2 * length cs + 3 ≤ length (columns_text (c :: cs)).
Proof.
  cbn [columns_text]. rewrite !length_app. assert (2 * length cs ≤ length (concat ((λ c, $", " ++ quote_identifier c backtick) <$> cs))) as H.
  { induction cs as [|c' cs IH]; [done|]. cbn [fmap list_fmap concat length]. rewrite !length_app. change (length ($", ")) with 2. lia. }
  change (length ($" (")) with 2. change (length ($")")) with 1. lia.
Qed.

(** The words of a privilege behind the first, and its columns. *)
Lemma read_words fuel grant pre acc ws cs tail rest final :
  Forall privilege_word ws → ends final tail rest → length ws + length (columns_text cs) < fuel →
  let text := pre ++ more ws ++ columns_text cs ++ tail ++ rest in
  read_privilege fuel grant (at_pos text (length pre)) acc true =
  Ok (Some (at_pos text (length (pre ++ more ws ++ columns_text cs ++ tail)), acc ++ more ws, bool_decide (cs = []), final)).
Proof.
  intros Hws Hend. revert fuel pre acc. induction Hws as [|w ws Hw Hws IH]; intros fuel pre acc Hf text; unfold text; clear text;
    (destruct fuel as [|fuel]; [lia|]).
  - cbn [read_privilege more fmap list_fmap concat app]. rewrite app_nil_r. destruct cs as [|c cs].
    + cbn [columns_text app]. rewrite (next_end pre tail rest final) by done. cbn [mbind result_bind].
      rewrite bool_decide_eq_true_2 by done. by destruct grant, final.
    + pose proof (length_columns c cs) as Hlen. cbn [columns_text length] in *.
      set (list := quote_identifier c backtick ++ concat ((λ c, $", " ++ quote_identifier c backtick) <$> cs) ++ $")") in *.
      replace (pre ++ ($" (" ++ list) ++ tail ++ rest) with (pre ++ $" " ++ "("%char :: list ++ tail ++ rest) by (by rewrite <- !(assoc_L (++))).
      assert (rest_stops (list ++ tail ++ rest)) as Hl.
      { unfold list. rewrite <- (assoc_L (++)). destruct (quoted_head c ((concat ((λ c, $", " ++ quote_identifier c backtick) <$> cs) ++ $")") ++ tail ++ rest)) as [q ->].
        intros d [= <-]. by apply (bool_decide_unpack _). }
      rewrite (next_separator pre ($" ") "("%char (list ++ tail ++ rest)) by (done || apply blank_space). cbn [mbind result_bind].
      assert (str_caseeq ["("%char] [if grant then $"TO" else $"FROM"] = false) as -> by (by destruct grant).
      assert (str_caseeq ["("%char] [$"("] = true) as -> by done.
      set (p2 := pre ++ $" " ++ ["("%char]).
      replace (pre ++ $" " ++ "("%char :: list ++ tail ++ rest) with (p2 ++ [] ++ list ++ tail ++ rest) by (unfold p2; by rewrite <- !(assoc_L (++))).
      unfold list at 1. rewrite (skip_columns (S fuel) p2 [] c cs (tail ++ rest)); [|constructor| |].
      2: { destruct final; destruct Hend as [-> _]; intros d [= <-]; by apply (bool_decide_unpack _). }
      2: { lia. }
      fold list. cbn [mbind result_bind app]. rewrite (assoc_L (++) p2 list).
      rewrite (next_end (p2 ++ list) tail rest final) by done.
      cbn [mbind result_bind]. rewrite bool_decide_eq_false_2 by done. unfold p2. rewrite <- !(assoc_L (++)).
      by destruct grant, final.
  - destruct Hw as (Hword & H1 & H2 & H3). change (more (w :: ws)) with (($" " ++ w) ++ more ws). rewrite <- !(assoc_L (++)). cbn [read_privilege].
    rewrite (next_word pre ($" ") w (more ws ++ columns_text cs ++ tail ++ rest)); [|apply blank_space|done|by eapply delimited_more].
    cbn [mbind result_bind]. assert (str_caseeq w [if grant then $"TO" else $"FROM"] = false) as -> by (by destruct grant).
    rewrite (caseeq_separator w ($"(")) by (done || by left). cbn [mbind result_bind].
    rewrite (caseeq_separator w ($",")), H3 by (done || by right). cbn [negb andb].
    rewrite !(assoc_L (++) pre), (assoc_L (++) (pre ++ $" ") w). rewrite (IH fuel) by (cbn in Hf; lia).
    rewrite <- !(assoc_L (++)). done.
Qed.

Lemma length_more ws : length ws ≤ length (more ws).
Proof.
  induction ws as [|w ws IH]; [done|]. change (more (w :: ws)) with (($" " ++ w) ++ more ws). rewrite !length_app.
  change (length ($" ")) with 1. cbn [length]. lia.
Qed.

(** The privileges kept of a list, from those of its first element. *)
Lemma whole_cons (p : Privilege) (ps : list Privilege) (ps0 : gset str) :
  (if bool_decide (p_columns p = []) then ps0 ∪ {[privilege_text p]} else ps0) ∪ whole ps = ps0 ∪ whole (p :: ps).
Proof.
  unfold whole. rewrite filter_cons. destruct (decide (p_columns p = [])) as [E|E].
  - rewrite bool_decide_eq_true_2 by done. cbn [fmap list_fmap list_to_set]. symmetry. apply (assoc_L (∪)).
  - by rewrite bool_decide_eq_false_2.
Qed.

Lemma gap_blanks dynamic : blanks (gap dynamic).
Proof. destruct dynamic; [constructor|apply blank_space]. Qed.

(** One privilege of a list. *)
Lemma read_one fuel grant pre sp p ps0 tail rest final :
  blanks sp → privilege_ok p → ends final tail rest → length (privilege_text p ++ columns_text (p_columns p)) < fuel →
  let text := pre ++ sp ++ privilege_text p ++ columns_text (p_columns p) ++ tail ++ rest in
  let it := at_pos text (length (pre ++ sp ++ privilege_text p ++ columns_text (p_columns p) ++ tail)) in
  let kept := if bool_decide (p_columns p = []) then ps0 ∪ {[privilege_text p]} else ps0 in
  read_privileges fuel grant (at_pos text (length pre)) ps0 =
  if final : bool then Ok (Some (it, kept)) else read_privileges (fuel - 1) grant it kept.
Proof.
  intros Hsp [Hw Hws] Hend Hf. cbn zeta. destruct fuel as [|fuel]; [lia|]. cbn [read_privileges].
  unfold privilege_text in *. rewrite <- !(assoc_L (++) (p_word p)).
  rewrite (next_word pre sp (p_word p)); [|done|done|by eapply delimited_more].
  cbn [mbind result_bind]. rewrite !(assoc_L (++) pre), (assoc_L (++) (pre ++ sp) (p_word p)).
  rewrite (read_words (S fuel) grant _ (p_word p) (p_words p) (p_columns p) tail rest final);
    [|done|done|rewrite !length_app in Hf; pose proof (length_more (p_words p)); lia].
  cbn [mbind result_bind]. rewrite <- !(assoc_L (++)). replace (S fuel - 1) with fuel by lia. done.
Qed.

(** A list of privileges starts with a word. *)
Lemma privileges_stop dynamic ps rest : Forall privilege_ok ps → ps ≠ [] → rest_stops (gap dynamic ++ privileges_text dynamic ps ++ rest).
Proof.
  intros Hps Hne. destruct dynamic; cbn [gap app]; [|intros c [= <-]; by apply space_stops].
  destruct Hps as [|p ps [[Hw1 Hw2] _] _]; [done|]. destruct (p_word p) as [|c w] eqn:E; [done|]. apply Forall_cons in Hw2 as [Hc _].
  assert (head (privileges_text true (p :: ps) ++ rest) = Some c) as Eh.
  { destruct ps; cbn [privileges_text]; unfold privilege_text; by rewrite E. }
  intros d Hd. rewrite Eh in Hd. injection Hd as <-. by apply token_char_facts.
Qed.

Lemma read_list fuel grant pre sp dynamic ps rest ps0 :
  blanks sp → Forall privilege_ok ps → ps ≠ [] → delimited rest → length (privileges_text dynamic ps) < fuel →
  let text := pre ++ sp ++ privileges_text dynamic ps ++ $" ON" ++ rest in
  read_privileges fuel grant (at_pos text (length pre)) ps0 =
  Ok (Some (at_pos text (length (pre ++ sp ++ privileges_text dynamic ps ++ $" ON")), ps0 ∪ whole ps)).
Proof.
  intros Hsp Hps Hne Hr. revert fuel pre sp ps0 Hsp. induction Hps as [|p ps Hp Hps IH]; [done|]. intros fuel pre sp ps0 Hsp Hf. cbn zeta.
  rewrite <- whole_cons. destruct ps as [|p' ps].
  - cbn [privileges_text] in *. rewrite <- !(assoc_L (++) (privilege_text p)). rewrite (read_one fuel grant pre sp p ps0 ($" ON") rest true) by done.
    do 3 f_equal. unfold whole. cbn. by rewrite union_empty_r_L.
  - change (privileges_text dynamic (p :: p' :: ps))
      with (privilege_text p ++ columns_text (p_columns p) ++ $"," ++ gap dynamic ++ privileges_text dynamic (p' :: ps)) in *.
    pose proof (privileges_stop dynamic (p' :: ps) ($" ON" ++ rest) Hps ltac:(done)) as Hstop.
    set (l := privileges_text dynamic (p' :: ps)) in *.
    assert (∀ X : str, (privilege_text p ++ columns_text (p_columns p) ++ $"," ++ gap dynamic ++ l) ++ X
      = privilege_text p ++ columns_text (p_columns p) ++ $"," ++ gap dynamic ++ l ++ X) as E by (intros X; by rewrite <- !(assoc_L (++))).
    rewrite !E. rewrite !length_app in Hf. change (length ($",")) with 1 in Hf.
    rewrite (read_one fuel grant pre sp p ps0 ($",") (gap dynamic ++ l ++ $" ON" ++ rest) false) by (done || rewrite length_app; lia).
    set (p2 := pre ++ sp ++ privilege_text p ++ columns_text (p_columns p) ++ $",").
    replace (pre ++ sp ++ privilege_text p ++ columns_text (p_columns p) ++ $"," ++ gap dynamic ++ l ++ $" ON" ++ rest)
      with (p2 ++ gap dynamic ++ l ++ $" ON" ++ rest) by (unfold p2; by rewrite <- !(assoc_L (++))).
    unfold l. rewrite (IH ltac:(done) (fuel - 1) p2 (gap dynamic)) by (apply gap_blanks || (fold l; lia)). fold l. unfold p2. by rewrite <- !(assoc_L (++)).
Qed.

(** ** Reading the level and the rest *)

Lemma level_text_head l : ∃ c w, level_text l = c :: w ∧ (c = "*"%char ∨ c = backtick).
Proof. destruct l; cbn [level_text]; [by eexists _, _; split; [|left]|..]; (unfold quote_identifier; eexists _, _; split; [done|by right]). Qed.

Lemma level_caseeq l : str_caseeq (level_text l) [$"FUNCTION"; $"PROCEDURE"] = false ∧ str_caseeq (level_text l) [$"TABLE"] = false.
Proof.
  destruct (level_text_head l) as (c & w & -> & Hc).
  assert (∀ d t, d ∈ $"FPT" → str_caseeq (c :: w) [d :: t] = false) as H.
  { intros d t Hd. apply caseeq_head. destruct Hc as [->| ->]; revert Hd; clear; by_bytes d. }
  unfold str_caseeq in *. cbn [existsb] in *. split.
  - pose proof (H "F"%char ($"UNCTION") ltac:(by apply (bool_decide_unpack _))) as H1.
    pose proof (H "P"%char ($"ROCEDURE") ltac:(by apply (bool_decide_unpack _))) as H2. rewrite orb_false_r in *.
    change ($"FUNCTION") with ("F"%char :: $"UNCTION"). change ($"PROCEDURE") with ("P"%char :: $"ROCEDURE"). by rewrite H1, H2.
  - exact (H "T"%char ($"ABLE") ltac:(by apply (bool_decide_unpack _))).
Qed.

Lemma next_level pre sp l rest :
  blanks sp → delimited rest →
  next_token (at_pos (pre ++ sp ++ level_text l ++ rest) (length pre)) =
  Ok (at_pos (pre ++ sp ++ level_text l ++ rest) (length (pre ++ sp ++ level_text l)), level_text l).
Proof.
  intros Hsp Hr. assert (head rest ≠ Some backtick ∧ head rest ≠ Some "."%char) as [H1 H2].
  { split; intros E; by apply Hr in E. }
  destruct l; cbn [level_text].
  - apply next_word; [done|by split; [|repeat constructor]|done].
  - by apply next_schema_level.
  - by apply next_table_level.
Qed.

Lemma split_level l : split_priv_level (level_text l) false = Ok (level_schema l, level_table l, None).
Proof.
  destruct l as [|s|s t]; cbn [level_text level_schema level_table]; [done|..].
  - unfold split_priv_level. destruct (quoted_head s ($".*")) as [q Eq]. rewrite Eq.
    rewrite (bool_decide_eq_false_2 (backtick = _)) by done. rewrite <- Eq.
    pose proof (span_quoted_identifier [] s ($".*") false ltac:(done)) as E. cbn [app length plus] in E. rewrite E. cbn [mbind result_bind].
    rewrite bool_decide_eq_true_2 by (rewrite length_app; cbn; lia).
    change ($".*") with ("."%char :: $"*"). rewrite char_rest. rewrite bool_decide_eq_false_2 by (intros H; by apply H).
    rewrite lookup_app_r by lia. replace (_ + 1 - _) with 1 by lia. cbn [lookup list_lookup].
    change ($"*" !! 0) with (Some "*"%char). cbn match. rewrite bool_decide_eq_true_2 by done.
    cbn [mbind result_bind]. rewrite bool_decide_eq_false_2; [done|]. rewrite length_app. cbn. lia.
  - unfold split_priv_level. destruct (quoted_head s ($"." ++ quote_identifier t backtick)) as [q Eq]. rewrite Eq.
    rewrite (bool_decide_eq_false_2 (backtick = _)) by done. rewrite <- Eq.
    pose proof (span_quoted_identifier [] s ($"." ++ quote_identifier t backtick) false ltac:(done)) as E. cbn [app length plus] in E. rewrite E.
    cbn [mbind result_bind]. rewrite bool_decide_eq_true_2 by (rewrite !length_app; cbn; lia).
    change ($"." ++ quote_identifier t backtick) with ("."%char :: quote_identifier t backtick). rewrite char_rest.
    rewrite bool_decide_eq_false_2 by (intros H; by apply H). rewrite lookup_app_r by lia. replace (_ + 1 - _) with 1 by lia.
    destruct (quoted_head t []) as [q' Eq']. rewrite app_nil_r in Eq'. rewrite Eq' at 1. cbn [lookup list_lookup].
    rewrite (bool_decide_eq_false_2 (backtick = "*"%char)) by done.
    pose proof (span_quoted_identifier (quote_identifier s backtick ++ $".") t [] false ltac:(done)) as E2. rewrite app_nil_r, <- (assoc_L (++)), length_app in E2.
    change ($"." ++ quote_identifier t backtick) with ("."%char :: quote_identifier t backtick) in E2. change (length ($".")) with 1 in E2. rewrite E2.
    cbn [mbind result_bind]. rewrite bool_decide_eq_false_2; [done|]. rewrite length_app. cbn. lia.
Qed.

Lemma quoted_not_grant name : str_caseeq (quote_identifier name backtick) [$"GRANT"] = false.
Proof. by apply (quoted_caseeq name "G"%char ($"RANT")). Qed.

Ltac next_plain_word :=
  rewrite next_word; [|apply blank_space|by split; [|repeat constructor]|by intros ? [= <-]].

Lemma valid_at pre rest : rest ≠ [] → valid (at_pos (pre ++ rest) (length pre)) = true.
Proof. intros H. destruct rest; [done|]. apply valid_rest. Qed.

Abbreviation quoted_name n := (quote_identifier n backtick).

(** The rest of the statement. *)
Lemma grant_option_rest fuel pre (revoke : bool) g :
  has_grant_option_loop (7 + fuel) (at_pos (pre ++ (if revoke then $" FROM " else $" TO ") ++ account_text g) (length pre)) = Ok (g_option g).
Proof.
  set (kw := if revoke then $"FROM" else $"TO").
  set (opt := if g_option g then $" WITH GRANT OPTION" else []).
  assert ((if revoke then $" FROM " else $" TO ") ++ account_text g = $" " ++ kw ++ $" " ++ quoted_name (g_user g) ++ "@"%char :: quoted_name (g_host g) ++ opt) as ->
    by (unfold kw, account_text; by destruct revoke).
  assert (head opt ≠ Some backtick ∧ head opt ≠ Some "."%char) as [Ho1 Ho2] by (unfold opt; by destruct (g_option g)).
  change (7 + fuel) with (S (6 + fuel)). cbn [has_grant_option_loop]. rewrite valid_at by done.
  rewrite (next_word pre ($" ") kw); [|apply blank_space|unfold kw; destruct revoke; by split; [|repeat constructor]|by intros ? [= <-]].
  cbn [mbind result_bind]. assert (str_caseeq kw [$"GRANT"] = false) as -> by (unfold kw; by destruct revoke).
  change (6 + fuel) with (S (5 + fuel)). cbn [has_grant_option_loop].
  rewrite (assoc_L (++) ($" ") kw), (assoc_L (++) pre). rewrite valid_at by done.
  rewrite (next_quoted (pre ++ $" " ++ kw) ($" ") (g_user g) ("@"%char :: quoted_name (g_host g) ++ opt)) by (done || apply blank_space).
  cbn [mbind result_bind]. rewrite quoted_not_grant.
  change (5 + fuel) with (S (4 + fuel)). cbn [has_grant_option_loop]. rewrite (assoc_L (++) ($" ") (quoted_name (g_user g))), (assoc_L (++) (pre ++ $" " ++ kw)).
  rewrite valid_at by done. assert (rest_stops (quoted_name (g_host g) ++ opt)) as Hstop.
  { destruct (quoted_head (g_host g) opt) as [q ->]. intros c [= <-]. by apply (bool_decide_unpack _). }
  pose proof (next_separator ((pre ++ $" " ++ kw) ++ $" " ++ quoted_name (g_user g)) [] "@"%char (quoted_name (g_host g) ++ opt) (Forall_nil_2 _) eq_refl Hstop) as Hsep.
  cbn [app] in Hsep. rewrite Hsep.
  cbn [mbind result_bind]. 
  assert (str_caseeq ["@"%char] [$"GRANT"] = false) as -> by done. change (4 + fuel) with (S (3 + fuel)). cbn [has_grant_option_loop].
  cbn [app]. set (p3 := ((pre ++ $" " ++ kw) ++ $" " ++ quoted_name (g_user g)) ++ ["@"%char]).
  replace (((pre ++ $" " ++ kw) ++ $" " ++ quoted_name (g_user g)) ++ "@"%char :: quoted_name (g_host g) ++ opt) with (p3 ++ [] ++ quoted_name (g_host g) ++ opt) by (unfold p3; by rewrite <- !(assoc_L (++))).
  rewrite valid_at by (destruct (quoted_head (g_host g) opt) as [q Eq]; cbn [app]; by rewrite Eq).
  rewrite (next_quoted p3 [] (g_host g) opt) by (done || constructor). cbn [mbind result_bind]. rewrite quoted_not_grant.
  cbn [app]. unfold opt. destruct (g_option g).
  - change (3 + fuel) with (S (2 + fuel)). cbn [has_grant_option_loop]. rewrite (assoc_L (++) p3 (quoted_name (g_host g))). rewrite valid_at by done.
    change ($" WITH GRANT OPTION") with ($" " ++ $"WITH" ++ $" " ++ $"GRANT" ++ $" " ++ $"OPTION" ++ []).
    next_plain_word. cbn [mbind result_bind]. assert (str_caseeq ($"WITH") [$"GRANT"] = false) as -> by done.
    change (2 + fuel) with (S (1 + fuel)). cbn [has_grant_option_loop].
    rewrite (assoc_L (++) ($" ") ($"WITH")), (assoc_L (++) (p3 ++ quoted_name (g_host g))). rewrite valid_at by done.
    next_plain_word. cbn [mbind result_bind]. assert (str_caseeq ($"GRANT") [$"GRANT"] = true) as -> by done.
    rewrite (assoc_L (++) ($" ") ($"GRANT")), (assoc_L (++) ((p3 ++ quoted_name (g_host g)) ++ $" " ++ $"WITH")).
    rewrite next_word; [done|apply blank_space|by split; [|repeat constructor]|done].
  - change (3 + fuel) with (S (2 + fuel)). cbn [has_grant_option_loop]. rewrite app_nil_r. by rewrite valid_end.
Qed.

(** ** The statement *)

Definition granted_set (u : User_privileges) (g : Grant) : gset str :=
  match g_privileges g with
  | None => all_privileges_at u (level_schema (g_level g)) (level_table (g_level g))
  | Some ps => whole ps
  end.

(** What a row means for the account. *)
Definition stored (u : User_privileges) (g : Grant) : User_privileges :=
  let wild := is_wildcard_privilege_level u (level_schema (g_level g)) (level_table (g_level g)) in
  let target := if g_option g then (if wild then Grantable_wildcard else Grantable)
                else if wild then Granted_wildcard else if g_revoke g then Revoked else Granted in
  let level := if wild then level_schema (g_level g) else level_text (g_level g) in
  if bool_decide (granted_set u g = ∅) then u else add_privileges target level (granted_set u g) u.

(** Rows as the server writes them: ALL PRIVILEGES is not partially revoked, a list of
    privileges is not empty, is not ALL PRIVILEGES, and is not PROXY. *)
Definition grant_ok (g : Grant) : Prop :=
  match g_privileges g with
  | None => g_revoke g = false
  | Some ps => Forall privilege_ok ps ∧ ps ≠ [] ∧ is_proxy (whole ps) = false ∧
               str_ibeginswith_pair (show_grant g) k_grant_all = false
  end.

Lemma parse_level_ok fuel u pre sp g (grant_all : bool) ps :
  blanks sp → (if grant_all then all_privileges_at u (level_schema (g_level g)) (level_table (g_level g)) else ps) = granted_set u g →
  parse_level (7 + fuel) u (at_pos (pre ++ sp ++ level_text (g_level g) ++ (if g_revoke g then $" FROM " else $" TO ") ++ account_text g) (length pre))
    (if g_revoke g then Revoked else Granted) grant_all ps = Ok (stored u g).
Proof.
  intros Hsp Hps. unfold parse_level. rewrite next_level; [|done|destruct (g_revoke g); by intros ? [= <-]]. cbn [mbind result_bind].
  destruct (level_caseeq (g_level g)) as [-> ->]. cbn [mbind result_bind]. rewrite split_level. cbn [mbind result_bind].
  rewrite !(assoc_L (++) pre), (assoc_L (++) (pre ++ sp)). rewrite grant_option_rest. cbn [mbind result_bind]. rewrite Hps. unfold stored. by case_bool_decide.
Qed.

Lemma account_text_nonempty g : account_text g ≠ [].
Proof. unfold account_text, quote_identifier. done. Qed.

Lemma fuel_enough g : ∃ n, S (S (length (show_grant g))) = 7 + n.
Proof.
  exists (length (show_grant g) - 5). assert (5 ≤ length (show_grant g)) as H; [|lia].
  unfold show_grant. rewrite length_app. destruct (g_revoke g); cbn; lia.
Qed.

(** A row is parsed as what it means. *)
Lemma parse_grant_ok u g : grant_ok g → parse_grant (show_grant g) u = Ok (stored u g).
Proof.
  intros Hg. unfold parse_grant. destruct (fuel_enough g) as [n Hn]. rewrite Hn.
  set (tail := (if g_revoke g then $" FROM " else $" TO ") ++ account_text g).
  set (kw := if g_revoke g then $"REVOKE" else $"GRANT").
  set (mid := match g_privileges g with None => $"ALL PRIVILEGES" | Some ps => privileges_text (g_dynamic g) ps end).
  assert (show_grant g = [] ++ [] ++ kw ++ $" " ++ mid ++ $" ON" ++ $" " ++ level_text (g_level g) ++ tail) as Etext by done.
  rewrite start_stops.
  2: { rewrite Etext. unfold kw. intros c Hc. destruct (g_revoke g); injection Hc as <-; by apply (bool_decide_unpack _). }
  cbn [mbind result_bind]. rewrite Etext at 1. change (at_pos ?s 0) with (at_pos s (length (@nil ascii))).
  rewrite next_word; [|constructor|unfold kw; destruct (g_revoke g); by split; [|repeat constructor]|by intros ? [= <-]].
  cbn [mbind result_bind]. cbn [app] in *.
  assert (str_caseeq kw [$"GRANT"] = negb (g_revoke g) ∧ str_caseeq kw [$"REVOKE"] = g_revoke g) as [-> ->] by (unfold kw; by destruct (g_revoke g)).
  unfold grant_ok in Hg. destruct (g_privileges g) as [ps|] eqn:Eps.
  - destruct Hg as (Hok & Hne & Hproxy & Hall). rewrite Hall.
    assert (length (privileges_text (g_dynamic g) ps) < 7 + n) as Hlen by (rewrite <- Hn, Etext; unfold mid; rewrite !length_app; lia).
    assert (∀ grant, read_privileges (7 + n) grant (at_pos (kw ++ $" " ++ mid ++ $" ON" ++ $" " ++ level_text (g_level g) ++ tail) (length kw)) ∅ =
      Ok (Some (at_pos (kw ++ $" " ++ mid ++ $" ON" ++ $" " ++ level_text (g_level g) ++ tail) (length (kw ++ $" " ++ mid ++ $" ON")),
                ∅ ∪ whole ps))) as Hread by (intros grant; unfold mid; apply read_list; [apply blank_space|done|done|by intros ? [= <-]|done]).
    rewrite union_empty_l_L in Hread.
    pose proof (parse_level_ok n u (kw ++ $" " ++ mid ++ $" ON") ($" ") g false (whole ps) blank_space ltac:(unfold granted_set; by rewrite Eps)) as Hlevel.
    rewrite <- !(assoc_L (++)) in Hlevel. fold tail in Hlevel.
    destruct (g_revoke g); cbn [negb]; rewrite Hread; cbn [mbind result_bind]; rewrite Hproxy; exact Hlevel.
  - pose proof (parse_level_ok n u ($"GRANT ALL PRIVILEGES ON ") [] g true ∅ (Forall_nil_2 _) ltac:(unfold granted_set; by rewrite Eps)) as Hlevel.
    fold tail in Hlevel. rewrite Hg in *. cbn [negb]. rewrite Etext.
    assert (kw ++ $" " ++ mid ++ $" ON" ++ $" " ++ level_text (g_level g) ++ tail = k_grant_all ++ level_text (g_level g) ++ tail) as ->
      by (unfold kw, mid; rewrite ?Hg, ?Eps; done).
    rewrite ibeginswith_app. exact Hlevel.
Qed.

(** ** Rows of other kinds *)

Definition account : Type := str * str.

Definition name_text (a : account) : str := quoted_name a.1 ++ $"@" ++ quoted_name a.2.

(** All the rows: the other ones are of roles, for proxies, and of privileges on functions
    ([true]) and procedures. *)
Inductive Row :=
| Privileges_row (g : Grant)
| Role_row (role : account) (roles : list account) (to : account) (admin : bool)
| Proxy_row (proxied to : account) (option : bool)
| Routine_row (ps : list Privilege) (function : bool) (schema name : str) (to : account) (option : bool).

Definition to_text (to : account) (option : bool) : str :=
  $" TO " ++ name_text to ++ (if option then $" WITH GRANT OPTION" else []).

Definition show_row (r : Row) : str :=
  match r with
  | Privileges_row g => show_grant g
  | Role_row role roles to admin =>
      $"GRANT " ++ name_text role ++ concat ((λ a, $"," ++ name_text a) <$> roles) ++
      $" TO " ++ name_text to ++ (if admin then $" WITH ADMIN OPTION" else [])
  | Proxy_row proxied to option => $"GRANT PROXY ON " ++ name_text proxied ++ to_text to option
  | Routine_row ps function schema name to option =>
      $"GRANT " ++ privileges_text false ps ++ $" ON " ++ (if function then $"FUNCTION " else $"PROCEDURE ") ++
      quoted_name schema ++ $"." ++ quoted_name name ++ to_text to option
  end.

(** The names of privileges on routines are words, as those of other privileges. *)
Definition other_ok (r : Row) : Prop :=
  match r with
  | Routine_row ps _ _ _ _ _ => Forall privilege_ok ps ∧ ps ≠ [] ∧ str_ibeginswith_pair (show_row r) k_grant_all = false
  | _ => True
  end.

(** A name inside of a list of roles. *)
Lemma quoted_not_separator name (grant : bool) :
  str_caseeq (quoted_name name) [if grant then $"TO" else $"FROM"] = false ∧ str_caseeq (quoted_name name) [$"("] = false ∧
  str_caseeq (quoted_name name) [$","] = false ∧ str_caseeq (quoted_name name) [$"ON"] = false.
Proof.
  split_and!; [destruct grant; [by apply (quoted_caseeq name "T"%char ($"O"))|by apply (quoted_caseeq name "F"%char ($"ROM"))]
    |by apply (quoted_caseeq name "("%char [])|by apply (quoted_caseeq name ","%char [])|by apply (quoted_caseeq name "O"%char ($"N"))].
Qed.

(** The name of a role up to what follows it, which is read with fuel [fuel]. *)
Lemma read_role fuel pre sp (a : account) rest ps0 :
  blanks sp → head rest ≠ Some backtick → head rest ≠ Some "."%char →
  let text := pre ++ sp ++ name_text a ++ rest in
  ∃ acc, read_privileges (S (S (S fuel))) true (at_pos text (length pre)) ps0 =
    (r ← read_privilege (S fuel) true (at_pos text (length (pre ++ sp ++ name_text a))) acc true;
     match r with
     | None => Ok None
     | Some (it, privilege, add_privilege, all_privileges_done) =>
         let privileges := if add_privilege : bool then ps0 ∪ {[privilege]} else ps0 in
         if all_privileges_done : bool then Ok (Some (it, privileges)) else read_privileges (S (S fuel)) true it privileges
     end).
Proof.
  destruct a as [user host]. intros Hsp H1 H2. cbn zeta. eexists. cbn [read_privileges]. unfold name_text. cbn [fst snd].
  rewrite <- !(assoc_L (++) (quoted_name user)).
  rewrite (next_quoted pre sp user (($"@" ++ quoted_name host) ++ rest)) by done. cbn [mbind result_bind].
  cbn [read_privilege]. set (p1 := pre ++ sp ++ quoted_name user).
  replace (pre ++ sp ++ quoted_name user ++ ($"@" ++ quoted_name host) ++ rest) with (p1 ++ "@"%char :: quoted_name host ++ rest)
    by (unfold p1; by rewrite <- !(assoc_L (++))).
  assert (rest_stops (quoted_name host ++ rest)) as Hstop.
  { destruct (quoted_head host rest) as [q ->]. intros c [= <-]. by apply (bool_decide_unpack _). }
  rewrite (next_comma p1 "@"%char (quoted_name host ++ rest)) by done. cbn [mbind result_bind].
  assert (str_caseeq ["@"%char] [$"TO"] = false ∧ str_caseeq ["@"%char] [$"("] = false) as (-> & ->) by done. cbn [mbind result_bind].
  assert (str_caseeq ["@"%char] [$","] = false ∧ str_caseeq ["@"%char] [$"ON"] = false) as (-> & ->) by done. cbn [mbind result_bind negb andb].
  set (p2 := p1 ++ ["@"%char]).
  replace (p1 ++ "@"%char :: quoted_name host ++ rest) with (p2 ++ [] ++ quoted_name host ++ rest) by (unfold p2; by rewrite <- !(assoc_L (++))).
  rewrite (next_quoted p2 [] host rest) by (done || constructor). cbn [mbind result_bind].
  destruct (quoted_not_separator host true) as (E1 & E2 & E3 & E4). rewrite E1, E2. cbn [mbind result_bind]. rewrite E3, E4. cbn [negb andb].
  unfold p2, p1. cbn [app]. rewrite <- !(assoc_L (++)). reflexivity.
Qed.

Lemma read_roles fuel pre sp a roles rest ps0 :
  blanks sp → delimited rest → length roles < fuel →
  read_privileges (S (S (S fuel))) true
    (at_pos (pre ++ sp ++ name_text a ++ concat ((λ a, $"," ++ name_text a) <$> roles) ++ $" TO" ++ rest) (length pre)) ps0 = Ok None.
Proof.
  intros Hsp Hr. revert fuel pre sp a ps0 Hsp. induction roles as [|b roles IH]; intros fuel pre sp a ps0 Hsp Hf; cbn [fmap list_fmap concat].
  - destruct (read_role fuel pre sp a ($" TO" ++ rest) ps0) as [acc E]; [done..|]. cbn [app] in *. rewrite E. cbn [read_privilege].
    change ($" TO" ++ rest) with ($" " ++ $"TO" ++ rest). rewrite !(assoc_L (++) sp), !(assoc_L (++) pre).
    cbn [mbind result_bind]. rewrite (next_word ((pre ++ sp) ++ name_text a) ($" ") ($"TO") rest); [done|apply blank_space|by split; [|repeat constructor]|done].
  - rewrite <- !(assoc_L (++) ($",")). set (more := name_text b ++ concat ((λ a, $"," ++ name_text a) <$> roles)).
    destruct (read_role fuel pre sp a ($"," ++ more ++ $" TO" ++ rest) ps0) as [acc E]; [done..|]. rewrite E. cbn [read_privilege].
    set (p1 := pre ++ sp ++ name_text a).
    replace (pre ++ sp ++ name_text a ++ $"," ++ more ++ $" TO" ++ rest) with (p1 ++ ","%char :: more ++ $" TO" ++ rest)
      by (unfold p1; by rewrite <- !(assoc_L (++))).
    assert (rest_stops (more ++ $" TO" ++ rest)) as Hstop.
    { unfold more, name_text. rewrite <- !(assoc_L (++) (quoted_name b.1)).
      match goal with |- rest_stops (_ ++ ?r) => destruct (quoted_head b.1 r) as [q ->] end. intros c [= <-]. by apply (bool_decide_unpack _). }
    rewrite (next_comma p1 ","%char (more ++ $" TO" ++ rest)) by done. cbn [mbind result_bind].
    assert (str_caseeq [","%char] [$"TO"] = false ∧ str_caseeq [","%char] [$"("] = false) as (-> & ->) by done. cbn [mbind result_bind].
    assert (str_caseeq [","%char] [$","] = true ∧ str_caseeq [","%char] [$"ON"] = false) as (-> & ->) by done. cbn [mbind result_bind negb andb].
    destruct fuel as [|fuel]; [lia|]. cbn [length] in Hf.
    replace (p1 ++ ","%char :: more ++ $" TO" ++ rest) with ((p1 ++ [","%char]) ++ [] ++ name_text b ++ concat ((λ a, $"," ++ name_text a) <$> roles) ++ $" TO" ++ rest)
      by (unfold more; by rewrite <- !(assoc_L (++))).
    apply IH; [constructor|lia].
Qed.

(** The beginning of a row that grants something other than all privileges. *)
Lemma parse_grant_read u s rest :
  s = $"GRANT " ++ rest → str_ibeginswith_pair s k_grant_all = false →
  parse_grant s u =
  (r ← read_privileges (S (S (length s))) true (at_pos ($"GRANT" ++ $" " ++ rest) (length ($"GRANT"))) ∅;
   match r with
   | None => Ok u
   | Some (it, privileges) => if is_proxy privileges then Ok u else parse_level (S (S (length s))) u it Granted false privileges
   end).
Proof.
  intros Es Hall. unfold parse_grant. rewrite start_stops.
  2: { rewrite Es. intros c [= <-]. by apply (bool_decide_unpack _). }
  cbn [mbind result_bind]. rewrite Hall. assert (s = [] ++ [] ++ $"GRANT" ++ $" " ++ rest) as E by done. rewrite E at 1.
  change (at_pos ?t 0) with (at_pos t (length (@nil ascii))).
  rewrite next_word; [|constructor|by split; [|repeat constructor]|by intros ? [= <-]]. done.
Qed.

Lemma name_text_head a rest : ∃ q, name_text a ++ rest = backtick :: q.
Proof. unfold name_text. rewrite <- (assoc_L (++)). apply quoted_head. Qed.

Lemma not_all c q : bool_decide (tolower c = tolower "A"%char) = false → str_ibeginswith_pair ($"GRANT " ++ c :: q) k_grant_all = false.
Proof.
  intros Hc. unfold str_ibeginswith_pair. destruct (bool_decide (_ < _)); [done|].
  change ((if bool_decide (tolower c = tolower "A"%char) then
    if bool_decide (c = "000"%char) then true else strncasecmp_eq q ($"LL PRIVILEGES ON ") (length ($"LL PRIVILEGES ON ")) else false) = false).
  by rewrite Hc.
Qed.

(** Rows of other kinds are skipped. *)
Lemma parse_other u r : other_ok r → (∀ g, r ≠ Privileges_row g) → parse_grant (show_row r) u = Ok u.
Proof.
  intros Hr Hg. destruct r as [g|role roles to admin|proxied to option|ps function schema name to option]; [by destruct (Hg g)|..].
  - unfold show_row. set (opt := if admin then _ else _). set (list := concat _).
    rewrite (parse_grant_read u _ (name_text role ++ list ++ $" TO " ++ name_text to ++ opt)); [|done|].
    2: { destruct (name_text_head role (list ++ $" TO " ++ name_text to ++ opt)) as [q ->]. by apply not_all. }
    set (n := length _). change ($" TO " ++ name_text to ++ opt) with ($" TO" ++ $" " ++ name_text to ++ opt).
    assert (∃ m, S (S n) = S (S (S m)) ∧ length roles < m) as (m & -> & Hm).
    { exists (n - 1). assert (2 + length roles ≤ n) as Hn; [|lia]. unfold n. rewrite !length_app.
      assert (length roles ≤ length list) as Hl.
      { unfold list. clear. induction roles as [|a roles IH]; [done|]. cbn [fmap list_fmap concat length]. rewrite !length_app.
        change (length ($",")) with 1. lia. }
      change (length ($"GRANT ")) with 6. lia. }
    unfold list. rewrite (read_roles m ($"GRANT") ($" ") role roles); [done|apply blank_space|by intros ? [= <-]|done].
  - unfold show_row. set (tail := name_text proxied ++ to_text to option). set (p := {| p_word := $"PROXY"; p_words := []; p_columns := [] |}).
    rewrite (parse_grant_read u _ (privileges_text false [p] ++ $" ON" ++ $" " ++ tail)); [|done|by apply (not_all "P"%char)].
    rewrite (read_list _ true ($"GRANT") ($" ") false [p] ($" " ++ tail) ∅); [|apply blank_space|constructor; [split; [by split; [|repeat constructor]|constructor]|constructor]|done|by intros ? [= <-]|rewrite length_app; cbn; lia].
    cbn [mbind result_bind]. assert (is_proxy (∅ ∪ whole [p]) = true) as -> by (vm_compute; reflexivity). done.
  - destruct Hr as (Hps & Hne & Hall). set (kw := if function then $"FUNCTION" else $"PROCEDURE").
    set (tail := quoted_name schema ++ $"." ++ quoted_name name ++ to_text to option).
    rewrite (parse_grant_read u _ (privileges_text false ps ++ $" ON" ++ $" " ++ kw ++ $" " ++ tail)); [|unfold kw; by destruct function|done].
    rewrite (read_list _ true ($"GRANT") ($" ") false ps ($" " ++ kw ++ $" " ++ tail) ∅);
      [|apply blank_space|done|done|by intros ? [= <-]|unfold show_row; rewrite !length_app; lia].
    cbn [mbind result_bind]. destruct (is_proxy _); [done|]. unfold parse_level.
    set (p2 := $"GRANT" ++ $" " ++ privileges_text false ps ++ $" ON").
    replace ($"GRANT" ++ $" " ++ privileges_text false ps ++ $" ON" ++ $" " ++ kw ++ $" " ++ tail) with (p2 ++ $" " ++ kw ++ $" " ++ tail)
      by (unfold p2; by rewrite <- !(assoc_L (++))).
    rewrite (next_word p2 ($" ") kw); [|apply blank_space|unfold kw; destruct function; by split; [|repeat constructor]|by intros ? [= <-]].
    cbn [mbind result_bind]. unfold kw. by destruct function.
Qed.
