(* ===== verification/PrivilegeLevelsFacts.v ===== *)
(** * Privileges of users: what is missing

    The privileges that [validate] reports as missing are those that no row of SHOW GRANTS
    covers at the level of the server, of the schema or of the table, or that are revoked. *)
From Stdlib Require Import Sorting.Sorted.
From S2P Require Import Prelude UtilsString UtilsStringFacts Lexing SqlString SqlStringFacts SqlTokensFacts SqlWild UtilsGeneral UtilsGeneralFacts UserPrivileges UserPrivilegesFacts.

Open Scope nat_scope.

(** ** Levels *)





(** ** Patterns in their order *)








(** ** What the rows cover *)

Section rows.
Context (u0 : User_privileges).





















(** ** Looking privileges up *)









(** ** Required privileges *)










End rows.

(** ** An example *)

Definition sample_user : User_privileges :=
  {| m_user := $"u"; m_host := $"%"; m_account := $"'u'@'%'"; m_user_exists := true; m_grantable_privileges := no_privileges;
     m_privileges := no_privileges; m_revoked_privileges := ∅; m_roles := []; m_all_privileges := {[$"SELECT"; $"CREATE VIEW"; $"DROP"]};
     m_partial_revokes := false |}.

Definition privilege (w : str) (ws columns : list str) : Privilege := {| p_word := w; p_words := ws; p_columns := columns |}.

Definition sample_grants : list Grant :=
  [{| g_revoke := false; g_privileges := Some [privilege ($"SELECT") [] []; privilege ($"CREATE") [$"VIEW"] []]; g_dynamic := false; g_level := Server; g_user := $"u"; g_host := $"%"; g_option := false |};
   {| g_revoke := false; g_privileges := None; g_dynamic := false; g_level := Schema ($"my\_db"); g_user := $"u"; g_host := $"%"; g_option := true |};
   {| g_revoke := false; g_privileges := Some [privilege ($"DROP") [] []; privilege ($"INSERT") [] [$"c"; $"d"]]; g_dynamic := false;
      g_level := Table ($"a`b") ($"t"); g_user := $"u"; g_host := $"%"; g_option := false |};
   {| g_revoke := false; g_privileges := Some [privilege ($"ROLE_ADMIN") [] []; privilege ($"XA_RECOVER_ADMIN") [] []]; g_dynamic := true;
      g_level := Server; g_user := $"u"; g_host := $"%"; g_option := false |}].

Definition sample_rows : list Row :=
  (Privileges_row <$> sample_grants) ++
  [Role_row ($"r", $"%") [($"s", $"%")] ($"u", $"%") false;
   Proxy_row ([], []) ($"u", $"%") true;
   Routine_row [privilege ($"ALTER") [$"ROUTINE"] []] true ($"db") ($"f") ($"u", $"%") false].




(** What is missing on two schemas. *)
Lemma sample_missing :
  match parse_grants (show_row <$> sample_rows) sample_user with
  | Ok u => (λ r, elements (m_missing_privileges r)) <$> validate u {[$"drop"; $"Select"]} ($"my_db") k_wildcard = Ok [] ∧
            (λ r, elements (m_missing_privileges r)) <$> validate u {[$"drop"; $"Select"]} ($"myxdb") k_wildcard = Ok [$"DROP"]
  | Throw _ => False
  end.
Proof. vm_compute. split; reflexivity. Qed.

(** Rows with and without the grant option are looked up apart: a pattern with the option
    counts although there is a row for the schema itself. *)
Lemma pattern_beside_schema :
  match parse_grants [$"GRANT SELECT ON `db`.* TO `u`@`%`"; $"GRANT DROP ON `d%`.* TO `u`@`%` WITH GRANT OPTION"] sample_user,
        parse_grants [$"GRANT SELECT ON `db`.* TO `u`@`%`"; $"GRANT DROP ON `d%`.* TO `u`@`%`"] sample_user with
  | Ok u1, Ok u2 => has_missing_privileges <$> validate u1 {[$"DROP"]} ($"db") k_wildcard = Ok false ∧
                    has_missing_privileges <$> validate u2 {[$"DROP"]} ($"db") k_wildcard = Ok true
  | _, _ => False
  end.
Proof. vm_compute. split; reflexivity. Qed.
