(* ===== verification/ScriptValue.v ===== *)
(** * Values of the scripting layer

    Model of [mysqlshdk/scripting/types.cc] and [mysqlshdk/include/scripting/types.h]: the
    type [Value] with its conversions, the text [repr] and [descr] give for a value, and the
    parser [Value::parse], which reads JSON as well.

    A value is a tree; the shared pointers of arrays and maps are their contents, since the
    functions of this file read them or build new ones.  Floating point numbers, bridged
    objects and functions are the class [Scripting]: of a number the code needs its texts and
    whether it is an integer. *)
From S2P Require Import Prelude UtilsString GtidUtils StdMap.

Open Scope Z_scope.

#[local] Set Warnings "-register-all".

Class Scripting := {
  double : Type;
  stod : str → result double;             (* std::stod of a number the parser accepts *)
  format_g : double → str;                (* printf of %g *)
  dtoa : double → str;
  double_integer : double → option Z;     (* the integer it is, if it is one *)
  object : Type;
  object_repr : object → str;
  object_descr : object → Z → ascii → str;
  function : Type;
  function_repr : function → str;
  function_descr : function → Z → ascii → str }.

(** ** Types *)

Inductive Value_type :=
  | Undefined_t | Null_t | Bool_t | String_t | Integer_t | UInteger_t | Float_t
  | Object_t | Array_t | Map_t | Function_t | Binary_t.

#[global] Instance Value_type_eq_dec : EqDecision Value_type.
Proof. solve_decision. Defined.

Definition type_index (t : Value_type) : nat :=
  match t with
  | Undefined_t => 0 | Null_t => 1 | Bool_t => 2 | String_t => 3 | Integer_t => 4 | UInteger_t => 5
  | Float_t => 6 | Object_t => 7 | Array_t => 8 | Map_t => 9 | Function_t => 10 | Binary_t => 11
  end%nat.

Definition type_name (t : Value_type) : string :=
  match t with
  | Undefined_t => "Undefined" | Null_t => "Null" | Bool_t => "Bool" | Integer_t => "Integer"
  | UInteger_t => "UInteger" | Float_t => "Float" | String_t => "String" | Object_t => "Object"
  | Array_t => "Array" | Map_t => "Map" | Function_t => "Function" | Binary_t => "Binary"
  end.

(** Rows are the types to convert from, columns those to convert to. *)
Definition kTypeConvertible : list (list bool) :=
  let T := true in let F := false in
  [ [T; F; F; F; F; F; F; F; F; F; F; F];
    [T; T; F; F; F; F; F; T; T; T; T; F];
    [T; F; T; F; T; T; T; F; F; F; F; F];
    [T; F; T; T; T; T; T; F; F; F; F; T];
    [T; F; T; F; T; T; T; F; F; F; F; F];
    [T; F; T; F; T; T; T; F; F; F; F; F];
    [T; F; T; F; T; T; T; F; F; F; F; F];
    [T; F; F; F; F; F; F; T; F; F; F; F];
    [T; F; F; F; F; F; F; F; T; F; F; F];
    [T; F; F; F; F; F; F; F; F; T; F; F];
    [T; F; F; F; F; F; F; F; F; F; T; F];
    [T; F; F; T; F; F; F; F; F; F; F; T] ].

Definition is_compatible_type (source_type target_type : Value_type) : bool :=
  nth (type_index target_type) (nth (type_index source_type) kTypeConvertible []) false.

Section value.
Context `{Scripting}.

(** ** Values *)

Inductive value :=
  | VUndefined
  | VNull
  | VBool (b : bool)
  | VString (s : str)
  | VInteger (z : Z)          (* int64_t *)
  | VUInteger (z : Z)         (* uint64_t *)
  | VFloat (d : double)
  | VObject (o : object)
  | VArray (l : list value)
  | VMap (m : list (str * value))
  | VFunction (f : function)
  | VBinary (s : str).

Definition get_type (v : value) : Value_type :=
  match v with
  | VUndefined => Undefined_t | VNull => Null_t | VBool _ => Bool_t | VString _ => String_t
  | VInteger _ => Integer_t | VUInteger _ => UInteger_t | VFloat _ => Float_t | VObject _ => Object_t
  | VArray _ => Array_t | VMap _ => Map_t | VFunction _ => Function_t | VBinary _ => Binary_t
  end.

Definition type_conversion_error (from expected : Value_type) : exn :=
  shcore_exception ("Invalid typecast: " +:+ type_name expected +:+ " expected, but value is " +:+ type_name from).
Definition type_range_error (from expected : Value_type) : exn :=
  shcore_exception
    ("Invalid typecast: " +:+ type_name expected +:+ " expected, but " +:+ type_name from +:+ " value is out of range").

Definition check_type (v : value) (t : Value_type) : result unit :=
  if is_compatible_type (get_type v) t then Ok tt else Throw (type_conversion_error (get_type v) t).

(** ** Conversions *)


(** [lexical_cast<int64_t>]: std::from_chars on the whole input. *)
Definition lexical_cast_int64 (s : str) : result Z :=
  let '(negative, t) := match s with c :: s' => if bool_decide (c = "-"%char) then (true, s') else (false, s) | [] => (false, []) end in
  let ds := leading_digits t in
  let z := if negative : bool then - dec_value ds 0 else dec_value ds 0 in
  if bool_decide (ds = []) || (z <? INT64_MIN) || (INT64_MAX <? z)
  then Throw (invalid_argument "Unable to perform conversion.")
  else if bool_decide (length ds ≠ length t)
  then Throw (invalid_argument "Conversion did not consume whole input.")
  else Ok z.

Definition k_mantissa : Z := 2 ^ 53.   (* 1LL << DBL_MANT_DIG *)

Definition as_int (v : value) : result Z :=
  match v with
  | VBool b => Ok (if b then 1 else 0)
  | VString s =>
      match lexical_cast_int64 s with
      | Ok z => Ok z
      | Throw _ => Throw (type_conversion_error (get_type v) Integer_t)
      end
  | VInteger z => Ok z
  | VUInteger z => if z <=? INT64_MAX then Ok z else Throw (type_range_error (get_type v) Integer_t)
  | VFloat d =>
      match double_integer d with
      | Some z => if (- k_mantissa <=? z) && (z <=? k_mantissa) then Ok z
                  else Throw (type_range_error (get_type v) Integer_t)
      | None => Throw (type_range_error (get_type v) Integer_t)
      end
  | _ => Throw (type_conversion_error (get_type v) Integer_t)
  end.

(** The visitor returns int64_t, which is converted back: the value is the same. *)
Definition as_uint (v : value) : result Z :=
  match v with
  | VBool b => Ok (if b then 1 else 0)
  | VString s =>
      match lexical_cast_uint64 s with
      | Ok z => Ok z
      | Throw _ => Throw (type_conversion_error (get_type v) UInteger_t)
      end
  | VInteger z => if 0 <=? z then Ok z else Throw (type_range_error (get_type v) UInteger_t)
  | VUInteger z => Ok z
  | VFloat d =>
      match double_integer d with
      | Some z => if (0 <=? z) && (z <=? k_mantissa) then Ok z
                  else Throw (type_range_error (get_type v) UInteger_t)
      | None => Throw (type_range_error (get_type v) UInteger_t)
      end
  | _ => Throw (type_conversion_error (get_type v) UInteger_t)
  end.

Definition value_get_string (v : value) : result str :=
  check_type v String_t ≫= λ _,
  match v with
  | VBinary s => Ok s
  | VString s => Ok s
  | _ => Throw (logic_error "bad_variant_access")
  end.

(** A null map is [None]. *)
Definition as_map (v : value) : result (option (list (str * value))) :=
  check_type v Map_t ≫= λ _,
  match v with
  | VNull => Ok None
  | VMap m => Ok (Some m)
  | _ => Throw (logic_error "bad_variant_access")
  end.

Definition as_array (v : value) : result (option (list value)) :=
  check_type v Array_t ≫= λ _,
  match v with
  | VNull => Ok None
  | VArray l => Ok (Some l)
  | _ => Throw (logic_error "bad_variant_access")
  end.

(** ** Maps *)

Abbreviation Map_type := (list (str * value)).

Definition map_get_type (m : Map_type) (k : str) : Value_type :=
  match map_at id k m with None => Undefined_t | Some v => get_type v end.

Definition map_get_string (m : Map_type) (k def : str) : result str :=
  match map_at id k m with
  | None => Ok def
  | Some v => check_type v String_t ≫= λ _, value_get_string v
  end.

Definition map_get_int (m : Map_type) (k : str) (def : Z) : result Z :=
  match map_at id k m with
  | None => Ok def
  | Some v => check_type v Integer_t ≫= λ _, as_int v
  end.

Definition map_get_uint (m : Map_type) (k : str) (def : Z) : result Z :=
  match map_at id k m with
  | None => Ok def
  | Some v => check_type v UInteger_t ≫= λ _, as_uint v
  end.

Definition merge_contents (m source : Map_type) (overwrite : bool) : Map_type :=
  foldl (λ m kv, if negb overwrite && map_has id kv.1 m then m else map_insert id kv.1 kv.2 m) m source.

(** ** Texts of values *)

(** [append_repr] of a string: what is not printable in hexadecimal. *)
Definition repr_char (c : ascii) : str :=
  if negb ((32 <=? uch c) && (uch c <? 127)) then
    [backslash; "x"%char; char_at ($"0123456789abcdef") (Z.to_nat (uch c / 16));
     char_at ($"0123456789abcdef") (Z.to_nat (uch c mod 16))]
  else if bool_decide (c = newline) then $"\n"
  else if bool_decide (uch c = 34) then [backslash; c]
  else if bool_decide (c = "'"%char) then [backslash; c]
  else if bool_decide (uch c = 7) then $"\a"
  else if bool_decide (uch c = 8) then $"\b"
  else if bool_decide (uch c = 12) then $"\f"
  else if bool_decide (uch c = 13) then $"\r"
  else if bool_decide (uch c = 9) then $"\t"
  else if bool_decide (uch c = 11) then $"\v"
  else if bool_decide (c = backslash) then [backslash; backslash]
  else [c].

Definition double_quote : ascii := "034"%char.

Definition repr_string (s : str) : str := [double_quote] ++ concat (repr_char <$> s) ++ [double_quote].

(** The elements with a comma and a space in between. *)
Definition comma_list (l : list str) : str := str_join l ($", ") id.

Fixpoint append_repr (v : value) : str :=
  match v with
  | VUndefined => $"undefined"
  | VNull => $"null"
  | VBool b => if b then $"true" else $"false"
  | VString s => repr_string s
  | VBinary s => string_to_hex s true
  | VInteger z => to_string z
  | VUInteger z => to_string z
  | VFloat d => format_g d
  | VObject o => object_repr o
  | VArray l => $"[" ++ comma_list (List.map append_repr l) ++ $"]"
  | VMap m => $"{" ++ comma_list (List.map (λ '(k, v), repr_string k ++ $": " ++ append_repr v) m) ++ $"}"
  | VFunction f => function_repr f
  end.

Definition repr (v : value) : str := append_repr v.

Definition spaces (n : Z) : str := replicate (Z.to_nat n) " "%char.

(** [indent] is negative unless the text is divided into lines; [quote_strings] is NUL for a
    string that is not quoted. *)
Fixpoint append_descr (v : value) (indent : Z) (quote_strings : ascii) : str :=
  let nl := if 0 <=? indent then [newline] else [] in
  let inner := if indent <? 0 then indent else indent + 1 in
  let margin := if 0 <=? indent then spaces ((indent + 1) * 4) else [] in
  let close := nl ++ if 0 <? indent then spaces (indent * 4) else [] in
  match v with
  | VUndefined => $"undefined"
  | VNull => $"null"
  | VBool b => if b then $"true" else $"false"
  | VString s => if bool_decide (uch quote_strings ≠ 0) then quote_string s quote_strings else s
  | VBinary s => string_to_hex s true
  | VInteger z => to_string z
  | VUInteger z => to_string z
  | VFloat d => dtoa d
  | VObject o => object_descr o indent quote_strings
  | VArray l =>
      $"[" ++ comma_list (List.map (λ v, nl ++ margin ++ append_descr v inner double_quote) l) ++
      (if bool_decide (l = []) then [] else close) ++ $"]"
  | VMap m =>
      $"{" ++ (if bool_decide (m = []) then [] else nl) ++
      str_join (List.map (λ '(k, v), margin ++ quote_string k double_quote ++ $": " ++ append_descr v inner double_quote) m)
        ($", " ++ nl) id ++
      (if bool_decide (m = []) then [] else close) ++ $"}"
  | VFunction f => function_descr f indent quote_strings
  end.

Definition descr (v : value) (pprint : bool) : str := append_descr v (if pprint then 0 else -1) "000"%char.

(** ** The parser *)

Definition parser_error (message : string) : exn := shcore_exception ("ParserError: " +:+ message).

Definition ws_char (c : ascii) : bool := (uch c =? 32) || in_range 9 13 c.

Fixpoint skip_whitespace (t : str) : str :=
  match t with
  | c :: t' => if ws_char c then skip_whitespace t' else t
  | [] => []
  end.

Definition unicode_codepoint_to_utf8 (uni : Z) : run str :=
  if uni <=? 127 then Ret [byte_of uni]
  else if uni <=? 2047 then
    Ret [byte_of (Z.lor (Z.land (Z.shiftr uni 6) 255) 192); byte_of (Z.lor (Z.land uni 63) 128)]
  else if uni <=? 65535 then
    Ret [byte_of (Z.lor (Z.land (Z.shiftr uni 12) 255) 224); byte_of (Z.lor (Z.land (Z.shiftr uni 6) 63) 128);
         byte_of (Z.lor (Z.land uni 63) 128)]
  else if 1114111 <=? uni then Raise (parser_error "Invalid unicode codepoint")
  else Ret [byte_of (Z.lor (Z.land (Z.shiftr uni 18) 255) 240); byte_of (Z.lor (Z.land (Z.shiftr uni 12) 63) 128);
            byte_of (Z.lor (Z.land (Z.shiftr uni 6) 63) 128); byte_of (Z.lor (Z.land uni 63) 128)].

(** The table [ascii_to_hex]. *)
Definition ascii_to_hex (c : ascii) : Z :=
  if isdigit c then uch c - 48
  else if in_range 65 70 c then uch c - 55
  else if in_range 97 102 c then uch c - 87
  else 0.

(** The loop that looks for the closing quote returns the text from there on.  At a
    backslash at the end of the text it removes a prefix of an empty view. *)
Fixpoint closing_quote (quote : ascii) (p : str) : run str :=
  match p with
  | [] => Ret []
  | c :: p' =>
      if bool_decide (c = quote) then Ret p
      else if bool_decide (c = backslash) then
        match p' with [] => Undefined | _ :: p'' => closing_quote quote p'' end
      else closing_quote quote p'
  end.

(** The escapes of one character. *)
Definition simple_escape (c : ascii) : option ascii :=
  if bool_decide (c = "n"%char) then Some newline
  else if bool_decide (c = double_quote) then Some double_quote
  else if bool_decide (c = "'"%char) then Some "'"%char
  else if bool_decide (c = "a"%char) then Some "007"%char
  else if bool_decide (c = "b"%char) then Some "008"%char
  else if bool_decide (c = "f"%char) then Some "012"%char
  else if bool_decide (c = "r"%char) then Some "013"%char
  else if bool_decide (c = "t"%char) then Some "009"%char
  else if bool_decide (c = "v"%char) then Some "011"%char
  else if bool_decide (c = backslash) then Some backslash
  else if bool_decide (c = "000"%char) then Some "000"%char
  else None.

Fixpoint unescape (p : str) : run str :=
  match p with
  | [] => Ret []
  | c :: p =>
      if negb (bool_decide (c = backslash)) then s ← unescape p; Ret (c :: s)
      else
        match p with
        | [] => Raise (parser_error "incorrect use of escape char")
        | c :: p =>
            match simple_escape c with
            | Some d => s ← unescape p; Ret (d :: s)
            | None =>
                if bool_decide (c = "x"%char) then
                  match p with
                  | h1 :: h2 :: p =>
                      if isxdigit h1 && isxdigit h2 then
                        s ← unescape p;
                        Ret (byte_of (Z.lor (Z.shiftl (ascii_to_hex h1) 4) (ascii_to_hex h2)) :: s)
                      else Raise (parser_error "Invalid \xXX hex escape")
                  | _ => Raise (parser_error "Invalid \xXX hex escape")
                  end
                else if bool_decide (c = "u"%char) then
                  match p with
                  | h1 :: h2 :: h3 :: h4 :: p =>
                      if isxdigit h1 && isxdigit h2 && isxdigit h3 && isxdigit h4 then
                        u ← unicode_codepoint_to_utf8
                              (Z.lor (Z.lor (Z.lor (Z.shiftl (ascii_to_hex h1) 12) (Z.shiftl (ascii_to_hex h2) 8))
                                 (Z.shiftl (ascii_to_hex h3) 4)) (ascii_to_hex h4));
                        s ← unescape p;
                        Ret (u ++ s)
                      else Raise (parser_error "Invalid \uXXXX unicode escape")
                  | _ => Raise (parser_error "Invalid \uXXXX unicode escape")
                  end
                else Raise (parser_error "Unknown escape sequence")
            end
        end
  end.

(** [pc] starts with the quote. *)
Definition parse_string (pc : str) (quote : ascii) : run (str * str) :=
  p ← closing_quote quote (drop 1 pc);
  match p with
  | [] => Raise (parser_error "missing closing quote")
  | _ :: _ =>
      let contents := substr pc 1 (length pc - length p - 1) in
      s ← unescape contents;
      Ret (s, drop (length contents + 2) pc)
  end.

(** *** Numbers *)

Inductive States := FRONT_SIGN | INT_DIGITS | DOT | FLOAT_DIGITS | EXP | EXP_SIGN | EXP_DIGITS.

#[global] Instance States_eq_dec : EqDecision States.
Proof. solve_decision. Defined.

Definition STATE_VALIDITY (s : States) : bool :=
  match s with INT_DIGITS | FLOAT_DIGITS | EXP_DIGITS => true | _ => false end.

Definition is_sign (c : ascii) : bool := bool_decide (c = "-"%char) || bool_decide (c = "+"%char).

Fixpoint skip_digits (pc : str) : str :=
  match pc with c :: pc' => if isdigit c then skip_digits pc' else pc | [] => [] end.

Definition consume_digits (target_state : States) (st : str * States) : str * States :=
  let '(pc, state) := st in
  match pc with
  | c :: _ => if isdigit c then (skip_digits pc, target_state) else (pc, state)
  | [] => (pc, state)
  end.

(** A character that is skipped and leads to a state. *)
Definition consume_char (P : ascii → bool) (target_state : States) (st : str * States) : str * States :=
  let '(pc, state) := st in
  match pc with
  | c :: pc' => if P c then (pc', target_state) else (pc, state)
  | [] => (pc, state)
  end.

Definition number_states (pcc : str) : str * States :=
  let st := consume_digits INT_DIGITS (consume_char is_sign FRONT_SIGN (pcc, INT_DIGITS)) in
  let st := if STATE_VALIDITY st.2 && bool_decide (head st.1 = Some "."%char)
            then consume_digits FLOAT_DIGITS (drop 1 st.1, DOT) else st in
  if STATE_VALIDITY st.2 && bool_decide (tolower <$> head st.1 = Some "e"%char)
  then consume_digits FLOAT_DIGITS (consume_char is_sign EXP_SIGN (drop 1 st.1, EXP)) else st.

(** std::atoll: undefined for a number that is not an int64_t. *)
Definition atoll (number : str) : run Z :=
  let '(negative, digits) :=
    match number with
    | c :: n => if bool_decide (c = "-"%char) then (true, n) else if bool_decide (c = "+"%char) then (false, n) else (false, number)
    | [] => (false, [])
    end in
  let z := if negative : bool then - dec_value (leading_digits digits) 0 else dec_value (leading_digits digits) 0 in
  if (INT64_MIN <=? z) && (z <=? INT64_MAX) then Ret z else Undefined.

Definition parse_number (pcc : str) : run (value * str) :=
  let '(pc, state) := number_states pcc in
  let number := take (length pcc - length pc) pcc in
  if negb (STATE_VALIDITY state) then Raise (parser_error "Error parsing number from")
  else if bool_decide (state = INT_DIGITS) then
    ll ← atoll number; Ret (VInteger ll, pc)
  else
    match stod number with
    | Ok d => Ret (VFloat d, pc)
    | Throw (invalid_argument _) => Raise (parser_error "Error parsing float")
    | Throw e => Raise e
    end.

(** *** Arrays and maps *)

Section containers.
Context (parse_main : str → run (value * str)).

Fixpoint map_loop (fuel : nat) (pc : str) (map : Map_type) : run (value * str) :=
  match fuel with
  | O => Diverge
  | S fuel =>
      let pc := skip_whitespace pc in
      match pc with
      | [] => Raise (parser_error "Error parsing map, unexpected end of stream.")
      | cur_char :: pc' =>
          if bool_decide (cur_char = "}"%char) then Ret (VMap map, pc')
          else if negb (bool_decide (cur_char = double_quote)) && negb (bool_decide (cur_char = "'"%char))
          then Raise (parser_error "Error parsing map, unexpected character reading key.")
          else
            kp ← parse_string pc cur_char;
            let '(key, pc) := kp in
            match skip_whitespace pc with
            | c :: pc =>
                if bool_decide (c = ":"%char) then
                  vp ← parse_main (skip_whitespace pc);
                  let '(v, pc) := vp in
                  let map := map_insert id key v map in
                  match skip_whitespace pc with
                  | [] => Raise (parser_error "Error parsing map, unexpected end of stream.")
                  | c :: pc =>
                      if bool_decide (c = "}"%char) then Ret (VMap map, skip_whitespace pc)
                      else if bool_decide (c = ","%char) then map_loop fuel (skip_whitespace pc) map
                      else Raise (parser_error "Error parsing map, unexpected item separator.")
                  end
                else Raise (parser_error "Error parsing map, unexpected item value separator.")
            | [] => Raise (parser_error "Error parsing map, unexpected item value separator.")
            end
      end
  end.

Definition parse_map (pc : str) : run (value * str) := map_loop (length pc) (drop 1 pc) [].

Fixpoint array_loop (fuel : nat) (pc : str) (array : list value) : run (value * str) :=
  match fuel with
  | O => Diverge
  | S fuel =>
      let pc := skip_whitespace pc in
      match pc with
      | [] => Raise (parser_error "Error parsing array, unexpected end of stream.")
      | c :: _ =>
          ap ← (if bool_decide (c ≠ "]"%char)
                then vp ← parse_main pc; Ret (array ++ [vp.1], vp.2)
                else Ret (array, pc));
          let '(array, pc) := ap in
          match skip_whitespace pc with
          | [] => Raise (parser_error "Error parsing array, unexpected end of stream.")
          | c :: pc =>
              if bool_decide (c = "]"%char) then Ret (VArray array, skip_whitespace pc)
              else if bool_decide (c = ","%char) then array_loop fuel (skip_whitespace pc) array
              else Raise (parser_error "Error parsing array, unexpected value separator.")
          end
      end
  end.

Definition parse_array (pc : str) : run (value * str) := array_loop (length pc) (skip_whitespace (drop 1 pc)) [].
End containers.

(** The front of an empty view is undefined. *)
Fixpoint parse_main (fuel : nat) (pc : str) : run (value * str) :=
  match fuel with
  | O => Diverge
  | S fuel =>
      match pc with
      | [] => Undefined
      | start :: _ =>
          if bool_decide (start = "{"%char) then parse_map (parse_main fuel) pc
          else if bool_decide (start = "["%char) then parse_array (parse_main fuel) pc
          else if bool_decide (start = double_quote) then
            sp ← parse_string pc double_quote; Ret (VString sp.1, sp.2)
          else if bool_decide (start = "'"%char) then
            sp ← parse_string pc "'"%char; Ret (VString sp.1, sp.2)
          else if isdigit start || is_sign start then parse_number pc
          else
            let n := default (length pc) (find_if (λ c, negb (isalpha c)) pc) in
            let token := take n pc in
            let pc := drop n pc in
            if str_caseeq_pair token ($"undefined") then Ret (VUndefined, pc)
            else if str_caseeq_pair token ($"true") then Ret (VBool true, pc)
            else if str_caseeq_pair token ($"null") then Ret (VNull, pc)
            else if str_caseeq_pair token ($"false") then Ret (VBool false, pc)
            else Raise (parser_error "Can't parse")
      end
  end.

Definition parse (s : str) : run value :=
  let pc := skip_whitespace s in
  match pc with
  | [] => Raise (parser_error "Unable to parse empty string.")
  | _ :: _ =>
      vp ← parse_main (S (length pc)) pc;
      match skip_whitespace vp.2 with
      | [] => Ret vp.1
      | _ :: _ => Raise (parser_error "Unexpected characters left at the end of document")
      end
  end.
End value.
Arguments value {_}.
