(* ===== verification/ScriptValueFacts.v ===== *)
(** * Values of the scripting layer: the parser and its grammar

    [Value::parse] accepts exactly the texts of a grammar, which is stated as a relation between
    texts and values; it ends for every text; and it reads back what [repr] writes. *)
From S2P Require Import Prelude UtilsString UtilsStringFacts GtidUtils GtidUtilsFacts StdMap ScriptValue.

Open Scope Z_scope.

(** ** The grammar *)

Definition blank (w : str) : Prop := Forall (λ c, ws_char c = true) w.
Definition digits (w : str) : Prop := w ≠ [] ∧ Forall (λ c, isdigit c = true) w.
Definition is_quote (q : ascii) : Prop := q = double_quote ∨ q = "'"%char.
Definition hex (c : ascii) : Prop := isxdigit c = true.

Definition hex2 (h1 h2 : ascii) : Z := Z.lor (Z.shiftl (ascii_to_hex h1) 4) (ascii_to_hex h2).
Definition hex4 (h1 h2 h3 h4 : ascii) : Z :=
  Z.lor (Z.lor (Z.lor (Z.shiftl (ascii_to_hex h1) 12) (Z.shiftl (ascii_to_hex h2) 8)) (Z.shiftl (ascii_to_hex h3) 4))
    (ascii_to_hex h4).

(** The text between the quotes [q], and the string it stands for. *)
Inductive string_body (q : ascii) : str → str → Prop :=
  | body_nil : string_body q [] []
  | body_plain c t s : c ≠ q → c ≠ backslash → string_body q t s → string_body q (c :: t) (c :: s)
  | body_escape c d t s : simple_escape c = Some d → string_body q t s → string_body q (backslash :: c :: t) (d :: s)
  | body_hex h1 h2 t s :
      hex h1 → hex h2 → string_body q t s →
      string_body q (backslash :: "x"%char :: h1 :: h2 :: t) (byte_of (hex2 h1 h2) :: s)
  | body_unicode h1 h2 h3 h4 u t s :
      hex h1 → hex h2 → hex h3 → hex h4 → unicode_codepoint_to_utf8 (hex4 h1 h2 h3 h4) = Ret u → string_body q t s →
      string_body q (backslash :: "u"%char :: h1 :: h2 :: h3 :: h4 :: t) (u ++ s).

Definition quoted (t s : str) : Prop := ∃ q body, is_quote q ∧ t = [q] ++ body ++ [q] ∧ string_body q body s.

(** The sign of a number. *)
Definition sign_text (w : str) : Prop := w = [] ∨ w = $"-" ∨ w = $"+".

Definition integer_text (t : str) (z : Z) : Prop :=
  ∃ w ds, sign_text w ∧ digits ds ∧ t = w ++ ds ∧ z = if bool_decide (w = $"-") then - dec_value ds 0 else dec_value ds 0.

(** The fraction or the exponent of a number, or both. *)
Definition fraction_text (t : str) : Prop := ∃ ds, digits ds ∧ t = "."%char :: ds.
Definition exponent_text (t : str) : Prop :=
  ∃ e w ds, tolower e = "e"%char ∧ sign_text w ∧ digits ds ∧ t = e :: w ++ ds.
Definition float_text (t : str) : Prop :=
  ∃ w ds f e, sign_text w ∧ digits ds ∧ t = w ++ ds ++ f ++ e ∧ (f = [] ∨ fraction_text f) ∧ (e = [] ∨ exponent_text e) ∧
    f ++ e ≠ [].

Section grammar.
Context `{Scripting}.

Definition word (t : str) (v : value) : Prop :=
  (str_lower t = $"undefined" ∧ v = VUndefined) ∨ (str_lower t = $"true" ∧ v = VBool true) ∨
  (str_lower t = $"null" ∧ v = VNull) ∨ (str_lower t = $"false" ∧ v = VBool false).

(** A map from its members: of members with the same key, the last one counts. *)
Definition of_members (l : list (str * value)) : list (str * value) := foldl (λ m kv, map_insert id kv.1 kv.2 m) [] l.

(** Texts of values, of the elements of an array and of the members of a map; a comma may
    follow the last one. *)
Inductive denotes : str → value → Prop :=
  | den_word t v : word t v → denotes t v
  | den_string t s : quoted t s → denotes t (VString s)
  | den_integer t z : integer_text t z → INT64_MIN <= z <= INT64_MAX → denotes t (VInteger z)
  | den_float t d : float_text t → stod t = Ok d → denotes t (VFloat d)
  | den_array t l : elements t l → denotes ($"[" ++ t ++ $"]") (VArray l)
  | den_map t l : members t l → denotes ($"{" ++ t ++ $"}") (VMap (of_members l))
with elements : str → list value → Prop :=
  | elem_none w : blank w → elements w []
  | elem_last w1 t w2 v : blank w1 → blank w2 → denotes t v → elements (w1 ++ t ++ w2) [v]
  | elem_more w1 t w2 v t' l :
      blank w1 → blank w2 → denotes t v → elements t' l → elements (w1 ++ t ++ w2 ++ $"," ++ t') (v :: l)
with members : str → list (str * value) → Prop :=
  | memb_none w : blank w → members w []
  | memb_last w1 w2 w3 w4 tk k t v :
      blank w1 → blank w2 → blank w3 → blank w4 → quoted tk k → denotes t v →
      members (w1 ++ tk ++ w2 ++ $":" ++ w3 ++ t ++ w4) [(k, v)]
  | memb_more w1 w2 w3 w4 tk k t v t' l :
      blank w1 → blank w2 → blank w3 → blank w4 → quoted tk k → denotes t v → members t' l →
      members (w1 ++ tk ++ w2 ++ $":" ++ w3 ++ t ++ w4 ++ $"," ++ t') ((k, v) :: l).

(** A text that is to be parsed: a value between blanks. *)
Definition document (s : str) (v : value) : Prop := ∃ w1 t w2, s = w1 ++ t ++ w2 ∧ blank w1 ∧ blank w2 ∧ denotes t v.
End grammar.

Scheme denotes_mut := Induction for denotes Sort Prop
  with elements_mut := Induction for elements Sort Prop
  with members_mut := Induction for members Sort Prop.

(** ** Blanks *)

Lemma skip_blank w t : blank w → skip_whitespace (w ++ t) = skip_whitespace t.
Proof. induction 1 as [|c w Hc _ IH]; [done|]. cbn [app skip_whitespace]. by rewrite Hc. Qed.

Lemma skip_blank_all w : blank w → skip_whitespace w = [].
Proof. intros Hw. by rewrite <- (app_nil_r w), skip_blank. Qed.

Lemma skip_head c t : ws_char c = false → skip_whitespace (c :: t) = c :: t.
Proof. intros Hc. cbn. by rewrite Hc. Qed.

Lemma skip_split t : ∃ w, t = w ++ skip_whitespace t ∧ blank w.
Proof.
  induction t as [|c t (w & E & Hw)]; cbn [skip_whitespace]; [by exists []; split; [|constructor]|].
  destruct (ws_char c) eqn:Hc; [|by exists []; split; [|constructor]].
  exists (c :: w). cbn. rewrite <- E. split; [done|by constructor].
Qed.

Lemma skip_nil t : skip_whitespace t = [] → blank t.
Proof. intros E. destruct (skip_split t) as (w & Ht & Hw). rewrite E, app_nil_r in Ht. by subst. Qed.

Lemma skip_not_ws t c t' : skip_whitespace t = c :: t' → ws_char c = false.
Proof.
  induction t as [|d t IH]; [done|]. cbn. destruct (ws_char d) eqn:E; [done|]. by intros [= <- _].
Qed.

Lemma skip_idem t : skip_whitespace (skip_whitespace t) = skip_whitespace t.
Proof. destruct (skip_whitespace t) as [|c t'] eqn:E; [done|]. apply skip_head. by eapply skip_not_ws. Qed.

Lemma blank_app w1 w2 : blank w1 → blank w2 → blank (w1 ++ w2).
Proof. apply Forall_app_2. Qed.

(** ** Strings *)

Lemma quote_facts q : is_quote q → q ≠ backslash ∧ isxdigit q = false ∧ ws_char q = false ∧ isdigit q = false ∧ is_sign q = false.
Proof. by intros [-> | ->]. Qed.

(** What the search for the closing quote skips. *)
Inductive skipped (q : ascii) : str → Prop :=
  | skipped_nil : skipped q []
  | skipped_plain c t : c ≠ q → c ≠ backslash → skipped q t → skipped q (c :: t)
  | skipped_pair c t : skipped q t → skipped q (backslash :: c :: t).

Lemma closing_quote_skipped q body rest : q ≠ backslash → skipped q body → closing_quote q (body ++ q :: rest) = Ret (q :: rest).
Proof.
  intros Hq. induction 1 as [|c t Hc Hb _ IH|c t _ IH]; cbn [app closing_quote].
  - by rewrite bool_decide_eq_true_2.
  - by rewrite !bool_decide_eq_false_2.
  - rewrite bool_decide_eq_false_2 by congruence. by rewrite bool_decide_eq_true_2.
Qed.

Lemma closing_quote_inv q p c rest : closing_quote q p = Ret (c :: rest) → c = q ∧ ∃ body, p = body ++ q :: rest ∧ skipped q body.
Proof.
  remember (length p) as n eqn:En. revert p En. induction (lt_wf n) as [n _ IH]. intros [|d p] ->; [done|]. cbn [closing_quote].
  destruct (bool_decide_reflect (d = q)) as [->|Hd].
  { intros [= <- <-]. split; [done|]. exists []. split; [done|constructor]. }
  destruct (bool_decide_reflect (d = backslash)) as [->|Hb].
  - destruct p as [|e p]; [done|]. intros Hc. destruct (IH (length p) ltac:(cbn; lia) p eq_refl Hc) as (-> & body & -> & Hs).
    split; [done|]. exists (backslash :: e :: body). split; [done|by constructor].
  - intros Hc. destruct (IH (length p) ltac:(cbn; lia) p eq_refl Hc) as (-> & body & -> & Hs).
    split; [done|]. exists (d :: body). split; [done|by constructor].
Qed.

Lemma hex_plain q h : is_quote q → hex h → h ≠ q ∧ h ≠ backslash.
Proof. intros [-> | ->] Hh; split; intros ->; by vm_compute in Hh. Qed.

Lemma skipped_hex q h t : is_quote q → hex h → skipped q (h :: t) → skipped q t.
Proof. intros Hq Hh Hs. destruct (hex_plain q h Hq Hh). by inversion Hs. Qed.

Lemma body_skipped q t s : is_quote q → string_body q t s → skipped q t.
Proof.
  intros Hq. induction 1; repeat first [apply skipped_nil | apply skipped_pair | apply skipped_plain; [by eapply hex_plain..|] | done].
  by apply skipped_plain.
Qed.

Lemma simple_escape_cases c : simple_escape c ≠ None → c ≠ "x"%char ∧ c ≠ "u"%char.
Proof. intros Hc. split; intros ->; by apply Hc. Qed.

Lemma unescape_body q t s : string_body q t s → unescape t = Ret s.
Proof.
  induction 1 as [|c t s Hq Hb _ IH|c d t s E _ IH|h1 h2 t s H1 H2 _ IH|h1 h2 h3 h4 u t s H1 H2 H3 H4 Hu _ IH]; [done|..].
  - cbn [unescape]. rewrite bool_decide_eq_false_2 by done. cbn [negb]. by rewrite IH.
  - cbn [unescape]. rewrite bool_decide_eq_true_2 by done. cbn [negb]. by rewrite E, IH.
  - cbn -[Z.lor Z.shiftl byte_of]. rewrite H1, H2. cbn [andb]. by rewrite IH.
  - cbn -[Z.lor Z.shiftl unicode_codepoint_to_utf8]. rewrite H1, H2, H3, H4. cbn [andb]. unfold hex4 in Hu. rewrite Hu. cbn. by rewrite IH.
Qed.

Lemma ret_bind {A B} (m : run A) (f : A → run B) b : (m ≫= f) = Ret b → ∃ a, m = Ret a ∧ f a = Ret b.
Proof. destruct m; cbn; [eauto|done..]. Qed.

Ltac run_inv :=
  repeat match goal with
  | H : (_ ≫= _) = Ret _ |- _ => apply ret_bind in H as (? & ? & ?)
  | H : mbind _ _ = Ret _ |- _ => apply ret_bind in H as (? & ? & ?)
  | H : Ret _ = Ret _ |- _ => injection H as H; subst
  end.

Lemma unescape_inv q t s : is_quote q → skipped q t → unescape t = Ret s → string_body q t s.
Proof.
  intros Hq. remember (length t) as n eqn:En. revert t s En. induction (lt_wf n) as [n _ IH]. intros t s -> Hs Hu.
  assert (∀ p s, (length p < length t)%nat → skipped q p → unescape p = Ret s → string_body q p s) as IH' by eauto. clear IH.
  destruct Hs as [|c t Hc Hb Hs|c t Hs].
  - injection Hu as <-. constructor.
  - cbn [unescape] in Hu. rewrite bool_decide_eq_false_2 in Hu by done. cbn [negb] in Hu. run_inv. constructor; [done..|].
    apply IH'; [cbn; lia|done|done].
  - cbn [unescape] in Hu. rewrite bool_decide_eq_true_2 in Hu by done. cbn [negb] in Hu. destruct (simple_escape c) as [d|] eqn:Ed.
    { run_inv. constructor; [done|]. apply IH'; [cbn; lia|done|done]. }
    clear Ed. destruct (bool_decide_reflect (c = "x"%char)) as [->|_].
    + destruct t as [|h1 [|h2 t]]; [done..|]. destruct (isxdigit h1 && isxdigit h2) eqn:Eh; [|done]. bool_to_prop.
      run_inv. constructor; [done..|]. apply IH'; [cbn; lia| |done].
      by apply (skipped_hex q h2), (skipped_hex q h1).
    + destruct (bool_decide_reflect (c = "u"%char)) as [->|_]; [|done].
      destruct t as [|h1 [|h2 [|h3 [|h4 t]]]]; [done..|].
      destruct (isxdigit h1 && isxdigit h2 && isxdigit h3 && isxdigit h4) eqn:Eh; [|done]. bool_to_prop. run_inv.
      constructor; [done..|]. apply IH'; [cbn; lia| |done].
      by apply (skipped_hex q h4), (skipped_hex q h3), (skipped_hex q h2), (skipped_hex q h1).
Qed.

Lemma contents_of q body rest (pc := q :: body ++ q :: rest) :
  substr pc 1 (length pc - length (q :: rest) - 1) = body ∧ drop (length body + 2) pc = rest.
Proof.
  subst pc. split.
  - unfold substr. change (drop 1 (q :: body ++ q :: rest)) with (body ++ q :: rest).
    rewrite take_app_length'; [done|]. cbn. rewrite length_app. cbn. lia.
  - replace (length body + 2)%nat with (S (length (body ++ [q]))) by (rewrite length_app; cbn; lia).
    change (drop (length (body ++ [q])) (body ++ [q] ++ rest) = rest). by rewrite (app_assoc body), drop_app_length.
Qed.

Lemma parse_string_quoted q body s rest :
  is_quote q → string_body q body s → parse_string (q :: body ++ q :: rest) q = Ret (s, rest).
Proof.
  intros Hq Hb. pose proof (proj1 (quote_facts q Hq)). destruct (contents_of q body rest) as [E1 E2]. unfold parse_string.
  change (drop 1 (q :: body ++ q :: rest)) with (body ++ q :: rest).
  rewrite closing_quote_skipped; [|done|by eapply body_skipped]. cbn [mbind run_bind].
  rewrite E1, (unescape_body q body s) by done. cbn [mbind run_bind]. by rewrite E2.
Qed.

Lemma parse_string_inv q pc s rest :
  is_quote q → parse_string (q :: pc) q = Ret (s, rest) → ∃ body, pc = body ++ q :: rest ∧ string_body q body s.
Proof.
  intros Hq. unfold parse_string. change (drop 1 (q :: pc)) with pc. intros (p & Hp & Hr)%ret_bind. destruct p as [|c p]; [done|].
  apply closing_quote_inv in Hp as (-> & body & -> & Hs). apply ret_bind in Hr as (s' & Hu & Hr).
  destruct (contents_of q body p) as [E1 E2]. rewrite E1 in Hu, Hr. rewrite E2 in Hr. injection Hr as -> ->.
  exists body. split; [done|]. by apply unescape_inv.
Qed.

(** ** Numbers *)

(** What may follow a value. *)
Definition delim (c : ascii) : bool :=
  ws_char c || bool_decide (c = ","%char) || bool_decide (c = "]"%char) || bool_decide (c = "}"%char).
Definition stops (rest : str) : Prop := ∀ c, head rest = Some c → delim c = true.

Lemma delim_facts c :
  delim c = true → isdigit c = false ∧ isalpha c = false ∧ is_sign c = false ∧ c ≠ "."%char ∧ tolower c ≠ "e"%char.
Proof.
  assert (∀ c, negb (delim c) || (negb (isdigit c) && negb (isalpha c) && negb (is_sign c) &&
    bool_decide (c ≠ "."%char) && bool_decide (tolower c ≠ "e"%char)) = true) as Hd by (intros x; by_bytes x).
  intros E. specialize (Hd c). rewrite E in Hd. cbn [negb orb] in Hd. by bool_to_prop.
Qed.

Lemma stops_not rest (P : ascii → Prop) c : stops rest → (∀ c, delim c = true → ¬ P c) → head rest = Some c → ¬ P c.
Proof. intros Hs HP Hc. apply HP, Hs, Hc. Qed.

Lemma skip_digits_app ds rest :
  Forall (λ c, isdigit c = true) ds → (∀ c, head rest = Some c → isdigit c = false) → skip_digits (ds ++ rest) = rest.
Proof.
  intros Hd Hr. induction Hd as [|c ds Hc _ IH]; cbn.
  - destruct rest as [|c rest]; [done|]. cbn. by rewrite Hr.
  - by rewrite Hc.
Qed.

Lemma skip_digits_split pc : ∃ ds, pc = ds ++ skip_digits pc ∧ Forall (λ c, isdigit c = true) ds.
Proof.
  induction pc as [|c pc (ds & E & Hds)]; cbn [skip_digits]; [by exists []|]. destruct (isdigit c) eqn:Ec; [|by exists []].
  exists (c :: ds). cbn. rewrite <- E. split; [done|by constructor].
Qed.

Lemma consume_digits_app target ds rest state :
  digits ds → (∀ c, head rest = Some c → isdigit c = false) → consume_digits target (ds ++ rest, state) = (rest, target).
Proof.
  intros [Hne Hd] Hr. unfold consume_digits. pose proof (skip_digits_app ds rest Hd Hr) as E.
  destruct ds as [|c ds]; [done|]. apply Forall_cons in Hd as [Hc _]. cbn [app]. rewrite Hc. cbn [app] in E. by rewrite E.
Qed.

Lemma consume_digits_none target rest state :
  (∀ c, head rest = Some c → isdigit c = false) → consume_digits target (rest, state) = (rest, state).
Proof. intros Hr. destruct rest as [|c rest]; [done|]. cbn. by rewrite Hr. Qed.

Lemma consume_digits_inv target pc state pc' state' :
  consume_digits target (pc, state) = (pc', state') →
  (pc = pc' ∧ state = state' ∧ ∀ c, head pc = Some c → isdigit c = false) ∨ (∃ ds, digits ds ∧ pc = ds ++ pc' ∧ state' = target).
Proof.
  cbn. destruct pc as [|c pc]; [intros [= <- <-]; by left|].
  destruct (isdigit c) eqn:Ec; [|intros [= <- <-]; left; split_and!; [done..|by intros ? [= <-]]].
  intros [= <- <-]. right. destruct (skip_digits_split pc) as (ds & E & Hds). exists (c :: ds).
  split; [split; [done|by constructor]|]. cbn [skip_digits app]. rewrite Ec. by rewrite <- E.
Qed.

Lemma consume_sign_app w rest target state :
  sign_text w → (∀ c, head rest = Some c → is_sign c = false) →
  consume_char is_sign target (w ++ rest, state) = (rest, if bool_decide (w = []) then state else target).
Proof.
  intros [->|[-> | ->]] Hr; [|done..]. destruct rest as [|c rest]; [done|]. cbn. by rewrite Hr.
Qed.

Lemma consume_sign_inv target pc state pc' state' :
  consume_char is_sign target (pc, state) = (pc', state') →
  ∃ w, sign_text w ∧ pc = w ++ pc' ∧ state' = (if bool_decide (w = []) then state else target) ∧
    (w = [] → ∀ c, head pc = Some c → is_sign c = false).
Proof.
  cbn. destruct pc as [|c pc]; [intros [= <- <-]; by exists []; split; [left|]|].
  destruct (is_sign c) eqn:Ec; intros [= <- <-]; [|by exists []; split_and!; [left|..|intros _ ? [= <-]]].
  exists [c]. split; [|done]. unfold is_sign in Ec. apply orb_true_iff in Ec as [->%bool_decide_eq_true_1| ->%bool_decide_eq_true_1].
  - by right; left.
  - by right; right.
Qed.

Lemma digit_facts c : isdigit c = true → is_sign c = false ∧ c ≠ "."%char ∧ c ≠ "-"%char ∧ c ≠ "+"%char ∧ ws_char c = false ∧ tolower c ≠ "e"%char.
Proof.
  assert (∀ c, negb (isdigit c) || (negb (is_sign c) && bool_decide (c ≠ "."%char) && bool_decide (c ≠ "-"%char) &&
    bool_decide (c ≠ "+"%char) && negb (ws_char c) && bool_decide (tolower c ≠ "e"%char)) = true) as Hd by (intros x; by_bytes x).
  intros E. specialize (Hd c). rewrite E in Hd. cbn [negb orb] in Hd. by bool_to_prop.
Qed.

Lemma digits_head ds c rest : digits ds → head (ds ++ rest) = Some c → isdigit c = true.
Proof. intros [Hne Hd]. destruct ds as [|d ds]; [done|]. apply Forall_cons in Hd as [? _]. by intros [= <-]. Qed.

(** The states after the sign and the digits. *)
Lemma number_states_start w ds rest :
  sign_text w → digits ds → (∀ c, head rest = Some c → isdigit c = false) →
  consume_digits INT_DIGITS (consume_char is_sign FRONT_SIGN (w ++ ds ++ rest, INT_DIGITS)) = (rest, INT_DIGITS).
Proof.
  intros Hw Hd Hr. rewrite consume_sign_app; [|done|].
  - by apply consume_digits_app.
  - intros c Hc%digits_head; [|done]. by apply digit_facts.
Qed.

Lemma number_states_integer w ds rest :
  sign_text w → digits ds → stops rest → number_states (w ++ ds ++ rest) = (rest, INT_DIGITS).
Proof.
  intros Hw Hd Hs. unfold number_states.
  rewrite number_states_start; [|done|done|by intros c Hc; apply delim_facts, Hs].
  cbn [fst snd STATE_VALIDITY andb].
  destruct rest as [|c rest]; [done|]. destruct (delim_facts c) as (_ & _ & _ & H1 & H2); [by apply Hs|]. cbn [head].
  rewrite bool_decide_eq_false_2 by congruence. cbn [fst snd STATE_VALIDITY andb head fmap option_fmap option_map].
  by rewrite bool_decide_eq_false_2 by congruence.
Qed.

Lemma number_states_float w ds f e rest :
  sign_text w → digits ds → (f = [] ∨ fraction_text f) → (e = [] ∨ exponent_text e) → f ++ e ≠ [] → stops rest →
  number_states (w ++ ds ++ f ++ e ++ rest) = (rest, FLOAT_DIGITS).
Proof.
  intros Hw Hd Hf He Hfe Hs.
  assert (∀ c, head (e ++ rest) = Some c → isdigit c = false ∧ c ≠ "."%char) as Her.
  { destruct He as [->|(x & w' & ds' & Hx & _ & _ & ->)].
    - intros c Hc%Hs. split; by apply delim_facts.
    - intros c [= <-]. destruct (isdigit x) eqn:Ed; [by apply digit_facts in Ed as (_ & _ & _ & _ & _ & ?)|]. split; [done|by intros ->]. }
  assert (∀ c, head (f ++ e ++ rest) = Some c → isdigit c = false) as Hfr.
  { destruct Hf as [->|(fs & _ & ->)]; [intros c Hc; by apply Her|by intros c [= <-]]. }
  unfold number_states. rewrite number_states_start by done. cbn [fst snd STATE_VALIDITY andb].
  assert (∃ st, (if bool_decide (head (f ++ e ++ rest) = Some "."%char)
      then consume_digits FLOAT_DIGITS (drop 1 (f ++ e ++ rest), DOT) else (f ++ e ++ rest, INT_DIGITS)) = (e ++ rest, st) ∧
      STATE_VALIDITY st = true ∧ (f ≠ [] → st = FLOAT_DIGITS)) as (st & -> & Hst & Hff).
  { destruct Hf as [->|(fs & Hfs & ->)].
    - exists INT_DIGITS. cbn [app]. rewrite bool_decide_eq_false_2 by (intros Hc; by apply Her in Hc as [_ ?]). done.
    - exists FLOAT_DIGITS. cbn [app head]. rewrite bool_decide_eq_true_2 by done. change (drop 1 ("."%char :: fs ++ e ++ rest)) with (fs ++ e ++ rest).
      rewrite consume_digits_app; [done|done|]. intros c Hc. by apply Her. }
  cbn [fst snd]. rewrite Hst. cbn [andb]. destruct He as [->|(x & w' & es & Hx & Hw' & Hes & ->)].
  - rewrite app_nil_r in Hfe. rewrite (Hff Hfe). cbn [app]. destruct rest as [|c rest]; [done|]. cbn [head fmap option_fmap option_map].
    rewrite bool_decide_eq_false_2; [done|]. intros [= Hc]. destruct (delim_facts c); [by apply Hs|]. tauto.
  - cbn [app head fmap option_fmap option_map]. rewrite bool_decide_eq_true_2 by congruence.
    change (drop 1 (x :: (w' ++ es) ++ rest)) with ((w' ++ es) ++ rest). rewrite <- app_assoc, consume_sign_app; [|done|].
    + apply consume_digits_app; [done|]. intros c Hc%Hs. by apply delim_facts.
    + intros c Hc%digits_head; [|done]. by apply digit_facts.
Qed.

Lemma number_states_inv c pcc pc st :
  isdigit c || is_sign c = true → number_states (c :: pcc) = (pc, st) → STATE_VALIDITY st = true →
  (st = INT_DIGITS ∧ ∃ w ds, sign_text w ∧ digits ds ∧ c :: pcc = w ++ ds ++ pc) ∨
  (st = FLOAT_DIGITS ∧ ∃ t, float_text t ∧ c :: pcc = t ++ pc).
Proof.
  intros Hc. unfold number_states. destruct (consume_char is_sign FRONT_SIGN (c :: pcc, INT_DIGITS)) as [pc1 st1] eqn:E1.
  apply consume_sign_inv in E1 as (w & Hw & Hpc & Hst1 & Hns). destruct (consume_digits INT_DIGITS (pc1, st1)) as [pc2 st2] eqn:E2.
  apply consume_digits_inv in E2 as [(<- & <- & Hnd)|(ds & Hds & -> & ->)].
  { case_bool_decide as Ew; subst st1; [|by intros [= <- <-]].
    subst w. cbn in Hpc. subst pc1. by rewrite (Hnd c eq_refl), (Hns eq_refl c eq_refl) in Hc. }
  rewrite Hpc. clear Hc Hpc Hns Hst1. cbn [fst snd STATE_VALIDITY andb].
  assert (∀ f st3 pc3, (f = [] ∨ fraction_text f) → (f = [] → st3 = INT_DIGITS) → (f ≠ [] → st3 = FLOAT_DIGITS) → pc2 = f ++ pc3 →
    (if STATE_VALIDITY st3 && bool_decide (tolower <$> head pc3 = Some "e"%char)
     then consume_digits FLOAT_DIGITS (consume_char is_sign EXP_SIGN (drop 1 pc3, EXP)) else (pc3, st3)) = (pc, st) →
    STATE_VALIDITY st = true →
    (st = INT_DIGITS ∧ ∃ w' ds', sign_text w' ∧ digits ds' ∧ w ++ ds ++ pc2 = w' ++ ds' ++ pc) ∨
    (st = FLOAT_DIGITS ∧ ∃ t, float_text t ∧ w ++ ds ++ pc2 = t ++ pc)) as Hexp.
  { intros f st3 pc3 Hf H1 H2 -> E Hv. destruct (STATE_VALIDITY st3 && _) eqn:Et.
    - apply andb_true_iff in Et as [_ Et%bool_decide_eq_true_1]. destruct pc3 as [|x pc3]; [done|]. injection Et as Hx.
      change (drop 1 (x :: pc3)) with pc3 in E. destruct (consume_char is_sign EXP_SIGN (pc3, EXP)) as [pc4 st4] eqn:E4.
      apply consume_sign_inv in E4 as (w' & Hw' & -> & -> & _).
      apply consume_digits_inv in E as [(<- & <- & _)|(es & Hes & -> & ->)]; [by destruct (bool_decide _)|].
      right. split; [done|]. exists (w ++ ds ++ f ++ x :: w' ++ es). split; [|by rewrite <- !app_assoc; cbn; rewrite <- !app_assoc].
      exists w, ds, f, (x :: w' ++ es). split_and!; [done..| |by destruct f]. right. by exists x, w', es.
    - injection E as <- <-. destruct Hf as [->|Hf].
      + left. split; [by apply H1|]. by exists w, ds.
      + assert (f ≠ []) as Hne by (by destruct Hf as (? & _ & ->)). right. split; [by apply H2|].
        exists (w ++ ds ++ f). split; [|by rewrite <- !app_assoc]. exists w, ds, f, []. rewrite !app_nil_r. split_and!; auto. }
  destruct (bool_decide_reflect (head pc2 = Some "."%char)) as [Hdot|_]; [|apply (Hexp [] INT_DIGITS pc2); by auto].
  destruct pc2 as [|x pc3]; [done|]. injection Hdot as ->. change (drop 1 ("."%char :: pc3)) with pc3.
  destruct (consume_digits FLOAT_DIGITS (pc3, DOT)) as [pc4 st4] eqn:E4.
  apply consume_digits_inv in E4 as [(<- & <- & _)|(fs & Hfs & -> & ->)]; [by intros [= <- <-]|].
  apply (Hexp ("."%char :: fs) FLOAT_DIGITS pc4); [right; by exists fs|done..].
Qed.

Section parsing.
Context `{Scripting}.

Lemma atoll_eq w ds (z := if bool_decide (w = $"-") then - dec_value ds 0 else dec_value ds 0) :
  sign_text w → digits ds → atoll (w ++ ds) = if bool_decide (INT64_MIN <= z <= INT64_MAX) then Ret z else Undefined.
Proof.
  intros Hw [Hne Hds]. unfold atoll.
  assert (∀ z, (INT64_MIN <=? z) && (z <=? INT64_MAX) = bool_decide (INT64_MIN <= z <= INT64_MAX)) as Hb.
  { intros y. apply eq_bool_prop_intro. rewrite andb_True, bool_decide_spec, !Is_true_true, !Z.leb_le. done. }
  pose proof (leading_digits_id ds Hds) as El. destruct Hw as [->|[-> | ->]]; subst z.
  - cbn [app]. destruct ds as [|c ds]; [done|]. apply Forall_cons in Hds as [(_ & _ & H1 & H2 & _)%digit_facts _].
    rewrite !(bool_decide_eq_false_2 (c = _)) by done. by rewrite El, Hb.
  - change ($"-" ++ ds) with ("-"%char :: ds). cbn iota. rewrite !(bool_decide_eq_true_2 (_ = _)) by done. by rewrite El, Hb.
  - change ($"+" ++ ds) with ("+"%char :: ds). cbn iota. rewrite (bool_decide_eq_true_2 ("+"%char = "+"%char)) by done.
    rewrite !(bool_decide_eq_false_2 (_ = _)) by done. by rewrite El, Hb.
Qed.

Lemma parse_number_integer t z rest :
  integer_text t z → INT64_MIN <= z <= INT64_MAX → stops rest → parse_number (t ++ rest) = Ret (VInteger z, rest).
Proof.
  intros (w & ds & Hw & Hds & -> & ->) Hr Hs. unfold parse_number. rewrite <- app_assoc, number_states_integer by done.
  cbn [STATE_VALIDITY negb]. rewrite bool_decide_eq_true_2 by done.
  rewrite app_assoc, length_app, Nat.add_sub, take_app_length, atoll_eq by done. by rewrite bool_decide_eq_true_2.
Qed.

Lemma parse_number_float t d rest : float_text t → stod t = Ok d → stops rest → parse_number (t ++ rest) = Ret (VFloat d, rest).
Proof.
  intros (w & ds & f & e & Hw & Hds & -> & Hf & He & Hfe) Hd Hs. unfold parse_number.
  rewrite <- !app_assoc, number_states_float by done. cbn [STATE_VALIDITY negb]. rewrite bool_decide_eq_false_2 by done.
  replace (w ++ ds ++ f ++ e ++ rest) with ((w ++ ds ++ f ++ e) ++ rest) by (by rewrite <- !app_assoc).
  rewrite length_app, Nat.add_sub, take_app_length. by rewrite Hd.
Qed.

Lemma parse_number_inv c pcc v rest :
  isdigit c || is_sign c = true → parse_number (c :: pcc) = Ret (v, rest) → ∃ t, c :: pcc = t ++ rest ∧ denotes t v.
Proof.
  intros Hc. unfold parse_number. destruct (number_states (c :: pcc)) as [pc st] eqn:E.
  destruct (STATE_VALIDITY st) eqn:Ev; [|done]. cbn [negb]. apply number_states_inv in E; [|done..].
  destruct E as [(-> & w & ds & Hw & Hds & Ep)|(-> & t & Ht & Ep)]; rewrite Ep.
  - rewrite bool_decide_eq_true_2 by done. rewrite app_assoc, length_app, Nat.add_sub, take_app_length, atoll_eq by done.
    case_bool_decide as Hr; [|done]. intros [= <- <-]. exists (w ++ ds). split; [done|]. apply den_integer; [by exists w, ds|done].
  - rewrite bool_decide_eq_false_2 by done. rewrite length_app, Nat.add_sub, take_app_length.
    destruct (stod t) as [d|e] eqn:Ed; [|by destruct e]. intros [= <- <-]. exists t. split; [done|]. by apply den_float.
Qed.

(** ** Words *)

Lemma caseeq_alpha a b : Forall (λ c, isalpha c = true) a → str_lower b = b → str_caseeq_pair a b = bool_decide (str_lower a = b).
Proof.
  intros Ha Hb. unfold str_caseeq_pair. case_bool_decide as Hl.
  { symmetry. apply bool_decide_eq_false_2. intros <-. apply Hl. unfold str_lower. by rewrite length_fmap. }
  revert b Hl Hb. induction Ha as [|c a Hc _ IH]; intros [|d b] Hl Hb; try done.
  cbn [length strncasecmp_eq]. cbn in Hb. injection Hb as Hd Hb. injection Hl as Hl. rewrite Hd.
  rewrite (bool_decide_eq_false_2 (c = _)) by (by intros ->). rewrite (IH b Hl Hb). unfold str_lower. cbn [fmap list_fmap].
  case_bool_decide as E1; case_bool_decide as E2; try case_bool_decide as E3; congruence.
Qed.

Lemma lower_alpha t w : str_lower t = w → Forall (λ c, islower c = true) w → Forall (λ c, isalpha c = true) t.
Proof.
  intros <-. unfold str_lower. rewrite Forall_fmap. intros Ht. eapply Forall_impl; [exact Ht|]. intros c. cbn. clear.
  assert (∀ c, negb (islower (tolower c)) || isalpha c = true) as Hc by (intros x; by_bytes x). specialize (Hc c).
  intros E. by rewrite E in Hc.
Qed.

Lemma word_alpha t v : word t v → Forall (λ c, isalpha c = true) t ∧ t ≠ [].
Proof.
  assert (∀ w, forallb islower w = true → w ≠ [] → str_lower t = w → Forall (λ c, isalpha c = true) t ∧ t ≠ []) as Hw.
  { intros w Hf Hne E. split; [|intros ->; by subst]. eapply lower_alpha; [exact E|]. apply Forall_forall. intros c Hc.
    rewrite forallb_forall in Hf. apply Hf. by apply list_elem_of_In. }
  by intros [[E _]|[[E _]|[[E _]|[E _]]]]; (eapply Hw; [| |exact E]).
Qed.

Definition parse_word (pc : str) : run (value * str) :=
  let n := default (length pc) (find_if (λ c, negb (isalpha c)) pc) in
  let token := take n pc in
  let pc := drop n pc in
  if str_caseeq_pair token ($"undefined") then Ret (VUndefined, pc)
  else if str_caseeq_pair token ($"true") then Ret (VBool true, pc)
  else if str_caseeq_pair token ($"null") then Ret (VNull, pc)
  else if str_caseeq_pair token ($"false") then Ret (VBool false, pc)
  else Raise (parser_error "Can't parse").

Lemma token_split pc (n := default (length pc) (find_if (λ c, negb (isalpha c)) pc)) : Forall (λ c, isalpha c = true) (take n pc).
Proof.
  subst n. destruct (find_if _ pc) as [i|] eqn:E; cbn [default].
  - apply find_if_Some in E as (_ & _ & _ & Hf). eapply Forall_impl; [exact Hf|]. intros c. by rewrite negb_false_iff.
  - apply find_if_None in E. rewrite firstn_all. eapply Forall_impl; [exact E|]. intros c. by rewrite negb_false_iff.
Qed.

Lemma parse_word_ok t v rest : word t v → stops rest → parse_word (t ++ rest) = Ret (v, rest).
Proof.
  intros Hw Hs. destruct (word_alpha _ _ Hw) as [Ha _]. unfold parse_word.
  assert (default (length (t ++ rest)) (find_if (λ c, negb (isalpha c)) (t ++ rest)) = length t) as ->.
  { rewrite find_if_app_r by (apply find_if_None; eapply Forall_impl; [exact Ha|]; intros c E; by rewrite E).
    destruct rest as [|c rest]; [cbn; rewrite app_nil_r; done|]. cbn. destruct (delim_facts c) as (_ & -> & _); [by apply Hs|]. cbn. lia. }
  rewrite take_app_length, drop_app_length. rewrite !caseeq_alpha by done.
  destruct Hw as [[-> ->]|[[-> ->]|[[-> ->]|[-> ->]]]]; done.
Qed.

Lemma parse_word_inv pc v rest : parse_word pc = Ret (v, rest) → ∃ t, pc = t ++ rest ∧ word t v.
Proof.
  unfold parse_word. pose proof (token_split pc) as Ht. cbn zeta in Ht. set (n := default _ _) in *. rewrite !caseeq_alpha by done.
  intros E. exists (take n pc). unfold word.
  repeat case_bool_decide; try done; injection E as <- <-; rewrite take_drop; auto 10.
Qed.

(** ** Texts of the grammar are parsed *)

Lemma parse_main_number fuel c pc : isdigit c || is_sign c = true → parse_main (S fuel) (c :: pc) = parse_number (c :: pc).
Proof.
  intros Hc. assert (∀ d, isdigit d || is_sign d = false → c ≠ d) as Hd by (intros d E ->; congruence). cbn [parse_main].
  rewrite !(bool_decide_eq_false_2 (c = _)) by (by apply Hd). by rewrite Hc.
Qed.

Lemma parse_main_alpha fuel c pc : isalpha c = true → parse_main (S fuel) (c :: pc) = parse_word (c :: pc).
Proof.
  intros Hc. assert (∀ d, isalpha d = false → c ≠ d) as Hd by (intros d E ->; congruence). cbn [parse_main].
  rewrite !(bool_decide_eq_false_2 (c = _)) by (by apply Hd).
  assert (isdigit c || is_sign c = false) as -> ; [|done]. clear Hd. revert Hc.
  assert (∀ c, negb (isalpha c) || negb (isdigit c || is_sign c) = true) as Hx by (intros x; by_bytes x). specialize (Hx c).
  intros E. rewrite E in Hx. by apply negb_true_iff.
Qed.

Lemma parse_main_string fuel q body s rest :
  is_quote q → string_body q body s → parse_main (S fuel) (q :: body ++ q :: rest) = Ret (VString s, rest).
Proof. intros [-> | ->] Hb; cbn -[parse_string]; (rewrite parse_string_quoted with (s := s); [done| |done]); [by left|by right]. Qed.

(** The first character of a value. *)
Lemma denotes_head t v : denotes t v → ∃ c t', t = c :: t' ∧ ws_char c = false ∧ c ≠ "]"%char.
Proof.
  assert (∀ c, (isalpha c || isdigit c || is_sign c) = true → ws_char c = false ∧ c ≠ "]"%char) as Hc.
  { intros c. assert (∀ c, negb (isalpha c || isdigit c || is_sign c) || (negb (ws_char c) && bool_decide (c ≠ "]"%char)) = true) as Hx
      by (intros x; by_bytes x). specialize (Hx c). intros E. rewrite E in Hx. cbn [negb orb] in Hx. by bool_to_prop. }
  assert (∀ w ds rest, sign_text w → digits ds → ∃ c t', w ++ ds ++ rest = c :: t' ∧ ws_char c = false ∧ c ≠ "]"%char) as Hn.
  { intros w ds rest [->|[-> | ->]] [Hne Hds]; [|by eexists _, _..]. destruct ds as [|c ds]; [done|]. apply Forall_cons in Hds as [E _].
    exists c, (ds ++ rest). split; [done|]. apply Hc. rewrite E. by destruct (isalpha c). }
  destruct 1 as [t v Hw|t s Hq|t z Hz _|t d Ht _|t l _|t l _].
  - destruct (word_alpha _ _ Hw) as [Ha Hne]. destruct t as [|c t]; [done|]. apply Forall_cons in Ha as [E _]. exists c, t. split; [done|].
    apply Hc. by rewrite E.
  - destruct Hq as (q & body & Hq & -> & _). exists q, (body ++ [q]). split; [done|]. by destruct Hq as [-> | ->].
  - destruct Hz as (w & ds & Hw & Hds & -> & _). destruct (Hn w ds [] Hw Hds) as (c & t' & E & Hct). rewrite app_nil_r in E. by exists c, t'.
  - destruct Ht as (w & ds & f & e & Hw & Hds & -> & _). by apply Hn.
  - by eexists _, _.
  - by eexists _, _.
Qed.

Lemma stops_blank w rest c : blank w → delim c = true → stops (w ++ c :: rest).
Proof.
  intros Hw Hc x. destruct Hw as [|d w Hd _]; cbn; intros [= <-]; [done|]. unfold delim. by rewrite Hd.
Qed.

Lemma array_loop_skip pm n pc arr : array_loop pm n (skip_whitespace pc) arr = array_loop pm n pc arr.
Proof. destruct n as [|n]; [done|]. cbn [array_loop]. by rewrite skip_idem. Qed.

Lemma map_loop_skip pm n pc m : map_loop pm n (skip_whitespace pc) m = map_loop pm n pc m.
Proof. destruct n as [|n]; [done|]. cbn [map_loop]. by rewrite skip_idem. Qed.

(** A value with text [t] is parsed: what is left is [rest], or its blanks are skipped. *)
Definition parsed (fuel : nat) (t : str) (v : value) : Prop :=
  ∀ rest, stops rest → ∃ rest', parse_main fuel (t ++ rest) = Ret (v, rest') ∧ skip_whitespace rest' = skip_whitespace rest.

(** One turn of the loop of an array. *)
Lemma array_loop_value fuel n w1 t w2 v c rest arr :
  blank w1 → blank w2 → denotes t v → parsed fuel t v → delim c = true → ws_char c = false →
  array_loop (parse_main fuel) (S n) (w1 ++ t ++ w2 ++ c :: rest) arr =
    if bool_decide (c = "]"%char) then Ret (VArray (arr ++ [v]), skip_whitespace rest)
    else if bool_decide (c = ","%char) then array_loop (parse_main fuel) n rest (arr ++ [v])
    else Raise (parser_error "Error parsing array, unexpected value separator.").
Proof.
  intros Hw1 Hw2 Hd Hp Hc Hcw. cbn [array_loop]. destruct (denotes_head _ _ Hd) as (x & t' & -> & Hx & Hx').
  rewrite skip_blank by done. cbn [app]. rewrite skip_head by done. rewrite bool_decide_eq_true_2 by done.
  destruct (Hp (w2 ++ c :: rest)) as (rest' & E & Er); [by apply stops_blank|]. cbn [app] in E. rewrite E. cbn [mbind run_bind fst snd].
  rewrite Er, skip_blank, skip_head by done. by rewrite array_loop_skip.
Qed.

Lemma array_loop_end pm n w rest arr :
  blank w → array_loop pm (S n) (w ++ $"]" ++ rest) arr = Ret (VArray arr, skip_whitespace rest).
Proof. intros Hw. cbn [array_loop]. by rewrite skip_blank. Qed.

(** One turn of the loop of a map. *)
Lemma map_loop_member fuel n w1 tk k w2 w3 t w4 v c rest m :
  blank w1 → blank w2 → blank w3 → blank w4 → quoted tk k → denotes t v → parsed fuel t v → delim c = true → ws_char c = false →
  map_loop (parse_main fuel) (S n) (w1 ++ tk ++ w2 ++ $":" ++ w3 ++ t ++ w4 ++ c :: rest) m =
    if bool_decide (c = "}"%char) then Ret (VMap (map_insert id k v m), skip_whitespace rest)
    else if bool_decide (c = ","%char) then map_loop (parse_main fuel) n rest (map_insert id k v m)
    else Raise (parser_error "Error parsing map, unexpected item separator.").
Proof.
  intros Hw1 Hw2 Hw3 Hw4 (q & body & Hq & -> & Hb) Hd Hp Hc Hcw. cbn [map_loop]. destruct (denotes_head _ _ Hd) as (x & t' & -> & Hx & _).
  change ($":" ++ w3 ++ (x :: t') ++ w4 ++ c :: rest) with (":"%char :: w3 ++ (x :: t') ++ w4 ++ c :: rest).
  rewrite skip_blank by done. rewrite <- !app_assoc. cbn [app]. rewrite skip_head by (by apply quote_facts).
  rewrite (bool_decide_eq_false_2 (q = _)) by (by destruct Hq as [-> | ->]).
  assert (negb (bool_decide (q = double_quote)) && negb (bool_decide (q = "'"%char)) = false) as -> by (by destruct Hq as [-> | ->]).
  rewrite parse_string_quoted with (s := k) by done. cbn [mbind run_bind]. rewrite skip_blank, skip_head by done.
  rewrite bool_decide_eq_true_2, skip_blank, skip_head by done.
  destruct (Hp (w4 ++ c :: rest)) as (rest' & E & Er); [by apply stops_blank|]. cbn [app] in E. rewrite E. cbn [mbind run_bind].
  rewrite Er, skip_blank, skip_head by done. by rewrite map_loop_skip.
Qed.

Lemma map_loop_end pm n w rest m : blank w → map_loop pm (S n) (w ++ $"}" ++ rest) m = Ret (VMap m, rest).
Proof. intros Hw. cbn [map_loop]. by rewrite skip_blank. Qed.

Lemma parse_main_signed w ds u rest fuel :
  sign_text w → digits ds → (length (w ++ ds ++ u) ≤ fuel)%nat → parse_main fuel ((w ++ ds ++ u) ++ rest) = parse_number ((w ++ ds ++ u) ++ rest).
Proof.
  intros Hw [Hne Hds] Hf. destruct ds as [|c ds]; [done|]. apply Forall_cons in Hds as [Hc _]. rewrite !length_app in Hf.
  destruct fuel as [|fuel]; [cbn in Hf; lia|]. destruct Hw as [->|[-> | ->]]; cbn [app]; [|by apply parse_main_number..].
  apply parse_main_number. by rewrite Hc.
Qed.

Lemma parse_main_ok t v : denotes t v → ∀ fuel, (length t ≤ fuel)%nat → parsed fuel t v.
Proof.
  apply (denotes_mut _
    (λ t v _, ∀ fuel, (length t ≤ fuel)%nat → parsed fuel t v)
    (λ t l _, ∀ fuel n arr rest, (length t ≤ fuel)%nat → (length t < n)%nat →
       array_loop (parse_main fuel) n (t ++ $"]" ++ rest) arr = Ret (VArray (arr ++ l), skip_whitespace rest))
    (λ t l _, ∀ fuel n m rest, (length t ≤ fuel)%nat → (length t < n)%nat →
       ∃ rest', map_loop (parse_main fuel) n (t ++ $"}" ++ rest) m =
         Ret (VMap (foldl (λ m kv, map_insert id kv.1 kv.2 m) m l), rest') ∧ skip_whitespace rest' = skip_whitespace rest)).
  - clear t v. intros t v Hw fuel Hf rest Hs. exists rest. split; [|done]. destruct (word_alpha _ _ Hw) as [Ha Hne].
    destruct t as [|c t]; [done|]. apply Forall_cons in Ha as [Hc _]. destruct fuel as [|fuel]; [cbn in Hf; lia|].
    cbn [app]. rewrite parse_main_alpha by done. by apply (parse_word_ok (c :: t)).
  - clear t v. intros t s (q & body & Hq & -> & Hb) fuel Hf rest Hs. exists rest. split; [|done].
    destruct fuel as [|fuel]; [cbn in Hf; lia|]. rewrite <- !app_assoc. by apply parse_main_string.
  - clear t v. intros t z Hz Hr fuel Hf rest Hs. exists rest. split; [|done]. rewrite <- (parse_number_integer t z rest) by done.
    destruct Hz as (w & ds & Hw & Hds & -> & _).
    pose proof (parse_main_signed w ds [] rest fuel) as E. rewrite app_nil_r in E. by apply E.
  - clear t v. intros t d Ht Hd fuel Hf rest Hs. exists rest. split; [|done]. rewrite <- (parse_number_float t d rest) by done.
    destruct Ht as (w & ds & f & e & Hw & Hds & -> & _). by apply parse_main_signed.
  - clear t v. intros t l _ IH fuel Hf rest Hs. rewrite !length_app in Hf. cbn in Hf. destruct fuel as [|fuel]; [lia|].
    exists (skip_whitespace rest). split; [|by apply skip_idem]. rewrite <- !app_assoc.
    change (parse_array (parse_main fuel) ($"[" ++ t ++ $"]" ++ rest) = Ret (VArray ([] ++ l), skip_whitespace rest)).
    unfold parse_array. change (drop 1 ($"[" ++ t ++ $"]" ++ rest)) with (t ++ $"]" ++ rest). rewrite array_loop_skip.
    apply IH; [lia|]. rewrite !length_app. cbn. lia.
  - clear t v. intros t l _ IH fuel Hf rest Hs. rewrite !length_app in Hf. cbn in Hf. destruct fuel as [|fuel]; [lia|].
    rewrite <- !app_assoc. apply (IH fuel (length ($"{" ++ t ++ $"}" ++ rest)) [] rest); [lia|]. rewrite !length_app. cbn. lia.
  - intros w Hw fuel n arr rest _ Hn. destruct n as [|n]; [lia|]. by rewrite array_loop_end, app_nil_r.
  - intros w1 t' w2 v' Hw1 Hw2 Hd IH fuel n arr rest Hf Hn. rewrite !length_app in Hf, Hn. destruct n as [|n]; [lia|].
    rewrite <- !app_assoc. by apply (array_loop_value fuel n w1 t' w2 v' "]"%char rest arr); [..|apply IH; lia| |].
  - intros w1 t' w2 v' t'' l Hw1 Hw2 Hd IH _ IHl fuel n arr rest Hf Hn. rewrite !length_app in Hf, Hn. cbn in Hf, Hn. destruct n as [|n]; [lia|].
    rewrite <- !app_assoc. etransitivity.
    + apply (array_loop_value fuel n w1 t' w2 v' ","%char (t'' ++ $"]" ++ rest) arr); [..|apply IH; lia| |]; done.
    + change (array_loop (parse_main fuel) n (t'' ++ $"]" ++ rest) (arr ++ [v']) = Ret (VArray (arr ++ v' :: l), skip_whitespace rest)).
      rewrite (IHl fuel n (arr ++ [v']) rest) by lia. by rewrite <- app_assoc.
  - intros w Hw fuel n m rest _ Hn. destruct n as [|n]; [lia|]. exists rest. by rewrite map_loop_end.
  - intros w1 w2 w3 w4 tk k t' v' Hw1 Hw2 Hw3 Hw4 Hk Hd IH fuel n m rest Hf Hn. rewrite !length_app in Hf, Hn. destruct n as [|n]; [lia|].
    rewrite <- !app_assoc. exists (skip_whitespace rest). split; [|by apply skip_idem].
    by apply (map_loop_member fuel n w1 tk k w2 w3 t' w4 v' "}"%char rest m); [..|apply IH; lia| |].
  - intros w1 w2 w3 w4 tk k t' v' t'' l Hw1 Hw2 Hw3 Hw4 Hk Hd IH _ IHl fuel n m rest Hf Hn. rewrite !length_app in Hf, Hn. cbn in Hf, Hn.
    destruct n as [|n]; [lia|]. destruct (IHl fuel n (map_insert id k v' m) rest) as (rest' & E & Er); [lia..|].
    exists rest'. split; [|done]. rewrite <- !app_assoc. refine (eq_trans _ E).
    apply (map_loop_member fuel n w1 tk k w2 w3 t' w4 v' ","%char (t'' ++ $"}" ++ rest) m); [..|apply IH; lia| |]; done.
Qed.

(** ** Nothing else is parsed *)

(** The part of a text that was parsed, and the blanks behind it. *)
Definition parsed_part (pc rest : str) (v : value) : Prop := ∃ t w, pc = t ++ w ++ rest ∧ blank w ∧ denotes t v.

Lemma elements_blank w t l : blank w → elements t l → elements (w ++ t) l.
Proof.
  intros Hw. destruct 1; [constructor; by apply blank_app|..]; rewrite app_assoc; constructor; try done; by apply blank_app.
Qed.

Lemma members_blank w t l : blank w → members t l → members (w ++ t) l.
Proof.
  intros Hw. destruct 1; [constructor; by apply blank_app|..]; rewrite app_assoc; constructor; try done; by apply blank_app.
Qed.

Lemma array_loop_inv pm n pc arr v rest :
  (∀ pc v rest, pm pc = Ret (v, rest) → parsed_part pc rest v) →
  array_loop pm n pc arr = Ret (v, rest) →
  ∃ t w l, pc = t ++ $"]" ++ w ++ rest ∧ blank w ∧ elements t l ∧ v = VArray (arr ++ l).
Proof.
  intros Hpm. revert pc arr. induction n as [|n IH]; intros pc arr E; [done|]. cbn [array_loop] in E.
  destruct (skip_split pc) as (w1 & Hpc & Hw1). destruct (skip_whitespace pc) as [|c pc1]; [done|].
  destruct (bool_decide_reflect (c ≠ "]"%char)) as [Hc|Hc].
  - apply ret_bind in E as ([arr' pc2] & E1 & E). apply ret_bind in E1 as ([v1 pc2'] & E1 & [= <- ->]).
    apply Hpm in E1 as (t1 & w2 & Et & Hw2 & Hd). destruct (skip_split pc2) as (w3 & Hpc2 & Hw3).
    destruct (skip_whitespace pc2) as [|d pc3]; [done|]. rewrite Hpc, Et, Hpc2. pose proof (blank_app _ _ Hw2 Hw3) as Hw.
    destruct (bool_decide_reflect (d = "]"%char)) as [->|_]; [|destruct (bool_decide_reflect (d = ","%char)) as [->|_]; [|done]].
    + injection E as <- <-. destruct (skip_split pc3) as (w4 & Hpc3 & Hw4). exists (w1 ++ t1 ++ w2 ++ w3), w4, [v1].
      split_and!; [|done|by apply elem_last|done]. rewrite Hpc3 at 1. by rewrite <- !app_assoc.
    + destruct (skip_split pc3) as (w4 & Hpc3 & Hw4). apply IH in E as (t' & w & l & E & Hw' & Hl & ->).
      exists (w1 ++ t1 ++ (w2 ++ w3) ++ $"," ++ w4 ++ t'), w, (v1 :: l). split_and!; [|done| |by rewrite <- app_assoc].
      * rewrite Hpc3, E. by rewrite <- !app_assoc.
      * apply elem_more; [done..|]. by apply elements_blank.
  - apply dec_stable in Hc. subst c. cbn in E. injection E as <- <-. destruct (skip_split pc1) as (w2 & Hpc1 & Hw2).
    exists w1, w2, []. split_and!; [|done|by constructor|by rewrite app_nil_r]. by rewrite Hpc, Hpc1 at 1.
Qed.

Lemma parse_string_quoted_inv c pc s rest :
  is_quote c → parse_string (c :: pc) c = Ret (s, rest) → ∃ t, c :: pc = t ++ rest ∧ quoted t s.
Proof.
  intros Hq E. apply parse_string_inv in E as (body & -> & Hb); [|done]. exists ([c] ++ body ++ [c]).
  split; [by rewrite <- !app_assoc|]. by exists c, body.
Qed.

Lemma map_loop_inv pm n pc m v rest :
  (∀ pc v rest, pm pc = Ret (v, rest) → parsed_part pc rest v) →
  map_loop pm n pc m = Ret (v, rest) →
  ∃ t w l, pc = t ++ $"}" ++ w ++ rest ∧ blank w ∧ members t l ∧ v = VMap (foldl (λ m kv, map_insert id kv.1 kv.2 m) m l).
Proof.
  intros Hpm. revert pc m. induction n as [|n IH]; intros pc m E; [done|]. cbn [map_loop] in E.
  destruct (skip_split pc) as (w1 & Hpc & Hw1). destruct (skip_whitespace pc) as [|q pc1]; [done|].
  destruct (bool_decide_reflect (q = "}"%char)) as [->|_].
  { injection E as <- <-. exists w1, [], []. split_and!; [done|constructor|by constructor|done]. }
  destruct (negb (bool_decide (q = double_quote)) && negb (bool_decide (q = "'"%char))) eqn:Eq; [done|].
  assert (is_quote q) as Hq by (unfold is_quote; apply andb_false_iff in Eq as [?|?]; bool_to_prop; auto). clear Eq.
  apply ret_bind in E as ([key pc2] & E1 & E). apply parse_string_quoted_inv in E1 as (tk & Ek & Hk); [|done].
  destruct (skip_split pc2) as (w2 & Hpc2 & Hw2). destruct (skip_whitespace pc2) as [|d pc3]; [done|].
  destruct (bool_decide_reflect (d = ":"%char)) as [->|_]; [|done].
  destruct (skip_split pc3) as (w3 & Hpc3 & Hw3). apply ret_bind in E as ([v1 pc4] & E1 & E).
  apply Hpm in E1 as (t1 & w4 & Et & Hw4 & Hd). destruct (skip_split pc4) as (w5 & Hpc4 & Hw5).
  destruct (skip_whitespace pc4) as [|d pc5]; [done|]. rewrite Hpc, Ek, Hpc2, Hpc3, Et, Hpc4. pose proof (blank_app _ _ Hw4 Hw5) as Hw.
  destruct (bool_decide_reflect (d = "}"%char)) as [->|_]; [|destruct (bool_decide_reflect (d = ","%char)) as [->|_]; [|done]].
  - injection E as <- <-. destruct (skip_split pc5) as (w6 & Hpc5 & Hw6).
    exists (w1 ++ tk ++ w2 ++ $":" ++ w3 ++ t1 ++ w4 ++ w5), w6, [(key, v1)].
    split_and!; [|done|by apply memb_last|done]. rewrite Hpc5 at 1. by rewrite <- !app_assoc.
  - destruct (skip_split pc5) as (w6 & Hpc5 & Hw6). apply IH in E as (t' & w & l & E & Hw' & Hl & ->).
    exists (w1 ++ tk ++ w2 ++ $":" ++ w3 ++ t1 ++ (w4 ++ w5) ++ $"," ++ w6 ++ t'), w, ((key, v1) :: l). split_and!; [|done| |done].
    + rewrite Hpc5, E. by rewrite <- !app_assoc.
    + apply memb_more; [done..|]. by apply members_blank.
Qed.

Lemma parse_main_inv fuel pc v rest : parse_main fuel pc = Ret (v, rest) → parsed_part pc rest v.
Proof.
  revert pc v rest. induction fuel as [|fuel IH]; intros pc v rest E; [done|]. destruct pc as [|c pc]; [done|]. cbn [parse_main] in E.
  destruct (bool_decide_reflect (c = "{"%char)) as [->|_].
  { apply map_loop_inv in E as (t & w & l & Et & Hw & Hl & ->); [|done]. change (drop 1 ("{"%char :: pc)) with pc in Et. subst pc.
    exists ($"{" ++ t ++ $"}"), w. split_and!; [by rewrite <- !app_assoc|done|by apply den_map]. }
  destruct (bool_decide_reflect (c = "["%char)) as [->|_].
  { unfold parse_array in E. rewrite array_loop_skip in E. apply array_loop_inv in E as (t & w & l & Et & Hw & Hl & ->); [|done].
    change (drop 1 ("["%char :: pc)) with pc in Et. subst pc.
    exists ($"[" ++ t ++ $"]"), w. split_and!; [by rewrite <- !app_assoc|done|by apply den_array]. }
  assert (∀ t, c :: pc = t ++ rest → denotes t v → parsed_part (c :: pc) rest v) as Hpart by (intros t -> ?; exists t, []; by split_and!; [|constructor|]).
  destruct (bool_decide_reflect (c = double_quote)) as [->|_].
  { apply ret_bind in E as ([s r] & E & [= <- ->]). apply parse_string_quoted_inv in E as (t & Et & Ht); [|by left].
    apply (Hpart t); [done|]. by apply den_string. }
  destruct (bool_decide_reflect (c = "'"%char)) as [->|_].
  { apply ret_bind in E as ([s r] & E & [= <- ->]). apply parse_string_quoted_inv in E as (t & Et & Ht); [|by right].
    apply (Hpart t); [done|]. by apply den_string. }
  destruct (isdigit c || is_sign c) eqn:Ec.
  - apply parse_number_inv in E as (t & Et & Ht); [|done]. by apply (Hpart t).
  - apply (parse_word_inv (c :: pc)) in E as (t & Et & Ht). apply (Hpart t); [done|by apply den_word].
Qed.

(** ** The parser ends *)

Lemma parsed_shorter pc rest v : parsed_part pc rest v → (length rest < length pc)%nat.
Proof.
  intros (t & w & -> & _ & Hd). destruct (denotes_head _ _ Hd) as (c & t' & -> & _). rewrite !length_app. cbn. lia.
Qed.

Lemma skip_length t : (length (skip_whitespace t) ≤ length t)%nat.
Proof. destruct (skip_split t) as (w & E & _). rewrite E at 2. rewrite length_app. lia. Qed.

Lemma bind_diverge {A B} (m : run A) (f : A → run B) : m ≠ Diverge → (∀ a, m = Ret a → f a ≠ Diverge) → (m ≫= f) ≠ Diverge.
Proof. destruct m; cbn; auto. Qed.

Lemma closing_quote_ends q p : closing_quote q p ≠ Diverge.
Proof.
  remember (length p) as n eqn:En. revert p En. induction (lt_wf n) as [n _ IH]. intros [|c p] ->; [done|]. cbn [closing_quote].
  case_bool_decide; [done|]. case_bool_decide; [destruct p as [|d p]; [done|]|]; (eapply IH; [|done]); cbn; lia.
Qed.

Lemma unescape_ends p : unescape p ≠ Diverge.
Proof.
  remember (length p) as n eqn:En. revert p En. induction (lt_wf n) as [n _ IH]. intros p ->.
  assert (∀ p' (f : str → run str), (length p' < length p)%nat → (∀ s, f s ≠ Diverge) → (unescape p' ≫= f) ≠ Diverge) as Hb.
  { intros p' f Hl Hf. apply bind_diverge; [by eapply IH|intros; apply Hf]. }
  destruct p as [|c p]; [done|]. cbn [unescape]. destruct (negb _); [apply Hb; [cbn; lia|done]|].
  destruct p as [|d p]; [done|]. destruct (simple_escape d); [apply Hb; [cbn; lia|done]|]. case_bool_decide.
  - destruct p as [|h1 [|h2 p]]; [done..|]. destruct (_ && _); [|done]. apply Hb; [cbn; lia|done].
  - case_bool_decide; [|done]. destruct p as [|h1 [|h2 [|h3 [|h4 p]]]]; [done..|]. destruct (_ && _); [|done].
    apply bind_diverge; [unfold unicode_codepoint_to_utf8; by repeat case_match|]. intros u _. apply Hb; [cbn; lia|done].
Qed.

Lemma parse_string_ends pc q : parse_string pc q ≠ Diverge.
Proof.
  unfold parse_string. apply bind_diverge; [apply closing_quote_ends|]. intros [|c p] _; [done|].
  apply bind_diverge; [apply unescape_ends|done].
Qed.

Lemma array_loop_ends pm n pc arr :
  (∀ pc v rest, pm pc = Ret (v, rest) → (length rest < length pc)%nat) →
  (∀ pc', (length pc' ≤ length pc)%nat → pm pc' ≠ Diverge) → (length pc < n)%nat → array_loop pm n pc arr ≠ Diverge.
Proof.
  intros Hr. revert pc arr. induction n as [|n IH]; intros pc arr Hpm Hn; [lia|]. cbn [array_loop].
  pose proof (skip_length pc) as Hl. destruct (skip_whitespace pc) as [|c pc1]; [done|].
  assert (∀ arr' pc2, (length pc2 ≤ length pc)%nat →
    match skip_whitespace pc2 with
    | [] => Raise (parser_error "Error parsing array, unexpected end of stream.")
    | c :: pc => if bool_decide (c = "]"%char) then Ret (VArray arr', skip_whitespace pc)
                 else if bool_decide (c = ","%char) then array_loop pm n (skip_whitespace pc) arr'
                 else Raise (parser_error "Error parsing array, unexpected value separator.")
    end ≠ Diverge) as Hk.
  { intros arr' pc2 H2. pose proof (skip_length pc2). destruct (skip_whitespace pc2) as [|d pc3]; [done|].
    case_bool_decide; [done|]. case_bool_decide; [|done]. rewrite array_loop_skip. cbn in *. apply IH; [|lia]. intros; apply Hpm; lia. }
  case_bool_decide.
  - apply bind_diverge; [apply bind_diverge; [apply Hpm; lia|done]|]. intros [arr' pc2] ([v pc2'] & Ev & [= <- ->])%ret_bind.
    apply Hk. apply Hr in Ev. lia.
  - cbn [mbind run_bind]. apply Hk. lia.
Qed.

Lemma map_loop_ends pm n pc m :
  (∀ pc v rest, pm pc = Ret (v, rest) → (length rest < length pc)%nat) →
  (∀ pc', (length pc' ≤ length pc)%nat → pm pc' ≠ Diverge) → (length pc < n)%nat → map_loop pm n pc m ≠ Diverge.
Proof.
  intros Hr. revert pc m. induction n as [|n IH]; intros pc m Hpm Hn; [lia|]. cbn [map_loop].
  pose proof (skip_length pc) as Hl. destruct (skip_whitespace pc) as [|q pc1]; [done|].
  case_bool_decide as Hb; [done|]. destruct (_ && _) eqn:Eq; [done|].
  assert (is_quote q) as Hq by (unfold is_quote; apply andb_false_iff in Eq as [?|?]; bool_to_prop; auto). clear Eq Hb.
  apply bind_diverge; [apply parse_string_ends|]. intros [key pc2] (tk & Ek & _)%parse_string_quoted_inv; [|done].
  rewrite Ek, length_app in Hl. pose proof (skip_length pc2) as H2. destruct (skip_whitespace pc2) as [|d pc3]; [done|].
  case_bool_decide as Hd; [|done]. pose proof (skip_length pc3) as H3. cbn in H2. apply bind_diverge; [apply Hpm; lia|].
  intros [v pc4] Ev%Hr. pose proof (skip_length pc4) as H4. destruct (skip_whitespace pc4) as [|e pc5]; [done|]. cbn in H4.
  case_bool_decide; [done|]. case_bool_decide; [|done]. rewrite map_loop_skip. apply IH; [|lia]. intros; apply Hpm; lia.
Qed.

Lemma parse_main_ends fuel pc : (length pc < fuel)%nat → parse_main fuel pc ≠ Diverge.
Proof.
  revert pc. induction fuel as [|fuel IH]; intros pc Hf; [lia|]. destruct pc as [|c pc]; [done|]. cbn [parse_main].
  assert (∀ pc v rest, parse_main fuel pc = Ret (v, rest) → (length rest < length pc)%nat) as Hr
    by (intros ??? E%parse_main_inv; by eapply parsed_shorter).
  cbn in Hf. case_bool_decide.
  { apply map_loop_ends; [done|intros; apply IH|]; change (drop 1 (c :: pc)) with pc in *; cbn; lia. }
  case_bool_decide.
  { unfold parse_array. rewrite array_loop_skip. apply array_loop_ends; [done|intros; apply IH|]; change (drop 1 (c :: pc)) with pc in *; cbn; lia. }
  do 2 (case_bool_decide; [apply bind_diverge; [apply parse_string_ends|done]|]).
  destruct (_ || _); [|by repeat case_match].
  unfold parse_number. destruct (number_states _) as [pc' st]. destruct (negb _); [done|]. case_bool_decide.
  - apply bind_diverge; [|done]. unfold atoll. by repeat case_match.
  - by repeat case_match.
Qed.
End parsing.

Section theorems.
Context `{Scripting}.

(** C12: Value::parse returns a value exactly for the texts of a grammar of values (that
    of JSON without the escape \/, and with single quotes, further escapes and a comma
    behind the last element), and the value the grammar gives; of members with the same
    key the last one counts. *)
Theorem parse_correct s v : parse s = Ret v ↔ document s v.
Proof.
  unfold parse. split.
  - destruct (skip_split s) as (w & Es & Hw). destruct (skip_whitespace s) as [|c pc]; [done|].
    intros ([v' rest] & E & E')%ret_bind. apply parse_main_inv in E as (t & w' & Et & Hw' & Hd). cbn [fst snd] in E'.
    destruct (skip_whitespace rest) eqn:Er; [|done]. injection E' as ->. apply skip_nil in Er.
    exists w, t, (w' ++ rest). split_and!; [by rewrite Es, Et|done|by apply blank_app|done].
  - intros (w1 & t & w2 & -> & Hw1 & Hw2 & Hd). rewrite skip_blank by done.
    destruct (denotes_head _ _ Hd) as (c & t' & -> & Hc & _). cbn [app]. rewrite skip_head by done.
    destruct (parse_main_ok _ _ Hd (S (length (c :: t' ++ w2))) ltac:(cbn; rewrite length_app; lia) w2) as (rest' & E & Er).
    + intros x Hx. unfold delim. destruct Hw2 as [|y w2 Hy _]; [done|]. injection Hx as <-. by rewrite Hy.
    + cbn [app] in E. rewrite E. cbn [mbind run_bind fst snd]. by rewrite Er, skip_blank_all.
Qed.

(** [Value::parse] ends for every text. *)
Theorem parse_ends s : parse s ≠ Diverge.
Proof.
  unfold parse. destruct (skip_whitespace s) as [|c pc]; [done|]. apply bind_diverge; [apply parse_main_ends; lia|].
  intros [v rest] _. cbn [snd]. by destruct (skip_whitespace rest).
Qed.
End theorems.
