(* ===== verification/ScriptReprFacts.v ===== *)
(** * Values of the scripting layer: texts that are read back

    [Value::repr] writes texts of the grammar of [Value::parse]: values are read back as they
    were, and the values for which that is not so. *)
From S2P Require Import Prelude UtilsString UtilsStringFacts GtidUtils GtidUtilsFacts StdMap ScriptValue ScriptValueFacts.

Open Scope Z_scope.

#[local] Set Warnings "-register-all".

(** ** Characters *)

Lemma repr_char_cases c :
  (repr_char c = [c] ∧ c ≠ double_quote ∧ c ≠ backslash) ∨
  (∃ e, repr_char c = [backslash; e] ∧ simple_escape e = Some c) ∨
  (∃ h1 h2, repr_char c = [backslash; "x"%char; h1; h2] ∧ hex h1 ∧ hex h2 ∧ byte_of (hex2 h1 h2) = c).
Proof.
  assert (∀ c, match repr_char c with
    | [d] => bool_decide (d = c) && bool_decide (c ≠ double_quote) && bool_decide (c ≠ backslash)
    | [b; e] => bool_decide (b = backslash) && bool_decide (simple_escape e = Some c)
    | [b; x; h1; h2] => bool_decide (b = backslash) && bool_decide (x = "x"%char) && isxdigit h1 && isxdigit h2 &&
        bool_decide (byte_of (hex2 h1 h2) = c)
    | _ => false
    end = true) as Hc by (intros x; by_bytes x).
  specialize (Hc c). destruct (repr_char c) as [|a [|b [|x [|y [|z l]]]]]; try done; bool_to_prop; subst; eauto 10.
Qed.

Lemma repr_chars_body s : string_body double_quote (concat (repr_char <$> s)) s.
Proof.
  induction s as [|c s IH]; [constructor|]. cbn [fmap list_fmap concat].
  destruct (repr_char_cases c) as [(-> & ? & ?)|[(e & -> & ?)|(h1 & h2 & -> & ? & ? & <-)]]; by constructor.
Qed.

Lemma repr_string_quoted s : quoted (repr_string s) s.
Proof. exists double_quote, (concat (repr_char <$> s)). split_and!; [by left|done|apply repr_chars_body]. Qed.

Lemma to_string_integer z : integer_text (to_string z) z.
Proof.
  unfold to_string. destruct (Z.ltb_spec z 0).
  - destruct (dec_spec (- z)) as (? & ? & Hv); [lia|]. exists ($"-"), (dec (- z)). split_and!; [by right; left|done|done|].
    rewrite bool_decide_eq_true_2 by done. lia.
  - destruct (dec_spec z) as (? & ? & Hv); [lia|]. exists [], (dec z). split_and!; [by left|done|done|].
    by rewrite bool_decide_eq_false_2.
Qed.

(** ** Lists *)

Lemma comma_list_cons x y l : comma_list (x :: y :: l) = x ++ $", " ++ comma_list (y :: l).
Proof. apply str_join_cons2. Qed.

Section repr.
Context `{Scripting}.

Lemma comma_list_elements texts l : Forall2 denotes texts l → elements (comma_list texts) l.
Proof.
  induction 1 as [|t v texts l Hd Hl IH]; [by repeat constructor|]. destruct Hl as [|t' v' texts l Hd' Hl].
  - cbn. rewrite <- (app_nil_r t). by apply (elem_last [] t []); [constructor..|].
  - rewrite comma_list_cons. apply (elem_more [] t [] v ($" " ++ comma_list (t' :: texts))); [constructor|constructor|done|].
    apply elements_blank; [by repeat constructor|done].
Qed.

(** The text of a member. *)
Definition member_text (k t : str) : str := repr_string k ++ $": " ++ t.

Lemma comma_list_members texts l :
  Forall2 (λ t kv, ∃ t', t = member_text kv.1 t' ∧ denotes t' kv.2) texts l → members (comma_list texts) l.
Proof.
  induction 1 as [|t [k v] texts l (t1 & -> & Hd) Hl IH]; [by repeat constructor|]. cbn [fst snd] in *.
  pose proof (repr_string_quoted k) as Hk. destruct Hl as [|t' kv' texts l Hd' Hl].
  - unfold member_text. change (members (repr_string k ++ $": " ++ t1) [(k, v)]). rewrite <- (app_nil_r t1). by apply (memb_last [] [] ($" ") []); [repeat constructor..| |].
  - rewrite comma_list_cons. unfold member_text. rewrite <- !app_assoc.
    apply (memb_more [] [] ($" ") [] (repr_string k) k t1 v ($" " ++ comma_list (t' :: texts))); [by repeat constructor..|done|done|].
    apply members_blank; [by repeat constructor|done].
Qed.

(** ** Values *)

(** Values of which the text says everything: no unsigned and binary values, objects and
    functions, and of the numbers those that %g writes exactly, with a point or an exponent. *)
Inductive plain : value → Prop :=
  | plain_undefined : plain VUndefined
  | plain_null : plain VNull
  | plain_bool b : plain (VBool b)
  | plain_string s : plain (VString s)
  | plain_integer z : INT64_MIN <= z <= INT64_MAX → plain (VInteger z)
  | plain_float d : float_text (format_g d) → stod (format_g d) = Ok d → plain (VFloat d)
  | plain_array l : Forall plain l → plain (VArray l)
  | plain_map m : map_sorted id m → Forall (λ kv, plain kv.2) m → plain (VMap m).

Lemma value_nested_ind (P : value → Prop) :
  (∀ v, (∀ l, v ≠ VArray l) → (∀ m, v ≠ VMap m) → P v) →
  (∀ l, Forall P l → P (VArray l)) → (∀ m, Forall (λ kv, P kv.2) m → P (VMap m)) → ∀ v, P v.
Proof.
  intros Hv Hl Hm. fix IH 1. intros [| | | | | | | |l|m| |]; try (by apply Hv).
  - apply Hl. induction l as [|v l IHl]; constructor; [apply IH|apply IHl].
  - apply Hm. induction m as [|[k v] m IHm]; constructor; [apply IH|apply IHm].
Qed.

(** The members of a sorted map, in order, give the map. *)
Lemma foldl_insert_sorted (acc l : list (str * value)) :
  map_sorted id (acc ++ l) → foldl (λ m kv, map_insert id kv.1 kv.2 m) acc l = acc ++ l.
Proof.
  revert acc. induction l as [|[k v] l IH]; intros acc Hs; [by rewrite app_nil_r|]. cbn [foldl fst snd].
  assert (Forall (λ kv, before id kv.1 k) acc) as Hb.
  { clear IH. induction acc as [|[k' v'] acc IHa]; [constructor|]. destruct Hs as [Hb Hs]. constructor; [|by apply IHa].
    apply Forall_app in Hb as [_ Hb]. by apply Forall_cons in Hb as [Hb _]. }
  rewrite map_insert_last by done. rewrite IH; by rewrite <- app_assoc.
Qed.

Lemma of_members_sorted m : map_sorted id m → of_members m = m.
Proof. apply (foldl_insert_sorted []). Qed.

Lemma repr_denotes v : plain v → denotes (append_repr v) v.
Proof.
  induction v as [v Hnl Hnm|l IH|m IH] using value_nested_ind; intros Hp.
  - destruct Hp as [| |[]|s|z Hz|d Hf Hd|l _|m _ _]; [apply den_word; unfold word; by auto 10..| | | | |].
    + apply den_string, repr_string_quoted.
    + apply den_integer; [apply to_string_integer|done].
    + by apply den_float.
    + by destruct (Hnl l).
    + by destruct (Hnm m).
  - inversion Hp as [| | | | | |? Hl|]; subst. apply den_array, comma_list_elements. change (List.map append_repr l) with (append_repr <$> l).
    apply Forall2_fmap_l, Forall2_same_length_lookup_2; [done|]. intros i x y Hx Hy. simplify_eq.
    rewrite Forall_lookup in IH, Hl. by apply (IH i), (Hl i).
  - inversion Hp as [| | | | | | |? Hs Hm]; subst. rewrite <- (of_members_sorted m Hs) at 2. apply den_map, comma_list_members.
    rewrite Forall_lookup in IH, Hm. clear Hs Hp.
    assert (Forall2 (λ t kv, ∃ t', t = member_text kv.1 t' ∧ denotes t' kv.2)
      ((λ '(k, v), repr_string k ++ $": " ++ append_repr v) <$> m) m) as HF; [|exact HF].
    apply Forall2_fmap_l, Forall2_same_length_lookup_2; [done|]. intros i [k v] kv Hx Hy. rewrite Hx in Hy. injection Hy as <-.
    exists (append_repr v). split; [done|]. apply (IH i (k, v) Hx), (Hm i (k, v) Hx).
Qed.

(** What [Value::repr] writes for a value is parsed as the same value, whatever is in its strings. *)
Theorem repr_roundtrip v : plain v → parse (repr v) = Ret v.
Proof.
  intros Hp. apply parse_correct. exists [], (repr v), []. rewrite app_nil_r. split_and!; [done|constructor..|by apply repr_denotes].
Qed.
End repr.

(** ** An instance *)

(** Floating point numbers that are integers, written with a fraction; no objects and functions. *)
Module Sample.
Definition text (d : Z) : str := to_string d ++ $".0".
Definition value_of_text (t : str) : result Z :=
  let '(negative, t) := match t with c :: t' => if bool_decide (c = "-"%char) then (true, t') else (false, t) | [] => (false, []) end in
  let z := dec_value (leading_digits t) 0 in
  Ok (if negative : bool then - z else z).

#[export] Instance scripting : Scripting := {|
  double := Z; stod := value_of_text; format_g := text; dtoa := text; double_integer := Some;
  object := Empty_set; object_repr := λ _, []; object_descr := λ _ _ _, [];
  function := Empty_set; function_repr := λ _, []; function_descr := λ _ _ _, [] |}.

Definition v1 : value :=
  VMap [($"a", VArray [VInteger (-7); VFloat 1500; VString ($"it's" ++ [newline])]); ($"b", VNull); ($"c", VArray [])].

Lemma v1_plain : plain v1.
Proof.
  assert (float_text (text 1500)) as Hf.
  { exists [], ($"1500"), ($".0"), []. split_and!; [by left|by repeat constructor|done| |by left|done].
    right. exists ($"0"). by repeat constructor. }
  constructor; [by repeat constructor|]. repeat constructor; done.
Defined.
End Sample.

(** The text of [v1], as it is written. *)
Definition v1_text : str := $"{" ++ repr_string ($"a") ++ $": [-7, 1500.0, " ++ repr_string ($"it's" ++ [newline]) ++ $"], " ++
  repr_string ($"b") ++ $": null, " ++ repr_string ($"c") ++ $": []}".

Lemma repr_roundtrip_witness : repr (H:=Sample.scripting) Sample.v1 = v1_text ∧ parse (H:=Sample.scripting) (repr Sample.v1) = Ret Sample.v1.
Proof. split; [reflexivity|]. exact (repr_roundtrip (H:=Sample.scripting) Sample.v1 Sample.v1_plain). Defined.

(** ** What goes wrong *)

Section wrong.
Import Sample.

(** A number without sign is read as one with sign, and binary data is not read at all. *)
Lemma unsigned_read_signed : parse (repr (VUInteger 5)) = Ret (VInteger 5).
Proof. reflexivity. Qed.

Lemma large_unsigned_undefined : parse (repr (VUInteger (2 ^ 64 - 1))) = Undefined.
Proof. reflexivity. Qed.

Lemma binary_not_read : ∃ e, parse (repr (VBinary ($"abc"))) = Raise e.
Proof. eexists. reflexivity. Qed.

(** Texts that end where the code reads on: behind a backslash, and before the value of a
    member. *)
Lemma backslash_at_end_undefined : parse ([double_quote] ++ $"abc\") = Undefined.
Proof. reflexivity. Qed.

Lemma member_without_value_undefined : parse ($"{'a':") = Undefined.
Proof. reflexivity. Qed.

(** JSON that is not read: an escaped slash; a character outside of the basic plane, written as
    two escapes, becomes six bytes that are not UTF-8. *)
Lemma escaped_slash_rejected : ∃ e, parse ([double_quote] ++ $"\/" ++ [double_quote]) = Raise e.
Proof. eexists. reflexivity. Qed.

Lemma surrogates_not_combined :
  parse ([double_quote] ++ $"\ud83d\ude00" ++ [double_quote]) =
  Ret (VString (byte_of <$> [237; 160; 189; 237; 184; 128])).
Proof. reflexivity. Qed.

Lemma surrogates_not_utf8 : is_valid_utf8 (byte_of <$> [237; 160; 189; 237; 184; 128]) (λ _, "000"%char) = false.
Proof. reflexivity. Qed.
End wrong.
