(* ===== verification/JsonDumper.v ===== *)
(** * Writing JSON

    Model of [mysqlshdk/libs/utils/utils_json.{h,cc}]: [JSON_dumper], which passes the parts of a
    document to a writer of RapidJSON.  The writer is the class [Json_writer]: its text is a
    function of the calls it gets, and its law says that for the calls of a document it is a
    JSON text of the document. *)
From S2P Require Import Prelude UtilsString StdMap ScriptValue.

Open Scope Z_scope.

#[local] Set Warnings "-register-all".

Section events.
Context `{Scripting}.

(** ** Documents *)

(** The calls of a writer. *)
Inductive event :=
  | StartArray | EndArray | StartObject | EndObject | Null | Bool (b : bool)
  | Int64 (z : Z) | Uint64 (z : Z) | Double (d : double) | Str (s : str).

Inductive json_doc :=
  | JNull | JBool (b : bool) | JInt (z : Z) | JUint (z : Z) | JDouble (d : double) | JString (s : str)
  | JArray (l : list json_doc)
  | JObject (l : list (str * json_doc)).

Fixpoint events_of (d : json_doc) : list event :=
  match d with
  | JNull => [Null]
  | JBool b => [Bool b]
  | JInt z => [Int64 z]
  | JUint z => [Uint64 z]
  | JDouble d => [Double d]
  | JString s => [Str s]
  | JArray l => [StartArray] ++ concat (List.map events_of l) ++ [EndArray]
  | JObject l => [StartObject] ++ concat (List.map (λ '(k, d), Str k :: events_of d) l) ++ [EndObject]
  end.
End events.

(** ** JSON texts (RFC 8259) *)

Definition json_ws (w : str) : Prop := Forall (λ c, c = " "%char ∨ uch c = 9 ∨ uch c = 10 ∨ uch c = 13) w.

(** The escape of a character that has one of its own. *)
Definition json_escape (c : ascii) : option ascii :=
  if bool_decide (c = double_quote) then Some double_quote
  else if bool_decide (c = backslash) then Some backslash
  else if bool_decide (uch c = 8) then Some "b"%char
  else if bool_decide (uch c = 12) then Some "f"%char
  else if bool_decide (uch c = 10) then Some "n"%char
  else if bool_decide (uch c = 13) then Some "r"%char
  else if bool_decide (uch c = 9) then Some "t"%char
  else None.

(** Characters between the quotes: themselves, or escaped. *)
Inductive json_chars : str → str → Prop :=
  | chars_nil : json_chars [] []
  | chars_plain c t s :
      c ≠ double_quote → c ≠ backslash → 32 <= uch c → json_chars t s → json_chars (c :: t) (c :: s)
  | chars_escape c e t s : json_escape c = Some e → json_chars t s → json_chars (backslash :: e :: t) (c :: s)
  | chars_control c h1 h2 t s :
      uch c < 32 → isxdigit h1 = true → isxdigit h2 = true → uch c = ascii_to_hex h1 * 16 + ascii_to_hex h2 →
      json_chars t s → json_chars ($"\u00" ++ [h1; h2] ++ t) (c :: s).

Definition json_string (t s : str) : Prop := ∃ body, t = [double_quote] ++ body ++ [double_quote] ∧ json_chars body s.

(** What the writer does with the calls; [fmt_double] is the text [My_writer] gives it for a
    number. *)
Class Json_format `{Scripting} := {
  fmt_double : double → str;
  encode_base64 : str → str;
  object_json : object → list event;
  function_json : function → list event;
  writer_text : bool → list event → str }.

Section json.
Context `{Json_format}.

Inductive json_text : str → json_doc → Prop :=
  | text_null : json_text ($"null") JNull
  | text_bool (b : bool) : json_text (if b then $"true" else $"false") (JBool b)
  | text_int z : json_text (to_string z) (JInt z)
  | text_uint z : json_text (to_string z) (JUint z)
  | text_double d : json_text (fmt_double d) (JDouble d)
  | text_string t s : json_string t s → json_text t (JString s)
  | text_array t l : json_elements t l → json_text ($"[" ++ t ++ $"]") (JArray l)
  | text_object t l : json_members t l → json_text ($"{" ++ t ++ $"}") (JObject l)
with json_elements : str → list json_doc → Prop :=
  | jelem_none w : json_ws w → json_elements w []
  | jelem_last w1 t w2 d : json_ws w1 → json_ws w2 → json_text t d → json_elements (w1 ++ t ++ w2) [d]
  | jelem_more w1 t w2 d t' d' l :
      json_ws w1 → json_ws w2 → json_text t d → json_elements t' (d' :: l) →
      json_elements (w1 ++ t ++ w2 ++ $"," ++ t') (d :: d' :: l)
with json_members : str → list (str * json_doc) → Prop :=
  | jmemb_none w : json_ws w → json_members w []
  | jmemb_last w1 w2 w3 w4 tk k t d :
      json_ws w1 → json_ws w2 → json_ws w3 → json_ws w4 → json_string tk k → json_text t d →
      json_members (w1 ++ tk ++ w2 ++ $":" ++ w3 ++ t ++ w4) [(k, d)]
  | jmemb_more w1 w2 w3 w4 tk k t d t' kd l :
      json_ws w1 → json_ws w2 → json_ws w3 → json_ws w4 → json_string tk k → json_text t d → json_members t' (kd :: l) →
      json_members (w1 ++ tk ++ w2 ++ $":" ++ w3 ++ t ++ w4 ++ $"," ++ t') ((k, d) :: kd :: l).
End json.

(** The writer is correct, and without indentation it writes one line. *)
Class Json_writer `{Json_format} := {
  writer_ok pprint d : json_text (writer_text pprint (events_of d)) d;
  writer_line d : newline ∉ writer_text false (events_of d) }.

(** ** The dumper *)

Record JSON_dumper `{Scripting} := {
  _deep_level : Z;
  _binary_limit : nat;
  _pprint : bool;
  _writer : list event }.           (* the calls of the writer so far *)

Section dumper.
Context `{Json_format}.

Definition make_JSON_dumper (pprint : bool) (binary_limit : nat) : JSON_dumper :=
  {| _deep_level := 0; _binary_limit := binary_limit; _pprint := pprint; _writer := [] |}.

(** A call of the writer. *)
Definition write_events (json : JSON_dumper) (l : list event) : JSON_dumper :=
  {| _deep_level := _deep_level json; _binary_limit := _binary_limit json; _pprint := _pprint json;
     _writer := _writer json ++ l |}.
Definition deeper (json : JSON_dumper) (n : Z) : JSON_dumper :=
  {| _deep_level := _deep_level json + n; _binary_limit := _binary_limit json; _pprint := _pprint json;
     _writer := _writer json |}.

Definition start_array (json : JSON_dumper) : JSON_dumper := write_events (deeper json 1) [StartArray].
Definition end_array (json : JSON_dumper) : JSON_dumper := write_events (deeper json (-1)) [EndArray].
Definition start_object (json : JSON_dumper) : JSON_dumper := write_events (deeper json 1) [StartObject].
Definition end_object (json : JSON_dumper) : JSON_dumper := write_events (deeper json (-1)) [EndObject].

(** The calls for a value; nothing is written for an undefined one.  A value never holds a
    null reference to an object, an array, a map or a function: the constructors of [Value]
    (types.cc, 910-964) store [Null] for it.  The branches of [append_value] for such references
    are therefore the case of [VNull], which makes the same call. *)
Fixpoint value_events (binary_limit : nat) (v : value) : list event :=
  match v with
  | VUndefined => []
  | VNull => [Null]
  | VBool b => [Bool b]
  | VInteger z => [Int64 z]
  | VUInteger z => [Uint64 z]
  | VFloat d => [Double d]
  | VString s => [Str s]
  | VObject o => object_json o
  | VArray l => [StartArray] ++ concat (List.map (value_events binary_limit) l) ++ [EndArray]
  | VMap m => [StartObject] ++ concat (List.map (λ '(k, v), Str k :: value_events binary_limit v) m) ++ [EndObject]
  | VFunction f => function_json f
  | VBinary s =>
      let max_length := if bool_decide (0 < binary_limit)%nat then length s `min` (binary_limit + 1) else length s in
      [Str (encode_base64 (take max_length s))]
  end%nat.

Definition append_value (json : JSON_dumper) (v : value) : JSON_dumper := write_events json (value_events (_binary_limit json) v).
Definition append_key_value (json : JSON_dumper) (key : str) (v : value) : JSON_dumper :=
  append_value (write_events json [Str key]) v.
Definition append_null (json : JSON_dumper) : JSON_dumper := write_events json [Null].
Definition append_bool (json : JSON_dumper) (key : str) (data : bool) : JSON_dumper := write_events json [Str key; Bool data].
Definition append_int64 (json : JSON_dumper) (key : str) (data : Z) : JSON_dumper := write_events json [Str key; Int64 data].
Definition append_uint64 (json : JSON_dumper) (key : str) (data : Z) : JSON_dumper := write_events json [Str key; Uint64 data].
Definition append_string (json : JSON_dumper) (key data : str) : JSON_dumper := write_events json [Str key; Str data].
Definition append_float (json : JSON_dumper) (key : str) (data : double) : JSON_dumper := write_events json [Str key; Double data].

Definition dumper_str (json : JSON_dumper) : str := writer_text (_pprint json) (_writer json).

(** [Value::json] *)
Definition value_json (v : value) (pprint : bool) : str := dumper_str (append_value (make_JSON_dumper pprint 0) v).
End dumper.
