(* ===== verification/JsonDumperFacts.v ===== *)
(** * Writing JSON: theorems

    JSON texts are texts of the grammar of [Value::parse], so that what a dumper writes is parsed
    as the same document; and a writer that has the law of [Json_writer]. *)
From S2P Require Import Prelude UtilsString UtilsStringFacts GtidUtils GtidUtilsFacts StdMap ScriptValue ScriptValueFacts.
From S2P Require Import ScriptReprFacts JsonDumper.

Open Scope Z_scope.

#[local] Set Warnings "-register-all".

(** ** Texts *)

Lemma json_ws_blank w : json_ws w → blank w.
Proof.
  intros Hw. eapply Forall_impl; [exact Hw|]. intros c. cbn. unfold ws_char, in_range. intros [->|E]; [done|].
  apply orb_true_iff. right. apply andb_true_iff. split; apply Z.leb_le; lia.
Qed.

Lemma json_escape_simple c e : json_escape c = Some e → simple_escape e = Some c.
Proof.
  assert (∀ c, match json_escape c with Some e => bool_decide (simple_escape e = Some c) | None => true end = true) as Hc
    by (intros x; by_bytes x).
  specialize (Hc c). intros E. rewrite E in Hc. by bool_to_prop.
Qed.

Lemma hex_range h : isxdigit h = true → 0 <= ascii_to_hex h < 16.
Proof.
  assert (∀ h, negb (isxdigit h) || ((0 <=? ascii_to_hex h) && (ascii_to_hex h <? 16)) = true) as Hh by (intros x; by_bytes x).
  specialize (Hh h). intros E. rewrite E in Hh. cbn [negb orb] in Hh. bool_to_prop. lia.
Qed.

Lemma json_chars_body t s : json_chars t s → string_body double_quote t s.
Proof.
  induction 1 as [|c t s H1 H2 _ _ IH|c e t s E _ IH|c h1 h2 t s Hc H1 H2 E _ IH]; [constructor|by constructor|..].
  - constructor; [by apply json_escape_simple|done].
  - change (c :: s) with ([c] ++ s). apply body_unicode; [done..| |done]. pose proof (hex_range h1 H1). pose proof (hex_range h2 H2).
    assert (hex4 "0" "0" h1 h2 = uch c) as ->.
    { unfold hex4. change (ascii_to_hex "0") with 0. rewrite !Z.shiftl_0_l, !Z.lor_0_l, E.       rewrite Z.shiftl_mul_pow2 by lia. change (2 ^ 4) with 16. apply (lor_add _ _ 4); [lia|by apply Z.mod_mul|lia]. }
    unfold unicode_codepoint_to_utf8. pose proof (uch_range c). rewrite (proj2 (Z.leb_le _ _)) by lia. by rewrite byte_of_uch.
Qed.

Lemma json_string_quoted t s : json_string t s → quoted t s.
Proof. intros (body & -> & Hb). exists double_quote, body. split_and!; [by left|done|by apply json_chars_body]. Qed.

Section texts.
Context `{Json_format}.

(** What is read for a document: all integers are signed. *)
Fixpoint value_of (d : json_doc) : value :=
  match d with
  | JNull => VNull
  | JBool b => VBool b
  | JInt z | JUint z => VInteger z
  | JDouble d => VFloat d
  | JString s => VString s
  | JArray l => VArray (List.map value_of l)
  | JObject l => VMap (of_members (List.map (λ '(k, d), (k, value_of d)) l))
  end.

(** Documents whose numbers can be read: integers of 64 bits with sign, and floating point
    numbers whose text is exact, and not that of an integer. *)
Fixpoint doc_ok (d : json_doc) : Prop :=
  match d with
  | JInt z | JUint z => INT64_MIN <= z <= INT64_MAX
  | JDouble d => float_text (fmt_double d) ∧ stod (fmt_double d) = Ok d
  | JArray l => fold_right (λ d P, doc_ok d ∧ P) True l
  | JObject l => fold_right (λ '(_, d) P, doc_ok d ∧ P) True l
  | _ => True
  end.
End texts.

Scheme json_text_mut := Induction for json_text Sort Prop
  with json_elements_mut := Induction for json_elements Sort Prop
  with json_members_mut := Induction for json_members Sort Prop.

Section parsing.
Context `{Json_format}.

(** A JSON text is a text of the value. *)
Lemma json_denotes t d : json_text t d → doc_ok d → denotes t (value_of d).
Proof.
  intros Ht. revert t d Ht. apply (json_text_mut _ _
    (λ t d _, doc_ok d → denotes t (value_of d))
    (λ t l _, doc_ok (JArray l) → elements t (List.map value_of l))
    (λ t l _, doc_ok (JObject l) → members t (List.map (λ '(k, d), (k, value_of d)) l))).
  - intros _. apply den_word. unfold word. auto 10.
  - intros [] _; apply den_word; unfold word; auto 10.
  - intros z Hz. apply den_integer; [apply to_string_integer|done].
  - intros z Hz. apply den_integer; [apply to_string_integer|done].
  - intros d [Hf Hd]. by apply den_float.
  - intros t s Hs _. by apply den_string, json_string_quoted.
  - intros t l _ IH Hl. by apply den_array, IH.
  - intros t l _ IH Hl. by apply den_map, IH.
  - intros w Hw _. by apply elem_none, json_ws_blank.
  - intros w1 t w2 d Hw1 Hw2 _ IH [Hd _]. apply elem_last; [by apply json_ws_blank..|by apply IH].
  - intros w1 t w2 d t' d' l Hw1 Hw2 _ IH _ IHl [Hd Hl]. apply elem_more; [by apply json_ws_blank..|by apply IH|by apply IHl].
  - intros w Hw _. by apply memb_none, json_ws_blank.
  - intros w1 w2 w3 w4 tk k t d Hw1 Hw2 Hw3 Hw4 Hk _ IH [Hd _].
    apply memb_last; [by apply json_ws_blank..|by apply json_string_quoted|by apply IH].
  - intros w1 w2 w3 w4 tk k t d t' kd l Hw1 Hw2 Hw3 Hw4 Hk _ IH _ IHl [Hd Hl].
    apply memb_more; [by apply json_ws_blank..|by apply json_string_quoted|by apply IH|by apply IHl].
Qed.

(** What the writer makes of the calls for a document is parsed as the document. *)
Lemma written_document_parsed `{!Json_writer} pprint d : doc_ok d → parse (writer_text pprint (events_of d)) = Ret (value_of d).
Proof.
  intros Hd. apply parse_correct. exists [], (writer_text pprint (events_of d)), []. rewrite app_nil_r.
  split_and!; [done|constructor..|]. apply json_denotes; [apply writer_ok|done].
Qed.

(** ** Values *)

(** The document of a value. *)
Fixpoint doc_of (v : value) : json_doc :=
  match v with
  | VBool b => JBool b
  | VInteger z => JInt z
  | VUInteger z => JUint z
  | VFloat d => JDouble d
  | VString s => JString s
  | VArray l => JArray (List.map doc_of l)
  | VMap m => JObject (List.map (λ '(k, v), (k, doc_of v)) m)
  | _ => JNull
  end.

(** Values that JSON has: not undefined, and no binary data, objects and functions. *)
Inductive json_value : value → Prop :=
  | jv_null : json_value VNull
  | jv_bool b : json_value (VBool b)
  | jv_string s : json_value (VString s)
  | jv_integer z : INT64_MIN <= z <= INT64_MAX → json_value (VInteger z)
  | jv_uinteger z : 0 <= z <= INT64_MAX → json_value (VUInteger z)
  | jv_float d : float_text (fmt_double d) → stod (fmt_double d) = Ok d → json_value (VFloat d)
  | jv_array l : Forall json_value l → json_value (VArray l)
  | jv_map m : map_sorted id m → Forall (λ kv, json_value kv.2) m → json_value (VMap m).

(** The value that is read: numbers without sign have one. *)
Fixpoint signed (v : value) : value :=
  match v with
  | VUInteger z => VInteger z
  | VArray l => VArray (List.map signed l)
  | VMap m => VMap (List.map (λ '(k, v), (k, signed v)) m)
  | v => v
  end.

Lemma map_ext_Forall {A B} (f g : A → B) l : Forall (λ x, f x = g x) l → List.map f l = List.map g l.
Proof. induction 1 as [|x l E _ IH]; [done|]. cbn. by rewrite E, IH. Qed.

Lemma signed_sorted (m : list (str * value)) : map_sorted id m → map_sorted id (List.map (λ '(k, v), (k, signed v)) m).
Proof.
  induction m as [|[k v] m IH]; [done|]. intros [Hb Hs]. split; [|by apply IH].
  clear -Hb. induction Hb as [|[k' v'] m Hk _ IH]; constructor; done.
Qed.

Lemma doc_of_events v : json_value v → value_events 0 v = events_of (doc_of v) ∧ doc_ok (doc_of v) ∧ value_of (doc_of v) = signed v.
Proof.
  induction v as [v Hnl Hnm|l IH|m IH] using value_nested_ind; intros Hv.
  - destruct Hv as [| | |z Hz|z Hz|d Hf Hd|l _|m _ _]; try done; [|by destruct (Hnl l)|by destruct (Hnm m)].
    split_and!; [done| |done]. cbn. unfold INT64_MIN. lia.
  - inversion Hv as [| | | | | |? Hl|]; subst. rewrite Forall_forall in IH, Hl. cbn [value_events doc_of events_of value_of signed doc_ok].
    rewrite !List.map_map. split_and!.
    + do 3 f_equal. apply map_ext_Forall, Forall_forall. intros x Hx. apply (IH x Hx), Hl, Hx.
    + clear Hv. induction l as [|x l IHl]; [done|]. split; [apply (IH x), Hl; left|]. apply IHl; intros y Hy; [apply IH|apply Hl]; by right.
    + f_equal. apply map_ext_Forall, Forall_forall. intros x Hx. apply (IH x Hx), Hl, Hx.
  - inversion Hv as [| | | | | | |? Hs Hm]; subst. rewrite Forall_forall in IH, Hm. cbn [value_events doc_of events_of value_of signed doc_ok].
    rewrite !List.map_map. split_and!.
    + do 3 f_equal. apply map_ext_Forall, Forall_forall. intros [k x] Hx. f_equal. apply (IH (k, x) Hx), (Hm (k, x) Hx).
    + clear Hv Hs. induction m as [|[k x] m IHm]; [done|]. split; [apply (IH (k, x)), (Hm (k, x)); left|].
      apply IHm; intros y Hy; [apply IH|apply Hm]; by right.
    + f_equal. rewrite <- (of_members_sorted (List.map (λ '(k, v), (k, signed v)) m)) by (by apply signed_sorted). f_equal.
      apply map_ext_Forall, Forall_forall. intros [k x] Hx. f_equal. apply (IH (k, x) Hx), (Hm (k, x) Hx).
Qed.

(** C13: The JSON text JSON_dumper writes for a value, with a writer that writes JSON, is
    parsed by Value::parse as the same value, whatever is in its strings; unsigned numbers
    become signed numbers. This is for values made of null, booleans, strings, integers of
    64 bits, unsigned ones up to INT64_MAX, arrays and dictionaries, and of the floating
    point numbers whose text is one with a fraction or an exponent that stod reads as the
    number it was written for; undefined, binary data, objects and functions are not
    written as something that is read back. *)
Theorem json_roundtrip `{!Json_writer} v pprint : json_value v → parse (value_json v pprint) = Ret (signed v).
Proof.
  intros (E & Hd & <-)%doc_of_events. unfold value_json, dumper_str, append_value. cbn [_pprint _writer write_events make_JSON_dumper app].
  cbn [_binary_limit make_JSON_dumper]. rewrite E. by apply written_document_parsed.
Qed.
End parsing.

(** ** A writer *)

(** The compact writer: it keeps for each open array or object how many values were written,
    and separates them by commas, or a key from its value by a colon. *)
Module Compact.
Import ScriptReprFacts.Sample.

Definition char_text (c : ascii) : str :=
  match json_escape c with
  | Some e => [backslash; e]
  | None => if uch c <? 32 then $"\u00" ++ [hex_char (uch c / 16); hex_char (uch c mod 16)] else [c]
  end.
Definition string_text (s : str) : str := [double_quote] ++ concat (char_text <$> s) ++ [double_quote].

Record state := { out : str; levels : list (bool * nat) }.

Definition separator (in_array : bool) (n : nat) : str :=
  if bool_decide (n = 0%nat) then [] else if in_array || Nat.even n then $"," else $":".

Definition prefix (st : state) : state :=
  match levels st with
  | [] => st
  | (in_array, n) :: l => {| out := out st ++ separator in_array n; levels := (in_array, S n) :: l |}
  end.
Definition put (t : str) (st : state) : state := {| out := out st ++ t; levels := levels st |}.
Definition open (in_array : bool) (t : str) (st : state) : state :=
  {| out := out st ++ t; levels := (in_array, 0%nat) :: levels st |}.
Definition close (t : str) (st : state) : state := {| out := out st ++ t; levels := tail (levels st) |}.

Definition step (st : state) (e : event) : state :=
  match e with
  | StartArray => open true ($"[") (prefix st)
  | EndArray => close ($"]") st
  | StartObject => open false ($"{") (prefix st)
  | EndObject => close ($"}") st
  | Null => put ($"null") (prefix st)
  | Bool b => put (if b then $"true" else $"false") (prefix st)
  | Int64 z | Uint64 z => put (to_string z) (prefix st)
  | Double d => put (text d) (prefix st)
  | Str s => put (string_text s) (prefix st)
  end.

#[export] Instance format : Json_format := {|
  fmt_double := text; encode_base64 := λ s, s; object_json := λ _, [Null]; function_json := λ _, [Null];
  writer_text := λ _ l, out (foldl step {| out := []; levels := [] |} l) |}.

Fixpoint items (first : bool) (l : list str) : str :=
  match l with
  | [] => []
  | t :: l => (if first then [] else $",") ++ t ++ items false l
  end.

Fixpoint compact (d : json_doc) : str :=
  match d with
  | JNull => $"null"
  | JBool b => if b then $"true" else $"false"
  | JInt z | JUint z => to_string z
  | JDouble d => text d
  | JString s => string_text s
  | JArray l => $"[" ++ items true (List.map compact l) ++ $"]"
  | JObject l => $"{" ++ items true (List.map (λ '(k, d), string_text k ++ $":" ++ compact d) l) ++ $"}"
  end.

Lemma doc_nested_ind (P : json_doc → Prop) :
  (∀ d, (∀ l, d ≠ JArray l) → (∀ l, d ≠ JObject l) → P d) →
  (∀ l, Forall P l → P (JArray l)) → (∀ l, Forall (λ kd, P kd.2) l → P (JObject l)) → ∀ d, P d.
Proof.
  intros Hd Hl Hm. fix IH 1. intros [| | | | | |l|l]; try (by apply Hd).
  - apply Hl. induction l as [|v l IHl]; constructor; [apply IH|apply IHl].
  - apply Hm. induction l as [|[k v] l IHl]; constructor; [apply IH|apply IHl].
Qed.

(** The calls for a document write its text as one value. *)
Lemma step_document d st : foldl step st (events_of d) = put (compact d) (prefix st).
Proof.
  revert st. induction d as [d Hl Hm|l IH|l IH] using doc_nested_ind; intros st.
  - destruct d; try done; [by destruct (Hl l)|by destruct (Hm l)].
  - cbn [events_of compact]. rewrite !foldl_app. cbn [foldl step].
    set (st0 := prefix st). assert (∀ n o, foldl step {| out := o; levels := (true, n) :: levels st0 |} (concat (List.map events_of l)) =
      {| out := o ++ items (bool_decide (n = 0%nat)) (List.map compact l); levels := (true, n + length l)%nat :: levels st0 |}) as E.
    { clearbody st0. induction IH as [|d l Hd _ IHl]; intros n o; [cbn; by rewrite app_nil_r, Nat.add_0_r|].
      cbn [List.map concat items length]. rewrite foldl_app, Hd. unfold prefix, put. cbn [levels out]. rewrite IHl.
      rewrite bool_decide_eq_false_2 by done. f_equal; [|f_equal; f_equal; lia]. unfold separator. cbn [orb].
      by case_bool_decide; rewrite <- !app_assoc. }
    unfold open. rewrite E, bool_decide_eq_true_2 by done. unfold close, put. cbn [out levels tail]. by rewrite <- !app_assoc.
  - cbn [events_of compact]. rewrite !foldl_app. cbn [foldl step].
    set (st0 := prefix st). assert (∀ n o, foldl step {| out := o; levels := (false, 2 * n)%nat :: levels st0 |}
        (concat (List.map (λ '(k, d), Str k :: events_of d) l)) =
      {| out := o ++ items (bool_decide (n = 0%nat)) (List.map (λ '(k, d), string_text k ++ $":" ++ compact d) l);
         levels := (false, 2 * (n + length l))%nat :: levels st0 |}) as E.
    { clearbody st0. induction IH as [|[k d] l Hd _ IHl]; intros n o; [cbn [List.map concat foldl items length]; by rewrite app_nil_r, Nat.add_0_r|].
      cbn [List.map concat items length snd] in *. rewrite foldl_app. cbn [foldl step]. rewrite Hd. unfold prefix, put. cbn [levels out].
      replace (S (S (2 * n))) with (2 * S n)%nat by lia. rewrite IHl. rewrite (bool_decide_eq_false_2 (S n = _)) by done.
      f_equal; [|f_equal; f_equal; lia]. unfold separator. cbn [orb]. rewrite (bool_decide_eq_false_2 (S _ = _)) by done.
      rewrite Nat.even_succ, Nat.odd_mul, Nat.even_mul. cbn [Nat.odd Nat.even negb andb orb].
      rewrite (bool_decide_ext (2 * n = 0)%nat (n = 0)%nat) by lia. by case_bool_decide; rewrite <- !app_assoc. }
    unfold open. rewrite (E 0%nat), bool_decide_eq_true_2 by done. unfold close, put. cbn [out levels tail]. by rewrite <- !app_assoc.
Qed.

Lemma char_text_chars s : json_chars (concat (char_text <$> s)) s.
Proof.
  induction s as [|c s IH]; [constructor|]. cbn [fmap list_fmap concat]. unfold char_text at 1.
  destruct (json_escape c) as [e|] eqn:E; [by constructor|]. destruct (Z.ltb_spec (uch c) 32) as [Hc|Hc].
  - rewrite <- app_assoc. pose proof (uch_range c).
    assert (∀ c, negb (uch c <? 32) || (isxdigit (hex_char (uch c / 16)) && isxdigit (hex_char (uch c mod 16)) &&
      (uch c =? ascii_to_hex (hex_char (uch c / 16)) * 16 + ascii_to_hex (hex_char (uch c mod 16)))) = true) as Hh by (intros x; by_bytes x).
    specialize (Hh c). rewrite (proj2 (Z.ltb_lt _ _) Hc) in Hh. cbn [negb orb] in Hh. bool_to_prop. by apply chars_control.
  - apply chars_plain; [intros ->; done|intros ->; done|done|done].
Qed.

Lemma string_text_json s : json_string (string_text s) s.
Proof. exists (concat (char_text <$> s)). split; [done|apply char_text_chars]. Qed.

Lemma compact_json d : json_text (compact d) d.
Proof.
  induction d as [d Hl Hm|l IH|l IH] using doc_nested_ind.
  - destruct d as [| |z|z|d|s|l|l];
      [apply text_null|apply text_bool|apply text_int|apply text_uint|exact (@text_double _ format d)|apply text_string, string_text_json|
       by destruct (Hl l)|by destruct (Hm l)].
  - apply text_array. destruct l as [|d l]; [by repeat constructor|]. cbn [List.map items app].
    revert d IH. induction l as [|d' l IHl]; intros d [Hd Hl]%Forall_cons.
    + apply (jelem_last [] (compact d) []); [constructor..|done].
    + cbn [List.map items app]. apply (jelem_more [] (compact d) []); [constructor..|done|]. by apply IHl.
  - apply text_object. destruct l as [|[k d] l]; [by repeat constructor|]. cbn [List.map items app]. pose proof string_text_json as Hs.
    revert k d IH. induction l as [|[k' d'] l IHl]; intros k d [Hd Hl]%Forall_cons; cbn [snd] in Hd.
    + rewrite <- app_assoc. apply (jmemb_last [] [] [] [] (string_text k) k (compact d) d); [constructor..|done|done].
    + cbn [List.map items app]. rewrite <- (app_assoc (string_text k)), <- (app_assoc ($":")).
      apply (jmemb_more [] [] [] [] (string_text k) k (compact d) d); [constructor..|done|done|]. by apply IHl.
Qed.

(** The text is one line. *)
Lemma to_string_line z : newline ∉ to_string z.
Proof.
  assert (∀ n, 0 <= n → newline ∉ dec n) as Hd.
  { intros n Hn. destruct (dec_spec n Hn) as (_ & Hf & _). rewrite Forall_forall in Hf. intros Hc%Hf. by vm_compute in Hc. }
  unfold to_string. destruct (Z.ltb_spec z 0); [|by apply Hd]. intros [E|Hc]%elem_of_cons; [by vm_compute in E|]. by apply Hd in Hc; [|lia].
Qed.

Lemma string_text_line s : newline ∉ string_text s.
Proof.
  unfold string_text. rewrite !elem_of_app, !list_elem_of_singleton. intros [E|[Hc|E]]; [by vm_compute in E| |by vm_compute in E].
  induction s as [|c s IH]; [by apply elem_of_nil in Hc|]. cbn [fmap list_fmap concat] in Hc. apply elem_of_app in Hc as [Hc|Hc]; [|by apply IH].
  assert (∀ c, bool_decide (newline ∈ char_text c) = false) as Hx by (intros x; by_bytes x). specialize (Hx c). bool_to_prop. done.
Qed.

Lemma items_line first l : Forall (λ t, newline ∉ t) l → newline ∉ items first l.
Proof.
  intros Hl. revert first. induction Hl as [|t l Ht _ IH]; intros first; cbn [items]; [by intros ?%elem_of_nil|].
  rewrite !elem_of_app. intros [Hc|[Hc|Hc]]; [|done|by apply IH in Hc]. destruct first; [by apply elem_of_nil in Hc|by apply list_elem_of_singleton in Hc].
Qed.

Lemma compact_line d : newline ∉ compact d.
Proof.
  assert (∀ a t b, newline ∉ a → newline ∉ t → newline ∉ b → newline ∉ a ++ t ++ b) as Happ
    by (intros a t b Ha Ht Hb; rewrite !elem_of_app; tauto).
  induction d as [d Hl Hm|l IH|l IH] using doc_nested_ind.
  - destruct d as [| []| | |d| |l|l]; cbn [compact]; try (by apply to_string_line); try (by apply string_text_line);
      try (by destruct (Hl l)); try (by destruct (Hm l)); try (by apply (bool_decide_unpack _)).
    unfold text. rewrite elem_of_app. intros [Hc|Hc]; [by apply to_string_line in Hc|]. revert Hc. by apply (bool_decide_unpack _).
  - cbn [compact]. apply Happ; [by apply (bool_decide_unpack _)| |by apply (bool_decide_unpack _)].
    apply items_line. change (List.map compact l) with (compact <$> l). by apply Forall_fmap.
  - cbn [compact]. apply Happ; [by apply (bool_decide_unpack _)| |by apply (bool_decide_unpack _)].
    apply items_line. induction IH as [|[k d] l Hd _ IHl]; constructor; [|done].
    apply Happ; [apply string_text_line|by apply (bool_decide_unpack _)|done].
Qed.

#[export] Instance writer : Json_writer.
Proof.
  split; unfold writer_text, format.
  - intros pprint d. rewrite step_document. apply compact_json.
  - intros d. rewrite step_document. apply compact_line.
Qed.
End Compact.

Lemma json_roundtrip_witness :
  value_json (H:=Sample.scripting) (H0:=Compact.format) (VMap [($"a", VArray [VUInteger 7; VNull]); ($"b", VString ($"x"))]) false =
    $"{" ++ [double_quote] ++ $"a" ++ [double_quote] ++ $":[7,null]," ++ [double_quote] ++ $"b" ++ [double_quote] ++ $":" ++
    [double_quote] ++ $"x" ++ [double_quote] ++ $"}" ∧
  parse (H:=Sample.scripting) (value_json (H0:=Compact.format) (VMap [($"a", VArray [VUInteger 7; VNull]); ($"b", VString ($"x"))]) false) =
    Ret (VMap [($"a", VArray [VInteger 7; VNull]); ($"b", VString ($"x"))]).
Proof.
  split; [reflexivity|].
  apply (@json_roundtrip Sample.scripting Compact.format Compact.writer (VMap [($"a", VArray [VUInteger 7; VNull]); ($"b", VString ($"x"))]) false).
  constructor; [by repeat constructor|]. repeat constructor; done.
Defined.
