(* ===== verification/ProgressLog.v ===== *)
(** * The progress log of the loader

    Model of [modules/util/load/load_progress_log.h]: each operation of a load is logged as a line
    of JSON when it begins and when it ends; when a load is started again, the file is read and
    the status of each operation is known.

    The file at its location is [stored]; what is written to [m_file] reaches it when the file is
    flushed.  When the storage cannot append ([rewrite_on_flush]), [m_file] is a file in memory,
    which is written to the location as a whole.  Writing does not fail in the model. *)
From S2P Require Import Prelude UtilsString StdMap ScriptValue JsonDumper.

Open Scope Z_scope.

(** ** Entries *)

Record Task := { worker_id : Z; weight : Z }.

(** Status entries: what an operation is about. *)
Inductive Status_entry :=
  | Gtid_update
  | Schema_ddl (schema : str)
  | Table_ddl (schema table : str)
  | Triggers_ddl (schema table : str)
  | Table_indexes (schema table : str)
  | Analyze_table (schema table : str)
  | Table_chunk (schema table partition : str) (chunk : Z)
  | Table_subchunk (schema table partition : str) (chunk subchunk : Z)
  | Bulk_load (schema table partition : str).

Definition op (e : Status_entry) : str :=
  match e with
  | Gtid_update => $"GTID-UPDATE"
  | Schema_ddl _ => $"SCHEMA-DDL"
  | Table_ddl _ _ => $"TABLE-DDL"
  | Triggers_ddl _ _ => $"TRIGGERS-DDL"
  | Table_indexes _ _ => $"TABLE-INDEX"
  | Analyze_table _ _ => $"TABLE-ANALYZE"
  | Table_chunk _ _ _ _ => $"TABLE-DATA"
  | Table_subchunk _ _ _ _ _ => $"TABLE-SUB-DATA"
  | Bulk_load _ _ _ => $"TABLE-DATA-BULK"
  end.

(** The part of the key for a table, and for a partition if there is one. *)
Definition table_key (e : Status_entry) (schema table : str) : str := op e ++ $":`" ++ schema ++ $"`:`" ++ table.
Definition partition_key (partition : str) : str := if bool_decide (partition = []) then [] else $"`:`" ++ partition.

Definition key (e : Status_entry) : str :=
  match e with
  | Gtid_update => op e
  | Schema_ddl schema => op e ++ $":`" ++ schema ++ $"`"
  | Table_ddl schema table | Triggers_ddl schema table | Table_indexes schema table | Analyze_table schema table =>
      table_key e schema table ++ $"`"
  | Table_chunk schema table partition chunk =>
      table_key e schema table ++ partition_key partition ++ $"`:" ++ to_string chunk
  | Table_subchunk schema table partition chunk subchunk =>
      table_key e schema table ++ partition_key partition ++ $"`:" ++ to_string chunk ++ $":" ++ to_string subchunk
  | Bulk_load schema table partition => table_key e schema table ++ partition_key partition ++ $"`"
  end.

(** Entries of the log, at the start, during and at the end of an operation. *)
Inductive Log_entry :=
  | start_Gtid_update
  | start_Schema_ddl (schema : str)
  | start_Table_ddl (schema table : str) (task : Task)
  | start_Triggers_ddl (schema table : str)
  | start_Table_indexes (schema table : str) (task : Task) (indexes : Z)
  | start_Analyze_table (schema table : str) (task : Task)
  | start_Table_chunk (schema table partition : str) (chunk : Z) (task : Task)
  | start_Table_subchunk (schema table partition : str) (chunk subchunk : Z) (task : Task)
  | start_Bulk_load (schema table partition : str) (task : Task)
  | update_Bulk_load (schema table partition : str) (data_bytes : Z)
  | end_Gtid_update
  | end_Schema_ddl (schema : str)
  | end_Table_ddl (schema table : str)
  | end_Triggers_ddl (schema table : str)
  | end_Table_indexes (schema table : str)
  | end_Analyze_table (schema table : str)
  | end_Table_chunk (schema table partition : str) (chunk data_bytes file_bytes rows : Z)
  | end_Table_subchunk (schema table partition : str) (chunk subchunk bytes : Z)
  | end_Bulk_load (schema table partition : str) (data_bytes file_bytes rows : Z).

(** The base class of an entry. *)
Definition status_entry (e : Log_entry) : Status_entry :=
  match e with
  | start_Gtid_update | end_Gtid_update => Gtid_update
  | start_Schema_ddl s | end_Schema_ddl s => Schema_ddl s
  | start_Table_ddl s t _ | end_Table_ddl s t => Table_ddl s t
  | start_Triggers_ddl s t | end_Triggers_ddl s t => Triggers_ddl s t
  | start_Table_indexes s t _ _ | end_Table_indexes s t => Table_indexes s t
  | start_Analyze_table s t _ | end_Analyze_table s t => Analyze_table s t
  | start_Table_chunk s t p c _ | end_Table_chunk s t p c _ _ _ => Table_chunk s t p c
  | start_Table_subchunk s t p c n _ | end_Table_subchunk s t p c n _ => Table_subchunk s t p c n
  | start_Bulk_load s t p _ | update_Bulk_load s t p _ | end_Bulk_load s t p _ _ _ => Bulk_load s t p
  end.

(** [log] is overloaded: end entries are logged as done. *)
Definition is_end (e : Log_entry) : bool :=
  match e with
  | end_Gtid_update | end_Schema_ddl _ | end_Table_ddl _ _ | end_Triggers_ddl _ _ | end_Table_indexes _ _
  | end_Analyze_table _ _ | end_Table_chunk _ _ _ _ _ _ _ | end_Table_subchunk _ _ _ _ _ _ | end_Bulk_load _ _ _ _ _ _ => true
  | _ => false
  end.

(** What [write_log] writes: an entry, or the UUID of the server. *)
Inductive Written := Entry (e : Log_entry) | Set_server_uuid (uuid : str).

Definition k_server_uuid : str := $"SERVER-UUID".

Inductive Status := PENDING | INTERRUPTED | DONE.

#[global] Instance Status_eq_dec : EqDecision Status.
Proof. solve_decision. Defined.

Record Progress_status := {
  progress_status : Status;
  data_bytes_completed : Z;
  file_bytes_completed : Z;
  rows_completed : Z }.

Definition k_progress_file_error : exn := shcore_exception "SHERR_LOAD_PROGRESS_FILE_ERROR".
Definition k_uuid_mismatch : exn := shcore_exception "SHERR_LOAD_PROGRESS_FILE_UUID_MISMATCH".

Section log.
Context `{Json_format}.

(** ** Lines *)

Definition append_task (json : JSON_dumper) (t : Task) : JSON_dumper :=
  append_uint64 (append_uint64 json ($"_worker") (worker_id t)) ($"_srvthreads") (weight t).

Definition append_partition (json : JSON_dumper) (partition : str) : JSON_dumper :=
  if bool_decide (partition = []) then json else append_string json ($"partition") partition.

(** The members of the base class. *)
Definition append_status (json : JSON_dumper) (e : Status_entry) : JSON_dumper :=
  match e with
  | Gtid_update => json
  | Schema_ddl schema => append_string json ($"schema") schema
  | Table_ddl schema table | Triggers_ddl schema table | Table_indexes schema table | Analyze_table schema table =>
      append_string (append_string json ($"schema") schema) ($"table") table
  | Table_chunk schema table partition chunk =>
      append_int64
        (append_partition (append_string (append_string json ($"schema") schema) ($"table") table) partition)
        ($"chunk") chunk
  | Table_subchunk schema table partition chunk subchunk =>
      append_uint64
        (append_int64
          (append_partition (append_string (append_string json ($"schema") schema) ($"table") table) partition)
          ($"chunk") chunk) ($"subchunk") subchunk
  | Bulk_load schema table partition =>
      append_partition (append_string (append_string json ($"schema") schema) ($"table") table) partition
  end.

Definition append_sizes (json : JSON_dumper) (data_bytes file_bytes rows : Z) : JSON_dumper :=
  append_uint64 (append_uint64 (append_uint64 json ($"bytes") data_bytes) ($"raw_bytes") file_bytes) ($"rows") rows.

Definition append_entry (json : JSON_dumper) (e : Log_entry) : JSON_dumper :=
  let json := append_status json (status_entry e) in
  match e with
  | start_Table_ddl _ _ task | start_Analyze_table _ _ task | start_Table_chunk _ _ _ _ task
  | start_Table_subchunk _ _ _ _ _ task | start_Bulk_load _ _ _ task => append_task json task
  | start_Table_indexes _ _ task indexes => append_uint64 (append_task json task) ($"_nindexes") indexes
  | update_Bulk_load _ _ _ data_bytes => append_uint64 json ($"bytes") data_bytes
  | end_Table_chunk _ _ _ _ data_bytes file_bytes rows | end_Bulk_load _ _ _ data_bytes file_bytes rows =>
      append_sizes json data_bytes file_bytes rows
  | end_Table_subchunk _ _ _ _ _ bytes => append_uint64 json ($"transaction_bytes") bytes
  | _ => json
  end.

Definition written_op (w : Written) : str :=
  match w with Entry e => op (status_entry e) | Set_server_uuid _ => k_server_uuid end.
Definition append_written (json : JSON_dumper) (w : Written) : JSON_dumper :=
  match w with Entry e => append_entry json e | Set_server_uuid uuid => append_string json ($"uuid") uuid end.

Definition begin_log (json : JSON_dumper) (done : bool) (op : str) (now : Z) : JSON_dumper :=
  append_int64 (append_bool (append_string (start_object json) ($"op") op) ($"done") done) ($"timestamp") now.

Definition log_line (done : bool) (w : Written) (now : Z) : str :=
  dumper_str (end_object (append_written (begin_log (make_JSON_dumper false 0) done (written_op w) now) w)).

(** ** Reading *)

Record Status_details := { sd_status : Status; details : option (list (str * value)) }.

Abbreviation Last_state := (gmap str Status_details).

Record Progress := {
  p_last_state : Last_state;
  p_data_bytes : Z;
  p_file_bytes : Z;
  p_rows : Z }.

Definition run_of {A} (r : result A) : run A := match r with Ok a => Ret a | Throw e => Raise e end.

(** A part of the key that is there if the entry has the member. *)
Definition key_string (entry : list (str * value)) (member k : str) : run str :=
  match map_at id member entry with
  | None => Ret k
  | Some v => s ← run_of (value_get_string v); Ret (k ++ $":`" ++ s ++ $"`")
  end.
Definition key_number (entry : list (str * value)) (member : str) (as_number : value → result Z) (k : str) : run str :=
  match map_at id member entry with
  | None => Ret k
  | Some v => z ← run_of (as_number v); Ret (k ++ $":" ++ to_string z)
  end.

Definition read_key (entry : list (str * value)) : run str :=
  k ← run_of (map_get_string entry ($"op") []);
  k ← key_string entry ($"schema") k;
  k ← key_string entry ($"table") k;
  k ← key_string entry ($"partition") k;
  k ← key_number entry ($"chunk") as_int k;
  key_number entry ($"subchunk") as_uint k.

(** The callback of [init]; a line that is null gives a null pointer, which is dereferenced. *)
Definition read_line (p : Progress) (line : str) : run Progress :=
  if bool_decide (str_strip_view line k_blanks = []) then Ret p
  else
    doc ← parse line;
    m ← run_of (as_map doc);
    match m with
    | None => Undefined
    | Some entry =>
        done ← run_of (map_get_int entry ($"done") 0);
        k ← read_key entry;
        let old := p_last_state p !! k in
        let d := default {| sd_status := INTERRUPTED; details := None |} old in
        if bool_decide (done ≠ 0) then
          bytes ← run_of (map_get_uint entry ($"bytes") 0);
          raw_bytes ← run_of (map_get_uint entry ($"raw_bytes") 0);
          rows ← run_of (map_get_uint entry ($"rows") 0);
          Ret {| p_last_state := <[k := {| sd_status := DONE; details := Some entry |}]> (p_last_state p);
                 p_data_bytes := u64 (p_data_bytes p + bytes);
                 p_file_bytes := u64 (p_file_bytes p + raw_bytes);
                 p_rows := u64 (p_rows p + rows) |}
        else
          let d := match old with None => {| sd_status := sd_status d; details := Some entry |} | Some _ => d end in
          Ret {| p_last_state := <[k := d]> (p_last_state p);
                 p_data_bytes := p_data_bytes p; p_file_bytes := p_file_bytes p; p_rows := p_rows p |}
    end.

Definition no_progress : Progress := {| p_last_state := ∅; p_data_bytes := 0; p_file_bytes := 0; p_rows := 0 |}.

(** An exception ends the iteration: later lines are not looked at. *)
Definition read_log (data : str) : run Progress :=
  (str_itersplit (λ r line, (r ≫= λ p, read_line p line, true)) data (Ret no_progress) [newline] (-1) false).1.

(** ** The log *)

Record Load_progress_log := {
  m_last_state : Last_state;
  m_file : option str;            (* what was written to it *)
  rewrite_on_flush : bool;        (* the file is in memory, [m_real_file] is the one at the location *)
  stored : option str }.          (* the file at the location *)

Definition with_files (l : Load_progress_log) (file stored : option str) : Load_progress_log :=
  {| m_last_state := m_last_state l; m_file := file; rewrite_on_flush := rewrite_on_flush l; stored := stored |}.

(** [m_file->open(WRITE)] *)
Definition open_write (l : Load_progress_log) : Load_progress_log :=
  with_files l (Some []) (if rewrite_on_flush l then stored l else Some []).

Definition file_write (l : Load_progress_log) (data : str) : Load_progress_log :=
  with_files l ((λ c, c ++ data) <$> m_file l) (stored l).

Definition flush (l : Load_progress_log) : Load_progress_log :=
  match m_file l with
  | Some c => with_files l (Some c) (Some c)
  | None => l
  end.

Definition init (file : option str) (dry_run rewrite : bool) : run (Load_progress_log * Progress_status) :=
  p ← match file with
      | None => Ret no_progress
      | Some data => match read_log data with Raise _ => Raise k_progress_file_error | r => r end
      end;
  let data := default [] file in
  let l := {| m_last_state := p_last_state p; m_file := None; rewrite_on_flush := rewrite; stored := file |} in
  let l := if dry_run then l
           else
             let l := open_write l in
             if bool_decide (data = []) then l else flush (file_write (file_write l data) [newline]) in
  Ret (l, {| progress_status := if bool_decide (p_last_state p = ∅) then PENDING else INTERRUPTED;
             data_bytes_completed := p_data_bytes p; file_bytes_completed := p_file_bytes p; rows_completed := p_rows p |}).

(** The files are removed; a new one is opened. *)
Definition reset_progress (l : Load_progress_log) : Load_progress_log :=
  let l := match m_file l with
           | Some _ => open_write (with_files l None None)
           | None => l
           end in
  {| m_last_state := ∅; m_file := m_file l; rewrite_on_flush := rewrite_on_flush l; stored := stored l |}.

Definition cleanup (l : Load_progress_log) : Load_progress_log := flush l.

Definition find_key (l : Load_progress_log) (k : str) : option Status_details :=
  if bool_decide (m_last_state l = ∅) then None else m_last_state l !! k.

Definition status (l : Load_progress_log) (e : Status_entry) : Status :=
  match find_key l (key e) with None => PENDING | Some d => sd_status d end.

Definition table_subchunk_size (l : Load_progress_log) (e : Status_entry) : run Z :=
  match find_key l (key e) with
  | None => Ret 0
  | Some {| details := Some entry |} => run_of (map_get_uint entry ($"transaction_bytes") 0)
  | Some {| details := None |} => Undefined
  end.

Definition server_uuid (l : Load_progress_log) : run str :=
  match find_key l k_server_uuid with
  | None => Ret []
  | Some {| details := Some entry |} => run_of (map_get_string entry ($"uuid") [])
  | Some {| details := None |} => Undefined
  end.

Definition write_log (l : Load_progress_log) (done : bool) (w : Written) (now : Z) : Load_progress_log :=
  match m_file l with
  | None => l
  | Some _ => flush (file_write (file_write l (log_line done w now)) [newline])
  end.

Definition set_server_uuid (l : Load_progress_log) (uuid : str) (now : Z) : run Load_progress_log :=
  saved_uuid ← server_uuid l;
  if bool_decide (saved_uuid = []) then Ret (write_log l true (Set_server_uuid uuid) now)
  else if negb (str_caseeq_pair uuid saved_uuid) then Raise k_uuid_mismatch
  else Ret l.

Definition do_log (l : Load_progress_log) (e : Log_entry) (now : Z) : Load_progress_log :=
  if bool_decide (status l (status_entry e) = DONE) then l else write_log l (is_end e) (Entry e) now.
End log.
