(* ===== verification/ProgressLogFacts.v ===== *)
(** * The progress log of the loader: theorems

    A load that is interrupted, between any two operations of the log and as often as one likes,
    finds every operation in the state in which it was left. *)
From S2P Require Import Prelude UtilsString UtilsStringFacts GtidUtils GtidUtilsFacts StdMap ScriptValue ScriptValueFacts.
From S2P Require Import ScriptReprFacts JsonDumper JsonDumperFacts ProgressLog.

Open Scope Z_scope.

(** ** Lines *)

(** Looks up the members of a line, whose keys are known. *)
Ltac lookup_members :=
  repeat match goal with
  | |- context [map_at id ?k ?m] => let v := eval vm_compute in (map_at id k m) in change (map_at id k m) with v; cbn [mbind run_bind]
  end.

Section lines.
Context `{Json_format}.

(** The members of an entry. *)
Definition text_member (k s : str) : str * json_doc := (k, JString s).
Definition partition_members (partition : str) : list (str * json_doc) :=
  if bool_decide (partition = []) then [] else [text_member ($"partition") partition].

Definition status_members (e : Status_entry) : list (str * json_doc) :=
  match e with
  | Gtid_update => []
  | Schema_ddl s => [text_member ($"schema") s]
  | Table_ddl s t | Triggers_ddl s t | Table_indexes s t | Analyze_table s t =>
      [text_member ($"schema") s; text_member ($"table") t]
  | Table_chunk s t p c => [text_member ($"schema") s; text_member ($"table") t] ++ partition_members p ++ [($"chunk", JInt c)]
  | Table_subchunk s t p c n =>
      [text_member ($"schema") s; text_member ($"table") t] ++ partition_members p ++ [($"chunk", JInt c); ($"subchunk", JUint n)]
  | Bulk_load s t p => [text_member ($"schema") s; text_member ($"table") t] ++ partition_members p
  end.

Definition task_members (t : Task) : list (str * json_doc) :=
  [($"_worker", JUint (worker_id t)); ($"_srvthreads", JUint (weight t))].
Definition size_members (data_bytes file_bytes rows : Z) : list (str * json_doc) :=
  [($"bytes", JUint data_bytes); ($"raw_bytes", JUint file_bytes); ($"rows", JUint rows)].

Definition extra_members (e : Log_entry) : list (str * json_doc) :=
  match e with
  | start_Table_ddl _ _ task | start_Analyze_table _ _ task | start_Table_chunk _ _ _ _ task
  | start_Table_subchunk _ _ _ _ _ task | start_Bulk_load _ _ _ task => task_members task
  | start_Table_indexes _ _ task indexes => task_members task ++ [($"_nindexes", JUint indexes)]
  | update_Bulk_load _ _ _ data_bytes => [($"bytes", JUint data_bytes)]
  | end_Table_chunk _ _ _ _ data_bytes file_bytes rows | end_Bulk_load _ _ _ data_bytes file_bytes rows =>
      size_members data_bytes file_bytes rows
  | end_Table_subchunk _ _ _ _ _ bytes => [($"transaction_bytes", JUint bytes)]
  | _ => []
  end.

Definition written_members (w : Written) : list (str * json_doc) :=
  match w with
  | Entry e => status_members (status_entry e) ++ extra_members e
  | Set_server_uuid uuid => [text_member ($"uuid") uuid]
  end.

Definition written_done (w : Written) : bool := match w with Entry e => is_end e | Set_server_uuid _ => true end.

(** The document of a line. *)
Definition line_members (w : Written) (now : Z) : list (str * json_doc) :=
  [text_member ($"op") (written_op w); ($"done", JBool (written_done w)); ($"timestamp", JInt now)] ++ written_members w.

Definition member_events (l : list (str * json_doc)) : list event := concat (List.map (λ '(k, d), Str k :: events_of d) l).

Lemma append_written_events json w : _writer (append_written json w) = _writer json ++ member_events (written_members w).
Proof.
  assert (∀ json p, _writer (append_partition json p) = _writer json ++ member_events (partition_members p)) as Hp.
  { intros j p. unfold append_partition, partition_members. case_bool_decide; cbn; [by rewrite app_nil_r|done]. }
  unfold member_events in *. destruct w as [e|uuid]; [|done].
  destruct e; cbn -[append_partition partition_members]; rewrite ?Hp; cbn -[partition_members];
    rewrite ?List.map_app, ?concat_app, <- ?app_assoc; cbn -[partition_members]; rewrite <- ?app_assoc, ?app_nil_r; done.
Qed.

Lemma log_line_text w now : log_line (written_done w) w now = writer_text false (events_of (JObject (line_members w now))).
Proof.
  unfold log_line, dumper_str. cbn [_pprint _writer end_object write_events deeper]. rewrite append_written_events.
  assert (∀ w json, _pprint (append_written json w) = _pprint json) as Hp.
  { clear. intros [e|u] json; [|done]. destruct e; cbn; unfold append_partition; by try case_bool_decide. }
  by rewrite Hp, <- app_assoc.
Qed.

(** ** Reading a line *)

(** Numbers that are read back. *)
Definition count_ok (z : Z) : Prop := 0 <= z <= INT64_MAX.
Definition int_ok (z : Z) : Prop := INT64_MIN <= z <= INT64_MAX.

Definition status_ok (e : Status_entry) : Prop :=
  match e with
  | Table_chunk _ _ _ c => int_ok c
  | Table_subchunk _ _ _ c n => int_ok c ∧ count_ok n
  | _ => True
  end.

Definition task_ok (t : Task) : Prop := count_ok (worker_id t) ∧ count_ok (weight t).

Definition extra_ok (e : Log_entry) : Prop :=
  match e with
  | start_Table_ddl _ _ task | start_Analyze_table _ _ task | start_Table_chunk _ _ _ _ task
  | start_Table_subchunk _ _ _ _ _ task | start_Bulk_load _ _ _ task => task_ok task
  | start_Table_indexes _ _ task indexes => task_ok task ∧ count_ok indexes
  | update_Bulk_load _ _ _ data_bytes => count_ok data_bytes
  | end_Table_chunk _ _ _ _ data_bytes file_bytes rows | end_Bulk_load _ _ _ data_bytes file_bytes rows =>
      count_ok data_bytes ∧ count_ok file_bytes ∧ count_ok rows
  | end_Table_subchunk _ _ _ _ _ bytes => count_ok bytes
  | _ => True
  end.

Definition written_ok (w : Written) : Prop :=
  match w with Entry e => status_ok (status_entry e) ∧ extra_ok e | Set_server_uuid _ => True end.

Definition written_key (w : Written) : str := match w with Entry e => key (status_entry e) | Set_server_uuid _ => k_server_uuid end.

(** Bytes of data, bytes of the file and rows. *)
Definition sizes (w : Written) : Z * Z * Z :=
  match w with
  | Entry (end_Table_chunk _ _ _ _ b f r) | Entry (end_Bulk_load _ _ _ b f r) => (b, f, r)
  | _ => (0, 0, 0)
  end.

(** The dictionary that is read. *)
Definition line_entry (w : Written) (now : Z) : list (str * value) :=
  of_members (List.map (λ '(k, d), (k, value_of d)) (line_members w now)).

Lemma count_int z : count_ok z → int_ok z.
Proof. unfold count_ok, int_ok, INT64_MIN. lia. Qed.

Lemma line_doc_ok w now : written_ok w → int_ok now → doc_ok (JObject (line_members w now)).
Proof.
  intros Hw Hn. assert (∀ l l', doc_ok (JObject (l ++ l')) ↔ doc_ok (JObject l) ∧ doc_ok (JObject l')) as Happ.
  { intros l l'. induction l as [|[k d] l IH]; [cbn; tauto|]. cbn in *. tauto. }
  unfold line_members. rewrite Happ. split; [by split_and!|]. destruct w as [e|uuid]; [|done]. cbn [written_members]. rewrite Happ.
  assert (∀ p, doc_ok (JObject (partition_members p))) as Hp by (intros p; unfold partition_members; by case_bool_decide).
  destruct Hw as [Hs He]. pose proof count_int as Hc. unfold int_ok in Hc. split.
  - destruct (status_entry e); cbn [status_members status_ok] in *; rewrite ?Happ; try done; cbn; naive_solver.
  - destruct e; cbn in *; unfold task_ok in *; naive_solver.
Qed.

Lemma line_done w now : map_get_int (line_entry w now) ($"done") 0 = Ok (if written_done w then 1 else 0).
Proof.
  destruct w as [e|uuid]; [|done].
  destruct e as [| | | | | |s t p c k|s t p c n k|s t p k|s t p b| | | | | | |s t p c b f r|s t p c n b|s t p b f r]; try done; by destruct p.
Qed.

Lemma line_key w now : written_ok w → read_key (line_entry w now) = Ret (written_key w).
Proof.
  intros Hw. unfold read_key, map_get_string, key_string, key_number. destruct w as [e|uuid]; [|done]. destruct Hw as [Hs _].
  destruct e as [| | | | | |s t p c k|s t p c n k|s t p k|s t p b| | | | | | |s t p c b f r|s t p c n b|s t p b f r]; try done;
    cbn in Hs.
  all: try destruct p as [|a p].
  all: lookup_members; cbn -[app to_string Z.leb lit].
  all: try (rewrite (proj2 (Z.leb_le 0 n)) by (unfold count_ok in Hs; lia); cbn -[app to_string lit]).
  all: unfold table_key, partition_key; cbn -[app to_string lit]; rewrite <- !app_assoc; reflexivity.
Qed.

Lemma line_sizes w now :
  written_ok w → written_done w = true →
  map_get_uint (line_entry w now) ($"bytes") 0 = Ok (sizes w).1.1 ∧
  map_get_uint (line_entry w now) ($"raw_bytes") 0 = Ok (sizes w).1.2 ∧
  map_get_uint (line_entry w now) ($"rows") 0 = Ok (sizes w).2.
Proof.
  intros Hw Hd. assert (∀ z, count_ok z → as_uint (VInteger z) = Ok z) as Hu.
  { intros z Hz. cbn. unfold count_ok in Hz. by rewrite (proj2 (Z.leb_le 0 z)) by lia. }
  unfold map_get_uint. destruct w as [e|uuid]; [|done]. destruct Hw as [_ He].
  destruct e as [| | | | | |s t p c k|s t p c n k|s t p k|s t p b| | | | | | |s t p c b f r|s t p c n b|s t p b f r]; try done;
    cbn in He; destruct p as [|a p]; try done; destruct He as (Hb & Hf & Hr).
  all: lookup_members; cbn [check_type]; split_and!; by apply Hu.
Qed.

(** The state after a line. *)
Definition note (p : Progress) (w : Written) (now : Z) : Progress :=
  let k := written_key w in
  if written_done w then
    {| p_last_state := <[k := {| sd_status := DONE; details := Some (line_entry w now) |}]> (p_last_state p);
       p_data_bytes := u64 (p_data_bytes p + (sizes w).1.1);
       p_file_bytes := u64 (p_file_bytes p + (sizes w).1.2);
       p_rows := u64 (p_rows p + (sizes w).2) |}
  else
    {| p_last_state := match p_last_state p !! k with
                       | None => <[k := {| sd_status := INTERRUPTED; details := Some (line_entry w now) |}]> (p_last_state p)
                       | Some _ => p_last_state p
                       end;
       p_data_bytes := p_data_bytes p; p_file_bytes := p_file_bytes p; p_rows := p_rows p |}.

Lemma line_not_blank `{!Json_writer} w now : str_strip_view (log_line (written_done w) w now) k_blanks ≠ [].
Proof.
  intros E. destruct (str_strip_decompose (log_line (written_done w) w now) k_blanks) as (l & r & El & Hl & Hr & _).
  rewrite E in El. cbn [app] in El. rewrite log_line_text in El. pose proof (writer_ok false (JObject (line_members w now))) as Ht.
  rewrite El in Ht. inversion Ht as [| | | | | | |t ms Hm Et El2]. assert (all_in k_blanks (l ++ r)) as Hlr by (by apply Forall_app).
  rewrite <- Et in Hlr. apply Forall_cons in Hlr as [Hc _]. by vm_compute in Hc.
Qed.

Lemma read_written `{!Json_writer} p w now :
  written_ok w → int_ok now → read_line p (log_line (written_done w) w now) = Ret (note p w now).
Proof.
  intros Hw Hn. unfold read_line. rewrite bool_decide_eq_false_2 by apply line_not_blank.
  rewrite log_line_text, written_document_parsed by (by apply line_doc_ok). cbn [mbind run_bind].
  change (run_of (as_map (value_of (JObject (line_members w now))))) with (Ret (Some (line_entry w now))). cbn [mbind run_bind].
  rewrite line_done. cbn [run_of mbind run_bind]. rewrite line_key by done. cbn [mbind run_bind]. unfold note.
  destruct (written_done w) eqn:Hd.
  - rewrite bool_decide_eq_true_2 by done. destruct (line_sizes w now Hw Hd) as (-> & -> & ->). done.
  - rewrite bool_decide_eq_false_2 by (intros Hx; by apply Hx). destruct (p_last_state p !! written_key w) as [d|] eqn:E; [|done].
    cbn [default]. rewrite insert_id by done. done.
Qed.
End lines.

(** ** Keys *)

Lemma cut_inj (c : ascii) a b x y : c ∉ a → c ∉ b → a ++ c :: x = b ++ c :: y → a = b ∧ x = y.
Proof.
  revert b. induction a as [|d a IH]; intros [|e b] Ha Hb E; cbn in E.
  - by injection E.
  - injection E as -> _. by destruct Hb; left.
  - injection E as -> _. by destruct Ha; left.
  - injection E as -> E. destruct (IH b) as [-> ->]; [by intros ?; apply Ha; right|by intros ?; apply Hb; right|done|done].
Qed.

Lemma to_string_chars z c : c ∈ to_string z → isdigit c = true ∨ c = "-"%char.
Proof.
  assert (∀ n, 0 <= n → c ∈ dec n → isdigit c = true) as Hd.
  { intros n Hn. destruct (dec_spec n Hn) as (_ & Hf & _). rewrite Forall_forall in Hf. apply Hf. }
  unfold to_string. destruct (Z.ltb_spec z 0); [|left; by apply (Hd z)]. intros [->|Hc]%elem_of_cons; [by right|left].
  by apply (Hd (- z)); [lia|].
Qed.

Lemma to_string_no (c : ascii) z : isdigit c = false → c ≠ "-"%char → c ∉ to_string z.
Proof. intros H1 H2 [E|E]%to_string_chars; congruence. Qed.

Lemma to_string_inj z1 z2 : to_string z1 = to_string z2 → z1 = z2.
Proof.
  assert (∀ n, 0 <= n → ("-"%char ∉ dec n) ∧ dec_value (dec n) 0 = n) as Hd.
  { intros n Hn. destruct (dec_spec n Hn) as (_ & Hf & Hv). rewrite Forall_forall in Hf. split; [|done]. intros Hc%Hf. by vm_compute in Hc. }
  unfold to_string. destruct (Z.ltb_spec z1 0), (Z.ltb_spec z2 0); intros E.
  - injection E as E. destruct (Hd (- z1)), (Hd (- z2)); [lia..|]. rewrite E in *. lia.
  - destruct (Hd z2) as [Hn _]; [lia|]. rewrite <- E in Hn. by destruct Hn; left.
  - destruct (Hd z1) as [Hn _]; [lia|]. rewrite E in Hn. by destruct Hn; left.
  - destruct (Hd z1), (Hd z2); [lia..|]. rewrite E in *. lia.
Qed.

Definition backtick : ascii := "`"%char.

(** Names without a backtick. *)
Definition names_ok (e : Status_entry) : Prop :=
  match e with
  | Gtid_update => True
  | Schema_ddl s => backtick ∉ s
  | Table_ddl s t | Triggers_ddl s t | Table_indexes s t | Analyze_table s t => (backtick ∉ s) ∧ (backtick ∉ t)
  | Table_chunk s t p _ | Table_subchunk s t p _ _ | Bulk_load s t p => (backtick ∉ s) ∧ (backtick ∉ t) ∧ (backtick ∉ p)
  end.

(** What follows the operation in a key, the closing backtick of the table, and of the partition. *)
Definition after_partition (p rest : str) : str := if bool_decide (p = []) then rest else $":`" ++ p ++ backtick :: rest.
Definition after_op (e : Status_entry) : str :=
  let table s t rest := $":`" ++ s ++ backtick :: $":`" ++ t ++ backtick :: rest in
  match e with
  | Gtid_update => []
  | Schema_ddl s => $":`" ++ s ++ [backtick]
  | Table_ddl s t | Triggers_ddl s t | Table_indexes s t | Analyze_table s t => table s t []
  | Table_chunk s t p c => table s t (after_partition p ($":" ++ to_string c))
  | Table_subchunk s t p c n => table s t (after_partition p ($":" ++ to_string c ++ ":"%char :: to_string n))
  | Bulk_load s t p => table s t (after_partition p [])
  end.

Lemma key_parts e : key e = op e ++ after_op e.
Proof.
  destruct e as [| | | | | |s t p c|s t p c n|s t p]; cbn [key after_op]; unfold table_key, partition_key, after_partition;
    try case_bool_decide; rewrite <- ?app_assoc; cbn -[to_string]; rewrite <- ?app_assoc; try done; by rewrite ?app_nil_r.
Qed.

Lemma op_of_key e1 e2 : key e1 = key e2 → op e1 = op e2.
Proof.
  assert (∀ e, ":"%char ∉ op e) as Hop by (intros e; destruct e; by apply (bool_decide_unpack _)).
  assert (∀ e, after_op e = [] ∨ ∃ r, after_op e = ":"%char :: r) as Ha by (intros []; [by left|right; by eexists..]).
  rewrite !key_parts. intros E. destruct (Ha e1) as [E1|[r1 E1]], (Ha e2) as [E2|[r2 E2]]; rewrite E1, E2 in E.
  - by rewrite !app_nil_r in E.
  - rewrite app_nil_r in E. destruct (Hop e1). rewrite E. apply elem_of_app. right. left.
  - rewrite app_nil_r in E. destruct (Hop e2). rewrite <- E. apply elem_of_app. right. left.
  - by apply cut_inj in E as [? _].
Qed.

Lemma after_partition_inj p p' r r' :
  backtick ∉ p → backtick ∉ p' → backtick ∉ r → backtick ∉ r' → after_partition p r = after_partition p' r' → p = p' ∧ r = r'.
Proof.
  intros Hp Hp' Hr Hr'. unfold after_partition. repeat case_bool_decide; subst; intros E; try done.
  - exfalso. apply Hr. rewrite E. by right; left.
  - exfalso. apply Hr'. rewrite <- E. by right; left.
  - cbn in E. injection E as E. by apply cut_inj in E.
Qed.

Lemma table_key_inj (s t rest s' t' rest' : str) :
  backtick ∉ s → backtick ∉ t → backtick ∉ s' → backtick ∉ t' →
  $":`" ++ s ++ backtick :: $":`" ++ t ++ backtick :: rest = $":`" ++ s' ++ backtick :: $":`" ++ t' ++ backtick :: rest' →
  s = s' ∧ t = t' ∧ rest = rest'.
Proof.
  intros Hs Ht Hs' Ht' E. cbn in E. injection E as E. apply cut_inj in E as [-> E]; [|done..]. injection E as E. by apply cut_inj in E as [-> ->].
Qed.

(** Entries of different objects have different keys. *)
Lemma keys_distinct e1 e2 : names_ok e1 → names_ok e2 → key e1 = key e2 → e1 = e2.
Proof.
  intros H1 H2 E. pose proof (op_of_key _ _ E) as Eop. rewrite !key_parts, Eop in E. apply app_inv_head in E.
  assert (∀ z, backtick ∉ to_string z) as Hz by (intros z; by apply to_string_no).
  assert (∀ z, ":"%char ∉ to_string z) as Hc by (intros z; by apply to_string_no).
  assert (∀ z, backtick ∉ $":" ++ to_string z) as Hz1 by (intros z [Hx|Hx]%elem_of_cons; [done|by apply Hz in Hx]).
  assert (∀ z n, backtick ∉ $":" ++ to_string z ++ ":"%char :: to_string n) as Hz2.
  { intros z n [Hx|[Hx|[Hx|Hx]%elem_of_cons]%elem_of_app]%elem_of_cons; try done; by apply Hz in Hx. }
  destruct e1, e2; try (by vm_compute in Eop); cbn [names_ok after_op] in *; clear Eop; try done.
  all: try (cbn in E; injection E as E; apply cut_inj in E as [-> _]; done).
  all: destruct_and?; apply table_key_inj in E as (-> & -> & E); [|done..]; try done.
  - apply after_partition_inj in E as [-> E]; [|done..]. cbn in E. injection E as E. by apply to_string_inj in E as ->.
  - apply after_partition_inj in E as [-> E]; [|done..]. cbn in E. injection E as E. apply cut_inj in E as [E1 E2]; [|done..].
    by apply to_string_inj in E1 as ->; apply to_string_inj in E2 as ->.
  - by apply after_partition_inj in E as [-> _]; [|try done; by intros ?%elem_of_nil..].
Qed.

(** The key of an operation is not the one under which the UUID is kept. *)
Lemma key_not_uuid e : key e ≠ k_server_uuid.
Proof.
  assert (":"%char ∉ k_server_uuid) as Hu by (by apply (bool_decide_unpack _)). rewrite key_parts. intros E. revert Hu. rewrite <- E.
  destruct e; cbn [after_op]; [by vm_compute in E|..]; intros Hu; apply Hu; apply elem_of_app; right; left.
Qed.

(** With a backtick in a name they need not be: two tables of different schemas. *)
Lemma keys_collide : key (Table_ddl ($"a`:`b") ($"c")) = key (Table_ddl ($"a") ($"b`:`c")).
Proof. reflexivity. Qed.

(** ** Files *)

Section files.
Context `{Json_writer}.

(** What is in the file: the entries that were written, with the time, and the empty lines that
    separate attempts. *)
Abbreviation item := (Written * Z)%type.

Definition item_ok (i : item) : Prop := written_ok i.1 ∧ int_ok i.2.
Definition chunk_text (c : option item) : str := match c with None => [] | Some (w, now) => log_line (written_done w) w now end.
Definition file_text (chunks : list (option item)) : str := concat ((λ c, chunk_text c ++ [newline]) <$> chunks).

Definition holds (f : str) (items : list item) : Prop :=
  ∃ chunks, f = file_text chunks ∧ omap id chunks = items ∧ Forall item_ok items.

Definition progress_of (items : list item) : Progress := foldl (λ p i, note p i.1 i.2) no_progress items.

Lemma chunk_text_line c : newline ∉ chunk_text c.
Proof. destruct c as [[w now]|]; cbn; [rewrite log_line_text; apply writer_line|by intros ?%elem_of_nil]. Qed.

Lemma file_text_lines chunks : split_on newline (file_text chunks) = (chunk_text <$> chunks) ++ [[]].
Proof.
  induction chunks as [|c chunks IH]; [done|].
  change (file_text (c :: chunks)) with ((chunk_text c ++ [newline]) ++ file_text chunks). rewrite <- app_assoc. cbn [app].
  rewrite split_on_app, IH, split_on_none by apply chunk_text_line. done.
Qed.

Lemma read_chunks chunks p :
  Forall item_ok (omap id chunks) →
  foldl (λ r line, r ≫= λ p, read_line p line) (Ret p) (chunk_text <$> chunks) = Ret (foldl (λ p i, note p i.1 i.2) p (omap id chunks)).
Proof.
  revert p. induction chunks as [|[[w now]|] chunks IH]; intros p Hok; [done|..]; cbn [fmap list_fmap foldl chunk_text mbind run_bind].
  - cbn [omap list_omap id] in *. apply Forall_cons in Hok as [[Hw Hn] Hok]. rewrite read_written by done. by apply IH.
  - by apply IH.
Qed.

Lemma read_holds f items : holds f items → read_log f = Ret (progress_of items).
Proof.
  intros (chunks & -> & <- & Hok). unfold read_log. rewrite str_itersplit_foldl by done. cbn [fst].
  destruct chunks as [|c chunks]; [done|].
  rewrite str_split_ref by (unfold file_text; cbn; by destruct (chunk_text c)).
  change (split_ref [newline] [] (file_text (c :: chunks)) (-1)) with (split_on newline (file_text (c :: chunks))).
  rewrite file_text_lines, foldl_app, read_chunks by done. done.
Qed.

Lemma holds_nil : holds [] [].
Proof. by exists []. Qed.

Lemma holds_separator f items : holds f items → holds (f ++ [newline]) items.
Proof.
  intros (chunks & -> & <- & Hok). exists (chunks ++ [None]). rewrite omap_app, app_nil_r. split_and!; [|done|done].
  unfold file_text. by rewrite fmap_app, concat_app.
Qed.

Lemma holds_line f items w now :
  holds f items → written_ok w → int_ok now → holds (f ++ log_line (written_done w) w now ++ [newline]) (items ++ [(w, now)]).
Proof.
  intros (chunks & -> & <- & Hok) Hw Hn. exists (chunks ++ [Some (w, now)]). rewrite omap_app. split_and!; [|done|].
  - unfold file_text. rewrite fmap_app, concat_app. cbn. by rewrite app_nil_r.
  - apply Forall_app. split; [done|]. by apply (Forall_singleton item_ok).
Qed.

(** ** What is known of an operation *)

Definition is_done (k : str) (i : item) : bool := bool_decide (written_key i.1 = k) && written_done i.1.
Definition is_about (k : str) (i : item) : bool := bool_decide (written_key i.1 = k).

(** The status: done if its end was logged, interrupted if it was logged at all. *)
Definition spec_status (items : list item) (k : str) : Status :=
  if existsb (is_done k) items then DONE else if existsb (is_about k) items then INTERRUPTED else PENDING.

(** The entry that is kept: the last of those at the end of the operation, or else the first one. *)
Definition spec_entry (items : list item) (k : str) : option item :=
  match last (filter (λ i, is_done k i = true) items) with
  | Some i => Some i
  | None => head (filter (λ i, is_about k i = true) items)
  end.

Definition total (size : Z * Z * Z → Z) (items : list item) : Z :=
  foldr Z.add 0 ((λ i, if written_done i.1 then size (sizes i.1) else 0) <$> items).

Lemma progress_of_snoc items i : progress_of (items ++ [i]) = note (progress_of items) i.1 i.2.
Proof. unfold progress_of. by rewrite foldl_app. Qed.

Lemma existsb_snoc {A} (f : A → bool) l x : existsb f (l ++ [x]) = existsb f l || f x.
Proof. rewrite existsb_app. cbn. by rewrite orb_false_r. Qed.

Lemma done_about k i : is_done k i = true → is_about k i = true.
Proof. unfold is_done, is_about. by intros [? _]%andb_true_iff. Qed.

Lemma progress_status_spec items k :
  match p_last_state (progress_of items) !! k with
  | None => spec_status items k = PENDING
  | Some d => sd_status d = spec_status items k ∧ spec_status items k ≠ PENDING
  end.
Proof.
  induction items as [|i items IH] using rev_ind; [done|]. rewrite progress_of_snoc. unfold note, spec_status in *.
  rewrite !existsb_snoc. change (is_done k i) with (bool_decide (written_key i.1 = k) && written_done i.1).
  change (is_about k i) with (bool_decide (written_key i.1 = k)). destruct (decide (written_key i.1 = k)) as [Hk|Hk].
  - rewrite bool_decide_eq_true_2 by done. cbn [andb]. subst k. destruct (written_done i.1); cbn [p_last_state].
    + rewrite lookup_insert_eq. by rewrite !orb_true_r.
    + rewrite orb_false_r, orb_true_r. destruct (p_last_state (progress_of items) !! written_key i.1) as [d|] eqn:E.
      * rewrite E. revert IH.
        by destruct (existsb (is_done (written_key i.1)) items), (existsb (is_about (written_key i.1)) items); intros [? ?].
      * rewrite lookup_insert_eq. revert IH. by destruct (existsb (is_done _) items).
  - rewrite bool_decide_eq_false_2 by done. cbn [andb]. rewrite !orb_false_r. destruct (written_done i.1); cbn [p_last_state].
    + by rewrite lookup_insert_ne by done.
    + destruct (p_last_state (progress_of items) !! written_key i.1); [done|]. by rewrite lookup_insert_ne by done.
Qed.

Lemma filter_snoc_true (f : item → bool) l x : f x = true → filter (λ i, f i = true) (l ++ [x]) = filter (λ i, f i = true) l ++ [x].
Proof. intros E. rewrite filter_app, filter_cons_True by done. done. Qed.

Lemma filter_snoc_false (f : item → bool) l x : f x = false → filter (λ i, f i = true) (l ++ [x]) = filter (λ i, f i = true) l.
Proof. intros E. rewrite filter_app, filter_cons_False by (by rewrite E). apply app_nil_r. Qed.

Lemma filter_existsb (f : item → bool) l : existsb f l = false → filter (λ i, f i = true) l = [].
Proof.
  induction l as [|x l IH]; [done|]. cbn [existsb]. intros [E Hl]%orb_false_iff. by rewrite filter_cons_False, IH by (by rewrite ?E).
Qed.

Lemma progress_entry_spec items k d :
  p_last_state (progress_of items) !! k = Some d → ∃ i, spec_entry items k = Some i ∧ details d = Some (line_entry i.1 i.2).
Proof.
  revert d. induction items as [|i items IH] using rev_ind; intros d; [done|]. pose proof (progress_status_spec items k) as Hst.
  rewrite progress_of_snoc. unfold note, spec_entry in *.
  destruct (decide (written_key i.1 = k)) as [Hk|Hk].
  - assert (is_about k i = true) as Ha by (by apply bool_decide_eq_true_2). rewrite (filter_snoc_true (is_about k)) by done.
    destruct (written_done i.1) eqn:Hd; cbn [p_last_state].
    + rewrite Hk, lookup_insert_eq. intros [= <-]. exists i. split; [|done].
      rewrite filter_snoc_true by (unfold is_done; by rewrite bool_decide_eq_true_2, Hd). by rewrite last_snoc.
    + rewrite filter_snoc_false by (unfold is_done; by rewrite Hd, andb_false_r). rewrite Hk.
      destruct (p_last_state (progress_of items) !! k) as [d'|] eqn:E.
      * rewrite E. intros [= <-]. destruct (IH d' eq_refl) as (j & Hj & Hdj). exists j. split; [|done].
        revert Hj. destruct (last (filter (λ i, is_done k i = true) items)); [done|]. by destruct (filter (λ i, is_about k i = true) items).
      * rewrite lookup_insert_eq. intros [= <-]. exists i. split; [|done]. unfold spec_status in Hst.
        destruct (existsb (is_done k) items) eqn:E1; [done|]. destruct (existsb (is_about k) items) eqn:E2; [done|].
        by rewrite !filter_existsb.
  - assert (is_about k i = false) as Ha by (by apply bool_decide_eq_false_2).
    rewrite (filter_snoc_false (is_about k)), (filter_snoc_false (is_done k)) by (unfold is_done; by rewrite ?bool_decide_eq_false_2).
    destruct (written_done i.1); cbn [p_last_state]; [rewrite lookup_insert_ne by done; apply IH|].
    destruct (p_last_state (progress_of items) !! written_key i.1); [apply IH|]. rewrite lookup_insert_ne by done. apply IH.
Qed.

Lemma total_snoc size items i : total size (items ++ [i]) = total size items + if written_done i.1 then size (sizes i.1) else 0.
Proof.
  unfold total. rewrite fmap_app, foldr_app. cbn. generalize (if written_done i.1 then size (sizes i.1) else 0). intros z.
  induction items as [|j items IH]; cbn; [lia|]. rewrite IH. lia.
Qed.

Lemma u64_add a b : u64 (u64 a + b) = u64 (a + b).
Proof. apply Zplus_mod_idemp_l. Qed.

Lemma progress_totals items :
  p_data_bytes (progress_of items) = u64 (total (λ s, s.1.1) items) ∧
  p_file_bytes (progress_of items) = u64 (total (λ s, s.1.2) items) ∧
  p_rows (progress_of items) = u64 (total (λ s, s.2) items).
Proof.
  induction items as [|i items (E1 & E2 & E3)] using rev_ind; [done|]. rewrite progress_of_snoc, !total_snoc. unfold note.
  destruct (written_done i.1); cbn; [rewrite E1, E2, E3, !u64_add|rewrite !Z.add_0_r]; done.
Qed.

Lemma progress_empty items : p_last_state (progress_of items) = ∅ ↔ items = [].
Proof.
  split; [|by intros ->]. intros E. destruct items as [|i items]; [done|]. exfalso.
  pose proof (progress_status_spec (i :: items) (written_key i.1)) as Hs. rewrite E, lookup_empty in Hs. unfold spec_status in Hs.
  cbn [existsb] in Hs. change (is_about (written_key i.1) i) with (bool_decide (written_key i.1 = written_key i.1)) in Hs.
  rewrite (bool_decide_eq_true_2 (written_key i.1 = written_key i.1)) in Hs by done. cbn [orb] in Hs. by destruct (_ || _).
Qed.

(** ** Attempts *)

(** The UUID is written if none was read. *)
Definition uuid_missing (l : Load_progress_log) : bool := match server_uuid l with Ret [] => true | _ => false end.

(** The log, the entries that were written since it was reset, and the keys of the operations
    that ended in this attempt.  A load may be interrupted before any step, and is started again
    with the file as it is then.  With [once], the end of an operation is logged once in an
    attempt. *)
Inductive session (once : bool) : Load_progress_log → list item → list str → Prop :=
  | session_first rewrite l st : init None false rewrite = Ret (l, st) → session once l [] []
  | session_restart l items ended rewrite l' st :
      session once l items ended → init (stored l) false rewrite = Ret (l', st) → session once l' items []
  | session_log l items ended e now :
      session once l items ended → written_ok (Entry e) → int_ok now → (once = true → is_end e = true → key (status_entry e) ∉ ended) →
      session once (do_log l e now)
        (if bool_decide (status l (status_entry e) = DONE) then items else items ++ [(Entry e, now)])
        (if is_end e then key (status_entry e) :: ended else ended)
  | session_uuid l items ended uuid now l' :
      session once l items ended → int_ok now → set_server_uuid l uuid now = Ret l' →
      session once l' (if uuid_missing l then items ++ [(Set_server_uuid uuid, now)] else items) ended
  | session_reset l items ended : session once l items ended → session once (reset_progress l) [] ended
  | session_cleanup l items ended : session once l items ended → session once (cleanup l) items ended.

(** The file in the storage has everything. *)
Definition kept (stored : option str) (items : list item) : Prop := ∃ f, holds f items ∧ (stored = Some f ∨ f = [] ∧ stored = None).
Definition log_inv (l : Load_progress_log) (items : list item) : Prop :=
  ∃ f, m_file l = Some f ∧ holds f items ∧ (stored l = Some f ∨ f = [] ∧ stored l = None).

Lemma log_inv_kept l items : log_inv l items → kept (stored l) items.
Proof. intros (f & _ & Hf & Hs). by exists f. Qed.

Lemma holds_empty items : holds [] items → items = [].
Proof.
  intros (chunks & E & <- & _). destruct chunks as [|c chunks]; [done|]. unfold file_text in E. cbn in E. by destruct (chunk_text c).
Qed.

Lemma init_kept s items dry rewrite :
  kept s items →
  let p := progress_of items in
  let st := {| progress_status := if bool_decide (p_last_state p = ∅) then PENDING else INTERRUPTED;
               data_bytes_completed := p_data_bytes p; file_bytes_completed := p_file_bytes p; rows_completed := p_rows p |} in
  ∃ l, init s dry rewrite = Ret (l, st) ∧ m_last_state l = p_last_state p ∧
    (if dry then m_file l = None ∧ stored l = s else log_inv l items).
Proof.
  intros (f & Hf & Hs) p st. unfold init.
  assert (match s with None => Ret no_progress
          | Some data => match read_log data with Raise _ => Raise k_progress_file_error | r => r end end = Ret p) as ->.
  { destruct Hs as [->|[-> ->]]; [by rewrite (read_holds f items)|]. subst p. by rewrite (holds_empty _ Hf). }
  cbn [mbind run_bind]. eexists. split; [done|]. destruct dry; [done|]. case_bool_decide as Hd.
  - split; [done|]. exists []. cbn. assert (f = []) as -> by (by destruct Hs as [->|[-> _]]). split_and!; [done|done|].
    destruct rewrite; [|by left]. destruct Hs as [->|[_ ->]]; auto.
  - split; [done|]. destruct Hs as [->|[_ ->]]; [|done]. exists (f ++ [newline]). cbn. split_and!; [done|by apply holds_separator|by left].
Qed.

Lemma write_log_inv l items w now :
  log_inv l items → written_ok w → int_ok now → log_inv (write_log l (written_done w) w now) (items ++ [(w, now)]).
Proof.
  intros (f & Hf & Hh & _) Hw Hn. unfold write_log. rewrite Hf. exists (f ++ log_line (written_done w) w now ++ [newline]).
  unfold flush, file_write. cbn. rewrite Hf. cbn. rewrite <- app_assoc. split_and!; [done|by apply holds_line|by left].
Qed.

Lemma session_inv once l items ended : session once l items ended → log_inv l items.
Proof.
  induction 1 as [rewrite l st Hi|l items ended rewrite l' st _ IH Hi|l items ended e now _ IH Hw Hn _|
    l items ended uuid now l' _ IH Hn Hu|l items ended _ (f & Hf & _)|l items ended _ (f & Hf & Hh & _)].
  - destruct (init_kept None [] false rewrite) as (l1 & E & _ & Hl); [exists []; by split; [apply holds_nil|right]|].
    rewrite Hi in E. by injection E as -> _.
  - destruct (init_kept (stored l) items false rewrite (log_inv_kept _ _ IH)) as (l1 & E & _ & Hl).
    rewrite Hi in E. by injection E as -> _.
  - unfold do_log. case_bool_decide; [done|]. by apply (write_log_inv l items (Entry e) now).
  - revert Hu. unfold set_server_uuid, uuid_missing. destruct (server_uuid l) as [saved| | |]; cbn [mbind run_bind]; try done.
    case_bool_decide as Hs; [subst saved; intros [= <-]; by apply (write_log_inv l items (Set_server_uuid uuid) now)|].
    destruct saved; [done|]. destruct (negb _); [done|]. by intros [= <-].
  - exists []. unfold reset_progress. rewrite Hf. cbn. split_and!; [done|apply holds_nil|]. destruct (rewrite_on_flush l); auto.
  - exists f. unfold cleanup, flush. rewrite Hf. cbn. split_and!; [done|done|by left].
Qed.

(** ** Operations that end once *)

Definition ended_key (i : item) : option str :=
  match i.1 with Entry e => if is_end e then Some (key (status_entry e)) else None | Set_server_uuid _ => None end.
Definition ended_keys (items : list item) : list str := omap ended_key items.

Lemma find_key_lookup l k : find_key l k = m_last_state l !! k.
Proof. unfold find_key. case_bool_decide as E; [|done]. by rewrite E, lookup_empty. Qed.

Lemma status_spec l items e : m_last_state l = p_last_state (progress_of items) → status l e = spec_status items (key e).
Proof.
  intros E. unfold status. rewrite find_key_lookup, E. pose proof (progress_status_spec items (key e)) as Hs.
  by destruct (_ !! _) as [d|]; [destruct Hs|].
Qed.

Lemma ended_is_done items k : k ∈ ended_keys items → spec_status items k = DONE.
Proof.
  intros ([w now] & Hi & Hk)%list_elem_of_omap. unfold spec_status. assert (existsb (is_done k) items = true) as ->; [|done].
  apply existsb_exists. exists (w, now). split; [by apply list_elem_of_In|]. unfold ended_key in Hk. cbn in Hk.
  destruct w as [e|]; [|done]. destruct (is_end e) eqn:He; [|done]. injection Hk as <-. unfold is_done. cbn. by rewrite He, bool_decide_eq_true_2.
Qed.

Definition ended_inv (l : Load_progress_log) (items : list item) (ended : list str) : Prop :=
  NoDup (ended_keys items) ∧ ∀ k, k ∈ ended_keys items → k ∈ ended ∨ ∃ d, m_last_state l !! k = Some d ∧ sd_status d = DONE.

Lemma session_ended l items ended : session true l items ended → ended_inv l items ended.
Proof.
  induction 1 as [rewrite l st Hi|l items ended rewrite l' st Hs [IH1 IH2] Hi|l items ended e now Hs [IH1 IH2] Hw Hn Ho|
    l items ended uuid now l' Hs [IH1 IH2] Hn Hu|l items ended Hs [IH1 IH2]|l items ended Hs [IH1 IH2]].
  - split; [constructor|]. by intros k ?%elem_of_nil.
  - split; [done|]. intros k Hk%ended_is_done. right.
    destruct (init_kept (stored l) items false rewrite (log_inv_kept _ _ (session_inv _ _ _ _ Hs))) as (l1 & E & El & _).
    rewrite Hi in E. injection E as -> _. rewrite El. pose proof (progress_status_spec items k) as Hst. rewrite Hk in Hst.
    destruct (_ !! k) as [d|]; [|done]. exists d. split; [done|by destruct Hst].
  - assert (m_last_state (do_log l e now) = m_last_state l) as El.
    { unfold do_log, write_log. case_bool_decide; [done|]. destruct (m_file l) eqn:Ef; [|done]. unfold flush, file_write. cbn. by rewrite Ef. }
    unfold ended_inv. rewrite El. case_bool_decide as Hd.
    { split; [done|]. intros k Hk. destruct (IH2 k Hk) as [?|?]; [left|by right]. destruct (is_end e); [by right|done]. }
    unfold ended_keys. rewrite omap_app. cbn -[omap]. destruct (is_end e) eqn:He.
    + assert (omap ended_key [(Entry e, now)] = [key (status_entry e)]) as -> by (cbn; by rewrite He). split.
      * apply NoDup_app. split_and!; [done| |apply NoDup_singleton]. intros k Hk ->%list_elem_of_singleton.
        destruct (IH2 _ Hk) as [Hin|(d & Hl & Hdd)]; [by apply Ho in Hin|]. apply Hd. unfold status. by rewrite find_key_lookup, Hl.
      * intros k [Hk|Hk%list_elem_of_singleton]%elem_of_app; [|left; subst; left]. destruct (IH2 k Hk); [left; by right|by right].
    + assert (omap ended_key [(Entry e, now)] = []) as -> by (cbn; by rewrite He). by rewrite app_nil_r.
  - assert (m_last_state l' = m_last_state l ∧ ended_keys (if uuid_missing l then items ++ [(Set_server_uuid uuid, now)] else items) = ended_keys items)
      as [El Ek].
    { split; [|destruct (uuid_missing l); [|done]; unfold ended_keys; rewrite omap_app; apply app_nil_r].
      revert Hu. unfold set_server_uuid. destruct (server_uuid l) as [saved| | |]; cbn [mbind run_bind]; try done.
      case_bool_decide; [intros [= <-]|destruct (negb _); [done|by intros [= <-]]].
      unfold write_log. destruct (m_file l) eqn:Ef; [|done]. unfold flush, file_write. cbn. by rewrite Ef. }
    unfold ended_inv. by rewrite Ek, El.
  - split; [constructor|]. by intros k ?%elem_of_nil.
  - unfold ended_inv. assert (m_last_state (cleanup l) = m_last_state l) as -> by (unfold cleanup, flush; by destruct (m_file l)). done.
Qed.

Lemma spec_entry_in items k i : spec_entry items k = Some i → i ∈ items ∧ is_about k i = true.
Proof.
  unfold spec_entry. destruct (last _) as [j|] eqn:E.
  - intros [= <-]. apply last_Some_elem_of, list_elem_of_filter in E as [Hd Hj]. split; [done|by apply done_about].
  - intros Hh. apply head_Some_elem_of, list_elem_of_filter in Hh as [Ha Hi]. done.
Qed.

Lemma subchunk_bytes s t p c n bytes now :
  count_ok bytes → map_get_uint (line_entry (Entry (end_Table_subchunk s t p c n bytes)) now) ($"transaction_bytes") 0 = Ok bytes.
Proof.
  intros Hb. unfold map_get_uint. destruct p as [|a p]; lookup_members; cbn; by rewrite (proj2 (Z.leb_le 0 bytes)) by (unfold count_ok in Hb; lia).
Qed.

(** An attempt after an execution, in terms of the entries of the file. *)
Lemma session_resumes once l items ended dry rewrite :
  session once l items ended →
  ∃ l' st, init (stored l) dry rewrite = Ret (l', st) ∧
    (∀ e, status l' e = spec_status items (key e)) ∧
    progress_status st = (if bool_decide (items = []) then PENDING else INTERRUPTED) ∧
    data_bytes_completed st = u64 (total (λ s, s.1.1) items) ∧
    file_bytes_completed st = u64 (total (λ s, s.1.2) items) ∧
    rows_completed st = u64 (total (λ s, s.2) items) ∧
    (once = true → NoDup (ended_keys items)) ∧
    (∀ e s t p c n bytes now,
       spec_entry items (key e) = Some (Entry (end_Table_subchunk s t p c n bytes), now) → table_subchunk_size l' e = Ret bytes) ∧
    (dry = true → stored l' = stored l).
Proof.
  intros Hs. pose proof (session_inv _ _ _ _ Hs) as Hi. destruct (init_kept (stored l) items dry rewrite (log_inv_kept _ _ Hi)) as (l' & E & El & Hl').
  eexists l', _. split; [exact E|]. destruct (progress_totals items) as (E1 & E2 & E3). split_and!; try done.
  - intros e. by apply status_spec.
  - cbn. by rewrite (bool_decide_ext _ _ (progress_empty items)).
  - intros ->. by destruct (session_ended _ _ _ Hs).
  - intros e s t p c n bytes now He. unfold table_subchunk_size. rewrite find_key_lookup, El.
    destruct Hi as (f & _ & (chunks & _ & _ & Hok) & _). destruct (spec_entry_in _ _ _ He) as [Hin Ha]. rewrite Forall_forall in Hok.
    destruct (Hok _ Hin) as [[_ Hb] _]. destruct (p_last_state (progress_of items) !! key e) as [d|] eqn:Ed.
    + destruct (progress_entry_spec _ _ _ Ed) as (i & Hi & Hd). rewrite He in Hi. injection Hi as <-. destruct d as [sd dd]. cbn in Hd. subst dd.
      change (run_of (map_get_uint (line_entry (Entry (end_Table_subchunk s t p c n bytes)) now) ($"transaction_bytes") 0) = Ret bytes).
      by rewrite subchunk_bytes.
    + exfalso. pose proof (progress_status_spec items (key e)) as Hst. rewrite Ed in Hst. unfold spec_status in Hst.
      assert (existsb (is_about (key e)) items = true) as Hx by (apply existsb_exists; eexists; by split; [apply list_elem_of_In|]).
      rewrite Hx in Hst. by destruct (existsb (is_done _) items).
  - intros ->. by destruct Hl'.
Qed.

(** ** Operations *)

#[global] Instance Status_entry_eq_dec : EqDecision Status_entry.
Proof. solve_decision. Defined.

(** A call of the log is about an operation, or ends it. *)
Definition concerns (e : Status_entry) (w : Written) : bool :=
  match w with Entry x => bool_decide (status_entry x = e) | Set_server_uuid _ => false end.
Definition ends (e : Status_entry) (w : Written) : bool :=
  match w with Entry x => bool_decide (status_entry x = e) && is_end x | Set_server_uuid _ => false end.

(** What the calls say of an operation. *)
Definition operation_status (calls : list Written) (e : Status_entry) : Status :=
  if existsb (ends e) calls then DONE else if existsb (concerns e) calls then INTERRUPTED else PENDING.

(** The first end of each operation. *)
Fixpoint first_ends (seen : list Status_entry) (calls : list Written) : list Log_entry :=
  match calls with
  | [] => []
  | Entry x :: calls =>
      if is_end x && bool_decide (status_entry x ∉ seen) then x :: first_ends (status_entry x :: seen) calls
      else first_ends seen calls
  | Set_server_uuid _ :: calls => first_ends seen calls
  end.

Definition sum_of (size : Z * Z * Z → Z) (xs : list Log_entry) : Z := foldr Z.add 0 ((λ x, size (sizes (Entry x))) <$> xs).

(** The calls of all attempts since the progress was reset, and the operations that ended in
    the present one.  A load may be interrupted before any call, and is started again with the
    file as it is then.  With [once], no operation ends twice in an attempt. *)
Inductive attempts (once : bool) : Load_progress_log → list Written → list Status_entry → Prop :=
  | attempts_first rewrite l st : init None false rewrite = Ret (l, st) → attempts once l [] []
  | attempts_restart l calls ended rewrite l' st :
      attempts once l calls ended → init (stored l) false rewrite = Ret (l', st) → attempts once l' calls []
  | attempts_log l calls ended e now :
      attempts once l calls ended → written_ok (Entry e) → names_ok (status_entry e) → int_ok now →
      (once = true → is_end e = true → status_entry e ∉ ended) →
      attempts once (do_log l e now) (calls ++ [Entry e]) (if is_end e then status_entry e :: ended else ended)
  | attempts_uuid l calls ended uuid now l' :
      attempts once l calls ended → int_ok now → set_server_uuid l uuid now = Ret l' →
      attempts once l' (calls ++ [Set_server_uuid uuid]) ended
  | attempts_reset l calls ended : attempts once l calls ended → attempts once (reset_progress l) [] ended
  | attempts_cleanup l calls ended : attempts once l calls ended → attempts once (cleanup l) calls ended.

(** The entries in the file tell what the calls say. *)
Definition end_of (i : item) : option Log_entry :=
  match i.1 with Entry x => if is_end x then Some x else None | Set_server_uuid _ => None end.

Record tells (once : bool) (calls : list Written) (items : list item) (l : Load_progress_log) : Prop := {
  tells_done e : names_ok e → existsb (is_done (key e)) items = existsb (ends e) calls;
  tells_about e : names_ok e → existsb (is_about (key e)) items = existsb (concerns e) calls;
  tells_empty : items = [] ↔ calls = [];
  tells_ends : once = true → omap end_of items = first_ends [] calls;
  tells_read : ∃ read rest, items = read ++ rest ∧ m_last_state l = p_last_state (progress_of read);
}.

Lemma first_ends_snoc seen calls w :
  first_ends seen (calls ++ [w]) =
  first_ends seen calls ++
  match w with
  | Entry x => if is_end x && bool_decide (status_entry x ∉ seen) && negb (existsb (ends (status_entry x)) calls) then [x] else []
  | Set_server_uuid _ => []
  end.
Proof.
  revert seen. induction calls as [|c calls IH]; intros seen; cbn [app first_ends existsb].
  - destruct w as [x|]; cbn [first_ends]; [|done]. by rewrite andb_true_r; destruct (is_end x && _).
  - destruct c as [y|uuid]; [|apply IH]. destruct (is_end y) eqn:Ey; cbn [andb].
    + case_bool_decide as Hy; rewrite IH.
      * cbn [app]. f_equal. f_equal. destruct w as [x|]; [|done]. cbn [ends]. rewrite Ey, andb_true_r.
        destruct (decide (status_entry y = status_entry x)) as [E|E].
        -- rewrite (bool_decide_eq_true_2 (status_entry y = _)) by done. cbn [orb negb]. rewrite andb_false_r.
           rewrite (bool_decide_eq_false_2 (status_entry x ∉ _)) by (rewrite E; intros Hn; apply Hn; left).
           by rewrite andb_false_r.
        -- rewrite (bool_decide_eq_false_2 (status_entry y = _)) by done. cbn [orb].
           by rewrite (bool_decide_ext (status_entry x ∉ status_entry y :: seen) (status_entry x ∉ seen)) by set_solver.
      * f_equal. destruct w as [x|]; [|done]. cbn [ends]. rewrite Ey, andb_true_r.
        destruct (decide (status_entry y = status_entry x)) as [E|E]; [|by rewrite (bool_decide_eq_false_2 (status_entry y = _))].
        rewrite (bool_decide_eq_false_2 (status_entry x ∉ _)) by (rewrite <- E; intros Hn; by apply Hn). by rewrite andb_false_r.
    + rewrite IH. f_equal. destruct w as [x|]; [|done]. cbn [ends]. by rewrite Ey, andb_false_r.
Qed.

Lemma about_entry e x now : names_ok e → names_ok (status_entry x) → is_about (key e) (Entry x, now) = concerns e (Entry x).
Proof.
  intros He Hx. unfold is_about, concerns. cbn [fst written_key]. apply bool_decide_ext. split; [by apply keys_distinct|by intros ->].
Qed.

Lemma done_entry e x now : names_ok e → names_ok (status_entry x) → is_done (key e) (Entry x, now) = ends e (Entry x).
Proof.
  intros He Hx. change (is_done (key e) (Entry x, now)) with (is_about (key e) (Entry x, now) && is_end x). by rewrite about_entry.
Qed.

Lemma uuid_entry e uuid now : is_about (key e) (Set_server_uuid uuid, now) = false ∧ is_done (key e) (Set_server_uuid uuid, now) = false.
Proof.
  unfold is_done, is_about. cbn [fst written_key]. rewrite bool_decide_eq_false_2; [done|]. intros E. by destruct (key_not_uuid e).
Qed.

(** The status that was read at the beginning of the attempt. *)
Lemma read_done l read rest e :
  m_last_state l = p_last_state (progress_of read) → status l e = DONE → existsb (is_done (key e)) (read ++ rest) = true.
Proof.
  intros El Hd. rewrite (status_spec l read e El) in Hd. unfold spec_status in Hd. rewrite existsb_app.
  by destruct (existsb (is_done (key e)) read), (existsb (is_about (key e)) read).
Qed.

Lemma ends_done_key items e : existsb (is_done (key e)) items = true → key e ∈ ended_keys items.
Proof.
  intros ([w now] & Hin & Hd)%existsb_exists. apply list_elem_of_In in Hin. apply list_elem_of_omap. exists (w, now). split; [done|].
  destruct w as [x|uuid]; [|by rewrite (proj2 (uuid_entry e uuid now)) in Hd]. unfold is_done in Hd. cbn in Hd. unfold ended_key. cbn [fst].
  apply andb_true_iff in Hd as [E%bool_decide_eq_true_1 ->]. by rewrite E.
Qed.

Lemma last_state_log l e now : m_last_state (do_log l e now) = m_last_state l.
Proof.
  unfold do_log, write_log. case_bool_decide; [done|]. destruct (m_file l) eqn:Ef; [|done]. unfold flush, file_write. cbn. by rewrite Ef.
Qed.

Lemma tells_log once l calls items ended e now :
  session once l items (key <$> ended) → tells once calls items l → names_ok (status_entry e) → Forall names_ok ended →
  (once = true → is_end e = true → status_entry e ∉ ended) →
  tells once (calls ++ [Entry e]) (if bool_decide (status l (status_entry e) = DONE) then items else items ++ [(Entry e, now)]) (do_log l e now).
Proof.
  intros Hs [Hd Ha Hem Hen (read & rest & Er & El)] He Hend Honce.
  assert (status l (status_entry e) = DONE → existsb (is_done (key (status_entry e))) items = true) as Hdone
    by (intros Hx; rewrite Er; by eapply read_done).
  assert (∀ x, concerns x (Entry e) = true → existsb (is_done (key (status_entry e))) items = true →
    existsb (is_done (key x)) items = true ∧ existsb (is_about (key x)) items = true) as Hold.
  { intros x Hx%bool_decide_eq_true_1 Hi. subst x. split; [done|]. apply existsb_exists in Hi as (i & Hin & Hi). apply existsb_exists. exists i.
    split; [done|by apply done_about]. }
  assert (∀ x, ends x (Entry e) = true → concerns x (Entry e) = true) as Hec by (intros x; unfold ends, concerns; by intros [? _]%andb_true_iff).
  split.
  - intros x Hx. rewrite existsb_snoc, <- Hd by done. case_bool_decide as Hst.
    + destruct (ends x (Entry e)) eqn:E; [|by rewrite orb_false_r]. destruct (Hold x) as [-> _]; [by apply Hec|by apply Hdone|done].
    + by rewrite existsb_snoc, done_entry.
  - intros x Hx. rewrite existsb_snoc, <- Ha by done. case_bool_decide as Hst.
    + destruct (concerns x (Entry e)) eqn:E; [|by rewrite orb_false_r]. destruct (Hold x) as [_ ->]; [done|by apply Hdone|done].
    + by rewrite existsb_snoc, about_entry.
  - split; [|by destruct calls]. case_bool_decide as Hst; [|by destruct items]. intros ->. by specialize (Hdone Hst).
  - intros Ho. rewrite first_ends_snoc, <- Hen by done. rewrite (bool_decide_eq_true_2 (status_entry e ∉ [])) by set_solver. rewrite andb_true_r.
    case_bool_decide as Hst.
    + rewrite <- Hd, Hdone by done. cbn [negb]. by rewrite andb_false_r, app_nil_r.
    + rewrite omap_app. f_equal. cbn [omap list_omap end_of fst]. destruct (is_end e) eqn:Ee; [|done]. cbn [andb].
      assert (existsb (ends (status_entry e)) calls = false) as ->; [|done]. apply not_true_iff_false. rewrite <- Hd by done. intros Hx%ends_done_key.
      subst once. destruct (proj2 (session_ended _ _ _ Hs) _ Hx) as [Hin|(dd & Hl & Hdd)].
      * apply list_elem_of_fmap in Hin as (e' & Hk & Hin). rewrite Forall_forall in Hend.
        apply keys_distinct in Hk; [subst e'|done|by apply Hend]. by apply Honce.
      * apply Hst. unfold status. by rewrite find_key_lookup, Hl.
  - rewrite last_state_log. case_bool_decide; [by exists read, rest|]. exists read, (rest ++ [(Entry e, now)]). split; [|done].
    by rewrite Er, <- app_assoc.
Qed.

Lemma tells_uuid once l calls items uuid now l' :
  tells once calls items l → set_server_uuid l uuid now = Ret l' →
  tells once (calls ++ [Set_server_uuid uuid]) (if uuid_missing l then items ++ [(Set_server_uuid uuid, now)] else items) l'.
Proof.
  intros [Hd Ha Hem Hen (read & rest & Er & El)] Hu.
  assert (m_last_state l' = m_last_state l ∧ (uuid_missing l = true ∨ items ≠ [])) as [El' Hmiss].
  { revert Hu. unfold set_server_uuid, uuid_missing. destruct (server_uuid l) as [saved| | |] eqn:Es; cbn [mbind run_bind]; try done.
    case_bool_decide as Hsv.
    - subst saved. intros [= <-]. split; [|by left]. unfold write_log. destruct (m_file l) eqn:Ef; [|done]. unfold flush, file_write. cbn. by rewrite Ef.
    - destruct (negb _); [done|]. intros [= <-]. split; [done|]. right. intros ->. apply Hsv. unfold server_uuid in Es.
      rewrite find_key_lookup, El in Es. symmetry in Er. apply app_nil in Er as [-> ->]. by injection Es. }
  split.
  - intros x Hx. rewrite existsb_snoc, <- Hd, orb_false_r by done. destruct (uuid_missing l); [|done].
    rewrite existsb_snoc, (proj2 (uuid_entry x uuid now)). apply orb_false_r.
  - intros x Hx. rewrite existsb_snoc, <- Ha, orb_false_r by done. destruct (uuid_missing l); [|done].
    rewrite existsb_snoc, (proj1 (uuid_entry x uuid now)). apply orb_false_r.
  - split; [|by destruct calls]. destruct (uuid_missing l); [by destruct items|]. by destruct Hmiss.
  - intros Ho. rewrite first_ends_snoc, app_nil_r, <- Hen by done. destruct (uuid_missing l); [|done]. by rewrite omap_app, app_nil_r.
  - rewrite El'. destruct (uuid_missing l); [|by exists read, rest]. exists read, (rest ++ [(Set_server_uuid uuid, now)]). split; [|done].
    by rewrite Er, <- app_assoc.
Qed.

(** The file of an execution, in terms of the entries it holds. *)
Lemma attempts_session once l calls ended :
  attempts once l calls ended → Forall names_ok ended ∧ ∃ items, session once l items (key <$> ended) ∧ tells once calls items l.
Proof.
  induction 1 as [rewrite l st Hi|l calls ended rewrite l' st _ [Hok (items & Hs & Ht)] Hi|l calls ended e now _ [Hok (items & Hs & Ht)] Hw Hn Hnow Ho|
    l calls ended uuid now l' _ [Hok (items & Hs & Ht)] Hn Hu|l calls ended _ [Hok (items & Hs & Ht)]|l calls ended _ [Hok (items & Hs & Ht)]].
  - split; [done|]. exists []. split; [by eapply session_first|]. split; [done|done|done|done|]. exists [], []. split; [done|].
    destruct (init_kept None [] false rewrite) as (l1 & E & El & _); [exists []; by split; [apply holds_nil|right]|]. rewrite Hi in E. by injection E as -> _.
  - split; [done|]. exists items. split; [by eapply session_restart|].
    destruct (init_kept (stored l) items false rewrite (log_inv_kept _ _ (session_inv _ _ _ _ Hs))) as (l1 & E & El & _).
    rewrite Hi in E. injection E as -> _. destruct Ht as [? ? ? ? _]. split; try done. exists items, []. by rewrite app_nil_r.
  - split; [destruct (is_end e); [by constructor|done]|]. eexists. split; [|by apply (tells_log once l calls items ended)].
    assert (key <$> (if is_end e then status_entry e :: ended else ended) = (if is_end e then key (status_entry e) :: (key <$> ended) else key <$> ended))
      as -> by (by destruct (is_end e)).
    apply session_log; try done. intros Hone He Hin. apply list_elem_of_fmap in Hin as (e' & Hk & Hin). rewrite Forall_forall in Hok.
    apply keys_distinct in Hk; [subst e'|done|by apply Hok]. by apply Ho.
  - split; [done|]. eexists. split; [by eapply session_uuid|by eapply tells_uuid].
  - split; [done|]. exists []. split; [by eapply session_reset|]. split; try done. exists [], []. done.
  - split; [done|]. exists items. split; [by eapply session_cleanup|]. destruct Ht as [? ? ? ? (read & rest & ? & El)]. split; try done.
    exists read, rest. split; [done|]. rewrite <- El. unfold cleanup, flush. by destruct (m_file l).
Qed.

Lemma total_ends size items : size (0, 0, 0) = 0 → total size items = sum_of size (omap end_of items).
Proof.
  intros Hzero. unfold total, sum_of. induction items as [|[w now] items IH]; [done|]. cbn [fmap list_fmap foldr fst]. rewrite IH.
  destruct w as [x|uuid]; cbn [written_done sizes omap list_omap end_of fst]; [|cbn; by rewrite Hzero].
  destruct (is_end x); cbn [fmap list_fmap foldr]; [done|lia].
Qed.

(** An operation that ended once has the entry of its end. *)
Lemma spec_entry_end items x :
  NoDup (ended_keys items) → x ∈ omap end_of items → ∃ now, spec_entry items (key (status_entry x)) = Some (Entry x, now).
Proof.
  intros Hnd ([w now] & Hin & Hx)%list_elem_of_omap. exists now.
  destruct w as [y|]; [|done]. unfold end_of in Hx. cbn [fst] in Hx. destruct (is_end y) eqn:Ey; [|done]. injection Hx as ->.
  set (k := key (status_entry x)). unfold spec_entry.
  assert (filter (λ i, is_done k i = true) items = [(Entry x, now)]) as ->; [|done].
  apply list_elem_of_split in Hin as (l1 & l2 & ->). unfold ended_keys in Hnd. rewrite omap_app in Hnd.
  change (omap ended_key ((Entry x, now) :: l2)) with (match ended_key (Entry x, now) with Some k => k :: omap ended_key l2 | None => omap ended_key l2 end) in Hnd.
  assert (ended_key (Entry x, now) = Some k) as Ek by (unfold ended_key; cbn [fst]; by rewrite Ey). rewrite Ek in Hnd.
  apply NoDup_app in Hnd as (_ & Hd & Hnd). apply NoDup_cons in Hnd as [Hk _].
  assert (∀ l, k ∉ ended_keys l → filter (λ i, is_done k i = true) l = []) as Hno.
  { intros l Hl. apply filter_existsb, not_true_iff_false. intros Hx. by apply Hl, ends_done_key. }
  rewrite filter_app, filter_cons_True.
  - rewrite (Hno l1), (Hno l2); [done|done|]. intros Hl. apply (Hd k Hl). left.
  - unfold is_done. cbn [fst written_key written_done]. by rewrite Ey, bool_decide_eq_true_2.
Qed.

(** C17: A load that is interrupted between any two calls of its progress log, in any
    number of attempts, can be resumed, for operations on schemas, tables and partitions
    without a backtick in their names and with numbers that a signed 64-bit integer holds:
    the file is read back; each operation is done if a call ended it in some attempt since
    the progress was reset, interrupted if it was only started, and pending otherwise. If
    no operation ends twice in the same attempt, the completed sizes are the sums, modulo
    2^64, over the operations that are done, each counted once with the sizes of its first
    end, and the size of a part of a chunk is that of its end. A dry run leaves the file
    as it is. *)
Theorem progress_log_resumes once l calls ended dry rewrite :
  attempts once l calls ended →
  ∃ l' st, init (stored l) dry rewrite = Ret (l', st) ∧
    (∀ e, names_ok e → status l' e = operation_status calls e) ∧
    progress_status st = (if bool_decide (calls = []) then PENDING else INTERRUPTED) ∧
    (once = true →
      data_bytes_completed st = u64 (sum_of (λ s, s.1.1) (first_ends [] calls)) ∧
      file_bytes_completed st = u64 (sum_of (λ s, s.1.2) (first_ends [] calls)) ∧
      rows_completed st = u64 (sum_of (λ s, s.2) (first_ends [] calls)) ∧
      (∀ s t p c n bytes, end_Table_subchunk s t p c n bytes ∈ first_ends [] calls →
        table_subchunk_size l' (Table_subchunk s t p c n) = Ret bytes)) ∧
    (dry = true → stored l' = stored l).
Proof.
  intros [_ (items & Hs & [Hd Ha Hem Hen _])]%attempts_session.
  destruct (session_resumes _ _ _ _ dry rewrite Hs) as (l' & st & E & Hst & Hpr & Hb & Hf & Hr & Hnd & Hsub & Hdry).
  exists l', st. split_and!; [done| |by rewrite Hpr, (bool_decide_ext _ _ Hem)| |done].
  - intros e He. rewrite Hst. unfold spec_status, operation_status. by rewrite Hd, Ha.
  - intros Ho. rewrite <- Hen, Hb, Hf, Hr by done. split_and!; [by rewrite total_ends..|].
    intros s t p c n bytes Hin. destruct (spec_entry_end items _ (Hnd Ho) Hin) as [now He]. by eapply (Hsub (Table_subchunk s t p c n)).
Qed.
End files.

(** ** A load in two attempts *)

Section sample.
Import ScriptReprFacts.Sample JsonDumperFacts.Compact.

Definition log_of (r : run (Load_progress_log * Progress_status)) : Load_progress_log :=
  match r with Ret (l, _) => l | _ => {| m_last_state := ∅; m_file := None; rewrite_on_flush := false; stored := None |} end.

Definition sample_task : Task := {| worker_id := 2; weight := 1 |}.
Definition chunk0 : Status_entry := Table_chunk ($"s") ($"t") ($"p") 0.
Definition chunk1 : Status_entry := Table_chunk ($"s") ($"t") ($"p") (-1).

(** The first attempt ends one chunk and starts the next one. *)
Definition log0 : Load_progress_log := log_of (init None false true).
Definition log1 : Load_progress_log := do_log log0 (start_Table_chunk ($"s") ($"t") ($"p") 0 sample_task) 100.
Definition log2 : Load_progress_log := do_log log1 (end_Table_chunk ($"s") ($"t") ($"p") 0 10 20 3) 200.
Definition log3 : Load_progress_log := do_log log2 (start_Table_chunk ($"s") ($"t") ($"p") (-1) sample_task) 300.
Definition sample_calls : list Written :=
  [Entry (start_Table_chunk ($"s") ($"t") ($"p") 0 sample_task); Entry (end_Table_chunk ($"s") ($"t") ($"p") 0 10 20 3);
   Entry (start_Table_chunk ($"s") ($"t") ($"p") (-1) sample_task)].

Lemma sample_attempts : attempts true log3 sample_calls [chunk0].
Proof.
  assert (attempts true log0 [] []) as H0 by (eapply (attempts_first true true); reflexivity).
  assert (∀ z, 0 <= z < 1000 → count_ok z ∧ int_ok z) as Hz by (intros z Hz; unfold count_ok, int_ok, INT64_MIN, INT64_MAX; lia).
  assert (int_ok (-1)) as Hm by (by unfold int_ok, INT64_MIN, INT64_MAX).
  assert (∀ z, names_ok (Table_chunk ($"s") ($"t") ($"p") z)) as Hn by (intros z; split_and!; by apply (bool_decide_unpack _)).
  pose proof (attempts_log true log0 [] [] (start_Table_chunk ($"s") ($"t") ($"p") 0 sample_task) 100 H0) as H1.
  assert (attempts true log1 (take 1 sample_calls) []) as H1'.
  { apply H1; [split; [by apply Hz|by split; apply Hz]|apply Hn|by apply Hz|done]. }
  pose proof (attempts_log true log1 _ _ (end_Table_chunk ($"s") ($"t") ($"p") 0 10 20 3) 200 H1') as H2.
  assert (attempts true log2 (take 2 sample_calls) [chunk0]) as H2'.
  { apply H2; [split; [by apply Hz|by split_and!; apply Hz]|apply Hn|by apply Hz|by intros _ _ ?%elem_of_nil]. }
  apply (attempts_log true log2 _ _ (start_Table_chunk ($"s") ($"t") ($"p") (-1) sample_task) 300 H2');
    [split; [done|by split; apply Hz]|apply Hn|by apply Hz|done].
Defined.

(** The second attempt. *)
Lemma progress_log_resumes_witness :
  attempts true log3 sample_calls [chunk0] ∧
  ∃ l' st, init (stored log3) false true = Ret (l', st) ∧ status l' chunk0 = DONE ∧ status l' chunk1 = INTERRUPTED ∧
    status l' (Gtid_update) = PENDING ∧ rows_completed st = 3.
Proof.
  split; [exact sample_attempts|].
  destruct (progress_log_resumes true log3 sample_calls [chunk0] false true sample_attempts) as (l' & st & E & Hst & _ & Hr & _).
  destruct (Hr eq_refl) as (_ & _ & Hrows & _).
  exists l', st. rewrite !Hst, Hrows; [|done|split_and!; by apply (bool_decide_unpack _)..]. split_and!; [exact E|reflexivity..].
Defined.

(** A line that was not written to its end makes the file unreadable. *)
Lemma torn_line_rejected : init (Some (take 20 (default [] (stored log1)))) false true = Raise k_progress_file_error.
Proof. reflexivity. Qed.
End sample.
